(* ===== verification/_CoqProject ===== *)
-Q . S2P
Prelude.v
GoStrings.v
GoPath.v
Float64.v
Truncate.v
Runes.v
CompositeKey.v
CallCounter.v
FlowLabelStore.v
KillSwitch.v
CircuitBreaker.v
Glob.v
Capability.v
DenialDetails.v
CaseFold.v
Magnitude.v
ArgumentPath.v
Effect.v
Numeric.v
NumericExact.v
Schema.v
Selection.v
Anchor.v
Backends.v
Engine.v
Fixtures.v
EngineSafety.v
Construction.v
Handlers.v
FlowControl.v
EffectHandlers.v
ArgumentHandlers.v
AuditVerify.v
AuditWriter.v
AuditRecovery.v
AuditRecord.v
AuditRuns.v
AuditTamper.v
AuditFixtures.v
AuditScenarios.v
SurfacePin.v
ManifestPDP.v
PDPSafety.v
PDPForwarding.v
PDPScenarios.v
JSON.v
Encode.v
KeyScan.v
ToolSurface.v
ListFilter.v
ListSafety.v
ListScenarios.v
Redact.v
RedactMask.v
RedactSafety.v
RedactRelease.v
RedactScenarios.v
TokenClaims.v
TokenPDP.v
TokenSafety.v
TokenRoute.v
TokenScenarios.v
PayloadCache.v
ClaimScan.v
KeyCache.v
KeyRotation.v
TokenValidation.v
TokenTrust.v
TokenTrustScenarios.v
