(* ===== verification/Prelude.v ===== *)
(** * Verification of eunox, the MCP capability firewall

    eunox is a proxy between an MCP client (an agent) and MCP servers.  Every call is a
    request that a policy, a list of constraints, must allow; every list and every response
    that comes back is rewritten to what the policy lets the agent see; every decision is
    written to a signed log.  This library models the decision engine of the proxy
    (pkg/enforcement), the vocabulary it decides on (pkg/capability), the in-process state it
    keeps (pkg/callcounter, pkg/flowlabelstore, pkg/killswitch), the breaker that guards its
    remote backends (pkg/circuitbreaker), the decision point the proxy runs on each MCP
    message with the rewriting of lists and responses (internal/pdp) and the audit log
    (internal/audit), and proves what makes them correct.

    ** The parts and how they interact

    A request names a target and a session, and may carry token claims.  The decision point
    of the route asks the kill switch, then the two interface pins of the target, selects the
    constraint that governs it and gives it to the engine.  The engine validates the
    arguments, runs the pure conditions of the constraint, checks the consequence ceiling,
    admits all quota buckets of the constraint in one atomic call of the call counter, and
    commits the flow labels and the history marker of the call; any refusal on the way ends
    the decision.  The decision point hardens, taints and answers; the transport forwards an
    allowed call, and a refused one where the route only observes.  The response is redacted
    by the obligations of the decision.  A list arms the pins and is filtered to what the
    manifest lets the session use.  The accumulated state is keyed on the request's anchor
    (its task or its session) through one injective key encoding.  The label store and the
    call counter are interfaces with several implementations; the engine's theorems are
    proved against the laws of the interfaces, and the in-memory implementations are shown to
    satisfy them.  What the engine calls without looking into it is an interface of its own
    (Engine.Leaf), and EffectHandlers.capability_leaf is the implementation of pkg/capability.
    The decision point itself is an interface (TokenPDP.PolicyDecisionPoint): the layer that
    reads a token's claims wraps any implementation that keeps its laws.  Those claims come from
    the validator of bearer tokens, which keeps its outcomes in two caches and asks the issuer's
    key set, itself cached, for the keys a signature is tried against.

    ** Files

    Foundations:

    - Prelude.v (this file): results of fallible functions, 64-bit wrap-around, instants
      and durations, list lemmas, tactics.
    - GoStrings.v, GoPath.v, Runes.v, Float64.v: what the code uses of Go's strings, strconv,
      utf8, path and url packages, and binary64 arithmetic.
    - JSON.v, Encode.v: what it uses of encoding/json: the scanner, the decoded tree, the
      spans a RawMessage captures, the encoder.

    Stores and the breaker:

    - CompositeKey.v: pkg/capability/composite_key.go and storageKey of
      pkg/callcounter/memory.go.
    - CallCounter.v: pkg/callcounter/callcounter.go and memory.go (AdmitAll,
      IncrementAndGet, Peek, Cleanup).
    - FlowLabelStore.v: pkg/flowlabelstore/memory.go (Add, Get, Remove, Clear, Cleanup).
    - KillSwitch.v: pkg/killswitch/dimension.go, killswitch.go, memory.go, session_ttl.go.
    - CircuitBreaker.v: pkg/circuitbreaker/breaker.go and do.go.

    The vocabulary of policies:

    - Capability.v: the data model of pkg/capability (errors.go, wirecode.go,
      constraint.go, condition.go, directive.go, flowlabel.go, taskvar.go, effect.go,
      enforce.go) with the functions on it that decisions use.
    - Truncate.v: truncate.go; DenialDetails.v: pkg/enforcement/denial_details.go.
    - CaseFold.v: json_fold.go and json_ambiguous.go; ArgumentPath.v: argument_path.go.
    - Magnitude.v, Effect.v: effect.go and effect_validate.go.
    - Numeric.v, Schema.v: the numeric helpers of pkg/enforcement/handlers.go, and
      pkg/enforcement/schema.go.  NumericExact.v: the helpers against exact rational values.

    The engine (pkg/enforcement):

    - Glob.v: glob.go.
    - Selection.v: FindMatchingCapability, ResourceSpecificity, ConstraintScorer and the
      resolution of targets, of engine.go.
    - Anchor.v: anchor.go and the key builders of flowlabel.go.
    - Backends.v: the interfaces capability.CallCounter and capability.FlowLabelStore as
      type classes with laws, the world the engine acts on, and the in-memory instances.
    - Engine.v: ValidateAction, EvaluateConditions, evaluateMatched and everything they
      call in engine.go, the ceiling of effect.go, the label reads and writes of
      flowlabel.go, the seams CeilingVerdictFor, RecordSourceCall, PeekSessionLabels and
      NonCommittingConditionVerdict.
    - Fixtures.v: a small concrete deployment on which theorems are instantiated.
    - EngineSafety.v: the theorems about every decision.
    - Construction.v: New, the options and the handler registry of engine.go,
      pkg/capability/subsystem.go, PolicyTokens of internal/config/manifest_policy.go and
      the options of internal/transport/route.go.
    - Handlers.v: the handlers of handlers.go that use the counter (maxCalls,
      sequenceBlock) and the extension points (policy, custom).
    - FlowControl.v: handleFlowLabel and the source-to-sink theorems.
    - EffectHandlers.v: effectClass and blastRadius of effect.go, and the instance
      capability_leaf of Engine.Leaf.
    - ArgumentHandlers.v: the other handlers of handlers.go and the compilation of
      conditions (condition.go).

    The audit log (internal/audit):

    - AuditVerify.v: verify.go, join.go and the records of audit.go.
    - AuditWriter.v: the drainer side of audit.go, rotate.go and resume.go.
    - AuditRecovery.v, AuditRuns.v, AuditTamper.v: the invariant of the writer, whole runs
      with faults and crashes, and what a passing verification proves.
    - AuditRecord.v: Record of audit.go up to the queue, the bounds and the normalization of
      every field, and that the writer can sign what it makes.
    - AuditFixtures.v, AuditScenarios.v: a concrete codec, and runs over it.

    The decision point (internal/pdp):

    - SurfacePin.v: surface_pin.go; ToolSurface.v: description_hash.go of pkg/capability
      and SurfaceHash.
    - ManifestPDP.v: the decisions of pdp.go, isObserveDeny of internal/transport/forward.go
      and the conditions of a token claim of jwt.go.
    - PDPSafety.v, PDPForwarding.v, PDPScenarios.v: its theorems and a small manifest.
    - KeyScan.v: the duplicate-key scan of pdp.go.
    - ListFilter.v, ListSafety.v, ListScenarios.v: the lists of pdp.go from the bytes of a
      result to the armed pins and the filtered bytes.
    - Redact.v: redact.go and validateRedactFields of internal/config/manifest.go;
      RedactMask.v, RedactSafety.v, RedactRelease.v, RedactScenarios.v: its theorems.
    - TokenClaims.v: the capability claims of jwt.go, from their text to constraints.
    - TokenPDP.v: the interface PolicyDecisionPoint of pdp.go, its two constant
      implementations, and JWTPDP of jwt.go around any implementation.
    - TokenSafety.v, TokenRoute.v, TokenScenarios.v: the laws of the interface with every
      implementation an instance, the theorems of the token layer over the laws and over a
      manifest, and a small token.
    - PayloadCache.v: payload_cache.go; ClaimScan.v: claim_json.go and token.go;
      KeyCache.v: jwkscache.go; KeyRotation.v: jwks.go (all of pkg/capability).
    - TokenValidation.v: ValidateToken of jwt.go, and jwt_cache.go.
    - TokenTrust.v, TokenTrustScenarios.v: its theorems, and a small signing scheme.

    ** How the code is represented

    Definitions keep the names of the Go functions.  A method that changes its receiver
    returns the new state; a function that returns an error returns a [result] or an
    option; the engine's code runs in a state monad over the backends and the trace of the
    calls made to them (Backends.M).  A nil pointer or nil interface is [None]; an
    interface that holds a nil pointer is a constructor of its own where the code tells it
    apart.  Integers are Z, wrapped to 64 bits where the code can overflow; floats are
    binary64; strings are byte strings.  Methods that hold a lock for their whole body are
    atomic steps; concurrent use is a sequence of such steps (CircuitBreaker.sys_step,
    the runs of CallCounter and KillSwitch), and clean-up routines that release the lock
    are given as their separate critical sections.  Clocks, request ids and random
    identifiers are arguments.  Registered condition handlers are arbitrary computations,
    as an embedder may register any; theorems that need them tame say how
    (EngineSafety.quiet, EngineSafety.handlers_preserve).  A failing write, a crash or a
    rename that fails is an argument of the step it strikes (AuditWriter.v).  The text of a
    message is its format string with its arguments, not rendered.

    ** What the theorems show

    - Decisions (EngineSafety.v): an allow means that every check was made and passed;
      quota is charged at most once, after every check that can refuse without state;
      what an observing route forwards is masked; what cannot be evaluated blocks; the
      ceiling cannot be passed; what nothing governs is denied without a trace.
    - Construction (Construction.v): a route's engine wires every facility its policy
      needs, and skipping the flow path for a policy that does not need it changes nothing.
    - State-carrying conditions (Handlers.v, FlowControl.v): an allowed call is counted
      in the bucket of its anchor and target; a sequence rule holds for as long as the
      record does; labelled data stays out of the sinks that do not admit it; a failed
      commit leaves no label.
    - Arguments (ArgumentHandlers.v, ArgumentPath.v, Schema.v, Numeric.v): each handler
      decides a declarative reading of its condition, and an allowed call meets all of
      them; the schema validator accepts exactly what conforms by the exact values of numbers
      (NumericExact.v), for the numbers that binary64 holds or that are plain int64 literals,
      and where other spellings are rounded instead.
    - Effects (Magnitude.v, Effect.v, EffectHandlers.v): exact comparison of magnitudes,
      validated contracts always resolve, an allowed amount is within its bound.
    - Denials (Truncate.v, DenialDetails.v): what is written to the log is valid and bounded,
      with the one shape that is not.
    - Keys (CaseFold.v): the fold of a key is the canonical form of its case variants; the
      walk over the variants of a rune ends, with the preferred one.
    - Identity (Anchor.v, CompositeKey.v): state keys of different subjects, routes or
      namespaces never collide, and a task-anchored caller cannot split its state.
    - Selection (Selection.v): the constraint selected is the best one under specificity,
      principal scoping and order; exact names beat patterns.
    - Values (Glob.v): confinement of path patterns, and the dynamic program against the
      recursive definition of matching.
    - Stores (CallCounter.v, FlowLabelStore.v, KillSwitch.v): AdmitAll returns what a
      specification over a log that never forgets computes, the quota on every run, visibility of records for their whole
      window, clean-up that cannot be observed, bounds on memory, taint that only
      removal or expiry reduces, blocking as a function of the history of kills.
    - Breaker (CircuitBreaker.v): the half-open probe accounting over all interleavings,
      no wedged state, and the wrapper as a refinement of the steps.
    - Audit log (AuditVerify.v, AuditRuns.v, AuditTamper.v): the verifier accepts exactly
      the chained logs; the runs of the writer that AuditRuns.run_ok describes, with failed
      writes, rotations, retention and crashes, leave a log that verifies, with the one crash
      that does not (AuditScenarios.v); an edited log that verifies holds the records the
      writer signed, in order.  Both are about records that survive decoding and encoding
      (AuditVerify.encodable): encoding/json does not write a string of invalid UTF-8 back as
      it was, and AuditRecord.recorded_is_stampable shows that Record never queues one.
    - Proxy (PDPSafety.v, PDPForwarding.v): an allowed call passed the kill switch, the
      pins, the principal and the engine; a revoked caller and a changed tool are refused in
      a way no observing route forwards; every forwarded call taints and is masked; a
      layer wrapped around the decision point cannot weaken it.
    - Lists (KeyScan.v, SurfacePin.v, ToolSurface.v, ListSafety.v): the byte scan answers
      its question about the decoded entry; a tool that is still callable had one surface
      in every listing; what is listed can be called.
    - Redaction (RedactRelease.v): in what is released, every declared field is masked and
      nothing else is changed; what cannot be inspected is not released.
    - Tokens (TokenClaims.v, TokenSafety.v, TokenRoute.v): a token only restricts what the
      decision point it wraps allows; its own refusals are hardened by that decision point,
      but for those of cancellations and sampling, which the code leaves as they are
      (TokenScenarios.cancel_skips_inner_kill); a revoked or foreign caller gets nothing; a
      claim that was validated is enforced; an operation grant reads every argument.
    - Validation (PayloadCache.v, ClaimScan.v, KeyCache.v, TokenTrust.v): an accepted token
      was verified under a key the issuer served, in the call or shortly before; what is
      accepted reads alike to every decoder; a refusal that is kept stands; a good token is
      accepted; the newest fetch of the key set wins, and forced fetches are spaced.

    ** Bounds and fuel

    GoPath.Match consumes its pattern and its name; its fuel is what is left of both, and
    GoPath.Match_total shows that it never runs out.  Loops over a text carry its length as
    fuel and consume at least a byte a turn: GoStrings.TrimSpace, Truncate.toValid, the rune
    loops of Truncate.v, Runes.v and CaseFold.v, the tokens, members and items of JSON.v, the
    scanner of KeyScan.v and the trims of Redact.v.  A parser or a walk over nested values
    carries the bound the code itself has: the nesting limit of the decoder (10000,
    JSON.parseValue), that of the duplicate-key scan (KeyScan.maxDuplicateKeyScanDepth) and
    the nesting of redaction (Redact.fullRoom).  The scan of arguments for operations descends
    the value, cut at the code's TokenPDP.maxArgStringDepth.  CaseFold.foldLoop carries a bound on
    the case variants of a rune, and CaseFold.fold_walk_terminates derives from the documented
    order of unicode.SimpleFold that it is enough.  The heap of DenialDetails.v carries its own length.  Batches of a clean-up
    carry the number of keys scanned.  The table of Glob.matchGlobSegments is structural, as
    are the walks over values.  The sizes, ages and numbers of keys of the token caches are the
    code's own constants; the readings of the clock and the responses to come are scripts of any
    length, and at the end of the script the clock stands still (KeyCache.KeyWorld).  The quota theorem asks for limits and run lengths up
    to 2^53, where binary64 counts exactly; the code rejects larger limits.

    ** What is not modelled

    Parameters, with what is relied on as named hypotheses or class laws: regular expressions
    (Schema.v, ArgumentHandlers.v), the Unicode tables (CaseFold.Unicode), parsing of networks
    and instants, SHA-256 and HMAC, the text of a magnitude, the JSON codec of audit records
    (AuditVerify.AuditCodec) and of their details (AuditRecord.DetailsEncoder), json.Marshal of annotations (ToolSurface.v), the library of tokens
    and keys (TokenValidation.Jose and KeyCache.JWK, with the laws TokenTrust.JoseLaws).  JSON.v and Encode.v
    give the documented behaviour of encoding/json version 1.

    Left out: the Redis backends (Lua run by a server); the transports (HTTP, stdio,
    subprocesses); the loaders of manifests and gateway configurations except for the checks
    named above; the decoding of conditions and directives from JSON; the
    HTTP fetch of the key set, of which the response is an argument, the collapsing of its
    concurrent callers and its health report; the
    queue, the locks and the naming of files of the audit log; the command line; drift
    detection and the effect registry.  They are input and output around the parts above, or
    code of libraries. *)
From stdpp Require Import base tactics list gmap strings fin_maps relations.
From Stdlib Require Import ZArith Lia.

(** ** Scope and automation *)

Declare Scope go_scope.
Delimit Scope go_scope with go.
Create HintDb eunox.
Create Rewrite HintDb eunox.

(** ** Results of fallible Go functions

    A Go function that returns [(T, error)] returns an element of [result T E]:
    [Ok v] for [(v, nil)] and [Err e] for a non-nil error, where [E] enumerates
    the errors the function can build. *)
Inductive result (A E : Type) : Type :=
| Ok (a : A)
| Err (e : E).
Arguments Ok {A E} a.
Arguments Err {A E} e.

Definition rbind {A B E} (r : result A E) (k : A -> result B E) : result B E :=
  match r with
  | Ok a => k a
  | Err e => Err e
  end.

Definition is_ok {A E} (r : result A E) : bool :=
  match r with Ok _ => true | Err _ => false end.

Notation "'let*' x ':=' r 'in' k" := (rbind r (fun x => k))
  (at level 10, x binder, r at level 100, k at level 200) : go_scope.

Lemma rbind_ok {A B E} (r : result A E) (k : A -> result B E) b :
  rbind r k = Ok b <-> exists a, r = Ok a /\ k a = Ok b.
Proof.
  destruct r as [a|e]; simpl; split.
  - intros Hk. exists a. split; [reflexivity | exact Hk].
  - intros (a' & Ha & Hk). injection Ha as ->. exact Hk.
  - discriminate.
  - intros (a' & Ha & _). discriminate.
Qed.

(** ** Machine integers

    Go's [int] and [int64] are 64-bit two's complement (the development models a
    64-bit platform) and [uint64] is arithmetic modulo [2^64]; each is an element
    of [Z] and every operation that can leave the range wraps explicitly. *)
Definition two63 : Z := 9223372036854775808.
Definition two64 : Z := 18446744073709551616.
Definition max_int64 : Z := two63 - 1.
Definition min_int64 : Z := - two63.

Definition wrap_int64 (z : Z) : Z := (z + two63) mod two64 - two63.
Definition wrap_uint64 (z : Z) : Z := z mod two64.

Definition in_int64 (z : Z) : Prop := (min_int64 <= z <= max_int64)%Z.

Lemma wrap_int64_id z : in_int64 z -> wrap_int64 z = z.
Proof.
  unfold in_int64, wrap_int64, min_int64, max_int64, two63, two64; intros H.
  rewrite Z.mod_small; lia.
Qed.

Lemma wrap_int64_range z : in_int64 (wrap_int64 z).
Proof.
  unfold in_int64, wrap_int64, min_int64, max_int64.
  pose proof (Z.mod_pos_bound (z + two63) two64 eq_refl).
  unfold two63, two64 in *; lia.
Qed.

Lemma wrap_uint64_id z : (0 <= z < two64)%Z -> wrap_uint64 z = z.
Proof. intros H. apply Z.mod_small, H. Qed.

#[export] Hint Rewrite @wrap_int64_id @wrap_uint64_id
  using (unfold in_int64, min_int64, max_int64, two63, two64 in *; lia) : eunox.

(** ** Time

    A [time.Time] is an instant in nanoseconds since the Unix epoch and a
    [time.Duration] an int64 number of nanoseconds.  [t.Sub(u)] saturates at the
    int64 bounds; [t.Add(d)] is exact. *)
Abbreviation time := Z (only parsing).
Abbreviation duration := Z (only parsing).

Definition second : duration := 1000000000.
Definition zero_time : time := -62135596800000000000.

Definition time_sub (t u : time) : duration :=
  Z.max min_int64 (Z.min max_int64 (t - u)).
Definition time_add (t : time) (d : duration) : time := (t + d)%Z.
Definition time_after (t u : time) : bool := (u <? t)%Z.
Definition time_before (t u : time) : bool := (t <? u)%Z.

(** A saturated difference is at least an int64 duration exactly when the exact
    difference is. *)
Lemma time_sub_ge t u d :
  (0 <= d <= max_int64)%Z -> (d <= time_sub t u <-> d <= t - u)%Z.
Proof. unfold time_sub, min_int64, max_int64, two63; lia. Qed.

Lemma time_after_spec t u : time_after t u = true <-> (u < t)%Z.
Proof. apply Z.ltb_lt. Qed.

(** ** Lists

    Boolean filters and searches, the shape a Go loop with [if] or [continue] takes. *)
Lemma elem_of_lfilter {A} (f : A -> bool) (l : list A) x :
  x ∈ List.filter f l <-> x ∈ l /\ f x = true.
Proof. by rewrite !list_elem_of_In, filter_In. Qed.

Lemma NoDup_lfilter {A} (f : A -> bool) (l : list A) : NoDup l -> NoDup (List.filter f l).
Proof. rewrite !NoDup_ListNoDup. apply List.NoDup_filter. Qed.

Lemma existsb_elem_of {A} (f : A -> bool) (l : list A) :
  existsb f l = true <-> exists x, x ∈ l /\ f x = true.
Proof. rewrite existsb_exists. by setoid_rewrite list_elem_of_In. Qed.

Lemma forallb_elem_of {A} (f : A -> bool) (l : list A) :
  forallb f l = true <-> forall x, x ∈ l -> f x = true.
Proof. rewrite forallb_forall. by setoid_rewrite list_elem_of_In. Qed.

(** ** Tactics *)

(** Case analysis on every [match]/[if] scrutinee in sight, keeping equations. *)
Ltac split_cases :=
  repeat (case_match; simplify_eq/=).

(** Turn boolean tests of the code into propositions. *)
Ltac bools :=
  repeat match goal with
  | H : andb _ _ = true |- _ => apply andb_prop in H; destruct H
  | H : orb _ _ = false |- _ => apply orb_false_elim in H; destruct H
  | H : negb _ = true |- _ => apply negb_true_iff in H
  | H : negb _ = false |- _ => apply negb_false_iff in H
  | H : Z.ltb _ _ = true |- _ => apply Z.ltb_lt in H
  | H : Z.ltb _ _ = false |- _ => apply Z.ltb_ge in H
  | H : Z.leb _ _ = true |- _ => apply Z.leb_le in H
  | H : Z.leb _ _ = false |- _ => apply Z.leb_gt in H
  | H : Z.eqb _ _ = true |- _ => apply Z.eqb_eq in H
  | H : Z.eqb _ _ = false |- _ => apply Z.eqb_neq in H
  | H : Z.gtb _ _ = _ |- _ => rewrite Z.gtb_ltb in H
  | H : Z.geb _ _ = _ |- _ => rewrite Z.geb_leb in H
  | H : String.eqb _ _ = true |- _ => apply String.eqb_eq in H
  | H : String.eqb _ _ = false |- _ => apply String.eqb_neq in H
  | H : bool_decide _ = true |- _ => apply bool_decide_eq_true in H
  | H : bool_decide _ = false |- _ => apply bool_decide_eq_false in H
  end.
