(* ===== verification/GoStrings.v ===== *)
(** * Go strings

    A Go string is a sequence of bytes; it is a [string] of the Standard Library,
    whose [ascii] characters are bytes.  This file holds the functions of Go's
    [strings] and [strconv] packages the program uses, and the lemmas about
    concatenation and separators that the key encodings rest on. *)
From stdpp Require Import base tactics list strings sorting.
From Stdlib Require Import ZArith Lia Ascii String DecimalString DecimalZ DecimalPos.
From S2P Require Import Prelude.
#[local] Open Scope string_scope.
#[local] Arguments String.append : simpl nomatch.

(** [strconv.Itoa]. *)
Definition itoa (n : Z) : string := NilEmpty.string_of_int (Z.to_int n).

(** [len(s)], a byte count. *)
Definition len (s : string) : Z := Z.of_nat (String.length s).

(** Membership of a byte, [strings.IndexByte(s, c) >= 0]. *)
Fixpoint contains_char (c : ascii) (s : string) : bool :=
  match s with
  | EmptyString => false
  | String d s' => Ascii.eqb c d || contains_char c s'
  end.

(** [strings.Contains]. *)
Fixpoint contains (sub s : string) : bool :=
  String.prefix sub s ||
  match s with
  | EmptyString => false
  | String _ s' => contains sub s'
  end.

Definition has_prefix (s p : string) : bool := String.prefix p s.

Fixpoint drop_str (n : nat) (s : string) : string :=
  match n, s with
  | O, _ => s
  | S n', String _ s' => drop_str n' s'
  | _, EmptyString => EmptyString
  end.

Definition has_suffix (s p : string) : bool :=
  (String.length p <=? String.length s)%nat &&
  String.eqb (drop_str (String.length s - String.length p) s) p.

(** [strings.Split(s, c)] for a one-byte separator: always at least one piece. *)
Fixpoint split_char (c : ascii) (s : string) : list string :=
  match s with
  | EmptyString => [EmptyString]
  | String d s' =>
      if Ascii.eqb c d then EmptyString :: split_char c s'
      else match split_char c s' with
           | [] => [String d EmptyString]
           | p :: ps => String d p :: ps
           end
  end.

(** [strings.Count(s, c)] for a one-byte separator. *)
Fixpoint count_char (c : ascii) (s : string) : nat :=
  match s with
  | EmptyString => 0
  | String d s' => (if Ascii.eqb c d then 1 else 0) + count_char c s'
  end.

(** [strings.Cut(s, c)] for a one-byte separator. *)
Fixpoint cut_char (c : ascii) (s : string) : option (string * string) :=
  match s with
  | EmptyString => None
  | String d s' =>
      if Ascii.eqb c d then Some (EmptyString, s')
      else match cut_char c s' with
           | Some (a, b) => Some (String d a, b)
           | None => None
           end
  end.

(** Byte-wise ASCII case folding, what [strings.ToLower] does to ASCII text. *)
Definition ascii_lower (c : ascii) : ascii :=
  let n := nat_of_ascii c in
  if (65 <=? n)%nat && (n <=? 90)%nat then ascii_of_nat (n + 32) else c.

Fixpoint to_lower (s : string) : string :=
  match s with
  | EmptyString => EmptyString
  | String c s' => String (ascii_lower c) (to_lower s')
  end.

Fixpoint str_map (f : ascii -> ascii) (s : string) : string :=
  match s with
  | EmptyString => EmptyString
  | String c s' => String (f c) (str_map f s')
  end.

(** [strings.TrimSpace].  A rune is white space when its UTF-8 encoding is one of these;
    a decoder reads such a rune at either end of a string exactly when the string starts
    or ends with the encoding. *)
Definition bytes (l : list nat) : string := string_of_list_ascii (map ascii_of_nat l).

Definition space_encodings : list string :=
  (map bytes [[9]; [10]; [11]; [12]; [13]; [32]; [194; 133]; [194; 160]; [225; 154; 128];
    [226; 128; 128]; [226; 128; 129]; [226; 128; 130]; [226; 128; 131]; [226; 128; 132];
    [226; 128; 133]; [226; 128; 134]; [226; 128; 135]; [226; 128; 136]; [226; 128; 137];
    [226; 128; 138]; [226; 128; 168]; [226; 128; 169]; [226; 128; 175]; [226; 129; 159];
    [227; 128; 128]])%nat.

Definition str_rev (s : string) : string :=
  string_of_list_ascii (rev (list_ascii_of_string s)).

Fixpoint trim_left (fuel : nat) (encs : list string) (s : string) : string :=
  match fuel with
  | O => s
  | S fuel =>
      match List.find (fun e => String.prefix e s) encs with
      | Some e => trim_left fuel encs (drop_str (String.length e) s)
      | None => s
      end
  end.

Definition TrimSpace (s : string) : string :=
  let s := trim_left (String.length s) space_encodings s in
  str_rev (trim_left (String.length s) (map str_rev space_encodings) (str_rev s)).

(** Every byte satisfies [f]. *)
Fixpoint str_forall (f : ascii -> bool) (s : string) : bool :=
  match s with
  | EmptyString => true
  | String c s' => f c && str_forall f s'
  end.

(** [sort.Strings]: byte-wise lexicographic order. *)
Definition str_le (a b : string) : Prop := String.leb a b = true.

#[global] Instance str_le_dec a b : Decision (str_le a b).
Proof. unfold str_le. apply _. Defined.

Definition sort_strings (l : list string) : list string := merge_sort str_le l.

(** ** Lemmas *)

#[global] Instance str_le_total : Total str_le.
Proof. intros a b. apply String.leb_total. Qed.

Lemma str_compare_trans a : forall b c,
  String.compare a b <> Gt -> String.compare b c <> Gt -> String.compare a c <> Gt.
Proof.
  induction a as [|x a IH]; intros [|y b] [|z c]; cbn; try done.
  unfold Ascii.compare. destruct (N.compare_spec (N_of_ascii x) (N_of_ascii y)) as [E|E|E],
    (N.compare_spec (N_of_ascii y) (N_of_ascii z)) as [F|F|F]; try done; intros H1 H2.
  - rewrite E, F, N.compare_refl. by eapply IH.
  - by rewrite (proj2 (N.compare_lt_iff _ _)) by lia.
  - by rewrite (proj2 (N.compare_lt_iff _ _)) by lia.
  - by rewrite (proj2 (N.compare_lt_iff _ _)) by lia.
Qed.

#[global] Instance str_le_trans : Transitive str_le.
Proof.
  intros a b c. unfold str_le, String.leb. intros H1 H2.
  pose proof (str_compare_trans a b c) as H.
  destruct (String.compare a b), (String.compare b c), (String.compare a c); try done;
    exfalso; by apply H.
Qed.

#[global] Instance str_le_antisymm : AntiSymm (=) str_le.
Proof. intros a b. apply String.leb_antisym. Qed.

Lemma sort_strings_perm l : sort_strings l ≡ₚ l.
Proof. apply merge_sort_Permutation. Qed.

Lemma sort_strings_sorted l : Sorted str_le (sort_strings l).
Proof. apply Sorted_merge_sort, _. Qed.

Lemma elem_of_sort_strings x l : x ∈ sort_strings l <-> x ∈ l.
Proof. by rewrite sort_strings_perm. Qed.

Lemma str_app_assoc (a b c : string) : (a ++ b) ++ c = a ++ b ++ c.
Proof. induction a as [|x a IH]; cbn; [done | by rewrite IH]. Qed.

Lemma str_app_nil (a : string) : a ++ "" = a.
Proof. induction a as [|x a IH]; cbn; [done | by rewrite IH]. Qed.

Lemma str_app_inj_len (a b x y : string) :
  String.length a = String.length b -> a ++ x = b ++ y -> a = b /\ x = y.
Proof.
  revert b. induction a as [|c a IH]; intros [|d b] Hl Heq; cbn in *; try discriminate.
  - by split.
  - injection Heq as -> Heq. injection Hl as Hl.
    destruct (IH b Hl Heq) as [-> ->]. done.
Qed.

Lemma str_app_inv_head (a x y : string) : a ++ x = a ++ y -> x = y.
Proof. intros H. by apply str_app_inj_len in H as [_ ?]. Qed.

Lemma str_length_app (a b : string) :
  String.length (a ++ b) = (String.length a + String.length b)%nat.
Proof. induction a as [|c a IH]; cbn; [done | by rewrite IH]. Qed.

Lemma len_nonneg s : (0 <= len s)%Z.
Proof. unfold len. lia. Qed.

Lemma len_app a b : len (a ++ b) = (len a + len b)%Z.
Proof. unfold len. rewrite str_length_app. lia. Qed.

Lemma str_forall_app f a b : str_forall f (a ++ b) = str_forall f a && str_forall f b.
Proof. induction a as [|c a IH]; cbn; [done | by rewrite IH, andb_assoc]. Qed.

Lemma split_nonempty c s : split_char c s <> [].
Proof. destruct s as [|d s]; cbn; [done|]. by repeat case_match. Qed.

Lemma split_sep c a b : split_char c (a ++ String c b) = (split_char c a ++ split_char c b)%list.
Proof.
  induction a as [|d a IH]; cbn [String.append split_char]; [by rewrite Ascii.eqb_refl|]. rewrite IH.
  destruct (Ascii.eqb c d); [done|]. pose proof (split_nonempty c a). by destruct (split_char c a).
Qed.

(** The text before the first separator and the text after it are determined. *)
Lemma str_sep_inj c (a b x y : string) :
  contains_char c a = false -> contains_char c b = false ->
  a ++ String c x = b ++ String c y -> a = b /\ x = y.
Proof.
  revert b. induction a as [|d a IH]; intros [|e b] Ha Hb Heq; cbn in *.
  - by simplify_eq.
  - simplify_eq. by rewrite Ascii.eqb_refl in Hb.
  - simplify_eq. by rewrite Ascii.eqb_refl in Ha.
  - injection Heq as -> Heq. bools.
    destruct (IH b) as [-> ->]; done.
Qed.

Lemma contains_char_app c (a b : string) :
  contains_char c (a ++ b) = contains_char c a || contains_char c b.
Proof. induction a as [|d a IH]; cbn; [done | by rewrite IH, orb_assoc]. Qed.

(** The text after the last separator and the text before it are determined. *)
Lemma str_last_sep_inj c (a b x y : string) :
  contains_char c x = false -> contains_char c y = false ->
  a ++ String c x = b ++ String c y -> a = b /\ x = y.
Proof.
  intros Hx Hy. revert b. induction a as [|d a IH]; intros [|e b] Heq; cbn in *.
  - by simplify_eq.
  - injection Heq as -> ->. rewrite contains_char_app in Hx. cbn in Hx.
    by rewrite Ascii.eqb_refl, orb_true_r in Hx.
  - injection Heq as -> <-. rewrite contains_char_app in Hy. cbn in Hy.
    by rewrite Ascii.eqb_refl, orb_true_r in Hy.
  - injection Heq as -> Heq. destruct (IH b Heq) as [-> ->]. done.
Qed.

Lemma itoa_no_colon n : contains_char ":" (itoa n) = false.
Proof.
  assert (forall u, contains_char ":" (NilEmpty.string_of_uint u) = false) as Hu.
  { intros u. induction u; cbn; done. }
  unfold itoa. destruct (Z.to_int n); cbn; apply Hu.
Qed.

Lemma itoa_inj m n : itoa m = itoa n -> m = n.
Proof.
  intros H. unfold itoa in H.
  apply (f_equal NilEmpty.int_of_string) in H.
  rewrite !NilEmpty.isi in H. injection H as H. by apply DecimalZ.to_int_inj.
Qed.

#[export] Hint Resolve itoa_no_colon : eunox.

#[local] Arguments String.append : simpl nomatch.

(** ** Trimming *)

Lemma prefix_drop e s : String.prefix e s = true -> s = e ++ drop_str (String.length e) s.
Proof.
  revert s. induction e as [|c e IH]; intros s; [done|]. destruct s as [|d s]; [done|]. cbn.
  destruct (ascii_dec c d) as [->|]; [| done]. intros Hp. change (String d s = String d (e ++ drop_str (String.length e) s)). by rewrite <- IH.
Qed.

Lemma prefix_app e s t : String.prefix e s = true -> String.prefix e (s ++ t) = true.
Proof.
  revert s. induction e as [|c e IH]; intros [|d s]; cbn [String.prefix]; try done; [by destruct t|].
  change (String d s ++ t) with (String d (s ++ t)). cbn. destruct (ascii_dec c d); [apply IH | done].
Qed.

Lemma has_prefix_app a b : has_prefix (a ++ b) a = true.
Proof. unfold has_prefix. induction a as [|c a IH]; cbn; [by destruct b|]. by destruct (ascii_dec c c). Qed.

Lemma trim_left_spec fuel encs s :
  Forall (fun e => e <> "") encs -> (String.length s <= fuel)%nat ->
  List.find (fun e => String.prefix e (trim_left fuel encs s)) encs = None /\
  exists p, s = p ++ trim_left fuel encs s.
Proof.
  intros He. revert s. induction fuel as [|fuel IH]; intros s Hl; cbn.
  - destruct s; [| cbn in Hl; lia]. split; [| by exists ""].
    destruct (List.find _ encs) as [e|] eqn:E; [| done]. apply List.find_some in E as [Hin Hp].
    apply list_elem_of_In in Hin. rewrite Forall_forall in He. apply He in Hin. by destruct e.
  - destruct (List.find (fun e => String.prefix e s) encs) as [e|] eqn:E; [| split; [done | by exists ""]].
    apply List.find_some in E as [Hin%list_elem_of_In Hp]. apply prefix_drop in Hp.
    rewrite Forall_forall in He. specialize (He e Hin).
    assert (String.length (drop_str (String.length e) s) <= fuel)%nat as Hl'.
    { apply (f_equal String.length) in Hp. rewrite str_length_app in Hp. destruct e; [done|]. cbn in *. lia. }
    destruct (IH _ Hl') as [Hn [p Hq]]. split; [done|]. exists (e ++ p).
    by rewrite str_app_assoc, <- Hq.
Qed.

Lemma trim_left_fix fuel encs s :
  List.find (fun e => String.prefix e s) encs = None -> trim_left fuel encs s = s.
Proof. intros E. destruct fuel; cbn; [done | by rewrite E]. Qed.

Lemma list_ascii_app a b :
  list_ascii_of_string (a ++ b) = (list_ascii_of_string a ++ list_ascii_of_string b)%list.
Proof. induction a as [|c a IH]; cbn; [done | by rewrite IH]. Qed.

Lemma string_of_list_app a b :
  string_of_list_ascii (a ++ b)%list = string_of_list_ascii a ++ string_of_list_ascii b.
Proof. induction a as [|c a IH]; cbn; [done | by rewrite IH]. Qed.

Lemma str_rev_app a b : str_rev (a ++ b) = str_rev b ++ str_rev a.
Proof. unfold str_rev. by rewrite list_ascii_app, List.rev_app_distr, string_of_list_app. Qed.

Lemma str_rev_involutive s : str_rev (str_rev s) = s.
Proof.
  unfold str_rev. rewrite list_ascii_of_string_of_list_ascii, List.rev_involutive.
  apply string_of_list_ascii_of_string.
Qed.

Lemma str_rev_length s : String.length (str_rev s) = String.length s.
Proof.
  induction s as [|c s IH]; [done|]. change (String c s) with (String c "" ++ s).
  rewrite str_rev_app, str_length_app, IH, str_length_app. cbn. lia.
Qed.

Lemma TrimSpace_idemp s : TrimSpace (TrimSpace s) = TrimSpace s.
Proof.
  unfold TrimSpace at 2 3. set (t := trim_left (String.length s) space_encodings s). cbv zeta.
  destruct (trim_left_spec (String.length s) space_encodings s) as [Ht _]; [| done | fold t in Ht].
  { by repeat constructor. }
  set (v := trim_left (String.length t) (map str_rev space_encodings) (str_rev t)).
  destruct (trim_left_spec (String.length t) (map str_rev space_encodings) (str_rev t)) as [Hv [p Hp]].
  { by repeat constructor. }
  { by rewrite str_rev_length. }
  fold v in Hv, Hp. unfold TrimSpace. rewrite (trim_left_fix _ space_encodings (str_rev v)).
  - by rewrite str_rev_involutive, trim_left_fix.
  - apply (f_equal str_rev) in Hp. rewrite str_rev_involutive, str_rev_app in Hp.
    destruct (List.find (fun e => String.prefix e (str_rev v)) space_encodings) as [e|] eqn:E; [| done].
    apply List.find_some in E as [Hin He].
    pose proof (List.find_none _ _ Ht e Hin) as Hf. cbv beta in Hf. rewrite Hp in Hf.
    by rewrite (prefix_app e (str_rev v) _ He) in Hf.
Qed.
