(* ===== verification/GoPath.v ===== *)
(** * Go's path.Match, utf8.DecodeRuneInString and url.PathUnescape

    The standard-library routines the glob matcher is built on, as their sources define
    them.  Loops that consume the pattern carry a fuel equal to what they consume;
    [Match_total] shows the fuel given is always enough, so [Match] has no third outcome. *)
From stdpp Require Import base tactics list strings.
From Stdlib Require Import ZArith Lia Ascii String.
From S2P Require Import Prelude GoStrings.
#[local] Open Scope string_scope.
#[local] Arguments String.append : simpl nomatch.

Module GoPath.

(** ** Runes *)

Definition byte_val (c : ascii) : Z := Z.of_N (N_of_ascii c).
Definition RuneError : Z := 65533.

Definition in_range (lo hi x : Z) : bool := (lo <=? x)%Z && (x <=? hi)%Z.

(** [utf8.DecodeRuneInString]: the first rune and its width. *)
Definition DecodeRuneInString (s : string) : Z * nat :=
  match s with
  | EmptyString => (RuneError, 0%nat)
  | String c0 s1 =>
    let b0 := byte_val c0 in
    if (b0 <? 128)%Z then (b0, 1%nat)
    else
      let cont lo hi := match s1 with
                        | String c1 s2 => if in_range lo hi (byte_val c1) then Some (byte_val c1, s2) else None
                        | EmptyString => None end in
      let next s := match s with
                    | String c s' => if in_range 128 191 (byte_val c) then Some (byte_val c, s') else None
                    | EmptyString => None end in
      let three lo hi :=
        match cont lo hi with
        | Some (b1, s2) =>
            match next s2 with
            | Some (b2, _) => ((b0 - 224) * 4096 + (b1 - 128) * 64 + (b2 - 128), 3%nat)%Z
            | None => (RuneError, 1%nat)
            end
        | None => (RuneError, 1%nat)
        end in
      let four lo hi :=
        match cont lo hi with
        | Some (b1, s2) =>
            match next s2 with
            | Some (b2, s3) =>
                match next s3 with
                | Some (b3, _) =>
                    ((b0 - 240) * 262144 + (b1 - 128) * 4096 + (b2 - 128) * 64 + (b3 - 128), 4%nat)%Z
                | None => (RuneError, 1%nat)
                end
            | None => (RuneError, 1%nat)
            end
        | None => (RuneError, 1%nat)
        end in
      if in_range 194 223 b0 then
        match cont 128%Z 191%Z with
        | Some (b1, _) => ((b0 - 192) * 64 + (b1 - 128), 2%nat)%Z
        | None => (RuneError, 1%nat)
        end
      else if (b0 =? 224)%Z then three 160%Z 191%Z
      else if (b0 =? 237)%Z then three 128%Z 159%Z
      else if in_range 225 239 b0 then three 128%Z 191%Z
      else if (b0 =? 240)%Z then four 144%Z 191%Z
      else if (b0 =? 244)%Z then four 128%Z 143%Z
      else if in_range 241 243 b0 then four 128%Z 191%Z
      else (RuneError, 1%nat)
  end.

(** ** path.Match *)

(** [ErrBadPattern] is the only error. *)
Inductive bad_pattern := ErrBadPattern.

(** [getEsc]: one possibly-escaped character of a class.  The rest is never empty on
    success. *)
Definition getEsc (chunk : string) : option (Z * string) :=
  match chunk with
  | EmptyString => None
  | String c rest =>
      if Ascii.eqb c "-" || Ascii.eqb c "]" then None
      else
        let chunk := if Ascii.eqb c "\" then rest else chunk in
        match chunk with
        | EmptyString => None
        | _ =>
            let '(r, n) := DecodeRuneInString chunk in
            let nchunk := drop_str n chunk in
            if ((r =? RuneError)%Z && (n =? 1)%nat) || String.eqb nchunk "" then None
            else Some (r, nchunk)
        end
  end.

(** Outcome of a chunk: no fuel left, a malformed chunk, or the rest of the name when
    the chunk matched. *)
Inductive chunk_result :=
| NoFuel
| Bad
| Failed
| Rest (s : string).

(** The class loop: whether the rune is in one of the ranges, and the rest of the chunk. *)
Fixpoint classLoop (fuel : nat) (chunk : string) (r : Z) (m : bool) (nrange : nat)
    : option (option (bool * string)) :=
  match fuel with
  | O => None
  | S fuel =>
      match chunk, nrange with
      | String "]" rest, S _ => Some (Some (m, rest))
      | _, _ =>
          match getEsc chunk with
          | None => Some None
          | Some (lo, chunk) =>
              match (match chunk with
                     | String "-" rest => getEsc rest
                     | _ => Some (lo, chunk)
                     end) with
              | None => Some None
              | Some (hi, chunk) => classLoop fuel chunk r (m || in_range lo hi r) (S nrange)
              end
          end
      end
  end.

(** The name left to match, or [None] once the match has failed; from then on the chunk
    is only checked for being well formed. *)
Fixpoint chunkLoop (fuel : nat) (chunk : string) (s : option string) : chunk_result :=
  match chunk with
  | EmptyString => match s with Some s => Rest s | None => Failed end
  | String c rest =>
    match fuel with
    | O => NoFuel
    | S fuel =>
      let s := match s with Some "" => None | _ => s end in
      if Ascii.eqb c "[" then
        let '(r, s) := match s with
                       | Some s => let '(r, n) := DecodeRuneInString s in (r, Some (drop_str n s))
                       | None => (0%Z, None)
                       end in
        let '(negated, chunk) := match rest with
                                 | String "^" rest => (true, rest)
                                 | _ => (false, rest)
                                 end in
        match classLoop (S fuel) chunk r false 0 with
        | None => NoFuel
        | Some None => Bad
        | Some (Some (m, chunk)) =>
            chunkLoop fuel chunk (if Bool.eqb m negated then None else s)
        end
      else if Ascii.eqb c "?" then
        chunkLoop fuel rest
          (match s with
           | Some (String d _ as s) =>
               if Ascii.eqb d "/" then None
               else Some (drop_str (snd (DecodeRuneInString s)) s)
           | _ => None
           end)
      else
        let lit d rest :=
          chunkLoop fuel rest
            (match s with
             | Some (String e s') => if Ascii.eqb d e then Some s' else None
             | _ => None
             end) in
        if Ascii.eqb c "\" then
          match rest with
          | EmptyString => Bad
          | String d rest => lit d rest
          end
        else lit c rest
    end
  end.

Definition matchChunk (chunk s : string) : chunk_result :=
  chunkLoop (String.length chunk) chunk (Some s).

Fixpoint skipStars (p : string) : bool * string :=
  match p with
  | String "*" p' => (true, snd (skipStars p'))
  | _ => (false, p)
  end.

Fixpoint scanTo (inrange : bool) (p : string) : string * string :=
  match p with
  | EmptyString => ("", "")
  | String c p' =>
      if Ascii.eqb c "*" && negb inrange then ("", p)
      else if Ascii.eqb c "\" then
        match p' with
        | EmptyString => (p, "")
        | String d p'' => let '(ch, rest) := scanTo inrange p'' in (String c (String d ch), rest)
        end
      else
        let inrange := if Ascii.eqb c "[" then true else if Ascii.eqb c "]" then false else inrange in
        let '(ch, rest) := scanTo inrange p' in (String c ch, rest)
  end.

Definition scanChunk (pattern : string) : bool * string * string :=
  let '(star, p) := skipStars pattern in
  let '(chunk, rest) := scanTo false p in
  (star, chunk, rest).

(** The loop that tries the chunk after skipping one or more bytes of the name. *)
Fixpoint starLoop (chunk : string) (last : bool) (name : string) : chunk_result :=
  match name with
  | EmptyString => Failed
  | String c name' =>
      if Ascii.eqb c "/" then Failed
      else match matchChunk chunk name' with
           | Rest t => if last && negb (String.eqb t "") then starLoop chunk last name' else Rest t
           | Failed => starLoop chunk last name'
           | r => r
           end
  end.

(** The check that the rest of a pattern that no longer matches is well formed. *)
Fixpoint checkRest (fuel : nat) (pattern : string) : option (result bool bad_pattern) :=
  match pattern with
  | EmptyString => Some (Ok false)
  | _ =>
    match fuel with
    | O => None
    | S fuel =>
        let '(_, chunk, rest) := scanChunk pattern in
        match matchChunk chunk "" with
        | NoFuel => None
        | Bad => Some (Err ErrBadPattern)
        | _ => checkRest fuel rest
        end
    end
  end.

Fixpoint matchLoop (fuel : nat) (pattern name : string) : option (result bool bad_pattern) :=
  match pattern with
  | EmptyString => Some (Ok (String.eqb name ""))
  | _ =>
    match fuel with
    | O => None
    | S fuel =>
        let '(star, chunk, rest) := scanChunk pattern in
        if star && String.eqb chunk "" then Some (Ok (negb (contains_char "/" name)))
        else
          let last := String.eqb rest "" in
          match matchChunk chunk name with
          | NoFuel => None
          | Bad => Some (Err ErrBadPattern)
          | first =>
              match first with
              | Rest t =>
                  if String.eqb t "" || negb last then matchLoop fuel rest t
                  else if star then
                    match starLoop chunk last name with
                    | NoFuel => None
                    | Bad => Some (Err ErrBadPattern)
                    | Rest t => matchLoop fuel rest t
                    | Failed => checkRest fuel rest
                    end
                  else checkRest fuel rest
              | _ =>
                  if star then
                    match starLoop chunk last name with
                    | NoFuel => None
                    | Bad => Some (Err ErrBadPattern)
                    | Rest t => matchLoop fuel rest t
                    | Failed => checkRest fuel rest
                    end
                  else checkRest fuel rest
              end
          end
    end
  end.

Definition Match (pattern name : string) : result bool bad_pattern :=
  match matchLoop (String.length pattern) pattern name with
  | Some r => r
  | None => Err ErrBadPattern
  end.

Definition matched (pattern name : string) : bool :=
  match Match pattern name with Ok b => b | Err _ => false end.

(** ** url.PathUnescape *)

Definition unhex (c : ascii) : option Z :=
  let b := byte_val c in
  if in_range 48 57 b then Some (b - 48)%Z
  else if in_range 97 102 b then Some (b - 97 + 10)%Z
  else if in_range 65 70 b then Some (b - 65 + 10)%Z
  else None.

Definition byte_of_Z (z : Z) : ascii := ascii_of_N (Z.to_N z).

Fixpoint PathUnescape (s : string) : option string :=
  match s with
  | EmptyString => Some ""
  | String "%" s1 =>
      match s1 with
      | String h (String l s2) =>
          match unhex h, unhex l, PathUnescape s2 with
          | Some h, Some l, Some r => Some (String (byte_of_Z (h * 16 + l)) r)
          | _, _, _ => None
          end
      | _ => None
      end
  | String c s1 => match PathUnescape s1 with Some r => Some (String c r) | None => None end
  end.

(** Behaviour on the examples of the package documentation. *)
Example match_star : Match "*.csv" "q3.csv" = Ok true. Proof. reflexivity. Qed.
Example match_star_slash : Match "a/*" "a/b/c" = Ok false. Proof. reflexivity. Qed.
Example match_class : Match "[a-c]?[^x]" "b?y" = Ok true. Proof. reflexivity. Qed.
Example match_neg_slash : Match "a[^z]b" "a/b" = Ok true. Proof. reflexivity. Qed.
Example match_bad : Match "a[" "b" = Err ErrBadPattern. Proof. reflexivity. Qed.
Example match_bad_tail : Match "x*a\" "" = Err ErrBadPattern. Proof. reflexivity. Qed.
Example match_backtrack : Match "a*bc" "abcbc" = Ok true. Proof. reflexivity. Qed.
Example unescape_sep : PathUnescape "..%2Fetc" = Some "../etc". Proof. reflexivity. Qed.
Example unescape_bad : PathUnescape "100%" = None. Proof. reflexivity. Qed.

(** ** The fuel is enough *)

Lemma drop_str_length n s : String.length (drop_str n s) = (String.length s - n)%nat.
Proof. revert s. induction n as [|n IH]; intros [|c s]; cbn; auto. Qed.

Lemma decode_width s : s <> "" -> (1 <= snd (DecodeRuneInString s))%nat.
Proof.
  destruct s as [|c s]; [done|]. intros _. unfold DecodeRuneInString.
  repeat first [case_match | cbn; lia].
Qed.

Lemma getEsc_length c r c' : getEsc c = Some (r, c') -> (String.length c' < String.length c)%nat.
Proof.
  unfold getEsc. destruct c as [|x rest]; [done|]. destruct (_ || _); [done|].
  set (ch := if Ascii.eqb x "\" then rest else String x rest).
  assert (String.length ch <= String.length (String x rest))%nat
    by (unfold ch; case_match; cbn; lia).
  destruct ch as [|y ch'] eqn:E; [done|].
  pose proof (decode_width (String y ch') ltac:(done)) as Hw.
  destruct (DecodeRuneInString (String y ch')) as [r0 n]. cbn [snd] in Hw.
  destruct (_ || _); [done|]. intros [= _ <-]. rewrite drop_str_length.
  cbn [String.length] in *. lia.
Qed.

(** One turn of the class loop that does not end it consumes part of the chunk. *)
Definition classStep (chunk : string) : option (Z * Z * string) :=
  match getEsc chunk with
  | None => None
  | Some (lo, chunk) =>
      match (match chunk with String "-" rest => getEsc rest | _ => Some (lo, chunk) end) with
      | None => None
      | Some (hi, chunk) => Some (lo, hi, chunk)
      end
  end.

Lemma classStep_length chunk lo hi c' :
  classStep chunk = Some (lo, hi, c') -> (String.length c' < String.length chunk)%nat.
Proof.
  unfold classStep. destruct (getEsc chunk) as [[l c1]|] eqn:E; [| done].
  apply getEsc_length in E.
  assert (forall o, o = Some (lo, hi, c') -> True) as _ by done.
  destruct (match c1 with String "-" rest => getEsc rest | _ => Some (l, c1) end)
    as [[h c2]|] eqn:E2; [| done].
  intros [= _ _ <-].
  assert (String.length c2 <= String.length c1)%nat; [| lia].
  destruct c1 as [|x c1]; [by injection E2 as _ <-|].
  destruct (Ascii.eqb_spec x "-") as [->|Hx].
  - apply getEsc_length in E2. cbn. lia.
  - assert (Some (l, String x c1) = Some (h, c2)) as [= _ <-]; [| done].
    rewrite <- E2. destruct x as [[] [] [] [] [] [] [] []]; done.
Qed.

Definition closes (chunk : string) (nrange : nat) : option string :=
  match chunk, nrange with String "]" rest, S _ => Some rest | _, _ => None end.

Lemma closes_length chunk n rest :
  closes chunk n = Some rest -> (String.length rest < String.length chunk)%nat.
Proof.
  unfold closes. destruct chunk as [|x chunk]; [by destruct n|].
  destruct x as [[] [] [] [] [] [] [] []], n; try done. intros [= ->]. cbn. lia.
Qed.

Lemma bracket_match {A} x n (a b : A) :
  match x with "]"%char => match n with O => b | S _ => a end | _ => b end =
  if Ascii.eqb x "]" then match n with O => b | S _ => a end else b.
Proof. by destruct x as [[] [] [] [] [] [] [] []]. Qed.

Lemma classLoop_unfold fuel chunk r m n :
  classLoop (S fuel) chunk r m n =
  match closes chunk n with
  | Some rest => Some (Some (m, rest))
  | None => match classStep chunk with
            | None => Some None
            | Some (lo, hi, chunk) => classLoop fuel chunk r (m || in_range lo hi r) (S n)
            end
  end.
Proof.
  assert (forall k : Z -> Z -> string -> option (option (bool * string)),
    match getEsc chunk with
    | None => Some None
    | Some (lo, chunk) =>
        match (match chunk with String "-" rest => getEsc rest | _ => Some (lo, chunk) end) with
        | None => Some None
        | Some (hi, chunk) => k lo hi chunk
        end
    end =
    match classStep chunk with None => Some None | Some (lo, hi, chunk) => k lo hi chunk end) as Hs.
  { intros k. unfold classStep. destruct (getEsc chunk) as [[lo c]|]; [| done].
    by destruct (match c with String "-" rest => getEsc rest | _ => Some (lo, c) end) as [[hi c']|]. }
  cbn [classLoop]. rewrite Hs. unfold closes. destruct chunk as [|x chunk]; [by destruct n|].
  cbn beta iota. rewrite !bracket_match. by destruct (Ascii.eqb x "]"), n.
Qed.

Lemma classLoop_total fuel : forall chunk r m n,
  (String.length chunk < fuel)%nat ->
  exists o, classLoop fuel chunk r m n = Some o /\
    forall b c', o = Some (b, c') -> (String.length c' <= String.length chunk)%nat.
Proof.
  induction fuel as [|fuel IH]; intros chunk r m n Hf; [lia|].
  rewrite classLoop_unfold. destruct (closes chunk n) as [rest|] eqn:Ec.
  - apply closes_length in Ec. eexists. split; [done|]. intros b c' [= _ <-]. lia.
  - destruct (classStep chunk) as [[[lo hi] c1]|] eqn:Es; [| by eexists; split].
    apply classStep_length in Es.
    destruct (IH c1 r (m || in_range lo hi r) (S n) ltac:(lia)) as (o & -> & Ho).
    eexists. split; [done|]. intros b c' Heq. specialize (Ho b c' Heq). lia.
Qed.

(** Whether a class is well formed, and where it ends, does not depend on the rune. *)
Lemma classLoop_shape fuel : forall chunk r r' m m' n,
  (fmap (M:=option) snd) <$> classLoop fuel chunk r m n
  = (fmap (M:=option) snd) <$> classLoop fuel chunk r' m' n.
Proof.
  induction fuel as [|fuel IH]; intros chunk r r' m m' n; [done|].
  rewrite !classLoop_unfold. destruct (closes chunk n); [done|].
  destruct (classStep chunk) as [[[lo hi] c1]|]; [| done]. apply IH.
Qed.

Lemma after_caret rest :
  let '(_, chunk) := match rest with String "^" rest' => (true, rest') | _ => (false, rest) end in
  (String.length chunk <= String.length rest)%nat.
Proof.
  destruct rest as [|x rest]; [done|]. destruct x as [[] [] [] [] [] [] [] []]; cbn; lia.
Qed.

Lemma chunkLoop_total fuel : forall chunk s,
  (String.length chunk <= fuel)%nat -> chunkLoop fuel chunk s <> NoFuel.
Proof.
  induction fuel as [|fuel IH]; intros [|c rest] s Hf; cbn [String.length] in Hf;
    try (by destruct s); [lia|].
  cbn [chunkLoop]. set (s1 := match s with Some "" => None | _ => s end).
  destruct (Ascii.eqb c "[").
  - set (p := match s1 with Some _ => _ | None => _ end). destruct p as [r s2].
    pose proof (after_caret rest) as Hc.
    destruct (match rest with String "^" rest' => (true, rest') | _ => (false, rest) end)
      as [neg chunk].
    destruct (classLoop_total (S fuel) chunk r false 0 ltac:(lia)) as (o & -> & Ho).
    destruct o as [[m c']|]; [| done]. apply IH. specialize (Ho m c' eq_refl). lia.
  - destruct (Ascii.eqb c "?"); [apply IH; lia|].
    destruct (Ascii.eqb c "\"); [| apply IH; lia].
    destruct rest as [|d rest]; [done|]. cbn [String.length] in Hf. apply IH; lia.
Qed.

(** A chunk is malformed for every name or for none. *)
Lemma chunkLoop_bad fuel : forall chunk s s',
  chunkLoop fuel chunk s = Bad -> chunkLoop fuel chunk s' = Bad.
Proof.
  induction fuel as [|fuel IH]; intros [|c rest] s s' H; try (by destruct s).
  cbn [chunkLoop] in *.
  set (s1 := match s with Some "" => None | _ => s end) in *.
  set (s1' := match s' with Some "" => None | _ => s' end) in *.
  destruct (Ascii.eqb c "[").
  - set (p := match s1 with Some _ => _ | None => _ end) in H.
    set (p' := match s1' with Some _ => _ | None => _ end).
    destruct p as [r s2], p' as [r' s2'].
    destruct (match rest with String "^" rest' => (true, rest') | _ => (false, rest) end)
      as [neg chunk].
    pose proof (classLoop_shape (S fuel) chunk r r' false false 0) as Hsh.
    destruct (classLoop (S fuel) chunk r false 0) as [[[m c1]|]|],
             (classLoop (S fuel) chunk r' false 0) as [[[m' c1']|]|]; try done.
    injection Hsh as ->. by eapply IH.
  - destruct (Ascii.eqb c "?"); [by eapply IH|].
    destruct (Ascii.eqb c "\"); [| by eapply IH].
    destruct rest as [|d rest]; [done|]. by eapply IH.
Qed.

Lemma matchChunk_total chunk s : matchChunk chunk s <> NoFuel.
Proof. by apply chunkLoop_total. Qed.

Lemma matchChunk_bad chunk s s' : matchChunk chunk s = Bad -> matchChunk chunk s' = Bad.
Proof. apply chunkLoop_bad. Qed.

Lemma scanTo_app inr p : let '(ch, rest) := scanTo inr p in p = ch ++ rest.
Proof.
  remember (String.length p) as n eqn:Hn. revert inr p Hn.
  induction n as [n IH] using lt_wf_ind. intros inr [|c p] Hn; [done|]. cbn [scanTo].
  destruct (_ && _); [done|]. destruct (Ascii.eqb c "\").
  - destruct p as [|d p]; [by cbn|]. cbn [String.length] in Hn.
    specialize (IH (String.length p) ltac:(lia) inr p eq_refl).
    destruct (scanTo inr p) as [ch rest]. cbn. by rewrite IH.
  - match goal with |- context [scanTo ?i p] => specialize (IH (String.length p) ltac:(cbn in Hn; lia) i p eq_refl); destruct (scanTo i p) as [ch rest] end.
    cbn. by rewrite IH.
Qed.

Lemma skipStars_length p :
  (String.length (snd (skipStars p)) + (if fst (skipStars p) then 1 else 0) <= String.length p)%nat.
Proof.
  induction p as [|c p IH]; [done|].
  destruct (Ascii.eqb_spec c "*") as [->|Hc].
  - cbn [skipStars fst snd String.length]. destruct (fst (skipStars p)); lia.
  - replace (skipStars (String c p)) with (false, String c p); [cbn; lia|].
    destruct c as [[] [] [] [] [] [] [] []]; done.
Qed.

Lemma skipStars_head p c p' : snd (skipStars p) = String c p' -> c <> "*"%char.
Proof.
  induction p as [|d p IH]; [done|].
  destruct (Ascii.eqb_spec d "*") as [->|Hd]; [exact IH|].
  replace (skipStars (String d p)) with (false, String d p).
  - by intros [= -> _].
  - destruct d as [[] [] [] [] [] [] [] []]; done.
Qed.

(** Each turn of the matcher consumes part of the pattern. *)
Lemma scanChunk_length pattern :
  pattern <> "" ->
  let '(star, chunk, rest) := scanChunk pattern in
  (String.length rest < String.length pattern)%nat /\
  (star = true -> chunk = "" -> rest = "").
Proof.
  intros Hne. unfold scanChunk.
  pose proof (skipStars_length pattern) as Hl. pose proof (skipStars_head pattern) as Hh.
  destruct (skipStars pattern) as [star p] eqn:Es. cbn [fst snd] in *.
  pose proof (scanTo_app false p) as Happ.
  destruct p as [|c p'].
  - cbn. split; [| done]. destruct star; [lia|]. destruct pattern as [|d pat]; [done|]. cbn. lia.
  - assert (exists ch, fst (scanTo false (String c p')) = String c ch) as [ch Hch].
    { cbn [scanTo]. rewrite (proj2 (Ascii.eqb_neq c "*")) by (by eapply Hh). cbn [andb].
      destruct (Ascii.eqb c "\").
      - destruct p' as [|d p'']; [by eexists|]. destruct (scanTo false p''). by eexists.
      - match goal with |- context [scanTo ?i p'] => destruct (scanTo i p') end. by eexists. }
    destruct (scanTo false (String c p')) as [chunk rest]. cbn [fst] in Hch. subst chunk.
    split; [| done]. rewrite Happ in Hl. cbn in Hl. rewrite str_length_app in Hl.
    destruct star; lia.
Qed.

Lemma starLoop_total chunk last name : starLoop chunk last name <> NoFuel.
Proof.
  induction name as [|c name IH]; cbn; [done|]. destruct (Ascii.eqb c "/"); [done|].
  pose proof (matchChunk_total chunk name). destruct (matchChunk chunk name); try done.
  by destruct (_ && _).
Qed.

Lemma checkRest_total fuel : forall pattern,
  (String.length pattern <= fuel)%nat -> checkRest fuel pattern <> None.
Proof.
  induction fuel as [|fuel IH]; intros [|c p] Hf; cbn [String.length] in Hf; try done; [lia|].
  cbn [checkRest].
  pose proof (scanChunk_length (String c p) ltac:(done)) as Hs.
  destruct (scanChunk (String c p)) as [[star chunk] rest]. destruct Hs as [Hs _].
  pose proof (matchChunk_total chunk ""). cbn [String.length] in Hs.
  destruct (matchChunk chunk ""); try done; apply IH; lia.
Qed.

Lemma matchLoop_total fuel : forall pattern name,
  (String.length pattern <= fuel)%nat -> matchLoop fuel pattern name <> None.
Proof.
  induction fuel as [|fuel IH]; intros [|c p] name Hf; cbn [String.length] in Hf; try done; [lia|].
  cbn [matchLoop].
  pose proof (scanChunk_length (String c p) ltac:(done)) as Hs.
  destruct (scanChunk (String c p)) as [[star chunk] rest]. destruct Hs as [Hs _].
  cbn [String.length] in Hs.
  pose proof (matchChunk_total chunk name). pose proof (starLoop_total chunk (String.eqb rest "") name).
  assert (forall t, matchLoop fuel rest t <> None) by (intros t; apply IH; lia).
  assert (checkRest fuel rest <> None) by (apply checkRest_total; lia).
  destruct (_ && _); [done|].
  destruct (matchChunk chunk name); try done.
  - destruct star; [| done]. by destruct (starLoop _ _ _).
  - destruct (_ || _); [done|]. destruct star; [| done]. by destruct (starLoop _ _ _).
Qed.

(** ** Malformed patterns are malformed whatever the name *)

Lemma starLoop_bad chunk last name s : starLoop chunk last name = Bad -> matchChunk chunk s = Bad.
Proof.
  induction name as [|c name IH]; cbn; [done|]. destruct (Ascii.eqb c "/"); [done|].
  destruct (matchChunk chunk name) eqn:E; try done.
  - intros _. by eapply matchChunk_bad.
  - by destruct (_ && _).
Qed.

(** A pattern whose chunks all parse. *)
Fixpoint well_formed (fuel : nat) (pattern : string) : Prop :=
  match pattern with
  | EmptyString => True
  | _ =>
    match fuel with
    | O => False
    | S fuel =>
        let '(_, chunk, rest) := scanChunk pattern in
        matchChunk chunk "" <> Bad /\ well_formed fuel rest
    end
  end.

Lemma checkRest_wf fuel : forall pattern,
  (String.length pattern <= fuel)%nat ->
  checkRest fuel pattern = Some (Err ErrBadPattern) <-> ~ well_formed fuel pattern.
Proof.
  induction fuel as [|fuel IH]; intros [|c p] Hf; cbn [String.length] in Hf;
    try (split; [done | by intros []]); [lia|].
  cbn [checkRest well_formed].
  pose proof (scanChunk_length (String c p) ltac:(done)) as Hs.
  destruct (scanChunk (String c p)) as [[star chunk] rest]. destruct Hs as [Hs _].
  cbn [String.length] in Hs. specialize (IH rest ltac:(lia)).
  pose proof (matchChunk_total chunk "").
  destruct (matchChunk chunk ""); try done; rewrite ?IH; naive_solver.
Qed.

Lemma matchLoop_wf fuel : forall pattern name,
  (String.length pattern <= fuel)%nat ->
  matchLoop fuel pattern name = Some (Err ErrBadPattern) <-> ~ well_formed fuel pattern.
Proof.
  induction fuel as [|fuel IH]; intros [|c p] name Hf; cbn [String.length] in Hf;
    try (split; [done | by intros []]); [lia|].
  cbn [matchLoop well_formed].
  pose proof (scanChunk_length (String c p) ltac:(done)) as Hs.
  destruct (scanChunk (String c p)) as [[star chunk] rest]. destruct Hs as [Hs Hstar].
  cbn [String.length] in Hs.
  assert (Hr : forall t, matchLoop fuel rest t = Some (Err ErrBadPattern) <-> ~ well_formed fuel rest)
    by (intros t; apply IH; lia).
  pose proof (checkRest_wf fuel rest ltac:(lia)) as Hc.
  destruct (star && String.eqb chunk "") eqn:Ese.
  { bools. rewrite (Hstar ltac:(done) ltac:(done)). subst chunk. split; [done|].
    intros []. split; [done|]. by destruct fuel. }
  pose proof (matchChunk_total chunk name) as Ht.
  destruct (matchChunk chunk name) eqn:E; [done | | |].
  - apply (matchChunk_bad _ _ "") in E. rewrite E. naive_solver.
  - assert (matchChunk chunk "" <> Bad) as Hnb by (intros Hb; apply (matchChunk_bad _ _ name) in Hb; congruence).
    assert (~ well_formed fuel rest <-> ~ (matchChunk chunk "" <> Bad /\ well_formed fuel rest)) as <- by naive_solver.
    destruct star; [| done].
    pose proof (starLoop_total chunk (String.eqb rest "") name).
    destruct (starLoop chunk (String.eqb rest "") name) eqn:Es; try done.
    apply (starLoop_bad _ _ _ "") in Es. done.
  - assert (matchChunk chunk "" <> Bad) as Hnb by (intros Hb; apply (matchChunk_bad _ _ name) in Hb; congruence).
    assert (~ well_formed fuel rest <-> ~ (matchChunk chunk "" <> Bad /\ well_formed fuel rest)) as <- by naive_solver.
    destruct (_ || _); [done|]. destruct star; [| done].
    pose proof (starLoop_total chunk (String.eqb rest "") name).
    destruct (starLoop chunk (String.eqb rest "") name) eqn:Es; try done.
    apply (starLoop_bad _ _ _ "") in Es. done.
Qed.

(** Whether path.Match reports a malformed pattern depends on the pattern alone. *)
Lemma Match_error_pattern_only p n1 n2 :
  Match p n1 = Err ErrBadPattern -> Match p n2 = Err ErrBadPattern.
Proof.
  unfold Match. intros H.
  pose proof (matchLoop_total (String.length p) p n1 ltac:(done)).
  destruct (matchLoop (String.length p) p n1) as [r|] eqn:E; [| done]. subst r.
  apply matchLoop_wf in E; [| done]. by rewrite (proj2 (matchLoop_wf _ p n2 ltac:(done)) E).
Qed.

End GoPath.
