(* ===== verification/Float64.v ===== *)
(** * IEEE-754 binary64, Go's [float64]

    Values are the Standard Library's [spec_float] at precision 53 and exponent
    bound 1024; [f_add] rounds to nearest even and the comparisons are false as
    soon as an operand is NaN, which is Go's [+], [<], [<=], [>], [==].

    The lemmas say that integers up to [2^53] (MaxWeightedTotal of
    pkg/capability/enforce.go) are represented exactly: addition and comparison
    of two of them agree with the integers. *)
From stdpp Require Import base tactics list.
From S2P Require Import Prelude.
From Stdlib Require Import ZArith Lia SpecFloat.
#[local] Open Scope Z_scope.

Definition float64 := spec_float.

Definition f_zero : float64 := S754_zero false.
Definition f_add (x y : float64) : float64 := SFadd 53 1024 x y.
Definition f_sub (x y : float64) : float64 := SFsub 53 1024 x y.
Definition f_mul (x y : float64) : float64 := SFmul 53 1024 x y.
Definition f_lt (x y : float64) : bool := SFltb x y.
Definition f_le (x y : float64) : bool := SFleb x y.
Definition f_gt (x y : float64) : bool := SFltb y x.
Definition f_ge (x y : float64) : bool := SFleb y x.
Definition f_eq (x y : float64) : bool := SFeqb x y.

(** Conversion of an integer, Go's [float64(n)]. *)
Definition of_Z (z : Z) : float64 := binary_normalize 53 1024 z 0 false.

Definition f_one : float64 := of_Z 1.

Definition is_nan (x : float64) : bool :=
  match x with S754_nan => true | _ => false end.
Definition is_inf (x : float64) : bool :=
  match x with S754_infinity _ => true | _ => false end.

(** The integer part towards zero, when the value is finite: Go's [int64(f)] on
    a value in range. *)
Definition f_trunc (x : float64) : option Z :=
  match x with
  | S754_zero _ => Some 0
  | S754_finite s m e =>
      let a := if 0 <=? e then Z.pos m * 2 ^ e else Z.pos m / 2 ^ (- e) in
      Some (if s then - a else a)
  | _ => None
  end.

(** [f == math.Trunc(f)] on a finite value: no fractional bit is set. *)
Definition f_is_whole (x : float64) : bool :=
  match x with
  | S754_zero _ => true
  | S754_finite _ m e => if 0 <=? e then true else Z.pos m mod 2 ^ (- e) =? 0
  | S754_infinity _ => true
  | S754_nan => false
  end.

Definition two53 : Z := 9007199254740992.

(** ** Exactness of small integers *)

(** The canonical mantissa and exponent of a positive integer up to [2^53]. *)
Definition canon_e (z : Z) : Z := Z.log2 z - 52.
Definition canon_m (z : Z) : Z :=
  if canon_e z <=? 0 then z * 2 ^ (- canon_e z) else z / 2 ^ canon_e z.

Lemma digits2_log2 p : Z.pos (digits2_pos p) = Z.log2 (Z.pos p) + 1.
Proof.
  induction p as [p IH|p IH|]; cbn [digits2_pos]; [| | reflexivity].
  - rewrite Pos2Z.inj_succ, IH, Pos2Z.inj_xI, Z.log2_succ_double by lia. lia.
  - rewrite Pos2Z.inj_succ, IH, Pos2Z.inj_xO, Z.log2_double by lia. lia.
Qed.

Lemma iter_xO p d : Z.pos (Pos.iter xO p d) = Z.pos p * 2 ^ Z.pos d.
Proof.
  induction d as [|d IH] using Pos.peano_ind.
  - cbn. lia.
  - rewrite Pos.iter_succ, Pos2Z.inj_xO, IH, Pos2Z.inj_succ, Z.pow_succ_r by lia.
    lia.
Qed.

Lemma shl_align_spec p x y :
  let r := shl_align p x y in
  Z.pos (fst r) = Z.pos p * 2 ^ Z.max 0 (x - y) /\ snd r = Z.min x y.
Proof.
  unfold shl_align. destruct (y - x) as [|d|d] eqn:E; cbn [fst snd].
  - rewrite Z.max_l by lia. rewrite Z.pow_0_r. lia.
  - rewrite Z.max_l by lia. rewrite Z.pow_0_r. lia.
  - rewrite Z.max_r by lia. rewrite iter_xO. replace (x - y) with (Z.pos d) by lia.
    lia.
Qed.

Lemma shr_1_double m :
  0 < m -> shr_1 (Build_shr_record (2 * m) false false) = Build_shr_record m false false.
Proof. destruct m; intros; try lia. reflexivity. Qed.

Lemma iter_shr_1 n : forall m, 0 < m ->
  iter_pos shr_1 n (Build_shr_record (m * 2 ^ Z.pos n) false false)
  = Build_shr_record m false false.
Proof.
  induction n as [n IH|n IH|]; intros m Hm; cbn [iter_pos].
  - replace (m * 2 ^ Z.pos n~1) with (2 * ((m * 2 ^ Z.pos n) * 2 ^ Z.pos n)).
    2:{ rewrite (Pos2Z.inj_xI n), Z.pow_add_r, Z.pow_twice_r by lia. lia. }
    rewrite shr_1_double by nia. rewrite !IH; [reflexivity | lia | nia].
  - replace (m * 2 ^ Z.pos n~0) with ((m * 2 ^ Z.pos n) * 2 ^ Z.pos n).
    2:{ rewrite (Pos2Z.inj_xO n), Z.pow_twice_r. lia. }
    rewrite !IH; [reflexivity | lia | nia].
  - replace (m * 2 ^ 1) with (2 * m) by lia. by apply shr_1_double.
Qed.

Lemma fexp_canon m e :
  2 ^ 52 <= m < 2 ^ 53 -> -1074 <= e -> fexp 53 1024 (Zdigits2 m + e) = e.
Proof.
  intros Hm He. destruct m as [|p|p]; try lia. cbn [Zdigits2].
  rewrite digits2_log2. rewrite (Z.log2_unique (Z.pos p) 52) by lia.
  unfold fexp, emin. lia.
Qed.

Lemma shr_fexp_canon m e :
  2 ^ 52 <= m < 2 ^ 53 -> -1074 <= e ->
  shr_fexp 53 1024 m e loc_Exact = (Build_shr_record m false false, e).
Proof.
  intros Hm He. unfold shr_fexp. rewrite fexp_canon, Z.sub_diag by assumption.
  reflexivity.
Qed.

Lemma log2_mul_pow p k : 0 < p -> 0 <= k -> Z.log2 (p * 2 ^ k) = Z.log2 p + k.
Proof. intros Hp Hk. rewrite Z.log2_mul_pow2 by lia. lia. Qed.

Lemma round_canon m e p x :
  2 ^ 52 <= m < 2 ^ 53 -> -1074 <= e <= 971 ->
  Z.pos p * 2 ^ Z.max 0 (x - e) = m * 2 ^ Z.max 0 (e - x) ->
  binary_round 53 1024 false p x = S754_finite false (Z.to_pos m) e.
Proof.
  intros Hm He Heq.
  assert (Hlog : Z.log2 (Z.pos p) + x = 52 + e).
  { pose proof (f_equal Z.log2 Heq) as Hl.
    rewrite !log2_mul_pow, (Z.log2_unique m 52) in Hl by lia. lia. }
  unfold binary_round. rewrite digits2_log2.
  replace (fexp 53 1024 (Z.log2 (Z.pos p) + 1 + x)) with e by (unfold fexp, emin; lia).
  destruct (shl_align_spec p x e) as [Hf Hs].
  destruct (shl_align p x e) as [mz ez]; cbn [fst snd] in Hf, Hs.
  unfold binary_round_aux.
  assert (Hshr : shr_fexp 53 1024 (Z.pos mz) ez loc_Exact
                 = (Build_shr_record m false false, e)).
  { unfold shr_fexp. cbn [Zdigits2 shr_record_of_loc].
    assert (Z.log2 (Z.pos mz) + ez = 52 + e) as Hlz.
    { rewrite Hf, log2_mul_pow by lia. lia. }
    rewrite digits2_log2.
    replace (fexp 53 1024 (Z.log2 (Z.pos mz) + 1 + ez)) with e by (unfold fexp, emin; lia).
    rewrite Hf, Heq, Hs.
    destruct (Z.le_gt_cases e x).
    - rewrite (Z.max_l 0 (e - x)), Z.pow_0_r, Z.mul_1_r, Z.min_r, Z.sub_diag by lia.
      reflexivity.
    - rewrite Z.max_r, Z.min_l by lia. destruct (e - x) as [|n|n] eqn:En; try lia.
      cbn [shr]. rewrite iter_shr_1 by lia. f_equal. lia. }
  rewrite Hshr. cbn [shr_m loc_of_shr_record round_nearest_even].
  rewrite shr_fexp_canon by lia. cbn [shr_m].
  destruct m as [|pm|pm]; try lia.
  rewrite (proj2 (Z.leb_le e (1024 - 53))) by lia. reflexivity.
Qed.

Lemma canon_e_range z : 1 <= z <= two53 -> -52 <= canon_e z <= 1.
Proof.
  intros Hz. unfold canon_e. pose proof (Z.log2_nonneg z).
  assert (Z.log2 z <= 53); [| lia].
  change 53 with (Z.log2 two53). apply Z.log2_le_mono. lia.
Qed.

Lemma canon_e_top z : 1 <= z <= two53 -> 0 < canon_e z -> z = two53.
Proof.
  intros Hz He. pose proof (canon_e_range z Hz). unfold canon_e in *.
  pose proof (Z.log2_spec z ltac:(lia)) as [Hlo _].
  replace (Z.log2 z) with 53 in Hlo by lia.
  change (2 ^ 53) with two53 in Hlo. lia.
Qed.

Lemma canon_m_range z : 1 <= z <= two53 -> 2 ^ 52 <= canon_m z < 2 ^ 53.
Proof.
  intros Hz. unfold canon_m. case_match eqn:E; bools.
  - unfold canon_e in *. pose proof (Z.log2_spec z ltac:(lia)) as [Hlo Hhi].
    set (l := Z.log2 z) in *.
    assert (0 <= l) by apply Z.log2_nonneg.
    replace (2 ^ 52) with (2 ^ l * 2 ^ (- (l - 52))) by (rewrite <- Z.pow_add_r by lia; f_equal; lia).
    replace (2 ^ 53) with (2 ^ Z.succ l * 2 ^ (- (l - 52))) by (rewrite <- Z.pow_add_r by lia; f_equal; lia).
    pose proof (Z.pow_pos_nonneg 2 (- (l - 52))). nia.
  - pose proof (canon_e_top z Hz ltac:(lia)). subst z. vm_compute; intuition discriminate.
Qed.

(** [m * 2^e = z], with the exponent's sign split. *)
Lemma canon_value z :
  1 <= z <= two53 ->
  z * 2 ^ Z.max 0 (- canon_e z) = canon_m z * 2 ^ Z.max 0 (canon_e z).
Proof.
  intros Hz. unfold canon_m. case_match eqn:E; bools.
  - rewrite Z.max_r, (Z.max_l 0 (canon_e z)) by lia. lia.
  - pose proof (canon_e_top z Hz ltac:(lia)). subst z. reflexivity.
Qed.

Lemma of_Z_canon z :
  1 <= z <= two53 -> of_Z z = S754_finite false (Z.to_pos (canon_m z)) (canon_e z).
Proof.
  intros Hz. unfold of_Z, binary_normalize. destruct z as [|p|p]; try lia.
  pose proof (canon_e_range _ Hz).
  apply round_canon; [by apply canon_m_range | lia |].
  rewrite Z.sub_0_l, Z.sub_0_r. by apply canon_value.
Qed.

Lemma of_Z_add a b :
  0 <= a -> 0 <= b -> a + b <= two53 -> f_add (of_Z a) (of_Z b) = of_Z (a + b).
Proof.
  intros Ha Hb Hab.
  destruct (decide (a = 0)) as [->|].
  { destruct (decide (b = 0)) as [->|]; [done|].
    rewrite Z.add_0_l, (of_Z_canon b) by lia. reflexivity. }
  destruct (decide (b = 0)) as [->|].
  { rewrite Z.add_0_r, (of_Z_canon a) by lia. reflexivity. }
  rewrite (of_Z_canon a), (of_Z_canon b) by lia. unfold f_add, SFadd.
  pose proof (canon_m_range a ltac:(lia)). pose proof (canon_m_range b ltac:(lia)).
  assert (canon_e a <= 0 /\ canon_e b <= 0) as [Hea Heb].
  { split; apply Z.nlt_ge; intros Hlt; apply canon_e_top in Hlt; lia. }
  set (ez := Z.min (canon_e a) (canon_e b)).
  destruct (shl_align_spec (Z.to_pos (canon_m a)) (canon_e a) ez) as [Hfa _].
  destruct (shl_align_spec (Z.to_pos (canon_m b)) (canon_e b) ez) as [Hfb _].
  unfold cond_Zopp. rewrite Hfa, Hfb, !Z2Pos.id by lia.
  assert (forall z, 1 <= z <= two53 -> canon_e z <= 0 -> ez <= canon_e z ->
            canon_m z * 2 ^ Z.max 0 (canon_e z - ez) = z * 2 ^ (- ez)) as Hscale.
  { intros z Hz Hez Hle. pose proof (canon_value z Hz) as Hv.
    rewrite (Z.max_l 0 (canon_e z)), Z.pow_0_r, Z.max_r in Hv by lia.
    rewrite Z.max_r by lia.
    replace (- ez) with (- canon_e z + (canon_e z - ez)) by lia.
    rewrite Z.pow_add_r by lia. nia. }
  rewrite !Hscale by lia. rewrite <- Z.mul_add_distr_r.
  assert (0 < (a + b) * 2 ^ (- ez)).
  { apply Z.mul_pos_pos; [lia | apply Z.pow_pos_nonneg; lia]. }
  destruct ((a + b) * 2 ^ (- ez)) as [|p|p] eqn:Ep; try lia.
  cbn [binary_normalize].
  pose proof (canon_e_range (a + b) ltac:(lia)).
  rewrite (of_Z_canon (a + b)) by lia.
  apply round_canon; [apply canon_m_range; lia | lia |].
  assert (ez <= canon_e (a + b)) as Hez.
  { unfold ez, canon_e. pose proof (Z.log2_le_mono a (a + b)). lia. }
  rewrite <- Ep, (Z.max_l 0 (ez - _)), Z.pow_0_r, Z.mul_1_r, Z.max_r by lia.
  pose proof (canon_value (a + b) ltac:(lia)) as Hv.
  destruct (Z.le_gt_cases (canon_e (a + b)) 0).
  - rewrite (Z.max_l 0 (canon_e (a + b))), Z.pow_0_r, Z.max_r in Hv by lia.
    replace (- ez) with (- canon_e (a + b) + (canon_e (a + b) - ez)) by lia.
    rewrite Z.pow_add_r by lia. nia.
  - rewrite Z.max_l, Z.pow_0_r, Z.max_r in Hv by lia.
    replace (canon_e (a + b) - ez) with (canon_e (a + b) + - ez) by lia.
    rewrite Z.pow_add_r by lia. nia.
Qed.

Lemma of_Z_compare a b :
  0 <= a <= two53 -> 0 <= b <= two53 ->
  SFcompare (of_Z a) (of_Z b) = Some (Z.compare a b).
Proof.
  intros Ha Hb.
  destruct (decide (a = 0)) as [->|], (decide (b = 0)) as [->|]; [done | | |].
  { rewrite (of_Z_canon b) by lia. cbn. destruct b; [lia | done | lia]. }
  { rewrite (of_Z_canon a) by lia. cbn. destruct a; [lia | done | lia]. }
  rewrite (of_Z_canon a), (of_Z_canon b) by lia. cbn [SFcompare]. f_equal.
  pose proof (canon_m_range a ltac:(lia)). pose proof (canon_m_range b ltac:(lia)).
  destruct (Z.compare_spec (canon_e a) (canon_e b)) as [He|He|He].
  - change (Pos.compare_cont Eq) with Pos.compare.
    rewrite Pos2Z.inj_compare, !Z2Pos.id by lia.
    pose proof (canon_value a ltac:(lia)) as Va. pose proof (canon_value b ltac:(lia)) as Vb.
    rewrite He in Va.
    pose proof (Z.pow_pos_nonneg 2 (Z.max 0 (- canon_e b)) ltac:(lia) ltac:(lia)).
    pose proof (Z.pow_pos_nonneg 2 (Z.max 0 (canon_e b)) ltac:(lia) ltac:(lia)).
    destruct (Z.compare_spec (canon_m a) (canon_m b)), (Z.compare_spec a b); try done; nia.
  - symmetry. apply Z.compare_lt_iff.
    destruct (Z.le_gt_cases b a) as [Hle|]; [| lia].
    apply Z.log2_le_mono in Hle. unfold canon_e in He. lia.
  - symmetry. apply Z.compare_gt_iff.
    destruct (Z.le_gt_cases a b) as [Hle|]; [| lia].
    apply Z.log2_le_mono in Hle. unfold canon_e in He. lia.
Qed.

Lemma of_Z_gt a b :
  0 <= a <= two53 -> 0 <= b <= two53 -> f_gt (of_Z a) (of_Z b) = (b <? a).
Proof.
  intros Ha Hb. unfold f_gt, SFltb. rewrite of_Z_compare by assumption.
  unfold Z.ltb. by destruct (b ?= a).
Qed.

Lemma of_Z_eq a b :
  0 <= a <= two53 -> 0 <= b <= two53 -> f_eq (of_Z a) (of_Z b) = (a =? b).
Proof.
  intros Ha Hb. unfold f_eq, SFeqb. rewrite of_Z_compare by assumption.
  unfold Z.eqb, Z.compare. destruct a, b; try done; cbn.
  - change (Pos.compare_cont Eq) with Pos.compare.
    destruct (Pos.compare_spec p p0) as [->| |]; [by rewrite Pos.eqb_refl | |];
      symmetry; apply Pos.eqb_neq; lia.
  - lia.
Qed.

(** Converting to a float and back is exact in this range. *)
Lemma of_Z_trunc z : 0 <= z <= two53 -> f_trunc (of_Z z) = Some z.
Proof.
  intros Hz. destruct (decide (z = 0)) as [->|]; [done|].
  rewrite (of_Z_canon z) by lia. cbn [f_trunc].
  pose proof (canon_m_range z ltac:(lia)). pose proof (canon_value z ltac:(lia)) as V.
  rewrite Z2Pos.id by lia. f_equal. destruct (Z.leb_spec 0 (canon_e z)).
  - rewrite (Z.max_l 0 (- _)), Z.max_r, Z.pow_0_r in V by lia. lia.
  - rewrite (Z.max_r 0 (- _)), Z.max_l, Z.pow_0_r, Z.mul_1_r in V by lia.
    rewrite <- V, Z.div_mul; [done|]. apply Z.pow_nonzero; lia.
Qed.

(** On numbers, the order is total: [x < y] fails exactly when [y <= x]. *)
Lemma f_lt_le x y : is_nan x = false -> is_nan y = false -> f_lt x y = negb (f_le y x).
Proof.
  unfold f_lt, f_le, SFltb, SFleb, SFcompare.
  destruct x as [s1|[]| |s1 m1 e1], y as [s2|[]| |s2 m2 e2]; try done; intros _ _;
    try (by destruct s1); try (by destruct s2).
  change (Pos.compare_cont Eq) with Pos.compare.
  rewrite (Z.compare_antisym e1 e2), (Pos.compare_antisym m1 m2).
  by destruct s1, s2; try done; destruct (e1 ?= e2); try done; destruct (m1 ?= m2)%positive.
Qed.
