(* ===== verification/Truncate.v ===== *)
(** * UTF-8 normalisation and bounded strings

    pkg/capability/truncate.go: the cut that makes caller-controlled bytes safe for a
    signed record.  [strings.ToValidUTF8] replaces each run of invalid bytes by one
    replacement; its loop carries the length of the string as fuel, which it never
    exhausts because a step consumes at least one byte. *)
From stdpp Require Import base tactics list strings.
From Stdlib Require Import ZArith Lia Ascii String.
From S2P Require Import Prelude GoStrings GoPath.
#[local] Open Scope string_scope.
#[local] Arguments String.append : simpl nomatch.
Import GoPath.

Module Truncate.

(** ** Pieces of strings *)

Fixpoint take_str (n : nat) (s : string) : string :=
  match n, s with
  | S n', String c s' => String c (take_str n' s')
  | _, _ => EmptyString
  end.

Definition byte_at (s : string) (i : nat) : option ascii := String.get i s.

(** The byte sequence at the start of [s] is not UTF-8. *)
Definition bad_start (s : string) : bool :=
  let '(_, w) := DecodeRuneInString s in
  match s with
  | EmptyString => false
  | String c _ => (128 <=? byte_val c)%Z && (w =? 1)%nat
  end.

Fixpoint toValid (fuel : nat) (replacement : string) (invalid : bool) (s : string) : string :=
  match fuel, s with
  | S fuel, String c s' =>
      if (byte_val c <? 128)%Z then String c (toValid fuel replacement false s')
      else
        let w := snd (DecodeRuneInString s) in
        if (w =? 1)%nat then
          (if invalid then "" else replacement) ++ toValid fuel replacement true s'
        else take_str w s ++ toValid fuel replacement false (drop_str w s)
  | _, _ => EmptyString
  end.

(** [strings.ToValidUTF8]. *)
Definition ToValidUTF8 (s replacement : string) : string :=
  toValid (String.length s) replacement false s.

(** U+FFFD. *)
Definition replacementRune : string := bytes [239; 191; 189].

(** [utf8.RuneStart]: not a continuation byte. *)
Definition RuneStart (c : ascii) : bool := negb (in_range 128 191 (byte_val c)).

Fixpoint runeBoundaryCut (s : string) (limit : nat) : nat :=
  match limit with
  | O => O
  | S keep =>
      match byte_at s limit with
      | Some c => if RuneStart c then limit else runeBoundaryCut s keep
      | None => limit
      end
  end.

Definition TruncateUTF8 (s : string) (limit : Z) : string :=
  let s := ToValidUTF8 s replacementRune in
  if (limit <=? 0)%Z then ""
  else if (len s <=? limit)%Z then s
  else take_str (runeBoundaryCut s (Z.to_nat limit)) s.

Definition BoundString (s : string) (limit : Z) : string :=
  let s := ToValidUTF8 s replacementRune in
  if (len s <=? limit)%Z then s
  else
    let marker := "...[eunox: truncated, " ++ itoa (len s) ++ " bytes]" in
    let keep := (limit - len marker)%Z in
    if (keep <? 0)%Z then
      if (limit <=? 0)%Z then ""
      else if (limit <? 3)%Z then take_str (Z.to_nat limit) "..." else "..."
    else take_str (runeBoundaryCut s (Z.to_nat keep)) s ++ marker.

(** [unicode.IsControl] (category Cc), and the two line separators it misses. *)
Definition breaksLine (r : Z) : bool :=
  in_range 0 31 r || in_range 127 159 r || (r =? 8232)%Z || (r =? 8233)%Z.

(** [strings.Map] over the runes of a valid string, with the closure of
    [SanitizeControlRunes]. *)
Fixpoint mapRunes (fuel : nat) (s : string) : string :=
  match fuel, s with
  | S fuel, String c s' =>
      let '(r, w) := DecodeRuneInString s in
      (if breaksLine r then " " else take_str w s) ++ mapRunes fuel (drop_str w s)
  | _, _ => EmptyString
  end.

Definition SanitizeControlRunes (s : string) : string :=
  let s := ToValidUTF8 s replacementRune in mapRunes (String.length s) s.

(** ** Valid UTF-8 *)

(** The width of a well-formed rune at the start of a string. *)
Definition rune_width (s : string) : option nat :=
  match s with
  | EmptyString => None
  | _ => if bad_start s then None else Some (snd (DecodeRuneInString s))
  end.

Inductive Valid : string -> Prop :=
| Valid_nil : Valid ""
| Valid_rune s w : rune_width s = Some w -> Valid (drop_str w s) -> Valid s.

Lemma take_drop_str n s : take_str n s ++ drop_str n s = s.
Proof. revert s. induction n; intros [|c s]; cbn; try done. by rewrite IHn. Qed.

Lemma take_str_length n s : String.length (take_str n s) = Nat.min n (String.length s).
Proof. revert s. induction n; intros [|c s]; cbn; try done. by rewrite IHn. Qed.

Lemma drop_str_app a b : drop_str (String.length a) (a ++ b) = b.
Proof. by induction a. Qed.

Lemma take_str_app a b : take_str (String.length a) (a ++ b) = a.
Proof. induction a as [|c a IH]; cbn; [by destruct b | by rewrite IH]. Qed.

(** The continuation bytes of a rune. *)
Definition continues (s : string) : Prop :=
  forall i c, byte_at s i = Some c -> RuneStart c = false.

Lemma continues_nil : continues "".
Proof. intros [|i] c E; done. Qed.

Lemma continues_cons c s lo hi :
  (128 <= lo)%Z -> (hi <= 191)%Z -> in_range lo hi (byte_val c) = true -> continues s ->
  continues (String c s).
Proof.
  intros Hl Hh Hr Hs [|i] d E; cbn in E; [| by eapply Hs]. simplify_eq.
  unfold RuneStart, in_range in *. apply negb_false_iff, andb_true_iff.
  apply andb_true_iff in Hr as [?%Z.leb_le ?%Z.leb_le]. split; apply Z.leb_le; lia.
Qed.

(** What a leading byte outside ASCII asks for: how many continuation bytes, and the range
    of the first. *)
Definition lead (b : Z) : option (nat * Z * Z) :=
  if in_range 194 223 b then Some (1%nat, 128, 191)%Z
  else if (b =? 224)%Z then Some (2%nat, 160, 191)%Z
  else if (b =? 237)%Z then Some (2%nat, 128, 159)%Z
  else if in_range 225 239 b then Some (2%nat, 128, 191)%Z
  else if (b =? 240)%Z then Some (3%nat, 144, 191)%Z
  else if (b =? 244)%Z then Some (3%nat, 128, 143)%Z
  else if in_range 241 243 b then Some (3%nat, 128, 191)%Z
  else None.

Fixpoint conts (n : nat) (lo hi : Z) (s : string) : bool :=
  match n with
  | O => true
  | S n =>
      match s with
      | EmptyString => false
      | String c s' => in_range lo hi (byte_val c) && conts n 128 191 s'
      end
  end.

Lemma decode_lead c s :
  (128 <= byte_val c)%Z ->
  snd (DecodeRuneInString (String c s)) =
  match lead (byte_val c) with
  | Some (n, lo, hi) => if conts n lo hi s then S n else 1%nat
  | None => 1%nat
  end.
Proof.
  intros Hb. unfold DecodeRuneInString, lead. rewrite (proj2 (Z.ltb_ge _ _) Hb).
  repeat match goal with |- context [if ?b then _ else _] =>
    lazymatch b with
    | in_range _ _ (byte_val c) => destruct b
    | (byte_val c =? _)%Z => destruct b
    end
  end; try done.
  all: destruct s as [|c1 [|c2 [|c3 s]]]; cbn [conts]; try done;
    repeat (destruct (in_range _ _ _); cbn [andb]; try done).
Qed.

Lemma lead_range b n lo hi :
  lead b = Some (n, lo, hi) -> (1 <= n)%nat /\ (128 <= lo)%Z /\ (hi <= 191)%Z /\ (194 <= b)%Z.
Proof.
  unfold lead, in_range. intros E.
  repeat match type of E with (if ?b then _ else _) = _ => destruct b eqn:? end; simplify_eq; lia.
Qed.

Lemma conts_split n : forall lo hi s,
  (128 <= lo)%Z -> (hi <= 191)%Z -> conts n lo hi s = true ->
  exists r t, s = r ++ t /\ String.length r = n /\ continues r /\
    forall t', conts n lo hi (r ++ t') = true.
Proof.
  induction n as [|n IH]; intros lo hi s Hl Hh E; cbn [conts] in E.
  { exists "", s. split_and!; [done | done | apply continues_nil | done]. }
  destruct s as [|c s]; [done|]. apply andb_true_iff in E as [Ec E].
  apply IH in E as (r & t & -> & <- & Hc & Ht); [| lia..].
  exists (String c r), t. split_and!; [done | done | by eapply continues_cons |].
  intros t'. cbn. rewrite Ec. apply Ht.
Qed.

(** A rune is recognised from its own bytes: a leading byte that starts a rune and
    continuation bytes. *)
Definition rune_bytes (c : ascii) (r : string) : Prop :=
  RuneStart c = true /\ continues r /\
  forall t, rune_width (String c (r ++ t)) = Some (S (String.length r)).

Lemma rune_width_eq c s :
  rune_width (String c s) =
  if (byte_val c <? 128)%Z then Some 1%nat
  else match lead (byte_val c) with
       | Some (n, lo, hi) => if conts n lo hi s then Some (S n) else None
       | None => None
       end.
Proof.
  unfold rune_width, bad_start. rewrite (surjective_pairing (DecodeRuneInString _)).
  destruct (Z.ltb_spec (byte_val c) 128) as [Hlt|Hge].
  { destruct (Z.leb_spec 128 (byte_val c)); [lia|]. cbn [andb]. unfold DecodeRuneInString.
    by rewrite (proj2 (Z.ltb_lt _ _) Hlt). }
  rewrite (proj2 (Z.leb_le _ _) Hge), (decode_lead c s Hge). cbn [andb].
  destruct (lead (byte_val c)) as [[[n lo] hi]|] eqn:El; [| done].
  apply lead_range in El as (Hn & _). destruct (conts n lo hi s); [| done].
  destruct (Nat.eqb_spec (S n) 1); [lia | done].
Qed.

Lemma rune_split s w :
  rune_width s = Some w ->
  exists c r t, s = String c (r ++ t) /\ w = S (String.length r) /\ rune_bytes c r.
Proof.
  destruct s as [|c s]; [done|]. rewrite rune_width_eq.
  destruct (Z.ltb_spec (byte_val c) 128) as [Hlt|Hge].
  - intros [= <-]. exists c, "", s. split_and!; [done | done |]. split_and!.
    + unfold RuneStart, in_range. destruct (Z.leb_spec 128 (byte_val c)); [lia | done].
    + apply continues_nil.
    + intros t. rewrite rune_width_eq. by rewrite (proj2 (Z.ltb_lt _ _) Hlt).
  - destruct (lead (byte_val c)) as [[[n lo] hi]|] eqn:El; [| done].
    destruct (conts n lo hi s) eqn:Ec; [| done]. intros [= <-].
    apply lead_range in El as Hr. destruct Hr as (Hn & Hlo & Hhi & Hb).
    apply conts_split in Ec as (r & t & -> & Hlen & Hc & Ht); [| done..].
    exists c, r, t. split_and!; [done | by rewrite Hlen |]. split_and!; [| done |].
    + unfold RuneStart, in_range. destruct (Z.leb_spec (byte_val c) 191); [lia | by rewrite andb_false_r].
    + intros t'. rewrite rune_width_eq, (proj2 (Z.ltb_ge _ _) Hge), El, Ht. by rewrite Hlen.
Qed.

Lemma Valid_app_rune c r t : rune_bytes c r -> Valid t -> Valid (String c (r ++ t)).
Proof.
  intros (_ & _ & Hw) Ht. eapply Valid_rune; [apply Hw|]. cbn [drop_str]. by rewrite drop_str_app.
Qed.

(** Induction on the runes of a valid string. *)
Lemma Valid_runes (P : string -> Prop) :
  P "" -> (forall c r t, rune_bytes c r -> Valid t -> P t -> P (String c (r ++ t))) ->
  forall s, Valid s -> P s.
Proof.
  intros H0 Hr s Hs. induction Hs as [|s w Hw Hs IH]; [done|].
  apply rune_split in Hw as (c & r & t & -> & -> & Hb). cbn [drop_str] in *.
  rewrite drop_str_app in *. by apply Hr.
Qed.

Lemma Valid_app a b : Valid a -> Valid b -> Valid (a ++ b).
Proof.
  intros Ha Hb. revert a Ha. apply Valid_runes; [done|]. intros c r t Hr _ IH.
  cbn. rewrite str_app_assoc. by apply Valid_app_rune.
Qed.

Lemma Valid_cons c s : (byte_val c < 128)%Z -> Valid s -> Valid (String c s).
Proof. intros Hc Hs. eapply Valid_rune; [rewrite rune_width_eq, (proj2 (Z.ltb_lt _ _) Hc) |]; done. Qed.

(** Text of ASCII bytes is valid. *)
Lemma Valid_ascii s : str_forall (fun c => (byte_val c <? 128)%Z) s = true -> Valid s.
Proof.
  induction s as [|c s IH]; cbn; [constructor|]. intros [Hc%Z.ltb_lt Hs]%andb_true_iff.
  apply Valid_cons; auto.
Qed.

Lemma drop_str_le w s : (String.length (drop_str w s) = String.length s - w)%nat.
Proof. apply drop_str_length. Qed.

Lemma toValid_valid rep fuel : forall invalid s,
  Valid rep -> Valid (toValid fuel rep invalid s).
Proof.
  induction fuel as [|fuel IH]; intros invalid s Hrep; [constructor|].
  destruct s as [|c s]; cbn [toValid]; [constructor|].
  destruct (Z.ltb_spec (byte_val c) 128) as [Hlt|Hge]; [by apply Valid_cons; auto|].
  destruct (Nat.eqb_spec (snd (DecodeRuneInString (String c s))) 1) as [E|E].
  { apply Valid_app; [destruct invalid; [constructor | done] | auto]. }
  apply Valid_app; [| auto].
  assert (rune_width (String c s) = Some (snd (DecodeRuneInString (String c s)))) as Hw.
  { unfold rune_width, bad_start. rewrite (surjective_pairing (DecodeRuneInString _)).
    by rewrite (proj2 (Nat.eqb_neq _ _) E), andb_false_r. }
  apply rune_split in Hw as (c' & r & t & Es & Ew & Hb). rewrite Ew, Es. cbn [take_str].
  rewrite take_str_app, <- (str_app_nil r). apply Valid_app_rune; [done | constructor].
Qed.

(** On valid text the loop copies. *)
Lemma toValid_id rep s : Valid s -> forall fuel invalid,
  (String.length s <= fuel)%nat -> toValid fuel rep invalid s = s.
Proof.
  revert s. apply (Valid_runes (fun s => forall fuel invalid,
    (String.length s <= fuel)%nat -> toValid fuel rep invalid s = s)); [by intros [|fuel] |].
  intros c r t (Hs & Hc & Hw) _ IH [|fuel] invalid Hf; [cbn in Hf; lia|].
  cbn [toValid String.length] in *. rewrite str_length_app in Hf. pose proof (Hw t) as Hwt.
  rewrite rune_width_eq in Hwt. destruct (Z.ltb_spec (byte_val c) 128) as [Hlt|Hge].
  { injection Hwt as E. destruct r; [| done]. cbn. rewrite IH by (cbn in Hf; lia). done. }
  pose proof (decode_lead c (r ++ t) Hge) as Hd.
  destruct (lead (byte_val c)) as [[[n lo] hi]|] eqn:El; [| done].
  destruct (conts n lo hi (r ++ t)); [| done]. injection Hwt as En.
  apply lead_range in El as (Hn & _). rewrite Hd, (proj2 (Nat.eqb_neq (S n) 1)) by lia.
  rewrite En. cbn [take_str drop_str]. rewrite take_str_app, drop_str_app, IH by lia. done.
Qed.

Lemma ToValidUTF8_valid s : Valid (ToValidUTF8 s replacementRune).
Proof.
  apply toValid_valid. eapply Valid_rune with (w := 3%nat); [vm_compute; reflexivity | constructor].
Qed.

Lemma ToValidUTF8_id s rep : Valid s -> ToValidUTF8 s rep = s.
Proof. intros Hs. by apply toValid_id. Qed.

(** Nothing is normalised to the empty string but itself. *)
Lemma ToValidUTF8_nonempty s : s <> "" -> ToValidUTF8 s replacementRune <> "".
Proof.
  destruct s as [|c s]; [done|]. intros _. unfold ToValidUTF8. cbn [String.length toValid].
  destruct (Z.ltb_spec (byte_val c) 128) as [|Hge]; [done|].
  pose proof (decode_lead c s Hge) as Hw.
  destruct (snd (DecodeRuneInString (String c s))) as [|[|w]]; [| done | done].
  exfalso. destruct (lead _) as [[[n lo] hi]|]; [destruct (conts n lo hi s) |]; done.
Qed.

(** ** The cut *)

Lemma runeBoundaryCut_le s limit : (runeBoundaryCut s limit <= limit)%nat.
Proof. induction limit; cbn; [done|]. repeat case_match; lia. Qed.

Lemma byte_at_app_l a b i : (i < String.length a)%nat -> byte_at (a ++ b) i = byte_at a i.
Proof.
  revert i. induction a as [|c a IH]; intros i Hi; cbn in Hi; [lia|]. destruct i; [done|].
  cbn. apply IH. lia.
Qed.

Lemma byte_at_app_r a b i : byte_at (a ++ b) (String.length a + i) = byte_at b i.
Proof. by induction a. Qed.

Lemma byte_at_Some s i : (i < String.length s)%nat -> exists c, byte_at s i = Some c.
Proof.
  revert i. induction s as [|c s IH]; intros i Hi; cbn in Hi; [lia|].
  destruct i; [by eexists|]. cbn. apply IH. lia.
Qed.

Lemma cut_inside c r t limit :
  rune_bytes c r -> (limit <= String.length r)%nat -> runeBoundaryCut (String c (r ++ t)) limit = 0%nat.
Proof.
  intros (_ & Hc & _). induction limit as [|k IH]; intros Hl; [done|]. cbn [runeBoundaryCut].
  destruct (byte_at_Some r k) as [d Hd]; [lia|].
  assert (byte_at (String c (r ++ t)) (S k) = Some d) as ->.
  { cbn. rewrite <- Hd. by apply byte_at_app_l. }
  rewrite (Hc _ _ Hd). apply IH. lia.
Qed.

Lemma cut_after c r t limit :
  rune_bytes c r -> Valid t -> t <> "" ->
  runeBoundaryCut (String c (r ++ t)) (S (String.length r) + limit)
  = (S (String.length r) + runeBoundaryCut t limit)%nat.
Proof.
  intros Hb Ht Hne. induction limit as [|k IH].
  - destruct Ht as [|t w Hw _]; [done|]. apply rune_split in Hw as (d & r' & t' & -> & _ & Hd & _).
    cbn [runeBoundaryCut]. rewrite Nat.add_0_r. cbn [runeBoundaryCut].
    assert (byte_at (String c (r ++ String d (r' ++ t'))) (S (String.length r)) = Some d) as ->.
    { change (byte_at (r ++ String d (r' ++ t')) (String.length r) = Some d).
      rewrite <- (Nat.add_0_r (String.length r)). exact (byte_at_app_r r _ 0). }
    by rewrite Hd.
  - rewrite Nat.add_succ_r. cbn [runeBoundaryCut].
    assert (byte_at (String c (r ++ t)) (S (S (String.length r) + k)) = byte_at t (S k)) as ->.
    { change (byte_at (r ++ t) (S (String.length r + k)) = byte_at t (S k)).
      rewrite <- Nat.add_succ_r. apply byte_at_app_r. }
    repeat case_match; [lia | by rewrite IH | lia].
Qed.

Lemma cut_valid s : Valid s -> forall limit,
  (limit < String.length s)%nat -> Valid (take_str (runeBoundaryCut s limit) s).
Proof.
  revert s. apply (Valid_runes (fun s => forall limit,
    (limit < String.length s)%nat -> Valid (take_str (runeBoundaryCut s limit) s))).
  { cbn. lia. }
  intros c r t Hb Ht IH limit Hl. cbn [String.length] in Hl. rewrite str_length_app in Hl.
  destruct (decide (limit <= String.length r)%nat) as [Hin|Hout].
  { rewrite cut_inside by done. constructor. }
  replace limit with (S (String.length r) + (limit - S (String.length r)))%nat by lia.
  rewrite cut_after; [| done | done | by intros ->; cbn in Hl; lia].
  cbn [take_str plus]. 
  assert (forall n, take_str (String.length r + n) (r ++ t) = r ++ take_str n t) as ->.
  { clear. intros n. induction r as [|d r IH]; cbn; [done | by rewrite IH]. }
  apply Valid_app_rune; [done|]. apply IH. lia.
Qed.

(** ** What the bounds promise *)

Definition ascii_text (s : string) : bool := str_forall (fun c => (byte_val c <? 128)%Z) s.

Lemma ascii_text_app a b : ascii_text (a ++ b) = ascii_text a && ascii_text b.
Proof. unfold ascii_text. induction a as [|c a IH]; cbn; [done | by rewrite IH, andb_assoc]. Qed.

Lemma itoa_ascii n : ascii_text (itoa n) = true.
Proof.
  unfold itoa. destruct (Z.to_int n) as [d|d].
  all: cbn; unfold ascii_text; cbn; induction d; done.
Qed.

Definition marker (n : Z) : string := "...[eunox: truncated, " ++ itoa n ++ " bytes]".

Lemma marker_valid n : Valid (marker n).
Proof.
  apply Valid_ascii. change (ascii_text (marker n) = true). unfold marker.
  by rewrite !ascii_text_app, itoa_ascii.
Qed.

Lemma cut_length s limit : (len (take_str (runeBoundaryCut s limit) s) <= Z.of_nat limit)%Z.
Proof. unfold len. rewrite take_str_length. pose proof (runeBoundaryCut_le s limit). lia. Qed.

Lemma marker_len n : (0 < len (marker n))%Z.
Proof. unfold len, marker. cbn. lia. Qed.

Lemma BoundString_fits s limit :
  (0 <= limit)%Z -> (len (BoundString s limit) <= limit)%Z /\ Valid (BoundString s limit).
Proof.
  intros Hl. unfold BoundString. fold (marker (len (ToValidUTF8 s replacementRune))).
  pose proof (ToValidUTF8_valid s) as Hv. set (u := ToValidUTF8 s replacementRune) in *.
  destruct (Z.leb_spec (len u) limit); [done|].
  destruct (Z.ltb_spec (limit - len (marker (len u))) 0).
  - destruct (Z.leb_spec limit 0); [cbn; split; [done | constructor]|].
    destruct (Z.ltb_spec limit 3).
    + assert (limit = 1 \/ limit = 2)%Z as [-> | ->] by lia.
      all: split; [by vm_compute | by apply Valid_ascii].
    + split; [change (len "...") with 3%Z; lia | by apply Valid_ascii].
  - set (k := Z.to_nat (limit - len (marker (len u)))). pose proof (marker_len (len u)). split.
    + pose proof (cut_length u k). unfold len in *. rewrite str_length_app. lia.
    + apply Valid_app; [| apply marker_valid]. apply cut_valid; [done|]. unfold len in *. lia.
Qed.

Lemma BoundString_cut_nonempty s limit :
  (0 < limit < len (ToValidUTF8 s replacementRune))%Z -> BoundString s limit <> "".
Proof.
  intros [H0 Hf]. unfold BoundString. rewrite (proj2 (Z.leb_gt _ _) Hf).
  fold (marker (len (ToValidUTF8 s replacementRune))).
  destruct (Z.ltb_spec (limit - len (marker (len (ToValidUTF8 s replacementRune)))) 0) as [Hk|Hk].
  - destruct (Z.leb_spec limit 0); [lia|]. destruct (Z.ltb_spec limit 3); [| done].
    by destruct (Z.to_nat limit) eqn:E; [lia|].
  - intros E. apply (f_equal String.length) in E. rewrite str_length_app in E.
    pose proof (marker_len (len (ToValidUTF8 s replacementRune))). unfold len in *. cbn in E. lia.
Qed.

(** A bounded string fits its limit, is valid UTF-8 (so it survives a JSON encode and
    decode unchanged and a signed record verifies), is the normalised text itself when that
    fits, is never empty when a non-empty text was cut, and is left alone by a second cut. *)
Theorem BoundString_ok s limit :
  (0 <= limit)%Z ->
  let t := BoundString s limit in
  (len t <= limit)%Z /\ Valid t /\
  ((len (ToValidUTF8 s replacementRune) <= limit)%Z -> t = ToValidUTF8 s replacementRune) /\
  ((0 < limit < len (ToValidUTF8 s replacementRune))%Z -> t <> "") /\
  BoundString t limit = t.
Proof.
  intros Hl. cbn zeta. pose proof (BoundString_fits s limit Hl) as [Hs Hv].
  split_and!; [done | done | | apply BoundString_cut_nonempty |].
  - intros Hf. unfold BoundString. by rewrite (proj2 (Z.leb_le _ _) Hf).
  - unfold BoundString at 1. rewrite ToValidUTF8_id by done. by rewrite (proj2 (Z.leb_le _ _) Hs).
Qed.

(** The runes of a string. *)
Fixpoint runes (fuel : nat) (s : string) : list Z :=
  match fuel, s with
  | S fuel, String _ _ =>
      let '(r, w) := DecodeRuneInString s in r :: runes fuel (drop_str w s)
  | _, _ => []
  end.

Lemma decode_local c r t :
  rune_bytes c r -> DecodeRuneInString (String c (r ++ t)) = DecodeRuneInString (String c (r ++ "")).
Proof.
  intros (_ & _ & Hw). specialize (Hw ""). rewrite str_app_nil, rune_width_eq in *.
  destruct (byte_val c <? 128)%Z eqn:Hb.
  { unfold DecodeRuneInString. by rewrite Hb. }
  unfold lead in Hw. unfold DecodeRuneInString. rewrite Hb.
  repeat match goal with |- context [if ?b then _ else _] =>
    lazymatch b with
    | in_range _ _ (byte_val c) => destruct b
    | (byte_val c =? _)%Z => destruct b
    end
  end; try done.
  all: destruct r as [|c1 [|c2 [|c3 r]]]; cbn [conts String.append] in *; try done;
    repeat (destruct (in_range _ _ _); cbn [andb] in *; try done).
Qed.

Lemma decode_bytes_width c r t :
  rune_bytes c r -> DecodeRuneInString (String c (r ++ t)) = (fst (DecodeRuneInString (String c r)), S (String.length r)).
Proof.
  intros Hb. rewrite (decode_local c r t Hb). destruct Hb as (_ & _ & Hw). specialize (Hw "").
  rewrite !str_app_nil in *. unfold rune_width in Hw. destruct (bad_start _); [done|].
  apply (inj Some) in Hw. rewrite <- Hw. apply surjective_pairing.
Qed.

Lemma space_rune : rune_bytes " " "".
Proof. split_and!; [done | apply continues_nil | done]. Qed.

(** Every rune of the output is one the closure keeps. *)
Lemma mapRunes_clean s : Valid s -> forall fuel, (String.length s <= fuel)%nat ->
  Valid (mapRunes fuel s) /\
  forall fuel', Forall (fun r => breaksLine r = false) (runes fuel' (mapRunes fuel s)).
Proof.
  revert s. apply (Valid_runes (fun s => forall fuel, (String.length s <= fuel)%nat ->
    Valid (mapRunes fuel s) /\
    forall fuel', Forall (fun r => breaksLine r = false) (runes fuel' (mapRunes fuel s)))).
  { intros [|fuel] _; (split; [constructor | intros [|fuel']; constructor]). }
  intros c r t Hb Ht IH [|fuel] Hf; [cbn in Hf; lia|]. cbn [mapRunes].
  cbn [String.length] in Hf. rewrite str_length_app in Hf.
  rewrite (decode_bytes_width c r t Hb). cbn [drop_str take_str]. rewrite drop_str_app, take_str_app.
  destruct (IH fuel) as [Hv Hr]; [lia|].
  destruct (breaksLine _) eqn:Ebr.
  - split; [by apply (Valid_app_rune " " "" _ space_rune)|]. intros [|fuel']; [constructor|].
    cbn. constructor; [done | apply Hr].
  - change (String c r ++ mapRunes fuel t) with (String c (r ++ mapRunes fuel t)).
    split; [by apply Valid_app_rune|]. intros [|fuel']; [constructor|]. cbn [runes].
    rewrite (decode_bytes_width c r _ Hb). cbn [drop_str]. rewrite drop_str_app. by constructor.
Qed.

(** No control rune and no line terminator survives, so a value cannot start a line of its
    own in a diagnostic. *)
Lemma SanitizeControlRunes_clean s :
  let t := SanitizeControlRunes s in
  Valid t /\ Forall (fun r => breaksLine r = false) (runes (String.length t) t).
Proof.
  cbn zeta. unfold SanitizeControlRunes.
  destruct (mapRunes_clean _ (ToValidUTF8_valid s) _ (Nat.le_refl _)) as [Hv Hr]. by split.
Qed.

Lemma BoundString_ok_witness :
  let t := BoundString (bytes [255; 65; 195; 169; 66; 67; 68; 69]) 6 in
  (0 <= 6)%Z /\ (len t <= 6)%Z /\ t = "...".
Proof.
  split; [lia|]. split; [apply (BoundString_ok (bytes [255; 65; 195; 169; 66; 67; 68; 69]) 6); lia
                        | vm_compute; reflexivity].
Defined.

End Truncate.
