(* ===== verification/Runes.v ===== *)
(** * Runes and UTF-8

    The encoding of a rune ([utf8.AppendRune], which [strings.Builder.WriteRune] uses) and
    its agreement with the decoder of GoPath.v: decoding an encoded rune gives it back, and
    re-encoding the runes of a valid string gives the string back. *)
From stdpp Require Import base tactics list strings.
From Stdlib Require Import ZArith Lia Ascii String.
From S2P Require Import Prelude GoStrings GoPath Truncate.
#[local] Open Scope string_scope.
#[local] Open Scope Z_scope.
#[local] Arguments String.append : simpl nomatch.
Import GoPath Truncate.

Module Runes.

Definition byte (z : Z) : ascii := ascii_of_N (Z.to_N z).

(** A Unicode scalar value. *)
Definition valid_rune (r : Z) : bool := in_range 0 55295 r || in_range 57344 1114111 r.

(** [utf8.AppendRune(nil, r)]. *)
Definition EncodeRune (r : Z) : string :=
  if negb (valid_rune r) then replacementRune
  else if r <? 128 then String (byte r) ""
  else if r <? 2048 then
    String (byte (192 + r / 64)) (String (byte (128 + r mod 64)) "")
  else if r <? 65536 then
    String (byte (224 + r / 4096)) (String (byte (128 + r / 64 mod 64)) (String (byte (128 + r mod 64)) ""))
  else
    String (byte (240 + r / 262144)) (String (byte (128 + r / 4096 mod 64))
      (String (byte (128 + r / 64 mod 64)) (String (byte (128 + r mod 64)) ""))).

Definition encode (l : list Z) : string := String.concat "" (map EncodeRune l).

(** The runes of a string, as a [range] loop yields them. *)
Definition runesOf (s : string) : list Z := runes (String.length s) s.

(** ** Bytes *)

Lemma byte_val_byte z : 0 <= z < 256 -> byte_val (byte z) = z.
Proof.
  intros Hz. unfold byte_val, byte. rewrite N_ascii_embedding; [lia|]. lia.
Qed.

Lemma byte_byte_val c : byte (byte_val c) = c.
Proof. unfold byte_val, byte. rewrite N2Z.id. apply ascii_N_embedding. Qed.

Lemma byte_val_range c : 0 <= byte_val c < 256.
Proof. unfold byte_val. pose proof (N_ascii_bounded c). lia. Qed.

Lemma in_range_true lo hi x : in_range lo hi x = true <-> lo <= x <= hi.
Proof. unfold in_range. rewrite andb_true_iff, !Z.leb_le. lia. Qed.

Lemma in_range_false lo hi x : in_range lo hi x = false <-> ~ (lo <= x <= hi).
Proof. rewrite <- in_range_true. by destruct (in_range lo hi x). Qed.

Lemma valid_rune_true r : valid_rune r = true <-> (0 <= r <= 55295 \/ 57344 <= r <= 1114111).
Proof. unfold valid_rune. rewrite orb_true_iff, !in_range_true. done. Qed.

Ltac range_cases :=
  repeat match goal with
  | H : in_range _ _ _ = true |- _ => apply in_range_true in H
  | H : in_range _ _ _ = false |- _ => apply in_range_false in H
  | H : (_ =? _) = true |- _ => apply Z.eqb_eq in H
  | H : (_ =? _) = false |- _ => apply Z.eqb_neq in H
  | H : (_ <? _) = true |- _ => apply Z.ltb_lt in H
  | H : (_ <? _) = false |- _ => apply Z.ltb_ge in H
  end.

(** Decide the outermost test on a byte by arithmetic. *)
Ltac arith := Z.to_euclidean_division_equations; lia.
Ltac decide_test :=
  match goal with
  | |- context [if ?b then _ else _] =>
      first [ replace b with true by (symmetry; first [apply in_range_true | apply Z.eqb_eq | apply Z.ltb_lt]; arith)
            | replace b with false by (symmetry; first [apply in_range_false | apply Z.eqb_neq | apply Z.ltb_ge]; arith) ]
  end; cbn match; rewrite ?byte_val_byte by arith.

Lemma decode_encode r t :
  valid_rune r = true -> DecodeRuneInString (EncodeRune r ++ t) = (r, String.length (EncodeRune r)).
Proof.
  intros Hv. unfold EncodeRune. rewrite Hv. cbn [negb]. apply valid_rune_true in Hv.
  destruct (Z.ltb_spec r 128); [| destruct (Z.ltb_spec r 2048); [| destruct (Z.ltb_spec r 65536)]];
    cbn [String.append DecodeRuneInString String.length];
    rewrite !byte_val_byte by (arith).
  - by decide_test.
  - repeat decide_test. f_equal. arith.
  - destruct (Z.eqb_spec (r / 4096) 0); [| destruct (Z.eqb_spec (r / 4096) 13)];
      repeat decide_test; f_equal; arith.
  - destruct (Z.eqb_spec (r / 262144) 0); [| destruct (Z.eqb_spec (r / 262144) 4)];
      repeat decide_test; f_equal; arith.
Qed.

Lemma byte_eq z c : z = byte_val c -> byte z = c.
Proof. intros ->. apply byte_byte_val. Qed.

(** The rune that [w] bytes decode to is encoded by those bytes. *)
Lemma encode_decode c r :
  rune_bytes c r ->
  let x := fst (DecodeRuneInString (String c r)) in
  valid_rune x = true /\ EncodeRune x = String c r.
Proof.
  intros (_ & _ & Hw). cbn zeta. specialize (Hw ""). rewrite str_app_nil, rune_width_eq in Hw.
  pose proof (byte_val_range c) as Hc. unfold EncodeRune.
  destruct (byte_val c <? 128) eqn:Hb.
  { injection Hw as Hr. destruct r; [| done]. cbn [DecodeRuneInString]. rewrite Hb. cbn [fst]. range_cases.
    assert (valid_rune (byte_val c) = true) as Hv by (apply valid_rune_true; lia).
    rewrite Hv. cbn [negb]. rewrite (proj2 (Z.ltb_lt _ _) Hb). by rewrite byte_byte_val. }
  unfold lead in Hw. cbn [DecodeRuneInString]. rewrite Hb. range_cases.
  repeat match goal with |- context [if ?b then _ else _] =>
    lazymatch b with
    | in_range _ _ (byte_val c) => destruct b eqn:?
    | (byte_val c =? _) => destruct b eqn:?
    end
  end; try done; range_cases.
  all: destruct r as [|c1 [|c2 [|c3 [|c4 r]]]]; cbn [conts String.length] in Hw; try done;
    repeat match type of Hw with context [in_range ?l ?h (byte_val ?x)] =>
      destruct (in_range l h (byte_val x)) eqn:?; cbn [andb] in Hw; try done end; range_cases;
    cbn [fst];
    match goal with |- valid_rune ?x = true /\ _ =>
      assert (valid_rune x = true) as Hv by (apply valid_rune_true; lia) end;
    rewrite Hv; (split; [done|]); cbn [negb]; repeat decide_test;
    repeat f_equal; apply byte_eq; arith.
Qed.

(** ** Strings of runes *)

Lemma concat_cons a l : String.concat "" (a :: l) = a ++ String.concat "" l.
Proof. destruct l; cbn; [by rewrite str_app_nil | done]. Qed.

Lemma encode_cons r l : encode (r :: l) = EncodeRune r ++ encode l.
Proof. apply concat_cons. Qed.

Lemma EncodeRune_nonempty r : (1 <= String.length (EncodeRune r))%nat.
Proof. unfold EncodeRune. repeat case_match; cbn; lia. Qed.

Lemma decode_positive c s : (1 <= snd (DecodeRuneInString (String c s)))%nat.
Proof. unfold DecodeRuneInString. repeat case_match; cbn; lia. Qed.

(** [runes] does not depend on fuel it does not need. *)
Lemma runes_fuel fuel : forall s fuel', (String.length s <= fuel)%nat -> (String.length s <= fuel')%nat ->
  runes fuel s = runes fuel' s.
Proof.
  induction fuel as [|fuel IH]; intros s [|fuel'] Hf Hf'; try (by destruct s; cbn in *; [| lia]).
  destruct s as [|c s]; [done|]. cbn [runes].
  pose proof (decode_positive c s) as Hw. destruct (DecodeRuneInString (String c s)) as [r w].
  cbn [snd] in Hw. f_equal. apply IH; rewrite drop_str_length; cbn in *; lia.
Qed.

Lemma runes_encode l fuel :
  Forall (fun r => valid_rune r = true) l -> (String.length (encode l) <= fuel)%nat ->
  runes fuel (encode l) = l.
Proof.
  intros Hl. revert fuel. induction Hl as [|r l Hr _ IH]; intros fuel Hf; [by destruct fuel|].
  rewrite encode_cons in *. rewrite str_length_app in Hf. pose proof (EncodeRune_nonempty r) as Hn.
  destruct fuel as [|fuel]; [lia|]. cbn [runes].
  destruct (EncodeRune r ++ encode l) as [|c s] eqn:E.
  { apply (f_equal String.length) in E. rewrite str_length_app in E. cbn in E. lia. }
  rewrite <- E, decode_encode by done. f_equal. rewrite drop_str_app. apply IH. lia.
Qed.

(** A byte outside ASCII that decodes alone is invalid. *)
Lemma decode_bad c s r :
  128 <= byte_val c -> DecodeRuneInString (String c s) = (r, 1%nat) -> r = RuneError.
Proof.
  intros Hc Ed. unfold DecodeRuneInString in Ed. rewrite (proj2 (Z.ltb_ge _ _) Hc) in Ed.
  repeat case_match; by simplify_eq.
Qed.

Lemma decode_valid s : s <> "" -> valid_rune (fst (DecodeRuneInString s)) = true.
Proof.
  intros Hne. destruct (rune_width s) as [w|] eqn:E.
  - apply rune_split in E as (c & r & t & -> & _ & Hb). rewrite (decode_bytes_width c r t Hb). cbn [fst].
    by apply encode_decode.
  - destruct s as [|c s]; [done|]. unfold rune_width, bad_start in E.
    destruct (DecodeRuneInString (String c s)) as [r w] eqn:Ed. destruct (_ && _) eqn:Eb; [| done].
    apply andb_true_iff in Eb as [Hc%Z.leb_le Hw%Nat.eqb_eq]. subst w.
    by apply decode_bad in Ed as ->.
Qed.

Lemma runes_valid fuel : forall s, Forall (fun r => valid_rune r = true) (runes fuel s).
Proof.
  induction fuel as [|fuel IH]; intros s; [constructor|]. destruct s as [|c s]; cbn [runes]; [constructor|].
  pose proof (decode_valid (String c s) ltac:(done)) as Hv. destruct (DecodeRuneInString _). by constructor.
Qed.

Lemma encode_runes s : Valid s -> forall fuel, (String.length s <= fuel)%nat -> encode (runes fuel s) = s.
Proof.
  revert s. apply (Valid_runes (fun s => forall fuel, (String.length s <= fuel)%nat -> encode (runes fuel s) = s)).
  { by intros [|fuel]. }
  intros c r t Hb _ IH [|fuel] Hf; [cbn in Hf; lia|]. cbn [runes]. rewrite (decode_bytes_width c r t Hb).
  rewrite encode_cons. destruct (encode_decode c r Hb) as [_ ->]. cbn [drop_str]. rewrite drop_str_app.
  rewrite IH; [done|]. cbn in Hf. rewrite str_length_app in Hf. lia.
Qed.

(** Valid strings are determined by their runes, and lists of scalar values by their
    encoding. *)
Lemma utf8_roundtrip s l :
  Valid s -> Forall (fun r => valid_rune r = true) l ->
  encode (runesOf s) = s /\ runesOf (encode l) = l.
Proof. intros Hs Hl. split; [by apply encode_runes | by apply runes_encode]. Qed.

Lemma encode_valid l : Valid (encode l).
Proof.
  induction l as [|r l IH]; [constructor|]. rewrite encode_cons. apply Valid_app; [| done].
  destruct (valid_rune r) eqn:Hv.
  - pose proof (decode_encode r "" Hv) as Hd. rewrite str_app_nil in Hd. pose proof (EncodeRune_nonempty r).
    eapply Valid_rune with (w := String.length (EncodeRune r)).
    + unfold rune_width. destruct (EncodeRune r) as [|c s] eqn:E; [cbn in *; lia|].
      unfold bad_start. rewrite Hd. cbn [snd].
      destruct ((128 <=? byte_val c) && (String.length (String c s) =? 1)%nat) eqn:Eb; [| done].
      apply andb_true_iff in Eb as [Hc%Z.leb_le Hl%Nat.eqb_eq]. exfalso. revert E Hl.
      unfold EncodeRune. rewrite Hv. cbn [negb]. repeat case_match; intros [= <- <-]; try done.
      rewrite byte_val_byte in Hc by (apply valid_rune_true in Hv; bools; lia). bools. lia.
    + replace (drop_str _ _) with ""; [constructor|].
      rewrite <- (str_app_nil (EncodeRune r)) at 2. by rewrite drop_str_app.
  - unfold EncodeRune. rewrite Hv. cbn [negb]. apply (ToValidUTF8_valid (bytes [255%nat])).
Qed.

End Runes.
