(* ===== verification/CompositeKey.v ===== *)
(** * Composite keys

    The one anti-forgery key encoding of the program (pkg/capability/composite_key.go)
    and the storage key of the call counter (pkg/callcounter/memory.go).  A key is a
    verbatim prefix followed by length-prefixed parts, so that no byte a caller puts
    in a session id or a tool name can make two different tuples share a bucket. *)
From stdpp Require Import base tactics list strings.
From Stdlib Require Import ZArith Lia Ascii String.
From S2P Require Import Prelude GoStrings.
#[local] Open Scope string_scope.
#[local] Arguments String.append : simpl nomatch.

Module CompositeKey.

(** The bytes appended to the builder for each part: [":" len ":" bytes]. *)
Definition writeCompositeParts (b : string) (parts : list string) : string :=
  fold_left (fun b p => (((b ++ ":") ++ itoa (len p)) ++ ":") ++ p) parts b.

(** [compositePartsSize] only sizes the builder's buffer; it bounds the encoding
    from below by eight bytes of framing per part. *)
Definition compositePartsSize (parts : list string) : Z :=
  fold_left (fun size p => (size + (len p + 8))%Z) parts 0%Z.

Definition CompositeKeyJoin (prefix : string) (head tail : list string) : string :=
  let b := "" in
  let b := b ++ prefix in
  let b := writeCompositeParts b head in
  let b := writeCompositeParts b tail in
  b.

Definition CompositeKey (prefix : string) (parts : list string) : string :=
  CompositeKeyJoin prefix parts [].

(** [storageKey] of the in-memory call counter. *)
Definition storageKey (key : string) (windowSec : Z) : string :=
  (key ++ ":") ++ itoa windowSec.

(** ** The encoding as a right fold *)
Definition encode_part (p : string) : string := ":" ++ itoa (len p) ++ ":" ++ p.
Definition encode_parts (parts : list string) : string :=
  foldr (fun p acc => encode_part p ++ acc) "" parts.

Lemma encode_parts_cons p l : encode_parts (p :: l) = encode_part p ++ encode_parts l.
Proof. reflexivity. Qed.

Lemma writeCompositeParts_encode b parts :
  writeCompositeParts b parts = b ++ encode_parts parts.
Proof.
  unfold writeCompositeParts. revert b.
  induction parts as [|p parts IH]; intros b; cbn [fold_left encode_parts foldr].
  - by rewrite str_app_nil.
  - rewrite IH. fold (encode_parts parts). unfold encode_part. by rewrite !str_app_assoc.
Qed.

Lemma encode_parts_app l1 l2 :
  encode_parts (l1 ++ l2)%list = encode_parts l1 ++ encode_parts l2.
Proof.
  induction l1 as [|p l1 IH]; cbn [app]; [done|].
  by rewrite !encode_parts_cons, IH, str_app_assoc.
Qed.

Lemma CompositeKeyJoin_encode prefix head tail :
  CompositeKeyJoin prefix head tail = prefix ++ encode_parts (head ++ tail)%list.
Proof.
  unfold CompositeKeyJoin. rewrite !writeCompositeParts_encode, encode_parts_app.
  by rewrite str_app_assoc.
Qed.

Lemma encode_parts_inj l1 l2 : encode_parts l1 = encode_parts l2 -> l1 = l2.
Proof.
  revert l2. induction l1 as [|p l1 IH]; intros [|q l2] H; try done.
  rewrite !encode_parts_cons in H. unfold encode_part in H. cbn in H.
  injection H as H. rewrite !str_app_assoc in H. cbn in H.
  apply str_sep_inj in H as [Hn H]; [| apply itoa_no_colon | apply itoa_no_colon].
  apply itoa_inj in Hn. unfold len in Hn.
  apply str_app_inj_len in H as [-> H]; [| lia].
  f_equal. by apply IH.
Qed.

Lemma encode_parts_colon l : l = [] \/ exists s, encode_parts l = String ":" s.
Proof. destruct l as [|p l]; [by left | right; by eexists]. Qed.

Lemma composite_inj p1 p2 h1 t1 h2 t2 :
  contains_char ":" p1 = false -> contains_char ":" p2 = false ->
  CompositeKeyJoin p1 h1 t1 = CompositeKeyJoin p2 h2 t2 ->
  p1 = p2 /\ (h1 ++ t1 = h2 ++ t2)%list.
Proof.
  rewrite !CompositeKeyJoin_encode. intros Hp1 Hp2 H.
  destruct (encode_parts_colon (h1 ++ t1)) as [E1|[s1 E1]],
           (encode_parts_colon (h2 ++ t2)) as [E2|[s2 E2]];
    rewrite E1, E2 in H; cbn [encode_parts foldr] in H.
  - rewrite !str_app_nil in H. by rewrite E1, E2.
  - exfalso. rewrite str_app_nil in H. subst p1.
    by rewrite contains_char_app, orb_true_r in Hp1.
  - exfalso. rewrite str_app_nil in H. subst p2.
    by rewrite contains_char_app, orb_true_r in Hp2.
  - apply str_sep_inj in H as [-> H]; [| done | done].
    split; [done|]. apply encode_parts_inj. by rewrite E1, E2, H.
Qed.

Lemma storageKey_inj k1 w1 k2 w2 :
  storageKey k1 w1 = storageKey k2 w2 -> k1 = k2 /\ w1 = w2.
Proof.
  unfold storageKey. rewrite !str_app_assoc. cbn. intros H.
  apply str_last_sep_inj in H as [-> H]; [| apply itoa_no_colon ..].
  by apply itoa_inj in H.
Qed.

(** ** Properties *)

(** Two composite keys built from namespaces that hold no colon are equal only
    when the namespaces and the part lists are equal, whatever bytes the parts
    hold: no session id, tool name or grant target can forge another tuple's key. *)
Theorem CompositeKey_injective prefix1 prefix2 parts1 parts2 :
  contains_char ":" prefix1 = false -> contains_char ":" prefix2 = false ->
  CompositeKey prefix1 parts1 = CompositeKey prefix2 parts2 ->
  prefix1 = prefix2 /\ parts1 = parts2.
Proof.
  intros H1 H2 H. unfold CompositeKey in H.
  apply composite_inj in H; [| done | done]. by rewrite !app_nil_r in H.
Qed.

(** Parts that would collide under plain joining, kept apart by the encoding. *)
Lemma CompositeKey_injective_witness :
  CompositeKey "seq" ["a:1:b"; "c"] <> CompositeKey "seq" ["a"; "b:1:c"].
Proof.
  intros H. apply (CompositeKey_injective "seq" "seq") in H as [_ H];
    [discriminate H | reflexivity | reflexivity].
Defined.

(** The call counter's storage key determines the logical key and the window,
    so two buckets share storage exactly when they are the same bucket; a colon in
    the logical key cannot be confused with the separator before the window. *)
Theorem storageKey_injective k1 w1 k2 w2 :
  storageKey k1 w1 = storageKey k2 w2 <-> k1 = k2 /\ w1 = w2.
Proof. split; [apply storageKey_inj | by intros [-> ->]]. Qed.

End CompositeKey.
