(* ===== verification/CallCounter.v ===== *)
(** * The sliding-window call counter

    pkg/callcounter/callcounter.go (batch validation) and pkg/callcounter/memory.go
    (the in-process backend).  The state is the map of entries, one per (key, window);
    an entry holds its timestamps oldest first and, once a weighted bucket has written
    to it, one magnitude per timestamp.  Each exported method holds the mutex for its
    whole body, so a run is a sequence of calls; [Cleanup] releases the lock between
    batches and is given as a mark phase and sweep batches.  The clock is an argument:
    the instant [m.now()] returns inside the critical section.

    Slice capacities are not represented: [shouldCompact] decides only whether a slice
    is copied to a smaller array, which leaves its elements as they are.

    The specification is a log that never forgets: every admitted call with its instant
    and magnitude, and the keys that have an entry.  [AdmitAll_refines_log] shows that the
    pruned store gives exactly the answers the full log would. *)
From stdpp Require Import base tactics list gmap strings fin_maps.
From Stdlib Require Import ZArith Lia SpecFloat Sorted.
From S2P Require Import Prelude GoStrings Float64 CompositeKey.
#[local] Open Scope Z_scope.

Module CallCounter.
Import CompositeKey.

(** ** The admission contract (pkg/capability/enforce.go) *)

Record QuotaBucket := mkBucket {
  Key : string;
  WindowSec : Z;
  Counted : bool;
  Weight : float64;
  Limit : float64;
}.

Definition MaxWeightedTotal : float64 := of_Z (2 ^ 53).

(** ** Validation (callcounter.go) *)

Inductive error :=
| ErrNoBuckets
| ErrDuplicateBuckets
| ErrWindowTooSmall
| ErrWindowTooLarge
| ErrMaxEntriesTooSmall
| ErrMaxEntriesTooLarge
| ErrWeightNotFinite
| ErrWeightNegative
| ErrWeightTooLarge
| ErrCountedLimitBelowOne
| ErrCountedLimitFractional
| ErrLimitNotFinite
| ErrLimitNotPositive
| ErrLimitTooLarge
| ErrEntryLimit
| ErrWeightedEntryLimit.

#[global] Instance error_eq_dec : EqDecision error.
Proof. solve_decision. Defined.

Definition cleanupMarginFactor : Z := 2.
Definition MaxWindowSeconds : Z :=
  Z.min (max_int64 / (cleanupMarginFactor * second)) max_int64.
Definition MaxEntries : Z := 2147483647.
Definition MaxWeightedEntriesPerKey : Z := 100000.

Definition checkWindowSec (windowSec : Z) : option error :=
  if windowSec <? 1 then Some ErrWindowTooSmall
  else if MaxWindowSeconds <? windowSec then Some ErrWindowTooLarge
  else None.

Definition checkMaxEntries (maxEntries : Z) : option error :=
  if maxEntries <? 1 then Some ErrMaxEntriesTooSmall
  else if MaxEntries <? maxEntries then Some ErrMaxEntriesTooLarge
  else None.

Definition checkWeight (weight : float64) : option error :=
  if is_nan weight || is_inf weight then Some ErrWeightNotFinite
  else if f_lt weight f_zero then Some ErrWeightNegative
  else if f_gt weight MaxWeightedTotal then Some ErrWeightTooLarge
  else None.

Definition checkCountedLimit (limit : float64) : option error :=
  if f_lt limit f_one then Some ErrCountedLimitBelowOne
  else if negb (f_is_whole limit) then Some ErrCountedLimitFractional
  else None.

Definition checkTotalLimit (limit : float64) : option error :=
  if is_nan limit || is_inf limit then Some ErrLimitNotFinite
  else if f_le limit f_zero then Some ErrLimitNotPositive
  else if f_gt limit MaxWeightedTotal then Some ErrLimitTooLarge
  else None.

(** The [seen] set of storage keys, in bucket order. *)
Fixpoint checkDistinct (seen : gset string) (buckets : list QuotaBucket) : option error :=
  match buckets with
  | [] => None
  | b :: bs =>
      let sk := storageKey (Key b) (WindowSec b) in
      if bool_decide (sk ∈ seen) then Some ErrDuplicateBuckets
      else checkDistinct ({[ sk ]} ∪ seen) bs
  end.

Definition checkDistinctBuckets (buckets : list QuotaBucket) : option error :=
  checkDistinct ∅ buckets.

(** The body of the validation loop for one bucket. *)
Definition checkBucket (b : QuotaBucket) : option error :=
  match checkWindowSec (WindowSec b) with
  | Some e => Some e
  | None =>
    match checkTotalLimit (Limit b) with
    | Some e => Some e
    | None =>
      if Counted b then checkCountedLimit (Limit b)
      else checkWeight (Weight b)
    end
  end.

Fixpoint checkEach (buckets : list QuotaBucket) : option error :=
  match buckets with
  | [] => None
  | b :: bs => match checkBucket b with Some e => Some e | None => checkEach bs end
  end.

Definition checkBuckets (buckets : list QuotaBucket) : option error :=
  match buckets with
  | [] => Some ErrNoBuckets
  | _ =>
    match checkEach buckets with
    | Some e => Some e
    | None => checkDistinctBuckets buckets
    end
  end.

(** ** State (memory.go) *)

(** [weights] is [None] for a nil slice: a key that only ever took counted calls. *)
Record entry := mkEntry {
  timestamps : list time;
  windowSec : Z;
  weights : option (list float64);
}.

Record InMemory := mkInMemory {
  entries : gmap string entry;
  maxKeys : Z;
  maxWeightedEntries : Z;
}.

Definition NewInMemory (maxKeys maxWeightedEntries : Z) : InMemory :=
  mkInMemory ∅ maxKeys maxWeightedEntries.

Definition set_entries (m : InMemory) (es : gmap string entry) : InMemory :=
  mkInMemory es (maxKeys m) (maxWeightedEntries m).

(** The elements of a slice; ranging over a nil slice is ranging over an empty one. *)
Definition slice (w : option (list float64)) : list float64 :=
  match w with Some l => l | None => [] end.

Definition isWeighted (e : entry) : bool :=
  match weights e with
  | None => false
  | Some w => (length w =? length (timestamps e))%nat
  end.

Definition weightedTotal (liveWeights : list float64) : float64 :=
  fold_left f_add liveWeights f_zero.

Definition admitNewKey (m : InMemory) : option error :=
  if (0 <? maxKeys m) && (maxKeys m <=? Z.of_nat (size (entries m)))
  then Some ErrEntryLimit else None.

Definition appendCall (ts : list time) (ws : option (list float64)) (now : time)
    (weight : float64) (weighted : bool) : list time * option (list float64) :=
  let ts := ts ++ [now] in
  if weighted then (ts, Some (slice ws ++ [weight])) else (ts, ws).

Definition trimOldest (ts : list time) (ws : option (list float64)) (n : Z)
    : list time * option (list float64) :=
  if Z.of_nat (length ts) <=? n then (ts, ws)
  else
    let k := Z.to_nat (Z.of_nat (length ts) - n) in
    (drop k ts,
     match ws with
     | Some w => if (0 <? length w)%nat then Some (drop k w) else Some w
     | None => None
     end).

Definition storeEntry (e : entry) (ts : list time) (ws : option (list float64))
    (weighted : bool) : entry :=
  mkEntry ts (windowSec e) (if weighted then Some (slice ws) else weights e).

(** The prune loop: the weights are read at the index of the timestamp. *)
Fixpoint pruneLoop (cutoff : time) (ts : list time) (ws : list float64)
    : list time * list float64 :=
  match ts with
  | [] => ([], [])
  | t :: ts' =>
      let '(v, vw) := pruneLoop cutoff ts' (tail ws) in
      if negb (time_after t cutoff) then (v, vw)
      else (t :: v, match ws with w :: _ => w :: vw | [] => vw end)
  end.

Definition pruneInWindow (e : entry) (cutoff : time)
    : list time * option (list float64) * bool :=
  let weighted := isWeighted e in
  let '(v, vw) := pruneLoop cutoff (timestamps e)
                    (if weighted then slice (weights e) else []) in
  (v, if weighted then Some vw else None, weighted).

Definition nanosecond_of (t : time) : Z := t mod second.
Definition floorToMicro (t : time) : time :=
  time_add t (- (nanosecond_of t mod 1000)).

(** [time.Duration(w) * time.Second]. *)
Definition window_of (w : Z) : duration := wrap_int64 (w * second).
Definition cutoff_of (now : time) (w : Z) : time :=
  time_add now (wrap_int64 (- window_of w)).

(** [IncrementAndGet]: record a call and return the in-window count, keeping the
    newest [maxEntries]. *)
Definition IncrementAndGet (clock : time) (m : InMemory) (key : string)
    (windowSec maxEntries : Z) : InMemory * result Z error :=
  match checkWindowSec windowSec with
  | Some e => (m, Err e)
  | None =>
  match checkMaxEntries maxEntries with
  | Some e => (m, Err e)
  | None =>
    let now := floorToMicro clock in
    let cutoff := cutoff_of now windowSec in
    let sk := storageKey key windowSec in
    match (match entries m !! sk with
           | Some e => Ok e
           | None => match admitNewKey m with
                     | Some err => Err err
                     | None => Ok (mkEntry [] windowSec None)
                     end
           end) with
    | Err err => (m, Err err)
    | Ok e =>
      let '(valid, validWeights, weighted) := pruneInWindow e cutoff in
      let '(valid, validWeights) := appendCall valid validWeights now f_one weighted in
      let '(valid, validWeights) := trimOldest valid validWeights maxEntries in
      (set_entries m (<[ sk := storeEntry e valid validWeights weighted ]> (entries m)),
       Ok (Z.of_nat (length valid)))
    end
  end
  end.

Definition bucketWeight (b : QuotaBucket) : float64 :=
  if Counted b then f_one else Weight b.

Definition bucketTotal (counted : bool) (ts : list time) (ws : option (list float64))
    : float64 :=
  if counted then of_Z (Z.of_nat (length ts))
  else if negb (length (slice ws) =? length ts)%nat then of_Z (Z.of_nat (length ts))
  else weightedTotal (slice ws).

(** ** Retry estimates *)

Definition positive_remaining (ts : time) (window : duration) (now : time) : duration :=
  let r := time_sub (time_add ts window) now in
  if 0 <? r then r else 0.

Fixpoint retryWeightLoop (valid : list time) (ws : list float64) (freed needed : float64)
    (window : duration) (now : time) : duration :=
  match valid, ws with
  | ts :: valid', w :: ws' =>
      let freed := f_add freed w in
      if f_ge freed needed then positive_remaining ts window now
      else retryWeightLoop valid' ws' freed needed window now
  | _, _ => 0
  end.

Definition retryAfterForWeight (valid : list time) (ws : list float64) (needed : float64)
    (window : duration) (now : time) : duration :=
  if f_le needed f_zero then 0 else retryWeightLoop valid ws f_zero needed window now.

Definition retryAfterFromPivot (valid : list time) (cur limit : Z) (window : duration)
    (now : time) : duration :=
  let idx := cur - limit in
  if (0 <=? idx) && (idx <? Z.of_nat (length valid)) then
    match valid !! Z.to_nat idx with
    | Some ts => positive_remaining ts window now
    | None => 0
    end
  else 0.

(** [int64(f)] for a value in range. *)
Definition int64_of_float (f : float64) : Z := default 0 (f_trunc f).

Definition bucketRetryAfter (b : QuotaBucket) (valid : list time)
    (ws : option (list float64)) (cur : float64) (window : duration) (now : time)
    : duration :=
  if Counted b then
    retryAfterFromPivot valid (int64_of_float cur) (int64_of_float (Limit b)) window now
  else
    let needed := f_sub (f_add cur (bucketWeight b)) (Limit b) in
    let ws := if negb (length (slice ws) =? length valid)%nat
              then replicate (length valid) f_one else slice ws in
    retryAfterForWeight valid ws needed window now.

(** ** AdmitAll *)

Record bucketState := mkState {
  st_b : QuotaBucket;
  st_sk : string;
  st_e : bool;                       (** [e != nil] *)
  st_valid : list time;
  st_weights : option (list float64);
  st_weighted : bool;
  st_window : duration;
  st_cur : float64;
}.

Record AdmitResult := mkAdmit {
  admitted : bool;
  deniedIndex : Z;
  total : float64;
  retryAfter : duration;
}.

(** One iteration of the first loop: prune the bucket's entry in place and read its
    total. *)
Definition observeBucket (now : time) (es : gmap string entry) (b : QuotaBucket)
    : gmap string entry * bucketState :=
  let window := window_of (WindowSec b) in
  let cutoff := cutoff_of now (WindowSec b) in
  let sk := storageKey (Key b) (WindowSec b) in
  match es !! sk with
  | Some e =>
      let '(valid, validWeights, weighted) := pruneInWindow e cutoff in
      let e' := storeEntry e valid validWeights weighted in
      (<[ sk := e' ]> es,
       mkState b sk true (timestamps e') (weights e') weighted window
         (bucketTotal (Counted b) (timestamps e') (weights e')))
  | None => (es, mkState b sk false [] None false window f_zero)
  end.

Definition noHeadroom (st : bucketState) : bool :=
  f_gt (f_add (st_cur st) (bucketWeight (st_b st))) (Limit (st_b st)).

(** The first loop; [blocked] is the first index without headroom, -1 for none. *)
Fixpoint observeAll (now : time) (es : gmap string entry) (i blocked : Z)
    (buckets : list QuotaBucket) : gmap string entry * list bucketState * Z :=
  match buckets with
  | [] => (es, [], blocked)
  | b :: bs =>
      let '(es, st) := observeBucket now es b in
      let blocked := if (blocked <? 0) && noHeadroom st then i else blocked in
      let '(es, sts, blocked) := observeAll now es (i + 1) blocked bs in
      (es, st :: sts, blocked)
  end.

Definition st_post (st : bucketState) : float64 :=
  f_add (st_cur st) (bucketWeight (st_b st)).
Definition st_record (st : bucketState) : bool := negb (f_eq (st_post st) (st_cur st)).
Definition st_writeWeighted (st : bucketState) : bool :=
  st_weighted st || negb (Counted (st_b st)).

Definition newKeysOf (sts : list bucketState) : Z :=
  fold_left (fun n st => if st_record st && negb (st_e st) then n + 1 else n) sts 0.

Definition maxTotalOf (sts : list bucketState) : float64 :=
  fold_left (fun mx st => if f_gt (st_post st) mx then st_post st else mx) sts f_zero.

Definition overWeightedLimit (m : InMemory) (st : bucketState) : bool :=
  st_record st && negb (Counted (st_b st)) && (0 <? maxWeightedEntries m)
  && (maxWeightedEntries m <=? Z.of_nat (length (st_valid st))).

(** One iteration of the commit loop.  [st.e] is the pointer held by the map, so its
    fields are read from the map. *)
Definition commitBucket (now : time) (es : gmap string entry) (st : bucketState)
    : gmap string entry :=
  if negb (st_record st) then es
  else
    let e := if st_e st then default (mkEntry [] (WindowSec (st_b st)) None) (es !! st_sk st)
             else mkEntry [] (WindowSec (st_b st)) None in
    let ws := if st_writeWeighted st
                 && negb (length (slice (weights e)) =? length (timestamps e))%nat
              then Some (replicate (length (timestamps e)) f_one) else weights e in
    let '(ts, ws) := appendCall (timestamps e) ws now (bucketWeight (st_b st))
                       (st_writeWeighted st) in
    <[ st_sk st := storeEntry e ts ws (st_writeWeighted st) ]> es.

Definition AdmitAll (clock : time) (m : InMemory) (buckets : list QuotaBucket)
    : InMemory * result AdmitResult error :=
  match checkBuckets buckets with
  | Some e => (m, Err e)
  | None =>
    let now := floorToMicro clock in
    let '(es, states, blocked) := observeAll now (entries m) 0 (-1) buckets in
    let m := set_entries m es in
    match (if 0 <=? blocked then states !! Z.to_nat blocked else None) with
    | Some st =>
        (m, Ok (mkAdmit false blocked (st_cur st)
                  (bucketRetryAfter (st_b st) (st_valid st) (st_weights st) (st_cur st)
                     (st_window st) now)))
    | None =>
      if (0 <? maxKeys m) && (maxKeys m <? Z.of_nat (size (entries m)) + newKeysOf states)
      then (m, Err ErrEntryLimit)
      else if existsb (overWeightedLimit m) states then (m, Err ErrWeightedEntryLimit)
      else (set_entries m (fold_left (commitBucket now) states (entries m)),
            Ok (mkAdmit true 0 (maxTotalOf states) 0))
    end
  end.

(** ** Peek *)
Definition Peek (clock : time) (m : InMemory) (key : string) (windowSec : Z)
    : result Z error :=
  match checkWindowSec windowSec with
  | Some e => Err e
  | None =>
    match entries m !! storageKey key windowSec with
    | None => Ok 0
    | Some e =>
        let cutoff := cutoff_of (floorToMicro clock) windowSec in
        Ok (fold_left (fun count ts => if time_after ts cutoff then count + 1 else count)
              (timestamps e) 0)
    end
  end.

(** ** Cleanup *)

Definition latest_of (t0 : time) (ts : list time) : time :=
  fold_left (fun latest t => if time_after t latest then t else latest) ts t0.

Definition shouldDeleteEntry (e : entry) (now : time) : bool :=
  match timestamps e with
  | [] => true
  | t0 :: ts =>
      let staleAfter :=
        if 0 <? windowSec e
        then wrap_int64 (wrap_int64 (windowSec e * cleanupMarginFactor) * second)
        else 24 * 3600 * second in
      negb (time_after (latest_of t0 ts) (time_add now (wrap_int64 (- staleAfter))))
  end.

(** Phase 1: the keys to delete, read under the read lock. *)
Definition cleanupMark (now : time) (m : InMemory) : list string :=
  map fst (filter (fun p => shouldDeleteEntry p.2 now = true) (map_to_list (entries m))).

Definition cleanupDeleteBatch : nat := 256.

Definition cleanupDelete (now : time) (es : gmap string entry) (key : string)
    : gmap string entry :=
  match es !! key with
  | Some e => if shouldDeleteEntry e now then delete key es else es
  | None => es
  end.

(** One batch of phase 2, under the write lock. *)
Definition cleanupSweep (now : time) (keys : list string) (m : InMemory) : InMemory :=
  set_entries m (fold_left (cleanupDelete now) keys (entries m)).

(** The whole pass, with no other caller between its batches; [now i] is the instant
    batch [i] reads. *)
Fixpoint cleanupBatches (fuel : nat) (now : nat -> time) (i : nat) (keys : list string)
    (m : InMemory) : InMemory :=
  match fuel with
  | O => m
  | S fuel =>
      match keys with
      | [] => m
      | _ => cleanupBatches fuel now (S i) (drop cleanupDeleteBatch keys)
               (cleanupSweep (now i) (take cleanupDeleteBatch keys) m)
      end
  end.

Definition Cleanup (now0 : time) (now : nat -> time) (m : InMemory) : InMemory :=
  let toDelete := cleanupMark now0 m in
  cleanupBatches (length toDelete) now 0 toDelete m.

(** ** The specification: a log that never forgets *)

(** Every admitted call of a storage key, oldest first, with its magnitude. *)
Abbreviation log := (gmap string (list (Z * float64))) (only parsing).

Definition log_of (lg : log) (sk : string) : list (time * float64) := default [] (lg !! sk).

Definition live (cutoff : time) (evs : list (time * float64)) : list (time * float64) :=
  filter (fun p => cutoff < p.1) evs.

Definition b_sk (b : QuotaBucket) : string := storageKey (Key b) (WindowSec b).
Definition b_live (now : time) (lg : log) (b : QuotaBucket) : list (time * float64) :=
  live (now - WindowSec b * second) (log_of lg (b_sk b)).

(** What the bucket's window holds: a number of calls, or a sum of magnitudes. *)
Definition spec_total (now : time) (lg : log) (b : QuotaBucket) : float64 :=
  if Counted b then of_Z (Z.of_nat (length (b_live now lg b)))
  else weightedTotal (map snd (b_live now lg b)).

Definition spec_post (now : time) (lg : log) (b : QuotaBucket) : float64 :=
  f_add (spec_total now lg b) (bucketWeight b).

(** The first bucket the call does not fit in. *)
Fixpoint spec_blocked (now : time) (lg : log) (i : Z) (buckets : list QuotaBucket)
    : option (Z * QuotaBucket) :=
  match buckets with
  | [] => None
  | b :: bs => if f_gt (spec_post now lg b) (Limit b) then Some (i, b)
               else spec_blocked now lg (i + 1) bs
  end.

(** An admitted call is written to every bucket whose total it moves. *)
Definition spec_write (now : time) (lg0 : log) (lg : log) (b : QuotaBucket) : log :=
  if f_eq (spec_post now lg0 b) (spec_total now lg0 b) then lg
  else <[ b_sk b := log_of lg (b_sk b) ++ [(now, bucketWeight b)] ]> lg.

Definition spec_commit (now : time) (lg : log) (buckets : list QuotaBucket) : log :=
  fold_left (spec_write now lg) buckets lg.

(** The first live call by which at least [needed] has left the window, the oldest leaving
    first. *)
Fixpoint freed_by (gone evs : list (time * float64)) (needed : float64) : option time :=
  match evs with
  | [] => None
  | p :: evs =>
      if f_ge (weightedTotal (map snd (gone ++ [p]))) needed then Some p.1
      else freed_by (gone ++ [p]) evs needed
  end.

(** The live call with whose departure a denied call would fit: of [n] counted calls under a
    limit of [L], the oldest [n - L + 1] have to go; of magnitudes, the excess. *)
Definition spec_pivot (now : time) (lg : log) (b : QuotaBucket) : option time :=
  let evs := b_live now lg b in
  if Counted b then
    let excess := Z.of_nat (length evs) - int64_of_float (Limit b) in
    if 0 <=? excess then map fst evs !! Z.to_nat excess else None
  else
    let excess := f_sub (spec_post now lg b) (Limit b) in
    if f_le excess f_zero then None else freed_by [] evs excess.

(** How long until that call leaves the window; 0 when there is none. *)
Definition spec_retry (now : time) (lg : log) (b : QuotaBucket) : duration :=
  match spec_pivot now lg b with
  | Some t => Z.max 0 (time_sub (t + WindowSec b * second) now)
  | None => 0
  end.

Definition spec_moves (now : time) (lg : log) (b : QuotaBucket) : bool :=
  negb (f_eq (spec_post now lg b) (spec_total now lg b)).

(** What an admission reports: the highest of the totals after it. *)
Definition spec_highest (now : time) (lg : log) (buckets : list QuotaBucket) : float64 :=
  fold_left (fun mx b => if f_gt (spec_post now lg b) mx then spec_post now lg b else mx)
    buckets f_zero.

(** The abstract counter: the log, and the keys that have an entry, which count against
    the limit on keys until a sweep deletes them. *)
Record quota := mkQuota { q_log : log; q_keys : gset string }.

Definition spec_keys (now : time) (q : quota) (buckets : list QuotaBucket) : gset string :=
  q_keys q ∪ list_to_set (map b_sk (filter (spec_moves now (q_log q)) buckets)).

(** No room for another weighted call under the bucket's key. *)
Definition spec_full (maxWeighted : Z) (now : time) (lg : log) (b : QuotaBucket) : bool :=
  spec_moves now lg b && negb (Counted b) && (0 <? maxWeighted)
  && (maxWeighted <=? Z.of_nat (length (b_live now lg b))).

(** The decision on a batch, as a function of the abstract counter and the two limits. *)
Definition spec_admit (maxKeys maxWeighted : Z) (now : time) (q : quota)
    (buckets : list QuotaBucket) : quota * result AdmitResult error :=
  let lg := q_log q in
  match checkBuckets buckets with
  | Some e => (q, Err e)
  | None =>
  match spec_blocked now lg 0 buckets with
  | Some (i, b) => (q, Ok (mkAdmit false i (spec_total now lg b) (spec_retry now lg b)))
  | None =>
    if (0 <? maxKeys) && (maxKeys <? Z.of_nat (size (spec_keys now q buckets)))
    then (q, Err ErrEntryLimit)
    else if existsb (spec_full maxWeighted now lg) buckets
    then (q, Err ErrWeightedEntryLimit)
    else (mkQuota (spec_commit now lg buckets) (spec_keys now q buckets),
          Ok (mkAdmit true 0 (spec_highest now lg buckets) 0))
  end
  end.

(** ** Invariant and refinement relation *)

Definition wf_entry (sk : string) (e : entry) : Prop :=
  (exists k, sk = storageKey k (windowSec e)) /\
  checkWindowSec (windowSec e) = None /\
  (weights e = None \/ isWeighted e = true).

Definition wf (es : gmap string entry) : Prop := map_Forall wf_entry es.

Definition events (e : entry) : list (time * float64) :=
  zip (timestamps e)
      (if isWeighted e then slice (weights e) else replicate (length (timestamps e)) f_one).

Definition events_at (es : gmap string entry) (sk : string) : list (time * float64) :=
  from_option events [] (es !! sk).

(** The store at time [T] holds, per key and window, the live part of the log. *)
Definition Rel (T : time) (lg : log) (es : gmap string entry) : Prop :=
  wf es /\
  forall k w, checkWindowSec w = None ->
    live (T - w * second) (events_at es (storageKey k w))
    = live (T - w * second) (log_of lg (storageKey k w)).

(** ** Windows never overflow *)

Lemma checkWindowSec_range w :
  checkWindowSec w = None <-> 1 <= w <= max_int64 / (2 * second).
Proof.
  unfold checkWindowSec.
  replace MaxWindowSeconds with (max_int64 / (2 * second)) by reflexivity.
  repeat case_match; bools; split; intros; try done; lia.
Qed.

Lemma window_exact w :
  checkWindowSec w = None ->
  window_of w = w * second /\ second <= w * second /\ 2 * (w * second) <= max_int64.
Proof.
  rewrite checkWindowSec_range. intros [H1 H2].
  change (max_int64 / (2 * second)) with 4611686018 in H2.
  unfold window_of. rewrite wrap_int64_id;
    unfold in_int64, min_int64, max_int64, two63, second in *; lia.
Qed.

Lemma cutoff_exact now w :
  checkWindowSec w = None -> cutoff_of now w = now - w * second.
Proof.
  intros H. destruct (window_exact w H) as (E & H1 & H2).
  unfold cutoff_of, time_add. rewrite E, wrap_int64_id; [lia|].
  unfold in_int64, min_int64, max_int64, two63, second in *; lia.
Qed.

Lemma stale_exact w :
  checkWindowSec w = None ->
  wrap_int64 (- wrap_int64 (wrap_int64 (w * cleanupMarginFactor) * second))
  = - (2 * (w * second)).
Proof.
  intros H. destruct (window_exact w H) as (_ & H1 & H2).
  unfold cleanupMarginFactor.
  rewrite (wrap_int64_id (w * 2)), (wrap_int64_id (w * 2 * second)), wrap_int64_id;
    unfold in_int64, min_int64, max_int64, two63, second in *; lia.
Qed.

Lemma floorToMicro_bounds t : t - 999 <= floorToMicro t <= t.
Proof.
  unfold floorToMicro, time_add, nanosecond_of.
  pose proof (Z.mod_pos_bound (t mod second) 1000 eq_refl). lia.
Qed.

(** ** Pruning *)

Lemma live_app c l1 l2 : live c (l1 ++ l2) = live c l1 ++ live c l2.
Proof. apply filter_app. Qed.

Lemma live_cons c t (w : float64) l :
  live c ((t, w) :: l) = if c <? t then (t, w) :: live c l else live c l.
Proof.
  unfold live. destruct (c <? t) eqn:E; bools.
  - rewrite filter_cons_True; [done | cbn; lia].
  - rewrite filter_cons_False; [done | cbn; lia].
Qed.

Lemma live_live c c' l : c <= c' -> live c' (live c l) = live c' l.
Proof.
  intros Hc. unfold live. rewrite list_filter_filter. apply list_filter_iff.
  intros x. lia.
Qed.

Lemma live_weaken c c' l1 l2 :
  c <= c' -> live c l1 = live c l2 -> live c' l1 = live c' l2.
Proof. intros Hc H. by rewrite <- (live_live c c' l1), H, live_live. Qed.

Lemma pruneLoop_weighted cutoff ts ws :
  length ws = length ts ->
  let '(v, vw) := pruneLoop cutoff ts ws in
  zip v vw = live cutoff (zip ts ws) /\ length vw = length v.
Proof.
  revert ws. induction ts as [|t ts IH]; intros [|w ws] Hl; try done.
  injection Hl as Hl. specialize (IH ws Hl). cbn [pruneLoop tail zip_with].
  destruct (pruneLoop cutoff ts ws) as [v vw]. destruct IH as [IH1 IH2].
  rewrite live_cons. unfold time_after. destruct (cutoff <? t); cbn [negb].
  - cbn [zip_with length]. by rewrite IH1, IH2.
  - done.
Qed.

Lemma pruneLoop_counted cutoff ts :
  let '(v, vw) := pruneLoop cutoff ts [] in
  zip v (replicate (length v) f_one)
  = live cutoff (zip ts (replicate (length ts) f_one)) /\ vw = [].
Proof.
  induction ts as [|t ts IH]; [done|].
  cbn [pruneLoop tail length replicate zip_with].
  destruct (pruneLoop cutoff ts []) as [v vw]. destruct IH as [IH1 IH2].
  rewrite live_cons. unfold time_after. destruct (cutoff <? t); cbn [negb].
  - cbn [zip_with length replicate]. by rewrite IH1, IH2.
  - done.
Qed.

Lemma zip_fst_len {A B} (l : list A) (k : list B) :
  length k = length l -> map fst (zip l k) = l.
Proof. intros H. apply fst_zip. lia. Qed.

(** Pruning an entry and storing it back keeps exactly its live events. *)
Lemma prune_store sk e cutoff :
  wf_entry sk e ->
  let '(v, vw, weighted) := pruneInWindow e cutoff in
  let e' := storeEntry e v vw weighted in
  wf_entry sk e' /\ events e' = live cutoff (events e) /\ timestamps e' = v /\
  isWeighted e' = isWeighted e /\ weighted = isWeighted e /\
  (weighted = false -> weights e' = None).
Proof.
  intros (Hk & Hw & Hwt). unfold pruneInWindow.
  destruct (isWeighted e) eqn:Ew.
  - pose proof Ew as Ew'. unfold isWeighted in Ew'.
    destruct (weights e) as [ws|] eqn:Ews; [| done].
    apply Nat.eqb_eq in Ew'. cbn [slice].
    pose proof (pruneLoop_weighted cutoff (timestamps e) ws Ew') as Hp.
    destruct (pruneLoop cutoff (timestamps e) ws) as [v vw]. destruct Hp as [Hp1 Hp2].
    cbv beta iota zeta. unfold storeEntry, wf_entry, events. rewrite Ew, Ews.
    unfold isWeighted; cbn [timestamps windowSec weights slice].
    rewrite Hp2, Nat.eqb_refl, Hp1. repeat split; auto. done.
  - destruct Hwt as [Hn|]; [| congruence].
    pose proof (pruneLoop_counted cutoff (timestamps e)) as Hp.
    destruct (pruneLoop cutoff (timestamps e) []) as [v vw]. destruct Hp as [Hp1 ->].
    cbv beta iota zeta. unfold storeEntry, wf_entry, events. rewrite Ew.
    unfold isWeighted; cbn [timestamps windowSec weights slice].
    rewrite Hn, Hp1. repeat split; auto.
Qed.

Lemma events_length e : length (events e) = length (timestamps e).
Proof.
  unfold events. rewrite length_zip_with.
  destruct (isWeighted e) eqn:E; [| rewrite length_replicate; lia].
  unfold isWeighted in E. destruct (weights e); [| done]. cbn.
  apply Nat.eqb_eq in E. lia.
Qed.

Lemma sum_ones n a :
  Z.of_nat n + a <= two53 -> 0 <= a ->
  fold_left f_add (replicate n f_one) (of_Z a) = of_Z (a + Z.of_nat n).
Proof.
  revert a. induction n as [|n IH]; intros a Hn Ha; cbn [replicate fold_left].
  - f_equal; lia.
  - unfold f_one at 2. rewrite of_Z_add, IH by lia. f_equal; lia.
Qed.

(** Under either accounting, the total the code reads off an entry is the total of the
    entry's events. *)
Lemma bucketTotal_events sk e counted :
  wf_entry sk e -> Z.of_nat (length (timestamps e)) <= two53 ->
  bucketTotal counted (timestamps e) (weights e)
  = if counted then of_Z (Z.of_nat (length (events e)))
    else weightedTotal (map snd (events e)).
Proof.
  intros (_ & _ & Hw) Hlen. unfold bucketTotal. rewrite events_length.
  destruct counted; [done|]. unfold events.
  destruct (isWeighted e) eqn:Ew.
  - unfold isWeighted in Ew. destruct (weights e) as [ws|]; [| done]. cbn.
    rewrite Ew. cbn. apply Nat.eqb_eq in Ew. rewrite snd_zip by lia. done.
  - destruct Hw as [->|]; [| congruence]. cbn [slice length].
    rewrite snd_zip by (rewrite length_replicate; lia).
    unfold weightedTotal. change f_zero with (of_Z 0).
    rewrite sum_ones by lia. rewrite Z.add_0_l.
    destruct (timestamps e); reflexivity.
Qed.

(** ** Observation: the first loop of AdmitAll *)

Lemma Rel_mono T now lg es : Rel T lg es -> T <= now -> Rel now lg es.
Proof.
  intros [Hwf HR] HT. split; [done|]. intros k w Hw.
  apply (live_weaken (T - w * second)); [lia | by apply HR].
Qed.

(** What the first loop leaves behind for one bucket: the entry pruned to the live part
    of the log, and a state that describes it. *)
Definition st_ok (now : time) (lg : log) (es : gmap string entry) (b : QuotaBucket)
    (st : bucketState) : Prop :=
  st_b st = b /\ st_sk st = b_sk b /\ st_cur st = spec_total now lg b /\
  match es !! b_sk b with
  | Some e => st_e st = true /\ wf_entry (b_sk b) e /\ events e = b_live now lg b /\
              st_weighted st = isWeighted e
  | None => st_e st = false /\ st_weighted st = false /\ b_live now lg b = []
  end /\
  st_window st = WindowSec b * second /\ st_valid st = map fst (b_live now lg b) /\
  (if negb (length (slice (st_weights st)) =? length (st_valid st))%nat
   then replicate (length (st_valid st)) f_one else slice (st_weights st))
  = map snd (b_live now lg b).

Lemma events_fst e : map fst (events e) = timestamps e.
Proof.
  unfold events. apply fst_zip.
  destruct (isWeighted e) eqn:E; [| rewrite length_replicate; lia].
  unfold isWeighted in E. destruct (weights e); [| done]. apply Nat.eqb_eq in E. cbn. lia.
Qed.

(** The magnitudes the retry estimate reads off an entry are those of its events. *)
Lemma events_snd sk e :
  wf_entry sk e ->
  (if negb (length (slice (weights e)) =? length (timestamps e))%nat
   then replicate (length (timestamps e)) f_one else slice (weights e)) = map snd (events e).
Proof.
  intros (_ & _ & Hw). unfold events. destruct (isWeighted e) eqn:Ew.
  - unfold isWeighted in Ew. destruct (weights e) as [ws|]; [| done]. cbn [slice].
    rewrite Ew. cbn. apply Nat.eqb_eq in Ew. by rewrite snd_zip by lia.
  - destruct Hw as [->|]; [| congruence]. rewrite snd_zip by (rewrite length_replicate; lia).
    by destruct (timestamps e).
Qed.

Definition small_log (lg : log) (b : QuotaBucket) : Prop :=
  Z.of_nat (length (log_of lg (b_sk b))) <= two53.

Lemma b_live_length now lg b :
  (length (b_live now lg b) <= length (log_of lg (b_sk b)))%nat.
Proof. apply length_filter. Qed.

Lemma Rel_insert_pruned now lg es b e e' :
  Rel now lg es -> es !! b_sk b = Some e -> checkWindowSec (WindowSec b) = None ->
  wf_entry (b_sk b) e' -> events e' = live (now - WindowSec b * second) (events e) ->
  Rel now lg (<[ b_sk b := e' ]> es).
Proof.
  intros [Hwf HR] He Hw Hwf' Hev. split; [by apply map_Forall_insert_2|].
  intros k w Hw'. unfold events_at.
  destruct (decide (b_sk b = storageKey k w)) as [Heq|Hne].
  - rewrite <- HR by done. unfold events_at.
    rewrite <- Heq, lookup_insert_eq, He; cbn [from_option].
    apply storageKey_inj in Heq as [<- <-]. rewrite Hev. by apply live_live.
  - rewrite lookup_insert_ne by done. by apply HR.
Qed.

Lemma observeBucket_spec now lg es b :
  Rel now lg es -> checkWindowSec (WindowSec b) = None -> small_log lg b ->
  let '(es', st) := observeBucket now es b in
  Rel now lg es' /\ st_ok now lg es' b st /\
  (forall sk, sk <> b_sk b -> es' !! sk = es !! sk) /\ dom es' = dom es.
Proof.
  intros HR Hw Hsmall. unfold observeBucket. fold (b_sk b).
  pose proof HR as [Hwf Hlive]. specialize (Hlive (Key b) (WindowSec b) Hw).
  unfold events_at in Hlive. fold (b_sk b) in Hlive. fold (b_live now lg b) in Hlive.
  pose proof (b_live_length now lg b) as Hlen. unfold small_log in Hsmall.
  destruct (es !! b_sk b) as [e|] eqn:He; cbn [from_option] in Hlive.
  - pose proof (prune_store (b_sk b) e (cutoff_of now (WindowSec b)) (Hwf _ _ He)) as Hp.
    destruct (pruneInWindow e _) as [[v vw] weighted]. cbv zeta in Hp.
    destruct Hp as (Hwf' & Hev & Hts & Hwt & Hwtd & _).
    set (e' := storeEntry e v vw weighted) in *.
    rewrite cutoff_exact in Hev by done.
    assert (Hlive' : events e' = b_live now lg b) by (by rewrite Hev, Hlive).
    split_and!.
    + by apply (Rel_insert_pruned now lg es b e).
    + unfold st_ok; cbn [st_b st_sk st_cur st_e st_weighted st_valid st_window st_weights].
      rewrite lookup_insert_eq.
      assert (Z.of_nat (length (timestamps e')) <= two53)
        by (rewrite <- events_length, Hlive'; lia).
      rewrite (bucketTotal_events (b_sk b)), (events_snd (b_sk b)) by done.
      rewrite <- events_fst, Hlive'.
      destruct (window_exact _ Hw) as [Hwin _]. unfold spec_total. rewrite Hwt. by split_and!.
    + intros sk Hne. by rewrite lookup_insert_ne.
    + rewrite dom_insert_L. apply elem_of_dom_2 in He. set_solver.
  - split_and!; try done. unfold st_ok; cbn [st_b st_sk st_cur st_e st_weighted st_valid st_window st_weights].
    rewrite He. assert (b_live now lg b = []) as Hnil by (symmetry; exact Hlive).
    destruct (window_exact _ Hw) as [Hwin _].
    unfold spec_total. rewrite Hnil. cbn. by destruct (Counted b).
Qed.

Lemma st_ok_frame now lg es es' b st :
  es' !! b_sk b = es !! b_sk b -> st_ok now lg es b st -> st_ok now lg es' b st.
Proof. unfold st_ok. by intros ->. Qed.

Lemma noHeadroom_spec now lg es b st :
  st_ok now lg es b st -> noHeadroom st = f_gt (spec_post now lg b) (Limit b).
Proof.
  intros (Hb & _ & Hcur & _). unfold noHeadroom, spec_post. by rewrite Hb, Hcur.
Qed.

(** The index the first loop ends with: the caller's, if it had one, or the first
    bucket of the specification without headroom. *)
Definition blocked_spec (now : time) (lg : log) (i blk : Z) (bs : list QuotaBucket) : Z :=
  if blk <? 0 then from_option fst blk (spec_blocked now lg i bs) else blk.

Lemma observeAll_spec now lg bs : forall es i blk,
  Rel now lg es -> 0 <= i ->
  Forall (fun b => checkWindowSec (WindowSec b) = None /\ small_log lg b) bs ->
  NoDup (map b_sk bs) ->
  let '(es', sts, bl) := observeAll now es i blk bs in
  Rel now lg es' /\ Forall2 (st_ok now lg es') bs sts /\
  (forall sk, sk ∉ map b_sk bs -> es' !! sk = es !! sk) /\ dom es' = dom es /\
  bl = blocked_spec now lg i blk bs.
Proof.
  induction bs as [|b bs IH]; intros es i blk HR Hi Hbs Hnd; cbn [observeAll].
  - split_and!; try done. unfold blocked_spec. by destruct (blk <? 0).
  - apply Forall_cons in Hbs as [[Hw Hsm] Hbs]. cbn [map] in Hnd.
    apply NoDup_cons in Hnd as [Hni Hnd].
    pose proof (observeBucket_spec now lg es b HR Hw Hsm) as Hob.
    destruct (observeBucket now es b) as [es1 st]. destruct Hob as (HR1 & Hst & Hfr & Hdom).
    pose proof (noHeadroom_spec _ _ _ _ _ Hst) as Hnh.
    specialize (IH es1 (i + 1) (if (blk <? 0) && noHeadroom st then i else blk)
                   HR1 ltac:(lia) Hbs Hnd).
    destruct (observeAll now es1 (i + 1) _ bs) as [[es2 sts] bl].
    destruct IH as (HR2 & Hsts & Hfr2 & Hdom2 & Hbl).
    split_and!; [done | | | congruence |].
    + constructor; [| done]. apply (st_ok_frame _ _ es1); [by apply Hfr2 | done].
    + intros sk Hsk. cbn [map] in Hsk. apply not_elem_of_cons in Hsk as [Hne Hsk].
      by rewrite Hfr2, Hfr.
    + rewrite Hbl. unfold blocked_spec. cbn [spec_blocked]. rewrite Hnh.
      destruct (blk <? 0) eqn:Eb; cbn [andb]; [| by rewrite Eb].
      destruct (f_gt _ _); cbn [from_option fst].
      * by rewrite (proj2 (Z.ltb_ge i 0)).
      * by rewrite Eb.
Qed.

(** ** Commit: the last loop of AdmitAll *)

Lemma append_events sk e now w weighted :
  wf_entry sk e -> (isWeighted e = true -> weighted = true) ->
  (weighted = false -> w = f_one) ->
  let ws := if weighted && negb (length (slice (weights e)) =? length (timestamps e))%nat
            then Some (replicate (length (timestamps e)) f_one) else weights e in
  let '(ts, ws) := appendCall (timestamps e) ws now w weighted in
  let e' := storeEntry e ts ws weighted in
  wf_entry sk e' /\ events e' = events e ++ [(now, w)].
Proof.
  intros (Hk & Hw & Hwt) Himp Hone.
  destruct weighted; cbn [andb appendCall].
  - set (ws := if negb _ then _ else _).
    assert (length (slice ws) = length (timestamps e) /\
            events e = zip (timestamps e) (slice ws)) as [Hlen Hev].
    { unfold ws, events, isWeighted.
      destruct (weights e) as [l|] eqn:El; cbn [slice length].
      - destruct Hwt as [?|Ht]; [done|]. unfold isWeighted in Ht. rewrite El in Ht.
        rewrite Ht. cbn. by apply Nat.eqb_eq in Ht.
      - destruct (timestamps e); cbn; [done|]. by rewrite length_replicate. }
    unfold wf_entry, storeEntry, events, isWeighted; cbn [timestamps weights windowSec slice].
    rewrite !length_app, Hlen, Nat.eqb_refl. cbn [length slice].
    split; [by split_and!; auto|]. fold (isWeighted e).
    change (zip (timestamps e) (if isWeighted e then slice (weights e)
              else replicate (length (timestamps e)) f_one)) with (events e).
    by rewrite Hev, zip_with_app.
  - assert (isWeighted e = false) as Hn by (destruct (isWeighted e); [discriminate (Himp eq_refl) | done]).
    destruct Hwt as [Hnone|]; [| congruence].
    unfold wf_entry, storeEntry, events, isWeighted; cbn [timestamps weights windowSec].
    rewrite Hnone, Hone by done. split; [by split_and!; auto|].
    rewrite length_app, replicate_add, zip_with_app by (by rewrite length_replicate).
    reflexivity.
Qed.

Lemma Rel_append now lg es b e' :
  Rel now lg es -> wf_entry (b_sk b) e' ->
  events e' = events_at es (b_sk b) ++ [(now, bucketWeight b)] ->
  Rel now (<[ b_sk b := log_of lg (b_sk b) ++ [(now, bucketWeight b)] ]> lg)
          (<[ b_sk b := e' ]> es).
Proof.
  intros [Hwf HR] Hwf' Hev. split; [by apply map_Forall_insert_2|].
  intros k w Hw. specialize (HR k w Hw). unfold events_at, log_of in *.
  destruct (decide (b_sk b = storageKey k w)) as [Heq|Hne].
  - rewrite Heq in *. rewrite lookup_insert_eq. rewrite lookup_insert_eq.
    cbn [from_option]. unfold id. rewrite Hev, !live_app, HR. done.
  - rewrite lookup_insert_ne by done. by rewrite lookup_insert_ne.
Qed.

Lemma commitBucket_spec now lg0 lg es b st :
  Rel now lg es -> checkWindowSec (WindowSec b) = None -> st_ok now lg0 es b st ->
  Rel now (spec_write now lg0 lg b) (commitBucket now es st) /\
  (forall sk, sk <> b_sk b -> commitBucket now es st !! sk = es !! sk).
Proof.
  intros HR Hw (Hb & Hsk & Hcur & Hst & _).
  unfold commitBucket, spec_write, st_record, st_post, st_writeWeighted.
  rewrite Hb, Hsk, Hcur. fold (spec_post now lg0 b).
  destruct (f_eq _ _); cbn [negb]; [done|].
  set (e := if st_e st then _ else _).
  assert (wf_entry (b_sk b) e /\ events e = events_at es (b_sk b) /\
          st_weighted st = isWeighted e) as (Hwfe & Hev & Hwt).
  { unfold e, events_at. destruct (es !! b_sk b) as [e0|].
    - destruct Hst as (-> & ? & ? & ?). done.
    - destruct Hst as (-> & -> & ?). split_and!; [| done | done].
      split_and!; [by exists (Key b) | done | by left]. }
  pose proof (append_events (b_sk b) e now (bucketWeight b)
                (st_weighted st || negb (Counted b)) Hwfe) as Happ.
  cbv zeta in Happ.
  destruct (appendCall _ _ _ _ _) as [ts ws].
  destruct Happ as [Hwf' Hev'].
  { intros He. by rewrite Hwt, He. }
  { intros Hf. apply orb_false_elim in Hf as [_ Hf]. unfold bucketWeight.
    by destruct (Counted b). }
  split.
  - apply Rel_append; [done | done | by rewrite Hev', Hev].
  - intros sk Hne. by rewrite lookup_insert_ne.
Qed.

Lemma Forall2_impl_in {A B} (P Q : A -> B -> Prop) l k :
  Forall2 P l k -> (forall x y, x ∈ l -> P x y -> Q x y) -> Forall2 Q l k.
Proof.
  induction 1 as [|x y l k Hp _ IH]; intros H; constructor.
  - apply H; [by left | done].
  - apply IH. intros x' y' Hin. apply H. by right.
Qed.

Lemma commitAll_spec now lg0 bs : forall sts lg es,
  Rel now lg es -> Forall (fun b => checkWindowSec (WindowSec b) = None) bs ->
  NoDup (map b_sk bs) -> Forall2 (st_ok now lg0 es) bs sts ->
  Rel now (fold_left (spec_write now lg0) bs lg) (fold_left (commitBucket now) sts es).
Proof.
  induction bs as [|b bs IH]; intros sts lg es HR Hw Hnd Hsts.
  - by apply Forall2_nil_inv_l in Hsts as ->.
  - apply Forall2_cons_inv_l in Hsts as (st & sts' & Hst & Hsts & ->).
    apply Forall_cons in Hw as [Hwb Hw]. cbn [map] in Hnd. apply NoDup_cons in Hnd as [Hni Hnd].
    destruct (commitBucket_spec now lg0 lg es b st HR Hwb Hst) as [HR' Hfr].
    cbn [fold_left]. apply IH; [done | done | done |].
    apply (Forall2_impl_in (st_ok now lg0 es)); [done|].
    intros b' st' Hin Hst'.
    apply (st_ok_frame _ _ es); [apply Hfr | done].
    intros Heq. apply Hni. rewrite <- Heq. by apply (list_elem_of_fmap_2 b_sk).
Qed.

(** ** Batch validation *)

Lemma checkDistinct_spec seen bs :
  checkDistinct seen bs = None <->
  NoDup (map b_sk bs) /\ Forall (fun b => b_sk b ∉ seen) bs.
Proof.
  revert seen. induction bs as [|b bs IH]; intros seen; cbn [checkDistinct map].
  - split; [by split; [constructor|] | done].
  - fold (b_sk b). rewrite NoDup_cons, Forall_cons.
    case_bool_decide as Hin; [split; [done | tauto]|].
    rewrite IH. split.
    + intros [Hnd Hall]. split_and!; [| done | done |].
      * intros Hel. apply list_elem_of_fmap in Hel as (b' & Heq & Hb').
        rewrite Forall_forall in Hall. apply (Hall b' Hb'). set_solver.
      * apply (Forall_impl _ _ _ Hall). set_solver.
    + intros ([Hni Hnd] & _ & Hall). split; [done|].
      rewrite Forall_forall in Hall |- *. intros b' Hb' Hel.
      apply elem_of_union in Hel as [Heq|Hel]; [| by apply (Hall b' Hb')].
      apply Hni. apply elem_of_singleton in Heq. rewrite <- Heq.
      by apply (list_elem_of_fmap_2 b_sk).
Qed.

Lemma checkEach_spec bs : checkEach bs = None <-> Forall (fun b => checkBucket b = None) bs.
Proof.
  induction bs as [|b bs IH]; cbn [checkEach]; [split; [by constructor | done]|].
  rewrite Forall_cons. destruct (checkBucket b); [split; [done | by intros [? _]]|].
  rewrite IH. tauto.
Qed.

Lemma checkBuckets_None bs :
  checkBuckets bs = None ->
  bs <> [] /\ Forall (fun b => checkBucket b = None) bs /\ NoDup (map b_sk bs).
Proof.
  unfold checkBuckets. destruct bs as [|b bs]; [done|].
  destruct (checkEach (b :: bs)) eqn:E; [done|]. intros H.
  apply checkEach_spec in E. apply checkDistinct_spec in H as [H _]. done.
Qed.

Lemma checkBucket_window b : checkBucket b = None -> checkWindowSec (WindowSec b) = None.
Proof. unfold checkBucket. by destruct (checkWindowSec _). Qed.

(** ** The refinement *)

Lemma spec_blocked_lookup now lg bs : forall i j b,
  spec_blocked now lg i bs = Some (j, b) -> i <= j /\ bs !! Z.to_nat (j - i) = Some b.
Proof.
  induction bs as [|b0 bs IH]; intros i j b H; cbn in H; [done|].
  destruct (f_gt _ _).
  - injection H as -> ->. rewrite Z.sub_diag. split; [lia | done].
  - apply IH in H as [Hij Hl]. split; [lia|].
    replace (Z.to_nat (j - i)) with (S (Z.to_nat (j - (i + 1)))) by lia. done.
Qed.

Lemma retryWeightLoop_spec window now needed evs : forall gone,
  retryWeightLoop (map fst evs) (map snd evs) (weightedTotal (map snd gone)) needed window now
  = match freed_by gone evs needed with Some t => positive_remaining t window now | None => 0 end.
Proof.
  induction evs as [|[t w] evs IH]; intros gone; [done|]. cbn [map fst snd retryWeightLoop freed_by].
  assert (f_add (weightedTotal (map snd gone)) w = weightedTotal (map snd (gone ++ [(t, w)]))) as ->.
  { unfold weightedTotal. rewrite map_app, fold_left_app. done. }
  destruct (f_ge _ _); [done | apply IH].
Qed.

Lemma positive_remaining_max t window now :
  positive_remaining t window now = Z.max 0 (time_sub (t + window) now).
Proof. unfold positive_remaining, time_add. destruct (Z.ltb_spec 0 (time_sub (t + window) now)); lia. Qed.

(** The retry estimate of a bucket's state is that of the log. *)
Lemma bucketRetryAfter_spec now lg es b st :
  st_ok now lg es b st -> small_log lg b ->
  bucketRetryAfter (st_b st) (st_valid st) (st_weights st) (st_cur st) (st_window st) now
  = spec_retry now lg b.
Proof.
  intros (Hb & _ & Hcur & _ & Hwin & Hv & Hws) Hsm. pose proof (b_live_length now lg b). unfold small_log in Hsm.
  unfold bucketRetryAfter, spec_retry, spec_pivot. rewrite Hb, Hcur, Hwin. fold (spec_post now lg b).
  destruct (Counted b) eqn:Ec.
  - unfold spec_total. rewrite Ec. unfold int64_of_float at 1. rewrite of_Z_trunc by lia. cbn [default id].
    unfold retryAfterFromPivot. rewrite Hv, length_map.
    set (idx := Z.of_nat (length (b_live now lg b)) - int64_of_float (Limit b)).
    destruct (Z.leb_spec 0 idx); [| done]. cbn [andb].
    destruct (Z.ltb_spec idx (Z.of_nat (length (b_live now lg b)))).
    + destruct (map fst _ !! Z.to_nat idx); [apply positive_remaining_max | done].
    + rewrite lookup_ge_None_2; [done | rewrite length_map; lia].
  - cbv zeta. rewrite Hws, Hv. unfold retryAfterForWeight. destruct (f_le _ _); [done|].
    pose proof (retryWeightLoop_spec (WindowSec b * second) now
      (f_sub (spec_post now lg b) (Limit b)) (b_live now lg b) []) as E.
    change (weightedTotal (map snd [])) with f_zero in E. rewrite E.
    destruct (freed_by _ _ _); [apply positive_remaining_max | done].
Qed.

Lemma st_post_spec now lg es b st : st_ok now lg es b st -> st_post st = spec_post now lg b.
Proof. intros (Hb & _ & Hcur & _). unfold st_post. by rewrite Hb, Hcur. Qed.

Lemma st_record_spec now lg es b st : st_ok now lg es b st -> st_record st = spec_moves now lg b.
Proof.
  intros Hst. unfold st_record, spec_moves. rewrite (st_post_spec _ _ _ _ _ Hst).
  by destruct Hst as (_ & _ & -> & _).
Qed.

Lemma st_e_spec now lg es b st : st_ok now lg es b st -> st_e st = bool_decide (b_sk b ∈ dom es).
Proof.
  intros (_ & _ & _ & Hst & _). rewrite bool_decide_decide. destruct (decide _) as [H|H].
  - apply elem_of_dom in H as [e He]. rewrite He in Hst. apply Hst.
  - apply not_elem_of_dom in H. rewrite H in Hst. apply Hst.
Qed.

Lemma maxTotalOf_spec now lg es bs sts :
  Forall2 (st_ok now lg es) bs sts -> maxTotalOf sts = spec_highest now lg bs.
Proof.
  unfold maxTotalOf, spec_highest. intros H. generalize f_zero.
  induction H as [|b st bs sts Hst _ IH]; intros mx; [done|]. cbn [fold_left].
  rewrite (st_post_spec _ _ _ _ _ Hst). apply IH.
Qed.

Lemma overWeightedLimit_spec now lg es m bs sts :
  Forall2 (st_ok now lg es) bs sts ->
  existsb (overWeightedLimit m) sts = existsb (spec_full (maxWeightedEntries m) now lg) bs.
Proof.
  induction 1 as [|b st bs sts Hst _ IH]; [done|]. cbn [existsb]. rewrite IH. f_equal.
  unfold overWeightedLimit, spec_full. rewrite (st_record_spec _ _ _ _ _ Hst).
  destruct Hst as (-> & _ & _ & _ & _ & -> & _). by rewrite length_map.
Qed.

(** The keys an admission would add, counted by the loop and as a set. *)
Lemma newKeysOf_spec now lg es bs sts keys :
  Forall2 (st_ok now lg es) bs sts -> NoDup (map b_sk bs) -> dom es = keys ->
  Z.of_nat (size es) + newKeysOf sts = Z.of_nat (size (spec_keys now (mkQuota lg keys) bs)).
Proof.
  intros H Hnd Hd. assert (size es = size keys) as Hsz.
  { rewrite <- Hd. by rewrite size_dom. }
  rewrite Hsz. unfold newKeysOf.
  assert (forall n, fold_left (fun n st => if st_record st && negb (st_e st) then n + 1 else n) sts n
    = n + Z.of_nat (size (spec_keys now (mkQuota lg keys) bs)) - Z.of_nat (size keys)) as ->; [| lia].
  unfold spec_keys. cbn [q_keys q_log].
  induction H as [|b st bs sts Hst _ IH]; intros n; cbn [fold_left map].
  - rewrite filter_nil. cbn [map list_to_set]. rewrite (right_id_L ∅ (∪)). lia.
  - cbn [map] in Hnd. apply NoDup_cons in Hnd as [Hni Hnd]. rewrite IH by done.
    rewrite (st_record_spec _ _ _ _ _ Hst), (st_e_spec _ _ _ _ _ Hst), Hd, filter_cons.
    destruct (spec_moves now lg b) eqn:Em; cbn [andb]; [| by rewrite decide_False by (by intros [])].
    rewrite decide_True by done. cbn [map list_to_set].
    set (X := list_to_set (map b_sk _)).
    assert (b_sk b ∉ X) as HX.
    { unfold X. rewrite elem_of_list_to_set. intros (b' & E & Hb')%list_elem_of_fmap.
      apply list_elem_of_filter in Hb' as [_ Hb']. apply Hni. rewrite E. by apply (list_elem_of_fmap_2 b_sk). }
    clearbody X. assert (keys ∪ ({[ b_sk b ]} ∪ X) = {[ b_sk b ]} ∪ (keys ∪ X)) as ->.
    { by rewrite (assoc_L (∪)), (comm_L (∪) keys), <- (assoc_L (∪)). }
    case_bool_decide as Hin; cbn [negb].
    + rewrite (subseteq_union_1_L {[ b_sk b ]} (keys ∪ X)) by (apply singleton_subseteq_l, elem_of_union; by left). lia.
    + rewrite (size_union {[ b_sk b ]} (keys ∪ X)) by (apply disjoint_singleton_l; rewrite elem_of_union; by intros [|]).
      rewrite size_singleton. lia.
Qed.

Lemma commitBucket_dom now lg es0 es b st :
  st_ok now lg es0 b st ->
  dom (commitBucket now es st) = (if spec_moves now lg b then {[ b_sk b ]} else ∅) ∪ dom es.
Proof.
  intros Hst. unfold commitBucket. rewrite (st_record_spec _ _ _ _ _ Hst).
  destruct Hst as (_ & -> & _).
  destruct (spec_moves now lg b); cbn [negb]; [| by rewrite (left_id_L ∅ (∪))].
  destruct (appendCall _ _ _ _ _). by rewrite dom_insert_L.
Qed.

Lemma commitAll_dom now lg es0 bs sts : forall es,
  Forall2 (st_ok now lg es0) bs sts ->
  dom (fold_left (commitBucket now) sts es) = spec_keys now (mkQuota lg (dom es)) bs.
Proof.
  unfold spec_keys. cbn [q_keys q_log]. intros es H. revert es.
  induction H as [|b st bs sts Hst _ IH]; intros es; cbn [fold_left].
  - rewrite filter_nil. cbn. by rewrite (right_id_L ∅ (∪)).
  - rewrite IH, (commitBucket_dom _ _ _ _ _ _ Hst), filter_cons.
    destruct (spec_moves now lg b) eqn:Em.
    + rewrite decide_True by done. cbn [map list_to_set]. set_solver.
    + rewrite decide_False by (by intros []). by rewrite (left_id_L ∅ (∪)).
Qed.

(** The store describes the abstract counter at time [T]. *)
Definition Abs (T : time) (q : quota) (m : InMemory) : Prop :=
  Rel T (q_log q) (entries m) /\ dom (entries m) = q_keys q.

Lemma admit_refinement T q clock m bs :
  Abs T q m -> T <= floorToMicro clock -> Forall (small_log (q_log q)) bs ->
  let a := AdmitAll clock m bs in
  let s := spec_admit (maxKeys m) (maxWeightedEntries m) (floorToMicro clock) q bs in
  a.2 = s.2 /\ Abs (floorToMicro clock) s.1 a.1 /\
  maxKeys a.1 = maxKeys m /\ maxWeightedEntries a.1 = maxWeightedEntries m.
Proof.
  intros [HR HD] HT Hsmall. apply (Rel_mono _ (floorToMicro clock)) in HR; [| done].
  unfold AdmitAll, spec_admit, Abs. set (now := floorToMicro clock) in *. destruct q as [lg keys]. cbn [q_log q_keys] in *.
  destruct (checkBuckets bs) eqn:Ec; [done|].
  apply checkBuckets_None in Ec as (_ & Hchk & Hnd).
  assert (Hw : Forall (fun b => checkWindowSec (WindowSec b) = None) bs)
    by (apply (Forall_impl _ _ _ Hchk); apply checkBucket_window).
  assert (Hboth : Forall (fun b => checkWindowSec (WindowSec b) = None /\ small_log lg b) bs)
    by (by apply Forall_and).
  pose proof (observeAll_spec now lg bs (entries m) 0 (-1) HR ltac:(lia) Hboth Hnd) as Hob.
  destruct (observeAll now (entries m) 0 (-1) bs) as [[es sts] bl].
  destruct Hob as (HR' & Hsts & _ & Hdom & Hbl). unfold blocked_spec in Hbl. cbn in Hbl.
  rewrite HD in Hdom.
  destruct (spec_blocked now lg 0 bs) as [[j b]|] eqn:Eb; cbn in Hbl; subst bl.
  - apply spec_blocked_lookup in Eb as Hl. destruct Hl as [Hj Hl]. rewrite Z.sub_0_r in Hl.
    rewrite (proj2 (Z.leb_le 0 j)) by lia.
    destruct (Forall2_lookup_l _ _ _ _ _ Hsts Hl) as (st & -> & Hst).
    assert (small_log lg b) as Hsm by (eapply Forall_lookup_1 in Hsmall; done).
    rewrite (bucketRetryAfter_spec _ _ _ _ _ Hst Hsm). destruct Hst as (_ & _ & -> & _). by split_and!.
  - cbn [Z.leb Z.compare]. cbn match. cbn [entries set_entries maxKeys].
    rewrite (newKeysOf_spec now lg es bs sts keys Hsts Hnd Hdom).
    case_match; [by split_and!|]. rewrite (overWeightedLimit_spec _ _ _ _ _ _ Hsts). cbn [maxWeightedEntries set_entries].
    case_match; [by split_and!|]. rewrite (maxTotalOf_spec _ _ _ _ _ Hsts).
    cbn [fst snd q_log q_keys entries set_entries maxKeys maxWeightedEntries]. split_and!; [done | | | done | done].
    + by apply commitAll_spec.
    + rewrite (commitAll_dom _ _ _ _ _ _ Hsts). by rewrite Hdom.
Qed.

(** C40: AdmitAll is the decision of a log that never forgets.  If the store holds the live
    part of the log at time [T], the clock has not gone back since and no key of the batch
    has more than 2^53 logged calls, then the result is exactly the one [spec_admit] computes
    from the log: an invalid batch's error; else the denial of the first bucket whose window
    total leaves no room, with that total and the time until enough of its calls have left
    the window; else the refusal of a batch that would take more keys, or more weighted calls
    of one key, than the store is configured for; else an admission with the highest of the
    totals after it.  The store then describes the log the decision leaves: the old one, or,
    after an admission, the one with the call in every bucket whose total it moves. *)
Theorem AdmitAll_refines_log T q clock m bs :
  Abs T q m -> T <= floorToMicro clock -> Forall (small_log (q_log q)) bs ->
  let a := AdmitAll clock m bs in
  let s := spec_admit (maxKeys m) (maxWeightedEntries m) (floorToMicro clock) q bs in
  a.2 = s.2 /\ Abs (floorToMicro clock) s.1 a.1 /\
  maxKeys a.1 = maxKeys m /\ maxWeightedEntries a.1 = maxWeightedEntries m.
Proof. apply admit_refinement. Qed.

Lemma Rel_empty T : Rel T ∅ ∅.
Proof.
  split; [by intros ? ? ?|]. intros k w _. unfold events_at, log_of.
  by rewrite !lookup_empty.
Qed.

(** A counted and a weighted bucket charged together on a fresh counter. *)
Definition demo_batch : list QuotaBucket :=
  [mkBucket "calls" 60 true f_zero (of_Z 2); mkBucket "spend" 60 false (of_Z 7) (of_Z 10)].

Lemma Abs_empty T maxKeys maxWeighted : Abs T (mkQuota ∅ ∅) (NewInMemory maxKeys maxWeighted).
Proof. split; [apply Rel_empty | cbn; by rewrite dom_empty_L]. Qed.

(** The abstract counter after one batch at five seconds. *)
Definition demo_quota : quota := (spec_admit 0 100 5000000000 (mkQuota ∅ ∅) demo_batch).1.
Definition demo_store : InMemory := (AdmitAll 5000000000 (NewInMemory 0 100) demo_batch).1.

Lemma demo_store_Abs : Abs 5000000000 demo_quota demo_store.
Proof.
  apply (admit_refinement 0 (mkQuota ∅ ∅) 5000000000 (NewInMemory 0 100) demo_batch);
    [apply Abs_empty | vm_compute; discriminate | repeat constructor; vm_compute; discriminate].
Qed.

(** The first batch is admitted and reports its highest total, 7; the same batch ten seconds
    later is denied for its second bucket, with 7 in the window and 50 seconds to wait. *)
Lemma AdmitAll_refines_log_witness :
  (AdmitAll 5000000000 (NewInMemory 0 100) demo_batch).2 = Ok (mkAdmit true 0 (of_Z 7) 0) /\
  (AdmitAll 15000000000 demo_store demo_batch).2 = Ok (mkAdmit false 1 (of_Z 7) 50000000000) /\
  size (q_keys demo_quota) = 2%nat.
Proof.
  destruct (AdmitAll_refines_log 0 (mkQuota ∅ ∅) 5000000000 (NewInMemory 0 100) demo_batch) as [E1 _];
    [apply Abs_empty | vm_compute; discriminate | repeat constructor; vm_compute; discriminate |].
  destruct (AdmitAll_refines_log 5000000000 demo_quota 15000000000 demo_store demo_batch) as [E2 _];
    [apply demo_store_Abs | vm_compute; discriminate | repeat constructor; vm_compute; discriminate |].
  rewrite E1, E2. split_and!; vm_compute; reflexivity.
Defined.

(** ** Cleanup *)

Lemma latest_of_ge t0 ts : t0 <= latest_of t0 ts /\ forall t, t ∈ ts -> t <= latest_of t0 ts.
Proof.
  unfold latest_of. revert t0. induction ts as [|x ts IH]; intros t0; cbn [fold_left].
  - split; [lia | intros t Ht; by apply not_elem_of_nil in Ht].
  - destruct (IH (if time_after x t0 then x else t0)) as [H1 H2].
    unfold time_after in *. destruct (t0 <? x) eqn:E; bools.
    all: split; [lia | intros t [->|Ht]%elem_of_cons; [lia | by apply H2]].
Qed.

Lemma live_nil c evs : (forall p, p ∈ evs -> p.1 <= c) -> live c evs = [].
Proof.
  induction evs as [|[t w] evs IH]; intros H; [done|]. rewrite live_cons.
  pose proof (H (t, w) ltac:(left)) as Ht. cbn in Ht.
  rewrite (proj2 (Z.ltb_ge c t)) by lia. apply IH. intros p Hp. apply H. by right.
Qed.

(** An entry Cleanup deletes has no event any later window can see. *)
Lemma shouldDelete_stale sk e clock :
  wf_entry sk e -> shouldDeleteEntry e clock = true ->
  live (floorToMicro clock - windowSec e * second) (events e) = [].
Proof.
  intros (_ & Hw & _) Hd. apply live_nil. intros [t w] Hin.
  unfold events in Hin. apply elem_of_zip_l in Hin. cbn [fst].
  destruct (window_exact _ Hw) as (_ & Hsec & _).
  unfold shouldDeleteEntry in Hd.
  destruct (timestamps e) as [|t0 ts]; [by apply not_elem_of_nil in Hin|].
  rewrite (proj2 (Z.ltb_lt 0 (windowSec e))) in Hd
    by (apply checkWindowSec_range in Hw; lia).
  rewrite stale_exact in Hd by done. unfold time_after, time_add in Hd. bools.
  destruct (latest_of_ge t0 ts) as [H1 H2].
  pose proof (floorToMicro_bounds clock).
  assert (t <= latest_of t0 ts) by (apply elem_of_cons in Hin as [->|Hin]; [done | by apply H2]).
  unfold second in *. lia.
Qed.

Lemma cleanupDelete_Rel lg clock es key :
  Rel (floorToMicro clock) lg es -> Rel (floorToMicro clock) lg (cleanupDelete clock es key).
Proof.
  intros [Hwf HR]. unfold cleanupDelete.
  destruct (es !! key) as [e|] eqn:He; [| done].
  destruct (shouldDeleteEntry e clock) eqn:Hd; [| done].
  split; [by apply map_Forall_delete|]. intros k w Hw. rewrite <- HR by done.
  unfold events_at. destruct (decide (key = storageKey k w)) as [->|Hne].
  - rewrite lookup_delete_eq, He. cbn [from_option].
    pose proof (Hwf _ _ He) as Hwfe. pose proof Hwfe as ((k' & Hk) & _).
    apply storageKey_inj in Hk as [_ ->].
    rewrite (shouldDelete_stale _ _ _ Hwfe Hd). done.
  - by rewrite lookup_delete_ne.
Qed.

Lemma cleanupSweep_Rel lg clock keys m :
  Rel (floorToMicro clock) lg (entries m) ->
  Rel (floorToMicro clock) lg (entries (cleanupSweep clock keys m)).
Proof.
  unfold cleanupSweep. cbn [entries set_entries]. generalize (entries m).
  induction keys as [|k keys IH]; intros es HR; cbn [fold_left]; [done|].
  apply IH. by apply cleanupDelete_Rel.
Qed.

Lemma floorToMicro_floor t : floorToMicro t = 1000 * (t / 1000).
Proof.
  unfold floorToMicro, time_add, nanosecond_of, second.
  rewrite Z.mod_mod_divide by (by exists 1000000).
  pose proof (Z.div_mod t 1000). lia.
Qed.

Lemma floorToMicro_mono t u : t <= u -> floorToMicro t <= floorToMicro u.
Proof.
  intros H. rewrite !floorToMicro_floor.
  pose proof (Z.div_le_mono t u 1000 ltac:(lia) H). lia.
Qed.

Lemma cleanupBatches_Rel lg clock fuel now : forall i keys m T,
  (forall j, now j <= clock) -> (forall i j, (i <= j)%nat -> now i <= now j) ->
  T <= floorToMicro (now i) -> Rel T lg (entries m) ->
  T <= floorToMicro clock ->
  Rel (floorToMicro clock) lg (entries (cleanupBatches fuel now i keys m)).
Proof.
  induction fuel as [|fuel IH]; intros i keys m T Hle Hmono HT HR HTc; cbn [cleanupBatches].
  - by apply (Rel_mono T).
  - destruct keys as [|k keys]; [by apply (Rel_mono T)|].
    apply (IH _ _ _ (floorToMicro (now i))); [done | done | | |].
    + apply floorToMicro_mono, Hmono. lia.
    + apply cleanupSweep_Rel. by apply (Rel_mono T).
    + apply floorToMicro_mono, Hle.
Qed.

(** ** Peek *)

Lemma count_loop cutoff ts n :
  fold_left (fun count t => if time_after t cutoff then count + 1 else count) ts n
  = n + Z.of_nat (length (filter (fun t => cutoff < t) ts)).
Proof.
  revert n. induction ts as [|t ts IH]; intros n; cbn [fold_left]; [cbn; lia|].
  rewrite IH. unfold time_after. destruct (cutoff <? t) eqn:E; bools.
  - rewrite filter_cons_True by done. cbn [length]. lia.
  - rewrite filter_cons_False by lia. lia.
Qed.

Lemma live_fst cutoff evs :
  length (filter (fun t => cutoff < t) (map fst evs)) = length (live cutoff evs).
Proof.
  induction evs as [|[t w] evs IH]; [done|]. rewrite live_cons. cbn [map fst].
  destruct (cutoff <? t) eqn:E; bools.
  - rewrite filter_cons_True by done. cbn [length]. lia.
  - rewrite filter_cons_False by lia. done.
Qed.

Lemma Peek_events clock m k w :
  checkWindowSec w = None ->
  Peek clock m k w
  = Ok (Z.of_nat (length (live (floorToMicro clock - w * second)
                            (events_at (entries m) (storageKey k w))))).
Proof.
  intros Hw. unfold Peek, events_at. rewrite Hw.
  destruct (entries m !! storageKey k w) as [e|]; [| done]. cbn [from_option].
  rewrite count_loop, cutoff_exact, <- live_fst, events_fst by done. f_equal.
Qed.

(** Peek reads the log: on a store that describes the log, the count returned is
    the number of logged calls strictly inside the window. *)
Theorem Peek_refines_log T lg clock m k w :
  Rel T lg (entries m) -> T <= floorToMicro clock -> checkWindowSec w = None ->
  Peek clock m k w
  = Ok (Z.of_nat (length (live (floorToMicro clock - w * second)
                            (log_of lg (storageKey k w))))).
Proof.
  intros HR HT Hw. rewrite Peek_events by done.
  apply (Rel_mono _ _ _ _ HR) in HT as [_ H]. by rewrite H.
Qed.

Lemma Peek_refines_log_witness : Peek 9000000000 demo_store "calls" 60 = Ok 1.
Proof.
  rewrite (Peek_refines_log 5000000000 (q_log demo_quota) 9000000000 demo_store "calls" 60).
  - vm_compute; reflexivity.
  - apply demo_store_Abs.
  - vm_compute; discriminate.
  - reflexivity.
Defined.

Lemma Rel_self T es : wf es -> Rel T (events <$> es) es.
Proof.
  intros Hwf. split; [done|]. intros k w _. unfold events_at, log_of.
  rewrite lookup_fmap. by destruct (es !! storageKey k w).
Qed.

(** Cleanup is invisible: with clocks that do not go back, no reading taken at or
    after the last batch can tell a swept store from an unswept one, so reclamation
    never forgets a call that still counts. *)
Theorem Cleanup_invisible now0 now clock m k w :
  wf (entries m) -> (forall i, now i <= clock) ->
  (forall i j, (i <= j)%nat -> now i <= now j) ->
  Peek clock (Cleanup now0 now m) k w = Peek clock m k w.
Proof.
  intros Hwf Hle Hmono. destruct (checkWindowSec w) as [e|] eqn:Hw.
  { unfold Peek. by rewrite Hw. }
  set (T := floorToMicro (now 0%nat)).
  assert (Rel (floorToMicro clock) (events <$> entries m) (entries (Cleanup now0 now m)))
    as [_ HR].
  { apply (cleanupBatches_Rel _ _ _ _ _ _ _ T); [done | done | done | by apply Rel_self |].
    apply floorToMicro_mono, Hle. }
  rewrite !Peek_events by done. rewrite HR by done.
  unfold log_of, events_at. rewrite lookup_fmap. by destruct (entries m !! storageKey k w).
Qed.

Lemma wf_empty : wf ∅.
Proof. by intros ? ? ?. Qed.

Lemma Cleanup_invisible_witness :
  Peek 200000000000 (Cleanup 190000000000 (fun _ => 190000000000) demo_store) "calls" 60
  = Peek 200000000000 demo_store "calls" 60 /\
  size (entries demo_store) = 2%nat /\
  size (entries (Cleanup 190000000000 (fun _ => 190000000000) demo_store)) = 0%nat.
Proof.
  split; [| split; vm_compute; reflexivity].
  apply (Cleanup_invisible 190000000000 (fun _ => 190000000000) 200000000000 demo_store).
  - apply demo_store_Abs.
  - intros i. lia.
  - intros i j _. lia.
Defined.

(** ** Runs: admissions and sweeps in any order *)

Inductive op :=
| OpAdmit (clock : time) (buckets : list QuotaBucket)
| OpSweep (clock : time) (keys : list string).

Definition op_clock (o : op) : time :=
  match o with OpAdmit c _ => c | OpSweep c _ => c end.

Definition exec (m : InMemory) (o : op) : InMemory :=
  match o with
  | OpAdmit c bs => (AdmitAll c m bs).1
  | OpSweep c keys => cleanupSweep c keys m
  end.

Definition was_admitted (m : InMemory) (c : time) (bs : list QuotaBucket) : bool :=
  match (AdmitAll c m bs).2 with Ok a => admitted a | Err _ => false end.

(** The instants at which a run admits a call charged to the storage key [sk]. *)
Fixpoint admissions (sk : string) (m : InMemory) (ops : list op) : list time :=
  match ops with
  | [] => []
  | o :: ops =>
      (match o with
       | OpAdmit c bs =>
           if was_admitted m c bs && bool_decide (sk ∈ map b_sk bs)
           then [floorToMicro c] else []
       | OpSweep _ _ => []
       end) ++ admissions sk (exec m o) ops
  end.

(** The calls of [ts] that fall in the half-open window of [w] nanoseconds ending at [t]. *)
Definition in_window (w : Z) (t : time) (ts : list time) : nat :=
  length (filter (fun x => t - w < x <= t) ts).

(** Every bucket of the run charged to [sk] is counted, with limit [L]. *)
Definition counted_limit (sk : string) (L : Z) (o : op) : Prop :=
  match o with
  | OpAdmit _ bs => Forall (fun b => b_sk b = sk -> Counted b = true /\ Limit b = of_Z L) bs
  | OpSweep _ _ => True
  end.

Lemma in_window_app w t l1 l2 : in_window w t (l1 ++ l2) = (in_window w t l1 + in_window w t l2)%nat.
Proof. unfold in_window. by rewrite filter_app, length_app. Qed.

(** The window bound survives a call that fits in the window ending now. *)
Lemma in_window_snoc w L ts now :
  0 < w -> Forall (fun x => x <= now) ts ->
  (forall t, Z.of_nat (in_window w t ts) <= L) ->
  Z.of_nat (length (filter (fun x => now - w < x) ts)) + 1 <= L ->
  forall t, Z.of_nat (in_window w t (ts ++ [now])) <= L.
Proof.
  intros Hw Hle Hold Hfit t. rewrite in_window_app.
  destruct (decide (now <= t)) as [Hnt|Hnt].
  - assert (in_window w t ts <= length (filter (fun x => now - w < x)%Z ts))%nat.
    { unfold in_window. clear -Hnt. induction ts as [|x ts IH]; [done|].
      rewrite !filter_cons. repeat case_decide; cbn [length]; lia. }
    assert (in_window w t [now] <= 1)%nat by (unfold in_window; apply length_filter).
    lia.
  - specialize (Hold t).
    assert (in_window w t [now] = 0)%nat; [| lia].
    unfold in_window. rewrite filter_cons_False by lia. done.
Qed.

Lemma spec_write_other now lg0 lg b sk :
  b_sk b <> sk -> log_of (spec_write now lg0 lg b) sk = log_of lg sk.
Proof.
  intros Hne. unfold spec_write, log_of. destruct (f_eq _ _); [done|].
  by rewrite lookup_insert_ne.
Qed.

Lemma spec_commit_other now lg0 bs sk : forall lg,
  sk ∉ map b_sk bs -> log_of (fold_left (spec_write now lg0) bs lg) sk = log_of lg sk.
Proof.
  induction bs as [|b bs IH]; intros lg Hni; cbn [fold_left]; [done|].
  cbn [map] in Hni. apply not_elem_of_cons in Hni as [Hne Hni].
  rewrite IH by done. by apply spec_write_other.
Qed.

Lemma spec_commit_bucket now lg0 bs b : forall lg,
  NoDup (map b_sk bs) -> b ∈ bs ->
  log_of (fold_left (spec_write now lg0) bs lg) (b_sk b)
  = log_of (spec_write now lg0 lg b) (b_sk b).
Proof.
  induction bs as [|b0 bs IH]; intros lg Hnd Hin; [by apply not_elem_of_nil in Hin|].
  cbn [map] in Hnd. apply NoDup_cons in Hnd as [Hni Hnd]. cbn [fold_left].
  apply elem_of_cons in Hin as [->|Hin].
  - by rewrite spec_commit_other.
  - rewrite IH by done.
    assert (b_sk b0 <> b_sk b).
    { intros Heq. apply Hni. rewrite Heq. by apply (list_elem_of_fmap_2 b_sk). }
    unfold spec_write at 1 3. destruct (f_eq (spec_post now lg0 b) _).
    + by apply spec_write_other.
    + unfold log_of at 1 3. rewrite !lookup_insert_eq. cbn.
      by rewrite spec_write_other.
Qed.

Lemma spec_blocked_None now lg bs i b :
  spec_blocked now lg i bs = None -> b ∈ bs -> f_gt (spec_post now lg b) (Limit b) = false.
Proof.
  revert i. induction bs as [|b0 bs IH]; intros i H Hin; [by apply not_elem_of_nil in Hin|].
  cbn in H. destruct (f_gt (spec_post now lg b0) _) eqn:E; [done|].
  apply elem_of_cons in Hin as [->|Hin]; [done | by eapply IH].
Qed.

(** A counted bucket with room: the call is written, and the window still fits. *)
Lemma counted_admission now lg bs b L :
  NoDup (map b_sk bs) -> b ∈ bs -> Counted b = true -> Limit b = of_Z L ->
  0 <= L <= two53 -> Z.of_nat (length (log_of lg (b_sk b))) < two53 ->
  spec_blocked now lg 0 bs = None ->
  log_of (spec_commit now lg bs) (b_sk b) = log_of lg (b_sk b) ++ [(now, f_one)] /\
  Z.of_nat (length (b_live now lg b)) + 1 <= L.
Proof.
  intros Hnd Hin Hc HL HLr Hsm Hbl.
  apply (spec_blocked_None _ _ _ _ _ Hbl) in Hin as Hroom.
  pose proof (b_live_length now lg b) as Hlen.
  assert (Hpost : spec_post now lg b = of_Z (Z.of_nat (length (b_live now lg b)) + 1)).
  { unfold spec_post, spec_total, bucketWeight. rewrite Hc.
    unfold f_one. apply of_Z_add; lia. }
  rewrite Hpost, HL, of_Z_gt in Hroom by lia. bools. split; [| lia].
  unfold spec_commit. rewrite spec_commit_bucket by done. unfold spec_write.
  rewrite Hpost. unfold spec_total. rewrite Hc, of_Z_eq by lia.
  rewrite (proj2 (Z.eqb_neq _ _)) by lia.
  unfold log_of at 1. rewrite lookup_insert_eq. unfold bucketWeight. by rewrite Hc.
Qed.

Lemma spec_commit_length now lg0 bs sk : forall lg,
  NoDup (map b_sk bs) ->
  (length (log_of (fold_left (spec_write now lg0) bs lg) sk) <= length (log_of lg sk) + 1)%nat.
Proof.
  intros lg Hnd. destruct (decide (sk ∈ map b_sk bs)) as [Hin|Hni].
  - apply list_elem_of_fmap in Hin as (b & -> & Hb).
    rewrite spec_commit_bucket by done. unfold spec_write. destruct (f_eq _ _); [lia|].
    unfold log_of at 1. rewrite lookup_insert_eq. cbn. by rewrite length_app.
  - rewrite spec_commit_other by done. lia.
Qed.

(** What a run maintains about the history of [sk]. *)
Record run_inv (sk : string) (w L : Z) (n : nat) (T : time) (lg : log) (m : InMemory) : Prop := {
  inv_rel : Rel T lg (entries m);
  inv_small : forall sk', (length (log_of lg sk') <= n)%nat;
  inv_past : Forall (fun x => x <= T) (map fst (log_of lg sk));
  inv_window : forall t, Z.of_nat (in_window (w * second) t (map fst (log_of lg sk))) <= L;
}.

Lemma past_mono T T' l : T <= T' -> Forall (fun x => x <= T) l -> Forall (fun x => x <= T') l.
Proof. intros HT H. apply (Forall_impl _ _ _ H). intros; cbn in *; lia. Qed.

Lemma run_inv_weaken sk w L n T lg m n' T' m' :
  run_inv sk w L n T lg m -> (n <= n')%nat -> T <= T' -> Rel T' lg (entries m') ->
  run_inv sk w L n' T' lg m'.
Proof.
  intros [H1 H2 H3 H4] Hn HT HR. split; [done | | by apply (past_mono T) | done].
  intros sk'. specialize (H2 sk'). lia.
Qed.

Lemma run_admit k w L n T lg m c bs :
  let sk := storageKey k w in let now := floorToMicro c in
  checkWindowSec w = None -> 0 <= L <= two53 -> Z.of_nat n < two53 ->
  run_inv sk w L n T lg m -> T <= now -> counted_limit sk L (OpAdmit c bs) ->
  exists lg', run_inv sk w L (S n) now lg' (AdmitAll c m bs).1 /\
    map fst (log_of lg' sk)
    = map fst (log_of lg sk) ++
      (if was_admitted m c bs && bool_decide (sk ∈ map b_sk bs) then [now] else []).
Proof.
  intros sk now Hw HL Hn HI HT Hlim. pose proof HI as [HR Hsm Hpast Hwin].
  assert (Forall (small_log lg) bs) as Hsmall.
  { apply Forall_true. intros b. unfold small_log. specialize (Hsm (b_sk b)). lia. }
  destruct (admit_refinement T (mkQuota lg (dom (entries m))) c m bs (conj HR eq_refl) HT Hsmall)
    as (Hres & [Href _] & _). unfold was_admitted. fold now in Hres, Href. rewrite Hres. clear Hres.
  unfold spec_admit in *. cbn [q_log] in *.
  destruct (checkBuckets bs) as [e|] eqn:Ec.
  { exists lg. rewrite app_nil_r. split; [| done]. apply (run_inv_weaken _ _ _ n T _ m); auto. }
  apply checkBuckets_None in Ec as (_ & _ & Hnd).
  destruct (spec_blocked now lg 0 bs) as [[i b]|] eqn:Hbl.
  { exists lg. rewrite app_nil_r. split; [| done]. apply (run_inv_weaken _ _ _ n T _ m); auto. }
  case_match; [exists lg; rewrite app_nil_r; split; [apply (run_inv_weaken _ _ _ n T _ m); auto | done] |].
  case_match; [exists lg; rewrite app_nil_r; split; [apply (run_inv_weaken _ _ _ n T _ m); auto | done] |].
  cbn [fst snd admitted andb q_log] in *. rename Href into HR'. exists (spec_commit now lg bs).
  case_bool_decide as Hin.
  - apply list_elem_of_fmap in Hin as (b & Hskb & Hb).
    cbn in Hlim. rewrite Forall_forall in Hlim. destruct (Hlim b Hb (eq_sym Hskb)) as [Hc HLb].
    destruct (counted_admission now lg bs b L Hnd Hb Hc HLb HL) as [Hlog Hfit];
      [specialize (Hsm (b_sk b)); lia | done |].
    rewrite <- Hskb in Hlog. unfold b_live in Hfit. rewrite <- Hskb in Hfit.
    apply storageKey_inj in Hskb as [_ Hwb]. rewrite <- Hwb, <- live_fst in Hfit.
    destruct (window_exact w Hw) as (_ & Hsec & _).
    assert (map fst (log_of (spec_commit now lg bs) sk) = map fst (log_of lg sk) ++ [now]) as Hm.
    { by rewrite Hlog, map_app. }
    split; [split|]; [done | | | | done].
    + intros sk'. pose proof (spec_commit_length now lg bs sk' lg Hnd).
      specialize (Hsm sk'). unfold spec_commit. lia.
    + rewrite Hm. apply Forall_app. split; [by apply (past_mono T) | by repeat constructor].
    + rewrite Hm. apply in_window_snoc; [unfold second in *; lia | by apply (past_mono T) | done | done].
  - assert (log_of (spec_commit now lg bs) sk = log_of lg sk) as Hlog
      by (by apply spec_commit_other).
    rewrite app_nil_r, Hlog. split; [split|]; [done | | | | done].
    + intros sk'. pose proof (spec_commit_length now lg bs sk' lg Hnd).
      specialize (Hsm sk'). unfold spec_commit. lia.
    + rewrite Hlog. by apply (past_mono T).
    + by rewrite Hlog.
Qed.

Lemma run_window k w L ops : forall n T lg m,
  checkWindowSec w = None -> 0 <= L <= two53 ->
  Z.of_nat (n + length ops) < two53 ->
  run_inv (storageKey k w) w L n T lg m ->
  StronglySorted Z.le (map op_clock ops) ->
  Forall (fun o => T <= floorToMicro (op_clock o)) ops ->
  Forall (counted_limit (storageKey k w) L) ops ->
  forall t, Z.of_nat (in_window (w * second) t
              (map fst (log_of lg (storageKey k w)) ++ admissions (storageKey k w) m ops)) <= L.
Proof.
  induction ops as [|o ops IH]; intros n T lg m Hw HL Hn HI Hs HT Hlim t.
  { cbn. rewrite app_nil_r. apply HI. }
  cbn [map length] in *. apply StronglySorted_inv in Hs as [Hs Hmono].
  apply Forall_cons in HT as [HTo HT]. apply Forall_cons in Hlim as [Hlo Hlim].
  assert (Forall (fun o' => floorToMicro (op_clock o) <= floorToMicro (op_clock o')) ops) as HT'.
  { rewrite List.Forall_map in Hmono. apply (Forall_impl _ _ _ Hmono).
    intros o' Ho'. by apply floorToMicro_mono. }
  cbn [admissions]. rewrite app_assoc.
  destruct o as [c bs|c keys]; cbn [op_clock exec] in *.
  - destruct (run_admit k w L n T lg m c bs Hw HL ltac:(lia) HI HTo Hlo) as (lg' & HI' & Hm).
    rewrite <- Hm. apply (IH (S n) (floorToMicro c)); try done. lia.
  - rewrite app_nil_r. apply (IH n (floorToMicro c)); try done; [lia|].
    apply (run_inv_weaken _ _ _ n T _ m); [done | lia | done |].
    apply cleanupSweep_Rel. apply (Rel_mono T); [apply HI | done].
Qed.

(** C39: The quota holds on every run.  Start from an empty counter and take any sequence
    of AdmitAll batches and cleanup sweeps with a clock that does not go back; if every
    bucket of one (key, window) is counted with limit [L], then in no window of that
    length, wherever it ends, are more than [L] calls admitted to it. *)
Theorem sliding_window_quota k w L ops mk mw t :
  checkWindowSec w = None -> 1 <= L <= two53 -> Z.of_nat (length ops) < two53 ->
  StronglySorted Z.le (map op_clock ops) ->
  Forall (counted_limit (storageKey k w) L) ops ->
  Z.of_nat (in_window (w * second) t
              (admissions (storageKey k w) (NewInMemory mk mw) ops)) <= L.
Proof.
  intros Hw HL Hn Hs Hlim.
  set (T := match ops with [] => 0 | o :: _ => floorToMicro (op_clock o) end).
  assert (Forall (fun o => T <= floorToMicro (op_clock o)) ops) as HT.
  { unfold T. destruct ops as [|o ops]; [done|]. cbn [map] in Hs.
    apply StronglySorted_inv in Hs as [_ Hmono]. rewrite List.Forall_map in Hmono.
    constructor; [done|]. apply (Forall_impl _ _ _ Hmono). intros; by apply floorToMicro_mono. }
  assert (forall sk, log_of ∅ sk = []) as Hnil by (intros sk; unfold log_of; by rewrite lookup_empty).
  pose proof (run_window k w L ops 0 T ∅ (NewInMemory mk mw) Hw ltac:(lia) ltac:(lia)) as H.
  rewrite Hnil in H. cbn [map app] in H. apply H; try done.
  split; [apply Rel_empty | intros sk; by rewrite Hnil | by rewrite Hnil |].
  intros t'. rewrite Hnil. cbn. lia.
Qed.

(** Three calls a second apart under a limit of two per minute, with a sweep between:
    the third is refused. *)
Definition demo_call (c : time) : op :=
  OpAdmit c [mkBucket "k" 60 true f_zero (of_Z 2)].
Definition demo_run : list op :=
  [demo_call 1000000000; OpSweep 1500000000 [storageKey "k" 60];
   demo_call 2000000000; demo_call 3000000000].

Lemma sliding_window_quota_witness :
  Z.of_nat (in_window (60 * second) 4000000000
              (admissions (storageKey "k" 60) (NewInMemory 0 0) demo_run)) <= 2 /\
  admissions (storageKey "k" 60) (NewInMemory 0 0) demo_run = [1000000000; 2000000000].
Proof.
  split; [| vm_compute; reflexivity].
  apply (sliding_window_quota "k" 60 2 demo_run 0 0 4000000000).
  - reflexivity.
  - vm_compute; intuition discriminate.
  - vm_compute; reflexivity.
  - repeat constructor; vm_compute; discriminate.
  - repeat constructor.
Defined.

(** ** IncrementAndGet *)

Lemma drop_snoc {A} k (l : list A) x :
  (k <= length l)%nat -> drop k (l ++ [x]) = drop k l ++ [x].
Proof. intros H. by rewrite drop_app_le. Qed.

Lemma increment_visible clock clock' m m' k w maxE n :
  IncrementAndGet clock m k w maxE = (m', Ok n) ->
  floorToMicro clock <= floorToMicro clock' < floorToMicro clock + w * second ->
  1 <= n <= maxE /\ exists c, Peek clock' m' k w = Ok c /\ 1 <= c <= n.
Proof.
  unfold IncrementAndGet, Peek. intros H Hin.
  destruct (checkWindowSec w) eqn:Hw; [done|].
  destruct (checkMaxEntries maxE) eqn:Hm; [done|].
  assert (1 <= maxE) by (revert Hm; unfold checkMaxEntries; destruct (Z.ltb_spec maxE 1); [done | lia]).
  set (now := floorToMicro clock) in *.
  destruct (match entries m !! storageKey k w with Some e => _ | None => _ end) as [e|err];
    [| done].
  destruct (pruneInWindow e (cutoff_of now w)) as [[v vw] wt].
  destruct (appendCall v vw now f_one wt) as [ts ws] eqn:Ea.
  assert (ts = v ++ [now]) as -> by (unfold appendCall in Ea; destruct wt; by injection Ea).
  destruct (trimOldest (v ++ [now]) ws maxE) as [ts ws'] eqn:Et.
  assert (exists v', ts = v' ++ [now] /\ Z.of_nat (length ts) <= maxE) as (v' & Hts & Hlen).
  { revert Et. unfold trimOldest. rewrite length_app. cbn [length].
    destruct (Z.leb_spec (Z.of_nat (length v + 1)) maxE); intros [= <- _].
    - exists v. rewrite length_app. cbn. split; [done | lia].
    - rewrite drop_snoc by lia. eexists. split; [done|].
      rewrite length_app, length_drop. cbn. lia. }
  injection H as <- <-. rewrite Hts, length_app in *. cbn [length] in *. split; [lia|].
  cbn [entries set_entries]. rewrite lookup_insert_eq. cbn [timestamps storeEntry].
  eexists. split; [done|]. rewrite count_loop, cutoff_exact, filter_app by done.
  rewrite filter_cons_True, filter_nil by lia. rewrite length_app. cbn [length].
  pose proof (length_filter (fun t => floorToMicro clock' - w * second < t) v'). lia.
Qed.

(** A recorded call stays visible for its whole window.  IncrementAndGet returns a
    count between 1 and [maxEntries], and every Peek until the window has passed counts
    at least the call just recorded and no more than the count returned. *)
Theorem recorded_call_visible clock clock' m m' k w maxE n :
  IncrementAndGet clock m k w maxE = (m', Ok n) ->
  floorToMicro clock <= floorToMicro clock' < floorToMicro clock + w * second ->
  1 <= n <= maxE /\ exists c, Peek clock' m' k w = Ok c /\ 1 <= c <= n.
Proof. apply increment_visible. Qed.

Lemma recorded_call_visible_witness :
  exists c, Peek 30000000000
              (IncrementAndGet 5000000000 (NewInMemory 0 0) "seq" 60 10).1 "seq" 60 = Ok c
            /\ 1 <= c <= 1.
Proof.
  apply (recorded_call_visible 5000000000 30000000000 (NewInMemory 0 0)
           (IncrementAndGet 5000000000 (NewInMemory 0 0) "seq" 60 10).1 "seq" 60 10 1).
  - vm_compute; reflexivity.
  - vm_compute; intuition discriminate.
Defined.

(** ** The ceiling on live entries *)

Lemma insert_size_le {A} (es : gmap string A) k v : (size (<[ k := v ]> es) <= S (size es))%nat.
Proof. destruct (es !! k) eqn:E; [rewrite map_size_insert_Some by (by eexists) | rewrite map_size_insert_None by done]; lia. Qed.

Lemma observeBucket_dom now es b :
  let '(es', st) := observeBucket now es b in
  dom es' = dom es /\ (st_e st = true -> st_sk st ∈ dom es').
Proof.
  unfold observeBucket. destruct (es !! storageKey (Key b) (WindowSec b)) as [e|] eqn:E; [| done].
  destruct (pruneInWindow e _) as [[v vw] wt]. cbn [st_e st_sk].
  apply elem_of_dom_2 in E. rewrite dom_insert_L. set_solver.
Qed.

Lemma observeAll_dom now bs : forall es i blk,
  let '(es', sts, _) := observeAll now es i blk bs in
  dom es' = dom es /\ Forall (fun st => st_e st = true -> st_sk st ∈ dom es') sts.
Proof.
  induction bs as [|b bs IH]; intros es i blk; cbn [observeAll]; [done|].
  pose proof (observeBucket_dom now es b) as Hb.
  destruct (observeBucket now es b) as [es1 st]. destruct Hb as [Hd He].
  specialize (IH es1 (i + 1) (if (blk <? 0) && noHeadroom st then i else blk)).
  destruct (observeAll now es1 _ _ bs) as [[es2 sts] bl]. destruct IH as [Hd2 Hs].
  split; [congruence|]. constructor; [| done]. intros Hst. rewrite Hd2. by apply He.
Qed.

Lemma commitBucket_size now es st :
  (st_e st = true -> st_sk st ∈ dom es) ->
  dom es ⊆ dom (commitBucket now es st) /\
  Z.of_nat (size (commitBucket now es st))
  <= Z.of_nat (size es) + (if st_record st && negb (st_e st) then 1 else 0).
Proof.
  intros Hin. unfold commitBucket. destruct (st_record st); cbn [negb andb]; [| split; [done | lia]].
  destruct (appendCall _ _ _ _ _) as [ts ws].
  split; [rewrite dom_insert_L; set_solver|].
  destruct (st_e st); cbn [negb].
  - apply elem_of_dom in Hin as [e He]; [| done].
    rewrite map_size_insert_Some by (by eexists). lia.
  - match goal with |- context [size (<[ ?a := ?b ]> es)] =>
      pose proof (insert_size_le es a b) end. lia.
Qed.

Lemma newKeys_acc sts n :
  fold_left (fun n st => if st_record st && negb (st_e st) then n + 1 else n) sts n
  = n + newKeysOf sts.
Proof.
  unfold newKeysOf. revert n. induction sts as [|st sts IH]; intros n; cbn [fold_left]; [lia|].
  destruct (st_record st && negb (st_e st)); [| by rewrite IH, (IH 0)].
  rewrite IH, (IH (0 + 1)). lia.
Qed.

Lemma commitAll_size now sts : forall es,
  Forall (fun st => st_e st = true -> st_sk st ∈ dom es) sts ->
  Z.of_nat (size (fold_left (commitBucket now) sts es)) <= Z.of_nat (size es) + newKeysOf sts.
Proof.
  induction sts as [|st sts IH]; intros es Hs; cbn [fold_left]; [unfold newKeysOf; cbn; lia|].
  apply Forall_cons in Hs as [Hst Hs].
  destruct (commitBucket_size now es st Hst) as [Hd Hsz].
  assert (Forall (fun st' => st_e st' = true -> st_sk st' ∈ dom (commitBucket now es st)) sts)
    as Hs' by (apply (Forall_impl _ _ _ Hs); set_solver).
  specialize (IH _ Hs'). unfold newKeysOf at 1. cbn [fold_left]. rewrite newKeys_acc.
  destruct (st_record st && negb (st_e st)); lia.
Qed.

Lemma sweep_size clock keys : forall es,
  (size (fold_left (cleanupDelete clock) keys es) <= size es)%nat.
Proof.
  induction keys as [|k keys IH]; intros es; cbn [fold_left]; [done|].
  etransitivity; [apply IH|]. unfold cleanupDelete. destruct (es !! k) as [e|] eqn:E; [| done].
  destruct (shouldDeleteEntry e clock); [| done].
  rewrite map_size_delete_Some by (by eexists). lia.
Qed.

Definition within_ceiling (m : InMemory) : Prop := Z.of_nat (size (entries m)) <= maxKeys m.

(** The ceiling on live storage entries is never exceeded: with [maxKeys] set,
    every operation of the counter keeps the number of entries at or below it, a batch
    that creates several entries at once included. *)
Theorem entries_bounded m clock bs k w maxE keys :
  0 < maxKeys m -> within_ceiling m ->
  within_ceiling (AdmitAll clock m bs).1 /\
  within_ceiling (IncrementAndGet clock m k w maxE).1 /\
  within_ceiling (cleanupSweep clock keys m).
Proof.
  unfold within_ceiling. intros Hpos Hin. split_and!.
  - unfold AdmitAll. destruct (checkBuckets bs); [done|].
    pose proof (observeAll_dom (floorToMicro clock) bs (entries m) 0 (-1)) as Hob.
    destruct (observeAll _ _ _ _ bs) as [[es sts] bl]. destruct Hob as [Hd Hs].
    assert (size es = size (entries m)) as Hsz by (rewrite <- !size_dom; by rewrite Hd).
    destruct (if 0 <=? bl then sts !! Z.to_nat bl else None) as [st|];
      [cbn; by rewrite Hsz|].
    cbn [set_entries maxKeys entries]. rewrite (proj2 (Z.ltb_lt 0 (maxKeys m))) by done.
    cbn [andb]. destruct (Z.ltb_spec (maxKeys m) (Z.of_nat (size es) + newKeysOf sts));
      [cbn; by rewrite Hsz|].
    destruct (existsb _ _); cbn [fst entries maxKeys set_entries]; [by rewrite Hsz|].
    pose proof (commitAll_size (floorToMicro clock) sts es Hs). lia.
  - unfold IncrementAndGet, admitNewKey.
    destruct (checkWindowSec w); [done|]. destruct (checkMaxEntries maxE); [done|].
    rewrite (proj2 (Z.ltb_lt 0 (maxKeys m))) by done. cbn [andb].
    destruct (entries m !! storageKey k w) as [e|] eqn:E; cbv iota.
    2: destruct (Z.leb_spec (maxKeys m) (Z.of_nat (size (entries m)))); [done|].
    all: repeat match goal with |- context [let '(_, _) := ?x in _] => destruct x end.
    all: cbn [fst entries maxKeys set_entries].
    + rewrite map_size_insert_Some by (by eexists). lia.
    + rewrite map_size_insert_None by done. lia.
  - unfold cleanupSweep. cbn [entries maxKeys set_entries].
    pose proof (sweep_size clock keys (entries m)). lia.
Qed.

Lemma entries_bounded_witness :
  within_ceiling (AdmitAll 5000000000 (NewInMemory 1 0) demo_batch).1 /\
  (AdmitAll 5000000000 (NewInMemory 1 0) demo_batch).2 = Err ErrEntryLimit.
Proof.
  split; [| vm_compute; reflexivity].
  apply (entries_bounded (NewInMemory 1 0) 5000000000 demo_batch "k" 60 5 []).
  - reflexivity.
  - vm_compute; discriminate.
Defined.

(** ** Validation, read declaratively *)

Definition finite (f : float64) : Prop := is_nan f = false /\ is_inf f = false.

Definition bucket_ok (b : QuotaBucket) : Prop :=
  1 <= WindowSec b <= max_int64 / (2 * second) /\
  finite (Limit b) /\ f_lt f_zero (Limit b) = true /\ f_le (Limit b) MaxWeightedTotal = true /\
  if Counted b then f_le f_one (Limit b) = true /\ f_is_whole (Limit b) = true
  else finite (Weight b) /\ f_le f_zero (Weight b) = true /\
       f_le (Weight b) MaxWeightedTotal = true.

Lemma f_gt_le x y : is_nan x = false -> is_nan y = false -> f_gt x y = negb (f_le x y).
Proof. intros Hx Hy. unfold f_gt. change (SFltb y x) with (f_lt y x). by apply f_lt_le. Qed.

Lemma checkBucket_spec b : checkBucket b = None <-> bucket_ok b.
Proof.
  unfold checkBucket, bucket_ok. rewrite <- checkWindowSec_range.
  destruct (checkWindowSec (WindowSec b)); [split; [done | by intros [? _]]|].
  unfold checkTotalLimit, finite.
  destruct (is_nan (Limit b)) eqn:En; [split; [done | by intros (_ & [? _] & _)]|].
  destruct (is_inf (Limit b)) eqn:Ei; [split; [done | by intros (_ & [_ ?] & _)]|].
  cbn [orb]. rewrite (f_lt_le f_zero (Limit b)), f_gt_le by done.
  destruct (f_le (Limit b) f_zero); [split; [done | naive_solver]|].
  destruct (f_le (Limit b) MaxWeightedTotal); [| split; [done | naive_solver]].
  cbn [negb]. destruct (Counted b).
  - unfold checkCountedLimit. rewrite f_lt_le by done.
    destruct (f_le f_one (Limit b)), (f_is_whole (Limit b)); cbn; naive_solver.
  - unfold checkWeight. destruct (is_nan (Weight b)) eqn:Ewn, (is_inf (Weight b)) eqn:Ewi;
      cbn [orb]; try (split; [done | naive_solver]).
    rewrite f_lt_le, f_gt_le by done.
    destruct (f_le f_zero (Weight b)), (f_le (Weight b) MaxWeightedTotal); cbn; naive_solver.
Qed.

Lemma NoDup_map_inj_on {A B C} (f : A -> B) (g : A -> C) l :
  (forall x y, f x = f y <-> g x = g y) -> NoDup (map f l) <-> NoDup (map g l).
Proof.
  intros Hfg. induction l as [|x l IH]; cbn [map]; [split; constructor|].
  rewrite !NoDup_cons, IH. f_equiv.
  split; intros Hni Hin; apply Hni; apply list_elem_of_fmap in Hin as (y & Hy & Hel);
    apply Hfg in Hy; rewrite Hy; by apply list_elem_of_fmap_2.
Qed.

(** A batch passes validation exactly when it is non-empty, every bucket has a window
    whose doubled duration fits an int64 number of nanoseconds, a finite positive limit of
    at most 2^53 (whole and at least one when calls are counted, otherwise with a finite
    non-negative weight of at most 2^53), and no two buckets share key and window. *)
Theorem checkBuckets_accepts bs :
  checkBuckets bs = None <->
  bs <> [] /\ Forall bucket_ok bs /\ NoDup (map (fun b => (Key b, WindowSec b)) bs).
Proof.
  rewrite (NoDup_map_inj_on (fun b => (Key b, WindowSec b)) b_sk).
  2:{ intros x y. unfold b_sk. split; [by intros [= -> ->] | intros H].
      apply storageKey_inj in H as [-> ->]. done. }
  rewrite <- (Forall_iff _ _ _ checkBucket_spec), <- checkEach_spec.
  unfold checkBuckets, checkDistinctBuckets. destruct bs as [|b bs]; [split; [done | by intros [? _]]|].
  destruct (checkEach (b :: bs)); [split; [done | by intros (_ & ? & _)]|].
  rewrite checkDistinct_spec. split; [by intros [? _] | intros (_ & _ & H)].
  split; [done|]. apply Forall_true. set_solver.
Qed.

End CallCounter.
