(* ===== verification/FlowLabelStore.v ===== *)
(** * The flow-label store

    pkg/flowlabelstore/memory.go: the in-process store of the labels (taint) each anchor
    has accumulated.  Each exported method holds the store's lock for its body; Cleanup
    is a scan followed by batches that re-check each key.  The clock is an argument.  The
    warnings the store logs are the [log] of the state, newest first, so that the latches
    that rate-limit them are observable. *)
From stdpp Require Import base tactics list gmap strings fin_maps fin_sets.
From Stdlib Require Import ZArith Lia SpecFloat.
From S2P Require Import Prelude GoStrings Float64.
#[local] Open Scope Z_scope.

Module FlowLabelStore.

Definition DefaultCleanupInterval : duration := 5 * 60 * second.

(** The double nearest to 0.9. *)
Definition pressureWarnFraction : float64 := S754_finite false 8106479329266893 (-53).

Record labelSet := mkSet {
  labels : gset string;
  touched : Z;           (** Unix nanoseconds *)
}.

Inductive warning :=
| WarnAtCeiling (live_keys : Z)
| WarnApproachingCeiling (live_keys : Z).

Record InMemory := mkStore {
  sets : gmap string labelSet;
  maxKeys : Z;
  ttl : duration;
  lastReclaim : time;
  logger : bool;         (** a logger is wired *)
  pressureWarned : bool;
  refusalWarned : bool;
  log : list warning;
}.

Definition NewInMemory (maxKeys : Z) (ttl : duration) (logger : bool) : InMemory :=
  mkStore ∅ maxKeys ttl zero_time logger false false [].

Definition set_sets (m : InMemory) (s : gmap string labelSet) : InMemory :=
  mkStore s (maxKeys m) (ttl m) (lastReclaim m) (logger m) (pressureWarned m)
    (refusalWarned m) (log m).
Definition set_lastReclaim (m : InMemory) (t : time) : InMemory :=
  mkStore (sets m) (maxKeys m) (ttl m) t (logger m) (pressureWarned m) (refusalWarned m) (log m).
Definition set_refusalWarned (m : InMemory) (b : bool) : InMemory :=
  mkStore (sets m) (maxKeys m) (ttl m) (lastReclaim m) (logger m) (pressureWarned m) b (log m).
Definition set_pressureWarned (m : InMemory) (b : bool) : InMemory :=
  mkStore (sets m) (maxKeys m) (ttl m) (lastReclaim m) (logger m) b (refusalWarned m) (log m).
Definition emit (m : InMemory) (w : warning) : InMemory :=
  mkStore (sets m) (maxKeys m) (ttl m) (lastReclaim m) (logger m) (pressureWarned m)
    (refusalWarned m) (w :: log m).

(** [t.UnixNano()]. *)
Definition unix_nano (t : time) : Z := wrap_int64 t.

Definition idleFor (l : labelSet) (now : time) : duration := time_sub now (touched l).

Definition effectiveTTL (m : InMemory) : duration :=
  if ttl m <=? 0 then 0 else if ttl m <? second then second else ttl m.

Definition idleReclamation (m : InMemory) : bool := 0 <? effectiveTTL m.

Definition live (m : InMemory) (anchorKey : string) (now : time) : option labelSet :=
  match sets m !! anchorKey with
  | None => None
  | Some set =>
      let ttl := effectiveTTL m in
      if (0 <? ttl) && (ttl <=? idleFor set now) then None else Some set
  end.

Definition live_keys (m : InMemory) : Z := Z.of_nat (size (sets m)).

Definition reclaimIdle (m : InMemory) (now : time) : InMemory * bool :=
  let ttl := effectiveTTL m in
  if (ttl <=? 0) || (time_sub now (lastReclaim m) <? DefaultCleanupInterval) then (m, false)
  else
    let m := set_lastReclaim m now in
    (set_sets m (filter (fun p => idleFor p.2 now < ttl) (sets m)), true).

Definition warnAtCeiling (m : InMemory) : InMemory :=
  if negb (logger m) || refusalWarned m then m
  else emit (set_refusalWarned m true) (WarnAtCeiling (live_keys m)).

Definition warnApproachingCeiling (m : InMemory) : InMemory :=
  if negb (logger m) || (maxKeys m <=? 0) then m
  else
    let threshold := default 0 (f_trunc (f_mul (of_Z (maxKeys m)) pressureWarnFraction)) in
    if live_keys m <? threshold then set_pressureWarned m false
    else if pressureWarned m then m
    else emit (set_pressureWarned m true) (WarnApproachingCeiling (live_keys m)).

Inductive error := ErrSessionLimit.

Definition admitNewKey (m : InMemory) (now : time) : InMemory * option error :=
  if (maxKeys m <=? 0) || (live_keys m <? maxKeys m) then (set_refusalWarned m false, None)
  else
    let '(m, ran) := reclaimIdle m now in
    if ran && (live_keys m <? maxKeys m) then (set_refusalWarned m false, None)
    else (warnAtCeiling m, Some ErrSessionLimit).

(** [m.sets[anchorKey] = set], the pointer's fields included. *)
Definition put (m : InMemory) (k : string) (s : labelSet) : InMemory :=
  set_sets m (<[ k := s ]> (sets m)).

Definition Add (now : time) (m : InMemory) (anchorKey : string) (ls : list string)
    : InMemory * option error :=
  match ls with
  | [] => (m, None)
  | _ =>
    let union s := mkSet (list_to_set ls ∪ labels s) (unix_nano now) in
    match live m anchorKey now with
    | Some set => (put m anchorKey (union set), None)
    | None =>
        let m := set_sets m (delete anchorKey (sets m)) in
        match admitNewKey m now with
        | (m, Some err) => (m, Some err)
        | (m, None) =>
            let set := mkSet ∅ (unix_nano now) in
            let m := warnApproachingCeiling (put m anchorKey set) in
            (put m anchorKey (union set), None)
        end
    end
  end.

Definition Get (now : time) (m : InMemory) (anchorKey : string) : InMemory * list string :=
  match live m anchorKey now with
  | None => (m, [])
  | Some set =>
      (put m anchorKey (mkSet (labels set) (unix_nano now)),
       sort_strings (elements (labels set)))
  end.

Definition Remove (now : time) (m : InMemory) (anchorKey : string) (ls : list string)
    : InMemory :=
  match ls with
  | [] => m
  | _ =>
    match live m anchorKey now with
    | None => set_sets m (delete anchorKey (sets m))
    | Some set =>
        let rest := labels set ∖ list_to_set ls in
        if (size rest =? 0)%nat then set_sets m (delete anchorKey (sets m))
        else put m anchorKey (mkSet rest (touched set))
    end
  end.

Definition Clear (m : InMemory) (anchorKey : string) : InMemory :=
  set_sets m (delete anchorKey (sets m)).

Definition Len (m : InMemory) : Z := live_keys m.

(** ** Cleanup *)

Definition cleanupDeleteBatch : nat := 1024.

Definition cleanupScan (now : time) (m : InMemory) : list string :=
  map fst (map_to_list (filter (fun p => effectiveTTL m <= idleFor p.2 now) (sets m))).

Definition cleanupDelete (now : time) (m : InMemory) (key : string) : InMemory :=
  match sets m !! key with
  | Some set =>
      if effectiveTTL m <=? idleFor set now then set_sets m (delete key (sets m)) else m
  | None => m
  end.

(** One batch under the write lock. *)
Definition cleanupSweep (now : time) (keys : list string) (m : InMemory) : InMemory :=
  fold_left (cleanupDelete now) keys m.

Fixpoint cleanupBatches (fuel : nat) (now : nat -> time) (i : nat) (keys : list string)
    (m : InMemory) : InMemory :=
  match fuel with
  | O => m
  | S fuel =>
      match keys with
      | [] => m
      | _ => cleanupBatches fuel now (S i) (drop cleanupDeleteBatch keys)
               (cleanupSweep (now i) (take cleanupDeleteBatch keys) m)
      end
  end.

Definition Cleanup (now0 : time) (now : nat -> time) (m : InMemory) : InMemory :=
  if effectiveTTL m <=? 0 then m
  else
    let stale := cleanupScan now0 m in
    cleanupBatches (length stale) now 0 stale m.

(** ** Observation *)

(** The taint a reader at [now] sees. *)
Definition taint (now : time) (m : InMemory) (k : string) : gset string :=
  from_option labels ∅ (live m k now).

Lemma Get_taint now m k l : l ∈ (Get now m k).2 <-> l ∈ taint now m k.
Proof.
  unfold Get, taint. destruct (live m k now) as [set|]; cbn [snd from_option].
  - by rewrite elem_of_sort_strings, elem_of_elements.
  - set_solver.
Qed.

(** The configuration never changes. *)
Definition same_config (m m' : InMemory) : Prop :=
  maxKeys m' = maxKeys m /\ ttl m' = ttl m.

Lemma effectiveTTL_config m m' : same_config m m' -> effectiveTTL m' = effectiveTTL m.
Proof. intros [_ H]. unfold effectiveTTL. by rewrite H. Qed.

Lemma effectiveTTL_range m : in_int64 (ttl m) -> 0 <= effectiveTTL m <= max_int64.
Proof.
  unfold effectiveTTL, in_int64, min_int64, max_int64, two63, second. intros H.
  repeat case_match; bools; lia.
Qed.

Lemma live_off m k now : ttl m <= 0 -> live m k now = sets m !! k.
Proof.
  intros H. unfold live, effectiveTTL. rewrite (proj2 (Z.leb_le (ttl m) 0)) by done.
  by destruct (sets m !! k).
Qed.

(** [live] reads one entry of the map and the configuration. *)
Lemma live_frame m m' k now :
  same_config m m' -> sets m' !! k = sets m !! k -> live m' k now = live m k now.
Proof. intros Hc Hk. unfold live. by rewrite Hk, (effectiveTTL_config _ _ Hc). Qed.

(** ** The invariant: no empty sets, and no more keys than the ceiling *)

Record wf (m : InMemory) : Prop := {
  wf_nonempty : map_Forall (fun _ s => labels s <> ∅) (sets m);
  wf_ceiling : 0 < maxKeys m -> live_keys m <= maxKeys m;
}.

Lemma filter_size {A} (P : string * A -> Prop) `{!forall x, Decision (P x)} (s : gmap string A) :
  (size (filter P s) <= size s)%nat.
Proof. apply map_subseteq_size, map_filter_subseteq. Qed.

Lemma delete_size {A} (s : gmap string A) k : (size (delete k s) <= size s)%nat.
Proof. apply map_subseteq_size, delete_subseteq. Qed.

Lemma reclaimIdle_spec m now :
  let '(m', _) := reclaimIdle m now in
  same_config m m' /\ sets m' ⊆ sets m /\ log m' = log m.
Proof.
  unfold reclaimIdle. destruct (_ || _); [done|]. cbn. split_and!; try done.
  apply map_filter_subseteq.
Qed.

Lemma warn_sets m : sets (warnAtCeiling m) = sets m /\ same_config m (warnAtCeiling m).
Proof. unfold warnAtCeiling. by destruct (_ || _). Qed.

Lemma warnApproaching_sets m :
  sets (warnApproachingCeiling m) = sets m /\ same_config m (warnApproachingCeiling m).
Proof. unfold warnApproachingCeiling. repeat case_match; done. Qed.

Lemma admitNewKey_spec m now :
  let '(m', r) := admitNewKey m now in
  same_config m m' /\ sets m' ⊆ sets m /\
  (r = None -> 0 < maxKeys m -> live_keys m' < maxKeys m).
Proof.
  unfold admitNewKey. destruct (_ || _) eqn:E.
  - cbn. split_and!; try done. intros _ Hpos. apply orb_prop in E as [E|E]; bools; unfold live_keys in *; cbn in *; lia.
  - pose proof (reclaimIdle_spec m now) as Hr.
    destruct (reclaimIdle m now) as [m1 ran]. destruct Hr as ([Hc1 Hc2] & Hsub & _).
    destruct (ran && _) eqn:Er; cbn.
    + split_and!; try done. intros _ Hpos. bools. rewrite Hc1 in *. done.
    + destruct (warn_sets m1) as [Hs [Hw1 Hw2]]. rewrite Hs. split_and!; try done.
      split; congruence.
Qed.

Lemma sub_nonempty (s s' : gmap string labelSet) :
  s' ⊆ s -> map_Forall (fun _ x => labels x <> ∅) s -> map_Forall (fun _ x => labels x <> ∅) s'.
Proof. intros Hsub H k x Hk. apply (H k). by eapply lookup_weaken. Qed.

Lemma list_to_set_cons_ne (l : string) ls (X : gset string) : list_to_set (l :: ls) ∪ X <> ∅.
Proof. set_solver. Qed.

Lemma wf_sub m m' : same_config m m' -> sets m' ⊆ sets m -> wf m -> wf m'.
Proof.
  intros [Hc _] Hsub [H1 H2]. split; [by eapply sub_nonempty|]. intros Hpos.
  apply map_subseteq_size in Hsub. unfold live_keys in *. rewrite Hc in *.
  specialize (H2 Hpos). lia.
Qed.

Lemma put_size m k s :
  live_keys (put m k s) = live_keys m + (if decide (k ∈ dom (sets m)) then 0 else 1).
Proof.
  unfold live_keys, put. cbn [sets set_sets].
  destruct (sets m !! k) eqn:E.
  - rewrite decide_True by (by apply elem_of_dom_2 in E).
    rewrite map_size_insert_Some by (by eexists). lia.
  - rewrite decide_False by (by apply not_elem_of_dom). rewrite map_size_insert_None by done. lia.
Qed.

Lemma put_wf m k s :
  wf m -> labels s <> ∅ ->
  (0 < maxKeys m -> k ∈ dom (sets m) \/ live_keys m < maxKeys m) -> wf (put m k s).
Proof.
  intros [H1 H2] Hne Hroom. split.
  - cbn [put sets set_sets]. by apply map_Forall_insert_2.
  - cbn [put maxKeys set_sets]. intros Hpos. change (mkStore _ _ _ _ _ _ _ _) with (put m k s).
    rewrite put_size. specialize (H2 Hpos). destruct (Hroom Hpos) as [Hin|]; [| case_decide; lia].
    rewrite decide_True by done. lia.
Qed.

Lemma live_in m k now s : live m k now = Some s -> sets m !! k = Some s.
Proof. unfold live. destruct (sets m !! k) as [s'|]; [| done]. by case_match. Qed.

(** The state Add installs for a key that was absent or idled out. *)
Lemma Add_new_shape now m k l ls :
  live m k now = None ->
  match Add now m k (l :: ls) with
  | (m', Some _) => same_config m m' /\ sets m' ⊆ delete k (sets m)
  | (m', None) =>
      same_config m m' /\
      exists m1, sets m' = <[ k := mkSet (list_to_set (l :: ls)) (unix_nano now) ]> (sets m1) /\
                 sets m1 ⊆ delete k (sets m) /\ same_config m m1 /\
                 (0 < maxKeys m -> live_keys m1 < maxKeys m)
  end.
Proof.
  intros Hl. unfold Add. rewrite Hl.
  set (m0 := set_sets m (delete k (sets m))).
  pose proof (admitNewKey_spec m0 now) as Ha.
  destruct (admitNewKey m0 now) as [m1 [err|]]; destruct Ha as ([Hc1 Hc2] & Hsub & Hroom).
  - split; [split; [exact Hc1 | exact Hc2] | exact Hsub].
  - destruct (warnApproaching_sets (put m1 k (mkSet ∅ (unix_nano now)))) as [Hs [Hw1 Hw2]].
    split; [split|].
    + cbn [put maxKeys set_sets]. rewrite Hw1. exact Hc1.
    + cbn [put ttl set_sets]. rewrite Hw2. exact Hc2.
    + exists m1. split_and!; [| exact Hsub | split; [exact Hc1 | exact Hc2] | by apply Hroom].
      cbn [put sets set_sets]. rewrite Hs. cbn [put sets set_sets labels].
      rewrite insert_insert_eq. by rewrite union_empty_r_L.
Qed.

Lemma Add_wf now m k ls : wf m -> wf (Add now m k ls).1.
Proof.
  intros Hwf. destruct ls as [|l ls]; [done|].
  destruct (live m k now) as [s|] eqn:Hl.
  - unfold Add. rewrite Hl. cbn [fst]. apply put_wf; [done | apply list_to_set_cons_ne |].
    intros _. left. apply live_in in Hl. by apply elem_of_dom_2 in Hl.
  - pose proof (Add_new_shape now m k l ls Hl) as H.
    destruct (Add now m k (l :: ls)) as [m' [err|]]; cbn [fst].
    + destruct H as [Hc Hsub]. apply (wf_sub m); [done | | done].
      etransitivity; [exact Hsub | apply delete_subseteq].
    + destruct H as ([Hc1 Hc2] & m1 & Hs & Hsub & [Hd1 Hd2] & Hroom).
      assert (wf m1) as Hwf1.
      { apply (wf_sub m); [done | | done]. etransitivity; [exact Hsub | apply delete_subseteq]. }
      assert (wf (put m1 k (mkSet (list_to_set (l :: ls)) (unix_nano now)))) as [H1 H2].
      { apply put_wf; [done | cbn [labels]; set_solver |]. right. rewrite Hd1 in *. by apply Hroom. }
      cbn [put sets set_sets maxKeys] in H1, H2. split; [by rewrite Hs|].
      unfold live_keys in *. cbn [sets] in H2. rewrite Hs, Hc1, <- Hd1. exact H2.
Qed.

Lemma Remove_wf now m k ls : wf m -> wf (Remove now m k ls).
Proof.
  intros Hwf. unfold Remove. destruct ls as [|l ls]; [done|].
  destruct (live m k now) as [s|] eqn:Hl.
  2:{ apply (wf_sub m); [done | apply delete_subseteq | done]. }
  destruct (Nat.eqb_spec (size (labels s ∖ list_to_set (l :: ls))) 0) as [E|E].
  - apply (wf_sub m); [done | apply delete_subseteq | done].
  - apply put_wf; [done | |].
    + cbn [labels]. intros Hnil. rewrite Hnil in E. by rewrite size_empty in E.
    + intros _. left. apply live_in in Hl. by apply elem_of_dom_2 in Hl.
Qed.

Lemma Get_wf now m k : wf m -> wf (Get now m k).1.
Proof.
  intros Hwf. unfold Get. destruct (live m k now) as [s|] eqn:Hl; [| done].
  apply live_in in Hl. cbn [fst]. apply put_wf; [done | by apply (wf_nonempty _ Hwf k s) |].
  intros _. left. by apply elem_of_dom_2 in Hl.
Qed.

Lemma cleanupDelete_sub now m k :
  same_config m (cleanupDelete now m k) /\ sets (cleanupDelete now m k) ⊆ sets m.
Proof.
  unfold cleanupDelete. destruct (sets m !! k); [| done]. case_match; [| done].
  split; [done | apply delete_subseteq].
Qed.

Lemma cleanupSweep_sub now keys : forall m,
  same_config m (cleanupSweep now keys m) /\ sets (cleanupSweep now keys m) ⊆ sets m.
Proof.
  unfold cleanupSweep. induction keys as [|k keys IH]; intros m; cbn [fold_left]; [done|].
  destruct (IH (cleanupDelete now m k)) as [[Hc1 Hc2] Hs].
  destruct (cleanupDelete_sub now m k) as [[Hd1 Hd2] Hds].
  split; [split; congruence | by etransitivity].
Qed.


(** ** Operations of a run

    [OpSweep] is one batch of a Cleanup pass, which starts only when idle reclamation
    is configured; its keys are whatever an earlier scan collected. *)

Inductive op :=
| OpAdd (now : time) (k : string) (ls : list string)
| OpGet (now : time) (k : string)
| OpRemove (now : time) (k : string) (ls : list string)
| OpClear (k : string)
| OpSweep (now : time) (keys : list string).

Definition exec (m : InMemory) (o : op) : InMemory :=
  match o with
  | OpAdd now k ls => (Add now m k ls).1
  | OpGet now k => (Get now m k).1
  | OpRemove now k ls => Remove now m k ls
  | OpClear k => Clear m k
  | OpSweep now keys => if effectiveTTL m <=? 0 then m else cleanupSweep now keys m
  end.

Lemma exec_wf m o : wf m -> wf (exec m o).
Proof.
  destruct o as [now k ls|now k|now k ls|k|now keys]; cbn [exec]; intros Hwf.
  - by apply Add_wf.
  - by apply Get_wf.
  - by apply Remove_wf.
  - apply (wf_sub m); [done | apply delete_subseteq | done].
  - case_match; [done|]. destruct (cleanupSweep_sub now keys m) as [Hc Hs].
    by apply (wf_sub m).
Qed.

Lemma NewInMemory_wf mk d lg : wf (NewInMemory mk d lg).
Proof.
  split; [by intros ? ? ?|]. unfold live_keys, NewInMemory. cbn [sets maxKeys].
  rewrite map_size_empty. lia.
Qed.

(** On every sequence of store operations from an empty store, no anchor holds an
    empty label set (an anchor without taint is absent) and the number of anchors held
    never exceeds the configured ceiling. *)
Theorem store_invariant mk d lg ops :
  let m := fold_left exec ops (NewInMemory mk d lg) in
  map_Forall (fun _ s => labels s <> ∅) (sets m) /\
  (0 < mk -> Len m <= mk).
Proof.
  cbv zeta. assert (forall m, wf m -> maxKeys m = mk -> wf (fold_left exec ops m) /\ maxKeys (fold_left exec ops m) = mk) as H.
  { induction ops as [|o ops IH]; intros m Hwf Hmk; cbn [fold_left]; [done|].
    apply IH; [by apply exec_wf|].
    destruct o as [now k ls|now k|now k ls|k|now keys]; cbn [exec].
    - destruct ls as [|l ls]; [done|]. destruct (live m k now) eqn:Hl.
      + unfold Add. by rewrite Hl.
      + pose proof (Add_new_shape now m k l ls Hl) as Ha.
        destruct (Add now m k (l :: ls)) as [m' [e|]]; cbn [fst];
          destruct Ha as [[Hc _] _]; congruence.
    - unfold Get. by destruct (live m k now).
    - unfold Remove. destruct ls; [done|]. destruct (live m k now); [| done]. by case_match.
    - done.
    - case_match; [done|]. destruct (cleanupSweep_sub now keys m) as [[Hc _] _]. congruence. }
  destruct (H _ (NewInMemory_wf mk d lg) eq_refl) as [[H1 H2] Hmk].
  split; [done|]. intros Hpos. rewrite Hmk in H2. by apply H2.
Qed.

(** ** Taint of other anchors *)

(** An entry of [s'] that was in [s], or one missing from [s'] that had idled out. *)
Definition kept (m m' : InMemory) (k : string) (now : time) : Prop :=
  sets m' !! k = sets m !! k \/
  (sets m' !! k = None /\ live m k now = None).

Lemma kept_live m m' k now now' :
  in_int64 (ttl m) -> same_config m m' -> kept m m' k now -> now <= now' ->
  live m' k now' = live m k now'.
Proof.
  intros Httl Hc [Hk|[Hnone Hl]] Hle; [by apply live_frame|].
  unfold live in *. rewrite Hnone. destruct (sets m !! k) as [s|]; [| done].
  pose proof (effectiveTTL_range m Httl).
  destruct (Z.ltb_spec 0 (effectiveTTL m)); cbn [andb] in *; [| done].
  destruct (Z.leb_spec (effectiveTTL m) (idleFor s now)) as [Hi|]; [| done].
  rewrite (proj2 (Z.leb_le _ _)); [done|]. unfold idleFor in *.
  rewrite time_sub_ge in * by lia. lia.
Qed.

Lemma reclaimIdle_kept m now k : kept m (reclaimIdle m now).1 k now.
Proof.
  unfold reclaimIdle. destruct (_ || _) eqn:E; [by left|]. bools. cbn [fst].
  unfold kept, live. cbn [sets set_sets set_lastReclaim].
  destruct (sets m !! k) as [s|] eqn:Hs.
  2:{ left. rewrite map_lookup_filter, Hs. done. }
  rewrite map_lookup_filter, Hs. cbn.
  rewrite (proj2 (Z.ltb_lt 0 _)) by done. cbn [andb].
  destruct (Z.leb_spec (effectiveTTL m) (idleFor s now)).
  - right. rewrite option_guard_False by (cbn; lia). done.
  - left. rewrite option_guard_True by (cbn; lia). done.
Qed.

Lemma admitNewKey_kept m now k : kept m (admitNewKey m now).1 k now.
Proof.
  unfold admitNewKey. destruct (_ || _); [by left|].
  pose proof (reclaimIdle_kept m now k) as H.
  destruct (reclaimIdle m now) as [m1 ran]. cbn [fst] in H.
  destruct (ran && _); cbn [fst]; [exact H|].
  destruct (warn_sets m1) as [Hs _]. unfold kept in *. by rewrite Hs.
Qed.

Lemma Add_other now m k ls k' : k' <> k -> kept m (Add now m k ls).1 k' now.
Proof.
  intros Hne. unfold Add. destruct ls as [|l ls]; [by left|].
  destruct (live m k now) as [s|].
  { left. cbn [fst put sets set_sets]. by rewrite lookup_insert_ne. }
  set (m0 := set_sets m (delete k (sets m))).
  pose proof (admitNewKey_kept m0 now k') as H.
  assert (kept m (admitNewKey m0 now).1 k' now) as H'.
  { unfold kept, live in *. cbn [m0 sets set_sets] in H. rewrite lookup_delete_ne in H by done.
    exact H. }
  destruct (admitNewKey m0 now) as [m1 [err|]]; cbn [fst] in *; [exact H'|].
  destruct (warnApproaching_sets (put m1 k (mkSet ∅ (unix_nano now)))) as [Hs _].
  unfold kept in *. cbn [put sets set_sets]. rewrite lookup_insert_ne by done.
  rewrite Hs. cbn [put sets set_sets]. by rewrite lookup_insert_ne.
Qed.

Lemma Add_config now m k ls : same_config m (Add now m k ls).1.
Proof.
  destruct ls as [|l ls]; [done|]. destruct (live m k now) as [s|] eqn:Hl.
  - unfold Add. by rewrite Hl.
  - pose proof (Add_new_shape now m k l ls Hl) as H.
    destruct (Add now m k (l :: ls)) as [m' [e|]]; apply H.
Qed.

Lemma Add_self now m k ls now' m' :
  in_int64 now -> in_int64 (ttl m) -> ls <> [] -> Add now m k ls = (m', None) ->
  (effectiveTTL m = 0 \/ now' - now < effectiveTTL m) ->
  live m' k now' = Some (mkSet (list_to_set ls ∪ taint now m k) now).
Proof.
  intros Hn Httl Hne HA Htime. destruct ls as [|l ls]; [done|].
  assert (sets m' !! k = Some (mkSet (list_to_set (l :: ls) ∪ taint now m k) now)) as Hk.
  { unfold taint. destruct (live m k now) as [s|] eqn:Hl.
    - unfold Add in HA. rewrite Hl in HA. injection HA as <-. cbn [put sets set_sets from_option].
      rewrite lookup_insert_eq. unfold unix_nano. by rewrite wrap_int64_id.
    - pose proof (Add_new_shape now m k l ls Hl) as H. rewrite HA in H.
      destruct H as (_ & m1 & -> & _). rewrite lookup_insert_eq.
      unfold unix_nano. rewrite wrap_int64_id by done. cbn [from_option].
      by rewrite union_empty_r_L. }
  pose proof (Add_config now m k (l :: ls)) as Hc. rewrite HA in Hc. cbn [fst] in Hc.
  unfold live. rewrite Hk, (effectiveTTL_config _ _ Hc).
  pose proof (effectiveTTL_range m Httl).
  destruct (Z.ltb_spec 0 (effectiveTTL m)); cbn [andb]; [| done].
  destruct (Z.leb_spec (effectiveTTL m) (idleFor (mkSet (list_to_set (l :: ls) ∪ taint now m k) now) now'))
    as [Hi|]; [| done].
  unfold idleFor in Hi. cbn [touched] in Hi. rewrite time_sub_ge in Hi by lia. lia.
Qed.

(** A successful Add taints its anchor and nothing else.  Until the idle bound (if
    any) has passed since the write, a reader of the anchor sees exactly the labels it
    held before together with the ones added, and a reader of any other anchor sees what
    it would have seen without the call. *)
Theorem Add_then_Get now now' m m' k ls :
  in_int64 now -> in_int64 (ttl m) -> ls <> [] ->
  Add now m k ls = (m', None) -> now <= now' ->
  (effectiveTTL m = 0 \/ now' - now < effectiveTTL m) ->
  (forall l, l ∈ (Get now' m' k).2 <-> l ∈ ls \/ l ∈ (Get now m k).2) /\
  (forall k', k' <> k -> (Get now' m' k').2 = (Get now' m k').2).
Proof.
  intros Hn Httl Hne HA Hle Htime. split.
  - intros l. rewrite !Get_taint. unfold taint at 1.
    rewrite (Add_self now m k ls now' m') by done. cbn [from_option labels]. set_solver.
  - intros k' Hk'. unfold Get.
    pose proof (Add_other now m k ls k' Hk') as Hkept. pose proof (Add_config now m k ls) as Hc.
    rewrite HA in Hkept, Hc. cbn [fst] in *.
    rewrite (kept_live m m' k' now now') by done. by destruct (live m k' now').
Qed.

Definition demo : InMemory := (Add 1000 (NewInMemory 10 0 true) "s1" ["pii"]).1.

Lemma Add_then_Get_witness :
  let m' := (Add 2000 demo "s1" ["secret"]).1 in
  (forall l, l ∈ (Get 3000 m' "s1").2 <-> l ∈ ["secret"] \/ l ∈ (Get 2000 demo "s1").2) /\
  (forall k', k' <> "s1" -> (Get 3000 m' k').2 = (Get 3000 demo k').2).
Proof.
  apply (Add_then_Get 2000 3000 demo (Add 2000 demo "s1" ["secret"]).1 "s1" ["secret"]).
  - vm_compute; intuition discriminate.
  - vm_compute; intuition discriminate.
  - discriminate.
  - vm_compute; reflexivity.
  - lia.
  - left. vm_compute; reflexivity.
Defined.

(** Rolling back a write is exact: removing labels the anchor did not hold, right
    after adding them, restores what every reader of that anchor sees. *)
Theorem Remove_undoes_Add now m m' k ls now' :
  in_int64 now -> in_int64 (ttl m) -> ls <> [] ->
  (forall l, l ∈ ls -> l ∉ (Get now m k).2) ->
  Add now m k ls = (m', None) -> now <= now' ->
  (effectiveTTL m = 0 \/ now' - now < effectiveTTL m) ->
  (Get now' (Remove now m' k ls) k).2 = (Get now m k).2.
Proof.
  intros Hn Httl Hne Hfresh HA Hle Htime.
  assert (Hdis : (list_to_set ls ∪ taint now m k) ∖ list_to_set ls = taint now m k).
  { apply set_eq. intros l. specialize (Hfresh l). rewrite Get_taint in Hfresh. set_solver. }
  pose proof (effectiveTTL_range m Httl) as Hr.
  assert (Hself : live m' k now = Some (mkSet (list_to_set ls ∪ taint now m k) now)).
  { apply (Add_self now m k ls now m'); try done. destruct Htime; [by left | right; lia]. }
  pose proof (Add_config now m k ls) as Hc. rewrite HA in Hc. cbn [fst] in Hc.
  unfold Remove. destruct ls as [|l ls]; [done|]. rewrite Hself. cbn [labels touched].
  rewrite Hdis.
  destruct (Nat.eqb_spec (size (taint now m k)) 0) as [E|E]; unfold taint in *.
  - apply size_empty_inv in E. fold_leibniz.
    assert (live (set_sets m' (delete k (sets m'))) k now' = None) as Hgone.
    { unfold live. cbn [sets set_sets]. by rewrite lookup_delete_eq. }
    unfold Get. rewrite Hgone. cbn [snd].
    destruct (live m k now) as [s|]; cbn [from_option] in E; [| done].
    rewrite E, elements_empty. done.
  - destruct (live m k now) as [s|] eqn:Hl; cbn [from_option] in *;
      [| by rewrite size_empty in E].
    assert (live (put m' k (mkSet (labels s) now)) k now' = Some (mkSet (labels s) now)) as HL.
    { unfold live. rewrite (effectiveTTL_config m (put _ _ _)) by exact Hc.
      cbn [put sets set_sets]. rewrite lookup_insert_eq.
      destruct (Z.ltb_spec 0 (effectiveTTL m)); cbn [andb]; [| done].
      destruct (Z.leb_spec (effectiveTTL m) (idleFor (mkSet (labels s) now) now')) as [Hi|]; [| done].
      unfold idleFor in Hi. cbn [touched] in Hi. rewrite time_sub_ge in Hi by lia. lia. }
    unfold Get. by rewrite HL, Hl.
Qed.

Lemma Remove_undoes_Add_witness :
  let m' := (Add 2000 demo "s1" ["secret"]).1 in
  (Get 2000 (Remove 2000 m' "s1" ["secret"]) "s1").2 = (Get 2000 demo "s1").2 /\
  (Get 2000 demo "s1").2 = ["pii"].
Proof.
  split; [| vm_compute; reflexivity].
  apply (Remove_undoes_Add 2000 demo (Add 2000 demo "s1" ["secret"]).1 "s1" ["secret"] 2000).
  - vm_compute; intuition discriminate.
  - vm_compute; intuition discriminate.
  - discriminate.
  - intros l Hl. apply list_elem_of_singleton in Hl as ->.
    apply (bool_decide_unpack _). vm_compute. exact I.
  - vm_compute; reflexivity.
  - lia.
  - left. vm_compute; reflexivity.
Defined.

(** Operations that are not a rollback or a teardown of [k]. *)
Definition not_erasing (k : string) (o : op) : Prop :=
  match o with
  | OpRemove _ k' _ => k' <> k
  | OpClear k' => k' <> k
  | _ => True
  end.

(** With idle reclamation off (the default), taint is monotone: whatever the clock
    does and whatever other callers and sweeps do, an anchor's labels only grow until a
    rollback or a teardown of that same anchor. *)
Theorem taint_monotone_without_ttl ops k m now l :
  ttl m <= 0 -> Forall (not_erasing k) ops ->
  l ∈ (Get now m k).2 -> l ∈ (Get now (fold_left exec ops m) k).2.
Proof.
  rewrite !Get_taint. revert m. induction ops as [|o ops IH]; intros m Httl Hops Hin; [done|].
  apply Forall_cons in Hops as [Ho Hops]. cbn [fold_left].
  assert (forall m' k', ttl m' <= 0 -> taint now m' k' = from_option labels ∅ (sets m' !! k')) as Ht.
  { intros m' k' H. unfold taint. by rewrite live_off. }
  rewrite Ht in Hin by done.
  assert (ttl (exec m o) = ttl m /\ l ∈ from_option labels ∅ (sets (exec m o) !! k)) as [Hc Hk].
  { destruct o as [n k' ls|n k'|n k' ls|k'|n keys]; cbn [exec not_erasing] in *.
    - destruct (Add_config n m k' ls) as [_ Hc]. split; [exact Hc|].
      destruct (decide (k = k')) as [->|Hne].
      + unfold Add. destruct ls as [|l0 ls]; [done|]. rewrite live_off by done.
        destruct (sets m !! k') as [s|] eqn:Hs; cbn [from_option] in Hin; [| set_solver].
        cbn [fst put sets set_sets]. rewrite lookup_insert_eq. cbn. set_solver.
      + destruct (Add_other n m k' ls k Hne) as [->|[_ Hl]]; [done|].
        rewrite live_off in Hl by done. rewrite Hl in Hin. set_solver.
    - unfold Get. destruct (live m k' n) as [s|] eqn:Hl; [| done]. split; [done|].
      rewrite live_off in Hl by done. cbn [fst put sets set_sets].
      destruct (decide (k = k')) as [->|Hne].
      + rewrite lookup_insert_eq. rewrite Hl in Hin. done.
      + by rewrite lookup_insert_ne.
    - unfold Remove. destruct ls; [done|].
      destruct (live m k' n); [case_match|]; (split; [done|]);
        cbn [put sets set_sets]; first [by rewrite lookup_delete_ne | by rewrite lookup_insert_ne].
    - split; [done|]. cbn [Clear sets set_sets]. by rewrite lookup_delete_ne.
    - unfold effectiveTTL. by rewrite (proj2 (Z.leb_le (ttl m) 0)). }
  rewrite <- Ht in Hk by lia. by apply IH; [lia | |].
Qed.

Lemma taint_monotone_without_ttl_witness :
  "pii" ∈ (Get 9000 (fold_left exec
    [OpGet 2000 "s1"; OpAdd 3000 "s1" ["secret"]; OpClear "s2"; OpSweep 5000 ["s1"]] demo) "s1").2.
Proof.
  apply (taint_monotone_without_ttl
    [OpGet 2000 "s1"; OpAdd 3000 "s1" ["secret"]; OpClear "s2"; OpSweep 5000 ["s1"]]
    "s1" demo 9000 "pii").
  - vm_compute; discriminate.
  - repeat constructor; discriminate.
  - apply (bool_decide_unpack _). vm_compute. exact I.
Defined.

(** ** Idle reclamation *)

Lemma live_entry m k now s :
  live m k now = Some s -> 0 < effectiveTTL m ->
  sets m !! k = Some s /\ idleFor s now < effectiveTTL m.
Proof.
  intros Hl Hpos. pose proof (live_in _ _ _ _ Hl) as Hin. split; [done|].
  unfold live in Hl. rewrite Hin, (proj2 (Z.ltb_lt 0 _)) in Hl by done. cbn [andb] in Hl.
  destruct (Z.leb_spec (effectiveTTL m) (idleFor s now)); [done | lia].
Qed.

Lemma cleanupDelete_live m k k' now s :
  live m k now = Some s -> 0 < effectiveTTL m ->
  live (cleanupDelete now m k') k now = Some s /\
  effectiveTTL (cleanupDelete now m k') = effectiveTTL m.
Proof.
  intros Hl Hpos. destruct (live_entry _ _ _ _ Hl Hpos) as [Hin Hidle].
  unfold cleanupDelete. destruct (sets m !! k') as [s'|] eqn:Hs'; [| done].
  destruct (Z.leb_spec (effectiveTTL m) (idleFor s' now)); [| done].
  split; [| done]. rewrite <- Hl. apply live_frame; [done|]. cbn [sets set_sets].
  rewrite lookup_delete_ne; [done|]. intros ->. rewrite Hin in Hs'. injection Hs' as ->. lia.
Qed.

(** Reclamation only takes abandoned anchors: an anchor that has not idled out at the
    instant of a sweep keeps its labels, whatever stale keys the sweep was handed, and so
    does one present when a full store makes room inline. *)
Theorem reclamation_spares_live m k now s keys :
  0 < effectiveTTL m -> live m k now = Some s ->
  live (cleanupSweep now keys m) k now = Some s /\
  live (reclaimIdle m now).1 k now = Some s.
Proof.
  intros Hpos Hl. split.
  - unfold cleanupSweep. revert m Hpos Hl.
    induction keys as [|k' keys IH]; intros m Hpos Hl; cbn [fold_left]; [done|].
    destruct (cleanupDelete_live m k k' now s Hl Hpos) as [Hl' He].
    apply IH; [by rewrite He | done].
  - pose proof (reclaimIdle_spec m now) as Hr. pose proof (reclaimIdle_kept m now k) as Hk.
    destruct (reclaimIdle m now) as [m' ran]. cbn [fst] in *. destruct Hr as (Hc & _).
    destruct Hk as [Hk|[_ Hnone]]; [| congruence].
    rewrite <- Hl. by apply live_frame.
Qed.

Definition demo_ttl : InMemory := (Add 1000 (NewInMemory 10 (60 * second) true) "t1" ["pii"]).1.

Lemma reclamation_spares_live_witness :
  from_option labels ∅ (live (cleanupSweep 50000000000 ["t1"] demo_ttl) "t1" 50000000000) = {["pii"]} /\
  live (cleanupSweep 90000000000 ["t1"] demo_ttl) "t1" 90000000000 = None.
Proof.
  split; [| vm_compute; reflexivity].
  destruct (reclamation_spares_live demo_ttl "t1" 50000000000 (mkSet {["pii"]} 1000) ["t1"]) as [H _].
  - vm_compute; reflexivity.
  - vm_compute; reflexivity.
  - rewrite H. reflexivity.
Defined.

End FlowLabelStore.
