(* ===== verification/KillSwitch.v ===== *)
(** * The kill switch

    pkg/killswitch: the dimension table (dimension.go), the observer registry and status
    (killswitch.go), the in-memory manager (memory.go) and the tombstone-lifetime rules
    the Redis backend and the CLI share (session_ttl.go, durationsentinel).

    A dimension is a constructor of [killDimension], and the table's accessors are
    functions by cases on it.  The maps of the zero-value manager are nil: a set is
    [None] until [ensureSetsLocked] creates it, and assigning into a nil map panics, which
    is an outcome of the model.  An observer is a name; [notify] returns the deliveries. *)
From stdpp Require Import base tactics list gmap strings fin_maps fin_sets.
From Stdlib Require Import ZArith Lia Sorted.
From S2P Require Import Prelude GoStrings.
#[local] Open Scope Z_scope.

Module KillSwitch.

(** ** Subjects, revocations and the dimension table *)

Record Subject := mkSubject { AgentID : string; SessionID : string; JTI : string }.

Record Revocation := mkRevocation {
  rGlobal : bool; rAgentID : string; rSessionID : string; rJTI : string;
}.

Inductive killDimension := DimAgent | DimSession | DimJTI.

#[global] Instance killDimension_eq_dec : EqDecision killDimension.
Proof. solve_decision. Defined.

Definition killDimensions : list killDimension := [DimAgent; DimSession; DimJTI].

Definition dim_name (d : killDimension) : string :=
  match d with DimAgent => "agent" | DimSession => "session" | DimJTI => "jti" end.
Definition dim_expires (d : killDimension) : bool :=
  match d with DimSession => true | _ => false end.
Definition dim_subject (d : killDimension) (s : Subject) : string :=
  match d with DimAgent => AgentID s | DimSession => SessionID s | DimJTI => JTI s end.
Definition dim_event (d : killDimension) (id : string) : Revocation :=
  match d with
  | DimAgent => mkRevocation false id "" ""
  | DimSession => mkRevocation false "" id ""
  | DimJTI => mkRevocation false "" "" id
  end.

Definition dimensionByName (name : string) : option killDimension :=
  list_find (fun d => dim_name d = name) killDimensions ≫= fun p => Some p.2.

Definition dim_ttl (d : killDimension) (sessionKillTTL : duration) : duration :=
  if dim_expires d then sessionKillTTL else 0.

(** ** Observers *)

Definition observer := string.

Record revocationObservers := mkObservers {
  fns : list (Z * observer);   (** registration id and callback *)
  next : Z;                    (** uint64 *)
}.

(** [observe(fn)]: the new registry and the id the unregister closes over; a nil
    callback registers nothing. *)
Definition observe (o : revocationObservers) (fn : option observer)
    : revocationObservers * option Z :=
  match fn with
  | None => (o, None)
  | Some f =>
      let id := wrap_uint64 (next o + 1) in
      (mkObservers (fns o ++ [(id, f)]) id, Some id)
  end.

Definition unregister (o : revocationObservers) (id : option Z) : revocationObservers :=
  match id with
  | None => o
  | Some i => mkObservers (filter (fun r => r.1 <> i) (fns o)) (next o)
  end.

(** The callbacks run, in order, with the event. *)
Definition notify (o : revocationObservers) (ev : Revocation) : list (observer * Revocation) :=
  map (fun r => (r.2, ev)) (fns o).

(** ** The in-memory manager *)

Record InMemory := mkInMemory {
  globalActive : bool;
  killedAgents : option (gset string);
  killedSessions : option (gset string);
  revokedJTIs : option (gset string);
  observers : revocationObservers;
}.

Definition NewInMemory : InMemory :=
  mkInMemory false None None None (mkObservers [] 0).

Definition memCache (d : killDimension) (m : InMemory) : option (gset string) :=
  match d with
  | DimAgent => killedAgents m
  | DimSession => killedSessions m
  | DimJTI => revokedJTIs m
  end.

Definition memReplace (d : killDimension) (m : InMemory) (s : option (gset string)) : InMemory :=
  match d with
  | DimAgent => mkInMemory (globalActive m) s (killedSessions m) (revokedJTIs m) (observers m)
  | DimSession => mkInMemory (globalActive m) (killedAgents m) s (revokedJTIs m) (observers m)
  | DimJTI => mkInMemory (globalActive m) (killedAgents m) (killedSessions m) s (observers m)
  end.

Definition set_global (m : InMemory) (b : bool) : InMemory :=
  mkInMemory b (killedAgents m) (killedSessions m) (revokedJTIs m) (observers m).
Definition set_observers (m : InMemory) (o : revocationObservers) : InMemory :=
  mkInMemory (globalActive m) (killedAgents m) (killedSessions m) (revokedJTIs m) o.

Definition ensureSetsLocked (m : InMemory) : InMemory :=
  fold_left (fun m d => match memCache d m with
                        | None => memReplace d m (Some ∅)
                        | Some _ => m
                        end) killDimensions m.

(** [cache[id]]: false on a nil map. *)
Definition holds (s : option (gset string)) (id : string) : bool :=
  match s with Some x => bool_decide (id ∈ x) | None => false end.

Definition ShouldBlock (m : InMemory) (subj : Subject) : bool :=
  globalActive m ||
  existsb (fun d => negb (String.eqb (dim_subject d subj) "")
                    && holds (memCache d m) (dim_subject d subj)) killDimensions.

Definition HealthStatus (m : InMemory) : option unit := None.

Inductive outcome :=
| Done (delivered : list (observer * Revocation))
| EmptyID
| Panic.

Definition ActivateGlobal (m : InMemory) : InMemory * outcome :=
  let gained := negb (globalActive m) in
  let m := set_global m true in
  (m, Done (if gained then notify (observers m) (mkRevocation true "" "" "") else [])).

Definition DeactivateGlobal (m : InMemory) : InMemory * outcome :=
  (set_global m false, Done []).

(** The three kill methods have one body over their own map. *)
Definition kill (d : killDimension) (m : InMemory) (id : string) : InMemory * outcome :=
  if String.eqb id "" then (m, EmptyID)
  else
    let m := ensureSetsLocked m in
    match memCache d m with
    | None => (m, Panic)
    | Some s =>
        let gained := negb (holds (Some s) id) in
        let m := memReplace d m (Some ({[ id ]} ∪ s)) in
        (m, Done (if gained then notify (observers m) (dim_event d id) else []))
    end.

(** The three revive methods; deleting from a nil map is a no-op. *)
Definition revive (d : killDimension) (m : InMemory) (id : string) : InMemory * outcome :=
  if String.eqb id "" then (m, EmptyID)
  else (match memCache d m with
        | None => m
        | Some s => memReplace d m (Some (s ∖ {[ id ]}))
        end, Done []).

Definition KillAgent := kill DimAgent.
Definition ReviveAgent := revive DimAgent.
Definition KillSession := kill DimSession.
Definition ReviveSession := revive DimSession.
Definition RevokeJTI := kill DimJTI.
Definition ReviveJTI := revive DimJTI.

Definition Reset (m : InMemory) : InMemory * outcome :=
  (fold_left (fun m d => memReplace d m (Some ∅)) killDimensions (set_global m false), Done []).

Record Status := mkStatus {
  GlobalActive : bool;
  KilledAgents : list string;
  KilledSessions : list string;
  RevokedJTIs : list string;
}.

Definition sortedKeys (s : option (gset string)) : list string :=
  match s with Some x => sort_strings (elements x) | None => [] end.

(** [dim.slot(st)]: the field of a Status a dimension is reported in. *)
Definition slot_get (d : killDimension) (st : Status) : list string :=
  match d with
  | DimAgent => KilledAgents st | DimSession => KilledSessions st | DimJTI => RevokedJTIs st
  end.
Definition slot_set (d : killDimension) (st : Status) (l : list string) : Status :=
  match d with
  | DimAgent => mkStatus (GlobalActive st) l (KilledSessions st) (RevokedJTIs st)
  | DimSession => mkStatus (GlobalActive st) (KilledAgents st) l (RevokedJTIs st)
  | DimJTI => mkStatus (GlobalActive st) (KilledAgents st) (KilledSessions st) l
  end.

Definition buildStatusOf (globalActive : bool) (held : killDimension -> option (gset string))
    : Status :=
  fold_left (fun st d => slot_set d st (sortedKeys (held d))) killDimensions
    (mkStatus globalActive [] [] []).

Definition StatusOf (m : InMemory) : Status :=
  buildStatusOf (globalActive m) (fun d => memCache d m).

(** ** Tombstone lifetimes (session_ttl.go, durationsentinel) *)

Definition Resolve (configured defaultVal : duration) : duration :=
  if configured =? 0 then defaultVal else if configured <? 0 then 0 else configured.

Definition defaultSessionKillTTL : duration := 30 * 24 * 3600 * second.
Definition defaultReconcileInterval : duration := 30 * second.
Definition sessionTTLKeyExpiryFactor : Z := 3.

Definition NormalizeSessionKillTTL (flagValue : duration) : duration :=
  Resolve flagValue defaultSessionKillTTL.

Definition longerTombstone (a b : duration) : duration :=
  if (a <=? 0) || (b <=? 0) then 0 else Z.max a b.

Definition ResolveSessionKillTTLConflict (local published : duration) : duration * bool :=
  if local =? published then (local, false) else (longerTombstone local published, true).

Definition sessionTTLKeyExpiry (reconcileInterval : duration) : duration :=
  let iv := if reconcileInterval <=? 0 then defaultReconcileInterval else reconcileInterval in
  let expiry := wrap_int64 (sessionTTLKeyExpiryFactor * iv) in
  if expiry <=? 0 then sessionTTLKeyExpiryFactor * defaultReconcileInterval else expiry.

Definition publishedValueExpiry (reconcileInterval effective : duration) : duration :=
  if effective <=? 0 then 0 else sessionTTLKeyExpiry reconcileInterval.

(** ** Runs *)

Inductive op :=
| OpActivate | OpDeactivate
| OpKill (d : killDimension) (id : string)
| OpRevive (d : killDimension) (id : string)
| OpReset
| OpObserve (fn : option observer)
| OpUnregister (id : option Z).

Definition step (m : InMemory) (o : op) : InMemory * outcome :=
  match o with
  | OpActivate => ActivateGlobal m
  | OpDeactivate => DeactivateGlobal m
  | OpKill d id => kill d m id
  | OpRevive d id => revive d m id
  | OpReset => Reset m
  | OpObserve fn => (set_observers m (observe (observers m) fn).1, Done [])
  | OpUnregister id => (set_observers m (unregister (observers m) id), Done [])
  end.

Definition run (ops : list op) : InMemory := fold_left (fun m o => (step m o).1) ops NewInMemory.

(** *** The specification: what a history of operator actions leaves in force *)

(** Newest action first: the last word on the global stop. *)
Fixpoint global_in_force (newest_first : list op) : bool :=
  match newest_first with
  | [] => false
  | OpActivate :: _ => true
  | OpDeactivate :: _ | OpReset :: _ => false
  | _ :: older => global_in_force older
  end.

(** The last word on one identity. *)
Fixpoint kill_in_force (d : killDimension) (id : string) (newest_first : list op) : bool :=
  match newest_first with
  | [] => false
  | OpReset :: _ => false
  | OpKill d' id' :: older =>
      if bool_decide (d' = d /\ id' = id) then true else kill_in_force d id older
  | OpRevive d' id' :: older =>
      if bool_decide (d' = d /\ id' = id) then false else kill_in_force d id older
  | _ :: older => kill_in_force d id older
  end.

(** *** Lemmas *)

Lemma memCache_replace d d' m s :
  memCache d (memReplace d' m s) = if decide (d = d') then s else memCache d m.
Proof. by destruct d, d'. Qed.

Lemma memReplace_global d m s : globalActive (memReplace d m s) = globalActive m.
Proof. by destruct d. Qed.
Lemma memReplace_observers d m s : observers (memReplace d m s) = observers m.
Proof. by destruct d. Qed.

Lemma ensureSets_spec m :
  globalActive (ensureSetsLocked m) = globalActive m /\
  observers (ensureSetsLocked m) = observers m /\
  forall d, memCache d (ensureSetsLocked m) = Some (default ∅ (memCache d m)).
Proof.
  destruct m as [g a s j o]. unfold ensureSetsLocked, killDimensions. cbn [fold_left].
  destruct a, s, j; (split_and!; [done | done |]); intros []; reflexivity.
Qed.

Lemma holds_default s id : holds (Some (default ∅ s)) id = holds s id.
Proof. destruct s; [done|]. cbn. apply bool_decide_eq_false_2. set_solver. Qed.

(** One operation's effect on a set: kill adds, revive removes, reset empties. *)
Lemma step_holds m o d id :
  id <> "" ->
  holds (memCache d (step m o).1) id =
  match o with
  | OpReset => false
  | OpKill d' id' => bool_decide (d' = d /\ id' = id) || holds (memCache d m) id
  | OpRevive d' id' => negb (bool_decide (d' = d /\ id' = id)) && holds (memCache d m) id
  | _ => holds (memCache d m) id
  end.
Proof.
  intros Hid. destruct o as [| |d' id'|d' id'| |fn|i]; cbn [step fst].
  - by destruct d.
  - by destruct d.
  - unfold kill. destruct (String.eqb_spec id' "") as [->|Hne]; cbn [fst].
    { rewrite bool_decide_eq_false_2 by naive_solver. done. }
    destruct (ensureSets_spec m) as (_ & _ & Hc). rewrite Hc. cbn [fst].
    rewrite memCache_replace, Hc. destruct (decide (d = d')) as [->|Hd].
    + cbn [holds]. rewrite <- (holds_default (memCache d' m)). cbn [holds].
      repeat case_bool_decide; cbn; try done; set_solver.
    + rewrite holds_default, bool_decide_eq_false_2 by naive_solver. done.
  - unfold revive. destruct (String.eqb_spec id' "") as [->|Hne]; cbn [fst].
    { rewrite bool_decide_eq_false_2 by naive_solver. done. }
    destruct (memCache d' m) as [s|] eqn:E.
    + rewrite memCache_replace. destruct (decide (d = d')) as [->|Hd].
      * rewrite E. cbn [holds]. repeat case_bool_decide; cbn; try done; set_solver.
      * rewrite bool_decide_eq_false_2 by naive_solver. done.
    + case_bool_decide as H; cbn [negb andb]; [| done]. destruct H as [-> _]. by rewrite E.
  - destruct d; cbn; apply bool_decide_eq_false_2; set_solver.
  - by destruct d.
  - by destruct d.
Qed.

Lemma step_global m o :
  globalActive (step m o).1 =
  match o with
  | OpActivate => true
  | OpDeactivate | OpReset => false
  | _ => globalActive m
  end.
Proof.
  destruct o as [| |d' id'|d' id'| |fn|i]; cbn [step fst]; try done.
  - unfold kill. destruct (String.eqb id' ""); [done|].
    destruct (ensureSets_spec m) as (Hg & _ & Hc). rewrite Hc. cbn [fst].
    by rewrite memReplace_global.
  - unfold revive. destruct (String.eqb id' ""); [done|].
    destruct (memCache d' m); [| done]. cbn [fst]. by rewrite memReplace_global.
Qed.

Lemma run_snoc ops o : run (ops ++ [o]) = (step (run ops) o).1.
Proof. unfold run. by rewrite fold_left_app. Qed.

Lemma run_in_force ops :
  globalActive (run ops) = global_in_force (rev ops) /\
  forall d id, id <> "" -> holds (memCache d (run ops)) id = kill_in_force d id (rev ops).
Proof.
  induction ops as [|o ops [IHg IHk]] using rev_ind; [split; [done | by intros [] ? ?]|].
  rewrite run_snoc, rev_app_distr. cbn [rev app]. split.
  - rewrite step_global. destruct o; cbn; done || exact IHg.
  - intros d id Hid. rewrite step_holds by done. rewrite IHk by done.
    destruct o; cbn [kill_in_force]; try done; by case_bool_decide.
Qed.

(** Over any history of operator actions on a fresh manager, a request is blocked
    exactly when the last word on the global stop was to activate it, or when, for some
    dimension the request identifies itself on, the last word on that identity was a kill
    not since revived or reset.  A request that leaves a dimension empty is never matched
    on it. *)
Theorem ShouldBlock_history ops subj :
  ShouldBlock (run ops) subj = true <->
  global_in_force (rev ops) = true \/
  exists d, dim_subject d subj <> "" /\ kill_in_force d (dim_subject d subj) (rev ops) = true.
Proof.
  destruct (run_in_force ops) as [Hg Hk]. unfold ShouldBlock. rewrite orb_true_iff, Hg.
  f_equiv. rewrite existsb_exists. split.
  - intros (d & _ & H). bools. exists d. split; [done|]. by rewrite <- Hk.
  - intros (d & Hne & H). exists d. split; [destruct d; cbn; tauto|].
    rewrite Hk by done. apply andb_true_iff. split; [| done].
    apply negb_true_iff. by apply String.eqb_neq.
Qed.

Lemma step_observers m o :
  match o with
  | OpObserve _ | OpUnregister _ => True
  | _ => observers (step m o).1 = observers m
  end.
Proof.
  destruct o as [| |d' id'|d' id'| |fn|i]; cbn [step fst]; try done.
  - unfold kill. destruct (String.eqb id' ""); [done|].
    destruct (ensureSets_spec m) as (_ & Ho & Hc). rewrite Hc. cbn [fst].
    by rewrite memReplace_observers.
  - unfold revive. destruct (String.eqb id' ""); [done|].
    destruct (memCache d' m); [| done]. cbn [fst]. by rewrite memReplace_observers.
Qed.

(** What an action newly revokes, if anything. *)
Definition gains (m : InMemory) (o : op) : option Revocation :=
  match o with
  | OpActivate => if globalActive m then None else Some (mkRevocation true "" "" "")
  | OpKill d id => if holds (memCache d m) id then None else Some (dim_event d id)
  | _ => None
  end.

(** Every action other than naming an empty identity succeeds, never panics on the
    zero-value manager's nil maps, and delivers to every registered observer, in
    registration order and exactly once, precisely when it adds a revocation that was not
    in force; repeating a kill, reviving and resetting notify nobody. *)
Theorem notify_exactly_on_gain m o :
  match o with OpKill _ id | OpRevive _ id => id <> "" | _ => True end ->
  (step m o).2 = Done (match gains m o with
                       | Some ev => map (fun r => (r.2, ev)) (fns (observers m))
                       | None => []
                       end).
Proof.
  destruct o as [| |d id|d id| |fn|i]; cbn [step snd gains]; intros Hid; try done.
  - unfold ActivateGlobal. cbn. by destruct (globalActive m).
  - unfold kill. destruct (String.eqb_spec id ""); [done|].
    destruct (ensureSets_spec m) as (_ & Ho & Hc). rewrite Hc. cbn [snd].
    rewrite memReplace_observers, Ho, holds_default. by destruct (holds (memCache d m) id).
  - unfold revive. destruct (String.eqb_spec id ""); [done|]. done.
Qed.

Definition demo : InMemory := run [OpObserve (Some "reaper"); OpKill DimSession "s1"].

Lemma notify_exactly_on_gain_witness :
  (step demo (OpKill DimJTI "t7")).2
  = Done [("reaper", mkRevocation false "" "" "t7")] /\
  (step demo (OpKill DimSession "s1")).2 = Done [].
Proof.
  split.
  - rewrite (notify_exactly_on_gain demo (OpKill DimJTI "t7")); [reflexivity | discriminate].
  - rewrite (notify_exactly_on_gain demo (OpKill DimSession "s1")); [reflexivity | discriminate].
Defined.

(** The sets of a state that differs only outside them. *)
Ltac apply_IH :=
  match goal with
  | IH : forall d, holds (memCache d _) _ = false |- context [memCache ?d _] =>
      destruct d; [apply (IH DimAgent) | apply (IH DimSession) | apply (IH DimJTI)]
  end.

(** Sets never hold the empty identity. *)
Lemma run_no_empty ops d : holds (memCache d (run ops)) "" = false.
Proof.
  revert d. induction ops as [|o ops IH] using rev_ind; intros d; [by destruct d|].
  rewrite run_snoc. destruct o as [| |d' id'|d' id'| |fn|i]; cbn [step fst].
  - apply_IH.
  - apply_IH.
  - unfold kill. destruct (String.eqb_spec id' ""); [apply IH|].
    destruct (ensureSets_spec (run ops)) as (_ & _ & Hc). rewrite Hc. cbn [fst].
    rewrite memCache_replace, Hc. destruct (decide (d = d')) as [->|Hd].
    + pose proof (IH d') as H. rewrite <- holds_default in H. cbn [holds] in *.
      apply bool_decide_eq_false in H. apply bool_decide_eq_false. set_solver.
    + rewrite holds_default. apply IH.
  - unfold revive. destruct (String.eqb_spec id' ""); [apply IH|].
    destruct (memCache d' (run ops)) as [s|] eqn:E; [| apply IH]. cbn [fst].
    rewrite memCache_replace. destruct (decide (d = d')) as [->|Hd]; [| apply IH].
    pose proof (IH d') as H. rewrite E in H. cbn [holds] in *.
    apply bool_decide_eq_false in H. apply bool_decide_eq_false. set_solver.
  - destruct d; cbn; apply bool_decide_eq_false_2; set_solver.
  - apply_IH.
  - apply_IH.
Qed.

Lemma sortedKeys_holds s id : id ∈ sortedKeys s <-> holds s id = true.
Proof.
  destruct s as [x|]; cbn [sortedKeys holds].
  - rewrite elem_of_sort_strings, elem_of_elements. by rewrite bool_decide_eq_true.
  - split; [set_solver | done].
Qed.

Lemma slot_build g held d : slot_get d (buildStatusOf g held) = sortedKeys (held d).
Proof. by destruct d. Qed.

(** A status snapshot is the whole kill set and nothing else: after any history its
    global flag is the global stop in force, each of its lists is sorted and holds
    exactly the identities of that dimension whose kill is in force, and the empty
    identity is never listed. *)
Theorem Status_complete ops d id :
  let st := StatusOf (run ops) in
  GlobalActive st = global_in_force (rev ops) /\
  Sorted str_le (slot_get d st) /\
  (id ∈ slot_get d st <-> id <> "" /\ kill_in_force d id (rev ops) = true).
Proof.
  cbv zeta. destruct (run_in_force ops) as [Hg Hk]. unfold StatusOf.
  rewrite slot_build. split_and!.
  - exact Hg.
  - destruct (memCache d (run ops)); cbn; [apply sort_strings_sorted | constructor].
  - rewrite sortedKeys_holds. destruct (decide (id = "")) as [->|Hne].
    + rewrite run_no_empty. naive_solver.
    + rewrite Hk by done. naive_solver.
Qed.

(** How long a tombstone of effective lifetime [d] keeps blocking: for ever when it never
    expires. *)
Definition outlives (a b : duration) : Prop := a <= 0 \/ (0 < b /\ b <= a).

(** When two session-kill lifetimes disagree, the one applied outlives both: an
    emergency stop is never lifted early by the disagreement, zero (never expires)
    prevails over every finite lifetime, and agreement is applied as it is. *)
Theorem conflict_never_shortens local published :
  0 <= local -> 0 <= published ->
  let '(effective, mismatch) := ResolveSessionKillTTLConflict local published in
  outlives effective local /\ outlives effective published /\
  (effective = local \/ effective = published) /\
  (mismatch = true <-> local <> published).
Proof.
  intros Hl Hp. unfold ResolveSessionKillTTLConflict, longerTombstone, outlives.
  destruct (Z.eqb_spec local published) as [->|Hne].
  - split_and!; [lia | lia | by left | done].
  - destruct (Z.leb_spec local 0), (Z.leb_spec published 0); cbn [orb];
      split_and!; try lia; done.
Qed.

Lemma conflict_never_shortens_witness :
  let '(effective, _) := ResolveSessionKillTTLConflict (NormalizeSessionKillTTL (-1))
                           (NormalizeSessionKillTTL 0) in
  outlives effective defaultSessionKillTTL.
Proof.
  apply (conflict_never_shortens (NormalizeSessionKillTTL (-1)) (NormalizeSessionKillTTL 0));
    vm_compute; discriminate.
Defined.

(** The overflow guard on the published key's expiry does not catch every overflow:
    for intervals whose triple fits an int64 the expiry is exactly three intervals, but a
    positive interval exists whose triple wraps around to two nanoseconds, so the key
    expires at once instead of falling back to the default bound. *)
Theorem key_expiry_overflow_wraps :
  (forall iv, 0 < iv -> 3 * iv <= max_int64 -> sessionTTLKeyExpiry iv = 3 * iv) /\
  exists iv, 0 < iv <= max_int64 /\ sessionTTLKeyExpiry iv = 2.
Proof.
  split.
  - intros iv Hpos Hmax. unfold sessionTTLKeyExpiry, sessionTTLKeyExpiryFactor.
    rewrite (proj2 (Z.leb_gt iv 0)) by lia.
    rewrite wrap_int64_id by (unfold in_int64, min_int64, max_int64, two63 in *; lia).
    by rewrite (proj2 (Z.leb_gt _ 0)) by lia.
  - exists 6148914691236517206. vm_compute. intuition discriminate.
Qed.

End KillSwitch.
