(* ===== verification/CircuitBreaker.v ===== *)
(** * The circuit breaker (pkg/circuitbreaker)

    The three-state breaker of [breaker.go], the probe handles that report an
    outcome to it, and the [Do] wrapper of [do.go].  Every method runs under the
    breaker's mutex, so a concurrent execution is a sequence of atomic method
    calls: [sys_step] interleaves admissions and reports of any number of callers,
    and the invariants are proved over every such interleaving.

    The clock is an argument of each method (the instant [b.now()] returns inside
    the critical section). *)
From stdpp Require Import base tactics list strings relations.
From Stdlib Require Import ZArith Lia.
From S2P Require Import Prelude.

Module CircuitBreaker.
Local Open Scope Z_scope.

(** ** Data *)

(** [State] is a string in Go; [StateOther] stands for every string that is not one
    of the three named constants. *)
Inductive State : Type :=
| StateClosed
| StateOpen
| StateHalfOpen
| StateOther (s : string).

#[export] Instance State_eq_dec : EqDecision State.
Proof. solve_decision. Defined.

Definition Impeded (s : State) : bool :=
  match s with StateClosed => false | _ => true end.

Record Config := mkConfig {
  FailureThreshold : Z;
  CooldownDuration : duration;
  HalfOpenMaxProbes : Z
}.

Definition DefaultConfig : Config :=
  {| FailureThreshold := 5;
     CooldownDuration := 30 * second;
     HalfOpenMaxProbes := 1 |}.

Record Breaker := mkBreaker {
  config : Config;
  state : State;
  consecutiveFails : Z;
  lastFailureTime : time;
  halfOpenProbes : Z;
  halfOpenSuccess : Z;
  halfOpenGen : Z;
  lastTransitionAt : time;
  totalFailures : Z;
  totalSuccesses : Z
}.

(** ** Construction *)

Definition clamp_config (cfg : Config) : Config :=
  {| FailureThreshold := if FailureThreshold cfg <=? 0
                         then FailureThreshold DefaultConfig else FailureThreshold cfg;
     CooldownDuration := if CooldownDuration cfg <=? 0
                         then CooldownDuration DefaultConfig else CooldownDuration cfg;
     HalfOpenMaxProbes := if HalfOpenMaxProbes cfg <=? 0
                          then HalfOpenMaxProbes DefaultConfig else HalfOpenMaxProbes cfg |}.

Definition New (cfg : Config) : Breaker :=
  {| config := clamp_config cfg;
     state := StateClosed;
     consecutiveFails := 0;
     lastFailureTime := zero_time;
     halfOpenProbes := 0;
     halfOpenSuccess := 0;
     halfOpenGen := 0;
     lastTransitionAt := zero_time;
     totalFailures := 0;
     totalSuccesses := 0 |}.

(** ** Admission *)

Definition cooldown_elapsed (b : Breaker) (now : time) : bool :=
  CooldownDuration (config b) <=? time_sub now (lastFailureTime b).

(** [allow] returns the admission verdict, the generation in effect and the
    breaker after the call. *)
Definition allow (b : Breaker) (now : time) : bool * Z * Breaker :=
  match state b with
  | StateClosed => (true, halfOpenGen b, b)
  | StateOpen =>
      if cooldown_elapsed b now then
        let gen := wrap_uint64 (halfOpenGen b + 1) in
        (true, gen,
         {| config := config b;
            state := StateHalfOpen;
            consecutiveFails := 0;
            lastFailureTime := lastFailureTime b;
            halfOpenProbes := 1;
            halfOpenSuccess := 0;
            halfOpenGen := gen;
            lastTransitionAt := time_add (lastFailureTime b) (CooldownDuration (config b));
            totalFailures := totalFailures b;
            totalSuccesses := totalSuccesses b |})
      else (false, halfOpenGen b, b)
  | StateHalfOpen =>
      if halfOpenProbes b <? HalfOpenMaxProbes (config b) then
        (true, halfOpenGen b,
         {| config := config b;
            state := state b;
            consecutiveFails := consecutiveFails b;
            lastFailureTime := lastFailureTime b;
            halfOpenProbes := wrap_int64 (halfOpenProbes b + 1);
            halfOpenSuccess := halfOpenSuccess b;
            halfOpenGen := halfOpenGen b;
            lastTransitionAt := lastTransitionAt b;
            totalFailures := totalFailures b;
            totalSuccesses := totalSuccesses b |})
      else (false, halfOpenGen b, b)
  | StateOther _ => (false, halfOpenGen b, b)
  end.

(** The zero probe ([p.b == nil]) is [None]; a bound probe carries its
    generation. *)
Definition probe : Type := option Z.

Definition allowProbe (b : Breaker) (now : time) : bool * probe * Breaker :=
  let '(admitted, gen, b') := allow b now in
  if admitted then (true, Some gen, b') else (false, None, b').

(** ** Outcomes *)

Definition recordSuccess (gen : Z) (now : time) (b : Breaker) : Breaker :=
  let counted := {| config := config b; state := state b;
                    consecutiveFails := consecutiveFails b;
                    lastFailureTime := lastFailureTime b;
                    halfOpenProbes := halfOpenProbes b;
                    halfOpenSuccess := halfOpenSuccess b;
                    halfOpenGen := halfOpenGen b;
                    lastTransitionAt := lastTransitionAt b;
                    totalFailures := totalFailures b;
                    totalSuccesses := wrap_int64 (totalSuccesses b + 1) |} in
  match state b with
  | StateOpen => counted
  | st =>
      if negb (gen =? halfOpenGen b) then counted
      else
        let base := {| config := config b; state := st;
                       consecutiveFails := 0;
                       lastFailureTime := lastFailureTime b;
                       halfOpenProbes := halfOpenProbes b;
                       halfOpenSuccess := halfOpenSuccess b;
                       halfOpenGen := halfOpenGen b;
                       lastTransitionAt := lastTransitionAt b;
                       totalFailures := totalFailures b;
                       totalSuccesses := totalSuccesses counted |} in
        match st with
        | StateHalfOpen =>
            let succ := wrap_int64 (halfOpenSuccess b + 1) in
            if HalfOpenMaxProbes (config b) <=? succ then
              {| config := config b; state := StateClosed;
                 consecutiveFails := 0;
                 lastFailureTime := lastFailureTime b;
                 halfOpenProbes := 0;
                 halfOpenSuccess := 0;
                 halfOpenGen := wrap_uint64 (halfOpenGen b + 1);
                 lastTransitionAt := now;
                 totalFailures := totalFailures b;
                 totalSuccesses := totalSuccesses counted |}
            else
              {| config := config b; state := StateHalfOpen;
                 consecutiveFails := 0;
                 lastFailureTime := lastFailureTime b;
                 halfOpenProbes := halfOpenProbes b;
                 halfOpenSuccess := succ;
                 halfOpenGen := halfOpenGen b;
                 lastTransitionAt := lastTransitionAt b;
                 totalFailures := totalFailures b;
                 totalSuccesses := totalSuccesses counted |}
        | _ => base
        end
  end.

Definition recordDrop (gen : Z) (b : Breaker) : Breaker :=
  if negb (bool_decide (state b = StateHalfOpen)) || negb (gen =? halfOpenGen b) then b
  else if 0 <? halfOpenProbes b then
    {| config := config b; state := state b;
       consecutiveFails := consecutiveFails b;
       lastFailureTime := lastFailureTime b;
       halfOpenProbes := halfOpenProbes b - 1;
       halfOpenSuccess := halfOpenSuccess b;
       halfOpenGen := halfOpenGen b;
       lastTransitionAt := lastTransitionAt b;
       totalFailures := totalFailures b;
       totalSuccesses := totalSuccesses b |}
  else b.

Definition recordFailure (gen : Z) (now : time) (b : Breaker) : Breaker :=
  let counted := {| config := config b; state := state b;
                    consecutiveFails := consecutiveFails b;
                    lastFailureTime := lastFailureTime b;
                    halfOpenProbes := halfOpenProbes b;
                    halfOpenSuccess := halfOpenSuccess b;
                    halfOpenGen := halfOpenGen b;
                    lastTransitionAt := lastTransitionAt b;
                    totalFailures := wrap_int64 (totalFailures b + 1);
                    totalSuccesses := totalSuccesses b |} in
  match state b with
  | StateOpen => counted
  | st =>
      if negb (gen =? halfOpenGen b) then counted
      else
        let fails := wrap_int64 (consecutiveFails b + 1) in
        let failed (st' : State) (fails' success' : Z) (at' : time) :=
          {| config := config b; state := st';
             consecutiveFails := fails';
             lastFailureTime := now;
             halfOpenProbes := halfOpenProbes b;
             halfOpenSuccess := success';
             halfOpenGen := halfOpenGen b;
             lastTransitionAt := at';
             totalFailures := totalFailures counted;
             totalSuccesses := totalSuccesses b |} in
        match st with
        | StateClosed =>
            if FailureThreshold (config b) <=? fails
            then failed StateOpen fails (halfOpenSuccess b) now
            else failed StateClosed fails (halfOpenSuccess b) (lastTransitionAt b)
        | StateHalfOpen =>
            failed StateOpen (FailureThreshold (config b)) 0 now
        | st' => failed st' fails (halfOpenSuccess b) (lastTransitionAt b)
        end
  end.

Inductive Outcome : Type := OSuccess | OFailure | ODrop.

(** [probe.success], [probe.failure] and [probe.drop]: a zero probe is inert. *)
Definition report (o : Outcome) (p : probe) (now : time) (b : Breaker) : Breaker :=
  match p with
  | None => b
  | Some gen =>
      match o with
      | OSuccess => recordSuccess gen now b
      | OFailure => recordFailure gen now b
      | ODrop => recordDrop gen b
      end
  end.

(** ** Observation *)

Definition projectedState (b : Breaker) (now : time) : State * Z * time :=
  if bool_decide (state b = StateOpen) && cooldown_elapsed b now
  then (StateHalfOpen, 0, time_add (lastFailureTime b) (CooldownDuration (config b)))
  else (state b, consecutiveFails b, lastTransitionAt b).

(** [Breaker.State]. *)
Definition StateOf (b : Breaker) (now : time) : State := (projectedState b now).1.1.

Record Stats := mkStats {
  StatsState : State;
  ConsecutiveFails : Z;
  TotalFailures : Z;
  TotalSuccesses : Z;
  LastFailureTime : time;
  LastTransitionAt : time
}.

(** [Breaker.Stats]. *)
Definition StatsOf (b : Breaker) (now : time) : Stats :=
  let '(st, fails, at_) := projectedState b now in
  {| StatsState := st;
     ConsecutiveFails := fails;
     TotalFailures := totalFailures b;
     TotalSuccesses := totalSuccesses b;
     LastFailureTime := lastFailureTime b;
     LastTransitionAt := at_ |}.

(** ** Do

    What the guarded call did, as far as [Do] can see: it returned, with an error
    that is or is not [context.Canceled], or it panicked. *)
Inductive CtxErr : Type := CtxLive | CtxCanceled | CtxDeadline.
#[export] Instance CtxErr_eq_dec : EqDecision CtxErr.
Proof. solve_decision. Defined.

Inductive FnErr : Type := ErrWrapsCanceled | ErrOtherFault.
Inductive FnResult (T : Type) : Type :=
| FnOk (v : T)
| FnErrored (e : FnErr)
| FnPanicked.
Arguments FnOk {T} v.
Arguments FnErrored {T} e.
Arguments FnPanicked {T}.

Definition clientCanceled (ctx : CtxErr) (e : FnErr) : bool :=
  match e with
  | ErrWrapsCanceled => bool_decide (ctx = CtxCanceled)
  | ErrOtherFault => false
  end.

(** How a completed call is reported: the deferred function reports a panic as a
    failure, and a client cancellation is dropped. *)
Definition outcome_of {T} (ctx : CtxErr) (r : FnResult T) : Outcome :=
  match r with
  | FnOk _ => OSuccess
  | FnErrored e => if clientCanceled ctx e then ODrop else OFailure
  | FnPanicked => OFailure
  end.

Inductive DoResult (T : Type) : Type :=
| DoCtxErr (e : CtxErr)
| DoErrOpen
| DoValue (v : T)
| DoFnErr (e : FnErr)
| DoPanic.
Arguments DoCtxErr {T} e.
Arguments DoErrOpen {T}.
Arguments DoValue {T} v.
Arguments DoFnErr {T} e.
Arguments DoPanic {T}.

(** [Do] for a non-nil breaker and function.  [ctx0]/[t0] are the context error and
    clock at entry and [ctx1]/[t1] those when the call has finished; [during] is what
    the other callers do to the breaker while [fn] runs.  The Boolean says whether
    [fn] was called. *)
Definition Do {T} (ctx0 : CtxErr) (t0 : time) (fn : FnResult T) (ctx1 : CtxErr) (t1 : time)
    (during : Breaker -> Breaker) (b : Breaker) : DoResult T * bool * Breaker :=
  match ctx0 with
  | CtxLive =>
      let '(admitted, pr, b1) := allowProbe b t0 in
      if admitted then
        let b2 := report (outcome_of ctx1 fn) pr t1 (during b1) in
        match fn with
        | FnOk v => (DoValue v, true, b2)
        | FnErrored e => (DoFnErr e, true, b2)
        | FnPanicked => (DoPanic, true, b2)
        end
      else (DoErrOpen, false, b1)
  | e => (DoCtxErr e, false, b)
  end.

(** ** Concurrent executions

    [inflight] holds the generation of every admitted probe that has not reported
    yet.  A step is one critical section of one caller. *)
Record Sys := mkSys { brk : Breaker; inflight : list Z }.

Definition sys_init (cfg : Config) : Sys := {| brk := New cfg; inflight := [] |}.

Inductive sys_step : Sys -> Sys -> Prop :=
| step_admit b b' gen now fl :
    allowProbe b now = (true, Some gen, b') ->
    sys_step (mkSys b fl) (mkSys b' (gen :: fl))
| step_refuse b b' now fl :
    allowProbe b now = (false, None, b') ->
    sys_step (mkSys b fl) (mkSys b' fl)
| step_report b o gen now fl fl' :
    gen :: fl' ≡ₚ fl ->
    sys_step (mkSys b fl) (mkSys (report o (Some gen) now b) fl').

(** In-flight probes of generation [g]. *)
Definition live (g : Z) (fl : list Z) : Z := Z.of_nat (length (filter (eq g) fl)).

(** ** Invariants *)

Definition cfg_ok (c : Config) : Prop :=
  0 < FailureThreshold c <= max_int64 /\
  0 < CooldownDuration c <= max_int64 /\
  0 < HalfOpenMaxProbes c <= max_int64.

Definition control_ok (b : Breaker) : Prop :=
  match state b with
  | StateClosed =>
      0 <= consecutiveFails b < FailureThreshold (config b) /\
      halfOpenProbes b = 0 /\ halfOpenSuccess b = 0
  | StateOpen =>
      consecutiveFails b = FailureThreshold (config b) /\ halfOpenSuccess b = 0
  | StateHalfOpen =>
      consecutiveFails b = 0 /\
      0 <= halfOpenSuccess b < HalfOpenMaxProbes (config b) /\
      0 <= halfOpenProbes b <= HalfOpenMaxProbes (config b)
  | StateOther _ => False
  end.

Definition breaker_ok (b : Breaker) : Prop := cfg_ok (config b) /\ control_ok b.

(** After [n] steps the generation is at most [n], no in-flight probe is from a
    later window, and in half-open the admission budget is exactly what is in
    flight plus what has succeeded. *)
Definition sys_inv (n : nat) (s : Sys) : Prop :=
  breaker_ok (brk s) /\
  0 <= halfOpenGen (brk s) <= Z.of_nat n /\
  Forall (fun g => 0 <= g <= halfOpenGen (brk s)) (inflight s) /\
  (state (brk s) = StateHalfOpen ->
   live (halfOpenGen (brk s)) (inflight s) + halfOpenSuccess (brk s) = halfOpenProbes (brk s)).

(** The control part of a breaker: everything but the two throughput totals. *)
Definition control (b : Breaker) : Config * State * Z * time * Z * Z * Z * time :=
  (config b, state b, consecutiveFails b, lastFailureTime b, halfOpenProbes b,
   halfOpenSuccess b, halfOpenGen b, lastTransitionAt b).

(** ** Lemmas *)

Lemma clamp_config_ok cfg :
  in_int64 (FailureThreshold cfg) -> in_int64 (CooldownDuration cfg) ->
  in_int64 (HalfOpenMaxProbes cfg) -> cfg_ok (clamp_config cfg).
Proof.
  unfold in_int64, cfg_ok, clamp_config, DefaultConfig, min_int64, max_int64, two63, second.
  cbn. intros. repeat split; case_match; bools; lia.
Qed.

Lemma live_cons_eq g fl : live g (g :: fl) = live g fl + 1.
Proof. unfold live. rewrite filter_cons_True by done. simpl. lia. Qed.

Lemma live_cons_ne g g' fl : g <> g' -> live g (g' :: fl) = live g fl.
Proof. intros H. unfold live. by rewrite filter_cons_False. Qed.

Lemma live_perm g fl fl' : fl ≡ₚ fl' -> live g fl = live g fl'.
Proof. intros H. unfold live. by rewrite H. Qed.

Lemma live_nonneg g fl : 0 <= live g fl.
Proof. unfold live; lia. Qed.

Lemma live_fresh g fl : Forall (fun g' => 0 <= g' <= g) fl -> live (g + 1) fl = 0.
Proof.
  induction 1 as [|g' fl Hg Hfl IH]; [done|]. rewrite live_cons_ne by lia. done.
Qed.

Lemma gens_mono (g g' : Z) fl :
  g <= g' -> Forall (fun x => 0 <= x <= g) fl -> Forall (fun x => 0 <= x <= g') fl.
Proof. intros Hg HF. eapply Forall_impl; [exact HF|]. simpl; intros; lia. Qed.

#[export] Hint Resolve live_nonneg gens_mono : eunox.

(** A report of another generation, or while open, touches only the totals. *)
Lemma report_stale o gen now b :
  gen <> halfOpenGen b \/ state b = StateOpen ->
  control (report o (Some gen) now b) = control b.
Proof.
  unfold control, report, recordSuccess, recordFailure, recordDrop.
  intros [H|H].
  - apply Z.eqb_neq in H. destruct o; repeat case_match; bools; simplify_eq/=; done.
  - destruct o; rewrite ?H; cbn; try done.
    rewrite bool_decide_eq_false_2 by done. cbn. by rewrite H.
Qed.

Lemma control_fields b b' : control b = control b' ->
  state b = state b' /\ halfOpenProbes b = halfOpenProbes b' /\
  halfOpenSuccess b = halfOpenSuccess b' /\ halfOpenGen b = halfOpenGen b'.
Proof. unfold control. destruct b, b'; simpl. intros E. by simplify_eq. Qed.

Lemma control_ok_ext b b' : control b = control b' -> breaker_ok b -> breaker_ok b'.
Proof.
  unfold control, breaker_ok, control_ok. intros E. simplify_eq.
  destruct b, b'; simpl in *; simplify_eq. done.
Qed.

Ltac crush_breaker :=
  unfold breaker_ok, control_ok, cfg_ok in *; simpl in *;
  repeat case_match; bools; simplify_eq/=;
  autorewrite with eunox in *; try (intuition lia).

Lemma allow_ok b now adm gen b' :
  breaker_ok b -> allow b now = (adm, gen, b') -> breaker_ok b'.
Proof.
  unfold allow. intros Hok Hal. destruct (state b) eqn:Hst; simplify_eq/=; [done|..].
  - case_match; simplify_eq/=; [|done].
    unfold breaker_ok, control_ok, cfg_ok in *; rewrite Hst in Hok; simpl; lia.
  - case_match; simplify_eq/=; [|done]. bools.
    unfold breaker_ok, control_ok, cfg_ok in *; rewrite ?Hst in *; simpl in *.
    rewrite ?Hst. rewrite wrap_int64_id; unfold in_int64, min_int64, max_int64, two63 in *; lia.
  - done.
Qed.

Lemma recordSuccess_ok gen now b : breaker_ok b -> breaker_ok (recordSuccess gen now b).
Proof.
  intros Hok. destruct (decide (gen <> halfOpenGen b \/ state b = StateOpen)) as [Hs|Hs].
  { eapply control_ok_ext; [symmetry; apply (report_stale OSuccess gen now b Hs) | done]. }
  apply Decidable.not_or in Hs as [Hg Hst]. apply dec_stable in Hg as ->.
  unfold breaker_ok, control_ok, cfg_ok, recordSuccess in *. rewrite Z.eqb_refl; simpl.
  destruct (state b) eqn:E; simpl; [lia| done | | lia].
  rewrite wrap_int64_id by (unfold in_int64, min_int64, max_int64, two63 in *; lia).
  case_match; bools; simpl; lia.
Qed.

Lemma recordFailure_ok gen now b : breaker_ok b -> breaker_ok (recordFailure gen now b).
Proof.
  intros Hok. destruct (decide (gen <> halfOpenGen b \/ state b = StateOpen)) as [Hs|Hs].
  { eapply control_ok_ext; [symmetry; apply (report_stale OFailure gen now b Hs) | done]. }
  apply Decidable.not_or in Hs as [Hg Hst]. apply dec_stable in Hg as ->.
  unfold breaker_ok, control_ok, cfg_ok, recordFailure in *. rewrite Z.eqb_refl; simpl.
  destruct (state b) eqn:E; simpl; [| done | lia | lia].
  rewrite wrap_int64_id by (unfold in_int64, min_int64, max_int64, two63 in *; lia).
  case_match; bools; simpl; lia.
Qed.

Lemma recordDrop_ok gen b : breaker_ok b -> breaker_ok (recordDrop gen b).
Proof.
  unfold recordDrop. intros Hok. repeat case_match; try done. bools.
  unfold breaker_ok, control_ok, cfg_ok in *; simpl in *.
  destruct (state b); simpl in *; lia.
Qed.

#[export] Hint Resolve recordSuccess_ok recordFailure_ok recordDrop_ok : eunox.

Lemma report_ok o p now b : breaker_ok b -> breaker_ok (report o p now b).
Proof. destruct p as [gen|], o; simpl; eauto with eunox. Qed.

(** The generation moves only when a window opens or closes. *)
Lemma allow_gen b now adm gen b' :
  allow b now = (adm, gen, b') -> 0 <= halfOpenGen b < two64 - 1 ->
  halfOpenGen b <= halfOpenGen b' <= halfOpenGen b + 1.
Proof.
  unfold allow. intros Hal Hg. repeat case_match; simplify_eq/=; try lia.
  rewrite wrap_uint64_id; lia.
Qed.

Lemma report_gen o p now b :
  0 <= halfOpenGen b < two64 - 1 ->
  halfOpenGen b <= halfOpenGen (report o p now b) <= halfOpenGen b + 1.
Proof.
  intros Hg. destruct p as [gen|], o; simpl; unfold recordSuccess, recordFailure, recordDrop;
    repeat case_match; simpl; try lia; rewrite wrap_uint64_id; lia.
Qed.

Lemma sys_init_inv cfg :
  cfg_ok (clamp_config cfg) -> sys_inv 0 (sys_init cfg).
Proof.
  intros H. unfold sys_inv, breaker_ok, control_ok; simpl.
  split_and!; try done; unfold cfg_ok in H; try lia; apply H.
Qed.

Lemma admit_inv n b b' gen now fl :
  allowProbe b now = (true, Some gen, b') -> Z.of_nat n < two64 - 1 ->
  sys_inv n (mkSys b fl) -> sys_inv (S n) (mkSys b' (gen :: fl)).
Proof.
  unfold allowProbe. intros Hal Hn (Hok & Hg & Hfl & Hcnt); simpl in *.
  destruct (allow b now) as [[adm g] b1] eqn:E. destruct adm; simplify_eq.
  pose proof (allow_ok _ _ _ _ _ Hok E) as Hok'.
  pose proof (allow_gen _ _ _ _ _ E ltac:(lia)) as Hg'.
  assert (Hbind : gen = halfOpenGen b').
  { unfold allow in E. repeat case_match; simplify_eq/=; done. }
  split; [done|]; simpl. split; [lia|]. split.
  { constructor; [lia|]. eapply gens_mono; [|done]; lia. }
  intros Hst. rewrite Hbind, live_cons_eq.
  unfold allow in E. destruct (state b) eqn:Es; simplify_eq/=; try congruence.
  - case_match; simplify_eq/=. rewrite wrap_uint64_id by lia. rewrite live_fresh by done. lia.
  - case_match; simplify_eq/=. bools. destruct Hok as [Hc Hb]. unfold control_ok in Hb.
    rewrite Es in Hb. unfold cfg_ok in Hc. rewrite wrap_int64_id;
      [specialize (Hcnt eq_refl); lia | unfold in_int64, min_int64, max_int64, two63 in *; lia].
Qed.

Lemma refuse_same b b' p now : allowProbe b now = (false, p, b') -> b' = b /\ p = None.
Proof.
  unfold allowProbe, allow. intros E. repeat case_match; simplify_eq/=; done.
Qed.

Lemma sys_inv_S n s : sys_inv n s -> sys_inv (S n) s.
Proof. intros (? & ? & ? & ?). split_and!; try done; lia. Qed.

Lemma report_inv n b o gen now fl fl' :
  gen :: fl' ≡ₚ fl -> Z.of_nat n < two64 - 1 ->
  sys_inv n (mkSys b fl) -> sys_inv (S n) (mkSys (report o (Some gen) now b) fl').
Proof.
  intros Hp Hn (Hok & Hg & Hfl & Hcnt); cbn [brk inflight] in *.
  rewrite <- Hp in Hfl. apply Forall_cons in Hfl as [Hgen Hfl].
  pose proof (report_gen o (Some gen) now b ltac:(lia)) as Hg'.
  unfold sys_inv; cbn [brk inflight].
  split; [exact (report_ok o (Some gen) now b Hok)|].
  split; [lia|]. split; [eapply gens_mono; [|done]; lia|].
  rewrite <- (live_perm _ _ _ Hp) in Hcnt.
  destruct (decide (gen <> halfOpenGen b \/ state b = StateOpen)) as [Hs|Hs].
  - destruct (control_fields _ _ (report_stale o gen now b Hs)) as (E2 & E5 & E6 & E7).
    rewrite E2, E5, E6, E7. intros Hst. specialize (Hcnt Hst).
    destruct Hs as [Hs|Hs]; [|congruence]. by rewrite live_cons_ne in Hcnt.
  - apply Decidable.not_or in Hs as [Hge Hst]. apply dec_stable in Hge as ->.
    intros Hh. destruct Hok as [Hcf Hctl]. unfold control_ok, cfg_ok in *.
    destruct o; simpl in *;
      unfold recordSuccess, recordFailure, recordDrop in *; rewrite ?Z.eqb_refl in *; simpl in *;
      destruct (state b) eqn:Es; simpl in *; try congruence; try done.
    + rewrite live_cons_eq in Hcnt. specialize (Hcnt eq_refl).
      rewrite wrap_int64_id in * by (unfold in_int64, min_int64, max_int64, two63 in *; lia).
      case_match; simplify_eq/=; lia.
    + case_match; simplify_eq/=.
    + rewrite live_cons_eq in Hcnt. specialize (Hcnt eq_refl).
      case_match; bools; simplify_eq/=; [lia|].
      pose proof (live_nonneg (halfOpenGen b) fl'). lia.
Qed.

Lemma sys_step_inv n s s' :
  sys_step s s' -> Z.of_nat n < two64 - 1 -> sys_inv n s -> sys_inv (S n) s'.
Proof.
  intros Hst Hn Hinv. inversion Hst; subst.
  - eapply admit_inv; eauto.
  - apply refuse_same in H as [-> _]. by apply sys_inv_S.
  - eapply report_inv; eauto.
Qed.

Lemma sys_reach_inv cfg n s :
  cfg_ok (clamp_config cfg) -> nsteps sys_step n (sys_init cfg) s ->
  Z.of_nat n < two64 -> sys_inv n s.
Proof.
  intros Hcfg Hrun. revert s Hrun. induction n as [|n IH]; intros s Hrun Hn.
  - inversion Hrun; subst. by apply sys_init_inv.
  - apply nsteps_inv_r in Hrun as (y & H1 & H2).
    eapply sys_step_inv; [done|lia|]. apply IH; [done|lia].
Qed.

(** Sequential failures of the current window. *)
Fixpoint failures (k : nat) (now : time) (b : Breaker) : Breaker :=
  match k with
  | O => b
  | S k => failures k now (recordFailure (halfOpenGen b) now b)
  end.

Lemma failures_closed k now b :
  cfg_ok (config b) -> state b = StateClosed -> 0 <= consecutiveFails b ->
  consecutiveFails b + Z.of_nat k < FailureThreshold (config b) ->
  state (failures k now b) = StateClosed.
Proof.
  revert b. induction k as [|k IH]; intros b Hc Hst H0 Hk; [done|]. simpl.
  unfold cfg_ok in Hc. apply IH; unfold recordFailure; rewrite Hst, Z.eqb_refl; simpl;
    rewrite wrap_int64_id by (unfold in_int64, min_int64, max_int64, two63 in *; lia);
    case_match; bools; simpl; try done; lia.
Qed.

Lemma failures_open_stay k now b :
  state b = StateOpen -> state (failures k now b) = StateOpen.
Proof.
  revert b. induction k as [|k IH]; intros b Hst; [done|]. simpl. apply IH.
  unfold recordFailure. by rewrite Hst.
Qed.

Lemma failures_trip k now b :
  cfg_ok (config b) -> state b = StateClosed -> 0 <= consecutiveFails b < FailureThreshold (config b) ->
  FailureThreshold (config b) <= consecutiveFails b + Z.of_nat k ->
  state (failures k now b) = StateOpen.
Proof.
  revert b. induction k as [|k IH]; intros b Hc Hst H0 Hk; [lia|]. simpl.
  unfold cfg_ok in Hc. unfold recordFailure; rewrite Hst, Z.eqb_refl; simpl.
  rewrite wrap_int64_id by (unfold in_int64, min_int64, max_int64, two63 in *; lia).
  case_match; bools; [by apply failures_open_stay|]. apply IH; simpl; try done; lia.
Qed.

(** ** Properties *)

(** C37: In every interleaving of callers, a half-open breaker's used budget is the
    probes of the current window still in flight plus those that succeeded, and
    it never exceeds HalfOpenMaxProbes. *)
Theorem half_open_accounting cfg n s :
  cfg_ok (clamp_config cfg) -> nsteps sys_step n (sys_init cfg) s -> Z.of_nat n < two64 ->
  state (brk s) = StateHalfOpen ->
  live (halfOpenGen (brk s)) (inflight s) + halfOpenSuccess (brk s) = halfOpenProbes (brk s) /\
  live (halfOpenGen (brk s)) (inflight s) <= HalfOpenMaxProbes (config (brk s)) /\
  halfOpenSuccess (brk s) < HalfOpenMaxProbes (config (brk s)).
Proof.
  intros Hc Hr Hn Hst. destruct (sys_reach_inv cfg n s Hc Hr Hn) as ([_ Hb] & _ & _ & Hcnt).
  specialize (Hcnt Hst). unfold control_ok in Hb. rewrite Hst in Hb. lia.
Qed.

(** C38: The breaker never wedges: in every interleaving, a half-open breaker with no
    probe of its window in flight admits the next caller. *)
Theorem half_open_never_wedged cfg n s now :
  cfg_ok (clamp_config cfg) -> nsteps sys_step n (sys_init cfg) s -> Z.of_nat n < two64 ->
  state (brk s) = StateHalfOpen -> live (halfOpenGen (brk s)) (inflight s) = 0 ->
  (allowProbe (brk s) now).1 = (true, Some (halfOpenGen (brk s))).
Proof.
  intros Hc Hr Hn Hst Hl. destruct (sys_reach_inv cfg n s Hc Hr Hn) as ([_ Hb] & _ & _ & Hcnt).
  specialize (Hcnt Hst). unfold control_ok in Hb. rewrite Hst in Hb.
  unfold allowProbe, allow. rewrite Hst.
  rewrite (proj2 (Z.ltb_lt _ _)) by lia. done.
Qed.

(** An outcome from another half-open window, or one reported while the breaker
    is open, changes nothing but the throughput totals. *)
Theorem stale_outcome_inert o gen now b :
  gen <> halfOpenGen b \/ state b = StateOpen ->
  control (report o (Some gen) now b) = control b.
Proof. apply report_stale. Qed.

(** The breaker leaves half-open for closed only on a success of the current
    window that is the HalfOpenMaxProbes-th of that window, and it then starts a new
    generation. *)
Theorem closes_only_after_probes o gen now b :
  breaker_ok b -> state b = StateHalfOpen -> 0 <= halfOpenGen b < two64 - 1 ->
  state (report o (Some gen) now b) = StateClosed ->
  o = OSuccess /\ gen = halfOpenGen b /\
  halfOpenSuccess b + 1 = HalfOpenMaxProbes (config b) /\
  halfOpenGen (report o (Some gen) now b) = halfOpenGen b + 1.
Proof.
  intros [Hc Hb] Hst Hg Hcl. unfold control_ok, cfg_ok in *. rewrite Hst in Hb.
  destruct o; simpl in *; unfold recordSuccess, recordFailure, recordDrop in *;
    rewrite ?Hst in *; simpl in *.
  - case_match; bools; simpl in *; [congruence|].
    rewrite (wrap_int64_id (halfOpenSuccess b + 1)) in *
      by (unfold in_int64, min_int64, max_int64, two63 in *; lia).
    case_match; bools; simpl in *; [|done].
    rewrite wrap_uint64_id by lia. repeat split; lia.
  - case_match; simpl in *; congruence.
  - repeat case_match; simpl in *; congruence.
Qed.

(** an open breaker refuses exactly until the cooldown since the last failure
    has elapsed, and a refusal leaves it unchanged. *)
Theorem open_refuses_until_cooldown b now :
  breaker_ok b -> state b = StateOpen ->
  ((allow b now).1.1 = true <-> CooldownDuration (config b) <= now - lastFailureTime b) /\
  ((allow b now).1.1 = false -> (allow b now).2 = b).
Proof.
  intros [Hc _] Hst. unfold allow, cooldown_elapsed. rewrite Hst. unfold cfg_ok in Hc.
  pose proof (time_sub_ge now (lastFailureTime b) (CooldownDuration (config b)) ltac:(lia)) as E.
  case_match; bools; simpl; split; try done; split; intros; try done; try lia.
Qed.

(** what State and Stats report of an open breaker is exactly the state, failure
    count and transition instant the next admission would install. *)
Theorem projection_agrees_with_allow b now :
  state b = StateOpen ->
  projectedState b now =
    (state (allow b now).2, consecutiveFails (allow b now).2, lastTransitionAt (allow b now).2).
Proof.
  intros Hst. unfold projectedState, allow. rewrite Hst, bool_decide_eq_true_2 by done. simpl.
  destruct (cooldown_elapsed b now) eqn:E; simpl; [done|]. by rewrite Hst.
Qed.

(** a fresh breaker trips at exactly FailureThreshold consecutive failures. *)
Theorem trips_at_threshold cfg k now :
  cfg_ok (clamp_config cfg) ->
  state (failures k now (New cfg)) =
    if Z.of_nat k <? FailureThreshold (clamp_config cfg) then StateClosed else StateOpen.
Proof.
  intros Hc. case_match; bools.
  - apply failures_closed; cbn [New config state consecutiveFails]; try done; lia.
  - apply failures_trip; cbn [New config state consecutiveFails]; try done;
      unfold cfg_ok in Hc; lia.
Qed.

(** Do is one admission followed by exactly one report of its outcome, whatever
    the other callers do while the guarded call runs: it refines two steps of the
    concurrent system around theirs, and it never calls the function when it
    refuses. *)
Theorem Do_refines_steps {T} t0 (fn : FnResult T) ctx1 t1 during b fl fl' k gen b1 :
  allowProbe b t0 = (true, Some gen, b1) ->
  nsteps sys_step k (mkSys b1 (gen :: fl)) (mkSys (during b1) (gen :: fl')) ->
  nsteps sys_step (S (k + 1)) (mkSys b fl)
    (mkSys (Do CtxLive t0 fn ctx1 t1 during b).2 fl') /\
  (Do CtxLive t0 fn ctx1 t1 during b).1.2 = true.
Proof.
  intros Hal Hk. unfold Do. rewrite Hal. split.
  - eapply nsteps_l; [exact (step_admit b b1 gen t0 fl Hal)|]. eapply nsteps_trans; [exact Hk|].
    apply nsteps_once. destruct fn; cbn -[report]; by apply step_report.
  - by destruct fn.
Qed.

(** a refused Do returns ErrOpen without calling the function and leaves the
    breaker unchanged; a context that has already ended returns its error the same
    way. *)
Theorem Do_refused {T} ctx0 t0 (fn : FnResult T) ctx1 t1 during b :
  (ctx0 <> CtxLive -> Do ctx0 t0 fn ctx1 t1 during b = (DoCtxErr ctx0, false, b)) /\
  ((allowProbe b t0).1.1 = false ->
   Do CtxLive t0 fn ctx1 t1 during b = (DoErrOpen, false, b)).
Proof.
  split.
  - intros H. destruct ctx0; done.
  - intros H. unfold Do. destruct (allowProbe b t0) as [[[] p] b'] eqn:E; simpl in H; [done|].
    by apply refuse_same in E as [-> _].
Qed.

(** ** Witnesses *)

Definition wcfg : Config := mkConfig 1 second 1.

Lemma wcfg_ok : cfg_ok (clamp_config wcfg).
Proof. vm_compute; intuition discriminate. Defined.

(** One failure trips the breaker; after the cooldown one probe is admitted. *)
Definition wopen : Breaker := recordFailure 0 0 (New wcfg).
Definition whalf : Breaker := (allow wopen second).2.

Lemma whalf_run : nsteps sys_step 3 (sys_init wcfg) (mkSys whalf [1]).
Proof.
  eapply nsteps_l; [exact (step_admit (New wcfg) (New wcfg) 0 0 [] eq_refl)|].
  eapply nsteps_l; [exact (step_report (New wcfg) OFailure 0 0 [0] [] (reflexivity _))|].
  apply nsteps_once. exact (step_admit wopen whalf 1 second [] eq_refl).
Defined.

Lemma whalf_drop_run : nsteps sys_step 4 (sys_init wcfg) (mkSys (recordDrop 1 whalf) []).
Proof.
  eapply nsteps_r; [exact whalf_run|]. exact (step_report whalf ODrop 1 second [1] [] (reflexivity _)).
Defined.

Lemma half_open_accounting_witness :
  live 1 [1] + halfOpenSuccess whalf = halfOpenProbes whalf.
Proof.
  apply (half_open_accounting wcfg 3 (mkSys whalf [1]) wcfg_ok whalf_run); reflexivity.
Defined.

Lemma half_open_never_wedged_witness :
  (allowProbe (recordDrop 1 whalf) second).1 = (true, Some 1).
Proof.
  apply (half_open_never_wedged wcfg 4 (mkSys (recordDrop 1 whalf) []) second
           wcfg_ok whalf_drop_run); reflexivity.
Defined.

Lemma stale_outcome_inert_witness : control (report OFailure (Some 0) 5 whalf) = control whalf.
Proof. apply stale_outcome_inert. left. vm_compute. discriminate. Defined.

Lemma closes_only_after_probes_witness :
  halfOpenSuccess whalf + 1 = HalfOpenMaxProbes (config whalf).
Proof.
  apply (closes_only_after_probes OSuccess 1 5 whalf);
    [ split; [exact wcfg_ok | vm_compute; intuition discriminate]
    | reflexivity | vm_compute; intuition discriminate | reflexivity ].
Defined.

Lemma open_refuses_until_cooldown_witness : (allow wopen 5).2 = wopen.
Proof.
  apply (open_refuses_until_cooldown wopen 5);
    [ split; [exact wcfg_ok | vm_compute; intuition discriminate] | reflexivity | reflexivity ].
Defined.

Lemma projection_agrees_with_allow_witness :
  projectedState wopen second = (StateHalfOpen, 0, second).
Proof. rewrite (projection_agrees_with_allow wopen second); reflexivity. Defined.

Lemma trips_at_threshold_witness : state (failures 1 7 (New wcfg)) = StateOpen.
Proof. rewrite (trips_at_threshold wcfg 1 7 wcfg_ok). reflexivity. Defined.

Lemma Do_refines_steps_witness :
  (Do (T := unit) CtxLive 0 FnPanicked CtxLive 0 id (New wcfg)).1.2 = true.
Proof.
  apply (Do_refines_steps (T := unit) 0 FnPanicked CtxLive 0 id (New wcfg) [] [] 0 0 (New wcfg));
    [reflexivity | apply nsteps_O].
Defined.

Lemma Do_refused_witness :
  Do (T := unit) CtxLive 5 (FnOk tt) CtxLive 5 id wopen = (DoErrOpen, false, wopen).
Proof. apply (Do_refused CtxLive); reflexivity. Defined.

End CircuitBreaker.
