(* ===== verification/Glob.v ===== *)
(** * Argument-value globbing and path confinement

    pkg/enforcement/glob.go: the one matcher for argument values, and the decoding that
    stops a value from leaving the subtree an operator granted.  [strings.ToLower] is
    applied only to look for the tokens %2f, %5c and %00; no rune outside ASCII lowers to
    a character of those tokens, so folding ASCII letters finds the same tokens.

    The specification of the "**" matcher is the relation [SegMatch]; the code's
    bottom-up table is shown to compute it. *)
From stdpp Require Import base tactics list strings.
From Stdlib Require Import ZArith Lia Ascii.
From S2P Require Import Prelude GoStrings GoPath.
#[local] Open Scope string_scope.

Module Glob.
Import GoPath.

Definition NUL : ascii := Ascii.zero.

Inductive decode_error := errPathMalformedEscape | errPathNUL.

Definition fold_backslash (s : string) : string :=
  str_map (fun c => if Ascii.eqb c "\" then "/"%char else c) s.

Definition containsEncodedSeparator (s : string) : bool :=
  let lower := to_lower s in contains "%2f" lower || contains "%5c" lower.

Definition containsEncodedNUL (s : string) : bool := contains "%00" (to_lower s).

Definition decodePathForConfinement (value : string) : result string decode_error :=
  let folded := fold_backslash value in
  if contains_char NUL folded then Err errPathNUL
  else
    match PathUnescape folded with
    | None => if containsEncodedNUL folded then Err errPathNUL else Err errPathMalformedEscape
    | Some decoded =>
        let decoded := fold_backslash decoded in
        if contains_char NUL decoded then Err errPathNUL else Ok decoded
    end.

Definition globClassPlaceholder : ascii := NUL.

(** The bytes handed to [emit], in order. *)
Fixpoint scanPatternLiterals (inClass : bool) (pattern : string) : list ascii :=
  match pattern with
  | EmptyString => []
  | String c p =>
      let emit d := if inClass then [] else [d] in
      let plain :=
        if Ascii.eqb c "[" then emit globClassPlaceholder ++ scanPatternLiterals true p
        else if Ascii.eqb c "]" then
          if inClass then scanPatternLiterals false p else [c] ++ scanPatternLiterals inClass p
        else emit c ++ scanPatternLiterals inClass p in
      if Ascii.eqb c "\" then
        match p with
        | String d p' => emit d ++ scanPatternLiterals inClass p'
        | EmptyString => plain
        end
      else plain
  end%list.

Definition patternLiteralsOutsideClasses (pattern : string) : string :=
  String.string_of_list_ascii (scanPatternLiterals false pattern).

Definition countPatternPathSeparators (pattern : string) : nat :=
  length (filter (fun b => b = "/"%char) (scanPatternLiterals false pattern)).

Definition maxGlobSegments : nat := 1000.

Inductive glob_error :=
| ErrEncodedSeparator
| ErrTooManySegments
| ErrDotSegment
| ErrMalformed.

Definition is_dot (seg : string) : bool := String.eqb seg "." || String.eqb seg "..".

Definition match_err (pattern : string) : option glob_error :=
  match Match pattern "" with Ok _ => None | Err _ => Some ErrMalformed end.

(** The last loop of [ValidateValueGlob]. *)
Fixpoint validateSegments (segs : list string) : option glob_error :=
  match segs with
  | [] => None
  | seg :: segs =>
      if String.eqb seg "**" then validateSegments segs
      else match match_err seg with Some e => Some e | None => validateSegments segs end
  end.

Definition ValidateValueGlob (pattern : string) : option glob_error :=
  if String.eqb pattern "*" || String.eqb pattern "**" then None
  else if containsEncodedSeparator (patternLiteralsOutsideClasses pattern) then
    Some ErrEncodedSeparator
  else if contains "**" pattern && (maxGlobSegments <=? count_char "/" pattern)%nat then
    Some ErrTooManySegments
  else if existsb is_dot (split_char "/" pattern) then Some ErrDotSegment
  else if negb (contains "**" pattern) then match_err pattern
  else validateSegments (split_char "/" pattern).

(** One segment's separator-spanning flag. *)
Definition spansSep (seg : string) : bool :=
  match decodePathForConfinement seg with
  | Err _ => true
  | Ok dec => contains "/" dec
  end.

(** [None] denies; otherwise the folded value and the flags (empty for a nil slice). *)
Definition confinePathStylePattern (pattern value : string) : option (string * list bool) :=
  match decodePathForConfinement value with
  | Err _ => None
  | Ok scan =>
      if existsb is_dot (split_char "/" scan) then None
      else
        let folded := fold_backslash value in
        if negb (contains "**" pattern) then
          let valueSlashes := count_char "/" folded in
          if negb (count_char "/" scan =? valueSlashes)%nat then None
          else if negb (countPatternPathSeparators pattern =? valueSlashes)%nat then None
          else Some (folded, [])
        else
          let segs := split_char "/" folded in
          if (maxGlobSegments <? length segs)%nat then None
          else Some (folded, map spansSep segs)
  end.

Definition confineSlashlessPattern (value : string) : bool :=
  match (match decodePathForConfinement value with
         | Err errPathNUL => None
         | Err errPathMalformedEscape =>
             if containsEncodedSeparator value then None else Some (fold_backslash value)
         | Ok scan => Some scan
         end) with
  | None => false
  | Some scan =>
      if negb (count_char "/" scan =? 0)%nat then false
      else negb (String.eqb scan ".") && negb (String.eqb scan "..")
  end.

(** *** The "**" table, one row at a time from the last pattern segment up *)

(** Row of a "**" segment: [dp[i][j] = dp[i+1][j] || (j < n && dp[i][j+1])]. *)
Fixpoint rowStar (next : list bool) : list bool :=
  match next with
  | [] => []
  | x :: next' =>
      let r := rowStar next' in
      (x || match r with [] => false | y :: _ => y end) :: r
  end.

(** Row of any other segment: [dp[i][j] = matched && dp[i+1][j+1]], false where the value
    segment spans a separator; the last column stays false. *)
Fixpoint rowSegment (p : string) (val : list string) (spans : list bool) (next : list bool)
    : list bool :=
  match val with
  | [] => [false]
  | v :: val' =>
      (if match spans with b :: _ => b | [] => false end then false
       else matched p v && match next with _ :: y :: _ => y | _ => false end)
      :: rowSegment p val' (tail spans) (tail next)
  end.

Fixpoint dpRow (pat val : list string) (spans : list bool) : list bool :=
  match pat with
  | [] => replicate (length val) false ++ [true]
  | p :: pat' =>
      let next := dpRow pat' val spans in
      if String.eqb p "**" then rowStar next else rowSegment p val spans next
  end.

Definition matchGlobSegments (pat val : list string) (valSpansSep : list bool) : bool :=
  if (maxGlobSegments <? length val)%nat || (maxGlobSegments <? length pat)%nat then false
  else match dpRow pat val valSpansSep with b :: _ => b | [] => false end.

Definition MatchValueGlob (pattern value : string) : bool :=
  if String.eqb pattern "*" || String.eqb pattern "**" then true
  else
    match (if contains "/" pattern then confinePathStylePattern pattern value
           else if negb (confineSlashlessPattern value) then None
           else Some (value, [])) with
    | None => false
    | Some (value, valSpansSep) =>
        if negb (contains "**" pattern) then matched pattern value
        else if negb (Bool.eqb (has_prefix pattern "/") (has_prefix value "/")) then false
        else matchGlobSegments (split_char "/" pattern) (split_char "/" value) valSpansSep
    end.

(** ** Specification of the segment matcher *)

(** Value segments with their separator-spanning flag. *)
Fixpoint flagged (val : list string) (spans : list bool) : list (string * bool) :=
  match val with
  | [] => []
  | v :: val' => (v, match spans with b :: _ => b | [] => false end) :: flagged val' (tail spans)
  end.

Inductive SegMatch : list string -> list (string * bool) -> Prop :=
| SM_nil : SegMatch [] []
| SM_star_none pat val : SegMatch pat val -> SegMatch ("**" :: pat) val
| SM_star_one pat v val : SegMatch ("**" :: pat) val -> SegMatch ("**" :: pat) (v :: val)
| SM_seg p pat v val :
    p <> "**" -> Match p v = Ok true -> SegMatch pat val ->
    SegMatch (p :: pat) ((v, false) :: val).

Fixpoint tails {A} (l : list A) : list (list A) :=
  match l with [] => [[]] | _ :: l' => l :: tails l' end.

Lemma matched_Match p v : matched p v = true <-> Match p v = Ok true.
Proof. unfold matched. destruct (Match p v); naive_solver. Qed.

Definition row_ok (pat : list string) (row : list bool) (vs : list (string * bool)) : Prop :=
  Forall2 (fun b suf => b = true <-> SegMatch pat suf) row (tails vs).

Lemma tails_head {A} (l : list A) : exists t, tails l = l :: t.
Proof. destruct l; by eexists. Qed.

Lemma rowStar_ok pat next vs : row_ok pat next vs -> row_ok ("**" :: pat) (rowStar next) vs.
Proof.
  unfold row_ok. revert next. induction vs as [|v vs IH]; intros next H; cbn [tails] in *.
  - apply Forall2_cons_inv_r in H as (b & l & Hb & Hl & ->).
    apply Forall2_nil_inv_r in Hl as ->. cbn. constructor; [| constructor].
    rewrite orb_false_r, Hb. split; [by constructor | by inversion 1].
  - apply Forall2_cons_inv_r in H as (b & l & Hb & Hl & ->). cbn [rowStar].
    specialize (IH l Hl). destruct (tails_head vs) as [t Ht]. rewrite Ht in IH |- *.
    apply Forall2_cons_inv_r in IH as (y & r & Hy & Hr & Hrow). rewrite Hrow.
    constructor; [| by constructor].
    rewrite orb_true_iff, Hb, Hy. split.
    + intros [H|H]; [by apply SM_star_none | by apply SM_star_one].
    + inversion 1; subst; [by left | by right | done].
Qed.

Lemma rowSegment_ok p pat val : forall spans next,
  p <> "**" -> row_ok pat next (flagged val spans) ->
  row_ok (p :: pat) (rowSegment p val spans next) (flagged val spans).
Proof.
  unfold row_ok. induction val as [|v val IH]; intros spans next Hp H; cbn [flagged tails rowSegment] in *.
  - constructor; [| constructor]. split; [done | inversion 1; done].
  - apply Forall2_cons_inv_r in H as (b & l & _ & Hl & ->). cbn [tail].
    constructor; [| by apply IH].
    destruct (tails_head (flagged val (tail spans))) as [t Ht]. rewrite Ht in Hl.
    apply Forall2_cons_inv_r in Hl as (y & r & Hy & _ & ->).
    destruct (match spans with b0 :: _ => b0 | [] => false end) eqn:Es.
    + split; [done | inversion 1; done].
    + rewrite andb_true_iff, matched_Match, Hy. split.
      * intros [Hm Hs]. by constructor.
      * inversion 1; subst; done.
Qed.

Lemma dpRow_ok pat val spans : row_ok pat (dpRow pat val spans) (flagged val spans).
Proof.
  induction pat as [|p pat IH]; cbn [dpRow].
  - unfold row_ok. clear. revert spans.
    induction val as [|v val IH]; intros spans; cbn.
    + repeat constructor.
    + constructor; [split; [done | inversion 1] | apply IH].
  - destruct (String.eqb_spec p "**") as [->|Hp]; [by apply rowStar_ok | by apply rowSegment_ok].
Qed.

Lemma matchGlobSegments_spec pat val spans :
  matchGlobSegments pat val spans = true <->
  (length val <= maxGlobSegments)%nat /\ (length pat <= maxGlobSegments)%nat /\
  SegMatch pat (flagged val spans).
Proof.
  unfold matchGlobSegments. rewrite Nat.ltb_antisym, (Nat.ltb_antisym (length pat)).
  destruct (Nat.leb_spec (length val) maxGlobSegments),
           (Nat.leb_spec (length pat) maxGlobSegments); cbn [negb orb];
    try (split; [done | intros (? & ? & ?); lia]).
  pose proof (dpRow_ok pat val spans) as H1. unfold row_ok in H1.
  destruct (tails_head (flagged val spans)) as [t Ht]. rewrite Ht in H1.
  apply Forall2_cons_inv_r in H1 as (b & l & Hb & _ & ->). rewrite Hb. naive_solver.
Qed.

(** The "**" table computes the declarative matcher: the bottom-up dynamic programme
    accepts exactly when both sides are within the segment cap and the pattern segments
    match the value segments in order, a "**" absorbing any number of them and any other
    segment exactly one that path.Match accepts and that spans no hidden separator. *)
Theorem matchGlobSegments_correct pat val spans :
  matchGlobSegments pat val spans = true <->
  (length val <= maxGlobSegments)%nat /\ (length pat <= maxGlobSegments)%nat /\
  SegMatch pat (flagged val spans).
Proof. apply matchGlobSegments_spec. Qed.

(** ** Confinement *)

Lemma decode_no_NUL v d : decodePathForConfinement v = Ok d -> contains_char NUL d = false.
Proof.
  unfold decodePathForConfinement. destruct (contains_char NUL _); [done|].
  destruct (PathUnescape _) as [dec|]; [| by destruct (containsEncodedNUL _)].
  destruct (contains_char NUL (fold_backslash dec)) eqn:E; [done|]. by intros [= <-].
Qed.

(** The reading of a value a confined grant is safe against: what an upstream that
    decodes once resolves it to. *)
Definition confined_path (value : string) : Prop :=
  exists d, decodePathForConfinement value = Ok d /\ contains_char NUL d = false /\
    Forall (fun seg => seg <> "." /\ seg <> "..") (split_char "/" d).

Definition single_segment (s : string) : Prop :=
  count_char "/" s = 0%nat /\ s <> "." /\ s <> "..".

Definition confined_segment (value : string) : Prop :=
  (exists d, decodePathForConfinement value = Ok d /\ contains_char NUL d = false /\
             single_segment d) \/
  (decodePathForConfinement value = Err errPathMalformedEscape /\
   containsEncodedSeparator value = false /\ single_segment (fold_backslash value)).

Lemma not_is_dot segs :
  existsb is_dot segs = false -> Forall (fun seg => seg <> "." /\ seg <> "..") segs.
Proof.
  induction segs as [|s segs IH]; cbn; [constructor|]. intros H. bools.
  constructor; [| by apply IH]. unfold is_dot in *. bools. done.
Qed.

Lemma confinePath_confined p v r :
  confinePathStylePattern p v = Some r -> confined_path v /\ r.1 = fold_backslash v.
Proof.
  unfold confinePathStylePattern. destruct (decodePathForConfinement v) as [d|e] eqn:Ed; [| done].
  destruct (existsb is_dot (split_char "/" d)) eqn:Edot; [done|]. intros H. split.
  - exists d. split; [done|]. split; [by eapply decode_no_NUL | by apply not_is_dot].
  - repeat case_match; simplify_eq; done.
Qed.

Lemma confineSlashless_confined v : confineSlashlessPattern v = true -> confined_segment v.
Proof.
  unfold confineSlashlessPattern, confined_segment, single_segment.
  destruct (decodePathForConfinement v) as [d|[]] eqn:Ed; [| |done].
  - destruct (Nat.eqb_spec (count_char "/" d) 0); [| done]. cbn [negb]. intros H. bools.
    left. exists d. split; [done|]. split; [by eapply decode_no_NUL | done].
  - destruct (containsEncodedSeparator v); [done|].
    destruct (Nat.eqb_spec (count_char "/" (fold_backslash v)) 0); [| done].
    cbn [negb]. intros H. bools. by right.
Qed.

(** A value that matches a path-style pattern stays in the granted subtree: decoded
    once the way an upstream would (backslashes folded, percent escapes resolved), it
    holds no NUL and no "." or ".." segment, so no traversal can be smuggled past the
    pattern whatever encoding it uses. *)
Theorem path_style_match_confined pattern value :
  pattern <> "*" -> pattern <> "**" -> contains "/" pattern = true ->
  MatchValueGlob pattern value = true -> confined_path value.
Proof.
  intros H1 H2 Hs. unfold MatchValueGlob.
  rewrite (proj2 (String.eqb_neq _ _) H1), (proj2 (String.eqb_neq _ _) H2), Hs. cbn [orb].
  destruct (confinePathStylePattern pattern value) as [r|] eqn:E; [| done].
  intros _. apply confinePath_confined in E as [E _]. exact E.
Qed.

Lemma path_style_match_confined_witness :
  confined_path "/reports/2026/q3.pdf" /\
  MatchValueGlob "/reports/**" "/reports/..%2f..%2fetc/passwd" = false.
Proof.
  split; [| vm_compute; reflexivity].
  apply (path_style_match_confined "/reports/**" "/reports/2026/q3.pdf").
  - discriminate.
  - discriminate.
  - reflexivity.
  - vm_compute; reflexivity.
Defined.

(** A value that matches a slashless pattern is one path segment: neither literally
    nor after decoding does it hold a separator, and it is neither "." nor "..", even
    when a malformed escape stops the decoder. *)
Theorem slashless_match_confined pattern value :
  pattern <> "*" -> pattern <> "**" -> contains "/" pattern = false ->
  MatchValueGlob pattern value = true -> confined_segment value.
Proof.
  intros H1 H2 Hs. unfold MatchValueGlob.
  rewrite (proj2 (String.eqb_neq _ _) H1), (proj2 (String.eqb_neq _ _) H2), Hs. cbn [orb].
  destruct (confineSlashlessPattern value) eqn:E; [| done]. cbn [negb].
  intros _. by apply confineSlashless_confined.
Qed.

Lemma slashless_match_confined_witness :
  confined_segment "100%.csv" /\ MatchValueGlob "*.csv" "a%2fb.csv" = false.
Proof.
  split; [| vm_compute; reflexivity].
  apply (slashless_match_confined "*.csv" "100%.csv").
  - discriminate.
  - discriminate.
  - reflexivity.
  - vm_compute; reflexivity.
Defined.

(** Without "**" a path-style pattern fixes the depth: a matching value has exactly
    as many separators as the pattern requires outside its classes, before and after
    decoding, so neither a class nor an encoded separator widens the grant to another
    directory level; and path.Match accepts the folded value. *)
Theorem fixed_depth pattern value :
  contains "/" pattern = true -> contains "**" pattern = false ->
  MatchValueGlob pattern value = true ->
  Match pattern (fold_backslash value) = Ok true /\
  count_char "/" (fold_backslash value) = countPatternPathSeparators pattern /\
  exists d, decodePathForConfinement value = Ok d /\
            count_char "/" d = countPatternPathSeparators pattern.
Proof.
  intros Hs Hd. unfold MatchValueGlob.
  destruct (String.eqb_spec pattern "*") as [->|]; [done|].
  destruct (String.eqb_spec pattern "**") as [->|]; [done|]. cbn [orb].
  rewrite Hs, Hd. cbn [negb].
  unfold confinePathStylePattern. rewrite Hd. cbn [negb].
  destruct (decodePathForConfinement value) as [d|e] eqn:Ed; [| done].
  destruct (existsb _ _); [done|].
  destruct (Nat.eqb_spec (count_char "/" d) (count_char "/" (fold_backslash value))) as [E1|];
    [| done].
  destruct (Nat.eqb_spec (countPatternPathSeparators pattern) (count_char "/" (fold_backslash value)))
    as [E2|]; [| done]. cbn [negb].
  intros H. split; [by apply matched_Match|]. split; [done|]. exists d. split; [done|]. congruence.
Qed.

Lemma fixed_depth_witness :
  Match "/srv/[^z]x/a" "/srv/bx/a" = Ok true /\
  count_char "/" "/srv/bx/a" = countPatternPathSeparators "/srv/[^z]x/a" /\
  MatchValueGlob "/srv/a[^z]b" "/srv/a/b" = false.
Proof.
  destruct (fixed_depth "/srv/[^z]x/a" "/srv/bx/a") as (H1 & H2 & _).
  - reflexivity.
  - reflexivity.
  - vm_compute; reflexivity.
  - split; [exact H1 | split; [exact H2 | vm_compute; reflexivity]].
Defined.

(** Load-time validation and the runtime matcher agree on which patterns are
    malformed: once a pattern is accepted, no path.Match call the runtime makes for it,
    on any value, reports a malformed pattern. *)
Theorem validated_never_malformed pattern value :
  ValidateValueGlob pattern = None -> pattern <> "*" -> pattern <> "**" ->
  if contains "**" pattern
  then Forall (fun seg => seg = "**" \/ Match seg value <> Err ErrBadPattern)
         (split_char "/" pattern)
  else Match pattern value <> Err ErrBadPattern.
Proof.
  intros H H1 H2. unfold ValidateValueGlob in H.
  rewrite (proj2 (String.eqb_neq _ _) H1), (proj2 (String.eqb_neq _ _) H2) in H. cbn [orb] in H.
  assert (forall p, match_err p = None -> Match p value <> Err ErrBadPattern) as Hm.
  { intros p Hp Hbad. apply (Match_error_pattern_only _ _ "") in Hbad.
    unfold match_err in Hp. by rewrite Hbad in Hp. }
  destruct (containsEncodedSeparator _); [done|].
  destruct (contains "**" pattern); cbn [negb andb] in H.
  - destruct (_ <=? _)%nat; [done|]. destruct (existsb _ _); [done|].
    induction (split_char "/" pattern) as [|seg segs IH]; [constructor|].
    cbn [validateSegments] in H. destruct (String.eqb_spec seg "**") as [->|Hne].
    + constructor; [by left | by apply IH].
    + destruct (match_err seg) eqn:E; [done|]. constructor; [right; by apply Hm | by apply IH].
  - destruct (existsb _ _); [done|]. by apply Hm.
Qed.

Lemma validated_never_malformed_witness :
  Match "a[b-d]*" "zz" <> Err ErrBadPattern /\ ValidateValueGlob "a[b" = Some ErrMalformed.
Proof.
  split; [| vm_compute; reflexivity].
  apply (validated_never_malformed "a[b-d]*" "zz").
  - vm_compute; reflexivity.
  - discriminate.
  - discriminate.
Defined.

End Glob.
