(* ===== verification/Capability.v ===== *)
(** * Policy vocabulary

    The data model of pkg/capability: denial codes and their classes (errors.go), the
    JSON-RPC wire codes (wirecode.go), target namespaces and constraints (constraint.go),
    conditions and directives (conditions.go, directive.go), flow labels (flowlabel.go),
    task variables (taskvar.go) and the request and response of a decision (enforce.go). *)
From stdpp Require Import base tactics list gmap strings fin_maps fin_sets sorting.
From Stdlib Require Import ZArith Lia Ascii String QArith_base.
From S2P Require Import Prelude GoStrings GoPath Truncate Float64.
#[local] Open Scope string_scope.
Import GoPath.

Module Capability.

(** ** JSON values and messages

    An [interface{}] that came out of a JSON decoder with [UseNumber], or that a handler
    put in a details map: a native number, a [[]byte] or a [[]string] as well.  A Go map is
    the list of its entries in some iteration order. *)
Inductive value :=
| VNull
| VBool (b : bool)
| VNumber (literal : string)
| VInt (z : Z)
| VFloat (f : float64)
| VString (s : string)
| VBytes (s : string)
| VStrings (l : list string)
| VArray (l : list value)
| VObject (l : list (string * value)).

(** Induction through the arrays and objects of a value. *)
Section value_rect.
Context (P : value -> Prop).
Hypothesis HNull : P VNull.
Hypothesis HBool : forall b, P (VBool b).
Hypothesis HNumber : forall s, P (VNumber s).
Hypothesis HInt : forall z, P (VInt z).
Hypothesis HFloat : forall f, P (VFloat f).
Hypothesis HString : forall s, P (VString s).
Hypothesis HBytes : forall s, P (VBytes s).
Hypothesis HStrings : forall l, P (VStrings l).
Hypothesis HArray : forall l, Forall P l -> P (VArray l).
Hypothesis HObject : forall l, Forall (fun e => P (snd e)) l -> P (VObject l).

Fixpoint value_tree_ind (v : value) : P v :=
  match v with
  | VNull => HNull
  | VBool b => HBool b
  | VNumber s => HNumber s
  | VInt z => HInt z
  | VFloat f => HFloat f
  | VString s => HString s
  | VBytes s => HBytes s
  | VStrings l => HStrings l
  | VArray l =>
      HArray l ((fix go l : Forall P l :=
        match l with [] => Forall_nil_2 _ | v :: l => Forall_cons_2 _ _ _ (value_tree_ind v) (go l) end) l)
  | VObject l =>
      HObject l ((fix go l : Forall (fun e => P (snd e)) l :=
        match l with
        | [] => Forall_nil_2 _
        | e :: l => Forall_cons_2 _ _ _ (value_tree_ind (snd e)) (go l)
        end) l)
  end.
End value_rect.

Definition details := list (string * value).

(** A denial's text: the format string and its arguments, not rendered. *)
Record message := Msgf { template : string; args : list string }.
Definition Msg (s : string) : message := Msgf s [].

(** ** Denial codes (errors.go) *)

Definition ErrCodeAuthorizationFailed := "AUTHORIZATION_FAILED".
Definition ErrCodeCapabilityDenied := "CAPABILITY_DENIED".
Definition ErrCodeInvalidParams := "INVALID_PARAMS".
Definition ErrCodeConditionFailed := "CONDITION_FAILED".
Definition ErrCodeKillSwitch := "KILL_SWITCH".
Definition ErrCodeKillSwitchError := "KILL_SWITCH_ERROR".
Definition ErrCodeMissingContext := "MISSING_CONTEXT".
Definition ErrCodeRateLimited := "RATE_LIMITED".
Definition ErrCodeNoJWTClaims := "NO_JWT_CLAIMS".
Definition ErrCodeOperationNotPermitted := "OPERATION_NOT_PERMITTED".
Definition ErrCodeValueNotPermitted := "VALUE_NOT_PERMITTED".
Definition ErrCodeEnforcementError := "ENFORCEMENT_ERROR".
Definition ErrCodeAuditUnavailable := "AUDIT_UNAVAILABLE".
Definition ErrCodeSamplingDenied := "SAMPLING_DENIED".
Definition ErrCodeEscalationRequired := "ESCALATION_REQUIRED".
Definition ErrCodeUnsupportedProtocolVersion := "UNSUPPORTED_PROTOCOL_VERSION".
Definition ErrCodeUnroutableMethod := "UNROUTABLE_METHOD".
Definition ErrCodeUntranslatableAcrossRevisions := "UNTRANSLATABLE_ACROSS_REVISIONS".
Definition ErrCodeHeaderMismatch := "HEADER_MISMATCH".

Definition AllDenialCodes : list string :=
  [ErrCodeAuthorizationFailed; ErrCodeCapabilityDenied; ErrCodeInvalidParams;
   ErrCodeConditionFailed; ErrCodeKillSwitch; ErrCodeKillSwitchError; ErrCodeMissingContext;
   ErrCodeRateLimited; ErrCodeNoJWTClaims; ErrCodeOperationNotPermitted;
   ErrCodeValueNotPermitted; ErrCodeEnforcementError; ErrCodeAuditUnavailable;
   ErrCodeSamplingDenied; ErrCodeEscalationRequired; ErrCodeUnsupportedProtocolVersion;
   ErrCodeUnroutableMethod; ErrCodeUntranslatableAcrossRevisions; ErrCodeHeaderMismatch].

Definition JSONRPCCodeInvalidParams : Z := -32602.
Definition JSONRPCCodeAuthorizationFailed : Z := -32001.
Definition JSONRPCCodeCapabilityDenied : Z := -32002.
Definition JSONRPCCodeConditionFailed : Z := -32003.
Definition JSONRPCCodeEnforcementError : Z := -32603.
Definition JSONRPCCodeUnsupportedProtocolVersion : Z := -32022.
Definition JSONRPCCodeHeaderMismatch : Z := -32020.

Definition one_of (s : string) (l : list string) : bool := existsb (String.eqb s) l.

Definition DenialWireCode (code : string) : Z * bool :=
  if one_of code [ErrCodeInvalidParams] then (JSONRPCCodeInvalidParams, true)
  else if one_of code [ErrCodeAuthorizationFailed; ErrCodeKillSwitch; ErrCodeKillSwitchError;
                       ErrCodeNoJWTClaims; ErrCodeSamplingDenied; ErrCodeUnroutableMethod]
  then (JSONRPCCodeAuthorizationFailed, true)
  else if one_of code [ErrCodeConditionFailed; ErrCodeRateLimited; ErrCodeMissingContext;
                       ErrCodeOperationNotPermitted; ErrCodeValueNotPermitted;
                       ErrCodeEscalationRequired]
  then (JSONRPCCodeConditionFailed, true)
  else if one_of code [ErrCodeEnforcementError; ErrCodeAuditUnavailable]
  then (JSONRPCCodeEnforcementError, true)
  else if one_of code [ErrCodeUnsupportedProtocolVersion; ErrCodeUntranslatableAcrossRevisions]
  then (JSONRPCCodeUnsupportedProtocolVersion, true)
  else if one_of code [ErrCodeHeaderMismatch] then (JSONRPCCodeHeaderMismatch, true)
  else if one_of code [ErrCodeCapabilityDenied] then (JSONRPCCodeCapabilityDenied, true)
  else (JSONRPCCodeCapabilityDenied, false).

Inductive DenialClass := DenialClassPolicy | DenialClassRevocation | DenialClassFault.

#[global] Instance DenialClass_eq_dec : EqDecision DenialClass.
Proof. solve_decision. Defined.

Definition ClassifyDenialCode (code : string) : DenialClass :=
  if one_of code [ErrCodeKillSwitch; ErrCodeKillSwitchError] then DenialClassRevocation
  else if one_of code [ErrCodeEnforcementError; ErrCodeAuditUnavailable] then DenialClassFault
  else if one_of code [ErrCodeUnsupportedProtocolVersion; ErrCodeUnroutableMethod;
                       ErrCodeUntranslatableAcrossRevisions] then DenialClassFault
  else if one_of code [ErrCodeHeaderMismatch] then DenialClassFault
  else DenialClassPolicy.

Record DenialInfo := mkDenial {
  Code : string;
  ConditionType_ : string;
  Message : message;
  BlockOverride : bool;
  Details : details;
}.

Definition Downgradable (d : option DenialInfo) : bool :=
  match d with
  | None => false
  | Some d => negb (BlockOverride d) && bool_decide (ClassifyDenialCode (Code d) = DenialClassPolicy)
  end.

(** ** Wire codes (wirecode.go) *)

Inductive WireCodeBand :=
| WireCodeBandApplication
| WireCodeBandPredefined
| WireCodeBandImplementationDefined
| WireCodeBandSpecReserved
| WireCodeBandUnassignedReserved.

Definition jsonRPCPredefinedCodes : list Z := [-32700; -32600; -32601; -32602; -32603]%Z.

Definition ClassifyWireCode (code : Z) : WireCodeBand :=
  if existsb (Z.eqb code) jsonRPCPredefinedCodes then WireCodeBandPredefined
  else if (-32000 <? code)%Z || (code <? -32768)%Z then WireCodeBandApplication
  else if (-32019 <=? code)%Z && (code <=? -32000)%Z then WireCodeBandImplementationDefined
  else if (-32099 <=? code)%Z && (code <=? -32020)%Z then WireCodeBandSpecReserved
  else WireCodeBandUnassignedReserved.

Definition SpecAssignedWireCodes : list Z :=
  [JSONRPCCodeUnsupportedProtocolVersion; JSONRPCCodeHeaderMismatch].

Definition MintableWireCode (code : Z) : bool :=
  match ClassifyWireCode code with
  | WireCodeBandImplementationDefined | WireCodeBandPredefined => true
  | WireCodeBandSpecReserved => existsb (Z.eqb code) SpecAssignedWireCodes
  | WireCodeBandApplication | WireCodeBandUnassignedReserved => false
  end.

(** ** Targets (constraint.go) *)

Definition TargetTypeTool := "tool".
Definition TargetTypeResource := "resource".
Definition TargetTypePrompt := "prompt".
Definition TargetTypeSystem := "system".

Definition validTargetTypes : list string :=
  [TargetTypeTool; TargetTypeResource; TargetTypePrompt; TargetTypeSystem].

Definition IsTargetType (prefix : string) : bool := one_of prefix validTargetTypes.

Definition MethodTargetType (method : string) : option string :=
  if one_of method ["tools/call"; "tools/list"] then Some TargetTypeTool
  else if one_of method ["resources/read"; "resources/subscribe"; "resources/unsubscribe";
                         "resources/list"] then Some TargetTypeResource
  else if one_of method ["prompts/get"; "prompts/list"] then Some TargetTypePrompt
  else if one_of method ["sampling/createMessage"] then Some TargetTypeSystem
  else None.

Definition ListResultKey (method : string) : string :=
  if String.eqb method "tools/list" then "tools"
  else if String.eqb method "resources/list" then "resources"
  else if String.eqb method "prompts/list" then "prompts"
  else "".

Definition validActionsFor (t : string) : list string :=
  if String.eqb t TargetTypeTool then ["call"; "*"]
  else if String.eqb t TargetTypeResource then ["read"; "*"]
  else if String.eqb t TargetTypePrompt then ["get"; "*"]
  else if String.eqb t TargetTypeSystem then ["allow"; "*"]
  else ["*"].

(** [nil] error is [true]. *)
Definition ValidateActionForTargetType (targetType action : string) : bool :=
  one_of action (validActionsFor targetType).

Inductive target_error := ErrNoPrefix | ErrUnknownPrefix | ErrEmptyName.

Definition ParseTarget (s : string) : result (string * string) target_error :=
  match cut_char ":" s with
  | None => Err ErrNoPrefix
  | Some (prefix, bare) =>
      if negb (IsTargetType prefix) then Err ErrUnknownPrefix
      else if String.eqb bare "" then Err ErrEmptyName
      else Ok (prefix, bare)
  end.

(** ** Effect contracts (effect.go)

    A magnitude ([*big.Float]) is the rational number it denotes; a [json.Number] is its
    literal. *)

Definition EffectReversible := "reversible".
Definition EffectCompensable := "compensable".
Definition EffectIrreversible := "irreversible".

Definition effectClassRank (s : string) : option Z :=
  if String.eqb s EffectReversible then Some 0%Z
  else if String.eqb s EffectCompensable then Some 1%Z
  else if String.eqb s EffectIrreversible then Some 2%Z
  else None.

Definition EffectClassAtMost (class limit : string) : bool :=
  match effectClassRank class, effectClassRank limit with
  | Some c, Some l => (c <=? l)%Z
  | _, _ => false
  end.

Record BlastRadiusSpec := mkBlastRadiusSpec {
  brs_Value : option string;
  brs_Argument : string;
  brs_Unit : string;
}.

Record EffectCase := mkEffectCase {
  ec_Class : string;
  ec_Idempotent : option bool;
  ec_CompensatingAction : string;
  ec_BlastRadius : option BlastRadiusSpec;
}.

Record EffectByArgument := mkEffectByArgument {
  eba_Argument : string;
  eba_Cases : gmap string EffectCase;
  eba_Default : option EffectCase;
}.

Record EffectContract := mkEffectContract {
  ct_Class : string;
  ct_Idempotent : bool;
  ct_CompensatingAction : string;
  ct_BlastRadius : option BlastRadiusSpec;
  ct_ByArgument : option EffectByArgument;
  ct_Ref : string;
}.

Record ResolvedEffect := mkResolvedEffect {
  Class_ : string;
  Idempotent : bool;
  CompensatingAction : string;
  BlastRadius : option Q;
  Unit : string;
  Ref : string;
  Annotated : bool;
}.

Definition Quantified (e : ResolvedEffect) : bool := bool_decide (is_Some (BlastRadius e)).

Definition UnannotatedEffect : ResolvedEffect :=
  mkResolvedEffect EffectIrreversible false "" None "" "" false.

Record EffectCeiling := mkEffectCeiling {
  MaxEffectClass : string;
  MaxBlastRadius : option string;
  RequireCompensation : bool;
  OnExceed : string;
}.

Definition OnExceedEscalate := "escalate".
Definition OnExceedDeny := "deny".

Definition Outcome (c : EffectCeiling) : string :=
  if String.eqb (OnExceed c) "" then OnExceedEscalate else OnExceed c.

Definition IsSet (c : option EffectCeiling) : bool :=
  match c with
  | None => false
  | Some c => negb (String.eqb (MaxEffectClass c) "") || bool_decide (is_Some (MaxBlastRadius c))
  end.

(** ** Conditions (condition.go, flowlabel.go, effect.go)

    The concrete condition types, and [Foreign] for a type an embedder defines, known to
    the engine only by its discriminator.  A value of the interface type is a [nil]
    interface, a nil pointer of some concrete type, or a condition (the engine treats a
    struct and a non-nil pointer to it alike). *)
Inductive CondKind :=
| KTimeWindow | KIPRange | KAllowedOperations | KAllowedExtensions | KAllowedTables
| KMaxCalls | KRecipientDomain | KAllowedValues | KSequenceBlock | KPolicy | KCustom
| KFlowLabel | KEffectClass | KBlastRadius | KForeign (name : string).

#[global] Instance CondKind_eq_dec : EqDecision CondKind.
Proof. solve_decision. Defined.

Definition ConditionTypeMaxCalls := "maxCalls".
Definition ConditionTypeSequenceBlock := "sequenceBlock".
Definition ConditionTypeFlowLabel := "flowLabel".
Definition ConditionTypePolicy := "policy".
Definition ConditionTypeCustom := "custom".

Definition kind_type (k : CondKind) : string :=
  match k with
  | KTimeWindow => "timeWindow"
  | KIPRange => "ipRange"
  | KAllowedOperations => "allowedOperations"
  | KAllowedExtensions => "allowedExtensions"
  | KAllowedTables => "allowedTables"
  | KMaxCalls => ConditionTypeMaxCalls
  | KRecipientDomain => "recipientDomain"
  | KAllowedValues => "allowedValues"
  | KSequenceBlock => ConditionTypeSequenceBlock
  | KPolicy => ConditionTypePolicy
  | KCustom => ConditionTypeCustom
  | KFlowLabel => ConditionTypeFlowLabel
  | KEffectClass => "effectClass"
  | KBlastRadius => "blastRadius"
  | KForeign name => name
  end.

Inductive Condition :=
| TimeWindow (NotBefore NotAfter : string)
| IPRange (CIDRs : list string)
| AllowedOperations (Argument : string) (Operations : list string)
| AllowedExtensions (Argument : string) (Extensions : list string)
| AllowedTables (Argument : string) (Tables : list string) (Columns : list (string * list string))
| MaxCalls (Count WindowSeconds : Z)
| RecipientDomain (Argument : string) (Domains : list string)
| AllowedValues (Argument : string) (Values : list value)
| SequenceBlock (AfterTools : list string)
| Policy (Backend : string) (Config Input : value)
| Custom (Name : string) (Config : value)
| FlowLabel (Allow : list string)
| EffectClass (Allow : list string)
| BlastRadiusBound (Max MaxTotal : option string) (WindowSeconds : Z)
| Foreign (name : string) (payload : value).

Definition cond_kind (c : Condition) : CondKind :=
  match c with
  | TimeWindow _ _ => KTimeWindow
  | IPRange _ => KIPRange
  | AllowedOperations _ _ => KAllowedOperations
  | AllowedExtensions _ _ => KAllowedExtensions
  | AllowedTables _ _ _ => KAllowedTables
  | MaxCalls _ _ => KMaxCalls
  | RecipientDomain _ _ => KRecipientDomain
  | AllowedValues _ _ => KAllowedValues
  | SequenceBlock _ => KSequenceBlock
  | Policy _ _ _ => KPolicy
  | Custom _ _ => KCustom
  | FlowLabel _ => KFlowLabel
  | EffectClass _ => KEffectClass
  | BlastRadiusBound _ _ _ => KBlastRadius
  | Foreign name _ => KForeign name
  end.

Definition ConditionType (c : Condition) : string := kind_type (cond_kind c).

Inductive cond_iface :=
| CondNil
| CondTypedNil (k : CondKind)
| Cond (c : Condition).

Definition IsFlowLabelCondition (c : cond_iface) : bool :=
  match c with
  | CondNil => false
  | CondTypedNil k => bool_decide (k = KFlowLabel)
  | Cond c => bool_decide (cond_kind c = KFlowLabel)
  end.

(** ** Directives and obligations (directive.go, obligation.go, flowlabel.go) *)

Definition DirectiveTypeRedactFields := "redactFields".
Definition DirectiveTypeLabelOutput := "labelOutput".

Record Obligation := mkObligation { ob_Type : string; Paths : list string }.

Inductive DirKind := KRedactFields | KLabelOutput | KForeignDirective (name : string).

#[global] Instance DirKind_eq_dec : EqDecision DirKind.
Proof. solve_decision. Defined.

Inductive Directive :=
| RedactFields (Fields : list string)
| LabelOutput (Labels : list string)
| ForeignDirective (name : string) (obligation : Obligation).

Definition dir_kind (d : Directive) : DirKind :=
  match d with
  | RedactFields _ => KRedactFields
  | LabelOutput _ => KLabelOutput
  | ForeignDirective name _ => KForeignDirective name
  end.

Definition DirectiveType (d : Directive) : string :=
  match d with
  | RedactFields _ => DirectiveTypeRedactFields
  | LabelOutput _ => DirectiveTypeLabelOutput
  | ForeignDirective name _ => name
  end.

Definition ToObligation (d : Directive) : Obligation :=
  match d with
  | RedactFields fields => mkObligation DirectiveTypeRedactFields fields
  | LabelOutput _ => mkObligation DirectiveTypeLabelOutput []
  | ForeignDirective _ ob => ob
  end.

Inductive dir_iface :=
| DirNil
| DirTypedNil (k : DirKind)
| Dir (d : Directive).

Definition dir_is (k : DirKind) (d : dir_iface) : bool :=
  match d with
  | DirNil => false
  | DirTypedNil k' => bool_decide (k' = k)
  | Dir d => bool_decide (dir_kind d = k)
  end.

Definition IsRedactFieldsDirective : dir_iface -> bool := dir_is KRedactFields.
Definition IsLabelOutputDirective : dir_iface -> bool := dir_is KLabelOutput.

(** ** Constraints (constraint.go) *)

Record SchemaType := mkSchemaType { Single : string; Multiple : list string }.

Inductive ArgumentSchema := mkArgumentSchema {
  as_Type : SchemaType;
  Properties : list (string * ArgumentSchema);
  Required : list string;
  AdditionalProperties : option bool;
  Enum : list value;
  Pattern : string;
  MinLength : option Z;
  MaxLength : option Z;
  Minimum : option float64;
  Maximum : option float64;
  Items : option ArgumentSchema;
  MaxItems : option Z;
  MinItems : option Z;
  Description : string;
}.

Record Constraint := mkConstraint {
  Target : string;
  Actions : list string;
  Enforcement : string;
  DescriptionHash : string;
  ArgumentSchema_ : option ArgumentSchema;
  Principal : gmap string (list string);
  Effect : option EffectContract;
  Conditions : list cond_iface;
  Directives : list dir_iface;
}.

Definition EnforcementAudit := "audit".

Definition IsAuditOnly (c : Constraint) : bool := String.eqb (Enforcement c) EnforcementAudit.

Definition HasPrincipal (c : Constraint) : bool := negb (bool_decide (Principal c = ∅)).

Definition matchesAnyPattern (v : string) (patterns : list string) : bool :=
  existsb (fun p => String.eqb p v || matched p v) patterns.

Definition claimMatches (claims : gmap string value) (nm : string * list string) : bool :=
  match claims !! nm.1 with
  | Some (VString v) => matchesAnyPattern v nm.2
  | _ => false
  end.

Definition PrincipalMatches (c : Constraint) (claims : gmap string value) : bool :=
  forallb (claimMatches claims) (map_to_list (Principal c)).

Definition ConstraintHasFlow (c : Constraint) : bool :=
  existsb IsFlowLabelCondition (Conditions c) || existsb IsLabelOutputDirective (Directives c).

(** ** Flow labels (flowlabel.go) *)

Definition nativeFlowLabelVocabulary : list string :=
  ["public"; "internal"; "confidential"; "pii"; "untrusted"].

Definition IsNativeFlowLabel (s : string) : bool := one_of s nativeFlowLabelVocabulary.

Definition maxFlowLabelNamespaceLen : Z := 32.
Definition maxFlowLabelValueLen : Z := 96.

Definition SplitFlowLabel (label : string) : string * string * bool :=
  match cut_char ":" label with
  | None => ("", label, false)
  | Some (namespace, v) => (namespace, v, true)
  end.

Inductive label_error :=
| ErrUnknownLabel | ErrNamespaceEmpty | ErrNamespaceTooLong | ErrNamespaceStart
| ErrNamespaceChar | ErrValueEmpty | ErrValueTooLong | ErrValueChar.

(** A byte above 0x7f is never part of an ASCII rune, so the checks over runes are checks
    over bytes. *)
Definition in_bytes (lo hi : nat) (c : ascii) : bool :=
  (lo <=? nat_of_ascii c)%nat && (nat_of_ascii c <=? hi)%nat.

Definition is_lower : ascii -> bool := in_bytes 97 122.
Definition is_digit : ascii -> bool := in_bytes 48 57.

Definition ValidateFlowLabelNamespace (ns : string) : option label_error :=
  match ns with
  | "" => Some ErrNamespaceEmpty
  | String c0 _ =>
      if (maxFlowLabelNamespaceLen <? len ns)%Z then Some ErrNamespaceTooLong
      else if negb (is_lower c0) then Some ErrNamespaceStart
      else if str_forall (fun r => is_lower r || is_digit r || Ascii.eqb r "-") ns then None
      else Some ErrNamespaceChar
  end.

Definition ValidateFlowLabel (label : string) : option label_error :=
  let '(namespace, v, imported) := SplitFlowLabel label in
  if negb imported then
    if IsNativeFlowLabel label then None else Some ErrUnknownLabel
  else
    match ValidateFlowLabelNamespace namespace with
    | Some err => Some err
    | None =>
        if String.eqb v "" then Some ErrValueEmpty
        else if (maxFlowLabelValueLen <? len v)%Z then Some ErrValueTooLong
        else if str_forall (in_bytes 33 126) v then None
        else Some ErrValueChar
    end.

(** Whether a label the vocabulary did not name is kept. *)
Definition keepImported (l : string) : bool :=
  let '(_, _, ok) := SplitFlowLabel l in ok && bool_decide (ValidateFlowLabel l = None).

Definition NormalizeFlowLabels (labels : list string) : list string :=
  match labels with
  | [] => []
  | _ =>
    let inn : gset string := list_to_set labels in
    let out := List.filter (fun l => bool_decide (l ∈ inn)) nativeFlowLabelVocabulary in
    let inn := inn ∖ list_to_set nativeFlowLabelVocabulary in
    let imported := List.filter keepImported (elements inn) in
    (out ++ sort_strings imported)%list
  end.

Definition NormalizeDeclaredLabels (labels : list string) : list string :=
  NormalizeFlowLabels labels.

Definition MaxExternalFlowLabels : Z := 64.

Definition checkExternalFlowLabels (labels : list string) : bool :=
  (Z.of_nat (List.length labels) <=? MaxExternalFlowLabels)%Z &&
  forallb (fun l => bool_decide (ValidateFlowLabel l = None)) labels.

(** ** Task variables (taskvar.go) *)

Definition TaskVarID := "task.id".
Definition TaskVarAgent := "task.agent".
Definition TaskVarPrincipal := "task.principal".

Definition taskVarClaims (name : string) : option string :=
  if String.eqb name TaskVarID then Some "task_id"
  else if String.eqb name TaskVarAgent then Some "agent_id"
  else if String.eqb name TaskVarPrincipal then Some "sub"
  else None.


Definition ContainsVariableRef (s : string) : bool := contains "${" s.

Definition ParseVariableRef (s : string) : option string :=
  if negb (has_prefix s "${") || negb (has_suffix s "}") then None
  else
    let name := drop_str 2 (Truncate.take_str (String.length s - 1) s) in
    if String.eqb name "" || contains_char "$" name || contains_char "{" name
       || contains_char "}" name then None
    else Some name.

Definition IsTaskVarRef (s : string) : bool :=
  match ParseVariableRef s with
  | None => false
  | Some name => bool_decide (is_Some (taskVarClaims name))
  end.

Definition ResolveTaskVar (name : string) (claims : gmap string value) : option string :=
  match taskVarClaims name with
  | None => None
  | Some key =>
      match claims !! key with
      | Some (VString s) => if String.eqb (TrimSpace s) "" then None else Some s
      | _ => None
      end
  end.

(** ** Requests and responses (enforce.go) *)

Record EnforceRequestTarget := mkTarget { tgt_Type : string; tgt_Name : string }.

Record EnforceRequest := mkRequest {
  SessionID : string;
  TargetName : string;
  Arguments : list (string * value);
  SourceIP : string;
  ContextNow : string;
  ReqTarget : option EnforceRequestTarget;
  Claims : gmap string value;
  ReqDirectives : list dir_iface;
  DeclaredLabels : list string;
}.

Inductive Decision := DecisionAllow | DecisionDeny | DecisionEscalate.

#[global] Instance Decision_eq_dec : EqDecision Decision.
Proof. solve_decision. Defined.

Definition HandlerContractQuotaUnderSkip := "quota_bucket_under_skip_quota".

Record HandlerFault := mkFault { hf_Type : string; Contract : string }.

#[global] Instance HandlerFault_eq_dec : EqDecision HandlerFault.
Proof. solve_decision. Defined.

(** A nil slice is the empty list: every slice of a response is built by [append]. *)
Record EnforceResponse := mkResponse {
  RequestID : string;
  Decision_ : Decision;
  AuditOnly : bool;
  Obligations : list Obligation;
  Denial : option DenialInfo;
  DecidedAt : string;
  LabelsOut : list string;
  CarriedLabels : list string;
  Effect_ : option ResolvedEffect;
  HandlerFaults : list HandlerFault;
}.

(** ** Lemmas *)

Lemma one_of_spec s l : one_of s l = true <-> s ∈ l.
Proof.
  unfold one_of. rewrite existsb_elem_of. split.
  - intros (x & Hx & He). bools. by subst.
  - intros H. exists s. split; [done | apply String.eqb_refl].
Qed.

Lemma native_valid l : l ∈ nativeFlowLabelVocabulary -> ValidateFlowLabel l = None.
Proof.
  intros H. repeat (apply elem_of_cons in H as [->|H]; [reflexivity|]). by apply elem_of_nil in H.
Qed.

Lemma keepImported_spec l :
  l ∉ nativeFlowLabelVocabulary -> keepImported l = bool_decide (ValidateFlowLabel l = None).
Proof.
  intros Hn. unfold keepImported, ValidateFlowLabel.
  destruct (SplitFlowLabel l) as [[ns v] [|]]; cbn [negb andb]; [done|].
  destruct (IsNativeFlowLabel l) eqn:E; [| by rewrite bool_decide_false].
  apply one_of_spec in E. done.
Qed.

Lemma elem_of_Normalize ls l :
  l ∈ NormalizeFlowLabels ls <-> l ∈ ls /\ ValidateFlowLabel l = None.
Proof.
  unfold NormalizeFlowLabels. destruct ls as [|a ls']; [set_solver|].
  set (ls := a :: ls'). cbv zeta.
  rewrite elem_of_app, elem_of_sort_strings, !elem_of_lfilter, elem_of_elements,
    bool_decide_eq_true, elem_of_difference, !elem_of_list_to_set.
  destruct (decide (l ∈ nativeFlowLabelVocabulary)) as [Hn|Hn].
  - pose proof (native_valid l Hn). naive_solver.
  - rewrite (keepImported_spec l Hn), bool_decide_eq_true. naive_solver.
Qed.

Lemma native_NoDup : NoDup nativeFlowLabelVocabulary.
Proof. apply (bool_decide_unpack _). vm_compute. done. Qed.

Lemma NoDup_Normalize ls : NoDup (NormalizeFlowLabels ls).
Proof.
  unfold NormalizeFlowLabels. destruct ls as [|a ls']; [constructor|].
  set (ls := a :: ls'). cbv zeta. apply NoDup_app. repeat split.
  - apply NoDup_lfilter, native_NoDup.
  - intros x [Hx _]%elem_of_lfilter.
    rewrite elem_of_sort_strings, elem_of_lfilter, elem_of_elements, elem_of_difference,
      !elem_of_list_to_set. naive_solver.
  - rewrite sort_strings_perm. apply NoDup_lfilter, NoDup_elements.
Qed.

(** The order of the result is a function of its set. *)
Lemma Normalize_shape ls : exists imported,
  NormalizeFlowLabels ls =
    (List.filter (fun l => bool_decide (l ∈ ls)) nativeFlowLabelVocabulary ++ imported)%list /\
  Sorted str_le imported /\ NoDup imported /\
  (forall l, l ∈ imported <->
     l ∈ ls /\ l ∉ nativeFlowLabelVocabulary /\ ValidateFlowLabel l = None).
Proof.
  unfold NormalizeFlowLabels. destruct ls as [|a ls']; cbv zeta.
  { exists []. split; [done|]. split; [constructor|]. split; [constructor|]. set_solver. }
  set (ls := a :: ls'). eexists. split; [| split; [apply sort_strings_sorted | split]].
  - f_equal. apply filter_ext. intros l. apply bool_decide_ext. by rewrite elem_of_list_to_set.
  - rewrite sort_strings_perm. apply NoDup_lfilter, NoDup_elements.
  - intros l. rewrite elem_of_sort_strings, elem_of_lfilter, elem_of_elements,
      elem_of_difference, !elem_of_list_to_set.
    destruct (decide (l ∈ nativeFlowLabelVocabulary)) as [Hn|Hn]; [naive_solver|].
    rewrite (keepImported_spec l Hn), bool_decide_eq_true. naive_solver.
Qed.

Lemma Normalize_ext ls1 ls2 :
  (forall l, ValidateFlowLabel l = None -> l ∈ ls1 <-> l ∈ ls2) ->
  NormalizeFlowLabels ls1 = NormalizeFlowLabels ls2.
Proof.
  intros H. destruct (Normalize_shape ls1) as (i1 & -> & S1 & N1 & E1).
  destruct (Normalize_shape ls2) as (i2 & -> & S2 & N2 & E2). f_equal.
  - apply filter_ext_in. intros l Hl. apply list_elem_of_In in Hl.
    apply bool_decide_ext, H, native_valid, Hl.
  - apply (Sorted_unique str_le); [done.. |]. apply NoDup_Permutation; [done..|].
    intros l. rewrite E1, E2. naive_solver.
Qed.

(** ** Properties *)

(** Normalising a label list gives a canonical form: it keeps exactly the labels that
    are valid on one of the two axes, each once, and two lists that hold the same valid
    labels normalise to the same list, whatever their order and duplicates (so the sets
    written to the tape are comparable as lists, and normalising twice changes nothing). *)
Theorem NormalizeFlowLabels_canonical ls1 ls2 :
  NoDup (NormalizeFlowLabels ls1) /\
  (forall l, l ∈ NormalizeFlowLabels ls1 <-> l ∈ ls1 /\ ValidateFlowLabel l = None) /\
  (NormalizeFlowLabels ls1 = NormalizeFlowLabels ls2 <->
   forall l, ValidateFlowLabel l = None -> l ∈ ls1 <-> l ∈ ls2).
Proof.
  split; [apply NoDup_Normalize|]. split; [apply elem_of_Normalize|].
  split; [| apply Normalize_ext]. intros E l Hl.
  pose proof (elem_of_Normalize ls1 l) as H1. pose proof (elem_of_Normalize ls2 l) as H2.
  rewrite E in H1. tauto.
Qed.

(** No denial leaves the proxy with a JSON-RPC code it may not mint: for every
    symbolic code, known or not, the mapped integer is pre-defined by JSON-RPC, in the
    implementation-defined band, or assigned by the MCP specification; and every code of
    the vocabulary has an explicit mapping rather than the fallback. *)
Theorem denial_codes_mintable code :
  MintableWireCode (DenialWireCode code).1 = true /\
  Forall (fun c => (DenialWireCode c).2 = true) AllDenialCodes.
Proof.
  split.
  - unfold DenialWireCode.
    repeat match goal with |- context [if ?b then _ else _] => destruct b end; reflexivity.
  - apply (bool_decide_unpack _). vm_compute. done.
Qed.

End Capability.
