(* ===== verification/DenialDetails.v ===== *)
(** * The bound on a denial's details

    pkg/enforcement/denial_details.go.  A Go map is its entries in iteration order; the
    result of the bound does not depend on that order ([bound_order_free]).  The budget,
    a [*int] in the code, is passed and returned.  [boundDetailMap] looks values up by
    key after it has sorted a selection of the keys, so the recursion is on the value:
    every entry is first paired with the bound of its own value, as a function of the
    budget.  A named string type takes the same path as a string and is a [VString]. *)
From stdpp Require Import base tactics list strings sorting.
From Stdlib Require Import ZArith Lia Ascii String DecimalString.
From Stdlib Require DecimalFacts.
From S2P Require Import Prelude GoStrings GoPath Truncate Capability.
#[local] Open Scope string_scope.
#[local] Arguments String.append : simpl nomatch.
Import Truncate Capability.

Module DenialDetails.

(** ** Constants *)

Definition maxDenialDetailStringLen : Z := 512.
Definition maxDenialDetailsBytes : Z := 8192.
Definition maxDenialDetailDepth : nat := 8.
Definition minDenialDetailKeyBudget : Z := 512.
Definition maxDenialDetailTopLevelKeys : nat := 16.
Definition denialDetailContainerCost : Z := 8.
Definition denialDetailScalarCost : Z := 8.
Definition DenialDetailElided : string := "[eunox: elided]".
Definition DenialDetailElidedKey : string := "_eunox_elided".
Definition denialDetailForgedKeyPrefix : string := "_eunox_caller_".

(** ** Markers and strings *)

Definition count {A} (l : list A) : Z := Z.of_nat (List.length l).

Definition IsDenialDetailElided (s : string) : bool := String.eqb s DenialDetailElided.

Definition all_digits (s : string) : bool :=
  negb (String.eqb s "") && str_forall is_digit s.

(** The expression [^\[eunox: \d+( of \d+)? elements elided\]$]. *)
Definition IsDenialDetailSliceElided (s : string) : bool :=
  let pre := "[eunox: " in
  let suf := " elements elided]" in
  (String.length pre + String.length suf <=? String.length s)%nat &&
  has_prefix s pre && has_suffix s suf &&
  let mid := take_str (String.length s - String.length pre - String.length suf)
               (drop_str (String.length pre) s) in
  match cut_char " " mid with
  | None => all_digits mid
  | Some (a, b) => all_digits a && has_prefix b "of " && all_digits (drop_str 3 b)
  end.

Definition boundDetailString (s : string) : string := BoundString s maxDenialDetailStringLen.

Definition escapeReservedDetailKey (k : string) : string :=
  if String.eqb k DenialDetailElidedKey then denialDetailForgedKeyPrefix ++ k else k.

Definition entriesElided (n : Z) : string := itoa n ++ " entries elided".
Definition entriesElidedOf (n total : Z) : string :=
  itoa n ++ " of " ++ itoa total ++ " entries elided".
Definition elementsElided (n : Z) : string := "[eunox: " ++ itoa n ++ " elements elided]".
Definition elementsElidedOf (n total : Z) : string :=
  "[eunox: " ++ itoa n ++ " of " ++ itoa total ++ " elements elided]".

Definition chargeBoundedString (s : string) (budget : Z) : option string * Z :=
  let b := boundDetailString s in
  let cost := if (len b <? denialDetailScalarCost)%Z then denialDetailScalarCost else len b in
  let budget := (budget - cost)%Z in
  (if (budget <? 0)%Z then None else Some b, budget).

Definition boundedPrealloc (n : nat) (budget : Z) : nat :=
  let budget := if (budget <? 0)%Z then 0%Z else budget in
  let maxEntries := Z.to_nat (budget / 2 + 1) in
  if (maxEntries <? n)%nat then maxEntries else n.

(** ** The selection of keys: a bounded max-heap *)

Definition swap (sel : list string) (i j : nat) : list string :=
  match sel !! i, sel !! j with
  | Some x, Some y => <[j := x]> (<[i := y]> sel)
  | _, _ => sel
  end.

(** [sel[a] >= sel[b]], for indices in range. *)
Definition at_least (sel : list string) (a b : nat) : bool :=
  match sel !! a, sel !! b with
  | Some x, Some y => String.leb y x
  | _, _ => true
  end.

Fixpoint siftUp (fuel : nat) (sel : list string) (i : nat) : list string :=
  match fuel with
  | O => sel
  | S fuel =>
      if (i =? 0)%nat then sel
      else
        let parent := ((i - 1) / 2)%nat in
        if at_least sel parent i then sel
        else siftUp fuel (swap sel parent i) parent
  end.

(** [largest] after the comparison with the child [c]. *)
Definition larger (sel : list string) (c largest : nat) : nat :=
  if (c <? List.length sel)%nat && negb (at_least sel largest c) then c else largest.

Fixpoint siftDown (fuel : nat) (sel : list string) (i : nat) : list string :=
  match fuel with
  | O => sel
  | S fuel =>
      let largest := larger sel (2 * i + 2) (larger sel (2 * i + 1) i) in
      if (largest =? i)%nat then sel else siftDown fuel (swap sel i largest) largest
  end.

Definition selectStep (limit : nat) (sel : list string) (k : string) : list string :=
  if (List.length sel <? limit)%nat then
    siftUp (List.length sel) (sel ++ [k])%list (List.length sel)
  else
    match sel !! 0%nat with
    | Some top =>
        if String.leb top k then sel else siftDown (List.length sel) (<[0%nat := k]> sel) 0
    | None => sel
    end.

Definition selectSmallestKeys (keys : list string) (limit : nat) : list string :=
  if (limit =? 0)%nat then [] else fold_left (selectStep limit) keys [].

(** ** The walk *)

(** [out[k] = v]. *)
Fixpoint put (k : string) (v : value) (out : details) : details :=
  match out with
  | [] => [(k, v)]
  | (k', v') :: out' => if String.eqb k k' then (k, v) :: out' else (k', v') :: put k v out'
  end.

(** The bound of a value, as a function of the budget before it. *)
Definition bounder : Type := Z -> value * Z.

(** [in[k]], a nil interface when the key is absent. *)
Fixpoint entry_of (k : string) (entries : list (string * bounder)) : bounder :=
  match entries with
  | [] => fun budget => (VNull, budget)
  | (k', f) :: entries' => if String.eqb k k' then f else entry_of k entries'
  end.

(** The loop of [boundDetailMap] over the sorted keys, [i] of them done.  The last
    component says that the budget ran out, which ends the function. *)
Fixpoint mapLoop (entries : list (string * bounder)) (keys : list string) (i : nat)
    (out : details) (budget : Z) : details * Z * bool :=
  match keys with
  | [] => (out, budget, false)
  | k :: keys' =>
      let bk := escapeReservedDetailKey (boundDetailString k) in
      let budget := (budget - len bk)%Z in
      if (budget <? 0)%Z then
        (put DenialDetailElidedKey
           (VString (entriesElidedOf (count entries - Z.of_nat i) (count entries))) out,
         budget, true)
      else
        let '(v, budget) := entry_of k entries budget in
        mapLoop entries keys' (S i) (put bk v out) budget
  end.

Definition boundDetailMap (entries : list (string * bounder)) (budget : Z) : details * Z :=
  let budget := (budget - denialDetailContainerCost)%Z in
  if (budget <? 0)%Z then
    ([(DenialDetailElidedKey, VString (entriesElided (count entries)))], budget)
  else
    let keys := sort_strings (selectSmallestKeys (map fst entries)
                  (boundedPrealloc (List.length entries) budget)) in
    let '(out, budget, stopped) := mapLoop entries keys 0 [] budget in
    if negb stopped && (List.length keys <? List.length entries)%nat then
      (put DenialDetailElidedKey
         (VString (entriesElidedOf (count entries - count keys) (count entries))) out, budget)
    else (out, budget).

(** [boundDetailSlice], over the bounds of the elements; [marker] makes an elision entry. *)
Section slice.
Context {T : Type} (marker : string -> T).

Fixpoint sliceLoop (total : Z) (elems : list (Z -> T * Z)) (budget : Z) : list T * Z :=
  match elems with
  | [] => ([], budget)
  | f :: elems' =>
      if (budget <? 0)%Z then ([marker (elementsElidedOf (count elems) total)], budget)
      else
        let '(v, budget) := f budget in
        let '(out, budget) := sliceLoop total elems' budget in
        (v :: out, budget)
  end.

Definition boundDetailSlice (elems : list (Z -> T * Z)) (budget : Z) : list T * Z :=
  let budget := (budget - denialDetailContainerCost)%Z in
  if (budget <? 0)%Z then ([marker (elementsElided (count elems))], budget)
  else sliceLoop (count elems) elems budget.
End slice.

Definition boundStringElem (s : string) (budget : Z) : string * Z :=
  let '(b, budget) := chargeBoundedString s budget in
  (default DenialDetailElided b, budget).

Definition chargeScalar (v : value) (budget : Z) : value * Z :=
  let budget := (budget - denialDetailScalarCost)%Z in
  (if (budget <? 0)%Z then VString DenialDetailElided else v, budget).

Fixpoint boundDetailValue (v : value) (depth : nat) (budget : Z) : value * Z :=
  if (maxDenialDetailDepth <=? depth)%nat then (VString DenialDetailElided, budget)
  else
    match v with
    | VString s =>
        let '(b, budget) := chargeBoundedString s budget in
        (VString (default DenialDetailElided b), budget)
    | VNumber s =>
        let '(b, budget) := chargeBoundedString s budget in
        (match b with Some b => VNumber b | None => VString DenialDetailElided end, budget)
    | VBytes s =>
        let '(b, budget) := chargeBoundedString s budget in
        (match b with Some b => VBytes b | None => VString DenialDetailElided end, budget)
    | VObject l =>
        let '(out, budget) :=
          boundDetailMap (map (fun '(k, e) => (k, boundDetailValue e (S depth))) l) budget in
        (VObject out, budget)
    | VArray l =>
        let '(out, budget) :=
          boundDetailSlice VString (map (fun e => boundDetailValue e (S depth)) l) budget in
        (VArray out, budget)
    | VStrings l =>
        let '(out, budget) := boundDetailSlice id (map boundStringElem l) budget in
        (VStrings out, budget)
    | VNull | VBool _ | VInt _ | VFloat _ => chargeScalar v budget
    end.

(** The top level: a share of the budget for each key. *)
Definition keyShare (n : nat) : Z :=
  let share := (maxDenialDetailsBytes / Z.of_nat n)%Z in
  if (share <? minDenialDetailKeyBudget)%Z then minDenialDetailKeyBudget else share.

Fixpoint topLoop (share : Z) (entries : list (string * bounder)) (keys : list string)
    (out : details) : details :=
  match keys with
  | [] => out
  | k :: keys' =>
      let bk := escapeReservedDetailKey (boundDetailString k) in
      topLoop share entries keys' (put bk (fst (entry_of k entries (share - len bk)%Z)) out)
  end.

Definition BoundDenialDetails (d : details) : details :=
  match d with
  | [] => []
  | _ =>
      let entries := map (fun '(k, e) => (k, boundDetailValue e 0)) d in
      let keys := sort_strings (map fst d) in
      let out := topLoop (keyShare (List.length d)) entries (take maxDenialDetailTopLevelKeys keys) [] in
      if (maxDenialDetailTopLevelKeys <? List.length keys)%nat then
        put DenialDetailElidedKey
          (VString (entriesElidedOf (count keys - Z.of_nat maxDenialDetailTopLevelKeys) (count d))) out
      else out
  end.

(** ** The selection is the sorted prefix *)

(** [sel[a] <= sel[b]]. *)
Definition le_at (sel : list string) (a b : nat) : Prop :=
  forall x y, sel !! a = Some x -> sel !! b = Some y -> str_le x y.

Definition parent (i : nat) : nat := ((i - 1) / 2)%nat.

Definition heap (sel : list string) : Prop := forall i, (0 < i)%nat -> le_at sel i (parent i).

Lemma parent_lt i : (0 < i)%nat -> (parent i < i)%nat.
Proof. intros Hi. unfold parent. apply Nat.Div0.div_lt_upper_bound. lia. Qed.

Lemma le_at_trans sel a b c :
  (b < List.length sel)%nat -> le_at sel a b -> le_at sel b c -> le_at sel a c.
Proof.
  intros [z Hz]%lookup_lt_is_Some H1 H2 x y Hx Hy. etrans; [by apply (H1 x z) | by apply (H2 z y)].
Qed.

Lemma le_at_refl sel a : le_at sel a a.
Proof. intros x y Hx Hy. simplify_eq. by destruct (str_le_total x x). Qed.

Lemma at_least_true sel a b : at_least sel a b = true -> le_at sel b a.
Proof. unfold at_least. intros E x y Hx Hy. by rewrite Hx, Hy in E. Qed.

Lemma at_least_false sel a b :
  at_least sel a b = false -> le_at sel a b /\ (a < List.length sel)%nat /\ (b < List.length sel)%nat.
Proof.
  unfold at_least. intros E. destruct (sel !! a) as [x|] eqn:Ea; [| done].
  destruct (sel !! b) as [y|] eqn:Eb; [| done]. split_and!; [| by eapply lookup_lt_Some..].
  intros x' y' Hx Hy. simplify_eq. destruct (str_le_total x y) as [|Hle]; [done|].
  unfold str_le in Hle. congruence.
Qed.

Definition tr (i j m : nat) : nat := if (m =? i)%nat then j else if (m =? j)%nat then i else m.

Lemma lookup_swap sel i j m :
  (i < List.length sel)%nat -> (j < List.length sel)%nat -> swap sel i j !! m = sel !! tr i j m.
Proof.
  intros Hi Hj. destruct (lookup_lt_is_Some_2 _ _ Hi) as [x Hx].
  destruct (lookup_lt_is_Some_2 _ _ Hj) as [y Hy]. unfold swap, tr. rewrite Hx, Hy.
  rewrite !list_lookup_insert, length_insert.
  destruct (Nat.eqb_spec m i), (Nat.eqb_spec m j); repeat case_decide; naive_solver lia.
Qed.

Lemma le_at_swap sel i j a b :
  (i < List.length sel)%nat -> (j < List.length sel)%nat ->
  le_at sel (tr i j a) (tr i j b) -> le_at (swap sel i j) a b.
Proof. intros Hi Hj Hle x y. rewrite !lookup_swap by done. apply Hle. Qed.

Lemma swap_perm sel i j : swap sel i j ≡ₚ sel.
Proof.
  unfold swap. destruct (sel !! i) as [x|] eqn:Ei; [| done].
  destruct (sel !! j) as [y|] eqn:Ej; [| done]. by apply Permutation_insert_swap.
Qed.

Lemma swap_length sel i j : List.length (swap sel i j) = List.length sel.
Proof. apply Permutation_length, swap_perm. Qed.

(** While an element moves up, only its own edge may be wrong. *)
Definition rising (sel : list string) (i : nat) : Prop :=
  (forall j, (0 < j)%nat -> j <> i -> le_at sel j (parent j)) /\
  (forall j, (0 < j)%nat -> (0 < i)%nat -> parent j = i -> le_at sel j (parent i)).

Lemma rising_step sel i :
  (0 < i < List.length sel)%nat -> le_at sel (parent i) i -> rising sel i ->
  rising (swap sel (parent i) i) (parent i).
Proof.
  intros Hi Hle [He Hg]. pose proof (parent_lt i) as Hp.
  split.
  - intros j Hj Hne. apply le_at_swap; [lia..|].
    pose proof (parent_lt j) as Hpj.
    unfold tr. destruct (Nat.eqb_spec j (parent i)); [done|].
    destruct (Nat.eqb_spec j i) as [->|]; [rewrite Nat.eqb_refl; done|].
    destruct (Nat.eqb_spec (parent j) (parent i)) as [E|].
    { apply le_at_trans with (parent i); [lia | | done]. rewrite <- E. by apply He. }
    destruct (Nat.eqb_spec (parent j) i); [apply Hg; lia | by apply He].
  - intros j Hj Hpp E. apply le_at_swap; [lia..|].
    pose proof (parent_lt (parent i)) as Hpi.
    pose proof (parent_lt j) as Hpj.
    unfold tr. destruct (Nat.eqb_spec j (parent i)); [lia|].
    destruct (Nat.eqb_spec (parent (parent i)) (parent i)); [lia|].
    destruct (Nat.eqb_spec (parent (parent i)) i); [lia|].
    assert (le_at sel (parent i) (parent (parent i))) by (apply He; lia).
    destruct (Nat.eqb_spec j i); [done|].
    apply le_at_trans with (parent i); [lia | | done]. rewrite <- E. by apply He.
Qed.

Lemma siftUp_heap fuel : forall sel i,
  (i <= fuel)%nat -> (i < List.length sel)%nat -> rising sel i ->
  heap (siftUp fuel sel i) /\ siftUp fuel sel i ≡ₚ sel.
Proof.
  induction fuel as [|fuel IH]; intros sel i Hf Hi Hr; cbn [siftUp].
  { split; [| done]. intros j Hj. apply Hr; lia. }
  destruct (Nat.eqb_spec i 0) as [->|Hpos]; [split; [intros j Hj; apply Hr; lia | done]|].
  fold (parent i). pose proof (parent_lt i).
  destruct (at_least sel (parent i) i) eqn:E.
  - split; [| done]. intros j Hj. destruct (decide (j = i)) as [->|]; [by apply at_least_true | by apply Hr].
  - apply at_least_false in E as [Hle _].
    destruct (IH (swap sel (parent i) i) (parent i)) as [Hh Hp];
      [lia | rewrite swap_length; lia | apply rising_step; [lia | done..] |].
    split; [done|]. etrans; [done | apply swap_perm].
Qed.

(** While an element sinks, only the edges of its children may be wrong. *)
Definition sinking (sel : list string) (i : nat) : Prop :=
  (forall j, (0 < j)%nat -> parent j <> i -> le_at sel j (parent j)) /\
  (forall j, (0 < j)%nat -> (0 < i)%nat -> parent j = i -> le_at sel j (parent i)).

Lemma larger_spec sel c m :
  (m < List.length sel)%nat ->
  let r := larger sel c m in
  (r = c \/ r = m) /\ (r < List.length sel)%nat /\ le_at sel m r /\ le_at sel c r.
Proof.
  intros Hm. unfold larger. destruct (Nat.ltb_spec c (List.length sel)) as [Hc|Hc]; cbn [andb].
  - destruct (at_least sel m c) eqn:E; cbn [negb].
    + apply at_least_true in E. split_and!; auto using le_at_refl.
    + apply at_least_false in E as [E _]. split_and!; auto using le_at_refl.
  - split_and!; auto using le_at_refl. intros x y Hx. apply lookup_lt_Some in Hx. lia.
Qed.

Lemma child_of i j : (0 < j)%nat -> parent j = i <-> j = (2 * i + 1)%nat \/ j = (2 * i + 2)%nat.
Proof.
  intros Hj. unfold parent. pose proof (Nat.div_mod_eq (j - 1) 2) as E.
  pose proof (Nat.mod_upper_bound (j - 1) 2). split; [lia|].
  intros [-> | ->]; symmetry; [apply Nat.div_unique with 0%nat | apply Nat.div_unique with 1%nat]; lia.
Qed.

(** The largest of a node and its children. *)
Lemma largest_spec sel i :
  (i < List.length sel)%nat ->
  let m := larger sel (2 * i + 2) (larger sel (2 * i + 1) i) in
  (m = i \/ (0 < m)%nat /\ parent m = i) /\ (m < List.length sel)%nat /\ le_at sel i m /\
  (forall j, (0 < j)%nat -> parent j = i -> le_at sel j m).
Proof.
  intros Hi. cbn zeta. destruct (larger_spec sel (2 * i + 1) i Hi) as (H1 & L1 & A1 & B1).
  destruct (larger_spec sel (2 * i + 2) _ L1) as (H2 & L2 & A2 & B2).
  set (a := larger sel (2 * i + 1) i) in *. set (m := larger sel (2 * i + 2) a) in *.
  split_and!; [| done | by apply le_at_trans with a |].
  - destruct H2 as [-> | ->]; [right | destruct H1 as [-> | ->]; [right | by left]].
    all: split; [lia | apply child_of; lia].
  - intros j Hj E. apply child_of in E; [| done].
    destruct E as [-> | ->]; [by apply le_at_trans with a | done].
Qed.

Lemma sinking_step sel i m :
  (i < List.length sel)%nat -> (m < List.length sel)%nat -> (0 < m)%nat -> parent m = i ->
  le_at sel i m -> (forall j, (0 < j)%nat -> parent j = i -> le_at sel j m) ->
  sinking sel i -> sinking (swap sel i m) m.
Proof.
  intros Hi Hm Hpos Hc Him Hch [He Hg]. pose proof (parent_lt m Hpos) as Hlt. split.
  - intros j Hj Hne. apply le_at_swap; [done..|]. pose proof (parent_lt j Hj) as Hpj. unfold tr.
    destruct (Nat.eqb_spec (parent j) m); [done|].
    destruct (Nat.eqb_spec (parent j) i) as [E|E].
    + destruct (Nat.eqb_spec j i); [lia|]. destruct (Nat.eqb_spec j m); auto.
    + destruct (Nat.eqb_spec j i) as [->|]; [apply Hg; lia|].
      destruct (Nat.eqb_spec j m) as [->|]; [done | by apply He].
  - intros j Hj _ E. apply le_at_swap; [done..|]. pose proof (parent_lt j Hj) as Hpj. unfold tr.
    rewrite Hc, Nat.eqb_refl. destruct (Nat.eqb_spec j i); [lia|].
    destruct (Nat.eqb_spec j m); [lia|]. rewrite <- E. apply He; lia.
Qed.

Lemma siftDown_heap fuel : forall sel i,
  (List.length sel <= fuel + i)%nat -> (i < List.length sel)%nat -> sinking sel i ->
  heap (siftDown fuel sel i) /\ siftDown fuel sel i ≡ₚ sel.
Proof.
  induction fuel as [|fuel IH]; intros sel i Hf Hi Hs; [lia|]. cbn [siftDown].
  destruct (largest_spec sel i Hi) as (Hm & Hlt & Him & Hch).
  set (m := larger sel (2 * i + 2) (larger sel (2 * i + 1) i)) in *.
  destruct (Nat.eqb_spec m i) as [E|E].
  - split; [| done]. intros j Hj. destruct (decide (parent j = i)) as [Ej|]; [| by apply Hs].
    rewrite Ej, <- E. by apply Hch.
  - destruct Hm as [|[Hpos Hp]]; [done|]. pose proof (parent_lt m Hpos).
    destruct (IH (swap sel i m) m) as [Hh Hp'];
      [rewrite swap_length; lia | by rewrite swap_length | by apply sinking_step |].
    split; [done|]. etrans; [done | apply swap_perm].
Qed.

(** The root of a heap is its largest element. *)
Lemma heap_top sel x : heap sel -> x ∈ sel -> exists top, sel !! 0%nat = Some top /\ str_le x top.
Proof.
  intros Hh [i Hi]%list_elem_of_lookup. revert x Hi.
  induction (lt_wf i) as [i _ IH]; intros x Hi. destruct (decide (i = 0%nat)) as [->|].
  { exists x. split; [done|]. by destruct (str_le_total x x). }
  pose proof (parent_lt i ltac:(lia)) as Hp.
  destruct (lookup_lt_is_Some_2 sel (parent i)) as [y Hy].
  { apply lookup_lt_Some in Hi. lia. }
  destruct (IH _ Hp y Hy) as (top & Ht & Hle). exists top. split; [done|].
  etrans; [| done]. by apply (Hh i); [lia|..].
Qed.

(** [sel] holds the [limit] smallest of the keys seen so far. *)
Definition smallest (limit : nat) (seen sel : list string) : Prop :=
  heap sel /\ List.length sel = Nat.min limit (List.length seen) /\
  exists rest, (sel ++ rest)%list ≡ₚ seen /\ forall x y, x ∈ sel -> y ∈ rest -> str_le x y.

Lemma smallest_push limit seen sel k :
  (List.length sel < limit)%nat -> smallest limit seen sel ->
  smallest limit (k :: seen) (siftUp (List.length sel) (sel ++ [k])%list (List.length sel)).
Proof.
  intros Hl (Hh & Hn & rest & Hp & Hr).
  assert (rest = []) as ->.
  { apply Permutation_length in Hp. rewrite length_app in Hp. destruct rest; [done | cbn in Hp; lia]. }
  rewrite app_nil_r in Hp.
  destruct (siftUp_heap (List.length sel) (sel ++ [k])%list (List.length sel)) as [Hh' Hp'];
    [lia | rewrite length_app; cbn; lia | |].
  { split.
    - intros j Hj Hne x y Hx Hy. destruct (decide (j < List.length sel)%nat).
      + pose proof (parent_lt j Hj). rewrite !lookup_app_l in * by lia. by apply (Hh j Hj).
      + apply lookup_lt_Some in Hx. rewrite length_app in Hx. cbn in Hx. lia.
    - intros j Hj _ E x y Hx. apply lookup_lt_Some in Hx. rewrite length_app in Hx. cbn in Hx.
      pose proof (parent_lt j Hj). lia. }
  split_and!; [done | rewrite Hp', length_app; cbn; lia |].
  exists []. split; [| by intros x y _ ?%not_elem_of_nil].
  rewrite app_nil_r, Hp', Hp. by rewrite Permutation_app_comm.
Qed.

Lemma smallest_replace limit seen sel k top :
  (limit <= List.length sel)%nat -> sel !! 0%nat = Some top -> String.leb top k = false ->
  smallest limit seen sel ->
  smallest limit (k :: seen) (siftDown (List.length sel) (<[0%nat := k]> sel) 0).
Proof.
  intros Hl Ht Hk (Hh & Hn & rest & Hp & Hr).
  assert (str_le k top) as Hkt.
  { destruct (str_le_total k top) as [|Hle]; [done|]. unfold str_le in Hle. congruence. }
  pose proof (lookup_lt_Some _ _ _ Ht) as H0.
  destruct (siftDown_heap (List.length sel) (<[0%nat := k]> sel) 0) as [Hh' Hp'];
    [rewrite length_insert; lia | by rewrite length_insert | |].
  { split; [| intros; lia]. intros j Hj Hne x y. rewrite !list_lookup_insert_ne by lia. by apply Hh. }
  destruct sel as [|t sel]; [done|]. cbn in Ht. simplify_eq. cbn [insert list_insert] in *.
  split_and!; [done | rewrite Hp'; apply Permutation_length in Hp; cbn in *; lia |].
  exists (top :: rest). split.
  - rewrite Hp'. cbn. apply Permutation_cons; [done|]. rewrite <- Hp. cbn.
    by rewrite Permutation_middle.
  - intros x y Hx Hy. rewrite Hp' in Hx. apply elem_of_cons in Hy as [->|Hy].
    + apply elem_of_cons in Hx as [->|Hx]; [done|].
      destruct (heap_top (top :: sel) x Hh) as (top' & Ht' & Hle); [by apply elem_of_cons; right|].
      cbn in Ht'. by simplify_eq.
    + apply elem_of_cons in Hx as [->|Hx]; [| by apply Hr; [apply elem_of_cons; right|]].
      etrans; [done|]. apply Hr; [apply elem_of_cons; by left | done].
Qed.

Lemma smallest_skip limit seen sel k top :
  (limit <= List.length sel)%nat -> sel !! 0%nat = Some top -> str_le top k ->
  smallest limit seen sel -> smallest limit (k :: seen) sel.
Proof.
  intros Hl Ht Hk (Hh & Hn & rest & Hp & Hr).
  split_and!; [done | apply Permutation_length in Hp; rewrite length_app in Hp; cbn; lia |].
  exists (k :: rest). split; [by rewrite <- Permutation_middle, Hp|].
  intros x y Hx [->|Hy]%elem_of_cons; [| by apply Hr].
  destruct (heap_top sel x Hh Hx) as (top' & Ht' & Hle). simplify_eq. by etrans.
Qed.

Lemma selectStep_smallest limit seen sel k :
  (0 < limit)%nat -> smallest limit seen sel -> smallest limit (k :: seen) (selectStep limit sel k).
Proof.
  intros Hpos Hs. unfold selectStep. destruct (Nat.ltb_spec (List.length sel) limit) as [Hl|Hl].
  { by apply smallest_push. }
  destruct (lookup_lt_is_Some_2 sel 0) as [top Ht]; [lia|]. rewrite Ht.
  destruct (String.leb top k) eqn:E; [by eapply smallest_skip | by eapply smallest_replace].
Qed.

Lemma smallest_fold limit keys : forall seen sel,
  (0 < limit)%nat -> smallest limit seen sel ->
  smallest limit (rev keys ++ seen)%list (fold_left (selectStep limit) keys sel).
Proof.
  induction keys as [|k keys IH]; intros seen sel Hpos Hs; [done|]. cbn.
  rewrite <- app_assoc. apply IH; [done|]. by apply selectStep_smallest.
Qed.

Lemma smallest_sorted limit seen sel :
  smallest limit seen sel -> sort_strings sel = take limit (sort_strings seen).
Proof.
  intros (_ & Hn & rest & Hp & Hr).
  assert (sort_strings seen = (sort_strings sel ++ sort_strings rest)%list) as ->.
  { apply (Sorted_unique str_le); [apply sort_strings_sorted | |].
    - apply StronglySorted_Sorted, StronglySorted_app. split_and!.
      + intros x y Hx Hy. apply Hr; by apply elem_of_sort_strings.
      + apply Sorted_StronglySorted; [apply _ | apply sort_strings_sorted].
      + apply Sorted_StronglySorted; [apply _ | apply sort_strings_sorted].
    - by rewrite !sort_strings_perm. }
  apply Permutation_length in Hp. rewrite length_app in Hp.
  destruct (decide (limit <= List.length seen)%nat).
  - rewrite take_app_length'; [done|]. rewrite sort_strings_perm. lia.
  - destruct rest; [| cbn in Hp; lia]. rewrite app_nil_r, take_ge; [done|].
    rewrite sort_strings_perm. lia.
Qed.

Lemma select_sorted keys limit :
  sort_strings (selectSmallestKeys keys limit) = take limit (sort_strings keys).
Proof.
  unfold selectSmallestKeys. destruct (Nat.eqb_spec limit 0) as [->|Hpos]; [done|].
  assert (smallest limit (rev keys ++ [])%list (fold_left (selectStep limit) keys [])) as Hs.
  { apply smallest_fold; [lia|]. split_and!; [by intros i _ x y Hx | by rewrite Nat.min_0_r |].
    exists []. split; [done | by intros x y _ ?%not_elem_of_nil]. }
  rewrite (smallest_sorted _ _ _ Hs). f_equal. apply (Sorted_unique str_le);
    [apply sort_strings_sorted.. |]. rewrite !sort_strings_perm, app_nil_r.
  symmetry. apply Permutation_rev.
Qed.

(** The bounded heap returns exactly the [limit] lexicographically smallest keys, the
    first [limit] of the sorted key set, in whatever order the map yields the keys. *)
Theorem selectSmallestKeys_smallest keys keys' limit :
  keys ≡ₚ keys' -> selectSmallestKeys keys limit ≡ₚ take limit (sort_strings keys').
Proof.
  intros Hp. rewrite <- (sort_strings_perm (selectSmallestKeys keys limit)), select_sorted.
  replace (sort_strings keys') with (sort_strings keys); [done|].
  apply (Sorted_unique str_le); [apply sort_strings_sorted.. |]. by rewrite !sort_strings_perm.
Qed.

Lemma selectSmallestKeys_smallest_witness :
  selectSmallestKeys ["d"; "a"; "c"; "e"; "b"] 3 ≡ₚ ["a"; "b"; "c"].
Proof. apply (selectSmallestKeys_smallest ["d"; "a"; "c"; "e"; "b"] ["a"; "b"; "c"; "d"; "e"] 3). vm_compute. solve_Permutation. Defined.

(** ** Map iteration order does not show *)

(** Two values that differ only in the iteration order of their maps. *)
Inductive same : value -> value -> Prop :=
| same_refl v : same v v
| same_array l l' : Forall2 same l l' -> same (VArray l) (VArray l')
| same_object l m l' :
    NoDup (map fst l) ->
    Forall2 (fun p q => fst p = fst q /\ same (snd p) (snd q)) l m -> m ≡ₚ l' ->
    same (VObject l) (VObject l').

(** Entries that no lookup and no key selection tells apart. *)
Definition alike (es es' : list (string * bounder)) : Prop :=
  map fst es ≡ₚ map fst es' /\ forall k b, entry_of k es b = entry_of k es' b.

Lemma alike_length es es' : alike es es' -> List.length es = List.length es'.
Proof. intros [Hp%Permutation_length _]. by rewrite !length_map in Hp. Qed.

Lemma sort_strings_proper l l' : l ≡ₚ l' -> sort_strings l = sort_strings l'.
Proof.
  intros Hp. apply (Sorted_unique str_le); [apply sort_strings_sorted.. |].
  by rewrite !sort_strings_perm.
Qed.

Lemma mapLoop_alike es es' keys : alike es es' -> forall i out b,
  mapLoop es keys i out b = mapLoop es' keys i out b.
Proof.
  intros Ha. pose proof (alike_length _ _ Ha) as Hl. destruct Ha as [_ He].
  induction keys as [|k keys IH]; intros i out b; cbn [mapLoop]; [done|].
  unfold count. rewrite Hl. case_match; [done|]. rewrite He. by destruct (entry_of k es' _).
Qed.

Lemma boundDetailMap_alike es es' b : alike es es' -> boundDetailMap es b = boundDetailMap es' b.
Proof.
  intros Ha. pose proof (alike_length _ _ Ha) as Hl. unfold boundDetailMap, count. rewrite Hl.
  case_match; [done|]. rewrite !select_sorted, (sort_strings_proper _ _ (proj1 Ha)).
  by rewrite (mapLoop_alike es es' _ Ha).
Qed.

Lemma entry_of_perm (es es' : list (string * bounder)) k :
  es ≡ₚ es' -> NoDup (map fst es) -> entry_of k es = entry_of k es'.
Proof.
  induction 1 as [|[k1 f] es es' Hp IH|[k1 f] [k2 g] es|es1 es2 es3 H1 IH1 H2 IH2]; intros Hnd; cbn in *.
  - done.
  - apply NoDup_cons in Hnd as [_ Hnd]. by rewrite IH.
  - apply NoDup_cons in Hnd as [Hin _]. destruct (String.eqb_spec k k1), (String.eqb_spec k k2); try done.
    subst. destruct Hin. apply list_elem_of_here.
  - rewrite IH1 by done. apply IH2. by rewrite <- (Permutation_map fst H1).
Qed.

(** The bounds of the entries of an object. *)
Definition bounders (d : nat) (l : list (string * value)) : list (string * bounder) :=
  map (fun '(k, e) => (k, boundDetailValue e d)) l.

Lemma bounders_fst d l : map fst (bounders d l) = map fst l.
Proof. unfold bounders. rewrite map_map. apply map_ext. by intros []. Qed.

Lemma bounders_alike d l m l' :
  Forall2 (fun p q => fst p = fst q /\ forall b, boundDetailValue (snd p) d b = boundDetailValue (snd q) d b) l m ->
  NoDup (map fst l) -> m ≡ₚ l' -> alike (bounders d l) (bounders d l').
Proof.
  intros Hf Hnd Hp.
  assert (map fst l = map fst m) as Hk by (clear Hnd Hp; induction Hf as [|? ? ? ? [] ? IH]; cbn; congruence).
  split.
  - rewrite !bounders_fst, Hk. by apply Permutation_map.
  - intros k b. rewrite <- (entry_of_perm (bounders d m) (bounders d l')).
    + clear Hnd Hp Hk. induction Hf as [|[k1 v] [k2 v'] l m [Hk Hv] _ IH]; [done|].
      cbn in *. subst. by case_match.
    + by apply Permutation_map.
    + by rewrite bounders_fst, <- Hk.
Qed.

Lemma sliceLoop_ext {T} (mk : string -> T) (fs gs : list (Z -> T * Z)) total :
  Forall2 (fun f g => forall b, f b = g b) fs gs ->
  forall b, sliceLoop mk total fs b = sliceLoop mk total gs b.
Proof.
  intros Hf. pose proof Hf as Hl%Forall2_length. revert Hl.
  induction Hf as [|f g fs gs Hfg Hf IH]; intros Hl b; cbn [sliceLoop]; [done|].
  unfold count. rewrite Hl. case_match; [done|]. rewrite Hfg. destruct (g b) as [v b'].
  cbn in Hl. by rewrite IH by lia.
Qed.

Lemma bound_same v : forall v', same v v' ->
  forall d b, boundDetailValue v d b = boundDetailValue v' d b.
Proof.
  induction v as [| | | | | | | |l IH|l IH] using value_tree_ind; intros v' Hs; inversion Hs; subst; try done.
  - intros d b. cbn [boundDetailValue]. case_match; [done|]. unfold boundDetailSlice, count.
    match goal with H : Forall2 same l ?l' |- _ => rename l' into m; rename H into Hf end.
    assert (Forall2 (fun f g => forall b, f b = g b)
      (map (fun e => boundDetailValue e (S d)) l) (map (fun e => boundDetailValue e (S d)) m)) as Hm.
    { clear -IH Hf. induction Hf as [|x y l m Hxy Hf IHf]; cbn; [constructor|].
      apply Forall_cons in IH as [Hx IH]. constructor; [by apply Hx | by apply IHf]. }
    rewrite (Forall2_length _ _ _ Hm). destruct (b - denialDetailContainerCost <? 0)%Z; [done|]. by rewrite (sliceLoop_ext _ _ _ _ Hm).
  - intros d b. cbn [boundDetailValue]. case_match; [done|].
    fold (bounders (S d) l) (bounders (S d) l').
    rewrite (boundDetailMap_alike (bounders (S d) l) (bounders (S d) l')); [done|].
    apply bounders_alike with m; [| done..].
    match goal with H : Forall2 _ l m |- _ => rename H into Hf end. clear -IH Hf.
    induction Hf as [|x y l m [Hk Hxy] Hf IHf]; [constructor|].
    apply Forall_cons in IH as [Hx IH]. constructor; [split; [done | intros b; by apply Hx] | by apply IHf].
Qed.

Lemma topLoop_alike share es es' keys : alike es es' -> forall out,
  topLoop share es keys out = topLoop share es' keys out.
Proof.
  intros [_ He]. induction keys as [|k keys IH]; intros out; cbn [topLoop]; [done|].
  by rewrite He, IH.
Qed.

(** The bounded details do not depend on the iteration order of any map inside the
    echoed values, so two identical denied calls write identical records. *)
Theorem bound_order_free d d' :
  same (VObject d) (VObject d') -> BoundDenialDetails d = BoundDenialDetails d'.
Proof.
  inversion 1 as [| |l m l' Hnd Hf Hp]; subst; [done|].
  assert (alike (bounders 0 d) (bounders 0 d')) as Ha.
  { apply bounders_alike with m; [| done..]. eapply Forall2_impl; [done|].
    intros p q [Hk Hs]. split; [done|]. intros b. by apply bound_same. }
  pose proof (alike_length _ _ Ha) as Hl. unfold bounders in Hl. rewrite !length_map in Hl.
  pose proof (proj1 Ha) as Hk. rewrite !bounders_fst in Hk.
  destruct d as [|p d], d' as [|p' d']; [done | cbn in Hl; lia.. |].
  unfold BoundDenialDetails. fold (bounders 0 (p :: d)) (bounders 0 (p' :: d')).
  set (e := p :: d) in *. set (e' := p' :: d') in *.
  unfold count. rewrite Hl, (sort_strings_proper _ _ Hk), (topLoop_alike _ _ _ _ Ha). done.
Qed.

Lemma bound_order_free_witness :
  let inner := VObject [("y", VNull); ("x", VBool true)] in
  let inner' := VObject [("x", VBool true); ("y", VNull)] in
  BoundDenialDetails [("a", inner); ("b", VNull)] = BoundDenialDetails [("b", VNull); ("a", inner')].
Proof.
  apply bound_order_free.
  apply same_object with [("a", VObject [("x", VBool true); ("y", VNull)]); ("b", VNull)].
  - by apply (bool_decide_unpack _).
  - repeat constructor.
    apply same_object with [("y", VNull); ("x", VBool true)]; [by apply (bool_decide_unpack _) | repeat constructor | constructor].
  - constructor.
Defined.

(** ** The size of what is recorded *)

Section sum.
Context {A : Type} (f : A -> Z).
Fixpoint sum (l : list A) : Z :=
  match l with
  | [] => 0
  | x :: l => f x + sum l
  end%Z.
End sum.

(** The text of a value and of its keys, and eight bytes for every node. *)
Fixpoint weight (v : value) : Z :=
  match v with
  | VNull | VBool _ | VInt _ | VFloat _ => 8
  | VNumber s | VString s | VBytes s => 8 + len s
  | VStrings l => 8 + sum (fun s => 8 + len s) l
  | VArray l => 8 + sum weight l
  | VObject l => 8 + sum (fun e => len (fst e) + weight (snd e)) l
  end%Z.

Definition entries_weight (out : details) : Z := sum (fun e => len (fst e) + weight (snd e))%Z out.

(** Maps with distinct keys, container sizes a Go [int] can hold, and no element of an
    array at the depth where values are cut without a charge. *)
Fixpoint chargeable (depth : nat) (v : value) : Prop :=
  match v with
  | VArray l =>
      (Z.of_nat (List.length l) < two63)%Z /\ (S depth < maxDenialDetailDepth \/ l = [])%nat /\
      (fix go l := match l with [] => True | e :: l => chargeable (S depth) e /\ go l end) l
  | VObject l =>
      (Z.of_nat (List.length l) < two63)%Z /\ NoDup (map fst l) /\
      (fix go l := match l with [] => True | e :: l => chargeable (S depth) (snd e) /\ go l end) l
  | VStrings l => (Z.of_nat (List.length l) < two63)%Z
  | _ => True
  end.

Lemma sum_nonneg {A} (f : A -> Z) l : (forall x, x ∈ l -> 0 <= f x)%Z -> (0 <= sum f l)%Z.
Proof.
  induction l as [|x l IH]; intros Hf; cbn; [done|].
  pose proof (Hf x (list_elem_of_here _ _)). enough (0 <= sum f l)%Z by lia.
  apply IH. intros y Hy. apply Hf. by apply list_elem_of_further.
Qed.

Lemma weight_nonneg v : (0 <= weight v)%Z.
Proof.
  induction v as [| |s| | |s|s|l|l IH|l IH] using value_tree_ind; cbn [weight];
    try lia; try (pose proof (len_nonneg s); lia).
  - enough (0 <= sum (fun s => 8 + len s) l)%Z by lia. apply sum_nonneg. intros s _.
    pose proof (len_nonneg s). lia.
  - enough (0 <= sum weight l)%Z by lia. apply sum_nonneg. by apply Forall_forall.
  - enough (0 <= sum (fun e => len (fst e) + weight (snd e)) l)%Z by lia. apply sum_nonneg.
    intros e He. rewrite Forall_forall in IH. pose proof (IH e He). pose proof (len_nonneg (fst e)). lia.
Qed.

Lemma put_weight k v out :
  (entries_weight (put k v out) <= entries_weight out + len k + weight v)%Z.
Proof.
  unfold entries_weight. induction out as [|[k' v'] out IH]; cbn; [lia|].
  pose proof (len_nonneg k'). pose proof (weight_nonneg v'). case_match; cbn in *; lia.
Qed.

(** A decimal of an int64 has at most 64 digits: one for each binary digit. *)
Lemma little_digits p : (Decimal.nb_digits (Pos.to_little_uint p) <= Pos.size_nat p)%nat.
Proof.
  assert (forall d, (Decimal.nb_digits (Decimal.Little.double d) <= S (Decimal.nb_digits d))%nat /\
                    (Decimal.nb_digits (Decimal.Little.succ_double d) <= S (Decimal.nb_digits d))%nat) as Hd.
  { intros d. induction d as [|d [IH1 IH2]|d [IH1 IH2]|d [IH1 IH2]|d [IH1 IH2]|d [IH1 IH2]
      |d [IH1 IH2]|d [IH1 IH2]|d [IH1 IH2]|d [IH1 IH2]|d [IH1 IH2]]; cbn in *; lia. }
  induction p as [p IH|p IH|]; cbn in *; [pose proof (Hd (Pos.to_little_uint p)); lia.. | lia].
Qed.

Lemma uint_string_length d : String.length (DecimalString.NilEmpty.string_of_uint d) = Decimal.nb_digits d.
Proof. induction d; cbn; congruence. Qed.

Lemma size_two63 : Pos.size_nat 9223372036854775808 = 64%nat.
Proof. vm_compute. reflexivity. Qed.

Lemma pos_lt_of_Z p q : (Z.pos p < Z.pos q)%Z -> (p < q)%positive.
Proof. auto. Qed.

Lemma size_nat_int64 p : (0 <= Z.pos p < two63)%Z -> (Pos.size_nat p <= 64)%nat.
Proof.
  intros [_ Hn]. rewrite <- size_two63. apply Pos.size_nat_monotone.
  by apply pos_lt_of_Z.
Qed.

Lemma itoa_len n : (0 <= n < two63)%Z -> (len (itoa n) <= 64)%Z.
Proof.
  intros Hn. destruct n as [|p|p]; [done | | lia].
  unfold len, itoa. cbn [Z.to_int DecimalString.NilEmpty.string_of_int].
  rewrite uint_string_length. unfold Pos.to_uint. rewrite DecimalFacts.nb_digits_rev.
  change 64%Z with (Z.of_nat 64). apply inj_le. etrans; [apply little_digits|].
  by apply size_nat_int64.
Qed.

(** No marker weighs more than this, with its key. *)
Definition markerMax : Z := 192.

Lemma markers_small n t :
  (0 <= n < two63)%Z -> (0 <= t < two63)%Z ->
  (len DenialDetailElidedKey + 8 + len (entriesElided n) <= markerMax)%Z /\
  (len DenialDetailElidedKey + 8 + len (entriesElidedOf n t) <= markerMax)%Z /\
  (8 + len (elementsElided n) <= markerMax)%Z /\ (8 + len (elementsElidedOf n t) <= markerMax)%Z.
Proof.
  intros Hn Ht. apply itoa_len in Hn, Ht. unfold entriesElided, entriesElidedOf, elementsElided, elementsElidedOf.
  rewrite !len_app. unfold markerMax.
  change (len DenialDetailElidedKey) with 13%Z. change (len " entries elided") with 15%Z.
  change (len " of ") with 4%Z. change (len "[eunox: ") with 8%Z.
  change (len " elements elided]") with 17%Z. lia.
Qed.

(** A bounder pays for its output: at most [rate] for each unit of budget, plus [over] when
    it exhausts the budget, plus [free] that it never pays for. *)
Definition rate : Z := 32.

Definition paid (B B' over : Z) : Z :=
  (rate * (B - Z.max B' 0) + (if (B' <? 0)%Z then over else 0))%Z.

Definition pays {T} (w : T -> Z) (over free : Z) (f : Z -> T * Z) : Prop :=
  forall B, (0 <= B)%Z -> (snd (f B) <= B)%Z /\ (w (fst (f B)) <= paid B (snd (f B)) over + free)%Z.

Ltac paid_lia := unfold paid, rate, markerMax in *; repeat case_match; bools; lia.

Lemma charge_pays s B over :
  (0 <= B)%Z -> (23 <= over)%Z ->
  let '(b, B') := chargeBoundedString s B in
  (B' <= B)%Z /\ (8 + len (default DenialDetailElided b) <= paid B B' over)%Z.
Proof.
  intros HB Ho. unfold chargeBoundedString. set (t := boundDetailString s).
  pose proof (len_nonneg t) as Ht. destruct (Z.ltb_spec (len t) denialDetailScalarCost) as [Hl|Hl];
    unfold denialDetailScalarCost in *.
  all: destruct (Z.ltb_spec (B - 8) 0), (Z.ltb_spec (B - len t) 0); cbn [default id]; try lia;
    change (len DenialDetailElided) with 15%Z; paid_lia.
Qed.

Lemma sliceLoop_pays {T} (w : T -> Z) (mk : string -> T) over total elems :
  (forall n, 0 <= n < two63 -> w (mk (elementsElidedOf n total)) <= markerMax)%Z ->
  (forall x, 0 <= w x)%Z -> (count elems < two63)%Z -> (0 <= over)%Z ->
  Forall (pays w over 0) elems -> forall B,
  let '(out, B') := sliceLoop mk total elems B in
  (B' <= B)%Z /\
  (sum w out <= if (B <? 0)%Z then markerMax else paid B B' (over + markerMax))%Z.
Proof.
  intros Hm Hw Hc Ho Hf. induction Hf as [|f elems Hf _ IH]; intros B; cbn [sliceLoop sum].
  { split; [done|]. paid_lia. }
  destruct (Z.ltb_spec B 0) as [Hneg|Hpos].
  { split; [done|]. cbn [sum]. pose proof (Hm (count (f :: elems))). unfold count in *. lia. }
  destruct (Hf B Hpos) as [Hle Hpay]. destruct (f B) as [v B1]. cbn [fst snd] in *.
  specialize (IH ltac:(unfold count in *; cbn in Hc; lia) B1).
  destruct (sliceLoop mk total elems B1) as [out B']. destruct IH as [Hle' IH]. split; [lia|].
  cbn [sum]. paid_lia.
Qed.

Lemma slice_pays {T} (w : T -> Z) (mk : string -> T) over over' elems B :
  (forall n t, 0 <= n < two63 -> 0 <= t < two63 ->
    w (mk (elementsElided n)) <= markerMax /\ w (mk (elementsElidedOf n t)) <= markerMax)%Z ->
  (forall x, 0 <= w x)%Z -> (count elems < two63)%Z -> (0 <= over)%Z -> (over + 200 <= over')%Z ->
  Forall (pays w over 0) elems -> (0 <= B)%Z ->
  let '(out, B') := boundDetailSlice mk elems B in
  (B' <= B)%Z /\ (8 + sum w out <= paid B B' over')%Z.
Proof.
  intros Hm Hw Hc Ho Ho' Hf HB. unfold boundDetailSlice, denialDetailContainerCost.
  assert (0 <= count elems)%Z by (unfold count; lia).
  destruct (Z.ltb_spec (B - 8) 0) as [Hneg|Hpos].
  - split; [lia|]. cbn [sum]. pose proof (proj1 (Hm (count elems) (count elems) ltac:(lia) ltac:(lia))).
    paid_lia.
  - pose proof (sliceLoop_pays w mk over (count elems) elems) as Hl.
    specialize (Hl (fun n Hn => proj2 (Hm n (count elems) Hn ltac:(lia))) Hw Hc Ho Hf (B - 8)%Z).
    destruct (sliceLoop _ _ _ _) as [out B']. destruct Hl as [Hle Hl]. split; [lia|]. paid_lia.
Qed.

(** What a key may leave unpaid: only the empty key is charged nothing. *)
Definition slack (keys : list string) : Z := if bool_decide ("" ∈ keys) then 24%Z else 0%Z.

Lemma charged_key k :
  let L := len (escapeReservedDetailKey (boundDetailString k)) in (0 <= L)%Z /\ (L = 0%Z -> k = "").
Proof.
  cbn zeta. split; [apply len_nonneg|]. unfold escapeReservedDetailKey. case_match.
  { rewrite len_app. pose proof (len_nonneg (boundDetailString k)). change (len denialDetailForgedKeyPrefix) with 14%Z. lia. }
  intros E. destruct (decide (k = "")) as [|Hne]; [done | exfalso].
  assert (boundDetailString k = "") as Hk by (unfold len in E; destruct (boundDetailString k); [done | cbn in E; lia]).
  apply ToValidUTF8_nonempty in Hne. unfold boundDetailString, maxDenialDetailStringLen in Hk.
  destruct (Z.le_gt_cases (len (ToValidUTF8 k replacementRune)) 512).
  - apply Hne. rewrite <- Hk. unfold BoundString. by rewrite (proj2 (Z.leb_le _ _)).
  - by apply (BoundString_cut_nonempty k 512); [lia|].
Qed.

Lemma slack_cons k keys L :
  NoDup (k :: keys) -> (0 <= L)%Z -> (L = 0%Z -> k = "") -> (L + 24 + slack keys <= 32 * L + slack (k :: keys))%Z.
Proof.
  intros [Hk _]%NoDup_cons HL H0. unfold slack. destruct (decide (L = 0%Z)) as [E|E].
  - rewrite (H0 E) in *. rewrite bool_decide_eq_false_2 by done.
    rewrite bool_decide_eq_true_2 by apply list_elem_of_here. lia.
  - destruct (bool_decide_reflect ("" ∈ keys)) as [Hin|].
    + rewrite bool_decide_eq_true_2 by (by apply list_elem_of_further). lia.
    + case_bool_decide; lia.
Qed.

Lemma entry_of_pays (es : list (string * bounder)) over k :
  (0 <= over)%Z -> Forall (fun e => pays weight over 24 (snd e)) es -> pays weight over 24 (entry_of k es).
Proof.
  intros Ho Hf. induction Hf as [|[k' f] es Hf _ IH]; cbn [entry_of].
  - intros B HB. cbn. split; [done|]. paid_lia.
  - by destruct (String.eqb k k').
Qed.

Lemma mapLoop_pays (es : list (string * bounder)) over keys :
  (0 <= over)%Z -> (count es < two63)%Z -> Forall (fun e => pays weight over 24 (snd e)) es -> NoDup keys ->
  forall i out B, (Z.of_nat i + count keys <= count es)%Z ->
  let '(out', B', stopped) := mapLoop es keys i out B in
  (B' <= B)%Z /\
  (entries_weight out' + (if stopped then 0 else markerMax) <=
   entries_weight out + markerMax + (if B <? 0 then 0 else paid B B' over + slack keys))%Z.
Proof.
  intros Ho Hc Hf. induction keys as [|k keys IH]; intros Hnd i out B Hi; cbn [mapLoop].
  { split; [done|]. unfold slack. case_bool_decide; paid_lia. }
  pose proof (charged_key k) as Hk. set (bk := escapeReservedDetailKey (boundDetailString k)) in *.
  cbn zeta in Hk. destruct Hk as [HL H0].
  assert (0 <= slack (k :: keys))%Z by (unfold slack; case_bool_decide; lia).
  destruct (Z.ltb_spec (B - len bk) 0) as [Hneg|Hpos].
  - split; [lia|]. unfold count in *. cbn [List.length] in Hi.
    pose proof (put_weight DenialDetailElidedKey (VString (entriesElidedOf (Z.of_nat (List.length es) - Z.of_nat i) (Z.of_nat (List.length es)))) out) as Hp.
    cbn [weight] in Hp.
    destruct (markers_small (Z.of_nat (List.length es) - Z.of_nat i) (Z.of_nat (List.length es))) as (_ & Hm & _); [lia..|].
    clear IH. paid_lia.
  - destruct (entry_of_pays es over k Ho Hf _ Hpos) as [Hle Hpay].
    destruct (entry_of k es (B - len bk)%Z) as [v B2]. cbn [fst snd] in *.
    apply NoDup_cons in Hnd as Hnd'. destruct Hnd' as [_ Hnd'].
    specialize (IH Hnd' (S i) (put bk v out) B2 ltac:(unfold count in *; cbn [List.length] in Hi; lia)).
    destruct (mapLoop es keys (S i) (put bk v out) B2) as [[out' B'] st]. destruct IH as [Hle' IH].
    split; [lia|]. pose proof (put_weight bk v out). pose proof (slack_cons k keys _ Hnd HL H0).
    assert (0 <= slack keys)%Z by (unfold slack; case_bool_decide; lia).
    paid_lia.
Qed.

Lemma slack_range keys : (0 <= slack keys <= 24)%Z.
Proof. unfold slack. case_bool_decide; lia. Qed.

Lemma selected_keys (es : list (string * bounder)) b :
  let keys := sort_strings (selectSmallestKeys (map fst es) (boundedPrealloc (List.length es) b)) in
  NoDup (map fst es) -> NoDup keys /\ (List.length keys <= List.length es)%nat.
Proof.
  cbn zeta. intros Hnd. rewrite select_sorted. split.
  - apply (sublist_NoDup _ (sort_strings (map fst es))); [by rewrite sort_strings_perm | apply sublist_take].
  - rewrite length_take, sort_strings_perm, length_map. lia.
Qed.

Lemma map_pays (es : list (string * bounder)) over B :
  (0 <= over)%Z -> (count es < two63)%Z -> NoDup (map fst es) ->
  Forall (fun e => pays weight over 24 (snd e)) es -> (0 <= B)%Z ->
  let '(out, B') := boundDetailMap es B in
  (B' <= B)%Z /\ (8 + entries_weight out <= paid B B' (over + 256))%Z.
Proof.
  intros Ho Hc Hnd Hf HB. unfold boundDetailMap, denialDetailContainerCost.
  assert (0 <= count es)%Z by (unfold count; lia).
  destruct (markers_small (count es) (count es) ltac:(lia) ltac:(lia)) as (Hm & _).
  destruct (Z.ltb_spec (B - 8) 0) as [Hneg|Hpos].
  { split; [lia|]. cbn [entries_weight sum fst snd weight]. unfold entries_weight. cbn [sum fst snd weight]. paid_lia. }
  destruct (selected_keys es (B - 8)%Z Hnd) as [Hnk Hlk].
  set (keys := sort_strings _) in *. pose proof (slack_range keys).
  pose proof (mapLoop_pays es over keys Ho Hc Hf Hnk 0 [] (B - 8)%Z ltac:(unfold count; lia)) as Hl.
  destruct (mapLoop es keys 0 [] (B - 8)%Z) as [[out B'] st]. destruct Hl as [Hle Hl].
  cbn [entries_weight sum] in Hl. destruct st; cbn [negb andb].
  { split; [lia|]. paid_lia. }
  destruct (List.length keys <? List.length es)%nat; (split; [lia|]).
  - pose proof (put_weight DenialDetailElidedKey (VString (entriesElidedOf (count es - count keys) (count es))) out) as Hp.
    destruct (markers_small (count es - count keys) (count es)) as (_ & Hm2 & _); [unfold count in *; lia..|].
    cbn [weight] in Hp. paid_lia.
  - paid_lia.
Qed.

Definition overAt (d : nat) : Z := (256 * (8 - Z.of_nat d))%Z.

Lemma chargeable_array d l : chargeable d (VArray l) ->
  (count l < two63)%Z /\ (S d < maxDenialDetailDepth \/ l = [])%nat /\ Forall (chargeable (S d)) l.
Proof.
  cbn [chargeable]. intros (Hc & Hd & Hl). split_and!; [done | done |].
  clear Hc Hd. induction l as [|e l IH]; [constructor|]. destruct Hl. constructor; auto.
Qed.

Lemma chargeable_object d l : chargeable d (VObject l) ->
  (count l < two63)%Z /\ NoDup (map fst l) /\ Forall (fun e => chargeable (S d) (snd e)) l.
Proof.
  cbn [chargeable]. intros (Hc & Hd & Hl). split_and!; [done | done |].
  clear Hc Hd. induction l as [|e l IH]; [constructor|]. destruct Hl. constructor; auto.
Qed.

Lemma cut_pays v d : (maxDenialDetailDepth <= d)%nat -> pays weight 0 24 (boundDetailValue v d).
Proof.
  intros Hd B HB. assert (boundDetailValue v d B = (VString DenialDetailElided, B)) as ->.
  { destruct v; cbn [boundDetailValue]; by rewrite (proj2 (Nat.leb_le _ _) Hd). }
  cbn. change (len DenialDetailElided) with 15%Z. split; [done|]. paid_lia.
Qed.

Lemma string_slice_pays l over B :
  (count l < two63)%Z -> (223 <= over)%Z -> (0 <= B)%Z ->
  let '(out, B') := boundDetailSlice id (map boundStringElem l) B in
  (B' <= B)%Z /\ (8 + sum (fun s => 8 + len s) out <= paid B B' over)%Z.
Proof.
  intros Hc Ho HB. apply (slice_pays (fun s => 8 + len s)%Z id 23 over); [| | | lia | lia | | done].
  - intros n t Hn Ht. destruct (markers_small n t Hn Ht) as (_ & _ & H1 & H2). done.
  - intros x. pose proof (len_nonneg x). lia.
  - unfold count. by rewrite length_map.
  - apply Forall_map, Forall_true. intros s B1 HB1. unfold boundStringElem.
    pose proof (charge_pays s B1 23 HB1 ltac:(lia)) as Hp.
    destruct (chargeBoundedString s B1) as [b B2]. cbn [fst snd]. lia.
Qed.

(** [v] pays for its output wherever it can be charged. *)
Definition value_ok (v : value) : Prop :=
  forall d, chargeable d v -> (d < maxDenialDetailDepth)%nat ->
  pays weight (overAt d) 0 (boundDetailValue v d).

Lemma array_pays l d B :
  Forall value_ok l -> chargeable d (VArray l) -> (d < maxDenialDetailDepth)%nat -> (0 <= B)%Z ->
  let '(out, B') := boundDetailSlice VString (map (fun e => boundDetailValue e (S d)) l) B in
  (B' <= B)%Z /\ (8 + sum weight out <= paid B B' (overAt d))%Z.
Proof.
  intros IH (Hn & Hdl & Hc)%chargeable_array Hd HB.
  apply (slice_pays weight VString (overAt (S d)) (overAt d)); [| apply weight_nonneg | | | | | done].
  - intros n t Hn' Ht. destruct (markers_small n t Hn' Ht) as (_ & _ & H1 & H2). done.
  - unfold count. by rewrite length_map.
  - unfold overAt, maxDenialDetailDepth in *. lia.
  - unfold overAt. lia.
  - destruct Hdl as [Hd'| ->]; [| constructor]. apply Forall_map. rewrite Forall_forall in IH, Hc |- *.
    intros e He. apply IH; auto.
Qed.

Lemma object_pays l d B :
  Forall (fun e => value_ok (snd e)) l -> chargeable d (VObject l) -> (d < maxDenialDetailDepth)%nat ->
  (0 <= B)%Z ->
  let '(out, B') := boundDetailMap (bounders (S d) l) B in
  (B' <= B)%Z /\ (8 + entries_weight out <= paid B B' (overAt d))%Z.
Proof.
  intros IH (Hn & Hnd & Hc)%chargeable_object Hd HB.
  replace (overAt d) with (overAt (S d) + 256)%Z by (unfold overAt; lia).
  apply map_pays; [unfold overAt, maxDenialDetailDepth in *; lia
                  | unfold count, bounders; by rewrite length_map | by rewrite bounders_fst | | done].
  apply Forall_map. rewrite Forall_forall in IH, Hc |- *. intros [k e] He B1 HB1. cbn [snd].
  destruct (decide (S d < maxDenialDetailDepth)%nat) as [Hd'|Hd'].
  - destruct (IH _ He (S d) (Hc _ He) Hd' B1 HB1). cbn [snd] in *. lia.
  - destruct (cut_pays e (S d) ltac:(lia) B1 HB1) as [H1 H2]. split; [done|].
    unfold overAt, maxDenialDetailDepth in *. paid_lia.
Qed.

Lemma value_pays v : value_ok v.
Proof.
  induction v as [| |s| | |s|s|l|l IH|l IH] using value_tree_ind; intros d Hc Hd B HB;
    cbn [boundDetailValue]; rewrite (proj2 (Nat.leb_gt _ _) Hd);
    assert (256 <= overAt d)%Z as Ho by (unfold overAt, maxDenialDetailDepth in *; lia).
  1,2,4,5: unfold chargeScalar, denialDetailScalarCost; cbn [fst snd]; (split; [lia|]);
    destruct (Z.ltb_spec (B - 8) 0); cbn [weight]; change (len DenialDetailElided) with 15%Z; paid_lia.
  1,2,3: pose proof (charge_pays s B (overAt d) HB ltac:(lia)) as Hs;
    destruct (chargeBoundedString s B) as [[b|] B']; cbn [fst snd weight default id] in *; lia.
  - pose proof (string_slice_pays l (overAt d) B Hc ltac:(lia) HB) as Hs.
    destruct (boundDetailSlice id _ B) as [out B']. cbn [fst snd weight]. lia.
  - pose proof (array_pays l d B IH Hc Hd HB) as Hs.
    destruct (boundDetailSlice VString _ B) as [out B']. cbn [fst snd weight]. lia.
  - pose proof (object_pays l d B IH Hc Hd HB) as Hs. fold (bounders (S d) l).
    destruct (boundDetailMap _ B) as [out B']. cbn [fst snd weight]. unfold entries_weight in Hs. lia.
Qed.

Lemma keyShare_ok n : (0 < n)%nat ->
  (512 <= keyShare n)%Z /\ (Z.of_nat (Nat.min n 16) * keyShare n <= 8192)%Z.
Proof.
  intros Hn. unfold keyShare, maxDenialDetailsBytes, minDenialDetailKeyBudget.
  pose proof (Z.mul_div_le 8192 (Z.of_nat n) ltac:(lia)) as Hd.
  destruct (Z.ltb_spec (8192 / Z.of_nat n) 512); split; try lia.
Qed.

Lemma key_len k : (len (escapeReservedDetailKey (boundDetailString k)) <= 512)%Z.
Proof.
  unfold escapeReservedDetailKey, boundDetailString, maxDenialDetailStringLen.
  case_match eqn:E; [| by apply BoundString_fits]. apply String.eqb_eq in E. rewrite E. by vm_compute.
Qed.

Lemma topLoop_weight share (es : list (string * bounder)) keys :
  (512 <= share)%Z -> Forall (fun e => pays weight (overAt 0) 24 (snd e)) es -> forall out,
  (entries_weight (topLoop share es keys out) <=
   entries_weight out + count keys * (rate * share + overAt 0 + 24))%Z.
Proof.
  intros Hs Hf. induction keys as [|k keys IH]; intros out; cbn [topLoop]; [unfold count; cbn; lia|].
  pose proof (key_len k) as Hk. set (bk := escapeReservedDetailKey (boundDetailString k)) in *.
  pose proof (len_nonneg bk).
  destruct (entry_of_pays es (overAt 0) k ltac:(by vm_compute) Hf (share - len bk)%Z ltac:(lia)) as [Hle Hp].
  set (v := entry_of k es (share - len bk)%Z) in *.
  specialize (IH (put bk (fst v) out)). pose proof (put_weight bk (fst v) out).
  assert (paid (share - len bk) (snd v) (overAt 0) <= rate * (share - len bk) + overAt 0)%Z.
  { unfold paid, rate, overAt. case_match; lia. }
  replace (count (k :: keys)) with (count keys + 1)%Z by (unfold count; cbn [List.length]; lia).
  unfold rate in *. lia.
Qed.

(** What a record of a denial can weigh, whatever the caller sent. *)
Definition detailsMax : Z := 300000.

Definition chargeable_details (d : details) : Prop :=
  (count d < two63)%Z /\ NoDup (map fst d) /\ forall e, e ∈ d -> chargeable 0 (snd e).

(** The details recorded with a denial weigh at most a fixed number of bytes, however
    large the echoed values are, when no array of the caller sits at the depth where values
    are cut without a charge. *)
Theorem details_bounded d :
  chargeable_details d -> (entries_weight (BoundDenialDetails d) <= detailsMax)%Z.
Proof.
  intros (Hc & Hnd & Hd). destruct d as [|e d]; [by vm_compute|].
  unfold BoundDenialDetails. fold (bounders 0 (e :: d)). set (l := e :: d) in *.
  destruct (keyShare_ok (List.length l)) as [Hs Ht]; [cbn; lia|].
  assert (Forall (fun e => pays weight (overAt 0) 24 (snd e)) (bounders 0 l)) as Hf.
  { apply Forall_map, Forall_forall. intros [k v] Hv B HB. cbn [snd].
    destruct (value_pays v 0 (Hd _ Hv) ltac:(unfold maxDenialDetailDepth; lia) B HB). lia. }
  set (keys := sort_strings (map fst l)).
  assert (List.length keys = List.length l) as Hk by (unfold keys; by rewrite sort_strings_perm, length_map).
  pose proof (topLoop_weight (keyShare (List.length l)) _ (take maxDenialDetailTopLevelKeys keys) Hs Hf []) as Hw.
  unfold count in Hw at 1. rewrite length_take, Hk in Hw.
  set (out := topLoop _ _ _ _) in *. change (entries_weight []) with 0%Z in Hw.
  assert (entries_weight out <= 299000)%Z as Ho.
  { unfold rate, overAt, maxDenialDetailTopLevelKeys in Hw. rewrite Nat.min_comm in Hw. nia. }
  unfold detailsMax. case_match eqn:E; [| lia]. apply Nat.ltb_lt in E. rewrite Hk in E.
  pose proof (put_weight DenialDetailElidedKey
    (VString (entriesElidedOf (count keys - Z.of_nat maxDenialDetailTopLevelKeys) (count l))) out) as Hp.
  destruct (markers_small (count keys - Z.of_nat maxDenialDetailTopLevelKeys) (count l)) as (_ & Hm & _);
    [unfold count, maxDenialDetailTopLevelKeys in *; rewrite ?Hk; lia.. |].
  cbn [weight] in Hp. unfold markerMax in Hm. lia.
Qed.

Lemma details_bounded_witness :
  let d := [("argument", VArray (repeat (VString "") 2000)); ("value", VString "x")] in
  chargeable_details d /\ (entries_weight (BoundDenialDetails d) <= detailsMax)%Z.
Proof.
  cbn zeta. set (d := [_; _]).
  assert (chargeable_details d) as Hc.
  { split_and!; [by vm_compute | by apply (bool_decide_unpack _) |].
    intros e [->|[->|[]%not_elem_of_nil]%elem_of_cons]%elem_of_cons; [| done].
    cbn [snd chargeable]. split_and!; [by vm_compute | left; unfold maxDenialDetailDepth; lia |].
    subst d. generalize 2000%nat. intros n. by induction n. }
  split; [done | by apply details_bounded].
Defined.

(** ** The cut at the depth limit is not charged *)

Fixpoint nest (n : nat) (v : value) : value :=
  match n with
  | O => v
  | S n => VArray [nest n v]
  end.

Lemma nest_bound n v d B :
  (n + d < maxDenialDetailDepth)%nat -> (8 * Z.of_nat n <= B)%Z ->
  boundDetailValue (nest n v) d B =
  (nest n (fst (boundDetailValue v (n + d) (B - 8 * Z.of_nat n)%Z)),
   snd (boundDetailValue v (n + d) (B - 8 * Z.of_nat n)%Z)).
Proof.
  revert d B. induction n as [|n IH]; intros d B Hd HB.
  { cbn [nest plus]. rewrite Z.sub_0_r. apply surjective_pairing. }
  cbn [nest boundDetailValue]. rewrite (proj2 (Nat.leb_gt _ _)) by lia.
  unfold boundDetailSlice, denialDetailContainerCost. rewrite (proj2 (Z.ltb_ge (B - 8) 0)) by lia.
  cbn [map sliceLoop]. rewrite (proj2 (Z.ltb_ge (B - 8) 0)) by lia. rewrite IH by lia.
  replace (n + S d)%nat with (S n + d)%nat by lia.
  by replace (B - 8 - 8 * Z.of_nat n)%Z with (B - 8 * Z.of_nat (S n))%Z by lia.
Qed.

Lemma free_elements n d B :
  (S d = maxDenialDetailDepth)%nat -> (8 <= B)%Z ->
  boundDetailValue (VArray (repeat VNull n)) d B = (VArray (repeat (VString DenialDetailElided) n), (B - 8)%Z).
Proof.
  intros Hd HB. cbn [boundDetailValue]. rewrite (proj2 (Nat.leb_gt _ _)) by lia.
  unfold boundDetailSlice, denialDetailContainerCost. rewrite (proj2 (Z.ltb_ge (B - 8) 0)) by lia.
  generalize (count (map (fun e => boundDetailValue e (S d)) (repeat VNull n))). intros total.
  assert (sliceLoop VString total (map (fun e => boundDetailValue e (S d)) (repeat VNull n)) (B - 8)
    = (repeat (VString DenialDetailElided) n, (B - 8)%Z)) as ->; [| done].
  induction n as [|n IH]; [done|]. cbn [repeat map sliceLoop]. rewrite (proj2 (Z.ltb_ge (B - 8) 0)) by lia.
  cbn [boundDetailValue]. rewrite (proj2 (Nat.leb_le maxDenialDetailDepth (S d))) by lia. by rewrite IH.
Qed.

(** The total bound does not hold for every input.  The elements of an array nested
    eight deep are replaced by a marker that is not charged to the budget, so the recorded
    details grow with the caller's array without limit. *)
Theorem depth_cut_unbounded (limit : nat) :
  exists d, (forall k v, (k, v) ∈ d -> k = "value") /\
    (Z.of_nat limit < entries_weight (BoundDenialDetails d))%Z.
Proof.
  exists [("value", nest 7 (VArray (repeat VNull limit)))]. split.
  { intros k v [E|[]%not_elem_of_nil]%elem_of_cons. congruence. }
  unfold BoundDenialDetails. cbn [map sort_strings List.length fst].
  change (sort_strings ["value"]) with ["value"].
  change (maxDenialDetailTopLevelKeys <? List.length ["value"])%nat with false.
  cbn [take maxDenialDetailTopLevelKeys].
  cbn [topLoop entry_of]. change (String.eqb "value" "value") with true. cbn match.
  change (keyShare 1 - _)%Z with 8187%Z.
  rewrite nest_bound by (unfold maxDenialDetailDepth; lia). rewrite free_elements by done. cbn [fst snd].
  unfold entries_weight. cbn [put sum fst snd]. cbn [nest weight sum].
  assert (sum weight (repeat (VString DenialDetailElided) limit) = 23 * Z.of_nat limit)%Z as ->.
  { induction limit as [|n IH]; [done|]. cbn [repeat sum weight]. rewrite IH.
    change (len DenialDetailElided) with 15%Z. lia. }
  pose proof (len_nonneg (escapeReservedDetailKey (boundDetailString "value"))). lia.
Qed.

End DenialDetails.
