(* ===== verification/CaseFold.v ===== *)
(** * Case folding of keys

    pkg/capability/json_fold.go and json_ambiguous.go.  Go's Unicode tables are the class
    [Unicode]: [SimpleFold] walks the orbit of a rune under simple case folding.  What the
    code relies on of them is [UnicodeLaws].  [EqualFold] is [strings.EqualFold]: rune-wise
    equality of orbits. *)
From stdpp Require Import base tactics list strings.
From Stdlib Require Import ZArith Lia Ascii String.
From S2P Require Import Prelude GoStrings GoPath Truncate Float64 Runes Capability.
#[local] Open Scope string_scope.
#[local] Open Scope Z_scope.
#[local] Arguments String.append : simpl nomatch.
Import GoPath Truncate Runes Capability.

(** [caseFold] is Unicode's simple case folding, which decides what two runes have the same
    case variants; [orbitMax] bounds the number of variants of a rune; the last two are the
    shortest decimals of a float64, with ([%v]) and without
    ([strconv.FormatFloat(f, 'f', -1, 64)]) an exponent. *)
Class Unicode := {
  SimpleFold : Z -> Z;
  caseFold : Z -> Z;
  orbitMax : nat;
  ToUpper : string -> string;
  ToLower : string -> string;
  FormatFloat : float64 -> string;
  FormatFixed : float64 -> string;
}.

Fixpoint iter (f : Z -> Z) (n : nat) (r : Z) : Z :=
  match n with
  | O => r
  | S n => f (iter f n r)
  end.

(** A scalar value and one of its case variants. *)
Definition variant {U : Unicode} (r x : Z) : Prop := valid_rune x = true /\ caseFold x = caseFold r.

(** The documentation of unicode.SimpleFold: "Among the code points equivalent to rune
    (including rune itself), SimpleFold returns the smallest rune > r if one exists, or else
    the smallest rune >= 0."  That walking on comes back to the rune is not said there and
    not assumed here: it is [CaseFold.SimpleFold_cycle] below. *)
Class UnicodeLaws (U : Unicode) : Prop := {
  SimpleFold_variant r : valid_rune r = true -> variant r (SimpleFold r);
  SimpleFold_above r x : valid_rune r = true -> variant r x -> r < x -> r < SimpleFold r <= x;
  SimpleFold_wraps r x : valid_rune r = true -> variant r x ->
    (forall y, variant r y -> y <= r) -> SimpleFold r <= x;
  variants_bounded r l : valid_rune r = true -> NoDup l -> Forall (variant r) l ->
    (List.length l <= orbitMax)%nat;
}.

Module CaseFold.
Section fold.
Context `{U : Unicode}.

(** ** Orbits *)

(** [b] is met on the walk from [a]. *)
Fixpoint meets (fuel : nat) (a b : Z) : bool :=
  (a =? b) || match fuel with O => false | S fuel => meets fuel (SimpleFold a) b end.

Definition sameOrbit (a b : Z) : bool := meets orbitMax a b.

Fixpoint all2 (f : Z -> Z -> bool) (a b : list Z) : bool :=
  match a, b with
  | [], [] => true
  | x :: a, y :: b => f x y && all2 f a b
  | _, _ => false
  end.

Definition EqualFold (a b : string) : bool := all2 sameOrbit (runesOf a) (runesOf b).

(** ** json_fold.go *)

Definition RuneSelf : Z := 128.

Definition preferredFoldRune (a b : Z) : Z :=
  let aASCII := a <? RuneSelf in
  let bASCII := b <? RuneSelf in
  if negb (Bool.eqb aASCII bASCII) then (if aASCII then a else b) else Z.max a b.

(** The walk from [f] back to [r]. *)
Fixpoint foldLoop (fuel : nat) (r f best : Z) : Z :=
  match fuel with
  | O => best
  | S fuel => if f =? r then best else foldLoop fuel r (SimpleFold f) (preferredFoldRune best f)
  end.

Definition canonicalFoldRune (r : Z) : Z := foldLoop orbitMax r (SimpleFold r) r.

Definition canonicalCaseFoldFrom (s : string) : string := encode (map canonicalFoldRune (runesOf s)).

(** The scan: what was read stays as it is until a rune is not its own representative. *)
Fixpoint foldScan (fuel : nat) (s : string) : string :=
  match fuel, s with
  | S fuel, String c s' =>
      let '(r, size) := DecodeRuneInString s in
      if negb (canonicalFoldRune r =? r) || ((r =? RuneError) && (size =? 1)%nat)
      then canonicalCaseFoldFrom s
      else take_str size s ++ foldScan fuel (drop_str size s)
  | _, _ => EmptyString
  end.

Definition canonicalCaseFold (s : string) : string := foldScan (String.length s) s.

Definition FoldJSONKey (key : string) : string := canonicalCaseFold key.

(** ** json_ambiguous.go *)

Definition maxAmbiguousKeyScanDepth : nat := 64.

Inductive ambiguityRefusal :=
| TooDeep (path : string)
| SameName (prior key path : string).

Fixpoint seen_lookup (folded : string) (seen : list (string * string)) : option string :=
  match seen with
  | [] => None
  | (f, key) :: seen' => if String.eqb folded f then Some key else seen_lookup folded seen'
  end.

(** The walk of a parsed document, in which an object keeps its members in the order and
    with the duplicates of the text. *)
Fixpoint scanAmbiguousKeys (v : value) (path : string) (depth : nat) : option ambiguityRefusal :=
  match v with
  | VObject members =>
      if (maxAmbiguousKeyScanDepth <=? depth)%nat then Some (TooDeep path)
      else
        (fix scanObjectMembers (members : list (string * value)) (seen : list (string * string)) :=
          match members with
          | [] => None
          | (key, v) :: members =>
              let folded := FoldJSONKey key in
              match seen_lookup folded seen with
              | Some prior => Some (SameName prior key path)
              | None =>
                  match scanAmbiguousKeys v (path ++ "." ++ key) (S depth) with
                  | Some e => Some e
                  | None => scanObjectMembers members ((folded, key) :: seen)
                  end
              end
          end) members []
  | VArray l =>
      if (maxAmbiguousKeyScanDepth <=? depth)%nat then Some (TooDeep path)
      else
        (fix scanElements (l : list value) (i : nat) :=
          match l with
          | [] => None
          | e :: l =>
              match scanAmbiguousKeys e (path ++ "[" ++ itoa (Z.of_nat i) ++ "]") (S depth) with
              | Some e => Some e
              | None => scanElements l (S i)
              end
          end) l 0%nat
  | _ => None
  end.

Definition RefuseAmbiguousJSONKeys (doc : value) : option ambiguityRefusal := scanAmbiguousKeys doc "" 0.

(** ** The representative of an orbit *)

Definition Orb (a b : Z) : Prop := exists n, b = iter SimpleFold n a.

Lemma iter_add n m r : iter SimpleFold (n + m) r = iter SimpleFold n (iter SimpleFold m r).
Proof. induction n as [|n IH]; cbn; [done | by rewrite IH]. Qed.

Lemma iter_shift n r : iter SimpleFold n (SimpleFold r) = SimpleFold (iter SimpleFold n r).
Proof. induction n as [|n IH]; cbn; [done | by rewrite IH]. Qed.

(** ASCII first, then by value. *)
Definition pref_le (a b : Z) : Prop :=
  if Bool.eqb (a <? RuneSelf) (b <? RuneSelf) then a <= b else RuneSelf <= a.

Lemma pref_le_refl a : pref_le a a.
Proof. unfold pref_le. rewrite Bool.eqb_reflx. lia. Qed.

Lemma pref_le_trans a b c : pref_le a b -> pref_le b c -> pref_le a c.
Proof.
  unfold pref_le, RuneSelf. destruct (Z.ltb_spec a 128), (Z.ltb_spec b 128), (Z.ltb_spec c 128); cbn; lia.
Qed.

Lemma pref_le_antisym a b : pref_le a b -> pref_le b a -> a = b.
Proof. unfold pref_le, RuneSelf. destruct (Z.ltb_spec a 128), (Z.ltb_spec b 128); cbn; lia. Qed.

Lemma preferred_max a b :
  pref_le a (preferredFoldRune a b) /\ pref_le b (preferredFoldRune a b) /\
  (preferredFoldRune a b = a \/ preferredFoldRune a b = b).
Proof.
  unfold preferredFoldRune, pref_le, RuneSelf.
  destruct (Z.ltb_spec a 128), (Z.ltb_spec b 128); cbn [negb Bool.eqb];
    try destruct (Z.max_spec a b) as [[? ->]|[? ->]];
    repeat match goal with |- context [?x <? 128] => destruct (Z.ltb_spec x 128) end; cbn; lia.
Qed.

Context {L : UnicodeLaws U}.

(** ** The walk comes back

    [SimpleFold] goes up to the next variant and from the greatest to the least, so it
    reaches every variant; it is injective on the variants of a rune, and these are at most
    [orbitMax], so two of the first [orbitMax + 1] runes of the walk are equal and the walk
    has returned to its start. *)

Lemma SimpleFold_valid r : valid_rune r = true -> valid_rune (SimpleFold r) = true.
Proof. intros Hr. apply (SimpleFold_variant r Hr). Qed.

Lemma variant_refl r : valid_rune r = true -> variant r r.
Proof. done. Qed.

Lemma variant_sym a b : valid_rune a = true -> variant a b -> variant b a.
Proof. intros Ha [Hb E]. by split. Qed.

Lemma variant_trans a b c : variant a b -> variant b c -> variant a c.
Proof. intros [Hb E] [Hc E']. split; [done | congruence]. Qed.

Lemma iter_variant n r : valid_rune r = true -> variant r (iter SimpleFold n r).
Proof.
  intros Hr. induction n as [|n IH]; [by apply variant_refl|]. cbn [iter].
  eapply variant_trans; [done|]. apply SimpleFold_variant, IH.
Qed.

(** Of two variants the smaller does not go where the greater goes. *)
Lemma SimpleFold_lt a b : valid_rune a = true -> variant a b -> a < b -> SimpleFold a <> SimpleFold b.
Proof.
  intros Ha Hab Hlt E. destruct (SimpleFold_above a b Ha Hab Hlt) as [H1 H2].
  pose proof (variant_sym _ _ Ha Hab) as Hba.
  assert (forall y, variant b y -> y <= b) as Hmax.
  { intros y Hy. destruct (Z.le_gt_cases y b) as [|Hb]; [done|].
    destruct (SimpleFold_above b y (proj1 Hab) Hy Hb). lia. }
  pose proof (SimpleFold_wraps b a (proj1 Hab) Hba Hmax). lia.
Qed.

Lemma SimpleFold_inj a b : valid_rune a = true -> variant a b -> SimpleFold a = SimpleFold b -> a = b.
Proof.
  intros Ha Hab E. destruct (Z.lt_trichotomy a b) as [H|[H|H]]; [| done |].
  - by apply SimpleFold_lt in H.
  - apply SimpleFold_lt in H; [congruence | apply Hab | by apply variant_sym].
Qed.

Lemma iter_cancel r i : valid_rune r = true -> forall j,
  iter SimpleFold i r = iter SimpleFold (i + j) r -> iter SimpleFold j r = r.
Proof.
  intros Hr. induction i as [|i IH]; intros j E; [done|]. apply IH. cbn [iter Nat.add] in E.
  apply SimpleFold_inj in E; [done | by apply iter_variant |].
  apply variant_trans with r; [apply variant_sym; [done|] |]; by apply iter_variant.
Qed.

Lemma NoDup_walk r n : valid_rune r = true ->
  (forall p, (1 <= p <= n)%nat -> iter SimpleFold p r <> r) ->
  NoDup (map (fun i => iter SimpleFold i r) (seq 0 (S n))).
Proof.
  intros Hr Hp. apply NoDup_fmap_2_strong; [| apply NoDup_seq].
  assert (forall i j, (i <= j <= n)%nat -> iter SimpleFold i r = iter SimpleFold j r -> i = j) as Hle.
  { intros i j Hij E. destruct (decide (i = j)) as [|Hne]; [done|]. exfalso. apply (Hp (j - i)%nat); [lia|].
    apply (iter_cancel r i Hr). by replace (i + (j - i))%nat with j by lia. }
  intros i j Hi%elem_of_seq Hj%elem_of_seq E.
  destruct (Nat.le_ge_cases i j); [apply Hle; [lia | done] | symmetry; apply Hle; [lia | done]].
Qed.

(** The walk over the variants of a rune is back at the rune within [orbitMax] steps. *)
Lemma SimpleFold_cycle r : valid_rune r = true ->
  exists n, (1 <= n <= orbitMax)%nat /\ iter SimpleFold n r = r.
Proof.
  intros Hr.
  destruct (decide (Exists (fun p => iter SimpleFold p r = r) (seq 1 orbitMax))) as [H|H].
  { apply Exists_exists in H as (p & Hp%elem_of_seq & E). exists p. split; [lia | done]. }
  exfalso. rewrite <- Forall_Exists_neg, Forall_forall in H.
  pose proof (variants_bounded r (map (fun i => iter SimpleFold i r) (seq 0 (S orbitMax))) Hr) as Hb.
  rewrite length_map, length_seq in Hb. enough (S orbitMax <= orbitMax)%nat by lia. apply Hb.
  - apply NoDup_walk; [done|]. intros p Hp. apply H. apply elem_of_seq. lia.
  - apply Forall_map, Forall_forall. intros i _. by apply iter_variant.
Qed.

(** The walk up from a smaller variant meets every greater one. *)
Lemma walk_up k : forall o x, valid_rune o = true -> variant o x -> o <= x -> x - o < Z.of_nat k -> Orb o x.
Proof.
  induction k as [|k IH]; intros o x Ho Hx Hle Hk; [lia|].
  destruct (Z.eq_dec o x) as [->|Hne]; [by exists 0%nat|].
  destruct (SimpleFold_above o x Ho Hx) as [H1 H2]; [lia|].
  destruct (IH (SimpleFold o) x) as [n ->]; [by apply SimpleFold_valid | | done | lia | by exists (S n); cbn; rewrite iter_shift].
  eapply variant_trans; [| done]. apply variant_sym; [done | by apply SimpleFold_variant].
Qed.

Lemma iter_valid n r : valid_rune r = true -> valid_rune (iter SimpleFold n r) = true.
Proof. intros Hr. induction n as [|n IH]; cbn; [done | by apply SimpleFold_valid]. Qed.

Lemma iter_period p r n : iter SimpleFold p r = r -> (0 < p)%nat ->
  iter SimpleFold n r = iter SimpleFold (n mod p) r.
Proof.
  intros Hp Hpos. rewrite (Nat.div_mod_eq n p) at 1. rewrite Nat.add_comm, iter_add. f_equal.
  induction (n / p)%nat as [|k IH]; [by rewrite Nat.mul_0_r|].
  by rewrite Nat.mul_succ_r, iter_add, Hp.
Qed.

Lemma Orb_refl a : Orb a a.
Proof. by exists 0%nat. Qed.

Lemma Orb_trans a b c : Orb a b -> Orb b c -> Orb a c.
Proof. intros [n ->] [m ->]. exists (m + n)%nat. by rewrite iter_add. Qed.

Lemma Orb_sym a b : valid_rune a = true -> Orb a b -> Orb b a.
Proof.
  intros Ha [n ->]. destruct (SimpleFold_cycle a Ha) as (p & Hp & Hc).
  exists (p * S n - n)%nat. rewrite <- iter_add.
  rewrite (iter_period p a) by (done || lia).
  replace (p * S n - n + n)%nat with (S n * p)%nat by nia. by rewrite Nat.Div0.mod_mul.
Qed.

Lemma meets_iff fuel : forall a b,
  meets fuel a b = true <-> exists n, (n <= fuel)%nat /\ b = iter SimpleFold n a.
Proof.
  induction fuel as [|fuel IH]; intros a b; cbn [meets]; rewrite orb_true_iff, Z.eqb_eq.
  - split; [intros [<-|]; [by exists 0%nat | done]|]. intros (n & Hn & ->).
    replace n with 0%nat by lia. by left.
  - rewrite IH. split.
    + intros [<-|(n & Hn & ->)]; [exists 0%nat; split; [lia | done]|].
      exists (S n). split; [lia | apply iter_shift].
    + intros ([|n] & Hn & ->); [by left|]. right. exists n. split; [lia|]. by rewrite iter_shift.
Qed.

Lemma sameOrbit_iff a b : valid_rune a = true -> sameOrbit a b = true <-> Orb a b.
Proof.
  intros Ha. unfold sameOrbit. rewrite meets_iff. split.
  - intros (n & _ & ->). by exists n.
  - intros [n ->]. destruct (SimpleFold_cycle a Ha) as (p & Hp & Hc).
    exists (n mod p)%nat. split; [| by apply iter_period; [|lia]].
    pose proof (Nat.mod_upper_bound n p). lia.
Qed.

(** The loop returns the preferred rune of the orbit. *)
Lemma foldLoop_max r p fuel : forall k best,
  (1 <= k)%nat -> (k <= p)%nat -> (p < k + fuel)%nat -> iter SimpleFold p r = r ->
  Orb r best -> (forall j, (j < k)%nat -> pref_le (iter SimpleFold j r) best) ->
  let m := foldLoop fuel r (iter SimpleFold k r) best in
  Orb r m /\ forall j, pref_le (iter SimpleFold j r) m.
Proof.
  induction fuel as [|fuel IH]; intros k best Hk Hkp Hf Hp Ho Hm; [lia|]. cbn zeta. cbn [foldLoop].
  destruct (Z.eqb_spec (iter SimpleFold k r) r) as [E|E].
  - split; [done|]. intros j. rewrite (iter_period k r j E) by lia. apply Hm.
    apply Nat.mod_upper_bound. lia.
  - destruct (preferred_max best (iter SimpleFold k r)) as (H1 & H2 & H3).
    apply (IH (S k)); [lia | | lia | done | |].
    + destruct (decide (k = p)) as [->|]; [done | lia].
    + destruct H3 as [-> | ->]; [done | by exists k].
    + intros j Hj. destruct (decide (j = k)) as [->|]; [done|].
      apply pref_le_trans with best; [apply Hm; lia | done].
Qed.

(** The walk is over once it is back at its start: more fuel changes nothing. *)
Lemma foldLoop_stable r p fuel : forall fuel' k best,
  (1 <= k)%nat -> (k <= p)%nat -> (p < k + fuel)%nat -> (p < k + fuel')%nat -> iter SimpleFold p r = r ->
  foldLoop fuel r (iter SimpleFold k r) best = foldLoop fuel' r (iter SimpleFold k r) best.
Proof.
  induction fuel as [|fuel IH]; intros [|fuel'] k best Hk Hkp Hf Hf' Hp; try lia. cbn [foldLoop].
  destruct (Z.eqb_spec (iter SimpleFold k r) r) as [E|E]; [done|].
  apply (IH fuel' (S k)); try lia; try done. destruct (decide (k = p)) as [->|]; [done | lia].
Qed.

Lemma canonicalFoldRune_max r :
  valid_rune r = true ->
  Orb r (canonicalFoldRune r) /\ forall x, Orb r x -> pref_le x (canonicalFoldRune r).
Proof.
  intros Hr. destruct (SimpleFold_cycle r Hr) as (p & Hp & Hc).
  destruct (foldLoop_max r p orbitMax 1 r) as [H1 H2]; [lia | lia | lia | done | apply Orb_refl | |].
  { intros j Hj. replace j with 0%nat by lia. apply pref_le_refl. }
  split; [done|]. intros x [n ->]. apply H2.
Qed.

Lemma canonicalFoldRune_iff a b :
  valid_rune a = true -> valid_rune b = true ->
  canonicalFoldRune a = canonicalFoldRune b <-> Orb a b.
Proof.
  intros Ha Hb. destruct (canonicalFoldRune_max a Ha) as [Oa Ma], (canonicalFoldRune_max b Hb) as [Ob Mb].
  split.
  - intros E. rewrite E in Oa. eapply Orb_trans; [done|]. by apply Orb_sym.
  - intros O. apply pref_le_antisym.
    + apply Mb. apply Orb_trans with a; [by apply Orb_sym | done].
    + apply Ma. by apply Orb_trans with b.
Qed.

(** The walk from a rune meets exactly the rune's case variants. *)
Lemma Orb_variant r x : valid_rune r = true -> Orb r x <-> variant r x.
Proof.
  intros Hr. split; [intros [n ->]; by apply iter_variant|]. intros Hx.
  destruct (Z.le_ge_cases r x) as [H|H].
  - apply (walk_up (S (Z.to_nat (x - r)))); lia || done.
  - apply Orb_sym; [apply Hx|].
    apply (walk_up (S (Z.to_nat (r - x)))); [apply Hx | by apply variant_sym | lia | lia].
Qed.

(** C36: The loop over a rune's case variants terminates: walking on with unicode.SimpleFold,
    which is assumed only to name the next greater variant or else the least one, is back at
    the rune within as many steps as a rune has variants; the loop then has the result any
    longer run would give, and it is a variant of the rune preferred over all its variants
    (an ASCII one first, the greatest of equals), the same for two runes exactly when they
    are variants of each other. *)
Theorem fold_walk_terminates r fuel :
  valid_rune r = true -> (orbitMax <= fuel)%nat ->
  (exists n, (1 <= n <= orbitMax)%nat /\ iter SimpleFold n r = r) /\
  foldLoop fuel r (SimpleFold r) r = canonicalFoldRune r /\
  variant r (canonicalFoldRune r) /\
  (forall x, variant r x -> pref_le x (canonicalFoldRune r)) /\
  (forall x, valid_rune x = true -> canonicalFoldRune x = canonicalFoldRune r <-> variant r x).
Proof.
  intros Hr Hf. destruct (SimpleFold_cycle r Hr) as (p & Hp & E).
  destruct (canonicalFoldRune_max r Hr) as [Ho Hm]. split_and!.
  - by exists p.
  - apply (foldLoop_stable r p fuel orbitMax 1); lia || done.
  - by apply Orb_variant.
  - intros x Hx. by apply Hm, Orb_variant.
  - intros x Hx. rewrite <- Orb_variant, <- canonicalFoldRune_iff by done. split; congruence.
Qed.

Lemma canonicalFoldRune_valid r : valid_rune r = true -> valid_rune (canonicalFoldRune r) = true.
Proof. intros Hr. destruct (canonicalFoldRune_max r Hr) as [[n ->] _]. by apply iter_valid. Qed.

(** ** The fold is the matcher's equivalence *)

Lemma foldScan_runes fuel : forall s, (String.length s <= fuel)%nat ->
  foldScan fuel s = canonicalCaseFoldFrom s.
Proof.
  induction fuel as [|fuel IH]; intros s Hf; [by destruct s; cbn in *; [| lia]|].
  destruct s as [|c s]; [done|]. cbn [foldScan]. set (u := String c s) in *.
  destruct (DecodeRuneInString u) as [r w] eqn:Ed. destruct (_ || _) eqn:Et; [done|].
  apply orb_false_iff in Et as [Ec%negb_false_iff%Z.eqb_eq Ei].
  assert (rune_width u = Some w) as Hw.
  { unfold rune_width, bad_start, u in *. rewrite Ed. cbn [snd]. destruct ((128 <=? byte_val c) && (w =? 1)%nat) eqn:Eb; [| done].
    apply andb_true_iff in Eb as [Hb%Z.leb_le Hw1%Nat.eqb_eq]. subst w. exfalso.
    by apply decode_bad in Ed as ->. }
  apply rune_split in Hw as (c' & r' & t & Eu & -> & Hb).
  rewrite Eu in *. clear u Eu. rewrite (decode_bytes_width c' r' t Hb) in Ed. apply (f_equal fst) in Ed as Er. cbn [fst] in Er.
  destruct (encode_decode c' r' Hb) as [_ He]. rewrite Er in He.
  cbn [take_str drop_str]. rewrite take_str_app, drop_str_app.
  cbn [String.length] in Hf. rewrite str_length_app in Hf. rewrite IH by lia.
  unfold canonicalCaseFoldFrom, runesOf. cbn [String.length runes].
  rewrite (decode_bytes_width c' r' t Hb). cbn [map drop_str]. rewrite drop_str_app, Er, encode_cons, Ec, He.
  do 2 f_equal. f_equal. apply runes_fuel; [lia | rewrite str_length_app; lia].
Qed.

Lemma map_fold_inj a b :
  Forall (fun r => valid_rune r = true) a -> Forall (fun r => valid_rune r = true) b ->
  map canonicalFoldRune a = map canonicalFoldRune b <-> all2 sameOrbit a b = true.
Proof.
  intros Ha. revert b. induction Ha as [|x a Hx Ha IH]; intros [|y b] Hb; cbn; try done.
  apply Forall_cons in Hb as [Hy Hb]. rewrite andb_true_iff, <- IH, sameOrbit_iff by done.
  rewrite <- canonicalFoldRune_iff by done. naive_solver congruence.
Qed.

Lemma fold_iff a b : canonicalCaseFold a = canonicalCaseFold b <-> EqualFold a b = true.
Proof.
  unfold canonicalCaseFold, EqualFold. rewrite !foldScan_runes by lia. unfold canonicalCaseFoldFrom, runesOf.
  rewrite <- map_fold_inj by apply runes_valid.
  assert (forall s, Forall (fun r => valid_rune r = true) (map canonicalFoldRune (runes (String.length s) s))) as Hv.
  { intros s. apply Forall_map. eapply Forall_impl; [apply runes_valid|]. intros r. apply canonicalFoldRune_valid. }
  split; [| by intros ->]. intros E. rewrite <- (runes_encode _ _ (Hv a) (Nat.le_refl _)).
  rewrite <- (runes_encode _ _ (Hv b) (Nat.le_refl _)). by rewrite E.
Qed.

(** Two keys have the same canonical fold exactly when [strings.EqualFold] reports them
    equal, so a check on folds refuses exactly the collisions the matcher and the JSON
    decoder would resolve silently; a fold is its own fold. *)
Theorem fold_is_EqualFold a b :
  (FoldJSONKey a = FoldJSONKey b <-> EqualFold a b = true) /\
  EqualFold a (canonicalCaseFold a) = true.
Proof.
  split; [apply fold_iff|]. apply fold_iff. unfold canonicalCaseFold.
  rewrite !foldScan_runes by lia. unfold canonicalCaseFoldFrom.
  assert (Forall (fun r => valid_rune r = true) (map canonicalFoldRune (runesOf a))) as Hv.
  { apply Forall_map. eapply Forall_impl; [apply runes_valid|]. intros r. apply canonicalFoldRune_valid. }
  unfold runesOf at 2. rewrite (runes_encode _ _ Hv (Nat.le_refl _)), map_map. f_equal.
  apply map_ext_in. intros r Hr%list_elem_of_In.
  assert (valid_rune r = true) as Hvr.
  { pose proof (runes_valid (String.length a) a) as Hf. rewrite Forall_forall in Hf. by apply Hf. }
  symmetry. apply canonicalFoldRune_iff; [by apply canonicalFoldRune_valid | done |].
  destruct (canonicalFoldRune_max r Hvr) as [Ho _]. by apply Orb_sym.
Qed.

(** ** The scan accepts exactly the unambiguous documents *)

(** No object has two members that a decoder would take for the same field, and nesting
    stays under the limit. *)
Fixpoint unambiguous (depth : nat) (v : value) : Prop :=
  match v with
  | VObject members =>
      (depth < maxAmbiguousKeyScanDepth)%nat /\
      ForallOrdPairs (fun a b => EqualFold a b = false) (map fst members) /\
      (fix each (l : list (string * value)) := match l with [] => True | (_, v) :: l => unambiguous (S depth) v /\ each l end) members
  | VArray l =>
      (depth < maxAmbiguousKeyScanDepth)%nat /\
      (fix each (l : list value) := match l with [] => True | v :: l => unambiguous (S depth) v /\ each l end) l
  | _ => True
  end.

Lemma seen_lookup_none folded seen :
  seen_lookup folded seen = None <-> Forall (fun e => folded <> fst e) seen.
Proof.
  induction seen as [|[f k] seen IH]; cbn; [by split|]. rewrite Forall_cons. cbn.
  destruct (String.eqb_spec folded f) as [->|]; [| rewrite IH; naive_solver]. split; [done | naive_solver].
Qed.

Lemma EqualFold_false a b : EqualFold a b = false <-> FoldJSONKey a <> FoldJSONKey b.
Proof. unfold FoldJSONKey. rewrite fold_iff. by destruct (EqualFold a b). Qed.

(** The loop over the members, for the scan of a single value that is right on each. *)
Lemma members_scan depth path members : forall seen,
  Forall (fun e => forall p, scanAmbiguousKeys (snd e) p (S depth) = None <-> unambiguous (S depth) (snd e)) members ->
  (fix scanObjectMembers (members : list (string * value)) (seen : list (string * string)) :=
    match members with
    | [] => None
    | (key, v) :: members =>
        let folded := FoldJSONKey key in
        match seen_lookup folded seen with
        | Some prior => Some (SameName prior key path)
        | None =>
            match scanAmbiguousKeys v (path ++ "." ++ key) (S depth) with
            | Some e => Some e
            | None => scanObjectMembers members ((folded, key) :: seen)
            end
        end
    end) members seen = None <->
  ForallOrdPairs (fun a b => EqualFold a b = false) (map fst members) /\
  Forall (fun k => Forall (fun e => FoldJSONKey k <> fst e) seen) (map fst members) /\
  (fix each (l : list (string * value)) := match l with [] => True | (_, v) :: l => unambiguous (S depth) v /\ each l end) members.
Proof.
  induction members as [|[k v] members IH]; intros seen Hf.
  { split; [| done]. intros _. split_and!; constructor. }
  apply Forall_cons in Hf as [Hv Hf]. cbn [snd] in Hv. cbn zeta. cbn [map fst].
  destruct (seen_lookup (FoldJSONKey k) seen) as [prior|] eqn:Es.
  { split; [done|]. intros (_ & Hs & _). apply Forall_cons in Hs as [Hs _].
    apply seen_lookup_none in Hs. congruence. }
  apply seen_lookup_none in Es. specialize (Hv (path ++ "." ++ k)).
  destruct (scanAmbiguousKeys v (path ++ "." ++ k) (S depth)) as [e|].
  { split; [done|]. intros (_ & _ & Hu & _). by apply Hv in Hu. }
  rewrite (IH ((FoldJSONKey k, k) :: seen) Hf). rewrite Forall_cons.
  assert (Forall (fun k' => Forall (fun e => FoldJSONKey k' <> fst e) ((FoldJSONKey k, k) :: seen)) (map fst members) <->
    Forall (fun b => EqualFold k b = false) (map fst members) /\
    Forall (fun k' => Forall (fun e => FoldJSONKey k' <> fst e) seen) (map fst members)) as ->.
  { rewrite <- Forall_and. apply Forall_iff. intros k'. rewrite Forall_cons, EqualFold_false. cbn. naive_solver. }
  split.
  - intros (Ho & [Hk Hs] & Hu). split_and!; [by constructor; [apply Forall_forall; rewrite Forall_forall in Hk |] | done | done | by apply Hv | done].
  - intros (Ho & [_ Hs] & _ & Hu). inversion Ho; subst. split_and!; done.
Qed.

Lemma elements_scan depth path l : forall i,
  Forall (fun e => forall p, scanAmbiguousKeys e p (S depth) = None <-> unambiguous (S depth) e) l ->
  (fix scanElements (l : list value) (i : nat) :=
    match l with
    | [] => None
    | e :: l =>
        match scanAmbiguousKeys e (path ++ "[" ++ itoa (Z.of_nat i) ++ "]") (S depth) with
        | Some e => Some e
        | None => scanElements l (S i)
        end
    end) l i = None <->
  (fix each (l : list value) := match l with [] => True | v :: l => unambiguous (S depth) v /\ each l end) l.
Proof.
  induction l as [|e l IH]; intros i Hf; [by split|]. apply Forall_cons in Hf as [He Hf].
  specialize (He (path ++ "[" ++ itoa (Z.of_nat i) ++ "]")).
  destruct (scanAmbiguousKeys e _ (S depth)); [| rewrite (IH (S i) Hf); naive_solver].
  split; [done|]. intros [Hu _]. by apply He in Hu.
Qed.

Lemma scan_iff v : forall path depth, scanAmbiguousKeys v path depth = None <-> unambiguous depth v.
Proof.
  induction v as [| | | | | | | |l IH|l IH] using value_tree_ind; intros path depth; try (by split).
  - cbn [scanAmbiguousKeys unambiguous]. destruct (Nat.leb_spec maxAmbiguousKeyScanDepth depth).
    { split; [done | intros [? _]; lia]. }
    rewrite elements_scan; [split; [done | by intros [_ ?]]|]. eapply Forall_impl; [done|]. auto.
  - cbn [scanAmbiguousKeys unambiguous]. destruct (Nat.leb_spec maxAmbiguousKeyScanDepth depth).
    { split; [done | intros [? _]; lia]. }
    rewrite members_scan; [| eapply Forall_impl; [done|]; auto].
    split; [by intros (? & _ & ?)|]. intros (_ & ? & ?). split_and!; [done | | done].
    apply Forall_forall. constructor.
Qed.

(** A document passes the scan exactly when it nests less than 64 levels and none of
    its objects, at any depth, has two members whose names a JSON decoder folds together. *)
Theorem unambiguous_documents doc : RefuseAmbiguousJSONKeys doc = None <-> unambiguous 0 doc.
Proof. apply scan_iff. Qed.

End fold.

(** ** An instance: ASCII text *)

(** The tables restricted to ASCII, with the long s and the Kelvin sign. *)
Definition asciiFold (r : Z) : Z :=
  if r =? 115 then 383 else if r =? 383 then 83
  else if r =? 107 then 8490 else if r =? 8490 then 75
  else if in_range 65 90 r then r + 32 else if in_range 97 122 r then r - 32 else r.

#[global] Instance asciiTables : Unicode := {|
  SimpleFold := asciiFold; orbitMax := 3;
  caseFold := fun r => if r =? 383 then 115 else if r =? 8490 then 107
    else if in_range 65 90 r then r + 32 else r;
  ToUpper := str_map (fun c => if in_bytes 97 122 c then byte (byte_val c - 32) else c);
  ToLower := to_lower; FormatFloat := fun _ => ""; FormatFixed := fun _ => "" |}.

Lemma asciiFold_eq r x : valid_rune r = true -> variant r x ->
  x = r \/ x = asciiFold r \/ x = asciiFold (asciiFold r).
Proof.
  intros _ [_ E]. revert E. cbn. unfold asciiFold. repeat case_match; bools; range_cases; lia.
Qed.

Lemma asciiFold_variant r : valid_rune r = true -> variant r (asciiFold r).
Proof.
  intros Hr. split; [apply valid_rune_true; apply valid_rune_true in Hr|]; cbn; unfold asciiFold;
    repeat case_match; bools; range_cases; lia.
Qed.

#[global] Instance asciiLaws : UnicodeLaws asciiTables.
Proof.
  split.
  - exact asciiFold_variant.
  - intros r x _ [_ E]. revert E. cbn. unfold asciiFold. repeat case_match; bools; range_cases; lia.
  - intros r x Hr [_ E] Hmax. pose proof (asciiFold_variant r Hr) as H1.
    pose proof (asciiFold_variant _ (proj1 H1)) as H2.
    pose proof (Hmax _ H1) as M1. assert (asciiFold (asciiFold r) <= r) as M2.
    { apply Hmax. destruct H1 as [_ E1], H2 as [H2 E2]. split; [done | congruence]. }
    clear Hmax Hr H1 H2. revert E M1 M2. cbn. unfold asciiFold. repeat case_match; bools; range_cases; lia.
  - intros r l Hr Hl Hf. apply (NoDup_incl_length (l' := [r; asciiFold r; asciiFold (asciiFold r)])).
    + by apply NoDup_ListNoDup.
    + intros x Hx%list_elem_of_In. rewrite Forall_forall in Hf.
      destruct (asciiFold_eq r x Hr (Hf x Hx)) as [->|[->| ->]]; cbn; tauto.
Qed.

(** ["select"] and the same word with a long s. *)
Definition longSelect : string := bytes [197; 191; 69; 76; 101; 99; 116]%nat.

Lemma fold_is_EqualFold_witness :
  FoldJSONKey "select" = FoldJSONKey longSelect /\ to_lower longSelect <> "select".
Proof.
  split; [| by vm_compute].
  apply (proj1 (fold_is_EqualFold (L := asciiLaws) "select" longSelect)). vm_compute. reflexivity.
Defined.

Lemma fold_walk_terminates_witness :
  foldLoop 100 115 (SimpleFold 115) 115 = canonicalFoldRune 115 /\
  canonicalFoldRune 383 = canonicalFoldRune 115 /\ canonicalFoldRune 115 = 115.
Proof.
  destruct (fold_walk_terminates (L := asciiLaws) 115 100) as (_ & E & _ & _ & Hv); [reflexivity | cbn; lia |].
  split; [exact E|]. split; [| reflexivity]. apply Hv; [reflexivity|]. split; reflexivity.
Defined.

Lemma unambiguous_documents_witness :
  unambiguous 0 (VObject [("ref", VNull); ("byArgument", VArray [VObject [("a", VNull)]])]) /\
  ~ unambiguous 0 (VObject [("ref", VNull); ("REF", VNull)]).
Proof.
  split.
  - apply (unambiguous_documents (L := asciiLaws)). vm_compute. reflexivity.
  - intros H%(unambiguous_documents (L := asciiLaws)). vm_compute in H. discriminate.
Defined.

End CaseFold.
