(* ===== verification/Magnitude.v ===== *)
(** * Magnitudes

    The numbers of pkg/capability/effect.go: the decimal grammar that a bound or an
    argument may be written in, the one parse behind every comparison, and the exactness
    of that comparison.  A [*big.Float] is the rational number it denotes; an integer
    literal is read without rounding ([big.Int]) and any other literal is the rational it
    spells ([big.Rat]), rounded to nearest even at 4096 bits of mantissa unless it is an
    integer. *)
From stdpp Require Import base tactics list strings.
From Stdlib Require Import ZArith Lia Ascii String QArith Qabs Qreduction Lqa.
From S2P Require Import Prelude GoStrings GoPath Truncate Capability.
#[local] Open Scope string_scope.
#[local] Open Scope Z_scope.
#[local] Arguments String.append : simpl nomatch.
Import Capability.

Module Magnitude.

(** ** The grammar *)

Definition MaxNumericLiteralLen : Z := 1024.
Definition MaxNumericLiteralExp : Z := 1024.

Definition isASCIIDigit (c : ascii) : bool := is_digit c.
Definition digit_val (c : ascii) : Z := Z.of_N (N_of_ascii c) - 48.

(** The leading digits and the rest. *)
Fixpoint span_digits (s : string) : string * string :=
  match s with
  | String c s' => if isASCIIDigit c then let '(d, r) := span_digits s' in (String c d, r) else ("", s)
  | EmptyString => ("", "")
  end.

(** A leading sign, and whether it was a minus. *)
Definition span_sign (s : string) : bool * string :=
  match s with
  | String c s' => if Ascii.eqb c "-" then (true, s') else if Ascii.eqb c "+" then (false, s') else (false, s)
  | EmptyString => (false, s)
  end.

(** The digits after a decimal point, when there is one. *)
Definition span_fraction (s : string) : string * string :=
  match s with
  | String c s' => if Ascii.eqb c "." then span_digits s' else ("", s)
  | EmptyString => ("", s)
  end.

(** The exponent accumulated until it passes the bound. *)
Fixpoint exponent (acc : Z) (digits : string) : Z :=
  match digits with
  | EmptyString => acc
  | String c digits' =>
      exponent (if acc <=? MaxNumericLiteralExp then acc * 10 + digit_val c else acc) digits'
  end.

Definition is_exp_char (c : ascii) : bool := Ascii.eqb c "e" || Ascii.eqb c "E".

Definition NumericLiteralBounded (s : string) : bool :=
  if String.eqb s "" || (MaxNumericLiteralLen <? len s) then false
  else
    let '(ip, r) := span_digits (snd (span_sign s)) in
    let '(fp, r) := span_fraction r in
    if (String.length ip + String.length fp =? 0)%nat then false
    else
      match r with
      | EmptyString => true
      | String c r =>
          if negb (is_exp_char c) then false
          else
            let '(ed, r) := span_digits (snd (span_sign r)) in
            if String.eqb ed "" || negb (String.eqb r "") then false
            else exponent 0 ed <=? MaxNumericLiteralExp
      end.

(** ** The value of a literal *)

Fixpoint digits_val (acc : Z) (s : string) : Z :=
  match s with
  | EmptyString => acc
  | String c s' => digits_val (acc * 10 + digit_val c) s'
  end.

Definition signed (neg : bool) (z : Z) : Z := if neg then - z else z.

(** The mantissa and the decimal exponent a literal of the grammar spells. *)
Definition decimal (s : string) : Z * Z :=
  let '(neg, r) := span_sign s in
  let '(ip, r) := span_digits r in
  let '(fp, r) := span_fraction r in
  let e := match r with
           | String _ r => let '(eneg, r) := span_sign r in signed eneg (digits_val 0 (fst (span_digits r)))
           | EmptyString => 0
           end in
  (signed neg (digits_val 0 (ip ++ fp)), e - len fp).

Definition dec (m e : Z) : Q :=
  if 0 <=? e then inject_Z (m * 10 ^ e) else m # Z.to_pos (10 ^ (- e)).

Definition decimal_value (s : string) : Q := dec (fst (decimal s)) (snd (decimal s)).

(** [big.Int.SetString(s, 10)]. *)
Definition SetString10 (s : string) : option Z :=
  let '(neg, r) := span_sign s in
  let '(ip, r) := span_digits r in
  if String.eqb ip "" || negb (String.eqb r "") then None else Some (signed neg (digits_val 0 ip)).

(** ** Rounding to a mantissa width *)

Definition nearest_even (numer denom : Z) : Z :=
  let f := numer / denom in
  let r := numer mod denom in
  if (denom <? 2 * r) || ((2 * r =? denom) && Z.odd f) then f + 1 else f.

(** [n * 2^s / d] as a fraction of integers. *)
Definition scaled (n d s : Z) : Z * Z := (n * 2 ^ Z.max s 0, d * 2 ^ Z.max (- s) 0).

(** The scale at which the quotient of two positive integers has [prec] digits. *)
Definition scale (prec n d : Z) : Z :=
  let s0 := prec - (Z.log2 n - Z.log2 d) in
  let '(a, b) := scaled n d s0 in
  if 2 ^ prec <=? a / b then s0 - 1 else s0.

Definition round_pos (prec n d : Z) : Q :=
  let s := scale prec n d in
  let '(a, b) := scaled n d s in
  (nearest_even a b * 2 ^ Z.max (- s) 0) # Z.to_pos (2 ^ Z.max s 0).

(** [big.Float.SetPrec(prec).SetRat(q)], for [q] in lowest terms. *)
Definition SetRat (prec : Z) (q : Q) : Q :=
  let d := Z.pos (Qden q) in
  match Qnum q with
  | 0 => 0%Q
  | Z.pos n => round_pos prec (Z.pos n) d
  | Z.neg n => Qopp (round_pos prec (Z.pos n) d)
  end.

Definition magnitudeFractionPrec : Z := 4 * MaxNumericLiteralLen.

Definition parseBoundedNumber (s : string) : option Q :=
  if negb (NumericLiteralBounded s) then None
  else
    match SetString10 s with
    | Some z => Some (inject_Z z)
    | None =>
        let r := Qred (decimal_value s) in
        if (Qden r =? 1)%positive then Some (inject_Z (Qnum r))
        else Some (SetRat magnitudeFractionPrec r)
    end.

Definition ParseBlastRadiusNumber (n : string) : option Q := parseBoundedNumber n.

(** ** The rounding error *)

Lemma nearest_even_error a b :
  0 < b -> 2 * Z.abs (nearest_even a b * b - a) <= b.
Proof.
  intros Hb. unfold nearest_even. pose proof (Z.div_mod a b ltac:(lia)) as E.
  pose proof (Z.mod_pos_bound a b Hb). set (f := a / b) in *. set (r := a mod b) in *.
  destruct (Z.ltb_spec b (2 * r)); cbn [orb]; [nia|].
  destruct (Z.eqb_spec (2 * r) b); cbn [andb]; [destruct (Z.odd f); nia | nia].
Qed.

Lemma pow2_pos k : 0 < 2 ^ Z.max k 0.
Proof. apply Z.pow_pos_nonneg; lia. Qed.

(** At the chosen scale the quotient is at least half the full mantissa. *)
Lemma scale_ge prec n d :
  1 <= prec -> 0 < n -> 0 < d ->
  let s := scale prec n d in
  d * 2 ^ Z.max (- s) 0 * 2 ^ (prec - 1) <= n * 2 ^ Z.max s 0.
Proof.
  intros Hp Hn Hd. cbn zeta. unfold scale, scaled. cbn [fst snd].
  set (s0 := prec - (Z.log2 n - Z.log2 d)).
  pose proof (pow2_pos s0) as P1. pose proof (pow2_pos (- s0)) as P2.
  destruct (Z.leb_spec (2 ^ prec) (n * 2 ^ Z.max s0 0 / (d * 2 ^ Z.max (- s0) 0))) as [Hge|_].
  - assert (2 ^ prec * (d * 2 ^ Z.max (- s0) 0) <= n * 2 ^ Z.max s0 0) as Hm.
    { pose proof (Z.mul_div_le (n * 2 ^ Z.max s0 0) (d * 2 ^ Z.max (- s0) 0) ltac:(nia)). nia. }
    replace (2 ^ prec) with (2 * 2 ^ (prec - 1)) in Hm by (rewrite <- Z.pow_succ_r by lia; f_equal; lia).
    destruct (Z.le_gt_cases 1 s0).
    + replace (Z.max (- (s0 - 1)) 0) with 0 by lia. replace (Z.max (- s0) 0) with 0 in Hm by lia.
      replace (Z.max (s0 - 1) 0) with (s0 - 1) by lia. replace (Z.max s0 0) with s0 in Hm by lia.
      replace (2 ^ s0) with (2 * 2 ^ (s0 - 1)) in Hm by (rewrite <- Z.pow_succ_r by lia; f_equal; lia). nia.
    + replace (Z.max (- (s0 - 1)) 0) with (Z.succ (- s0)) by lia.
      replace (Z.max (- s0) 0) with (- s0) in Hm by lia.
      replace (Z.max (s0 - 1) 0) with 0 by lia. replace (Z.max s0 0) with 0 in Hm by lia.
      rewrite Z.pow_succ_r by lia. nia.
  - pose proof (Z.log2_spec n Hn) as [Hn1 _]. pose proof (Z.log2_spec d Hd) as [_ Hd2].
    pose proof (Z.log2_nonneg n). pose proof (Z.log2_nonneg d).
    transitivity (2 ^ (Z.succ (Z.log2 d) + Z.max (- s0) 0 + (prec - 1))).
    { rewrite !Z.pow_add_r by lia.
      assert (0 < 2 ^ (prec - 1)) by (apply Z.pow_pos_nonneg; lia). nia. }
    transitivity (2 ^ (Z.log2 n + Z.max s0 0)); [apply Z.pow_le_mono_r; lia|].
    rewrite Z.pow_add_r by lia. nia.
Qed.

Lemma round_pos_error prec n d :
  1 <= prec ->
  (Qabs (round_pos prec (Z.pos n) (Z.pos d) - (Z.pos n # d)) * inject_Z (2 ^ prec) <= Z.pos n # d)%Q.
Proof.
  intros Hp. pose proof (scale_ge prec (Z.pos n) (Z.pos d) Hp ltac:(lia) ltac:(lia)) as Hs.
  unfold round_pos, scaled. set (s := scale prec (Z.pos n) (Z.pos d)) in *. cbn zeta in Hs.
  pose proof (pow2_pos s) as PA. pose proof (pow2_pos (- s)) as PB.
  set (A := 2 ^ Z.max s 0) in *. set (B := 2 ^ Z.max (- s) 0) in *.
  pose proof (nearest_even_error (Z.pos n * A) (Z.pos d * B) ltac:(nia)) as He.
  set (f := nearest_even _ _) in *.
  unfold Qle, Qminus, Qplus, Qopp, Qmult, inject_Z. cbn [Qnum Qden Qabs].
  rewrite Z2Pos.id, Pos.mul_1_r by done. rewrite Pos2Z.inj_mul, Z2Pos.id by done.
  replace (2 ^ prec) with (2 * 2 ^ (prec - 1)) by (rewrite <- Z.pow_succ_r by lia; f_equal; lia).
  assert (0 < 2 ^ (prec - 1)) as PP by (apply Z.pow_pos_nonneg; lia).
  set (P := 2 ^ (prec - 1)) in *.
  replace (f * B * Z.pos d + - Z.pos n * A) with (f * (Z.pos d * B) - Z.pos n * A) by ring.
  set (X := Z.abs (f * (Z.pos d * B) - Z.pos n * A)) in *.
  assert (X * (2 * P) <= Z.pos n * A) by nia. nia.
Qed.

(** The relative error of the 4096-bit reading. *)
Definition epsilon : Q := 1 # (2 ^ 4096).

Definition near (x r : Q) : Prop := (Qabs (r - x) <= epsilon * Qabs x)%Q.

Lemma near_refl x r : (x == r)%Q -> near x r.
Proof.
  intros E. unfold near. rewrite E. assert (r - r == 0)%Q as -> by ring. cbn [Qabs].
  apply Qmult_le_0_compat; [unfold epsilon; by vm_compute | apply Qabs_nonneg].
Qed.

Lemma SetRat_near q : near q (SetRat magnitudeFractionPrec q).
Proof.
  assert (forall n d, near (Z.pos n # d) (round_pos magnitudeFractionPrec (Z.pos n) (Z.pos d))) as Hpos.
  { intros n d. unfold near. pose proof (round_pos_error magnitudeFractionPrec n d ltac:(by vm_compute)) as H.
    set (x := Z.pos n # d) in *. set (r := round_pos _ _ _) in *.
    assert (Qabs x == x)%Q as -> by (apply Qabs_pos; unfold x, Qle; cbn; lia).
    apply (Qmult_lt_0_le_reg_r _ _ (inject_Z (2 ^ magnitudeFractionPrec))); [by vm_compute|].
    eapply Qle_trans; [exact H|].
    assert (epsilon * x * inject_Z (2 ^ magnitudeFractionPrec) ==
            x * (epsilon * inject_Z (2 ^ magnitudeFractionPrec)))%Q as -> by ring.
    assert (epsilon * inject_Z (2 ^ magnitudeFractionPrec) == 1)%Q as -> by (vm_compute; reflexivity).
    rewrite Qmult_1_r. apply Qle_refl. }
  unfold SetRat. destruct q as [[|n|n] d]; cbn [Qnum Qden].
  - apply near_refl. unfold Qeq. cbn. lia.
  - apply Hpos.
  - specialize (Hpos n d). unfold near in *. set (r := round_pos _ _ _) in *.
    change (Z.neg n # d) with (- (Z.pos n # d))%Q. rewrite Qabs_opp.
    assert (- r - - (Z.pos n # d) == - (r - (Z.pos n # d)))%Q as -> by ring.
    rewrite Qabs_opp. exact Hpos.
Qed.

(** ** Two literals never get close without being equal *)

Lemma dec_scaled m e K :
  0 <= K -> 0 <= e + K -> (dec m e == (m * 10 ^ (e + K)) # Z.to_pos (10 ^ K))%Q.
Proof.
  intros HK HeK. assert (0 < 10 ^ K) by (apply Z.pow_pos_nonneg; lia).
  unfold dec. destruct (Z.leb_spec 0 e) as [He|He]; unfold Qeq, inject_Z; cbn [Qnum Qden].
  - rewrite Z2Pos.id by done. rewrite Z.pow_add_r by lia. ring.
  - assert (0 < 10 ^ (- e)) by (apply Z.pow_pos_nonneg; lia). rewrite !Z2Pos.id by done.
    replace K with ((e + K) + - e) at 1 by lia. rewrite Z.pow_add_r by lia. ring.
Qed.

Lemma sep_int M1 M2 P T :
  0 < P -> Z.abs M1 < T -> M1 <> M2 ->
  Z.abs (M1 * P) + Z.abs (M2 * P) <= (2 * T + 1) * Z.abs (M1 * P - M2 * P).
Proof.
  intros HP HM Hne. rewrite <- Z.mul_sub_distr_r, !Z.abs_mul, (Z.abs_eq P) by lia.
  assert (Z.abs M2 <= Z.abs M1 + Z.abs (M1 - M2)) by lia. assert (1 <= Z.abs (M1 - M2)) by lia.
  set (a := Z.abs M1) in *. set (b := Z.abs M2) in *. set (c := Z.abs (M1 - M2)) in *.
  assert (0 <= a) by lia. assert (a + b <= (2 * T + 1) * c) by nia. nia.
Qed.

Lemma sep_common m1 e1 m2 e2 K T :
  e1 <= e2 -> 0 <= e1 + K -> Z.abs m1 < T -> m1 * 10 ^ (e1 + K) <> m2 * 10 ^ (e2 + K) ->
  Z.abs (m1 * 10 ^ (e1 + K)) + Z.abs (m2 * 10 ^ (e2 + K)) <=
  (2 * T + 1) * Z.abs (m1 * 10 ^ (e1 + K) - m2 * 10 ^ (e2 + K)).
Proof.
  intros He HK HM. replace (e2 + K) with ((e2 - e1) + (e1 + K)) by lia.
  rewrite (Z.pow_add_r 10 (e2 - e1)) by lia. rewrite Z.mul_assoc. intros Hne.
  apply sep_int; [apply Z.pow_pos_nonneg; lia | done | intros ->; by apply Hne].
Qed.

Lemma dec_sep m1 e1 m2 e2 T :
  Z.abs m1 < T -> Z.abs m2 < T -> ~ (dec m1 e1 == dec m2 e2)%Q ->
  (Qabs (dec m1 e1) + Qabs (dec m2 e2) <= inject_Z (2 * T + 1) * Qabs (dec m1 e1 - dec m2 e2))%Q.
Proof.
  intros H1 H2. set (K := Z.max 0 (Z.max (- e1) (- e2))).
  rewrite (dec_scaled m1 e1 K), (dec_scaled m2 e2 K) by lia.
  set (X := m1 * 10 ^ (e1 + K)). set (Y := m2 * 10 ^ (e2 + K)). set (D := Z.to_pos (10 ^ K)).
  intros Hne. assert (X <> Y) as HXY by (intros E; apply Hne; by rewrite E).
  assert (Z.abs X + Z.abs Y <= (2 * T + 1) * Z.abs (X - Y)) as Hs.
  { destruct (Z.le_ge_cases e1 e2).
    - apply sep_common; [lia | lia | done | done].
    - replace (Z.abs (X - Y)) with (Z.abs (Y - X)) by lia. rewrite Z.add_comm.
      apply sep_common; [lia | lia | done | by apply not_eq_sym]. }
  assert ((X # D) - (Y # D) == (X - Y) # D)%Q as -> by (unfold Qeq, Qminus, Qplus, Qopp; cbn [Qnum Qden]; lia).
  cbn [Qabs]. unfold Qle, Qplus, Qmult, inject_Z. cbn [Qnum Qden]. rewrite Pos.mul_1_l, Pos2Z.inj_mul. nia.
Qed.

(** Readings of two values that are far apart compare as the values do. *)
Lemma near_compare x y rx ry C :
  near x rx -> near y ry -> (epsilon * C < 1)%Q ->
  (Qabs x + Qabs y <= C * Qabs (x - y))%Q -> (x < y)%Q -> (rx < ry)%Q.
Proof.
  unfold near. intros Hx Hy HC Hs Hlt.
  apply Qabs_Qle_condition in Hx as [_ Hx]. apply Qabs_Qle_condition in Hy as [Hy _].
  assert (Qabs (x - y) == y - x)%Q as Hd.
  { rewrite Qabs_Qminus. apply Qabs_pos. lra. }
  rewrite Hd in Hs.
  assert (0 < epsilon)%Q as Hpos by (unfold epsilon; by vm_compute).
  assert (epsilon * (Qabs x + Qabs y) <= epsilon * (C * (y - x)))%Q as H1.
  { rewrite !(Qmult_comm epsilon). apply Qmult_le_compat_r; [done | by apply Qlt_le_weak]. }
  assert (epsilon * C * (y - x) < 1 * (y - x))%Q as H2.
  { apply Qmult_lt_r; [lra | done]. }
  set (ax := Qabs x) in *. set (ay := Qabs y) in *.
  assert (epsilon * ax + epsilon * ay < y - x)%Q as H3.
  { assert (epsilon * (ax + ay) == epsilon * ax + epsilon * ay)%Q as E by ring. rewrite E in H1.
    assert (epsilon * (C * (y - x)) == epsilon * C * (y - x))%Q as E2 by ring. rewrite E2 in H1.
    assert (1 * (y - x) == y - x)%Q as E3 by ring. rewrite E3 in H2. eapply Qle_lt_trans; eassumption. }
  set (u := (epsilon * ax)%Q) in *. set (v := (epsilon * ay)%Q) in *. clearbody u v. lra.
Qed.

(** ** The literals *)

Lemma span_digits_spec s :
  s = fst (span_digits s) ++ snd (span_digits s) /\ str_forall isASCIIDigit (fst (span_digits s)) = true.
Proof.
  induction s as [|c s [IH1 IH2]]; [done|]. cbn. destruct (isASCIIDigit c) eqn:E; [| done].
  destruct (span_digits s) as [d r]. cbn in *. rewrite IH1 at 1. by rewrite E, IH2.
Qed.

Lemma span_sign_len s : (String.length (snd (span_sign s)) <= String.length s)%nat.
Proof. destruct s as [|c s]; [done|]. cbn. repeat case_match; cbn; lia. Qed.

Lemma span_fraction_spec s :
  (String.length (fst (span_fraction s)) + String.length (snd (span_fraction s)) <= String.length s)%nat /\
  str_forall isASCIIDigit (fst (span_fraction s)) = true.
Proof.
  destruct s as [|c s]; [done|]. unfold span_fraction. destruct (Ascii.eqb c "."); [| done].
  destruct (span_digits_spec s) as [H1 H2]. split; [| done].
  apply (f_equal String.length) in H1. rewrite str_length_app in H1. cbn [String.length]. lia.
Qed.

Lemma digits_val_bound d : forall acc,
  str_forall isASCIIDigit d = true -> 0 <= acc ->
  0 <= digits_val acc d < (acc + 1) * 10 ^ len d.
Proof.
  induction d as [|c d IH]; intros acc Hd Ha; cbn [digits_val str_forall] in *; [unfold len; cbn; lia|].
  apply andb_true_iff in Hd as [Hc Hd]. unfold isASCIIDigit, is_digit, in_bytes in Hc.
  assert (0 <= digit_val c <= 9) as Hv.
  { unfold digit_val. apply andb_true_iff in Hc as [?%Nat.leb_le ?%Nat.leb_le]. 
    unfold nat_of_ascii in *. lia. }
  specialize (IH (acc * 10 + digit_val c) Hd ltac:(lia)).
  replace (len (String c d)) with (Z.succ (len d)) by (unfold len; cbn; lia).
  rewrite Z.pow_succ_r by (unfold len; lia).
  assert (0 < 10 ^ len d) by (apply Z.pow_pos_nonneg; unfold len; lia). nia.
Qed.

Definition mantissaMax : Z := 10 ^ 1024.

Lemma mantissa_bound s : len s <= MaxNumericLiteralLen -> Z.abs (fst (decimal s)) < mantissaMax.
Proof.
  intros Hl. unfold decimal. pose proof (span_sign_len s) as Hs. destruct (span_sign s) as [neg r].
  cbn [fst snd] in Hs. destruct (span_digits_spec r) as [H1 H2]. destruct (span_digits r) as [ip r2].
  destruct (span_fraction_spec r2) as [H3 H4]. destruct (span_fraction r2) as [fp r3]. cbn [fst snd] in *.
  apply (f_equal String.length) in H1. rewrite str_length_app in H1.
  pose proof (digits_val_bound (ip ++ fp) 0) as Hd. rewrite str_forall_app, H2, H4 in Hd.
  specialize (Hd eq_refl ltac:(lia)).
  assert (10 ^ len (ip ++ fp) <= mantissaMax).
  { unfold mantissaMax. apply Z.pow_le_mono_r; [lia|]. unfold len, MaxNumericLiteralLen in *.
    rewrite str_length_app. lia. }
  unfold signed. destruct neg; lia.
Qed.

(** How a value is read, whatever its spelling. *)
Definition read (x : Q) : Q :=
  let r := Qred x in
  if (Qden r =? 1)%positive then inject_Z (Qnum r) else SetRat magnitudeFractionPrec r.

Lemma SetString10_value s z : SetString10 s = Some z -> decimal_value s = inject_Z z.
Proof.
  unfold SetString10, decimal_value, decimal.
  destruct (span_sign s) as [neg r]. destruct (span_digits r) as [ip r2].
  destruct (String.eqb ip "" || negb (String.eqb r2 "")) eqn:E; [done|]. intros [= <-].
  apply orb_false_iff in E as [_ E%negb_false_iff%String.eqb_eq]. subst r2.
  cbn [span_fraction fst snd]. rewrite str_app_nil. change (0 - len "") with 0. unfold dec.
  cbn [Z.leb Z.compare]. by rewrite Z.mul_1_r.
Qed.

Lemma Qred_inject_Z z : Qred (inject_Z z) = inject_Z z.
Proof.
  unfold Qred, inject_Z. pose proof (Z.ggcd_gcd z 1) as Hg. pose proof (Z.ggcd_correct_divisors z 1) as Hc.
  destruct (Z.ggcd z 1) as [g [aa bb]]. cbn [fst] in Hg. rewrite Z.gcd_1_r in Hg. subst g.
  destruct Hc as [Ha Hbb]. rewrite Z.mul_1_l in Ha, Hbb. by subst.
Qed.

Lemma parse_read s a :
  parseBoundedNumber s = Some a -> (a == read (decimal_value s))%Q /\ len s <= MaxNumericLiteralLen.
Proof.
  unfold parseBoundedNumber. destruct (NumericLiteralBounded s) eqn:Hb; [| done]. cbn [negb].
  assert (len s <= MaxNumericLiteralLen) as Hl.
  { unfold NumericLiteralBounded in Hb. destruct (Z.ltb_spec MaxNumericLiteralLen (len s)); [| done].
    by rewrite orb_true_r in Hb. }
  unfold read. destruct (SetString10 s) as [z|] eqn:Ez.
  - intros [= <-]. split; [| done]. by rewrite (SetString10_value s z Ez), Qred_inject_Z.
  - case_match; intros [= <-]; done.
Qed.

Lemma read_near x : near x (read x).
Proof.
  unfold read. pose proof (Qred_correct x) as Hr. set (r := Qred x) in *.
  destruct (Pos.eqb_spec (Qden r) 1) as [E|E].
  - apply near_refl. rewrite <- Hr. unfold Qeq, inject_Z. cbn [Qnum Qden]. rewrite E. done.
  - pose proof (SetRat_near r) as Hn. unfold near in *. rewrite <- Hr. exact Hn.
Qed.

Lemma read_proper x y : (x == y)%Q -> read x = read y.
Proof. intros E. unfold read. by rewrite (Qred_complete x y E). Qed.

Lemma literals_apart s t :
  len s <= MaxNumericLiteralLen -> len t <= MaxNumericLiteralLen ->
  (decimal_value s < decimal_value t)%Q -> (read (decimal_value s) < read (decimal_value t))%Q.
Proof.
  intros Hs Ht Hlt. apply (near_compare (decimal_value s) (decimal_value t) _ _ (inject_Z (2 * mantissaMax + 1))).
  - apply read_near.
  - apply read_near.
  - unfold epsilon, mantissaMax. by vm_compute.
  - apply dec_sep; [by apply mantissa_bound.. |]. intros E. rewrite E in Hlt. by apply Qlt_irrefl in Hlt.
  - done.
Qed.

(** Reading two literals and comparing the results is the comparison of the decimal
    numbers they spell, for every pair of literals the grammar admits: rounding to 4096 bits
    never makes two of them equal and never inverts their order. *)
Theorem comparison_exact s t a b :
  parseBoundedNumber s = Some a -> parseBoundedNumber t = Some b ->
  Qcompare a b = Qcompare (decimal_value s) (decimal_value t).
Proof.
  intros [Ha Hs]%parse_read [Hb Ht]%parse_read.
  destruct (Qcompare_spec (decimal_value s) (decimal_value t)) as [E|E|E].
  - apply Qeq_alt. rewrite Ha, Hb, (read_proper _ _ E). apply Qeq_refl.
  - apply Qlt_alt. rewrite Ha, Hb. by apply literals_apart.
  - apply Qgt_alt. rewrite Ha, Hb. by apply literals_apart.
Qed.

Lemma comparison_exact_witness :
  parseBoundedNumber "0.1" <> None /\
  match parseBoundedNumber "0.1", parseBoundedNumber "0.10000000000000000001" with
  | Some a, Some b => Qcompare a b = Lt
  | _, _ => False
  end.
Proof.
  split; [by vm_compute|].
  destruct (parseBoundedNumber "0.1") as [a|] eqn:Ea; [| vm_compute in Ea; discriminate].
  destruct (parseBoundedNumber "0.10000000000000000001") as [b|] eqn:Eb; [| vm_compute in Eb; discriminate].
  rewrite (comparison_exact _ _ _ _ Ea Eb). vm_compute. reflexivity.
Defined.

End Magnitude.
