(* ===== verification/ArgumentPath.v ===== *)
(** * Argument references

    pkg/capability/argument_path.go: the literal and ["$."] forms of a condition's
    [argument], the escape that keeps every key addressable, and the resolution against
    the arguments of a call. *)
From stdpp Require Import base tactics list strings.
From Stdlib Require Import ZArith Lia Ascii String.
From S2P Require Import Prelude GoStrings GoPath Truncate Float64 Capability CaseFold.
#[local] Open Scope string_scope.
#[local] Arguments String.append : simpl nomatch.
Import Truncate Capability.

Module ArgumentPath.

Definition ArgumentPathPrefix := "$.".
Definition ArgumentEscapePrefix := "$$.".

Definition IsArgumentPath (ref : string) : bool := has_prefix ref ArgumentPathPrefix.

(** The run of leading dollars and what follows it. *)
Fixpoint dollars (ref : string) : nat * string :=
  match ref with
  | String c rest =>
      if Ascii.eqb c "$" then let '(n, r) := dollars rest in (S n, r) else (0%nat, ref)
  | EmptyString => (0%nat, EmptyString)
  end.

Definition IsEscapedArgumentLiteral (ref : string) : bool :=
  let '(i, rest) := dollars ref in
  (2 <=? i)%nat && match rest with String c _ => Ascii.eqb c "." | EmptyString => false end.

Definition ArgumentLiteralKey (ref : string) : string :=
  if IsEscapedArgumentLiteral ref then drop_str 1 ref else ref.

(** [None] is the nil slice of a reference that is not a well-formed path. *)
Definition ArgumentPathSegments (ref : string) : option (list string) :=
  if negb (IsArgumentPath ref) then None
  else
    let rest := drop_str (String.length ArgumentPathPrefix) ref in
    if String.eqb rest "" then None
    else
      let segs := split_char "." rest in
      if existsb (fun s => String.eqb s "") segs then None else Some segs.

Definition ArgumentRootKey (ref : string) : string :=
  match ArgumentPathSegments ref with
  | Some (s :: _) => s
  | _ => ArgumentLiteralKey ref
  end.

(** [m[k]] on a decoded object. *)
Fixpoint index (k : string) (m : list (string * value)) : option value :=
  match m with
  | [] => None
  | (k', v) :: m' => if String.eqb k k' then Some v else index k m'
  end.

Fixpoint walk (cur : value) (segs : list string) : option value :=
  match segs with
  | [] => Some cur
  | seg :: segs' =>
      match cur with
      | VObject m => match index seg m with Some v => walk v segs' | None => None end
      | _ => None
      end
  end.

Definition ResolveArgument (args : list (string * value)) (ref : string) : option value :=
  if negb (IsArgumentPath ref) then index (ArgumentLiteralKey ref) args
  else
    match ArgumentPathSegments ref with
    | None => None
    | Some segs => walk (VObject args) segs
    end.

(** [strings.Fields]: the maximal runs without white space.  [tok] is the run being read. *)
Fixpoint fields_from (fuel : nat) (tok s : string) : list string :=
  let emit := if String.eqb tok "" then [] else [tok] in
  match fuel, s with
  | S fuel, String c s' =>
      match List.find (fun e => String.prefix e s) space_encodings with
      | Some e => (emit ++ fields_from fuel "" (drop_str (String.length e) s))%list
      | None =>
          let w := snd (GoPath.DecodeRuneInString s) in
          fields_from fuel (tok ++ take_str w s) (drop_str w s)
      end
  | _, _ => emit
  end.

Definition Fields (s : string) : list string := fields_from (String.length s) "" s.

Definition OperationVerb `{Unicode} (s : string) : string :=
  match Fields s with
  | [] => ""
  | f :: _ => ToUpper f
  end.

(** ** Every key has exactly one literal reference *)

(** The reference an author writes for a literal key. *)
Definition escape (key : string) : string :=
  let '(i, rest) := dollars key in
  if (1 <=? i)%nat && match rest with String c _ => Ascii.eqb c "." | EmptyString => false end
  then String "$" key else key.

Lemma dollars_cons c rest :
  dollars (String c rest) =
  if Ascii.eqb c "$" then (S (fst (dollars rest)), snd (dollars rest)) else (0%nat, String c rest).
Proof. cbn. destruct (Ascii.eqb c "$"); [| done]. by destruct (dollars rest). Qed.

(** A path is one dollar followed by a dot. *)
Lemma path_dollars ref :
  IsArgumentPath ref = true <-> fst (dollars ref) = 1%nat /\ exists t, snd (dollars ref) = String "." t.
Proof.
  unfold IsArgumentPath, has_prefix, ArgumentPathPrefix. destruct ref as [|c [|d ref]].
  - split; [done | intros [E _]; done].
  - rewrite dollars_cons. cbn [String.prefix]. split.
    + by destruct (ascii_dec "$" c).
    + destruct (Ascii.eqb c "$"); [| by intros [? _]]. cbn. intros [_ [t E]]. done.
  - rewrite !dollars_cons. cbn [String.prefix]. destruct (Ascii.eqb_spec c "$") as [->|Hc].
    + destruct (ascii_dec "$" "$"); [| done]. destruct (Ascii.eqb_spec d "$") as [->|Hd]; cbn [fst snd].
      { split; [by destruct (ascii_dec "." "$") | intros [E _]; lia]. }
      destruct (ascii_dec "." d) as [<-|Hne].
      * split; [| by destruct ref]. intros _. split; [done | by eexists].
      * split; [done|]. intros [_ [t E]]. congruence.
    + destruct (ascii_dec "$" c); [congruence|]. cbn. split; [done | by intros [? _]].
Qed.

Lemma escape_literal key :
  IsArgumentPath (escape key) = false /\ ArgumentLiteralKey (escape key) = key.
Proof.
  unfold escape. destruct (dollars key) as [i rest] eqn:E.
  destruct ((1 <=? i)%nat && match rest with String c _ => Ascii.eqb c "." | _ => false end) eqn:Ed.
  - apply andb_true_iff in Ed as [Hi%Nat.leb_le Hd]. split.
    + apply not_true_is_false. intros [H _]%path_dollars. rewrite dollars_cons, E in H. cbn in H. lia.
    + unfold ArgumentLiteralKey, IsEscapedArgumentLiteral. rewrite dollars_cons, E. cbn [Ascii.eqb].
      cbn. rewrite Hd. destruct i; [lia | done].
  - split.
    + apply not_true_is_false. intros [H [t Ht]]%path_dollars. rewrite E in H, Ht. cbn in H, Ht. subst.
      done.
    + unfold ArgumentLiteralKey, IsEscapedArgumentLiteral. rewrite E.
      destruct (Nat.leb_spec 2 i); cbn [andb]; [| done].
      apply andb_false_iff in Ed as [Ei%Nat.leb_gt| ->]; [lia | done].
Qed.

Lemma literal_escape ref : IsArgumentPath ref = false -> escape (ArgumentLiteralKey ref) = ref.
Proof.
  intros Hp. unfold ArgumentLiteralKey, IsEscapedArgumentLiteral. destruct (dollars ref) as [i rest] eqn:E.
  destruct ((2 <=? i)%nat && match rest with String c _ => Ascii.eqb c "." | _ => false end) eqn:Ed.
  - apply andb_true_iff in Ed as [Hi%Nat.leb_le Hd]. destruct ref as [|c ref]; [cbn in E; simplify_eq; lia|].
    rewrite dollars_cons in E. destruct (Ascii.eqb_spec c "$") as [->|]; [| simplify_eq; lia].
    simplify_eq. cbn [drop_str]. unfold escape. destruct (dollars ref) as [j r]. cbn [fst snd] in *.
    rewrite Hd. by destruct j; [lia|].
  - unfold escape. rewrite E. destruct (Nat.leb_spec 1 i) as [Hi|]; cbn [andb]; [| done].
    destruct (decide (i = 1%nat)) as [->|].
    + destruct rest as [|c t]; [done|]. destruct (Ascii.eqb_spec c ".") as [->|]; [| done].
      exfalso. assert (IsArgumentPath ref = true) as Hp'; [| congruence].
      apply path_dollars. rewrite E. split; [done | by eexists].
    + destruct (Nat.leb_spec 2 i); [| lia]. cbn [andb] in Ed. by rewrite Ed.
Qed.

(** References that are not paths are in bijection with argument keys: every key, with
    any dollars and dots in it, is named by exactly one reference, and resolving that
    reference reads that key of the arguments and no other. *)
Theorem literal_reference_bijection key :
  exists ref, (IsArgumentPath ref = false /\ ArgumentLiteralKey ref = key /\
    forall args, ResolveArgument args ref = index key args) /\
  forall ref', IsArgumentPath ref' = false -> ArgumentLiteralKey ref' = key -> ref' = ref.
Proof.
  destruct (escape_literal key) as [Hp Hk]. exists (escape key). split_and!; [done | done | |].
  - intros args. unfold ResolveArgument. by rewrite Hp, Hk.
  - intros ref' Hp' <-. symmetry. by apply literal_escape.
Qed.

(** ** Paths read nested objects and nothing else *)

(** [v] sits under the keys [segs] inside [cur], every step through an object. *)
Inductive under : value -> list string -> value -> Prop :=
| under_here v : under v [] v
| under_step m seg v segs w :
    index seg m = Some v -> under v segs w -> under (VObject m) (seg :: segs) w.

(** [strings.Join(segs, ".")]. *)
Definition join_dots (segs : list string) : string := String.concat "." segs.

Lemma walk_under cur segs v : walk cur segs = Some v <-> under cur segs v.
Proof.
  split.
  - revert cur. induction segs as [|seg segs IH]; intros cur; cbn.
    + intros [= <-]. constructor.
    + destruct cur as [| | | | | | | | |m]; try done. destruct (index seg m) eqn:E; [| done].
      intros H. econstructor; [done | by apply IH].
  - induction 1 as [v|m seg v segs w E _ IH]; cbn; [done | by rewrite E].
Qed.

Lemma split_join c segs :
  segs <> [] -> Forall (fun s => contains_char c s = false) segs ->
  split_char c (String.concat (String c "") segs) = segs.
Proof.
  intros Hne Hf. induction Hf as [|s segs Hs Hf IH]; [done|].
  assert (forall s, contains_char c s = false -> split_char c s = [s]) as Hone.
  { clear. induction s as [|d s IH]; cbn; [done|]. intros [-> Hs]%orb_false_iff. by rewrite IH. }
  destruct segs as [|s' segs]; [by apply Hone|].
  set (l := s' :: segs) in *. set (t := String.concat (String c "") l) in *.
  change (split_char c (s ++ String c "" ++ t) = s :: l).
  rewrite <- (IH ltac:(done)). clear IH Hone Hf Hne.
  induction s as [|d s IH]; cbn.
  - by rewrite Ascii.eqb_refl.
  - cbn in Hs. apply orb_false_iff in Hs as [-> Hs]. cbn in IH. by rewrite IH.
Qed.

Lemma join_split c s : String.concat (String c "") (split_char c s) = s.
Proof.
  induction s as [|d s IH]; cbn; [done|]. pose proof (split_nonempty c s) as Hne.
  destruct (Ascii.eqb_spec c d) as [->|]; destruct (split_char _ s) as [|p ps]; try done.
  - change (String.concat (String d "") ("" :: p :: ps)) with
      ("" ++ String d "" ++ String.concat (String d "") (p :: ps)). by rewrite IH.
  - rewrite <- IH. by destruct ps.
Qed.

Lemma split_clean c s : Forall (fun p => contains_char c p = false) (split_char c s).
Proof.
  induction s as [|d s IH]; cbn; [by repeat constructor|]. destruct (Ascii.eqb c d) eqn:E.
  - by constructor.
  - destruct (split_char c s) as [|p ps]; [repeat constructor; cbn; by rewrite E|].
    apply Forall_cons in IH as [Hp IH]. constructor; [cbn; by rewrite E | done].
Qed.

Lemma prefix_split p : forall s, String.prefix p s = true -> s = p ++ drop_str (String.length p) s.
Proof.
  induction p as [|c p IH]; intros [|d s]; try done. cbn [String.prefix].
  destruct (ascii_dec c d) as [->|]; [| done]. intros H. cbn. by rewrite <- IH.
Qed.

Lemma path_segments ref segs :
  ArgumentPathSegments ref = Some segs <->
  ref = ArgumentPathPrefix ++ join_dots segs /\ segs <> [] /\
  Forall (fun s => s <> "" /\ contains_char "." s = false) segs.
Proof.
  unfold ArgumentPathSegments, IsArgumentPath, has_prefix, ArgumentPathPrefix, join_dots. split.
  - destruct (String.prefix "$." ref) eqn:Hp; [| done]. cbn [negb].
    apply prefix_split in Hp. set (r := drop_str (String.length "$.") ref) in *. rewrite Hp. clear Hp.
    destruct (String.eqb_spec r "") as [|Hne]; [done|].
    destruct (existsb _ _) eqn:Ex; [done|]. intros [= <-]. cbn. rewrite join_split.
    split_and!; [done | apply split_nonempty |]. apply Forall_and. split; [| apply split_clean].
    apply Forall_forall. intros s Hs ->. apply not_true_iff_false in Ex. apply Ex.
    apply existsb_elem_of. by exists "".
  - intros (-> & Hne & Hf). apply Forall_and in Hf as [Hn Hc]. cbn.
    assert (exists r, String.concat "." segs = r /\ r <> "") as (r & Hr & Hrne).
    { eexists. split; [done|]. destruct segs as [|s [|s' segs]]; [done| |].
      - by apply Forall_cons in Hn as [? _].
      - cbn. apply Forall_cons in Hn as [Hs _]. by destruct s. }
    rewrite Hr. destruct r as [|c r]; [done|]. cbn [String.eqb]. rewrite <- Hr.
    rewrite split_join by done.
    replace (existsb (fun s => String.eqb s "") segs) with false; [by destruct (String.concat "." segs)|].
    symmetry. apply not_true_is_false. intros (s & Hs & E%String.eqb_eq)%existsb_elem_of.
    rewrite Forall_forall in Hn. by apply (Hn s).
Qed.

(** A ["$."] path resolves exactly to the value found by stepping through nested
    objects along its non-empty dot-separated segments; every other shape of path, and every
    step that is not an object or has no such key, resolves to nothing. *)
Theorem path_resolution args ref v :
  IsArgumentPath ref = true ->
  ResolveArgument args ref = Some v <->
  exists segs, ref = ArgumentPathPrefix ++ join_dots segs /\ segs <> [] /\
    Forall (fun s => s <> "" /\ contains_char "." s = false) segs /\ under (VObject args) segs v.
Proof.
  intros Hp. unfold ResolveArgument. rewrite Hp. cbn [negb]. split.
  - destruct (ArgumentPathSegments ref) as [segs|] eqn:E; [| done]. intros Hw%walk_under.
    apply path_segments in E as (-> & Hne & Hf). by exists segs.
  - intros (segs & -> & Hne & Hf & Hu). rewrite (proj2 (path_segments _ segs)) by done.
    by apply walk_under.
Qed.

Lemma path_resolution_witness :
  let args := [("a", VObject [("b", VString "x"); ("a.b", VNull)])] in
  ResolveArgument args "$.a.b" = Some (VString "x").
Proof.
  cbn zeta. apply (path_resolution _ "$.a.b"); [reflexivity|]. exists ["a"; "b"].
  split_and!; [reflexivity | discriminate | repeat constructor; discriminate |].
  repeat (econstructor; [reflexivity|]). constructor.
Defined.

End ArgumentPath.
