(* ===== verification/Effect.v ===== *)
(** * Effect contracts

    pkg/capability/effect.go and effect_validate.go: the reduction of a contract against
    the arguments of a call, and the load-time rules.  The digest of a contract (SHA-256 of
    its JSON) is a parameter.  A map is walked in the order of [map_to_list], which stands
    for any iteration order. *)
From stdpp Require Import base tactics list gmap strings.
From Stdlib Require Import ZArith Lia Ascii String QArith Lqa SpecFloat.
From S2P Require Import Prelude GoStrings GoPath Truncate Float64 Runes Capability CaseFold.
From S2P Require Import Magnitude ArgumentPath.
#[local] Open Scope string_scope.
Import Truncate Capability Magnitude ArgumentPath CaseFold.

Module Effect.

(** ** The class vocabulary *)

Definition effectClassOrder : list string := [EffectReversible; EffectCompensable; EffectIrreversible].
Definition EffectClassVocabulary : list string := effectClassOrder.

Definition IsEffectClass (s : string) : bool := bool_decide (is_Some (effectClassRank s)).

(** The order of [SortedEffectClasses]: ranked classes first, by rank; then by name. *)
Definition class_before (a b : string) : bool :=
  match effectClassRank a, effectClassRank b with
  | Some i, Some j => (i <? j)%Z
  | Some _, None => true
  | None, Some _ => false
  | None, None => String.ltb a b
  end.

(** [sort.SliceStable]. *)
Fixpoint insert_class (a : string) (l : list string) : list string :=
  match l with
  | [] => [a]
  | b :: l' => if class_before b a then b :: insert_class a l' else a :: b :: l'
  end.

Definition SortedEffectClasses (classes : list string) : list string := foldr insert_class [] classes.

Definition SplitEffectRef (ref : string) : option (string * string) :=
  match cut_char "@" ref with
  | Some (id, digest) =>
      if String.eqb (TrimSpace id) "" || String.eqb digest "" then None else Some (id, digest)
  | None => None
  end.

(** ** Magnitudes of arguments *)

(** [new(big.Float).SetFloat64], for a finite value. *)
Definition float_value (f : float64) : option Q :=
  match f with
  | S754_zero _ => Some 0%Q
  | S754_finite s m e =>
      let q := if (0 <=? e)%Z then inject_Z (Z.pos m * 2 ^ e) else Z.pos m # Z.to_pos (2 ^ (- e)) in
      Some (if s then Qopp q else q)
  | _ => None
  end.

Definition resolveRaw (s : BlastRadiusSpec) (args : list (string * value)) : option Q :=
  match brs_Value s with
  | Some n => ParseBlastRadiusNumber n
  | None =>
      if String.eqb (brs_Argument s) "" then None
      else
        match ResolveArgument args (brs_Argument s) with
        | Some (VNumber n) => ParseBlastRadiusNumber n
        | Some (VFloat f) => float_value f
        | Some (VString v) => parseBoundedNumber (TrimSpace v)
        | Some (VArray l) => Some (inject_Z (Z.of_nat (List.length l)))
        | _ => None
        end
  end.

Definition resolve (s : BlastRadiusSpec) (args : list (string * value)) : option Q :=
  match resolveRaw s args with
  | Some v => if Qle_bool 0 v then Some v else None
  | None => None
  end.

Section unicode.
Context `{U : Unicode}.

(** ** The decision table *)

Definition argumentMatchKey (raw : value) : option string :=
  match raw with
  | VString v => let key := TrimSpace v in if String.eqb key "" then None else Some key
  | VNumber n => Some n
  | VBool b => Some (if b then "true" else "false")
  | VFloat f => Some (FormatFloat f)
  | VInt z => Some (itoa z)
  | _ => None
  end.

(** The smallest key that matches, in one pass. *)
Fixpoint lookupLoop (keys : list string) (key : string) (best : option string) : option string :=
  match keys with
  | [] => best
  | k :: keys' =>
      let best :=
        if negb (EqualFold (TrimSpace k) key) then best
        else match best with
             | Some b => if String.ltb k b then Some k else best
             | None => Some k
             end in
      lookupLoop keys' key best
  end.

Definition lookup_case (t : EffectByArgument) (key : string) : option EffectCase :=
  match lookupLoop (map fst (map_to_list (eba_Cases t))) key None with
  | Some best => eba_Cases t !! best
  | None => None
  end.

Definition match_case (t : EffectByArgument) (args : list (string * value)) : option EffectCase :=
  match ResolveArgument args (eba_Argument t) with
  | None => None
  | Some raw =>
      match argumentMatchKey raw with
      | None => None
      | Some key =>
          match lookup_case t key with
          | Some c => Some c
          | None =>
              let verb := OperationVerb key in
              let hit := if negb (String.eqb verb "") && negb (String.eqb verb key)
                         then lookup_case t verb else None in
              match hit with
              | Some c => Some c
              | None => eba_Default t
              end
          end
      end
  end.

(** ** Resolution *)

Definition or_else (a b : string) : string := if String.eqb a "" then b else a.

(** The base contract overlaid by the table. *)
Definition overlay (contract : EffectContract) (args : list (string * value))
    : string * bool * string * option BlastRadiusSpec :=
  match ct_ByArgument contract with
  | None => (ct_Class contract, ct_Idempotent contract, ct_CompensatingAction contract, ct_BlastRadius contract)
  | Some tbl =>
      match match_case tbl args with
      | Some c =>
          (or_else (ec_Class c) (ct_Class contract),
           default (ct_Idempotent contract) (ec_Idempotent c),
           or_else (ec_CompensatingAction c) (ct_CompensatingAction contract),
           match ec_BlastRadius c with Some s => Some s | None => ct_BlastRadius contract end)
      | None => (EffectIrreversible, false, "", None)
      end
  end.

Definition ResolveEffect (contract : option EffectContract) (args : list (string * value)) : ResolvedEffect :=
  match contract with
  | None => UnannotatedEffect
  | Some contract =>
      let '(class, idempotent, action, spec) := overlay contract args in
      let class := or_else class EffectIrreversible in
      let action := if String.eqb class EffectCompensable then action else "" in
      mkResolvedEffect class idempotent action
        (match spec with Some s => resolve s args | None => None end)
        (match spec with Some s => brs_Unit s | None => "" end)
        (ct_Ref contract) true
  end.

(** ** Load-time rules *)

Inductive effectError :=
| ErrClass (where_ class : string)
| ErrNoCompensation (where_ : string)
| ErrCompensationClass (where_ class : string)
| ErrRadiusBoth (where_ : string)
| ErrRadiusNeither (where_ : string)
| ErrRadiusNumber (where_ literal : string)
| ErrRadiusNegative (where_ literal : string)
| ErrRefShape (ref : string)
| ErrRefPin (ref : string)
| ErrRefDigest (ref : string)
| ErrRefMismatch (ref digest actual : string)
| ErrTableArgument
| ErrTableEmpty
| ErrTableAmbiguous (prev value : string)
| ErrOnExceed (s : string)
| ErrCompensationInert (class : string)
| ErrCeilingEmpty.

Definition validateCompensationPairing (where_ class compensating : string) : option effectError :=
  if String.eqb class EffectCompensable && String.eqb compensating "" then Some (ErrNoCompensation where_)
  else if negb (String.eqb class EffectCompensable) && negb (String.eqb compensating "")
  then Some (ErrCompensationClass where_ class)
  else None.

Definition validateBlastRadiusSpec (where_ : string) (s : option BlastRadiusSpec) : option effectError :=
  match s with
  | None => None
  | Some s =>
      let hasArg := negb (String.eqb (TrimSpace (brs_Argument s)) "") in
      match brs_Value s with
      | Some n =>
          if hasArg then Some (ErrRadiusBoth where_)
          else match ParseBlastRadiusNumber n with
               | None => Some (ErrRadiusNumber where_ n)
               | Some v => if Qle_bool 0 v then None else Some (ErrRadiusNegative where_ n)
               end
      | None => if hasArg then None else Some (ErrRadiusNeither where_)
      end
  end.

Definition is_hex (c : ascii) : bool :=
  in_bytes 48 57 c || in_bytes 97 102 c || in_bytes 65 70 c.

(** [ValidateSHA256Pin] accepts. *)
Definition ValidateSHA256Pin (s : string) : bool :=
  has_prefix s "sha256:" &&
  let hexPart := drop_str (String.length "sha256:") s in
  (String.length hexPart =? 64)%nat && str_forall is_hex hexPart && String.eqb hexPart (to_lower hexPart).

(** The digest of a contract's JSON; [None] when it cannot be marshalled. *)
Context (digestJSON : EffectContract -> option string).

Definition EffectContractDigest (c : EffectContract) : option string :=
  digestJSON (mkEffectContract (ct_Class c) (ct_Idempotent c) (ct_CompensatingAction c)
    (ct_BlastRadius c) (ct_ByArgument c) "").

Definition validateEffectRefPin (e : EffectContract) : option effectError :=
  if String.eqb (ct_Ref e) "" then None
  else
    match SplitEffectRef (ct_Ref e) with
    | None => Some (ErrRefShape (ct_Ref e))
    | Some (_, digest) =>
        if negb (ValidateSHA256Pin digest) then Some (ErrRefPin (ct_Ref e))
        else
          match EffectContractDigest e with
          | None => Some (ErrRefDigest (ct_Ref e))
          | Some actual =>
              if String.eqb actual digest then None else Some (ErrRefMismatch (ct_Ref e) digest actual)
          end
    end.

Definition validateCaseCompensation (where_ : string) (c : EffectCase)
    (effectiveClass effectiveAction : string) : option effectError :=
  if String.eqb (ec_Class c) "" && String.eqb (ec_CompensatingAction c) "" then None
  else if String.eqb effectiveClass EffectCompensable && String.eqb effectiveAction ""
  then Some (ErrNoCompensation where_)
  else if negb (String.eqb effectiveClass EffectCompensable) && negb (String.eqb (ec_CompensatingAction c) "")
  then Some (ErrCompensationClass where_ effectiveClass)
  else None.

Definition first_error (a b : option effectError) : option effectError :=
  match a with Some e => Some e | None => b end.

Definition validateEffectCase (where_ : string) (c : EffectCase) (baseClass baseAction : string)
    : option effectError :=
  if negb (String.eqb (ec_Class c) "") && negb (IsEffectClass (ec_Class c))
  then Some (ErrClass where_ (ec_Class c))
  else
    let effectiveClass := or_else (ec_Class c) baseClass in
    let effectiveAction := or_else (ec_CompensatingAction c) baseAction in
    first_error
      (if negb (String.eqb effectiveClass "") || negb (String.eqb (ec_CompensatingAction c) "")
       then validateCaseCompensation where_ c effectiveClass effectiveAction else None)
      (validateBlastRadiusSpec (where_ ++ ".blastRadius") (ec_BlastRadius c)).

(** The pass that refuses two keys of one fold. *)
Fixpoint dupFold (keys : list string) (folded : list (string * string)) : option effectError :=
  match keys with
  | [] => None
  | v :: keys' =>
      let key := canonicalCaseFold (TrimSpace v) in
      match seen_lookup key folded with
      | Some prev => Some (ErrTableAmbiguous prev v)
      | None => dupFold keys' ((key, v) :: folded)
      end
  end.

Fixpoint validateCases (cases : list (string * EffectCase)) (baseClass baseAction : string) : option effectError :=
  match cases with
  | [] => None
  | (v, c) :: cases' =>
      first_error (validateEffectCase ("effect.byArgument.cases[" ++ v ++ "]") c baseClass baseAction)
        (validateCases cases' baseClass baseAction)
  end.

Definition validateEffectByArgument (e : EffectContract) : option effectError :=
  match ct_ByArgument e with
  | None => None
  | Some t =>
      let cases := map_to_list (eba_Cases t) in
      if String.eqb (TrimSpace (eba_Argument t)) "" then Some ErrTableArgument
      else if bool_decide (cases = []) && negb (bool_decide (is_Some (eba_Default t))) then Some ErrTableEmpty
      else
        first_error (dupFold (map fst cases) [])
          (first_error (validateCases cases (ct_Class e) (ct_CompensatingAction e))
             (match eba_Default t with
              | Some d => validateEffectCase "effect.byArgument.default" d (ct_Class e) (ct_CompensatingAction e)
              | None => None
              end))
  end.

Definition ValidateEffectContract (e : option EffectContract) : option effectError :=
  match e with
  | None => None
  | Some e =>
      if negb (String.eqb (ct_Class e) "") && negb (IsEffectClass (ct_Class e))
      then Some (ErrClass "effect" (ct_Class e))
      else
        first_error (validateCompensationPairing "effect" (ct_Class e) (ct_CompensatingAction e))
          (first_error (validateBlastRadiusSpec "effect.blastRadius" (ct_BlastRadius e))
             (first_error (validateEffectRefPin e) (validateEffectByArgument e)))
  end.

Definition ValidateEffectCeiling (c : option EffectCeiling) : option effectError :=
  match c with
  | None => None
  | Some c =>
      first_error
        (if negb (String.eqb (MaxEffectClass c) "") && negb (IsEffectClass (MaxEffectClass c))
         then Some (ErrClass "effectCeiling" (MaxEffectClass c)) else None)
        (first_error
           (match MaxBlastRadius c with
            | Some n =>
                match ParseBlastRadiusNumber n with
                | None => Some (ErrRadiusNumber "effectCeiling" n)
                | Some v => if Qle_bool 0 v then None else Some (ErrRadiusNegative "effectCeiling" n)
                end
            | None => None
            end)
           (if negb (one_of (OnExceed c) [""; OnExceedEscalate; OnExceedDeny]) then Some (ErrOnExceed (OnExceed c))
            else if RequireCompensation c &&
                    (String.eqb (MaxEffectClass c) "" || String.eqb (MaxEffectClass c) EffectIrreversible)
            then Some (ErrCompensationInert (MaxEffectClass c))
            else if negb (IsSet (Some c)) then Some ErrCeilingEmpty
            else None))
  end.

(** ** What a validated contract resolves to *)

Lemma first_error_none a b : first_error a b = None <-> a = None /\ b = None.
Proof. destruct a; cbn; naive_solver. Qed.

Lemma or_else_eq a b : or_else a b = if String.eqb a "" then b else a.
Proof. done. Qed.

(** A class and an action that may stand together: a compensating action is what makes an
    action compensable. *)
Definition paired (class action : string) : Prop :=
  (class = "" \/ IsEffectClass class = true) /\ (class = EffectCompensable -> action <> "").

Lemma pairing_ok where_ class action :
  negb (String.eqb class "") && negb (IsEffectClass class) = false ->
  validateCompensationPairing where_ class action = None -> paired class action.
Proof.
  intros Hc Hp. unfold validateCompensationPairing in Hp. split.
  - destruct (String.eqb_spec class "") as [->|]; [by left | right].
    cbn in Hc. by apply negb_false_iff in Hc.
  - intros -> ->. by cbn in Hp.
Qed.

Lemma case_ok where_ c baseClass baseAction :
  paired baseClass baseAction -> validateEffectCase where_ c baseClass baseAction = None ->
  paired (or_else (ec_Class c) baseClass) (or_else (ec_CompensatingAction c) baseAction).
Proof.
  intros [Hb Hp]. unfold validateEffectCase. destruct (negb _ && negb _) eqn:Ec; [done|].
  rewrite first_error_none. intros [Hv _]. unfold validateCaseCompensation in Hv. rewrite !or_else_eq in *.
  split.
  - destruct (String.eqb_spec (ec_Class c) "") as [->|]; [done | right].
    cbn in Ec. by apply negb_false_iff in Ec.
  - intros E. rewrite E in Hv. cbn [negb orb String.eqb] in Hv. change (String.eqb EffectCompensable "") with false in Hv.
    cbn [negb orb] in Hv. change (String.eqb EffectCompensable EffectCompensable) with true in Hv. cbn [negb andb] in Hv.
    destruct (String.eqb_spec (ec_Class c) "") as [Hc|Hc], (String.eqb_spec (ec_CompensatingAction c) "") as [Ha|Ha];
      cbn [andb] in Hv; [by apply Hp | done | | done].
    destruct (String.eqb_spec baseAction "") as [->|]; [done | done].
Qed.

Lemma cases_ok cases baseClass baseAction v c :
  validateCases cases baseClass baseAction = None -> (v, c) ∈ cases ->
  exists where_, validateEffectCase where_ c baseClass baseAction = None.
Proof.
  induction cases as [|[v' c'] cases IH]; cbn; [by intros _ ?%not_elem_of_nil|].
  rewrite first_error_none. intros [H1 H2] [E|Hin]%elem_of_cons; [simplify_eq; by eexists | by apply IH].
Qed.

(** A row the matcher returns is a row of the table or its default. *)
Lemma match_case_row t args c :
  match_case t args = Some c -> (exists v, eba_Cases t !! v = Some c) \/ eba_Default t = Some c.
Proof.
  unfold match_case. destruct (ResolveArgument _ _) as [raw|]; [| done].
  destruct (argumentMatchKey raw) as [key|]; [| done].
  assert (forall k c, lookup_case t k = Some c -> exists v, eba_Cases t !! v = Some c) as Hl.
  { unfold lookup_case. intros k c'. destruct (lookupLoop _ _ _); [| done]. intros H. by eexists. }
  destruct (lookup_case t key) eqn:E1; [intros [= <-]; left; by eapply Hl|].
  cbn zeta. destruct (negb _ && negb _); [| by right].
  destruct (lookup_case t (OperationVerb key)) eqn:E2; [intros [= <-]; left; by eapply Hl | by right].
Qed.

Lemma overlay_paired e args :
  ValidateEffectContract (Some e) = None ->
  let '(class, _, action, _) := overlay e args in paired class action.
Proof.
  unfold ValidateEffectContract. destruct (negb _ && negb _) eqn:Ec; [done|].
  rewrite !first_error_none. intros (Hp & _ & _ & Ht).
  pose proof (pairing_ok _ _ _ Ec Hp) as Hb. unfold overlay.
  destruct (ct_ByArgument e) as [t|] eqn:Et; [| done].
  destruct (match_case t args) as [c|] eqn:Em; [| split; [by right | done]].
  unfold validateEffectByArgument in Ht. rewrite Et in Ht. repeat case_match; try done.
  - apply match_case_row in Em as [[v Hv]|Hd]; apply first_error_none in Ht as [_ [Hcs Hdef]%first_error_none].
    + apply elem_of_map_to_list in Hv. destruct (cases_ok _ _ _ _ _ Hcs Hv) as [w Hw]. by eapply case_ok.
    + simplify_eq. by eapply case_ok.
  - apply match_case_row in Em as [[v Hv]|Hd]; [| congruence].
    apply first_error_none in Ht as [_ [Hcs _]%first_error_none].
    apply elem_of_map_to_list in Hv. destruct (cases_ok _ _ _ _ _ Hcs Hv) as [w Hw]. by eapply case_ok.
Qed.

(** A contract that passes validation resolves, for every call, to a class of the
    vocabulary, with a compensating action exactly when the class is compensable: the
    load-time pairing of classes and actions is the pairing of what is enforced, through
    every row of an argument table and every inheritance from the base contract. *)
Theorem validated_contract_resolves e args :
  ValidateEffectContract (Some e) = None ->
  let r := ResolveEffect (Some e) args in
  IsEffectClass (Class_ r) = true /\ (Class_ r = EffectCompensable <-> CompensatingAction r <> "").
Proof.
  intros Hv. pose proof (overlay_paired e args Hv) as Hp. cbn zeta. unfold ResolveEffect.
  destruct (overlay e args) as [[[class idem] action] spec]. destruct Hp as [Hc Ha]. cbn.
  rewrite or_else_eq. destruct (String.eqb_spec class "") as [->|Hne]; [done|]. split.
  - by destruct Hc.
  - destruct (String.eqb_spec class EffectCompensable) as [->|]; [by split; [auto |] | done].
Qed.

(** A call that establishes no value for the argument a table is keyed on (absent, null,
    blank, or a composite) resolves to the fail-closed effect, whatever default row the table
    declares and whatever the base contract says. *)
Theorem unestablished_key_fails_closed e t args :
  ct_ByArgument e = Some t ->
  match ResolveArgument args (eba_Argument t) with
  | Some raw => argumentMatchKey raw = None
  | None => True
  end ->
  let r := ResolveEffect (Some e) args in
  Class_ r = EffectIrreversible /\ Idempotent r = false /\ CompensatingAction r = "" /\
  BlastRadius r = None.
Proof.
  intros Ht Hk. cbn zeta. unfold ResolveEffect, overlay. rewrite Ht.
  assert (match_case t args = None) as ->; [| done].
  unfold match_case. destruct (ResolveArgument _ _); [by rewrite Hk | done].
Qed.

(** No caller-chosen argument resolves to a negative magnitude. *)
Lemma magnitude_nonneg contract args q :
  BlastRadius (ResolveEffect contract args) = Some q -> (0 <= q)%Q.
Proof.
  unfold ResolveEffect. destruct contract as [e|]; [| done].
  destruct (overlay e args) as [[[class idem] action] [s|]]; cbn; [| done].
  unfold resolve. destruct (resolveRaw s args); [| done].
  destruct (Qle_bool 0 q0) eqn:E; [| done]. intros [= <-]. by apply Qle_bool_iff.
Qed.

(** ** Tables *)

Lemma lookupLoop_spec keys key : forall best,
  match lookupLoop keys key best with
  | Some b => best = Some b \/ (b ∈ keys /\ EqualFold (TrimSpace b) key = true)
  | None => best = None /\ forall k, k ∈ keys -> EqualFold (TrimSpace k) key = false
  end.
Proof.
  induction keys as [|k keys IH]; intros best; cbn [lookupLoop].
  { destruct best; [by left | split; [done | by intros ? ?%not_elem_of_nil]]. }
  specialize (IH (if negb (EqualFold (TrimSpace k) key) then best
                  else match best with Some b => if String.ltb k b then Some k else best | None => Some k end)).
  destruct (lookupLoop keys key _) as [b|].
  - destruct IH as [E|[Hin He]]; [| right; split; [by apply list_elem_of_further | done]].
    destruct (EqualFold (TrimSpace k) key) eqn:Em; cbn [negb] in E; [| by left].
    destruct best as [b'|]; [destruct (String.ltb k b')|]; simplify_eq;
      [right; split; [apply list_elem_of_here | done] | by left | right; split; [apply list_elem_of_here | done]].
  - destruct IH as [E IH]. destruct (EqualFold (TrimSpace k) key) eqn:Em; cbn [negb] in E.
    { destruct best as [b'|]; [by destruct (String.ltb k b') | done]. }
    split; [done|]. intros k' [->|Hk]%elem_of_cons; [done | by apply IH].
Qed.

Context {L : UnicodeLaws U}.

Lemma dupFold_inj keys : forall folded k1 k2,
  dupFold keys folded = None -> k1 ∈ keys -> k2 ∈ keys ->
  canonicalCaseFold (TrimSpace k1) = canonicalCaseFold (TrimSpace k2) -> k1 = k2.
Proof.
  assert (forall keys folded k f v, dupFold keys folded = None -> (f, v) ∈ folded -> k ∈ keys ->
    canonicalCaseFold (TrimSpace k) <> f) as Hout.
  { clear keys. induction keys as [|k' keys IH]; intros folded k f v; cbn [dupFold]; [by intros _ _ ?%not_elem_of_nil|].
    destruct (seen_lookup _ folded) eqn:Es; [done|]. intros Hd Hf [->|Hk]%elem_of_cons.
    - apply seen_lookup_none in Es. rewrite Forall_forall in Es. by apply (Es (f, v)).
    - eapply IH; [done | by apply list_elem_of_further | done]. }
  induction keys as [|k keys IH]; intros folded k1 k2; cbn [dupFold]; [by intros _ ?%not_elem_of_nil|].
  destruct (seen_lookup _ folded); [done|]. intros Hd [->|H1]%elem_of_cons [->|H2]%elem_of_cons E; [done | | |].
  - exfalso. by eapply (Hout keys _ k2); [done | apply list_elem_of_here | done |].
  - exfalso. by eapply (Hout keys _ k1); [done | apply list_elem_of_here | done |].
  - by eapply IH.
Qed.

(** In a validated table no argument value matches two rows: a row whose key matches,
    under the matcher's own folding, is the row that is resolved, in whatever order the map
    is walked and with no tie to break. *)
Theorem validated_table_unambiguous e t k c key :
  ValidateEffectContract (Some e) = None -> ct_ByArgument e = Some t ->
  eba_Cases t !! k = Some c -> EqualFold (TrimSpace k) key = true ->
  lookup_case t key = Some c.
Proof.
  intros Hv Ht Hk Hm. unfold ValidateEffectContract in Hv. destruct (negb _ && negb _); [done|].
  apply first_error_none in Hv as [_ [_ [_ Hv]%first_error_none]%first_error_none].
  unfold validateEffectByArgument in Hv. rewrite Ht in Hv.
  destruct (String.eqb _ ""); [done|]. destruct (_ && _); [done|].
  apply first_error_none in Hv as [Hd _]. set (keys := map fst (map_to_list (eba_Cases t))) in *.
  assert (k ∈ keys) as Hin.
  { apply elem_of_map_to_list in Hk. apply list_elem_of_In, in_map_iff. exists (k, c).
    split; [done | by apply list_elem_of_In]. }
  unfold lookup_case. fold keys. pose proof (lookupLoop_spec keys key None) as Hl.
  destruct (lookupLoop keys key None) as [b|].
  - destruct Hl as [|[Hb Hmb]]; [done|]. assert (b = k) as ->; [| done].
    apply (dupFold_inj keys [] b k Hd Hb Hin).
    apply fold_iff in Hm. apply fold_iff in Hmb. congruence.
  - destruct Hl as [_ Hl]. rewrite (Hl k Hin) in Hm. done.
Qed.

End unicode.

(** ** An example: a query tool *)

Definition exampleTable : EffectByArgument :=
  mkEffectByArgument "$.q.sql"
    (<["SELECT" := mkEffectCase EffectReversible None "" None]>
      (<["drop" := mkEffectCase EffectIrreversible None "" None]> ∅))
    (Some (mkEffectCase EffectCompensable None "tool:undo" None)).

Definition exampleContract : EffectContract :=
  mkEffectContract EffectReversible true "" (Some (mkBlastRadiusSpec None "rows" "rows")) (Some exampleTable) "".

Definition sql (q : string) : list (string * value) :=
  [("q", VObject [("sql", VString q)]); ("rows", VNumber "250.5")].

Lemma validated_contract_resolves_witness :
  let r := ResolveEffect (Some exampleContract) (sql "UPDATE t") in
  ValidateEffectContract (fun _ => None) (Some exampleContract) = None /\
  (Class_ r = EffectCompensable <-> CompensatingAction r <> "") /\ CompensatingAction r = "tool:undo".
Proof.
  assert (ValidateEffectContract (fun _ => None) (Some exampleContract) = None) as Hv
    by (vm_compute; reflexivity).
  split; [done|]. split; [| vm_compute; reflexivity].
  apply (validated_contract_resolves (fun _ => None) exampleContract (sql "UPDATE t") Hv).
Defined.

Lemma unestablished_key_fails_closed_witness :
  let r := ResolveEffect (Some exampleContract) [("rows", VNumber "1")] in
  Class_ r = EffectIrreversible /\ BlastRadius r = None.
Proof.
  cbn zeta.
  destruct (unestablished_key_fails_closed exampleContract exampleTable [("rows", VNumber "1")]) as (H1 & _ & _ & H4);
    [reflexivity | vm_compute; exact I | by split].
Defined.

Lemma validated_table_unambiguous_witness :
  lookup_case exampleTable "DROP" = Some (mkEffectCase EffectIrreversible None "" None).
Proof.
  apply (validated_table_unambiguous (L := asciiLaws) (fun _ => None) exampleContract exampleTable "drop");
    vm_compute; reflexivity.
Defined.

End Effect.
