(* ===== verification/Numeric.v ===== *)
(** * Comparison of numbers

    The numeric helpers of pkg/enforcement/handlers.go and schema.go: how a [json.Number],
    a native integer or a float is read as an int64, as a rational and as a float64, and
    the two comparisons built on them.  A [json.Number] is a literal of JSON's number
    grammar (or another decimal spelling); a native integer ([VInt]) above the int64 range
    is a [uint64]. *)
From stdpp Require Import base tactics list strings.
From Stdlib Require Import ZArith Lia Ascii String QArith SpecFloat Qreduction.
From S2P Require Import Prelude GoStrings GoPath Truncate Float64 Capability CaseFold Magnitude ArgumentPath.
#[local] Open Scope string_scope.
#[local] Open Scope Z_scope.
Import Capability Magnitude ArgumentPath.

Module Numeric.

(** ** strconv *)

(** The literal is a decimal of the grammar, whatever its size. *)
Definition decimal_literal (s : string) : bool :=
  let '(ip, r) := span_digits (snd (span_sign s)) in
  let '(fp, r) := span_fraction r in
  negb (String.length ip + String.length fp =? 0)%nat &&
  match r with
  | EmptyString => true
  | String c r =>
      is_exp_char c &&
      let '(ed, r) := span_digits (snd (span_sign r)) in
      negb (String.eqb ed "") && String.eqb r ""
  end.

(** [strconv.ParseInt(s, 10, 64)]. *)
Definition ParseInt64 (s : string) : option Z :=
  match SetString10 s with
  | Some z => if (min_int64 <=? z) && (z <=? max_int64) then Some z else None
  | None => None
  end.

(** The binary64 nearest to [n / d], ties to even, both positive. *)
Definition float_of_frac (neg : bool) (n d : Z) : float64 :=
  let k := Z.log2 n - Z.log2 d in
  let k := if (n * 2 ^ Z.max (- k) 0 <? d * 2 ^ Z.max k 0) then k - 1 else k in
  let e := Z.max (k - 52) (-1074) in
  let '(a, b) := scaled n d (- e) in
  binary_normalize 53 1024 (signed neg (nearest_even a b)) e neg.

Definition float_of_rat (q : Q) : float64 :=
  match Qnum q with
  | 0 => f_zero
  | Z.pos n => float_of_frac false (Z.pos n) (Z.pos (Qden q))
  | Z.neg n => float_of_frac true (Z.pos n) (Z.pos (Qden q))
  end.

(** [strconv.ParseFloat(s, 64)]; a value that rounds to an infinity is a range error. *)
Definition ParseFloat64 (s : string) : option float64 :=
  if decimal_literal s then
    let f := float_of_rat (decimal_value s) in
    let f := if (fst (decimal s) =? 0) && fst (span_sign s) then S754_zero true else f in
    if is_inf f then None else Some f
  else None.

(** ** Readings *)

Definition minInt64Float : float64 := of_Z min_int64.
Definition twoTo63Float : float64 := of_Z two63.

(** [int64(f)] of a value in range. *)
Definition FloatToInt64 (f : float64) : option Z :=
  if f_lt f minInt64Float || f_ge f twoTo63Float then None
  else
    match f_trunc f with
    | Some i => if f_eq (of_Z i) f then Some i else None
    | None => None
    end.

Definition asInt64 (v : value) : option Z :=
  match v with
  | VNumber n =>
      match ParseInt64 n with
      | Some i => Some i
      | None => match ParseFloat64 n with Some f => FloatToInt64 f | None => None end
      end
  | VInt z => if z <=? max_int64 then Some z else None
  | VFloat f => FloatToInt64 f
  | _ => None
  end.

Definition ratFromFloat (f : float64) : option Q :=
  match f with
  | S754_zero _ => Some 0%Q
  | S754_finite s m e =>
      let q := if 0 <=? e then inject_Z (Z.pos m * 2 ^ e) else Z.pos m # Z.to_pos (2 ^ (- e)) in
      Some (if s then Qopp q else q)
  | _ => None
  end.

(** A signed native integer has no arm; one above the int64 range is a [uint64]. *)
Definition exactRat (v : value) : option Q :=
  match v with
  | VNumber n => if NumericLiteralBounded n then Some (decimal_value n) else None
  | VInt z => if max_int64 <? z then Some (inject_Z z) else None
  | VFloat f => ratFromFloat f
  | _ => None
  end.

(** [r.IsInt()], with the integer. *)
Definition exactIntegerRat (v : value) : option Z :=
  match exactRat v with
  | Some q => let r := Qred q in if (Qden r =? 1)%positive then Some (Qnum r) else None
  | None => None
  end.

Definition toFloat64 (v : value) : option float64 :=
  match v with
  | VNumber n => ParseFloat64 n
  | VInt z => Some (of_Z z)
  | VFloat f => Some f
  | _ => None
  end.

Definition numericEqual (a b : value) : bool :=
  match asInt64 a, asInt64 b with
  | Some ia, Some ib => ia =? ib
  | Some _, None | None, Some _ => false
  | None, None =>
      match exactIntegerRat a, exactIntegerRat b with
      | Some ra, Some rb => ra =? rb
      | _, _ =>
          match toFloat64 a, toFloat64 b with
          | Some fa, Some fb => f_eq fa fb
          | _, _ => false
          end
      end
  end.

(** -1, 0 or 1. *)
Definition sign_of (c : comparison) : Z := match c with Lt => -1 | Eq => 0 | Gt => 1 end.

Definition compareFloats (f bound : float64) : Z :=
  if f_lt f bound then -1 else if f_gt f bound then 1 else 0.

Definition compareToBound (raw : value) (f bound : float64) : Z :=
  match asInt64 raw, FloatToInt64 bound with
  | Some ri, Some bi => sign_of (ri ?= bi)
  | _, _ =>
      match exactIntegerRat raw, exactIntegerRat (VFloat bound) with
      | Some rr, Some br => sign_of (rr ?= br)
      | _, _ => compareFloats f bound
      end
  end.

(** [reflect.DeepEqual] on decoded values; maps are equal as maps. *)
Fixpoint deepEqual (a b : value) {struct a} : bool :=
  match a, b with
  | VNull, VNull => true
  | VBool x, VBool y => Bool.eqb x y
  | VNumber x, VNumber y => String.eqb x y
  | VInt x, VInt y => x =? y
  | VFloat x, VFloat y => f_eq x y
  | VString x, VString y => String.eqb x y
  | VBytes x, VBytes y => String.eqb x y
  | VStrings l, VStrings m => bool_decide (l = m)
  | VArray l, VArray m =>
      (fix all (l m : list value) {struct l} : bool :=
         match l, m with
         | [], [] => true
         | x :: l, y :: m => deepEqual x y && all l m
         | _, _ => false
         end) l m
  | VObject l, VObject m =>
      (List.length l =? List.length m)%nat &&
      (fix all (l : list (string * value)) : bool :=
         match l with
         | [] => true
         | (k, x) :: l => match index k m with Some y => deepEqual x y | None => false end && all l
         end) l
  | _, _ => false
  end.

(** ** Integers compare exactly *)

Lemma exactIntegerRat_literal s x :
  SetString10 s = Some x -> NumericLiteralBounded s = true -> exactIntegerRat (VNumber s) = Some x.
Proof.
  intros Hx Hb. unfold exactIntegerRat, exactRat. rewrite Hb, (SetString10_value s x Hx), Qred_inject_Z. done.
Qed.

Lemma ParseInt64_literal s x : SetString10 s = Some x -> in_int64 x -> ParseInt64 s = Some x.
Proof.
  intros Hx [H1 H2]. unfold ParseInt64. rewrite Hx.
  by rewrite (proj2 (Z.leb_le _ _) H1), (proj2 (Z.leb_le _ _) H2).
Qed.

(** A rational in lowest terms over one is the integer it equals. *)
Lemma Qred_int n p y : (if (Qden (Qred (n # p)) =? 1)%positive then Some (Qnum (Qred (n # p))) else None) = Some y ->
  n = y * Z.pos p.
Proof.
  destruct (Pos.eqb_spec (Qden (Qred (n # p))) 1) as [E|]; [| done]. intros [= <-].
  pose proof (Qred_correct (n # p)) as H. unfold Qeq in H. rewrite E in H. cbn in H. lia.
Qed.

(** A whole float converts to the integer it is. *)
Lemma FloatToInt64_whole f i y :
  FloatToInt64 f = Some i -> exactIntegerRat (VFloat f) = Some y -> i = y.
Proof.
  unfold FloatToInt64, exactIntegerRat, exactRat. destruct (_ || _); [done|].
  destruct f as [s|s| |s m e]; cbn [f_trunc ratFromFloat]; try done.
  - destruct (f_eq _ _); [| done]. intros [= <-]. by intros [= <-].
  - destruct (f_eq _ _); [| done]. intros [= <-]. destruct (Z.leb_spec 0 e) as [He|He].
    + destruct s; intros Hq%Qred_int; unfold inject_Z in Hq; cbn [Qnum Qden] in Hq; lia.
    + assert (0 < 2 ^ (- e)) by (apply Z.pow_pos_nonneg; lia).
      destruct s; intros Hq%Qred_int; cbn [Qnum Qden] in Hq; rewrite Z2Pos.id in Hq by done.
      * replace (Z.pos m) with (- y * 2 ^ (- e)) by lia. rewrite Z.div_mul by lia. lia.
      * rewrite Hq. by rewrite Z.div_mul by lia.
Qed.

(** An argument written as a plain integer in the int64 range is compared with an
    integral bound as integers, at every magnitude: no rounding to a float64 lets a value
    past a bound it exceeds. *)
Theorem integer_bounds_exact s x f bound y :
  SetString10 s = Some x -> in_int64 x -> NumericLiteralBounded s = true ->
  exactIntegerRat (VFloat bound) = Some y ->
  compareToBound (VNumber s) f bound = sign_of (x ?= y).
Proof.
  intros Hx Hr Hb Hy. unfold compareToBound, asInt64. rewrite (ParseInt64_literal s x Hx Hr).
  destruct (FloatToInt64 bound) as [i|] eqn:Ei.
  - by rewrite (FloatToInt64_whole bound i y Ei Hy).
  - by rewrite (exactIntegerRat_literal s x Hx Hb), Hy.
Qed.

Lemma integer_bounds_exact_witness :
  compareToBound (VNumber "9007199254740993") (of_Z 9007199254740992) (of_Z 9007199254740992) = 1 /\
  f_eq (of_Z 9007199254740993) (of_Z 9007199254740992) = true.
Proof.
  split; [| vm_compute; reflexivity].
  rewrite (integer_bounds_exact "9007199254740993" 9007199254740993 _ _ 9007199254740992);
    [reflexivity | vm_compute; reflexivity | split; vm_compute; discriminate | vm_compute; reflexivity ..].
Defined.

(** Two plain integers of the int64 range are equal numbers exactly when they are the same. *)
Lemma numericEqual_integers s x t y :
  SetString10 s = Some x -> in_int64 x -> SetString10 t = Some y -> in_int64 y ->
  numericEqual (VNumber s) (VNumber t) = (x =? y).
Proof.
  intros Hx Hrx Hy Hry. unfold numericEqual, asInt64.
  by rewrite (ParseInt64_literal s x Hx Hrx), (ParseInt64_literal t y Hy Hry).
Qed.

(** The exactness stops at other spellings of an integer.  A literal with a fraction or
    an exponent is rounded to a float64 before it is taken for an integer, and so is an
    integer just below the int64 range: each of these numbers passes an allowlist or a bound
    that names its neighbour. *)
Theorem respelled_integers_conflated :
  numericEqual (VNumber "9007199254740993.0") (VInt 9007199254740992) = true /\
  Qcompare (decimal_value "9007199254740993.0") (inject_Z 9007199254740992) = Gt /\
  compareToBound (VNumber "9007199254740993.0") (of_Z 9007199254740992) (of_Z 9007199254740992) = 0 /\
  numericEqual (VNumber "-9223372036854775809") (VInt min_int64) = true.
Proof. vm_compute. tauto. Qed.

End Numeric.
