(* ===== verification/NumericExact.v ===== *)
(** * Exact values of numbers

    What the numeric helpers of pkg/enforcement/handlers.go (Numeric.v) compute, against the
    rational numbers that literals and floats denote: [SFcompare] orders finite binary64
    values as rationals, [FloatToInt64] reads exactly the whole ones of the int64 range,
    [ParseFloat64] yields the nearest value; and for a number that is an int64 integer
    plainly spelled, or that a binary64 holds exactly, [compareToBound] and [numericEqual]
    are the comparison and the equality of the exact values. *)
From stdpp Require Import base tactics list strings.
From Stdlib Require Import ZArith Lia Ascii String QArith SpecFloat Qreduction.
From S2P Require Import Prelude GoStrings GoPath Truncate Float64 Capability CaseFold Magnitude ArgumentPath.
From S2P Require Import Numeric.
#[local] Open Scope string_scope.
#[local] Open Scope Z_scope.
Import Capability Magnitude ArgumentPath Numeric.

Module NumericExact.

(** ** Finite floats as integers over [2^1074] *)

Definition finite_float (f : float64) : Prop :=
  is_nan f = false /\ is_inf f = false /\ valid_binary 53 1024 f = true.

Definition fint (f : float64) : Z :=
  match f with S754_finite s m e => signed s (Z.pos m * 2 ^ (e + 1074)) | _ => 0 end.

(** The rational a finite float is. *)
Definition float_value (f : float64) : Q := default 0%Q (ratFromFloat f).

Definition unit_den : positive := (2 ^ 1074)%positive.

Lemma unit_den_pow : Z.pos unit_den = 2 ^ 1074.
Proof. reflexivity. Qed.
#[local] Opaque unit_den.

Lemma bounded_parts m e :
  bounded 53 1024 m e = true ->
  -1074 <= e <= 971 /\ Z.pos m < 2 ^ 53 /\ (e = -1074 \/ 2 ^ 52 <= Z.pos m).
Proof.
  unfold bounded, canonical_mantissa, fexp, emin. intros [E%Z.eqb_eq He%Z.leb_le]%andb_true_iff.
  rewrite digits2_log2 in E. pose proof (Z.log2_nonneg (Z.pos m)).
  pose proof (Z.log2_spec (Z.pos m) ltac:(lia)) as [H1 H2]. split; [lia|].
  split.
  - eapply Z.lt_le_trans; [exact H2|]. apply Z.pow_le_mono_r; lia.
  - destruct (decide (e = -1074)); [by left|]. right.
    eapply Z.le_trans; [| exact H1]. apply Z.pow_le_mono_r; lia.
Qed.

Lemma fint_rat f : finite_float f ->
  exists q, ratFromFloat f = Some q /\ (q == fint f # unit_den)%Q.
Proof.
  intros (Hn & Hi & Hv). destruct f as [s|s| |s m e]; try done; [by exists 0%Q|].
  cbn in Hv. apply bounded_parts in Hv as (He & _ & _). cbn [ratFromFloat fint].
  eexists. split; [reflexivity|].
  assert ((if (0 <=? e)%Z then inject_Z (Z.pos m * 2 ^ e) else Z.pos m # Z.to_pos (2 ^ (- e)))
    == (Z.pos m * 2 ^ (e + 1074)) # unit_den)%Q as E.
  { destruct (Z.leb_spec 0 e) as [H|H]; unfold Qeq, inject_Z; cbn [Qnum Qden]; rewrite unit_den_pow.
    - rewrite Z.pow_add_r by lia. ring.
    - assert (0 < 2 ^ (- e)) by (apply Z.pow_pos_nonneg; lia). rewrite Z2Pos.id by done.
      replace 1074 with ((e + 1074) + - e) at 1 by lia. rewrite Z.pow_add_r by lia. ring. }
  destruct s; cbn [signed]; rewrite E; [| done]. unfold Qeq, Qopp. cbn [Qnum Qden]. ring.
Qed.

Lemma float_value_fint f : finite_float f -> (float_value f == fint f # unit_den)%Q.
Proof. intros H. unfold float_value. by destruct (fint_rat f H) as (q & -> & E). Qed.

Lemma float_value_compare x y : finite_float x -> finite_float y ->
  (float_value x ?= float_value y)%Q = (fint x ?= fint y).
Proof.
  intros Hx Hy. rewrite (float_value_fint x Hx), (float_value_fint y Hy).
  unfold Qcompare. cbn [Qnum Qden]. symmetry. apply Zmult_compare_compat_r. done.
Qed.

Lemma float_value_Z x z : finite_float x -> (float_value x == inject_Z z)%Q <-> fint x = z * 2 ^ 1074.
Proof.
  intros Hx. rewrite (float_value_fint x Hx). unfold Qeq, inject_Z. cbn [Qnum Qden].
  rewrite unit_den_pow. lia.
Qed.

(** The order of canonical floats is that of the numbers. *)
Lemma mantissa_compare m1 e1 m2 e2 :
  bounded 53 1024 m1 e1 = true -> bounded 53 1024 m2 e2 = true ->
  match e1 ?= e2 with Lt => Lt | Gt => Gt | Eq => Pos.compare_cont Eq m1 m2 end
  = (Z.pos m1 * 2 ^ (e1 + 1074) ?= Z.pos m2 * 2 ^ (e2 + 1074)).
Proof.
  intros (H1 & H1m & H1c)%bounded_parts (H2 & H2m & H2c)%bounded_parts.
  assert (forall m e m' e', -1074 <= e -> e < e' -> Z.pos m < 2 ^ 53 -> e' = -1074 \/ 2 ^ 52 <= Z.pos m' ->
    Z.pos m * 2 ^ (e + 1074) < Z.pos m' * 2 ^ (e' + 1074)) as Hlt.
  { clear. intros m e m' e' He Hlt Hm [|Hm']; [lia|].
    replace (e' + 1074) with ((e + 1074) + (e' - e - 1) + 1) by lia. rewrite (Z.pow_add_r _ _ 1), (Z.pow_add_r _ (e + 1074)) by lia.
    assert (0 < 2 ^ (e + 1074)) by (apply Z.pow_pos_nonneg; lia).
    assert (1 <= 2 ^ (e' - e - 1)) by (pose proof (Z.pow_pos_nonneg 2 (e' - e - 1)); lia).
    change (2 ^ 53) with (2 * 2 ^ 52) in Hm. set (A := 2 ^ (e + 1074)) in *. set (B := 2 ^ (e' - e - 1)) in *.
    apply Z.lt_le_trans with (2 * 2 ^ 52 * A); [apply Z.mul_lt_mono_pos_r; lia|].
    replace (Z.pos m' * (A * B * 2 ^ 1)) with (2 * (Z.pos m' * B) * A) by (change (2 ^ 1) with 2; ring).
    apply Z.mul_le_mono_nonneg_r; [lia|]. nia. }
  destruct (Z.compare_spec e1 e2) as [->|H|H]; symmetry.
  - rewrite <- Zmult_compare_compat_r by (apply Z.lt_gt, Z.pow_pos_nonneg; lia). done.
  - apply Z.compare_lt_iff. apply Hlt; (lia || done).
  - apply Z.compare_gt_iff. apply Hlt; (lia || done).
Qed.

Lemma compare_fint x y : finite_float x -> finite_float y -> SFcompare x y = Some (fint x ?= fint y).
Proof.
  intros (Hxn & Hxi & Hxv) (Hyn & Hyi & Hyv).
  assert (forall m e, bounded 53 1024 m e = true -> 0 < Z.pos m * 2 ^ (e + 1074)) as Hpos.
  { intros m e (He & _)%bounded_parts. assert (0 < 2 ^ (e + 1074)) by (apply Z.pow_pos_nonneg; lia). nia. }
  destruct x as [s1|s1| |s1 m1 e1], y as [s2|s2| |s2 m2 e2]; try done; cbn [SFcompare fint valid_binary] in *; f_equal.
  - specialize (Hpos _ _ Hyv). symmetry. destruct s2; cbn [signed]; [apply Z.compare_gt_iff | apply Z.compare_lt_iff]; lia.
  - specialize (Hpos _ _ Hxv). symmetry. destruct s1; cbn [signed]; [apply Z.compare_lt_iff | apply Z.compare_gt_iff]; lia.
  - pose proof (Hpos _ _ Hxv). pose proof (Hpos _ _ Hyv). pose proof (mantissa_compare _ _ _ _ Hxv Hyv) as Hm.
    set (a := Z.pos m1 * 2 ^ (e1 + 1074)) in *. set (b := Z.pos m2 * 2 ^ (e2 + 1074)) in *.
    destruct s1, s2; cbn [signed].
    + rewrite Z.compare_opp, (Z.compare_antisym a b), <- Hm.
      by destruct (e1 ?= e2).
    + symmetry. apply Z.compare_lt_iff. lia.
    + symmetry. apply Z.compare_gt_iff. lia.
    + done.
Qed.

Lemma f_eq_value x y : finite_float x -> finite_float y ->
  f_eq x y = true <-> (float_value x == float_value y)%Q.
Proof.
  intros Hx Hy. unfold f_eq, SFeqb. rewrite (compare_fint x y Hx Hy), <- (float_value_compare x y Hx Hy).
  rewrite Qeq_alt. by destruct (_ ?= _)%Q.
Qed.

Lemma compareFloats_value x y : finite_float x -> finite_float y ->
  compareFloats x y = sign_of (float_value x ?= float_value y)%Q.
Proof.
  intros Hx Hy. unfold compareFloats, f_lt, f_gt, SFltb.
  rewrite (compare_fint x y Hx Hy), (compare_fint y x Hy Hx), (float_value_compare x y Hx Hy).
  rewrite (Z.compare_antisym (fint x) (fint y)). by destruct (fint x ?= fint y).
Qed.

(** ** Integers and floats *)

Lemma binary_round_opp p x : binary_round 53 1024 true p x = SFopp (binary_round 53 1024 false p x).
Proof.
  unfold binary_round. destruct (shl_align _ _ _) as [mz ez]. unfold binary_round_aux.
  destruct (shr_fexp _ _ _ _ _) as [r1 e1]. destruct (shr_fexp _ _ (round_nearest_even _ _) _ _) as [r2 e2].
  destruct (shr_m r2); try done. by destruct (_ <=? _).
Qed.

(** A nonzero integer that a float holds converts to that float. *)
Lemma of_Z_fint f i : finite_float f -> i <> 0 -> fint f = i * 2 ^ 1074 -> of_Z i = f.
Proof.
  intros (Hn & Hinf & Hv) Hi E. destruct f as [s|s| |s m e]; try done; cbn [fint] in E;
    [symmetry in E; by apply Z.mul_eq_0_l in E .. |].
  cbn in Hv. apply bounded_parts in Hv as (He & Hm & Hc).
  assert (Z.pos m * 2 ^ (e + 1074) = Z.abs i * 2 ^ 1074) as Ea.
  { assert (0 < 2 ^ (e + 1074)) by (apply Z.pow_pos_nonneg; lia).
    destruct s; cbn [signed] in E; lia. }
  assert (-53 < e) as Hlow.
  { apply Z.nle_gt. intros Hle.
    assert (2 ^ (e + 1074) <= 2 ^ 1021) by (apply Z.pow_le_mono_r; lia).
    assert (2 ^ 1074 = 2 ^ 53 * 2 ^ 1021) as Ep by (rewrite <- Z.pow_add_r by lia; f_equal; lia).
    assert (0 < 2 ^ 1021) by (apply Z.pow_pos_nonneg; lia).
    assert (Z.pos m * 2 ^ (e + 1074) < 2 ^ 53 * 2 ^ 1021); [| nia].
    apply Z.le_lt_trans with (Z.pos m * 2 ^ 1021); [nia|]. apply Z.mul_lt_mono_pos_r; lia. }
  destruct Hc as [|Hc]; [lia|].
  assert (forall p, Z.pos p = Z.abs i -> binary_round 53 1024 false p 0 = S754_finite false m e) as Hr.
  { intros p Hp. rewrite (round_canon (Z.pos m) e p 0); [done | lia | lia |]. rewrite Hp.
    rewrite Z.sub_0_l, Z.sub_0_r.
    assert (0 < 2 ^ (1074 + Z.min 0 e)) as HP by (apply Z.pow_pos_nonneg; lia).
    apply (Z.mul_cancel_r _ _ (2 ^ (1074 + Z.min 0 e))); [lia|]. rewrite <- !Z.mul_assoc, <- !Z.pow_add_r by lia.
    replace (Z.max 0 e + (1074 + Z.min 0 e)) with (e + 1074) by lia.
    replace (Z.max 0 (- e) + (1074 + Z.min 0 e)) with 1074 by lia. lia. }
  unfold of_Z, binary_normalize. destruct i as [|p|p]; [done | |]; cbn [Z.abs] in *.
  - rewrite Hr by done. destruct s; [cbn [signed] in E; lia | done].
  - rewrite binary_round_opp, Hr by done. destruct s; [done | cbn [signed] in E; lia].
Qed.

Lemma of_Z_small i : Z.abs i <= two53 -> finite_float (of_Z i) /\ (float_value (of_Z i) == inject_Z i)%Q.
Proof.
  intros Hi. destruct (decide (i = 0)) as [->|Hne]; [done|].
  assert (exists m e, bounded 53 1024 m e = true /\ Z.pos m * 2 ^ (e + 1074) = Z.abs i * 2 ^ 1074) as (m & e & Hb & Hv).
  { pose proof (canon_m_range (Z.abs i) ltac:(lia)) as Hm. pose proof (canon_e_range (Z.abs i) ltac:(lia)) as He.
    pose proof (canon_value (Z.abs i) ltac:(lia)) as Hv.
    exists (Z.to_pos (canon_m (Z.abs i))), (canon_e (Z.abs i)). rewrite Z2Pos.id by lia. split.
    - unfold bounded, canonical_mantissa. apply andb_true_iff. rewrite Z.eqb_eq, Z.leb_le. split; [| lia].
      rewrite <- (fexp_canon (canon_m (Z.abs i)) (canon_e (Z.abs i)) Hm ltac:(lia)) at 2. f_equal.
      destruct (canon_m (Z.abs i)); try lia. done.
    - set (c := canon_e (Z.abs i)) in *.
      replace (c + 1074) with (Z.max 0 c + (1074 - Z.max 0 (- c))) by lia.
      replace 1074 with (Z.max 0 (- c) + (1074 - Z.max 0 (- c))) at 2 by lia.
      rewrite !Z.pow_add_r, !Z.mul_assoc by lia. by rewrite Hv. }
  set (f := S754_finite (i <? 0) m e).
  assert (finite_float f) as Hf by done.
  assert (fint f = i * 2 ^ 1074) as E.
  { unfold f. cbn [fint]. rewrite Hv. destruct (Z.ltb_spec i 0); cbn [signed]; lia. }
  rewrite (of_Z_fint f i Hf Hne E). split; [done|]. by apply float_value_Z.
Qed.

(** A float with a fractional part is small. *)
Lemma fraction_small f : finite_float f -> f_is_whole f = false -> Z.abs (fint f) < 2 ^ 53 * 2 ^ 1074.
Proof.
  intros (_ & _ & Hv) Hw. destruct f as [s|s| |s m e]; try done. cbn in Hv, Hw. cbn [fint].
  apply bounded_parts in Hv as (He & Hm & _). destruct (Z.leb_spec 0 e) as [|Hlt]; [done|].
  assert (2 ^ (e + 1074) <= 2 ^ 1074) by (apply Z.pow_le_mono_r; lia).
  assert (0 < 2 ^ (e + 1074)) by (apply Z.pow_pos_nonneg; lia).
  assert (Z.pos m * 2 ^ (e + 1074) < 2 ^ 53 * 2 ^ 1074).
  { apply Z.lt_le_trans with (2 ^ 53 * 2 ^ (e + 1074)); [by apply Z.mul_lt_mono_pos_r | nia]. }
  destruct s; cbn [signed]; lia.
Qed.

(** The whole floats are those with an integer value. *)
Lemma whole_value f : finite_float f ->
  f_is_whole f = true <-> exists z, (float_value f == inject_Z z)%Q.
Proof.
  intros Hf. setoid_rewrite (float_value_Z f) ; [| done]. destruct Hf as (Hn & Hi & Hv).
  destruct f as [s|s| |s m e]; try done; cbn [f_is_whole fint]; [split; [by exists 0 | done]|].
  cbn in Hv. apply bounded_parts in Hv as (He & _ & _).
  assert (forall k, signed s k = (if s then -1 else 1) * k) as Hs by (intros k; destruct s; cbn [signed]; lia).
  destruct (Z.leb_spec 0 e) as [H|H].
  - split; [intros _ | done]. exists (signed s (Z.pos m * 2 ^ e)). rewrite !Hs.
    rewrite Z.pow_add_r by lia. ring.
  - assert (0 < 2 ^ (e + 1074)) by (apply Z.pow_pos_nonneg; lia).
    assert (2 ^ 1074 = 2 ^ (- e) * 2 ^ (e + 1074)) as E by (rewrite <- Z.pow_add_r by lia; f_equal; lia).
    assert (0 < 2 ^ (- e)) by (apply Z.pow_pos_nonneg; lia).
    rewrite Z.eqb_eq, Z.mod_divide by lia. split.
    + intros [k Hk]. exists (signed s k). rewrite !Hs, Hk, E. ring.
    + intros [z Hz]. rewrite Hs, E in Hz. exists ((if s then -1 else 1) * z).
      destruct s; nia.
Qed.

Lemma signed_mul s a b : signed s (a * b) = signed s a * b.
Proof. destruct s; cbn [signed]; ring. Qed.

Lemma trunc_value f i : finite_float f -> (float_value f == inject_Z i)%Q -> f_trunc f = Some i.
Proof.
  intros Hf Hi. apply (float_value_Z f i Hf) in Hi. destruct Hf as (Hn & Hinf & Hv).
  destruct f as [s|s| |s m e]; try done; cbn [fint f_trunc] in *; [symmetry in Hi; apply Z.mul_eq_0_l in Hi; [by subst | done]|].
  cbn in Hv. apply bounded_parts in Hv as (He & _ & _). f_equal. fold (signed s).
  destruct (Z.leb_spec 0 e) as [H|H].
  - rewrite Z.pow_add_r, Z.mul_assoc, signed_mul in Hi by lia. apply Z.mul_cancel_r in Hi; [done|]. by apply Z.pow_nonzero.
  - assert (2 ^ 1074 = 2 ^ (- e) * 2 ^ (e + 1074)) as E by (rewrite <- Z.pow_add_r by lia; f_equal; lia).
    rewrite E, Z.mul_assoc, signed_mul in Hi. apply Z.mul_cancel_r in Hi; [| apply Z.pow_nonzero; lia].
    assert (2 ^ (- e) <> 0) by (apply Z.pow_nonzero; lia).
    assert (Z.pos m = signed s i * 2 ^ (- e)) as -> by (destruct s; cbn [signed] in *; lia).
    rewrite Z.div_mul by done. destruct s; cbn [signed]; lia.
Qed.

Lemma trunc_small f i : finite_float f -> f_is_whole f = false -> f_trunc f = Some i -> Z.abs i <= two53.
Proof.
  intros (Hn & Hinf & Hv) Hw Ht. destruct f as [s|s| |s m e]; try done. cbn in Hv, Hw, Ht.
  apply bounded_parts in Hv as (_ & Hm & _). destruct (Z.leb_spec 0 e) as [|H]; [done|]. injection Ht as <-.
  assert (0 < 2 ^ (- e)) by (apply Z.pow_pos_nonneg; lia).
  pose proof (Z.div_pos (Z.pos m) (2 ^ (- e)) ltac:(lia) ltac:(lia)).
  pose proof (Z.div_le_upper_bound (Z.pos m) (2 ^ (- e)) (Z.pos m) ltac:(lia) ltac:(nia)).
  change (2 ^ 53) with two53 in Hm. destruct s; lia.
Qed.

Lemma int64_floats : finite_float minInt64Float /\ finite_float twoTo63Float /\
  (float_value minInt64Float == inject_Z min_int64)%Q /\ (float_value twoTo63Float == inject_Z two63)%Q.
Proof. split_and!; vm_compute; done. Qed.

Lemma FloatToInt64_range f : finite_float f ->
  f_lt f minInt64Float || f_ge f twoTo63Float = false <->
  (inject_Z min_int64 <= float_value f)%Q /\ (float_value f < inject_Z two63)%Q.
Proof.
  intros Hf. destruct int64_floats as (Ha & Hb & Va & Vb). rewrite orb_false_iff.
  unfold f_lt, f_ge, SFltb, SFleb. rewrite (compare_fint _ _ Hf Ha), (compare_fint _ _ Hb Hf).
  rewrite <- (float_value_compare _ _ Hf Ha), <- (float_value_compare _ _ Hb Hf), Va, Vb.
  rewrite (Qle_alt (inject_Z min_int64)), (Qlt_alt (float_value f)).
  rewrite <- (Qcompare_antisym (float_value f) (inject_Z min_int64)), <- (Qcompare_antisym (inject_Z two63) (float_value f)).
  destruct (float_value f ?= inject_Z min_int64)%Q, (inject_Z two63 ?= float_value f)%Q; cbn; naive_solver.
Qed.

Lemma inject_Z_range i : in_int64 i <-> (inject_Z min_int64 <= inject_Z i)%Q /\ (inject_Z i < inject_Z two63)%Q.
Proof. rewrite <- Zle_Qle, <- Zlt_Qlt. unfold in_int64, max_int64. lia. Qed.

(** [FloatToInt64] reads exactly the whole floats of the int64 range. *)
Lemma FloatToInt64_iff f i : finite_float f ->
  FloatToInt64 f = Some i <-> in_int64 i /\ (float_value f == inject_Z i)%Q.
Proof.
  intros Hf. unfold FloatToInt64. pose proof (FloatToInt64_range f Hf) as Hr.
  destruct (_ || _) eqn:Er.
  { split; [done|]. intros [Hi E]. rewrite inject_Z_range in Hi. rewrite E in Hr. by apply Hr in Hi. }
  split.
  - intros H. assert (float_value f == inject_Z i)%Q as E.
    { destruct (f_is_whole f) eqn:Ew.
      - apply (whole_value f Hf) in Ew as [z Hz]. rewrite (trunc_value f z Hf Hz) in H.
        destruct (f_eq _ _); [by simplify_eq | done].
      - destruct (f_trunc f) as [j|] eqn:Et; [| done]. destruct (f_eq (of_Z j) f) eqn:Eq; [| done]. simplify_eq.
        assert (Z.abs i <= two53) as Hi; [| by destruct (of_Z_small i Hi) as [Hfi <-]; apply f_eq_value in Eq].
        by apply (trunc_small f). }
    split; [| done]. apply inject_Z_range. rewrite <- E. by apply Hr.
  - intros [Hi E]. rewrite (trunc_value f i Hf E).
    assert (f_eq (of_Z i) f = true) as ->; [| done]. destruct (decide (i = 0)) as [->|Hne].
    + apply f_eq_value; [done | done | by rewrite E].
    + rewrite (of_Z_fint f i Hf Hne) by (by apply float_value_Z). by apply f_eq_value.
Qed.

(** ** What [ParseFloat64] yields *)

Lemma bounded_intro m e :
  Z.pos m < 2 ^ 53 -> 2 ^ 52 <= Z.pos m \/ e = -1074 -> -1074 <= e <= 971 -> bounded 53 1024 m e = true.
Proof.
  intros Hm Hc He. unfold bounded, canonical_mantissa, fexp, emin. rewrite digits2_log2.
  assert (Z.log2 (Z.pos m) < 53) by (apply Z.log2_lt_pow2; lia).
  apply andb_true_iff. rewrite Z.eqb_eq, Z.leb_le. split; [| lia].
  destruct Hc as [Hc|]; [| lia]. assert (52 <= Z.log2 (Z.pos m)) by (by apply Z.log2_le_pow2). lia.
Qed.

Lemma shr_fexp_0 m e : fexp 53 1024 (Zdigits2 m + e) = e ->
  shr_fexp 53 1024 m e loc_Exact = (Build_shr_record m false false, e).
Proof. intros E. unfold shr_fexp. by rewrite E, Z.sub_diag. Qed.

Lemma binary_round_fits m e :
  Z.pos m < 2 ^ 53 -> 2 ^ 52 <= Z.pos m \/ e = -1074 -> -1074 <= e ->
  binary_round 53 1024 false m e = if e <=? 971 then S754_finite false m e else S754_infinity false.
Proof.
  intros Hm Hc He.
  assert (fexp 53 1024 (Zdigits2 (Z.pos m) + e) = e) as Hf.
  { cbn [Zdigits2]. unfold fexp, emin. rewrite digits2_log2.
    assert (Z.log2 (Z.pos m) < 53) by (apply Z.log2_lt_pow2; lia).
    destruct Hc as [Hc|]; [| lia]. assert (52 <= Z.log2 (Z.pos m)) by (by apply Z.log2_le_pow2). lia. }
  unfold binary_round. change (Z.pos (digits2_pos m)) with (Zdigits2 (Z.pos m)). rewrite Hf.
  unfold shl_align. rewrite Z.sub_diag. unfold binary_round_aux.
  rewrite (shr_fexp_0 _ _ Hf). cbn [shr_m loc_of_shr_record round_nearest_even].
  rewrite (shr_fexp_0 _ _ Hf). done.
Qed.

Lemma binary_round_overflow e : 971 <= e -> binary_round 53 1024 false (2 ^ 53)%positive e = S754_infinity false.
Proof.
  intros He. unfold binary_round. change (Z.pos (digits2_pos (2 ^ 53))) with 54.
  assert (fexp 53 1024 (54 + e) = e + 1) as -> by (unfold fexp, emin; lia).
  unfold shl_align. replace (e + 1 - e) with 1 by lia. cbv iota. unfold binary_round_aux.
  unfold shr_fexp at 1. change (Zdigits2 (Z.pos (2 ^ 53))) with 54.
  assert (fexp 53 1024 (54 + e) = e + 1) as -> by (unfold fexp, emin; lia).
  replace (e + 1 - e) with 1 by lia. 
  assert (shr (shr_record_of_loc (Z.pos (2 ^ 53)) loc_Exact) e 1 = (Build_shr_record (2 ^ 52) false false, e + 1)) as -> by reflexivity.
  cbn [shr_m loc_of_shr_record round_nearest_even].
  rewrite shr_fexp_0.
  - cbn [shr_m]. change (2 ^ 52) with (Z.pos (2 ^ 52)). cbv iota.
    destruct (Z.leb_spec (e + 1) (1024 - 53)); [lia | done].
  - change (Zdigits2 (2 ^ 52)) with 53. unfold fexp, emin. lia.
Qed.

(** A mantissa of at most 53 digits at a binary64 exponent is not rounded. *)
Lemma binary_round_exact m e :
  Z.pos m <= 2 ^ 53 -> 2 ^ 52 <= Z.pos m \/ e = -1074 -> -1074 <= e ->
  let f := binary_round 53 1024 false m e in
  is_inf f = false -> finite_float f /\ fint f = Z.pos m * 2 ^ (e + 1074).
Proof.
  intros Hm Hc He. cbv zeta. destruct (decide (Z.pos m = 2 ^ 53)) as [E|Hne].
  - destruct (Z.le_gt_cases e 970) as [H|H].
    + rewrite (round_canon (2 ^ 52) (e + 1) m e).
      * intros _. split; [split_and!; [done.. | cbn [valid_binary]; apply bounded_intro; [done | by left | lia]]|].
        cbn [fint signed]. rewrite E. change (Z.pos (Z.to_pos (2 ^ 52))) with (2 ^ 52).
        replace (e + 1 + 1074) with (1 + (e + 1074)) by lia. rewrite (Z.pow_add_r 2 1) by lia. ring.
      * split; [lia | done].
      * lia.
      * rewrite E. replace (e - (e + 1)) with (-1) by lia. replace (e + 1 - e) with 1 by lia. done.
    + replace m with (2 ^ 53)%positive by lia. by rewrite binary_round_overflow by lia.
  - assert (Z.pos m < 2 ^ 53) as Hlt by lia. clear Hne Hm.
    rewrite binary_round_fits by done. destruct (Z.leb_spec e 971); [| done]. intros _. split; [| done].
    split_and!; [done.. | cbn [valid_binary]; by apply bounded_intro].
Qed.

Lemma binary_round_no_overflow m e :
  Z.pos m <= 2 ^ 53 -> 2 ^ 52 <= Z.pos m \/ e = -1074 -> -1074 <= e <= 970 ->
  is_inf (binary_round 53 1024 false m e) = false.
Proof.
  intros Hm Hc He. destruct (decide (Z.pos m = 2 ^ 53)) as [E|Hne].
  - rewrite (round_canon (2 ^ 52) (e + 1) m e); [done | split; [lia | done] | lia |].
    rewrite E. replace (e - (e + 1)) with (-1) by lia. replace (e + 1 - e) with 1 by lia. done.
  - rewrite binary_round_fits by (done || lia). by rewrite (proj2 (Z.leb_le e 971)) by lia.
Qed.

(** [n < d * 2^j], written with nonnegative exponents at any scale. *)
Lemma pow_cross n d j K : 0 <= K -> 0 <= K + j ->
  n * 2 ^ Z.max (- j) 0 < d * 2 ^ Z.max j 0 <-> n * 2 ^ K < d * 2 ^ (K + j).
Proof.
  intros HK HKj. destruct (Z.le_gt_cases 0 j) as [H|H].
  - rewrite Z.max_r, Z.max_l, Z.mul_1_r, Z.pow_add_r by lia. rewrite (Z.mul_comm (2 ^ K)), Z.mul_assoc.
    apply Z.mul_lt_mono_pos_r, Z.pow_pos_nonneg; lia.
  - rewrite Z.max_l, (Z.max_r j), Z.mul_1_r by lia. replace K with ((K + j) + - j) at 1 by lia.
    rewrite Z.pow_add_r, (Z.mul_comm (2 ^ (K + j))), Z.mul_assoc by lia.
    apply Z.mul_lt_mono_pos_r, Z.pow_pos_nonneg; lia.
Qed.

(** The exponent of the leading bit of [n / d]. *)
Definition lead (n d : Z) : Z :=
  let k := Z.log2 n - Z.log2 d in
  if (n * 2 ^ Z.max (- k) 0 <? d * 2 ^ Z.max k 0) then k - 1 else k.

Lemma lead_spec n d K : 0 < n -> 0 < d -> 0 <= K -> 0 <= K + lead n d -> 0 <= K + Z.log2 n - Z.log2 d ->
  d * 2 ^ (K + lead n d) <= n * 2 ^ K < d * 2 ^ (K + lead n d + 1).
Proof.
  intros Hn Hd HK HKl HK0. unfold lead in *. set (k0 := Z.log2 n - Z.log2 d) in *.
  pose proof (Z.log2_spec n Hn) as [Ln Un]. pose proof (Z.log2_spec d Hd) as [Ld Ud].
  pose proof (Z.log2_nonneg n). pose proof (Z.log2_nonneg d).
  assert (0 < 2 ^ K) by (apply Z.pow_pos_nonneg; lia).
  assert (n * 2 ^ K < d * 2 ^ (K + k0 + 1)) as U.
  { apply Z.lt_le_trans with (2 ^ Z.succ (Z.log2 n) * 2 ^ K); [by apply Z.mul_lt_mono_pos_r|].
    apply Z.le_trans with (2 ^ Z.log2 d * 2 ^ (K + k0 + 1)).
    - rewrite <- !Z.pow_add_r by lia. apply Z.pow_le_mono_r; lia.
    - apply Z.mul_le_mono_nonneg_r; [apply Z.pow_nonneg; lia | done]. }
  destruct (Z.ltb_spec (n * 2 ^ Z.max (- k0) 0) (d * 2 ^ Z.max k0 0)) as [Hc|Hc].
  - apply (pow_cross n d k0 K) in Hc; [| lia | lia]. replace (K + (k0 - 1) + 1) with (K + k0) by lia. split; [| done].
    apply Z.lt_le_incl. apply Z.lt_le_trans with (2 ^ Z.succ (Z.log2 d) * 2 ^ (K + (k0 - 1))).
    + apply Z.mul_lt_mono_pos_r; [apply Z.pow_pos_nonneg; lia | done].
    + apply Z.le_trans with (2 ^ Z.log2 n * 2 ^ K).
      * rewrite <- !Z.pow_add_r by lia. apply Z.pow_le_mono_r; lia.
      * apply Z.mul_le_mono_nonneg_r; lia.
  - split; [| done]. apply Z.nlt_ge. intros Hc'. apply (pow_cross n d k0 K) in Hc'; lia.
Qed.

Lemma nearest_even_range a b lo hi :
  0 < b -> b * lo <= a -> a < b * hi -> lo <= nearest_even a b <= hi.
Proof.
  intros Hb Hl Hh. unfold nearest_even.
  pose proof (Z.div_le_lower_bound a b lo Hb Hl). pose proof (Z.div_lt_upper_bound a b hi Hb Hh).
  destruct (_ || _); lia.
Qed.

(** The rounded mantissa and its exponent. *)
Lemma frac_round neg n d : 0 < n -> 0 < d ->
  let e := Z.max (lead n d - 52) (-1074) in
  let m := nearest_even (n * 2 ^ Z.max (- e) 0) (d * 2 ^ Z.max e 0) in
  float_of_frac neg n d = binary_normalize 53 1024 (signed neg m) e neg /\
  0 <= m <= 2 ^ 53 /\ (2 ^ 52 <= m \/ e = -1074).
Proof.
  intros Hn Hd e m. split.
  { unfold float_of_frac, scaled. fold (lead n d). fold e. by rewrite Z.opp_involutive. }
  set (k := lead n d) in *. set (K := 2000 + Z.abs k + Z.log2 d).
  pose proof (Z.log2_nonneg d). pose proof (Z.log2_nonneg n).
  destruct (lead_spec n d K Hn Hd) as [L U]; [lia | lia | lia |]. fold k in L, U.
  assert (0 < d * 2 ^ Z.max e 0) as Hb by (apply Z.mul_pos_pos; [done | apply Z.pow_pos_nonneg; lia]).
  assert (n * 2 ^ Z.max (- e) 0 < d * 2 ^ Z.max e 0 * 2 ^ 53) as Hhi.
  { rewrite <- Z.mul_assoc, (Z.mul_comm (2 ^ Z.max e 0)), Z.mul_assoc. apply (pow_cross n (d * 2 ^ 53) e K); [lia | lia |].
    eapply Z.lt_le_trans; [exact U|]. rewrite <- Z.mul_assoc, <- Z.pow_add_r by lia.
    apply Z.mul_le_mono_nonneg_l; [lia|]. apply Z.pow_le_mono_r; lia. }
  assert (-1074 < e -> d * 2 ^ Z.max e 0 * 2 ^ 52 <= n * 2 ^ Z.max (- e) 0) as Hlo.
  { intros He. apply Z.nlt_ge. rewrite <- Z.mul_assoc, (Z.mul_comm (2 ^ Z.max e 0)), Z.mul_assoc.
    intros H1. apply (pow_cross n (d * 2 ^ 52) e K) in H1; [| lia | lia].
    rewrite <- Z.mul_assoc, <- Z.pow_add_r in H1 by lia. replace (52 + (K + e)) with (K + k) in H1 by lia. lia. }
  split.
  - apply nearest_even_range; [done | | done]. rewrite Z.mul_0_r. apply Z.mul_nonneg_nonneg; [lia | apply Z.pow_nonneg; lia].
  - destruct (decide (e = -1074)); [by right|]. left.
    apply (nearest_even_range _ _ (2 ^ 52) (2 ^ 53)); [done | apply Hlo; lia | done].
Qed.

Lemma finite_opp f : finite_float f -> finite_float (SFopp f) /\ fint (SFopp f) = - fint f.
Proof. intros (Hn & Hi & Hv). destruct f as [s|s| |s m e]; try done. split; [done|]. cbn. destruct s; cbn [negb signed]; lia. Qed.

Lemma normalize_value neg m e :
  0 <= m <= 2 ^ 53 -> 2 ^ 52 <= m \/ e = -1074 -> -1074 <= e ->
  let f := binary_normalize 53 1024 (signed neg m) e neg in
  is_inf f = false -> finite_float f /\ fint f = signed neg (m * 2 ^ (e + 1074)).
Proof.
  cbv zeta. intros Hm Hc He Hf. destruct m as [|p|p]; [by destruct neg | | lia]. destruct neg; cbn [signed Z.opp binary_normalize] in *.
  - change (binary_normalize 53 1024 (- Z.pos p) e true) with (binary_round 53 1024 true p e) in *.
    rewrite binary_round_opp in Hf |- *. assert (is_inf (binary_round 53 1024 false p e) = false) as Hf'
      by (destruct (binary_round 53 1024 false p e); done).
    destruct (binary_round_exact p e (proj2 Hm) Hc He Hf') as [H1 H2].
    destruct (finite_opp _ H1) as [H3 H4]. split; [done|]. by rewrite H4, H2.
  - by apply (binary_round_exact p e (proj2 Hm) Hc He).
Qed.

Lemma float_of_frac_finite neg n d : 0 < n -> 0 < d ->
  is_inf (float_of_frac neg n d) = false -> finite_float (float_of_frac neg n d).
Proof.
  intros Hn Hd. destruct (frac_round neg n d Hn Hd) as (-> & Hm & Hc). intros Hf.
  by apply (normalize_value neg _ _ Hm Hc ltac:(lia) Hf).
Qed.

Lemma ParseFloat64_finite s f : ParseFloat64 s = Some f -> finite_float f.
Proof.
  unfold ParseFloat64. destruct (decimal_literal s); [| done].
  destruct (_ && _); [by intros [= <-]|]. destruct (is_inf _) eqn:Ei; [done|]. intros [= <-].
  unfold float_of_rat in *. destruct (decimal_value s) as [[|n|n] d]; cbn [Qnum Qden] in *; [done | |];
    by apply float_of_frac_finite.
Qed.

Lemma nearest_even_1 a : nearest_even a 1 = a.
Proof. unfold nearest_even. by rewrite Z.div_1_r, Z.mod_1_r. Qed.

(** An integer is rounded to a whole float, and not at all up to [2^53]. *)
Lemma int_float neg n : 0 < n <= two63 ->
  let f := float_of_frac neg n 1 in
  is_inf f = false /\ exists r, fint f = signed neg r * 2 ^ 1074 /\ (n <= two53 -> r = n) /\ (two53 < n -> two53 <= r).
Proof.
  intros Hn. cbv zeta. destruct (frac_round neg n 1 ltac:(lia) ltac:(lia)) as (E & Hm & Hc). rewrite E.
  assert (lead n 1 = Z.log2 n) as El.
  { pose proof (Z.log2_spec n ltac:(lia)) as [Hlo _]. pose proof (Z.log2_nonneg n). unfold lead.
    change (Z.log2 1) with 0. rewrite Z.sub_0_r, (Z.max_r (- _)), Z.max_l by lia.
    rewrite (proj2 (Z.ltb_ge _ _)); [done | lia]. }
  rewrite El in *. pose proof (Z.log2_nonneg n). replace (Z.max (Z.log2 n - 52) (-1074)) with (Z.log2 n - 52) in * by lia.
  assert (Z.log2 n <= 63) by (change 63 with (Z.log2 two63); apply Z.log2_le_mono; lia).
  set (e := Z.log2 n - 52) in *. set (m := nearest_even _ _) in *.
  destruct Hc as [Hc|]; [| lia].
  assert (is_inf (binary_normalize 53 1024 (signed neg m) e neg) = false) as Hf.
  { destruct m as [|p|p]; [lia | | lia].
    pose proof (binary_round_no_overflow p e (proj2 Hm) (or_introl Hc) ltac:(lia)) as Ho.
    destruct neg; [| done]. change (binary_normalize 53 1024 (signed true (Z.pos p)) e true) with (binary_round 53 1024 true p e).
    rewrite binary_round_opp. by destruct (binary_round 53 1024 false p e). }
  split; [done|]. destruct (normalize_value neg m e Hm (or_introl Hc) ltac:(lia) Hf) as [_ ->].
  destruct (Z.le_gt_cases e 0) as [He|He].
  - exists n. split_and!; [| done | ].
    + unfold m. rewrite Z.max_l, Z.max_r, Z.pow_0_r, Z.mul_1_r, nearest_even_1 by lia.
      rewrite <- Z.mul_assoc, <- Z.pow_add_r by lia. replace (- e + (e + 1074)) with 1074 by lia. apply signed_mul.
    + intros Hlt. exfalso. assert (53 <= Z.log2 n); [| lia]. apply Z.log2_le_pow2; [lia|]. change (2 ^ 53) with two53. lia.
  - exists (m * 2 ^ e). split_and!.
    + rewrite <- signed_mul, <- Z.mul_assoc, <- Z.pow_add_r by lia. done.
    + intros Hle. assert (n = two53) as ->.
      { assert (2 ^ 53 <= n); [| change (2 ^ 53) with two53 in *; lia]. apply Z.log2_le_pow2; lia. }
      reflexivity.
    + intros _. change two53 with (2 ^ 52 * 2 ^ 1). apply Z.mul_le_mono_nonneg; [lia | done | lia |].
      apply Z.pow_le_mono_r; lia.
Qed.

Lemma SetString10_decimal_literal s z : SetString10 s = Some z -> decimal_literal s = true.
Proof.
  unfold SetString10, decimal_literal. destruct (span_sign s) as [neg r]. cbn [snd].
  destruct (span_digits r) as [ip r']. destruct (String.eqb_spec ip ""); [done|].
  destruct (String.eqb_spec r' "") as [->|]; [| done]. intros _. cbn. destruct ip; done.
Qed.

Lemma ParseFloat64_integer s z : SetString10 s = Some z -> in_int64 z ->
  exists f r, ParseFloat64 s = Some f /\ finite_float f /\ (float_value f == inject_Z r)%Q /\
    (Z.abs z <= two53 -> r = z) /\ (two53 < Z.abs z -> two53 <= Z.abs r /\ Z.sgn r = Z.sgn z).
Proof.
  intros Hs Hz. pose proof (SetString10_value s z Hs) as Hv.
  unfold ParseFloat64. rewrite (SetString10_decimal_literal s z Hs).
  destruct ((fst (decimal s) =? 0) && fst (span_sign s)) eqn:E0.
  { apply andb_true_iff in E0 as [E0%Z.eqb_eq _].
    assert (z = 0) as ->.
    { unfold decimal_value, dec in Hv. rewrite E0 in Hv. destruct (0 <=? _); by injection Hv. }
    exists (S754_zero true), 0. cbn. split_and!; try done. }
  rewrite Hv. unfold float_of_rat, inject_Z. cbn [Qnum Qden].
  destruct z as [|n|n].
  { exists f_zero, 0. split_and!; try done. }
  - destruct (int_float false (Z.pos n)) as (Hi & r & Hr & H1 & H2); [unfold in_int64, min_int64, max_int64 in Hz; lia|].
    rewrite Hi. assert (finite_float (float_of_frac false (Z.pos n) 1)) as Hf by by apply float_of_frac_finite.
    exists (float_of_frac false (Z.pos n) 1), r. split_and!; [done | done | by apply float_value_Z | |].
    + intros Hle. by apply H1.
    + intros Hlt. specialize (H2 Hlt). unfold two53 in *. split; lia.
  - destruct (int_float true (Z.pos n)) as (Hi & r & Hr & H1 & H2); [unfold in_int64, min_int64, max_int64 in Hz; lia|].
    rewrite Hi. assert (finite_float (float_of_frac true (Z.pos n) 1)) as Hf by by apply float_of_frac_finite.
    exists (float_of_frac true (Z.pos n) 1), (- r). split_and!; [done | done | by apply float_value_Z | |].
    + intros Hle. by rewrite H1.
    + intros Hlt. specialize (H2 Hlt). unfold two53 in *. split; lia.
Qed.

(** ** Numbers whose value the helpers read exactly *)

(** The rational a number denotes. *)
Definition num_value (v : value) : option Q :=
  match v with
  | VNumber s => if decimal_literal s then Some (decimal_value s) else None
  | VInt z => Some (inject_Z z)
  | VFloat f => ratFromFloat f
  | _ => None
  end.

(** An int64 integer plainly spelled, or a number that a binary64 holds exactly.  What is
    left out are decimal fractions with no finite binary expansion and respelled or
    oversized integers that round ([Numeric.respelled_integers_conflated]). *)
Definition exact_number (v : value) : Prop :=
  match v with
  | VNumber s =>
      (exists z, SetString10 s = Some z /\ in_int64 z /\ NumericLiteralBounded s = true) \/
      (exists f, ParseFloat64 s = Some f /\ (float_value f == decimal_value s)%Q)
  | VInt z => Z.abs z <= two53
  | VFloat f => finite_float f
  | _ => True
  end.

Lemma inject_Z_compare a b : (inject_Z a ?= inject_Z b)%Q = (a ?= b).
Proof. unfold Qcompare, inject_Z. cbn [Qnum Qden]. by rewrite !Z.mul_1_r. Qed.

Lemma inject_Z_eq a b : (inject_Z a == inject_Z b)%Q <-> a = b.
Proof. unfold Qeq, inject_Z. cbn [Qnum Qden]. lia. Qed.

(** What the helpers make of a number with the value [x], for equality. *)
Record entry_reading (v : value) (x : Q) : Prop := {
  en_value : num_value v = Some x;
  en_int64 : forall i, asInt64 v = Some i <-> in_int64 i /\ (x == inject_Z i)%Q;
  en_int : forall r, exactIntegerRat v = Some r -> (x == inject_Z r)%Q;
  en_float : asInt64 v = None ->
    exists f, toFloat64 v = Some f /\ finite_float f /\ (float_value f == x)%Q;
}.

(** The same, with the float64 [f] the number is normalized to. *)
Record exact_reading (v : value) (x : Q) (f : float64) : Prop := {
  er_entry : entry_reading v x;
  er_float : toFloat64 v = Some f;
  er_finite : finite_float f;
  er_near : (float_value f == x)%Q \/
    exists z r, (x == inject_Z z)%Q /\ (float_value f == inject_Z r)%Q /\
      two53 < Z.abs z /\ two53 <= Z.abs r /\ Z.sgn r = Z.sgn z /\ exactIntegerRat v = Some z;
}.

Lemma exactIntegerRat_value v x r :
  num_value v = Some x -> exactIntegerRat v = Some r -> (x == inject_Z r)%Q.
Proof.
  intros Hx. unfold exactIntegerRat. destruct (exactRat v) as [q|] eqn:Eq; [| done].
  assert (q = x) as ->.
  { destruct v; try done; cbn in Hx, Eq; repeat case_match; by simplify_eq. }
  destruct x as [n p]. intros H%Qred_int. unfold Qeq, inject_Z. cbn [Qnum Qden]. lia.
Qed.

Lemma exactIntegerRat_float b z : finite_float b -> (float_value b == inject_Z z)%Q ->
  exactIntegerRat (VFloat b) = Some z.
Proof.
  intros Hb Hz. unfold exactIntegerRat, exactRat. unfold float_value in Hz.
  destruct (fint_rat b Hb) as (q & Hq & _). rewrite Hq in *. cbn [default id] in Hz.
  rewrite (Qred_complete _ _ Hz), Qred_inject_Z. done.
Qed.

Lemma float_reading f : finite_float f -> exact_reading (VFloat f) (float_value f) f.
Proof.
  intros Hf. assert (num_value (VFloat f) = Some (float_value f)) as Hv.
  { cbn. unfold float_value. by destruct (fint_rat f Hf) as (q & -> & _). }
  split; [split| | |]; try done.
  - intros i. cbn. by apply FloatToInt64_iff.
  - intros r. by apply exactIntegerRat_value.
  - intros _. by exists f.
  - by left.
Qed.

Lemma int_reading z : in_int64 z -> entry_reading (VInt z) (inject_Z z).
Proof.
  intros Hz. assert (asInt64 (VInt z) = Some z) as Hi.
  { cbn. by rewrite (proj2 (Z.leb_le _ _) (proj2 Hz)). }
  split; [done | | intros r; by apply exactIntegerRat_value | by rewrite Hi].
  intros i. rewrite Hi, inject_Z_eq. naive_solver.
Qed.

Lemma ParseInt64_value s i : ParseInt64 s = Some i -> in_int64 i /\ decimal_value s = inject_Z i.
Proof.
  unfold ParseInt64. destruct (SetString10 s) as [z|] eqn:Es; [| done]. destruct (_ && _) eqn:E; [| done].
  intros [= <-]. apply andb_true_iff in E as [H1%Z.leb_le H2%Z.leb_le]. split; [done|]. by apply SetString10_value.
Qed.

Lemma plain_reading s z : SetString10 s = Some z -> in_int64 z -> NumericLiteralBounded s = true ->
  exists f, exact_reading (VNumber s) (decimal_value s) f.
Proof.
  intros Hs Hz Hb. destruct (ParseFloat64_integer s z Hs Hz) as (f & r & Hf & Hfin & Hr & Hsmall & Hbig).
  assert (asInt64 (VNumber s) = Some z) as Hi by (cbn; by rewrite (ParseInt64_literal s z Hs Hz)).
  assert (num_value (VNumber s) = Some (decimal_value s)) as Hv by (cbn; by rewrite (SetString10_decimal_literal s z Hs)).
  pose proof (SetString10_value s z Hs) as Hval.
  exists f. split; [split| done | done |].
  - done.
  - intros i. rewrite Hi, Hval, inject_Z_eq. naive_solver.
  - intros r'. by apply exactIntegerRat_value.
  - by rewrite Hi.
  - rewrite Hval. destruct (Z.le_gt_cases (Z.abs z) two53) as [H|H].
    + left. by rewrite Hr, (Hsmall H).
    + right. exists z, r. destruct (Hbig H) as [H1 H2]. split_and!; try done. by apply exactIntegerRat_literal.
Qed.

Lemma binary_reading s f : ParseFloat64 s = Some f -> (float_value f == decimal_value s)%Q ->
  exact_reading (VNumber s) (decimal_value s) f.
Proof.
  intros Hf He. pose proof (ParseFloat64_finite s f Hf) as Hfin.
  assert (num_value (VNumber s) = Some (decimal_value s)) as Hv.
  { cbn. unfold ParseFloat64 in Hf. by destruct (decimal_literal s). }
  split; [split| done | done | by left]; [done | | intros r'; by apply exactIntegerRat_value | intros _; by exists f].
  intros i. cbn [asInt64]. destruct (ParseInt64 s) as [j|] eqn:Ej.
  - apply ParseInt64_value in Ej as [Hj ->]. rewrite inject_Z_eq. naive_solver.
  - rewrite Hf, (FloatToInt64_iff f i Hfin), He. done.
Qed.

Lemma exact_number_reading v f : exact_number v -> toFloat64 v = Some f -> exists x, exact_reading v x f.
Proof.
  intros Hv Hf. assert (forall x f', exact_reading v x f' -> exists x, exact_reading v x f) as Hok.
  { intros x f' H. pose proof (er_float _ _ _ H). exists x. by simplify_eq. }
  destruct v as [| |s|z|g| | | | |]; try done; cbn in Hv.
  - destruct Hv as [(z & Hs & Hz & Hb)|(g & Hg & He)].
    + destruct (plain_reading s z Hs Hz Hb) as [g Hg]. by eapply Hok.
    + exact (Hok _ _ (binary_reading s g Hg He)).
  - cbn in Hf. simplify_eq. destruct (of_Z_small z Hv) as [Hfin He].
    exists (inject_Z z). split; [| done | done | by left].
    apply int_reading. unfold in_int64, min_int64, max_int64, two63, two53 in *. lia.
  - exact (Hok _ _ (float_reading g Hv)).
Qed.

(** ** The comparisons are exact *)

Lemma near_whole v x f : exact_reading v x f -> f_is_whole f = true <-> exists z, (x == inject_Z z)%Q.
Proof.
  intros [_ _ Hf Hn]. rewrite (whole_value f Hf). destruct Hn as [E|(z & r & Hz & Hr & _)].
  - by setoid_rewrite E.
  - split; intros _; [by exists z | by exists r].
Qed.

(** Past [2^53] the rounding of an integer does not cross a number with a fraction. *)
Lemma big_compare z r b : finite_float b -> f_is_whole b = false ->
  two53 < Z.abs z -> two53 <= Z.abs r -> Z.sgn r = Z.sgn z ->
  (inject_Z r ?= float_value b)%Q = (inject_Z z ?= float_value b)%Q.
Proof.
  intros Hb Hw Hz Hr Hs. pose proof (fraction_small b Hb Hw) as Hsm.
  rewrite (float_value_fint b Hb). unfold Qcompare, inject_Z. cbn [Qnum Qden]. rewrite unit_den_pow, !Z.mul_1_r.
  change (2 ^ 53) with two53 in Hsm. assert (0 < 2 ^ 1074) by (apply Z.pow_pos_nonneg; lia).
  set (P := 2 ^ 1074) in *. clearbody P. set (g := fint b) in *. clearbody g.
  destruct (Z.lt_trichotomy 0 z) as [Hp|[Hp|Hp]]; [| unfold two53 in *; lia |].
  - assert (0 < r) by lia. transitivity Gt; [| symmetry]; apply Z.compare_gt_iff; unfold two53 in *; nia.
  - assert (r < 0) by lia. transitivity Lt; [| symmetry]; apply Z.compare_lt_iff; unfold two53 in *; nia.
Qed.

Lemma compareToBound_exact v x f b : exact_reading v x f -> finite_float b ->
  compareToBound v f b = sign_of (x ?= float_value b)%Q.
Proof.
  intros [[Hx Hi Hint _] Hf Hfin Hn] Hb. unfold compareToBound.
  assert (compareFloats f b = sign_of (x ?= float_value b)%Q \/
    exists z, exactIntegerRat v = Some z /\ exactIntegerRat (VFloat b) <> None) as Hcmp.
  { rewrite (compareFloats_value f b Hfin Hb). destruct Hn as [E|(z & r & Hz & Hr & H1 & H2 & H3 & H4)]; [left; by rewrite E|].
    destruct (f_is_whole b) eqn:Ew.
    - right. exists z. split; [done|]. apply (whole_value b Hb) in Ew as [y Hy].
      by rewrite (exactIntegerRat_float b y Hb Hy).
    - left. rewrite Hr, Hz. by rewrite (big_compare z r b). }
  assert (match exactIntegerRat v, exactIntegerRat (VFloat b) with
    | Some rr, Some br => sign_of (rr ?= br) | _, _ => compareFloats f b end = sign_of (x ?= float_value b)%Q) as Hrat.
  { destruct (exactIntegerRat v) as [rr|] eqn:Er, (exactIntegerRat (VFloat b)) as [br|] eqn:Eb;
      try (destruct Hcmp as [|(? & ? & ?)]; done).
    pose proof (en_int _ _ (er_entry _ _ _ (float_reading b Hb)) br Eb) as Hbr.
    by rewrite (Hint rr eq_refl), Hbr, inject_Z_compare. }
  destruct (asInt64 v) as [ri|] eqn:Ei; [| done]. destruct (FloatToInt64 b) as [bi|] eqn:Eb; [| done].
  apply (FloatToInt64_iff b bi Hb) in Eb as [_ Eb]. destruct (proj1 (Hi ri) eq_refl) as [_ Ex]. by rewrite Ex, Eb, inject_Z_compare.
Qed.

Lemma numericEqual_exact a v x y : entry_reading a x -> entry_reading v y ->
  numericEqual a v = true <-> (x == y)%Q.
Proof.
  intros [Ha Ia Na Fa] [Hv Iv Nv Fv]. unfold numericEqual.
  destruct (asInt64 a) as [ia|] eqn:Ea, (asInt64 v) as [iv|] eqn:Ev.
  - destruct (proj1 (Ia ia) eq_refl) as [_ ->]. destruct (proj1 (Iv iv) eq_refl) as [_ ->].
    by rewrite inject_Z_eq, Z.eqb_eq.
  - split; [done|]. intros E. destruct (proj1 (Ia ia) eq_refl) as [Hr Ex]. rewrite E in Ex.
    pose proof (proj2 (Iv ia) (conj Hr Ex)). done.
  - split; [done|]. intros E. destruct (proj1 (Iv iv) eq_refl) as [Hr Ex]. rewrite <- E in Ex.
    pose proof (proj2 (Ia iv) (conj Hr Ex)). done.
  - destruct (Fa eq_refl) as (fa & -> & Hfa & Va). destruct (Fv eq_refl) as (fv & -> & Hfv & Vv).
    assert (f_eq fa fv = true <-> (x == y)%Q) as Hfl by (by rewrite (f_eq_value fa fv Hfa Hfv), Va, Vv).
    destruct (exactIntegerRat a) as [ra|] eqn:Ra; [| done]. destruct (exactIntegerRat v) as [rv|] eqn:Rv; [| done].
    by rewrite (Na ra eq_refl), (Nv rv eq_refl), inject_Z_eq, Z.eqb_eq.
Qed.

End NumericExact.
