(* ===== verification/Schema.v ===== *)
(** * Argument schemas

    pkg/enforcement/schema.go: the validator of a call's arguments against a JSON Schema
    subset.  Go's [regexp] is a parameter: a pattern compiles to a predicate or does not
    compile.  The validator visits properties in sorted order and stops at the first
    violation; [conforms] states what it accepts, without order and on the exact values of
    numbers (NumericExact.v says which are compared exactly).  Recursion is on the schema: the validators of the properties and of the items are made first, and then
    looked up by name. *)
From stdpp Require Import base tactics list strings sorting.
From Stdlib Require Import ZArith Lia Ascii String QArith SpecFloat.
From S2P Require Import Prelude GoStrings GoPath Truncate Float64 Runes Capability CaseFold Magnitude.
From S2P Require Import ArgumentPath Numeric NumericExact.
#[local] Open Scope string_scope.
#[local] Open Scope nat_scope.
Import Runes Capability ArgumentPath Numeric NumericExact.

Module Schema.

Inductive schemaError :=
| NotInEnum (path : string)
| OutOfRange (path literal : string)
| NonFinite (path : string)
| NotInteger (path : string)
| TypeMismatch (path want got : string)
| NoTypeMatches (path got : string) (types : list string)
| BadPattern (path pattern : string)
| PatternMismatch (path pattern : string)
| TooShort (path : string) (n min : Z)
| TooLong (path : string) (n max : Z)
| BelowMinimum (path : string)
| AboveMaximum (path : string)
| MissingField (path name : string)
| ExtraProperty (path name : string)
| TooFewItems (path : string) (n min : Z)
| TooManyItems (path : string) (n max : Z).

(** ** Types *)

Definition IsZero (t : SchemaType) : bool :=
  String.eqb (Single t) "" && (List.length (Multiple t) =? 0)%nat.

Definition schemaJSONTypeOf (v : value) : string :=
  match v with
  | VString _ => "string"
  | VFloat _ => "number"
  | VBool _ => "boolean"
  | VObject _ => "object"
  | VArray _ | VStrings _ | VBytes _ => "array"
  | VNull => "null"
  | VNumber _ | VInt _ => "unknown"
  end.

Definition schemaTypeCompatible (gotType schemaType : string) (v : value) : bool :=
  if String.eqb gotType schemaType then true
  else if String.eqb schemaType "integer" && String.eqb gotType "number" then
    match v with VFloat f => f_is_whole f | _ => false end
  else false.

Definition schemaCheckType (path : string) (v : value) (typ : SchemaType) : option schemaError :=
  let got := schemaJSONTypeOf v in
  if negb (String.eqb (Single typ) "") then
    if schemaTypeCompatible got (Single typ) v then None
    else if String.eqb (Single typ) "integer" && String.eqb got "number" then Some (NotInteger path)
    else Some (TypeMismatch path (Single typ) got)
  else if existsb (fun t => schemaTypeCompatible got t v) (Multiple typ) then None
  else Some (NoTypeMatches path got (Multiple typ)).

Section schema.
Context (compilePattern : string -> option (string -> bool)).

(** ** Scalars *)

(** [utf8.RuneCountInString]. *)
Definition RuneCount (s : string) : Z := Z.of_nat (List.length (runesOf s)).

Definition below (n : Z) (min : option Z) : bool := match min with Some m => (n <? m)%Z | None => false end.
Definition above (n : Z) (max : option Z) : bool := match max with Some m => (m <? n)%Z | None => false end.

Definition schemaValidateString (p v : string) (s : ArgumentSchema) : option schemaError :=
  let lengths :=
    let runeLen := RuneCount v in
    if below runeLen (MinLength s) then Some (TooShort p runeLen (default 0%Z (MinLength s)))
    else if above runeLen (MaxLength s) then Some (TooLong p runeLen (default 0%Z (MaxLength s)))
    else None in
  if negb (String.eqb (Pattern s) "") then
    match compilePattern (Pattern s) with
    | None => Some (BadPattern p (Pattern s))
    | Some MatchString => if MatchString v then lengths else Some (PatternMismatch p (Pattern s))
    end
  else lengths.

Definition outside (c : Z -> bool) (raw : value) (v : float64) (bound : option float64) : bool :=
  match bound with Some b => c (compareToBound raw v b) | None => false end.

Definition schemaValidateNumber (p : string) (v : float64) (raw : value) (s : ArgumentSchema)
    : option schemaError :=
  if outside (fun c => c <? 0)%Z raw v (Minimum s) then Some (BelowMinimum p)
  else if outside (fun c => 0 <? c)%Z raw v (Maximum s) then Some (AboveMaximum p)
  else None.

Definition inEnum (s : ArgumentSchema) (v : value) : bool :=
  existsb (fun allowed => deepEqual allowed v || numericEqual allowed v) (Enum s).

(** The value with a number of any type made a float64. *)
Definition normalize (v : value) : value :=
  match v with
  | VFloat _ => v
  | _ => match toFloat64 v with Some f => VFloat f | None => v end
  end.

(** ** Composites *)

Definition validator : Type := string -> value -> option schemaError.

(** [s.Properties[name]], with a nil schema for an absent name. *)
Fixpoint property (name : string) (props : list (string * validator)) : validator :=
  match props with
  | [] => fun _ _ => None
  | (n, f) :: props' => if String.eqb name n then f else property name props'
  end.

Fixpoint requiredLoop (p : string) (m : list (string * value)) (required : list string) : option schemaError :=
  match required with
  | [] => None
  | req :: required' =>
      match index req m with
      | None => Some (MissingField p req)
      | Some _ => requiredLoop p m required'
      end
  end.

Fixpoint propertiesLoop (p : string) (m : list (string * value)) (props : list (string * validator))
    (names : list string) : option schemaError :=
  match names with
  | [] => None
  | name :: names' =>
      match index name m with
      | None => propertiesLoop p m props names'
      | Some propVal =>
          match property name props (p ++ "." ++ name) propVal with
          | Some err => Some err
          | None => propertiesLoop p m props names'
          end
      end
  end.

Definition extrasOf (m : list (string * value)) (names : list string) : list string :=
  sort_strings (List.filter (fun k => negb (one_of k names)) (map fst m)).

Definition schemaValidateObject (p : string) (m : list (string * value)) (s : ArgumentSchema)
    (props : list (string * validator)) : option schemaError :=
  match requiredLoop p m (Required s) with
  | Some err => Some err
  | None =>
      let names := sort_strings (map fst props) in
      match propertiesLoop p m props names with
      | Some err => Some err
      | None =>
          match AdditionalProperties s with
          | Some false =>
              match extrasOf m (map fst props) with
              | [] => None
              | extra :: _ => Some (ExtraProperty p extra)
              end
          | _ => None
          end
      end
  end.

Fixpoint itemsLoop (p : string) (i : Z) (l : list value) (f : validator) : option schemaError :=
  match l with
  | [] => None
  | item :: l' =>
      match f (p ++ "[" ++ itoa i ++ "]") item with
      | Some err => Some err
      | None => itemsLoop p (i + 1)%Z l' f
      end
  end.

Definition schemaValidateArray (p : string) (l : list value) (s : ArgumentSchema) (items : option validator)
    : option schemaError :=
  let n := Z.of_nat (List.length l) in
  if below n (MinItems s) then Some (TooFewItems p n (default 0%Z (MinItems s)))
  else if above n (MaxItems s) then Some (TooManyItems p n (default 0%Z (MaxItems s)))
  else match items with Some f => itemsLoop p 0 l f | None => None end.

(** The elements of a native slice. *)
Definition native_items (v : value) : list value :=
  match v with
  | VStrings l => map VString l
  | VBytes s => map (fun c => VInt (GoPath.byte_val c)) (list_ascii_of_string s)
  | _ => []
  end.

(** [schemaValidateValue], over the validators of the parts of the schema. *)
Definition schemaValidate (s : ArgumentSchema) (props : list (string * validator)) (items : option validator)
    : validator := fun path v =>
  if (0 <? List.length (Enum s))%nat && negb (inEnum s v) then Some (NotInEnum path)
  else
    let original := v in
    match normalize v with
    | VNumber n => Some (OutOfRange path n)
    | v =>
        if match v with VFloat f => is_nan f || is_inf f | _ => false end then Some (NonFinite path)
        else
          match (if IsZero (as_Type s) then None else schemaCheckType path v (as_Type s)) with
          | Some err => Some err
          | None =>
              match v with
              | VString str => schemaValidateString path str s
              | VFloat f => schemaValidateNumber path f original s
              | VObject m => schemaValidateObject path m s props
              | VArray l => schemaValidateArray path l s items
              | VBool _ | VNull => None
              | VStrings _ | VBytes _ => schemaValidateArray path (native_items v) s items
              | VNumber _ | VInt _ => None
              end
          end
    end.

Fixpoint schemaValidateValue (s : ArgumentSchema) : validator :=
  schemaValidate s
    (map (fun '(n, sub) => (n, schemaValidateValue sub)) (Properties s))
    (match Items s with Some sub => Some (schemaValidateValue sub) | None => None end).

Definition ValidateArgumentSchema (args : list (string * value)) (schema : ArgumentSchema) : option schemaError :=
  schemaValidateValue schema "$" (VObject args).

(** ** Compilation at load *)

Definition compiler : Type := string -> option schemaError.

Fixpoint find_compiler (name : string) (props : list (string * compiler)) : compiler :=
  match props with
  | [] => fun _ => None
  | (n, f) :: props' => if String.eqb name n then f else find_compiler name props'
  end.

Fixpoint compileLoop (path : string) (props : list (string * compiler)) (names : list string) : option schemaError :=
  match names with
  | [] => None
  | name :: names' =>
      match find_compiler name props (path ++ ".properties." ++ name) with
      | Some err => Some err
      | None => compileLoop path props names'
      end
  end.

Fixpoint compileSchemaPatterns (s : ArgumentSchema) : compiler := fun path =>
  if negb (String.eqb (Pattern s) "") && negb (bool_decide (is_Some (compilePattern (Pattern s))))
  then Some (BadPattern path (Pattern s))
  else
    let props := map (fun '(n, sub) => (n, compileSchemaPatterns sub)) (Properties s) in
    match compileLoop path props (sort_strings (map fst props)) with
    | Some err => Some err
    | None => match Items s with Some sub => compileSchemaPatterns sub (path ++ ".items") | None => None end
    end.

(** ** What a schema means

    Stated on the exact values of numbers, not on the validator's comparisons. *)

Definition string_ok (s : ArgumentSchema) (v : string) : Prop :=
  (Pattern s = "" \/ exists f, compilePattern (Pattern s) = Some f /\ f v = true) /\
  (forall n, MinLength s = Some n -> (n <= RuneCount v)%Z) /\
  (forall n, MaxLength s = Some n -> (RuneCount v <= n)%Z).

Definition number_ok (s : ArgumentSchema) (x : Q) : Prop :=
  (forall b, Minimum s = Some b -> (float_value b <= x)%Q) /\
  (forall b, Maximum s = Some b -> (x <= float_value b)%Q).

(** The JSON type names of a value; a number is an integer by its value. *)
Definition json_type (v : value) (t : string) : Prop :=
  match v with
  | VNull => t = "null"
  | VBool _ => t = "boolean"
  | VString _ => t = "string"
  | VArray _ | VStrings _ | VBytes _ => t = "array"
  | VObject _ => t = "object"
  | VNumber _ | VInt _ | VFloat _ =>
      t = "number" \/ t = "integer" /\ exists x z, num_value v = Some x /\ (x == inject_Z z)%Q
  end.

Definition declared_types (t : SchemaType) : list string :=
  if String.eqb (Single t) "" then Multiple t else [Single t].

Definition typed (t : SchemaType) (v : value) : Prop :=
  declared_types t = [] \/ exists x, x ∈ declared_types t /\ json_type v x.

(** Numbers are listed by value, anything else as [reflect.DeepEqual] has it. *)
Definition listed (s : ArgumentSchema) (v : value) : Prop :=
  Enum s = [] \/ exists a, a ∈ Enum s /\
    (deepEqual a v = true \/
     exists x y, num_value a = Some x /\ num_value v = Some y /\ (x == y)%Q).

(** The number does not overflow a float64. *)
Definition in_range (v : value) : Prop :=
  match v with
  | VNumber n => is_Some (ParseFloat64 n)
  | VFloat f => is_nan f = false /\ is_inf f = false
  | _ => True
  end.

Definition array_ok (s : ArgumentSchema) (items : option (value -> Prop)) (l : list value) : Prop :=
  (forall n, MinItems s = Some n -> (n <= Z.of_nat (List.length l))%Z) /\
  (forall n, MaxItems s = Some n -> (Z.of_nat (List.length l) <= n)%Z) /\
  match items with Some f => Forall f l | None => True end.

Definition object_ok (s : ArgumentSchema) (props : list (string * (value -> Prop)))
    (m : list (string * value)) : Prop :=
  (forall req, req ∈ Required s -> is_Some (index req m)) /\
  Forall (fun e => forall v, index (fst e) m = Some v -> snd e v) props /\
  (AdditionalProperties s = Some false -> forall k, k ∈ map fst m -> k ∈ map fst props).

(** A value conforms when every keyword of the schema holds of it, at every level. *)
Definition conforms_at (s : ArgumentSchema) (props : list (string * (value -> Prop)))
    (items : option (value -> Prop)) (v : value) : Prop :=
  listed s v /\ in_range v /\ typed (as_Type s) v /\
  match v with
  | VString str => string_ok s str
  | VNumber _ | VInt _ | VFloat _ => exists x, num_value v = Some x /\ number_ok s x
  | VObject m => object_ok s props m
  | VArray l => array_ok s items l
  | VStrings _ | VBytes _ => array_ok s items (native_items v)
  | VNull | VBool _ => True
  end.

Fixpoint conforms (s : ArgumentSchema) : value -> Prop :=
  conforms_at s (map (fun '(n, sub) => (n, conforms sub)) (Properties s))
    (match Items s with Some sub => Some (conforms sub) | None => None end).

(** [P] holds of the schema and of every schema inside it. *)
Fixpoint every_schema (P : ArgumentSchema -> Prop) (s : ArgumentSchema) : Prop :=
  P s /\
  (fix each (l : list (string * ArgumentSchema)) := match l with [] => True | (_, sub) :: l => every_schema P sub /\ each l end) (Properties s) /\
  match Items s with Some sub => every_schema P sub | None => True end.

(** Property names are the keys of a map. *)
Definition wf_schema : ArgumentSchema -> Prop := every_schema (fun s => NoDup (map fst (Properties s))).

(** The numbers for which the comparisons are meant to be exact: an int64 integer plainly
    spelled, or a number that a float64 holds exactly.  Bounds are floats already. *)
Definition exact_entry (a : value) : Prop :=
  match a with VInt z => in_int64 z | _ => exact_number a end.

Definition exact_schema : ArgumentSchema -> Prop := every_schema (fun s =>
  Forall exact_entry (Enum s) /\
  (forall b, Minimum s = Some b -> finite_float b) /\ (forall b, Maximum s = Some b -> finite_float b)).

(** The same of every number of an argument that a float64 can hold at all. *)
Fixpoint exact_numbers (v : value) : Prop :=
  match v with
  | VNumber n => is_Some (ParseFloat64 n) -> exact_number v
  | VInt _ => exact_number v
  | VFloat f => valid_binary 53 1024 f = true
  | VArray l => (fix each (l : list value) := match l with [] => True | v :: l => exact_numbers v /\ each l end) l
  | VObject m => (fix each (m : list (string * value)) := match m with [] => True | (_, v) :: m => exact_numbers v /\ each m end) m
  | _ => True
  end.

(** ** What the validator accepts, by its own comparisons *)

Definition number_passes (s : ArgumentSchema) (raw : value) (f : float64) : Prop :=
  (forall b, Minimum s = Some b -> 0 <= compareToBound raw f b)%Z /\
  (forall b, Maximum s = Some b -> compareToBound raw f b <= 0)%Z.

Definition has_type (t : SchemaType) (v : value) : Prop :=
  IsZero t = true \/
  if String.eqb (Single t) "" then exists x, x ∈ Multiple t /\ schemaTypeCompatible (schemaJSONTypeOf v) x v = true
  else schemaTypeCompatible (schemaJSONTypeOf v) (Single t) v = true.

Definition finite (v : value) : Prop :=
  match v with VFloat f => is_nan f = false /\ is_inf f = false | VNumber _ => False | _ => True end.

Definition passes_at (s : ArgumentSchema) (props : list (string * (value -> Prop)))
    (items : option (value -> Prop)) (v : value) : Prop :=
  (Enum s = [] \/ inEnum s v = true) /\ finite (normalize v) /\ has_type (as_Type s) (normalize v) /\
  match normalize v with
  | VString str => string_ok s str
  | VFloat f => number_passes s v f
  | VObject m => object_ok s props m
  | VArray l => array_ok s items l
  | VStrings _ | VBytes _ => array_ok s items (native_items v)
  | _ => True
  end.

Fixpoint passes (s : ArgumentSchema) : value -> Prop :=
  passes_at s (map (fun '(n, sub) => (n, passes sub)) (Properties s))
    (match Items s with Some sub => Some (passes sub) | None => None end).

Definition decides (f : validator) (P : value -> Prop) : Prop :=
  forall path v, f path v = None <-> P v.

Lemma below_false n min : below n min = false <-> forall m, min = Some m -> (m <= n)%Z.
Proof.
  destruct min as [m|]; cbn; [rewrite Z.ltb_ge | done].
  split; [by intros ? ? [= <-] | intros H; by apply H].
Qed.

Lemma above_false n max : above n max = false <-> forall m, max = Some m -> (n <= m)%Z.
Proof.
  destruct max as [m|]; cbn; [rewrite Z.ltb_ge | done].
  split; [by intros ? ? [= <-] | intros H; by apply H].
Qed.

Lemma string_decides p v s : schemaValidateString p v s = None <-> string_ok s v.
Proof.
  unfold schemaValidateString, string_ok. rewrite <- below_false, <- above_false.
  destruct (below (RuneCount v) (MinLength s)) eqn:Eb, (above (RuneCount v) (MaxLength s)) eqn:Ea;
    destruct (String.eqb_spec (Pattern s) "") as [E|E]; cbn [negb];
    try (destruct (compilePattern (Pattern s)) as [f|]; [destruct (f v) eqn:Ef|]).
  all: split; [try done; intros _; split_and!; eauto | intros (Hp & Hb & Hc); try done].
  all: destruct Hp as [|(g & Hg & Hgv)]; congruence.
Qed.

Lemma number_decides p f raw s : schemaValidateNumber p f raw s = None <-> number_passes s raw f.
Proof.
  unfold schemaValidateNumber, number_passes, outside.
  destruct (Minimum s) as [a|], (Maximum s) as [b|];
    repeat match goal with |- context [(?x <? ?y)%Z] => destruct (Z.ltb_spec x y) end;
    (split; [intros; split; intros ? ?; simplify_eq; done || lia | intros [H1 H2]; try done; exfalso]).
  all: try (specialize (H1 _ eq_refl); lia); specialize (H2 _ eq_refl); lia.
Qed.

Lemma type_decides p v t : (if IsZero t then None else schemaCheckType p v t) = None <-> has_type t v.
Proof.
  unfold has_type, schemaCheckType. destruct (IsZero t); [naive_solver|].
  destruct (String.eqb (Single t) "") eqn:Es; cbn [negb].
  - destruct (existsb _ _) eqn:E.
    + apply existsb_elem_of in E. naive_solver.
    + split; [done|]. intros [?|H]; [done|]. apply not_true_iff_false in E. destruct E.
      apply existsb_elem_of. naive_solver.
  - destruct (schemaTypeCompatible _ _ _); [naive_solver|]. case_match; naive_solver.
Qed.

Lemma required_decides p m req : requiredLoop p m req = None <-> forall r, r ∈ req -> is_Some (index r m).
Proof.
  induction req as [|r req IH]; cbn; [split; [by intros _ ? ?%not_elem_of_nil | done]|].
  destruct (index r m) eqn:E.
  - rewrite IH. split; [intros H x [->|Hx]%elem_of_cons; [by rewrite E | auto] |].
    intros H x Hx. apply H. by apply list_elem_of_further.
  - split; [done|]. intros H. destruct (H r (list_elem_of_here _ _)). congruence.
Qed.

Lemma items_decides f P p l : decides f P -> forall i, itemsLoop p i l f = None <-> Forall P l.
Proof.
  intros Hf. induction l as [|x l IH]; intros i; cbn; [by split|].
  rewrite Forall_cons, <- (IH (i + 1)%Z). pose proof (Hf (p ++ "[" ++ itoa i ++ "]") x) as Hx.
  destruct (f _ x) eqn:E; [| naive_solver]. split; [done|]. intros [H _]. by apply Hx in H.
Qed.

Lemma array_decides p l s f P :
  match f, P with Some f, Some P => decides f P | None, None => True | _, _ => False end ->
  schemaValidateArray p l s f = None <-> array_ok s P l.
Proof.
  intros Hf. unfold schemaValidateArray, array_ok. rewrite <- below_false, <- above_false.
  destruct (below _ _) eqn:Eb; [naive_solver|]. destruct (above _ _) eqn:Ea; [naive_solver|].
  destruct f as [f|], P as [P|]; try done. rewrite (items_decides f P) by done. naive_solver.
Qed.

(** The validators of the properties decide their predicates. *)
Definition props_decide (props : list (string * validator)) (preds : list (string * (value -> Prop))) : Prop :=
  Forall2 (fun f P => fst f = fst P /\ decides (snd f) (snd P)) props preds.

Lemma props_fst props preds : props_decide props preds -> map fst props = map fst preds.
Proof. induction 1 as [|? ? ? ? [E _] _ IH]; cbn; congruence. Qed.

Lemma property_spec props name f : NoDup (map fst props) -> (name, f) ∈ props -> property name props = f.
Proof.
  induction props as [|[n g] props IH]; cbn; [by intros _ ?%not_elem_of_nil|].
  intros [Hn Hnd]%NoDup_cons [E|Hin]%elem_of_cons; [simplify_eq; by rewrite String.eqb_refl|].
  destruct (String.eqb_spec name n) as [->|]; [| by apply IH]. destruct Hn.
  apply list_elem_of_In, in_map_iff. exists (n, f). split; [done | by apply list_elem_of_In].
Qed.

Lemma propertiesLoop_iff p m props names :
  propertiesLoop p m props names = None <->
  forall n v, n ∈ names -> index n m = Some v -> property n props (p ++ "." ++ n) v = None.
Proof.
  induction names as [|n names IH]; cbn [propertiesLoop]; [split; [by intros _ ? ? ?%not_elem_of_nil | done]|].
  destruct (index n m) as [v|] eqn:Ei.
  - destruct (property n props (p ++ "." ++ n) v) as [err|] eqn:Ep.
    + split; [done|]. intros H. specialize (H n v (list_elem_of_here _ _) Ei). congruence.
    + rewrite IH. split.
      * intros H n' v' [->|Hn]%elem_of_cons Hi; [congruence | auto].
      * intros H n' v' Hn. apply H. by apply list_elem_of_further.
  - rewrite IH. split.
    + intros H n' v' [->|Hn]%elem_of_cons Hi; [congruence | auto].
    + intros H n' v' Hn. apply H. by apply list_elem_of_further.
Qed.

Lemma properties_decide p m props preds :
  NoDup (map fst props) -> props_decide props preds ->
  propertiesLoop p m props (sort_strings (map fst props)) = None <->
  Forall (fun e => forall v, index (fst e) m = Some v -> snd e v) preds.
Proof.
  intros Hnd Hd. rewrite propertiesLoop_iff, Forall_forall. split.
  - intros H [n P] Hin v Hi. apply list_elem_of_lookup in Hin as [i Hin].
    destruct (Forall2_lookup_r _ _ _ _ _ Hd Hin) as ([n' f] & Hf & E & Hfd). cbn in *. subst n'.
    apply list_elem_of_lookup_2 in Hf. apply (Hfd (p ++ "." ++ n) v).
    rewrite <- (property_spec props n f Hnd Hf). apply H; [| done]. apply elem_of_sort_strings.
    apply list_elem_of_In, in_map_iff. exists (n, f). split; [done | by apply list_elem_of_In].
  - intros H n v Hn Hi. rewrite elem_of_sort_strings in Hn.
    apply list_elem_of_In, in_map_iff in Hn as ([n' f] & E & Hf%list_elem_of_In). cbn in E. subst n'.
    rewrite (property_spec props n f Hnd Hf). apply list_elem_of_lookup in Hf as [i Hf].
    destruct (Forall2_lookup_l _ _ _ _ _ Hd Hf) as ([n' P] & HP & E & Hfd). cbn in *. subst n'.
    apply Hfd. by apply (H (n, P)); [eapply list_elem_of_lookup_2|].
Qed.

Lemma extras_decide m names : extrasOf m names = [] <-> forall k, k ∈ map fst m -> k ∈ names.
Proof.
  assert (forall k, one_of k names = true <-> k ∈ names) as Hone.
  { intros k. unfold one_of. rewrite existsb_elem_of. split.
    - intros (x & Hx & E%String.eqb_eq). by subst.
    - intros Hk. exists k. split; [done | apply String.eqb_refl]. }
  unfold extrasOf. split.
  - intros E k Hk. apply Hone. destruct (one_of k names) eqn:Ek; [done | exfalso].
    assert (k ∈ ([] : list string)) as []%not_elem_of_nil. rewrite <- E.
    apply elem_of_sort_strings, elem_of_lfilter. by rewrite Ek.
  - intros H. destruct (sort_strings _) as [|k l] eqn:E; [done | exfalso].
    assert (k ∈ sort_strings (List.filter (fun k => negb (one_of k names)) (map fst m))) as Hk
      by (rewrite E; apply list_elem_of_here).
    apply elem_of_sort_strings, elem_of_lfilter in Hk as [Hk Hn]. apply H, Hone in Hk. by rewrite Hk in Hn.
Qed.

Lemma object_decides p m s props preds :
  NoDup (map fst props) -> props_decide props preds ->
  schemaValidateObject p m s props = None <-> object_ok s preds m.
Proof.
  intros Hnd Hd. unfold schemaValidateObject, object_ok. rewrite <- (required_decides p m (Required s)).
  rewrite <- (properties_decide p m props preds Hnd Hd), <- (props_fst _ _ Hd).
  destruct (requiredLoop _ _ _); [naive_solver|]. destruct (propertiesLoop _ _ _ _); [naive_solver|].
  destruct (AdditionalProperties s) as [[|]|]; [naive_solver | | naive_solver].
  rewrite <- extras_decide. destruct (extrasOf _ _); naive_solver.
Qed.

Lemma validate_decides s props preds items P :
  NoDup (map fst props) -> props_decide props preds ->
  match items, P with Some f, Some P => decides f P | None, None => True | _, _ => False end ->
  decides (schemaValidate s props items) (passes_at s preds P).
Proof.
  intros Hnd Hd Hi path v. unfold schemaValidate, passes_at.
  assert ((0 <? List.length (Enum s))%nat && negb (inEnum s v) = false <-> Enum s = [] \/ inEnum s v = true) as He.
  { destruct (Enum s) eqn:E; cbn; [naive_solver|]. destruct (inEnum s v); cbn; naive_solver. }
  destruct ((0 <? List.length (Enum s))%nat && negb (inEnum s v)) eqn:Ee.
  { split; [done|]. intros [H _]. apply He in H. done. }
  clear Ee. pose proof (proj1 He eq_refl) as Ee. clear He.
  pose proof (type_decides path (normalize v) (as_Type s)) as Ht.
  destruct (normalize v) as [|b|n|z|f|str|bs|l|l|m] eqn:En; cbn [finite] in *.
  all: try (destruct (if IsZero (as_Type s) then _ else _) as [err|];
    [split; [done | intros (_ & _ & H & _); by apply Ht in H]|]).
  - naive_solver.
  - naive_solver.
  - naive_solver.
  - naive_solver.
  - destruct (is_nan f), (is_inf f); cbn [orb]; try naive_solver.
    destruct (if IsZero (as_Type s) then _ else _) as [err|]; [naive_solver|].
    rewrite number_decides. naive_solver.
  - rewrite string_decides. naive_solver.
  - rewrite (array_decides _ _ _ _ P) by done.
    assert (native_items (VBytes bs) = native_items v) as -> by (destruct v; cbn in En; try done; repeat case_match; naive_solver).
    naive_solver.
  - rewrite (array_decides _ _ _ _ P) by done.
    assert (native_items (VStrings l) = native_items v) as -> by (destruct v; cbn in En; try done; repeat case_match; naive_solver).
    naive_solver.
  - rewrite (array_decides _ _ _ _ P) by done. naive_solver.
  - rewrite (object_decides _ _ _ _ preds) by done. naive_solver.
Qed.

Lemma schema_tree_ind (P : ArgumentSchema -> Prop) :
  (forall s, Forall (fun e => P (snd e)) (Properties s) ->
    match Items s with Some sub => P sub | None => True end -> P s) ->
  forall s, P s.
Proof.
  intros H. fix IH 1. intros [t props r ap en pa mi ma mn mx items ma' mi' de]. apply H; cbn [Properties Items].
  - induction props as [|[n sub] props IHp]; constructor; [apply IH | apply IHp].
  - destruct items as [sub|]; [apply IH | exact I].
Qed.

Lemma every_schema_inv P s : every_schema P s ->
  P s /\ Forall (fun e => every_schema P (snd e)) (Properties s) /\
  (forall sub, Items s = Some sub -> every_schema P sub).
Proof.
  destruct s as [t props r ap en pa mi ma mn mx items ma' mi' de]. intros (H & Hp & Hi).
  split_and!; [done | | intros sub E; cbn in E; by rewrite E in Hi]. cbn [Properties] in *. clear -Hp.
  induction props as [|[n sub] props IH]; [constructor|]. destruct Hp. constructor; auto.
Qed.

Lemma validator_decides s : wf_schema s -> decides (schemaValidateValue s) (passes s).
Proof.
  induction s as [s IHp IHi] using schema_tree_ind. intros (Hnd & Hwp & Hwi)%every_schema_inv.
  replace (schemaValidateValue s) with (schemaValidate s
    (map (fun '(n, sub) => (n, schemaValidateValue sub)) (Properties s))
    (match Items s with Some sub => Some (schemaValidateValue sub) | None => None end)) by (by destruct s).
  replace (passes s) with (passes_at s (map (fun '(n, sub) => (n, passes sub)) (Properties s))
    (match Items s with Some sub => Some (passes sub) | None => None end)) by (by destruct s).
  apply validate_decides.
  - rewrite map_map. erewrite map_ext; [exact Hnd | by intros []].
  - unfold props_decide. apply Forall2_fmap_l, Forall2_fmap_r. apply Forall_Forall2_diag.
    rewrite Forall_forall in IHp, Hwp |- *. intros [n sub] Hin. cbn. split; [done|].
    apply (IHp _ Hin). by apply (Hwp (n, sub)).
  - destruct (Items s) as [sub|]; [| done]. by apply IHi, Hwi.
Qed.

(** ** The two readings agree on exact numbers *)

(** An entry that is a number has an exact reading, and only numbers have one. *)
Lemma entry_number a x : exact_entry a -> num_value a = Some x -> entry_reading a x.
Proof.
  intros Ha Hx. assert (forall y, entry_reading a y -> entry_reading a x) as Hok.
  { intros y Hy. pose proof (en_value _ _ Hy). by simplify_eq. }
  destruct a as [| |n|z|f| | | | |]; try done; cbn [exact_entry exact_number] in Ha.
  - destruct Ha as [(z & Hz & Hr & Hb)|(f & Hf & He)].
    + destruct (plain_reading n z Hz Hr Hb) as [f Hf]. exact (Hok _ (er_entry _ _ _ Hf)).
    + exact (Hok _ (er_entry _ _ _ (binary_reading n f Hf He))).
  - exact (Hok _ (int_reading z Ha)).
  - exact (Hok _ (er_entry _ _ _ (float_reading f Ha))).
Qed.

Lemma not_number_equal a v :
  num_value a = None \/ num_value v = None -> exact_entry a -> exact_numbers v -> in_range v ->
  numericEqual a v = false.
Proof.
  intros H Ha Hv Hr.
  assert (forall u, num_value u = None -> asInt64 u = None /\ exactIntegerRat u = None /\ toFloat64 u = None \/
    match u with VNumber n => decimal_literal n = false | VFloat f => finite_float f -> False | _ => False end) as Hn.
  { intros u Hu. destruct u as [| |n|z|f| | | | |]; try (by left); cbn in Hu; try done; right.
    - by destruct (decimal_literal n).
    - intros Hf. destruct (fint_rat f Hf) as (q & Hq & _). congruence. }
  unfold numericEqual. destruct H as [H|H]; apply Hn in H as [(H1 & H2 & H3)|H].
  - rewrite H1, H2, H3. by destruct (asInt64 v).
  - destruct a as [| |n|z|f| | | | |]; try done; cbn in Ha.
    exfalso. destruct Ha as [(z & Hz & _)|(f & Hf & _)].
    + by rewrite (SetString10_decimal_literal n z Hz) in H.
    + unfold ParseFloat64 in Hf. by rewrite H in Hf.
  - rewrite H1, H2, H3. destruct (asInt64 a); [done|]. destruct (exactIntegerRat a), (toFloat64 a); done.
  - destruct v as [| |n|z|f| | | | |]; try done; cbn in Hr, Hv.
    + exfalso. destruct Hr as [f Hf]. unfold ParseFloat64 in Hf. by rewrite H in Hf.
    + exfalso. apply H. by destruct Hr.
Qed.

(** A number of the arguments that is in range has an exact reading. *)
Lemma argument_reading v : exact_numbers v -> in_range v -> is_Some (toFloat64 v) ->
  exists x f, normalize v = VFloat f /\ exact_reading v x f.
Proof.
  intros Hv Hr Hf. destruct v as [| |n|z|f| | | | |]; try (by destruct Hf).
  - cbn in Hf, Hv. destruct Hf as [f Hf]. destruct (exact_number_reading (VNumber n) f) as [x Hx]; [by apply Hv | done |].
    exists x, f. cbn. by rewrite Hf.
  - destruct (exact_number_reading (VInt z) (of_Z z)) as [x Hx]; [exact Hv | done |]. by exists x, (of_Z z).
  - exists (float_value f), f. split; [done|]. apply float_reading. destruct Hr. by split_and!.
Qed.

Lemma listed_agree s v : exact_numbers v -> in_range v -> Forall exact_entry (Enum s) ->
  (Enum s = [] \/ inEnum s v = true) <-> listed s v.
Proof.
  intros Hv Hr He. unfold listed, inEnum. rewrite existsb_elem_of.
  enough (forall a, a ∈ Enum s -> deepEqual a v || numericEqual a v = true <->
    deepEqual a v = true \/ exists x y, num_value a = Some x /\ num_value v = Some y /\ (x == y)%Q) as Ha.
  { split; (intros [|(a & Hin & H)]; [by left|]; right; exists a; split; [done | by apply Ha]). }
  intros a Hin. rewrite orb_true_iff. rewrite Forall_forall in He. specialize (He a Hin).
  apply or_iff_compat_l. destruct (num_value a) as [x|] eqn:Ea.
  - destruct (num_value v) as [y|] eqn:Ev.
    + assert (is_Some (toFloat64 v)) as Hf.
      { by destruct v. }
      destruct (argument_reading v Hv Hr Hf) as (y' & f & _ & Hy).
      pose proof (er_entry _ _ _ Hy) as Hen. pose proof (en_value _ _ Hen) as E. rewrite Ev in E. injection E as <-.
      rewrite (numericEqual_exact a v x y (entry_number a x He Ea) Hen). naive_solver.
    + rewrite (not_number_equal a v) by auto. naive_solver.
  - rewrite (not_number_equal a v) by auto. naive_solver.
Qed.

Lemma type_test v x f t : exact_reading v x f ->
  schemaTypeCompatible "number" t (VFloat f) = true <-> t = "number" \/ t = "integer" /\ exists z, (x == inject_Z z)%Q.
Proof.
  intros Hx. unfold schemaTypeCompatible. rewrite <- (near_whole v x f Hx).
  destruct (String.eqb_spec "number" t) as [<-|H]; [naive_solver|].
  destruct (String.eqb_spec t "integer") as [->|H']; cbn; naive_solver.
Qed.

(** A value that is no number has the one type name of its JSON type. *)
Lemma other_type v t u : schemaJSONTypeOf v = u -> u <> "number" ->
  schemaTypeCompatible (schemaJSONTypeOf v) t v = true <-> t = u.
Proof.
  intros -> Hu. unfold schemaTypeCompatible. destruct (String.eqb_spec u t) as [->|H]; [done|].
  destruct (String.eqb_spec u "number"); [done|]. rewrite andb_false_r. naive_solver.
Qed.

Lemma type_agree v t : exact_numbers v -> in_range v ->
  schemaTypeCompatible (schemaJSONTypeOf (normalize v)) t (normalize v) = true <-> json_type v t.
Proof.
  intros Hv Hr.
  assert (is_Some (toFloat64 v) -> schemaTypeCompatible (schemaJSONTypeOf (normalize v)) t (normalize v) = true <->
    t = "number" \/ t = "integer" /\ exists x z, num_value v = Some x /\ (x == inject_Z z)%Q) as Hnum.
  { intros Hf. destruct (argument_reading v Hv Hr Hf) as (x & f & -> & Hx). cbn [schemaJSONTypeOf].
    rewrite (type_test v x f t Hx). pose proof (en_value _ _ (er_entry _ _ _ Hx)) as E. rewrite E. naive_solver. }
  destruct v as [| |n|z|f| | | | |]; cbn [json_type];
    first [by apply Hnum; cbn; eauto | by apply (other_type _ t)].
Qed.

Lemma typed_agree v t : exact_numbers v -> in_range v -> has_type t (normalize v) <-> typed t v.
Proof.
  intros Hv Hr. unfold has_type, typed, declared_types, IsZero.
  assert ((List.length (Multiple t) =? 0)%nat = true <-> Multiple t = []) as Hm by (by destruct (Multiple t)).
  pose proof (fun x => type_agree v x Hv Hr) as Ht. destruct (String.eqb_spec (Single t) "") as [E|E]; cbn [andb].
  - rewrite Hm. setoid_rewrite Ht. done.
  - rewrite Ht. split; [intros [|H]; [done|]; right; exists (Single t); split; [by left | done]|].
    intros [|(x & Hx & H)]; [done|]. apply list_elem_of_singleton in Hx as ->. by right.
Qed.

Lemma number_agree s v x f : exact_reading v x f ->
  (forall b, Minimum s = Some b -> finite_float b) -> (forall b, Maximum s = Some b -> finite_float b) ->
  number_passes s v f <-> number_ok s x.
Proof.
  intros Hx Hmin Hmax. unfold number_passes, number_ok.
  assert (forall b, finite_float b -> (0 <= compareToBound v f b)%Z <-> (float_value b <= x)%Q) as H1.
  { intros b Hb. rewrite (compareToBound_exact v x f b Hx Hb), Qle_alt, <- Qcompare_antisym.
    by destruct (float_value b ?= x)%Q. }
  assert (forall b, finite_float b -> (compareToBound v f b <= 0)%Z <-> (x <= float_value b)%Q) as H2.
  { intros b Hb. rewrite (compareToBound_exact v x f b Hx Hb), Qle_alt. by destruct (x ?= float_value b)%Q. }
  split; intros [Ha Hb]; (split; intros b E; [apply H1 | apply H2]; auto).
Qed.

Definition agree (P Q : value -> Prop) : Prop := forall v, exact_numbers v -> P v <-> Q v.

Lemma exact_array l : exact_numbers (VArray l) <-> Forall exact_numbers l.
Proof. induction l as [|v l IH]; [by split|]. rewrite Forall_cons, <- IH. done. Qed.

Lemma exact_object m : exact_numbers (VObject m) <-> Forall (fun e => exact_numbers (snd e)) m.
Proof. induction m as [|[k v] m IH]; [by split|]. rewrite Forall_cons, <- IH. done. Qed.

Lemma exact_index m k v : exact_numbers (VObject m) -> index k m = Some v -> exact_numbers v.
Proof.
  intros Hm%exact_object. induction Hm as [|[n x] m Hx Hm IH]; cbn; [done|].
  case_match; [by intros [= <-] | done].
Qed.

Lemma exact_native v : Forall exact_numbers (native_items v).
Proof.
  destruct v; cbn; try constructor; apply Forall_map, Forall_forall; intros c _; [| done].
  cbn. unfold GoPath.byte_val. pose proof (N_ascii_bounded c). unfold two53. lia.
Qed.

Lemma array_agree s l P Q :
  match P, Q with Some P, Some Q => agree P Q | None, None => True | _, _ => False end ->
  Forall exact_numbers l -> array_ok s P l <-> array_ok s Q l.
Proof.
  intros HPQ Hl. unfold array_ok. destruct P as [P|], Q as [Q|]; try done.
  assert (Forall P l <-> Forall Q l) as ->; [| done].
  induction Hl as [|v l Hv Hl IH]; [by split|]. by rewrite !Forall_cons, IH, (HPQ v Hv).
Qed.

Lemma object_agree s m props preds :
  Forall2 (fun e e' => fst e = fst e' /\ agree (snd e) (snd e')) props preds ->
  exact_numbers (VObject m) -> object_ok s props m <-> object_ok s preds m.
Proof.
  intros Hp Hm. unfold object_ok.
  assert (map fst props = map fst preds) as -> by (induction Hp as [|? ? ? ? [E _] _ IH]; cbn; congruence).
  assert (Forall (fun e => forall v, index (fst e) m = Some v -> snd e v) props <->
    Forall (fun e => forall v, index (fst e) m = Some v -> snd e v) preds) as ->; [| done].
  induction Hp as [|e e' props preds [E H] _ IH]; [by split|]. rewrite !Forall_cons, IH, E.
  assert (forall v, index (fst e') m = Some v -> snd e v <-> snd e' v) as Hv by eauto using exact_index.
  naive_solver.
Qed.

Lemma in_range_finite v : exact_numbers v -> in_range v <-> finite (normalize v).
Proof.
  intros Hv. destruct v as [| |n|z|f| | | | |]; try done.
  - cbn. destruct (ParseFloat64 n) as [f|] eqn:E; [| by split; [intros [? [=]] |]].
    destruct (ParseFloat64_finite n f E) as (? & ? & _). naive_solver.
  - cbn. destruct (of_Z_small z Hv) as [(? & ? & _) _]. done.
Qed.

Lemma agree_at s props preds items P :
  Forall exact_entry (Enum s) ->
  (forall b, Minimum s = Some b -> finite_float b) -> (forall b, Maximum s = Some b -> finite_float b) ->
  Forall2 (fun e e' => fst e = fst e' /\ agree (snd e) (snd e')) props preds ->
  match items, P with Some f, Some P => agree f P | None, None => True | _, _ => False end ->
  agree (passes_at s props items) (conforms_at s preds P).
Proof.
  intros He Hmin Hmax Hp Hi v Hv. unfold passes_at, conforms_at. rewrite <- (in_range_finite v Hv).
  assert (in_range v -> (Enum s = [] \/ inEnum s v = true) <-> listed s v) as Hl by (intros; by apply listed_agree).
  assert (in_range v -> has_type (as_Type s) (normalize v) <-> typed (as_Type s) v) as Ht by (intros; by apply typed_agree).
  assert (in_range v -> is_Some (toFloat64 v) ->
    match normalize v with VFloat f => number_passes s v f | _ => True end <->
    exists x, num_value v = Some x /\ number_ok s x) as Hn.
  { intros Hr Hf. destruct (argument_reading v Hv Hr Hf) as (x & f & -> & Hx).
    rewrite (number_agree s v x f Hx Hmin Hmax). pose proof (en_value _ _ (er_entry _ _ _ Hx)). naive_solver. }
  enough (in_range v -> match normalize v with
    | VString str => string_ok s str
    | VFloat f => number_passes s v f
    | VObject m => object_ok s props m
    | VArray l => array_ok s items l
    | VStrings _ | VBytes _ => array_ok s items (native_items v)
    | _ => True
    end <-> match v with
    | VString str => string_ok s str
    | VNumber _ | VInt _ | VFloat _ => exists x, num_value v = Some x /\ number_ok s x
    | VObject m => object_ok s preds m
    | VArray l => array_ok s P l
    | VStrings _ | VBytes _ => array_ok s P (native_items v)
    | VNull | VBool _ => True
    end) as Hk by (clear -Hl Ht Hk; tauto).
  clear Hl Ht. intros Hr. specialize (Hn Hr). destruct v as [| |n|z|f|str|bs|l|l|m]; cbn [normalize toFloat64] in *; try done.
  - cbn [in_range] in Hr. destruct (ParseFloat64 n) as [f|]; [by apply Hn | by destruct Hr].
  - apply Hn. by eexists.
  - apply Hn. by eexists.
  - apply (array_agree s _ items P Hi (exact_native _)).
  - apply (array_agree s _ items P Hi (exact_native _)).
  - apply (array_agree s _ items P Hi). by apply exact_array.
  - apply (object_agree s m props preds Hp Hv).
Qed.

Lemma passes_conforms s : exact_schema s -> agree (passes s) (conforms s).
Proof.
  induction s as [s IHp IHi] using schema_tree_ind. intros ((He & Hmin & Hmax) & Hxp & Hxi)%every_schema_inv.
  replace (passes s) with (passes_at s (map (fun '(n, sub) => (n, passes sub)) (Properties s))
    (match Items s with Some sub => Some (passes sub) | None => None end)) by (by destruct s).
  replace (conforms s) with (conforms_at s (map (fun '(n, sub) => (n, conforms sub)) (Properties s))
    (match Items s with Some sub => Some (conforms sub) | None => None end)) by (by destruct s).
  apply agree_at; [done.. | |].
  - apply Forall2_fmap_l, Forall2_fmap_r. apply Forall_Forall2_diag.
    rewrite Forall_forall in IHp, Hxp |- *. intros [n sub] Hin. cbn. split; [done|].
    apply (IHp _ Hin). by apply (Hxp (n, sub)).
  - destruct (Items s) as [sub|]; [| done]. by apply IHi, Hxi.
Qed.

(** C35: The validator accepts exactly the arguments that conform to the schema: every
    keyword holds, at every depth, whatever the order in which properties are visited and
    the violation found first.  Conformance is stated on the exact rational values of
    numbers: a bound is met, an entry of an enumeration is equal and a type is integer by
    value, and a number too large for a float64 never conforms.  The numbers covered are
    those that a float64 holds exactly and the plainly spelled integers of the int64 range,
    in the arguments and in the enumerations; for other spellings the comparison rounds
    ([Numeric.respelled_integers_conflated]). *)
Theorem validator_accepts_conforming args schema :
  wf_schema schema -> exact_schema schema -> exact_numbers (VObject args) ->
  ValidateArgumentSchema args schema = None <-> conforms schema (VObject args).
Proof.
  intros Hwf Hx Ha. rewrite <- (passes_conforms schema Hx (VObject args) Ha).
  apply (validator_decides schema Hwf).
Qed.

End schema.

Definition leaf_schema (t : string) (min max : option float64) : ArgumentSchema :=
  mkArgumentSchema (mkSchemaType t []) [] [] None [] "" None None min max None None None "".

Definition row_schema : ArgumentSchema :=
  mkArgumentSchema (mkSchemaType "object" [])
    [("rows", leaf_schema "integer" None (Some (of_Z 9007199254740992))); ("q", leaf_schema "string" None None)]
    ["rows"] (Some false) [] "" None None None None None None None "".

Lemma every_leaf P t min max : P (leaf_schema t min max) -> every_schema P (leaf_schema t min max).
Proof. intros H. split; [exact H | split; exact I]. Qed.

Lemma every_row P t1 t2 a1 b1 a2 b2 r ap :
  let s := mkArgumentSchema (mkSchemaType "object" []) [("rows", leaf_schema t1 a1 b1); ("q", leaf_schema t2 a2 b2)]
    r ap [] "" None None None None None None None "" in
  P s -> P (leaf_schema t1 a1 b1) -> P (leaf_schema t2 a2 b2) -> every_schema P s.
Proof.
  intros s H H1 H2. split; [exact H | split; [| exact I]].
  split; [by apply every_leaf | split; [by apply every_leaf | exact I]].
Qed.

Lemma row_schema_exact : wf_schema row_schema /\ exact_schema row_schema.
Proof.
  split; apply every_row.
  - by apply (bool_decide_unpack _).
  - constructor.
  - constructor.
  - split; [constructor | split; intros b; discriminate].
  - split; [constructor | split; intros b; [discriminate|]]. intros [= <-]. repeat split; vm_compute; reflexivity.
  - split; [constructor | split; intros b; discriminate].
Qed.

Lemma plain_exact n z : Magnitude.Magnitude.SetString10 n = Some z -> (min_int64 <=? z)%Z && (z <=? max_int64)%Z = true ->
  Magnitude.Magnitude.NumericLiteralBounded n = true -> exact_numbers (VNumber n).
Proof. intros Hs [H1%Z.leb_le H2%Z.leb_le]%andb_true_iff Hb _. left. by exists z. Qed.

(** An integer one past the bound is refused although both round to the same float64, a
    fraction that a float64 holds is no integer, and a number that overflows is refused. *)
Lemma validator_accepts_conforming_witness :
  conforms (fun _ => None) row_schema (VObject [("q", VString "x"); ("rows", VNumber "12")]) /\
  ~ conforms (fun _ => None) row_schema (VObject [("rows", VNumber "9007199254740993")]) /\
  ~ conforms (fun _ => None) row_schema (VObject [("rows", VNumber "2.5")]) /\
  ~ conforms (fun _ => None) row_schema (VObject [("rows", VNumber "1e400")]).
Proof.
  destruct row_schema_exact as [Hwf Hx]. split_and!.
  - apply (validator_accepts_conforming _ [("q", VString "x"); ("rows", VNumber "12")] row_schema Hwf Hx).
    + split; [exact I|]. split; [| exact I]. by apply (plain_exact _ 12).
    + vm_compute. reflexivity.
  - intros H%(validator_accepts_conforming _ [("rows", VNumber "9007199254740993")] row_schema Hwf Hx).
    + vm_compute in H. discriminate.
    + split; [| exact I]. by apply (plain_exact _ 9007199254740993).
  - intros H%(validator_accepts_conforming _ [("rows", VNumber "2.5")] row_schema Hwf Hx).
    + vm_compute in H. discriminate.
    + split; [| exact I]. intros _. right. eexists. split; vm_compute; reflexivity.
  - intros H%(validator_accepts_conforming _ [("rows", VNumber "1e400")] row_schema Hwf Hx).
    + vm_compute in H. discriminate.
    + split; [| exact I]. intros [f Hf]. vm_compute in Hf. discriminate.
Defined.

(** The premise on numbers is needed: respelled with a fraction, the integer past the bound
    is rounded onto it and accepted. *)
Theorem respelled_bound_passes :
  ValidateArgumentSchema (fun _ => None) [("rows", VNumber "9007199254740993.0")] row_schema = None /\
  ~ conforms (fun _ => None) row_schema (VObject [("rows", VNumber "9007199254740993.0")]).
Proof.
  split; [vm_compute; reflexivity|]. intros (_ & _ & _ & _ & Hp & _).
  apply Forall_cons in Hp as [Hp _]. destruct (Hp _ eq_refl) as (_ & _ & _ & x & Hx & _ & Hmax).
  injection Hx as <-. specialize (Hmax _ eq_refl). vm_compute in Hmax. by apply Hmax.
Qed.

End Schema.
