(* ===== verification/Selection.v ===== *)
(** * Constraint selection

    The selection half of pkg/enforcement/engine.go: which of a policy's constraints
    governs a request.  A request and a constraint each name a (namespace, name) pair;
    among the constraints whose namespace, pattern, action and principal all match, the
    most specific pattern wins, then a principal-scoped entry, then declaration order. *)
From stdpp Require Import base tactics list gmap strings.
From Stdlib Require Import ZArith Lia Ascii String.
From S2P Require Import Prelude GoStrings GoPath Capability.
#[local] Open Scope string_scope.
#[local] Open Scope Z_scope.
Import GoPath Capability.

Module Selection.

(** ** Names *)

Definition splitEnginePrefix (s : string) : string * string :=
  match cut_char ":" s with
  | Some (prefix, rest) => if IsTargetType prefix then (prefix, rest) else ("tool", s)
  | None => ("tool", s)
  end.

Definition StripEnginePrefix (s : string) : string := snd (splitEnginePrefix s).

Definition resolveRequestTarget (req : EnforceRequest) : string * string :=
  let '(reqType, bareName) := splitEnginePrefix (TargetName req) in
  match ReqTarget req with
  | None => (reqType, bareName)
  | Some t =>
      let reqType := if String.eqb (tgt_Type t) "" then reqType else tgt_Type t in
      let n := TrimSpace (tgt_Name t) in
      (reqType, if String.eqb n "" then bareName else n)
  end.

Definition sessionTargetName (req : EnforceRequest) : string :=
  let fallback := TrimSpace (StripEnginePrefix (TargetName req)) in
  match ReqTarget req with
  | None => fallback
  | Some t =>
      let n := TrimSpace (tgt_Name t) in if String.eqb n "" then fallback else n
  end.

Definition sessionTargetKey (req : EnforceRequest) : string * string :=
  let '(targetType, _) := splitEnginePrefix (TargetName req) in
  let targetType :=
    match ReqTarget req with
    | Some t => if String.eqb (tgt_Type t) "" then targetType else tgt_Type t
    | None => targetType
    end in
  (targetType, sessionTargetName req).

(** ** Matching *)

Definition MatchesResource (resource toolName : string) : bool :=
  String.eqb resource "*" || String.eqb resource toolName || matched resource toolName.

(** [nil] error is [true]. *)
Definition ValidateResourcePattern (resource : string) : bool := is_ok (Match resource "").

Definition actionPermitted (actions : list string) (targetType : string) : bool :=
  existsb (ValidateActionForTargetType targetType) actions.

(** ** Specificity *)

Definition resourceSpecificityLiteralWeight : Z := 10.
Definition maxWildcardTiebreak : Z := resourceSpecificityLiteralWeight - 1.
Definition exactMatchSpecificity : Z := 134217728.
Definition resourceScoreWeight : Z := 10.
Definition NoMatchScore : Z := -1073741824.

(** The rune at the cursor and the rest of the string after it. *)
Definition next_rune (s : string) : Z * string :=
  let '(r, size) := DecodeRuneInString s in (r, drop_str size s).

Definition rune (c : ascii) : Z := byte_val c.

(** The loop over the members of a class, up to and with its closing bracket. *)
Fixpoint skipClass (fuel : nat) (s : string) : string :=
  match fuel, s with
  | O, _ | _, "" => s
  | S fuel, _ =>
      let '(r2, s) := next_rune s in
      if r2 =? rune "]" then s
      else if (r2 =? rune "\") && negb (String.eqb s "")
      then skipClass fuel (snd (next_rune s))
      else skipClass fuel s
  end.

(** One turn of the walk: the string after the element at the cursor, and what the
    element adds to the literal and the wildcard count. *)
Definition walkStep (s : string) : string * Z * Z :=
  let '(r, rest) := next_rune s in
  if (r =? rune "*") || (r =? rune "?") then (rest, 0, 1)
  else if r =? rune "\" then
    if String.eqb rest "" then (rest, 0, 0) else (snd (next_rune rest), 1, 0)
  else if r =? rune "[" then
    let rest :=
      if String.eqb rest "" then rest
      else let '(r2, rest') := next_rune rest in if r2 =? rune "^" then rest' else rest in
    (skipClass (String.length rest) rest, 0, 1)
  else (rest, 1, 0).

Fixpoint walk (fuel : nat) (s : string) (literalCount wildcardCount : Z) : option (Z * Z) :=
  if String.eqb s "" then Some (literalCount, wildcardCount)
  else
    match fuel with
    | O => None
    | S fuel =>
        let '(rest, dl, dw) := walkStep s in
        walk fuel rest (literalCount + dl) (wildcardCount + dw)
    end.

(** The literal and wildcard counts of a pattern. *)
Definition counts (resource : string) : Z * Z :=
  default (0, 0) (walk (String.length resource) resource 0 0).

Definition ResourceSpecificity (resource toolName : string) : Z :=
  if String.eqb resource toolName then exactMatchSpecificity
  else
    let '(literalCount, wildcardCount) := counts resource in
    let wildcardCount :=
      if maxWildcardTiebreak <? wildcardCount then maxWildcardTiebreak else wildcardCount in
    literalCount * resourceSpecificityLiteralWeight - wildcardCount.

(** ** The scorer *)

Record ConstraintScorer := mkScorer { best : Z; bestScore : Z; bestPrin : bool }.

Definition NewConstraintScorer : ConstraintScorer := mkScorer (-1) NoMatchScore false.

Definition Offer (cs : ConstraintScorer) (i score : Z) (hasPrincipal : bool) : ConstraintScorer :=
  if (bestScore cs <? score) || ((score =? bestScore cs) && hasPrincipal && negb (bestPrin cs))
  then mkScorer i score hasPrincipal else cs.

(** ** Selection *)

Definition governs (req : EnforceRequest) (c : Constraint) : bool :=
  let '(reqType, bareToolName) := resolveRequestTarget req in
  let '(constraintType, bare) := splitEnginePrefix (Target c) in
  String.eqb constraintType reqType && MatchesResource bare bareToolName
  && actionPermitted (Actions c) reqType && PrincipalMatches c (Claims req).

Definition score_of (req : EnforceRequest) (c : Constraint) : Z :=
  ResourceSpecificity (StripEnginePrefix (Target c)) (snd (resolveRequestTarget req))
  * resourceScoreWeight.

(** The loop of FindMatchingCapability from index [i] on. *)
Fixpoint scan (req : EnforceRequest) (i : Z) (capabilities : list Constraint)
    (scorer : ConstraintScorer) : ConstraintScorer :=
  match capabilities with
  | [] => scorer
  | c :: rest =>
      scan req (i + 1) rest
        (if governs req c then Offer scorer i (score_of req c) (HasPrincipal c) else scorer)
  end.

Definition FindMatchingCapability (req : option EnforceRequest) (capabilities : list Constraint)
    : option Constraint :=
  match req with
  | None => None
  | Some req =>
      let scorer := scan req 0 capabilities NewConstraintScorer in
      if best scorer <? 0 then None else capabilities !! Z.to_nat (best scorer)
  end.

Definition names_target (req : EnforceRequest) (c : Constraint) : bool :=
  let '(reqType, bareName) := resolveRequestTarget req in
  let '(constraintType, bare) := splitEnginePrefix (Target c) in
  String.eqb constraintType reqType && MatchesResource bare bareName.

Definition namingTargetConstraint (req : EnforceRequest) (capabilities : list Constraint)
    : Constraint :=
  let '(reqType, bareName) := resolveRequestTarget req in
  mkConstraint (reqType ++ ":" ++ bareName)%string [] "" "" None ∅ None []
    (List.concat (List.map Directives (List.filter (names_target req) capabilities))).

(** ** Lemmas *)

Lemma next_rune_shorter s :
  s <> "" -> (String.length (snd (next_rune s)) < String.length s)%nat.
Proof.
  intros Hs. unfold next_rune. pose proof (decode_width s Hs) as Hw.
  destruct (DecodeRuneInString s) as [r sz]. cbn [snd] in *. rewrite drop_str_length.
  destruct s; [done|]. cbn [String.length]. lia.
Qed.

Lemma next_rune_le s : (String.length (snd (next_rune s)) <= String.length s)%nat.
Proof.
  unfold next_rune. destruct (DecodeRuneInString s). cbn [snd]. rewrite drop_str_length. lia.
Qed.

Lemma skipClass_le fuel : forall s, (String.length (skipClass fuel s) <= String.length s)%nat.
Proof.
  induction fuel as [|fuel IH]; intros s; [by destruct s|].
  destruct s as [|c s']; [done|]. set (s := String c s').
  change (skipClass (S fuel) s) with
    (let '(r2, t) := next_rune s in
     if r2 =? rune "]" then t
     else if (r2 =? rune "\") && negb (String.eqb t "")
     then skipClass fuel (snd (next_rune t)) else skipClass fuel t).
  pose proof (next_rune_le s) as H. destruct (next_rune s) as [r2 t]. cbn [snd] in H.
  pose proof (next_rune_le t) as H'. pose proof (IH (snd (next_rune t))). pose proof (IH t).
  repeat case_match; lia.
Qed.

Lemma walkStep_spec s :
  s <> "" ->
  let '(t, dl, dw) := walkStep s in
  (String.length t < String.length s)%nat /\ 0 <= dl <= 1 /\ 0 <= dw.
Proof.
  intros Hs. unfold walkStep. pose proof (next_rune_shorter s Hs) as Hn.
  destruct (next_rune s) as [r rest]. cbn [snd] in Hn.
  pose proof (next_rune_le rest) as Hr. pose proof (skipClass_le (String.length rest) rest) as Hc.
  destruct (next_rune rest) as [r2 rest'] eqn:E2. cbn [snd] in *.
  pose proof (skipClass_le (String.length rest') rest').
  repeat case_match; simplify_eq; cbn [snd]; lia.
Qed.

(** The walk ends, and its counts are bounded by the number of bytes it reads. *)
Lemma walk_total fuel : forall s l w,
  (String.length s <= fuel)%nat ->
  exists l' w', walk fuel s l w = Some (l', w') /\
    l <= l' <= l + Z.of_nat (String.length s) /\ w <= w'.
Proof.
  induction fuel as [|fuel IH]; intros s l w Hf; cbn [walk].
  - destruct s; [| cbn in Hf; lia]. cbn. eexists _, _. split; [done | lia].
  - destruct (String.eqb_spec s "") as [->|Hs]; [eexists _, _; split; [done | lia]|].
    pose proof (walkStep_spec s Hs) as H. destruct (walkStep s) as [[t dl] dw].
    destruct (IH t (l + dl) (w + dw)) as (l' & w' & E & ?); [lia|].
    exists l', w'. split; [done|]. lia.
Qed.

Lemma counts_bounds s : 0 <= fst (counts s) <= Z.of_nat (String.length s) /\ 0 <= snd (counts s).
Proof.
  unfold counts. destruct (walk_total (String.length s) s 0 0) as (l & w & -> & ?); [done|].
  cbn. lia.
Qed.

Lemma specificity_glob resource toolName :
  resource <> toolName ->
  10 * fst (counts resource) - 9 <= ResourceSpecificity resource toolName
    <= 10 * fst (counts resource).
Proof.
  intros Hne. unfold ResourceSpecificity. apply String.eqb_neq in Hne. rewrite Hne.
  pose proof (counts_bounds resource) as H. destruct (counts resource) as [l w]. cbn in *.
  unfold resourceSpecificityLiteralWeight, maxWildcardTiebreak, resourceSpecificityLiteralWeight.
  case_match; bools; lia.
Qed.

Lemma score_above_floor req c : NoMatchScore < score_of req c.
Proof.
  unfold score_of, resourceScoreWeight, NoMatchScore.
  destruct (decide (StripEnginePrefix (Target c) = snd (resolveRequestTarget req))) as [E|E].
  - unfold ResourceSpecificity. rewrite E, String.eqb_refl. unfold exactMatchSpecificity. lia.
  - pose proof (specificity_glob _ _ E). pose proof (counts_bounds (StripEnginePrefix (Target c))).
    lia.
Qed.

(** [i] beats or equals [j] in the selection order. *)
Definition wins (req : EnforceRequest) (i : nat) (ci : Constraint) (j : nat) (cj : Constraint)
    : Prop :=
  score_of req cj < score_of req ci \/
  score_of req cj = score_of req ci /\
    (HasPrincipal ci = true /\ HasPrincipal cj = false \/
     HasPrincipal ci = HasPrincipal cj /\ (i <= j)%nat).

(** What the scorer holds after the first [n] constraints. *)
Definition scored (req : EnforceRequest) (caps : list Constraint) (n : nat)
    (sc : ConstraintScorer) : Prop :=
  (sc = NewConstraintScorer /\
   forall j c, (j < n)%nat -> caps !! j = Some c -> governs req c = false) \/
  exists i c, best sc = Z.of_nat i /\ (i < n)%nat /\ caps !! i = Some c /\
    governs req c = true /\ bestScore sc = score_of req c /\ bestPrin sc = HasPrincipal c /\
    forall j cj, (j < n)%nat -> caps !! j = Some cj -> governs req cj = true ->
      wins req i c j cj.

Lemma wins_self req n c : wins req n c n c.
Proof. right. split; [done|]. by right. Qed.

(** A challenger that the scorer takes beats what the incumbent beat. *)
Lemma wins_take req i ci j cj n c :
  (score_of req ci <? score_of req c) ||
    ((score_of req c =? score_of req ci) && HasPrincipal c && negb (HasPrincipal ci)) = true ->
  wins req i ci j cj -> wins req n c j cj.
Proof.
  unfold wins. intros [E|E]%orb_true_iff Hw; bools.
  - left. destruct Hw as [|[? _]]; lia.
  - destruct Hw as [|[? [[? ?]|[? ?]]]]; [left; lia | congruence |].
    right. split; [lia|]. left. split; congruence.
Qed.

(** A later constraint that the scorer refuses loses to the incumbent. *)
Lemma wins_keep req i ci n c :
  (i <= n)%nat ->
  (score_of req ci <? score_of req c) ||
    ((score_of req c =? score_of req ci) && HasPrincipal c && negb (HasPrincipal ci)) = false ->
  wins req i ci n c.
Proof.
  unfold wins. intros Hi [E1 E2]%orb_false_iff. bools.
  destruct (Z.eq_dec (score_of req c) (score_of req ci)) as [Es|Es]; [| left; lia].
  right. split; [done|]. rewrite Es, Z.eqb_refl in E2. cbn in E2.
  destruct (HasPrincipal c), (HasPrincipal ci); try done; [right | by left | right];
    (split; [done | lia]).
Qed.

Lemma scored_skip req caps n sc c :
  scored req caps n sc -> caps !! n = Some c -> governs req c = false ->
  scored req caps (S n) sc.
Proof.
  intros Hs Hc Hg. destruct Hs as [[-> Hno]|(i & ci & Hb & Hi & Hci & Hgi & Hbs & Hbp & Hw)].
  - left. split; [done|]. intros j cj Hj Hcj. destruct (decide (j = n)) as [->|Hjn].
    + congruence.
    + apply (Hno j); [lia | done].
  - right. exists i, ci. repeat split; [done | lia | done | done | done | done |].
    intros j cj Hj Hcj Hgj. destruct (decide (j = n)) as [->|Hjn]; [congruence|].
    apply Hw; [lia | done..].
Qed.

Lemma scored_offer req caps n sc c :
  scored req caps n sc -> caps !! n = Some c -> governs req c = true ->
  scored req caps (S n) (Offer sc (Z.of_nat n) (score_of req c) (HasPrincipal c)).
Proof.
  intros Hs Hc Hg. right. unfold Offer.
  destruct Hs as [[-> Hno]|(i & ci & Hb & Hi & Hci & Hgi & Hbs & Hbp & Hw)].
  - exists n, c. pose proof (score_above_floor req c) as Hf.
    cbn [NewConstraintScorer bestScore]. apply Z.ltb_lt in Hf. rewrite Hf. cbn.
    repeat split; [lia | done | done |].
    intros j cj Hj Hcj Hgj. destruct (decide (j = n)) as [->|Hjn].
    + rewrite Hc in Hcj. injection Hcj as <-. apply wins_self.
    + rewrite (Hno j cj) in Hgj; [done | lia | done].
  - rewrite Hbs, Hbp. destruct (_ || _) eqn:E.
    + exists n, c. cbn. repeat split; [lia | done | done |].
      intros j cj Hj Hcj Hgj. destruct (decide (j = n)) as [->|Hjn].
      * rewrite Hc in Hcj. injection Hcj as <-. apply wins_self.
      * apply (wins_take req i ci); [done|]. apply Hw; [lia | done..].
    + exists i, ci. repeat split; [done | lia | done | done | done | done |].
      intros j cj Hj Hcj Hgj. destruct (decide (j = n)) as [->|Hjn]; [| apply Hw; [lia|done..]].
      rewrite Hc in Hcj. injection Hcj as <-. apply wins_keep; [lia | done].
Qed.

Lemma scan_scored req caps : forall rest n sc,
  scored req caps n sc -> drop n caps = rest ->
  scored req caps (List.length caps) (scan req (Z.of_nat n) rest sc).
Proof.
  induction rest as [|c rest IH]; intros n sc Hs Hd; cbn [scan].
  - assert (List.length caps <= n)%nat as Hle.
    { apply (f_equal List.length) in Hd. rewrite length_drop in Hd. cbn in Hd. lia. }
    destruct Hs as [[-> Hno]|(i & ci & Hb & Hi & Hci & Hr)].
    + left. split; [done|]. intros j cj Hj. apply Hno. lia.
    + right. exists i, ci. destruct Hr as (Hg & Hbs & Hbp & Hw).
      pose proof (lookup_lt_Some _ _ _ Hci). repeat split; try done.
      intros j cj Hj. apply Hw. lia.
  - assert (caps !! n = Some c) as Hc.
    { rewrite <- (Nat.add_0_r n), <- lookup_drop, Hd. done. }
    replace (Z.of_nat n + 1) with (Z.of_nat (S n)) by lia. apply IH.
    + destruct (governs req c) eqn:Hg; [by apply scored_offer | by eapply scored_skip].
    + replace (S n) with (n + 1)%nat by lia. rewrite <- drop_drop, Hd. done.
Qed.

Lemma select_scored req caps :
  match FindMatchingCapability (Some req) caps with
  | None => forall j c, caps !! j = Some c -> governs req c = false
  | Some c => exists i, caps !! i = Some c /\ governs req c = true /\
      forall j cj, caps !! j = Some cj -> governs req cj = true -> wins req i c j cj
  end.
Proof.
  unfold FindMatchingCapability.
  destruct (scan_scored req caps caps 0 NewConstraintScorer) as [[E Hno]|(i & c & Hb & Hi & Hc & Hr)].
  - left. split; [done|]. intros; lia.
  - done.
  - change (Z.of_nat 0) with 0 in E. rewrite E. cbn. intros j c Hj.
    apply (Hno j); [by eapply lookup_lt_Some | done].
  - change (Z.of_nat 0) with 0 in *. cbv zeta. rewrite Hb.
    destruct (Z.ltb_spec (Z.of_nat i) 0); [lia|]. rewrite Nat2Z.id, Hc.
    exists i. destruct Hr as (Hg & _ & _ & Hw). repeat split; [done..|].
    intros j cj Hj. apply Hw; [by eapply lookup_lt_Some | done].
Qed.

(** ** Properties *)

(** C34: Selection is sound, complete and optimal.  When no constraint is returned, none of
    the policy's constraints has the request's namespace, a pattern that matches its name,
    a permitted action and a satisfied principal.  When one is returned it is a constraint
    of the policy that has all four, and it wins against every other one that has them:
    higher specificity, then a principal-scoped entry over a general one, then the earlier
    declaration. *)
Theorem selection_optimal req caps :
  match FindMatchingCapability (Some req) caps with
  | None => forall c, c ∈ caps -> governs req c = false
  | Some c => exists i, caps !! i = Some c /\ governs req c = true /\
      forall j cj, caps !! j = Some cj -> governs req cj = true -> wins req i c j cj
  end.
Proof.
  pose proof (select_scored req caps) as H.
  destruct (FindMatchingCapability (Some req) caps); [done|].
  intros c [j Hj]%list_elem_of_lookup. by apply (H j).
Qed.

(** An entry that names the request's target exactly outranks every glob entry shorter
    than 13421772 bytes, so a catch-all never shadows the entry written for the target;
    and a score never leaves the range of the 64-bit int it is computed in for a pattern
    below 2^56 bytes. *)
Theorem exact_name_wins req c g :
  StripEnginePrefix (Target c) = snd (resolveRequestTarget req) ->
  StripEnginePrefix (Target g) <> snd (resolveRequestTarget req) ->
  (len (StripEnginePrefix (Target g)) <= 13421772 -> score_of req g < score_of req c) /\
  (len (StripEnginePrefix (Target g)) < 2 ^ 56 ->
   in_int64 (score_of req g) /\ in_int64 (score_of req c)).
Proof.
  intros Hc Hg. unfold score_of, resourceScoreWeight.
  pose proof (specificity_glob _ _ Hg) as H1.
  pose proof (counts_bounds (StripEnginePrefix (Target g))) as H2. unfold len.
  assert (ResourceSpecificity (StripEnginePrefix (Target c)) (snd (resolveRequestTarget req))
    = exactMatchSpecificity) as ->.
  { unfold ResourceSpecificity. by rewrite Hc, String.eqb_refl. }
  unfold exactMatchSpecificity, in_int64, min_int64, max_int64, two63. lia.
Qed.

Definition demo_req : EnforceRequest :=
  mkRequest "s1" "read_file" [] "" "" None {[ "sub" := VString "alice" ]} [] [].

Definition demo_entry (target : string) (principal : gmap string (list string)) : Constraint :=
  mkConstraint target ["call"] "" "" None principal None [] [].

Definition demo_caps : list Constraint :=
  [demo_entry "tool:*" ∅; demo_entry "resource:read_file" ∅; demo_entry "tool:read_*" ∅;
   demo_entry "tool:read_*" {[ "sub" := ["al*"] ]}; demo_entry "tool:read_*" {[ "sub" := ["bob"] ]}].

(** The principal-scoped twin of the most specific glob is selected. *)
Lemma demo_selected :
  FindMatchingCapability (Some demo_req) demo_caps = demo_caps !! 3%nat.
Proof. vm_compute. reflexivity. Qed.

Lemma exact_name_wins_witness :
  score_of demo_req (demo_entry "tool:read_*" ∅) < score_of demo_req (demo_entry "read_file" ∅).
Proof.
  apply (exact_name_wins demo_req (demo_entry "read_file" ∅) (demo_entry "tool:read_*" ∅));
    vm_compute; congruence.
Defined.

End Selection.
