(* ===== verification/Anchor.v ===== *)
(** * State anchors

    pkg/enforcement/anchor.go and the key builders of flowlabel.go: the identity a
    request's accumulated state (flow labels, sequence history, quota budgets) accrues to,
    and the keys that state is stored under. *)
From stdpp Require Import base tactics list gmap strings.
From Stdlib Require Import ZArith Lia Ascii String.
From S2P Require Import Prelude GoStrings CompositeKey Capability.
#[local] Open Scope string_scope.
Import CompositeKey Capability.

Module Anchor.

Inductive AnchorKind := AnchorKindSession | AnchorKindTask.

#[global] Instance AnchorKind_eq_dec : EqDecision AnchorKind.
Proof. solve_decision. Defined.

Definition kind_string (k : AnchorKind) : string :=
  match k with AnchorKindSession => "session" | AnchorKindTask => "task" end.

Record StateAnchor := mkAnchor { Kind : AnchorKind; ID : string }.

Definition ResolveStateAnchor (taskAnchored hasTask : bool) (taskID sessionID : string)
    : StateAnchor :=
  if taskAnchored && hasTask then mkAnchor AnchorKindTask taskID
  else mkAnchor AnchorKindSession sessionID.

(** [StateAnchor.Key]: the kind and the id around a NUL. *)
Definition AnchorKey (a : StateAnchor) : string := kind_string (Kind a) ++ String zero (ID a).

(** The fields of the engine that anchoring reads. *)
Record anchoring := mkAnchoring { taskAnchored : bool; counterKeyNamespace : string }.

Definition resolveAnchor (e : anchoring) (req : option EnforceRequest) : StateAnchor :=
  match req with
  | None => ResolveStateAnchor false false "" ""
  | Some req =>
      let '(id, hasTask) :=
        if taskAnchored e then
          match ResolveTaskVar TaskVarID (Claims req) with
          | Some id => (id, true)
          | None => ("", false)
          end
        else ("", false) in
      ResolveStateAnchor (taskAnchored e) hasTask id (SessionID req)
  end.

Definition appendStateAnchor (e : anchoring) (dst : list string) (req : EnforceRequest)
    : list string :=
  let anchor := resolveAnchor e (Some req) in
  match Kind anchor with
  | AnchorKindTask => (dst ++ [kind_string (Kind anchor); ID anchor])%list
  | AnchorKindSession => (dst ++ [ID anchor])%list
  end.

Definition anchoredOnTask (e : anchoring) (req : EnforceRequest) : bool :=
  bool_decide (Kind (resolveAnchor e (Some req)) = AnchorKindTask).

Definition anchorUnresolved (e : anchoring) (req : option EnforceRequest) : bool :=
  match req with
  | None => false
  | Some req =>
      if negb (taskAnchored e) || bool_decide (Claims req = ∅) then false
      else bool_decide (ResolveTaskVar TaskVarID (Claims req) = None)
  end.

Definition anchoredKey (e : anchoring) (prefix : string) (req : EnforceRequest)
    (tail : list string) : string :=
  let head := appendStateAnchor e [counterKeyNamespace e] req in
  CompositeKeyJoin prefix head tail.

Definition sequenceHistoryNamespace := "seq".

Definition sequenceHistoryKey (e : anchoring) (req : EnforceRequest) (targetType target : string)
    : string :=
  anchoredKey e sequenceHistoryNamespace req [targetType; target].

Definition flowKey (e : anchoring) (req : EnforceRequest) : string := anchoredKey e "flow" req [].

Definition flowSessionKey (e : anchoring) (sessionID : string) : string :=
  CompositeKey "flow" [counterKeyNamespace e; sessionID].

(** ** Lemmas *)

Lemma ResolveTaskVar_nonempty name claims s : ResolveTaskVar name claims = Some s -> s <> "".
Proof.
  unfold ResolveTaskVar. intros H. repeat case_match; simplify_eq. by intros ->.
Qed.

Lemma resolveAnchor_cases e req :
  (taskAnchored e = true /\ exists id, ResolveTaskVar TaskVarID (Claims req) = Some id /\
     resolveAnchor e (Some req) = mkAnchor AnchorKindTask id) \/
  (resolveAnchor e (Some req) = mkAnchor AnchorKindSession (SessionID req) /\
   (taskAnchored e = false \/ ResolveTaskVar TaskVarID (Claims req) = None)).
Proof.
  unfold resolveAnchor, ResolveStateAnchor. destruct (taskAnchored e); cbn [andb]; [| by right; auto].
  destruct (ResolveTaskVar TaskVarID (Claims req)) as [id|] eqn:E; [left | right].
  - split; [done|]. by exists id.
  - auto.
Qed.

(** The parts of a key, and that they determine the anchor. *)
Definition anchor_parts (a : StateAnchor) : list string :=
  match Kind a with
  | AnchorKindTask => [kind_string (Kind a); ID a]
  | AnchorKindSession => [ID a]
  end.

Lemma anchoredKey_parts e prefix req tail :
  anchoredKey e prefix req tail =
  CompositeKeyJoin prefix
    (counterKeyNamespace e :: anchor_parts (resolveAnchor e (Some req)))%list tail.
Proof.
  unfold anchoredKey, appendStateAnchor, anchor_parts. cbv zeta.
  by destruct (Kind (resolveAnchor e (Some req))).
Qed.

Lemma anchor_parts_inj a1 a2 t1 t2 :
  List.length t1 = List.length t2 ->
  (anchor_parts a1 ++ t1 = anchor_parts a2 ++ t2)%list -> a1 = a2 /\ t1 = t2.
Proof.
  intros Hl H. destruct a1 as [[|] i1], a2 as [[|] i2]; unfold anchor_parts in H;
    cbn [Kind ID kind_string app] in H.
  - by injection H as -> ->.
  - exfalso. injection H as _ ->. cbn in Hl. lia.
  - exfalso. injection H as _ <-. cbn in Hl. lia.
  - by injection H as -> ->.
Qed.

Lemma flowSessionKey_session e req :
  anchoredOnTask e req = false -> flowSessionKey e (SessionID req) = flowKey e req.
Proof.
  unfold anchoredOnTask, flowKey. rewrite anchoredKey_parts.
  destruct (resolveAnchor_cases e req) as [(_ & id & _ & ->)|[-> _]]; [done|]. done.
Qed.

(** ** Properties *)

(** C33: State keys cannot collide across what they stand for.  Two keys with tails of equal
    length (as all keys of one namespace have) and colon-free namespaces are equal only
    when the namespace, the route, the anchor (its kind and its id) and the tail are: a
    session id chosen to look like a task key, a route name or a tool name never reaches
    another subject's labels, history or budget. *)
Theorem state_keys_disjoint e1 e2 p1 p2 req1 req2 t1 t2 :
  contains_char ":" p1 = false -> contains_char ":" p2 = false ->
  List.length t1 = List.length t2 ->
  anchoredKey e1 p1 req1 t1 = anchoredKey e2 p2 req2 t2 ->
  p1 = p2 /\ counterKeyNamespace e1 = counterKeyNamespace e2 /\
  resolveAnchor e1 (Some req1) = resolveAnchor e2 (Some req2) /\ t1 = t2.
Proof.
  intros H1 H2 Hl H. rewrite !anchoredKey_parts in H.
  apply composite_inj in H as [-> H]; [| done..].
  cbn [app] in H. injection H as Hns H. by apply anchor_parts_inj in H as [Ha ->].
Qed.

Definition demo_anchored : anchoring := mkAnchoring true "route".
Definition demo_session (sid : string) : EnforceRequest :=
  mkRequest sid "t" [] "" "" None ∅ [] [].
Definition demo_task (task : string) : EnforceRequest :=
  mkRequest "s1" "t" [] "" "" None {[ "task_id" := VString task ]} [] [].

(** A session named like the length-prefixed task form does not forge the task's key. *)
Lemma state_keys_disjoint_witness :
  flowKey demo_anchored (demo_session "task:2:t7") <> flowKey demo_anchored (demo_task "t7").
Proof.
  intros H. unfold flowKey in H.
  apply (state_keys_disjoint demo_anchored demo_anchored "flow" "flow") in H;
    [| reflexivity | reflexivity | reflexivity].
  destruct H as (_ & _ & H & _). vm_compute in H. discriminate H.
Defined.

(** Under task anchoring a caller's state is never split across two buckets: a request
    that carries claims and is not refused as unanchorable is keyed on a non-empty task
    id, and two such requests share an anchor exactly when they carry the same task id,
    whatever their sessions; a request without claims is keyed on its session. *)
Theorem authenticated_never_split e req1 req2 :
  taskAnchored e = true ->
  anchorUnresolved e (Some req1) = false -> anchorUnresolved e (Some req2) = false ->
  (Claims req1 = ∅ -> resolveAnchor e (Some req1) = mkAnchor AnchorKindSession (SessionID req1)) /\
  (Claims req1 <> ∅ -> exists id, id <> "" /\
     ResolveTaskVar TaskVarID (Claims req1) = Some id /\
     resolveAnchor e (Some req1) = mkAnchor AnchorKindTask id) /\
  (Claims req1 <> ∅ -> Claims req2 <> ∅ ->
     resolveAnchor e (Some req1) = resolveAnchor e (Some req2) <->
     ResolveTaskVar TaskVarID (Claims req1) = ResolveTaskVar TaskVarID (Claims req2)).
Proof.
  intros Ht.
  assert (forall req, anchorUnresolved e (Some req) = false ->
    (Claims req = ∅ -> resolveAnchor e (Some req) = mkAnchor AnchorKindSession (SessionID req)) /\
    (Claims req <> ∅ -> exists id, id <> "" /\
      ResolveTaskVar TaskVarID (Claims req) = Some id /\
      resolveAnchor e (Some req) = mkAnchor AnchorKindTask id)) as Hone.
  { intros req Hu. unfold anchorUnresolved in Hu. rewrite Ht in Hu. cbn [negb orb] in Hu.
    destruct (resolveAnchor_cases e req) as [(_ & id & Er & ->)|[-> Hno]]; split; intros Hc.
    - rewrite Hc in Er. by vm_compute in Er.
    - exists id. by eauto using ResolveTaskVar_nonempty.
    - done.
    - rewrite (bool_decide_false _ Hc) in Hu. bools. destruct Hno; [congruence | done]. }
  intros H1 H2. destruct (Hone req1 H1) as [A1 B1]. destruct (Hone req2 H2) as [_ B2].
  split; [done|]. split; [done|]. intros C1 C2.
  destruct (B1 C1) as (i1 & _ & -> & ->), (B2 C2) as (i2 & _ & -> & ->).
  split; intros E; by simplify_eq.
Qed.

Lemma authenticated_never_split_witness :
  resolveAnchor demo_anchored (Some (demo_task "t7")) = mkAnchor AnchorKindTask "t7".
Proof.
  destruct (authenticated_never_split demo_anchored (demo_task "t7") (demo_task "t7"))
    as (_ & H & _); [reflexivity | vm_compute; reflexivity | vm_compute; reflexivity |].
  destruct H as (id & _ & E & ->); [vm_compute; congruence|].
  vm_compute in E. injection E as <-. reflexivity.
Defined.

End Anchor.
