(* ===== verification/Backends.v ===== *)
(** * The engine's backends

    The two interfaces the enforcement engine calls, capability.CallCounter and
    capability.FlowLabelStore (pkg/capability/enforce.go), as type classes: the operations
    as state transformers, and the laws a client of them may use.  The in-memory backends
    of CallCounter.v and FlowLabelStore.v, read at the instant their clock shows, are
    instances that satisfy the laws.

    The engine acts on a [World]: the two backends and the trace of the calls made to them,
    newest first. *)
From stdpp Require Import base tactics list gmap strings fin_maps fin_sets.
From Stdlib Require Import ZArith Lia String.
From S2P Require Import Prelude GoStrings CompositeKey CallCounter FlowLabelStore.
#[local] Open Scope Z_scope.
Import CompositeKey.

Module Backends.

(** ** Interfaces *)

Class CallCounterBackend (C : Type) := {
  counter_IncrementAndGet : C -> string -> Z -> Z -> result Z string * C;
  counter_Peek : C -> string -> Z -> result Z string * C;
  counter_AdmitAll :
    C -> list CallCounter.QuotaBucket -> result CallCounter.AdmitResult string * C;
}.

Class FlowStoreBackend (F : Type) := {
  store_Add : F -> string -> list string -> option string * F;
  store_Get : F -> string -> result (list string) string * F;
  store_Remove : F -> string -> list string -> option string * F;
  store_Clear : F -> string -> option string * F;
}.

(** What the sequence history relies on: a recorded call is seen by a later Peek of the
    same key and window, and recording or looking up others does not erase it. *)
Class CallCounterLaws (C : Type) `{CallCounterBackend C} := {
  marked : C -> string -> Z -> Prop;
  incr_marks c k w m n c' :
    counter_IncrementAndGet c k w m = (Ok n, c') -> marked c' k w;
  incr_keeps c k w m k' w' :
    marked c k' w' -> marked (counter_IncrementAndGet c k w m).2 k' w';
  peek_marked c k w n c' :
    counter_Peek c k w = (Ok n, c') -> (0 < n <-> marked c k w);
  peek_keeps c k w k' w' : marked c k' w' -> marked (counter_Peek c k w).2 k' w';
}.

(** What flow control relies on: a reader of a key sees the labels added under it, reading
    changes nothing, and no operation on a key changes another. *)
Class FlowStoreLaws (F : Type) `{FlowStoreBackend F} := {
  store_ok : F -> Prop;
  taint : F -> string -> gset string;
  add_ok f k ls : store_ok f -> store_ok (store_Add f k ls).2;
  get_ok f k : store_ok f -> store_ok (store_Get f k).2;
  remove_ok f k ls : store_ok f -> store_ok (store_Remove f k ls).2;
  get_reads f k ls f' :
    store_ok f -> store_Get f k = (Ok ls, f') -> forall l, l ∈ ls <-> l ∈ taint f k;
  get_keeps f k k' : store_ok f -> taint (store_Get f k).2 k' = taint f k';
  add_taints f k ls f' :
    store_ok f -> store_Add f k ls = (None, f') -> taint f' k = taint f k ∪ list_to_set ls;
  add_fails f k ls e f' :
    store_ok f -> store_Add f k ls = (Some e, f') -> taint f' k = taint f k;
  add_other f k ls k' : store_ok f -> k' <> k -> taint (store_Add f k ls).2 k' = taint f k';
  remove_clears f k ls f' :
    store_ok f -> store_Remove f k ls = (None, f') -> taint f' k = taint f k ∖ list_to_set ls;
  remove_other f k ls k' :
    store_ok f -> k' <> k -> taint (store_Remove f k ls).2 k' = taint f k';
}.

(** ** The world and its trace *)

Inductive event :=
| EvIncrement (key : string) (windowSec maxEntries : Z)
| EvPeek (key : string) (windowSec : Z)
| EvAdmitAll (buckets : list CallCounter.QuotaBucket)
| EvAdd (key : string) (labels : list string)
| EvGet (key : string)
| EvRemove (key : string) (labels : list string)
| EvClear (key : string).

Record World (C F : Type) := mkWorld { w_counter : C; w_flow : F; w_trace : list event }.
Arguments mkWorld {C F} _ _ _.
Arguments w_counter {C F} _.
Arguments w_flow {C F} _.
Arguments w_trace {C F} _.

(** Computations that read and change the world. *)
Definition M (C F A : Type) : Type := World C F -> A * World C F.

Definition ret {C F A} (a : A) : M C F A := fun w => (a, w).
Definition bind {C F A B} (m : M C F A) (k : A -> M C F B) : M C F B :=
  fun w => let '(a, w') := m w in k a w'.

Notation "'let!' x ':=' m 'in' k" := (bind m (fun x => k))
  (at level 10, x binder, m at level 100, k at level 200) : go_scope.

Section ops.
Context {C F : Type} `{CallCounterBackend C} `{FlowStoreBackend F}.

Definition on_counter {A} (ev : event) (op : C -> A * C) : M C F A :=
  fun w => let '(a, c) := op (w_counter w) in (a, mkWorld c (w_flow w) (ev :: w_trace w)).
Definition on_flow {A} (ev : event) (op : F -> A * F) : M C F A :=
  fun w => let '(a, f) := op (w_flow w) in (a, mkWorld (w_counter w) f (ev :: w_trace w)).

Definition ctr_IncrementAndGet (key : string) (windowSec maxEntries : Z) : M C F (result Z string) :=
  on_counter (EvIncrement key windowSec maxEntries)
    (fun c => counter_IncrementAndGet c key windowSec maxEntries).
Definition ctr_Peek (key : string) (windowSec : Z) : M C F (result Z string) :=
  on_counter (EvPeek key windowSec) (fun c => counter_Peek c key windowSec).
Definition ctr_AdmitAll (buckets : list CallCounter.QuotaBucket)
    : M C F (result CallCounter.AdmitResult string) :=
  on_counter (EvAdmitAll buckets) (fun c => counter_AdmitAll c buckets).
Definition flow_Add (key : string) (labels : list string) : M C F (option string) :=
  on_flow (EvAdd key labels) (fun f => store_Add f key labels).
Definition flow_Get (key : string) : M C F (result (list string) string) :=
  on_flow (EvGet key) (fun f => store_Get f key).
Definition flow_Remove (key : string) (labels : list string) : M C F (option string) :=
  on_flow (EvRemove key labels) (fun f => store_Remove f key labels).
Definition flow_Clear (key : string) : M C F (option string) :=
  on_flow (EvClear key) (fun f => store_Clear f key).

End ops.

(** ** The in-memory backends as instances

    A store together with the reading of its clock. *)
Record Timed (S : Type) := mkTimed { now : time; store : S }.
Arguments mkTimed {S} _ _.
Arguments now {S} _.
Arguments store {S} _.

Definition put_store {S A E} (t : time) (p : S * result A E) (text : E -> string)
    : result A string * Timed S :=
  (match p.2 with Ok a => Ok a | Err e => Err (text e) end, mkTimed t p.1).

Section instances.

(** The texts of the errors, which no decision depends on. *)
Context (counter_text : CallCounter.error -> string) (store_text : FlowLabelStore.error -> string).

#[local] Instance memory_counter : CallCounterBackend (Timed CallCounter.InMemory) := {|
  counter_IncrementAndGet c k w m :=
    put_store (now c) (CallCounter.IncrementAndGet (now c) (store c) k w m) counter_text;
  counter_Peek c k w :=
    put_store (now c) (store c, CallCounter.Peek (now c) (store c) k w) counter_text;
  counter_AdmitAll c bs :=
    put_store (now c) (CallCounter.AdmitAll (now c) (store c) bs) counter_text;
|}.

#[local] Instance memory_store : FlowStoreBackend (Timed FlowLabelStore.InMemory) := {|
  store_Add f k ls :=
    let '(m, e) := FlowLabelStore.Add (now f) (store f) k ls in
    (store_text <$> e, mkTimed (now f) m);
  store_Get f k :=
    let '(m, ls) := FlowLabelStore.Get (now f) (store f) k in (Ok ls, mkTimed (now f) m);
  store_Remove f k ls := (None, mkTimed (now f) (FlowLabelStore.Remove (now f) (store f) k ls));
  store_Clear f k := (None, mkTimed (now f) (FlowLabelStore.Clear (store f) k));
|}.

(** *** The counter's laws *)

Definition memory_marked (c : Timed CallCounter.InMemory) (k : string) (w : Z) : Prop :=
  exists n, CallCounter.Peek (now c) (store c) k w = Ok n /\ 0 < n.

Lemma Peek_entries t m m' k w :
  CallCounter.entries m' !! storageKey k w = CallCounter.entries m !! storageKey k w ->
  CallCounter.Peek t m' k w = CallCounter.Peek t m k w.
Proof. intros E. unfold CallCounter.Peek. by rewrite E. Qed.

Lemma increment_marks t m m' k w mx n :
  CallCounter.IncrementAndGet t m k w mx = (m', Ok n) -> memory_marked (mkTimed t m') k w.
Proof.
  intros E. assert (CallCounter.checkWindowSec w = None) as Hw.
  { unfold CallCounter.IncrementAndGet in E. by destruct (CallCounter.checkWindowSec w). }
  destruct (CallCounter.window_exact w Hw) as (_ & Hs & _). unfold second in Hs.
  destruct (CallCounter.increment_visible t t m m' k w mx n) as (_ & c & Hp & Hc); [done | unfold second; lia |].
  exists c. split; [done | lia].
Qed.

(** A failing IncrementAndGet changes nothing; a successful one changes one entry. *)
Lemma increment_frame t m k w mx :
  match CallCounter.IncrementAndGet t m k w mx with
  | (m', Err _) => m' = m
  | (m', Ok _) => forall sk, sk <> storageKey k w ->
      CallCounter.entries m' !! sk = CallCounter.entries m !! sk
  end.
Proof.
  unfold CallCounter.IncrementAndGet. repeat case_match; simplify_eq; try done.
  all: intros sk Hsk; cbn [CallCounter.entries CallCounter.set_entries]; by rewrite lookup_insert_ne.
Qed.

Lemma increment_keeps t m k w mx k' w' :
  memory_marked (mkTimed t m) k' w' ->
  memory_marked (mkTimed t (CallCounter.IncrementAndGet t m k w mx).1) k' w'.
Proof.
  intros Hm. pose proof (increment_frame t m k w mx) as Hf.
  destruct (CallCounter.IncrementAndGet t m k w mx) as [m' [n|e]] eqn:E; cbn [fst];
    [| by subst m'].
  destruct (decide (storageKey k' w' = storageKey k w)) as [Ek|Ek].
  - apply storageKey_inj in Ek as [-> ->]. by eapply increment_marks.
  - destruct Hm as (c & Hp & Hc). exists c. split; [| done]. cbn [now store] in *.
    rewrite <- Hp. apply Peek_entries, Hf, Ek.
Qed.

#[local] Instance memory_counter_laws : CallCounterLaws (Timed CallCounter.InMemory).
Proof.
  refine {| marked := memory_marked |}.
  - intros [t m] k w mx n c' E. cbn in E. unfold put_store in E.
    destruct (CallCounter.IncrementAndGet t m k w mx) as [m' [x|e]] eqn:E'; cbn in E; simplify_eq.
    by eapply increment_marks.
  - intros [t m] k w mx k' w' Hm. cbn. by apply increment_keeps.
  - intros [t m] k w n c' E. cbn in E. unfold put_store in E. cbn in E. unfold memory_marked.
    cbn [now store]. destruct (CallCounter.Peek t m k w) as [x|e]; simplify_eq.
    split; [by eauto | by intros (? & [= <-] & ?)].
  - intros [t m] k w k' w' Hm. exact Hm.
Defined.

(** *** The label store's laws *)

Definition memory_ok (f : Timed FlowLabelStore.InMemory) : Prop :=
  in_int64 (now f) /\ in_int64 (FlowLabelStore.ttl (store f)).

Definition memory_taint (f : Timed FlowLabelStore.InMemory) (k : string) : gset string :=
  FlowLabelStore.taint (now f) (store f) k.

Import FlowLabelStore.

Lemma fresh_live m m' k s t :
  in_int64 (ttl m) -> same_config m m' -> sets m' !! k = Some (mkSet s t) ->
  live m' k t = Some (mkSet s t).
Proof.
  intros Hr Hc Hk. unfold live. rewrite Hk, (effectiveTTL_config _ _ Hc).
  pose proof (effectiveTTL_range m Hr). unfold idleFor. cbn [touched].
  destruct (Z.ltb_spec 0 (effectiveTTL m)); cbn [andb]; [| done].
  destruct (Z.leb_spec (effectiveTTL m) (time_sub t t)) as [Hi|]; [| done].
  rewrite time_sub_ge in Hi by lia. lia.
Qed.

Lemma taint_Get t m k k' :
  in_int64 t -> in_int64 (ttl m) ->
  FlowLabelStore.taint t (FlowLabelStore.Get t m k).1 k' = FlowLabelStore.taint t m k'.
Proof.
  intros Ht Hr. unfold FlowLabelStore.Get. destruct (live m k t) as [s|] eqn:Hl; [| done].
  cbn [fst]. unfold FlowLabelStore.taint. destruct (decide (k' = k)) as [->|Hne].
  - unfold unix_nano. rewrite wrap_int64_id by done.
    rewrite (fresh_live m (put m k (mkSet (labels s) t)) k (labels s) t), Hl; [done | done | done |].
    cbn [put sets set_sets]. by rewrite lookup_insert_eq.
  - rewrite (live_frame m); [done | done |]. cbn [put sets set_sets]. by rewrite lookup_insert_ne.
Qed.

Lemma taint_Add t m k ls m' :
  in_int64 t -> in_int64 (ttl m) -> FlowLabelStore.Add t m k ls = (m', None) ->
  FlowLabelStore.taint t m' k = FlowLabelStore.taint t m k ∪ list_to_set ls.
Proof.
  intros Ht Hr HA. destruct ls as [|l ls].
  { cbn in HA. injection HA as <-. by rewrite list_to_set_nil, union_empty_r_L. }
  pose proof (effectiveTTL_range m Hr).
  unfold FlowLabelStore.taint at 1. rewrite (Add_self t m k (l :: ls) t m') by (done || lia).
  cbn [from_option labels]. by rewrite (comm_L (∪)).
Qed.

Lemma taint_Add_fails t m k ls e m' :
  FlowLabelStore.Add t m k ls = (m', Some e) ->
  FlowLabelStore.taint t m' k = FlowLabelStore.taint t m k.
Proof.
  intros HA. destruct ls as [|l ls]; [done|]. unfold FlowLabelStore.taint.
  destruct (live m k t) as [s|] eqn:Hl.
  { unfold FlowLabelStore.Add in HA. by rewrite Hl in HA. }
  pose proof (Add_new_shape t m k l ls Hl) as H. rewrite HA in H. destruct H as [_ Hsub].
  unfold live at 1. destruct (sets m' !! k) as [s|] eqn:Hk; [| done].
  eapply lookup_weaken in Hk; [| exact Hsub]. by rewrite lookup_delete_eq in Hk.
Qed.

Lemma taint_Add_other t m k ls k' :
  in_int64 (ttl m) -> k' <> k ->
  FlowLabelStore.taint t (FlowLabelStore.Add t m k ls).1 k' = FlowLabelStore.taint t m k'.
Proof.
  intros Hr Hne. unfold FlowLabelStore.taint.
  by rewrite (kept_live m _ k' t t Hr (Add_config t m k ls) (Add_other t m k ls k' Hne)).
Qed.

Lemma taint_Remove t m k ls :
  FlowLabelStore.taint t (FlowLabelStore.Remove t m k ls) k
  = FlowLabelStore.taint t m k ∖ list_to_set ls.
Proof.
  destruct ls as [|l ls]; [by rewrite list_to_set_nil, difference_empty_L|].
  unfold FlowLabelStore.Remove, FlowLabelStore.taint.
  assert (forall m0, live (set_sets m0 (delete k (sets m0))) k t = None) as Hdel.
  { intros m0. unfold live. cbn [sets set_sets]. by rewrite lookup_delete_eq. }
  destruct (live m k t) as [s|] eqn:Hl.
  2:{ rewrite Hdel. cbn [from_option]. by rewrite difference_empty_l_L || set_solver. }
  cbn [from_option]. destruct (Nat.eqb_spec (size (labels s ∖ list_to_set (l :: ls))) 0) as [E|E].
  - apply size_empty_inv in E. fold_leibniz. rewrite Hdel. cbn [from_option]. by rewrite E.
  - pose proof (live_in m k t s Hl) as Hk. revert Hl. unfold live, idleFor.
    cbn [put sets set_sets]. rewrite lookup_insert_eq, Hk. cbn [touched].
    unfold effectiveTTL. cbn [put ttl set_sets]. by case_match.
Qed.

Lemma taint_Remove_other t m k ls k' :
  k' <> k ->
  FlowLabelStore.taint t (FlowLabelStore.Remove t m k ls) k' = FlowLabelStore.taint t m k'.
Proof.
  intros Hne. unfold FlowLabelStore.Remove, FlowLabelStore.taint. f_equal.
  repeat case_match; try done; (apply live_frame; [done|]); cbn [put sets set_sets].
  all: by rewrite ?lookup_insert_ne, ?lookup_delete_ne.
Qed.

Lemma Remove_config t m k ls : ttl (FlowLabelStore.Remove t m k ls) = ttl m.
Proof. unfold FlowLabelStore.Remove. by repeat case_match. Qed.

#[local] Instance memory_store_laws : FlowStoreLaws (Timed FlowLabelStore.InMemory).
Proof.
  refine (Build_FlowStoreLaws _ _ memory_ok memory_taint _ _ _ _ _ _ _ _ _ _).
  - intros [t m] k ls [Ht Hr]. cbn. destruct (Add_config t m k ls) as [_ Hc].
    destruct (FlowLabelStore.Add t m k ls) as [m' e]. split; [done|]. cbn in *. by rewrite Hc.
  - intros [t m] k [Ht Hr]. cbn. unfold FlowLabelStore.Get. by destruct (live m k t).
  - intros [t m] k ls [Ht Hr]. split; [done|]. cbn. by rewrite Remove_config.
  - intros [t m] k ls f' [Ht Hr] E l. cbn in E. rewrite <- (Get_taint t m k l).
    destruct (FlowLabelStore.Get t m k) as [m' ls']. by simplify_eq.
  - intros [t m] k k' [Ht Hr]. cbn. pose proof (taint_Get t m k k' Ht Hr) as HG.
    by destruct (FlowLabelStore.Get t m k).
  - intros [t m] k ls f' [Ht Hr] E. cbn in E.
    destruct (FlowLabelStore.Add t m k ls) as [m' [e|]] eqn:EA; simplify_eq. by apply taint_Add.
  - intros [t m] k ls e f' [Ht Hr] E. cbn in E.
    destruct (FlowLabelStore.Add t m k ls) as [m' [e'|]] eqn:EA; simplify_eq.
    by eapply taint_Add_fails.
  - intros [t m] k ls k' [Ht Hr] Hne. cbn.
    pose proof (taint_Add_other t m k ls k' Hr Hne). by destruct (FlowLabelStore.Add t m k ls).
  - intros [t m] k ls f' _ E. cbn in E. simplify_eq. apply taint_Remove.
  - intros [t m] k ls k' _ Hne. by apply taint_Remove_other.
Defined.

End instances.

End Backends.
