(* ===== verification/Engine.v ===== *)
(** * The enforcement engine

    pkg/enforcement/engine.go from the selected constraint to the response, with the
    consequence ceiling (effect.go) and the flow-control writes (flowlabel.go): pure
    conditions, the ceiling, the atomic commit of the quota-consuming conditions, and the
    commit of the call's labels and history marker, in that order.

    Registered handlers are arbitrary computations on the world, as they are in the code.
    Request ids and the decision's timestamp are inputs.  Leaf computations that the engine
    calls and that no branch of it looks into are the operations of [Leaf]; the theorems
    hold for all of them. *)
From stdpp Require Import base tactics list gmap strings.
From Stdlib Require Import ZArith Lia Ascii String QArith_base.
From S2P Require Import Prelude GoStrings Float64 CompositeKey CallCounter Capability Selection.
From S2P Require Import Anchor Backends.
#[local] Open Scope string_scope.
#[local] Open Scope go_scope.
Import Capability Selection Anchor Backends.

Module Engine.

(** Computations of pkg/capability and pkg/enforcement that the engine only calls: the
    bound on echoed details (denial_details.go), argument validation (schema.go), the
    reduction of an effect contract (effect.go) and the reading and printing of its
    numbers. *)
Class Leaf := {
  BoundDenialDetails : details -> details;
  ValidateArgumentSchema : list (string * value) -> ArgumentSchema -> option string;
  ResolveEffect : option EffectContract -> list (string * value) -> ResolvedEffect;
  parseBoundedNumber : string -> option Q;
  magnitudeText : Q -> string;
}.

(** ** Context values *)

Record Ctx := mkCtx {
  ctxRequestID : string;
  ctxTimestamp : string;
  ctxDirectives : option (list dir_iface);
  ctxCarriedLabels : option (list string);
  ctxSkipQuota : bool;
  ctxResolvedEffect : option ResolvedEffect;
}.

Definition withRequest (ctx : Ctx) (requestID now : string) : Ctx :=
  mkCtx requestID now (ctxDirectives ctx) (ctxCarriedLabels ctx) (ctxSkipQuota ctx)
    (ctxResolvedEffect ctx).
Definition withDirectives (ctx : Ctx) (dirs : list dir_iface) : Ctx :=
  mkCtx (ctxRequestID ctx) (ctxTimestamp ctx) (Some dirs) (ctxCarriedLabels ctx)
    (ctxSkipQuota ctx) (ctxResolvedEffect ctx).
Definition withCarriedLabels (ctx : Ctx) (labels : list string) : Ctx :=
  mkCtx (ctxRequestID ctx) (ctxTimestamp ctx) (ctxDirectives ctx) (Some labels)
    (ctxSkipQuota ctx) (ctxResolvedEffect ctx).
Definition withResolvedEffect (ctx : Ctx) (eff : ResolvedEffect) : Ctx :=
  mkCtx (ctxRequestID ctx) (ctxTimestamp ctx) (ctxDirectives ctx) (ctxCarriedLabels ctx)
    (ctxSkipQuota ctx) (Some eff).
Definition WithSkipQuota (ctx : Ctx) : Ctx :=
  mkCtx (ctxRequestID ctx) (ctxTimestamp ctx) (ctxDirectives ctx) (ctxCarriedLabels ctx)
    true (ctxResolvedEffect ctx).

Definition SkipQuota (ctx : Ctx) : bool := ctxSkipQuota ctx.

Definition WillForwardDeny (ctx : Ctx) (matched : option Constraint) : bool :=
  match matched with
  | Some c => if IsAuditOnly c then true else SkipQuota ctx
  | None => SkipQuota ctx
  end.

(** ** Refusals *)

Record ConditionError := mkConditionError {
  ce_Code : string;
  ce_ConditionType : string;
  ce_Message : message;
  ce_BlockOverride : bool;
  ce_Details : details;
}.

Definition conditionFault (condType : string) (msg : message) (dets : details) : ConditionError :=
  mkConditionError ErrCodeEnforcementError condType msg false dets.

Definition ce_Downgradable (e : option ConditionError) : bool :=
  match e with
  | None => false
  | Some e => Downgradable (Some (mkDenial (ce_Code e) "" (Msg "") (ce_BlockOverride e) []))
  end.

Section responses.
Context `{Leaf}.

Definition bound_denial (d : DenialInfo) : DenialInfo :=
  mkDenial (Code d) (ConditionType_ d) (Message d) (BlockOverride d)
    (BoundDenialDetails (Details d)).

Definition denyResponse (requestID now : string) (auditOnly : bool)
    (obligations : list Obligation) (denial : DenialInfo) : EnforceResponse :=
  mkResponse requestID DecisionDeny auditOnly obligations (Some (bound_denial denial)) now
    [] [] None [].

Definition escalateResponse (requestID now : string) (denial : DenialInfo) : EnforceResponse :=
  let denial := bound_denial denial in
  let denial := mkDenial (Code denial) (ConditionType_ denial) (Message denial) true
                  (Details denial) in
  mkResponse requestID DecisionEscalate false [] (Some denial) now [] [] None [].

Definition nilSeamRefusal (seam what : string) : message :=
  Msgf "%s: called with %s; refusing rather than evaluating an incomplete decision" [seam; what].

Definition nilSeamDenial (seam what requestID now : string) : EnforceResponse :=
  denyResponse requestID now false []
    (mkDenial ErrCodeEnforcementError "" (nilSeamRefusal seam what) false []).

Definition nilRequestDenial (seam : string) : EnforceResponse :=
  nilSeamDenial seam "a nil request or constraint" "" "".

(** One decision's identity.  The constraint is the one selected, never nil on this path. *)
Record evalCtx := mkEvalCtx {
  req : EnforceRequest;
  matched : Constraint;
  requestID : string;
  now : string;
}.

Definition auditOnly (ec : evalCtx) : bool := IsAuditOnly (matched ec).

Definition deny (ec : evalCtx) (obligations : list Obligation) (denial : DenialInfo)
    : EnforceResponse :=
  denyResponse (requestID ec) (now ec) (auditOnly ec) obligations denial.

Definition escalate (ec : evalCtx) (denial : DenialInfo) : EnforceResponse :=
  escalateResponse (requestID ec) (now ec) denial.

Definition denyFromConditionError (ec : evalCtx) (condErr : ConditionError) : EnforceResponse :=
  deny ec [] (mkDenial (ce_Code condErr) (ce_ConditionType condErr) (ce_Message condErr)
                (ce_BlockOverride condErr) (ce_Details condErr)).

Definition recordFailureDenial (requestID now : string) (auditOnly : bool)
    (obligations : list Obligation) : EnforceResponse :=
  denyResponse requestID now auditOnly obligations
    (mkDenial ErrCodeEnforcementError ConditionTypeSequenceBlock
       (Msg "session history recording failed; sequenceBlock state is unreliable") false
       [("phase", VString "record")]).

Definition labelRecordFailureDenial (requestID now : string) (auditOnly : bool)
    (obligations : list Obligation) : EnforceResponse :=
  denyResponse requestID now auditOnly obligations
    (mkDenial ErrCodeEnforcementError ConditionTypeFlowLabel
       (Msg "flow-label recording failed; source->sink flow state is unreliable") false
       [("flow", VBool true); ("phase", VString "record")]).

(** ** Obligations *)

Definition knownObligationTypes (t : string) : bool := String.eqb t DirectiveTypeRedactFields.

Definition responseDirectiveOnNonTool (constraintTarget : string) (dir : dir_iface) : bool :=
  if negb (IsRedactFieldsDirective dir) then false
  else negb (String.eqb (fst (splitEnginePrefix constraintTarget)) TargetTypeTool).

(** The loop over the directives, with the obligations collected so far. *)
Fixpoint collectFrom (target requestID now : string) (dirs : list dir_iface)
    (obligations : list Obligation) : list Obligation * option EnforceResponse :=
  match dirs with
  | [] => (obligations, None)
  | dir :: rest =>
      match dir with
      | DirNil | DirTypedNil _ => collectFrom target requestID now rest obligations
      | Dir d =>
          if String.eqb (DirectiveType d) DirectiveTypeLabelOutput
          then collectFrom target requestID now rest obligations
          else if responseDirectiveOnNonTool target dir
          then collectFrom target requestID now rest obligations
          else
            let ob := ToObligation d in
            if negb (knownObligationTypes (ob_Type ob)) then
              (obligations,
               Some (denyResponse requestID now false []
                 (mkDenial ErrCodeEnforcementError ""
                    (Msgf "unhandled obligation type %q from directive %T; register it in knownObligationTypes and implement its consumer"
                       [ob_Type ob; DirectiveType d])
                    false [])))
            else collectFrom target requestID now rest (obligations ++ [ob])%list
      end
  end.

Definition CollectObligations (matched : option Constraint) (requestID now : string)
    : list Obligation * option EnforceResponse :=
  match matched with
  | None => ([], Some (nilSeamDenial "CollectObligations" "a nil constraint" requestID now))
  | Some matched => collectFrom (Target matched) requestID now (Directives matched) []
  end.

(** ** The consequence ceiling (effect.go) *)

Definition boundReadable (limit : string) : bool :=
  bool_decide (is_Some (parseBoundedNumber limit)).

Definition exceedsNumber (v : option Q) (limit : string) : bool :=
  match parseBoundedNumber limit with
  | None => true
  | Some lim => match v with Some q => negb (Qle_bool q lim) | None => false end
  end.

Definition Exceeds (c : option EffectCeiling) (eff : ResolvedEffect) : bool * list string :=
  match c with
  | Some c =>
      if negb (IsSet (Some c)) then (false, [])
      else if RequireCompensation c &&
              (String.eqb (MaxEffectClass c) "" || String.eqb (MaxEffectClass c) EffectIrreversible)
      then (true, ["ceiling_misconfigured"])
      else
        let overClass := negb (String.eqb (MaxEffectClass c) "") &&
                         negb (EffectClassAtMost (Class_ eff) (MaxEffectClass c)) in
        let reasons := if overClass then ["effect_class"] else [] in
        let reasons :=
          (reasons ++
           match MaxBlastRadius c with
           | None => []
           | Some limit =>
               if negb (Quantified eff) then ["blast_radius_unknown"]
               else if negb (boundReadable limit) then ["blast_radius_bound_unreadable"]
               else if exceedsNumber (BlastRadius eff) limit then ["blast_radius"]
               else []
           end)%list in
        let reasons :=
          (reasons ++
           (if RequireCompensation c && overClass && String.eqb (CompensatingAction eff) ""
            then ["no_compensating_action"] else []))%list in
        ((0 <? List.length reasons)%nat, reasons)
  | None => (false, [])
  end.

Definition AuditDetails (e : ResolvedEffect) : details :=
  ([("effect", VBool true); ("effect_class", VString (Class_ e)); ("annotated", VBool (Annotated e))]
   ++ match BlastRadius e with
      | Some q => ("blast_radius", VString (magnitudeText q)) ::
                  (if String.eqb (Unit e) "" then [] else [("blast_radius_unit", VString (Unit e))])
      | None => []
      end
   ++ (if String.eqb (CompensatingAction e) "" then []
       else [("compensating_action", VString (CompensatingAction e))])
   ++ (if String.eqb (Ref e) "" then [] else [("effect_contract", VString (Ref e))]))%list.

Definition effectString (e : ResolvedEffect) : string :=
  String.concat " "
    ([("class=" ++ Class_ e)%string;
      match BlastRadius e with
      | Some q => ("blastRadius=" ++ magnitudeText q ++
                   (if String.eqb (Unit e) "" then "" else " " ++ Unit e))%string
      | None => "blastRadius=unquantified"
      end]
     ++ (if String.eqb (CompensatingAction e) "" then []
         else [("compensatingAction=" ++ CompensatingAction e)%string])
     ++ (if Annotated e then [] else ["unannotated"]))%list.

Definition unannotatedRemediation : string :=
  " — this target declares no effect contract, so it resolves to the fail-closed default (irreversible, unquantified); annotate it to buy it out of maximum friction".

Definition unannotatedHint (eff : ResolvedEffect) : string :=
  if Annotated eff then "" else unannotatedRemediation.

Definition ceilingConditionType := "effectCeiling".

Definition strings (l : list string) : value := VStrings l.

Definition checkEffectCeiling (effectCeiling : option EffectCeiling) (ec : evalCtx)
    (eff : ResolvedEffect) (carriedLabels : list string) : option EnforceResponse :=
  match effectCeiling with
  | None => None
  | Some c =>
      let '(exceeds, reasons) := Exceeds (Some c) eff in
      if negb exceeds then None
      else
        let dets :=
          (AuditDetails eff ++ [("ceiling_exceeded", strings reasons)]
           ++ (if (0 <? List.length carriedLabels)%nat
               then [("carried_labels", strings carriedLabels)] else [])
           ++ (if String.eqb (MaxEffectClass c) "" then []
               else [("ceiling_max_effect_class", VString (MaxEffectClass c))])
           ++ (match MaxBlastRadius c with
               | Some n => [("ceiling_max_blast_radius", VString n)] | None => [] end))%list in
        let msg := Msgf "this action exceeds the policy's effect ceiling (%s): %s%s"
                     [String.concat ", " reasons; effectString eff; unannotatedHint eff] in
        if String.eqb (Outcome c) OnExceedDeny then
          Some (deny ec [] (mkDenial ErrCodeConditionFailed ceilingConditionType msg true dets))
        else
          Some (escalate ec (mkDenial ErrCodeEscalationRequired ceilingConditionType msg false dets))
  end.

End responses.

(** ** The engine *)

Section engine.
Context {C F : Type} `{CallCounterBackend C} `{FlowStoreBackend F} `{Leaf}.

Abbreviation act A := (M C F A).

(** A handler registered for a condition type.  [None] is a nil or typed-nil handler. *)
Definition PureHandler : Type := Ctx -> Condition -> EnforceRequest -> act (option ConditionError).

Record DeferredCommit := mkDeferredCommit {
  Bucket : CallCounter.QuotaBucket;
  Deny : option (float64 -> duration -> option ConditionError);
}.

Definition CommittingHandler : Type :=
  Ctx -> Condition -> EnforceRequest -> act (DeferredCommit * bool * option ConditionError).

Record registeredHandler := mkHandler {
  pure : option PureHandler;
  committing : option CommittingHandler;
}.

Definition commits (r : registeredHandler) : bool := bool_decide (is_Some (committing r)).

Definition Commits (d : DeferredCommit) : bool :=
  negb (String.eqb (CallCounter.Key (Bucket d)) "").

(** Comparison with the zero bucket, the floats compared as Go compares them. *)
Definition Prepared (d : DeferredCommit) : bool :=
  let b := Bucket d in
  negb (String.eqb (CallCounter.Key b) "" && (CallCounter.WindowSec b =? 0)%Z
        && negb (CallCounter.Counted b) && f_eq (CallCounter.Weight b) f_zero
        && f_eq (CallCounter.Limit b) f_zero).

Record EngineState := mkEngine {
  handlers : gmap string registeredHandler;
  counter : bool;                 (** a call counter is wired *)
  flowStore : bool;               (** a flow-label store is wired *)
  skipAntecedentRecording : bool;
  skipFlow : bool;
  effectCeiling : option EffectCeiling;
  anchors : anchoring;
}.

(** *** Pass one: the pure conditions *)

Record deferredCondition := mkDeferred {
  d_cond : Condition;
  d_type : string;
  d_handler : CommittingHandler;
}.

Definition evalCondition (ctx : Ctx) (ec : evalCtx) (cond : Condition) (condType : string)
    (pure : option PureHandler) : act (option EnforceResponse) :=
  match pure with
  | None =>
      ret (Some (deny ec [] (mkDenial ErrCodeEnforcementError condType
        (Msgf "condition type %q has no usable handler to evaluate it" [condType]) false [])))
  | Some handle =>
      let! condErr := handle ctx cond (req ec) in
      ret (denyFromConditionError ec <$> condErr)
  end.

Fixpoint runFrom (e : EngineState) (ctx : Ctx) (ec : evalCtx) (conds : list cond_iface)
    (deferred : list deferredCondition) : act (list deferredCondition + EnforceResponse) :=
  match conds with
  | [] => ret (inl deferred)
  | c :: rest =>
      match c with
      | CondNil | CondTypedNil _ =>
          ret (inr (deny ec [] (mkDenial ErrCodeEnforcementError ""
            (Msg "constraint carries a null condition that cannot be evaluated") false [])))
      | Cond cond =>
          let condType := ConditionType cond in
          match handlers e !! condType with
          | None =>
              ret (inr (deny ec [] (mkDenial ErrCodeEnforcementError condType
                (Msgf "unknown condition type: %s" [condType]) false [])))
          | Some handler =>
              match committing handler with
              | Some h => runFrom e ctx ec rest (deferred ++ [mkDeferred cond condType h])%list
              | None =>
                  let! d := evalCondition ctx ec cond condType (pure handler) in
                  match d with
                  | Some resp => ret (inr resp)
                  | None => runFrom e ctx ec rest deferred
                  end
              end
          end
      end
  end.

Definition runPureConditions (e : EngineState) (ctx : Ctx) (ec : evalCtx)
    : act (list deferredCondition + EnforceResponse) :=
  runFrom e ctx ec (Conditions (matched ec)) [].

(** *** Pass two: the atomic commit *)

Definition attributableType (types : list string) : string :=
  match types with
  | [] => ""
  | t0 :: rest => if forallb (String.eqb t0) rest then t0 else ""
  end.

Definition unauthorizedSkipError (condType : string) : ConditionError :=
  conditionFault condType
    (Msgf "committing condition %q reported a skip the request context did not authorize; skip must be derived solely from request context" [condType]) [].

(** The buckets prepared so far, with the deny callback and the type of each. *)
Record prepared := mkPrepared {
  buckets : list CallCounter.QuotaBucket;
  denies : list (option (float64 -> duration -> option ConditionError));
  bucketTypes : list string;
}.

Definition add_fault (faults : list HandlerFault) (f : HandlerFault) : list HandlerFault :=
  if bool_decide (f ∈ faults) then faults else (faults ++ [f])%list.

Fixpoint prepareFrom (ctx : Ctx) (ec : evalCtx) (skipQuota : bool)
    (deferred : list deferredCondition) (faults : list HandlerFault) (p : prepared)
    : act (list HandlerFault * (prepared + EnforceResponse)) :=
  match deferred with
  | [] => ret (faults, inl p)
  | d :: rest =>
      let condType := d_type d in
      let! r := d_handler d ctx (d_cond d) (req ec) in
      let '(commit, skip, condErr) := r in
      match condErr with
      | Some err => ret (faults, inr (denyFromConditionError ec err))
      | None =>
          if skip : bool then
            if negb skipQuota
            then ret (faults, inr (denyFromConditionError ec (unauthorizedSkipError condType)))
            else prepareFrom ctx ec skipQuota rest faults p
          else if negb (Prepared commit) then prepareFrom ctx ec skipQuota rest faults p
          else if skipQuota then
            prepareFrom ctx ec skipQuota rest
              (add_fault faults (mkFault condType HandlerContractQuotaUnderSkip)) p
          else if negb (Commits commit) then
            ret (faults, inr (denyFromConditionError ec (conditionFault condType
              (Msg "committing condition handler prepared a quota bucket with no key") [])))
          else
            prepareFrom ctx ec skipQuota rest faults
              (mkPrepared (buckets p ++ [Bucket commit]) (denies p ++ [Deny commit])
                 (bucketTypes p ++ [condType]))%list
      end
  end.

(** The refusal for a denied admission. *)
Definition deniedError (p : prepared) (r : CallCounter.AdmitResult) : ConditionError :=
  let deniedIndex := CallCounter.deniedIndex r in
  if (deniedIndex <? 0)%Z || (Z.of_nat (List.length (denies p)) <=? deniedIndex)%Z then
    conditionFault (attributableType (bucketTypes p))
      (Msgf "call counter returned out-of-range denied bucket index %d (have %d buckets)"
         [itoa deniedIndex; itoa (Z.of_nat (List.length (denies p)))]) []
  else
    let i := Z.to_nat deniedIndex in
    let condType := default "" (bucketTypes p !! i) in
    match mjoin (denies p !! i) with
    | None =>
        conditionFault condType
          (Msgf "committing condition handler for bucket index %d supplied a nil Deny callback"
             [itoa deniedIndex]) []
    | Some deny =>
        match deny (CallCounter.total r) (CallCounter.retryAfter r) with
        | Some condErr => condErr
        | None =>
            conditionFault condType
              (Msgf "committing condition handler for bucket index %d's Deny callback returned nil for a refused admission"
                 [itoa deniedIndex]) []
        end
    end.

Definition admitPrepared (e : EngineState) (ec : evalCtx) (p : prepared)
    : act (option EnforceResponse) :=
  match buckets p with
  | [] => ret None
  | _ =>
      if negb (counter e) then
        ret (Some (denyFromConditionError ec (conditionFault "" (Msg "call counter not configured") [])))
      else
        let! r := ctr_AdmitAll (buckets p) in
        match r with
        | Err err =>
            ret (Some (denyFromConditionError ec
              (conditionFault (attributableType (bucketTypes p)) (Msgf "call counter error: %v" [err]) [])))
        | Ok r =>
            if CallCounter.admitted r then ret None
            else ret (Some (denyFromConditionError ec (deniedError p r)))
        end
  end.

Definition commitDeferredConditions (e : EngineState) (ctx : Ctx) (ec : evalCtx)
    (deferred : list deferredCondition) : act (list HandlerFault * option EnforceResponse) :=
  let! r := prepareFrom ctx ec (SkipQuota ctx) deferred [] (mkPrepared [] [] []) in
  match r with
  | (faults, inr resp) => ret (faults, Some resp)
  | (faults, inl p) =>
      let! d := admitPrepared e ec p in
      ret (faults, d)
  end.

(** *** Flow labels (flowlabel.go) *)

Definition anchorID (e : EngineState) (r : EnforceRequest) : string :=
  ID (resolveAnchor (anchors e) (Some r)).

Definition peekSessionLabels (e : EngineState) (r : EnforceRequest)
    : act (result (list string) string) :=
  if skipFlow e || negb (flowStore e) || String.eqb (anchorID e r) "" then ret (Ok [])
  else
    let! present := flow_Get (flowKey (anchors e) r) in
    match present with
    | Err err => ret (Err err)
    | Ok present =>
        if forallb (fun l => bool_decide (ValidateFlowLabel l = None)) present
        then ret (Ok (NormalizeFlowLabels present))
        else ret (Err "session flow-label store holds a label this build cannot interpret; refusing to evaluate an information-flow policy against it")
    end.

(** The labels of the constraint's labelOutput directives, or an invalid one. *)
Fixpoint outputLabels (dirs : list dir_iface) : result (list string) string :=
  match dirs with
  | [] => Ok []
  | Dir (LabelOutput ls) :: rest =>
      if forallb (fun l => bool_decide (ValidateFlowLabel l = None)) ls
      then let* more := outputLabels rest in Ok (ls ++ more)%list
      else Err "labelOutput: invalid label"
  | _ :: rest => outputLabels rest
  end.

Definition recordLabels (e : EngineState) (r : EnforceRequest) (matched : option Constraint)
    : act (result (list string) string) :=
  if skipFlow e then ret (Ok [])
  else
    match matched with
    | None => ret (Err "recordLabels: called with a nil constraint")
    | Some matched =>
        match outputLabels (Directives matched) with
        | Err err => ret (Err err)
        | Ok [] => ret (Ok [])
        | Ok set =>
            if negb (flowStore e)
            then ret (Err "flow label store not configured; flow labels cannot be recorded")
            else if String.eqb (anchorID e r) ""
            then ret (Err "sessionId is required to record flow labels")
            else
              let out := NormalizeFlowLabels set in
              let! err := flow_Add (flowKey (anchors e) r) out in
              match err with
              | Some err => ret (Err err)
              | None => ret (Ok out)
              end
        end
    end.

Definition labelsAdded (out carried : list string) : list string :=
  List.filter (fun l => negb (one_of l carried)) out.

Definition rollbackLabels (e : EngineState) (r : EnforceRequest) (added : list string) : act unit :=
  if negb (flowStore e) || String.eqb (anchorID e r) "" || (List.length added =? 0)%nat then ret tt
  else if anchoredOnTask (anchors e) r then ret tt
  else
    let! _ := flow_Remove (flowKey (anchors e) r) added in
    ret tt.

Definition ClearSessionLabels (e : EngineState) (sessionID : string) : act (option string) :=
  if negb (flowStore e) || skipFlow e || String.eqb sessionID "" then ret None
  else flow_Clear (flowSessionKey (anchors e) sessionID).

(** *** Session history *)

Definition sequenceHistoryWindowSec : Z := 86400.
Definition sequenceHistoryMaxEntries : Z := 1.

Definition errUnanchorableStateWrite : string :=
  "this route anchors enforcement state on the task, but the presented token carries no mcp.task_id; refusing to record this call against a second, session-keyed bucket (fail closed)".

Definition markCall (e : EngineState) (r : EnforceRequest) (targetType name : string)
    : act (option string) :=
  let! res := ctr_IncrementAndGet (sequenceHistoryKey (anchors e) r targetType name)
                sequenceHistoryWindowSec sequenceHistoryMaxEntries in
  ret (match res with Ok _ => None | Err err => Some err end).

Definition RecordSessionCall (e : option EngineState) (r : option EnforceRequest)
    : act (option string) :=
  match e, r with
  | Some e, Some r =>
      if skipAntecedentRecording e || negb (counter e) then ret None
      else if anchorUnresolved (anchors e) (Some r) then ret (Some errUnanchorableStateWrite)
      else if String.eqb (anchorID e r) "" then ret None
      else
        let '(targetType, tool) := sessionTargetKey r in
        if String.eqb tool "" then ret None
        else
          let '(altType, altName) := splitEnginePrefix tool in
          let! aliasErr :=
            (if negb (String.eqb altName tool) then markCall e r altType altName else ret None) in
          match aliasErr with
          | Some err => ret (Some err)
          | None => markCall e r targetType tool
          end
  | _, _ => ret (Some "RecordSessionCall: called with a nil engine or request")
  end.

(** *** The commit of an allowed call's labels and marker *)

Record SourceCommitScope := mkScope { Flow : bool; Antecedent : bool }.

Record SourceCommitError := mkCommitError { sce_Err : string; sce_Flow : bool }.

Definition recordAntecedentIn (e : EngineState) (scope : SourceCommitScope) (r : EnforceRequest)
    : act (option string) :=
  if negb (Antecedent scope) then ret None else RecordSessionCall (Some e) (Some r).

Definition recordSourceCall (e : EngineState) (r : EnforceRequest) (matched : option Constraint)
    (scope : SourceCommitScope) (carriedLabels : list string)
    : act (result (list string) SourceCommitError) :=
  if anchorUnresolved (anchors e) (Some r)
  then ret (Err (mkCommitError errUnanchorableStateWrite (Flow scope)))
  else
    let! recorded := (if Flow scope then recordLabels e r matched else ret (Ok [])) in
    match recorded with
    | Err err => ret (Err (mkCommitError err true))
    | Ok labelsOut =>
        let added := if Flow scope then labelsAdded labelsOut carriedLabels else [] in
        let! err := recordAntecedentIn e scope r in
        match err with
        | Some err =>
            let! _ := rollbackLabels e r added in
            ret (Err (mkCommitError err false))
        | None => ret (Ok labelsOut)
        end
    end.

(** *** The decision *)

Definition allow (ec : evalCtx) (obligations : list Obligation) (labelsOut carried : list string)
    (effect : ResolvedEffect) : EnforceResponse :=
  mkResponse (requestID ec) DecisionAllow (auditOnly ec) obligations None (now ec)
    labelsOut carried (Some effect) [].

Definition set_Obligations (r : EnforceResponse) (obs : list Obligation) : EnforceResponse :=
  mkResponse (RequestID r) (Decision_ r) (AuditOnly r) obs (Denial r) (DecidedAt r)
    (LabelsOut r) (CarriedLabels r) (Effect_ r) (HandlerFaults r).
Definition set_CarriedLabels (r : EnforceResponse) (ls : list string) : EnforceResponse :=
  mkResponse (RequestID r) (Decision_ r) (AuditOnly r) (Obligations r) (Denial r) (DecidedAt r)
    (LabelsOut r) ls (Effect_ r) (HandlerFaults r).
Definition set_HandlerFaults (r : EnforceResponse) (fs : list HandlerFault) : EnforceResponse :=
  mkResponse (RequestID r) (Decision_ r) (AuditOnly r) (Obligations r) (Denial r) (DecidedAt r)
    (LabelsOut r) (CarriedLabels r) (Effect_ r) fs.

(** The three deferred functions of evaluateMatched. *)
Definition stampObligations (obligations : list Obligation) (resp : EnforceResponse)
    : EnforceResponse :=
  if bool_decide (Decision_ resp = DecisionAllow) || (0 <? List.length (Obligations resp))%nat
  then resp
  else if bool_decide (is_Some (Denial resp)) && negb (Downgradable (Denial resp)) then resp
  else set_Obligations resp obligations.

Definition stampCarried (carried : list string) (resp : EnforceResponse) : EnforceResponse :=
  if bool_decide (Decision_ resp <> DecisionAllow) && (List.length (CarriedLabels resp) =? 0)%nat
  then set_CarriedLabels resp carried else resp.

Definition stampFaults (faults : list HandlerFault) (resp : EnforceResponse) : EnforceResponse :=
  if (0 <? List.length faults)%nat then set_HandlerFaults resp faults else resp.

(** The allow tail, after the commit of the deferred conditions. *)
Definition commitSource (e : EngineState) (ec : evalCtx) (flowRelevant : bool)
    (obligations : list Obligation) (effect : ResolvedEffect) (carried : list string)
    : act EnforceResponse :=
  let! r := recordSourceCall e (req ec) (Some (matched ec)) (mkScope flowRelevant true) carried in
  match r with
  | Err cerr =>
      if sce_Flow cerr
      then ret (labelRecordFailureDenial (requestID ec) (now ec) (auditOnly ec) obligations)
      else ret (recordFailureDenial (requestID ec) (now ec) (auditOnly ec) obligations)
  | Ok labelsOut => ret (allow ec obligations labelsOut carried effect)
  end.

(** From the first pass on. *)
Definition decideConditions (e : EngineState) (ctx : Ctx) (ec : evalCtx) (flowRelevant : bool)
    (obligations : list Obligation) (obligDeny : option EnforceResponse)
    (effect : ResolvedEffect) (carried : list string) : act EnforceResponse :=
  let! pass1 := runPureConditions e ctx ec in
  match pass1 with
  | inr resp => ret resp
  | inl deferred =>
      match obligDeny with
      | Some resp => ret resp
      | None =>
          match checkEffectCeiling (effectCeiling e) ec effect carried with
          | Some resp => ret resp
          | None =>
              let! pass2 := commitDeferredConditions e ctx ec deferred in
              let '(faults, denied) := pass2 in
              let! resp :=
                (match denied with
                 | Some resp => ret resp
                 | None => commitSource e ec flowRelevant obligations effect carried
                 end) in
              ret (stampFaults faults resp)
          end
      end
  end.

Definition unanchoredDenial (ec : evalCtx) : EnforceResponse :=
  deny ec [] (mkDenial ErrCodeMissingContext (kind_string AnchorKindTask)
    (Msg "this route anchors enforcement state on the task, but the presented token carries no mcp.task_id; refusing rather than accounting this call against a second, session-keyed bucket (fail closed)")
    true [("anchor", VString (kind_string AnchorKindTask)); ("reason", VString "no_task_id")]).

Definition decideAnchored (e : EngineState) (ctx : Ctx) (ec : evalCtx)
    (obligations : list Obligation) (obligDeny : option EnforceResponse)
    (effect : ResolvedEffect) : act EnforceResponse :=
  if anchorUnresolved (anchors e) (Some (req ec)) then ret (unanchoredDenial ec)
  else
    let flowRelevant := negb (skipFlow e) && ConstraintHasFlow (matched ec) in
    if flowRelevant then
      let! peeked := peekSessionLabels e (req ec) in
      match peeked with
      | Err err =>
          ret (deny ec [] (mkDenial ErrCodeEnforcementError ConditionTypeFlowLabel
            (Msgf "flow-label state lookup failed: %v" [err]) false []))
      | Ok carried =>
          let! resp := decideConditions e (withCarriedLabels ctx carried) ec true
                         obligations obligDeny effect carried in
          ret (stampCarried carried resp)
      end
    else decideConditions e ctx ec false obligations obligDeny effect [].

Definition evaluateMatched (e : EngineState) (ctx : Ctx) (ec : evalCtx) : act EnforceResponse :=
  let ctx := withDirectives ctx (Directives (matched ec)) in
  let effect := ResolveEffect (Effect (matched ec)) (Arguments (req ec)) in
  let ctx := withResolvedEffect ctx effect in
  let '(obligations, obligDeny) :=
    CollectObligations (Some (matched ec)) (requestID ec) (now ec) in
  let! resp := decideAnchored e ctx ec obligations obligDeny effect in
  ret (if WillForwardDeny ctx (Some (matched ec)) then stampObligations obligations resp else resp).

Definition EvaluateConditions (e : EngineState) (ctx : Ctx) (r : option EnforceRequest)
    (matched : option Constraint) (requestID now : string) : act EnforceResponse :=
  match r, matched with
  | None, _ => ret (nilRequestDenial "EvaluateConditions")
  | _, None => ret (nilRequestDenial "EvaluateConditions: no matched constraint")
  | Some r, Some matched =>
      evaluateMatched e (withRequest ctx requestID now) (mkEvalCtx r matched requestID now)
  end.

(** The obligations of a refusal that will be forwarded, or the refusal that replaces it. *)
Definition forwardedObligations (forward : bool) (matched : Constraint) (requestID now : string)
    (k : list Obligation -> EnforceResponse) : EnforceResponse :=
  if forward then
    match CollectObligations (Some matched) requestID now with
    | (_, Some obligDeny) => obligDeny
    | (obs, None) => k obs
    end
  else k [].

Definition ValidateAction (e : EngineState) (ctx : Ctx) (r : option EnforceRequest)
    (capabilities : list Constraint) (requestID now : string) : act EnforceResponse :=
  match r with
  | None => ret (nilRequestDenial "ValidateAction")
  | Some r =>
      let ctx := withRequest ctx requestID now in
      match FindMatchingCapability (Some r) capabilities with
      | None =>
          ret (forwardedObligations (WillForwardDeny ctx None) (namingTargetConstraint r capabilities)
                 requestID now (fun obligations =>
                 denyResponse requestID now false obligations
                   (mkDenial ErrCodeAuthorizationFailed ""
                      (Msg "no matching capability for requested action") false [])))
      | Some matched =>
          match (s ← ArgumentSchema_ matched; ValidateArgumentSchema (Arguments r) s) with
          | Some err =>
              ret (forwardedObligations (WillForwardDeny ctx (Some matched)) matched requestID now
                     (fun obligations =>
                     denyResponse requestID now (IsAuditOnly matched) obligations
                       (mkDenial ErrCodeInvalidParams "argumentSchema" (Msg err) false [])))
          | None => evaluateMatched e ctx (mkEvalCtx r matched requestID now)
          end
      end
  end.

(** *** Seams for a composing decision point *)

Definition PeekSessionLabels (e : option EngineState) (r : option EnforceRequest)
    : act (result (list string) string) :=
  match e, r with
  | Some e, Some r => peekSessionLabels e r
  | _, _ => ret (Err "PeekSessionLabels: called with a nil engine or request")
  end.

Definition RecordSourceCall (e : option EngineState) (r : option EnforceRequest)
    (matched : option Constraint) (scope : SourceCommitScope) (carriedLabels : list string)
    : act (result (list string) SourceCommitError) :=
  match e, r with
  | Some e, Some r => recordSourceCall e r matched scope carriedLabels
  | _, _ =>
      ret (Err (mkCommitError "RecordSourceCall: called with a nil engine or request" (Flow scope)))
  end.

(** The response's label snapshot is filled in only when the refusal carries none. *)
Definition CeilingVerdictFor (e : option EngineState) (r : option EnforceRequest)
    (matched : option Constraint) (requestID now : string) : act (option EnforceResponse) :=
  match e, r, matched with
  | Some e, Some r, Some matched =>
      if negb (IsSet (effectCeiling e)) then ret None
      else
        let effect := ResolveEffect (Effect matched) (Arguments r) in
        let! carriedLabels :=
          (if negb (skipFlow e) && ConstraintHasFlow matched && negb (anchorUnresolved (anchors e) (Some r))
           then
             let! peeked := peekSessionLabels e r in
             ret (match peeked with Ok labels => labels | Err _ => [] end)
           else ret []) in
        match checkEffectCeiling (effectCeiling e) (mkEvalCtx r matched requestID now) effect carriedLabels with
        | None => ret None
        | Some resp =>
            ret (Some (match CarriedLabels resp with
                       | [] => set_CarriedLabels resp carriedLabels
                       | _ => resp
                       end))
        end
  | _, _, _ => ret None
  end.

(** [builtins] is the engine of the built-in handlers that answers for a nil engine.  The
    boolean is false when the caller must fail closed. *)
Definition NonCommittingConditionVerdict (builtins : EngineState) (e : option EngineState)
    (ctx : Ctx) (cond : cond_iface) (r : option EnforceRequest)
    : act (option ConditionError * bool) :=
  match cond with
  | CondNil | CondTypedNil _ => ret (None, false)
  | Cond cond =>
      match r with
      | None =>
          ret (Some (conditionFault (ConditionType cond)
                 (nilSeamRefusal "NonCommittingConditionVerdict" "a nil request") []), true)
      | Some r =>
          match handlers (default builtins e) !! ConditionType cond with
          | None => ret (None, false)
          | Some handler =>
              match pure handler with
              | None => ret (None, false)
              | Some handle => let! res := handle ctx cond r in ret (res, true)
              end
          end
      end
  end.

End engine.

End Engine.
