(* ===== verification/Fixtures.v ===== *)
(** * A small deployment

    Concrete inputs for the engine's theorems: the in-memory backends read at a fixed
    instant, one instance of the leaf computations, and a two-entry policy.  Nothing here
    models code of its own. *)
From stdpp Require Import base tactics list gmap strings.
From Stdlib Require Import ZArith Ascii String QArith_base.
From S2P Require Import Prelude GoStrings Float64 CallCounter FlowLabelStore Capability Selection.
From S2P Require Import Anchor Backends Engine.
#[local] Open Scope string_scope.
#[local] Open Scope go_scope.
Import Capability Selection Anchor Backends Engine.

Module Fixtures.

#[global] Instance fx_leaf : Leaf := {|
  BoundDenialDetails d := d;
  ValidateArgumentSchema _ _ := None;
  ResolveEffect c _ :=
    match c with
    | None => UnannotatedEffect
    | Some c =>
        mkResolvedEffect (ct_Class c) (ct_Idempotent c) (ct_CompensatingAction c) None "" (ct_Ref c) true
    end;
  parseBoundedNumber _ := None;
  magnitudeText _ := "";
|}.

#[global] Instance fx_counter : CallCounterBackend (Timed CallCounter.InMemory) :=
  memory_counter (fun _ => "counter error").
#[global] Instance fx_store : FlowStoreBackend (Timed FlowLabelStore.InMemory) :=
  memory_store (fun _ => "store error").
#[global] Instance fx_counter_laws : CallCounterLaws (Timed CallCounter.InMemory) :=
  memory_counter_laws (fun _ => "counter error").
#[global] Instance fx_store_laws : FlowStoreLaws (Timed FlowLabelStore.InMemory) :=
  memory_store_laws (fun _ => "store error").

Definition fx_now : time := 1700000000000000000%Z.

Abbreviation FxC := (Timed CallCounter.InMemory).
Abbreviation FxF := (Timed FlowLabelStore.InMemory).

Definition fx_world : World FxC FxF :=
  mkWorld (mkTimed fx_now (CallCounter.NewInMemory 0 86400))
    (mkTimed fx_now (FlowLabelStore.NewInMemory 0 0 false)) [].

Definition fx_anchors : anchoring := mkAnchoring false "route".

(** An engine with both backends wired, the given handlers and ceiling. *)
Definition fx_engine (hs : gmap string (@registeredHandler FxC FxF)) (ceiling : option EffectCeiling)
    : @EngineState FxC FxF :=
  mkEngine hs true true false false ceiling fx_anchors.

Definition fx_ctx (observe : bool) : Ctx := mkCtx "" "" None None observe None.

Definition fx_request (tool : string) : EnforceRequest :=
  mkRequest "s1" tool [] "" "" None ∅ [] [].

Definition fx_constraint (target : string) (conds : list cond_iface) (dirs : list dir_iface)
    : Constraint :=
  mkConstraint target ["call"] "" "" None ∅ None conds dirs.

Definition fx_eval (tool : string) (conds : list cond_iface) (dirs : list dir_iface) : evalCtx :=
  mkEvalCtx (fx_request tool) (fx_constraint tool conds dirs) "r1" "now".

(** A pure handler that is always satisfied and touches nothing. *)
Definition fx_pass : @registeredHandler FxC FxF :=
  mkHandler (Some (fun _ _ _ => ret None)) None.

(** One that refuses with a policy verdict. *)
Definition fx_refuse : @registeredHandler FxC FxF :=
  mkHandler (Some (fun _ _ _ =>
    ret (Some (mkConditionError ErrCodeConditionFailed ConditionTypeCustom (Msg "no") false [])))) None.

(** A committing handler that charges one call to a bucket of two per minute. *)
Definition fx_charge : @registeredHandler FxC FxF :=
  mkHandler None (Some (fun _ _ _ =>
    ret (mkDeferredCommit
      (CallCounter.mkBucket "k" 60 true Float64.f_zero (Float64.of_Z 2)) None, false, None))).

End Fixtures.
