(* ===== verification/EngineSafety.v ===== *)
(** * Safety of the enforcement engine

    Theorems about every decision of Engine.v, for arbitrary backends and arbitrary
    registered handlers: what an allow means, in which order the checks and the commits
    run, and which refusals an observing route may forward. *)
From stdpp Require Import base tactics list gmap strings.
From Stdlib Require Import ZArith Lia Ascii String.
From S2P Require Import Prelude GoStrings Float64 CompositeKey CallCounter Capability Selection.
From S2P Require Import Anchor Backends Engine Fixtures.
#[local] Open Scope string_scope.
#[local] Open Scope go_scope.
Import Capability Selection Anchor Backends Engine Fixtures.

Module EngineSafety.

Section safety.
Context {C F : Type} `{CallCounterBackend C} `{FlowStoreBackend F} `{Leaf}.

Abbreviation World := (World C F).
Abbreviation EngineState := (@EngineState C F).
Abbreviation registeredHandler := (@registeredHandler C F).

(** ** Running computations *)

Lemma bind_inv {A B} (m : M C F A) (k : A -> M C F B) w b w' :
  bind m k w = (b, w') -> exists a w1, m w = (a, w1) /\ k a w1 = (b, w').
Proof. unfold bind. destruct (m w) as [a w1]. by eauto. Qed.

Lemma ret_inv {A} (a b : A) (w w' : World) : ret a w = (b, w') -> b = a /\ w' = w.
Proof. unfold ret. intros E. by simplify_eq. Qed.

(** Invert a hypothesis that runs a computation. *)
Ltac run_inv H :=
  lazymatch type of H with
  | bind _ _ _ = (_, _) =>
      let a := fresh "a" in let w1 := fresh "w" in let E := fresh "E" in
      apply bind_inv in H as (a & w1 & E & H); cbv beta in H
  | ret _ _ = (_, _) =>
      let E1 := fresh in let E2 := fresh in
      apply ret_inv in H as [E1 E2]; subst
  end.

(** ** What the two passes do, as relations

    [Passes conds w w' deferred]: every condition of the list is present, its type is
    registered, and either it is deferred or its handler, run in the world the previous
    conditions left, finds it satisfied. *)
Inductive Passes (e : EngineState) (ctx : Ctx) (r : EnforceRequest)
    : list cond_iface -> World -> World -> list deferredCondition -> Prop :=
| Passes_nil w : Passes e ctx r [] w w []
| Passes_pure cond h p rest w w1 w' d :
    handlers e !! ConditionType cond = Some h -> committing h = None -> pure h = Some p ->
    p ctx cond r w = (None, w1) -> Passes e ctx r rest w1 w' d ->
    Passes e ctx r (Cond cond :: rest) w w' d
| Passes_defer cond h ch rest w w' d :
    handlers e !! ConditionType cond = Some h -> committing h = Some ch ->
    Passes e ctx r rest w w' d ->
    Passes e ctx r (Cond cond :: rest) w w' (mkDeferred cond (ConditionType cond) ch :: d).

(** [Prepares deferred w w' commits]: every deferred condition, run in turn, was satisfied
    without claiming a skip, and either needs no bucket or prepared one with a key. *)
Inductive Prepares (ctx : Ctx) (r : EnforceRequest)
    : list deferredCondition -> World -> World -> list (DeferredCommit * string) -> Prop :=
| Prepares_nil w : Prepares ctx r [] w w []
| Prepares_none d rest commit w w1 w' l :
    d_handler d ctx (d_cond d) r w = (commit, false, None, w1) -> Prepared commit = false ->
    Prepares ctx r rest w1 w' l -> Prepares ctx r (d :: rest) w w' l
| Prepares_bucket d rest commit w w1 w' l :
    d_handler d ctx (d_cond d) r w = (commit, false, None, w1) ->
    Prepared commit = true -> Commits commit = true ->
    Prepares ctx r rest w1 w' l -> Prepares ctx r (d :: rest) w w' ((commit, d_type d) :: l).

Lemma evalCondition_None ctx ec cond t (p : option (@PureHandler C F)) (w w' : World) :
  evalCondition ctx ec cond t p w = (None, w') ->
  exists h, p = Some h /\ h ctx cond (req ec) w = (None, w').
Proof.
  unfold evalCondition. destruct p as [h|]; intros E; [| done].
  run_inv E. run_inv E. destruct a; [done|]. by eauto.
Qed.

Lemma runFrom_passes (e : EngineState) ctx ec conds : forall acc (w : World) d w',
  runFrom e ctx ec conds acc w = (inl d, w') ->
  exists d', d = (acc ++ d')%list /\ Passes e ctx (req ec) conds w w' d'.
Proof.
  induction conds as [|c conds IH]; intros acc w d w' E; cbn [runFrom] in E.
  { run_inv E. simplify_eq. exists []. rewrite app_nil_r. split; [done | constructor]. }
  destruct c as [| |cond]; [run_inv E; done | run_inv E; done |].
  destruct (handlers e !! ConditionType cond) as [h|] eqn:Eh; [| run_inv E; done].
  destruct (committing h) as [ch|] eqn:Ec.
  - apply IH in E as (d' & -> & HP). eexists. split; [by rewrite <- app_assoc|].
    by econstructor.
  - run_inv E. destruct a as [resp|]; [run_inv E; done|].
    apply evalCondition_None in E0 as (p & Hp & Hrun).
    apply IH in E as (d' & -> & HP). exists d'. split; [done|]. by econstructor.
Qed.

Lemma runPure_passes (e : EngineState) ctx ec (w : World) d w' :
  runPureConditions e ctx ec w = (inl d, w') ->
  Passes e ctx (req ec) (Conditions (matched ec)) w w' d.
Proof. intros E. by apply runFrom_passes in E as (d' & -> & HP). Qed.

Lemma prepareFrom_prepares ctx ec deferred : forall faults p (w : World) faults' p' w',
  prepareFrom ctx ec false deferred faults p w = (faults', inl p', w') ->
  exists l, Prepares ctx (req ec) deferred w w' l /\
    buckets p' = (buckets p ++ map (fun x => Bucket x.1) l)%list /\
    denies p' = (denies p ++ map (fun x => Deny x.1) l)%list /\
    bucketTypes p' = (bucketTypes p ++ map snd l)%list.
Proof.
  induction deferred as [|d deferred IH]; intros faults p w faults' p' w' E; cbn [prepareFrom] in E.
  { run_inv E. simplify_eq. exists []. rewrite !app_nil_r. split; [constructor | done]. }
  run_inv E. destruct a as [[commit skip] condErr].
  destruct condErr as [err|]; [run_inv E; done|].
  destruct skip; cbn [negb] in E; [run_inv E; done|].
  destruct (Prepared commit) eqn:Ep; cbn [negb] in E.
  2:{ apply IH in E as (l & HP & Hrest). exists l. split; [by econstructor | done]. }
  destruct (Commits commit) eqn:Ec; cbn [negb] in E; [| run_inv E; done].
  apply IH in E as (l & HP & E1 & E2 & E3). exists ((commit, d_type d) :: l).
  split; [by econstructor|]. rewrite E1, E2, E3. cbn [buckets denies bucketTypes map].
  by rewrite <- !app_assoc.
Qed.

(** In observe mode no bucket survives the preparation. *)
Lemma prepareFrom_observe ctx ec deferred : forall faults p (w : World) faults' p' w',
  prepareFrom ctx ec true deferred faults p w = (faults', inl p', w') -> buckets p' = buckets p.
Proof.
  induction deferred as [|d deferred IH]; intros faults p w faults' p' w' E; cbn [prepareFrom] in E.
  { run_inv E. by simplify_eq. }
  run_inv E. destruct a as [[commit skip] condErr].
  destruct condErr as [err|]; [run_inv E; done|].
  destruct skip; cbn [negb] in E; [by eapply IH|].
  destruct (Prepared commit); cbn [negb] in E; by eapply IH.
Qed.

(** The outcome of the second pass when it does not refuse. *)
Lemma commit_passes (e : EngineState) ctx ec deferred (w : World) faults w' :
  commitDeferredConditions e ctx ec deferred w = (faults, None, w') ->
  SkipQuota ctx = true \/
  exists l w1, Prepares ctx (req ec) deferred w w1 l /\
    (l = [] /\ w' = w1 \/
     counter e = true /\ exists r,
       ctr_AdmitAll (map (fun x => Bucket x.1) l) w1 = (Ok r, w') /\ CallCounter.admitted r = true).
Proof.
  unfold commitDeferredConditions. intros E. destruct (SkipQuota ctx); [by left|]. right.
  run_inv E. destruct a as [fs [p|resp]]; [| run_inv E; done].
  apply prepareFrom_prepares in E0 as (l & HP & Eb & _ & _). cbn in Eb.
  run_inv E. run_inv E. exists l, w0. split; [done|]. unfold admitPrepared in E0.
  rewrite Eb in E0. destruct l as [|x l]; cbn [map app] in *; [left; run_inv E0; done|]. right.
  destruct (counter e); cbn [negb] in E0; [| run_inv E0; done]. split; [done|].
  apply bind_inv in E0 as (res & w2 & EA & E0).
  destruct res as [r|err]; [| run_inv E0; done].
  destruct (CallCounter.admitted r) eqn:Ea; [| run_inv E0; done]. run_inv E0. by eauto.
Qed.

(** ** The stamps of a response *)

Lemma stampFaults_fields fs resp :
  Decision_ (stampFaults fs resp) = Decision_ resp /\
  Obligations (stampFaults fs resp) = Obligations resp /\
  Denial (stampFaults fs resp) = Denial resp /\
  LabelsOut (stampFaults fs resp) = LabelsOut resp.
Proof. unfold stampFaults. by case_match. Qed.

Lemma stampCarried_fields ls resp :
  Decision_ (stampCarried ls resp) = Decision_ resp /\
  Obligations (stampCarried ls resp) = Obligations resp /\
  Denial (stampCarried ls resp) = Denial resp /\
  LabelsOut (stampCarried ls resp) = LabelsOut resp.
Proof. unfold stampCarried. by case_match. Qed.

Lemma stampObligations_fields obs resp :
  Decision_ (stampObligations obs resp) = Decision_ resp /\
  Denial (stampObligations obs resp) = Denial resp /\
  LabelsOut (stampObligations obs resp) = LabelsOut resp.
Proof. unfold stampObligations. by repeat case_match. Qed.

(** ** Refusals are never allows *)

Lemma collectFrom_deny target rid t dirs : forall obs,
  match (collectFrom target rid t dirs obs).2 with
  | Some resp => Decision_ resp = DecisionDeny /\ Obligations resp = [] /\
                 Downgradable (Denial resp) = false
  | None => True
  end.
Proof.
  induction dirs as [|[| |d] dirs IH]; intros obs; cbn [collectFrom]; [done | apply IH | apply IH |].
  destruct (String.eqb (DirectiveType d) _); [apply IH|].
  destruct (responseDirectiveOnNonTool _ _); [apply IH|]. cbv zeta.
  destruct (knownObligationTypes _); cbn [negb]; [apply IH | done].
Qed.

Lemma ceiling_refuses ceiling ec eff ls resp :
  checkEffectCeiling ceiling ec eff ls = Some resp ->
  Decision_ resp <> DecisionAllow /\ Obligations resp = [] /\ Downgradable (Denial resp) = false.
Proof.
  unfold checkEffectCeiling. intros E. repeat case_match; simplify_eq; cbn; by split_and!.
Qed.

Lemma runFrom_denies (e : EngineState) ctx ec conds : forall acc (w : World) resp w',
  runFrom e ctx ec conds acc w = (inr resp, w') ->
  Decision_ resp = DecisionDeny /\ Obligations resp = [].
Proof.
  induction conds as [|[| |cond] conds IH]; intros acc w resp w' E; cbn [runFrom] in E;
    try (run_inv E; simplify_eq; done).
  destruct (handlers e !! ConditionType cond) as [h|]; [| run_inv E; simplify_eq; done].
  destruct (committing h) as [ch|]; [by eapply IH|].
  run_inv E. destruct a as [r|]; [| by eapply IH]. run_inv E. simplify_eq.
  unfold evalCondition in E0. destruct (pure h); [| run_inv E0; simplify_eq; done].
  run_inv E0. run_inv E0. destruct a; by simplify_eq/=.
Qed.

Lemma prepareFrom_denies ctx ec b deferred : forall faults p (w : World) faults' resp w',
  prepareFrom ctx ec b deferred faults p w = (faults', inr resp, w') ->
  Decision_ resp = DecisionDeny /\ Obligations resp = [].
Proof.
  induction deferred as [|d deferred IH]; intros faults p w faults' resp w' E; cbn [prepareFrom] in E;
    [run_inv E; done|].
  run_inv E. destruct a as [[commit skip] [err|]]; [run_inv E; by simplify_eq|].
  repeat case_match; try (by eapply IH); run_inv E; by simplify_eq.
Qed.

Lemma commit_denies (e : EngineState) ctx ec deferred (w : World) faults resp w' :
  commitDeferredConditions e ctx ec deferred w = (faults, Some resp, w') ->
  Decision_ resp = DecisionDeny /\ Obligations resp = [].
Proof.
  unfold commitDeferredConditions. intros E. run_inv E. destruct a as [fs [p|r]].
  - run_inv E. run_inv E. simplify_eq. unfold admitPrepared in E1.
    destruct (buckets p); [run_inv E1; done|].
    destruct (counter e); cbn [negb] in E1; [| run_inv E1; by simplify_eq].
    apply bind_inv in E1 as (res & w2 & _ & E1). destruct res as [r|err]; [| run_inv E1; by simplify_eq].
    destruct (CallCounter.admitted r); run_inv E1; by simplify_eq.
  - run_inv E. simplify_eq. by eapply prepareFrom_denies.
Qed.

Lemma commitSource_cases (e : EngineState) ec flow obs eff carried (w : World) resp w' :
  commitSource e ec flow obs eff carried w = (resp, w') ->
  (exists ls, resp = allow ec obs ls carried eff /\
     recordSourceCall e (req ec) (Some (matched ec)) (mkScope flow true) carried w = (Ok ls, w')) \/
  (exists err, recordSourceCall e (req ec) (Some (matched ec)) (mkScope flow true) carried w
     = (Err err, w')) /\
  Decision_ resp = DecisionDeny /\ Obligations resp = obs /\ Downgradable (Denial resp) = false.
Proof.
  unfold commitSource. intros E. run_inv E. destruct a as [ls|err].
  - left. run_inv E. by eauto.
  - right. case_match; run_inv E; by eauto.
Qed.

(** ** What an allow means *)

(** Everything that held, in order, when a decision allowed: the pure conditions passed
    from [w0] to [w1]; the ceiling held; the commit of the deferred conditions took [w1] to
    [w3] without a refusal, and outside observe mode that was their preparation from [w1]
    to [w2] and one atomic admission of all their buckets (if any); and the call's labels and marker were written from [w3] to [w']. *)
Definition AllowedBy (e : EngineState) (ctx : Ctx) (ec : evalCtx) (flow : bool)
    (carried : list string) (w0 w' : World) (labelsOut : list string) : Prop :=
  exists deferred w1 w3,
    Passes e ctx (req ec) (Conditions (matched ec)) w0 w1 deferred /\
    checkEffectCeiling (effectCeiling e) ec
      (ResolveEffect (Effect (matched ec)) (Arguments (req ec))) carried = None /\
    (exists faults, commitDeferredConditions e ctx ec deferred w1 = (faults, None, w3)) /\
    (SkipQuota ctx = true \/
     exists l w2, Prepares ctx (req ec) deferred w1 w2 l /\
       (l = [] /\ w3 = w2 \/
        counter e = true /\ exists r,
          ctr_AdmitAll (map (fun x => Bucket x.1) l) w2 = (Ok r, w3) /\
          CallCounter.admitted r = true)) /\
    recordSourceCall e (req ec) (Some (matched ec)) (mkScope flow true) carried w3
      = (Ok labelsOut, w').

Lemma decideConditions_allow (e : EngineState) ctx ec flow obs obligDeny carried (w : World) resp w' :
  decideConditions e ctx ec flow obs obligDeny
    (ResolveEffect (Effect (matched ec)) (Arguments (req ec))) carried w = (resp, w') ->
  (forall d, obligDeny = Some d -> Decision_ d = DecisionDeny) ->
  Decision_ resp = DecisionAllow ->
  obligDeny = None /\ Obligations resp = obs /\
  AllowedBy e ctx ec flow carried w w' (LabelsOut resp).
Proof.
  unfold decideConditions. intros E Hob Ha. run_inv E.
  destruct a as [deferred|r]; [| run_inv E; apply runFrom_denies in E0 as [? _]; congruence].
  destruct obligDeny as [d|]; [run_inv E; specialize (Hob d eq_refl); congruence|].
  destruct (checkEffectCeiling _ _ _ _) as [r|] eqn:Ec.
  { run_inv E. apply ceiling_refuses in Ec as (? & _). congruence. }
  run_inv E. destruct a as [faults [r|]]; cbn [fst snd] in *.
  { run_inv E. run_inv E. run_inv E2. destruct (stampFaults_fields faults r) as (Ed & _).
    apply commit_denies in E1 as [? _]. congruence. }
  run_inv E. run_inv E. destruct (stampFaults_fields faults a) as (Ed & Eo & _ & El).
  rewrite Ed in Ha. rewrite Eo, El. apply commitSource_cases in E2 as [(ls & -> & Er)|(_ & ? & _)]; [| congruence].
  split; [done|]. split; [done|]. exists deferred, w0, w1. split; [by apply runPure_passes|].
  split; [done|]. split; [by eexists|]. split; [by eapply commit_passes | done].
Qed.

(** The context in which the conditions of a decision run. *)
Definition decided_ctx (ctx : Ctx) (ec : evalCtx) (flow : bool) (carried : list string) : Ctx :=
  let ctx := withResolvedEffect (withDirectives ctx (Directives (matched ec)))
               (ResolveEffect (Effect (matched ec)) (Arguments (req ec))) in
  if flow then withCarriedLabels ctx carried else ctx.

(** What the decision read of the anchor's labels before the conditions. *)
Definition peeked (e : EngineState) (ec : evalCtx) (flow : bool) (carried : list string)
    (w w0 : World) : Prop :=
  flow = negb (skipFlow e) && ConstraintHasFlow (matched ec) /\
  if flow then peekSessionLabels e (req ec) w = (Ok carried, w0) else carried = [] /\ w0 = w.

(** A decision is the unanchorable refusal, a failed label read, or the conditions run
    after the label read. *)
Lemma evaluateMatched_cases (e : EngineState) ctx ec (w : World) resp w' :
  evaluateMatched e ctx ec w = (resp, w') ->
  let obs := (CollectObligations (Some (matched ec)) (requestID ec) (now ec)).1 in
  let obligDeny := (CollectObligations (Some (matched ec)) (requestID ec) (now ec)).2 in
  exists resp0,
    resp = (if WillForwardDeny ctx (Some (matched ec)) then stampObligations obs resp0 else resp0) /\
    ((anchorUnresolved (anchors e) (Some (req ec)) = true /\ resp0 = unanchoredDenial ec /\ w' = w) \/
     (anchorUnresolved (anchors e) (Some (req ec)) = false /\ exists err,
        negb (skipFlow e) && ConstraintHasFlow (matched ec) = true /\
        peekSessionLabels e (req ec) w = (Err err, w') /\
        resp0 = deny ec [] (mkDenial ErrCodeEnforcementError ConditionTypeFlowLabel
            (Msgf "flow-label state lookup failed: %v" [err]) false [])) \/
     (anchorUnresolved (anchors e) (Some (req ec)) = false /\ exists flow carried w0 resp1,
        peeked e ec flow carried w w0 /\
        decideConditions e (decided_ctx ctx ec flow carried) ec flow obs obligDeny
          (ResolveEffect (Effect (matched ec)) (Arguments (req ec))) carried w0 = (resp1, w') /\
        resp0 = (if flow then stampCarried carried resp1 else resp1))).
Proof.
  unfold evaluateMatched. cbv zeta. intros E.
  destruct (CollectObligations _ _ _) as [obs od]. cbn [fst snd].
  run_inv E. run_inv E. exists a. split; [done|]. unfold decideAnchored in E0.
  destruct (anchorUnresolved _ _); [left; run_inv E0; done|]. right.
  destruct (negb (skipFlow e) && ConstraintHasFlow (matched ec)) eqn:Ef.
  - apply bind_inv in E0 as (res & w1 & Ep & E0). destruct res as [carried|err].
    + right. split; [done|]. run_inv E0. run_inv E0.
      exists true, carried, w1, a0. by split_and!.
    + left. split; [done|]. run_inv E0. by eauto.
  - right. split; [done|]. exists false, [], w, a. by split_and!.
Qed.

Lemma obligDeny_denies (c : Constraint) rid t d :
  (CollectObligations (Some c) rid t).2 = Some d ->
  Decision_ d = DecisionDeny /\ Obligations d = [] /\ Downgradable (Denial d) = false.
Proof.
  unfold CollectObligations. pose proof (collectFrom_deny (Target c) rid t (Directives c) []) as Hd.
  intros E. by rewrite E in Hd.
Qed.

Lemma evaluateMatched_allow (e : EngineState) ctx ec (w : World) resp w' :
  evaluateMatched e ctx ec w = (resp, w') -> Decision_ resp = DecisionAllow ->
  anchorUnresolved (anchors e) (Some (req ec)) = false /\
  CollectObligations (Some (matched ec)) (requestID ec) (now ec) = (Obligations resp, None) /\
  exists flow carried w0, peeked e ec flow carried w w0 /\
    AllowedBy e (decided_ctx ctx ec flow carried) ec flow carried w0 w' (LabelsOut resp).
Proof.
  intros E Ha. apply evaluateMatched_cases in E as (resp0 & -> & Hc).
  set (obs := (CollectObligations _ _ _).1) in *.
  assert (Decision_ resp0 = DecisionAllow) as Ha0.
  { destruct (WillForwardDeny _ _); [| done]. by destruct (stampObligations_fields obs resp0) as (<- & _). }
  assert ((if WillForwardDeny ctx (Some (matched ec)) then stampObligations obs resp0 else resp0)
    = resp0) as ->.
  { destruct (WillForwardDeny _ _); [| done]. unfold stampObligations. by rewrite Ha0. }
  destruct Hc as [(_ & -> & _)|[(_ & err & _ & _ & ->)|(Hu & flow & carried & w0 & r1 & Hp & Hd & ->)]];
    [done | done |].
  assert (Decision_ r1 = DecisionAllow) as Ha1.
  { destruct flow; [| done]. by destruct (stampCarried_fields carried r1) as (<- & _). }
  assert ((if flow then stampCarried carried r1 else r1) = r1) as ->.
  { destruct flow; [| done]. unfold stampCarried. by rewrite Ha1. }
  apply decideConditions_allow in Hd as (Hob & Ho & HA); [| | done].
  - split; [done|]. split; [| by exists flow, carried, w0].
    rewrite Ho, <- Hob. unfold obs. by destruct (CollectObligations _ _ _).
  - intros d Hd'. by apply obligDeny_denies in Hd' as (? & _).
Qed.

(** C1: Complete mediation.  When ValidateAction allows, the request was not nil and not
    unanchorable, the policy's selection returned a constraint that governs it, its
    argument schema accepted the arguments, every directive had a known obligation (all of
    them on the response), every condition had a registered handler and passed in order,
    the consequence ceiling held, every quota bucket the constraint declares was admitted
    in one atomic call (or the route only observes), and the call's labels and history
    marker were written. *)
Theorem allow_means_all_checks (e : EngineState) ctx r caps rid t (w : World) resp w' :
  ValidateAction e ctx r caps rid t w = (resp, w') -> Decision_ resp = DecisionAllow ->
  exists q c, r = Some q /\ FindMatchingCapability (Some q) caps = Some c /\ c ∈ caps /\
    governs q c = true /\
    (forall s, ArgumentSchema_ c = Some s -> ValidateArgumentSchema (Arguments q) s = None) /\
    anchorUnresolved (anchors e) (Some q) = false /\
    CollectObligations (Some c) rid t = (Obligations resp, None) /\
    let ec := mkEvalCtx q c rid t in
    exists flow carried w0, peeked e ec flow carried w w0 /\
      AllowedBy e (decided_ctx (withRequest ctx rid t) ec flow carried) ec flow carried w0 w'
        (LabelsOut resp).
Proof.
  unfold ValidateAction. intros E Ha. destruct r as [q|]; [| run_inv E; done].
  pose proof (select_scored q caps) as Hsel.
  destruct (FindMatchingCapability (Some q) caps) as [c|] eqn:Es.
  2:{ run_inv E. revert Ha. unfold forwardedObligations.
      destruct (WillForwardDeny _ _); [| done].
      pose proof (obligDeny_denies (namingTargetConstraint q caps) rid t) as Hd.
      destruct (CollectObligations _ _ _) as [obs [d|]]; [| done].
      destruct (Hd d eq_refl) as (-> & _). done. }
  destruct Hsel as (i & Hi & Hg & _).
  destruct (s ← ArgumentSchema_ c; ValidateArgumentSchema (Arguments q) s) as [err|] eqn:Ev.
  { run_inv E. revert Ha. unfold forwardedObligations.
    destruct (WillForwardDeny _ _); [| done].
    pose proof (obligDeny_denies c rid t) as Hd.
    destruct (CollectObligations _ _ _) as [obs [d|]]; [| done].
    destruct (Hd d eq_refl) as (-> & _). done. }
  apply evaluateMatched_allow in E as (Hu & Hob & Hrest); [| done].
  exists q, c. split_and!; try done.
  - by eapply list_elem_of_lookup_2.
  - intros s Hs. by rewrite Hs in Ev.
Qed.

(** ** Properties of the world that handlers preserve *)

Definition preserves (P : World -> Prop) {A} (m : M C F A) : Prop := forall w, P w -> P (m w).2.

Definition handlers_preserve (P : World -> Prop) (e : EngineState) : Prop :=
  forall t h, handlers e !! t = Some h ->
    (forall p, pure h = Some p -> forall ctx c r, preserves P (p ctx c r)) /\
    (forall p, committing h = Some p -> forall ctx c r, preserves P (p ctx c r)).

Definition deferred_preserves (P : World -> Prop) (d : deferredCondition) : Prop :=
  forall ctx c r, preserves P (d_handler d ctx c r).

Section preservation.
Context (P : World -> Prop).

Lemma preserves_ret {A} (a : A) : preserves P (ret a).
Proof. intros w Hw. exact Hw. Qed.

Lemma preserves_bind {A B} (m : M C F A) (k : A -> M C F B) :
  preserves P m -> (forall a, preserves P (k a)) -> preserves P (bind m k).
Proof.
  intros Hm Hk w Hw. unfold bind. specialize (Hm w Hw). destruct (m w) as [a w1]. by apply Hk.
Qed.

Lemma preserves_run {A} (m : M C F A) w a w' : preserves P m -> m w = (a, w') -> P w -> P w'.
Proof. intros Hm E Hw. specialize (Hm w Hw). by rewrite E in Hm. Qed.

Context (e : EngineState) (Hp : handlers_preserve P e).

Lemma runFrom_preserves ctx ec : forall conds acc, preserves P (runFrom e ctx ec conds acc).
Proof.
  induction conds as [|[| |cond] conds IH]; intros acc; cbn [runFrom];
    try apply preserves_ret.
  destruct (handlers e !! ConditionType cond) as [h|] eqn:Eh; [| apply preserves_ret].
  destruct (Hp _ _ Eh) as [Hpure _]. destruct (committing h); [apply IH|].
  apply preserves_bind; [| intros [?|]; [apply preserves_ret | apply IH]].
  unfold evalCondition. destruct (pure h); [| apply preserves_ret].
  apply preserves_bind; [by apply Hpure | intros ?; apply preserves_ret].
Qed.

Lemma Passes_deferred ctx r conds (w w' : World) d :
  Passes e ctx r conds w w' d -> Forall (deferred_preserves P) d.
Proof.
  intros HP. induction HP as [| |cond h ch rest w w' d Eh Ec HP IH]; [constructor | done |].
  constructor; [| done]. intros ctx' c r'. by apply (proj2 (Hp _ _ Eh)).
Qed.

Lemma Passes_preserves ctx r conds (w w' : World) d : Passes e ctx r conds w w' d -> P w -> P w'.
Proof.
  induction 1 as [|cond h p rest w w1 w2 d Eh Ec Ep Er HP IH|]; intros Hw; [done | | auto].
  apply IH. eapply preserves_run; [| exact Er | done]. by apply (proj1 (Hp _ _ Eh)).
Qed.

Lemma prepareFrom_preserves ctx ec b deferred :
  Forall (deferred_preserves P) deferred -> forall faults p,
  preserves P (prepareFrom ctx ec b deferred faults p).
Proof.
  induction 1 as [|d deferred Hd _ IH]; intros faults p; cbn [prepareFrom]; [apply preserves_ret|].
  apply preserves_bind; [by apply Hd|]. intros [[commit skip] [err|]]; [apply preserves_ret|].
  repeat case_match; first [apply IH | apply preserves_ret].
Qed.

End preservation.

(** ** When quota is charged *)

Definition is_admission (ev : event) : bool :=
  match ev with EvAdmitAll _ => true | _ => false end.

(** The quota admissions made so far, newest first. *)
Definition admissions (w : World) : list event := List.filter is_admission (w_trace w).

Definition no_admission {A} (m : M C F A) : Prop :=
  forall X, preserves (fun w => admissions w = X) m.

(** Handlers leave the admission of quota to the engine, as the built-in ones do. *)
Definition quiet (e : EngineState) : Prop :=
  forall X, handlers_preserve (fun w => admissions w = X) e.

Lemma no_admission_eq {A} (m : M C F A) w : no_admission m -> admissions (m w).2 = admissions w.
Proof. intros Hm. by apply (Hm (admissions w)). Qed.

Lemma no_admission_counter {A} ev (op : C -> A * C) :
  is_admission ev = false -> no_admission (on_counter ev op).
Proof.
  intros Hev X w Hw. unfold on_counter. destruct (op (w_counter w)).
  unfold admissions in *. cbn. by rewrite Hev.
Qed.

Lemma no_admission_flow {A} ev (op : F -> A * F) :
  is_admission ev = false -> no_admission (on_flow ev op).
Proof.
  intros Hev X w Hw. unfold on_flow. destruct (op (w_flow w)).
  unfold admissions in *. cbn. by rewrite Hev.
Qed.

Ltac quietly :=
  repeat first
    [ apply preserves_ret
    | apply preserves_bind; [| intros ?]
    | apply no_admission_counter; reflexivity
    | apply no_admission_flow; reflexivity
    | case_match ].

Lemma no_admission_peek (e : EngineState) r : no_admission (peekSessionLabels e r).
Proof. intros X. unfold peekSessionLabels, flow_Get. quietly. Qed.

Lemma no_admission_source (e : EngineState) r c scope ls :
  no_admission (recordSourceCall e r c scope ls).
Proof.
  intros X. unfold recordSourceCall, recordLabels, recordAntecedentIn, RecordSessionCall,
    rollbackLabels, markCall, flow_Add, flow_Remove, ctr_IncrementAndGet. quietly.
Qed.

Lemma no_admission_commitSource (e : EngineState) ec flow obs eff ls :
  no_admission (commitSource e ec flow obs eff ls).
Proof.
  intros X. apply preserves_bind; [apply no_admission_source|]. intros [?|?]; quietly.
Qed.

(** The second pass makes no admission, or exactly one of every prepared bucket. *)
Lemma commit_admissions (e : EngineState) ctx ec deferred (w : World) :
  (forall X, Forall (deferred_preserves (fun w => admissions w = X)) deferred) ->
  let w' := (commitDeferredConditions e ctx ec deferred w).2 in
  admissions w' = admissions w \/
  exists l w1, SkipQuota ctx = false /\ l <> [] /\ Prepares ctx (req ec) deferred w w1 l /\
    admissions w' = EvAdmitAll (map (fun x => Bucket x.1) l) :: admissions w.
Proof.
  intros Hd. unfold commitDeferredConditions, bind.
  pose proof (no_admission_eq (prepareFrom ctx ec (SkipQuota ctx) deferred [] (mkPrepared [] [] []))
    w (fun X => prepareFrom_preserves _ ctx ec (SkipQuota ctx) deferred (Hd X) [] _)) as Hq.
  destruct (prepareFrom _ _ _ _ _ _ w) as [[fs [p|resp]] w1] eqn:Ep; cbn [snd ret] in *; [| by left].
  unfold admitPrepared. destruct (buckets p) as [|b bs] eqn:Eb; [by left|].
  destruct (counter e); cbn [negb]; [| by left].
  destruct (SkipQuota ctx) eqn:Es.
  { apply prepareFrom_observe in Ep. by rewrite Eb in Ep. }
  apply prepareFrom_prepares in Ep as (l & HP & El & _). rewrite Eb in El. cbn [buckets app] in El.
  right. exists l, w1. split; [done|]. split; [by destruct l|]. split; [done|].
  rewrite <- El, <- Hq. unfold bind, ctr_AdmitAll, on_counter.
  destruct (counter_AdmitAll (w_counter w1) (b :: bs)) as [[r|err] c]; [| done].
  by destruct (CallCounter.admitted r).
Qed.

Lemma decide_admissions (e : EngineState) ctx ec flow obs obligDeny eff carried (w : World) :
  quiet e ->
  let w' := (decideConditions e ctx ec flow obs obligDeny eff carried w).2 in
  admissions w' = admissions w \/
  exists deferred w1 l w2, SkipQuota ctx = false /\ obligDeny = None /\
    checkEffectCeiling (effectCeiling e) ec eff carried = None /\
    Passes e ctx (req ec) (Conditions (matched ec)) w w1 deferred /\
    l <> [] /\ Prepares ctx (req ec) deferred w1 w2 l /\
    admissions w' = EvAdmitAll (map (fun x => Bucket x.1) l) :: admissions w.
Proof.
  intros Hq. unfold decideConditions, bind.
  pose proof (no_admission_eq _ w (fun X => runFrom_preserves _ e (Hq X) ctx ec (Conditions (matched ec)) []))
    as Q1.
  fold (runPureConditions e ctx ec) in Q1.
  destruct (runPureConditions e ctx ec w) as [[deferred|resp] w1] eqn:Ep; cbn [snd ret] in *; [| by left].
  destruct obligDeny as [d|]; [by left|].
  destruct (checkEffectCeiling _ _ _ _) as [d|] eqn:Ec; [by left|].
  apply runPure_passes in Ep as HP.
  pose proof (commit_admissions e ctx ec deferred w1 
    (fun X => Passes_deferred _ e (Hq X) ctx (req ec) _ _ _ _ HP)) as Q2.
  destruct (commitDeferredConditions e ctx ec deferred w1) as [[faults denied] w2].
  cbv zeta in Q2. cbn [snd] in Q2.
  pose (tail := match denied with
                | Some resp => ret resp
                | None => commitSource e ec flow obs eff carried
                end).
  assert (no_admission tail) as Q3 by (destruct denied; [intros X; apply preserves_ret | apply no_admission_commitSource]).
  apply (no_admission_eq _ w2) in Q3. fold tail. destruct (tail w2) as [x w3]. cbn [snd ret] in *.
  destruct Q2 as [Q2|(l & w2' & Hs & Hl & HPr & Q2)].
  - left. congruence.
  - right. exists deferred, w1, l, w2'. split_and!; try done. congruence.
Qed.

(** C2: Nothing is charged to a refused call except by the atomic admission itself.  A
    decision makes at most one quota admission; it makes it only when the route does not
    observe, the request is anchorable, no directive is unknown, every pure condition has
    passed, the ceiling holds and every deferred condition prepared its bucket; and the
    one admission carries the buckets of all of them. *)
Theorem charged_once_after_all_checks (e : EngineState) ctx ec (w : World) resp w' :
  quiet e -> evaluateMatched e ctx ec w = (resp, w') ->
  admissions w' = admissions w \/
  exists flow carried w0 deferred w1 l w2,
    SkipQuota ctx = false /\ anchorUnresolved (anchors e) (Some (req ec)) = false /\
    (CollectObligations (Some (matched ec)) (requestID ec) (now ec)).2 = None /\
    peeked e ec flow carried w w0 /\
    Passes e (decided_ctx ctx ec flow carried) (req ec) (Conditions (matched ec)) w0 w1 deferred /\
    checkEffectCeiling (effectCeiling e) ec
      (ResolveEffect (Effect (matched ec)) (Arguments (req ec))) carried = None /\
    l <> [] /\ Prepares (decided_ctx ctx ec flow carried) (req ec) deferred w1 w2 l /\
    admissions w' = EvAdmitAll (map (fun x => Bucket x.1) l) :: admissions w.
Proof.
  intros Hq E. apply evaluateMatched_cases in E as (resp0 & _ & Hc).
  destruct Hc as [(_ & _ & ->)|[(_ & err & _ & Ep & _)|(Hu & flow & carried & w0 & r1 & Hp & Hd & _)]].
  - by left.
  - left. by rewrite <- (no_admission_eq _ w (no_admission_peek e (req ec))), Ep.
  - assert (admissions w0 = admissions w) as E0.
    { destruct Hp as [_ Hp]. destruct flow; [| by destruct Hp as [_ ->]].
      by rewrite <- (no_admission_eq _ w (no_admission_peek e (req ec))), Hp. }
    pose proof (decide_admissions e (decided_ctx ctx ec flow carried) ec flow
      (CollectObligations (Some (matched ec)) (requestID ec) (now ec)).1
      (CollectObligations (Some (matched ec)) (requestID ec) (now ec)).2
      (ResolveEffect (Effect (matched ec)) (Arguments (req ec))) carried w0 Hq) as Ha.
    cbv zeta in Ha. rewrite Hd in Ha. cbn [snd] in Ha. rewrite <- E0.
    destruct Ha as [Ha|(deferred & w1 & l & w2 & Hs & Ho & Hce & HP & Hl & HPr & Ha)]; [by left|].
    right. exists flow, carried, w0, deferred, w1, l, w2. split_and!; try done.
    unfold decided_ctx in Hs. by destruct flow.
Qed.

(** ** Refusals that are forwarded *)

Lemma Passes_run (e : EngineState) ctx ec pre (w w1 : World) d :
  Passes e ctx (req ec) pre w w1 d -> forall rest acc,
  runFrom e ctx ec (pre ++ rest)%list acc w = runFrom e ctx ec rest (acc ++ d)%list w1.
Proof.
  induction 1 as [w|cond h p rest0 w w1 w2 d Eh Ec Ep Er HP IH|cond h ch rest0 w w2 d Eh Ec HP IH];
    intros rest acc; cbn [app runFrom].
  - by rewrite app_nil_r.
  - rewrite Eh, Ec, Ep. unfold bind, evalCondition, bind. rewrite Er. cbn. apply IH.
  - rewrite Eh, Ec, IH. by rewrite <- app_assoc.
Qed.

Lemma decide_obligations (e : EngineState) ctx ec flow obs obligDeny eff carried (w : World) resp w' :
  decideConditions e ctx ec flow obs obligDeny eff carried w = (resp, w') ->
  (forall d, obligDeny = Some d -> Obligations d = []) ->
  Obligations resp = [] \/ Obligations resp = obs.
Proof.
  unfold decideConditions. intros E Hob. run_inv E.
  destruct a as [deferred|r]; [| run_inv E; left; by apply runFrom_denies in E0 as [_ ?]].
  destruct obligDeny as [d|]; [run_inv E; left; by apply Hob|].
  destruct (checkEffectCeiling _ _ _ _) as [r|] eqn:Ec.
  { run_inv E. left. by apply ceiling_refuses in Ec as (_ & ? & _). }
  run_inv E. destruct a as [faults denied]. run_inv E. run_inv E.
  destruct (stampFaults_fields faults a) as (_ & -> & _).
  destruct denied as [r|].
  - run_inv E2. left. by apply commit_denies in E1 as [_ ?].
  - right. apply commitSource_cases in E2 as [(ls & -> & _)|(_ & _ & ? & _)]; done.
Qed.

Lemma evaluateMatched_masked (e : EngineState) ctx ec (w : World) resp w' :
  evaluateMatched e ctx ec w = (resp, w') ->
  Decision_ resp <> DecisionAllow -> Downgradable (Denial resp) = true ->
  WillForwardDeny ctx (Some (matched ec)) = true ->
  Obligations resp = (CollectObligations (Some (matched ec)) (requestID ec) (now ec)).1.
Proof.
  intros E Hd Hg Hf. apply evaluateMatched_cases in E as (resp0 & -> & Hc). rewrite Hf in *.
  set (obs := (CollectObligations _ _ _).1) in *.
  destruct (stampObligations_fields obs resp0) as (Ed & En & _). rewrite Ed in Hd. rewrite En in Hg.
  assert (Obligations resp0 = [] \/ Obligations resp0 = obs) as Ho.
  { destruct Hc as [(_ & -> & _)|[(_ & err & _ & _ & ->)|(_ & flow & carried & w0 & r1 & _ & Hr & ->)]];
      [by left | by left |].
    assert (Obligations (if flow then stampCarried carried r1 else r1) = Obligations r1) as ->.
    { destruct flow; [| done]. apply stampCarried_fields. }
    eapply decide_obligations; [done|]. intros d Hd'. by apply obligDeny_denies in Hd' as (_ & ? & _). }
  unfold stampObligations. rewrite bool_decide_false by done. cbn [orb].
  destruct Ho as [Ho|Ho]; rewrite Ho in *; cbn [List.length].
  - cbn. by rewrite Hg, andb_false_r.
  - destruct obs as [|o obs']; [cbn; by rewrite Hg, andb_false_r | done].
Qed.

Lemma collectFrom_redacts target rid t fields dirs : forall obs,
  fst (splitEnginePrefix target) = TargetTypeTool ->
  Dir (RedactFields fields) ∈ dirs -> (collectFrom target rid t dirs obs).2 = None ->
  mkObligation DirectiveTypeRedactFields fields ∈ (collectFrom target rid t dirs obs).1.
Proof.
  assert (forall dirs obs o, o ∈ obs -> o ∈ (collectFrom target rid t dirs obs).1) as Hkeep.
  { clear dirs. induction dirs as [|[| |d] dirs IH]; intros obs o Ho; cbn [collectFrom];
      [done | by apply IH | by apply IH |].
    repeat case_match; try (by apply IH); [done|]. apply IH. set_solver. }
  induction dirs as [|dir dirs IH]; intros obs Ht Hin Hn; [by apply elem_of_nil in Hin|].
  apply elem_of_cons in Hin as [<-|Hin].
  - cbn [collectFrom] in *. unfold responseDirectiveOnNonTool in *. rewrite Ht in *.
    cbn in *. apply Hkeep. set_solver.
  - revert Hn. cbn [collectFrom]. repeat case_match; try (by apply IH); done.
Qed.

(** A refusal that an observing route forwards carries the redactions of the policy.
    For every refusal an observing posture may downgrade, the response carries exactly the
    obligations of the governing constraint (or, when none governs, of every entry that
    names the target), so a forwarded call's result is masked as an allowed one's is; on a
    tool entry these include every redactFields directive it declares. *)
Theorem forwarded_refusals_masked (e : EngineState) ctx q caps rid t (w : World) resp w' :
  ValidateAction e ctx (Some q) caps rid t w = (resp, w') ->
  Decision_ resp <> DecisionAllow -> Downgradable (Denial resp) = true ->
  match FindMatchingCapability (Some q) caps with
  | Some c =>
      WillForwardDeny ctx (Some c) = true ->
      Obligations resp = (CollectObligations (Some c) rid t).1 /\
      ((CollectObligations (Some c) rid t).2 = None ->
       fst (splitEnginePrefix (Target c)) = TargetTypeTool ->
       forall fields, Dir (RedactFields fields) ∈ Directives c ->
         mkObligation DirectiveTypeRedactFields fields ∈ Obligations resp)
  | None =>
      SkipQuota ctx = true ->
      Obligations resp = (CollectObligations (Some (namingTargetConstraint q caps)) rid t).1
  end.
Proof.
  unfold ValidateAction. intros E Hd Hg.
  assert (forall c k, resp = forwardedObligations true c rid t k ->
    (forall obs, Obligations (k obs) = obs) ->
    Obligations resp = (CollectObligations (Some c) rid t).1) as Hfw.
  { intros c k -> Hk. unfold forwardedObligations in *.
    pose proof (obligDeny_denies c rid t) as Hden.
    destruct (CollectObligations (Some c) rid t) as [obs [d|]]; [| done].
    destruct (Hden d eq_refl) as (_ & _ & ?). congruence. }
  assert (forall c, Obligations resp = (CollectObligations (Some c) rid t).1 ->
    Obligations resp = (CollectObligations (Some c) rid t).1 /\
    ((CollectObligations (Some c) rid t).2 = None ->
     fst (splitEnginePrefix (Target c)) = TargetTypeTool ->
     forall fields, Dir (RedactFields fields) ∈ Directives c ->
       mkObligation DirectiveTypeRedactFields fields ∈ Obligations resp)) as Hred.
  { intros c Ho. split; [done|]. intros Hn Ht fields Hin. rewrite Ho.
    by apply collectFrom_redacts. }
  destruct (FindMatchingCapability (Some q) caps) as [c|].
  - intros Hf. apply Hred.
    destruct (s ← ArgumentSchema_ c; ValidateArgumentSchema (Arguments q) s) as [err|].
    + run_inv E. change (WillForwardDeny (withRequest ctx rid t) (Some c))
        with (WillForwardDeny ctx (Some c)) in *. rewrite Hf in *. by eapply Hfw.
    + by eapply evaluateMatched_masked in E.
  - intros Hs. run_inv E.
    change (WillForwardDeny (withRequest ctx rid t) None) with (SkipQuota ctx) in *.
    rewrite Hs in *. by eapply Hfw.
Qed.

(** A condition the engine cannot evaluate: absent, of a type nobody registered, or
    registered without a usable handler. *)
Definition unevaluable (e : EngineState) (c : cond_iface) : Prop :=
  match c with
  | CondNil | CondTypedNil _ => True
  | Cond cond =>
      match handlers e !! ConditionType cond with
      | None => True
      | Some h => committing h = None /\ pure h = None
      end
  end.

Lemma runFrom_unevaluable (e : EngineState) ctx ec bad post acc (w : World) :
  unevaluable e bad ->
  exists resp, runFrom e ctx ec (bad :: post) acc w = (inr resp, w) /\
    Decision_ resp = DecisionDeny /\ Downgradable (Denial resp) = false.
Proof.
  intros Hb. destruct bad as [| |cond]; cbn [runFrom]; [by eexists | by eexists |].
  unfold unevaluable in Hb. destruct (handlers e !! ConditionType cond) as [h|]; [| by eexists].
  destruct Hb as [-> ->]. by eexists.
Qed.

Lemma peeked_det (e : EngineState) ec f1 c1 f2 c2 (w w1 w2 : World) :
  peeked e ec f1 c1 w w1 -> peeked e ec f2 c2 w w2 -> f1 = f2 /\ c1 = c2 /\ w1 = w2.
Proof.
  intros [E1 H1'] [E2 H2']. rewrite <- E1 in E2. clear E1. subst f2. split; [done|].
  destruct f1; [| naive_solver]. rewrite H1' in H2'. by simplify_eq.
Qed.

(** With the labels read, the decision is the run of the conditions, stamped. *)
Lemma evaluateMatched_run (e : EngineState) ctx ec flow carried (w w0 : World) resp w' :
  anchorUnresolved (anchors e) (Some (req ec)) = false ->
  peeked e ec flow carried w w0 -> evaluateMatched e ctx ec w = (resp, w') ->
  exists r, decideConditions e (decided_ctx ctx ec flow carried) ec flow
      (CollectObligations (Some (matched ec)) (requestID ec) (now ec)).1
      (CollectObligations (Some (matched ec)) (requestID ec) (now ec)).2
      (ResolveEffect (Effect (matched ec)) (Arguments (req ec))) carried w0 = (r, w') /\
    Decision_ resp = Decision_ r /\ Denial resp = Denial r.
Proof.
  intros Hu Hp E. apply evaluateMatched_cases in E as (resp0 & -> & Hc).
  destruct Hc as [(? & _)|[(_ & err & Ef & Ep & _)|(_ & f' & c' & w0' & r & Hp' & Hr & ->)]].
  - congruence.
  - destruct Hp as [Ef' Hp]. rewrite Ef in Ef'. subst flow. congruence.
  - destruct (peeked_det _ _ _ _ _ _ _ _ _ Hp Hp') as (<- & <- & <-). exists r. split; [done|].
    set (r' := if flow then stampCarried carried r else r).
    assert (Decision_ r' = Decision_ r /\ Denial r' = Denial r) as [<- <-].
    { unfold r'. destruct flow; [| done]. split; apply stampCarried_fields. }
    destruct (WillForwardDeny _ _); [| done]. split; apply stampObligations_fields.
Qed.

(** When the first pass refuses, that refusal is the decision. *)
Lemma decided_by_pass1 (e : EngineState) ctx ec flow carried (w w0 w1 : World) r :
  anchorUnresolved (anchors e) (Some (req ec)) = false ->
  peeked e ec flow carried w w0 ->
  runPureConditions e (decided_ctx ctx ec flow carried) ec w0 = (inr r, w1) ->
  exists resp, evaluateMatched e ctx ec w = (resp, w1) /\
    Decision_ resp = Decision_ r /\ Denial resp = Denial r.
Proof.
  intros Hu Hp Hrun. destruct (evaluateMatched e ctx ec w) as [resp w'] eqn:E.
  eapply evaluateMatched_run in E as (r1 & Hr & Ed & En); [| done | done].
  unfold decideConditions, bind in Hr. rewrite Hrun in Hr. run_inv Hr. by exists resp.
Qed.

(** C32: A restriction that cannot be evaluated blocks, on every posture.  When the
    conditions before it pass, a condition that is nil, of an unregistered type, or without
    a usable handler refuses the call with a fault that no observing route downgrades, and
    nothing after it runs: the world is the one those conditions left. *)
Theorem unevaluable_condition_blocks (e : EngineState) ctx ec pre bad post flow carried
    (w w0 w1 : World) d :
  anchorUnresolved (anchors e) (Some (req ec)) = false ->
  peeked e ec flow carried w w0 ->
  Conditions (matched ec) = (pre ++ bad :: post)%list -> unevaluable e bad ->
  Passes e (decided_ctx ctx ec flow carried) (req ec) pre w0 w1 d ->
  exists resp, evaluateMatched e ctx ec w = (resp, w1) /\
    Decision_ resp = DecisionDeny /\ Downgradable (Denial resp) = false.
Proof.
  intros Hu Hp Hconds Hbad HP.
  destruct (runFrom_unevaluable e (decided_ctx ctx ec flow carried) ec bad post ([] ++ d) w1 Hbad)
    as (r & Hr & Hd & Hg).
  destruct (decided_by_pass1 e ctx ec flow carried w w0 w1 r) as (resp & E & Ed & En); [done | done | |].
  - unfold runPureConditions. rewrite Hconds. by rewrite (Passes_run _ _ _ _ _ _ _ HP).
  - exists resp. split; [done|]. by rewrite Ed, En.
Qed.

(** An action over the consequence ceiling is never performed on the strength of this
    decision.  On every posture it is not allowed and no quota is charged to it; and when
    its conditions pass and its directives are known, the refusal (deny or escalation) is
    one that no observing route may forward. *)
Theorem over_ceiling_refused (e : EngineState) ctx ec flow carried (w w0 : World) resp w' :
  quiet e ->
  (Exceeds (effectCeiling e) (ResolveEffect (Effect (matched ec)) (Arguments (req ec)))).1 = true ->
  anchorUnresolved (anchors e) (Some (req ec)) = false ->
  peeked e ec flow carried w w0 ->
  evaluateMatched e ctx ec w = (resp, w') ->
  Decision_ resp <> DecisionAllow /\ admissions w' = admissions w0 /\
  (forall w1 d, Passes e (decided_ctx ctx ec flow carried) (req ec) (Conditions (matched ec)) w0 w1 d ->
     Downgradable (Denial resp) = false /\ w' = w1).
Proof.
  intros Hq Hex Hu Hp E. eapply evaluateMatched_run in E as (r & Hr & Ed & En); [| done | done].
  set (eff := ResolveEffect _ _) in *.
  assert (exists d, checkEffectCeiling (effectCeiling e) ec eff carried = Some d) as [d Hc].
  { unfold checkEffectCeiling. destruct (effectCeiling e) as [c|]; [| done].
    destruct (Exceeds (Some c) eff) as [b reasons]. cbn in Hex. subst b. cbn [negb].
    case_match; by eexists. }
  split; [| split].
  - rewrite Ed. intros Ha. apply decideConditions_allow in Hr as (_ & _ & deferred & w1 & w3 & _ & Hn & _);
      [fold eff in Hn; congruence | | done].
    intros d' Hd'. by apply obligDeny_denies in Hd' as (? & _).
  - pose proof (decide_admissions e (decided_ctx ctx ec flow carried) ec flow
      (CollectObligations (Some (matched ec)) (requestID ec) (now ec)).1
      (CollectObligations (Some (matched ec)) (requestID ec) (now ec)).2 eff carried w0 Hq) as Ha.
    cbv zeta in Ha. rewrite Hr in Ha. cbn [snd] in Ha.
    destruct Ha as [?|(? & ? & ? & ? & _ & _ & Hn & _)]; [done | congruence].
  - intros w1 df HP. rewrite En. unfold decideConditions, bind, runPureConditions in Hr.
    pose proof (Passes_run _ _ _ _ _ _ _ HP [] []) as Hrun. rewrite app_nil_r in Hrun.
    rewrite Hrun in Hr. cbn [runFrom ret app] in Hr.
    destruct (CollectObligations (Some (matched ec)) (requestID ec) (now ec)).2 as [od|] eqn:Eo.
    + run_inv Hr. by apply obligDeny_denies in Eo as (_ & _ & ?).
    + rewrite Hc in Hr. run_inv Hr. by apply ceiling_refuses in Hc as (_ & _ & ?).
Qed.

(** The ceiling's answer for a call another layer already refused: a refusal exactly when
    the action exceeds the ceiling, one that no observing route may forward, and at most a
    read of the labels as its effect on the backends. *)
Lemma CeilingVerdictFor_spec (e : EngineState) r c rid t (w w' : World) res :
  CeilingVerdictFor (Some e) (Some r) (Some c) rid t w = (res, w') ->
  (is_Some res <->
    (Exceeds (effectCeiling e) (ResolveEffect (Effect c) (Arguments r))).1 = true) /\
  (forall resp, res = Some resp ->
    Decision_ resp <> DecisionAllow /\ Downgradable (Denial resp) = false) /\
  w_counter w' = w_counter w /\
  (w_trace w' = w_trace w \/ w_trace w' = EvGet (flowKey (anchors e) r) :: w_trace w).
Proof.
  unfold CeilingVerdictFor. destruct (IsSet (effectCeiling e)) eqn:Hset; cbn [negb].
  2:{ intros E. run_inv E. split_and!; [| done | done | by left]. unfold Exceeds.
      destruct (effectCeiling e) as [ce|]; [rewrite Hset|]; split; intros Hx; by inversion Hx. }
  intros E. apply bind_inv in E as (labels & w1 & Ep & E).
  assert (w_counter w1 = w_counter w /\
    (w_trace w1 = w_trace w \/ w_trace w1 = EvGet (flowKey (anchors e) r) :: w_trace w)) as Hw.
  { destruct (negb (skipFlow e) && _ && _); [| run_inv Ep; auto]. run_inv Ep. run_inv Ep.
    unfold peekSessionLabels in *. destruct (_ || _ || _); [run_inv E0; auto|].
    run_inv E0. unfold flow_Get, on_flow in *. destruct (store_Get _ _).
    match goal with G : (_, _) = (_, _) |- _ => injection G as <- <- end.
    destruct r0; [destruct (forallb _ _)|]; run_inv E0; auto. }
  assert ((exists d, checkEffectCeiling (effectCeiling e) (mkEvalCtx r c rid t)
      (ResolveEffect (Effect c) (Arguments r)) labels = Some d) <->
    (Exceeds (effectCeiling e) (ResolveEffect (Effect c) (Arguments r))).1 = true) as Hc.
  { unfold checkEffectCeiling. destruct (effectCeiling e) as [ce|]; [| by split; [intros [? ?] |]].
    destruct (Exceeds _ _) as [[|] reasons]; cbn [negb fst]; [| by split; [intros [? ?] |]].
    split; [done|]. intros _. destruct (String.eqb (Outcome ce) OnExceedDeny); by eexists. }
  destruct (checkEffectCeiling _ _ _ _) as [d|] eqn:Ed; run_inv E.
  - apply ceiling_refuses in Ed as (Hd & _ & Hg). split; [| split; [| exact Hw]].
    + split; [intros _; apply Hc; by eexists | by eexists].
    + intros resp [= <-]. by destruct (CarriedLabels d).
  - split; [| split; [done | exact Hw]]. rewrite <- Hc. split; [intros [? ?]; done | intros [? ?]; done].
Qed.

(** A request that no constraint governs is denied and touches no state: the world is
    unchanged, no backend is called, and the refusal is AUTHORIZATION_FAILED (or, on an
    observing route whose naming entries carry an unknown directive, a fault that blocks). *)
Theorem no_match_denied (e : EngineState) ctx q caps rid t (w : World) :
  (forall c, c ∈ caps -> governs q c = false) ->
  exists resp, ValidateAction e ctx (Some q) caps rid t w = (resp, w) /\
    Decision_ resp = DecisionDeny /\
    ((exists d, Denial resp = Some d /\ Code d = ErrCodeAuthorizationFailed) \/
     SkipQuota ctx = true /\ Downgradable (Denial resp) = false).
Proof.
  intros Hno. unfold ValidateAction. pose proof (select_scored q caps) as Hs.
  destruct (FindMatchingCapability (Some q) caps) as [c|].
  { destruct Hs as (i & Hi & Hg & _). rewrite (Hno c) in Hg; [done|]. by eapply list_elem_of_lookup_2. }
  unfold ret, forwardedObligations. eexists. split; [done|].
  change (WillForwardDeny (withRequest ctx rid t) None) with (SkipQuota ctx).
  destruct (SkipQuota ctx); [| split; [done | left; by eexists]].
  pose proof (obligDeny_denies (namingTargetConstraint q caps) rid t) as Hd.
  destruct (CollectObligations _ _ _) as [obs [od|]]; [| split; [done | left; by eexists]].
  destruct (Hd od eq_refl) as (Hdec & _ & Hdown). auto.
Qed.

End safety.

(** ** The theorems on a small deployment *)

Definition demo_conds : list cond_iface := [Cond (Custom "x" VNull); Cond (MaxCalls 2 60)].
Definition demo_caps : list Constraint :=
  [fx_constraint "send" demo_conds [Dir (RedactFields ["ssn"])]].
Definition demo_engine : @Engine.EngineState FxC FxF :=
  fx_engine {[ ConditionTypeCustom := fx_pass; ConditionTypeMaxCalls := fx_charge ]} None.
Definition demo_refusing : @Engine.EngineState FxC FxF :=
  fx_engine {[ ConditionTypeCustom := fx_refuse ]} None.
Definition demo_capped : @Engine.EngineState FxC FxF :=
  fx_engine {[ ConditionTypeCustom := fx_pass ]}
    (Some (mkEffectCeiling EffectReversible None false OnExceedDeny)).

(** Handlers that only return a value change nothing. *)
Definition silent (h : @Engine.registeredHandler FxC FxF) : Prop :=
  (forall p, pure h = Some p -> forall ctx c r w, (p ctx c r w).2 = w) /\
  (forall p, committing h = Some p -> forall ctx c r w, (p ctx c r w).2 = w).

Lemma silent_pass : silent fx_pass.
Proof. split; [by intros p [= <-] | done]. Qed.
Lemma silent_charge : silent fx_charge.
Proof. split; [done | by intros p [= <-]]. Qed.

Lemma quiet_silent (e : @Engine.EngineState FxC FxF) :
  map_Forall (fun _ h => silent h) (handlers e) -> quiet e.
Proof.
  intros Hs X t h Hh. destruct (Hs t h Hh) as [Hp Hc].
  split; intros p Ep ctx c r w Hw; [by rewrite (Hp p Ep) | by rewrite (Hc p Ep)].
Qed.

Lemma quiet_demo : quiet demo_engine.
Proof.
  apply quiet_silent. unfold demo_engine, fx_engine. cbn [handlers].
  apply map_Forall_insert_2; [apply silent_pass|]. apply map_Forall_singleton, silent_charge.
Qed.

Lemma quiet_capped : quiet demo_capped.
Proof. apply quiet_silent, map_Forall_singleton, silent_pass. Qed.

Lemma allow_means_all_checks_witness :
  Decision_ (ValidateAction demo_engine (fx_ctx false) (Some (fx_request "send")) demo_caps "r" "t"
               fx_world).1 = DecisionAllow /\
  exists c, FindMatchingCapability (Some (fx_request "send")) demo_caps = Some c /\
    governs (fx_request "send") c = true.
Proof.
  split; [vm_compute; reflexivity|].
  destruct (allow_means_all_checks demo_engine (fx_ctx false) (Some (fx_request "send")) demo_caps
    "r" "t" fx_world _ _ (surjective_pairing _)) as (q & c & [= <-] & Hf & _ & Hg & _);
    [vm_compute; reflexivity|].
  exists c. split; [exact Hf | exact Hg].
Defined.

Lemma charged_once_after_all_checks_witness :
  let ec := fx_eval "send" demo_conds [] in
  exists carried w0 w1 deferred,
    Passes demo_engine (decided_ctx (fx_ctx false) ec false carried) (req ec) demo_conds w0 w1 deferred.
Proof.
  intros ec.
  destruct (charged_once_after_all_checks demo_engine (fx_ctx false) ec fx_world _ _ quiet_demo
    (surjective_pairing _)) as [Heq|(flow & carried & w0 & deferred & w1 & l & w2 & _ & _ & _ & Hp & HP & _)].
  - vm_compute in Heq. discriminate Heq.
  - destruct Hp as [Hf _]. vm_compute in Hf. subst flow.
    exists carried, w0, w1, deferred. exact HP.
Defined.

Lemma forwarded_refusals_masked_witness :
  mkObligation DirectiveTypeRedactFields ["ssn"] ∈
  Obligations (ValidateAction demo_refusing (fx_ctx true) (Some (fx_request "send")) demo_caps "r" "t"
                 fx_world).1.
Proof.
  pose proof (forwarded_refusals_masked demo_refusing (fx_ctx true) (fx_request "send") demo_caps
    "r" "t" fx_world _ _ (surjective_pairing _)) as Hm.
  destruct (FindMatchingCapability (Some (fx_request "send")) demo_caps) as [c|] eqn:Hf;
    [| vm_compute in Hf; discriminate Hf].
  assert (c = fx_constraint "send" demo_conds [Dir (RedactFields ["ssn"])]) as ->.
  { vm_compute in Hf. injection Hf as <-. reflexivity. }
  apply Hm; [vm_compute; congruence | vm_compute; reflexivity | vm_compute; reflexivity
    | vm_compute; reflexivity | vm_compute; reflexivity | apply list_elem_of_here].
Defined.

Lemma unevaluable_condition_blocks_witness :
  let ec := fx_eval "send" [Cond (Custom "x" VNull); CondNil; Cond (MaxCalls 2 60)] [] in
  exists resp, evaluateMatched demo_engine (fx_ctx true) ec fx_world = (resp, fx_world) /\
    Decision_ resp = DecisionDeny /\ Downgradable (Denial resp) = false.
Proof.
  intros ec.
  apply (unevaluable_condition_blocks demo_engine (fx_ctx true) ec [Cond (Custom "x" VNull)] CondNil
    [Cond (MaxCalls 2 60)] false [] fx_world fx_world fx_world []).
  - vm_compute. reflexivity.
  - split; [vm_compute; reflexivity | split; reflexivity].
  - reflexivity.
  - exact I.
  - eapply Passes_pure; [vm_compute; reflexivity | reflexivity | reflexivity | reflexivity | constructor].
Defined.

Lemma over_ceiling_refused_witness :
  let ec := fx_eval "send" [Cond (Custom "x" VNull)] [] in
  Decision_ (evaluateMatched demo_capped (fx_ctx true) ec fx_world).1 <> DecisionAllow.
Proof.
  intros ec.
  eapply (over_ceiling_refused demo_capped (fx_ctx true) ec false [] fx_world fx_world _ _ quiet_capped);
    [vm_compute; reflexivity | vm_compute; reflexivity
    | split; [vm_compute; reflexivity | split; reflexivity] | apply surjective_pairing].
Defined.

Lemma no_match_denied_witness :
  exists resp, ValidateAction demo_engine (fx_ctx false) (Some (fx_request "delete")) demo_caps "r" "t"
                 fx_world = (resp, fx_world) /\ Decision_ resp = DecisionDeny.
Proof.
  destruct (no_match_denied demo_engine (fx_ctx false) (fx_request "delete") demo_caps "r" "t" fx_world)
    as (resp & E & Hd & _).
  - intros c [->|Hc]%elem_of_cons; [vm_compute; reflexivity | apply elem_of_nil in Hc; destruct Hc].
  - exists resp. split; [exact E | exact Hd].
Defined.

End EngineSafety.
