(* ===== verification/Construction.v ===== *)
(** * Construction of an engine

    pkg/enforcement.New with its options and its handler registry, the declarations of
    pkg/capability/subsystem.go that decide which optional facilities an engine wires, and
    the policy tokens of internal/config/manifest_policy.go they are decided on.  The
    built-in handlers are an argument: only their names and declarations matter here. *)
From stdpp Require Import base tactics list gmap strings fin_sets.
From Stdlib Require Import ZArith Ascii String.
From S2P Require Import Prelude GoStrings CallCounter Capability Selection.
From S2P Require Import Anchor Backends Engine Fixtures EngineSafety.
#[local] Open Scope string_scope.
#[local] Open Scope go_scope.
Import Capability Selection Anchor Backends Engine Fixtures EngineSafety.

Module Construction.

(** ** Subsystem declarations (subsystem.go) *)

Definition EngineSubsystem := string.
Definition SubsystemNone : EngineSubsystem := "none".
Definition SubsystemAntecedentHistory : EngineSubsystem := "antecedentHistory".
Definition SubsystemFlowLabels : EngineSubsystem := "flowLabels".

Definition engineSubsystems : list EngineSubsystem :=
  [SubsystemAntecedentHistory; SubsystemFlowLabels].

Definition modelled (s : EngineSubsystem) : bool := one_of s engineSubsystems.

Definition validSubsystemDeclaration (uses : list EngineSubsystem) : bool :=
  if (List.length uses =? 0)%nat then false
  else if one_of SubsystemNone uses then (List.length uses =? 1)%nat
  else forallb modelled uses.

Definition DeclarationUsesSubsystem (uses : list EngineSubsystem) (s : EngineSubsystem) : bool :=
  if negb (validSubsystemDeclaration uses) then true else one_of s uses.

Definition usesNothing : list EngineSubsystem := [SubsystemNone].

(** The [Uses] column of the two prototype registries (conditions.go, directives.go). *)
Definition conditionPrototypes : list (string * list EngineSubsystem) :=
  [(kind_type KTimeWindow, usesNothing); (kind_type KIPRange, usesNothing);
   (kind_type KAllowedOperations, usesNothing); (kind_type KAllowedExtensions, usesNothing);
   (kind_type KAllowedTables, usesNothing); (kind_type KMaxCalls, usesNothing);
   (kind_type KRecipientDomain, usesNothing); (kind_type KAllowedValues, usesNothing);
   (kind_type KSequenceBlock, [SubsystemAntecedentHistory]);
   (kind_type KFlowLabel, [SubsystemFlowLabels]);
   (kind_type KEffectClass, usesNothing); (kind_type KBlastRadius, usesNothing);
   (kind_type KPolicy, engineSubsystems); (kind_type KCustom, engineSubsystems)].

Definition directivePrototypes : list (string * list EngineSubsystem) :=
  [(DirectiveTypeRedactFields, usesNothing); (DirectiveTypeLabelOutput, [SubsystemFlowLabels])].

Definition proto_lookup (token : string) (l : list (string * list EngineSubsystem))
    : option (list EngineSubsystem) :=
  snd <$> List.find (fun p => String.eqb token p.1) l.

Definition tokenSubsystems (token : string) : list EngineSubsystem * bool :=
  match proto_lookup token conditionPrototypes with
  | Some uses => (uses, validSubsystemDeclaration uses)
  | None =>
      match proto_lookup token directivePrototypes with
      | Some uses => (uses, validSubsystemDeclaration uses)
      | None => ([], false)
      end
  end.

Definition TokenEngineSubsystems (token : string) : list EngineSubsystem * bool :=
  tokenSubsystems token.

Definition TokenUsesEngineSubsystem (token : string) (s : EngineSubsystem) : bool :=
  let '(uses, ok) := tokenSubsystems token in
  if negb ok then true else DeclarationUsesSubsystem uses s.

(** ** Policy tokens (manifest_policy.go) *)

Definition cond_tokens (c : Constraint) : list string :=
  omap (fun x => match x with Cond cond => Some (ConditionType cond) | _ => None end) (Conditions c).
Definition dir_tokens (c : Constraint) : list string :=
  omap (fun x => match x with Dir d => Some (DirectiveType d) | _ => None end) (Directives c).

(** Sorted and deduplicated in the code; only membership is used of it. *)
Definition PolicyTokens (caps : list Constraint) : gset string :=
  list_to_set (List.concat (map (fun c => cond_tokens c ++ dir_tokens c) caps))%list.

(** ** The registry and the options *)

Section construction.
Context {C F : Type} `{CallCounterBackend C} `{FlowStoreBackend F} `{Leaf}.

(** Whether a handler answers for itself (SubsystemDependent): no, with a declaration, or
    by asking the policy evaluator, as the built-in handler of [policy] does. *)
Inductive declaration :=
| Undeclared
| Declares (uses : list EngineSubsystem)
| AsksEvaluator.

(** A handler value handed to an option: its two methods (absent when the type does not
    have the method, or when the value is nil), whether its type has PrepareCommit, and
    its own declaration. *)
Record implementation := mkImpl {
  i_handle : option (@PureHandler C F);
  i_prepare : option (@CommittingHandler C F);
  i_committing : bool;
  i_declares : declaration;
}.

(** [registeredHandler], with the two fields that only construction reads. *)
Record registration := mkRegistration {
  e_handler : @registeredHandler C F;
  e_declares : declaration;
  e_uses : list EngineSubsystem;
  e_builtin : bool;
}.

(** A value held by an interface, nil, or a nil pointer inside one. *)
Inductive wiring := WiredNil | WiredTypedNil | WiredValue.

Definition wiredOrAbsent (w : wiring) : bool :=
  match w with WiredValue => true | _ => false end.

(** The engine under construction. *)
Record draft := mkDraft {
  dr_handlers : gmap string registration;
  dr_counter : bool;
  dr_flowStore : bool;
  dr_evaluator : option (option (list EngineSubsystem));
  dr_policyTokens : option (gset string);
  dr_ceiling : option EffectCeiling;
  dr_anchors : anchoring;
}.

Definition set_handlers (d : draft) (hs : gmap string registration) : draft :=
  mkDraft hs (dr_counter d) (dr_flowStore d) (dr_evaluator d) (dr_policyTokens d) (dr_ceiling d)
    (dr_anchors d).

Definition registerPure (name : string) (i : implementation) (uses : list EngineSubsystem)
    (builtin : bool) (d : draft) : draft :=
  set_handlers d (<[name := mkRegistration (mkHandler (i_handle i) None) (i_declares i) uses builtin]>
                    (dr_handlers d)).

Definition registerCommitting (name : string) (i : implementation) (uses : list EngineSubsystem)
    (builtin : bool) (d : draft) : draft :=
  set_handlers d (<[name := mkRegistration (mkHandler None (i_prepare i)) (i_declares i) uses builtin]>
                    (dr_handlers d)).

Definition builtinUses (name : string) : list EngineSubsystem := fst (TokenEngineSubsystems name).

Definition registerBuiltin (name : string) (i : implementation) (d : draft) : draft :=
  registerPure name i (builtinUses name) true d.
Definition registerBuiltinCommitting (name : string) (i : implementation) (d : draft) : draft :=
  registerCommitting name i (builtinUses name) true d.

(** The built-in handlers' code, by name. *)
Context (pureOf : string -> @PureHandler C F) (commitOf : string -> @CommittingHandler C F).

Definition builtinPure (name : string) (decl : declaration) : draft -> draft :=
  registerBuiltin name (mkImpl (Some (pureOf name)) None false decl).
Definition builtinCommitting (name : string) : draft -> draft :=
  registerBuiltinCommitting name (mkImpl None (Some (commitOf name)) true Undeclared).

Definition registerBuiltins (d : draft) : draft :=
  let d := builtinPure (kind_type KTimeWindow) Undeclared d in
  let d := builtinPure (kind_type KIPRange) Undeclared d in
  let d := builtinCommitting (kind_type KMaxCalls) d in
  let d := builtinPure (kind_type KAllowedOperations) Undeclared d in
  let d := builtinPure (kind_type KAllowedExtensions) Undeclared d in
  let d := builtinPure (kind_type KAllowedTables) Undeclared d in
  let d := builtinPure (kind_type KRecipientDomain) Undeclared d in
  let d := builtinPure (kind_type KAllowedValues) Undeclared d in
  let d := builtinPure (kind_type KSequenceBlock) Undeclared d in
  let d := builtinPure (kind_type KFlowLabel) Undeclared d in
  let d := builtinPure (kind_type KEffectClass) Undeclared d in
  let d := builtinCommitting (kind_type KBlastRadius) d in
  let d := builtinPure (kind_type KPolicy) AsksEvaluator d in
  builtinPure (kind_type KCustom) Undeclared d.

Inductive Option_ :=
| WithCallCounter (counter : wiring)
| WithFlowLabelStore (store : wiring)
| WithPolicyTokens (tokens : gset string)
| WithCounterKeyNamespace (ns : string)
| WithTaskAnchoredState
| WithEffectCeiling (ceiling : option EffectCeiling)
| WithPolicyEvaluator (evaluator : wiring) (declares : option (list EngineSubsystem))
| WithConditionHandler (name : string) (handler : implementation)
| WithCommittingConditionHandler (name : string) (handler : implementation).

Definition apply_option (d : draft) (o : Option_) : draft :=
  match o with
  | WithCallCounter w =>
      mkDraft (dr_handlers d) (wiredOrAbsent w) (dr_flowStore d) (dr_evaluator d) (dr_policyTokens d)
        (dr_ceiling d) (dr_anchors d)
  | WithFlowLabelStore w =>
      mkDraft (dr_handlers d) (dr_counter d) (wiredOrAbsent w) (dr_evaluator d) (dr_policyTokens d)
        (dr_ceiling d) (dr_anchors d)
  | WithPolicyTokens ts =>
      mkDraft (dr_handlers d) (dr_counter d) (dr_flowStore d) (dr_evaluator d) (Some ts)
        (dr_ceiling d) (dr_anchors d)
  | WithCounterKeyNamespace ns =>
      mkDraft (dr_handlers d) (dr_counter d) (dr_flowStore d) (dr_evaluator d) (dr_policyTokens d)
        (dr_ceiling d) (mkAnchoring (taskAnchored (dr_anchors d)) ns)
  | WithTaskAnchoredState =>
      mkDraft (dr_handlers d) (dr_counter d) (dr_flowStore d) (dr_evaluator d) (dr_policyTokens d)
        (dr_ceiling d) (mkAnchoring true (counterKeyNamespace (dr_anchors d)))
  | WithEffectCeiling c =>
      mkDraft (dr_handlers d) (dr_counter d) (dr_flowStore d) (dr_evaluator d) (dr_policyTokens d)
        c (dr_anchors d)
  | WithPolicyEvaluator w declares =>
      mkDraft (dr_handlers d) (dr_counter d) (dr_flowStore d)
        (if wiredOrAbsent w then Some declares else None) (dr_policyTokens d)
        (dr_ceiling d) (dr_anchors d)
  | WithConditionHandler name i =>
      if i_committing i then registerCommitting name i [] false d else registerPure name i [] false d
  | WithCommittingConditionHandler name i => registerCommitting name i [] false d
  end.

(** ** The derived skips *)

(** The evaluator's own declaration, or nil (unclassified). *)
Definition evaluatorUses (d : draft) : list EngineSubsystem := default [] (mjoin (dr_evaluator d)).

(** A nil handler value is asked nothing. *)
Definition dependsOn (d : draft) (r : registration) (s : EngineSubsystem) : bool :=
  let present := bool_decide (is_Some (committing (e_handler r)) \/ is_Some (pure (e_handler r))) in
  match e_declares r with
  | Declares uses =>
      if present then DeclarationUsesSubsystem uses s else DeclarationUsesSubsystem (e_uses r) s
  | AsksEvaluator =>
      if present then DeclarationUsesSubsystem (evaluatorUses d) s
      else DeclarationUsesSubsystem (e_uses r) s
  | Undeclared => DeclarationUsesSubsystem (e_uses r) s
  end.

Definition policyUses (d : draft) (s : EngineSubsystem) : bool :=
  match dr_policyTokens d with
  | None => true
  | Some tokens =>
      existsb (fun token =>
        match dr_handlers d !! token with
        | Some h => dependsOn d h s
        | None => TokenUsesEngineSubsystem token s
        end) (elements tokens)
  end.

Definition emptyDraft : draft := mkDraft ∅ false false None None None (mkAnchoring false "").

Definition build (d : draft) : @EngineState C F :=
  mkEngine (e_handler <$> dr_handlers d) (dr_counter d) (dr_flowStore d)
    (negb (policyUses d SubsystemAntecedentHistory)) (negb (policyUses d SubsystemFlowLabels))
    (dr_ceiling d) (dr_anchors d).

Definition New (opts : list Option_) : @EngineState C F :=
  build (fold_left apply_option opts (registerBuiltins emptyDraft)).

(** The options a route wires (internal/transport/route.go). *)
Definition routeOptions (counter store : wiring) (name : string) (caps : list Constraint)
    (ceiling : option EffectCeiling) (taskAnchored : bool) : list Option_ :=
  ([WithCallCounter counter; WithFlowLabelStore store; WithCounterKeyNamespace name;
    WithPolicyTokens (PolicyTokens caps)]
   ++ (if IsSet ceiling then [WithEffectCeiling ceiling] else [])
   ++ (if taskAnchored then [WithTaskAnchoredState] else []))%list.

Definition ConditionHandlerOverridden (d : option draft) (condType : string) : bool :=
  match d with
  | None => false
  | Some d =>
      match dr_handlers d !! condType with Some h => negb (e_builtin h) | None => false end
  end.

(** ** Lemmas *)

Definition routeDraft (counter store : wiring) (name : string) (caps : list Constraint)
    (ceiling : option EffectCeiling) (ta : bool) : draft :=
  fold_left apply_option (routeOptions counter store name caps ceiling ta)
    (registerBuiltins emptyDraft).

Lemma routeDraft_fields counter store name caps ceiling ta :
  let d := routeDraft counter store name caps ceiling ta in
  dr_handlers d = dr_handlers (registerBuiltins emptyDraft) /\
  dr_policyTokens d = Some (PolicyTokens caps) /\ dr_evaluator d = None /\ dr_anchors d = mkAnchoring ta name /\
  dr_counter d = wiredOrAbsent counter /\ dr_flowStore d = wiredOrAbsent store.
Proof. unfold routeDraft, routeOptions. by destruct (IsSet ceiling), ta. Qed.

Lemma elem_of_PolicyTokens caps c token :
  c ∈ caps -> token ∈ cond_tokens c \/ token ∈ dir_tokens c -> token ∈ PolicyTokens caps.
Proof.
  intros Hc Ht. unfold PolicyTokens. apply elem_of_list_to_set, list_elem_of_In, in_concat.
  exists (cond_tokens c ++ dir_tokens c)%list. split.
  - apply in_map_iff. exists c. split; [done|]. by apply list_elem_of_In.
  - by apply list_elem_of_In, elem_of_app.
Qed.

Lemma cond_token c cond : Cond cond ∈ Conditions c -> ConditionType cond ∈ cond_tokens c.
Proof. intros Hin. apply list_elem_of_omap. by exists (Cond cond). Qed.

Lemma dir_token c d : Dir d ∈ Directives c -> DirectiveType d ∈ dir_tokens c.
Proof. intros Hin. apply list_elem_of_omap. by exists (Dir d). Qed.

(** A token of the policy whose effective declaration names a facility keeps it wired. *)
Lemma policyUses_token d tokens token s :
  dr_policyTokens d = Some tokens -> token ∈ tokens ->
  match dr_handlers d !! token with
  | Some h => dependsOn d h s
  | None => TokenUsesEngineSubsystem token s
  end = true -> policyUses d s = true.
Proof.
  intros Ht Hin Hu. unfold policyUses. rewrite Ht. apply existsb_elem_of. exists token.
  split; [by apply elem_of_elements | done].
Qed.

Lemma route_uses counter store name caps ceiling ta c token s :
  c ∈ caps -> token ∈ cond_tokens c \/ token ∈ dir_tokens c ->
  match dr_handlers (registerBuiltins emptyDraft) !! token with
  | Some h => dependsOn (registerBuiltins emptyDraft) h s
  | None => TokenUsesEngineSubsystem token s
  end = true ->
  policyUses (routeDraft counter store name caps ceiling ta) s = true.
Proof.
  intros Hc Ht Hu. destruct (routeDraft_fields counter store name caps ceiling ta) as (Eh & Et & Ee & _).
  eapply policyUses_token; [exact Et | by eapply elem_of_PolicyTokens |].
  rewrite Eh. destruct (dr_handlers (registerBuiltins emptyDraft) !! token) as [h|]; [| done].
  rewrite <- Hu. unfold dependsOn, evaluatorUses. by rewrite Ee.
Qed.

Lemma route_flow_wired counter store name caps ceiling ta c :
  c ∈ caps ->
  (exists allow, Cond (FlowLabel allow) ∈ Conditions c) \/
  (exists ls, Dir (LabelOutput ls) ∈ Directives c) ->
  skipFlow (New (routeOptions counter store name caps ceiling ta)) = false.
Proof.
  intros Hc Hf. cbn [New build skipFlow]. apply negb_false_iff.
  destruct Hf as [[allow Hin%cond_token]|[ls Hin%dir_token]];
    (eapply route_uses; [exact Hc | eauto | reflexivity]).
Qed.

(** ** Properties *)

(** A route never skips a facility its policy needs.  In the engine a route builds for
    a policy, a sequenceBlock condition anywhere in the policy keeps the history recorded,
    and a flowLabel condition or a labelOutput directive anywhere keeps the flow-label path
    wired; the engine is keyed on the route's name, and the backends are wired exactly when
    the route handed over values. *)
Theorem route_wires_what_the_policy_needs counter store name caps ceiling ta c :
  c ∈ caps ->
  let e := New (routeOptions counter store name caps ceiling ta) in
  ((exists after, Cond (SequenceBlock after) ∈ Conditions c) -> skipAntecedentRecording e = false) /\
  ((exists allow, Cond (FlowLabel allow) ∈ Conditions c) \/
   (exists ls, Dir (LabelOutput ls) ∈ Directives c) -> skipFlow e = false) /\
  anchors e = mkAnchoring ta name /\
  Engine.counter e = wiredOrAbsent counter /\ flowStore e = wiredOrAbsent store.
Proof.
  intros Hc e. destruct (routeDraft_fields counter store name caps ceiling ta) as (_ & _ & _ & Hr).
  split; [| split; [| exact Hr]].
  - intros [after Hin%cond_token]. cbn [e New build skipAntecedentRecording]. apply negb_false_iff.
    eapply route_uses; [exact Hc | by left | reflexivity].
  - by apply route_flow_wired.
Qed.

(** The engine with its flow path wired. *)
Definition wire_flow (e : @EngineState C F) : @EngineState C F :=
  mkEngine (handlers e) (Engine.counter e) (flowStore e) (skipAntecedentRecording e) false
    (effectCeiling e) (anchors e).

Lemma runFrom_wire_flow e ctx ec conds : forall acc w,
  runFrom (wire_flow e) ctx ec conds acc w = runFrom e ctx ec conds acc w.
Proof.
  induction conds as [|[| |cond] conds IH]; intros acc w; cbn [runFrom]; try done.
  cbn [wire_flow handlers]. destruct (handlers e !! ConditionType cond) as [h|]; [| done].
  destruct (committing h); [apply IH|]. unfold bind.
  destruct (evalCondition ctx ec cond (ConditionType cond) (pure h) w) as [[r|] w1]; [done | apply IH].
Qed.

Lemma decideConditions_wire_flow e ctx ec obs obligDeny eff carried w :
  decideConditions (wire_flow e) ctx ec false obs obligDeny eff carried w
  = decideConditions e ctx ec false obs obligDeny eff carried w.
Proof.
  unfold decideConditions, runPureConditions. unfold bind at 1 4.
  rewrite runFrom_wire_flow. done.
Qed.

(** Entries that are nil pointers inside an interface. *)
Definition no_typed_nil (c : Constraint) : Prop :=
  (forall k, CondTypedNil k ∉ Conditions c) /\ (forall k, DirTypedNil k ∉ Directives c).

Lemma ConstraintHasFlow_declared c :
  no_typed_nil c -> ConstraintHasFlow c = true ->
  (exists allow, Cond (FlowLabel allow) ∈ Conditions c) \/
  (exists ls, Dir (LabelOutput ls) ∈ Directives c).
Proof.
  intros [Hc Hd] Hf. unfold ConstraintHasFlow in Hf. apply orb_true_iff in Hf.
  destruct Hf as [Hf|Hf]; apply existsb_elem_of in Hf as (x & Hin & Hx); [left | right].
  - destruct x as [|k|cond]; [done | by destruct (Hc k) |]. cbn in Hx. bools.
    destruct cond; try done. by eexists.
  - destruct x as [|k|d]; [done | by destruct (Hd k) |]. unfold IsLabelOutputDirective in Hx.
    cbn in Hx. bools. destruct d; try done. by eexists.
Qed.

(** Skipping the flow path is only an optimisation.  For every constraint of a route's
    policy, the engine the route builds decides, writes and calls its backends exactly as
    the same engine with the flow path always wired, whatever handlers are registered. *)
Theorem flow_skip_unobservable counter store name caps ceiling ta ctx ec w :
  matched ec ∈ caps -> no_typed_nil (matched ec) ->
  let e := New (routeOptions counter store name caps ceiling ta) in
  evaluateMatched (wire_flow e) ctx ec w = evaluateMatched e ctx ec w.
Proof.
  intros Hc Hn e. destruct (skipFlow e) eqn:Es; [| by destruct e as [? ? ? ? [|] ? ?]].
  assert (ConstraintHasFlow (matched ec) = false) as Hf.
  { apply not_true_iff_false. intros Hf%ConstraintHasFlow_declared; [| done].
    pose proof (route_flow_wired counter store name caps ceiling ta _ Hc Hf) as Hw.
    unfold e in Es. congruence. }
  unfold evaluateMatched. destruct (CollectObligations _ _ _) as [obs od]. unfold bind at 1 2.
  assert (forall ctx', decideAnchored (wire_flow e) ctx' ec obs od
      (ResolveEffect (Effect (matched ec)) (Arguments (req ec))) w
    = decideAnchored e ctx' ec obs od (ResolveEffect (Effect (matched ec)) (Arguments (req ec))) w)
    as Hd; [| by rewrite Hd].
  intros ctx'. unfold decideAnchored. cbn [wire_flow anchors skipFlow].
  rewrite Hf, !andb_false_r. destruct (anchorUnresolved _ _); [done|].
  apply decideConditions_wire_flow.
Qed.

End construction.

(** ** The theorems on a small deployment *)

Definition demo_pure : string -> @PureHandler FxC FxF := fun _ _ _ _ => ret None.
Definition demo_commit : string -> @CommittingHandler FxC FxF := fun _ _ _ _ =>
  ret (mkDeferredCommit (CallCounter.mkBucket "" 0 false Float64.f_zero Float64.f_zero) None, false, None).

Definition demo_policy : list Constraint :=
  [fx_constraint "send" [Cond (SequenceBlock ["read"])] [];
   fx_constraint "read" [] [Dir (LabelOutput ["pii"])];
   fx_constraint "list" [Cond (Custom "x" VNull)] []].

Lemma route_wires_what_the_policy_needs_witness :
  skipFlow (New demo_pure demo_commit
              (routeOptions WiredValue WiredValue "r" demo_policy None false)) = false.
Proof.
  apply (route_wires_what_the_policy_needs demo_pure demo_commit WiredValue WiredValue "r" demo_policy
    None false (fx_constraint "read" [] [Dir (LabelOutput ["pii"])])).
  - apply list_elem_of_further, list_elem_of_here.
  - right. exists ["pii"]. apply list_elem_of_here.
Defined.

Lemma flow_skip_unobservable_witness :
  let e := New demo_pure demo_commit
             (routeOptions WiredValue WiredValue "r" [fx_constraint "list" [] []] None false) in
  let ec := fx_eval "list" [] [] in
  skipFlow e = true /\
  evaluateMatched (wire_flow e) (fx_ctx false) ec fx_world = evaluateMatched e (fx_ctx false) ec fx_world.
Proof.
  split; [vm_compute; reflexivity|].
  apply (flow_skip_unobservable demo_pure demo_commit WiredValue WiredValue "r"
    [fx_constraint "list" [] []] None false (fx_ctx false) (fx_eval "list" [] []) fx_world).
  - apply list_elem_of_here.
  - split; intros k Hk; inversion Hk.
Defined.

(** A condition handler registered under a directive's name answers for the directive: a
    handler called "labelOutput" that declares no subsystem switches the flow path off for
    a policy whose source is labelled, and the allowed source then records no label. *)
Lemma directive_named_handler_drops_flow :
  let e := New demo_pure demo_commit
             [WithCallCounter WiredValue; WithFlowLabelStore WiredValue;
              WithPolicyTokens (PolicyTokens [fx_constraint "read" [] [Dir (LabelOutput ["pii"])]]);
              WithConditionHandler DirectiveTypeLabelOutput
                (mkImpl (Some (demo_pure "")) None false (Declares usesNothing))] in
  let resp := (evaluateMatched e (fx_ctx false)
                 (fx_eval "read" [] [Dir (LabelOutput ["pii"])]) fx_world).1 in
  skipFlow e = true /\ Decision_ resp = DecisionAllow /\ LabelsOut resp = [].
Proof. vm_compute. done. Qed.

End Construction.
