(* ===== verification/Handlers.v ===== *)
(** * Counter-backed condition handlers

    The handlers of pkg/enforcement/handlers.go that read or charge the call counter
    (maxCalls and sequenceBlock), the guards they share, and the two extension points
    (policy and custom).  The policy evaluator is a third party's: it is a parameter. *)
From stdpp Require Import base tactics list gmap strings.
From Stdlib Require Import ZArith Lia Ascii String.
From S2P Require Import Prelude GoStrings Float64 CompositeKey CallCounter Capability Selection.
From S2P Require Import Anchor Backends Engine Fixtures EngineSafety.
#[local] Open Scope string_scope.
#[local] Open Scope go_scope.
Import Capability Selection Anchor Backends Engine Fixtures EngineSafety.

Module Handlers.

Section handlers.
Context {C F : Type} `{CallCounterBackend C} `{FlowStoreBackend F} `{Leaf}.

Abbreviation World := (World C F).
Abbreviation EngineState := (@EngineState C F).

(** castCondition's refusal of a condition of another type. *)
Definition castFault (k : CondKind) : ConditionError :=
  conditionFault (kind_type k) (Msgf "invalid %s condition type" [kind_type k]) [].

Record counterKeySpec := mkKeySpec {
  condType : string;
  namespace : string;
  subject : string;
  counterDetail : string;
}.

Definition maxCallsBucketSpec : counterKeySpec :=
  mkKeySpec ConditionTypeMaxCalls "maxcalls" "maxCalls condition" "".
Definition blastRadiusBucketSpec : counterKeySpec :=
  mkKeySpec (kind_type KBlastRadius) "blastradius" "a cumulative blastRadius bound"
    ", so a cumulative blast-radius bound cannot be enforced".
Definition sequenceHistorySpec : counterKeySpec :=
  mkKeySpec ConditionTypeSequenceBlock "seq" "sequenceBlock condition" "".

Definition counterSubjectGuards (e : EngineState) (r : option EnforceRequest)
    (spec : counterKeySpec) : option ConditionError :=
  if negb (counter e) then
    Some (conditionFault (condType spec) (Msg ("call counter not configured" ++ counterDetail spec)) [])
  else
    match r with
    | None =>
        Some (conditionFault (condType spec) (nilSeamRefusal (condType spec) "a nil request") [])
    | Some _ =>
        if String.eqb (ID (resolveAnchor (anchors e) r)) "" then
          Some (mkConditionError ErrCodeMissingContext (condType spec)
            (Msg ("sessionId is required for " ++ subject spec)) true [])
        else None
    end.

(** The key, whether the quota is skipped, and the refusal. *)
Definition quotaBucketKey (e : EngineState) (ctx : Ctx) (r : option EnforceRequest)
    (spec : counterKeySpec) : string * bool * option ConditionError :=
  match counterSubjectGuards e r spec, r with
  | Some condErr, _ => ("", false, Some condErr)
  | None, None => ("", false, None)
  | None, Some r =>
      let '(targetType, toolName) := sessionTargetKey r in
      if String.eqb toolName "" then
        ("", false, Some (mkConditionError ErrCodeMissingContext (condType spec)
          (Msg ("tool or resource name is required for " ++ subject spec)) true []))
      else if SkipQuota ctx then ("", true, None)
      else (anchoredKey (anchors e) (namespace spec) r [targetType; toolName], false, None)
  end.

(** The count and window of the condition, with the results of quotaBucketKey. *)
Definition maxCallsBucket (e : EngineState) (ctx : Ctx) (cond : Condition)
    (r : option EnforceRequest) : option (Z * Z) * string * bool * option ConditionError :=
  match cond with
  | MaxCalls count windowSeconds =>
      let '(key, skip, condErr) := quotaBucketKey e ctx r maxCallsBucketSpec in
      if bool_decide (is_Some condErr) || skip then (None, "", skip, condErr)
      else (Some (count, windowSeconds), key, false, None)
  | _ => (None, "", false, Some (castFault KMaxCalls))
  end.

Definition detailRetryAfterSeconds := "retry_after_seconds".

Definition retryAfterSeconds (d : duration) (windowSec : Z) : Z :=
  if (d <=? 0)%Z then windowSec
  else
    let secs := Z.quot d second in
    if negb (Z.rem d second =? 0)%Z then (secs + 1)%Z else secs.

Definition maxCallsRateLimited (count windowSeconds current retryAfterSec : Z) : ConditionError :=
  mkConditionError ErrCodeRateLimited ConditionTypeMaxCalls (Msg "call limit exceeded") false
    [("limit", VInt count); ("current", VInt current); ("window_seconds", VInt windowSeconds);
     (detailRetryAfterSeconds, VInt retryAfterSec)].

Definition zeroCommit : DeferredCommit :=
  mkDeferredCommit (CallCounter.mkBucket "" 0 false f_zero f_zero) None.

(** [maxCallsHandler.PrepareCommit].  The total the counter reports is a finite count. *)
Definition maxCallsPrepareCommit (e : EngineState) : @CommittingHandler C F := fun ctx cond r =>
  match maxCallsBucket e ctx cond (Some r) with
  | (_, _, _, Some condErr) => ret (zeroCommit, false, Some condErr)
  | (_, _, true, None) => ret (zeroCommit, true, None)
  | (None, _, false, None) => ret (zeroCommit, false, None)
  | (Some (count, windowSeconds), key, false, None) =>
      ret (mkDeferredCommit
             (CallCounter.mkBucket key windowSeconds true f_zero (of_Z count))
             (Some (fun total retryAfter =>
                Some (maxCallsRateLimited count windowSeconds (default 0%Z (f_trunc total))
                        (retryAfterSeconds retryAfter windowSeconds)))),
           false, None)
  end.

(** The loop over the antecedents. *)
Fixpoint sequenceLoop (an : anchoring) (r : EnforceRequest) (afterTools priors : list string)
    : M C F (option ConditionError) :=
  match priors with
  | [] => ret None
  | prior :: rest =>
      let '(priorType, priorTool) := splitEnginePrefix prior in
      let priorTool := TrimSpace priorTool in
      let priorTarget := priorType ++ ":" ++ priorTool in
      let key := sequenceHistoryKey an r priorType priorTool in
      let! looked := ctr_Peek key sequenceHistoryWindowSec in
      match looked with
      | Err err =>
          ret (Some (conditionFault ConditionTypeSequenceBlock
            (Msgf "session history lookup failed: %v" [err]) []))
      | Ok count =>
          if (0 <? count)%Z then
            let '(blockedType, blockedName) := sessionTargetKey r in
            let '(blockedDetail, blockedShown) :=
              if String.eqb blockedName "" then ("(unknown)", "(unknown)")
              else (blockedType ++ ":" ++ blockedName, blockedName) in
            let! _ := ctr_IncrementAndGet key sequenceHistoryWindowSec sequenceHistoryMaxEntries in
            ret (Some (mkConditionError ErrCodeConditionFailed ConditionTypeSequenceBlock
              (Msgf "%s %q was already called in this session; %s %q is blocked after it"
                 [priorType; priorTool; blockedType; blockedShown]) false
              [("afterTool", VString priorTarget); ("blockedTool", VString blockedDetail);
               ("afterTools", strings afterTools)]))
          else sequenceLoop an r afterTools rest
      end
  end.

Definition handleSequenceBlock (e : EngineState) : @PureHandler C F := fun ctx cond r =>
  match cond with
  | SequenceBlock afterTools =>
      if (List.length afterTools =? 0)%nat then
        ret (Some (conditionFault ConditionTypeSequenceBlock
          (Msg "sequenceBlock condition requires a non-empty 'afterTools' list naming the tools whose prior use blocks this call") []))
      else
        let emptyAfterTools :=
          List.filter (fun prior => String.eqb (TrimSpace (StripEnginePrefix prior)) "") afterTools in
        if (0 <? List.length emptyAfterTools)%nat then
          ret (Some (conditionFault ConditionTypeSequenceBlock
            (Msgf "sequenceBlock 'afterTools' contains entries that name no tool after the namespace prefix is stripped: %v" emptyAfterTools)
            [("emptyAfterTools", strings emptyAfterTools); ("afterTools", strings afterTools)]))
        else
          match counterSubjectGuards e (Some r) sequenceHistorySpec with
          | Some condErr => ret (Some condErr)
          | None => sequenceLoop (anchors e) r afterTools afterTools
          end
  | _ => ret (Some (castFault KSequenceBlock))
  end.

(** The embedder's evaluator: a computation on the backend, the configuration, the input
    and the request. *)
Definition PolicyEvaluator : Type :=
  Ctx -> string -> value -> value -> EnforceRequest -> M C F (option ConditionError).

Definition handlePolicy (policyEvaluator : option PolicyEvaluator) : @PureHandler C F :=
  fun ctx cond r =>
  match cond with
  | Policy backend config input =>
      match policyEvaluator with
      | None =>
          ret (Some (conditionFault ConditionTypePolicy
            (Msg "no policy evaluator configured; register one via WithPolicyEvaluator")
            [("backend", VString backend)]))
      | Some evaluate => evaluate ctx backend config input r
      end
  | _ => ret (Some (castFault KPolicy))
  end.

Definition handleCustom : @PureHandler C F := fun ctx cond r =>
  match cond with
  | Custom name _ =>
      ret (Some (conditionFault ConditionTypeCustom
        (Msgf "no handler registered for custom condition %q; register one via enforcement.WithConditionHandler" [name])
        [("name", VString name)]))
  | _ => ret (Some (castFault KCustom))
  end.

(** ** Lemmas *)

Lemma Passes_committing (e : EngineState) ctx r conds (w w' : World) d cond h ch :
  Passes e ctx r conds w w' d -> Cond cond ∈ conds ->
  handlers e !! ConditionType cond = Some h -> committing h = Some ch ->
  mkDeferred cond (ConditionType cond) ch ∈ d.
Proof.
  induction 1 as [w|c h' p' rest w w1 w2 d Eh Ec Ep Er HP IH|c h' ch' rest w w2 d Eh Ec HP IH];
    intros Hin Hh Hc; [by apply elem_of_nil in Hin | |].
  all: apply elem_of_cons in Hin as [[= ->]|Hin]; [rewrite Eh in Hh; injection Hh as <- |].
  - congruence.
  - by apply IH.
  - rewrite Ec in Hc. injection Hc as <-. apply list_elem_of_here.
  - by apply list_elem_of_further, IH.
Qed.

Lemma Passes_elem (e : EngineState) ctx r conds (w w' : World) d cond h p (P : World -> Prop) :
  Passes e ctx r conds w w' d -> handlers_preserve P e -> P w -> Cond cond ∈ conds ->
  handlers e !! ConditionType cond = Some h -> committing h = None -> pure h = Some p ->
  exists w1 w2, P w1 /\ p ctx cond r w1 = (None, w2).
Proof.
  intros HP Hpr. induction HP as [w|c h' p' rest w w1 w2 d Eh Ec Ep Er HP IH|c h' ch rest w w2 d Eh Ec HP IH];
    intros Hw Hin Hh Hc Hp; [by apply elem_of_nil in Hin | |].
  - apply elem_of_cons in Hin as [[= ->]|Hin].
    + rewrite Eh in Hh. injection Hh as <-. rewrite Ep in Hp. injection Hp as <-. by eauto.
    + apply IH; try done. eapply preserves_run; [| exact Er | done]. by apply (proj1 (Hpr _ _ Eh)).
  - apply elem_of_cons in Hin as [[= ->]|Hin]; [| by apply IH].
    rewrite Eh in Hh. injection Hh as <-. congruence.
Qed.

Lemma Prepares_elem ctx r deferred (w w' : World) l d :
  Prepares ctx r deferred w w' l -> d ∈ deferred ->
  exists w1 commit w2, d_handler d ctx (d_cond d) r w1 = (commit, false, None, w2) /\
    (Prepared commit = false \/ (commit, d_type d) ∈ l).
Proof.
  induction 1 as [w|d0 rest commit w w1 w2 l Er Hn HP IH|d0 rest commit w w1 w2 l Er Hn Hc HP IH];
    intros Hin; [by apply elem_of_nil in Hin | |].
  all: apply elem_of_cons in Hin as [->|Hin].
  - exists w, commit, w1. by auto.
  - by apply IH.
  - exists w, commit, w1. split; [done|]. right. apply list_elem_of_here.
  - destruct (IH Hin) as (wa & ca & wb & Ea & [Hp|Hp]); exists wa, ca, wb; split; try done; [by left|].
    right. by apply list_elem_of_further.
Qed.

Lemma anchoredKey_nonempty en ns r tail : ns <> "" -> anchoredKey en ns r tail <> "".
Proof.
  rewrite anchoredKey_parts, CompositeKey.CompositeKeyJoin_encode. by destruct ns.
Qed.

(** What the handler prepares when it is satisfied on a route that enforces. *)
Lemma maxCalls_prepares (e : EngineState) ctx n W r (w w' : World) commit :
  SkipQuota ctx = false ->
  maxCallsPrepareCommit e ctx (MaxCalls n W) r w = (commit, false, None, w') ->
  counter e = true /\ ID (resolveAnchor (anchors e) (Some r)) <> "" /\
  Bucket commit = CallCounter.mkBucket
    (anchoredKey (anchors e) "maxcalls" r [(sessionTargetKey r).1; (sessionTargetKey r).2])
    W true f_zero (of_Z n) /\ Prepared commit = true.
Proof.
  intros Hs. unfold maxCallsPrepareCommit, maxCallsBucket, quotaBucketKey, counterSubjectGuards.
  destruct (counter e); cbn [negb]; [| done].
  destruct (String.eqb_spec (ID (resolveAnchor (anchors e) (Some r))) "") as [|Hid]; [done|].
  destruct (sessionTargetKey r) as [ty tool]. destruct (String.eqb tool ""); [by cbn|].
  rewrite Hs. cbn -[anchoredKey]. intros [= <- <-]. split_and!; try done. cbn [Bucket].
  unfold Prepared. cbn [Bucket CallCounter.Key].
  destruct (String.eqb_spec (anchoredKey (anchors e) "maxcalls" r [ty; tool]) "") as [E|]; [| done].
  by apply anchoredKey_nonempty in E.
Qed.

(** ** Quotas *)

(** An allowed call on a route that enforces was prepared by every committing condition, and
    what was prepared was admitted in one batch. *)
Lemma allowed_prepares (e : EngineState) ctx ec cond (ch : CommittingHandler) (w : World) resp w' :
  handlers e !! ConditionType cond = Some (mkHandler None (Some ch)) ->
  Cond cond ∈ Conditions (matched ec) -> SkipQuota ctx = false ->
  evaluateMatched e ctx ec w = (resp, w') -> Decision_ resp = DecisionAllow ->
  exists ctx' (wa : World) commit wb,
    SkipQuota ctx' = false /\
    ctxResolvedEffect ctx' = Some (ResolveEffect (Effect (matched ec)) (Arguments (req ec))) /\
    ch ctx' cond (req ec) wa = (commit, false, None, wb) /\
    (Prepared commit = false \/
     exists batch (w1 w2 : World) r,
       ctr_AdmitAll batch w1 = (Ok r, w2) /\ CallCounter.admitted r = true /\ Bucket commit ∈ batch).
Proof.
  intros Hh Hin Hs E Ha.
  apply evaluateMatched_allow in E as (_ & _ & flow & carried & w0 & _ & HA); [| done].
  destruct HA as (deferred & w1 & w3 & HP & _ & _ & Hcom & _).
  assert (SkipQuota (decided_ctx ctx ec flow carried) = false) as Hs'.
  { unfold decided_ctx. by destruct flow. }
  destruct Hcom as [Hc|(l & w2 & HPr & Hadm)]; [congruence|].
  pose proof (Passes_committing _ _ _ _ _ _ _ _ _ _ HP Hin Hh eq_refl) as Hd.
  destruct (Prepares_elem _ _ _ _ _ _ _ HPr Hd) as (wa & commit & wb & Er & Hl).
  exists (decided_ctx ctx ec flow carried), wa, commit, wb.
  split_and!; [done | unfold decided_ctx; by destruct flow | done |].
  destruct Hl as [Hl|Hl]; [by left | right]. destruct Hadm as [[-> _]|(_ & r & Eadm & Hadm)].
  { by apply elem_of_nil in Hl. }
  eexists _, _, _, r. split_and!; [exact Eadm | done |].
  change (Bucket commit) with ((fun x : DeferredCommit * string => Bucket x.1) (commit, ConditionType cond)).
  by apply (list_elem_of_fmap_2 (fun x : DeferredCommit * string => Bucket x.1)).
Qed.

(** C4: A quota is charged for every call it lets through.  When a route that enforces
    allows a call under a constraint that declares maxCalls, one atomic admission of the
    counter admitted a batch that contains the bucket of this quota: keyed on the
    request's anchor, target type and target name, counting calls, with the declared limit
    and window. *)
Theorem allowed_call_is_counted (e : EngineState) ctx ec n W (w : World) resp w' :
  handlers e !! ConditionTypeMaxCalls = Some (mkHandler None (Some (maxCallsPrepareCommit e))) ->
  Cond (MaxCalls n W) ∈ Conditions (matched ec) -> SkipQuota ctx = false ->
  evaluateMatched e ctx ec w = (resp, w') -> Decision_ resp = DecisionAllow ->
  exists batch (w1 w2 : World) r,
    ctr_AdmitAll batch w1 = (Ok r, w2) /\ CallCounter.admitted r = true /\
    CallCounter.mkBucket
      (anchoredKey (anchors e) "maxcalls" (req ec)
         [(sessionTargetKey (req ec)).1; (sessionTargetKey (req ec)).2])
      W true f_zero (of_Z n) ∈ batch.
Proof.
  intros Hh Hin Hs E Ha.
  destruct (allowed_prepares e ctx ec (MaxCalls n W) _ w resp w' Hh Hin Hs E Ha)
    as (ctx' & wa & commit & wb & Hs' & _ & Er & Hl).
  apply maxCalls_prepares in Er as (_ & _ & Hb & Hp); [| done].
  destruct Hl as [?|(batch & w1 & w2 & r & Eadm & Hadm & Hin')]; [congruence|].
  rewrite Hb in Hin'. by eauto 7.
Qed.

(** ** Session history *)

Context `{!CallCounterLaws C}.

(** The history keys a recorded call is found under: its target, and the target its name
    spells when the name itself starts with a namespace token. *)
Definition historyKeys (e : EngineState) (r : EnforceRequest) : list string :=
  let '(targetType, tool) := sessionTargetKey r in
  let '(altType, altName) := splitEnginePrefix tool in
  ((if negb (String.eqb altName tool) then [sequenceHistoryKey (anchors e) r altType altName] else [])
   ++ [sequenceHistoryKey (anchors e) r targetType tool])%list.

Definition remembered (k : string) (w : World) : Prop :=
  marked (w_counter w) k sequenceHistoryWindowSec.

Lemma markCall_marks (e : EngineState) r t n (w w' : World) :
  markCall e r t n w = (None, w') -> remembered (sequenceHistoryKey (anchors e) r t n) w'.
Proof.
  unfold markCall. intros E. apply bind_inv in E as (res & w1 & Ei & E).
  apply ret_inv in E as [Er ->]. destruct res as [c|]; [| done].
  unfold ctr_IncrementAndGet, on_counter in Ei.
  destruct (counter_IncrementAndGet _ _ _ _) as [x c'] eqn:Ec. injection Ei as -> <-.
  by eapply incr_marks.
Qed.

Lemma increment_remembers k key W m : preserves (remembered k) (ctr_IncrementAndGet (F := F) key W m).
Proof.
  intros w Hw. unfold ctr_IncrementAndGet, on_counter, remembered in *.
  pose proof (incr_keeps (w_counter w) key W m k sequenceHistoryWindowSec Hw).
  by destruct (counter_IncrementAndGet _ _ _ _).
Qed.

Lemma peek_remembers k key W : preserves (remembered k) (ctr_Peek (F := F) key W).
Proof.
  intros w Hw. unfold ctr_Peek, on_counter, remembered in *.
  pose proof (peek_keeps (w_counter w) key W k sequenceHistoryWindowSec Hw).
  by destruct (counter_Peek _ _ _).
Qed.

(** A successful recording leaves every history key of the call remembered. *)
Lemma RecordSessionCall_remembers (e : EngineState) r (w w' : World) :
  skipAntecedentRecording e = false -> counter e = true -> anchorID e r <> "" ->
  (sessionTargetKey r).2 <> "" ->
  RecordSessionCall (Some e) (Some r) w = (None, w') ->
  Forall (fun k => remembered k w') (historyKeys e r).
Proof.
  intros Hs Hc Hid Hn. unfold RecordSessionCall, historyKeys. rewrite Hs, Hc. cbn [orb negb].
  apply String.eqb_neq in Hid. destruct (anchorUnresolved _ _); [done|]. rewrite Hid.
  destruct (sessionTargetKey r) as [ty tool]. cbn [snd] in Hn. apply String.eqb_neq in Hn. rewrite Hn.
  destruct (splitEnginePrefix tool) as [aty an]. intros E.
  apply bind_inv in E as (aerr & w1 & Ea & E). destruct aerr; [by apply ret_inv in E as [? _]|].
  pose proof (markCall_marks _ _ _ _ _ _ E) as Hm.
  destruct (negb (String.eqb an tool)); cbn [app]; [| by repeat constructor].
  apply markCall_marks in Ea. constructor; [| by repeat constructor].
  eapply preserves_run; [| exact E | exact Ea]. unfold markCall.
  apply preserves_bind; [apply increment_remembers | intros ?; apply preserves_ret].
Qed.

Lemma sequenceLoop_refuses (e : EngineState) r afterTools priors prior : forall (w w' : World) res,
  prior ∈ priors ->
  remembered (sequenceHistoryKey (anchors e) r (splitEnginePrefix prior).1
                (TrimSpace (splitEnginePrefix prior).2)) w ->
  sequenceLoop (anchors e) r afterTools priors w = (res, w') -> res <> None.
Proof.
  induction priors as [|p priors IH]; intros w w' res Hin Hm E; [by apply elem_of_nil in Hin|].
  cbn [sequenceLoop] in E. destruct (splitEnginePrefix p) as [pt pn] eqn:Es.
  apply bind_inv in E as (looked & w1 & El & E).
  assert (remembered (sequenceHistoryKey (anchors e) r (splitEnginePrefix prior).1
    (TrimSpace (splitEnginePrefix prior).2)) w1) as Hm1.
  { eapply preserves_run; [apply peek_remembers | exact El | exact Hm]. }
  destruct looked as [count|err]; [| by apply ret_inv in E as [-> _]].
  destruct (Z.ltb_spec 0 count) as [Hpos|Hz].
  { destruct (sessionTargetKey r) as [bt bn]. destruct (String.eqb bn ""); 
      apply bind_inv in E as (? & ? & _ & E); by apply ret_inv in E as [-> _]. }
  apply elem_of_cons in Hin as [->|Hin]; [| by eapply IH].
  exfalso. rewrite Es in Hm. cbn [fst snd] in Hm. unfold ctr_Peek, on_counter in El.
  destruct (counter_Peek _ _ _) as [x c'] eqn:Ec. injection El as -> _.
  apply peek_marked in Ec. apply Ec in Hm. lia.
Qed.

(** The handler, on a remembered antecedent. *)
Lemma handleSequenceBlock_refuses (e : EngineState) ctx afterTools prior r (w w' : World) res :
  prior ∈ afterTools ->
  remembered (sequenceHistoryKey (anchors e) r (splitEnginePrefix prior).1
                (TrimSpace (splitEnginePrefix prior).2)) w ->
  handleSequenceBlock e ctx (SequenceBlock afterTools) r w = (res, w') -> res <> None.
Proof.
  intros Hin Hm. cbn [handleSequenceBlock].
  destruct (_ =? 0)%nat; [by intros [-> _]%ret_inv|].
  destruct (0 <? _)%nat; [by intros [-> _]%ret_inv|].
  destruct (counterSubjectGuards _ _ _); [by intros [-> _]%ret_inv|].
  by eapply sequenceLoop_refuses.
Qed.

(** The gate itself forgets nothing. *)
Lemma handleSequenceBlock_remembers (e : EngineState) k ctx c r :
  preserves (remembered k) (handleSequenceBlock e ctx c r).
Proof.
  assert (forall afterTools priors, preserves (remembered k) (sequenceLoop (anchors e) r afterTools priors)) as Hl.
  { intros afterTools priors. induction priors as [|p priors IH]; [apply preserves_ret|].
    cbn [sequenceLoop]. destruct (splitEnginePrefix p) as [pt pn].
    apply preserves_bind; [apply peek_remembers|]. intros [count|err]; [| apply preserves_ret].
    destruct (0 <? count)%Z; [| apply IH]. destruct (sessionTargetKey r) as [bt bn].
    destruct (String.eqb bn "");
      (apply preserves_bind; [apply increment_remembers | intros ?; apply preserves_ret]). }
  unfold handleSequenceBlock. repeat case_match; first [apply preserves_ret | apply Hl].
Qed.

(** The keys of two requests under one anchor are the same. *)
Lemma sequenceHistoryKey_anchor en r1 r2 t n :
  resolveAnchor en (Some r1) = resolveAnchor en (Some r2) ->
  sequenceHistoryKey en r1 t n = sequenceHistoryKey en r2 t n.
Proof. intros Ea. unfold sequenceHistoryKey. by rewrite !anchoredKey_parts, Ea. Qed.

(** A sequence rule cannot be escaped.  Once a call has been recorded, no decision
    under the same anchor allows a request whose constraint says "not after that target",
    while the counter still remembers the record: whether the rule spells the recorded
    target or the target its name aliases, whatever the other conditions and handlers are
    (as long as they do not erase the record), and whether or not the lookups succeed. *)
Theorem sequence_gate (e : EngineState) r1 (w w1 : World) ctx ec afterTools prior k w2 resp w' :
  skipAntecedentRecording e = false -> counter e = true -> anchorID e r1 <> "" ->
  (sessionTargetKey r1).2 <> "" ->
  RecordSessionCall (Some e) (Some r1) w = (None, w1) ->
  resolveAnchor (anchors e) (Some (req ec)) = resolveAnchor (anchors e) (Some r1) ->
  handlers e !! ConditionTypeSequenceBlock = Some (mkHandler (Some (handleSequenceBlock e)) None) ->
  Cond (SequenceBlock afterTools) ∈ Conditions (matched ec) -> prior ∈ afterTools ->
  k ∈ historyKeys e r1 ->
  k = sequenceHistoryKey (anchors e) r1 (splitEnginePrefix prior).1
        (TrimSpace (splitEnginePrefix prior).2) ->
  (remembered k w1 -> remembered k w2) -> handlers_preserve (remembered k) e ->
  evaluateMatched e ctx ec w2 = (resp, w') -> Decision_ resp <> DecisionAllow.
Proof.
  intros Hs Hc Hid Hn Hrec Hanch Hh Hin Hprior Hk -> Hstill Hpres E Ha.
  pose proof (RecordSessionCall_remembers e r1 w w1 Hs Hc Hid Hn Hrec) as Hm.
  rewrite Forall_forall in Hm. apply Hm in Hk. apply Hstill in Hk.
  apply evaluateMatched_allow in E as (_ & _ & flow & carried & w0 & [_ Hp] & HA); [| done].
  set (k := sequenceHistoryKey _ _ _ _) in *.
  assert (remembered k w0) as Hk0.
  { destruct flow; [| by destruct Hp as [_ ->]].
    eapply preserves_run; [| exact Hp | exact Hk]. unfold peekSessionLabels.
    case_match; [apply preserves_ret|]. apply preserves_bind.
    - intros wx Hx. unfold flow_Get, on_flow, remembered in *. by destruct (store_Get _ _).
    - intros [?|?]; [case_match|]; apply preserves_ret. }
  destruct HA as (deferred & w3 & w4 & HP & _).
  destruct (Passes_elem _ _ _ _ _ _ _ _ _ _ (remembered k) HP Hpres Hk0 Hin Hh eq_refl eq_refl)
    as (wa & wb & Hwa & Hrun).
  eapply handleSequenceBlock_refuses in Hrun; [done | exact Hprior |].
  rewrite (sequenceHistoryKey_anchor _ _ _ _ _ Hanch). exact Hwa.
Qed.

End handlers.

(** ** The theorems on a small deployment *)

Definition demo_bare : @Engine.EngineState FxC FxF := fx_engine ∅ None.
Definition demo_counting : @Engine.EngineState FxC FxF :=
  fx_engine {[ ConditionTypeMaxCalls := mkHandler None (Some (maxCallsPrepareCommit demo_bare)) ]} None.
Definition demo_gated : @Engine.EngineState FxC FxF :=
  fx_engine {[ ConditionTypeSequenceBlock := mkHandler (Some (handleSequenceBlock demo_bare)) None ]} None.

Lemma demo_gated_remembers k : handlers_preserve (remembered k) demo_gated.
Proof.
  intros t h Hh. cbn [handlers demo_gated fx_engine] in Hh. apply lookup_singleton_Some in Hh as [_ <-].
  split; [intros p [= <-] ctx c r; apply handleSequenceBlock_remembers | done].
Qed.

Lemma allowed_call_is_counted_witness :
  exists batch (w1 w2 : Backends.World FxC FxF) r, ctr_AdmitAll batch w1 = (Ok r, w2) /\
    CallCounter.admitted r = true /\
    CallCounter.mkBucket "maxcalls:5:route:2:s1:4:tool:4:send" 60 true f_zero (of_Z 2) ∈ batch.
Proof.
  pose (ec := fx_eval "send" [Cond (MaxCalls 2 60)] []).
  destruct (evaluateMatched demo_counting (fx_ctx false) ec fx_world) as [resp w'] eqn:E0.
  destruct (allowed_call_is_counted demo_counting (fx_ctx false) ec 2 60 fx_world resp w')
    as (batch & w1 & w2 & r & E & Ha & Hb).
  - unfold demo_counting, fx_engine. cbn [handlers]. rewrite lookup_singleton_eq. reflexivity.
  - apply list_elem_of_here.
  - reflexivity.
  - exact E0.
  - apply (f_equal (fun x => Decision_ x.1)) in E0. vm_compute in E0. symmetry. exact E0.
  - exists batch, w1, w2, r. split; [exact E|]. split; [exact Ha|].
    replace (anchoredKey _ _ _ _) with "maxcalls:5:route:2:s1:4:tool:4:send" in Hb
      by (vm_compute; reflexivity). exact Hb.
Defined.

(** After "read_secrets" is recorded, "send" is refused by "not after read_secrets". *)
Lemma sequence_gate_witness :
  let w1 := (RecordSessionCall (Some demo_gated) (Some (fx_request "read_secrets")) fx_world).2 in
  let ec := fx_eval "send" [Cond (SequenceBlock ["tool:read_secrets"])] [] in
  Decision_ (evaluateMatched demo_gated (fx_ctx false) ec w1).1 <> DecisionAllow.
Proof.
  intros w1 ec.
  eapply (sequence_gate demo_gated (fx_request "read_secrets") fx_world w1 (fx_ctx false) ec
    ["tool:read_secrets"] "tool:read_secrets" "seq:5:route:2:s1:4:tool:12:read_secrets" w1).
  - reflexivity.
  - reflexivity.
  - vm_compute. congruence.
  - vm_compute. congruence.
  - vm_compute. reflexivity.
  - vm_compute. reflexivity.
  - unfold demo_gated, fx_engine. cbn [handlers]. rewrite lookup_singleton_eq. reflexivity.
  - apply list_elem_of_here.
  - apply list_elem_of_here.
  - vm_compute. apply list_elem_of_here.
  - vm_compute. reflexivity.
  - exact (fun x => x).
  - apply demo_gated_remembers.
  - apply surjective_pairing.
Defined.

End Handlers.
