(* ===== verification/FlowControl.v ===== *)
(** * Information-flow control

    The sink half of pkg/enforcement/flowlabel.go, and the source-to-sink theorems: an
    allowed source call taints its anchor, a tainted anchor never passes a sink that does
    not admit the label, and a call whose commit fails leaves no label behind.  Proved
    against the laws of the store's interface. *)
From stdpp Require Import base tactics list gmap strings fin_sets.
From Stdlib Require Import ZArith Lia Ascii String.
From S2P Require Import Prelude GoStrings CallCounter Capability Selection.
From S2P Require Import FlowLabelStore Anchor Backends Engine Fixtures EngineSafety Handlers.
#[local] Open Scope string_scope.
#[local] Open Scope go_scope.
Import Capability Selection Anchor Backends Engine Fixtures EngineSafety Handlers.

Module FlowControl.

Section flow.
Context {C F : Type} `{CallCounterBackend C} `{FlowStoreBackend F} `{Leaf}.

Abbreviation World := (World C F).
Abbreviation EngineState := (@EngineState C F).

Definition unionLabels (present declared : list string) : list string :=
  match declared with
  | [] => present
  | _ => NormalizeDeclaredLabels (present ++ declared)%list
  end.

Definition blockedLabels (allow present : list string) : list string :=
  List.filter (fun l => negb (one_of l allow)) present.

Definition flowLabelDenied (allow blocked declared : list string) : ConditionError :=
  mkConditionError ErrCodeConditionFailed ConditionTypeFlowLabel
    (Msgf "flow label(s) %v present in this session but not permitted at this sink" blocked) false
    ([("flow", VBool true); ("blockedLabel", VString (default "" (last blocked)));
      ("blockedLabels", strings blocked); ("allowLabels", strings allow)]
     ++ match declared with [] => [] | _ => [("declared_labels", strings declared)] end)%list.

Definition handleFlowLabel (e : EngineState) : @PureHandler C F := fun ctx cond r =>
  match cond with
  | FlowLabel allow =>
      if negb (forallb (fun l => bool_decide (ValidateFlowLabel l = None)) allow) then
        ret (Some (mkConditionError ErrCodeConditionFailed ConditionTypeFlowLabel
          (Msgf "flowLabel 'allow' is unusable: %v" []) false []))
      else if negb (flowStore e) then
        ret (Some (conditionFault ConditionTypeFlowLabel
          (Msg "flow-label store not configured; flow-label state is unavailable") []))
      else if String.eqb (anchorID e r) "" then
        ret (Some (mkConditionError ErrCodeMissingContext ConditionTypeFlowLabel
          (Msg "sessionId is required for flowLabel condition") true []))
      else
        let! peeked :=
          (match ctxCarriedLabels ctx with
           | Some labels => ret (Ok labels)
           | None => peekSessionLabels e r
           end) in
        match peeked with
        | Err err =>
            ret (Some (conditionFault ConditionTypeFlowLabel
              (Msgf "flow-label state lookup failed: %v" [err]) []))
        | Ok present =>
            let declared := NormalizeDeclaredLabels (DeclaredLabels r) in
            let present := unionLabels present declared in
            let blocked := blockedLabels allow present in
            match blocked with
            | [] => ret None
            | _ => ret (Some (flowLabelDenied allow blocked declared))
            end
        end
  | _ => ret (Some (castFault KFlowLabel))
  end.

(** ** Lemmas *)

Lemma elem_of_unionLabels present declared l :
  (forall x, x ∈ present -> ValidateFlowLabel x = None) ->
  (forall x, x ∈ declared -> ValidateFlowLabel x = None) ->
  l ∈ unionLabels present declared <-> l ∈ present \/ l ∈ declared.
Proof.
  intros Hp Hd. unfold unionLabels. destruct declared as [|a declared]; [set_solver|].
  unfold NormalizeDeclaredLabels. rewrite elem_of_Normalize, elem_of_app. naive_solver.
Qed.

(** A sink passes only when every present and every declared label is admitted. *)
Lemma handleFlowLabel_passes (e : EngineState) ctx allow r carried (w w' : World) :
  ctxCarriedLabels ctx = Some carried ->
  (forall l, l ∈ carried -> ValidateFlowLabel l = None) ->
  handleFlowLabel e ctx (FlowLabel allow) r w = (None, w') ->
  flowStore e = true /\ anchorID e r <> "" /\
  forall l, l ∈ carried \/ (l ∈ DeclaredLabels r /\ ValidateFlowLabel l = None) -> l ∈ allow.
Proof.
  intros Hc Hv E. cbn [handleFlowLabel] in E.
  destruct (forallb _ allow); cbn [negb] in E; [| done].
  destruct (flowStore e); cbn [negb] in E; [| done].
  destruct (String.eqb_spec (anchorID e r) ""); [done|].
  rewrite Hc in E. unfold bind, ret in E.
  split; [done|]. split; [done|]. intros l Hl.
  destruct (one_of l allow) eqn:Ea; [by apply one_of_spec|]. exfalso.
  assert (l ∈ blockedLabels allow (unionLabels carried (NormalizeDeclaredLabels (DeclaredLabels r))))
    as Hb.
  { unfold blockedLabels. rewrite elem_of_lfilter, Ea. split; [| done].
    apply elem_of_unionLabels; [done | |]; unfold NormalizeDeclaredLabels;
      [intros x; by rewrite elem_of_Normalize; intros [_ ?] |]. rewrite elem_of_Normalize. tauto. }
  destruct (blockedLabels _ _); [by apply elem_of_nil in Hb | done].
Qed.

Context `{!FlowStoreLaws F}.

Abbreviation labels_of w k := (taint (w_flow w) k).

(** A successful read returns the anchor's labels, all of them valid. *)
Lemma peek_reads (e : EngineState) r (w w' : World) carried :
  store_ok (w_flow w) -> peekSessionLabels e r w = (Ok carried, w') ->
  (forall l, l ∈ carried -> ValidateFlowLabel l = None) /\
  (skipFlow e = false -> flowStore e = true -> anchorID e r <> "" ->
   forall l, l ∈ carried <-> l ∈ labels_of w (flowKey (anchors e) r)).
Proof.
  intros Hok E. unfold peekSessionLabels in E.
  destruct (skipFlow e || negb (flowStore e) || String.eqb (anchorID e r) "") eqn:Eg.
  { apply ret_inv in E as [[= ->] ->]. split; [set_solver|]. intros Hs Hf Hid.
    apply String.eqb_neq in Hid. by rewrite Hs, Hf, Hid in Eg. }
  apply bind_inv in E as (res & w1 & Eget & E). destruct res as [present|err]; [| by apply ret_inv in E as [? _]].
  destruct (forallb _ present) eqn:Ev; apply ret_inv in E as [[= ->] ->].
  split; [intros l; by rewrite elem_of_Normalize; intros [_ ?]|]. intros _ _ _ l.
  rewrite elem_of_Normalize.
  unfold flow_Get, on_flow in Eget.
  destruct (store_Get (w_flow w) (flowKey (anchors e) r)) as [g f'] eqn:Es. injection Eget as -> _.
  rewrite (get_reads _ _ _ _ Hok Es). split; [by intros [? _]|]. intros Hl. split; [done|].
  rewrite forallb_elem_of in Ev. apply (get_reads _ _ _ _ Hok Es), Ev in Hl. by bools.
Qed.

(** ** Sinks *)

(** A sink that does not admit a label of the anchor or of the request refuses. *)
Lemma sink_refuses (e : EngineState) ctx ec allow l (w : World) resp w' :
  store_ok (w_flow w) -> skipFlow e = false ->
  handlers e !! ConditionTypeFlowLabel = Some (mkHandler (Some (handleFlowLabel e)) None) ->
  Cond (FlowLabel allow) ∈ Conditions (matched ec) ->
  l ∈ labels_of w (flowKey (anchors e) (req ec)) \/
    (l ∈ DeclaredLabels (req ec) /\ ValidateFlowLabel l = None) ->
  l ∉ allow ->
  evaluateMatched e ctx ec w = (resp, w') -> Decision_ resp <> DecisionAllow.
Proof.
  intros Hok Hskip Hh Hin Hl Hna E Ha.
  apply evaluateMatched_allow in E as (_ & _ & flow & carried & w0 & [Ef Hp] & HA); [| done].
  assert (ConstraintHasFlow (matched ec) = true) as Hflow.
  { unfold ConstraintHasFlow. apply orb_true_iff. left. apply existsb_elem_of. by eexists. }
  rewrite Hskip, Hflow in Ef. cbn in Ef. subst flow. cbn in Hp.
  destruct HA as (deferred & w1 & w3 & HP & _).
  destruct (peek_reads _ _ _ _ _ Hok Hp) as [Hv Hc].
  destruct (Passes_elem _ _ _ _ _ _ _ _ _ _ (fun _ => True) HP ltac:(by split) I Hin Hh eq_refl eq_refl)
    as (wa & wb & _ & Hrun).
  apply (handleFlowLabel_passes _ _ _ _ carried) in Hrun as (Hfs & Hid & Hall); [| done | done].
  apply Hna, Hall. destruct Hl as [Hl|Hl]; [left | by right]. by apply Hc.
Qed.

(** Data does not flow to a sink that does not admit it.  While an anchor carries a
    label (or the client declares one for the call) that a flowLabel condition of the
    governing constraint does not admit, no request under that anchor is allowed through
    the constraint, whatever the other conditions and handlers are and whatever they do to
    the store during the decision. *)
Theorem tainted_sink_never_allowed (e : EngineState) ctx ec allow l (w : World) resp w' :
  store_ok (w_flow w) -> skipFlow e = false ->
  handlers e !! ConditionTypeFlowLabel = Some (mkHandler (Some (handleFlowLabel e)) None) ->
  Cond (FlowLabel allow) ∈ Conditions (matched ec) ->
  l ∈ labels_of w (flowKey (anchors e) (req ec)) \/
    (l ∈ DeclaredLabels (req ec) /\ ValidateFlowLabel l = None) ->
  l ∉ allow ->
  evaluateMatched e ctx ec w = (resp, w') -> Decision_ resp <> DecisionAllow.
Proof. apply sink_refuses. Qed.

(** ** Sources *)

Definition store_fine (w : World) : Prop := store_ok (w_flow w).

(** The counter's operations leave the label store alone. *)
Lemma counter_keeps_flow {A} ev (op : C -> A * C) (w : World) :
  w_flow (on_counter ev op w).2 = w_flow w.
Proof. unfold on_counter. by destruct (op (w_counter w)). Qed.

Lemma RecordSessionCall_flow (e : EngineState) r (w : World) :
  w_flow (RecordSessionCall (Some e) (Some r) w).2 = w_flow w.
Proof.
  set (P := fun w' : World => w_flow w' = w_flow w).
  cut (preserves P (RecordSessionCall (Some e) (Some r))); [intros Hp; by apply (Hp w)|].
  assert (forall t n, preserves P (markCall e r t n)) as Hm.
  { intros t n. apply preserves_bind; [| intros a; apply preserves_ret].
    intros w' Hw'. unfold P, ctr_IncrementAndGet. by rewrite counter_keeps_flow. }
  unfold RecordSessionCall. repeat case_match; try apply preserves_ret.
  all: apply preserves_bind; [first [apply Hm | apply preserves_ret]|].
  all: intros [err|]; [apply preserves_ret | apply Hm].
Qed.

Lemma recordAntecedentIn_flow (e : EngineState) scope r (w : World) :
  w_flow (recordAntecedentIn e scope r w).2 = w_flow w.
Proof. unfold recordAntecedentIn. case_match; [done | apply RecordSessionCall_flow]. Qed.

(** The labels of a constraint's labelOutput directives, when all are valid. *)
Lemma outputLabels_Ok dirs : forall out,
  outputLabels dirs = Ok out ->
  (forall l, l ∈ out -> ValidateFlowLabel l = None) /\
  (forall ls l, Dir (LabelOutput ls) ∈ dirs -> l ∈ ls -> l ∈ out).
Proof.
  assert (forall (d : dir_iface) rest (out : list string), (forall ls, d <> Dir (LabelOutput ls)) ->
    (forall ls l, Dir (LabelOutput ls) ∈ rest -> l ∈ ls -> l ∈ out) ->
    forall ls l, Dir (LabelOutput ls) ∈ d :: rest -> l ∈ ls -> l ∈ out) as Hskip.
  { intros d rest out Hd Hr ls l [<-|Hin]%elem_of_cons Hl; [by destruct (Hd ls) | by eapply Hr]. }
  induction dirs as [|[|k|[fs|ls|n ob]] dirs IH]; intros out E; cbn [outputLabels] in E;
    try (destruct (IH out E) as [Hv Hi]; split; [done | by apply Hskip]).
  - injection E as <-. split; [set_solver|]. intros ls l Hin. by apply elem_of_nil in Hin.
  - destruct (forallb _ ls) eqn:Ev; [| done]. apply rbind_ok in E as (more & Em & [= <-]).
    destruct (IH more Em) as [Hv Hi]. rewrite forallb_elem_of in Ev. split.
    + intros l [Hl|Hl]%elem_of_app; [| by apply Hv]. apply Ev in Hl. by bools.
    + intros ls' l [[= ->]|Hin]%elem_of_cons Hl; apply elem_of_app; [by left | right].
      by eapply Hi.
Qed.

(** What recordLabels does to the labels of every key. *)
Lemma recordLabels_spec (e : EngineState) r c (w w' : World) res :
  store_fine w -> recordLabels e r (Some c) w = (res, w') ->
  let k := flowKey (anchors e) r in
  store_fine w' /\ (forall k', k' <> k -> labels_of w' k' = labels_of w k') /\
  match res with
  | Err _ => labels_of w' k = labels_of w k
  | Ok out => labels_of w' k = labels_of w k ∪ list_to_set out /\
      (out = [] \/ flowStore e = true /\ anchorID e r <> "") /\
      (skipFlow e = false -> forall ls l,
         Dir (LabelOutput ls) ∈ Directives c -> l ∈ ls -> l ∈ out)
  end.
Proof.
  intros Hok E. cbv zeta.
  assert (labels_of w (flowKey (anchors e) r) =
    labels_of w (flowKey (anchors e) r) ∪ list_to_set []) as Hnil by set_solver.
  unfold recordLabels in E. destruct (skipFlow e); [apply ret_inv in E as [-> ->]; split_and!; first [done | by left | auto]|].
  destruct (outputLabels (Directives c)) as [out|err] eqn:Eo; [| apply ret_inv in E as [-> ->]; split_and!; done].
  apply outputLabels_Ok in Eo as [Hv Hin].
  destruct out as [|l0 out0]; [apply ret_inv in E as [-> ->]; split_and!; first [done | by left | auto]|].
  set (out := l0 :: out0) in *.
  destruct (flowStore e); cbn [negb] in E; [| apply ret_inv in E as [-> ->]; split_and!; done].
  destruct (String.eqb_spec (anchorID e r) "") as [|Hid]; [apply ret_inv in E as [-> ->]; split_and!; done|].
  apply bind_inv in E as (err & w1 & EA & E). unfold flow_Add, on_flow in EA.
  pose proof (add_ok (w_flow w) (flowKey (anchors e) r) (NormalizeFlowLabels out) Hok) as Hok'.
  pose proof (add_other (w_flow w) (flowKey (anchors e) r) (NormalizeFlowLabels out)) as Hother.
  destruct (store_Add _ _ _) as [res' f'] eqn:Es. cbn [snd] in *. injection EA as <- <-.
  destruct res' as [err|]; apply ret_inv in E as [-> ->]; (split; [done|]); (split; [auto|]).
  - by eapply add_fails.
  - split; [by apply add_taints|]. split; [by right|]. intros _ ls l Hd Hl. rewrite elem_of_Normalize.
    split; [by eapply Hin | by eapply Hv, Hin].
Qed.

(** Reading the labels and committing the deferred conditions keep the store sound. *)
Lemma peek_keeps_store (e : EngineState) r : preserves store_fine (peekSessionLabels e r).
Proof.
  unfold peekSessionLabels. case_match; [apply preserves_ret|]. apply preserves_bind.
  - intros w Hw. unfold flow_Get, on_flow, store_fine in *.
    pose proof (get_ok _ (flowKey (anchors e) r) Hw). by destruct (store_Get _ _).
  - intros [?|?]; [case_match|]; apply preserves_ret.
Qed.

Lemma commit_keeps_store (e : EngineState) ctx ec deferred :
  Forall (deferred_preserves store_fine) deferred ->
  preserves store_fine (commitDeferredConditions e ctx ec deferred).
Proof.
  intros Hd. apply preserves_bind; [by apply prepareFrom_preserves|].
  intros [fs [p|r]]; [| apply preserves_ret]. apply preserves_bind; [| intros; apply preserves_ret].
  unfold admitPrepared. destruct (buckets p); [apply preserves_ret|]. case_match; [apply preserves_ret|].
  apply preserves_bind; [| intros [?|?]; [case_match|]; apply preserves_ret].
  intros w Hw. unfold store_fine, ctr_AdmitAll. by rewrite counter_keeps_flow.
Qed.

(** A committed source call leaves the labels of its constraint in the store. *)
Lemma recordSourceCall_taints (e : EngineState) r c antecedent carried (w w' : World) out ls l :
  store_fine w -> skipFlow e = false -> Dir (LabelOutput ls) ∈ Directives c -> l ∈ ls ->
  recordSourceCall e r (Some c) (mkScope true antecedent) carried w = (Ok out, w') ->
  l ∈ labels_of w' (flowKey (anchors e) r) /\ l ∈ out.
Proof.
  intros Hok Hskip Hdir Hl Hrec. unfold recordSourceCall in Hrec.
  destruct (anchorUnresolved _ _); [by apply ret_inv in Hrec as [? _]|]. cbn [Flow] in Hrec.
  apply bind_inv in Hrec as (res & w4 & Er & Hrec). destruct res as [out'|err]; [| by apply ret_inv in Hrec as [? _]].
  apply recordLabels_spec in Er as (_ & _ & Et & _ & Hout); [| done].
  apply bind_inv in Hrec as (aerr & w5 & Ea & Hrec).
  assert (w_flow w5 = w_flow w4) as Hw5.
  { pose proof (recordAntecedentIn_flow e (mkScope true antecedent) r w4) as Hf. by rewrite Ea in Hf. }
  destruct aerr as [aerr|]; [by apply bind_inv in Hrec as (? & ? & _ & [? _]%ret_inv)|].
  apply ret_inv in Hrec as [[= ->] ->]. rewrite Hw5, Et.
  specialize (Hout Hskip ls l Hdir Hl). set_solver.
Qed.

(** An allowed call's labels are in the store when its decision ends. *)
Lemma source_taints (e : EngineState) ctx ec (w : World) resp w' ls l :
  handlers_preserve store_fine e -> store_fine w -> skipFlow e = false ->
  Dir (LabelOutput ls) ∈ Directives (matched ec) -> l ∈ ls ->
  evaluateMatched e ctx ec w = (resp, w') -> Decision_ resp = DecisionAllow ->
  l ∈ labels_of w' (flowKey (anchors e) (req ec)) /\ l ∈ LabelsOut resp.
Proof.
  intros Hh Hok Hskip Hdir Hl E Ha.
  apply evaluateMatched_allow in E as (Hu & _ & flow & carried & w0 & [Ef Hp] & HA); [| done].
  assert (ConstraintHasFlow (matched ec) = true) as Hflow.
  { unfold ConstraintHasFlow. apply orb_true_iff. right. apply existsb_elem_of.
    exists (Dir (LabelOutput ls)). by split. }
  rewrite Hskip, Hflow in Ef. cbn in Ef. subst flow. cbn in Hp.
  destruct HA as (deferred & w1 & w3 & HP & _ & (faults & Hcom) & _ & Hrec).
  assert (store_fine w3) as Hok3.
  { eapply preserves_run; [| exact Hcom |].
    - eapply commit_keeps_store, Passes_deferred; done.
    - eapply Passes_preserves; [done | exact HP |].
      by eapply preserves_run; [apply peek_keeps_store | exact Hp |]. }
  destruct (recordSourceCall_taints _ _ _ _ _ _ _ _ ls l Hok3 Hskip Hdir Hl Hrec) as [Ht Hout].
  by split.
Qed.

Lemma flowKey_anchor en r1 r2 :
  resolveAnchor en (Some r1) = resolveAnchor en (Some r2) -> flowKey en r1 = flowKey en r2.
Proof. intros Ea. unfold flowKey. by rewrite !anchoredKey_parts, Ea. Qed.

(** C3: Labelled data stays out of the sinks that do not admit it.  Once a call whose
    constraint labels its output is allowed, every later decision under the same anchor
    refuses a call whose constraint has a flowLabel condition that does not admit the
    label, for as long as the store keeps the anchor's labels; whatever happens in between,
    and whichever sessions, targets and handlers are involved. *)
Theorem labelled_data_stays_out (e : EngineState) ctx1 ec1 (w w1 : World) resp1 ls l
    ctx2 ec2 allow (w2 w3 : World) resp2 :
  handlers_preserve store_fine e -> store_fine w -> skipFlow e = false ->
  handlers e !! ConditionTypeFlowLabel = Some (mkHandler (Some (handleFlowLabel e)) None) ->
  Dir (LabelOutput ls) ∈ Directives (matched ec1) -> l ∈ ls ->
  evaluateMatched e ctx1 ec1 w = (resp1, w1) -> Decision_ resp1 = DecisionAllow ->
  store_fine w2 ->
  labels_of w1 (flowKey (anchors e) (req ec1)) ⊆ labels_of w2 (flowKey (anchors e) (req ec1)) ->
  resolveAnchor (anchors e) (Some (req ec2)) = resolveAnchor (anchors e) (Some (req ec1)) ->
  Cond (FlowLabel allow) ∈ Conditions (matched ec2) -> l ∉ allow ->
  evaluateMatched e ctx2 ec2 w2 = (resp2, w3) -> Decision_ resp2 <> DecisionAllow.
Proof.
  intros Hp Hok Hskip Hh Hdir Hl E1 Ha Hok2 Hsub Hanch Hcond Hna E2.
  destruct (source_taints e ctx1 ec1 w resp1 w1 ls l) as [Ht _]; try done.
  eapply sink_refuses; try done. left. rewrite (flowKey_anchor _ _ _ Hanch). by apply Hsub.
Qed.

(** Taking out what a call added gives back the set it found. *)
Lemma undo_added (A : gset string) (out added : list string) :
  (forall l, l ∈ added <-> l ∈ out /\ l ∉ A) ->
  (A ∪ list_to_set out) ∖ list_to_set added = A.
Proof.
  intros Ha. apply set_eq. intros l. rewrite elem_of_difference, elem_of_union, !elem_of_list_to_set, Ha.
  destruct (decide (l ∈ A)); tauto.
Qed.

(** The first write of a source commit, in scope or not. *)
Lemma scopedLabels_spec (e : EngineState) r c (flow : bool) (w w' : World) res :
  store_fine w -> (if flow then recordLabels e r (Some c) else ret (Ok [])) w = (res, w') ->
  let k := flowKey (anchors e) r in
  store_fine w' /\ (forall k', k' <> k -> labels_of w' k' = labels_of w k') /\
  match res with
  | Err _ => labels_of w' k = labels_of w k
  | Ok out => labels_of w' k = labels_of w k ∪ list_to_set out /\ (flow = false -> out = []) /\
      (out = [] \/ flowStore e = true /\ anchorID e r <> "")
  end.
Proof.
  intros Hok E. cbv zeta. destruct flow.
  - apply recordLabels_spec in E as (? & ? & Hres); [| done]. split_and!; [done.. |].
    destruct res; [| done]. split_and!; [apply Hres | done | apply Hres].
  - apply ret_inv in E as [-> ->]. split_and!; [done.. | set_solver | done | by left].
Qed.

(** The compensation takes out exactly the labels added, unless the set is a task's. *)
Lemma rollbackLabels_spec (e : EngineState) r added (w w' : World) u :
  (forall f k ls, (store_Remove (F := F) f k ls).1 = None) -> store_fine w ->
  added = [] \/ flowStore e = true /\ anchorID e r <> "" ->
  rollbackLabels e r added w = (u, w') ->
  if anchoredOnTask (anchors e) r then w' = w
  else let k := flowKey (anchors e) r in
    labels_of w' k = labels_of w k ∖ list_to_set added /\
    forall k', k' <> k -> labels_of w' k' = labels_of w k'.
Proof.
  intros Hrem Hok Hw E. cbv zeta. unfold rollbackLabels in E.
  destruct (negb (flowStore e) || _ || _) eqn:Eg.
  { apply ret_inv in E as [_ ->]. case_match; [done|]. split; [| done].
    destruct Hw as [->|[Hfs Hid]]; [cbn; set_solver|].
    apply String.eqb_neq in Hid. rewrite Hfs, Hid in Eg.
    apply Nat.eqb_eq, length_zero_iff_nil in Eg. subst added. cbn. set_solver. }
  destruct (anchoredOnTask _ _); [by apply ret_inv in E as [_ ->]|].
  apply bind_inv in E as (x & w1 & Ew & E). apply ret_inv in E as [_ ->].
  unfold flow_Remove, on_flow in Ew.
  pose proof (Hrem (w_flow w) (flowKey (anchors e) r) added) as Hn.
  pose proof (remove_other (w_flow w) (flowKey (anchors e) r) added) as Hro.
  destruct (store_Remove _ _ _) as [x' f'] eqn:Es. cbn [fst snd] in *. subst x'. injection Ew as <- <-.
  split; [by apply remove_clears | auto].
Qed.

(** A refused commit leaves no label.  When the commit of a call's labels and history
    marker fails, the store ends as it began for a session-anchored request (given the set
    the decision read, and a store whose removals work): the labels this call added are
    taken out, and the ones earlier calls asserted stay.  For a task-anchored request,
    whose set other sessions may be writing, no label is ever lost. *)
Theorem failed_commit_leaves_no_label (e : EngineState) r c scope carried (w : World) err w' :
  store_fine w ->
  (forall f k ls, (store_Remove (F := F) f k ls).1 = None) ->
  (forall l, l ∈ carried <-> l ∈ labels_of w (flowKey (anchors e) r)) ->
  recordSourceCall e r (Some c) scope carried w = (Err err, w') ->
  (anchoredOnTask (anchors e) r = false -> forall k, labels_of w' k = labels_of w k) /\
  (forall k, labels_of w k ⊆ labels_of w' k).
Proof.
  intros Hok Hrem Hcar E.
  cut (if anchoredOnTask (anchors e) r then forall k, labels_of w k ⊆ labels_of w' k
       else forall k, labels_of w' k = labels_of w k).
  { destruct (anchoredOnTask (anchors e) r); [done|]. intros Heq. split; [done|].
    intros k. by rewrite Heq. }
  assert ((forall k, labels_of w' k = labels_of w k) ->
    if anchoredOnTask (anchors e) r then forall k, labels_of w k ⊆ labels_of w' k
    else forall k, labels_of w' k = labels_of w k) as Hsame.
  { intros Heq. case_match; [| done]. intros k. by rewrite Heq. }
  unfold recordSourceCall in E.
  destruct (anchorUnresolved _ _); [apply ret_inv in E as [_ ->]; by apply Hsame|].
  apply bind_inv in E as (res & w1 & Er & E).
  apply scopedLabels_spec in Er as (Hok1 & Hother & Hself); [| done].
  destruct res as [out|err'].
  2: { apply ret_inv in E as [_ ->]. apply Hsame. intros k.
       destruct (decide (k = flowKey (anchors e) r)) as [->|]; auto. }
  destruct Hself as (Hself & Hout & Hwired). apply bind_inv in E as (aerr & w2 & Ea & E).
  pose proof (recordAntecedentIn_flow e scope r w1) as Hf. rewrite Ea in Hf. cbn [snd] in Hf.
  destruct aerr as [aerr|]; [| by apply ret_inv in E as [? _]].
  apply bind_inv in E as (u & w3 & Eb & E). apply ret_inv in E as [_ ->].
  apply rollbackLabels_spec in Eb; [| done | unfold store_fine; by rewrite Hf |].
  2: { destruct Hwired as [->|?]; [left; by destruct (Flow scope) | by right]. }
  case_match; [subst w3 | destruct Eb as [Ek Eo]]; intros k.
  - rewrite Hf. destruct (decide (k = flowKey (anchors e) r)) as [->|Hne]; [set_solver|].
    rewrite Hother; done.
  - destruct (decide (k = flowKey (anchors e) r)) as [->|Hne]; [| by rewrite Eo, Hf, Hother].
    rewrite Ek, Hf, Hself. apply undo_added. intros l. rewrite <- Hcar. destruct (Flow scope).
    + unfold labelsAdded. by rewrite elem_of_lfilter, negb_true_iff, <- not_true_iff_false, one_of_spec.
    + rewrite (Hout eq_refl). set_solver.
Qed.

End flow.

(** ** The theorems on a small deployment *)

Definition demo_sinks : @Engine.EngineState FxC FxF :=
  fx_engine {[ ConditionTypeFlowLabel := mkHandler (Some (handleFlowLabel (fx_engine ∅ None))) None ]} None.

(** A world in which session "s1" carries "pii". *)
Definition demo_tainted : Backends.World FxC FxF :=
  (flow_Add (flowKey fx_anchors (fx_request "x")) ["pii"] fx_world).2.

Lemma demo_tainted_fine : store_fine demo_tainted.
Proof. split; vm_compute; split; congruence. Qed.

Lemma demo_sinks_preserve : handlers_preserve (store_fine (C := FxC) (F := FxF)) demo_sinks.
Proof.
  intros t h Hh. cbn [handlers demo_sinks fx_engine] in Hh. apply lookup_singleton_Some in Hh as [_ <-].
  split; [intros p [= <-] ctx c r | done]. unfold handleFlowLabel.
  repeat case_match; try apply preserves_ret.
  all: apply preserves_bind; [first [apply preserves_ret | apply peek_keeps_store] |].
  all: intros [?|?]; repeat case_match; apply preserves_ret.
Qed.

Lemma tainted_sink_never_allowed_witness :
  let ec := fx_eval "send" [Cond (FlowLabel ["public"])] [] in
  Decision_ (evaluateMatched demo_sinks (fx_ctx false) ec demo_tainted).1 <> DecisionAllow.
Proof.
  intros ec.
  apply (tainted_sink_never_allowed demo_sinks (fx_ctx false) ec ["public"] "pii" demo_tainted _
    (evaluateMatched demo_sinks (fx_ctx false) ec demo_tainted).2).
  - apply demo_tainted_fine.
  - reflexivity.
  - unfold demo_sinks, fx_engine. cbn [handlers]. rewrite lookup_singleton_eq. reflexivity.
  - apply list_elem_of_here.
  - left. vm_compute. reflexivity.
  - vm_compute. intros Hin. inversion Hin as [|? ? ? Hn]. inversion Hn.
  - apply surjective_pairing.
Defined.

(** Reading secrets and then sending, in one session. *)
Lemma labelled_data_stays_out_witness :
  let ec1 := fx_eval "read_secrets" [] [Dir (LabelOutput ["pii"])] in
  let ec2 := fx_eval "send" [Cond (FlowLabel ["public"])] [] in
  let w1 := (evaluateMatched demo_sinks (fx_ctx false) ec1 fx_world).2 in
  Decision_ (evaluateMatched demo_sinks (fx_ctx false) ec2 w1).1 <> DecisionAllow.
Proof.
  intros ec1 ec2 w1.
  apply (labelled_data_stays_out demo_sinks (fx_ctx false) ec1 fx_world w1
    (evaluateMatched demo_sinks (fx_ctx false) ec1 fx_world).1 ["pii"] "pii" (fx_ctx false) ec2 ["public"]
    w1 (evaluateMatched demo_sinks (fx_ctx false) ec2 w1).2).
  - apply demo_sinks_preserve.
  - split; vm_compute; split; congruence.
  - reflexivity.
  - unfold demo_sinks, fx_engine. cbn [handlers]. rewrite lookup_singleton_eq. reflexivity.
  - apply list_elem_of_here.
  - apply list_elem_of_here.
  - apply surjective_pairing.
  - vm_compute. reflexivity.
  - split; vm_compute; split; congruence.
  - reflexivity.
  - vm_compute. reflexivity.
  - apply list_elem_of_here.
  - vm_compute. intros Hin. inversion Hin as [|? ? ? Hn]. inversion Hn.
  - apply surjective_pairing.
Defined.

(** A counter with no room for the history marker. *)
Definition demo_full : Backends.World FxC FxF :=
  mkWorld (mkTimed fx_now (CallCounter.IncrementAndGet fx_now (CallCounter.NewInMemory 1 0) "other" 60 1).1)
    (w_flow fx_world) [].

Lemma failed_commit_leaves_no_label_witness :
  let c := fx_constraint "read_secrets" [] [Dir (LabelOutput ["pii"])] in
  let res := recordSourceCall demo_sinks (fx_request "read_secrets") (Some c) (mkScope true true) []
               demo_full in
  (exists err, res.1 = Err err) /\ forall k, taint (w_flow res.2) k = taint (w_flow demo_full) k.
Proof.
  intros c res. destruct res as [r w'] eqn:E.
  assert (exists err, r = Err err) as [err ->].
  { apply (f_equal fst) in E. vm_compute in E. subst r. eexists. reflexivity. }
  split; [eexists; reflexivity|].
  apply (failed_commit_leaves_no_label demo_sinks (fx_request "read_secrets") c (mkScope true true) []
    demo_full err w').
  - split; vm_compute; split; congruence.
  - intros f k ls. reflexivity.
  - intros l. split; intros Hl; [inversion Hl | vm_compute in Hl; discriminate Hl].
  - exact E.
  - vm_compute. reflexivity.
Defined.

End FlowControl.
