(* ===== verification/EffectHandlers.v ===== *)
(** * The effect conditions

    effectClass and blastRadius of pkg/enforcement/effect.go, as registered handlers of the
    engine, and the operations of pkg/capability and pkg/enforcement that [Engine.Leaf]
    leaves open, as an instance ([capability_leaf]) of it: the theorems of the engine hold
    of that instance. *)
From stdpp Require Import base tactics list gmap strings.
From Stdlib Require Import ZArith Lia Ascii String QArith SpecFloat.
From S2P Require Import Prelude GoStrings Float64 CompositeKey CallCounter Capability Selection.
From S2P Require Import Anchor Backends Engine Fixtures EngineSafety Handlers.
From S2P Require Import CaseFold Magnitude ArgumentPath Numeric Effect Schema DenialDetails.
#[local] Open Scope string_scope.
#[local] Open Scope go_scope.
Import Capability Selection Anchor Backends Engine Fixtures EngineSafety Handlers Numeric.

Module EffectHandlers.

(** ** The leaves of the engine *)

Section leaf.
Context `{U : Unicode}.

(** What stays open: Go's [regexp], the text of a schema error and of a magnitude. *)
Context (compilePattern : string -> option (string -> bool)).
Context (renderError : Schema.schemaError -> string) (Text : Q -> string).

Definition capability_leaf : Leaf := {|
  BoundDenialDetails := DenialDetails.BoundDenialDetails;
  ValidateArgumentSchema args s :=
    renderError <$> Schema.ValidateArgumentSchema compilePattern args s;
  ResolveEffect := Effect.ResolveEffect;
  parseBoundedNumber := Magnitude.parseBoundedNumber;
  magnitudeText := Text;
|}.
End leaf.

Section handlers.
Context {C F : Type} `{CallCounterBackend C} `{FlowStoreBackend F} `{Leaf} `{U : Unicode}.

Abbreviation World := (World C F).
Abbreviation EngineState := (@EngineState C F).

Definition condEffectClass := kind_type KEffectClass.
Definition condBlastRadius := kind_type KBlastRadius.

Definition resolvedEffectFromContext (ctx : Ctx) : option ResolvedEffect := ctxResolvedEffect ctx.

Definition effectDenial (eff : ResolvedEffect) (condType : string) (msg : message) (extra : details)
    : ConditionError :=
  mkConditionError ErrCodeConditionFailed condType msg false (AuditDetails eff ++ extra)%list.

(** ** effectClass *)

Definition handleEffectClass : @PureHandler C F := fun ctx cond r =>
  match cond with
  | EffectClass allow =>
      if (List.length allow =? 0)%nat then
        ret (Some (conditionFault condEffectClass
          (Msg "effectClass declares an empty 'allow' set, which admits no effect class") []))
      else
        match List.find (fun c => negb (Effect.IsEffectClass c)) allow with
        | Some c =>
            ret (Some (conditionFault condEffectClass
              (Msgf "effectClass 'allow' contains unknown class %q; valid effect classes are %s"
                 [c; String.concat ", " Effect.EffectClassVocabulary]) []))
        | None =>
            match resolvedEffectFromContext ctx with
            | None =>
                ret (Some (conditionFault condEffectClass
                  (Msg "effect contract was not resolved for this call; effect state is unavailable") []))
            | Some eff =>
                if one_of (Class_ eff) allow then ret None
                else
                  let sorted := Effect.SortedEffectClasses allow in
                  ret (Some (effectDenial eff condEffectClass
                    (Msgf "this call's effect class %q is not permitted at this target (permitted: %s)%s"
                       [Class_ eff; String.concat ", " sorted; unannotatedHint eff])
                    [("allow_effect_classes", strings sorted)]))
            end
        end
  | _ => ret (Some (castFault KEffectClass))
  end.

(** ** blastRadius *)

(** [limit.Float64()]. *)
Definition Float64_of (q : Q) : float64 := float_of_rat q.

Definition weightSummable (weight : float64) : bool :=
  if is_nan weight || is_inf weight then false
  else f_ge weight f_zero && f_le weight CallCounter.MaxWeightedTotal.

Record blastRadius := mkBlastRadius { br_Max : option string; br_MaxTotal : option string; br_Window : Z }.

Definition HasVelocity (br : blastRadius) : bool :=
  bool_decide (is_Some (br_MaxTotal br)) && (0 <? br_Window br)%Z.

Record blastRadiusBounds := mkBounds { perCall : option Q; cumulative : option Q }.

Definition parseBlastRadiusBounds (br : blastRadius) : result blastRadiusBounds ConditionError :=
  if negb (bool_decide (is_Some (br_Max br))) && negb (HasVelocity br) then
    Err (conditionFault condBlastRadius
      (Msg "blastRadius declares neither 'max' nor a complete 'maxTotal'/'windowSeconds' pair, so it bounds nothing") [])
  else
    let* perCall :=
      match br_Max br with
      | None => Ok None
      | Some max =>
          match parseBoundedNumber max with
          | None => Err (conditionFault condBlastRadius (Msgf "blastRadius 'max' is not a number (%q)" [max]) [])
          | Some limit => Ok (Some limit)
          end
      end in
    if negb (Bool.eqb (bool_decide (is_Some (br_MaxTotal br))) (0 <? br_Window br)%Z) then
      Err (conditionFault condBlastRadius
        (Msg "blastRadius declares half of a cumulative bound ('maxTotal' without a positive 'windowSeconds', or the reverse); each half silently disables the other, so neither is enforced") [])
    else
      match br_MaxTotal br with
      | Some maxTotal =>
          match parseBoundedNumber maxTotal with
          | None => Err (conditionFault condBlastRadius (Msgf "blastRadius 'maxTotal' is not a number (%q)" [maxTotal]) [])
          | Some limit =>
              if negb (weightSummable (Float64_of limit)) then
                Err (conditionFault condBlastRadius
                  (Msgf "blastRadius 'maxTotal' (%s) is outside the range a cumulative bound can sum, so no total could ever exceed it" [maxTotal]) [])
              else Ok (mkBounds perCall (Some limit))
          end
      | None => Ok (mkBounds perCall None)
      end.

Definition checkPerCallBlastRadius (br : blastRadius) (limit : Q) (eff : ResolvedEffect)
    : option ConditionError :=
  let max := default "" (br_Max br) in
  match BlastRadius eff with
  | None =>
      Some (effectDenial eff condBlastRadius
        (Msgf "this call's blast radius could not be quantified, so it cannot be shown to be within the bound of %s%s"
           [max; unannotatedHint eff]) [("blast_radius_max", VString max)])
  | Some q =>
      if Qle_bool q limit then None
      else Some (effectDenial eff condBlastRadius
        (Msgf "this call's blast radius %s exceeds the permitted maximum %s" [magnitudeText q; max])
        [("blast_radius_max", VString max)])
  end.

Definition velocityExtras (br : blastRadius) : details :=
  [("blast_radius_max_total", VString (default "" (br_MaxTotal br)));
   ("blast_radius_window_seconds", VInt (br_Window br))].

(** The bucket, whether the quota is skipped, and the refusal. *)
Definition velocityBucket (e : EngineState) (ctx : Ctx) (br : blastRadius) (limit : Q) (eff : ResolvedEffect)
    (r : EnforceRequest) : DeferredCommit * bool * option ConditionError :=
  let maxTotal := default "" (br_MaxTotal br) in
  let window := itoa (br_Window br) in
  match BlastRadius eff with
  | None =>
      (zeroCommit, false, Some (effectDenial eff condBlastRadius
        (Msgf "this call's blast radius could not be quantified, so it cannot be summed against the cumulative bound of %s per %ds%s"
           [maxTotal; window; unannotatedHint eff]) (velocityExtras br)))
  | Some q =>
      let weight := Float64_of q in
      let limitF := Float64_of limit in
      if negb (weightSummable weight) then
        (zeroCommit, false, Some (effectDenial eff condBlastRadius
          (Msgf "this call's blast radius %s is outside the range a cumulative bound can sum, so it cannot be shown to be within %s"
             [magnitudeText q; maxTotal]) (velocityExtras br)))
      else
        match quotaBucketKey e ctx (Some r) blastRadiusBucketSpec with
        | (_, _, Some condErr) => (zeroCommit, false, Some condErr)
        | (_, true, None) => (zeroCommit, true, None)
        | (key, false, None) =>
            (mkDeferredCommit (CallCounter.mkBucket key (br_Window br) false weight limitF)
               (Some (fun total retryAfter =>
                  Some (effectDenial eff condBlastRadius
                    (Msgf "this call's blast radius %s would take this session's cumulative total for the target past the permitted %s per %ds (already %s within the window)"
                       [magnitudeText q; maxTotal; window; FormatFixed total])
                    (velocityExtras br ++
                     [("blast_radius_total", VFloat total);
                      (detailRetryAfterSeconds, VInt (retryAfterSeconds retryAfter (br_Window br)))])%list))),
             false, None)
        end
  end.

(** [blastRadiusHandler.PrepareCommit]. *)
Definition blastRadiusPrepareCommit (e : EngineState) : @CommittingHandler C F := fun ctx cond r =>
  match cond with
  | BlastRadiusBound max maxTotal windowSeconds =>
      let br := mkBlastRadius max maxTotal windowSeconds in
      match parseBlastRadiusBounds br with
      | Err condErr => ret (zeroCommit, false, Some condErr)
      | Ok bounds =>
          match resolvedEffectFromContext ctx with
          | None =>
              ret (zeroCommit, false, Some (conditionFault condBlastRadius
                (Msg "effect contract was not resolved for this call; blast radius is unavailable") []))
          | Some eff =>
              match (match perCall bounds with
                     | Some limit => checkPerCallBlastRadius br limit eff
                     | None => None
                     end) with
              | Some condErr => ret (zeroCommit, false, Some condErr)
              | None =>
                  match cumulative bounds with
                  | None => ret (zeroCommit, false, None)
                  | Some limit => ret (velocityBucket e ctx br limit eff r)
                  end
              end
          end
      end
  | _ => ret (zeroCommit, false, Some (castFault KBlastRadius))
  end.

(** ** What a satisfied blastRadius prepares *)

Lemma quotaBucketKey_enforcing (e : EngineState) ctx r spec key :
  SkipQuota ctx = false -> quotaBucketKey e ctx (Some r) spec = (key, false, None) ->
  key = anchoredKey (anchors e) (namespace spec) r [(sessionTargetKey r).1; (sessionTargetKey r).2].
Proof.
  intros Hs. unfold quotaBucketKey. destruct (counterSubjectGuards e (Some r) spec); [done|].
  destruct (sessionTargetKey r) as [ty tool]. case_match; [done|]. rewrite Hs. by intros [= <-].
Qed.

(** The bounds a condition that parses declares. *)
Lemma parseBlastRadiusBounds_ok br b :
  parseBlastRadiusBounds br = Ok b ->
  perCall b = (br_Max br ≫= parseBoundedNumber) /\ cumulative b = (br_MaxTotal br ≫= parseBoundedNumber) /\
  (br_Max br <> None -> perCall b <> None) /\ (br_MaxTotal br <> None -> cumulative b <> None) /\
  (perCall b <> None \/ cumulative b <> None).
Proof.
  unfold parseBlastRadiusBounds, HasVelocity.
  destruct (br_Max br) as [m|], (br_MaxTotal br) as [t|]; cbn [option_bind mbind];
    rewrite ?bool_decide_true, ?bool_decide_false by (by eauto || by intros []);
    destruct (0 <? br_Window br)%Z; cbn [negb andb Bool.eqb]; try discriminate;
    try (destruct (parseBoundedNumber m) as [l|]; [| discriminate]);
    try (destruct (parseBoundedNumber t) as [l'|]; [| discriminate]);
    try (destruct (weightSummable _); [| discriminate]);
    intros [= <-]; cbn [perCall cumulative]; split_and!; auto.
Qed.

Lemma velocity_prepares (e : EngineState) ctx br limit eff r commit :
  SkipQuota ctx = false -> velocityBucket e ctx br limit eff r = (commit, false, None) ->
  exists q, BlastRadius eff = Some q /\ weightSummable (Float64_of q) = true /\
    Bucket commit = CallCounter.mkBucket
      (anchoredKey (anchors e) "blastradius" r [(sessionTargetKey r).1; (sessionTargetKey r).2])
      (br_Window br) false (Float64_of q) (Float64_of limit) /\
    Prepared commit = true.
Proof.
  intros Hs. unfold velocityBucket. destruct (BlastRadius eff) as [q|]; [| done].
  destruct (weightSummable (Float64_of q)) eqn:Hw; cbn [negb]; [| done].
  destruct (quotaBucketKey e ctx (Some r) blastRadiusBucketSpec) as [[key skip] err] eqn:Ek.
  destruct skip, err; try done. apply quotaBucketKey_enforcing in Ek; [| done].
  intros [= <-]. exists q. rewrite Ek. cbn [Bucket namespace blastRadiusBucketSpec]. split_and!; try done.
  unfold Prepared. cbn [Bucket CallCounter.Key].
  destruct (String.eqb_spec (anchoredKey (anchors e) "blastradius" r
    [(sessionTargetKey r).1; (sessionTargetKey r).2]) "") as [E|]; [| done].
  by apply anchoredKey_nonempty in E.
Qed.

Lemma blastRadius_prepares (e : EngineState) ctx max maxTotal W r eff (w w' : World) commit :
  SkipQuota ctx = false -> ctxResolvedEffect ctx = Some eff ->
  blastRadiusPrepareCommit e ctx (BlastRadiusBound max maxTotal W) r w = (commit, false, None, w') ->
  exists q, BlastRadius eff = Some q /\
    (forall m, max = Some m -> exists limit, parseBoundedNumber m = Some limit /\ (q <= limit)%Q) /\
    (forall t, maxTotal = Some t ->
       exists limit, parseBoundedNumber t = Some limit /\ weightSummable (Float64_of q) = true /\
         Bucket commit = CallCounter.mkBucket
           (anchoredKey (anchors e) "blastradius" r [(sessionTargetKey r).1; (sessionTargetKey r).2])
           W false (Float64_of q) (Float64_of limit) /\ Prepared commit = true).
Proof.
  intros Hs He. unfold blastRadiusPrepareCommit, resolvedEffectFromContext.
  destruct (parseBlastRadiusBounds (mkBlastRadius max maxTotal W)) as [b|] eqn:Eb; [| done].
  apply parseBlastRadiusBounds_ok in Eb as (Hp & Hc & Hpn & Hcn & Hone). cbn in Hp, Hc, Hpn, Hcn.
  rewrite He. intros E.
  assert (forall l, perCall b = Some l -> exists q, BlastRadius eff = Some q /\ (q <= l)%Q) as Hper.
  { intros l El. rewrite El in E. unfold checkPerCallBlastRadius in E.
    destruct (BlastRadius eff) as [q|]; [| done]. destruct (Qle_bool q l) eqn:Hq; [| done].
    apply Qle_bool_iff in Hq. eauto. }
  assert (forall l, cumulative b = Some l -> velocityBucket e ctx (mkBlastRadius max maxTotal W) l eff r
    = (commit, false, None)) as Hvel.
  { intros l El. rewrite El in E. case_match; [done|]. by injection E. }
  assert (exists q, BlastRadius eff = Some q) as [q Hq].
  { destruct (perCall b) as [l|]; [destruct (Hper l eq_refl) as (q & ? & _); eauto|].
    destruct (cumulative b) as [l|]; [| by destruct Hone].
    destruct (velocity_prepares _ _ _ _ _ _ _ Hs (Hvel l eq_refl)) as (q & ? & _); eauto. }
  exists q. split; [done|]. split.
  - intros m ->. destruct (perCall b) as [l|]; [| by destruct Hpn].
    exists l. split; [done|]. destruct (Hper l eq_refl) as (q' & Hq' & ?). by simplify_eq.
  - intros t ->. destruct (cumulative b) as [l|]; [| by destruct Hcn]. exists l. split; [done|].
    destruct (velocity_prepares _ _ _ _ _ _ _ Hs (Hvel l eq_refl)) as (q' & Hq' & ?). by simplify_eq.
Qed.

(** C6: An allowed call under a blastRadius condition, on a route that enforces, has a
    quantified magnitude, it is at most the per-call bound, and under a cumulative bound the
    counter admitted it: the magnitude was charged, in the bucket of the call's anchor and
    target, against the declared total and window. *)
Theorem allowed_blast_radius_bounded (e : EngineState) ctx ec max maxTotal W (w : World) resp w' :
  handlers e !! condBlastRadius = Some (mkHandler None (Some (blastRadiusPrepareCommit e))) ->
  Cond (BlastRadiusBound max maxTotal W) ∈ Conditions (matched ec) -> SkipQuota ctx = false ->
  evaluateMatched e ctx ec w = (resp, w') -> Decision_ resp = DecisionAllow ->
  exists q, BlastRadius (ResolveEffect (Effect (matched ec)) (Arguments (req ec))) = Some q /\
    (forall m, max = Some m -> exists limit, parseBoundedNumber m = Some limit /\ (q <= limit)%Q) /\
    (forall t, maxTotal = Some t ->
       exists limit batch (w1 w2 : World) r, parseBoundedNumber t = Some limit /\
         ctr_AdmitAll batch w1 = (Ok r, w2) /\ CallCounter.admitted r = true /\
         CallCounter.mkBucket
           (anchoredKey (anchors e) "blastradius" (req ec)
              [(sessionTargetKey (req ec)).1; (sessionTargetKey (req ec)).2])
           W false (Float64_of q) (Float64_of limit) ∈ batch).
Proof.
  intros Hh Hin Hs E Ha.
  destruct (allowed_prepares e ctx ec (BlastRadiusBound max maxTotal W) _ w resp w' Hh Hin Hs E Ha)
    as (ctx' & wa & commit & wb & Hs' & He & Er & Hl).
  destruct (blastRadius_prepares _ _ _ _ _ _ _ _ _ _ Hs' He Er) as (q & Hq & Hm & Ht).
  exists q. split_and!; [done.. |]. intros t Et. destruct (Ht t Et) as (limit & Hp & _ & Hb & Hprep).
  destruct Hl as [?|(batch & w1 & w2 & r & Eadm & Hadm & Hin')]; [congruence|].
  rewrite Hb in Hin'. by eauto 9.
Qed.

End handlers.

(** ** The bound as the decimal number it spells *)

Lemma parsed_le s t a b :
  Magnitude.parseBoundedNumber s = Some a -> Magnitude.parseBoundedNumber t = Some b -> (a <= b)%Q ->
  (Magnitude.decimal_value s <= Magnitude.decimal_value t)%Q.
Proof.
  intros [Ha Hs]%Magnitude.parse_read [Hb Ht]%Magnitude.parse_read Hle. apply Qnot_lt_le. intros Hlt.
  eapply Magnitude.literals_apart in Hlt; [| done..]. rewrite <- Ha, <- Hb in Hlt.
  by apply Qlt_not_le in Hlt.
Qed.

Section concrete.
Context {C F : Type} `{CallCounterBackend C} `{FlowStoreBackend F} `{U : Unicode}.
Context (compilePattern : string -> option (string -> bool)).
Context (renderError : Schema.schemaError -> string) (Text : Q -> string).

#[local] Instance deployed : Leaf := capability_leaf compilePattern renderError Text.

(** C7: When a tool's contract takes its magnitude from an argument, an allowed call under a
    per-call bound carries a number there whose decimal value lies between zero and the bound
    the policy spells: no rounding of either literal admits a call the policy excludes. *)
Theorem allowed_amount_within_max (e : @EngineState C F) ctx ec contract spec lit m maxTotal W
    (w : Backends.World C F) resp w' :
  handlers e !! condBlastRadius = Some (mkHandler None (Some (blastRadiusPrepareCommit e))) ->
  Cond (BlastRadiusBound (Some m) maxTotal W) ∈ Conditions (matched ec) -> SkipQuota ctx = false ->
  Capability.Effect (matched ec) = Some contract -> ct_ByArgument contract = None ->
  ct_BlastRadius contract = Some spec -> brs_Value spec = None ->
  ArgumentPath.ResolveArgument (Arguments (req ec)) (brs_Argument spec) = Some (VNumber lit) ->
  evaluateMatched e ctx ec w = (resp, w') -> Decision_ resp = DecisionAllow ->
  (0 <= Magnitude.decimal_value lit <= Magnitude.decimal_value m)%Q.
Proof.
  intros Hh Hin Hs Hc Ht Hb Hv Ha E Hd.
  destruct (allowed_prepares e ctx ec (BlastRadiusBound (Some m) maxTotal W) _ w resp w' Hh Hin Hs E Hd)
    as (ctx' & wa & commit & wb & Hs' & He & Er & _).
  destruct (blastRadius_prepares _ _ _ _ _ _ _ _ _ _ Hs' He Er) as (q & Hq & Hm & _).
  destruct (Hm m eq_refl) as (limit & Hl & Hle). clear - Hc Ht Hb Hv Ha Hq Hl Hle.
  cbn in Hq. rewrite Hc in Hq. unfold Effect.ResolveEffect, Effect.overlay in Hq.
  rewrite Ht, Hb in Hq. cbn in Hq. unfold Effect.resolve, Effect.resolveRaw in Hq. rewrite Hv in Hq.
  destruct (String.eqb _ ""); [done|]. rewrite Ha in Hq.
  destruct (Magnitude.ParseBlastRadiusNumber lit) as [v|] eqn:Ev; [| done].
  destruct (Qle_bool 0 v) eqn:Hz; [| done]. simplify_eq. apply Qle_bool_iff in Hz.
  split; [| by eapply parsed_le].
  change 0%Q with (Magnitude.decimal_value "0"). by eapply (parsed_le "0" lit 0%Q).
Qed.

End concrete.

(** ** The theorems on a small deployment *)

#[local] Instance fx_deployed : Leaf :=
  @capability_leaf CaseFold.asciiTables (fun _ => None) (fun _ => "schema error") (fun _ => "").

Definition fx_spec : BlastRadiusSpec := mkBlastRadiusSpec None "amount" "".
Definition fx_contract : EffectContract :=
  mkEffectContract EffectReversible false "" (Some fx_spec) None "".

Definition demo_spender : @Engine.EngineState FxC FxF :=
  fx_engine {[ condBlastRadius := mkHandler None
    (Some (blastRadiusPrepareCommit (fx_engine ∅ None))) ]} None.

(** A transfer of 12.50 under a bound of 100 a call. *)
Definition fx_transfer : evalCtx :=
  mkEvalCtx (mkRequest "s1" "send" [("amount", VNumber "12.50")] "" "" None ∅ [] [])
    (mkConstraint "send" ["call"] "" "" None ∅ (Some fx_contract)
       [Cond (BlastRadiusBound (Some "100") (Some "250") 60)] []) "r1" "now".

Lemma demo_spender_handler :
  handlers demo_spender !! condBlastRadius =
  Some (mkHandler None (Some (blastRadiusPrepareCommit demo_spender))).
Proof. unfold demo_spender, fx_engine. cbn [handlers]. rewrite lookup_singleton_eq. reflexivity. Qed.

Lemma demo_spender_allows :
  Decision_ (evaluateMatched demo_spender (fx_ctx false) fx_transfer fx_world).1 = DecisionAllow.
Proof. vm_compute. reflexivity. Qed.

Lemma allowed_blast_radius_bounded_witness :
  exists q, BlastRadius (Engine.ResolveEffect (Some fx_contract) [("amount", VNumber "12.50")]) = Some q /\
    exists limit batch (w1 w2 : Backends.World FxC FxF) r,
      Engine.parseBoundedNumber "250" = Some limit /\ ctr_AdmitAll batch w1 = (Ok r, w2) /\
      CallCounter.admitted r = true /\
      CallCounter.mkBucket "blastradius:5:route:2:s1:4:tool:4:send" 60 false (Float64_of q) (Float64_of limit)
        ∈ batch.
Proof.
  destruct (evaluateMatched demo_spender (fx_ctx false) fx_transfer fx_world) as [resp w'] eqn:E0.
  destruct (allowed_blast_radius_bounded demo_spender (fx_ctx false) fx_transfer (Some "100") (Some "250") 60
    fx_world resp w') as (q & Hq & _ & Ht).
  - apply demo_spender_handler.
  - apply list_elem_of_here.
  - reflexivity.
  - exact E0.
  - pose proof demo_spender_allows as Hd. rewrite E0 in Hd. exact Hd.
  - destruct (Ht "250" eq_refl) as (limit & batch & w1 & w2 & r & Hl & Ea & Hr & Hb).
    exists q. split; [exact Hq|]. exists limit, batch, w1, w2, r. split; [exact Hl|].
    split; [exact Ea|]. split; [exact Hr|].
    replace (anchoredKey _ _ _ _) with "blastradius:5:route:2:s1:4:tool:4:send" in Hb
      by (vm_compute; reflexivity). exact Hb.
Defined.

Lemma allowed_amount_within_max_witness :
  (0 <= Magnitude.decimal_value "12.50" <= Magnitude.decimal_value "100")%Q.
Proof.
  destruct (evaluateMatched demo_spender (fx_ctx false) fx_transfer fx_world) as [resp w'] eqn:E0.
  apply (allowed_amount_within_max (fun _ => None) (fun _ => "schema error") (fun _ => "")
    demo_spender (fx_ctx false) fx_transfer fx_contract fx_spec "12.50" "100" (Some "250") 60 fx_world resp w').
  - apply demo_spender_handler.
  - apply list_elem_of_here.
  - reflexivity.
  - reflexivity.
  - reflexivity.
  - reflexivity.
  - reflexivity.
  - vm_compute. reflexivity.
  - exact E0.
  - pose proof demo_spender_allows as Hd. rewrite E0 in Hd. exact Hd.
Defined.

End EffectHandlers.
