(* ===== verification/ArgumentHandlers.v ===== *)
(** * Conditions on the call and its arguments

    timeWindow, ipRange, allowedOperations, allowedExtensions, allowedTables,
    recipientDomain and allowedValues: the handlers of pkg/enforcement/handlers.go with the
    argument parsers they share, and the load-time compilation of the conditions
    (pkg/capability/condition.go).  Each handler decides a declarative reading of its
    condition ([satisfies]), compiled or not. *)
From stdpp Require Import base tactics list gmap strings.
From Stdlib Require Import ZArith Lia Ascii String.
From S2P Require Import Prelude GoStrings GoPath Float64 Truncate Runes CallCounter Glob Capability Selection.
From S2P Require Import Anchor Backends Engine Fixtures EngineSafety Handlers.
From S2P Require Import CaseFold Magnitude ArgumentPath Numeric.
#[local] Open Scope string_scope.
#[local] Open Scope go_scope.
#[local] Arguments String.append : simpl nomatch.
Import Capability Selection Anchor Backends Engine Fixtures EngineSafety Handlers Numeric ArgumentPath.

(** What the handlers use of Go's net and time packages. *)
Class GoNet := {
  IP : Type;
  IPNet : Type;
  ParseIP : string -> option IP;
  ParseCIDR : string -> option IPNet;
  Contains : IPNet -> IP -> bool;
  ParseRFC3339 : string -> option time;
  FormatRFC3339 : time -> string;
}.

Module ArgumentHandlers.

(** ** Go's strings and path packages *)

Definition IsSpace (r : Z) : bool :=
  GoPath.in_range 9 13 r || (r =? 32)%Z || (r =? 133)%Z || (r =? 160)%Z || (r =? 5760)%Z || GoPath.in_range 8192 8202 r
  || (r =? 8232)%Z || (r =? 8233)%Z || (r =? 8239)%Z || (r =? 8287)%Z || (r =? 12288)%Z.

Definition contains_space (s : string) : bool := existsb IsSpace (Runes.runesOf s).

Definition last_part (c : ascii) (s : string) : string := List.last (split_char c s) "".

(** [path.Ext]. *)
Definition Ext (p : string) : string :=
  let seg := last_part "/" p in
  if contains_char "." seg then "." ++ last_part "." seg else "".

Fixpoint all_char (c : ascii) (s : string) : bool :=
  match s with
  | EmptyString => true
  | String d s => Ascii.eqb c d && all_char c s
  end.

(** [strings.TrimRight(s, "/")]. *)
Fixpoint trim_slashes (s : string) : string :=
  match s with
  | EmptyString => EmptyString
  | String d s' => if all_char "/" s then EmptyString else String d (trim_slashes s')
  end.

(** [path.Base]. *)
Definition Base (p : string) : string :=
  if String.eqb p "" then "."
  else let p := trim_slashes p in if String.eqb p "" then "/" else last_part "/" p.

(** [strings.TrimLeft(s, ".")]. *)
Fixpoint trim_dots (s : string) : string :=
  match s with
  | String d s' => if Ascii.eqb d "." then trim_dots s' else s
  | EmptyString => EmptyString
  end.

(** [fmt]'s %T. *)
Definition typeName (v : value) : string :=
  match v with
  | VNull => "<nil>"
  | VBool _ => "bool"
  | VNumber _ => "json.Number"
  | VInt _ => "int"
  | VFloat _ => "float64"
  | VString _ => "string"
  | VBytes _ => "[]uint8"
  | VStrings _ => "[]string"
  | VArray _ => "[]interface {}"
  | VObject _ => "map[string]interface {}"
  end.

Section compile.
Context `{U : Unicode} {N : GoNet}.

(** ** Compilation of conditions (condition.go)

    A condition that went through the loader carries what its Compile computed; one built by
    a library caller carries nothing.  The slot is an argument of the accessors. *)

Definition trim_lower (s : string) : string := ToLower (TrimSpace s).

(** *** timeWindow *)

Record compiledTimeWindow := mkWindow { notBefore : time; notAfter : time }.

Inductive compile_error :=
| ErrNotBefore (s : string)
| ErrNotAfter (s : string)
| ErrCIDR (s : string)
| ErrColumns (prior table : string).

(** A blank bound is the zero Time; the handler never looks at it. *)
Definition compileTimeWindow (before after : string) : result compiledTimeWindow compile_error :=
  let* nb := if String.eqb before "" then Ok 0%Z
             else match ParseRFC3339 before with Some t => Ok t | None => Err (ErrNotBefore before) end in
  let* na := if String.eqb after "" then Ok 0%Z
             else match ParseRFC3339 after with Some t => Ok t | None => Err (ErrNotAfter after) end in
  Ok (mkWindow nb na).

(** *** ipRange *)

Fixpoint compileCIDRs (cidrs : list string) : result (list IPNet) compile_error :=
  match cidrs with
  | [] => Ok []
  | cidr :: rest =>
      match ParseCIDR cidr with
      | None => Err (ErrCIDR cidr)
      | Some network => let* parsed := compileCIDRs rest in Ok (network :: parsed)
      end
  end.

(** *** allowedOperations *)

Definition compileOperations (operations : list string) : list string := map TrimSpace operations.

Definition MatchOperation (allowed : list string) (op : string) : bool :=
  existsb (fun a => CaseFold.EqualFold (TrimSpace a) op) allowed.

Definition AllowsOperation (compiled : option (list string)) (operations : list string) (op : string) : bool :=
  MatchOperation (default operations compiled) op.

(** *** allowedExtensions *)

Definition dotted (n : string) : string := if has_prefix n "." then n else "." ++ n.

Fixpoint normalizeLoop (seen exts : list string) : list string :=
  match exts with
  | [] => []
  | ext :: exts =>
      let n := trim_lower ext in
      if String.eqb n "" then normalizeLoop seen exts
      else
        let n := dotted n in
        if one_of n seen then normalizeLoop seen exts else n :: normalizeLoop (n :: seen) exts
  end.

Definition normalizeExtensions (exts : list string) : list string := normalizeLoop [] exts.

Definition MatchExtensions (compiled : option (list string)) (exts : list string) : list string :=
  default (normalizeExtensions exts) compiled.

(** *** allowedTables *)

Record compiledTables := mkTables {
  tables : list string;
  columnsByTable : list (string * list string);
  columnSets : list (string * list string);
}.

Fixpoint columnScan (seen : list (string * string)) (columns : list (string * list string))
    : option compile_error :=
  match columns with
  | [] => None
  | (table, _) :: rest =>
      let key := trim_lower table in
      match List.find (fun e => String.eqb e.1 key) seen with
      | None => columnScan ((key, table) :: seen) rest
      | Some (_, prior) =>
          Some (if String.ltb table prior then ErrColumns table prior else ErrColumns prior table)
      end
  end.

Definition checkColumnKeyCollision (columns : list (string * list string)) : option compile_error :=
  columnScan [] columns.

Definition compileTables (tbls : list string) (columns : list (string * list string)) : compiledTables :=
  mkTables (map trim_lower tbls)
    (map (fun '(table, cols) => (trim_lower table, cols)) columns)
    (map (fun '(table, cols) => (trim_lower table, map trim_lower cols)) columns).

Definition compileAllowedTables (tbls : list string) (columns : list (string * list string))
    : result compiledTables compile_error :=
  match checkColumnKeyCollision columns with
  | Some err => Err err
  | None => Ok (compileTables tbls columns)
  end.

(** A Go map read: the entry of the key. *)
Definition entry_of {A} (k : string) (m : list (string * A)) : option A :=
  snd <$> List.find (fun e => String.eqb e.1 k) m.

(** *** recipientDomain *)

Definition normalizeDomains (domains : list string) : list string := map trim_lower domains.

Definition MatchDomains (compiled : option (list string)) (domains : list string) : list string :=
  default (normalizeDomains domains) compiled.

End compile.

(** ** Handlers (handlers.go) *)

Section handlers.
Context {C F : Type} `{CallCounterBackend C} `{FlowStoreBackend F} `{U : Unicode} {N : GoNet}.

Abbreviation World := (World C F).

(** Whether the conditions came through the loader, and the instant of the decision. *)
Context (loaded : bool) (now : time).

(** The slot a loaded condition carries. *)
Definition slot {A} (compiled : A) : option A := if loaded then Some compiled else None.

(** The verdict of a condition of the given kind. *)
Definition refuse (code : string) (k : CondKind) (msg : message) (dets : details) : option ConditionError :=
  Some (mkConditionError code (kind_type k) msg false dets).

Definition compileMessage (err : compile_error) : message :=
  match err with
  | ErrNotBefore s => Msgf "invalid notBefore time %q: %w" [s]
  | ErrNotAfter s => Msgf "invalid notAfter time %q: %w" [s]
  | ErrCIDR s => Msgf "invalid CIDR in condition: invalid CIDR %q: %w" [s]
  | ErrColumns prior table =>
      Msgf "allowedTables condition could not be compiled: allowedTables 'columns' has case-colliding keys %+q and %+q, which address the same table (names are trimmed and lowercased, the same rule the matcher applies); one column allowlist would shadow the other, so merge them under a single key"
        [prior; table]
  end.

(** What the handler works with: the slot, or a compiled local copy. *)
Definition compiled_or_local {A} (compile : result A compile_error) : result A compile_error :=
  let cached := if loaded then match compile with Ok c => Some c | Err _ => None end else None in
  match cached with
  | Some compiled => Ok compiled
  | None => compile
  end.

(** *** timeWindow *)

Definition checkTimeWindow (before after : string) : option ConditionError :=
  if String.eqb before "" && String.eqb after "" then
    Some (conditionFault (kind_type KTimeWindow)
      (Msg "timeWindow condition declares neither notBefore nor notAfter; a window with no bounds restricts nothing") [])
  else
    match compiled_or_local (compileTimeWindow before after) with
    | Err err => Some (conditionFault (kind_type KTimeWindow) (compileMessage err) [])
    | Ok w =>
        if negb (String.eqb before "") && (now <? notBefore w)%Z then
          refuse ErrCodeConditionFailed KTimeWindow (Msg "request is before the allowed time window")
            [("notBefore", VString before); ("now", VString (FormatRFC3339 now))]
        else if negb (String.eqb after "") && negb (now <? notAfter w)%Z then
          refuse ErrCodeConditionFailed KTimeWindow (Msg "request is at or after the allowed time window")
            [("notAfter", VString after); ("now", VString (FormatRFC3339 now))]
        else None
    end.

Definition handleTimeWindow : @PureHandler C F := fun ctx cond r =>
  match cond with
  | TimeWindow before after => ret (checkTimeWindow before after)
  | _ => ret (Some (castFault KTimeWindow))
  end.

(** *** ipRange *)

Definition checkIPRange (cidrs : list string) (sourceIP : string) : option ConditionError :=
  if String.eqb sourceIP "" then
    refuse ErrCodeMissingContext KIPRange (Msg "sourceIp is required for ipRange condition") []
  else
    match ParseIP sourceIP with
    | None => refuse ErrCodeConditionFailed KIPRange (Msgf "invalid source IP: %s" [sourceIP]) []
    | Some ip =>
        match compiled_or_local (compileCIDRs cidrs) with
        | Err err => Some (conditionFault (kind_type KIPRange) (compileMessage err) [])
        | Ok networks =>
            if existsb (fun network => Contains network ip) networks then None
            else refuse ErrCodeConditionFailed KIPRange (Msg "source IP is not in allowed ranges")
                   [("sourceIp", VString sourceIP); ("allowedCIDRs", strings cidrs)]
        end
    end.

Definition handleIPRange : @PureHandler C F := fun ctx cond r =>
  match cond with
  | IPRange cidrs => ret (checkIPRange cidrs (SourceIP r))
  | _ => ret (Some (castFault KIPRange))
  end.

(** *** allowedOperations *)

Definition checkAllowedOperations (argument : string) (operations : list string)
    (args : list (string * value)) : option ConditionError :=
  if String.eqb argument "" then
    refuse ErrCodeConditionFailed KAllowedOperations
      (Msg "allowedOperations condition requires an explicit 'argument' field naming the tool parameter that carries the operation") []
  else
    match ResolveArgument args argument with
    | None =>
        refuse ErrCodeMissingContext KAllowedOperations (Msgf "argument %q is missing" [argument])
          [("argument", VString argument)]
    | Some (VString s) =>
        let operation := OperationVerb s in
        if String.eqb operation "" then
          refuse ErrCodeMissingContext KAllowedOperations (Msgf "argument %q is empty" [argument])
            [("argument", VString argument)]
        else if AllowsOperation (slot (compileOperations operations)) operations operation then None
        else refuse ErrCodeOperationNotPermitted KAllowedOperations
               (Msgf "operation %q is not allowed" [operation])
               [("operation", VString operation); ("allowedOperations", strings operations)]
    | Some rawVal =>
        refuse ErrCodeConditionFailed KAllowedOperations
          (Msgf "argument %q must be a string, got %T" [argument; typeName rawVal])
          [("argument", VString argument)]
    end.

Definition handleAllowedOperations : @PureHandler C F := fun ctx cond r =>
  match cond with
  | AllowedOperations argument operations =>
      ret (checkAllowedOperations argument operations (Arguments r))
  | _ => ret (Some (castFault KAllowedOperations))
  end.

(** *** Strings and arrays of strings *)

Definition asInterfaceSlice (v : value) : option (list value) :=
  match v with
  | VArray l => Some l
  | VStrings l => Some (map VString l)
  | _ => None
  end.

Fixpoint stringItems (argName : string) (k : CondKind) (items : list value)
    : result (list string) ConditionError :=
  match items with
  | [] => Ok []
  | VString s :: items =>
      if String.eqb (TrimSpace s) "" then
        Err (mkConditionError ErrCodeConditionFailed (kind_type k)
          (Msgf "argument %q array contains a blank element" [argName]) false [("argument", VString argName)])
      else let* out := stringItems argName k items in Ok (TrimSpace s :: out)
  | item :: _ =>
      Err (mkConditionError ErrCodeConditionFailed (kind_type k)
        (Msgf "argument %q array contains a non-string item: %T" [argName; typeName item]) false
        [("argument", VString argName)])
  end.

Definition resolveStringOrStringArray (args : list (string * value)) (argName : string) (k : CondKind)
    : result (list string) ConditionError :=
  let* out :=
    match ResolveArgument args argName with
    | None => Ok []
    | Some (VString s) =>
        let trimmed := TrimSpace s in Ok (if String.eqb trimmed "" then [] else [trimmed])
    | Some v =>
        match asInterfaceSlice v with
        | Some items => stringItems argName k items
        | None =>
            Err (mkConditionError ErrCodeConditionFailed (kind_type k)
              (Msgf "argument %q must be a string or array of strings, got %T" [argName; typeName v]) false
              [("argument", VString argName)])
        end
    end in
  if (List.length out =? 0)%nat then
    Err (mkConditionError ErrCodeMissingContext (kind_type k)
      (Msgf "argument %q is missing or empty" [argName]) false [("argument", VString argName)])
  else Ok out.

(** *** allowedExtensions *)

Definition fileSuffix (base : string) : string :=
  let trimmed := trim_dots base in
  match cut_char "." trimmed with
  | Some (_, after) => ToLower ("." ++ after)
  | None => ToLower base
  end.

Definition checkPath (extensions allowed : list string) (filePath : string) : option ConditionError :=
  let context := [("filePath", VString filePath); ("allowedExtensions", strings extensions)] in
  let reject msg := refuse ErrCodeConditionFailed KAllowedExtensions (Msg msg) context in
  let decide normalizedPath :=
    if String.eqb (ToLower (Ext normalizedPath)) "" then reject "file has no extension"
    else
      let base := ToLower (Base normalizedPath) in
      if existsb (has_suffix base) allowed then None
      else
        let suffix := fileSuffix base in
        refuse ErrCodeConditionFailed KAllowedExtensions (Msgf "file extension %q is not allowed" [suffix])
          [("filePath", VString filePath); ("extension", VString suffix);
           ("allowedExtensions", strings extensions)] in
  match Glob.decodePathForConfinement filePath with
  | Err Glob.errPathNUL => reject "file path contains a NUL byte"
  | Err Glob.errPathMalformedEscape =>
      if Glob.containsEncodedSeparator filePath then
        reject "file path contains an undecodable percent-escape alongside an encoded path separator"
      else decide (Glob.fold_backslash filePath)
  | Ok normalizedPath => decide normalizedPath
  end.

(** The first refusal, in order. *)
Fixpoint first_refusal {A} (check : A -> option ConditionError) (l : list A) : option ConditionError :=
  match l with
  | [] => None
  | x :: l => match check x with Some err => Some err | None => first_refusal check l end
  end.

Definition checkAllowedExtensions (argument : string) (extensions : list string)
    (args : list (string * value)) : option ConditionError :=
  if String.eqb argument "" then
    refuse ErrCodeConditionFailed KAllowedExtensions
      (Msg "allowedExtensions condition requires an explicit 'argument' field naming the tool parameter that carries the file path") []
  else
    match resolveStringOrStringArray args argument KAllowedExtensions with
    | Err cerr => Some cerr
    | Ok paths =>
        let allowed := MatchExtensions (slot (normalizeExtensions extensions)) extensions in
        first_refusal (checkPath extensions allowed) paths
    end.

Definition handleAllowedExtensions : @PureHandler C F := fun ctx cond r =>
  match cond with
  | AllowedExtensions argument extensions =>
      ret (checkAllowedExtensions argument extensions (Arguments r))
  | _ => ret (Some (castFault KAllowedExtensions))
  end.

(** *** allowedTables *)

Record TableAccess := mkAccess { Table : string; Columns_ : list string }.

Inductive table_error :=
| ElementError (e : table_error)
| BlankElement
| BadItem (type : string)
| NoTable
| ColumnsType (table type : string)
| ColumnItem (table type : string)
| BlankColumn (table : string)
| BadArgument (type : string).

(** The format of the error and its operands. *)
Fixpoint tableErrorText (e : table_error) : string * list string :=
  match e with
  | ElementError e => let '(f, args) := tableErrorText e in ("array element " ++ f, args)
  | BlankElement => ("array element is an empty or blank table name", [])
  | BadItem ty => ("array contains an item that is neither a table name nor a table object: %T", [ty])
  | NoTable => ("is a map with no non-empty 'table' entry", [])
  | ColumnsType t ty => ("table %q columns must be an array of strings; got %T", [t; ty])
  | ColumnItem t ty => ("table %q columns list contains a non-string item: %T", [t; ty])
  | BlankColumn t => ("table %q columns list contains an empty or blank column name", [t])
  | BadArgument ty => ("must be a string, object, or array of strings/objects; got %T", [ty])
  end.

Fixpoint columnItems (tableName : string) (cols : list value) : result (list string) table_error :=
  match cols with
  | [] => Ok []
  | VString col :: cols =>
      if String.eqb (TrimSpace col) "" then Err (BlankColumn tableName)
      else let* out := columnItems tableName cols in Ok (col :: out)
  | c :: _ => Err (ColumnItem tableName (typeName c))
  end.

Definition string_entry (k : string) (t : list (string * value)) : string :=
  match index k t with Some (VString s) => s | _ => "" end.

(** A table name or a table object: the arms of parseTableArgument that do not recurse. *)
Definition parseTable (v : value) : result (list TableAccess) table_error :=
  match v with
  | VString t => let s := TrimSpace t in Ok (if String.eqb s "" then [] else [mkAccess s []])
  | VObject t =>
      let tableName := TrimSpace (string_entry "table" t) in
      if String.eqb tableName "" then Err NoTable
      else
        let* cols :=
          match index "columns" t with
          | None | Some VNull => Ok []
          | Some rawCols =>
              match asInterfaceSlice rawCols with
              | None => Err (ColumnsType tableName (typeName rawCols))
              | Some cols => columnItems tableName cols
              end
          end in
        Ok [mkAccess tableName cols]
  | _ => Err (BadArgument (typeName v))
  end.

Fixpoint tableItems (items : list value) : result (list TableAccess) table_error :=
  match items with
  | [] => Ok []
  | item :: items =>
      match item with
      | VString _ | VObject _ =>
          match parseTable item with
          | Err err => Err (ElementError err)
          | Ok [] => Err BlankElement
          | Ok parsed => let* out := tableItems items in Ok (parsed ++ out)%list
          end
      | _ => Err (BadItem (typeName item))
      end
  end.

Definition parseTableArgument (v : value) : result (list TableAccess) table_error :=
  match asInterfaceSlice v with
  | Some items => tableItems items
  | None => parseTable v
  end.

Definition checkColumn (acl : compiledTables) (access : TableAccess) (allowedCols : list string) (col : string)
    : option ConditionError :=
  if one_of (trim_lower col) (default [] (entry_of (ToLower (Table access)) (columnSets acl))) then None
  else refuse ErrCodeConditionFailed KAllowedTables
         (Msgf "column %q on table %q is not allowed" [col; Table access])
         [("table", VString (Table access)); ("column", VString col); ("allowedColumns", strings allowedCols)].

Definition checkAccess (tbls : list string) (acl : compiledTables) (access : TableAccess)
    : option ConditionError :=
  let tableKey := ToLower (Table access) in
  if negb (one_of tableKey (tables acl)) then
    refuse ErrCodeConditionFailed KAllowedTables (Msgf "table %q is not allowed" [Table access])
      [("table", VString (Table access)); ("allowedTables", strings tbls)]
  else
    match entry_of tableKey (columnsByTable acl) with
    | None => None
    | Some allowedCols =>
        if (List.length (Columns_ access) =? 0)%nat then
          refuse ErrCodeMissingContext KAllowedTables
            (Msgf "column list required for table %q (column restrictions are configured)" [Table access])
            [("table", VString (Table access)); ("allowedColumns", strings allowedCols)]
        else first_refusal (checkColumn acl access allowedCols) (Columns_ access)
    end.

Definition checkAllowedTables (argument : string) (tbls : list string) (columns : list (string * list string))
    (args : list (string * value)) : option ConditionError :=
  if String.eqb argument "" then
    refuse ErrCodeConditionFailed KAllowedTables
      (Msg "allowedTables condition requires an explicit 'argument' field naming the tool parameter that carries the table name(s)") []
  else
    let parsed := match ResolveArgument args argument with
                  | Some v => parseTableArgument v
                  | None => Ok []
                  end in
    match parsed with
    | Err perr =>
        let '(format, operands) := tableErrorText perr in
        refuse ErrCodeConditionFailed KAllowedTables (Msgf ("argument %q " ++ format) (argument :: operands))
          [("argument", VString argument)]
    | Ok accesses =>
        if (List.length accesses =? 0)%nat then
          refuse ErrCodeMissingContext KAllowedTables (Msgf "argument %q is missing or empty" [argument])
            [("argument", VString argument)]
        else
          match compiled_or_local (compileAllowedTables tbls columns) with
          | Err err => Some (conditionFault (kind_type KAllowedTables) (compileMessage err) [])
          | Ok acl => first_refusal (checkAccess tbls acl) accesses
          end
    end.

Definition handleAllowedTables : @PureHandler C F := fun ctx cond r =>
  match cond with
  | AllowedTables argument tbls columns => ret (checkAllowedTables argument tbls columns (Arguments r))
  | _ => ret (Some (castFault KAllowedTables))
  end.

(** *** recipientDomain *)

Definition malformed_address (local domain : string) : bool :=
  String.eqb local "" || String.eqb domain "" || contains_space local || contains_space domain
  || contains_char "@" domain || contains_char "[" domain || contains_char "]" domain
  || has_prefix domain "." || has_suffix domain ".".

Definition checkRecipient (domains domainSet : list string) (recipient : string) : option ConditionError :=
  let invalid :=
    refuse ErrCodeConditionFailed KRecipientDomain (Msgf "invalid recipient email: %s" [recipient]) [] in
  match cut_char "@" recipient with
  | None => invalid
  | Some (local, domain) =>
      if malformed_address local domain then invalid
      else
        let domain := ToLower domain in
        if one_of domain domainSet then None
        else refuse ErrCodeConditionFailed KRecipientDomain
               (Msgf "recipient domain %q is not allowed" [domain])
               [("recipient", VString recipient); ("domain", VString domain);
                ("allowedDomains", strings domains)]
  end.

Definition checkRecipientDomain (argument : string) (domains : list string) (args : list (string * value))
    : option ConditionError :=
  if String.eqb argument "" then
    refuse ErrCodeConditionFailed KRecipientDomain
      (Msg "recipientDomain condition requires an explicit 'argument' field naming the tool parameter that carries the recipient address(es)") []
  else
    match resolveStringOrStringArray args argument KRecipientDomain with
    | Err cerr => Some cerr
    | Ok recipients =>
        first_refusal (checkRecipient domains (MatchDomains (slot (normalizeDomains domains)) domains)) recipients
    end.

Definition handleRecipientDomain : @PureHandler C F := fun ctx cond r =>
  match cond with
  | RecipientDomain argument domains => ret (checkRecipientDomain argument domains (Arguments r))
  | _ => ret (Some (castFault KRecipientDomain))
  end.

(** *** allowedValues *)

(** One entry of the allowlist. *)
Definition entryMatches (argValue : value) (claims : gmap string value) (a : value) : bool :=
  match a with
  | VString pattern =>
      let name := default "" (ParseVariableRef pattern) in
      if bool_decide (is_Some (ParseVariableRef pattern)) && bool_decide (is_Some (taskVarClaims name)) then
        match argValue with
        | VString argStr =>
            if (size claims =? 0)%nat then false
            else match ResolveTaskVar name claims with
                 | Some resolved => String.eqb resolved argStr
                 | None => false
                 end
        | _ => false
        end
      else match argValue with
           | VString argStr => Glob.MatchValueGlob pattern argStr
           | _ => false
           end
  | _ => deepEqual a argValue || numericEqual a argValue
  end.

Definition MatchAllowedValue (argValue : value) (allowed : list value) (claims : gmap string value) : bool :=
  existsb (entryMatches argValue claims) allowed.

Definition EvaluateAllowedValues (cond : Condition) (r : option EnforceRequest) : option ConditionError :=
  match cond with
  | AllowedValues argument values =>
      if String.eqb argument "" then
        refuse ErrCodeConditionFailed KAllowedValues (Msg "allowedValues condition has empty argument name") []
      else
        match r with
        | None =>
            Some (conditionFault (kind_type KAllowedValues)
              (nilSeamRefusal "EvaluateAllowedValues" "a nil request") [])
        | Some r =>
            match ResolveArgument (Arguments r) argument with
            | None =>
                refuse ErrCodeMissingContext KAllowedValues (Msgf "required argument %q is missing" [argument])
                  [("argument", VString argument)]
            | Some argValue =>
                if MatchAllowedValue argValue values (Claims r) then None
                else refuse ErrCodeValueNotPermitted KAllowedValues
                       (Msgf "argument %q value is not in the allowed set" [argument])
                       [("argument", VString argument); ("value", argValue); ("allowedValues", VArray values)]
            end
        end
  | _ => Some (castFault KAllowedValues)
  end.

Definition handleAllowedValues : @PureHandler C F := fun ctx cond r =>
  ret (EvaluateAllowedValues cond (Some r)).

(** ** What the conditions mean *)

(** The argument is one string or an array of strings, none of them blank. *)
Inductive denotes : value -> list string -> Prop :=
| denotes_string s : TrimSpace s <> "" -> denotes (VString s) [TrimSpace s]
| denotes_array v l :
    asInterfaceSlice v = Some (map VString l) -> l <> [] ->
    (forall s, s ∈ l -> TrimSpace s <> "") -> denotes v (map TrimSpace l).

(** The name under which an upstream opens a path: decoded, or literally when the text has
    no reading as an escaped path and hides no separator. *)
Definition opened_as (p norm : string) : Prop :=
  Glob.decodePathForConfinement p = Ok norm \/
  (Glob.decodePathForConfinement p = Err Glob.errPathMalformedEscape /\
   Glob.containsEncodedSeparator p = false /\ norm = Glob.fold_backslash p).

Definition extension_admitted (extensions : list string) (p : string) : Prop :=
  exists norm, opened_as p norm /\ ToLower (Ext norm) <> "" /\
    exists e, e ∈ extensions /\ trim_lower e <> "" /\
      has_suffix (ToLower (Base norm)) (dotted (trim_lower e)) = true.

(** One table access: a name, or an object with a name and perhaps columns. *)
Inductive table_of : value -> TableAccess -> Prop :=
| table_name s : TrimSpace s <> "" -> table_of (VString s) (mkAccess (TrimSpace s) [])
| table_object t s :
    index "table" t = Some (VString s) -> TrimSpace s <> "" ->
    index "columns" t = None \/ index "columns" t = Some VNull ->
    table_of (VObject t) (mkAccess (TrimSpace s) [])
| table_columns t s v l :
    index "table" t = Some (VString s) -> TrimSpace s <> "" ->
    index "columns" t = Some v -> asInterfaceSlice v = Some (map VString l) ->
    (forall c, c ∈ l -> TrimSpace c <> "") ->
    table_of (VObject t) (mkAccess (TrimSpace s) l).

Inductive tables_of : value -> list TableAccess -> Prop :=
| tables_one v a : table_of v a -> tables_of v [a]
| tables_array v items accesses :
    asInterfaceSlice v = Some items -> Forall2 table_of items accesses -> tables_of v accesses.

(** The access is to a listed table, and to listed columns where the table has a list. *)
Definition access_admitted (tbls : list string) (columns : list (string * list string)) (a : TableAccess) : Prop :=
  (exists t, t ∈ tbls /\ trim_lower t = ToLower (Table a)) /\
  forall t cols, (t, cols) ∈ columns -> trim_lower t = ToLower (Table a) ->
    Columns_ a <> [] /\ forall c, c ∈ Columns_ a -> exists c', c' ∈ cols /\ trim_lower c' = trim_lower c.

Definition recipient_admitted (domains : list string) (x : string) : Prop :=
  exists local domain, x = local ++ "@" ++ domain /\ contains_char "@" local = false /\
    malformed_address local domain = false /\ exists d, d ∈ domains /\ trim_lower d = ToLower domain.

(** A task variable admits the token's own claim and nothing else; any other text admits what
    it matches as a glob; a value that is no string admits its equals. *)
Definition value_admitted (claims : gmap string value) (v entry : value) : Prop :=
  match entry with
  | VString pattern =>
      if IsTaskVarRef pattern then
        exists name key s, ParseVariableRef pattern = Some name /\ taskVarClaims name = Some key /\
          claims !! key = Some (VString s) /\ TrimSpace s <> "" /\ v = VString s
      else exists s, v = VString s /\ Glob.MatchValueGlob pattern s = true
  | _ => deepEqual entry v = true \/ numericEqual entry v = true
  end.

Definition satisfies (cond : Condition) (r : EnforceRequest) : Prop :=
  match cond with
  | TimeWindow before after =>
      (before <> "" \/ after <> "") /\
      (before <> "" -> exists t, ParseRFC3339 before = Some t /\ (t <= now)%Z) /\
      (after <> "" -> exists t, ParseRFC3339 after = Some t /\ (now < t)%Z)
  | IPRange cidrs =>
      SourceIP r <> "" /\ (forall c, c ∈ cidrs -> is_Some (ParseCIDR c)) /\
      exists ip c network, ParseIP (SourceIP r) = Some ip /\ c ∈ cidrs /\
        ParseCIDR c = Some network /\ Contains network ip = true
  | AllowedOperations argument operations =>
      argument <> "" /\ exists s, ResolveArgument (Arguments r) argument = Some (VString s) /\
        OperationVerb s <> "" /\
        exists op, op ∈ operations /\ CaseFold.EqualFold (TrimSpace op) (OperationVerb s) = true
  | AllowedExtensions argument extensions =>
      argument <> "" /\ exists v paths, ResolveArgument (Arguments r) argument = Some v /\
        denotes v paths /\ forall p, p ∈ paths -> extension_admitted extensions p
  | AllowedTables argument tbls columns =>
      argument <> "" /\ NoDup (map (fun e => trim_lower e.1) columns) /\
      exists v accesses, ResolveArgument (Arguments r) argument = Some v /\
        tables_of v accesses /\ accesses <> [] /\ forall a, a ∈ accesses -> access_admitted tbls columns a
  | RecipientDomain argument domains =>
      argument <> "" /\ exists v recipients, ResolveArgument (Arguments r) argument = Some v /\
        denotes v recipients /\ forall x, x ∈ recipients -> recipient_admitted domains x
  | AllowedValues argument values =>
      argument <> "" /\ exists v entry, ResolveArgument (Arguments r) argument = Some v /\
        entry ∈ values /\ value_admitted (Claims r) v entry
  | _ => False
  end.

(** ** The handlers decide the conditions *)

Lemma first_refusal_none {A} (check : A -> option ConditionError) l :
  first_refusal check l = None <-> forall x, x ∈ l -> check x = None.
Proof.
  induction l as [|x l IH]; cbn; [split; [by intros _ y ?%elem_of_nil | done]|].
  destruct (check x) eqn:E.
  - split; [done|]. intros Hx. rewrite Hx in E by apply list_elem_of_here. done.
  - rewrite IH. split; [intros Hl y [->|?]%elem_of_cons; auto | intros Hl y ?; apply Hl].
    by apply list_elem_of_further.
Qed.

Lemma compiled_or_local_eq {A} (compile : result A compile_error) : compiled_or_local compile = compile.
Proof. unfold compiled_or_local. by destruct loaded, compile. Qed.

Lemma slot_default {A} (x : A) : default x (slot x) = x.
Proof. unfold slot. by destruct loaded. Qed.

Lemma one_of_map (f : string -> string) s l : one_of s (map f l) = true <-> exists x, x ∈ l /\ f x = s.
Proof.
  unfold one_of. rewrite existsb_elem_of. split.
  - intros (y & (x & -> & Hx)%list_elem_of_fmap & E%String.eqb_eq). eauto.
  - intros (x & Hx & <-). exists (f x). rewrite String.eqb_refl. split; [by apply list_elem_of_fmap_2 | done].
Qed.

(** *** Windows and networks *)

Lemma checkTimeWindow_none before after r :
  checkTimeWindow before after = None <-> satisfies (TimeWindow before after) r.
Proof.
  unfold checkTimeWindow, compileTimeWindow. rewrite compiled_or_local_eq. cbn [satisfies].
  destruct (String.eqb_spec before "") as [Hb|Hb], (String.eqb_spec after "") as [Ha|Ha]; cbn [andb negb].
  - split; [done|]. intros [[?|?] _]; done.
  - destruct (ParseRFC3339 after) as [t|]; cbn.
    + destruct (Z.ltb_spec now t); cbn; (split; [|]); try done.
      * intros _. split_and!; [by right | done | by eauto].
      * intros (_ & _ & Hx). destruct (Hx Ha) as (t' & [= <-] & ?). lia.
    + split; [done|]. intros (_ & _ & Hx). destruct (Hx Ha) as (t' & ? & _). done.
  - destruct (ParseRFC3339 before) as [t|]; cbn.
    + destruct (Z.ltb_spec now t); cbn; (split; [|]); try done.
      * intros (_ & Hx & _). destruct (Hx Hb) as (t' & [= <-] & ?). lia.
      * intros _. split_and!; [by left | by eauto | done].
    + split; [done|]. intros (_ & Hx & _). destruct (Hx Hb) as (t' & ? & _). done.
  - destruct (ParseRFC3339 before) as [t|]; cbn; [destruct (ParseRFC3339 after) as [u|]; cbn|].
    + destruct (Z.ltb_spec now t), (Z.ltb_spec now u); cbn; (split; [|]); try done.
      all: try (intros (_ & Hx & Hy); destruct (Hx Hb) as (? & [= <-] & ?), (Hy Ha) as (? & [= <-] & ?); lia).
      intros _. split_and!; [by left | by eauto | by eauto].
    + split; [done|]. intros (_ & _ & Hx). destruct (Hx Ha) as (t' & ? & _). done.
    + split; [done|]. intros (_ & Hx & _). destruct (Hx Hb) as (t' & ? & _). done.
Qed.

Lemma compileCIDRs_ok cidrs networks :
  compileCIDRs cidrs = Ok networks ->
  (forall c, c ∈ cidrs -> is_Some (ParseCIDR c)) /\
  forall n, n ∈ networks <-> exists c, c ∈ cidrs /\ ParseCIDR c = Some n.
Proof.
  revert networks. induction cidrs as [|c cidrs IH]; intros networks; cbn.
  - intros [= <-]. split; [by intros c ?%elem_of_nil|]. intros n. split.
    + by intros ?%elem_of_nil.
    + by intros (c & ?%elem_of_nil & _).
  - destruct (ParseCIDR c) as [network|] eqn:Ec; [| done].
    destruct (compileCIDRs cidrs) as [parsed|]; cbn; [| done]. intros [= <-].
    destruct (IH parsed eq_refl) as [Hall Hn]. split.
    + intros c' [->|?]%elem_of_cons; [by eauto | auto].
    + intros n. rewrite elem_of_cons, Hn. setoid_rewrite elem_of_cons. naive_solver.
Qed.

Lemma compileCIDRs_err cidrs e :
  compileCIDRs cidrs = Err e -> exists c, c ∈ cidrs /\ ParseCIDR c = None.
Proof.
  induction cidrs as [|c cidrs IH]; cbn; [done|].
  destruct (ParseCIDR c) as [network|] eqn:Ec; [| intros _; exists c; split; [apply list_elem_of_here | done]].
  destruct (compileCIDRs cidrs); cbn; [done|]. intros [= ->].
  destruct (IH eq_refl) as (c' & ? & ?). exists c'. split; [by apply list_elem_of_further | done].
Qed.

Lemma checkIPRange_none cidrs r :
  checkIPRange cidrs (SourceIP r) = None <-> satisfies (IPRange cidrs) r.
Proof.
  unfold checkIPRange. rewrite compiled_or_local_eq. cbn [satisfies].
  destruct (String.eqb_spec (SourceIP r) "") as [Hs|Hs]; [by split; [| intros [? _]]|].
  destruct (ParseIP (SourceIP r)) as [ip|]; [| by split; [| intros (_ & _ & ip & ? & ? & ? & _)]].
  destruct (compileCIDRs cidrs) as [networks|err] eqn:Ec.
  - apply compileCIDRs_ok in Ec as [Hall Hn].
    destruct (existsb (fun network => Contains network ip) networks) eqn:Ex.
    + split; [intros _ | done]. apply existsb_elem_of in Ex as (n & Hin & Hc).
      apply Hn in Hin as (c & Hin & Hp). split_and!; [done.. |]. exists ip, c, n. done.
    + split; [done|]. intros (_ & _ & ip' & c & n & [= <-] & Hin & Hp & Hc).
      rewrite <- not_true_iff_false in Ex. destruct Ex. apply existsb_elem_of.
      exists n. split; [apply Hn; eauto | done].
  - split; [done|]. intros (_ & Hall & _). apply compileCIDRs_err in Ec as (c & Hin & E).
    apply Hall in Hin as [? ?]. congruence.
Qed.

(** *** Operations *)

Lemma checkAllowedOperations_none argument operations r :
  checkAllowedOperations argument operations (Arguments r) = None <->
  satisfies (AllowedOperations argument operations) r.
Proof.
  unfold checkAllowedOperations, AllowsOperation, MatchOperation. cbn [satisfies].
  destruct (String.eqb_spec argument "") as [Ha|Ha]; [by split; [| intros [? _]]|].
  destruct (ResolveArgument (Arguments r) argument) as [v|];
    [| by split; [| intros (_ & s & ? & _)]].
  destruct v as [| | | | |s| | | |]; try (by split; [| intros (_ & ? & ? & _)]).
  destruct (String.eqb_spec (OperationVerb s) "") as [Ho|Ho];
    [split; [done | intros (_ & s' & [= <-] & ? & _); done]|].
  set (ok := fun a => CaseFold.EqualFold (TrimSpace a) (OperationVerb s)).
  assert (existsb ok (default operations (slot (compileOperations operations))) = existsb ok operations) as ->.
  { unfold slot. destruct loaded; [| done]. cbn. unfold compileOperations. clear. unfold ok.
    induction operations as [|o l IH]; cbn; [done | by rewrite TrimSpace_idemp, IH]. }
  destruct (existsb ok operations) eqn:E.
  - apply existsb_elem_of in E. split; [intros _ | done]. split; [done|]. exists s. done.
  - split; [done|]. intros (_ & s' & [= <-] & _ & Hop). apply existsb_elem_of in Hop. unfold ok in E. congruence.
Qed.

(** *** Strings and arrays of strings *)

Lemma map_inj_strings (l m : list string) : map VString l = map VString m -> l = m.
Proof. revert m. induction l as [|x l IH]; intros [|y m]; cbn; try done. intros [= -> E]. by rewrite (IH m E). Qed.

Lemma stringItems_ok argName k items out :
  stringItems argName k items = Ok out <->
  exists l, items = map VString l /\ (forall s, s ∈ l -> TrimSpace s <> "") /\ out = map TrimSpace l.
Proof.
  revert out. induction items as [|item items IH]; intros out; cbn.
  - split; [intros [= <-]; exists []; split_and!; [done | by intros s ?%elem_of_nil | done]|].
    intros ([|] & ? & _ & ->); done.
  - destruct item as [| | | | |s| | | |]; try (by split; [| intros ([|] & ? & _)]).
    destruct (String.eqb_spec (TrimSpace s) "") as [Hs|Hs].
    + split; [done|]. intros ([|s' l] & [= <- _] & Hl & _). by destruct (Hl s (list_elem_of_here _ _)).
    + destruct (stringItems argName k items) as [out'|e]; cbn.
      * split.
        -- intros [= <-]. destruct (proj1 (IH out') eq_refl) as (l & -> & Hl & ->).
           exists (s :: l). split_and!; try done. by intros x [->|?]%elem_of_cons; auto.
        -- intros ([|s' l] & [= <- El] & Hl & ->). f_equal.
           assert (Ok (E := ConditionError) out' = Ok (map TrimSpace l)) as [= ->]; [| done].
           apply IH. exists l. split_and!; try done. intros x Hx. apply Hl. by apply list_elem_of_further.
      * split; [done|]. intros ([|s' l] & [= <- El] & Hl & ->).
        enough (Err e = Ok (map TrimSpace l)) by done.
        apply IH. exists l. split_and!; try done. intros x Hx. apply Hl. by apply list_elem_of_further.
Qed.

Lemma resolve_strings args argName k out :
  resolveStringOrStringArray args argName k = Ok out <->
  exists v, ResolveArgument args argName = Some v /\ denotes v out.
Proof.
  unfold resolveStringOrStringArray. destruct (ResolveArgument args argName) as [v|]; cbn;
    [| by split; [| intros (v & ? & _)]].
  assert (forall items, asInterfaceSlice v = Some items ->
    (let* out := stringItems argName k items in
     if (List.length out =? 0)%nat then
       Err (mkConditionError ErrCodeMissingContext (kind_type k)
         (Msgf "argument %q is missing or empty" [argName]) false [("argument", VString argName)])
     else Ok out) = Ok out <-> exists v', Some v = Some v' /\ denotes v' out) as Harr.
  { intros items Hi. destruct (stringItems argName k items) as [l'|] eqn:E; cbn.
    - apply stringItems_ok in E as (l & -> & Hl & ->). rewrite List.length_map.
      destruct l as [|s l]; cbn [List.length Nat.eqb].
      + split; [done|]. intros (v' & [= <-] & Hd). destruct Hd as [s Hs|v l Hv Hne Hl']; [done|].
        rewrite Hi in Hv. by destruct l.
      + split.
        * intros [= <-]. exists v. split; [done|]. by apply (denotes_array v (s :: l)).
        * intros (v' & [= <-] & Hd). destruct Hd as [?|v l0 Hv Hne Hl']; [done|]. rewrite Hi in Hv.
          apply (inj Some) in Hv. by rewrite (map_inj_strings _ _ Hv).
    - split; [done|]. intros (v' & [= <-] & Hd). destruct Hd as [?|v l Hv Hne Hl]; [done|].
      rewrite Hi in Hv. apply (inj Some) in Hv. subst items.
      rewrite (proj2 (stringItems_ok argName k (map VString l) (map TrimSpace l))) in E; eauto. }
  destruct v as [| | | | |s| |l|l|]; try (by split; [| intros (v' & [= <-] & Hd); inversion Hd]).
  - destruct (String.eqb_spec (TrimSpace s) "") as [Hs|Hs]; cbn.
    + split; [done|]. intros (v' & [= <-] & Hd). by inversion Hd.
    + split; [intros [= <-]; exists (VString s); split; [done | by constructor]|].
      intros (v' & [= <-] & Hd). by inversion Hd.
  - by apply Harr.
  - by apply Harr.
Qed.

Lemma denotes_det v l m : denotes v l -> denotes v m -> l = m.
Proof.
  destruct 1 as [s Hs|v l Hv _ _]; inversion 1 as [s' Hs'|v' l' Hv' _ _]; subst; try done.
  rewrite Hv in Hv'. apply (inj Some) in Hv'. by rewrite (map_inj_strings _ _ Hv').
Qed.

Lemma strings_checked args argument k check (P : string -> Prop) :
  (forall x, check x = None <-> P x) ->
  match resolveStringOrStringArray args argument k with
  | Err cerr => Some cerr
  | Ok l => first_refusal check l
  end = None <->
  exists v l, ResolveArgument args argument = Some v /\ denotes v l /\ forall x, x ∈ l -> P x.
Proof.
  intros HP. destruct (resolveStringOrStringArray args argument k) as [l|err] eqn:E.
  - apply resolve_strings in E as (v & Hv & Hd). rewrite first_refusal_none.
    setoid_rewrite HP. split; [eauto 7|].
    intros (v' & l' & Hv' & Hd' & Hall). rewrite Hv in Hv'. simplify_eq.
    by rewrite (denotes_det _ _ _ Hd Hd').
  - split; [done|]. intros (v & l & Hv & Hd & _).
    assert (resolveStringOrStringArray args argument k = Ok l) as E' by (apply resolve_strings; eauto).
    congruence.
Qed.

(** *** Extensions *)

Lemma normalizeLoop_elem seen exts n :
  n ∈ normalizeLoop seen exts -> exists e, e ∈ exts /\ trim_lower e <> "" /\ n = dotted (trim_lower e).
Proof.
  revert seen. induction exts as [|e exts IH]; intros seen; cbn; [by intros ?%elem_of_nil|].
  assert (forall sn, n ∈ normalizeLoop sn exts -> exists e', e' ∈ e :: exts /\ trim_lower e' <> "" /\ n = dotted (trim_lower e')) as Hrec.
  { intros sn (e' & ? & ?)%IH. exists e'. split; [by apply list_elem_of_further | done]. }
  destruct (String.eqb_spec (trim_lower e) ""); [apply Hrec|].
  destruct (one_of _ seen); [apply Hrec|]. intros [->|?]%elem_of_cons; [| by eapply Hrec].
  exists e. split; [apply list_elem_of_here | done].
Qed.

Lemma normalizeLoop_complete seen exts e :
  e ∈ exts -> trim_lower e <> "" ->
  dotted (trim_lower e) ∈ normalizeLoop seen exts \/ dotted (trim_lower e) ∈ seen.
Proof.
  revert seen. induction exts as [|x exts IH]; intros seen; [by intros ?%elem_of_nil|].
  intros [->|Hin]%elem_of_cons Hne; cbn.
  - destruct (String.eqb_spec (trim_lower x) ""); [done|].
    destruct (one_of (dotted (trim_lower x)) seen) eqn:E; [| left; apply list_elem_of_here].
    right. apply existsb_elem_of in E as (y & ? & ->%String.eqb_eq). done.
  - case_match; [by apply IH|]. case_match; [by apply IH|].
    destruct (IH (dotted (trim_lower x) :: seen) Hin Hne) as [?|[->|?]%elem_of_cons]; auto.
    + left. by apply list_elem_of_further.
    + left. apply list_elem_of_here.
Qed.

Lemma suffix_admitted base exts :
  existsb (has_suffix base) (normalizeExtensions exts) = true <->
  exists e, e ∈ exts /\ trim_lower e <> "" /\ has_suffix base (dotted (trim_lower e)) = true.
Proof.
  rewrite existsb_elem_of. split.
  - intros (n & (e & ? & ? & ->)%normalizeLoop_elem & ?). eauto.
  - intros (e & Hin & Hne & Hs). exists (dotted (trim_lower e)). split; [| done].
    by destruct (normalizeLoop_complete [] exts e Hin Hne) as [?|?%elem_of_nil].
Qed.

Lemma checkPath_none exts p :
  checkPath exts (normalizeExtensions exts) p = None <-> extension_admitted exts p.
Proof.
  set (decide := fun norm =>
    ToLower (Ext norm) <> "" /\ existsb (has_suffix (ToLower (Base norm))) (normalizeExtensions exts) = true).
  assert (checkPath exts (normalizeExtensions exts) p = None <->
    exists norm, opened_as p norm /\ decide norm) as ->.
  { unfold checkPath, opened_as, decide.
    destruct (Glob.decodePathForConfinement p) as [norm|[]].
    - destruct (String.eqb_spec (ToLower (Ext norm)) ""); [| destruct (existsb _ _) eqn:?].
      + split; [done|]. by intros (? & [[= ->]|[? _]] & ? & _).
      + split; [intros _; exists norm; auto | done].
      + split; [done|]. intros (? & [[= ->]|[? _]] & _ & ?); congruence.
    - destruct (Glob.containsEncodedSeparator p);
        [split; [done|]; by intros (? & [?|(_ & ? & _)] & _)|].
      set (norm := Glob.fold_backslash p).
      destruct (String.eqb_spec (ToLower (Ext norm)) ""); [| destruct (existsb _ _) eqn:?].
      + split; [done|]. by intros (? & [?|(_ & _ & ->)] & ? & _).
      + split; [intros _; exists norm; auto 7 | done].
      + split; [done|]. intros (? & [?|(_ & _ & ->)] & _ & ?); [done|]. unfold norm in *. congruence.
    - split; [done|]. by intros (? & [?|(? & _)] & _). }
  unfold extension_admitted, decide. by setoid_rewrite suffix_admitted.
Qed.

Lemma checkAllowedExtensions_none argument exts r :
  checkAllowedExtensions argument exts (Arguments r) = None <-> satisfies (AllowedExtensions argument exts) r.
Proof.
  unfold checkAllowedExtensions, MatchExtensions. rewrite slot_default. cbn [satisfies].
  destruct (String.eqb_spec argument "") as [Ha|Ha]; [by split; [| intros [? _]]|].
  rewrite (strings_checked _ _ _ _ (extension_admitted exts)); [naive_solver | apply checkPath_none].
Qed.

(** *** Recipients *)

Lemma cut_char_Some c s a b :
  cut_char c s = Some (a, b) <-> s = a ++ String c b /\ contains_char c a = false.
Proof.
  revert a. induction s as [|d s IH]; intros a; cbn.
  - split; [done|]. intros [E _]. by destruct a.
  - destruct (Ascii.eqb_spec c d) as [->|Hne].
    + split; [by intros [= <- <-]|]. intros [E Ha]. destruct a as [|x a]; [by cbn in E; simplify_eq|]. cbn in E.
      injection E as -> _. cbn in Ha. by rewrite Ascii.eqb_refl in Ha.
    + destruct (cut_char c s) as [[a' b']|].
      * split.
        -- intros [= <- <-]. destruct (proj1 (IH a') eq_refl) as [-> Hc]. split; [done|].
           cbn. by rewrite (proj2 (Ascii.eqb_neq c d) Hne).
        -- intros [E Ha]. destruct a as [|x a]; [by cbn in E; simplify_eq|]. cbn in E. injection E as -> E.
           cbn in Ha. apply orb_false_iff in Ha as [_ Ha].
           by pose proof (proj2 (IH a) (conj E Ha)) as [= -> ->].
      * split; [done|]. intros [E Ha]. destruct a as [|x a]; [by cbn in E; simplify_eq|]. cbn in E. injection E as -> E.
        cbn in Ha. apply orb_false_iff in Ha as [_ Ha]. by pose proof (proj2 (IH a) (conj E Ha)).
Qed.

Lemma checkRecipient_none domains x :
  checkRecipient domains (normalizeDomains domains) x = None <-> recipient_admitted domains x.
Proof.
  unfold checkRecipient, recipient_admitted. destruct (cut_char "@" x) as [[local domain]|] eqn:E.
  - pose proof E as [Hx Hl]%cut_char_Some. destruct (malformed_address local domain) eqn:Hm.
    + split; [done|]. intros (l & d & Hx' & Hl' & Hm' & _).
      rewrite (proj2 (cut_char_Some "@" x l d) (conj Hx' Hl')) in E. congruence.
    + destruct (one_of (ToLower domain) (normalizeDomains domains)) eqn:Ho.
      * apply one_of_map in Ho. split; [intros _ | done]. by exists local, domain.
      * split; [done|]. intros (l & d & Hx' & Hl' & _ & Hd).
        rewrite (proj2 (cut_char_Some "@" x l d) (conj Hx' Hl')) in E. simplify_eq.
        apply one_of_map in Hd. unfold normalizeDomains in Ho. congruence.
  - split; [done|]. intros (l & d & Hx & Hl & _).
    rewrite (proj2 (cut_char_Some "@" x l d) (conj Hx Hl)) in E. done.
Qed.

Lemma checkRecipientDomain_none argument domains r :
  checkRecipientDomain argument domains (Arguments r) = None <-> satisfies (RecipientDomain argument domains) r.
Proof.
  unfold checkRecipientDomain, MatchDomains. rewrite slot_default. cbn [satisfies].
  destruct (String.eqb_spec argument "") as [Ha|Ha]; [by split; [| intros [? _]]|].
  rewrite (strings_checked _ _ _ _ (recipient_admitted domains)); [naive_solver | apply checkRecipient_none].
Qed.

(** *** Tables *)

Lemma columnItems_ok t cols out :
  columnItems t cols = Ok out <-> cols = map VString out /\ forall c, c ∈ out -> TrimSpace c <> "".
Proof.
  revert out. induction cols as [|c cols IH]; intros out; cbn.
  - split; [intros [= <-]; split; [done | by intros ? ?%elem_of_nil]|]. by intros [E _]; destruct out.
  - destruct c as [| | | | |col| | | |]; try (by split; [| intros [E _]; destruct out]).
    destruct (String.eqb_spec (TrimSpace col) "") as [Hs|Hs].
    + split; [done|]. intros [E Hl]. destruct out as [|x out]; [done|]. injection E as <- _.
      by destruct (Hl col (list_elem_of_here _ _)).
    + split.
      * destruct (columnItems t cols) as [out'|]; cbn; [| done]. intros [= <-].
        destruct (proj1 (IH out') eq_refl) as [-> Hl]. split; [done|].
        by intros x [->|?]%elem_of_cons; auto.
      * intros [E Hl]. destruct out as [|x out]; [done|]. injection E as <- E.
        rewrite (proj2 (IH out)); [done|]. split; [done|]. intros y Hy. apply Hl. by apply list_elem_of_further.
Qed.

Lemma parseTable_ok v accesses :
  parseTable v = Ok accesses /\ accesses <> [] <-> exists a, table_of v a /\ accesses = [a].
Proof.
  destruct v as [| | | | |s| | | |t]; cbn; try (by split; [intros [? _] | intros (a & Ha & _); inversion Ha]).
  - destruct (String.eqb_spec (TrimSpace s) "") as [Hs|Hs].
    + split; [by intros [[= <-] ?]|]. intros (a & Ha & _). by inversion Ha.
    + split; [intros [[= <-] _]; eexists; split; [by constructor | done]|].
      intros (a & Ha & ->). by inversion Ha.
  - unfold string_entry. split.
    + intros [E _]. destruct (index "table" t) as [[| | | | |s| | | |]|] eqn:Et; try done.
      destruct (String.eqb_spec (TrimSpace s) "") as [Hs|Hs]; [done|].
      destruct (index "columns" t) as [v|] eqn:Ec.
      * destruct (asInterfaceSlice v) as [cols|] eqn:Ev.
        -- assert (v <> VNull) by (by intros ->).
           assert ((let* cols := columnItems (TrimSpace s) cols in Ok [mkAccess (TrimSpace s) cols]) = Ok accesses)
             as E' by (by destruct v).
           destruct (columnItems (TrimSpace s) cols) as [out|] eqn:Eo; [| done]. cbn in E'. simplify_eq.
           apply columnItems_ok in Eo as [-> Hl]. eexists. split; [by eapply table_columns | done].
        -- destruct v; try done. cbn in E. simplify_eq. eexists. split; [by eapply table_object; eauto | done].
      * cbn in E. simplify_eq. eexists. split; [by eapply table_object; eauto | done].
    + intros (a & Ha & ->). split; [| done]. inversion Ha as [|? s Et Hs Ec|? s v l Et Hs Ec Ev Hl]; subst.
      * rewrite Et. apply String.eqb_neq in Hs as ->. by destruct Ec as [-> | ->].
      * rewrite Et. apply String.eqb_neq in Hs as ->. rewrite Ec.
        assert (columnItems (TrimSpace s) (map VString l) = Ok l) as El by (by apply columnItems_ok).
        destruct v; cbn in Ev; simplify_eq; cbn [asInterfaceSlice]; rewrite ?Ev; by rewrite El.
Qed.

Lemma tableItems_ok items accesses :
  tableItems items = Ok accesses <-> Forall2 table_of items accesses.
Proof.
  revert accesses. induction items as [|item items IH]; intros accesses; cbn.
  - split; [by intros [= <-]; constructor | by inversion 1].
  - split.
    + intros E.
      assert (exists parsed, parseTable item = Ok parsed /\ parsed <> [] /\
        (let* out := tableItems items in Ok (parsed ++ out)%list) = Ok accesses) as (parsed & Hp & Hne & Ht).
      { destruct item as [| | | | |s| | | |t]; try done; destruct (parseTable _) as [[|a p]|]; try done; eauto. }
      destruct (proj1 (parseTable_ok item parsed) (conj Hp Hne)) as (a & Ha & ->).
      destruct (tableItems items) as [out|]; cbn in Ht; [| done]. simplify_eq.
      constructor; [done | by apply IH].
    + intros Hf. inversion Hf as [|? a ? rest Ha Hrest]; subst.
      destruct (proj2 (parseTable_ok item [a])) as [Hp _]; [by exists a|].
      apply IH in Hrest. rewrite Hp, Hrest. by destruct Ha.
Qed.

Lemma parseTableArgument_ok v accesses :
  parseTableArgument v = Ok accesses /\ accesses <> [] <-> tables_of v accesses /\ accesses <> [].
Proof.
  unfold parseTableArgument. destruct (asInterfaceSlice v) as [items|] eqn:Ev.
  - rewrite tableItems_ok. split; intros [Hf ?]; (split; [| done]).
    + by eapply tables_array.
    + destruct Hf as [v a Ha|v items' l Ev' Hf]; [by destruct Ha|]. congruence.
  - rewrite parseTable_ok. split.
    + intros (a & Ha & ->). split; [by constructor | done].
    + intros [Ht _]. destruct Ht as [v a Ha|v items l Ev' _]; [eauto | congruence].
Qed.

Lemma NoDup_fst_functional {A} (m : list (string * A)) k x y :
  NoDup (map fst m) -> (k, x) ∈ m -> (k, y) ∈ m -> x = y.
Proof.
  induction m as [|[k' z] m IH]; cbn; [by intros _ ?%elem_of_nil|].
  intros [Hn Hd]%NoDup_cons [Hx|Hx]%elem_of_cons [Hy|Hy]%elem_of_cons; simplify_eq; try done.
  - destruct Hn. by apply (list_elem_of_fmap_2 fst _ _ Hy).
  - destruct Hn. by apply (list_elem_of_fmap_2 fst _ _ Hx).
  - by apply IH.
Qed.

Lemma find_key {A} (k : string) (m : list (string * A)) :
  match List.find (fun e => String.eqb e.1 k) m with
  | Some e => e ∈ m /\ e.1 = k
  | None => k ∉ map fst m
  end.
Proof.
  destruct (List.find _ m) as [e|] eqn:E.
  - apply List.find_some in E as [Hin ->%String.eqb_eq]. by rewrite list_elem_of_In.
  - intros (e & -> & Hin)%list_elem_of_fmap. rewrite list_elem_of_In in Hin.
    apply (List.find_none _ _ E) in Hin. by rewrite String.eqb_refl in Hin.
Qed.

Lemma columnScan_none seen columns :
  NoDup (map fst seen) ->
  columnScan seen columns = None <-> NoDup (map (fun e => trim_lower e.1) columns ++ map fst seen)%list.
Proof.
  revert seen. induction columns as [|[table cols] columns IH]; intros seen Hs; cbn; [done|].
  pose proof (find_key (trim_lower table) seen) as Hf.
  destruct (List.find _ seen) as [[k prior]|].
  - split; [by case_match|]. destruct Hf as [Hin Hk]. cbn in Hk. subst k.
    rewrite NoDup_cons. intros [Hn _]. destruct Hn. apply elem_of_app. right.
    by apply (list_elem_of_fmap_2 fst _ _ Hin).
  - rewrite IH; [| cbn; by apply NoDup_cons]. cbn. by rewrite <- Permutation_middle.
Qed.

Lemma entry_of_Some {A} (k : string) (m : list (string * A)) x :
  NoDup (map fst m) -> entry_of k m = Some x <-> (k, x) ∈ m.
Proof.
  intros Hd. unfold entry_of. pose proof (find_key k m) as Hf.
  destruct (List.find _ m) as [[k' y]|]; cbn.
  - destruct Hf as [Hin Hk]. cbn in Hk. subst k'. split; [by intros [= <-]|]. intros Hx. f_equal.
    apply (NoDup_fst_functional m k); done.
  - split; [done|]. intros Hx. destruct Hf. by apply (list_elem_of_fmap_2 fst _ _ Hx).
Qed.

Lemma checkAccess_none tbls columns a :
  NoDup (map (fun e => trim_lower e.1) columns) ->
  checkAccess tbls (compileTables tbls columns) a = None <-> access_admitted tbls columns a.
Proof.
  intros Hd. unfold checkAccess, access_admitted. cbn [tables columnsByTable compileTables].
  destruct (one_of (ToLower (Table a)) (map trim_lower tbls)) eqn:Ht; cbn [negb].
  2: { split; [done|]. intros [Hx _]. apply one_of_map in Hx. congruence. }
  apply one_of_map in Ht. set (key := ToLower (Table a)) in *.
  assert (forall {A} (f : list string -> A), NoDup (map fst (map (fun '(t, cols) => (trim_lower t, f cols)) columns))) as Hd'.
  { intros A f. rewrite List.map_map. erewrite List.map_ext; [exact Hd|]. by intros []. }
  destruct (entry_of key _) as [cols|] eqn:Ee.
  - apply entry_of_Some in Ee; [| apply (Hd' _ id)].
    apply list_elem_of_fmap in Ee as ([t cols'] & [= Ek <-] & Hin).
    assert (entry_of key (columnSets (compileTables tbls columns)) = Some (map trim_lower cols)) as Es.
    { apply entry_of_Some; [apply Hd'|]. rewrite Ek.
      by apply (list_elem_of_fmap_2 (fun '(t, cols) => (trim_lower t, map trim_lower cols)) _ _ Hin). }
    assert (forall t' cols', (t', cols') ∈ columns -> trim_lower t' = key -> cols' = cols) as Huniq.
    { intros t' cols' Hin' Ek'. apply (NoDup_fst_functional _ key _ _ (Hd' _ id)).
      - rewrite <- Ek'. by apply (list_elem_of_fmap_2 (fun '(t, cols) => (trim_lower t, id cols)) _ _ Hin').
      - rewrite Ek. by apply (list_elem_of_fmap_2 (fun '(t, cols) => (trim_lower t, id cols)) _ _ Hin). }
    destruct (Columns_ a) as [|c0 cs] eqn:Ec; cbn [List.length Nat.eqb].
    + split; [done|]. intros [_ Hx]. by destruct (Hx t cols Hin (eq_sym Ek)).
    + rewrite first_refusal_none. unfold checkColumn. fold key. rewrite Es. cbn [from_option id]. split.
      * intros Hall. split; [done|]. intros t' cols' Hin' Ek'. split; [done|]. intros c Hc.
        rewrite (Huniq _ _ Hin' Ek'). apply Hall in Hc. apply one_of_map.
        by destruct (one_of (trim_lower c) (map trim_lower cols)) in Hc |- *.
      * intros [_ Hx] c Hc. destruct (Hx t cols Hin (eq_sym Ek)) as [_ Hx'].
        apply Hx', one_of_map in Hc. by rewrite Hc.
  - split; [intros _ | done]. split; [done|]. intros t cols Hin Ek.
    assert (entry_of key (map (fun '(t, cols) => (trim_lower t, cols)) columns) = Some cols); [| congruence].
    apply entry_of_Some; [apply (Hd' _ id)|]. rewrite <- Ek.
    by apply (list_elem_of_fmap_2 (fun '(t, cols) => (trim_lower t, cols)) _ _ Hin).
Qed.

Lemma compileAllowedTables_ok tbls columns :
  match compileAllowedTables tbls columns with
  | Ok acl => NoDup (map (fun e => trim_lower e.1) columns) /\ acl = compileTables tbls columns
  | Err _ => ~ NoDup (map (fun e => trim_lower e.1) columns)
  end.
Proof.
  unfold compileAllowedTables, checkColumnKeyCollision.
  pose proof (columnScan_none [] columns NoDup_nil_2) as Hc. cbn in Hc. rewrite app_nil_r in Hc.
  destruct (columnScan [] columns); [| split; [by apply Hc | done]]. by intros ?%Hc.
Qed.

Lemma checkAllowedTables_none argument tbls columns r :
  checkAllowedTables argument tbls columns (Arguments r) = None <->
  satisfies (AllowedTables argument tbls columns) r.
Proof.
  unfold checkAllowedTables. rewrite compiled_or_local_eq. cbn [satisfies].
  destruct (String.eqb_spec argument "") as [Ha|Ha]; [by split; [| intros [? _]]|].
  destruct (ResolveArgument (Arguments r) argument) as [v|];
    [| by split; [| intros (_ & _ & v & l & ? & _)]].
  destruct (parseTableArgument v) as [l|perr] eqn:Ep.
  2: { split; [by destruct (tableErrorText perr)|]. intros (_ & _ & v' & l & [= <-] & Hl & Hne & _).
       destruct (proj2 (parseTableArgument_ok v l) (conj Hl Hne)). congruence. }
  destruct l as [|a0 l]; cbn [List.length Nat.eqb].
  { split; [done|]. intros (_ & _ & v' & l & [= <-] & Hl & Hne & _).
    destruct (proj2 (parseTableArgument_ok v l) (conj Hl Hne)). congruence. }
  destruct (proj1 (parseTableArgument_ok v (a0 :: l))) as [Hl Hne]; [done|].
  pose proof (compileAllowedTables_ok tbls columns) as Hc.
  destruct (compileAllowedTables tbls columns) as [acl|err]; [| by split; [| intros (_ & ? & _)]].
  destruct Hc as [Hd ->]. rewrite first_refusal_none. setoid_rewrite checkAccess_none; [| done]. split.
  - intros Hall. split_and!; [done.. |]. by exists v, (a0 :: l).
  - intros (_ & _ & v' & l' & [= <-] & Hl' & Hne' & Hall).
    destruct (proj2 (parseTableArgument_ok v l') (conj Hl' Hne')). by assert (l' = a0 :: l) as -> by congruence.
Qed.

(** *** Values *)

Lemma entryMatches_true v claims entry :
  entryMatches v claims entry = true <-> value_admitted claims v entry.
Proof.
  destruct entry as [| | | | |pattern| | | |]; cbn [value_admitted entryMatches];
    try apply orb_true_iff.
  unfold IsTaskVarRef. destruct (ParseVariableRef pattern) as [name|] eqn:En; cbn [from_option id].
  - rewrite (bool_decide_true (is_Some (Some name))) by eauto. cbn [andb].
    destruct (taskVarClaims name) as [key|] eqn:Ek.
    + rewrite (bool_decide_true (is_Some (Some key))) by eauto. split.
      * destruct v as [| | | | |s| | | |]; try done. case_match; [done|]. unfold ResolveTaskVar. rewrite Ek.
        destruct (claims !! key) as [[| | | | |t| | | |]|] eqn:Ec; try done.
        destruct (String.eqb_spec (TrimSpace t) ""); [done|]. intros ->%String.eqb_eq.
        exists name, key, s. done.
      * intros (name' & key' & s & [= <-] & Ek' & Ec & Hs & ->). rewrite Ek in Ek'. simplify_eq.
        destruct (Nat.eqb_spec (size claims) 0) as [Hz|]; [apply map_size_empty_inv in Hz as ->; done|].
        unfold ResolveTaskVar. rewrite Ek, Ec. apply String.eqb_neq in Hs as ->. apply String.eqb_refl.
    + rewrite (bool_decide_false (is_Some None)) by (by intros [? ?]). destruct v; naive_solver.
  - rewrite (bool_decide_false (is_Some None)) by (by intros [? ?]). cbn [andb]. destruct v; naive_solver.
Qed.

Lemma EvaluateAllowedValues_none argument values r :
  EvaluateAllowedValues (AllowedValues argument values) (Some r) = None <->
  satisfies (AllowedValues argument values) r.
Proof.
  cbn [EvaluateAllowedValues satisfies].
  destruct (String.eqb_spec argument "") as [Ha|Ha]; [by split; [| intros [? _]]|].
  destruct (ResolveArgument (Arguments r) argument) as [v|]; [| by split; [| intros (_ & v & l & ? & _)]].
  unfold MatchAllowedValue. destruct (existsb _ values) eqn:Ex.
  - apply existsb_elem_of in Ex as (entry & Hin & Hm%entryMatches_true). split; [eauto 7 | done].
  - split; [done|]. intros (_ & v' & entry & [= <-] & Hin & Hm%entryMatches_true).
    rewrite <- not_true_iff_false in Ex. destruct Ex. apply existsb_elem_of. eauto.
Qed.

(** *** All of them *)

(** The handler registerBuiltins registers for the kind. *)
Definition argument_handler (k : CondKind) : option (@PureHandler C F) :=
  match k with
  | KTimeWindow => Some handleTimeWindow
  | KIPRange => Some handleIPRange
  | KAllowedOperations => Some handleAllowedOperations
  | KAllowedExtensions => Some handleAllowedExtensions
  | KAllowedTables => Some handleAllowedTables
  | KRecipientDomain => Some handleRecipientDomain
  | KAllowedValues => Some handleAllowedValues
  | _ => None
  end.

Lemma argument_handler_decides cond h ctx r (w : World) :
  argument_handler (cond_kind cond) = Some h ->
  exists verdict, h ctx cond r w = (verdict, w) /\ (verdict = None <-> satisfies cond r).
Proof.
  intros E. destruct cond; cbn in E; try discriminate; apply (inj Some) in E; subst h;
    eexists; (split; [reflexivity|]);
    [apply checkTimeWindow_none | apply checkIPRange_none | apply checkAllowedOperations_none
    | apply checkAllowedExtensions_none | apply checkAllowedTables_none
    | apply checkRecipientDomain_none | apply EvaluateAllowedValues_none].
Qed.

(** C5: A call is allowed only if every timeWindow, ipRange, allowedOperations,
    allowedExtensions, allowedTables, recipientDomain and allowedValues condition of the
    governing constraint holds of it, whether or not the conditions were compiled at load:
    every path, recipient, table and column the argument names is on its list, an argument of
    another shape is never admitted, and a task variable admits the caller's own claim only. *)
Theorem allowed_call_meets_conditions `{Leaf} (e : @EngineState C F) ctx ec cond h (w : World) resp w' :
  argument_handler (cond_kind cond) = Some h ->
  handlers e !! ConditionType cond = Some (mkHandler (Some h) None) ->
  Cond cond ∈ Conditions (matched ec) ->
  evaluateMatched e ctx ec w = (resp, w') -> Decision_ resp = DecisionAllow ->
  satisfies cond (req ec).
Proof.
  intros Hk Hh Hin E Ha.
  apply evaluateMatched_allow in E as (_ & _ & flow & carried & w0 & _ & HA); [| done].
  destruct HA as (deferred & w1 & w3 & HP & _).
  destruct (Passes_elem e _ _ _ _ _ _ cond (mkHandler (Some h) None) h (fun _ => True) HP)
    as (wa & wb & _ & Hrun); try done.
  destruct (argument_handler_decides cond h (decided_ctx ctx ec flow carried) (req ec) wa Hk) as (verdict & Ev & Hv).
  rewrite Ev in Hrun. apply Hv. by injection Hrun.
Qed.

(** And the handlers refuse nothing more: each of them, compiled or not, is satisfied by
    exactly the calls its condition describes, and touches no state. *)
Theorem argument_conditions_decided cond h ctx r (w : World) :
  argument_handler (cond_kind cond) = Some h ->
  h ctx cond r w = (None, w) <-> satisfies cond r.
Proof.
  intros Hk. destruct (argument_handler_decides cond h ctx r w Hk) as (verdict & -> & Hv).
  rewrite <- Hv. split; [by intros [= ->] | by intros ->].
Qed.

End handlers.

(** ** The theorems on a small deployment *)

(** A stand-in for net and time: every text parses to its length. *)
#[local] Instance fx_net : GoNet := {|
  IP := string; IPNet := string; ParseIP := Some; ParseCIDR := Some; Contains := String.eqb;
  ParseRFC3339 s := Some (len s); FormatRFC3339 _ := "";
|}.

Definition fx_acl : Condition := AllowedTables "q" ["Users "] [("users", ["id"; "Name"])].

Definition demo_acl : @Engine.EngineState FxC FxF :=
  fx_engine {[ ConditionType fx_acl := mkHandler (Some (handleAllowedTables true)) None ]} None.

Definition fx_query (cols : list value) : evalCtx :=
  mkEvalCtx
    (mkRequest "s1" "db" [("q", VArray [VObject [("table", VString "USERS"); ("columns", VArray cols)]])]
       "" "" None ∅ [] [])
    (fx_constraint "db" [Cond fx_acl] []) "r1" "now".

(** A column off the list, and no column at all, are refused. *)
Example fx_query_refused :
  Decision_ (evaluateMatched demo_acl (fx_ctx false) (fx_query [VString "password"]) fx_world).1 = DecisionDeny /\
  Decision_ (evaluateMatched demo_acl (fx_ctx false) (fx_query []) fx_world).1 = DecisionDeny.
Proof. split; vm_compute; reflexivity. Qed.

Lemma allowed_call_meets_conditions_witness :
  satisfies fx_now fx_acl (req (fx_query [VString "NAME"])).
Proof.
  destruct (evaluateMatched demo_acl (fx_ctx false) (fx_query [VString "NAME"]) fx_world) as [resp w'] eqn:E0.
  apply (allowed_call_meets_conditions true fx_now demo_acl (fx_ctx false) (fx_query [VString "NAME"]) fx_acl
    (handleAllowedTables true) fx_world resp w').
  - reflexivity.
  - unfold demo_acl, fx_engine. cbn [handlers]. rewrite lookup_singleton_eq. reflexivity.
  - apply list_elem_of_here.
  - exact E0.
  - apply (f_equal (fun x => Decision_ x.1)) in E0. vm_compute in E0. symmetry. exact E0.
Defined.

Lemma argument_conditions_decided_witness :
  satisfies fx_now (RecipientDomain "to" ["Example.com"])
    (mkRequest "s1" "mail" [("to", VString " ann@EXAMPLE.COM ")] "" "" None ∅ [] []).
Proof.
  apply (argument_conditions_decided (C := FxC) (F := FxF) false fx_now
    (RecipientDomain "to" ["Example.com"]) (handleRecipientDomain false) (fx_ctx false) _ fx_world eq_refl).
  vm_compute. reflexivity.
Defined.

End ArgumentHandlers.
