(* ===== verification/AuditVerify.v ===== *)
(** * Verification of the audit log

    internal/audit/verify.go with the on-disk form of a record (audit.go): the canonical
    line, the keyring, the per-record check, the chain walk and the verdict of a pass.
    JSON, HMAC-SHA256 and the parsing of instants are parameters (class [AuditCodec]). *)
From stdpp Require Import base tactics list gmap strings.
From Stdlib Require Import ZArith Lia Ascii String.
From S2P Require Import Prelude GoStrings Truncate.
#[local] Open Scope string_scope.
#[local] Open Scope Z_scope.
#[local] Open Scope go_scope.
#[local] Arguments String.append : simpl nomatch.
Import Truncate.

(** [auditRecord], without the in-memory field queuedSize, which is not serialised. *)
Record auditRecord := mkAudit {
  ClassUID : Z; CategoryUID : Z; ActivityID : Z;
  Time : string; Seq : Z; RequestID : string; SessionID : string;
  AgentID : string; TaskID : string; UserID : string; TokenID : string;
  PEP : string; Upstream : string; PolicyVersion : string; PolicySHA256 : string;
  TargetType : string; Target : string; Method : string;
  Decision : string; AuditOnly : bool; DenialCode : string; ConditionType : string;
  Details : string; Obligations : list string; LabelsOut : list string; CarriedLabels : list string;
  ProtocolRevision : string; KeyID : string; PrevHMAC : string; HMAC : string;
}.

(** The record with its chain fields set. *)
Definition stamped (r : auditRecord) (seq : Z) (prev hmac : string) : auditRecord :=
  mkAudit (ClassUID r) (CategoryUID r) (ActivityID r) (Time r) seq (RequestID r) (SessionID r)
    (AgentID r) (TaskID r) (UserID r) (TokenID r) (PEP r) (Upstream r) (PolicyVersion r) (PolicySHA256 r)
    (TargetType r) (Target r) (Method r) (Decision r) (AuditOnly r) (DenialCode r) (ConditionType r)
    (Details r) (Obligations r) (LabelsOut r) (CarriedLabels r) (ProtocolRevision r) (KeyID r) prev hmac.

Definition with_hmac (r : auditRecord) (hmac : string) : auditRecord := stamped r (Seq r) (PrevHMAC r) hmac.

(** Nesting of a JSON text as encoding/json's scanner counts it: brackets outside strings. *)
Fixpoint json_depth (inString escaped : bool) (depth : Z) (s : string) : Z :=
  match s with
  | EmptyString => depth
  | String c s =>
      let n := nat_of_ascii c in
      if inString then
        if escaped then json_depth true false depth s
        else json_depth (negb (n =? 34)%nat) (n =? 92)%nat depth s
      else if existsb (Nat.eqb n) [91; 123]%nat then Z.max depth (json_depth false false (depth + 1) s)
      else if existsb (Nat.eqb n) [93; 125]%nat then Z.max depth (json_depth false false (depth - 1) s)
      else json_depth (n =? 34)%nat false depth s
  end.

(** The decoder's limit on nesting. *)
Definition maxNestingDepth : Z := 10000.

(** The texts of a record other than its time and chain fields. *)
Definition record_texts (r : auditRecord) : list string :=
  [RequestID r; SessionID r; AgentID r; TaskID r; UserID r; TokenID r; PEP r; Upstream r; PolicyVersion r;
   PolicySHA256 r; TargetType r; Target r; Method r; Decision r; DenialCode r; ConditionType r; Details r;
   ProtocolRevision r] ++ Obligations r ++ LabelsOut r ++ CarriedLabels r.

(** A record that survives decoding and encoding again byte for byte: every text is UTF-8 (an
    invalid byte is written as the escape of U+FFFD, which comes back as the rune itself), the
    three codes are machine integers and the details nest no deeper than the decoder reads. *)
Definition encodable (r : auditRecord) : Prop :=
  Forall Valid (record_texts r) /\
  in_int64 (ClassUID r) /\ in_int64 (CategoryUID r) /\ in_int64 (ActivityID r) /\
  json_depth false false 0 (Details r) < maxNestingDepth.

(** The errors [Decoder.Decode] reports. *)
Inductive json_error := SyntaxError | TypeError | ErrEOF | ErrUnexpectedEOF | UnknownField.

(** What the code uses of encoding/json, crypto/hmac, crypto/sha256 and time.  [Decode strict]
    is [Decode] into a record, with [DisallowUnknownFields] when [strict], and the answer of
    [More] after it. *)
Class AuditCodec := {
  Marshal : auditRecord -> option string;
  MarshalString : string -> option string;
  Decode : bool -> string -> result (auditRecord * bool) json_error;
  hmacHex : string -> string -> string;
  hmacKeyID : string -> string;
  ParseTime : string -> option time;
}.

Module AuditVerify.
Section verify.
Context `{AuditCodec}.

(** ** The on-disk form of a record (audit.go) *)

Definition auditGenesisPrev := "sha256:genesis".
Definition macAlgPrefix := "sha256:".
Definition dquote : string := bytes [34%nat].
Definition macFieldPrefix : string := "," ++ dquote ++ "_hmac" ++ dquote ++ ":".

Definition recordMAC (key body : string) : string := macAlgPrefix ++ hmacHex key body.

Definition plain_char (c : ascii) : bool :=
  let n := nat_of_ascii c in
  (32 <=? n)%nat && (n <=? 126)%nat && negb (existsb (Nat.eqb n) [34; 92; 60; 62; 38]%nat).

Definition isPlainJSONString (s : string) : bool := str_forall plain_char s.

Definition appendJSONString (dst s : string) : option string :=
  if isPlainJSONString s then Some (dst ++ dquote ++ s ++ dquote)
  else match MarshalString s with Some encoded => Some (dst ++ encoded) | None => None end.

(** [body] without its closing brace. *)
Definition open_body (body : string) : option string :=
  if has_suffix body "}" then Some (take_str (String.length body - 1) body) else None.

Definition signedRecordLine (body mac : string) : option string :=
  match open_body body with
  | None => None
  | Some line =>
      match appendJSONString (line ++ macFieldPrefix) mac with
      | None => None
      | Some line => Some (line ++ "}")
      end
  end.

(** The comparison in place; [None] is the error. *)
Definition isCanonicalSignedLine (line body mac : string) : option bool :=
  match open_body body with
  | None => None
  | Some pre =>
      if negb (has_prefix line pre) then Some false
      else
        let tail := drop_str (String.length pre) line in
        let k := String.length macFieldPrefix in
        if (String.length tail <? k + 1)%nat || negb (String.eqb (take_str k tail) macFieldPrefix)
           || negb (has_suffix tail "}")
        then Some false
        else
          match appendJSONString "" mac with
          | None => None
          | Some wantMAC =>
              Some (String.eqb (take_str (String.length tail - 1 - k) (drop_str k tail)) wantMAC)
          end
  end.

(** ** Keys *)

(** The part of a Sink the verifier reads. *)
Record verifier := mkVerifier {
  verifyKeys : option (gmap string string);
  key : option string;
  keyID : string;
}.

Definition NewVerifier (keys : list string) : verifier :=
  mkVerifier (Some (fold_left (fun ring k => <[hmacKeyID k := k]> ring) keys ∅)) None "".

Inductive verify_error :=
| errKeyIDNotInRing
| errNoKeyTried
| errNonCanonicalRecord
| errUnsigned
| errMarshal
| errStrictDecodeRefused (e : json_error)
| errTrailingRecordData.

Definition ring_of (s : verifier) : option (gmap string string) :=
  match verifyKeys s, key s with
  | Some ring, _ => Some ring
  | None, None => None
  | None, Some k => Some {[ (if String.eqb (keyID s) "" then hmacKeyID k else keyID s) := k ]}
  end.

Definition keysToTry (s : option verifier) (id : string) : result (list string) verify_error :=
  match s with
  | None => Ok []
  | Some s =>
      match ring_of s with
      | None => Ok []
      | Some ring =>
          if negb (String.eqb id "") then
            match ring !! id with
            | Some k => Ok [k]
            | None => Err errKeyIDNotInRing
            end
          else Ok (snd <$> map_to_list ring)
      end
  end.

(** ** One record *)

Definition strictDecodeAuditRecord (line : string) : result auditRecord verify_error :=
  match Decode true line with
  | Err e => Err (errStrictDecodeRefused e)
  | Ok (rec, more) => if more : bool then Err errTrailingRecordData else Ok rec
  end.

Definition lenientDecodeAuditRecord (line : string) : option auditRecord :=
  match Decode false line with
  | Ok (rec, false) => Some rec
  | _ => None
  end.

Definition verifyDecodedRecord (s : option verifier) (line : string) (rec : auditRecord)
    : result bool verify_error :=
  let storedHMAC := HMAC rec in
  if String.eqb storedHMAC "" then Err errUnsigned
  else
    match Marshal (with_hmac rec "") with
    | None => Err errMarshal
    | Some body =>
        match isCanonicalSignedLine (TrimSpace line) body storedHMAC with
        | None => Err errMarshal
        | Some false => Err errNonCanonicalRecord
        | Some true =>
            let* keys := keysToTry s (KeyID rec) in
            if existsb (fun k => String.eqb storedHMAC (recordMAC k body)) keys then Ok true
            else if (List.length keys =? 0)%nat then Err errNoKeyTried
            else Ok false
        end
    end.

Definition VerifyRecord (s : option verifier) (line : string) : result bool verify_error :=
  let* rec := strictDecodeAuditRecord line in verifyDecodedRecord s line rec.

(** The lenient and the strict verdict of one line, and the record the chain walk reads. *)
Record recordDecode := mkDecode { wellFormed : bool; verifyErr : option verify_error }.

Definition strictRejectionIsFatal (e : verify_error) : bool :=
  match e with
  | errTrailingRecordData => true
  | errStrictDecodeRefused (ErrUnexpectedEOF | ErrEOF | SyntaxError | TypeError) => true
  | _ => false
  end.

Definition zeroRecord : auditRecord :=
  mkAudit 0 0 0 "" 0 "" "" "" "" "" "" "" "" "" "" "" "" "" "" false "" "" "" [] [] [] "" "" "" "".

(** A record that was not read is never looked at: [wellFormed] gates the chain. *)
Definition decodeAuditRecord (line : string) : auditRecord * recordDecode :=
  match strictDecodeAuditRecord line with
  | Ok rec => (rec, mkDecode true None)
  | Err err =>
      if strictRejectionIsFatal err then (zeroRecord, mkDecode false (Some err))
      else
        match lenientDecodeAuditRecord line with
        | Some rec => (rec, mkDecode true (Some err))
        | None => (zeroRecord, mkDecode false (Some err))
        end
  end.

Definition isSignedRecord (rec : auditRecord) : bool := negb (String.eqb (HMAC rec) "").

Definition recordTime (rec : auditRecord) : option time := ParseTime (Time rec).

(** ** The pass over a log *)

Record VerifyOptions := mkOptions {
  optRequestID : string;
  optTaskID : string;
  Since : option time;      (* None is the zero time *)
  Collect : bool;           (* whether a collector is installed *)
}.

Record VerifyResult := mkResult {
  Total : Z; Valid_ : Z; Invalid : Z; Skipped : Z; UnknownKey : Z; Unverifiable : Z;
  ChainBreaks : Z; FirstSeq : Z; FirstVerifiedSeq : Z;
}.

Definition OK (r : VerifyResult) : bool :=
  (Invalid r =? 0) && (ChainBreaks r =? 0) && (UnknownKey r =? 0) && (Unverifiable r =? 0).

(** The tallies a pass increments, and its two seq fields. *)
Definition incr_total (r : VerifyResult) := mkResult (Total r + 1) (Valid_ r) (Invalid r) (Skipped r) (UnknownKey r) (Unverifiable r) (ChainBreaks r) (FirstSeq r) (FirstVerifiedSeq r).
Definition incr_valid (r : VerifyResult) := mkResult (Total r) (Valid_ r + 1) (Invalid r) (Skipped r) (UnknownKey r) (Unverifiable r) (ChainBreaks r) (FirstSeq r) (FirstVerifiedSeq r).
Definition incr_invalid (r : VerifyResult) := mkResult (Total r) (Valid_ r) (Invalid r + 1) (Skipped r) (UnknownKey r) (Unverifiable r) (ChainBreaks r) (FirstSeq r) (FirstVerifiedSeq r).
Definition incr_skipped (r : VerifyResult) := mkResult (Total r) (Valid_ r) (Invalid r) (Skipped r + 1) (UnknownKey r) (Unverifiable r) (ChainBreaks r) (FirstSeq r) (FirstVerifiedSeq r).
Definition incr_unknown (r : VerifyResult) := mkResult (Total r) (Valid_ r) (Invalid r) (Skipped r) (UnknownKey r + 1) (Unverifiable r) (ChainBreaks r) (FirstSeq r) (FirstVerifiedSeq r).
Definition incr_unverifiable (r : VerifyResult) := mkResult (Total r) (Valid_ r) (Invalid r) (Skipped r) (UnknownKey r) (Unverifiable r + 1) (ChainBreaks r) (FirstSeq r) (FirstVerifiedSeq r).
Definition incr_breaks (r : VerifyResult) := mkResult (Total r) (Valid_ r) (Invalid r) (Skipped r) (UnknownKey r) (Unverifiable r) (ChainBreaks r + 1) (FirstSeq r) (FirstVerifiedSeq r).
Definition set_first (seq : Z) (r : VerifyResult) := mkResult (Total r) (Valid_ r) (Invalid r) (Skipped r) (UnknownKey r) (Unverifiable r) (ChainBreaks r) seq (FirstVerifiedSeq r).
Definition set_verified (seq : Z) (r : VerifyResult) := mkResult (Total r) (Valid_ r) (Invalid r) (Skipped r) (UnknownKey r) (Unverifiable r) (ChainBreaks r) (FirstSeq r) seq.

(** The statuses of the cross-tape join and the record it presents (join.go). *)
Inductive RecordStatus := StatusVerified | StatusInvalid | StatusUnknownKey | StatusUnverifiable | StatusUnsigned.

Record JoinedRecord := mkJoined {
  Tape : Z; jPEP : string; jSeq : Z; jTime : string; At : time; TimeOK : bool;
  jTaskID : string; jMethod : string; jTargetType : string; jTarget : string;
  jDecision : string; jDenialCode : string; Status : RecordStatus;
}.

Inductive diagnosticKind :=
| diagUnclassified | diagMalformed | diagDecoy | diagUnsigned | diagUnknownKey | diagUnverifiable
| diagVerifyError | diagMismatch | diagMalformedTime | diagChainBreak | diagSeqGap.

#[global] Instance diagnosticKind_eq : EqDecision diagnosticKind.
Proof. solve_decision. Defined.

(** The order [reportSuppressedDiagnostics] walks the declarations in. *)
Definition diagnosticKinds : list diagnosticKind :=
  [diagUnclassified; diagMalformed; diagDecoy; diagUnsigned; diagUnknownKey; diagUnverifiable;
   diagVerifyError; diagMismatch; diagMalformedTime; diagChainBreak; diagSeqGap].

Definition maxRecordDiagnostics : Z := 10.

Record diagnosticCap := mkCap { seen : Z; first : Z; last : Z }.

(** A line written to [opts.Out], by the values it interpolates. *)
Inductive outLine :=
| LMalformed (total : Z)
| LDecoy (total : Z)
| LUnsigned (total seq : Z)
| LGenesisEmpty
| LGenesisWrong (prev : string)
| LAnchorUntrusted (seq : Z)
| LLinkMismatch (seq : Z)
| LSeqMissing (seq prev : Z)
| LSeqNotIncreased (seq prev : Z)
| LUnknownKey (seq : Z) (keyid : string)
| LUnverifiable (seq : Z)
| LError (seq : Z) (err : verify_error)
| LMismatch (seq : Z) (requestID sessionID target : string)
| LBadTime (seq : Z) (t : string)
| LAlsoBadTime (seq : Z) (t : string)
| LElided (kind : diagnosticKind)
| LSummary (kind : diagnosticKind) (seen elided first last : Z).

Record auditChainVerifier := mkChain {
  res : VerifyResult;
  havePrev : bool;
  prevHMAC : string;
  prevSeq : Z;
  diags : diagnosticKind -> diagnosticCap;
  prevRecordInvalid : bool;
  Out : list outLine;
  collected : list JoinedRecord;
}.

Definition newChain : auditChainVerifier :=
  mkChain (mkResult 0 0 0 0 0 0 0 0 0) false "" 0 (fun _ => mkCap 0 0 0) false [] [].

Definition upd_res (f : VerifyResult -> VerifyResult) (v : auditChainVerifier) : auditChainVerifier :=
  mkChain (f (res v)) (havePrev v) (prevHMAC v) (prevSeq v) (diags v) (prevRecordInvalid v) (Out v) (collected v).
Definition upd_anchor (hmac : string) (seq : Z) (v : auditChainVerifier) : auditChainVerifier :=
  mkChain (res v) true hmac seq (diags v) (prevRecordInvalid v) (Out v) (collected v).
Definition upd_flag (b : bool) (v : auditChainVerifier) : auditChainVerifier :=
  mkChain (res v) (havePrev v) (prevHMAC v) (prevSeq v) (diags v) b (Out v) (collected v).
Definition upd_diags (kind : diagnosticKind) (c : diagnosticCap) (v : auditChainVerifier) : auditChainVerifier :=
  mkChain (res v) (havePrev v) (prevHMAC v) (prevSeq v)
    (fun k => if decide (k = kind) then c else diags v k) (prevRecordInvalid v) (Out v) (collected v).
Definition fprintf (l : outLine) (v : auditChainVerifier) : auditChainVerifier :=
  mkChain (res v) (havePrev v) (prevHMAC v) (prevSeq v) (diags v) (prevRecordInvalid v) (Out v ++ [l])%list (collected v).
Definition upd_collected (j : JoinedRecord) (v : auditChainVerifier) : auditChainVerifier :=
  mkChain (res v) (havePrev v) (prevHMAC v) (prevSeq v) (diags v) (prevRecordInvalid v) (Out v) (collected v ++ [j])%list.

Definition admitDiagnostic (kind : diagnosticKind) (v : auditChainVerifier) : bool * auditChainVerifier :=
  let c := diags v kind in
  let n := seen c + 1 in
  let c := mkCap n (if n =? 1 then Total (res v) else first c) (Total (res v)) in
  let v := upd_diags kind c v in
  if n <=? maxRecordDiagnostics then (true, v)
  else if n =? maxRecordDiagnostics + 1 then (false, fprintf (LElided kind) v)
  else (false, v).

(** A diagnostic of a kind: admitted first, then formatted. *)
Definition say (kind : diagnosticKind) (l : outLine) (v : auditChainVerifier) : auditChainVerifier :=
  let '(printed, v) := admitDiagnostic kind v in if printed : bool then fprintf l v else v.

Definition reportMalformedTime (rec : auditRecord) (malformed printed : bool) (v : auditChainVerifier)
    : auditChainVerifier :=
  if negb malformed || negb printed then v
  else fprintf (LAlsoBadTime (Seq rec) (SanitizeControlRunes (Time rec))) v.

Definition reportSuppressedDiagnostics (v : auditChainVerifier) : auditChainVerifier :=
  fold_left (fun v kind =>
    let c := diags v kind in
    if seen c <=? maxRecordDiagnostics then v
    else fprintf (LSummary kind (seen c) (seen c - maxRecordDiagnostics) (first c) (last c)) v)
    diagnosticKinds v.

Definition checkGenesisAnchor (rec : auditRecord) (v : auditChainVerifier) : auditChainVerifier :=
  if negb (Seq rec =? 1) || String.eqb (PrevHMAC rec) auditGenesisPrev then v
  else
    say diagChainBreak
      (if String.eqb (PrevHMAC rec) "" then LGenesisEmpty else LGenesisWrong (PrevHMAC rec))
      (upd_res incr_breaks v).

Definition checkAnchorLink (rec : auditRecord) (v : auditChainVerifier) : auditChainVerifier :=
  let v :=
    if prevRecordInvalid v
    then upd_flag false (say diagChainBreak (LAnchorUntrusted (Seq rec)) (upd_res incr_breaks v))
    else v in
  if negb (String.eqb (PrevHMAC rec) (prevHMAC v))
  then say diagChainBreak (LLinkMismatch (Seq rec)) (upd_res incr_breaks v)
  else v.

Definition checkSeqContiguity (rec : auditRecord) (v : auditChainVerifier) : auditChainVerifier :=
  let want := wrap_uint64 (prevSeq v + 1) in
  if Seq rec =? want then v
  else
    say diagSeqGap
      (if want <? Seq rec then LSeqMissing (Seq rec) (prevSeq v) else LSeqNotIncreased (Seq rec) (prevSeq v))
      (upd_res incr_breaks v).

Definition updateChain (rec : auditRecord) (v : auditChainVerifier) : auditChainVerifier :=
  let v :=
    if negb (havePrev v) then checkGenesisAnchor rec (upd_res (set_first (Seq rec)) v)
    else checkSeqContiguity rec (checkAnchorLink rec v) in
  upd_anchor (HMAC rec) (Seq rec) v.

Definition inJoinWindow (opts : VerifyOptions) (rec : auditRecord) : bool :=
  if negb (String.eqb (optTaskID opts) "") && negb (String.eqb (TaskID rec) (optTaskID opts)) then false
  else String.eqb (optRequestID opts) "" || String.eqb (RequestID rec) (optRequestID opts).

Record recordVerdict := mkVerdict { status : RecordStatus; at_ : time; timeOK : bool }.

Definition decodableVerdict (opts : VerifyOptions) (rec : auditRecord) (st : RecordStatus) : recordVerdict :=
  if negb (Collect opts) then mkVerdict st zero_time false
  else mkVerdict st (default zero_time (recordTime rec)) (bool_decide (is_Some (recordTime rec))).

(** The last arms of [classify]: the outcome of the signature check. *)
Definition classify_signed (rec : auditRecord) (verified : result bool verify_error)
    (malformedTime inReportWindow : bool) (verdict : RecordStatus -> recordVerdict) (v : auditChainVerifier)
    : recordVerdict * auditChainVerifier :=
  match verified with
  | Err errKeyIDNotInRing =>
      let '(printed, v) := admitDiagnostic diagUnknownKey v in
      let v := if printed : bool then fprintf (LUnknownKey (Seq rec) (SanitizeControlRunes (KeyID rec))) v else v in
      (verdict StatusUnknownKey, reportMalformedTime rec malformedTime printed (upd_res incr_unknown v))
  | Err errNoKeyTried =>
      let '(printed, v) := admitDiagnostic diagUnverifiable v in
      let v := if printed : bool then fprintf (LUnverifiable (Seq rec)) v else v in
      (verdict StatusUnverifiable, reportMalformedTime rec malformedTime printed (upd_res incr_unverifiable v))
  | Err err =>
      (verdict StatusInvalid,
       upd_flag true (upd_res incr_invalid (say diagVerifyError (LError (Seq rec) err) v)))
  | Ok false =>
      (verdict StatusInvalid,
       upd_flag true (upd_res incr_invalid
         (say diagMismatch
            (LMismatch (Seq rec) (SanitizeControlRunes (RequestID rec))
               (SanitizeControlRunes (SessionID rec)) (SanitizeControlRunes (Target rec))) v)))
  | Ok true =>
      if malformedTime then
        (verdict StatusInvalid,
         upd_res incr_invalid (say diagMalformedTime (LBadTime (Seq rec) (SanitizeControlRunes (Time rec))) v))
      else if inReportWindow then (verdict StatusVerified, upd_res incr_valid v)
      else (verdict StatusVerified, upd_res incr_skipped v)
  end.

Definition classify (s : option verifier) (opts : VerifyOptions) (line : string) (rec : auditRecord)
    (dec : recordDecode) (forgedSeq0 unsigned : bool) (v : auditChainVerifier)
    : recordVerdict * auditChainVerifier :=
  if negb (wellFormed dec) then
    (mkVerdict StatusInvalid zero_time false,
     say diagMalformed (LMalformed (Total (res v))) (upd_res incr_invalid v))
  else if forgedSeq0 then
    (decodableVerdict opts rec StatusInvalid,
     say diagDecoy (LDecoy (Total (res v))) (upd_res incr_invalid v))
  else if unsigned then
    (decodableVerdict opts rec StatusUnsigned,
     say diagUnsigned (LUnsigned (Total (res v)) (Seq rec)) (upd_res incr_invalid v))
  else
    let malformedTime := bool_decide (recordTime rec = None) in
    let inReportWindow :=
      match recordTime rec, Since opts with
      | None, _ => false
      | Some t, Some since => if time_before t since then false else inJoinWindow opts rec
      | Some _, None => inJoinWindow opts rec
      end in
    let verified :=
      match verifyErr dec with
      | Some err => Err err
      | None => verifyDecodedRecord s line rec
      end in
    let v :=
      match verified with
      | Ok true =>
          if (FirstVerifiedSeq (res v) =? 0) || (Seq rec <? FirstVerifiedSeq (res v))
          then upd_res (set_verified (Seq rec)) v else v
      | _ => v
      end in
    classify_signed rec verified malformedTime inReportWindow
      (fun st => mkVerdict st (default zero_time (recordTime rec)) (negb malformedTime)) v.

Definition collect (opts : VerifyOptions) (rec : auditRecord) (dec : recordDecode) (verdict : recordVerdict)
    (v : auditChainVerifier) : auditChainVerifier :=
  if negb (Collect opts) || negb (wellFormed dec) || negb (inJoinWindow opts rec) then v
  else
    upd_collected
      (mkJoined 0 (PEP rec) (Seq rec) (Time rec) (at_ verdict) (timeOK verdict) (TaskID rec) (Method rec)
         (TargetType rec) (Target rec) (Decision rec) (DenialCode rec) (status verdict)) v.

Definition processLine (s : option verifier) (opts : VerifyOptions) (v : auditChainVerifier) (line : string)
    : auditChainVerifier :=
  let v := upd_res incr_total v in
  let '(rec, dec) := decodeAuditRecord line in
  let unsigned := negb (isSignedRecord rec) in
  let forgedSeq0 := (Seq rec =? 0) && negb unsigned in
  let v := if wellFormed dec && negb forgedSeq0 && negb unsigned then updateChain rec v else v in
  let '(verdict, v) := classify s opts line rec dec forgedSeq0 unsigned v in
  collect opts rec dec verdict v.

(** ** Lines and files *)

Definition auditScanBufferBytes : Z := 4194304.
Definition newline : ascii := ascii_of_nat 10.
Definition dropCR (l : string) : string :=
  if has_suffix l (bytes [13%nat]) then take_str (String.length l - 1) l else l.

Inductive scan_error := ErrTooLong | ErrUnterminatedTail.

(** [bufio.Scanner] with [scanSignedLines] over a whole stream, cut at its newlines: a line that
    does not fit the buffer with its newline stops it, the text after the last newline is a
    record only when blank. *)
Fixpoint scanSignedLines (segs : list string) : list string * option scan_error :=
  match segs with
  | [] => ([], None)
  | seg :: rest =>
      if auditScanBufferBytes <=? len seg then ([], Some ErrTooLong)
      else
        match rest with
        | [] =>
            if negb (String.eqb (TrimSpace seg) "") then ([], Some ErrUnterminatedTail)
            else (if String.eqb seg "" then [] else [dropCR seg], None)
        | _ =>
            let '(tokens, err) := scanSignedLines rest in (dropCR seg :: tokens, err)
        end
  end.

Definition nonblank (line : string) : bool := negb (String.eqb (TrimSpace line) "").

(** The records of a stream, and how the scan of it ended. *)
Definition log_lines (log : string) : list string * option scan_error :=
  let '(tokens, err) := scanSignedLines (split_char newline log) in
  (List.filter nonblank tokens, err).

Definition VerifyLog (s : option verifier) (opts : VerifyOptions) (log : string)
    : auditChainVerifier * option scan_error :=
  let '(lines, err) := log_lines log in
  (reportSuppressedDiagnostics (fold_left (processLine s opts) lines newChain), err).

(** The files of a chain, oldest first, joined by newlines. *)
Fixpoint buildLazyChain (files : list string) : string :=
  match files with
  | [] => ""
  | [f] => f
  | f :: rest => f ++ String newline "" ++ buildLazyChain rest
  end.

Definition VerifyLogFiles (s : option verifier) (opts : VerifyOptions) (files : list string)
    : auditChainVerifier * option scan_error :=
  VerifyLog s opts (buildLazyChain files).

(** ** The canonical line *)

Lemma has_suffix_split s p : has_suffix s p = true -> s = take_str (String.length s - String.length p) s ++ p.
Proof.
  unfold has_suffix. intros [_ Hd%String.eqb_eq]%andb_true_iff.
  rewrite <- Hd at 2. by rewrite take_drop_str.
Qed.

Lemma has_suffix_app s p : has_suffix (s ++ p) p = true.
Proof.
  unfold has_suffix. rewrite str_length_app. apply andb_true_iff. split; [apply Nat.leb_le; lia|].
  apply String.eqb_eq. replace (String.length s + String.length p - String.length p)%nat with (String.length s) by lia.
  apply drop_str_app.
Qed.

Lemma appendJSONString_app dst s :
  appendJSONString dst s = match appendJSONString "" s with Some e => Some (dst ++ e) | None => None end.
Proof. unfold appendJSONString. destruct (isPlainJSONString s); cbn; [done|]. by destruct (MarshalString s). Qed.

Lemma drop_str_app_r a b n : drop_str (String.length a + n) (a ++ b) = drop_str n b.
Proof. by induction a. Qed.

(** What the line looks like once the field prefix and the brace are known to be there. *)
Lemma signed_tail_split m tail :
  (String.length m + 1 <= String.length tail)%nat ->
  take_str (String.length m) tail = m -> has_suffix tail "}" = true ->
  tail = m
         ++ take_str (String.length tail - 1 - String.length m) (drop_str (String.length m) tail)
         ++ "}".
Proof.
  intros Hl Ht Hs. set (k := String.length m) in *.
  pose proof (take_drop_str k tail) as Htd. rewrite Ht in Htd.
  set (rest := drop_str k tail) in *.
  assert (has_suffix rest "}" = true) as Hr.
  { unfold has_suffix in *. apply andb_true_iff in Hs as [_ Hs%String.eqb_eq].
    apply andb_true_iff. split; [apply Nat.leb_le; unfold rest; rewrite drop_str_le; cbn [String.length]; lia|].
    apply String.eqb_eq. rewrite <- Hs at 2. rewrite <- Htd. cbn [String.length].
    rewrite str_length_app. fold k.
    assert (0 < String.length rest)%nat by (unfold rest; rewrite drop_str_le; lia).
    replace (k + String.length rest - 1)%nat with (k + (String.length rest - 1))%nat by lia.
    unfold k. by rewrite drop_str_app_r. }
  apply has_suffix_split in Hr. rewrite <- Htd at 1. f_equal. rewrite Hr at 1. f_equal. f_equal.
  unfold rest. rewrite drop_str_le. cbn [String.length]. lia.
Qed.

(** A line is in canonical form exactly when it is the line the writer emits. *)
Theorem canonical_iff_written line body mac :
  isCanonicalSignedLine line body mac = Some true <-> signedRecordLine body mac = Some line.
Proof.
  unfold isCanonicalSignedLine, signedRecordLine. destruct (open_body body) as [pre|]; [|done].
  generalize macFieldPrefix as m. intros m.
  rewrite (appendJSONString_app (pre ++ m)). split.
  - destruct (has_prefix line pre) eqn:Hp; cbn [negb]; [|done].
    apply prefix_drop in Hp. set (tail := drop_str (String.length pre) line) in *.
    destruct (_ <? _)%nat eqn:Hl; cbn [orb]; [done|]. apply Nat.ltb_ge in Hl.
    destruct (String.eqb _ m) eqn:Ht; cbn [negb orb]; [|done]. apply String.eqb_eq in Ht.
    destruct (has_suffix tail "}") eqn:Hs; cbn [negb]; [|done].
    destruct (appendJSONString "" mac) as [w|]; [|done]. intros [= Hw%String.eqb_eq].
    rewrite Hp at 1. rewrite (signed_tail_split m tail Hl Ht Hs), Hw. by rewrite !str_app_assoc.
  - destruct (appendJSONString "" mac) as [w|] eqn:Hw; [|done]. intros [= <-].
    rewrite !str_app_assoc. rewrite has_prefix_app, drop_str_app. cbn [negb].
    rewrite take_str_app, String.eqb_refl. cbn [negb].
    assert (has_suffix (m ++ w ++ "}") "}" = true) as Hsuf by (rewrite <- str_app_assoc; apply has_suffix_app).
    set (k := String.length m) in *.
    replace (String.length (m ++ w ++ "}")) with (k + String.length w + 1)%nat
      by (rewrite !str_length_app; cbn; lia).
    rewrite Hsuf. destruct (_ <? _)%nat eqn:Hl; [apply Nat.ltb_lt in Hl; lia|]. cbn [negb orb].
    replace (drop_str k (m ++ w ++ "}")) with (w ++ "}") by (unfold k; by rewrite drop_str_app).
    replace (k + String.length w + 1 - 1 - k)%nat with (String.length w) by lia.
    by rewrite take_str_app, String.eqb_refl.
Qed.

(** ** What a pass that succeeds has established *)

(** A line that counts against nothing: read strictly, signed, with a seq of its own, in
    canonical form under a key of the ring and with a time that parses. *)
Definition sound_line (s : option verifier) (line : string) : option auditRecord :=
  match strictDecodeAuditRecord line with
  | Err _ => None
  | Ok rec =>
      if isSignedRecord rec && negb (Seq rec =? 0) && bool_decide (is_Some (recordTime rec))
      then match verifyDecodedRecord s line rec with Ok true => Some rec | _ => None end
      else None
  end.

(** What a record owes to the one before it. *)
Definition linked (prev : option auditRecord) (rec : auditRecord) : bool :=
  match prev with
  | None => negb (Seq rec =? 1) || String.eqb (PrevHMAC rec) auditGenesisPrev
  | Some p => String.eqb (PrevHMAC rec) (HMAC p) && (Seq rec =? wrap_uint64 (Seq p + 1))
  end.

Fixpoint chained (prev : option auditRecord) (recs : list auditRecord) : bool :=
  match recs with
  | [] => true
  | rec :: rest => linked prev rec && chained (Some rec) rest
  end.

Definition nonneg (r : VerifyResult) : Prop :=
  0 <= Invalid r /\ 0 <= ChainBreaks r /\ 0 <= UnknownKey r /\ 0 <= Unverifiable r.
Definition faults (r : VerifyResult) : Z := Invalid r + ChainBreaks r + UnknownKey r + Unverifiable r.

Lemma OK_faults r : nonneg r -> OK r = true <-> faults r = 0.
Proof. unfold nonneg, faults, OK. rewrite !andb_true_iff, !Z.eqb_eq. lia. Qed.

(** The state the verdict depends on: everything but the output. *)
Definition core (v : auditChainVerifier) := (res v, havePrev v, prevHMAC v, prevSeq v, prevRecordInvalid v).

Lemma admit_core k v : core (admitDiagnostic k v).2 = core v.
Proof. unfold admitDiagnostic. by repeat case_match. Qed.

Lemma say_core k l v : core (say k l v) = core v.
Proof.
  unfold say. pose proof (admit_core k v) as Hc. destruct (admitDiagnostic k v) as [b v']. cbn in Hc. by destruct b.
Qed.

Lemma malformed_core rec m b v : core (reportMalformedTime rec m b v) = core v.
Proof. unfold reportMalformedTime. by case_match. Qed.

Lemma suppressed_core v : core (reportSuppressedDiagnostics v) = core v.
Proof.
  unfold reportSuppressedDiagnostics. generalize diagnosticKinds as l. intros l. revert v.
  induction l as [|k l IH]; intros v; cbn; [done|]. rewrite IH. by case_match.
Qed.

Lemma collect_core opts rec dec verdict v : core (collect opts rec dec verdict v) = core v.
Proof. unfold collect. by case_match. Qed.

Lemma core_inj v w : core v = core w ->
  res v = res w /\ havePrev v = havePrev w /\ prevHMAC v = prevHMAC w /\ prevSeq v = prevSeq w /\
  prevRecordInvalid v = prevRecordInvalid w.
Proof. unfold core. intros [= ? ? ? ? ?]. done. Qed.

(** The anchor is that of [prev], and nothing has made it untrustworthy. *)
Definition anchored (prev : option auditRecord) (v : auditChainVerifier) : Prop :=
  prevRecordInvalid v = false /\
  match prev with
  | None => havePrev v = false
  | Some p => havePrev v = true /\ prevHMAC v = HMAC p /\ prevSeq v = Seq p
  end.

Lemma say_break_res k l v : res (say k l (upd_res incr_breaks v)) = incr_breaks (res v).
Proof. pose proof (core_inj _ _ (say_core k l (upd_res incr_breaks v))) as (-> & _). done. Qed.

Ltac says :=
  repeat match goal with
  | |- context [say ?k ?l ?v] =>
      let Hs := fresh "Hs" in
      pose proof (core_inj _ _ (say_core k l v)) as Hs; cbn in Hs; destruct Hs as (? & ? & ? & ? & ?);
      generalize dependent (say k l v); intros
  end.

(** The chain walk adds at least no break, and none exactly when the record links on. *)
Lemma updateChain_spec prev v rec :
  anchored prev v -> nonneg (res v) ->
  let v' := updateChain rec v in
  anchored (Some rec) v' /\ nonneg (res v') /\
  faults (res v) <= faults (res v') /\ (faults (res v') = faults (res v) <-> linked prev rec = true).
Proof.
  intros [Hf Ha] Hn. unfold updateChain, anchored, linked.
  destruct prev as [p|].
  - destruct Ha as (Hp & Hh & Hq). rewrite Hp. cbn [negb].
    assert (checkAnchorLink rec v =
            if negb (String.eqb (PrevHMAC rec) (HMAC p))
            then say diagChainBreak (LLinkMismatch (Seq rec)) (upd_res incr_breaks v) else v) as ->.
    { unfold checkAnchorLink. by rewrite Hf, Hh. }
    unfold checkSeqContiguity.
    destruct (String.eqb (PrevHMAC rec) (HMAC p)); cbn [negb andb].
    + rewrite Hq. destruct (_ =? _) eqn:E; [|says]; cbn; unfold nonneg, faults in *;
        repeat match goal with H : res _ = _ |- _ => rewrite H in * end; cbn; repeat split; intros; try congruence; lia.
    + says. destruct (_ =? _) eqn:E; [|says]; cbn; unfold nonneg, faults in *;
        repeat match goal with H : res _ = _ |- _ => rewrite H in * end; cbn; repeat split; intros; try congruence; lia.
  - rewrite Ha. cbn [negb]. unfold checkGenesisAnchor.
    destruct (_ || _) eqn:E; [|says]; cbn; unfold nonneg, faults in *;
        repeat match goal with H : res _ = _ |- _ => rewrite H in * end; cbn; repeat split; intros; try congruence; lia.
Qed.

Definition grows (r r' : VerifyResult) : Prop := nonneg r -> nonneg r' /\ faults r <= faults r'.

Lemma grows_refl r : grows r r.
Proof. unfold grows. intros. split; [done | lia]. Qed.

Lemma grows_trans r1 r2 r3 : grows r1 r2 -> grows r2 r3 -> grows r1 r3.
Proof. unfold grows. intros H1 H2 Hn. destruct (H1 Hn) as [Hn2 ?]. destruct (H2 Hn2). split; [done|lia]. Qed.

Ltac grow := unfold grows, nonneg, faults; cbn; intros; repeat split; lia.

Lemma say_break_grows k l v : grows (res v) (res (say k l (upd_res incr_breaks v))).
Proof. rewrite say_break_res. grow. Qed.

Lemma updateChain_grows v rec : grows (res v) (res (updateChain rec v)).
Proof.
  assert (forall v, grows (res v) (res (checkAnchorLink rec v))) as Hlink.
  { intros w. unfold checkAnchorLink.
    assert (forall w', grows (res w') (res (if negb (String.eqb (PrevHMAC rec) (prevHMAC w'))
       then say diagChainBreak (LLinkMismatch (Seq rec)) (upd_res incr_breaks w') else w'))) as Hl.
    { intros w'. case_match; [apply say_break_grows | apply grows_refl]. }
    destruct (prevRecordInvalid w); [|apply Hl].
    eapply grows_trans; [|apply Hl]. apply say_break_grows. }
  unfold updateChain. case_match.
  - unfold checkGenesisAnchor. case_match; cbn; [grow|]. rewrite say_break_res. grow.
  - eapply grows_trans; [apply Hlink|]. generalize (checkAnchorLink rec v) as w. intros w.
    unfold checkSeqContiguity. case_match; cbn; [apply grows_refl | apply say_break_grows].
Qed.

Ltac key_arm v :=
  match goal with |- context [admitDiagnostic ?k v] =>
    pose proof (core_inj _ _ (admit_core k v)) as (? & ? & ? & ? & ?);
    destruct (admitDiagnostic k v) as [[|] v'] end; cbn in *;
  match goal with |- context [reportMalformedTime ?r ?m ?b ?v] =>
    pose proof (core_inj _ _ (malformed_core r m b v)) as (? & ? & ? & ? & ?);
    generalize dependent (reportMalformedTime r m b v); intros end; cbn in *.

(** The signature arms: one fault at most, none exactly for a verified record whose time parses. *)
Lemma classify_signed_spec rec verified m w vd v :
  let v' := (classify_signed rec verified m w vd v).2 in
  grows (res v) (res v') /\
  (faults (res v') = faults (res v) <-> verified = Ok true /\ m = false) /\
  (verified = Ok true -> prevRecordInvalid v' = prevRecordInvalid v) /\
  havePrev v' = havePrev v /\ prevHMAC v' = prevHMAC v /\ prevSeq v' = prevSeq v.
Proof.
  unfold classify_signed.
  destruct verified as [[|]|[]]; cbn [snd].
  1: destruct m; [|destruct w]; [says | |].
  4: says.
  5: key_arm v.
  7: key_arm v.
  all: says; cbn; repeat match goal with H : res _ = _ |- _ => rewrite H in *; clear H; cbn end.
  all: (split; [grow|]; split; [unfold faults; cbn|]; [|done || (split_and!; congruence)]).
  all: split; [intros; first [done | lia] | intros [? ?]; first [congruence | lia]].
Qed.

(** A line refused before any signature is looked at counts as invalid. *)
Lemma classify_refused s opts line rec dec forged unsigned v :
  negb (wellFormed dec) || forged || unsigned = true ->
  let v' := (classify s opts line rec dec forged unsigned v).2 in
  grows (res v) (res v') /\ faults (res v') = faults (res v) + 1.
Proof.
  intros Hr. unfold classify.
  destruct (wellFormed dec); cbn [negb orb] in *; [|says]; [destruct forged; [says|destruct unsigned; [says|done]]|];
    cbn; repeat match goal with H : res _ = _ |- _ => rewrite H in *; clear H; cbn end;
    (split; [grow | unfold faults; cbn; lia]).
Qed.

Lemma classify_checked s opts line rec dec v :
  wellFormed dec = true ->
  let verified := match verifyErr dec with Some err => Err err | None => verifyDecodedRecord s line rec end in
  let v' := (classify s opts line rec dec false false v).2 in
  grows (res v) (res v') /\
  (faults (res v') = faults (res v) <-> verified = Ok true /\ is_Some (recordTime rec)) /\
  (verified = Ok true -> prevRecordInvalid v' = prevRecordInvalid v) /\
  havePrev v' = havePrev v /\ prevHMAC v' = prevHMAC v /\ prevSeq v' = prevSeq v.
Proof.
  intros Hw verified. unfold classify. rewrite Hw. cbn [negb]. fold verified.
  set (v1 := match verified with Ok true => _ | _ => v end).
  assert (grows (res v) (res v1) /\ faults (res v1) = faults (res v) /\
          prevRecordInvalid v1 = prevRecordInvalid v /\
          havePrev v1 = havePrev v /\ prevHMAC v1 = prevHMAC v /\ prevSeq v1 = prevSeq v) as (Hg & Hf & Hi & Hh & Hp & Hq).
  { unfold v1. destruct verified as [[|]|]; [case_match| |]; cbn; (split; [grow|done]). }
  match goal with |- context [classify_signed ?a ?b ?c ?d ?e ?g] =>
    pose proof (classify_signed_spec a b c d e g) as (Hg' & Hf' & Hi' & Hh' & Hp' & Hq') end.
  split_and!; [by eapply grows_trans | | | congruence..].
  - rewrite <- Hf, Hf'. rewrite bool_decide_eq_false, <- not_eq_None_Some. done.
  - intros Hv. rewrite Hi' by done. done.
Qed.

Definition forged_seq0 (rec : auditRecord) : bool := (Seq rec =? 0) && isSignedRecord rec.

(** The state [classify] starts from. *)
Definition walked (rec : auditRecord) (dec : recordDecode) (v : auditChainVerifier) : auditChainVerifier :=
  if wellFormed dec && negb (forged_seq0 rec) && isSignedRecord rec
  then updateChain rec (upd_res incr_total v) else upd_res incr_total v.

Lemma processLine_core s opts v line rec dec :
  decodeAuditRecord line = (rec, dec) ->
  core (processLine s opts v line) =
  core (classify s opts line rec dec (forged_seq0 rec) (negb (isSignedRecord rec)) (walked rec dec v)).2.
Proof.
  intros Hd. unfold processLine, walked, forged_seq0. rewrite Hd, !negb_involutive.
  destruct (classify _ _ _ _ _ _ _ _) as [vd v2]. apply collect_core.
Qed.

Lemma walked_grows rec dec v : grows (res v) (res (walked rec dec v)).
Proof.
  eapply (grows_trans _ (incr_total (res v))); [grow|]. unfold walked. case_match; [|apply grows_refl].
  apply (updateChain_grows (upd_res incr_total v)).
Qed.

Lemma processLine_grows s opts v line : grows (res v) (res (processLine s opts v line)).
Proof.
  destruct (decodeAuditRecord line) as [rec dec] eqn:Hd.
  pose proof (core_inj _ _ (processLine_core s opts v line rec dec Hd)) as (-> & _).
  eapply grows_trans; [apply (walked_grows rec dec)|].
  generalize (forged_seq0 rec) as forged, (negb (isSignedRecord rec)) as unsigned, (walked rec dec v) as v1. intros.
  destruct (negb (wellFormed dec) || forged || unsigned) eqn:E; [by apply classify_refused|].
  apply orb_false_elim in E as [[Hw%negb_false_iff ->]%orb_false_elim ->]. by apply classify_checked.
Qed.

Lemma decode_strict line rec dec :
  decodeAuditRecord line = (rec, dec) ->
  strictDecodeAuditRecord line = Ok rec /\ dec = mkDecode true None \/
  (exists e, strictDecodeAuditRecord line = Err e) /\ verifyErr dec <> None.
Proof.
  unfold decodeAuditRecord. destruct (strictDecodeAuditRecord line) as [r|e]; [intros [= <- <-]; by left|].
  intros Hd. right. split; [by exists e|]. repeat case_match; simplify_eq; done.
Qed.

(** A line with no signed strict record adds a fault. *)
Lemma processLine_unsound s opts v line rec dec :
  decodeAuditRecord line = (rec, dec) -> nonneg (res v) ->
  negb (wellFormed dec) || forged_seq0 rec || negb (isSignedRecord rec) = true \/ verifyErr dec <> None ->
  faults (res v) < faults (res (processLine s opts v line)).
Proof.
  intros Hd Hn Hbad. pose proof (core_inj _ _ (processLine_core s opts v line rec dec Hd)) as (-> & _).
  destruct (walked_grows rec dec v Hn) as [Hn1 Hle].
  destruct (negb (wellFormed dec) || forged_seq0 rec || negb (isSignedRecord rec)) eqn:E.
  - pose proof (classify_refused s opts line rec dec _ _ (walked rec dec v) E) as [_ ->]. lia.
  - destruct Hbad as [?|He]; [done|]. apply orb_false_elim in E as [[Hw%negb_false_iff ->]%orb_false_elim ->].
    pose proof (classify_checked s opts line rec dec (walked rec dec v) Hw) as (Hg & Hf & _).
    destruct (verifyErr dec); [|done]. destruct (Hg Hn1) as [_ Hle1].
    destruct (Z.eq_dec (faults (res (classify s opts line rec dec false false (walked rec dec v)).2))
                (faults (res (walked rec dec v)))) as [[Hv _]%Hf|]; [done|lia].
Qed.

(** One line: it adds no fault exactly when it is sound and links onto the line before it, and
    it is then the anchor of the next. *)
Lemma processLine_spec s opts prev v line :
  anchored prev v -> nonneg (res v) -> faults (res v) = 0 ->
  let v' := processLine s opts v line in
  (faults (res v') = 0 ->
     exists rec, sound_line s line = Some rec /\ linked prev rec = true /\ anchored (Some rec) v') /\
  (forall rec, sound_line s line = Some rec -> linked prev rec = true -> faults (res v') = 0).
Proof.
  intros Ha Hn H0. destruct (decodeAuditRecord line) as [rec dec] eqn:Hd.
  pose proof (processLine_unsound s opts v line rec dec Hd Hn) as Hun.
  pose proof (core_inj _ _ (processLine_core s opts v line rec dec Hd)) as (Hr & Hch & Hcp & Hcq & Hci).
  unfold sound_line. pose proof Hd as [[Hs ->]|[[e Hs] He]]%decode_strict; rewrite Hs.
  2: { split; [|done]. pose proof (Hun (or_intror He)). cbn zeta. lia. }
  cbn [wellFormed verifyErr negb orb] in *. unfold walked, forged_seq0 in *. cbn [wellFormed andb] in *.
  destruct (isSignedRecord rec), (Seq rec =? 0); cbn [andb orb negb] in *;
    try (split; [cbn zeta; pose proof (Hun (or_introl eq_refl)); lia | done]).
  destruct (updateChain_spec prev (upd_res incr_total v) rec Ha Hn) as (Ha2 & Hn2 & Hle & Hlink).
  set (v2 := updateChain rec (upd_res incr_total v)) in *.
  change (faults (res (upd_res incr_total v))) with (faults (res v)) in *.
  pose proof (classify_checked s opts line rec (mkDecode true None) v2 eq_refl) as (Hg & Hf & Hi & Hh & Hp & Hq).
  destruct (Hg Hn2) as [_ Hle3]. cbn [verifyErr] in *. cbn zeta. rewrite Hr. split.
  - intros Hz3. assert (verifyDecodedRecord s line rec = Ok true /\ is_Some (recordTime rec)) as [Hv Ht] by (apply Hf; lia).
    exists rec. rewrite bool_decide_true, Hv by done. split; [done|]. split; [apply Hlink; lia|].
    unfold anchored. rewrite Hci, Hch, Hcp, Hcq, (Hi Hv), Hh, Hp, Hq. exact Ha2.
  - intros rec'. case_bool_decide as Ht; [|done]. case_match eqn:Hv; [|done]. case_match; [|done].
    intros [= <-] Hl%Hlink. rewrite (proj2 Hf) by done. lia.
Qed.

(** The whole pass. *)
Lemma pass_spec s opts lines : forall prev v,
  anchored prev v -> nonneg (res v) -> faults (res v) = 0 ->
  faults (res (fold_left (processLine s opts) lines v)) = 0 <->
  exists recs, Forall2 (fun line rec => sound_line s line = Some rec) lines recs /\ chained prev recs = true.
Proof.
  assert (forall ls v, nonneg (res v) -> 0 < faults (res v) ->
            0 < faults (res (fold_left (processLine s opts) ls v))) as Hpos.
  { induction ls as [|l ls IH]; intros v Hn Hf; [done|]. cbn.
    destruct (processLine_grows s opts v l Hn). apply IH; [done|lia]. }
  induction lines as [|l ls IH]; intros prev v Ha Hn H0; cbn [fold_left].
  - split; [intros _; by exists [] | done].
  - destruct (processLine_spec s opts prev v l Ha Hn H0) as [Hsnd Hcmp].
    destruct (processLine_grows s opts v l Hn) as [Hn' Hle].
    destruct (Z.eq_dec (faults (res (processLine s opts v l))) 0) as [Hz|Hnz].
    + destruct (Hsnd Hz) as (rec & Hrec & Hlk & Ha'). rewrite (IH (Some rec) _ Ha' Hn' Hz).
      split.
      * intros (recs & Hall & Hc). exists (rec :: recs). cbn. rewrite Hlk, Hc. by split; [constructor|].
      * intros (recs & Hall & Hc). inversion Hall as [|? rec' ? recs' Hr' Hall']; subst. cbn in Hc.
        apply andb_true_iff in Hc as [_ Hc]. rewrite Hrec in Hr'. injection Hr' as <-. by exists recs'.
    + split.
      * intros Hz. pose proof (Hpos ls _ Hn' ltac:(lia)). lia.
      * intros (recs & Hall & Hc). inversion Hall as [|? rec' ? recs' Hr' Hall']; subst. cbn in Hc.
        apply andb_true_iff in Hc as [Hlk _]. destruct Hnz. by apply (Hcmp rec').
Qed.

Lemma pass_nonneg s opts lines : forall v, nonneg (res v) -> nonneg (res (fold_left (processLine s opts) lines v)).
Proof.
  induction lines as [|l ls IH]; intros v Hn; [done|]. cbn. apply IH. by apply processLine_grows.
Qed.

(** The pass, read as a check of the records. *)
Lemma verify_spec s opts log :
  OK (res (VerifyLog s opts log).1) = true /\ (VerifyLog s opts log).2 = None <->
  (log_lines log).2 = None /\
  exists recs, Forall2 (fun line rec => sound_line s line = Some rec) (log_lines log).1 recs /\
               chained None recs = true.
Proof.
  unfold VerifyLog. destruct (log_lines log) as [lines err]. cbn [fst snd].
  pose proof (core_inj _ _ (suppressed_core (fold_left (processLine s opts) lines newChain))) as (-> & _).
  assert (nonneg (res newChain)) as Hn by (repeat split; cbn; lia).
  rewrite (OK_faults _ (pass_nonneg s opts lines _ Hn)), (pass_spec s opts lines None newChain); try done. tauto.
Qed.

(** A verification pass succeeds (no read error and an OK verdict) exactly when the stream was
    read to its end and each record in it is read strictly, carries a seq above zero, is byte for
    byte the line the writer emits, verifies under a key of the ring, has a time that parses and
    links onto the record before it (to the genesis sentinel when it claims seq 1).  The filters
    and the collector have no part in it. *)
Theorem verify_passes_iff s opts log :
  OK (res (VerifyLog s opts log).1) = true /\ (VerifyLog s opts log).2 = None <->
  (log_lines log).2 = None /\
  exists recs, Forall2 (fun line rec => sound_line s line = Some rec) (log_lines log).1 recs /\
               chained None recs = true.
Proof. apply verify_spec. Qed.

(** ** Diagnostics: exact tallies, bounded output *)

(** The tally a kind's occurrences are counted in. *)
Inductive tally := TInvalid | TBreaks | TUnknown | TUnverifiable | TNone.

Definition tally_of (k : diagnosticKind) : tally :=
  match k with
  | diagMalformed | diagDecoy | diagUnsigned | diagVerifyError | diagMismatch | diagMalformedTime => TInvalid
  | diagChainBreak | diagSeqGap => TBreaks
  | diagUnknownKey => TUnknown
  | diagUnverifiable => TUnverifiable
  | diagUnclassified => TNone
  end.

Definition tally_value (t : tally) (r : VerifyResult) : Z :=
  match t with
  | TInvalid => Invalid r
  | TBreaks => ChainBreaks r
  | TUnknown => UnknownKey r
  | TUnverifiable => Unverifiable r
  | TNone => 0
  end.

Definition tally_eqb (t u : tally) : bool :=
  match t, u with
  | TInvalid, TInvalid | TBreaks, TBreaks | TUnknown, TUnknown | TUnverifiable, TUnverifiable | TNone, TNone => true
  | _, _ => false
  end.

Definition sumZ (l : list Z) : Z := fold_right Z.add 0 l.
Definition seen_total (t : tally) (v : auditChainVerifier) : Z :=
  sumZ (map (fun k => if tally_eqb t (tally_of k) then seen (diags v k) else 0) diagnosticKinds).

(** What a tally has over its occurrences. *)
Definition surplus (t : tally) (v : auditChainVerifier) : Z := tally_value t (res v) - seen_total t v.

(** Lines a kind may have written after [n] occurrences: ten of its own, each with a rider for
    the two kinds that carry one, and the notice. *)
Definition weight (k : diagnosticKind) : Z := match k with diagUnknownKey | diagUnverifiable => 2 | _ => 1 end.
Definition budget (k : diagnosticKind) (n : Z) : Z :=
  weight k * Z.min n maxRecordDiagnostics
  + (if maxRecordDiagnostics <? n then 1 else 0).
Definition spent (v : auditChainVerifier) : Z := sumZ (map (fun k => budget k (seen (diags v k))) diagnosticKinds).
Definition written (v : auditChainVerifier) : Z := Z.of_nat (List.length (Out v)).

Definition within (v : auditChainVerifier) : Prop :=
  (forall k, 0 <= seen (diags v k)) /\ written v <= spent v.

Lemma admit_seen k v k' :
  seen (diags (admitDiagnostic k v).2 k') = seen (diags v k') + (if decide (k' = k) then 1 else 0).
Proof.
  unfold admitDiagnostic. cbn zeta. remember (seen (diags v k) + 1) as n eqn:Hn.
  destruct (n <=? maxRecordDiagnostics), (n =? maxRecordDiagnostics + 1);
    cbn [diags upd_diags fprintf snd]; destruct (decide (k' = k)) as [->|]; cbn [seen]; lia.
Qed.

Lemma sumZ_update (f g : diagnosticKind -> Z) k l :
  NoDup l -> k ∈ l -> (forall k', k' <> k -> g k' = f k') ->
  sumZ (map g l) = sumZ (map f l) - f k + g k.
Proof.
  intros Hnd Hk Hf. induction Hnd as [|x l Hx Hnd IH]; [by apply elem_of_nil in Hk|].
  change (g x + sumZ (map g l) = f x + sumZ (map f l) - f k + g k).
  apply elem_of_cons in Hk as [<-|Hk].
  - assert (map g l = map f l) as ->; [|lia]. apply map_ext_in. intros y Hy%list_elem_of_In. apply Hf. congruence.
  - rewrite (IH Hk), (Hf x); [lia | congruence].
Qed.

Lemma diagnosticKinds_all k : NoDup diagnosticKinds /\ k ∈ diagnosticKinds.
Proof.
  split; [apply (bool_decide_unpack _); by vm_compute|]. destruct k; apply (bool_decide_unpack _); by vm_compute.
Qed.

Lemma spent_admit k v :
  spent (admitDiagnostic k v).2 = spent v - budget k (seen (diags v k)) + budget k (seen (diags v k) + 1).
Proof.
  destruct (diagnosticKinds_all k) as [Hnd Hk]. unfold spent.
  rewrite (sumZ_update (fun k => budget k (seen (diags v k))) _ k _ Hnd Hk).
  - rewrite admit_seen. by destruct (decide (k = k)).
  - intros k' Hne. rewrite admit_seen. destruct (decide (k' = k)); [done|]. by rewrite Z.add_0_r.
Qed.

Lemma admit_written k v :
  written (admitDiagnostic k v).2 =
  written v + (if seen (diags v k) + 1 =? maxRecordDiagnostics + 1 then 1 else 0) /\
  (admitDiagnostic k v).1 = (seen (diags v k) + 1 <=? maxRecordDiagnostics).
Proof.
  unfold admitDiagnostic, written, maxRecordDiagnostics.
  destruct (seen (diags v k) + 1 <=? 10) eqn:E1, (seen (diags v k) + 1 =? 10 + 1) eqn:E2;
    bools; try lia; cbn; rewrite ?length_app; cbn; lia.
Qed.

Lemma weight_range k : weight k = 1 \/ weight k = 2.
Proof. destruct k; cbn; tauto. Qed.

Lemma budget_step k n :
  0 <= n ->
  (if n + 1 =? maxRecordDiagnostics + 1 then 1 else 0) + (if n + 1 <=? maxRecordDiagnostics then weight k else 0)
  <= budget k (n + 1) - budget k n.
Proof.
  intros Hn. unfold budget, maxRecordDiagnostics.
  destruct (weight_range k) as [-> | ->];
    destruct (Z.eqb_spec (n + 1) (10 + 1)), (Z.leb_spec (n + 1) 10), (Z.ltb_spec 10 n), (Z.ltb_spec 10 (n + 1)); lia.
Qed.

(** An admission leaves room for the line it admits, and for its rider. *)
Lemma admit_within k v :
  within v ->
  let '(printed, v') := admitDiagnostic k v in
  (forall k', 0 <= seen (diags v' k')) /\
  written v' + (if printed : bool then weight k else 0) <= spent v'.
Proof.
  intros [Hs Hw]. pose proof (admit_written k v) as [Hw' Hp]. pose proof (spent_admit k v) as Hsp.
  pose proof (admit_seen k v) as Hse. destruct (admitDiagnostic k v) as [printed v']. cbn [fst snd] in *. subst printed. split.
  - intros k'. rewrite Hse. pose proof (Hs k'). case_decide; lia.
  - rewrite Hw', Hsp. pose proof (budget_step k (seen (diags v k)) (Hs k)). lia.
Qed.

Lemma fprintf_written l v : written (fprintf l v) = written v + 1.
Proof. unfold written. cbn [Out fprintf]. rewrite length_app. cbn [List.length]. lia. Qed.

Lemma say_within k l v : within v -> within (say k l v).
Proof.
  intros Hw. unfold say. pose proof (admit_within k v Hw) as Ha. destruct (admitDiagnostic k v) as [[|] v'].
  - destruct Ha as [Hs Ha]. split; [done|]. rewrite fprintf_written. change (spent (fprintf l v')) with (spent v').
    destruct (weight_range k) as [Hk | Hk]; rewrite Hk in Ha; lia.
  - destruct Ha. split; [done|lia].
Qed.

Lemma admit_surplus t k v :
  surplus t (admitDiagnostic k v).2 =
  surplus t v - (if tally_eqb t (tally_of k) then 1 else 0).
Proof.
  unfold surplus. pose proof (core_inj _ _ (admit_core k v)) as (-> & _).
  unfold seen_total. cbn [diagnosticKinds map sumZ fold_right tally_of]. rewrite !admit_seen.
  destruct t, k; cbn; repeat case_decide; try congruence; lia.
Qed.

Lemma say_surplus t k l v :
  surplus t (say k l v) =
  surplus t v - (if tally_eqb t (tally_of k) then 1 else 0).
Proof. rewrite <- admit_surplus. unfold say. destruct (admitDiagnostic k v) as [[|] v']; done. Qed.

(** Every tally is exactly the occurrences of its kinds, and the output is within its budget. *)
Definition accounted (v : auditChainVerifier) : Prop := within v /\ forall t, surplus t v = 0.

Lemma accounted_break k l v :
  tally_of k = TBreaks -> accounted v -> accounted (say k l (upd_res incr_breaks v)).
Proof.
  intros Hk [Hw Hs]. split; [by apply say_within|]. intros t. rewrite say_surplus, Hk.
  specialize (Hs t). unfold surplus, tally_value, seen_total in *. destruct t; cbn [res upd_res incr_breaks diags Invalid ChainBreaks UnknownKey Unverifiable tally_eqb] in *; lia.
Qed.

Lemma accounted_invalid k l v :
  tally_of k = TInvalid -> accounted v ->
  accounted (say k l (upd_res incr_invalid v)) /\ accounted (upd_res incr_invalid (say k l v)).
Proof.
  intros Hk [Hw Hs].
  assert (forall t, surplus t (upd_res incr_invalid (say k l v)) = 0) as Hs'.
  { intros t. specialize (Hs t). pose proof (say_surplus t k l v) as Hsay. rewrite Hk in Hsay.
    unfold surplus, tally_value, seen_total in *. destruct t; cbn [res upd_res incr_invalid diags Invalid ChainBreaks UnknownKey Unverifiable tally_eqb] in *; lia. }
  split; (split; [by apply say_within|]); [|done]. intros t. rewrite <- (Hs' t).
  pose proof (say_surplus t k l v) as H1. pose proof (say_surplus t k l (upd_res incr_invalid v)) as H2.
  rewrite H2. unfold surplus, tally_value, seen_total in *. destruct t; cbn [res upd_res incr_invalid diags Invalid ChainBreaks UnknownKey Unverifiable tally_eqb] in *; lia.
Qed.

Lemma accounted_updateChain rec v : accounted v -> accounted (updateChain rec v).
Proof.
  intros Ha. unfold updateChain. case_match.
  - unfold checkGenesisAnchor. case_match; [exact Ha|]. change (accounted (upd_res (set_first (Seq rec)) v)) in Ha.
    exact (accounted_break diagChainBreak _ _ eq_refl Ha).
  - assert (accounted (checkAnchorLink rec v)) as Hl.
    { unfold checkAnchorLink.
      assert (accounted (if prevRecordInvalid v
                then upd_flag false (say diagChainBreak (LAnchorUntrusted (Seq rec)) (upd_res incr_breaks v)) else v)) as Hf.
      { case_match; [exact (accounted_break diagChainBreak _ _ eq_refl Ha) | done]. }
      revert Hf. generalize (if prevRecordInvalid v
                then upd_flag false (say diagChainBreak (LAnchorUntrusted (Seq rec)) (upd_res incr_breaks v)) else v).
      intros w Hw. destruct (negb (String.eqb (PrevHMAC rec) (prevHMAC w))); [by apply accounted_break | done]. }
    unfold checkSeqContiguity. case_match; [exact Hl | exact (accounted_break diagSeqGap _ _ eq_refl Hl)].
Qed.

(** The two arms that carry a rider. *)
Lemma accounted_rider k l rec m v (f : VerifyResult -> VerifyResult) :
  weight k = 2 -> (forall t, tally_value t (f (res v)) = tally_value t (res v) + (if tally_eqb t (tally_of k) then 1 else 0)) ->
  accounted v ->
  let '(printed, v') := admitDiagnostic k v in
  accounted (reportMalformedTime rec m printed (upd_res f (if printed : bool then fprintf l v' else v'))).
Proof.
  intros Hk Hf [Hw Hs]. pose proof (admit_within k v Hw) as Ha. pose proof (admit_core k v) as Hc%core_inj.
  pose proof (fun t => admit_surplus t k v) as Hsp. destruct (admitDiagnostic k v) as [printed v'].
  cbn [snd] in *. destruct Hc as (Hr & _). destruct Ha as [Hse Ha].
  assert (forall v2, diags v2 = diags v' -> res v2 = f (res v') -> forall t, surplus t v2 = 0) as Hsur.
  { intros v2 Hd Hr2 t. specialize (Hs t). specialize (Hsp t). specialize (Hf t). unfold surplus, seen_total in *.
    rewrite Hr2, Hd. rewrite Hr in *. lia. }
  rewrite Hk in Ha. unfold reportMalformedTime. split; [|apply Hsur; by destruct printed, m].
  split; [by destruct printed, m|].
  assert (forall v2, diags v2 = diags v' -> spent v2 = spent v') as Hspent by (intros v2 Hd; unfold spent; by rewrite Hd).
  destruct printed, m; cbn [negb orb]; rewrite ?fprintf_written, Hspent by done; try (unfold written in *; cbn [upd_res Out]; lia).
  all: unfold written in *; cbn [upd_res Out fprintf]; rewrite ?length_app; cbn [List.length]; lia.
Qed.

Lemma accounted_classify s opts line rec dec forged unsigned v :
  accounted v -> accounted (classify s opts line rec dec forged unsigned v).2.
Proof.
  intros Ha. unfold classify.
  destruct (negb (wellFormed dec)); [apply accounted_invalid; done|].
  destruct forged; [apply accounted_invalid; done|]. destruct unsigned; [apply accounted_invalid; done|].
  set (verified := match verifyErr dec with Some err => _ | None => _ end).
  assert (accounted (match verified with
     | Ok true => if (FirstVerifiedSeq (res v) =? 0) || (Seq rec <? FirstVerifiedSeq (res v))
                  then upd_res (set_verified (Seq rec)) v else v
     | _ => v end)) as Hv.
  { destruct verified as [[|]|]; [case_match| |]; exact Ha. }
  revert Hv. generalize (match verified with
     | Ok true => if (FirstVerifiedSeq (res v) =? 0) || (Seq rec <? FirstVerifiedSeq (res v))
                  then upd_res (set_verified (Seq rec)) v else v
     | _ => v end). clear v Ha. intros v Ha. cbn zeta. unfold classify_signed.
  generalize (bool_decide (recordTime rec = None)) as m. intros m.
  destruct verified as [[|]|[]]; cbn [snd].
  - destruct m; [by apply (accounted_invalid diagMalformedTime)|]. case_match; exact Ha.
  - apply (accounted_invalid diagMismatch); done.
  - pose proof (accounted_rider diagUnknownKey (LUnknownKey (Seq rec) (SanitizeControlRunes (KeyID rec))) rec m v incr_unknown) as Hr.
    destruct (admitDiagnostic _ v) as [[|] v']; apply Hr; try done; intros []; cbn; lia.
  - pose proof (accounted_rider diagUnverifiable (LUnverifiable (Seq rec)) rec m v incr_unverifiable) as Hr.
    destruct (admitDiagnostic _ v) as [[|] v']; apply Hr; try done; intros []; cbn; lia.
  - apply (accounted_invalid diagVerifyError); done.
  - apply (accounted_invalid diagVerifyError); done.
  - apply (accounted_invalid diagVerifyError); done.
  - apply (accounted_invalid diagVerifyError); done.
  - apply (accounted_invalid diagVerifyError); done.
Qed.

Lemma accounted_pass s opts lines : forall v, accounted v -> accounted (fold_left (processLine s opts) lines v).
Proof.
  induction lines as [|line lines IH]; intros v Ha; [done|]. cbn. apply IH. unfold processLine.
  destruct (decodeAuditRecord line) as [rec dec]. set (b := wellFormed dec && _ && _).
  assert (accounted (if b then updateChain rec (upd_res incr_total v) else upd_res incr_total v)) as Hu.
  { destruct b; [apply accounted_updateChain|]; exact Ha. }
  match goal with |- context [classify ?s ?o ?l ?r ?d ?f ?u ?w] =>
    pose proof (accounted_classify s o l r d f u w Hu) as Hc; destruct (classify s o l r d f u w) as [vd v2] end.
  unfold collect. destruct (negb (Collect opts) || _ || _); exact Hc.
Qed.

(** The most a pass can write before its summaries. *)
Lemma spent_bound v : accounted v -> spent v <= 130.
Proof.
  intros [[Hs _] Hsur]. pose proof (Hsur TNone) as H0.
  assert (seen (diags v diagUnclassified) = 0) as Hu.
  { unfold surplus, seen_total in H0. cbn -[Z.sub Z.add] in H0. lia. }
  assert (forall k, budget k (seen (diags v k)) <= weight k * 10 + 1) as Hb.
  { intros k. pose proof (Hs k). unfold budget, maxRecordDiagnostics.
    destruct (weight_range k) as [-> | ->]; destruct (10 <? _); lia. }
  unfold spent. cbn [diagnosticKinds map sumZ fold_right]. rewrite Hu.
  pose proof (Hb diagMalformed). pose proof (Hb diagDecoy). pose proof (Hb diagUnsigned).
  pose proof (Hb diagUnknownKey). pose proof (Hb diagUnverifiable). pose proof (Hb diagVerifyError).
  pose proof (Hb diagMismatch). pose proof (Hb diagMalformedTime). pose proof (Hb diagChainBreak).
  pose proof (Hb diagSeqGap). change (budget diagUnclassified 0) with 0. cbn [weight] in *. lia.
Qed.

(** The summaries: one per kind that was cut, after everything else. *)
Definition summaries (v : auditChainVerifier) (kinds : list diagnosticKind) : list outLine :=
  map (fun k => let c := diags v k in LSummary k (seen c) (seen c - maxRecordDiagnostics) (first c) (last c))
    (List.filter (fun k => maxRecordDiagnostics <? seen (diags v k)) kinds).

Lemma report_summaries v :
  diags (reportSuppressedDiagnostics v) = diags v /\
  Out (reportSuppressedDiagnostics v) = (Out v ++ summaries v diagnosticKinds)%list.
Proof.
  unfold reportSuppressedDiagnostics. generalize diagnosticKinds as l. intros l. revert v.
  induction l as [|k l IH]; intros v; cbn [fold_left]; [by rewrite app_nil_r|].
  unfold summaries. cbn [List.filter]. 
  replace (maxRecordDiagnostics <? seen (diags v k)) with (negb (seen (diags v k) <=? maxRecordDiagnostics))
    by (by rewrite Z.ltb_antisym).
  destruct (IH (if seen (diags v k) <=? maxRecordDiagnostics then v
     else fprintf (LSummary k (seen (diags v k)) (seen (diags v k) - maxRecordDiagnostics)
                     (first (diags v k)) (last (diags v k))) v)) as [Hd Ho].
  destruct (seen (diags v k) <=? maxRecordDiagnostics); cbn [negb map]; [done|].
  split; [exact Hd|]. rewrite Ho. cbn. by rewrite <- app_assoc.
Qed.

(** The tallies of a pass are exact whatever is printed, and what is printed is bounded: each
    failure tally is the number of occurrences of its kinds of finding, at most 140 lines are
    written however long the log, and every kind whose lines were cut at ten has a summary line
    with its total, the number cut and the positions of its first and last occurrence. *)
Theorem verify_output_accounted s opts log :
  let v := (VerifyLog s opts log).1 in
  (forall t, t <> TNone -> tally_value t (res v) = seen_total t v) /\
  Z.of_nat (List.length (Out v)) <= 140 /\
  (forall k, maxRecordDiagnostics < seen (diags v k) ->
     LSummary k (seen (diags v k)) (seen (diags v k) - maxRecordDiagnostics) (first (diags v k)) (last (diags v k))
       ∈ Out v).
Proof.
  cbn zeta. unfold VerifyLog. destruct (log_lines log) as [lines err]. cbn [fst].
  assert (accounted newChain) as H0.
  { split; [split; [done|by vm_compute] | intros []; by vm_compute]. }
  pose proof (accounted_pass s opts lines newChain H0) as Ha.
  generalize dependent (fold_left (processLine s opts) lines newChain). intros v Ha.
  destruct (report_summaries v) as [Hd Ho]. pose proof (core_inj _ _ (suppressed_core v)) as (Hr & _).
  pose proof (spent_bound v Ha) as Hb. destruct Ha as [[Hse Hw] Hs]. split_and!.
  - intros t _. specialize (Hs t). unfold surplus, seen_total in *. rewrite Hr, Hd. lia.
  - rewrite Ho, length_app. unfold written in Hw.
    enough (List.length (summaries v diagnosticKinds) <= 10)%nat by lia.
    unfold summaries. rewrite length_map. unfold diagnosticKinds. cbn [List.filter].
    assert (seen (diags v diagUnclassified) = 0) as ->.
    { specialize (Hs TNone). unfold surplus, seen_total in Hs. cbn -[Z.sub Z.add] in Hs. lia. }
    cbn [Z.ltb Z.compare maxRecordDiagnostics].
    etrans; [exact (List.filter_length_le (fun k => maxRecordDiagnostics <? seen (diags v k)) [diagMalformed; diagDecoy; diagUnsigned; diagUnknownKey; diagUnverifiable;
       diagVerifyError; diagMismatch; diagMalformedTime; diagChainBreak; diagSeqGap])|]. cbn. lia.
  - intros k Hk. rewrite Hd in *. rewrite Ho. apply elem_of_app. right. unfold summaries.
    apply list_elem_of_In, in_map_iff. exists k. split; [done|]. apply List.filter_In.
    split; [apply list_elem_of_In, diagnosticKinds_all | by apply Z.ltb_lt].
Qed.

End verify.
End AuditVerify.
