(* ===== verification/AuditWriter.v ===== *)
(** * The audit log writer

    internal/audit/audit.go (writeRecord, repairTailOrphan, the markers and the end of Open),
    rotate.go (rotation, its reopen fallback, retention) and resume.go (recovery of a torn
    tail, the resumed chain and the seeded sequence number).

    The disk is the closed files of the chain, oldest first, and the file the descriptor
    appends to.  Every system call that can fail takes its outcome from the environment. *)
From stdpp Require Import base tactics list gmap strings.
From Stdlib Require Import ZArith Lia Ascii String.
From S2P Require Import Prelude GoStrings Truncate AuditVerify.
#[local] Open Scope string_scope.
#[local] Open Scope Z_scope.
#[local] Open Scope go_scope.
#[local] Arguments String.append : simpl nomatch.
Import Truncate.

(** What [json.Unmarshal] makes of a line, for the readers that do not use a decoder. *)
Class AuditUnmarshal := { Unmarshal : string -> option auditRecord }.

(** What the clock, the request-id generator and the details encoder give a marker. *)
Record marker_env := mkMarkerEnv { mTime : string; mRequestID : string; mDetails : string }.

Module AuditWriter.
Import AuditVerify.
Section writer.
Context `{AuditCodec} `{AuditUnmarshal}.

(** ** State *)

Record Sink := mkSink {
  skey : string;
  skeyID : string;
  sVerifyKeys : gmap string string;
  maxBytes : Z;
  retain : Z;
  pep : string;
  written : Z;
  inFallback : bool;
  tailOrphanBytes : Z;
  writeFailures : Z;
  writeErrWarned : bool;
  rotationStalled : bool;
  retentionStalled : bool;
  seq : Z;
  sPrevHMAC : string;
  closedFiles : list string;
  activeFile : string;
}.

Definition set_written (w : Z) (s : Sink) : Sink :=
  mkSink (skey s) (skeyID s) (sVerifyKeys s) (maxBytes s) (retain s) (pep s) w (inFallback s) (tailOrphanBytes s)
    (writeFailures s) (writeErrWarned s) (rotationStalled s) (retentionStalled s) (seq s) (sPrevHMAC s)
    (closedFiles s) (activeFile s).
Definition set_fallback (b : bool) (s : Sink) : Sink :=
  mkSink (skey s) (skeyID s) (sVerifyKeys s) (maxBytes s) (retain s) (pep s) (written s) b (tailOrphanBytes s)
    (writeFailures s) (writeErrWarned s) (rotationStalled s) (retentionStalled s) (seq s) (sPrevHMAC s)
    (closedFiles s) (activeFile s).
Definition set_orphan (n : Z) (s : Sink) : Sink :=
  mkSink (skey s) (skeyID s) (sVerifyKeys s) (maxBytes s) (retain s) (pep s) (written s) (inFallback s) n
    (writeFailures s) (writeErrWarned s) (rotationStalled s) (retentionStalled s) (seq s) (sPrevHMAC s)
    (closedFiles s) (activeFile s).
Definition add_failure (s : Sink) : Sink :=
  mkSink (skey s) (skeyID s) (sVerifyKeys s) (maxBytes s) (retain s) (pep s) (written s) (inFallback s) (tailOrphanBytes s)
    (writeFailures s + 1) (writeErrWarned s) (rotationStalled s) (retentionStalled s) (seq s) (sPrevHMAC s)
    (closedFiles s) (activeFile s).
Definition set_warned (s : Sink) : Sink :=
  mkSink (skey s) (skeyID s) (sVerifyKeys s) (maxBytes s) (retain s) (pep s) (written s) (inFallback s) (tailOrphanBytes s)
    (writeFailures s) true (rotationStalled s) (retentionStalled s) (seq s) (sPrevHMAC s)
    (closedFiles s) (activeFile s).
Definition set_head (n : Z) (h : string) (s : Sink) : Sink :=
  mkSink (skey s) (skeyID s) (sVerifyKeys s) (maxBytes s) (retain s) (pep s) (written s) (inFallback s) (tailOrphanBytes s)
    (writeFailures s) (writeErrWarned s) (rotationStalled s) (retentionStalled s) n h
    (closedFiles s) (activeFile s).
Definition set_disk (closed : list string) (active : string) (s : Sink) : Sink :=
  mkSink (skey s) (skeyID s) (sVerifyKeys s) (maxBytes s) (retain s) (pep s) (written s) (inFallback s) (tailOrphanBytes s)
    (writeFailures s) (writeErrWarned s) (rotationStalled s) (retentionStalled s) (seq s) (sPrevHMAC s)
    closed active.
Definition setRotationStalled (b : bool) (s : Sink) : Sink :=
  mkSink (skey s) (skeyID s) (sVerifyKeys s) (maxBytes s) (retain s) (pep s) (written s) (inFallback s) (tailOrphanBytes s)
    (writeFailures s) (writeErrWarned s) b (retentionStalled s) (seq s) (sPrevHMAC s)
    (closedFiles s) (activeFile s).
Definition setRetentionStalled (b : bool) (s : Sink) : Sink :=
  mkSink (skey s) (skeyID s) (sVerifyKeys s) (maxBytes s) (retain s) (pep s) (written s) (inFallback s) (tailOrphanBytes s)
    (writeFailures s) (writeErrWarned s) (rotationStalled s) b (seq s) (sPrevHMAC s)
    (closedFiles s) (activeFile s).

(** ** Outcomes of the system calls *)

Inductive remove_outcome := Removed | RemoveFailed.

Record prune_io := mkPruneIO { listFails : bool; removes : list remove_outcome }.

Record repair_io := mkRepairIO { statFails : bool; truncateFails : bool }.

Record rotate_io := mkRotateIO {
  pathFails : bool;
  renameFails : bool;
  syncFails : bool;
  reopenFails : bool;
  closeFails : bool;
  rotatePrune : prune_io;
}.

(** [writeBytes] of the line land; a short write reports an error, a full one may. *)
Record write_io := mkWriteIO {
  firstRepair : repair_io;
  rotation : rotate_io;
  writeBytes : nat;
  writeFails : bool;
  secondRepair : repair_io;
}.

(** ** Rotation and retention (rotate.go) *)

Definition rotateBackoffWritten (s : Sink) : Z :=
  if maxBytes s <=? 0 then 0
  else
    let headroom := maxBytes s / 10 in
    let headroom := if headroom <? 1 then 1 else headroom in
    maxBytes s - headroom.

(** Removal of the oldest [n] files, which stops at the first failure. *)
Fixpoint removeOldest (n : nat) (outcomes : list remove_outcome) (closed : list string) : list string * bool :=
  match n, closed with
  | O, _ | _, [] => (closed, false)
  | S n', _ :: rest =>
      match outcomes with
      | RemoveFailed :: _ => (closed, true)
      | Removed :: outcomes' => removeOldest n' outcomes' rest
      | [] => removeOldest n' [] rest
      end
  end.

(** The files left and whether retention is stalled. *)
Definition prunePass (io : prune_io) (s : Sink) : list string * bool :=
  if retain s <=? 0 then (closedFiles s, false)
  else if listFails io then (closedFiles s, true)
  else
    let over := Z.of_nat (List.length (closedFiles s)) - retain s in
    if over <=? 0 then (closedFiles s, false)
    else removeOldest (Z.to_nat over) (removes io) (closedFiles s).

Definition pruneRotated (io : prune_io) (s : Sink) : Sink :=
  let '(closed, stalled) := prunePass io s in
  setRetentionStalled stalled (set_disk closed (activeFile s) s).

Definition swapToFreshBase (io : rotate_io) (s : Sink) : Sink :=
  let s := if closeFails io then add_failure s else s in
  let s := set_disk (closedFiles s ++ [activeFile s])%list "" s in
  pruneRotated (rotatePrune io) (set_written 0 s).

Definition retryRotateReopen (io : rotate_io) (s : Sink) : bool * Sink :=
  if syncFails io then (true, set_written (rotateBackoffWritten s) (add_failure s))
  else if reopenFails io then (true, set_written (rotateBackoffWritten s) s)
  else (false, swapToFreshBase io (set_fallback false s)).

Definition enterFallback (io : rotate_io) (s : Sink) : Sink :=
  let s := set_fallback true s in
  pruneRotated (rotatePrune io) (set_written (rotateBackoffWritten s) s).

Definition rotateAttempt (io : rotate_io) (s : Sink) : bool * Sink :=
  if inFallback s then retryRotateReopen io s
  else if written s =? 0 then (false, s)
  else if pathFails io then (true, set_written (rotateBackoffWritten s) s)
  else if renameFails io then (true, set_written (rotateBackoffWritten s) s)
  else if syncFails io then (true, enterFallback io (add_failure s))
  else if reopenFails io then (true, enterFallback io s)
  else (false, swapToFreshBase io s).

Definition rotate (io : rotate_io) (s : Sink) : Sink :=
  let '(stalled, s) := rotateAttempt io s in setRotationStalled stalled s.

(** ** Writing one record (audit.go) *)

Definition repairTailOrphan (io : repair_io) (s : Sink) : bool * Sink :=
  let size := len (activeFile s) in
  if statFails io || (size - tailOrphanBytes s <? 0) then (false, s)
  else if truncateFails io then (false, s)
  else
    let s' := set_disk (closedFiles s) (take_str (Z.to_nat (size - tailOrphanBytes s)) (activeFile s)) s in
    (true, set_orphan 0 (set_written (written s - tailOrphanBytes s) s')).

(** The record with its chain fields, its signature and its line. *)
Definition sign (s : Sink) (rec : auditRecord) : option (auditRecord * string) :=
  let prev := if String.eqb (sPrevHMAC s) "" then auditGenesisPrev else sPrevHMAC s in
  let rec := stamped rec (seq s + 1) prev "" in
  match Marshal rec with
  | None => None
  | Some body =>
      let mac := recordMAC (skey s) body in
      match signedRecordLine body mac with
      | None => None
      | Some line => Some (with_hmac rec mac, line ++ String newline "")
      end
  end.

Definition warnedFailure (s : Sink) : Sink :=
  let s := add_failure s in if writeErrWarned s then s else set_warned s.

(** The append, after the repair and the rotation. *)
Definition appendLine (io : write_io) (rec : auditRecord) (line : string) (s : Sink) : Sink :=
  let n := Nat.min (writeBytes io) (String.length line) in
  let failed := writeFails io || (n <? String.length line)%nat in
  let s := set_disk (closedFiles s) (activeFile s ++ take_str n line) s in
  let s := set_written (written s + Z.of_nat n) s in
  if failed then
    let s :=
      if (0 <? n)%nat then snd (repairTailOrphan (secondRepair io) (set_orphan (Z.of_nat n) s)) else s in
    warnedFailure s
  else set_head (Seq rec) (HMAC rec) s.

Definition writeRecord (io : write_io) (rec : auditRecord) (s : Sink) : Sink :=
  if seq s =? two64 - 1 then warnedFailure s
  else
    match sign s rec with
    | None => add_failure s
    | Some (rec, line) =>
        let '(clean, s) :=
          if 0 <? tailOrphanBytes s then repairTailOrphan (firstRepair io) s else (true, s) in
        if negb clean then warnedFailure s
        else
          let s := if maxBytes s <? written s + len line then rotate (rotation io) s else s in
          appendLine io rec line s
    end.

(** ** The tail of a file (resume.go) *)

(** [bytes.LastIndexByte(buf, '\n')]. *)
Fixpoint lastNewline (buf : string) : option nat :=
  match buf with
  | EmptyString => None
  | String c rest =>
      match lastNewline rest with
      | Some i => Some (S i)
      | None => if Ascii.eqb c newline then Some O else None
      end
  end.

(** [bytes.TrimRightFunc(buf, unicode.IsSpace)]. *)
Definition TrimRightSpace (s : string) : string :=
  str_rev (trim_left (String.length s) (map str_rev space_encodings) (str_rev s)).

Definition lastCompleteLineFromTail (buf : string) : string * bool :=
  let buf :=
    match lastNewline buf with
    | Some i => if String.eqb (TrimSpace (drop_str (S i) buf)) "" then buf else take_str (S i) buf
    | None => buf
    end in
  let trimmed := TrimRightSpace buf in
  match lastNewline trimmed with
  | Some i => (TrimSpace (drop_str (S i) trimmed), true)
  | None => (TrimSpace trimmed, false)
  end.

Inductive tail_error := errAuditTailTruncate | errAuditTailProbe | errAuditTailUnbounded.

Definition refuseWhitespaceOnlyWindow (line : string) (start : Z) : bool :=
  String.eqb line "" && negb (start =? 0).

Definition tailWindowStart (size win : Z) : Z := Z.max 0 (size - win).

(** The last record of [content], given its window from [start]. *)
Definition tailLineFromWindow (win : Z) (content window : string) (start : Z) : result string tail_error :=
  let '(line, bounded) := lastCompleteLineFromTail window in
  if refuseWhitespaceOnlyWindow line start then Err errAuditTailUnbounded
  else if bounded || (start =? 0) then Ok line
  else
    let reStart := tailWindowStart (len content) win in
    if start <=? reStart then Ok line
    else
      let line := fst (lastCompleteLineFromTail (drop_str (Z.to_nat reStart) content)) in
      if refuseWhitespaceOnlyWindow line reStart then Err errAuditTailUnbounded else Ok line.

(** The file as it is left, and the bytes removed with the last record or an error. *)
Definition truncatePartialTail (win : Z) (io : repair_io) (content : string)
    : string * result (Z * string) tail_error :=
  if statFails io then (content, Err errAuditTailProbe)
  else if String.eqb content "" then (content, Ok (0, ""))
  else
    let size := len content in
    let start := tailWindowStart size win in
    let buf := drop_str (Z.to_nat start) content in
    if String.eqb buf "" || has_suffix buf (String newline "") then
      (content, let* line := tailLineFromWindow win content buf start in Ok (0, line))
    else
      match lastNewline buf with
      | None =>
          if 0 <? start then (content, Err errAuditTailUnbounded)
          else if truncateFails io then (content, Err errAuditTailTruncate)
          else ("", Ok (size, ""))
      | Some i =>
          let newSize := start + Z.of_nat i + 1 in
          if truncateFails io then (content, Err errAuditTailTruncate)
          else
            let content := take_str (Z.to_nat newSize) content in
            (content,
             let* line := tailLineFromWindow win content (take_str (S i) buf) start in Ok (size - newSize, line))
      end.

(** The last record of a rotated file; an error is a file that cannot be read. *)
Definition readLastAuditLine (readFails : bool) (content : string) : result string tail_error :=
  if readFails then Err errAuditTailProbe
  else if String.eqb content "" then Ok ""
  else
    let start := tailWindowStart (len content) auditScanBufferBytes in
    let '(line, bounded) := lastCompleteLineFromTail (drop_str (Z.to_nat start) content) in
    if negb bounded && negb (String.eqb line "") && negb (start =? 0) then Err errAuditTailUnbounded
    else if refuseWhitespaceOnlyWindow line start then Err errAuditTailUnbounded
    else Ok line.

(** Newest first: the newest tail, or that a newer file could not be read. *)
Fixpoint newestTail (fails : list bool) (newestFirst : list string) : option string * bool :=
  match newestFirst with
  | [] => (None, false)
  | f :: older =>
      match readLastAuditLine (hd false fails) f with
      | Err _ => (None, true)
      | Ok l => if negb (String.eqb l "") then (Some l, false) else newestTail (tl fails) older
      end
  end.

Definition newestRotatedSiblingWithTail (listFails : bool) (fails : list bool) (closed : list string)
    : option string * bool :=
  if listFails then (None, true) else newestTail fails (rev closed).

(** ** The seeded sequence number *)

Definition satAddU64 (a b : Z) : Z := if two64 - 1 - b <? a then two64 - 1 else a + b.

Definition rescanBufferBytes : Z := 67108864.
Definition maxSeedableSeq : Z := 4611686018427387904.

(** A whole scan with [bufio.ScanLines]: its lines and whether it stopped at an over-long one. *)
Fixpoint scanLines (cap : Z) (segs : list string) : list string * bool :=
  match segs with
  | [] => ([], false)
  | seg :: rest =>
      if cap <=? len seg then ([], true)
      else
        match rest with
        | [] => ((if String.eqb seg "" then [] else [dropCR seg]), false)
        | _ => let '(tokens, aborted) := scanLines cap rest in (dropCR seg :: tokens, aborted)
        end
  end.

Definition foldSeq (acc : Z * bool) (line : string) : Z * bool :=
  let line := TrimSpace line in
  if String.eqb line "" then acc
  else
    match Unmarshal line with
    | None => acc
    | Some rec => ((if fst acc <? Seq rec then Seq rec else fst acc), true)
    end.

Definition scanSeqContribution (openFails : bool) (cap : Z) (content : string) : Z * bool * Z :=
  if openFails then (0, false, len content)
  else
    let '(tokens, aborted) := scanLines cap (split_char newline content) in
    let '(parsedMax, parsed) := fold_left foldSeq tokens (0, false) in
    if negb aborted then (parsedMax, parsed, 0) else (parsedMax, parsed, len content).

Definition foldFile (cap : Z) (acc : Z * bool * Z * bool) (file : bool * string) : Z * bool * Z * bool :=
  let '(maxParsed, parsedAny, unread, sawUnread) := acc in
  let '(p, parsed, ub) := scanSeqContribution (fst file) cap (snd file) in
  let maxParsed := if parsed && (maxParsed <? p) then p else maxParsed in
  let unread' := if 0 <? ub then satAddU64 unread ub else unread in
  (maxParsed, parsedAny || parsed, unread', sawUnread || (0 <? ub)).

(** The base, then the siblings unless the directory cannot be listed. *)
Definition highestSeqAcrossChainCapped (cap : Z) (listFails : bool) (base : bool * string)
    (siblings : list (bool * string)) : Z * bool * bool :=
  let files := base :: (if listFails then [] else siblings) in
  let '(maxParsed, parsedAny, unread, sawUnread) := fold_left (foldFile cap) files (0, false, 0, false) in
  (satAddU64 maxParsed unread, parsedAny || sawUnread, negb listFails).

(** ** Startup *)

Record open_io := mkOpenIO {
  tailIO : repair_io;
  readable : bool;
  dirFails : bool;
  siblingFails : list bool;
  markerIO : list write_io;
  markerEnv : list marker_env;
  startSyncFails : bool;
  startPrune : prune_io;
}.

Definition seedSeqPastOnDiskMax (io : open_io) (s : Sink) : bool * Sink :=
  let siblings := imap (fun i f => (nth i (siblingFails io) false, f)) (closedFiles s) in
  let '(highest, ok, complete) :=
    highestSeqAcrossChainCapped rescanBufferBytes (dirFails io) (negb (readable io), activeFile s) siblings in
  let highest := if ok && (maxSeedableSeq <? highest) then maxSeedableSeq else highest in
  (complete, if ok && (seq s <? highest) then set_head highest (sPrevHMAC s) s else s).

Inductive tailFailure :=
| tailFailNone | tailFailHMACMismatch | tailFailKeyUnknown | tailFailUnsigned | tailFailUndecodable
| tailFailNonCanonical.

Record tailResumeResult := mkTailResume {
  tailFailKind : tailFailure;
  tailParseFailure : bool;
  tailParseBytes : Z;
  tailSeq : Z;
  tailHMAC : string;
}.

Definition cleanResume : tailResumeResult := mkTailResume tailFailNone false 0 0 "".

(** The verifier a writer is: its ring. *)
Definition as_verifier (s : Sink) : verifier := mkVerifier (Some (sVerifyKeys s)) (Some (skey s)) (skeyID s).

Definition resumeChainFromTail (last : string) (s : Sink) : tailResumeResult * Sink :=
  if String.eqb last "" then (cleanResume, s)
  else
    match Unmarshal last with
    | None => (mkTailResume tailFailNone true (len last) 0 "", s)
    | Some prev =>
        if String.eqb (HMAC prev) "" then (mkTailResume tailFailUnsigned false 0 (Seq prev) "", s)
        else
          match VerifyRecord (Some (as_verifier s)) last with
          | Ok true => (cleanResume, set_head (Seq prev) (HMAC prev) s)
          | Err errKeyIDNotInRing => (mkTailResume tailFailKeyUnknown false 0 (Seq prev) (HMAC prev), s)
          | Err errNonCanonicalRecord => (mkTailResume tailFailNonCanonical false 0 (Seq prev) (HMAC prev), s)
          | Err (errStrictDecodeRefused _) | Err errTrailingRecordData =>
              (mkTailResume tailFailUndecodable false 0 (Seq prev) (HMAC prev), s)
          | _ => (mkTailResume tailFailHMACMismatch false 0 (Seq prev) (HMAC prev), s)
          end
    end.

Record startupResume := mkStartup { lastLine : string; chainResumeFailed : bool; seedUnbounded : bool }.

Definition resolveStartupResume (io : open_io) (tailReadable : bool) (last : string) (s : Sink)
    : startupResume * Sink :=
  if negb tailReadable then
    let '(bounded, s) := seedSeqPastOnDiskMax io s in (mkStartup last true (negb bounded), s)
  else if String.eqb last "" then
    match newestRotatedSiblingWithTail (dirFails io) (siblingFails io) (closedFiles s) with
    | (Some l, _) => (mkStartup l false false, s)
    | (None, true) => let '(bounded, s) := seedSeqPastOnDiskMax io s in (mkStartup last true (negb bounded), s)
    | (None, false) => (mkStartup last false false, s)
    end
  else (mkStartup last false false, s).

(** [syntheticDenyMarker] and [writeIntegrityMarker]. *)
Definition auditIntegrityFailureCode := "AUDIT_INTEGRITY_FAILURE".
Definition syntheticDenyMarker (s : Sink) (env : marker_env) : auditRecord :=
  mkAudit 6003 6 2 (mTime env) 0 (mRequestID env) "" "" "" "" "" (pep s) "" "" "" "" "" "" "deny" false
    auditIntegrityFailureCode "" (mDetails env) [] [] [] "" (skeyID s) "" "".

Definition writeIntegrityMarker (io : write_io) (env : marker_env) (s : Sink) : Sink :=
  writeRecord io (syntheticDenyMarker s env) s.

(** The markers Open writes, by their kind. *)
Inductive marker_kind :=
| MarkResumeFailed | MarkParseFailure | MarkTail (k : tailFailure) | MarkPartialRecovered.

Definition startupMarkers (r : startupResume) (tr : tailResumeResult) (recovered : Z) : list marker_kind :=
  ((if chainResumeFailed r then [MarkResumeFailed] else [])
   ++ (if tailParseFailure tr then [MarkParseFailure] else [])
   ++ (match tailFailKind tr with tailFailNone => [] | k => [MarkTail k] end)
   ++ (if 0 <? recovered then [MarkPartialRecovered] else []))%list.

Fixpoint writeMarkers (ms : list marker_kind) (ios : list write_io) (envs : list marker_env) (s : Sink) : Sink :=
  match ms, ios, envs with
  | _ :: ms', io :: ios', env :: envs' => writeMarkers ms' ios' envs' (writeIntegrityMarker io env s)
  | _, _, _ => s
  end.

(** [recoverPartialTail]: the file as it is left, and the bytes removed, whether the tail could be
    read and the last record, or a failed start. *)
Definition recoverPartialTail (io : open_io) (content : string) : string * option (Z * bool * string) :=
  if negb (readable io) then (content, Some (0, String.eqb content "", ""))
  else
    match truncatePartialTail auditScanBufferBytes (tailIO io) content with
    | (content', Err _) => (content', None)
    | (content', Ok (rb, last)) => (content', Some (rb, true, last))
    end.

(** A sink that has just been opened over the disk of [s]. *)
Definition freshSink (s : Sink) (w : Z) (content : string) : Sink :=
  mkSink (skey s) (skeyID s) (sVerifyKeys s) (maxBytes s) (retain s) (pep s) w false 0 0 false false false 0 ""
    (closedFiles s) content.

(** The end of [Open]: whether it starts, and the sink; of [s] only the configuration and the disk
    are used. *)
Definition openSink (io : open_io) (s : Sink) : bool * Sink :=
  let content := activeFile s in
  match recoverPartialTail io content with
  | (content', None) => (false, freshSink s 0 content')
  | (content', Some (recovered, tailReadable, last)) =>
      let s := freshSink s (Z.max 0 (len content - recovered)) content' in
      let '(resume, s) := resolveStartupResume io tailReadable last s in
      let '(tr, s) := resumeChainFromTail (lastLine resume) s in
      let ms := startupMarkers resume tr recovered in
      let s := writeMarkers ms (markerIO io) (markerEnv io) s in
      let s := if negb (List.length ms =? 0)%nat && startSyncFails io then add_failure s else s in
      (true, pruneRotated (startPrune io) s)
  end.

(** A crash loses the unsynced end of the active file; a descriptor in the fallback state points
    at a rotated file, so the base is a fresh one at the next start. *)
Definition crash (cut : nat) (s : Sink) : Sink :=
  let active := take_str cut (activeFile s) in
  if inFallback s then set_disk (closedFiles s ++ [active])%list "" s
  else set_disk (closedFiles s) active s.

(** The process: whether the sink is open, and the sink or what a failed start left on disk. *)
Record process := mkProcess { up : bool; sink : Sink }.

Inductive event :=
| Write (rec : auditRecord) (io : write_io)
| Restart (cut : nat) (io : open_io).

Definition step (p : process) (e : event) : process :=
  match e with
  | Write rec io => if up p then mkProcess true (writeRecord io rec (sink p)) else p
  | Restart cut io =>
      let '(ok, s) := openSink io (crash cut (sink p)) in mkProcess ok s
  end.

Definition run (p : process) (es : list event) : process := fold_left step es p.

Definition LogChainFiles (s : Sink) : list string := (closedFiles s ++ [activeFile s])%list.

End writer.
End AuditWriter.
