(* ===== verification/AuditRecovery.v ===== *)
(** * Recovery of the audit chain

    What the writer leaves on disk under failed writes, truncations, rotations, removals and
    crashes, and that the verifier accepts it: the lines of a file, the recovery of a torn
    tail, the invariant of the writer and the theorems on whole runs. *)
From stdpp Require Import base tactics list gmap strings.
From Stdlib Require Import ZArith Lia Ascii String.
From S2P Require Import Prelude GoStrings Truncate AuditVerify AuditWriter.
#[local] Open Scope string_scope.
#[local] Open Scope Z_scope.
#[local] Open Scope go_scope.
#[local] Arguments String.append : simpl nomatch.
Import Truncate.

(** What the code relies on of encoding/json and of hex: a record marshals to one object on one
    line, a digest has nothing to escape, and both decoders read the signed line of an
    [encodable] record back as a record that marshals the same and agrees on the fields the
    chain is checked on, when those need no escape. *)
Class AuditCodecLaws `{AuditCodec} `{AuditUnmarshal} := {
  marshal_object : forall r body, Marshal r = Some body ->
    (exists x, body = "{" ++ x ++ "}") /\ contains_char AuditVerify.newline body = false;
  hmac_plain : forall k b, AuditVerify.isPlainJSONString (hmacHex k b) = true;
  decode_signed : forall r body mac line,
    encodable r -> Marshal (with_hmac r "") = Some body ->
    AuditVerify.isPlainJSONString mac = true -> mac <> "" ->
    AuditVerify.isPlainJSONString (PrevHMAC r) = true -> AuditVerify.isPlainJSONString (KeyID r) = true ->
    AuditVerify.isPlainJSONString (Time r) = true -> 0 <= Seq r < two64 ->
    AuditVerify.signedRecordLine body mac = Some line ->
    exists r', Decode true line = Ok (r', false) /\ Unmarshal line = Some r' /\
      Marshal (with_hmac r' "") = Some body /\ HMAC r' = mac /\ Seq r' = Seq r /\
      PrevHMAC r' = PrevHMAC r /\ KeyID r' = KeyID r /\ Time r' = Time r;
}.

Module AuditRecovery.
Import AuditVerify AuditWriter.

(** ** Lines and files *)

(** The lines the writer emits: one JSON object, no newline, well inside the scan window. *)
Definition maxLine : Z := 2097152.
Definition good_line (l : string) : Prop :=
  (exists x, l = "{" ++ x ++ "}") /\ contains_char newline l = false /\ len l + 1 <= maxLine.

Fixpoint file_of (ls : list string) : string :=
  match ls with
  | [] => ""
  | l :: rest => l ++ String newline (file_of rest)
  end.

Lemma file_of_app a b : file_of (a ++ b) = file_of a ++ file_of b.
Proof.
  induction a as [|l a IH]; [done|]. cbn [file_of app]. rewrite IH.
  change (l ++ String newline (file_of a ++ file_of b) = (l ++ String newline (file_of a)) ++ file_of b).
  by rewrite str_app_assoc.
Qed.

Lemma file_of_snoc ls l : file_of (ls ++ [l]) = file_of ls ++ l ++ String newline "".
Proof. by rewrite file_of_app. Qed.

Lemma split_line l rest :
  contains_char newline l = false ->
  split_char newline (l ++ String newline rest) = l :: split_char newline rest.
Proof.
  induction l as [|c l IH]; cbn [String.append split_char contains_char].
  - intros _. by rewrite Ascii.eqb_refl.
  - intros [Hc Hl]%orb_false_elim. rewrite Hc, IH by done. done.
Qed.

Lemma split_last l : contains_char newline l = false -> split_char newline l = [l].
Proof.
  induction l as [|c l IH]; [done|]. cbn [split_char contains_char].
  intros [Hc Hl]%orb_false_elim. by rewrite Hc, IH.
Qed.

Lemma split_file ls rest :
  Forall good_line ls -> split_char newline (file_of ls ++ rest) = (ls ++ split_char newline rest)%list.
Proof.
  induction 1 as [|l ls Hl Hls IH]; [done|]. cbn [file_of app]. rewrite str_app_assoc. cbn [String.append].
  rewrite split_line by apply Hl. by rewrite IH.
Qed.

(** ** Trimming *)

Lemma trim_left_none fuel encs s :
  List.find (fun e => String.prefix e s) encs = None -> trim_left fuel encs s = s.
Proof. intros Hf. destruct fuel; [done|]. cbn [trim_left]. by rewrite Hf. Qed.

(** A byte that belongs to no space survives. *)
Lemma trim_left_keeps c encs : (forall e, In e encs -> contains_char c e = false) ->
  forall fuel s, contains_char c s = true -> contains_char c (trim_left fuel encs s) = true.
Proof.
  intros He. induction fuel as [|fuel IH]; intros s Hs; [done|]. cbn [trim_left].
  destruct (List.find _ encs) as [e|] eqn:E; [|done]. apply List.find_some in E as [Hin Hp].
  apply IH. apply prefix_drop in Hp. rewrite Hp, contains_char_app, (He e Hin) in Hs. exact Hs.
Qed.

Lemma contains_char_rev c s : contains_char c (str_rev s) = contains_char c s.
Proof.
  induction s as [|d s IH]; [done|].
  replace (String d s) with (String d "" ++ s) by done. rewrite str_rev_app, !contains_char_app, IH. cbn.
  by rewrite orb_comm, orb_false_r.
Qed.

Lemma no_brace_in_spaces : forallb (fun e => negb (contains_char "{" e)) space_encodings = true.
Proof. by vm_compute. Qed.

(** A fragment of an object is not blank. *)
Lemma object_prefix_nonblank y : String.eqb (TrimSpace (String "{" y)) "" = false.
Proof.
  apply String.eqb_neq. intros He. assert (contains_char "{" (TrimSpace (String "{" y)) = true) as Hc; [|by rewrite He in Hc].
  pose proof no_brace_in_spaces as Hn. rewrite forallb_forall in Hn.
  unfold TrimSpace. rewrite contains_char_rev. apply trim_left_keeps.
  - intros e Hin. apply in_map_iff in Hin as (e' & <- & Hin%Hn). rewrite contains_char_rev. by apply negb_true_iff.
  - rewrite contains_char_rev. apply trim_left_keeps; [|done]. intros e Hin%Hn. by apply negb_true_iff.
Qed.

Lemma trim_right_close z : trim_left (String.length z) (map str_rev space_encodings) (String "}" z) = String "}" z.
Proof. by apply trim_left_none. Qed.

Lemma rev_close x : str_rev (x ++ "}") = String "}" (str_rev x).
Proof. by rewrite str_rev_app. Qed.

(** Objects keep their ends. *)
Lemma TrimSpace_object x : TrimSpace ("{" ++ x ++ "}") = "{" ++ x ++ "}".
Proof.
  unfold TrimSpace. rewrite (trim_left_none _ space_encodings) by done.
  rewrite <- str_app_assoc, rev_close, trim_left_none by done.
  by rewrite <- rev_close, str_rev_involutive.
Qed.

Lemma TrimRightSpace_object x : TrimRightSpace (x ++ "}" ++ String newline "") = x ++ "}".
Proof.
  unfold TrimRightSpace. rewrite <- str_app_assoc, str_rev_app, rev_close, str_length_app.
  replace (String.length (x ++ "}") + String.length (String newline ""))%nat
    with (S (String.length (x ++ "}"))) by (cbn; lia).
  change (str_rev (String newline "") ++ String "}" (str_rev x)) with (String newline (String "}" (str_rev x))).
  change (trim_left (S (String.length (x ++ "}"))) (map str_rev space_encodings) (String newline (String "}" (str_rev x))))
    with (trim_left (String.length (x ++ "}")) (map str_rev space_encodings) (String "}" (str_rev x))).
  rewrite trim_left_none by done. by rewrite <- rev_close, str_rev_involutive.
Qed.

Lemma dropCR_object x : dropCR ("{" ++ x ++ "}") = "{" ++ x ++ "}".
Proof.
  unfold dropCR. destruct (has_suffix ("{" ++ x ++ "}") (bytes [13%nat])) eqn:E; [|done].
  apply has_suffix_split in E. apply (f_equal str_rev) in E.
  rewrite <- str_app_assoc, rev_close, (str_rev_app (take_str _ _)) in E.
  change (str_rev (bytes [13%nat])) with (String (ascii_of_nat 13) EmptyString) in E.
  apply (f_equal (String.get 0)) in E. cbn in E. discriminate E.
Qed.

Lemma good_trim l : good_line l -> TrimSpace l = l.
Proof. intros [[x ->] _]. apply TrimSpace_object. Qed.

Lemma good_nonblank l : good_line l -> nonblank l = true.
Proof. intros [[x ->] _]. unfold nonblank. change ("{" ++ x ++ "}") with (String "{" (x ++ "}")). by rewrite object_prefix_nonblank. Qed.

Lemma good_dropCR l : good_line l -> dropCR l = l.
Proof. intros [[x ->] _]. apply dropCR_object. Qed.

(** ** Reading a chain back *)

(** The beginning of a line, the newline not reached. *)
Definition torn (frag l : string) : Prop := frag <> "" /\ exists r, l = frag ++ r.

Lemma torn_good frag l :
  good_line l -> torn frag l ->
  contains_char newline frag = false /\ nonblank frag = true /\ len frag + 1 <= maxLine.
Proof.
  intros ([x ->] & Hn & Hl) (Hne & r & Hr). rewrite Hr in Hn, Hl.
  rewrite contains_char_app in Hn. apply orb_false_elim in Hn as [Hn _].
  unfold len in *. rewrite str_length_app in Hl. split; [done|]. split; [|lia].
  destruct frag as [|c frag]; [done|]. injection Hr as <- _. unfold nonblank. by rewrite object_prefix_nonblank.
Qed.

Lemma scan_good ls segs :
  segs <> [] -> Forall good_line ls ->
  scanSignedLines (ls ++ segs) = ((ls ++ fst (scanSignedLines segs))%list, snd (scanSignedLines segs)).
Proof.
  intros Hne. induction 1 as [|l ls Hl Hls IH]; [cbn [app]; by destruct (scanSignedLines segs)|].
  cbn [app scanSignedLines].
  destruct (Z.leb_spec auditScanBufferBytes (len l)) as [Hge|_].
  { destruct Hl as (_ & _ & Hl). unfold maxLine, auditScanBufferBytes in *. lia. }
  destruct (ls ++ segs)%list as [|l' ls'] eqn:E; [apply app_eq_nil in E as [_ E]; done|].
  rewrite IH, good_dropCR by done. done.
Qed.

Lemma filter_good ls : Forall good_line ls -> List.filter nonblank ls = ls.
Proof. induction 1 as [|l ls Hl Hls IH]; [done|]. cbn. by rewrite good_nonblank, IH. Qed.

Lemma log_lines_good ls rest :
  Forall good_line ls ->
  log_lines (file_of ls ++ rest) = ((ls ++ fst (log_lines rest))%list, snd (log_lines rest)).
Proof.
  intros Hls. unfold log_lines. rewrite split_file, scan_good by (done || apply (split_nonempty newline)).
  destruct (scanSignedLines (split_char newline rest)) as [toks err]. cbn [fst snd].
  by rewrite List.filter_app, filter_good.
Qed.

Lemma log_lines_newline rest : log_lines (String newline rest) = log_lines rest.
Proof.
  unfold log_lines. cbn [split_char]. rewrite Ascii.eqb_refl. cbn [scanSignedLines].
  change (auditScanBufferBytes <=? len "") with false. cbn match.
  destruct (split_char newline rest) as [|a b] eqn:E; [by destruct (split_nonempty newline rest)|].
  by destruct (scanSignedLines (a :: b)).
Qed.

(** The closed files, each a whole number of lines, then the active one. *)
Lemma log_lines_chain lss rest :
  Forall (Forall good_line) lss ->
  log_lines (buildLazyChain (map file_of lss ++ [rest])) =
  ((List.concat lss ++ fst (log_lines rest))%list, snd (log_lines rest)).
Proof.
  induction 1 as [|ls lss Hls Hlss IH]; cbn [map app List.concat].
  - cbn [buildLazyChain]. by destruct (log_lines rest).
  - assert (buildLazyChain (file_of ls :: (map file_of lss ++ [rest])) =
            file_of ls ++ String newline (buildLazyChain (map file_of lss ++ [rest]))) as ->.
    { cbn [buildLazyChain]. by destruct (map file_of lss ++ [rest])%list eqn:E; [apply app_eq_nil in E as [_ ?]|]. }
    rewrite log_lines_good, log_lines_newline, IH by done. cbn [fst snd]. by rewrite app_assoc.
Qed.

(** What follows the last newline: nothing, or a torn record. *)
Lemma log_lines_nil : log_lines "" = ([], None).
Proof. by vm_compute. Qed.

Lemma log_lines_torn frag l :
  good_line l -> torn frag l -> log_lines frag = ([], Some ErrUnterminatedTail).
Proof.
  intros Hl Hp. destruct (torn_good frag l Hl Hp) as (Hn & Hb & Hlen).
  unfold log_lines. rewrite split_last by done. cbn [scanSignedLines].
  destruct (Z.leb_spec auditScanBufferBytes (len frag)); [unfold maxLine, auditScanBufferBytes in *; lia|].
  unfold nonblank in Hb. by rewrite Hb.
Qed.

(** ** The tail of a file *)

Lemma lastNewline_none a : contains_char newline a = false -> lastNewline a = None.
Proof.
  induction a as [|c a IH]; [done|]. cbn [contains_char lastNewline]. intros [Hc Ha]%orb_false_elim.
  rewrite IH by done. by rewrite Ascii.eqb_sym, Hc.
Qed.

Lemma lastNewline_last a b :
  contains_char newline b = false -> lastNewline (a ++ String newline b) = Some (String.length a).
Proof.
  intros Hb. induction a as [|c a IH].
  - cbn [String.append lastNewline]. rewrite lastNewline_none by done. done.
  - cbn [String.append lastNewline String.length]. by rewrite IH.
Qed.

Definition ends_clean (suf : string) : Prop := suf = "" \/ exists a, suf = a ++ String newline "".

Lemma file_of_clean ls : ends_clean (file_of ls).
Proof.
  induction ls as [|l ls IH] using rev_ind; [by left|]. right. exists (file_of ls ++ l).
  by rewrite file_of_snoc, str_app_assoc.
Qed.

Lemma drop_str_app_le n a b : (n <= String.length a)%nat -> drop_str n (a ++ b) = drop_str n a ++ b.
Proof.
  revert a. induction n as [|n IH]; intros a Hn; [by destruct a, b|].
  destruct a as [|c a]; cbn in Hn; [lia|]. cbn. apply IH. lia.
Qed.

Lemma drop_str_all n s : (String.length s <= n)%nat -> drop_str n s = "".
Proof. revert s. induction n as [|n IH]; intros [|c s] Hn; cbn in *; try done; try lia. apply IH. lia. Qed.

Lemma ends_clean_drop n s : ends_clean s -> ends_clean (drop_str n s).
Proof.
  intros [->|[a ->]]; [left; by destruct n|].
  destruct (decide (n <= String.length a)%nat) as [Hn|Hn].
  - right. exists (drop_str n a). by apply drop_str_app_le.
  - left. apply drop_str_all. rewrite str_length_app. cbn. lia.
Qed.

(** A window that holds the whole last line, from a boundary or from its own start. *)
Lemma lastComplete_window suf l :
  ends_clean suf -> good_line l ->
  lastCompleteLineFromTail (suf ++ l ++ String newline "") = (l, negb (String.eqb suf "")).
Proof.
  intros Hs Hl. unfold lastCompleteLineFromTail.
  rewrite <- str_app_assoc, lastNewline_last by done.
  replace (drop_str (S (String.length (suf ++ l))) ((suf ++ l) ++ String newline "")) with "".
  2: { symmetry. apply drop_str_all. rewrite str_length_app. cbn. lia. }
  change (String.eqb (TrimSpace "") "") with true. cbn match.
  pose proof Hl as ([x Hx] & Hn & _).
  assert (TrimRightSpace ((suf ++ l) ++ String newline "") = suf ++ l) as ->.
  { rewrite Hx. replace ((suf ++ "{" ++ x ++ "}") ++ String newline "") with ((suf ++ "{" ++ x) ++ "}" ++ String newline "")
      by (by rewrite !str_app_assoc). rewrite TrimRightSpace_object. by rewrite !str_app_assoc. }
  destruct Hs as [->|[a ->]].
  - cbn [String.append]. rewrite lastNewline_none by done. by rewrite good_trim.
  - rewrite str_app_assoc. cbn [String.append]. rewrite lastNewline_last by done.
    replace (drop_str (S (String.length a)) (a ++ String newline l)) with l.
    2: { replace (S (String.length a)) with (String.length a + 1)%nat by lia. by rewrite drop_str_app_r. }
    rewrite good_trim by done. by destruct a.
Qed.

Lemma good_nonempty l : good_line l -> String.eqb l "" = false.
Proof. intros [[x ->] _]. done. Qed.

(** The window from [start] of a file of whole lines. *)
Lemma window_of ls l start :
  (Z.to_nat start <= String.length (file_of ls))%nat ->
  drop_str (Z.to_nat start) (file_of (ls ++ [l])) =
  drop_str (Z.to_nat start) (file_of ls) ++ l ++ String newline "".
Proof. intros Hs. rewrite file_of_snoc. by apply drop_str_app_le. Qed.

Lemma tailLine_whole win ls l start :
  good_line l -> maxLine <= win -> 0 <= start <= len (file_of ls) ->
  tailLineFromWindow win (file_of (ls ++ [l])) (drop_str (Z.to_nat start) (file_of (ls ++ [l]))) start = Ok l.
Proof.
  intros Hl Hwin Hs. unfold tailLineFromWindow.
  assert (forall st, 0 <= st <= len (file_of ls) ->
    lastCompleteLineFromTail (drop_str (Z.to_nat st) (file_of (ls ++ [l]))) =
    (l, negb (String.eqb (drop_str (Z.to_nat st) (file_of ls)) ""))) as Hw.
  { intros st Hst. rewrite window_of by (unfold len in *; lia).
    apply lastComplete_window; [apply ends_clean_drop, file_of_clean | done]. }
  rewrite Hw by done. unfold refuseWhitespaceOnlyWindow. rewrite good_nonempty by done. cbn [andb].
  destruct (_ || _); [done|]. destruct (Z.leb_spec start (tailWindowStart (len (file_of (ls ++ [l]))) win)); [done|].
  rewrite Hw; [cbn [fst]; by rewrite good_nonempty|].
  unfold tailWindowStart in *. destruct Hl as (_ & _ & Hl). lia.
Qed.

(** What may follow the last whole line. *)
Definition fragment (frag : string) : Prop := contains_char newline frag = false /\ len frag + 1 <= maxLine.

Lemma fragment_nil : fragment "".
Proof. split; [done|]. by vm_compute. Qed.

Lemma len_file_snoc ls l : len (file_of (ls ++ [l])) = len (file_of ls) + len l + 1.
Proof. unfold len. rewrite file_of_snoc, !str_length_app. cbn [String.length]. lia. Qed.

Lemma has_suffix_newline_frag a frag :
  frag <> "" -> contains_char newline frag = false -> has_suffix (a ++ frag) (String newline "") = false.
Proof.
  intros Hne Hn. destruct (has_suffix (a ++ frag) (String newline "")) eqn:E; [|done]. exfalso.
  apply has_suffix_split in E. apply (f_equal str_rev) in E. rewrite !str_rev_app in E.
  assert (contains_char newline (str_rev frag) = false) as Hr by (by rewrite contains_char_rev).
  destruct (str_rev frag) as [|c r] eqn:Hf.
  - apply (f_equal str_rev) in Hf. rewrite str_rev_involutive in Hf. done.
  - change (String c r ++ str_rev a) with (String c (r ++ str_rev a)) in E.
    change (str_rev (String newline "")) with (String newline "") in E. injection E as -> _.
    cbn [contains_char] in Hr. by rewrite Ascii.eqb_refl in Hr.
Qed.

Lemma window_start ls l frag :
  good_line l -> fragment frag ->
  0 <= tailWindowStart (len (file_of (ls ++ [l]) ++ frag)) auditScanBufferBytes <= len (file_of ls).
Proof.
  intros (_ & _ & Hl) [_ Hf]. unfold tailWindowStart. rewrite len_app, len_file_snoc.
  pose proof (len_nonneg (file_of ls)). unfold maxLine, auditScanBufferBytes in *. lia.
Qed.

Lemma content_nonempty ls l frag : String.eqb (file_of (ls ++ [l]) ++ frag) "" = false.
Proof.
  apply String.eqb_neq. intros E%(f_equal String.length). rewrite file_of_snoc, !str_length_app in E. cbn in E. lia.
Qed.

Lemma truncate_whole io ls l :
  good_line l -> statFails io = false ->
  truncatePartialTail auditScanBufferBytes io (file_of (ls ++ [l])) = (file_of (ls ++ [l]), Ok (0, l)).
Proof.
  intros Hl Hst. unfold truncatePartialTail. rewrite Hst.
  pose proof (content_nonempty ls l "") as He. rewrite str_app_nil in He. rewrite He.
  pose proof (window_start ls l "" Hl fragment_nil) as Hs. rewrite str_app_nil in Hs.
  set (start := tailWindowStart _ _) in *.
  assert (has_suffix (drop_str (Z.to_nat start) (file_of (ls ++ [l]))) (String newline "") = true) as ->.
  { by rewrite window_of, <- str_app_assoc, has_suffix_app by (unfold len in *; lia). }
  rewrite orb_true_r, tailLine_whole; done.
Qed.

(** Where the last newline of a torn file is. *)
Lemma torn_boundary ls l frag start :
  contains_char newline frag = false -> 0 <= start <= len (file_of ls) ->
  exists i, lastNewline (drop_str (Z.to_nat start) (file_of (ls ++ [l])) ++ frag) = Some i /\
    start + Z.of_nat i + 1 = len (file_of (ls ++ [l])) /\
    take_str (S i) (drop_str (Z.to_nat start) (file_of (ls ++ [l])) ++ frag) =
    drop_str (Z.to_nat start) (file_of (ls ++ [l])).
Proof.
  intros Hn Hs. set (pre := drop_str (Z.to_nat start) (file_of ls) ++ l).
  assert (drop_str (Z.to_nat start) (file_of (ls ++ [l])) = pre ++ String newline "") as Hw.
  { rewrite window_of by (unfold len in *; lia). unfold pre. by rewrite str_app_assoc. }
  exists (String.length pre). rewrite Hw. split_and!.
  - rewrite str_app_assoc. cbn [String.append]. by apply lastNewline_last.
  - unfold pre. rewrite len_file_snoc, str_length_app, drop_str_le. unfold len in *. lia.
  - replace (S (String.length pre)) with (String.length (pre ++ String newline "")) by (rewrite str_length_app; cbn; lia).
    apply take_str_app.
Qed.

Lemma truncate_torn io ls l frag :
  good_line l -> fragment frag -> frag <> "" -> statFails io = false -> truncateFails io = false ->
  truncatePartialTail auditScanBufferBytes io (file_of (ls ++ [l]) ++ frag) =
  (file_of (ls ++ [l]), Ok (len frag, l)).
Proof.
  intros Hl Hf Hne Hst Htr. pose proof Hf as [Hn _]. unfold truncatePartialTail. rewrite Hst, Htr, content_nonempty.
  pose proof (window_start ls l frag Hl Hf) as Hs. set (start := tailWindowStart _ _) in *.
  assert (drop_str (Z.to_nat start) (file_of (ls ++ [l]) ++ frag) =
          drop_str (Z.to_nat start) (file_of (ls ++ [l])) ++ frag) as ->.
  { apply drop_str_app_le. rewrite file_of_snoc, str_length_app. unfold len in *. lia. }
  rewrite has_suffix_newline_frag, orb_false_r by done.
  destruct (String.eqb _ "") eqn:E.
  { apply String.eqb_eq, (f_equal String.length) in E. rewrite str_length_app in E. destruct frag; cbn in E; [done|lia]. }
  destruct (torn_boundary ls l frag start Hn Hs) as (i & -> & -> & ->).
  assert (take_str (Z.to_nat (len (file_of (ls ++ [l])))) (file_of (ls ++ [l]) ++ frag) = file_of (ls ++ [l])) as ->.
  { unfold len. rewrite Nat2Z.id. apply take_str_app. }
  rewrite tailLine_whole by done. cbn [rbind]. rewrite len_app. repeat f_equal. lia.
Qed.

(** A start that reads its tail and can truncate it leaves the whole lines and finds the last. *)
Lemma truncate_tail io ls frag :
  Forall good_line ls -> fragment frag -> statFails io = false -> truncateFails io = false ->
  truncatePartialTail auditScanBufferBytes io (file_of ls ++ frag) =
  (file_of ls, Ok (len frag, List.last ls "")).
Proof.
  intros Hls Hf Hst Htr. destruct (decide (ls = [])) as [->|Hnil].
  - cbn [file_of String.append List.last]. destruct (decide (frag = "")) as [->|Hne].
    + unfold truncatePartialTail. by rewrite Hst.
    + unfold truncatePartialTail. rewrite Hst, Htr, (proj2 (String.eqb_neq _ _) Hne).
      pose proof Hf as [Hn Hb].
      assert (tailWindowStart (len frag) auditScanBufferBytes = 0) as ->
        by (unfold tailWindowStart, maxLine, auditScanBufferBytes in *; lia).
      change (drop_str (Z.to_nat 0) frag) with frag. rewrite (proj2 (String.eqb_neq _ _) Hne).
      rewrite (has_suffix_newline_frag "" frag Hne Hn : has_suffix frag _ = false). by rewrite lastNewline_none.
  - destruct (exists_last Hnil) as (ls1 & l & ->). apply Forall_app in Hls as [_ [Hl _]%Forall_cons].
    rewrite List.last_last. destruct (decide (frag = "")) as [->|Hne]; [|by apply truncate_torn].
    rewrite str_app_nil. by apply truncate_whole.
Qed.

(** A rotated file of whole lines gives its last. *)
Lemma readLast_whole ls : Forall good_line ls -> readLastAuditLine false (file_of ls) = Ok (List.last ls "").
Proof.
  intros Hls. unfold readLastAuditLine. destruct (decide (ls = [])) as [->|Hnil]; [done|].
  destruct (exists_last Hnil) as (ls1 & l & ->). apply Forall_app in Hls as [_ [Hl _]%Forall_cons].
  rewrite List.last_last. pose proof (content_nonempty ls1 l "") as He. rewrite str_app_nil in He. rewrite He.
  pose proof (window_start ls1 l "" Hl fragment_nil) as Hs. rewrite str_app_nil in Hs.
  assert (tailWindowStart (len (file_of (ls1 ++ [l]))) auditScanBufferBytes = 0 \/
          tailWindowStart (len (file_of (ls1 ++ [l]))) auditScanBufferBytes < len (file_of ls1)) as Hcase.
  { destruct Hl as (_ & _ & Hl). unfold tailWindowStart. rewrite len_file_snoc. unfold maxLine, auditScanBufferBytes in *. lia. }
  set (start := tailWindowStart _ _) in *.
  rewrite window_of by (unfold len in *; lia).
  rewrite lastComplete_window; [|apply ends_clean_drop, file_of_clean | done].
  unfold refuseWhitespaceOnlyWindow. rewrite (good_nonempty l Hl). cbn [andb negb]. rewrite andb_true_r, negb_involutive.
  destruct Hcase as [-> | Hlt]; [by rewrite andb_false_r|].
  destruct (String.eqb (drop_str (Z.to_nat start) (file_of ls1)) "") eqn:E; [|done].
  apply String.eqb_eq, (f_equal String.length) in E. rewrite drop_str_le in E. cbn in E. unfold len in *. lia.
Qed.

(** The rotated files, newest first: the last line of them all. *)
Lemma newestTail_whole lss fails :
  Forall (Forall good_line) lss -> forallb negb fails = true ->
  newestTail fails (rev (map file_of lss)) =
  (if decide (List.concat lss = []) then None else Some (List.last (List.concat lss) ""), false).
Proof.
  intros Hls. revert fails. induction lss as [|ls lss IH] using rev_ind; intros fails Hf; [done|].
  apply Forall_app in Hls as [Hlss [Hl _]%Forall_cons].
  rewrite map_app, rev_app_distr. cbn [map rev app newestTail].
  assert (hd false fails = false /\ forallb negb (tl fails) = true) as [-> Htl].
  { destruct fails as [|b fails]; [done|]. cbn in *. apply andb_true_iff in Hf as [Hb Ht]. by destruct b. }
  rewrite readLast_whole by done. rewrite List.concat_app. cbn [List.concat]. rewrite app_nil_r.
  destruct (decide (ls = [])) as [->|Hnil].
  - cbn [List.last String.eqb negb]. rewrite IH by done. by rewrite app_nil_r.
  - destruct (exists_last Hnil) as (a & l & ->). apply Forall_app in Hl as [_ [Hl _]%Forall_cons].
    rewrite List.last_last, good_nonempty by done. cbn [negb].
    rewrite app_assoc, List.last_last. rewrite decide_False; [done|]. intros E%app_eq_nil. naive_solver.
Qed.

(** ** Cutting a file anywhere *)

(** Nothing, or the beginning of a good line. *)
Definition torn_end (frag : string) : Prop := frag = "" \/ exists l, good_line l /\ torn frag l.

Lemma torn_end_fragment frag : torn_end frag -> fragment frag.
Proof.
  intros [->|(l & Hl & Ht)]; [apply fragment_nil|]. destruct (torn_good frag l Hl Ht) as (? & _ & ?). by split.
Qed.

Lemma take_str_app_le n a b : (n <= String.length a)%nat -> take_str n (a ++ b) = take_str n a.
Proof.
  revert a. induction n as [|n IH]; intros a Hn; [done|].
  destruct a as [|c a]; cbn in Hn; [lia|]. cbn. by rewrite IH by lia.
Qed.

Lemma take_str_app_ge n a b : take_str (String.length a + n) (a ++ b) = a ++ take_str n b.
Proof. induction a as [|c a IH]; [done|]. cbn. by rewrite IH. Qed.

(** Any prefix of a file of whole lines is a file of fewer lines and a torn one. *)
Lemma take_file k ls :
  Forall good_line ls ->
  exists ls' ls'' frag, ls = (ls' ++ ls'')%list /\ take_str k (file_of ls) = file_of ls' ++ frag /\ torn_end frag.
Proof.
  intros Hls. revert k. induction Hls as [|l ls Hl Hls IH]; intros k.
  - exists [], [], "". repeat split; [by destruct k | by left].
  - cbn [file_of]. destruct (decide (k <= String.length l)%nat) as [Hk|Hk].
    + exists [], (l :: ls), (take_str k l). rewrite take_str_app_le by done. repeat split.
      destruct (decide (take_str k l = "")) as [|Hne]; [by left|]. right. exists l. split; [done|]. split; [done|].
      exists (drop_str k l). by rewrite take_drop_str.
    + destruct (IH (k - String.length l - 1)%nat) as (ls' & ls'' & frag & -> & Ht & Hf).
      exists (l :: ls'), ls'', frag. split; [done|]. split; [|done].
      replace k with (String.length l + S (k - String.length l - 1))%nat at 1 by lia.
      rewrite take_str_app_ge. cbn [take_str file_of]. rewrite Ht. by rewrite str_app_assoc.
Qed.

(** ** The chain on disk *)

Definition tip (prev : option auditRecord) (recs : list auditRecord) : option auditRecord :=
  fold_left (fun _ r => Some r) recs prev.

Lemma tip_snoc prev recs r : tip prev (recs ++ [r]) = Some r.
Proof. unfold tip. by rewrite fold_left_app. Qed.

Lemma chained_app prev a b : chained prev (a ++ b) = chained prev a && chained (tip prev a) b.
Proof.
  revert prev. induction a as [|r a IH]; intros prev; [done|]. cbn [app chained]. by rewrite IH, andb_assoc.
Qed.

Section recovery.
Context `{L : AuditCodecLaws}.

(** A line of the writer under key [key] of id [kid], with the record it holds. *)
Definition good_rec (kid key l : string) (r : auditRecord) : Prop :=
  good_line l /\ Unmarshal l = Some r /\ 0 < Seq r < two64 /\ (exists b, HMAC r = recordMAC key b) /\
  (forall w ring, ring_of w = Some ring -> ring !! kid = Some key ->
     sound_line (Some w) l = Some r /\ VerifyRecord (Some w) l = Ok true).

Lemma good_recs_lines kid key ls recs : Forall2 (good_rec kid key) ls recs -> Forall good_line ls.
Proof. induction 1 as [|l r ls recs Hr _ IH]; constructor; [apply Hr | done]. Qed.

(** What continues a record may also come first. *)
Lemma linked_first kid key l p r : good_rec kid key l p -> linked (Some p) r = true -> linked None r = true.
Proof.
  intros (_ & _ & Hr & _) [_ Hs%Z.eqb_eq]%andb_true_iff. cbn [linked]. apply orb_true_iff. left.
  apply negb_true_iff, Z.eqb_neq. rewrite Hs. unfold wrap_uint64. intros E.
  destruct (Z.eq_dec (Seq p + 1) two64) as [Eq|Hne'].
  - rewrite Eq, Z.mod_same in E; [done | by vm_compute].
  - rewrite Z.mod_small in E; lia.
Qed.

(** Whatever continues [recs] continues [recs']. *)
Definition extends (recs recs' : list auditRecord) : Prop :=
  forall r, linked (tip None recs) r = true -> linked (tip None recs') r = true.

(** Leaving out the oldest records leaves a chain, with the same continuations. *)
Lemma chained_drop kid key lsa ra rb :
  Forall2 (good_rec kid key) lsa ra -> chained None (ra ++ rb) = true ->
  chained None rb = true /\ extends (ra ++ rb) rb.
Proof.
  intros Ha Hc. destruct (decide (ra = [])) as [->|Hne]; [split; [done | by intros ?]|].
  destruct (exists_last Hne) as (ra' & p & ->). rewrite chained_app, tip_snoc in Hc.
  apply Forall2_app_inv_r in Ha as (la & lp & _ & Hp & _). apply Forall2_cons_inv_r in Hp as (l & _ & Hp & _).
  apply andb_true_iff in Hc as [_ Hc]. destruct rb as [|r rb]; [split; [done|]|].
  - intros r. rewrite app_nil_r, tip_snoc. by apply (linked_first kid key l p).
  - cbn [chained] in *. apply andb_true_iff in Hc as [Hl Hc]. split.
    + rewrite Hc. by rewrite (linked_first kid key l p r).
    + intros r'. unfold tip. by rewrite fold_left_app.
Qed.

(** The next record continues what is on disk. *)
Definition heads (o : option auditRecord) (s : Sink) : Prop :=
  match o with
  | Some r => seq s = Seq r /\ sPrevHMAC s = HMAC r /\ HMAC r <> ""
  | None => seq s = 0 -> sPrevHMAC s = ""
  end.

(** What follows the committed lines of the active file: nothing, or the part of a signed record
    that a failed write left. *)
Inductive tail_state (kid key : string) (prev : option auditRecord) (orphan : Z) : string -> Prop :=
| tail_clean : orphan = 0 -> tail_state kid key prev orphan ""
| tail_orphan l r n : good_rec kid key l r -> linked prev r = true ->
    (0 < n <= String.length l + 1)%nat -> orphan = Z.of_nat n ->
    tail_state kid key prev orphan (take_str n (l ++ String newline "")).

(** The signature the sink holds: none yet, or a digest. *)
Definition mac_shaped (h : string) : Prop := h = "" \/ exists k b, h = recordMAC k b.

(** The invariant of an open sink. *)
Record wf (s : Sink) (lss : list (list string)) (ls : list string) (recs : list auditRecord) (frag : string)
    : Prop := mkWf {
  wf_closed : closedFiles s = map file_of lss;
  wf_active : activeFile s = file_of ls ++ frag;
  wf_recs : Forall2 (good_rec (skeyID s) (skey s)) (List.concat lss ++ ls) recs;
  wf_chain : chained None recs = true;
  wf_tail : tail_state (skeyID s) (skey s) (tip None recs) (tailOrphanBytes s) frag;
  wf_head : heads (tip None recs) s;
  wf_seq : 0 <= seq s < two64;
  wf_prev : mac_shaped (sPrevHMAC s);
}.

(** A configuration whose ring holds its own key and whose name is text. *)
Record configured (s : Sink) : Prop := mkConfigured {
  cfg_kid : skeyID s <> "";
  cfg_kid_plain : isPlainJSONString (skeyID s) = true;
  cfg_ring : sVerifyKeys s !! skeyID s = Some (skey s);
  cfg_pep : Valid (pep s);
}.

(** A record as [Sink.Record] makes it (AuditRecord.v): the sink's key id, a time that parses,
    and text that is valid. *)
Definition stampable (s : Sink) (rec : auditRecord) : Prop :=
  KeyID rec = skeyID s /\ isPlainJSONString (Time rec) = true /\ is_Some (ParseTime (Time rec)) /\ encodable rec.

(** ** Signing *)

Lemma plain_no_newline s : isPlainJSONString s = true -> contains_char newline s = false.
Proof.
  unfold isPlainJSONString. induction s as [|c s IH]; [done|]. cbn [str_forall contains_char].
  intros [Hc Hs]%andb_true_iff. rewrite IH by done. rewrite orb_false_r.
  destruct (Ascii.eqb newline c) eqn:E; [|done]. apply Ascii.eqb_eq in E as <-. by vm_compute in Hc.
Qed.

Lemma recordMAC_plain k b : isPlainJSONString (recordMAC k b) = true /\ recordMAC k b <> "".
Proof.
  unfold recordMAC, isPlainJSONString. rewrite str_forall_app. split; [|done].
  apply andb_true_iff. split; [by vm_compute|]. apply hmac_plain.
Qed.

Lemma open_object x : open_body ("{" ++ x ++ "}") = Some ("{" ++ x).
Proof.
  unfold open_body. rewrite <- str_app_assoc, has_suffix_app. f_equal.
  rewrite str_length_app. replace (String.length ("{" ++ x) + String.length "}" - 1)%nat with (String.length ("{" ++ x)) by (cbn; lia).
  apply take_str_app.
Qed.

(** The signed line of an object is an object on one line. *)
Lemma signed_shape r body mac :
  Marshal r = Some body -> isPlainJSONString mac = true ->
  exists l, signedRecordLine body mac = Some l /\ (exists x, l = "{" ++ x ++ "}") /\ contains_char newline l = false.
Proof.
  intros Hm Hp. destruct (marshal_object r body Hm) as [[x ->] Hn].
  unfold signedRecordLine. rewrite open_object. unfold appendJSONString. rewrite Hp.
  eexists. split; [done|]. split.
  - exists (x ++ macFieldPrefix ++ dquote ++ mac ++ dquote). by rewrite !str_app_assoc.
  - rewrite !contains_char_app in *. rewrite (plain_no_newline mac Hp).
    repeat match goal with H : _ || _ = false |- _ => apply orb_false_elim in H as [? ?] end.
    repeat match goal with H : contains_char newline _ = false |- _ => rewrite H; clear H end. by vm_compute.
Qed.

Lemma verify_signed w ring kid key l r body :
  ring_of w = Some ring -> ring !! kid = Some key -> kid <> "" ->
  good_line l -> KeyID r = kid -> Marshal (with_hmac r "") = Some body ->
  HMAC r = recordMAC key body -> signedRecordLine body (HMAC r) = Some l ->
  verifyDecodedRecord (Some w) l r = Ok true.
Proof.
  intros Hring Hkey Hkid Hl Hk Hb Hh Hs. unfold verifyDecodedRecord.
  destruct (recordMAC_plain key body) as [_ Hne].
  rewrite (proj2 (String.eqb_neq (HMAC r) "")) by congruence.
  rewrite Hb, good_trim by done. rewrite (proj2 (canonical_iff_written l body (HMAC r)) Hs).
  unfold keysToTry. rewrite Hring, Hk, (proj2 (String.eqb_neq kid "") Hkid), Hkey. cbn [negb rbind existsb].
  by rewrite Hh, String.eqb_refl.
Qed.

(** What [sign] returns is a good line whose record links onto what the sink heads. *)
Lemma sign_good s rec rec' line o :
  configured s -> stampable s rec -> heads o s -> 0 <= seq s < two64 - 1 ->
  mac_shaped (sPrevHMAC s) ->
  sign s rec = Some (rec', line) -> len line <= maxLine ->
  exists l r, line = l ++ String newline "" /\ good_rec (skeyID s) (skey s) l r /\ linked o r = true /\
    Seq r = seq s + 1 /\ Seq rec' = Seq r /\ HMAC rec' = HMAC r.
Proof.
  intros [Hkid Hkp Hring _] (Hk & Htp & Htime & Henc) Hhead Hseq Hprev Hsign Hlen. unfold sign in Hsign.
  set (prev := if String.eqb (sPrevHMAC s) "" then auditGenesisPrev else sPrevHMAC s) in *.
  set (rec0 := stamped rec (seq s + 1) prev "") in *. destruct (Marshal rec0) as [body|] eqn:Hm; [|done].
  set (mac := recordMAC (skey s) body) in *. destruct (recordMAC_plain (skey s) body) as [Hmp Hmne]. fold mac in Hmp, Hmne.
  destruct (signed_shape rec0 body mac Hm Hmp) as (l & Hl & Hobj & Hnl). rewrite Hl in Hsign. injection Hsign as <- <-.
  assert (isPlainJSONString prev = true) as Hpp.
  { unfold prev. destruct Hprev as [-> | (k & b & ->)]; [done|]. case_match; [done|]. apply recordMAC_plain. }
  assert (isPlainJSONString (KeyID rec0) = true) as Hkp0 by (change (KeyID rec0) with (KeyID rec); congruence).
  assert (0 <= Seq rec0 < two64) as Hseq0 by (change (Seq rec0) with (seq s + 1); lia).
  destruct (decode_signed rec0 body mac l Henc Hm Hmp Hmne Hpp Hkp0 Htp Hseq0 Hl) as (r & Hd & Hu & Hb & Hh & Hs & Hp & Hkr & Ht).
  change (Seq rec0) with (seq s + 1) in Hs. change (PrevHMAC rec0) with prev in Hp.
  change (KeyID rec0) with (KeyID rec) in Hkr. change (Time rec0) with (Time rec) in Ht.
  rewrite len_app in Hlen. change (len (String newline "")) with 1 in Hlen.
  assert (good_line l) as Hg by (split; [done|split; [done|lia]]).
  assert (forall w ring, ring_of w = Some ring -> ring !! skeyID s = Some (skey s) -> verifyDecodedRecord (Some w) l r = Ok true) as Hv.
  { intros w ring Hr1 Hr2. apply (verify_signed w ring (skeyID s) (skey s) l r body); try done; [congruence|]. by rewrite Hh. }
  exists l, r. split; [done|]. split_and!; [|..|done|done|done].
  - split_and!; [done|done|lia|lia|by exists body|]. intros w ring Hr1 Hr2. specialize (Hv w ring Hr1 Hr2). split.
    + unfold sound_line, strictDecodeAuditRecord. rewrite Hd. unfold isSignedRecord, recordTime. rewrite Hh, Hs, Ht.
      rewrite (proj2 (String.eqb_neq mac "") Hmne), (proj2 (Z.eqb_neq (seq s + 1) 0)) by lia.
      rewrite bool_decide_true by done. cbn [negb andb]. by rewrite Hv.
    + unfold VerifyRecord, strictDecodeAuditRecord. rewrite Hd. cbn [rbind]. done.
  - destruct o as [p|]; cbn [heads linked] in *.
    + destruct Hhead as (Hsq & Hpv & Hpne). rewrite Hp, Hs. unfold prev. rewrite Hpv, (proj2 (String.eqb_neq _ _) Hpne).
      rewrite String.eqb_refl. cbn [andb]. apply Z.eqb_eq. rewrite wrap_uint64_id; lia.
    + rewrite Hp, Hs. destruct (Z.eqb_spec (seq s + 1) 1) as [E|]; [|done]. cbn [negb orb].
      unfold prev. by rewrite Hhead by lia.
Qed.

(** ** The invariant *)

Lemma wf_ext s s' lss ls recs frag :
  closedFiles s' = closedFiles s -> activeFile s' = activeFile s -> skeyID s' = skeyID s -> skey s' = skey s ->
  tailOrphanBytes s' = tailOrphanBytes s -> seq s' = seq s -> sPrevHMAC s' = sPrevHMAC s ->
  wf s lss ls recs frag -> wf s' lss ls recs frag.
Proof.
  intros H1 H2 H3 H4 H5 H6 H7 []. constructor; rewrite ?H1, ?H2, ?H3, ?H4, ?H5, ?H6, ?H7; try done.
  destruct (tip None recs); cbn [heads] in *; by rewrite H6, H7.
Qed.

Definition same_config (s s' : Sink) : Prop :=
  skey s' = skey s /\ skeyID s' = skeyID s /\ (sVerifyKeys s', pep s') = (sVerifyKeys s, pep s).

Lemma configured_same s s' : same_config s s' -> configured s -> configured s'.
Proof. intros (H1 & H2 & [= H3 H4]) []. constructor; by rewrite ?H1, ?H2, ?H3, ?H4. Qed.

Lemma tail_length kid key prev orphan frag : tail_state kid key prev orphan frag -> len frag = orphan.
Proof.
  intros [->|l r n _ _ Hn ->]; [done|]. unfold len. rewrite take_str_length, str_length_app. cbn [String.length]. lia.
Qed.

Lemma tip_good kid key ls recs p :
  Forall2 (good_rec kid key) ls recs -> tip None recs = Some p -> exists l, good_rec kid key l p.
Proof.
  intros Hr Ht. destruct (decide (recs = [])) as [->|Hne]; [done|].
  destruct (exists_last Hne) as (ra & q & ->). rewrite tip_snoc in Ht. injection Ht as ->.
  apply Forall2_app_inv_r in Hr as (la & lp & _ & Hp & _). apply Forall2_cons_inv_r in Hp as (l & _ & Hp & _). by exists l.
Qed.

(** Retention removes the oldest files. *)
Lemma pruneLoop_drop n outcomes closed : exists k, fst (removeOldest n outcomes closed) = drop k closed.
Proof.
  revert outcomes closed. induction n as [|n IH]; intros outcomes closed; [by exists O|].
  destruct closed as [|f closed]; [by exists O|]. cbn [removeOldest].
  destruct outcomes as [|[|] outcomes].
  - destruct (IH [] closed) as [k Hk]. by exists (S k).
  - destruct (IH outcomes closed) as [k Hk]. by exists (S k).
  - by exists O.
Qed.

Lemma prunePass_drop io s : exists k, fst (prunePass io s) = drop k (closedFiles s).
Proof. unfold prunePass. repeat case_match; try (by exists O). apply pruneLoop_drop. Qed.

Lemma prune_wf io s lss ls recs frag :
  wf s lss ls recs frag ->
  exists lss' recs', wf (pruneRotated io s) lss' ls recs' frag /\ extends recs recs' /\
    same_config s (pruneRotated io s).
Proof.
  intros [Hcl Hac Hre Hch Hta Hhe Hsq Hpr]. unfold pruneRotated.
  destruct (prunePass_drop io s) as [k Hk]. destruct (prunePass io s) as [closed stalled]. cbn [fst] in Hk.
  rewrite Hcl in Hk. rewrite <- (take_drop k lss) in Hre. rewrite List.concat_app, <- app_assoc in Hre.
  apply Forall2_app_inv_l in Hre as (ra & rb & Ha & Hb & ->).
  destruct (chained_drop _ _ _ _ _ Ha Hch) as [Hc Hx]. exists (drop k lss), rb.
  split; [|by split]. constructor; try done.
  - cbn [closedFiles setRetentionStalled set_disk]. rewrite Hk. apply skipn_map.
  - destruct Hta as [|l r n Hg Hl Hn Ho]; [by constructor|]. apply (tail_orphan _ _ _ _ l r n); try done. by apply Hx.
  - destruct (decide (rb = [])) as [->|Hne].
    + rewrite app_nil_r in *. cbn [heads tip fold_left]. destruct (tip None ra) as [p|] eqn:E; [|exact Hhe].
      destruct (tip_good _ _ _ _ p Ha E) as (l & _ & _ & Hr & _). destruct Hhe as [Hs _]. intros Hz.
      change (seq s = 0) in Hz. lia.
    + destruct (exists_last Hne) as (rc & q & ->). rewrite app_assoc, tip_snoc in Hhe. by rewrite tip_snoc.
Qed.

(** The head of the sink, which maintenance leaves alone. *)
Definition same_head (s s' : Sink) : Prop := seq s' = seq s /\ sPrevHMAC s' = sPrevHMAC s.

Lemma repair_wf io s lss ls recs frag :
  wf s lss ls recs frag ->
  let '(clean, s') := repairTailOrphan io s in
  same_config s s' /\ same_head s s' /\
  if clean : bool then wf s' lss ls recs "" /\ tailOrphanBytes s' = 0 else s' = s.
Proof.
  intros Hwf. unfold repairTailOrphan. destruct (_ || _); [done|]. destruct (truncateFails io); [done|].
  split; [done|]. split; [done|]. split; [|done]. destruct Hwf as [Hcl Hac Hre Hch Hta Hhe Hsq Hpr].
  constructor; try done.
  - cbn [activeFile set_orphan set_written set_disk]. rewrite Hac, len_app, (tail_length _ _ _ _ _ Hta), str_app_nil.
    replace (len (file_of ls) + tailOrphanBytes s - tailOrphanBytes s) with (len (file_of ls)) by lia.
    unfold len. rewrite Nat2Z.id. apply take_str_app.
  - by constructor.
Qed.

Lemma fallback_wf io s lss ls recs frag :
  wf s lss ls recs frag ->
  exists lss' recs', wf (enterFallback io s) lss' ls recs' frag /\ extends recs recs' /\
    same_config s (enterFallback io s) /\ same_head s (enterFallback io s).
Proof.
  intros Hwf. unfold enterFallback.
  destruct (prune_wf (rotatePrune io) (set_written (rotateBackoffWritten (set_fallback true s)) (set_fallback true s))
              lss ls recs frag) as (lss' & recs' & Hw & Hx & Hc).
  { by apply (wf_ext s). }
  exists lss', recs'. split; [exact Hw|]. split; [done|]. split; [exact Hc|]. unfold pruneRotated. by destruct (prunePass _ _).
Qed.

Lemma swap_wf io s lss ls recs :
  wf s lss ls recs "" ->
  exists lss' ls' recs', wf (swapToFreshBase io s) lss' ls' recs' "" /\ extends recs recs' /\
    same_config s (swapToFreshBase io s) /\ same_head s (swapToFreshBase io s).
Proof.
  intros [Hcl Hac Hre Hch Hta Hhe Hsq Hpr]. unfold swapToFreshBase.
  set (s1 := if closeFails io then add_failure s else s).
  set (s2 := set_written 0 (set_disk (closedFiles s1 ++ [activeFile s1])%list "" s1)).
  assert (wf s2 (lss ++ [ls]) [] recs "") as Hwf2.
  { subst s2 s1. constructor; try (by destruct (closeFails io)).
    - assert ((closedFiles s ++ [activeFile s])%list = map file_of (lss ++ [ls])) as Heq.
      { by rewrite map_app, Hcl, Hac, str_app_nil. }
      by destruct (closeFails io).
    - rewrite List.concat_app. cbn [List.concat]. rewrite !app_nil_r. by destruct (closeFails io). }
  destruct (prune_wf (rotatePrune io) s2 _ _ _ _ Hwf2) as (lss' & recs' & Hw & Hx & Hc).
  exists lss', [], recs'. split; [exact Hw|]. split; [done|]. split.
  - unfold pruneRotated, s2, s1. destruct (prunePass _ _). by destruct (closeFails io).
  - unfold pruneRotated, s2, s1. destruct (prunePass _ _). by destruct (closeFails io).
Qed.

Lemma rotate_wf io s lss ls recs :
  wf s lss ls recs "" ->
  exists lss' ls' recs', wf (rotate io s) lss' ls' recs' "" /\ extends recs recs' /\
    same_config s (rotate io s) /\ same_head s (rotate io s).
Proof.
  intros Hwf. unfold rotate.
  assert (exists lss' ls' recs', wf (snd (rotateAttempt io s)) lss' ls' recs' "" /\ extends recs recs' /\
    same_config s (snd (rotateAttempt io s)) /\ same_head s (snd (rotateAttempt io s))) as Hr.
  { assert (forall s', wf s' lss ls recs "" -> same_config s s' -> same_head s s' ->
      exists lss' ls' recs', wf s' lss' ls' recs' "" /\ extends recs recs' /\ same_config s s' /\ same_head s s') as Hstay.
    { intros s' ? ? ?. exists lss, ls, recs. split; [done|]. split; [by intros ?|]. done. }
    unfold rotateAttempt, retryRotateReopen. repeat case_match; cbn [snd];
      try (apply Hstay; [by apply (wf_ext s) | done | done]).
    - destruct (swap_wf io (set_fallback false s) lss ls recs) as (lss' & ls' & recs' & ?); [by apply (wf_ext s)|].
      by exists lss', ls', recs'.
    - destruct (fallback_wf io (add_failure s) lss ls recs "") as (lss' & recs' & ?); [by apply (wf_ext s)|].
      by exists lss', ls, recs'.
    - destruct (fallback_wf io s lss ls recs "") as (lss' & recs' & ?); [done|]. by exists lss', ls, recs'.
    - exact (swap_wf io s lss ls recs Hwf). }
  destruct (rotateAttempt io s) as [stalled s']. cbn [snd] in Hr. destruct Hr as (lss' & ls' & recs' & Hw & Hr).
  exists lss', ls', recs'. split; [by apply (wf_ext s')|]. exact Hr.
Qed.

(** Appending the line of a record that continues the chain. *)
Lemma append_wf io s rec' l r lss ls recs :
  wf s lss ls recs "" -> tailOrphanBytes s = 0 -> good_rec (skeyID s) (skey s) l r ->
  linked (tip None recs) r = true -> Seq rec' = Seq r -> HMAC rec' = HMAC r ->
  exists ls' recs' frag', wf (appendLine io rec' (l ++ String newline "") s) lss ls' recs' frag' /\
    same_config s (appendLine io rec' (l ++ String newline "") s).
Proof.
  intros Hwf Ho Hg Hl Hs Hh. destruct Hwf as [Hcl Hac Hre Hch Hta Hhe Hsq Hpr]. rewrite str_app_nil in Hac.
  unfold appendLine. set (line := l ++ String newline "").
  set (n := Nat.min (writeBytes io) (String.length line)).
  assert (String.length line = String.length l + 1)%nat as Hll by (unfold line; rewrite str_length_app; cbn; lia).
  destruct (writeFails io || (n <? String.length line)%nat) eqn:Hf.
  - destruct (0 <? n)%nat eqn:Hn.
    + apply Nat.ltb_lt in Hn.
      set (s1 := set_orphan (Z.of_nat n) (set_written _ _)).
      assert (wf s1 lss ls recs (take_str n line)) as Hw1.
      { constructor; try done.
        - cbn [activeFile s1 set_orphan set_written set_disk]. by rewrite Hac.
        - apply (tail_orphan _ _ _ _ l r n); try done. unfold n in *. lia. }
      pose proof (repair_wf (secondRepair io) s1 lss ls recs _ Hw1) as Hr.
      destruct (repairTailOrphan (secondRepair io) s1) as [[|] s2]; destruct Hr as (Hc & _ & Hr); cbn [snd].
      * exists ls, recs, "". unfold warnedFailure. split; [destruct Hr; case_match; by apply (wf_ext s2)|]. by case_match.
      * exists ls, recs, (take_str n line). subst s2. unfold warnedFailure.
        split; [case_match; by apply (wf_ext s1)|]. by case_match.
    + apply Nat.ltb_ge in Hn. exists ls, recs, "". assert (n = O) as -> by lia.
      set (s0 := set_written _ _).
      assert (wf s0 lss ls recs "") as Hw1.
      { constructor; try done. cbn [s0 activeFile set_written set_disk take_str]. by rewrite Hac. }
      unfold warnedFailure. split; [case_match; by apply (wf_ext s0)|]. by case_match.
  - apply orb_false_elim in Hf as [_ Hf%Nat.ltb_ge].
    exists (ls ++ [l])%list, (recs ++ [r])%list, "". split; [|done]. pose proof Hg as (Hgl & Hgu & Hgs & [b Hgp] & Hgv).
    constructor; try done.
    + cbn [activeFile set_head set_written set_disk]. rewrite Hac, file_of_snoc, str_app_nil.
      assert (n = String.length line) as -> by lia. f_equal. pose proof (take_str_app line "") as Ht. by rewrite str_app_nil in Ht.
    + rewrite app_assoc. apply Forall2_app; [done|]. constructor; [|constructor]. exact Hg.
    + rewrite chained_app, Hch. cbn [chained]. by rewrite Hl.
    + by constructor.
    + rewrite tip_snoc. cbn [heads seq sPrevHMAC set_head]. rewrite Hs, Hh. split_and!; try done.
      rewrite Hgp. apply recordMAC_plain.
    + cbn [seq set_head]. lia.
    + cbn [sPrevHMAC set_head]. rewrite Hh. right. by exists (skey s), b.
Qed.

(** Every write keeps the invariant, whatever the system calls do. *)
Lemma write_wf io rec s lss ls recs frag :
  configured s -> stampable s rec ->
  (forall rec' line, sign s rec = Some (rec', line) -> len line <= maxLine) ->
  wf s lss ls recs frag ->
  exists lss' ls' recs' frag', wf (writeRecord io rec s) lss' ls' recs' frag' /\ same_config s (writeRecord io rec s).
Proof.
  intros Hcfg Hst Hfit Hwf. unfold writeRecord.
  assert (forall s', wf s' lss ls recs frag -> same_config s s' ->
    exists lss' ls' recs' frag', wf (warnedFailure s') lss' ls' recs' frag' /\ same_config s (warnedFailure s')) as Hfail.
  { intros s' Hw Hc. exists lss, ls, recs, frag. unfold warnedFailure. split; [case_match; by apply (wf_ext s')|]. by case_match. }
  destruct (Z.eqb_spec (seq s) (two64 - 1)) as [|Hseq]; [by apply Hfail|].
  destruct (sign s rec) as [[rec' line]|] eqn:Hsign.
  2: { exists lss, ls, recs, frag. split; [by apply (wf_ext s)|done]. }
  assert (len line <= maxLine) as Hlen by (by eapply Hfit).
  destruct (sign_good s rec rec' line (tip None recs) Hcfg Hst) as (l & r & -> & Hg & Hl & _ & Hs & Hh);
    try done; try apply Hwf; [destruct Hwf; lia|].
  pose proof (repair_wf (firstRepair io) s lss ls recs frag Hwf) as Hrep.
  assert (exists clean s1, (if 0 <? tailOrphanBytes s then repairTailOrphan (firstRepair io) s else (true, s)) = (clean, s1) /\
    same_config s s1 /\ if clean : bool then wf s1 lss ls recs "" /\ tailOrphanBytes s1 = 0 else wf s1 lss ls recs frag)
    as (clean & s1 & -> & Hc1 & Hw1).
  { destruct (Z.ltb_spec 0 (tailOrphanBytes s)) as [|Hz].
    - destruct (repairTailOrphan (firstRepair io) s) as [[|] s1]; destruct Hrep as (Hc & _ & Hr);
        [by exists true, s1 | exists false, s1]. by rewrite Hr.
    - exists true, s. pose proof (wf_tail _ _ _ _ _ Hwf) as Ht. pose proof (tail_length _ _ _ _ _ Ht) as Hlf.
      pose proof (len_nonneg frag). split; [done|]. split; [done|]. assert (tailOrphanBytes s = 0) as Hz0 by lia. split; [|done].
      destruct frag; [done|]. unfold len in Hlf. cbn in Hlf. lia. }
  destruct clean; cbn [negb]; [|by apply Hfail]. destruct Hw1 as [Hw1 Ho1].
  assert (exists lss2 ls2 recs2,
    wf (if maxBytes s1 <? written s1 + len (l ++ String newline "") then rotate (rotation io) s1 else s1) lss2 ls2 recs2 "" /\
    extends recs recs2 /\
    same_config s1 (if maxBytes s1 <? written s1 + len (l ++ String newline "") then rotate (rotation io) s1 else s1))
    as (lss2 & ls2 & recs2 & Hw2 & Hx2 & Hc2).
  { destruct (maxBytes s1 <? written s1 + len (l ++ String newline "")).
    - destruct (rotate_wf (rotation io) s1 lss ls recs Hw1) as (lss' & ls' & recs' & Hw & Hx & Hc & _). by exists lss', ls', recs'.
    - exists lss, ls, recs. split; [done|]. split; [by intros ?|done]. }
  generalize dependent (if maxBytes s1 <? written s1 + len (l ++ String newline "") then rotate (rotation io) s1 else s1).
  intros s2 Hw2 Hc2.
  destruct (append_wf io s2 rec' l r lss2 ls2 recs2) as (ls' & recs' & frag' & Hw & Hc); try done.
  - pose proof (tail_length _ _ _ _ _ (wf_tail _ _ _ _ _ Hw2)) as Ht. done.
  - destruct Hc1 as (Hk1 & Hi1 & _), Hc2 as (Hk2 & Hi2 & _). by rewrite Hi2, Hk2, Hi1, Hk1.
  - by apply Hx2.
  - exists lss2, ls', recs', frag'. split; [done|].
    destruct Hc1 as (? & ? & ?), Hc2 as (? & ? & ?), Hc as (? & ? & ?). split_and!; congruence.
Qed.

End recovery.
End AuditRecovery.
