(* ===== verification/AuditRecord.v ===== *)
(** * From a decision to an audit record

    internal/audit/audit.go, the caller's side of the sink: [Sink.Record] with the bounds it
    puts on every field before the record is queued.  The writer signs what this makes, so
    its text must survive decoding and encoding again ([AuditVerify.encodable]): the fields a
    client, a token or a policy decision point controls are normalized to UTF-8 and cut here,
    the details are marshalled once, and the rest is constants and what the caller bounded.

    The marshalling of a details map and of a list of strings is encoding/json's, a parameter.
    A map is its entries.  The clock, the request-id generator, the identity and the
    negotiated revision on the context are given by the environment of a call. *)
From stdpp Require Import base tactics list gmap strings.
From Stdlib Require Import ZArith Lia Ascii String.
From S2P Require Import Prelude GoStrings Truncate Capability AuditVerify AuditWriter AuditRecovery.
#[local] Open Scope string_scope.
#[local] Open Scope Z_scope.
#[local] Arguments String.append : simpl nomatch.
Import Truncate Capability.

(** [json.Marshal] of a map of details and of a list of strings. *)
Class DetailsEncoder := {
  MarshalMap : list (string * value) -> option string;
  MarshalStrings : list string -> option string;
}.

Module AuditRecord.
Import AuditVerify AuditWriter AuditRecovery.

(** ** Caps *)

Definition auditDetailValueCap : Z := 524288.
Definition auditDetailsTotalCap : Z := 1048576.
Definition auditObligationsTotalCap : Z := 65536.
Definition auditLabelsTotalCap : Z := 65536.
Definition auditEnvelopeFieldCap : Z := 8192.
Definition auditSessionIDCap : Z := 256.
Definition TruncatedKey : string := "_eunox_truncated".
Definition auditTruncReasonOverCap : string := "over_total_cap".
Definition auditTruncReasonNotSerializable : string := "not_serializable".
Definition DecisionEscalate : string := "escalate".

Definition boundFieldTo (s : string) (limit : Z) : string := BoundString s limit.
Definition BoundEnvelopeField (s : string) : string := boundFieldTo s auditEnvelopeFieldCap.

(** ** Details *)

Definition overCapPlaceholder (n : Z) : string :=
  "[eunox: omitted " ++ itoa n ++ "-byte value exceeding the " ++ itoa auditDetailValueCap ++ "-byte audit detail cap]".

(** [base64.StdEncoding.EncodedLen]. *)
Definition EncodedLen (n : Z) : Z := (n + 2) / 3 * 4.

Definition boundText (s : string) : string :=
  if auditDetailValueCap <? len s then overCapPlaceholder (len s) else s.

Fixpoint cloneAndBound (v : value) : value :=
  match v with
  | VString s => VString (boundText s)
  | VNumber n => if auditDetailValueCap <? len n then VString (overCapPlaceholder (len n)) else v
  | VObject m => VObject ((fix each (m : list (string * value)) :=
      match m with [] => [] | (k, e) :: m => (k, cloneAndBound e) :: each m end) m)
  | VArray l => VArray ((fix each (l : list value) :=
      match l with [] => [] | e :: l => cloneAndBound e :: each l end) l)
  | VStrings l => VStrings (map boundText l)
  | VBytes s =>
      if auditDetailValueCap <? EncodedLen (len s) then VString (overCapPlaceholder (EncodedLen (len s))) else v
  | VNull | VBool _ | VInt _ | VFloat _ => v
  end.

Section record.
Context `{AuditCodec} `{DetailsEncoder}.

(** The constant for a marker that does not marshal. *)
Definition truncationFallback : string :=
  "{" ++ dquote ++ TruncatedKey ++ dquote ++ ":{" ++ dquote ++ "reason" ++ dquote ++ ":" ++ dquote
  ++ auditTruncReasonNotSerializable ++ dquote ++ "}}".

Definition marshalTruncationMarker (info : list (string * value)) : string :=
  default truncationFallback (MarshalMap [(TruncatedKey, VObject info)]).

Definition marshalAndBoundDetails (m : list (string * value)) : string :=
  match m with
  | [] => ""
  | _ =>
      match MarshalMap (map (fun '(k, v) => (k, cloneAndBound v)) m) with
      | None => marshalTruncationMarker [("reason", VString auditTruncReasonNotSerializable)]
      | Some encoded =>
          if auditDetailsTotalCap <? len encoded then
            marshalTruncationMarker [("reason", VString auditTruncReasonOverCap);
              ("bytes", VInt (len encoded)); ("cap", VInt auditDetailsTotalCap)]
          else encoded
      end
  end.

(** ** Lists of strings *)

Record boundedList := mkBoundedList { bl_cap : Z; kind : string }.
Definition obligationsList : boundedList := mkBoundedList auditObligationsTotalCap "obligations".
Definition labelsList : boundedList := mkBoundedList auditLabelsTotalCap "labels".

Definition sentinel (b : boundedList) (omitted : Z) : string := kind b ++ "_truncated:" ++ itoa omitted.

Definition plainASCIIJSON (s : string) : bool :=
  str_forall (fun c => let n := nat_of_ascii c in
    negb ((n <? 32)%nat || (127 <=? n)%nat || existsb (Nat.eqb n) [34; 92; 60; 62; 38]%nat)) s.

Definition jsonEncodedStringLen (s : string) : Z :=
  if plainASCIIJSON s then len s + 2
  else match MarshalString s with Some b => len b | None => len s * 6 + 2 end.

(** The cheap bound, cut off once it is past the cap. *)
Fixpoint upperBound (cap upper : Z) (items : list string) : Z :=
  match items with
  | [] => upper
  | o :: items =>
      let upper := upper + (len o * 6 + 2 + 1) in
      if cap <? upper then upper else upperBound cap upper items
  end.

Fixpoint fitsExactly (cap total : Z) (items : list string) : bool :=
  match items with
  | [] => true
  | o :: items =>
      let total := total + (jsonEncodedStringLen o + 1) in
      if cap <? total then false else fitsExactly cap total items
  end.

(** The kept entries and the sentinel, entries dropped from the end until it fits. *)
Fixpoint truncateList (fuel : nat) (b : boundedList) (kept : list string) (total : Z) : list string :=
  let result := (kept ++ [sentinel b (total - Z.of_nat (List.length kept))])%list in
  match MarshalStrings result with
  | Some encoded =>
      if len encoded <=? bl_cap b then result
      else match fuel, kept with
           | S fuel, _ :: _ => truncateList fuel b (removelast kept) total
           | _, _ => result
           end
  | None => match fuel, kept with
            | S fuel, _ :: _ => truncateList fuel b (removelast kept) total
            | _, _ => result
            end
  end.

(** The prefix that fits, with room for the sentinel of the entries from this one on. *)
Fixpoint keepLoop (b : boundedList) (total used : Z) (kept items : list string) : list string :=
  match items with
  | [] => kept
  | o :: items' =>
      let enc := jsonEncodedStringLen o + 1 in
      let reserve := jsonEncodedStringLen (sentinel b (Z.of_nat (List.length items))) + 1 in
      if bl_cap b <? used + enc + reserve then truncateList (List.length kept) b kept total
      else keepLoop b total (used + enc) (kept ++ [o])%list items'
  end.

Definition bound (b : boundedList) (items : list string) : list string :=
  match items with
  | [] => items
  | _ =>
      if upperBound (bl_cap b) 1 items <=? bl_cap b then items
      else if fitsExactly (bl_cap b) 1 items then items
      else keepLoop b (Z.of_nat (List.length items)) 1 [] items
  end.

Definition boundAuditObligations (obligs : list string) : list string := bound obligationsList obligs.
Definition boundAuditLabels (labels : list string) : list string := bound labelsList labels.

(** ** The target *)

Definition bareTargetName (ty identifier : string) : string :=
  if String.eqb ty TargetTypePrompt then
    if has_prefix identifier "prompts/" then drop_str 8 identifier else identifier
  else identifier.

(** The method, the target type and the target. *)
Definition deriveTargetFields (method identifier : string) : string * string * string :=
  if String.eqb method "" then ("", "", "")
  else
    match MethodTargetType method with
    | None => (BoundEnvelopeField method, "", "")
    | Some ty =>
        let target := BoundEnvelopeField (bareTargetName ty identifier) in
        if String.eqb target "" then (method, "", "") else (method, ty, target)
    end.

(** ** Record *)

Definition publishedRevisions : list string := ["2025-11-25"; "2026-07-28"].

(** The revision on the context, when it is a published one. *)
Definition protocolRevision (rev : string) : string := if one_of rev publishedRevisions then rev else "".

Record Identity := mkIdentity { idAgentID : string; idTaskID : string; idUserID : string; idTokenID : string }.

Record RecordParams := mkParams {
  pUpstream : string;
  pPolicyVersion : string;
  pPolicySHA256 : string;
  pSessionID : string;
  pIdentifier : string;
  pMethod : string;
  pDecision : string;
  pDenialCode : string;
  pConditionType : string;
  pDetails : list (string * value);
  pObligations : list string;
  pAuditOnly : bool;
  pLabelsOut : list string;
  pCarriedLabels : list string;
}.

(** What the environment gives one call: the formatted instant, the request id, the identity
    when the sink resolves one, and the revision on the context. *)
Record record_env := mkRecordEnv {
  eTime : string;
  eRequestID : string;
  eIdentity : option Identity;
  eRevision : string;
}.

(** The record that is queued; its chain fields are set by the writer. *)
Definition record (s : Sink) (env : record_env) (p : RecordParams) : auditRecord :=
  let decision :=
    if String.eqb (pDenialCode p) ErrCodeEscalationRequired && String.eqb (pDecision p) "deny"
    then DecisionEscalate else pDecision p in
  let activityID := if String.eqb decision "deny" || String.eqb decision DecisionEscalate then 2 else 1 in
  let '(mcpMethod, targetType, target) := deriveTargetFields (pMethod p) (pIdentifier p) in
  let field f := match eIdentity env with Some id => boundFieldTo (f id) auditEnvelopeFieldCap | None => "" end in
  mkAudit 6003 6 activityID (eTime env) 0 (eRequestID env) (boundFieldTo (pSessionID p) auditSessionIDCap)
    (field idAgentID) (field idTaskID) (field idUserID) (field idTokenID)
    (pep s) (pUpstream p) (pPolicyVersion p) (pPolicySHA256 p)
    targetType target mcpMethod decision (pAuditOnly p)
    (boundFieldTo (pDenialCode p) auditEnvelopeFieldCap) (boundFieldTo (pConditionType p) auditEnvelopeFieldCap)
    (marshalAndBoundDetails (pDetails p)) (boundAuditObligations (pObligations p))
    (boundAuditLabels (pLabelsOut p)) (boundAuditLabels (pCarriedLabels p))
    (protocolRevision (eRevision env)) (skeyID s) "" "".

Definition RecordAllow (s : Sink) (env : record_env) (sessionID identifier method : string)
    (details : list (string * value)) (obligs : list string) (auditOnly : bool)
    (labelsOut carriedLabels : list string) : auditRecord :=
  record s env (mkParams "" "" "" sessionID identifier method "allow" "" "" details obligs auditOnly labelsOut carriedLabels).

Definition RecordDeny (s : Sink) (env : record_env) (sessionID identifier method denialCode condType : string)
    (details : list (string * value)) (observe : bool) : auditRecord :=
  record s env (mkParams "" "" "" sessionID identifier method "deny" denialCode condType details [] observe [] []).

End record.

(** ** What is recorded survives encoding *)

(** How deep a details value nests. *)
Fixpoint nesting (v : value) : Z :=
  match v with
  | VObject m => 1 + (fix each (m : list (string * value)) := match m with [] => 0 | (_, e) :: m => Z.max (nesting e) (each m) end) m
  | VArray l => 1 + (fix each (l : list value) := match l with [] => 0 | e :: l => Z.max (nesting e) (each l) end) l
  | VStrings _ => 1
  | _ => 0
  end.

Fixpoint members_nesting (m : list (string * value)) : Z :=
  match m with [] => 0 | (_, e) :: m => Z.max (nesting e) (members_nesting m) end.

Lemma clone_nesting v : nesting (cloneAndBound v) = nesting v.
Proof.
  induction v as [| | | | | | | |l IH|l IH] using value_tree_ind; try done.
  - cbn [cloneAndBound]. by case_match.
  - cbn [cloneAndBound]. by case_match.
  - cbn [cloneAndBound nesting]. f_equal. induction IH as [|v l Hv _ IH]; [done|]. by rewrite Hv, IH.
  - cbn [cloneAndBound nesting]. f_equal. induction IH as [|[k v] l Hv _ IH]; [done|]. cbn in Hv. by rewrite Hv, IH.
Qed.

Lemma clone_members m : members_nesting (map (fun '(k, v) => (k, cloneAndBound v)) m) = members_nesting m.
Proof. induction m as [|[k v] m IH]; [done|]. cbn [map members_nesting]. by rewrite clone_nesting, IH. Qed.

Lemma MethodTargetType_text method ty : MethodTargetType method = Some ty -> Valid method /\ Valid ty.
Proof.
  unfold MethodTargetType, one_of. cbn [existsb].
  repeat match goal with |- context [String.eqb method ?c] =>
    destruct (String.eqb_spec method c) as [->|_]; [intros [= <-]; split; by apply Valid_ascii|] end. done.
Qed.

Section laws.
Context `{AuditCodec} `{DetailsEncoder}.

(** encoding/json writes a map as UTF-8 text, one level around its values. *)
Class DetailsLaws : Prop := {
  marshal_map_text : forall m e, MarshalMap m = Some e ->
    Valid e /\ json_depth false false 0 e <= 1 + members_nesting m;
}.

Context {DL : DetailsLaws}.

Definition recordable (e : string) : Prop := Valid e /\ json_depth false false 0 e < maxNestingDepth.

Lemma truncationMarker_ok info : members_nesting info < 9998 -> recordable (marshalTruncationMarker info).
Proof.
  intros Hi. unfold marshalTruncationMarker, recordable, maxNestingDepth. destruct (MarshalMap _) as [e|] eqn:E; cbn [default id].
  - apply marshal_map_text in E as [Hv Hd]. split; [done|]. cbn [members_nesting nesting] in Hd.
    assert ((fix each (m : list (string * value)) := match m with [] => 0 | (_, e) :: m => Z.max (nesting e) (each m) end) info
      = members_nesting info) as Em by (clear; induction info as [|[k v] info IH]; [done | by rewrite IH]).
    rewrite Em in Hd. lia.
  - split; [by apply Valid_ascii | by vm_compute].
Qed.

Lemma details_ok m : members_nesting m < 9999 -> recordable (marshalAndBoundDetails m).
Proof.
  intros Hm. unfold marshalAndBoundDetails. destruct m as [|x m]; [split; [constructor | by vm_compute]|].
  destruct (MarshalMap _) as [e|] eqn:E; [| by apply truncationMarker_ok].
  case_match; [by apply truncationMarker_ok|]. apply marshal_map_text in E as [Hv Hd]. split; [done|].
  rewrite clone_members in Hd. unfold maxNestingDepth. lia.
Qed.

Lemma sentinel_valid b n : Valid (kind b) -> Valid (sentinel b n).
Proof.
  intros Hk. unfold sentinel. apply Valid_app; [done|]. apply Valid_app; [by apply Valid_ascii|].
  apply Valid_ascii. apply itoa_ascii.
Qed.

Lemma truncateList_valid fuel b : Valid (kind b) -> forall kept total,
  Forall Valid kept -> Forall Valid (truncateList fuel b kept total).
Proof.
  intros Hk. induction fuel as [|fuel IH]; intros kept total Hkept; cbn [truncateList];
    pose proof (sentinel_valid b (total - Z.of_nat (List.length kept)) Hk) as Hs;
    assert (Forall Valid (kept ++ [sentinel b (total - Z.of_nat (List.length kept))])) as Hr
      by (apply Forall_app; by split; [| constructor]);
    assert (Forall Valid (removelast kept)) as Hl
      by (clear -Hkept; induction Hkept as [|x [|y l] Hx Hl IHl]; [done | done | by constructor]);
    repeat case_match; auto.
Qed.

Lemma keepLoop_valid b total items : Valid (kind b) -> forall used kept,
  Forall Valid kept -> Forall Valid items -> Forall Valid (keepLoop b total used kept items).
Proof.
  intros Hk. induction items as [|o items IH]; intros used kept Hkept Hi; cbn [keepLoop]; [done|].
  case_match; [by apply truncateList_valid|]. apply Forall_cons in Hi as [Ho Hi]. apply IH; [| done].
  apply Forall_app. by split; [| constructor].
Qed.

Lemma bound_valid b items : Valid (kind b) -> Forall Valid items -> Forall Valid (bound b items).
Proof.
  intros Hk Hi. unfold bound. destruct items as [|o items]; [done|]. repeat case_match; try done.
  by apply keepLoop_valid.
Qed.

Lemma field_valid s limit : 0 <= limit -> Valid (boundFieldTo s limit).
Proof. intros Hl. apply (BoundString_fits s limit Hl). Qed.

Lemma target_fields_valid method identifier :
  let '(m, ty, target) := deriveTargetFields method identifier in Valid m /\ Valid ty /\ Valid target.
Proof.
  unfold deriveTargetFields. destruct (String.eqb method ""); [repeat split; constructor|].
  destruct (MethodTargetType method) as [ty|] eqn:E.
  - apply MethodTargetType_text in E as [Hm Ht].
    destruct (String.eqb (BoundEnvelopeField _) ""); (split; [done|split]); [constructor | constructor | done |].
    by apply field_valid.
  - split; [by apply field_valid | split; constructor].
Qed.

(** What a caller of [Sink.Record] has bounded before: the route's provenance
    ([BoundEnvelopeField] at its construction), the decision, the policy's own labels and
    obligations, and details that nest as a request's arguments may. *)
Record caller_ok (env : record_env) (p : RecordParams) : Prop := mkCallerOk {
  co_time : isPlainJSONString (eTime env) = true /\ is_Some (ParseTime (eTime env));
  co_request : Valid (eRequestID env);
  co_route : Valid (pUpstream p) /\ Valid (pPolicyVersion p) /\ Valid (pPolicySHA256 p);
  co_decision : Valid (pDecision p);
  co_lists : Forall Valid (pObligations p) /\ Forall Valid (pLabelsOut p) /\ Forall Valid (pCarriedLabels p);
  co_details : members_nesting (pDetails p) < 9999;
}.

(** Whatever bytes the client, the token and the decision point put in, the record is one
    the writer can sign and the verifier reads back. *)
Theorem recorded_is_stampable s env p :
  configured s -> caller_ok env p -> stampable s (record s env p).
Proof.
  intros Hc [[Ht Hp] Hr (Hu & Hv & Hsha) Hd (Ho & Hl & Hcl) Hn]. pose proof (cfg_pep s Hc) as Hpep.
  pose proof (target_fields_valid (pMethod p) (pIdentifier p)) as Hm.
  pose proof (details_ok _ Hn) as [Hdv Hdd].
  unfold record. destruct (deriveTargetFields _ _) as [[m ty] target]. destruct Hm as (Hm & Hty & Htg).
  split_and!; try done. split; [| split_and!; [done | done | cbn; repeat case_match; done | done]].
  assert (forall f : Identity -> string, Valid (match eIdentity env with Some id => boundFieldTo (f id) auditEnvelopeFieldCap | None => "" end)) as Hid.
  { intros f. destruct (eIdentity env); [by apply field_valid | constructor]. }
  assert (Valid (protocolRevision (eRevision env))) as Hrev.
  { unfold protocolRevision, one_of. cbn [existsb publishedRevisions].
    repeat match goal with |- context [String.eqb ?a ?c] => destruct (String.eqb_spec a c) as [->|_] end;
      cbn [orb]; by apply Valid_ascii. }
  assert (Valid (if String.eqb (pDenialCode p) ErrCodeEscalationRequired && String.eqb (pDecision p) "deny"
    then DecisionEscalate else pDecision p)) as Hdec by (destruct (_ && _); [by apply Valid_ascii | done]).
  unfold record_texts. cbn [RequestID SessionID AgentID TaskID UserID TokenID PEP Upstream PolicyVersion PolicySHA256
    TargetType Target Method AuditVerify.Decision DenialCode ConditionType Details ProtocolRevision Obligations LabelsOut CarriedLabels app].
  repeat (constructor; [first [done | by apply field_valid | apply Hid] |]).
  repeat (apply Forall_app; split); (apply bound_valid; [by apply Valid_ascii | done]).
Qed.

End laws.
End AuditRecord.
