(* ===== verification/AuditRuns.v ===== *)
(** * Whole runs of the audit writer

    Startup after a crash restores the invariant of the writer (AuditRecovery.v), so that after
    any run of writes, faults and restarts the verifier accepts what is on disk. *)
From stdpp Require Import base tactics list gmap strings.
From Stdlib Require Import ZArith Lia Ascii String.
From S2P Require Import Prelude GoStrings Truncate AuditVerify AuditWriter AuditRecovery.
#[local] Open Scope string_scope.
#[local] Open Scope Z_scope.
#[local] Open Scope go_scope.
#[local] Arguments String.append : simpl nomatch.
Import Truncate.

Module AuditRuns.
Import AuditVerify AuditWriter AuditRecovery.

Section runs.
Context `{L : AuditCodecLaws}.

(** ** The disk *)

(** Whole lines that make a chain, then the beginning of a line. *)
Record on_disk (s : Sink) (lss : list (list string)) (ls : list string) (recs : list auditRecord) (frag : string)
    : Prop := mkOnDisk {
  od_closed : closedFiles s = map file_of lss;
  od_active : activeFile s = file_of ls ++ frag;
  od_recs : Forall2 (good_rec (skeyID s) (skey s)) (List.concat lss ++ ls) recs;
  od_chain : chained None recs = true;
  od_torn : torn_end frag;
}.

Lemma on_disk_lines s lss ls recs frag :
  on_disk s lss ls recs frag -> Forall (Forall good_line) lss /\ Forall good_line ls.
Proof.
  intros [_ _ Hr _ _]. apply good_recs_lines in Hr. apply Forall_app in Hr as [Hc Hl]. split; [|done].
  clear -Hc. induction lss as [|a lss IH]; [done|]. cbn in Hc. apply Forall_app in Hc as [Ha Hc]. constructor; [done|by apply IH].
Qed.

(** A fragment of a signed record is a torn line, or the whole record. *)
Lemma wf_on_disk s lss ls recs frag :
  wf s lss ls recs frag -> exists ls' recs' frag', on_disk s lss ls' recs' frag'.
Proof.
  intros [Hcl Hac Hre Hch Hta Hhe Hsq Hpr]. destruct Hta as [|l r n Hg Hl Hn Ho].
  - exists ls, recs, "". constructor; try done. by left.
  - destruct (decide (n = String.length l + 1)%nat) as [->|Hne].
    + exists (ls ++ [l])%list, (recs ++ [r])%list, "". constructor; try done.
      * rewrite Hac, file_of_snoc, str_app_nil. f_equal.
        replace (String.length l + 1)%nat with (String.length (l ++ String newline "")) by (rewrite str_length_app; cbn; lia).
        pose proof (take_str_app (l ++ String newline "") "") as Ht. by rewrite str_app_nil in Ht.
      * rewrite app_assoc. apply Forall2_app; [done|]. by constructor.
      * rewrite chained_app, Hch. cbn [chained]. by rewrite Hl.
      * by left.
    + exists ls, recs, (take_str n l). constructor; try done.
      * rewrite Hac. f_equal. apply take_str_app_le. lia.
      * right. exists l. split; [apply Hg|]. split.
        -- intros E%(f_equal String.length). rewrite take_str_length in E. cbn in E. lia.
        -- exists (drop_str n l). by rewrite take_drop_str.
Qed.

Lemma torn_end_take k frag : torn_end frag -> torn_end (take_str k frag).
Proof.
  intros [->|(l & Hl & _ & r & Hr)]; [left; by destruct k|].
  destruct (decide (take_str k frag = "")) as [|Hne]; [by left|]. right. exists l. split; [done|]. split; [done|].
  exists (drop_str k frag ++ r). by rewrite Hr, <- str_app_assoc, take_drop_str.
Qed.

(** Any prefix of the active file is whole lines of it and a torn end. *)
Lemma take_active k ls frag :
  Forall good_line ls -> torn_end frag ->
  exists ls' ls'' frag', ls = (ls' ++ ls'')%list /\ take_str k (file_of ls ++ frag) = file_of ls' ++ frag' /\ torn_end frag'.
Proof.
  intros Hls Hf. destruct (decide (k <= String.length (file_of ls))%nat) as [Hk|Hk].
  - rewrite take_str_app_le by done. by apply take_file.
  - exists ls, [], (take_str (k - String.length (file_of ls)) frag). rewrite app_nil_r. split; [done|].
    split; [|by apply torn_end_take].
    replace k with (String.length (file_of ls) + (k - String.length (file_of ls)))%nat at 1 by lia. apply take_str_app_ge.
Qed.

(** The active file ends at a record boundary. *)
Definition boundary (c : string) : bool := String.eqb c "" || has_suffix c (String newline "").

Lemma boundary_whole ls frag : torn_end frag -> boundary (file_of ls ++ frag) = true -> frag = "".
Proof.
  intros Hf Hb. destruct (decide (frag = "")) as [|Hne]; [done|]. exfalso.
  destruct (torn_end_fragment frag Hf) as [Hn _]. unfold boundary in Hb.
  rewrite has_suffix_newline_frag, orb_false_r in Hb by done. apply String.eqb_eq in Hb.
  apply (f_equal String.length) in Hb. rewrite str_length_app in Hb. destruct frag; cbn in Hb; [done|lia].
Qed.

(** A crash while the descriptor is on a rotated file must not tear its last record: nothing at
    the next start looks at that file's end. *)
Definition clean_cut (cut : nat) (s : Sink) : Prop :=
  inFallback s = true -> boundary (take_str cut (activeFile s)) = true.

Lemma crash_on_disk cut s lss ls recs frag :
  on_disk s lss ls recs frag -> clean_cut cut s ->
  exists lss' ls' recs' frag', on_disk (crash cut s) lss' ls' recs' frag'.
Proof.
  intros Hod Hcut. destruct (on_disk_lines _ _ _ _ _ Hod) as [_ Hls]. destruct Hod as [Hcl Hac Hre Hch Hto].
  unfold clean_cut in Hcut. rewrite Hac in Hcut. unfold crash. rewrite Hac.
  destruct (take_active cut ls frag Hls Hto) as (ls' & ls'' & frag' & -> & Ht & Hf). rewrite Ht in *.
  rewrite app_assoc in Hre. apply Forall2_app_inv_l in Hre as (ra & rb & Ha & _ & ->).
  rewrite chained_app in Hch. apply andb_true_iff in Hch as [Hch _].
  destruct (inFallback s).
  - pose proof (boundary_whole ls' frag' Hf (Hcut eq_refl)) as ->. rewrite str_app_nil in *.
    exists (lss ++ [ls'])%list, [], ra, "". constructor; try done.
    + cbn [closedFiles set_disk]. by rewrite Hcl, map_app.
    + rewrite List.concat_app. cbn [List.concat]. by rewrite !app_nil_r.
  - exists lss, ls', ra, frag'. by constructor.
Qed.

(** ** Startup *)

(** The start can read what is on disk. *)
Definition reads_ok (io : open_io) : Prop :=
  readable io = true /\ dirFails io = false /\ forallb negb (siblingFails io) = true.

(** The recovery of the tail leaves the file alone and fails, or leaves its whole lines. *)
Lemma truncate_cases io ls frag :
  Forall good_line ls -> fragment frag ->
  (exists e, truncatePartialTail auditScanBufferBytes io (file_of ls ++ frag) = (file_of ls ++ frag, Err e)) \/
  truncatePartialTail auditScanBufferBytes io (file_of ls ++ frag) = (file_of ls, Ok (len frag, List.last ls "")).
Proof.
  intros Hls Hf. destruct (statFails io) eqn:Hst.
  { left. exists errAuditTailProbe. unfold truncatePartialTail. by rewrite Hst. }
  destruct (truncateFails io) eqn:Htr; [|right; by apply truncate_tail].
  pose proof (truncate_tail (mkRepairIO false false) ls frag Hls Hf eq_refl eq_refl) as Ht.
  unfold truncatePartialTail in *. rewrite Hst, Htr. cbn [statFails truncateFails] in Ht.
  destruct (String.eqb (file_of ls ++ frag) ""); [by right|].
  destruct (_ || _); [by right|]. destruct (lastNewline _); [left; by eexists|].
  destruct (0 <? _); left; by eexists.
Qed.

Lemma last_good ls : Forall good_line ls -> String.eqb (List.last ls "") "" = bool_decide (ls = []).
Proof.
  intros Hls. destruct (decide (ls = [])) as [->|Hne]; [done|]. rewrite bool_decide_false by done.
  destruct (exists_last Hne) as (a & l & ->). apply Forall_app in Hls as [_ [Hl _]%Forall_cons].
  rewrite List.last_last. by apply good_nonempty.
Qed.

(** The tail the chain resumes from is the last line of all the files. *)
Lemma resolve_whole io s lss ls :
  Forall (Forall good_line) lss -> Forall good_line ls -> reads_ok io -> closedFiles s = map file_of lss ->
  resolveStartupResume io true (List.last ls "") s =
  (mkStartup (List.last (List.concat lss ++ ls) "") false false, s).
Proof.
  intros Hlss Hls (_ & Hd & Hf) Hcl. unfold resolveStartupResume. cbn [negb]. rewrite last_good by done.
  case_bool_decide as Hnil.
  - subst ls. rewrite app_nil_r. unfold newestRotatedSiblingWithTail. rewrite Hd, Hcl, newestTail_whole by done.
    destruct (decide (List.concat lss = [])) as [->|]; done.
  - destruct (exists_last Hnil) as (a & l & ->). by rewrite app_assoc, !List.last_last.
Qed.

(** Resuming onto it heads the chain. *)
Lemma resume_wf s lss ls recs :
  configured s -> on_disk s lss ls recs "" -> tailOrphanBytes s = 0 -> seq s = 0 -> sPrevHMAC s = "" ->
  exists s', resumeChainFromTail (List.last (List.concat lss ++ ls) "") s = (cleanResume, s') /\
    wf s' lss ls recs "" /\ same_config s s'.
Proof.
  intros Hcfg Hod Ho Hsq Hpv. pose proof Hod as [Hcl Hac Hre Hch Hto]. unfold resumeChainFromTail.
  rewrite last_good by (by eapply good_recs_lines). case_bool_decide as Hnil.
  - exists s. split; [done|]. split; [|done]. rewrite Hnil in Hre. apply Forall2_nil_inv_l in Hre as ->.
    constructor; [done|done|by rewrite Hnil|done|by apply tail_clean|intros _; exact Hpv|rewrite Hsq; by split; vm_compute|by left].
  - destruct (exists_last Hnil) as (a & l & Hal). rewrite Hal in Hre |- *. rewrite List.last_last.
    apply Forall2_app_inv_l in Hre as (ra & rb & Ha & Hb & ->).
    apply Forall2_cons_inv_l in Hb as (r & rb' & Hg & Hn & ->). apply Forall2_nil_inv_l in Hn as ->.
    pose proof Hg as (Hgl & Hu & Hgs & [b Hb] & Hv). rewrite Hu.
    destruct (recordMAC_plain (skey s) b) as [_ Hne].
    rewrite (proj2 (String.eqb_neq (HMAC r) "")) by congruence.
    destruct (Hv (as_verifier s) (sVerifyKeys s)) as [_ ->]; [done | by destruct Hcfg|].
    eexists. split; [done|]. split; [|done]. constructor; try done.
    + rewrite Hal. apply Forall2_app; [done|]. by constructor.
    + by constructor.
    + rewrite tip_snoc. split; [done|]. split; [done|]. congruence.
    + cbn [seq set_head]. lia.
    + right. by exists (skey s), b.
Qed.

(** ** Records that fit *)

(** Whatever the head, the signed line of the record is inside the window. *)
Definition fits (rec : auditRecord) : Prop :=
  forall s rec' line, 0 <= seq s < two64 -> mac_shaped (sPrevHMAC s) -> sign s rec = Some (rec', line) ->
    len line <= maxLine.

Definition writable (s : Sink) (rec : auditRecord) : Prop := stampable s rec /\ fits rec.

(** A write of such a record keeps the invariant of an open sink. *)
Definition open_ok (s : Sink) : Prop := configured s /\ exists lss ls recs frag, wf s lss ls recs frag.

Lemma write_ok io rec s : open_ok s -> writable s rec -> open_ok (writeRecord io rec s) /\ same_config s (writeRecord io rec s).
Proof.
  intros [Hcfg (lss & ls & recs & frag & Hwf)] [Hst Hfit].
  destruct (write_wf io rec s lss ls recs frag Hcfg Hst) as (lss' & ls' & recs' & frag' & Hw & Hc); [|done|].
  - intros rec' line Hs. eapply Hfit; [..|exact Hs]; apply Hwf.
  - split; [|done]. split; [by eapply configured_same|]. by exists lss', ls', recs', frag'.
Qed.

(** What the environment of a marker must give. *)
Definition marker_ok (kid : string) (env : marker_env) : Prop :=
  isPlainJSONString (mTime env) = true /\ is_Some (ParseTime (mTime env)) /\
  Valid (mRequestID env) /\ Valid (mDetails env) /\ json_depth false false 0 (mDetails env) < maxNestingDepth /\
  forall s, skeyID s = kid -> fits (syntheticDenyMarker s env).

(** A marker is a record the sink can sign. *)
Lemma marker_writable s kid env :
  configured s -> marker_ok kid env -> skeyID s = kid -> writable s (syntheticDenyMarker s env).
Proof.
  intros Hc (Ht & Hp & Hr & Hd & Hn & Hf) Hk. split; [| by apply Hf]. split; [done|]. split_and!; [done | done |].
  pose proof (cfg_pep s Hc). split; [| split_and!; try done; by vm_compute].
  repeat (constructor; [first [done | constructor | by apply Valid_ascii] |]). constructor.
Qed.

Lemma markers_ok ms kid : forall ios envs s,
  Forall (marker_ok kid) envs -> skeyID s = kid -> open_ok s ->
  open_ok (writeMarkers ms ios envs s) /\ same_config s (writeMarkers ms ios envs s).
Proof.
  induction ms as [|m ms IH]; intros ios envs s He Hk Hs; [by destruct ios, envs|].
  destruct ios as [|io ios], envs as [|env envs]; cbn [writeMarkers]; try done.
  apply Forall_cons in He as [Hm He].
  destruct (write_ok io (syntheticDenyMarker s env) s Hs) as [Ho Hc]; [by apply (marker_writable s kid); [apply Hs | |]|].
  unfold writeIntegrityMarker. destruct (IH ios envs (writeRecord io (syntheticDenyMarker s env) s) He) as [Ho' Hc'].
  - destruct Hc as (_ & -> & _). done.
  - done.
  - split; [done|]. destruct Hc as (? & ? & ?), Hc' as (? & ? & ?). split_and!; congruence.
Qed.

(** ** Opening *)

Lemma prune_ok io s : open_ok s -> open_ok (pruneRotated io s) /\ same_config s (pruneRotated io s).
Proof.
  intros [Hcfg (lss & ls & recs & frag & Hwf)].
  destruct (prune_wf io s lss ls recs frag Hwf) as (lss' & recs' & Hw & _ & Hc).
  split; [|done]. split; [by eapply configured_same|]. by exists lss', ls, recs', frag.
Qed.

Lemma failure_ok s : open_ok s -> open_ok (add_failure s).
Proof.
  intros [[] (lss & ls & recs & frag & Hwf)]. split; [done|]. exists lss, ls, recs, frag. by apply (wf_ext s).
Qed.

(** A start leaves an open sink in order, or the disk as it was. *)
Definition stopped_ok (s : Sink) : Prop :=
  configured s /\ inFallback s = false /\ exists lss ls recs frag, on_disk s lss ls recs frag.

Lemma fresh_configured s w content : configured s -> configured (freshSink s w content).
Proof. by apply configured_same. Qed.

Lemma open_disk io s lss ls recs frag :
  configured s -> on_disk s lss ls recs frag -> reads_ok io -> Forall (marker_ok (skeyID s)) (markerEnv io) ->
  let '(ok, s') := openSink io s in
  same_config s s' /\ if ok : bool then open_ok s' else stopped_ok s'.
Proof.
  intros Hcfg Hod Hio Henv. destruct (on_disk_lines _ _ _ _ _ Hod) as [Hlss Hls].
  pose proof Hod as [Hcl Hac Hre Hch Hto]. unfold openSink, recoverPartialTail. destruct Hio as (Hrd & Hio).
  rewrite Hrd, Hac. cbn [negb].
  destruct (truncate_cases (tailIO io) ls frag Hls (torn_end_fragment _ Hto)) as [[e ->]| ->].
  { split; [done|]. split; [by apply fresh_configured|]. split; [done|]. exists lss, ls, recs, frag. by constructor. }
  set (s1 := freshSink s _ (file_of ls)).
  rewrite (resolve_whole io s1 lss ls) by done. cbn [lastLine].
  destruct (resume_wf s1 lss ls recs) as (s2 & -> & Hw2 & Hc2); try done.
  { by apply fresh_configured. }
  { constructor; try done; [by rewrite str_app_nil | by left]. }
  assert (open_ok s2) as Ho2.
  { split; [eapply configured_same; [exact Hc2|by apply fresh_configured]|]. by exists lss, ls, recs, "". }
  set (ms := startupMarkers _ _ _).
  destruct (markers_ok ms (skeyID s) (markerIO io) (markerEnv io) s2) as [Ho3 Hc3]; [done| |done|].
  { destruct Hc2 as (_ & -> & _). done. }
  generalize dependent (writeMarkers ms (markerIO io) (markerEnv io) s2). intros s3 Ho3 Hc3.
  assert (open_ok (if negb (List.length ms =? 0)%nat && startSyncFails io then add_failure s3 else s3)) as Ho4
    by (case_match; [by apply failure_ok|done]).
  destruct (prune_ok (startPrune io) _ Ho4) as [Ho5 Hc5]. split; [|done].
  destruct Hc2 as (? & ? & ?), Hc3 as (? & ? & ?), Hc5 as (? & ? & ?).
  destruct (negb (List.length ms =? 0)%nat && startSyncFails io); cbn in *; split_and!; congruence.
Qed.

(** ** Runs *)

Definition process_ok (p : process) : Prop := if up p then open_ok (sink p) else stopped_ok (sink p).

(** What a run asks of its environment, event by event. *)
Definition event_ok (p : process) (e : event) : Prop :=
  match e with
  | Write rec _ => writable (sink p) rec
  | Restart cut io =>
      clean_cut cut (sink p) /\ reads_ok io /\ Forall (marker_ok (skeyID (sink p))) (markerEnv io)
  end.

Fixpoint run_ok (p : process) (es : list event) : Prop :=
  match es with
  | [] => True
  | e :: rest => event_ok p e /\ run_ok (step p e) rest
  end.

Lemma process_disk p : process_ok p -> configured (sink p) /\ exists lss ls recs frag, on_disk (sink p) lss ls recs frag.
Proof.
  unfold process_ok. destruct (up p); [|intros (? & _ & ?); done].
  intros [Hc (lss & ls & recs & frag & Hw)]. split; [done|].
  destruct (wf_on_disk _ _ _ _ _ Hw) as (ls' & recs' & frag' & ?). by exists lss, ls', recs', frag'.
Qed.

Lemma step_ok p e : process_ok p -> event_ok p e -> process_ok (step p e) /\ same_config (sink p) (sink (step p e)).
Proof.
  intros Hp He. destruct e as [rec io|cut io]; cbn [step].
  - unfold process_ok in Hp. destruct (up p) eqn:Hup.
    + destruct (write_ok io rec (sink p) Hp He) as [Ho Hc]. done.
    + split; [|done]. unfold process_ok. by rewrite Hup.
  - destruct He as (Hcut & Hio & Henv). destruct (process_disk p Hp) as (Hcfg & lss & ls & recs & frag & Hod).
    destruct (crash_on_disk cut (sink p) _ _ _ _ Hod Hcut) as (lss' & ls' & recs' & frag' & Hod').
    assert (same_config (sink p) (crash cut (sink p))) as Hcc by (unfold crash; by case_match).
    pose proof (open_disk io (crash cut (sink p)) lss' ls' recs' frag' (configured_same _ _ Hcc Hcfg) Hod' Hio) as Hopen.
    destruct Hcc as (Hk & Hi & Hr). rewrite Hi in Hopen. specialize (Hopen Henv).
    destruct (openSink io (crash cut (sink p))) as [ok s']. destruct Hopen as [(Hk' & Hi' & Hr') Hok].
    split; [done|]. cbn [sink]. split_and!; congruence.
Qed.

Lemma run_process_ok es : forall p, process_ok p -> run_ok p es ->
  process_ok (run p es) /\ same_config (sink p) (sink (run p es)).
Proof.
  induction es as [|e es IH]; intros p Hp Hes; [done|]. destruct Hes as [He Hes].
  destruct (step_ok p e Hp He) as [Hp' Hc]. destruct (IH _ Hp' Hes) as [Hp'' Hc']. split; [done|].
  unfold run in *. cbn [fold_left]. destruct Hc as (? & ? & ?), Hc' as (? & ? & ?). split_and!; congruence.
Qed.

(** The verifier accepts what such a disk holds. *)
Lemma disk_verifies s lss ls recs frag w ring opts :
  on_disk s lss ls recs frag -> ring_of w = Some ring -> ring !! skeyID s = Some (skey s) ->
  OK (res (VerifyLogFiles (Some w) opts (LogChainFiles s)).1) = true /\
  (VerifyLogFiles (Some w) opts (LogChainFiles s)).2 = (if String.eqb frag "" then None else Some ErrUnterminatedTail).
Proof.
  intros Hod Hring Hkey. destruct (on_disk_lines _ _ _ _ _ Hod) as [Hlss Hls]. destruct Hod as [Hcl Hac Hre Hch Hto].
  unfold VerifyLogFiles, VerifyLog, LogChainFiles. rewrite Hcl, Hac, log_lines_chain, log_lines_good by done. cbn [fst snd].
  assert (log_lines frag = ([], if String.eqb frag "" then None else Some ErrUnterminatedTail)) as ->.
  { destruct Hto as [->|(l & Hl & Ht)]; [apply log_lines_nil|]. rewrite (log_lines_torn frag l Hl Ht).
    destruct Ht as [Hne _]. by rewrite (proj2 (String.eqb_neq _ _) Hne). }
  cbn [fst snd]. rewrite app_nil_r. split; [|done].
  match goal with |- context [reportSuppressedDiagnostics ?v] =>
    pose proof (core_inj _ _ (suppressed_core v)) as (-> & _) end.
  assert (nonneg (res newChain)) as Hn by (repeat split; cbn; lia).
  apply OK_faults; [by apply pass_nonneg|]. apply (pass_spec (Some w) opts _ None newChain); try done.
  exists recs. split; [|done]. eapply Forall2_impl; [exact Hre|]. intros l r (_ & _ & _ & _ & Hv). by apply (Hv w ring).
Qed.

(** A sink opened on an empty directory. *)
Definition new_process (cfg : Sink) : process :=
  mkProcess true (set_disk [] "" (freshSink cfg 0 "")).

Lemma new_process_ok cfg : configured cfg -> process_ok (new_process cfg).
Proof.
  intros Hc. split; [by eapply configured_same; [|exact Hc]|]. exists [], [], [], "".
  constructor; try done; [by apply tail_clean | by left].
Qed.

(** C30: What the writer leaves on disk verifies, over the runs [run_ok] describes.  From an
    empty directory, through any sequence of records and restarts, each write may be cut short
    or fail, each repair, rename, sync, reopen, listing and removal may fail and each crash may
    lose any suffix of the active file, but for one case: while the descriptor is still on a
    file already renamed (the reopen fallback) a crash has to fall between two records, for
    otherwise the log reads as tampered with ([AuditScenarios.fallback_crash_reads_as_tampering]).
    The records hold valid text, as [Sink.Record] makes them
    ([AuditRecord.recorded_is_stampable]), and their lines fit 2 MiB, and every start can list the directory and read the files.  Then a
    verification with the signing key reports no invalid record, no chain break and no unknown
    key; at most the last line is torn. *)
Theorem run_verifies cfg es w ring opts :
  configured cfg -> run_ok (new_process cfg) es ->
  ring_of w = Some ring -> ring !! skeyID cfg = Some (skey cfg) ->
  let r := VerifyLogFiles (Some w) opts (LogChainFiles (sink (run (new_process cfg) es))) in
  OK (res r.1) = true /\ (r.2 = None \/ r.2 = Some ErrUnterminatedTail).
Proof.
  intros Hcfg Hes Hring Hkey. destruct (run_process_ok es _ (new_process_ok cfg Hcfg) Hes) as [Hp (Hk & Hi & _)].
  destruct (process_disk _ Hp) as (_ & lss & ls & recs & frag & Hod).
  destruct (disk_verifies _ _ _ _ _ w ring opts Hod Hring) as [Hok Herr]; [by rewrite Hi, Hk|].
  cbn zeta. split; [done|]. rewrite Herr. case_match; [by left | by right].
Qed.

End runs.
(** ** The seeded sequence number *)

Section seed.
Context `{AuditUnmarshal}.

Lemma foldSeq_max tokens : forall acc,
  fst acc <= fst (fold_left foldSeq tokens acc) /\
  (snd acc = true -> snd (fold_left foldSeq tokens acc) = true) /\
  (forall line rec, In line tokens -> TrimSpace line <> "" -> Unmarshal (TrimSpace line) = Some rec ->
     Seq rec <= fst (fold_left foldSeq tokens acc) /\ snd (fold_left foldSeq tokens acc) = true).
Proof.
  induction tokens as [|t tokens IH]; intros acc; [by split_and!|]. cbn [fold_left].
  destruct (IH (foldSeq acc t)) as (Hm & Hp & Hl).
  assert (fst acc <= fst (foldSeq acc t) /\ (snd acc = true -> snd (foldSeq acc t) = true)) as [Hs1 Hs2].
  { unfold foldSeq. destruct (String.eqb _ ""); [done|]. destruct (Unmarshal _) as [r|]; [|done]. cbn [fst snd].
    split; [|done]. destruct (Z.ltb_spec (fst acc) (Seq r)); lia. }
  split_and!; [lia | naive_solver |]. intros line rec [->|Hin] Hne Hu; [|exact (Hl line rec Hin Hne Hu)].
  assert (Seq rec <= fst (foldSeq acc line) /\ snd (foldSeq acc line) = true) as [Ha Hb].
  { unfold foldSeq. rewrite (proj2 (String.eqb_neq _ _) Hne), Hu. cbn [fst snd]. split; [|done].
    destruct (Z.ltb_spec (fst acc) (Seq rec)); lia. }
  split; [lia | by apply Hp].
Qed.

(** A record of a file that could be opened, on a line that was reached. *)
Definition readable_record (cap : Z) (files : list (bool * string)) (rec : auditRecord) : Prop :=
  exists content line, In (false, content) files /\ In line (fst (scanLines cap (split_char newline content))) /\
    TrimSpace line <> "" /\ Unmarshal (TrimSpace line) = Some rec.

Lemma scan_contribution cap content line rec :
  In line (fst (scanLines cap (split_char newline content))) -> TrimSpace line <> "" ->
  Unmarshal (TrimSpace line) = Some rec ->
  let '(p, parsed, _) := scanSeqContribution false cap content in Seq rec <= p /\ parsed = true.
Proof.
  intros Hin Hne Hu. unfold scanSeqContribution. destruct (scanLines cap _) as [tokens aborted]. cbn [fst] in Hin.
  destruct (foldSeq_max tokens (0, false)) as (_ & _ & Hl). specialize (Hl line rec Hin Hne Hu).
  destruct (fold_left foldSeq tokens (0, false)) as [p parsed]. cbn [fst snd] in Hl. by destruct (negb aborted).
Qed.

Lemma satAddU64_nonneg a b : 0 <= a -> 0 <= b -> 0 <= satAddU64 a b.
Proof. intros Ha Hb. unfold satAddU64. destruct (_ <? a); [by vm_compute | lia]. Qed.

Lemma foldFile_max cap files : forall m any u saw, 0 <= u ->
  let '(m', any', u', _) := fold_left (foldFile cap) files (m, any, u, saw) in
  0 <= u' /\ m <= m' /\ (any = true -> any' = true) /\
  forall rec, readable_record cap files rec -> Seq rec <= m' /\ any' = true.
Proof.
  induction files as [|[fails content] files IH]; intros m any u saw Hu0; cbn [fold_left].
  { split; [lia|]. split; [lia|]. split; [done|]. intros rec (? & ? & [] & _). }
  unfold foldFile at 2. cbn [fst snd].
  destruct (scanSeqContribution fails cap content) as [[p parsed] ub] eqn:Hsc.
  specialize (IH (if parsed && (m <? p) then p else m) (any || parsed) (if 0 <? ub then satAddU64 u ub else u) (saw || (0 <? ub))).
  destruct (fold_left _ _ _) as [[[m' any'] u'] saw']. destruct IH as (Hu' & Hm & Ha & Hr).
  { destruct (Z.ltb_spec 0 ub); [apply satAddU64_nonneg; lia | done]. }
  assert (m <= (if parsed && (m <? p) then p else m)) as Hm0.
  { destruct parsed; cbn [andb]; [|lia]. destruct (Z.ltb_spec m p); lia. }
  split_and!; [done | lia | intros ->; by apply Ha |].
  intros rec (c & line & [Heq|Hin] & Hl & Hne & Hu).
  - injection Heq as -> ->. pose proof (scan_contribution cap c line rec Hl Hne Hu) as Hscan.
    rewrite Hsc in Hscan. destruct Hscan as [Hp ->].
    cbn [andb] in *. split; [|apply Ha, orb_true_r]. destruct (Z.ltb_spec m p); lia.
  - apply Hr. by exists c, line.
Qed.

(** The files a seeding start folds. *)
Definition seed_files (io : open_io) (s : Sink) : list (bool * string) :=
  (negb (readable io), activeFile s) ::
  (if dirFails io then [] else imap (fun i f => (nth i (siblingFails io) false, f)) (closedFiles s)).

(** A start that cannot trust the tail seeds its counter past the disk and never into the wrap:
    the counter does not go back, stays at or below 2^62 unless it was above already, leaves the
    link to the genesis sentinel, and is at least the sequence number of every record, at or below
    2^62, on a line the scan reached of a file it could open. *)
Theorem seed_past_disk io s :
  let '(complete, s') := seedSeqPastOnDiskMax io s in
  complete = negb (dirFails io) /\ sPrevHMAC s' = sPrevHMAC s /\
  seq s <= seq s' <= Z.max (seq s) maxSeedableSeq /\
  (forall rec, readable_record rescanBufferBytes (seed_files io s) rec -> Seq rec <= maxSeedableSeq -> Seq rec <= seq s').
Proof.
  unfold seedSeqPastOnDiskMax, highestSeqAcrossChainCapped.
  pose proof (foldFile_max rescanBufferBytes (seed_files io s) 0 false 0 false ltac:(done)) as Hf. unfold seed_files in Hf |- *.
  destruct (fold_left _ _ _) as [[[m any] u] saw]. destruct Hf as (Hu0 & _ & _ & Hr).
  set (highest := satAddU64 m u).
  set (capped := if (any || saw) && (maxSeedableSeq <? highest) then maxSeedableSeq else highest).
  assert (any || saw = true -> capped <= maxSeedableSeq) as Hcap.
  { intros Ha. unfold capped. rewrite Ha. cbn [andb]. destruct (Z.ltb_spec maxSeedableSeq highest); lia. }
  assert (forall rec, Seq rec <= m -> Seq rec <= maxSeedableSeq -> 0 <= u -> Seq rec <= capped) as Hpast.
  { intros rec Hm Hx Hu. unfold capped. destruct ((any || saw) && (maxSeedableSeq <? highest)); [done|].
    unfold highest, satAddU64. destruct (Z.ltb_spec (two64 - 1 - u) m); [|lia].
    assert (maxSeedableSeq <= two64 - 1) by (by vm_compute). lia. }
  split; [done|]. destruct (any || saw) eqn:Hany; cbn [andb] in *.
  - specialize (Hcap eq_refl). destruct (Z.ltb_spec (seq s) capped); cbn [sPrevHMAC seq set_head]; split_and!; try done; try lia.
    + intros rec Hrec Hx. apply Hpast; [by apply Hr | done..].
    + intros rec Hrec Hx. trans capped; [|done]. apply Hpast; [by apply Hr | done..].
  - split_and!; try done; try lia. intros rec Hrec _. destruct (Hr rec Hrec) as [_ ->]. discriminate.
Qed.

End seed.
End AuditRuns.
