(* ===== verification/AuditTamper.v ===== *)
(** * Tamper evidence of the audit log

    What a passing verification proves about a log somebody else may have edited: the lines are
    the writer's own, in the order it committed them, with none missing between the first and
    the last.  The adversary may rewrite the file at will but has no signature the writer did
    not make. *)
From stdpp Require Import base tactics list gmap strings.
From Stdlib Require Import ZArith Lia Ascii String.
From S2P Require Import Prelude GoStrings Truncate AuditVerify AuditWriter AuditRecovery.
#[local] Open Scope string_scope.
#[local] Open Scope Z_scope.
#[local] Open Scope go_scope.
#[local] Arguments String.append : simpl nomatch.
Import Truncate.

(** A record read without leftovers is read the same from the trimmed line: what a decoder skips
    around a value is a subset of what [TrimSpace] removes. *)
Class AuditDecodeTrim `{AuditCodec} := {
  decode_trimmed : forall line r, Decode true line = Ok (r, false) -> Decode true (TrimSpace line) = Ok (r, false);
}.

Module AuditTamper.
Import AuditVerify AuditWriter AuditRecovery.

Section tamper.
Context `{L : AuditCodecLaws} `{!AuditDecodeTrim}.

(** ** What the writer signs and commits *)

(** The record a write signs, committed or not. *)
Definition signs (s : Sink) (rec : auditRecord) : option auditRecord :=
  if seq s =? two64 - 1 then None
  else match sign s rec with Some (r, _) => Some r | None => None end.

(** The signed records of a sequence of writes, each with whether the head moved onto it. *)
Fixpoint history (s : Sink) (ws : list (auditRecord * write_io)) : list (auditRecord * bool) :=
  match ws with
  | [] => []
  | (rec, io) :: rest =>
      let s' := writeRecord io rec s in
      (match signs s rec with Some r => [(r, negb (seq s' =? seq s))] | None => [] end ++ history s' rest)%list
  end.

Definition signed (h : list (auditRecord * bool)) : list auditRecord := map fst h.
Definition committed (h : list (auditRecord * bool)) : list auditRecord := map fst (List.filter snd h).

Lemma rotate_head io s : same_head s (rotate io s) /\ same_config s (rotate io s).
Proof.
  unfold rotate, rotateAttempt, retryRotateReopen, swapToFreshBase, enterFallback, pruneRotated.
  repeat case_match; simplify_eq; done.
Qed.

Lemma repair_head io s : same_head s (snd (repairTailOrphan io s)) /\ same_config s (snd (repairTailOrphan io s)).
Proof. unfold repairTailOrphan. by repeat case_match. Qed.

(** A write keeps the key, and the head or moves it onto the record it signed. *)
Lemma write_head io rec s :
  same_config s (writeRecord io rec s) /\
  (same_head s (writeRecord io rec s) \/
   exists r, signs s rec = Some r /\ seq (writeRecord io rec s) = Seq r /\ sPrevHMAC (writeRecord io rec s) = HMAC r).
Proof.
  assert (forall s', same_config s s' -> same_head s s' -> same_config s (warnedFailure s') /\ same_head s (warnedFailure s')) as Hfail.
  { intros s' ? ?. unfold warnedFailure. by case_match. }
  unfold writeRecord, signs. destruct (seq s =? two64 - 1); [destruct (Hfail s); auto; done|].
  destruct (sign s rec) as [[r line]|]; [|by split; [|left]].
  set (p := if 0 <? tailOrphanBytes s then repairTailOrphan (firstRepair io) s else (true, s)).
  assert (same_head s (snd p) /\ same_config s (snd p)) as [Hh1 Hc1].
  { unfold p. case_match; [apply repair_head | done]. }
  destruct p as [clean s1]. cbn [snd] in *. destruct clean; cbn [negb]; [|destruct (Hfail s1); auto].
  set (s2 := if maxBytes s1 <? written s1 + len line then rotate (rotation io) s1 else s1).
  assert (same_head s s2 /\ same_config s s2) as [Hh2 Hc2].
  { unfold s2. case_match; [|done]. destruct (rotate_head (rotation io) s1) as [[] (? & ? & ?)].
    destruct Hh1, Hc1 as (? & ? & ?). split; split_and!; congruence. }
  clearbody s2. unfold appendLine. case_match.
  - match goal with |- context [warnedFailure ?x] => destruct (Hfail x) as [? ?]; [..|auto] end;
      (case_match; [|done]); match goal with |- context [repairTailOrphan ?a ?b] =>
        destruct (repair_head a b) as [[] (? & ? & ?)]; destruct Hh2, Hc2 as (? & ? & ?); split_and!; cbn in *; congruence end.
  - split; [exact Hc2|]. right. by exists r.
Qed.

(** What a signed record is. *)
Definition genuine (key kid : string) (r : auditRecord) : Prop :=
  KeyID r = kid /\ isPlainJSONString (Time r) = true /\ isPlainJSONString (PrevHMAC r) = true /\
  0 < Seq r < two64 /\ encodable r /\ exists body, Marshal (with_hmac r "") = Some body /\ HMAC r = recordMAC key body.

Lemma signs_genuine s rec r :
  signs s rec = Some r -> stampable s rec -> 0 <= seq s < two64 -> mac_shaped (sPrevHMAC s) ->
  genuine (skey s) (skeyID s) r /\ Seq r = seq s + 1 /\
  PrevHMAC r = (if String.eqb (sPrevHMAC s) "" then auditGenesisPrev else sPrevHMAC s).
Proof.
  unfold signs, sign. destruct (Z.eqb_spec (seq s) (two64 - 1)); [done|].
  set (prev := if String.eqb (sPrevHMAC s) "" then _ else _).
  destruct (Marshal (stamped rec (seq s + 1) prev "")) as [body|] eqn:Hm; [|done].
  destruct (signedRecordLine body _); [|done]. intros [= <-] (Hk & Ht & _ & Henc) Hs Hp.
  split; [|done]. split; [done|]. split; [done|]. split.
  { cbn. unfold prev. destruct Hp as [-> | (k & b & ->)]; [done|]. case_match; [done|]. apply recordMAC_plain. }
  split; [cbn; lia|]. split; [exact Henc|]. exists body. split; done.
Qed.

(** The head of a sink that has committed [cs]. *)
Record headed (s : Sink) (cs : list auditRecord) : Prop := mkHeaded {
  hd_seq : seq s = Z.of_nat (List.length cs);
  hd_prev : sPrevHMAC s = match tip None cs with Some c => HMAC c | None => "" end;
  hd_nth : forall i c, cs !! i = Some c -> Seq c = Z.of_nat i + 1 /\ exists k b, HMAC c = recordMAC k b;
  hd_range : seq s < two64;
}.

(** What a signed record follows: nothing, or a committed record. *)
Definition follows (cs : list auditRecord) (r : auditRecord) : Prop :=
  Seq r = 1 \/ exists i c, cs !! i = Some c /\ Seq r = Z.of_nat i + 2 /\ PrevHMAC r = HMAC c.

Lemma tip_lookup (cs : list auditRecord) c : tip None cs = Some c -> cs !! (List.length cs - 1)%nat = Some c.
Proof.
  intros Ht. destruct (decide (cs = [])) as [->|Hne]; [done|]. destruct (exists_last Hne) as (a & d & ->).
  rewrite tip_snoc in Ht. injection Ht as ->. rewrite length_app. cbn.
  replace (List.length a + 1 - 1)%nat with (List.length a + 0)%nat by lia. by rewrite lookup_app_r, Nat.add_sub' by lia.
Qed.

Lemma headed_mac s cs : headed s cs -> mac_shaped (sPrevHMAC s).
Proof.
  intros [_ -> Hn _]. destruct (tip None cs) as [c|] eqn:E; [|by left]. right.
  destruct (Hn _ _ (tip_lookup cs c E)) as [_ (k & b & Hh)]. by exists k, b.
Qed.

Lemma signs_follows s rec r cs :
  headed s cs -> signs s rec = Some r -> stampable s rec -> follows cs r.
Proof.
  intros Hhd Hsig Hst. pose proof (headed_mac s cs Hhd) as Hm. pose proof Hhd as [Hs Hp Hn Hr].
  destruct (signs_genuine s rec r Hsig Hst ltac:(lia) Hm) as (_ & Hseq & Hprev).
  destruct (tip None cs) as [c|] eqn:E.
  - right. exists (List.length cs - 1)%nat, c. pose proof (tip_lookup cs c E) as Hlk. split; [done|].
    pose proof (lookup_lt_Some _ _ _ Hlk). destruct (Hn _ _ Hlk) as [_ (k & b & Hh)]. split; [lia|].
    rewrite Hprev, Hp, Hh. destruct (recordMAC_plain k b) as [_ Hne]. by rewrite (proj2 (String.eqb_neq _ _) Hne).
  - left. destruct cs as [|c cs]; [cbn in Hs; lia|]. exfalso. clear -E.
    destruct (exists_last (l := c :: cs)) as (a & d & Ha); [done|]. rewrite Ha, tip_snoc in E. done.
Qed.

(** Committing the signed record moves the head onto it. *)
Lemma headed_write io rec s cs :
  headed s cs -> stampable s rec ->
  let s' := writeRecord io rec s in
  headed s' (cs ++ match signs s rec with
                   | Some r => if negb (seq s' =? seq s) then [r] else []
                   | None => [] end).
Proof.
  intros Hhd Hst. cbn zeta. destruct (write_head io rec s) as [_ [[Hs Hp]|(r & Hsig & Hs & Hp)]].
  - rewrite Hs, Z.eqb_refl. cbn [negb]. replace (match signs s rec with Some r => [] | None => [] end) with (@nil auditRecord) by (by destruct (signs s rec)).
    rewrite app_nil_r. destruct Hhd. constructor; by rewrite ?Hs, ?Hp.
  - pose proof (headed_mac s cs Hhd) as Hm. pose proof Hhd as [Hs0 Hp0 Hn Hr].
    destruct (signs_genuine s rec r Hsig Hst ltac:(lia) Hm) as ((_ & _ & _ & Hrng & _ & body & _ & Hh) & Hseq & _).
    rewrite Hsig, Hs, Hseq. rewrite (proj2 (Z.eqb_neq (seq s + 1) (seq s))) by lia. cbn [negb].
    constructor.
    + rewrite Hs, length_app. cbn. lia.
    + by rewrite tip_snoc.
    + intros i c Hl. apply lookup_app_Some in Hl as [Hl|[Hge Hl]]; [by apply Hn|].
      destruct (i - List.length cs)%nat as [|] eqn:Ei; [|done]. injection Hl as <-. split; [lia|]. by exists (skey s), body.
    + rewrite Hs. lia.
Qed.

Definition all_stampable (s : Sink) (ws : list (auditRecord * write_io)) : Prop :=
  Forall (fun w => stampable s (fst w)) ws.

(** The history of a run: every signed record is genuine and follows a committed one. *)
Lemma history_spec ws : forall s cs,
  headed s cs -> all_stampable s ws ->
  let all := (cs ++ committed (history s ws))%list in
  (forall r, In r (signed (history s ws)) -> genuine (skey s) (skeyID s) r /\ follows all r) /\
  (forall i c, all !! i = Some c -> Seq c = Z.of_nat i + 1) /\
  (forall c, In c (committed (history s ws)) -> In c (signed (history s ws))).
Proof.
  induction ws as [|[rec io] ws IH]; intros s cs Hhd Hst; cbn zeta.
  { cbn. rewrite app_nil_r. split; [done|]. split; [|done]. intros i c Hl. by apply (hd_nth s cs Hhd). }
  apply Forall_cons in Hst as [Hst Hws]. cbn [fst] in Hst. cbn [history].
  destruct (write_head io rec s) as [(Hk & Hi & _) _].
  pose proof (headed_write io rec s cs Hhd Hst) as Hhd'. cbn zeta in Hhd'.
  destruct (IH (writeRecord io rec s) _ Hhd') as (IHs & IHn & IHc).
  { eapply Forall_impl; [exact Hws|]. intros [r0 io0]. unfold stampable. cbn. by rewrite Hi. }
  rewrite Hk, Hi in IHs.
  assert (Forall (fun r => genuine (skey s) (skeyID s) r /\ follows cs r)
            (match signs s rec with Some r => [r] | None => [] end)) as Hnew.
  { destruct (signs s rec) as [r|] eqn:Hsig; [|done]. constructor; [|done]. split; [|by eapply signs_follows].
    eapply signs_genuine; [done..| |by eapply headed_mac]. pose proof Hhd as [? _ _ ?]. lia. }
  assert (forall a b r, follows a r -> follows (a ++ b) r) as Hmono.
  { intros a b r [?|(i & c & ? & ? & ?)]; [by left|]. right. exists i, c. split; [by apply lookup_app_l_Some|done]. }
  destruct (signs s rec) as [r|].
  - unfold signed, committed in *. cbn [app map List.filter snd]. apply Forall_cons in Hnew as [[Hg Hf] _].
    destruct (negb (seq (writeRecord io rec s) =? seq s)); cbn [map fst].
    + rewrite <- app_assoc in IHs, IHn. cbn [app] in IHs, IHn. split_and!; [|done|].
      * intros r' [<-|Hr']; [split; [done|by apply Hmono] | by apply IHs].
      * intros c [<-|Hc]; [by left | right; by apply IHc].
    + rewrite app_nil_r in IHs, IHn. split_and!; [|done|].
      * intros r' [<-|Hr']; [split; [done|by apply Hmono] | by apply IHs].
      * intros c Hc. right. by apply IHc.
  - cbn [app]. rewrite app_nil_r in IHs, IHn. done.
Qed.

(** ** What a passing verification proves *)

(** The line, but for the blanks around it, is the one the writer emits for the record. *)
Definition written_as (line : string) (r : auditRecord) : Prop :=
  exists body, Marshal (with_hmac r "") = Some body /\ signedRecordLine body (HMAC r) = Some (TrimSpace line).

(** The adversary's lines carry no signature under [key] that the writer did not make. *)
Definition unforged (key : string) (h : list (auditRecord * bool)) (lines : list string) : Prop :=
  forall line rec body, In line lines -> Decode true line = Ok (rec, false) ->
    Marshal (with_hmac rec "") = Some body -> HMAC rec = recordMAC key body ->
    exists r, In r (signed h) /\ Marshal (with_hmac r "") = Some body.

(** No two signed records share a signature. *)
Definition distinct_macs (h : list (auditRecord * bool)) : Prop :=
  forall r1 r2, In r1 (signed h) -> In r2 (signed h) -> HMAC r1 = HMAC r2 -> r1 = r2.

Lemma sound_inv w kid key line rec :
  ring_of w = Some {[ kid := key ]} -> sound_line (Some w) line = Some rec ->
  exists body, Decode true line = Ok (rec, false) /\ Marshal (with_hmac rec "") = Some body /\
    signedRecordLine body (HMAC rec) = Some (TrimSpace line) /\ HMAC rec = recordMAC key body /\ Seq rec <> 0.
Proof.
  intros Hring Hs. unfold sound_line, strictDecodeAuditRecord in Hs.
  destruct (Decode true line) as [[r [|]]|] eqn:Hd; try done.
  destruct (isSignedRecord r && _ && _) eqn:Hg; [|done]. apply andb_true_iff in Hg as [[_ Hz]%andb_true_iff _].
  apply negb_true_iff, Z.eqb_neq in Hz.
  destruct (verifyDecodedRecord (Some w) line r) as [[|]|] eqn:Hv; try done. injection Hs as ->.
  unfold verifyDecodedRecord in Hv. destruct (String.eqb (HMAC rec) ""); [done|].
  destruct (Marshal (with_hmac rec "")) as [body|] eqn:Hb; [|done].
  destruct (isCanonicalSignedLine (TrimSpace line) body (HMAC rec)) as [[|]|] eqn:Hc; try done.
  exists body. split_and!; try done; [by apply canonical_iff_written|].
  unfold keysToTry in Hv. rewrite Hring in Hv.
  destruct (negb (String.eqb (KeyID rec) "")).
  - destruct (decide (KeyID rec = kid)) as [Hk|Hne].
    + rewrite Hk, lookup_singleton_eq in Hv. cbn [rbind existsb] in Hv.
      revert Hv. destruct (String.eqb_spec (HMAC rec) (recordMAC key body)); done.
    + rewrite lookup_singleton_ne in Hv by done. done.
  - rewrite map_to_list_singleton in Hv. cbn [rbind existsb fmap list_fmap snd] in Hv.
    revert Hv. destruct (String.eqb_spec (HMAC rec) (recordMAC key body)); done.
Qed.

(** A sound line is a signed record's, with its sequence number and link. *)
Lemma sound_signed w kid key line rec h lines :
  ring_of w = Some {[ kid := key ]} -> isPlainJSONString kid = true ->
  (forall r, In r (signed h) -> genuine key kid r) ->
  unforged key h lines -> In line lines -> sound_line (Some w) line = Some rec ->
  exists r, In r (signed h) /\ written_as line r /\ HMAC rec = HMAC r /\ Seq rec = Seq r /\ PrevHMAC rec = PrevHMAC r.
Proof.
  intros Hring Hkid Hgen Hun Hin Hs. destruct (sound_inv w kid key line rec Hring Hs) as (body & Hd & Hm & Hl & Hh & _).
  destruct (Hun line rec body Hin Hd Hm Hh) as (r & Hr & Hrm).
  destruct (Hgen r Hr) as (Hk & Ht & Hp & Hsq & Henc & body' & Hm' & Hh'). rewrite Hrm in Hm'. injection Hm' as <-.
  exists r. split; [done|]. rewrite <- Hh' in Hh. rewrite Hh in Hl. split; [by exists body|]. split; [done|].
  destruct (recordMAC_plain key body) as [Hmp Hmne].
  destruct (decode_signed r body (HMAC r) (TrimSpace line) Henc) as (r' & Hd' & _ & _ & _ & Hs' & Hp' & _);
    try done; try (by rewrite Hh'); try congruence; [lia|].
  rewrite (decode_trimmed line rec Hd) in Hd'. injection Hd' as ->. done.
Qed.

Lemma sound_lines w kid key h lines :
  ring_of w = Some {[ kid := key ]} -> isPlainJSONString kid = true ->
  (forall r, In r (signed h) -> genuine key kid r) -> unforged key h lines ->
  forall ls recs, (forall l, In l ls -> In l lines) ->
  Forall2 (fun line rec => sound_line (Some w) line = Some rec) ls recs ->
  exists rs, Forall2 written_as ls rs /\
    Forall2 (fun rec r => In r (signed h) /\ HMAC rec = HMAC r /\ Seq rec = Seq r /\ PrevHMAC rec = PrevHMAC r /\
                          0 < Seq r < two64) recs rs.
Proof.
  intros Hring Hkid Hgen Hun ls recs Hsub Hall. induction Hall as [|l rec ls recs Hs _ IH]; [by exists []|].
  destruct IH as (rs & Hw & Hrs); [intros l' Hl'; apply Hsub; by right|].
  destruct (sound_signed w kid key l rec h lines Hring Hkid Hgen Hun (Hsub l (or_introl eq_refl)) Hs)
    as (r & Hr & Hwr & Hh & Hsq & Hp).
  exists (r :: rs). destruct (Hgen r Hr) as (_ & _ & _ & Hrng & _). by split; constructor.
Qed.

(** In a chain, every record but the last is a committed one, one after the other. *)
Lemma chain_committed cs h recs : forall rs prev,
  Forall2 (fun rec r => In r (signed h) /\ HMAC rec = HMAC r /\ Seq rec = Seq r /\ PrevHMAC rec = PrevHMAC r /\
                        0 < Seq r < two64) recs rs ->
  distinct_macs h -> (forall r, In r (signed h) -> follows cs r) -> (forall c, In c cs -> In c (signed h)) ->
  chained prev recs = true ->
  forall i r, rs !! i = Some r ->
    (exists r0, hd_error rs = Some r0 /\ Seq r = Seq r0 + Z.of_nat i) /\
    (S i < List.length rs -> cs !! (Z.to_nat (Seq r - 1)) = Some r)%nat.
Proof.
  induction recs as [|rec recs IH]; intros rs prev Hall Hd Hf Hc Hch i r Hi.
  { apply Forall2_nil_inv_l in Hall as ->. done. }
  apply Forall2_cons_inv_l in Hall as (r1 & rs' & (Hin1 & Hh1 & Hs1 & Hp1 & Hr1) & Hall & ->).
  cbn [chained] in Hch. apply andb_true_iff in Hch as [_ Hch].
  destruct rs' as [|r2 rs'].
  { destruct i as [|i]; [|by destruct i]. injection Hi as <-. split; [exists r1; split; [done|lia]|]. cbn. lia. }
  inversion Hall as [|rec2 ? recs' ? (Hin2 & Hh2 & Hs2 & Hp2 & Hr2) Hall']; subst.
  cbn [chained] in Hch. pose proof Hch as [Hl _]%andb_true_iff. cbn [linked] in Hl.
  apply andb_true_iff in Hl as [Hl%String.eqb_eq Hsq%Z.eqb_eq].
  assert (Seq r2 = Seq r1 + 1) as Hnext.
  { rewrite <- Hs2, Hsq, Hs1. unfold wrap_uint64. destruct (Z.eq_dec (Seq r1 + 1) two64) as [E|]; [|apply Z.mod_small; lia].
    rewrite Hs2, Hs1 in Hsq. unfold wrap_uint64 in Hsq. rewrite E, Z.mod_same in Hsq; [lia|by vm_compute]. }
  destruct i as [|i].
  - injection Hi as <-. split; [exists r1; split; [done|lia]|]. intros _.
    destruct (Hf r2 Hin2) as [|(j & c & Hj & Hsj & Hpj)]; [lia|].
    assert (c = r1) as ->.
    { apply Hd; [by apply Hc; eapply list_elem_of_In, list_elem_of_lookup_2 | done |]. congruence. }
    replace (Z.to_nat (Seq r1 - 1)) with j by lia. done.
  - cbn in Hi. destruct (IH (r2 :: rs') (Some rec) Hall Hd Hf Hc Hch i r Hi) as [(r0 & Hr0 & Hsr) Hlt].
    injection Hr0 as <-. split; [exists r1; split; [done|lia]|]. intros Hlen. apply Hlt. cbn in *. lia.
Qed.

(** C31: Tampering shows.  Let a writer that starts with an empty log sign and commit any records
    of valid text, as [Sink.Record] makes them ([AuditRecord.recorded_is_stampable]), its writes failing as they may, and let a verification with
    its key pass over any text.  If the text holds no signature under the key that the writer
    did not make, and no two signed records share one, then the lines of the text are, byte for
    byte up to the blanks around them, records the writer signed, with consecutive sequence
    numbers, and all but the last are the records it committed at those positions: nothing was
    changed, inserted, reordered or removed between the first line and the last.  The last line
    may be a record whose write was reported as failed. *)
Theorem tampering_shows s ws w opts log :
  configured s -> seq s = 0 -> sPrevHMAC s = "" -> all_stampable s ws ->
  ring_of w = Some {[ skeyID s := skey s ]} ->
  unforged (skey s) (history s ws) (log_lines log).1 -> distinct_macs (history s ws) ->
  OK (res (VerifyLog (Some w) opts log).1) = true -> (VerifyLog (Some w) opts log).2 = None ->
  exists k rs, Forall2 written_as (log_lines log).1 rs /\
    forall i r, rs !! i = Some r ->
      In r (signed (history s ws)) /\ Seq r = Z.of_nat (k + i) + 1 /\
      (S i < List.length rs -> committed (history s ws) !! (k + i)%nat = Some r)%nat.
Proof.
  intros Hcfg Hseq Hprev Hst Hring Hun Hdist Hok Herr.
  assert (headed s []) as Hhd by (constructor; try done; rewrite Hseq; by vm_compute).
  destruct (history_spec ws s [] Hhd Hst) as (Hsig & Hnth & Hcom). cbn [app] in *.
  destruct (proj1 (verify_spec (Some w) opts log) (conj Hok Herr)) as (_ & recs & Hall & Hch).
  set (h := history s ws) in *.
  assert (exists rs, Forall2 written_as (log_lines log).1 rs /\
    Forall2 (fun rec r => In r (signed h) /\ HMAC rec = HMAC r /\ Seq rec = Seq r /\ PrevHMAC rec = PrevHMAC r /\
                          0 < Seq r < two64) recs rs) as (rs & Hw & Hrs).
  { apply (sound_lines w (skeyID s) (skey s) h (log_lines log).1); try done; [by destruct Hcfg|].
    intros r Hr. by apply Hsig. }
  exists (Z.to_nat (match rs with [] => 0 | r :: _ => Seq r - 1 end)), rs. split; [done|]. intros i r Hi.
  pose proof (chain_committed (committed h) h recs rs None Hrs Hdist) as Hcc.
  destruct (Hcc (fun r Hr => proj2 (Hsig r Hr)) Hcom Hch i r Hi) as [(r0 & Hr0 & Hsr) Hlt].
  pose proof (Forall2_lookup_r _ _ _ _ _ Hrs Hi) as (rec & _ & Hin & _ & _ & _ & Hrng).
  destruct rs as [|r1 rs]; [done|]. injection Hr0 as <-.
  apply Forall2_cons_inv_r in Hrs as (rec1 & _ & (_ & _ & _ & _ & Hrng1) & _).
  split; [done|]. split; [lia|]. intros Hlen. rewrite <- (Hlt Hlen). f_equal. lia.
Qed.

End tamper.
End AuditTamper.
