(* ===== verification/AuditFixtures.v ===== *)
(** * A concrete codec for the audit log

    An instance of the parameters of the audit files that satisfies their laws, used to evaluate
    the writer and the verifier on concrete runs.  A record is written with four quoted fields:
    its sequence number in binary, the previous signature, the key id and the time. *)
From stdpp Require Import base tactics list gmap strings.
From Stdlib Require Import ZArith Lia Ascii String.
From S2P Require Import Prelude GoStrings Truncate AuditVerify AuditWriter AuditRecovery AuditTamper.
#[local] Open Scope string_scope.
#[local] Open Scope Z_scope.
#[local] Arguments String.append : simpl nomatch.
Import Truncate.

Module AuditFixtures.
Import AuditVerify AuditWriter AuditRecovery.

(** ** Numbers in binary, lowest bit first *)

Fixpoint bits (k : nat) (n : Z) : string :=
  match k with
  | O => ""
  | S k' => String (if Z.odd n then "1"%char else "0"%char) (bits k' (Z.div2 n))
  end.

Fixpoint bits_value (s : string) : Z :=
  match s with
  | EmptyString => 0
  | String c s' => (if Ascii.eqb c "1" then 1 else 0) + 2 * bits_value s'
  end.

Lemma bits_value_mod k n : bits_value (bits k n) = n mod 2 ^ Z.of_nat k.
Proof.
  revert n. induction k as [|k IH]; intros n.
  - cbn [bits bits_value]. change (Z.of_nat 0) with 0. by rewrite Z.pow_0_r, Z.mod_1_r.
  - cbn [bits bits_value]. rewrite IH.
    replace (Z.of_nat (S k)) with (Z.of_nat k + 1) by lia. rewrite Z.pow_add_r, Z.pow_1_r by lia.
    rewrite (Z.mul_comm (2 ^ Z.of_nat k) 2), Z.rem_mul_r by lia.
    rewrite Z.div2_div, Zmod_odd. by destruct (Z.odd n).
Qed.

Lemma bits_length k n : String.length (bits k n) = k.
Proof. revert n. induction k as [|k IH]; intros n; [done|]. cbn. by rewrite IH. Qed.

Lemma bits_plain k n : isPlainJSONString (bits k n) = true.
Proof. unfold isPlainJSONString. revert n. induction k as [|k IH]; intros n; [done|]. cbn. rewrite IH. by destruct (Z.odd n). Qed.

(** ** Quoted fields *)

Definition dq : ascii := ascii_of_nat 34.

Lemma plain_no_quote s : isPlainJSONString s = true -> contains_char dq s = false.
Proof.
  unfold isPlainJSONString. induction s as [|c s IH]; [done|]. cbn [str_forall contains_char].
  intros [Hc Hs]%andb_true_iff. rewrite IH by done. rewrite orb_false_r.
  destruct (Ascii.eqb dq c) eqn:E; [|done]. apply Ascii.eqb_eq in E as <-. by vm_compute in Hc.
Qed.

Lemma split_quoted a b : contains_char dq a = false -> split_char dq (a ++ String dq b) = a :: split_char dq b.
Proof.
  induction a as [|c a IH]; cbn [String.append split_char contains_char].
  - intros _. by rewrite Ascii.eqb_refl.
  - intros [Hc Ha]%orb_false_elim. rewrite Hc, IH by done. done.
Qed.

Lemma split_no_quote a : contains_char dq a = false -> split_char dq a = [a].
Proof.
  induction a as [|c a IH]; [done|]. cbn [split_char contains_char].
  intros [Hc Hl]%orb_false_elim. by rewrite Hc, IH.
Qed.

Fixpoint join (ps : list string) : string :=
  match ps with
  | [] => ""
  | [p] => p
  | p :: rest => p ++ String dq (join rest)
  end.

Lemma join_quoted_split s : join (split_char dq s) = s.
Proof.
  induction s as [|c s IH]; [done|]. cbn [split_char]. destruct (Ascii.eqb_spec dq c) as [<-|Hne].
  - destruct (split_char dq s) as [|p ps] eqn:E; [by destruct s; cbn in E; repeat case_match|].
    change (join ("" :: p :: ps)) with (String dq (join (p :: ps))). by rewrite IH.
  - destruct (split_char dq s) as [|p ps]; [by rewrite <- IH|]. cbn [join] in *.
    destruct ps as [|p' ps]; [by rewrite IH|]. by rewrite <- IH.
Qed.

(** ** The codec *)

Section toy.
Variable digest : string -> string -> string.
Hypothesis digest_plain : forall k b, isPlainJSONString (digest k b) = true.

Definition quoted (s : string) : string := String dq (s ++ String dq "").

Definition toyFields (r : auditRecord) : string :=
  quoted (bits 64 (Seq r)) ++ "," ++ quoted (PrevHMAC r) ++ "," ++ quoted (KeyID r) ++ "," ++ quoted (Time r).

Lemma quoted_app s t : quoted s ++ t = String dq (s ++ String dq t).
Proof. unfold quoted. change (String dq ((s ++ String dq "") ++ t) = String dq (s ++ String dq t)). by rewrite str_app_assoc. Qed.

Lemma toyFields_app r t :
  toyFields r ++ t =
  String dq (bits 64 (Seq r) ++ String dq ("," ++ String dq (PrevHMAC r ++ String dq ("," ++
    String dq (KeyID r ++ String dq ("," ++ String dq (Time r ++ String dq t))))))).
Proof.
  unfold toyFields. repeat (rewrite (str_app_assoc (quoted _)) || rewrite (str_app_assoc ",")). by rewrite !quoted_app.
Qed.

Definition toyBody (r : auditRecord) : string := "{" ++ toyFields r ++ "}".

Definition toyMarshal (r : auditRecord) : option string :=
  if isPlainJSONString (PrevHMAC r) && isPlainJSONString (KeyID r) && isPlainJSONString (Time r) && String.eqb (HMAC r) ""
  then Some (toyBody r) else None.

Definition toyRecord (seq : Z) (prev kid t mac : string) : auditRecord :=
  mkAudit 0 0 0 t seq "" "" "" "" "" "" "" "" "" "" "" "" "" "" false "" "" "" [] [] [] "" kid prev mac.

Lemma toy_encodable seq prev kid t mac : encodable (toyRecord seq prev kid t mac).
Proof. split; [| by repeat split]. repeat (constructor; [constructor|]). constructor. Qed.

Definition toyRead (line : string) : option auditRecord :=
  match split_char dq line with
  | [a; sq; b; prev; c; kid; d; t; e; f; g; mac; z] =>
      if String.eqb a "{" && String.eqb b "," && String.eqb c "," && String.eqb d "," && String.eqb e ","
         && String.eqb f "_hmac" && String.eqb g ":" && String.eqb z "}"
      then Some (toyRecord (bits_value sq) prev kid t mac) else None
  | _ => None
  end.

#[export] Instance toyCodec : AuditCodec := {
  Marshal := toyMarshal;
  MarshalString := fun _ => None;
  Decode := fun _ line => match toyRead line with Some r => Ok (r, false) | None => Err SyntaxError end;
  hmacHex := digest;
  hmacKeyID := fun k => k;
  ParseTime := fun t => if String.eqb t "" then None else Some 0;
}.

#[export] Instance toyUnmarshal : AuditUnmarshal := { Unmarshal := toyRead }.

Lemma toyMarshal_plain r body : toyMarshal r = Some body ->
  isPlainJSONString (PrevHMAC r) = true /\ isPlainJSONString (KeyID r) = true /\ isPlainJSONString (Time r) = true /\
  body = toyBody r.
Proof. unfold toyMarshal. case_match eqn:E; [|done]. bools. intros [= <-]. done. Qed.

(** The line of a record reads back as its four fields and its signature. *)
Lemma toyRead_line r mac :
  isPlainJSONString (PrevHMAC r) = true -> isPlainJSONString (KeyID r) = true -> isPlainJSONString (Time r) = true ->
  isPlainJSONString mac = true -> 0 <= Seq r < two64 ->
  forall line, signedRecordLine (toyBody r) mac = Some line ->
  toyRead line = Some (toyRecord (Seq r) (PrevHMAC r) (KeyID r) (Time r) mac).
Proof.
  intros Hp Hk Ht Hm Hs line Hl. unfold signedRecordLine, toyBody in Hl. rewrite open_object in Hl.
  unfold appendJSONString in Hl. rewrite Hm in Hl. apply (inj Some) in Hl as <-.
  assert (((("{" ++ toyFields r) ++ macFieldPrefix) ++ dquote ++ mac ++ dquote) ++ "}" =
    "{" ++ String dq (bits 64 (Seq r) ++ String dq ("," ++ String dq (PrevHMAC r ++ String dq ("," ++
    String dq (KeyID r ++ String dq ("," ++ String dq (Time r ++ String dq ("," ++ String dq ("_hmac" ++ String dq (":" ++
    String dq (mac ++ String dq "}")))))))))))) as ->.
  { rewrite !str_app_assoc, toyFields_app. unfold macFieldPrefix. rewrite !str_app_assoc. reflexivity. }
  unfold toyRead. rewrite !split_quoted by (done || by apply plain_no_quote, bits_plain || by apply plain_no_quote).
  rewrite split_no_quote by done. cbn [String.eqb Ascii.eqb Bool.eqb andb].
  rewrite bits_value_mod, Z.mod_small by (change (2 ^ Z.of_nat 64) with two64; lia). done.
Qed.

Lemma toy_line_length r mac l :
  isPlainJSONString mac = true -> signedRecordLine (toyBody r) mac = Some l ->
  len l = 88 + len (PrevHMAC r) + len (KeyID r) + len (Time r) + len mac.
Proof.
  intros Hm Hl. unfold signedRecordLine, toyBody in Hl. rewrite open_object in Hl.
  unfold appendJSONString in Hl. rewrite Hm in Hl. apply (inj Some) in Hl as <-.
  rewrite !len_app. unfold toyFields, quoted. rewrite !len_app. unfold len. cbn [String.length].
  rewrite !str_length_app, bits_length. cbn [String.length]. change (String.length macFieldPrefix) with 9%nat.
  change (String.length dquote) with 1%nat. lia.
Qed.

Lemma toyBody_no_newline r :
  isPlainJSONString (PrevHMAC r) = true -> isPlainJSONString (KeyID r) = true -> isPlainJSONString (Time r) = true ->
  contains_char newline (toyBody r) = false.
Proof.
  intros Hp Hk Ht. unfold toyBody. rewrite toyFields_app.
  repeat (rewrite contains_char_app || (cbn [contains_char])).
  rewrite !plain_no_newline by (done || apply bits_plain). done.
Qed.

#[export] Instance toyLaws : AuditCodecLaws.
Proof.
  constructor.
  - intros r body (Hp & Hk & Ht & ->)%toyMarshal_plain. split; [by exists (toyFields r)|]. by apply toyBody_no_newline.
  - intros k b. apply digest_plain.
  - intros r body mac line _ (Hp & Hk & Ht & ->)%toyMarshal_plain Hm Hne _ _ _ Hs Hl.
    change (toyBody (with_hmac r "")) with (toyBody r) in *.
    pose proof (toyRead_line r mac Hp Hk Ht Hm Hs line Hl) as Hr.
    eexists. split; [cbn [Decode toyCodec]; by rewrite Hr|]. split; [exact Hr|].
    split_and!; try done. cbn [Marshal toyCodec]. unfold toyMarshal. cbn in Hp, Hk, Ht |- *. rewrite Hp, Hk, Ht. done.
Qed.

Lemma toyRead_object line r : toyRead line = Some r -> exists x, line = "{" ++ x ++ "}".
Proof.
  unfold toyRead. intros Hr. rewrite <- (join_quoted_split line). revert Hr.
  destruct (split_char dq line) as [|a [|sq [|b [|p [|c [|k [|d [|t [|e [|f [|g [|m [|z [|? ?]]]]]]]]]]]]]]; try done.
  case_match eqn:E; [|done]. bools.
  repeat match goal with H : String.eqb _ _ = true |- _ => apply String.eqb_eq in H end. intros _.
  subst a b c d e f g z.
  exists (String dq (sq ++ String dq ("," ++ String dq (p ++ String dq ("," ++ String dq (k ++ String dq ("," ++ String dq
    (t ++ String dq ("," ++ String dq ("_hmac" ++ String dq (":" ++ String dq (m ++ String dq "")))))))))))).
  cbn [join]. repeat (cbn [String.append]; rewrite str_app_assoc). cbn [String.append]. done.
Qed.

#[export] Instance toyTrim : AuditDecodeTrim.
Proof.
  constructor. cbn [Decode toyCodec]. intros line r Hd. destruct (toyRead line) as [r'|] eqn:Hr; [|done].
  destruct (toyRead_object line r' Hr) as [x ->]. rewrite TrimSpace_object, Hr. done.
Qed.

End toy.
End AuditFixtures.
