(* ===== verification/AuditScenarios.v ===== *)
(** * Runs of the audit log

    Concrete runs of the writer and the verifier over the codec of AuditFixtures.v: the theorems
    on runs and on tampering at work, and a crash that the chain does not survive. *)
From stdpp Require Import base tactics list gmap strings.
From Stdlib Require Import ZArith Lia Ascii String.
From S2P Require Import Prelude GoStrings Truncate Capability AuditVerify AuditWriter AuditRecovery AuditRecord.
From S2P Require Import AuditRuns AuditTamper AuditFixtures.
#[local] Open Scope string_scope.
#[local] Open Scope Z_scope.
#[local] Arguments String.append : simpl nomatch.
Import Truncate.

Module AuditScenarios.
Import AuditVerify AuditWriter AuditRecovery AuditRecord AuditRuns AuditTamper AuditFixtures.

(** ** A digest of two characters *)

Definition flat (key body : string) : string := "0f".
Lemma flat_plain k b : isPlainJSONString (flat k b) = true.
Proof. done. Qed.

#[local] Instance flatCodec : AuditCodec := toyCodec flat.
#[local] Instance flatUnmarshal : AuditUnmarshal := toyUnmarshal.
#[local] Instance flatLaws : AuditCodecLaws := toyLaws flat flat_plain.

(** Details written as an empty object. *)
#[local] Instance flatDetails : DetailsEncoder := {| MarshalMap := fun _ => Some "{}"; MarshalStrings := fun _ => Some "[]" |}.
#[local] Instance flatDetailsLaws : DetailsLaws.
Proof.
  split. intros m e [= <-]. split; [by apply Valid_ascii|]. change (json_depth false false 0 "{}") with 1.
  enough (0 <= members_nesting m) by lia. induction m as [|[k v] m IH]; cbn; lia.
Qed.

(** A record with a short key id and time fits. *)
Lemma flat_fits rec : len (KeyID rec) + len (Time rec) <= 1000 -> fits rec.
Proof.
  intros Hk s rec' line _ Hp Hs. unfold sign in Hs.
  set (prev := if String.eqb (sPrevHMAC s) "" then _ else _) in Hs.
  assert (len prev <= 20) as Hl.
  { unfold prev. destruct Hp as [-> | (k & b & ->)]; by vm_compute. }
  set (r := stamped rec (seq s + 1) prev "") in *.
  destruct (Marshal r) as [body|] eqn:Hm; [|done]. apply (toyMarshal_plain r body) in Hm as (_ & _ & _ & ->).
  destruct (signedRecordLine (toyBody r) (recordMAC (skey s) (toyBody r))) as [l|] eqn:Hl'; [|done].
  apply (inj Some) in Hs. apply (f_equal snd) in Hs. cbn [snd] in Hs. rewrite <- Hs.
  pose proof (toy_line_length flat r (recordMAC (skey s) (toyBody r)) l) as Hlen.
  rewrite len_app, Hlen; [|done|done]. change (len (String newline "")) with 1.
  change (len (recordMAC (skey s) (toyBody r))) with 9. change (KeyID r) with (KeyID rec). change (Time r) with (Time rec).
  change (PrevHMAC r) with prev. unfold maxLine. lia.
Qed.

(** ** A run with faults *)

Definition cfg1 : Sink :=
  mkSink "k1" "k1" {[ "k1" := "k1" ]} 300 1 "pep" 0 false 0 0 false false false 0 "" [] "".

(** An allowed call, from a session whose id holds a byte that is not UTF-8. *)
Definition env1 : record_env := mkRecordEnv "t1" "req-1" (Some (mkIdentity "agent" "task" "user" "jti")) "2025-11-25".
Definition params1 : RecordParams :=
  mkParams "route" "v1" "digest" (bytes [115; 255]%nat) "read_file" "tools/call" "allow" "" ""
    [("path", Capability.VString "a")] ["redact"] false ["internal"] [].
Definition rec1 : auditRecord := record cfg1 env1 params1.

Example rec1_session : SessionID rec1 = "s" ++ replacementRune /\ Target rec1 = "read_file" /\ TargetType rec1 = "tool".
Proof. by vm_compute. Qed.

Lemma params1_ok : caller_ok env1 params1.
Proof.
  constructor.
  - split; [done | by exists 0].
  - by apply Valid_ascii.
  - split_and!; by apply Valid_ascii.
  - by apply Valid_ascii.
  - split_and!; repeat (constructor; [by apply Valid_ascii|]); constructor.
  - by vm_compute.
Qed.

Lemma cfg1_configured : configured cfg1.
Proof. constructor; try done. by apply Valid_ascii. Qed.
Definition okRepair : repair_io := mkRepairIO false false.
Definition badRepair : repair_io := mkRepairIO false true.
Definition okPrune : prune_io := mkPruneIO false [].
Definition okRotate : rotate_io := mkRotateIO false false false false false okPrune.
Definition okWrite : write_io := mkWriteIO okRepair okRotate 1000 false okRepair.
Definition okOpen : open_io := mkOpenIO okRepair true false [] [okWrite] [mkMarkerEnv "t2" "r" ""] false okPrune.

(** Written twice; rotated, cut short and not repaired; refused while the repair fails; repaired and
    written; a rotation whose reopen fails, and its recovery; cut short; a crash that loses part
    of a committed record as well; a restart that recovers the tail; and written again. *)
Definition run1 : list event :=
  [ Write rec1 okWrite; Write rec1 okWrite;
    Write rec1 (mkWriteIO okRepair okRotate 10 true badRepair);
    Write rec1 (mkWriteIO badRepair okRotate 1000 false okRepair);
    Write rec1 okWrite; Write rec1 okWrite;
    Write rec1 (mkWriteIO okRepair (mkRotateIO false false false true false okPrune) 1000 false okRepair);
    Write rec1 okWrite;
    Write rec1 (mkWriteIO okRepair okRotate 20 false badRepair);
    Restart 50 okOpen; Write rec1 okWrite ].

Definition verifier1 : verifier := NewVerifier ["k1"].
Definition everything : VerifyOptions := mkOptions "" "" None false.

Lemma rec1_writable s : skeyID s = "k1" -> writable s rec1.
Proof.
  intros Hk. split; [| by apply flat_fits].
  destruct (recorded_is_stampable cfg1 env1 params1 cfg1_configured params1_ok) as (_ & Ht & Hp & He).
  by split_and!.
Qed.

Lemma marker_env_ok : Forall (marker_ok "k1") (markerEnv okOpen).
Proof. constructor; [|done]. split_and!; [done | done | by apply Valid_ascii | constructor | by vm_compute |].
  intros s Hk. apply flat_fits. cbn. by rewrite Hk.
Qed.

(** The fault-ridden run is one the theorem is about, and what it leaves verifies. *)
Lemma run_verifies_witness :
  let r := VerifyLogFiles (Some verifier1) everything (LogChainFiles (sink (run (new_process cfg1) run1))) in
  OK (res r.1) = true /\ (r.2 = None \/ r.2 = Some ErrUnterminatedTail).
Proof.
  apply (run_verifies cfg1 run1 verifier1 {[ "k1" := "k1" ]} everything).
  - exact cfg1_configured.
  - unfold run1. repeat (split; [first
      [ apply rec1_writable; by vm_compute
      | split; [intros E; vm_compute in E; discriminate E | split; [by split_and! | exact marker_env_ok]] ] |]).
    exact I.
  - done.
  - done.
Defined.

(** ** A crash in the reopen fallback *)

(** A rotation whose reopen fails leaves the descriptor on the renamed file; a crash that tears the
    record being written there is never repaired, since the next start looks only at the end of
    the new base, and from then on the untampered log does not verify. *)
Definition run2 : list event :=
  [ Write rec1 okWrite; Write rec1 okWrite;
    Write rec1 (mkWriteIO okRepair (mkRotateIO false false false true false okPrune) 1000 false okRepair);
    Restart 240 okOpen; Write rec1 okWrite ].

Theorem fallback_crash_reads_as_tampering :
  let p := run (new_process cfg1) run2 in
  up p = true /\ OK (res (VerifyLogFiles (Some verifier1) everything (LogChainFiles (sink p))).1) = false /\
  Invalid (res (VerifyLogFiles (Some verifier1) everything (LogChainFiles (sink p))).1) = 1.
Proof. vm_compute. split_and!; reflexivity. Qed.

End AuditScenarios.

(** ** Tampering *)

Module AuditForgery.
Import AuditVerify AuditWriter AuditRecovery AuditTamper AuditFixtures.
Import AuditScenarios (cfg1, okRepair, badRepair, okRotate, okWrite, everything, verifier1).

(** A digest that spells the body out, two letters a byte. *)
Definition nibble (n : nat) : ascii := ascii_of_nat (97 + n).
Fixpoint spell (s : string) : string :=
  match s with
  | EmptyString => ""
  | String c s' =>
      let n := nat_of_ascii c in
      String (nibble (n / 16)) (String (nibble (n mod 16)) (spell s'))
  end.
Definition spelled (key body : string) : string := spell (key ++ body).

Lemma spelled_plain k b : isPlainJSONString (spelled k b) = true.
Proof.
  unfold spelled, isPlainJSONString. generalize (k ++ b) as s. induction s as [|c s IH]; [done|].
  cbn [spell str_forall]. rewrite IH, andb_true_r. destruct c as [[] [] [] [] [] [] [] []]; by vm_compute.
Qed.

#[local] Instance spelledCodec : AuditCodec := toyCodec spelled.
#[local] Instance spelledUnmarshal : AuditUnmarshal := toyUnmarshal.
#[local] Instance spelledLaws : AuditCodecLaws := toyLaws spelled spelled_plain.
#[local] Instance spelledTrim : AuditDecodeTrim := toyTrim spelled.

(** The hypotheses of the theorem, decided on concrete histories. *)
Definition unforgedb (key : string) (h : list (auditRecord * bool)) (lines : list string) : bool :=
  forallb (fun line =>
    match toyRead line with
    | None => true
    | Some rec =>
        match toyMarshal (with_hmac rec "") with
        | None => true
        | Some body => existsb (fun r => bool_decide (toyMarshal (with_hmac r "") = Some body)) (signed h)
        end
    end) lines.

Lemma unforgedb_ok key h lines : unforgedb key h lines = true -> unforged key h lines.
Proof.
  unfold unforgedb. rewrite forallb_forall. intros Hall line rec body Hin Hd Hm _. specialize (Hall line Hin).
  cbn [Decode Marshal spelledCodec toyCodec] in *. destruct (toyRead line) as [r|]; [|done].
  injection Hd as ->. rewrite Hm in Hall.
  apply existsb_exists in Hall as (r & Hr & He%bool_decide_eq_true). by exists r.
Qed.

Lemma distinct_ok h : NoDup (map HMAC (signed h)) -> distinct_macs h.
Proof.
  unfold distinct_macs. generalize (signed h) as l. induction l as [|a l IH]; intros Hnd r1 r2; [done|].
  cbn [map] in Hnd. apply NoDup_cons in Hnd as [Hn Hnd].
  assert (forall r, In r l -> HMAC r <> HMAC a) as Hne.
  { intros r Hr E. apply Hn. rewrite <- E. apply list_elem_of_In, in_map, Hr. }
  intros [<-|H1] [<-|H2] E; [done | by destruct (Hne r2 H2) | by destruct (Hne r1 H1) | by apply IH].
Qed.

Definition recA (t : string) : auditRecord := toyRecord 0 "" "k1" t "".

(** Four records, the third of which reaches the disk whole and is reported as failed. *)
Definition writes1 : list (auditRecord * write_io) :=
  [(recA "t1", okWrite); (recA "t2", okWrite); (recA "t3", mkWriteIO okRepair okRotate 4000 true badRepair);
   (recA "t4", okWrite)].

Definition history1 := history cfg1 writes1.

Definition line_of (r : auditRecord) : string :=
  default "" (signedRecordLine (toyBody r) (HMAC r)).

(** The second and the fourth, the first having been removed. *)
Definition log1 : string := file_of (map line_of (tail (committed history1))).

Lemma tampering_shows_witness :
  exists k rs, Forall2 written_as (log_lines log1).1 rs /\
    forall i r, rs !! i = Some r ->
      In r (signed history1) /\ Seq r = Z.of_nat (k + i) + 1 /\
      (S i < List.length rs -> committed history1 !! (k + i)%nat = Some r)%nat.
Proof.
  apply (tampering_shows cfg1 writes1 verifier1 everything log1).
  - constructor; try done. by apply Valid_ascii.
  - done.
  - done.
  - repeat (constructor; [split_and!; try done; apply toy_encodable |]). constructor.
  - done.
  - apply unforgedb_ok. by vm_compute.
  - apply distinct_ok. apply (bool_decide_unpack _). by vm_compute.
  - by vm_compute.
  - by vm_compute.
Defined.

End AuditForgery.
