(* ===== verification/SurfacePin.v ===== *)
(** * The interface baseline of a session

    internal/pdp/surface_pin.go: the hash of every tool's advertised surface as the session
    first saw it, the tools whose surface changed since, and the findings reported.

    A set of Go's is a [gset]; the maps of one session are created by [session], so they are
    never nil.  Hashes are strings.  The lines written to stderr are the findings returned. *)
From stdpp Require Import base tactics list gmap strings fin_maps fin_sets.
From Stdlib Require Import ZArith Lia String.
From S2P Require Import Prelude GoStrings.
#[local] Open Scope Z_scope.

Module SurfacePin.

Record ToolSurface := mkTool { ts_Name : string; ts_Hash : string }.

Inductive SurfaceChangeKind := SurfaceChanged | SurfaceAdded | SurfaceRemoved | SurfaceOverflow.

Definition maxSessionSurfaceEntries : Z := 100000.

Record SurfaceChange := mkChange {
  ch_Tool : string; Kind : SurfaceChangeKind; Baseline : string; Observed : string;
}.

Record sessionSurface := mkSession {
  established : bool;
  hashes : gmap string string;
  broken : gset string;
  allBroken : bool;
  overflowed : bool;
  reportedGone : gset string;
  reportedChanged : gset string;
}.

Definition newSession : sessionSurface := mkSession false ∅ ∅ false false ∅ ∅.

Abbreviation SurfaceBaseline := (gmap string sessionSurface).

Definition NewSurfaceBaseline : SurfaceBaseline := ∅.

Definition session (b : SurfaceBaseline) (sessionID : string) : sessionSurface :=
  default newSession (b !! sessionID).

Definition set_established (s : sessionSurface) : sessionSurface :=
  mkSession true (hashes s) (broken s) (allBroken s) (overflowed s) (reportedGone s) (reportedChanged s).
Definition set_hashes (m : gmap string string) (s : sessionSurface) : sessionSurface :=
  mkSession (established s) m (broken s) (allBroken s) (overflowed s) (reportedGone s) (reportedChanged s).
Definition set_broken (b : gset string) (s : sessionSurface) : sessionSurface :=
  mkSession (established s) (hashes s) b (allBroken s) (overflowed s) (reportedGone s) (reportedChanged s).
Definition set_allBroken (s : sessionSurface) : sessionSurface :=
  mkSession (established s) (hashes s) (broken s) true (overflowed s) (reportedGone s) (reportedChanged s).
Definition set_overflowed (s : sessionSurface) : sessionSurface :=
  mkSession (established s) (hashes s) (broken s) (allBroken s) true (reportedGone s) (reportedChanged s).
Definition set_gone (g : gset string) (s : sessionSurface) : sessionSurface :=
  mkSession (established s) (hashes s) (broken s) (allBroken s) (overflowed s) g (reportedChanged s).
Definition set_changed (g : gset string) (s : sessionSurface) : sessionSurface :=
  mkSession (established s) (hashes s) (broken s) (allBroken s) (overflowed s) (reportedGone s) g.

(** The session after the mark, and whether this mark overflowed. *)
Definition markBroken (name : string) (s : sessionSurface) : bool * sessionSurface :=
  if bool_decide (name ∈ broken s) then (false, s)
  else if maxSessionSurfaceEntries <=? Z.of_nat (size (broken s)) then (negb (allBroken s), set_allBroken s)
  else (false, set_broken ({[name]} ∪ broken s) s).

Definition overflow (name : string) (s : sessionSurface) (changes : list SurfaceChange)
    : list SurfaceChange * sessionSurface :=
  if overflowed s then (changes, s)
  else ((changes ++ [mkChange name SurfaceOverflow "" ""])%list, set_overflowed s).

(** One tool of a listing. *)
Definition observeTool (reportMembership : bool) (acc : list SurfaceChange * sessionSurface) (t : ToolSurface)
    : list SurfaceChange * sessionSurface :=
  let '(changes, s) := acc in
  let s := set_gone (reportedGone s ∖ {[ts_Name t]}) s in
  match hashes s !! ts_Name t with
  | None =>
      if maxSessionSurfaceEntries <=? Z.of_nat (size (hashes s)) then
        overflow (ts_Name t) (set_allBroken s) changes
      else
        let s := set_hashes (<[ts_Name t := ts_Hash t]> (hashes s)) s in
        ((if reportMembership then (changes ++ [mkChange (ts_Name t) SurfaceAdded "" ""])%list else changes), s)
  | Some baseline =>
      if String.eqb baseline (ts_Hash t) then (changes, s)
      else
        let '(over, s) := markBroken (ts_Name t) s in
        let '(changes, s) := if over : bool then overflow (ts_Name t) s changes else (changes, s) in
        if bool_decide (ts_Name t ∈ reportedChanged s) then (changes, s)
        else ((changes ++ [mkChange (ts_Name t) SurfaceChanged baseline (ts_Hash t)])%list,
              set_changed ({[ts_Name t]} ∪ reportedChanged s) s)
  end.

(** The baselined tools a complete listing no longer names. *)
Definition goneFrom (s : sessionSurface) (tools : list ToolSurface) : list string :=
  sort_strings (elements (dom (hashes s) ∖ list_to_set (ts_Name <$> tools) ∖ reportedGone s)).

Definition reportGone (acc : list SurfaceChange * sessionSurface) (name : string)
    : list SurfaceChange * sessionSurface :=
  let '(changes, s) := acc in
  ((changes ++ [mkChange name SurfaceRemoved "" ""])%list, set_gone ({[name]} ∪ reportedGone s) s).

Definition observeSession (tools : list ToolSurface) (complete : bool) (s : sessionSurface)
    : list SurfaceChange * sessionSurface :=
  let first := negb (established s) in
  let s := if complete then set_established s else s in
  let reportMembership := complete && negb first in
  let '(changes, s) := fold_left (observeTool reportMembership) tools ([], s) in
  if reportMembership then fold_left reportGone (goneFrom s tools) (changes, s) else (changes, s).

(** A nil baseline pins nothing. *)
Definition Observe (b : option SurfaceBaseline) (sessionID : string) (tools : list ToolSurface) (complete : bool)
    : list SurfaceChange * option SurfaceBaseline :=
  match b with
  | None => ([], None)
  | Some b =>
      let '(changes, s) := observeSession tools complete (session b sessionID) in
      (changes, Some (<[sessionID := s]> b))
  end.

Definition MarkBroken (b : option SurfaceBaseline) (sessionID : string) (tools : list string)
    : option SurfaceBaseline :=
  match b, tools with
  | None, _ => None
  | Some b, [] => Some b
  | Some b, _ =>
      Some (<[sessionID := fold_left (fun s t => snd (markBroken t s)) tools (session b sessionID)]> b)
  end.

Definition BreakAll (b : option SurfaceBaseline) (sessionID : string) : option SurfaceBaseline :=
  match b with
  | None => None
  | Some b => Some (<[sessionID := set_allBroken (session b sessionID)]> b)
  end.

Definition brokenIn (s : sessionSurface) (tool : string) : bool :=
  allBroken s || bool_decide (tool ∈ broken s).

Definition Broken (b : option SurfaceBaseline) (sessionID tool : string) : bool :=
  match b with
  | None => false
  | Some b => match b !! sessionID with None => false | Some s => brokenIn s tool end
  end.

Definition Release (b : option SurfaceBaseline) (sessionID : string) : option SurfaceBaseline :=
  match b with
  | None => None
  | Some b => Some (delete sessionID b)
  end.

(** ** Histories *)

Inductive surface_op :=
| OpObserve (sessionID : string) (tools : list ToolSurface) (complete : bool)
| OpMark (sessionID : string) (tools : list string)
| OpBreakAll (sessionID : string)
| OpRelease (sessionID : string).

Definition apply (b : option SurfaceBaseline) (op : surface_op) : option SurfaceBaseline :=
  match op with
  | OpObserve sid tools complete => snd (Observe b sid tools complete)
  | OpMark sid tools => MarkBroken b sid tools
  | OpBreakAll sid => BreakAll b sid
  | OpRelease sid => Release b sid
  end.

Definition run (ops : list surface_op) : option SurfaceBaseline :=
  fold_left apply ops (Some NewSurfaceBaseline).

(** What the upstream showed one session, in order. *)
Inductive evidence := Advertised (tool hash : string) | Distrusted (tool : string) | DistrustedAll.

Definition shown (op : surface_op) : list evidence :=
  match op with
  | OpObserve _ tools _ => (fun t => Advertised (ts_Name t) (ts_Hash t)) <$> tools
  | OpMark _ tools => Distrusted <$> tools
  | OpBreakAll _ => [DistrustedAll]
  | OpRelease _ => []
  end.

Definition op_session (op : surface_op) : string :=
  match op with
  | OpObserve sid _ _ | OpMark sid _ | OpBreakAll sid | OpRelease sid => sid
  end.

Definition is_release (op : surface_op) : bool := match op with OpRelease _ => true | _ => false end.

(** The evidence of session [sid] since it was last released. *)
Definition life_step (sid : string) (L : list evidence) (op : surface_op) : list evidence :=
  if negb (String.eqb (op_session op) sid) then L
  else if is_release op then [] else (L ++ shown op)%list.

Definition life (sid : string) (ops : list surface_op) : list evidence :=
  fold_left (life_step sid) ops [].

Definition names_of (e : evidence) : gset string :=
  match e with Advertised t _ | Distrusted t => {[t]} | DistrustedAll => ∅ end.

Definition names (L : list evidence) : gset string := ⋃ (names_of <$> L).

(** Reasons to refuse a tool: an entry that could impersonate it, or two surfaces. *)
Definition suspect (L : list evidence) (tool : string) : Prop :=
  Distrusted tool ∈ L \/
  exists h1 h2, Advertised tool h1 ∈ L /\ Advertised tool h2 ∈ L /\ h1 <> h2.

Definition flooded (L : list evidence) : Prop := maxSessionSurfaceEntries <= Z.of_nat (size (names L)).

(** ** The invariant of a session *)

(** Nothing of the evidence is forgotten. *)
Record covers (s : sessionSurface) (L : list evidence) : Prop := mkCovers {
  c_all : DistrustedAll ∈ L -> allBroken s = true;
  c_marked t : Distrusted t ∈ L -> brokenIn s t = true;
  c_adv t h : Advertised t h ∈ L -> hashes s !! t = Some h \/ brokenIn s t = true;
}.

(** Nothing is refused without a reason, and the maps are bounded. *)
Record sound (s : sessionSurface) (L : list evidence) : Prop := mkSound {
  s_base t h : hashes s !! t = Some h -> Advertised t h ∈ L;
  s_broken t : t ∈ broken s -> suspect L t;
  s_allbroken : allBroken s = true -> DistrustedAll ∈ L \/ flooded L;
  s_hsize : Z.of_nat (size (hashes s)) <= maxSessionSurfaceEntries;
  s_bsize : Z.of_nat (size (broken s)) <= maxSessionSurfaceEntries;
}.

Definition pinned (s : sessionSurface) (L : list evidence) : Prop := covers s L /\ sound s L.

Lemma pinned_new : pinned newSession [].
Proof. split; constructor; cbn; try set_solver; done. Qed.

Lemma elem_of_names L t :
  t ∈ names L <-> Distrusted t ∈ L \/ exists h, Advertised t h ∈ L.
Proof.
  unfold names. rewrite elem_of_union_list. setoid_rewrite list_elem_of_fmap. split.
  - intros (X & (e & -> & He) & Ht). destruct e; cbn in Ht; set_solver.
  - intros [H|[h H]]; exists {[t]}; (split; [|set_solver]); eexists; split; try done; done.
Qed.

Lemma names_mono L L' : L ⊆ L' -> names L ⊆ names L'.
Proof. intros HL t. rewrite !elem_of_names. set_solver. Qed.

Lemma brokenIn_true s t : brokenIn s t = true <-> allBroken s = true \/ t ∈ broken s.
Proof. unfold brokenIn. by rewrite orb_true_iff, bool_decide_eq_true. Qed.

(** The fields that only decide what is reported are irrelevant. *)
Lemma pinned_core s s' L :
  hashes s' = hashes s -> broken s' = broken s -> allBroken s' = allBroken s -> pinned s L -> pinned s' L.
Proof.
  intros Hh Hb Ha [[] []]. split; constructor; unfold brokenIn in *; rewrite ?Hh, ?Hb, ?Ha; done.
Qed.

Lemma sound_mono s L L' : L ⊆ L' -> sound s L -> sound s L'.
Proof.
  intros HL []. constructor; try done.
  - intros t h Ht. by apply HL, s_base0.
  - intros t Ht. destruct (s_broken0 t Ht) as [H|(h1 & h2 & H1 & H2 & Hn)]; [left; by apply HL|].
    right. exists h1, h2. by split_and!; [apply HL | apply HL |].
  - intros Ha. destruct (s_allbroken0 Ha) as [H|H]; [left; by apply HL | right].
    unfold flooded in *. pose proof (subseteq_size _ _ (names_mono _ _ HL)). lia.
Qed.

Lemma covers_known s L e :
  covers s L ->
  match e with
  | Advertised t h => hashes s !! t = Some h \/ brokenIn s t = true
  | Distrusted t => brokenIn s t = true
  | DistrustedAll => allBroken s = true
  end -> covers s (L ++ [e]).
Proof.
  intros [] He. constructor.
  - intros [?|Heq%list_elem_of_singleton]%elem_of_app; [by apply c_all0 | by subst e].
  - intros t [?|Heq%list_elem_of_singleton]%elem_of_app; [by apply c_marked0 | by subst e].
  - intros t h [?|Heq%list_elem_of_singleton]%elem_of_app; [by apply c_adv0 | by subst e].
Qed.

Lemma covers_grow s s' L :
  covers s L -> (forall t h, hashes s !! t = Some h -> hashes s' !! t = Some h) ->
  (forall t, t ∈ broken s -> brokenIn s' t = true) -> (allBroken s = true -> allBroken s' = true) -> covers s' L.
Proof.
  intros [] Hh Hb Ha.
  assert (forall t, brokenIn s t = true -> brokenIn s' t = true) as Hbr.
  { intros t. rewrite (brokenIn_true s). intros [H|H]; [apply brokenIn_true; left; by apply Ha | by apply Hb]. }
  constructor; [naive_solver.. |]. intros t h Ht. destruct (c_adv0 t h Ht); [left; by apply Hh | right; by apply Hbr].
Qed.

Lemma sound_break_all s L : sound s L -> DistrustedAll ∈ L \/ flooded L -> sound (set_allBroken s) L.
Proof. intros [] Hwhy. by constructor. Qed.

Lemma covers_break_all s L e : covers s L -> covers (set_allBroken s) (L ++ [e]).
Proof.
  intros Hc. apply covers_known.
  - eapply covers_grow; [exact Hc | done | by intros | done].
  - destruct e; [by right | done | done].
Qed.

Lemma flooded_by (X : gset string) L :
  X ⊆ names L -> maxSessionSurfaceEntries <= Z.of_nat (size X) -> flooded L.
Proof. intros HX Hle. unfold flooded. pose proof (subseteq_size _ _ HX). lia. Qed.

Lemma broken_names s L : sound s L -> broken s ⊆ names L.
Proof.
  intros Hp t Ht. rewrite elem_of_names. destruct (s_broken _ _ Hp t Ht) as [H|(h & _ & H & _)]; eauto.
Qed.

Lemma hashes_names s L : sound s L -> dom (hashes s) ⊆ names L.
Proof.
  intros Hp t Ht. apply elem_of_dom in Ht as [h Hh]. rewrite elem_of_names. right. exists h. by apply (s_base _ _ Hp).
Qed.

Lemma markBroken_covers name s L :
  covers s L -> covers (snd (markBroken name s)) L /\ brokenIn (snd (markBroken name s)) name = true.
Proof.
  intros Hc. unfold markBroken. case_bool_decide as Hin; [split; [done | apply brokenIn_true; by right]|].
  destruct (maxSessionSurfaceEntries <=? _); cbn [snd]; (split; [eapply covers_grow; [exact Hc | done | | done] |]); try done.
  - intros t Ht. apply brokenIn_true. right. cbn. set_solver.
  - apply brokenIn_true. right. cbn. set_solver.
Qed.

Lemma markBroken_sound name s L : sound s L -> suspect L name -> sound (snd (markBroken name s)) L.
Proof.
  intros Hs Hwhy. unfold markBroken. case_bool_decide as Hin; [done|].
  destruct (Z.leb_spec maxSessionSurfaceEntries (Z.of_nat (size (broken s)))); cbn [snd].
  { apply sound_break_all; [done|]. right. by eapply flooded_by; [apply broken_names|]. }
  destruct Hs. constructor; try done.
  - cbn. intros t [->%elem_of_singleton|Ht]%elem_of_union; [done | by apply s_broken0].
  - cbn. rewrite size_union by set_solver. rewrite size_singleton. lia.
Qed.

Lemma overflow_core name s changes :
  let '(_, s') := overflow name s changes in
  hashes s' = hashes s /\ broken s' = broken s /\ allBroken s' = allBroken s.
Proof. unfold overflow. by destruct (overflowed s). Qed.

Lemma overflow_pinned name s changes L : pinned s L -> pinned (snd (overflow name s changes)) L.
Proof.
  pose proof (overflow_core name s changes) as Ho. destruct (overflow name s changes) as [? s'].
  destruct Ho as (? & ? & ?). by apply pinned_core.
Qed.

(** ** Every operation keeps it *)

Lemma observeTool_pinned rm changes s L t :
  pinned s L -> pinned (snd (observeTool rm (changes, s) t)) (L ++ [Advertised (ts_Name t) (ts_Hash t)]).
Proof.
  intros Hp. set (n := ts_Name t). set (h := ts_Hash t). unfold observeTool. fold n h.
  set (s0 := set_gone _ s).
  assert (pinned s0 L) as [Hc Hs] by (by eapply pinned_core; [..|exact Hp]). clearbody s0. clear Hp.
  assert (L ⊆ L ++ [Advertised n h]) as HL by set_solver.
  pose proof (sound_mono _ _ _ HL Hs) as Hs'.
  destruct (hashes s0 !! n) as [base|] eqn:Hn; [destruct (String.eqb_spec base h) as [->|Hne]|].
  - split; [apply covers_known; [done | by left] | done].
  - assert (pinned (snd (markBroken n s0)) (L ++ [Advertised n h])) as Hm.
    { destruct (markBroken_covers n s0 L Hc) as [Hc' Hb]. split; [apply covers_known; [done | by right]|].
      apply markBroken_sound; [done|]. right. exists base, h.
      split_and!; [apply HL; by apply (s_base _ _ Hs) | set_solver | done]. }
    destruct (markBroken n s0) as [over s1]. cbn [snd] in Hm.
    assert (pinned (snd (if over then overflow n s1 changes else (changes, s1))) (L ++ [Advertised n h])) as Ho.
    { destruct over; [by apply overflow_pinned | done]. }
    destruct (if over then _ else _) as [changes' s2]. cbn [snd] in Ho.
    destruct (bool_decide _); [done | by eapply pinned_core; [..|exact Ho]].
  - destruct (Z.leb_spec maxSessionSurfaceEntries (Z.of_nat (size (hashes s0)))) as [Hfull|Hroom].
    + apply overflow_pinned. split; [by apply covers_break_all|]. apply sound_break_all; [done|]. right.
      eapply flooded_by; [by apply hashes_names | by rewrite size_dom].
    + split.
      * apply covers_known; [|left; cbn; by rewrite lookup_insert_eq].
        eapply covers_grow; [exact Hc | | by intros; apply brokenIn_true; right | done].
        intros t' h' Ht'. cbn. rewrite lookup_insert_ne; [done|]. intros ->. congruence.
      * destruct Hs'. constructor; try done; cbn.
        -- intros t' h'. rewrite lookup_insert_Some. intros [[<- <-]|[_ Ht']]; [set_solver | by apply s_base0].
        -- rewrite map_size_insert_None by done. lia.
Qed.

Lemma observeTools_pinned rm tools : forall changes s L,
  pinned s L ->
  pinned (snd (fold_left (observeTool rm) tools (changes, s)))
    (L ++ ((fun t => Advertised (ts_Name t) (ts_Hash t)) <$> tools)).
Proof.
  induction tools as [|t tools IH]; intros changes s L Hp; cbn [fold_left fmap list_fmap].
  { by rewrite app_nil_r. }
  pose proof (observeTool_pinned rm changes s L t Hp) as Ht.
  destruct (observeTool rm (changes, s) t) as [changes' s']. rewrite cons_middle, app_assoc. by apply IH.
Qed.

Lemma reportGone_pinned gone : forall changes s L,
  pinned s L -> pinned (snd (fold_left reportGone gone (changes, s))) L.
Proof. induction gone as [|g gone IH]; intros changes s L Hp; [done|]. apply IH. by eapply pinned_core; [..|exact Hp]. Qed.

Lemma observeSession_pinned tools complete s L :
  pinned s L ->
  pinned (snd (observeSession tools complete s)) (L ++ ((fun t => Advertised (ts_Name t) (ts_Hash t)) <$> tools)).
Proof.
  intros Hp. unfold observeSession. set (s0 := if complete then set_established s else s).
  assert (pinned s0 L) as Hp0 by (destruct complete; [by eapply pinned_core; [..|exact Hp] | done]).
  pose proof (observeTools_pinned (complete && negb (negb (established s))) tools [] s0 L Hp0) as Hf.
  destruct (fold_left (observeTool _) tools ([], s0)) as [changes s1]. cbn [snd] in Hf.
  destruct (complete && _); [by apply reportGone_pinned | done].
Qed.

Lemma markAll_pinned tools : forall s L,
  pinned s L -> pinned (fold_left (fun s t => snd (markBroken t s)) tools s) (L ++ (Distrusted <$> tools)).
Proof.
  induction tools as [|t tools IH]; intros s L [Hc Hs]; cbn [fold_left fmap list_fmap]; [by rewrite app_nil_r|].
  rewrite cons_middle, app_assoc. apply IH. destruct (markBroken_covers t s L Hc) as [Hc' Hb]. split.
  - by apply covers_known.
  - apply markBroken_sound; [|left; set_solver]. by eapply sound_mono; [|exact Hs]; set_solver.
Qed.

Lemma breakAll_pinned s L : pinned s L -> pinned (set_allBroken s) (L ++ [DistrustedAll]).
Proof.
  intros [Hc Hs]. split; [by apply covers_break_all|]. apply sound_break_all; [|left; set_solver].
  by eapply sound_mono; [|exact Hs]; set_solver.
Qed.

(** Every session of a baseline is pinned by its own evidence. *)
Definition faithful (b : option SurfaceBaseline) (lives : string -> list evidence) : Prop :=
  exists m, b = Some m /\ forall sid, pinned (session m sid) (lives sid).

Lemma session_insert m sid s sid' :
  session (<[sid := s]> m) sid' = if decide (sid = sid') then s else session m sid'.
Proof.
  unfold session. destruct (decide (sid = sid')) as [->|]; [by rewrite lookup_insert_eq | by rewrite lookup_insert_ne].
Qed.

Lemma apply_faithful b op lives :
  faithful b lives -> faithful (apply b op) (fun sid => life_step sid (lives sid) op).
Proof.
  intros (m & -> & Hm).
  assert (forall s sid, sid = op_session op -> is_release op = false -> pinned s (lives sid ++ shown op) ->
    faithful (Some (<[sid := s]> m)) (fun sid => life_step sid (lives sid) op)) as Hins.
  { intros s sid -> Hr Hp. eexists. split; [done|]. intros sid'. rewrite session_insert. unfold life_step.
    rewrite Hr. destruct (decide (op_session op = sid')) as [<-|Hne]; [by rewrite String.eqb_refl|].
    by rewrite (proj2 (String.eqb_neq _ _) Hne). }
  destruct op as [sid tools complete|sid tools|sid|sid]; cbn [apply].
  - cbn [Observe]. pose proof (observeSession_pinned tools complete _ _ (Hm sid)) as Hp.
    destruct (observeSession tools complete (session m sid)) as [changes s]. by apply Hins.
  - destruct tools as [|t tools].
    + exists m. split; [done|]. intros sid'. unfold life_step. cbn. rewrite app_nil_r. by destruct (negb _).
    + apply Hins; [done..|]. by apply markAll_pinned.
  - apply Hins; [done..|]. by apply breakAll_pinned.
  - exists (delete sid m). split; [done|]. intros sid'. unfold life_step, session. cbn [op_session is_release].
    destruct (String.eqb_spec sid sid') as [<-|Hne]; cbn [negb];
      [rewrite lookup_delete_eq; apply pinned_new | rewrite lookup_delete_ne by done; apply Hm].
Qed.

Lemma run_faithful ops : faithful (run ops) (fun sid => life sid ops).
Proof.
  induction ops as [|op ops IH] using rev_ind.
  { exists ∅. split; [done|]. intros sid. apply pinned_new. }
  unfold run, life. rewrite fold_left_app. cbn [fold_left].
  destruct (apply_faithful _ op _ IH) as (m & Hm & Hp). exists m. split; [exact Hm|]. intros sid.
  rewrite fold_left_app. exact (Hp sid).
Qed.

(** A tool stays callable in a session exactly as long as its interface can be trusted.  After
    any history of listings, distrusted entries, distrusted responses and released sessions: a
    tool the upstream ever showed the session, since the session began, with two different
    surfaces, in an entry of doubtful bytes or in a doubtful response is refused, whatever is
    listed later; and a tool is refused for no other reason, except that the upstream named at
    least 100000 tools.  No map of the session outgrows that bound. *)
Theorem surface_pin_exact ops sid tool :
  let L := life sid ops in
  (DistrustedAll ∈ L \/ suspect L tool -> Broken (run ops) sid tool = true) /\
  (Broken (run ops) sid tool = true -> DistrustedAll ∈ L \/ suspect L tool \/ flooded L) /\
  exists m, run ops = Some m /\
    Z.of_nat (size (hashes (session m sid))) <= maxSessionSurfaceEntries /\
    Z.of_nat (size (broken (session m sid))) <= maxSessionSurfaceEntries.
Proof.
  cbv zeta. destruct (run_faithful ops) as (m & -> & Hp). destruct (Hp sid) as [Hc Hs].
  assert (Broken (Some m) sid tool = brokenIn (session m sid) tool) as ->.
  { cbn. unfold session. by destruct (m !! sid). }
  rewrite brokenIn_true. split; [|split; [|exists m; split_and!; [done | apply Hs | apply Hs]]].
  - intros [H|[H|(h1 & h2 & H1 & H2 & Hn)]]; [left; by apply Hc | by apply brokenIn_true, Hc |].
    apply brokenIn_true. destruct (c_adv _ _ Hc _ _ H1) as [H1'|]; [|done].
    destruct (c_adv _ _ Hc _ _ H2) as [H2'|]; [congruence | done].
  - intros [H|H]; [destruct (s_allbroken _ _ Hs H); tauto | right; left; by apply Hs].
Qed.

End SurfacePin.
