(* ===== verification/ManifestPDP.v ===== *)
(** * The manifest decision point

    internal/pdp/pdp.go: the decision point a route without a token runs, which applies the
    manifest to tool calls, resource reads, prompt requests, cancellations and sampling, and
    hardens the refusals of a layer wrapped around it.  The kill switch is asked first, then
    the two interface pins (the manifest's description hashes and the session's baseline,
    SurfacePin.v), then the best constraint is selected and the engine of Engine.v decides.

    The state of the decision point is a [ManifestPDP]; decisions read it and act on the
    engine's world.  The kill switch is what its [ShouldBlock] answers at the time of the
    call.  Request ids and timestamps are inputs: a decision returns one response, stamped
    with the ones it is given.  The engine is wired, as the constructor asks for. *)
From stdpp Require Import base tactics list gmap strings fin_sets.
From Stdlib Require Import ZArith Lia Ascii String.
From S2P Require Import Prelude GoStrings GoPath CallCounter Capability Selection.
From S2P Require Import Anchor Backends Engine KillSwitch SurfacePin.
#[local] Open Scope string_scope.
#[local] Open Scope go_scope.
Import Capability Selection Anchor Backends Engine.

Module ManifestPDP.

Record EnforceTarget := mkEnforceTarget { et_Type : string; et_Name : string }.

(** ** The caller's token (jwt.go)

    [flatClaims] and [parsedCaps] only cache what is computed from the other fields. *)
Record JWTClaims := mkClaims {
  jc_Capabilities : list string;
  jc_HasCapabilities : bool;
  jc_TaskID : string;
  jc_AgentID : string;
  jc_Subject : string;
  jc_TokenID : string;
  jc_Issuer : string;
  jc_Audiences : list string;
  jc_Extra : gmap string value;
}.

Definition reservedClaimKeys : list string := ["sub"; "iss"; "task_id"; "agent_id"].

Definition set_claim (k v : string) (m : gmap string value) : gmap string value :=
  if String.eqb v "" then m else <[k := VString v]> m.

Definition buildFlatClaims (c : JWTClaims) : gmap string value :=
  let m := filter (fun kv => one_of kv.1 reservedClaimKeys = false) (jc_Extra c) in
  set_claim "agent_id" (jc_AgentID c)
    (set_claim "task_id" (jc_TaskID c)
       (set_claim "iss" (jc_Issuer c) (set_claim "sub" (jc_Subject c) m))).

Definition flatMap (c : option JWTClaims) : gmap string value :=
  match c with None => ∅ | Some c => buildFlatClaims c end.

Definition TaskAnchor (c : option JWTClaims) : option string := ResolveTaskVar TaskVarID (flatMap c).

(** The values a request's context carries into the decision point. *)
Record PCtx := mkPCtx {
  engine_ctx : Ctx;
  ctx_claims : option JWTClaims;
  ctx_declared : list string;
  ctx_sessionID : string;
  ctx_completeListing : bool;
}.

Definition jwtClaimsAsMap (ctx : PCtx) : gmap string value := flatMap (ctx_claims ctx).
Definition declaredLabelsFromContext (ctx : PCtx) : list string := ctx_declared ctx.

Definition killSubjectFromContext (ctx : PCtx) (sessionID : string) : KillSwitch.Subject :=
  match ctx_claims ctx with
  | Some c => KillSwitch.mkSubject (jc_AgentID c) sessionID (jc_TokenID c)
  | None => KillSwitch.mkSubject "" sessionID ""
  end.

(** ** Targets *)

Record parsedTarget := mkParsed { pt_typ : string; pt_bare : string; pt_parseErr : bool }.

Definition parseOne (c : Constraint) : parsedTarget :=
  match ParseTarget (Target c) with
  | Err _ => mkParsed "" "" true
  | Ok (typ, bare) => mkParsed typ bare false
  end.

Definition requiredActionFor (t : string) : string :=
  if String.eqb t TargetTypeResource then "read"
  else if String.eqb t TargetTypePrompt then "get"
  else if String.eqb t TargetTypeSystem then "allow"
  else "call".

Definition targetOperationPhrase (t : string) : string :=
  if String.eqb t TargetTypeResource then "resource reads"
  else if String.eqb t TargetTypePrompt then "prompts/get"
  else t.

Definition containsAction (actions : list string) (act : string) : bool :=
  existsb (fun a => String.eqb a act || String.eqb a "*") actions.

Definition matchBare (pattern name : string) : bool := MatchesResource pattern name.
Definition bareSpecificity (pattern name : string) : Z := ResourceSpecificity pattern name.

Definition globMeta : list ascii := ["*"; "?"; "["; "\"]%char.
Definition ContainsGlobMeta (s : string) : bool := existsb (fun c => contains_char c s) globMeta.

Definition IsExactTool (c : Constraint) : bool :=
  match ParseTarget (Target c) with
  | Err _ => false
  | Ok (typ, name) => String.eqb typ TargetTypeTool && negb (ContainsGlobMeta name)
  end.

Definition IsPinnedExactTool (c : Constraint) : bool :=
  negb (String.eqb (DescriptionHash c) "") && IsExactTool c.

Definition ConstraintHasResponseDirective (c : Constraint) : bool :=
  existsb IsRedactFieldsDirective (Directives c).

(** The names a sequenceBlock condition can ask about. *)
Definition antecedentsOf (c : Constraint) : list string :=
  flat_map (fun cond =>
    match cond with
    | Cond (SequenceBlock afterTools) =>
        List.filter (fun b => negb (String.eqb b ""))
          (map (fun prior => TrimSpace (StripEnginePrefix prior)) afterTools)
    | _ => []
    end) (Conditions c).

Definition collectSequenceAntecedents (caps : list Constraint) : gset string :=
  list_to_set (flat_map antecedentsOf caps).

Definition labelOutputLabels (c : Constraint) : list string :=
  flat_map (fun d => match d with Dir (LabelOutput ls) => ls | _ => [] end) (Directives c).

Definition labelSetContainsAll (have want : list string) : bool :=
  forallb (fun w => one_of w have) want.

Definition replaceLabelOutputDirective (dirs : list dir_iface) (labels : list string) : list dir_iface :=
  (List.filter (fun d => negb (IsLabelOutputDirective d)) dirs ++ [Dir (LabelOutput labels)])%list.

Definition with_directives (c : Constraint) (dirs : list dir_iface) : Constraint :=
  mkConstraint (Target c) (Actions c) (Enforcement c) (DescriptionHash c) (ArgumentSchema_ c) (Principal c)
    (Effect c) (Conditions c) dirs.

(** ** The decision point *)

Section pdp.
Context {C F : Type} `{CallCounterBackend C} `{FlowStoreBackend F} `{Leaf}.

Abbreviation EngineState := (@Engine.EngineState C F).
Abbreviation act A := (M C F A).

(** What the kill switch answers, or that it cannot. *)
Definition Checker : Type := KillSwitch.Subject -> result bool string.

Record ManifestPDP := mkPDP {
  caps : list Constraint;
  engine : EngineState;
  ks : option Checker;
  parsedTargets : list parsedTarget;
  observedToolHash : gmap string string;
  poisonedTools : gset string;
  pinnedTools : gmap string string;
  sequenceAntecedents : gset string;
  surface : option (gmap string SurfacePin.sessionSurface);
  anyLabelOutput : bool;
}.

(** The first pin of a name wins. *)
Definition pinStep (m : gmap string string) (c : Constraint) : gmap string string :=
  match ParseTarget (Target c) with
  | Err _ => m
  | Ok (_, bare) =>
      if IsPinnedExactTool c then
        match m !! bare with Some _ => m | None => <[bare := DescriptionHash c]> m end
      else m
  end.

Definition NewManifestPDP (caps : list Constraint) (engine : EngineState) (ks : option Checker) : ManifestPDP :=
  mkPDP caps engine ks (map parseOne caps) ∅ ∅ (fold_left pinStep caps ∅) (collectSequenceAntecedents caps)
    (Some SurfacePin.NewSurfaceBaseline)
    (existsb (fun c => existsb IsLabelOutputDirective (Directives c)) caps).

(** *** Responses *)

Definition denyResponseWithDetails (rid t code condType : string) (msg : message) (dets : details) : EnforceResponse :=
  Engine.denyResponse rid t false [] (mkDenial code condType msg false dets).

Definition pdpDeny (rid t code condType : string) (msg : message) : EnforceResponse :=
  denyResponseWithDetails rid t code condType msg [].

Definition with_denial (r : EnforceResponse) (d : option DenialInfo) : EnforceResponse :=
  mkResponse (RequestID r) (Decision_ r) (AuditOnly r) (Obligations r) d (DecidedAt r) (LabelsOut r)
    (CarriedLabels r) (Effect_ r) (HandlerFaults r).
Definition with_auditOnly (r : EnforceResponse) (b : bool) : EnforceResponse :=
  mkResponse (RequestID r) (Decision_ r) b (Obligations r) (Denial r) (DecidedAt r) (LabelsOut r)
    (CarriedLabels r) (Effect_ r) (HandlerFaults r).
Definition with_labelsOut (r : EnforceResponse) (ls : list string) : EnforceResponse :=
  mkResponse (RequestID r) (Decision_ r) (AuditOnly r) (Obligations r) (Denial r) (DecidedAt r) ls
    (CarriedLabels r) (Effect_ r) (HandlerFaults r).

Definition overridden (d : DenialInfo) : DenialInfo :=
  mkDenial (Code d) (ConditionType_ d) (Message d) true (Details d).

Definition hardDenyResponse (rid t code : string) (msg : message) : EnforceResponse :=
  let resp := pdpDeny rid t code "" msg in with_denial resp (overridden <$> Denial resp).

Definition newAllowResponse (rid t : string) : EnforceResponse :=
  mkResponse rid DecisionAllow false [] None t [] [] None [].

Definition killCheck (ctx : PCtx) (ks : option Checker) (sessionID rid t : string) : option EnforceResponse :=
  match ks with
  | None => None
  | Some shouldBlock =>
      match shouldBlock (killSubjectFromContext ctx sessionID) with
      | Err err => Some (pdpDeny rid t ErrCodeKillSwitchError "" (Msgf "kill switch check failed: %v" [err]))
      | Ok true =>
          Some (pdpDeny rid t ErrCodeKillSwitch "" (Msg "session has been terminated by a kill-switch command"))
      | Ok false => None
      end
  end.

Definition CheckKill (p : ManifestPDP) (ctx : PCtx) (sessionID rid t : string) : option EnforceResponse :=
  killCheck ctx (ks p) sessionID rid t.

(** *** The description pins *)

Definition set_pins (p : ManifestPDP) (observed : gmap string string) (poisoned : gset string) : ManifestPDP :=
  mkPDP (caps p) (engine p) (ks p) (parsedTargets p) observed poisoned (pinnedTools p) (sequenceAntecedents p)
    (surface p) (anyLabelOutput p).
Definition set_surface (p : ManifestPDP) (b : option (gmap string SurfacePin.sessionSurface)) : ManifestPDP :=
  mkPDP (caps p) (engine p) (ks p) (parsedTargets p) (observedToolHash p) (poisonedTools p) (pinnedTools p)
    (sequenceAntecedents p) b (anyLabelOutput p).

Definition recordObservedHash (name h pin : string) (p : ManifestPDP) : ManifestPDP :=
  let needsPoison := negb (String.eqb pin "") && negb (String.eqb h pin) in
  if bool_decide (observedToolHash p !! name = Some h) && (negb needsPoison || bool_decide (name ∈ poisonedTools p))
  then p
  else set_pins p (<[name := h]> (observedToolHash p))
         (if needsPoison then {[name]} ∪ poisonedTools p else poisonedTools p).

Definition isToolPoisoned (p : ManifestPDP) (name : string) : bool := bool_decide (name ∈ poisonedTools p).

Definition markToolPoisoned (name : string) (p : ManifestPDP) : ManifestPDP :=
  set_pins p (observedToolHash p) ({[name]} ∪ poisonedTools p).

Definition hasPinnedTools (p : ManifestPDP) : bool := negb (bool_decide (pinnedTools p = ∅)).

Definition poisonAllPinned (p : ManifestPDP) : ManifestPDP :=
  if negb (hasPinnedTools p) then p
  else set_pins p (observedToolHash p) (dom (pinnedTools p) ∪ poisonedTools p).

Definition pinViolated (p : ManifestPDP) (name pin : string) : bool :=
  bool_decide (name ∈ poisonedTools p) ||
  match observedToolHash p !! name with Some observed => negb (String.eqb observed pin) | None => false end.

Definition recordPinnedToolHash (name surface : string) (p : ManifestPDP) : ManifestPDP :=
  match pinnedTools p !! name with
  | Some pin => recordObservedHash name surface pin p
  | None => p
  end.

Definition anyNamePinned (p : ManifestPDP) (names : list string) : bool :=
  existsb (fun n => bool_decide (is_Some (pinnedTools p !! n))) names.

(** *** Selection *)

Definition parsedTargetAt (p : ManifestPDP) (i : nat) (c : Constraint) : parsedTarget :=
  if (List.length (parsedTargets p) =? List.length (caps p))%nat
  then default (parseOne c) (parsedTargets p !! i) else parseOne c.

Definition names (p : ManifestPDP) (target : EnforceTarget) (i : nat) (c : Constraint) : bool :=
  let pt := parsedTargetAt p i c in
  negb (pt_parseErr pt || negb (String.eqb (pt_typ pt) (et_Type target))
        || negb (matchBare (pt_bare pt) (et_Name target))).

(** The loop over the entries, with the best that permits the action and the best of any. *)
Fixpoint findFrom (p : ManifestPDP) (target : EnforceTarget) (claims : gmap string value) (i : nat)
    (rest : list Constraint) (primary fallback : ConstraintScorer) : ConstraintScorer * ConstraintScorer :=
  match rest with
  | [] => (primary, fallback)
  | c :: rest =>
      if names p target i c && PrincipalMatches c claims then
        let s := bareSpecificity (pt_bare (parsedTargetAt p i c)) (et_Name target) in
        findFrom p target claims (S i) rest
          (if containsAction (Actions c) (requiredActionFor (et_Type target))
           then Offer primary (Z.of_nat i) s (HasPrincipal c) else primary)
          (Offer fallback (Z.of_nat i) s (HasPrincipal c))
      else findFrom p target claims (S i) rest primary fallback
  end.

Definition findConstraint (p : ManifestPDP) (target : EnforceTarget) (claims : gmap string value) : option Constraint :=
  let '(primary, fallback) := findFrom p target claims 0 (caps p) NewConstraintScorer NewConstraintScorer in
  if (0 <=? best primary)%Z then caps p !! Z.to_nat (best primary)
  else if (0 <=? best fallback)%Z then caps p !! Z.to_nat (best fallback)
  else None.

(** The entries that name a target, whoever they are scoped to. *)
Definition naming (p : ManifestPDP) (target : EnforceTarget) : list Constraint :=
  List.concat (imap (fun i c => if names p target i c then [c] else []) (caps p)).

Definition directivesNamingTarget (p : ManifestPDP) (target : EnforceTarget) : list dir_iface :=
  flat_map Directives (naming p target).

Fixpoint dedup (seen : list string) (ls : list string) : list string :=
  match ls with
  | [] => []
  | l :: rest => if one_of l seen then dedup seen rest else l :: dedup (l :: seen) rest
  end.

Definition labelOutputNamingTarget (p : ManifestPDP) (target : EnforceTarget) : list string :=
  dedup [] (flat_map labelOutputLabels (naming p target)).

Definition target_name (target : EnforceTarget) : string := et_Type target ++ ":" ++ et_Name target.

Definition bareConstraint (target : string) (dirs : list dir_iface) : Constraint :=
  mkConstraint target [] "" "" None ∅ None [] dirs.

Definition namingSourceConstraint (target : EnforceTarget) (labels : list string) : option Constraint :=
  match labels with
  | [] => None
  | _ => Some (bareConstraint (target_name target) [Dir (LabelOutput labels)])
  end.

Definition constraintWithUnionLabelOutput (p : ManifestPDP) (matched : Constraint) (target : EnforceTarget) : Constraint :=
  if negb (anyLabelOutput p) then matched
  else
    let union := labelOutputNamingTarget p target in
    if (List.length union =? 0)%nat || labelSetContainsAll (labelOutputLabels matched) union then matched
    else with_directives matched (replaceLabelOutputDirective (Directives matched) union).

(** *** Refusals that will be forwarded *)

Definition willForwardDeny (ctx : PCtx) (matched : option Constraint) : bool :=
  WillForwardDeny (engine_ctx ctx) matched.

(** Not an allow, and not exempt from the observe posture. *)
Definition downgraded (r : EnforceResponse) : bool :=
  bool_decide (Decision_ r <> DecisionAllow) && match Denial r with None => true | d => Downgradable d end.

Definition withForwardObligationsFor (ctx : PCtx) (r : EnforceResponse) (matched : Constraint) : EnforceResponse :=
  if bool_decide (Decision_ r = DecisionAllow) || (0 <? List.length (Obligations r))%nat then r
  else if negb (willForwardDeny ctx (Some matched)) then r
  else
    match CollectObligations (Some matched) (RequestID r) (DecidedAt r) with
    | (_, Some deny) => deny
    | (obs, None) => set_Obligations r obs
    end.

Definition withForwardObligations (ctx : PCtx) (r : EnforceResponse) (target : EnforceTarget) (dirs : list dir_iface)
    : EnforceResponse :=
  if bool_decide (Decision_ r = DecisionAllow) || (0 <? List.length (Obligations r))%nat
     || negb (willForwardDeny ctx None) then r
  else
    match CollectObligations (Some (bareConstraint (target_name target) dirs)) (RequestID r) (DecidedAt r) with
    | (_, Some deny) => deny
    | (obs, None) => if (List.length obs =? 0)%nat then r else set_Obligations r obs
    end.

(** [Err] is the refusal that overrides the response, [Ok] the response with its labels. *)
Definition recordAuditModeAntecedent (p : ManifestPDP) (ctx : PCtx) (r : EnforceRequest) (matched : option Constraint)
    (recordAntecedent : bool) (resp : EnforceResponse) (rid t : string) : act (result EnforceResponse EnforceResponse) :=
  if negb (willForwardDeny ctx matched && downgraded resp) then ret (Ok resp)
  else
    let flowRelevant := match matched with Some c => ConstraintHasFlow c | None => false end in
    let! peeked :=
      (if flowRelevant && (List.length (CarriedLabels resp) =? 0)%nat
       then PeekSessionLabels (Some (engine p)) (Some r) else ret (Ok [])) in
    match peeked with
    | Err err =>
        ret (Err (hardDenyResponse rid t ErrCodeEnforcementError (Msgf "audit-mode flow-label peek failed: %v" [err])))
    | Ok incoming =>
        let carried := match CarriedLabels resp with [] => incoming | ls => ls end in
        let! recorded :=
          RecordSourceCall (Some (engine p)) (Some r) matched (mkScope flowRelevant recordAntecedent) carried in
        match recorded with
        | Err cerr =>
            ret (Err (hardDenyResponse rid t ErrCodeEnforcementError
              (Msgf (if sce_Flow cerr then "audit-mode flow-label record failed: %v"
                     else "audit-mode antecedent record failed: %v") [sce_Err cerr])))
        | Ok labels =>
            ret (Ok (if flowRelevant then
                       let resp := if (0 <? List.length labels)%nat then with_labelsOut resp labels else resp in
                       match CarriedLabels resp with [] => set_CarriedLabels resp incoming | _ => resp end
                     else resp))
        end
    end.

Definition override_or (k : EnforceResponse -> EnforceResponse) (m : act (result EnforceResponse EnforceResponse))
    : act EnforceResponse :=
  let! r := m in ret (match r with Err deny => deny | Ok resp => k resp end).

Definition recordUnmatchedForwardedState (p : ManifestPDP) (ctx : PCtx) (r : EnforceRequest) (target : EnforceTarget)
    (resp : EnforceResponse) (rid t : string) : act (result EnforceResponse EnforceResponse) :=
  let queryable := bool_decide (et_Name target ∈ sequenceAntecedents p) in
  let sourceLabels :=
    if anyLabelOutput p && willForwardDeny ctx None then labelOutputNamingTarget p target else [] in
  if negb queryable && (List.length sourceLabels =? 0)%nat then ret (Ok resp)
  else recordAuditModeAntecedent p ctx r (namingSourceConstraint target sourceLabels) queryable resp rid t.

Definition evaluateAndRecord (p : ManifestPDP) (ctx : PCtx) (r : EnforceRequest) (matched : Constraint)
    (rid t : string) : act EnforceResponse :=
  let! resp := EvaluateConditions (engine p) (engine_ctx ctx) (Some r) (Some matched) rid t in
  override_or (fun resp => resp) (recordAuditModeAntecedent p ctx r (Some matched) true resp rid t).

Definition strayToolOnlyRefusal (constraintTarget property leg consequence rid t : string) : EnforceResponse :=
  hardDenyResponse rid t ErrCodeEnforcementError
    (Msgf "constraint %q carries %s, which is tool-only and not enforced on %s; %s (fail closed)"
       [constraintTarget; property; leg; consequence]).

Definition strayRedactConsequence : string :=
  "refusing to forward a response the manifest declares redacted under a directive this leg cannot apply".

(** *** Decisions *)

Definition pinBroken (p : ManifestPDP) (name : string) : bool :=
  match pinnedTools p !! name with Some pin => pinViolated p name pin | None => false end.

Definition surfaceBroken (p : ManifestPDP) (sessionID name : string) : bool :=
  SurfacePin.Broken (surface p) sessionID name.

(** The verdicts of an entry in audit mode are downgraded and masked. *)
Definition stamp (ctx : PCtx) (matched : Constraint) (r : EnforceResponse) : EnforceResponse :=
  if bool_decide (is_Some (Denial r)) && negb (Downgradable (Denial r)) then r
  else withForwardObligationsFor ctx (if IsAuditOnly matched then with_auditOnly r true else r) matched.

Definition targetRequest (ctx : PCtx) (sessionID : string) (target : EnforceTarget) (args : list (string * value))
    (sourceIP : string) : EnforceRequest :=
  mkRequest sessionID (et_Name target) args sourceIP "" (Some (mkTarget (et_Type target) (et_Name target)))
    (jwtClaimsAsMap ctx) [] (declaredLabelsFromContext ctx).

(** From the selected entry on; [validate] is the schema mode. *)
Definition decideMatched (p : ManifestPDP) (ctx : PCtx) (target : EnforceTarget) (args : list (string * value))
    (validate : bool) (r : EnforceRequest) (matched : Constraint) (rid t : string) : act EnforceResponse :=
  let matched := constraintWithUnionLabelOutput p matched target in
  if bool_decide (is_Some (ArgumentSchema_ matched)) && negb validate then
    ret (strayToolOnlyRefusal (Target matched) "an argumentSchema" (targetOperationPhrase (et_Type target))
           "refusing to forward a request guarded by an unenforced schema" rid t)
  else if negb (String.eqb (et_Type target) TargetTypeTool) && ConstraintHasResponseDirective matched then
    ret (strayToolOnlyRefusal (Target matched) "a redactFields directive" (targetOperationPhrase (et_Type target))
           strayRedactConsequence rid t)
  else
    let required := requiredActionFor (et_Type target) in
    if negb (containsAction (Actions matched) required) then
      override_or (stamp ctx matched)
        (recordAuditModeAntecedent p ctx r (Some matched) true
           (pdpDeny rid t ErrCodeCapabilityDenied ""
              (Msgf "constraint %q does not permit %s (actions must include %q or '*'; got: %s)"
                 [Target matched; targetOperationPhrase (et_Type target); required;
                  String.concat ", " (Actions matched)])) rid t)
    else
      match (s ← ArgumentSchema_ matched; ValidateArgumentSchema args s) with
      | Some err =>
          override_or (stamp ctx matched)
            (recordAuditModeAntecedent p ctx r (Some matched) true
               (pdpDeny rid t ErrCodeInvalidParams "argumentSchema" (Msg err)) rid t)
      | None =>
          let! resp := evaluateAndRecord p ctx r matched rid t in ret (stamp ctx matched resp)
      end.

Definition decideTarget (p : ManifestPDP) (ctx : PCtx) (sessionID : string) (target : EnforceTarget)
    (args : list (string * value)) (sourceIP : string) (validate : bool) (rid t : string) : act EnforceResponse :=
  match killCheck ctx (ks p) sessionID rid t with
  | Some deny => ret deny
  | None =>
      if validate && pinBroken p (et_Name target) then
        ret (hardDenyResponse rid t ErrCodeAuthorizationFailed
          (Msgf "tool %q description no longer matches the pinned descriptionHash (the upstream description changed after the session started); refusing to forward (fail closed)"
             [et_Name target]))
      else if validate && surfaceBroken p sessionID (et_Name target) then
        ret (hardDenyResponse rid t ErrCodeAuthorizationFailed
          (Msgf "tool %q advertised a different interface surface than when this session started (description, title, annotations, or a parameter description changed); refusing to forward (fail closed) — start a new session to re-baseline after a deliberate upstream change"
             [et_Name target]))
      else
        let r := targetRequest ctx sessionID target args sourceIP in
        match findConstraint p target (jwtClaimsAsMap ctx) with
        | None =>
            override_or (fun resp => resp)
              (recordUnmatchedForwardedState p ctx r target
                 (withForwardObligations ctx
                    (pdpDeny rid t ErrCodeAuthorizationFailed ""
                       (Msgf "%s %q is not listed in the capability manifest" [et_Type target; et_Name target]))
                    target (directivesNamingTarget p target)) rid t)
        | Some matched => decideMatched p ctx target args validate r matched rid t
        end
  end.

Definition Decide (p : ManifestPDP) (ctx : PCtx) (sessionID : string) (target : EnforceTarget)
    (args : list (string * value)) (sourceIP rid t : string) : act EnforceResponse :=
  decideTarget p ctx sessionID target args sourceIP true rid t.

Definition DecideResourceRead (p : ManifestPDP) (ctx : PCtx) (sessionID uri sourceIP rid t : string)
    : act EnforceResponse :=
  decideTarget p ctx sessionID (mkEnforceTarget TargetTypeResource uri) [("uri", VString uri)] sourceIP false rid t.

Definition DecidePromptGet (p : ManifestPDP) (ctx : PCtx) (sessionID promptName sourceIP rid t : string)
    : act EnforceResponse :=
  decideTarget p ctx sessionID (mkEnforceTarget TargetTypePrompt promptName) [("name", VString promptName)] sourceIP
    false rid t.

Definition withCancelAuditPosture (r : EnforceResponse) (matched : Constraint) : EnforceResponse :=
  if IsAuditOnly matched then with_auditOnly r true else r.

Definition DecideResourceCancel (p : ManifestPDP) (ctx : PCtx) (sessionID uri rid t : string) : EnforceResponse :=
  match CheckKill p ctx sessionID rid t with
  | Some deny => deny
  | None =>
      match findConstraint p (mkEnforceTarget TargetTypeResource uri) (jwtClaimsAsMap ctx) with
      | None =>
          pdpDeny rid t ErrCodeAuthorizationFailed ""
            (Msgf "resource %q is not permitted by the capability manifest, so there is no subscription to it to cancel" [uri])
      | Some c =>
          if negb (containsAction (Actions c) (requiredActionFor TargetTypeResource)) then
            withCancelAuditPosture
              (pdpDeny rid t ErrCodeCapabilityDenied ""
                 (Msgf "resource %q is present in the manifest but not with the %q action, so there is no subscription to it to cancel"
                    [uri; requiredActionFor TargetTypeResource])) c
          else withCancelAuditPosture (newAllowResponse rid t) c
      end
  end.

Definition MethodSamplingCreateMessage := "sampling/createMessage".

Definition DecideSampling (p : ManifestPDP) (ctx : PCtx) (sessionID sourceIP rid t : string) : act EnforceResponse :=
  match killCheck ctx (ks p) sessionID rid t with
  | Some deny => ret deny
  | None =>
      let target := mkEnforceTarget TargetTypeSystem MethodSamplingCreateMessage in
      match findConstraint p target (jwtClaimsAsMap ctx) with
      | None =>
          ret (pdpDeny rid t ErrCodeSamplingDenied ""
            (Msg "server-initiated sampling requires an explicit system:sampling/createMessage opt-in in the manifest"))
      | Some matched =>
          if negb (containsAction (Actions matched) "allow") then
            ret (pdpDeny rid t ErrCodeSamplingDenied ""
              (Msgf "a system:sampling/createMessage entry exists but does not include the %q action; add %q to its actions to permit server-initiated sampling"
                 ["allow"; "allow"]))
          else if bool_decide (is_Some (ArgumentSchema_ matched)) then
            ret (strayToolOnlyRefusal (Target matched) "an argumentSchema" "sampling"
                   "refusing to forward a request guarded by an unenforced schema" rid t)
          else if ConstraintHasResponseDirective matched then
            ret (strayToolOnlyRefusal (Target matched) "a redactFields directive" "sampling" strayRedactConsequence rid t)
          else if IsAuditOnly matched then
            ret (hardDenyResponse rid t ErrCodeEnforcementError
              (Msgf "constraint %q carries enforcement:audit, which is tool/resource-only and not supported on system:sampling/createMessage; refusing to forward sampling under an unenforced observe posture (fail closed)"
                 [Target matched]))
          else
            evaluateAndRecord p ctx
              (mkRequest sessionID MethodSamplingCreateMessage [] sourceIP ""
                 (Some (mkTarget TargetTypeSystem MethodSamplingCreateMessage)) (jwtClaimsAsMap ctx) [] [])
              matched rid t
      end
  end.

(** *** Hardening the refusals of a wrapping layer *)

(** The arguments the conditions of a target type see (jwt.go). *)
Definition conditionArgumentFor (t : string) : string * bool * bool :=
  if String.eqb t TargetTypeResource then ("uri", true, true)
  else if String.eqb t TargetTypePrompt then ("name", true, true)
  else if String.eqb t TargetTypeTool then ("", false, true)
  else ("", false, false).

Definition jwtConditionArgs (target : EnforceTarget) (args : list (string * value)) : list (string * value) :=
  let '(key, synthesized, known) := conditionArgumentFor (et_Type target) in
  if synthesized then [(key, VString (et_Name target))] else if known then args else [].

Definition hardenRequest (ctx : PCtx) (sessionID : string) (target : EnforceTarget) (args : list (string * value))
    (claims : gmap string value) : EnforceRequest :=
  mkRequest sessionID (et_Name target) (jwtConditionArgs target args) "" ""
    (Some (mkTarget (et_Type target) (et_Name target))) claims [] (declaredLabelsFromContext ctx).

Definition appendMessage (m : message) (tmpl : string) (more : list string) : message :=
  Msgf (template m ++ tmpl) (args m ++ more).

Definition hardenable (r : EnforceResponse) : bool :=
  bool_decide (Decision_ r <> DecisionAllow) && Downgradable (Denial r).

Definition hardenOnBrokenInterface (p : ManifestPDP) (sessionID : string) (r : EnforceResponse) (target : EnforceTarget)
    : EnforceResponse * bool :=
  if negb (hardenable r) || negb (String.eqb (et_Type target) TargetTypeTool) then (r, false)
  else
    let fm5Broken := pinBroken p (et_Name target) in
    if negb fm5Broken && negb (surfaceBroken p sessionID (et_Name target)) then (r, false)
    else
      let reason :=
        if fm5Broken
        then "no longer matches the descriptionHash this manifest pins for it, so the pinned surface must be re-reviewed and re-pinned"
        else "advertised a different interface surface than when this session started (interface pin), so a new session is needed to re-baseline it" in
      let denial := (fun d => mkDenial (Code d) (ConditionType_ d)
          (appendMessage (Message d)
             " (additionally: tool %q %s; this call is refused outright and cannot be forwarded by an audit-mode route)"
             [et_Name target; reason]) true (Details d)) <$> Denial r in
      (set_Obligations (with_denial r denial) [], true).

Definition composeHardened (r verdict : EnforceResponse) : EnforceResponse :=
  let denial :=
    match Denial verdict, Denial r with
    | Some dv, Some dr =>
        if String.eqb (template (Message dr)) "" then Some dv
        else Some (mkDenial (Code dv) (ConditionType_ dv)
               (appendMessage (Message dv) (" (this call was also refused by the wrapping authorization layer: " ++
                  template (Message dr) ++ ")") (args (Message dr))) (BlockOverride dv) (Details dv))
    | d, _ => d
    end in
  with_auditOnly (with_denial verdict denial) (AuditOnly verdict && AuditOnly r).

Definition hardenViaVerdict (ctx : PCtx) (r : EnforceResponse) (matched : Constraint)
    (verdictFor : act (option EnforceResponse)) : act (EnforceResponse * bool) :=
  let! verdict := verdictFor in
  match verdict with
  | None => ret (r, false)
  | Some verdict =>
      let out := composeHardened r verdict in
      if bool_decide (is_Some (Denial out)) && negb (Downgradable (Denial out))
      then ret (set_Obligations out [], true)
      else ret (withForwardObligationsFor ctx out matched, true)
  end.

Record hardenSelection := mkHardenSelection { hs_claims : gmap string value; hs_matched : option Constraint }.

Definition selectForHardening (p : ManifestPDP) (ctx : PCtx) (target : EnforceTarget) : hardenSelection :=
  let claims := jwtClaimsAsMap ctx in
  mkHardenSelection claims
    (match findConstraint p target claims with
     | Some c => if containsAction (Actions c) (requiredActionFor (et_Type target)) then Some c else None
     | None => None
     end).

Definition hardenOnEffectCeiling (p : ManifestPDP) (ctx : PCtx) (sessionID : string) (r : EnforceResponse)
    (target : EnforceTarget) (args : list (string * value)) (sel : hardenSelection) (rid t : string)
    : act (EnforceResponse * bool) :=
  if negb (hardenable r) then ret (r, false)
  else
    match hs_matched sel with
    | None => ret (r, false)
    | Some matched =>
        hardenViaVerdict ctx r matched
          (CeilingVerdictFor (Some (engine p)) (Some (hardenRequest ctx sessionID target args (hs_claims sel)))
             (Some matched) rid t)
    end.

Definition HardenRefusal (p : ManifestPDP) (ctx : PCtx) (sessionID : string) (r : EnforceResponse)
    (target : EnforceTarget) (args : list (string * value)) (rid t : string) : act EnforceResponse :=
  if bool_decide (Decision_ r = DecisionAllow) then ret r
  else if bool_decide (is_Some (Denial r)) && negb (Downgradable (Denial r)) then ret r
  else
    let '(hardened, broke) := hardenOnBrokenInterface p sessionID r target in
    if broke : bool then ret hardened
    else
      let sel := selectForHardening p ctx target in
      let! over := hardenOnEffectCeiling p ctx sessionID r target args sel rid t in
      if snd over : bool then ret (fst over)
      else
        override_or (fun resp => resp)
          (recordUnmatchedForwardedState p ctx (hardenRequest ctx sessionID target args (hs_claims sel)) target
             (withForwardObligations ctx r target (directivesNamingTarget p target)) rid t).

(** *** The rest of the contract *)

Definition ReleaseSession (p : ManifestPDP) (sessionID : string) : act ManifestPDP :=
  let! _ := ClearSessionLabels (engine p) sessionID in
  ret (set_surface p (SurfacePin.Release (surface p) sessionID)).

Definition EvaluateClaimCondition (builtins : EngineState) (p : ManifestPDP) (ctx : PCtx) (cond : cond_iface)
    (r : option EnforceRequest) : act (option ConditionError * bool) :=
  NonCommittingConditionVerdict builtins (Some (engine p)) (engine_ctx ctx) cond r.

End pdp.
End ManifestPDP.
