(* ===== verification/PDPSafety.v ===== *)
(** * What the manifest decision point guarantees

    The decisions of ManifestPDP.v as the transport acts on them: a call runs when it is
    allowed, and also when it is refused but the refusal may be downgraded by an observing
    route or an entry in audit mode ([isObserveDeny] of internal/transport/forward.go). *)
From stdpp Require Import base tactics list gmap strings fin_sets.
From Stdlib Require Import ZArith Lia Ascii String.
From S2P Require Import Prelude GoStrings GoPath CallCounter Capability Selection.
From S2P Require Import Anchor Backends Engine EngineSafety FlowControl KillSwitch SurfacePin ManifestPDP.
#[local] Open Scope string_scope.
#[local] Open Scope go_scope.
Import Capability Selection Anchor Backends Engine EngineSafety FlowControl ManifestPDP.

Module PDPSafety.

Definition isObserveDeny (denial : option DenialInfo) (auditMode auditOnly : bool) : bool :=
  Downgradable denial && (auditMode || auditOnly).

(** Whether the call reaches the upstream. *)
Definition forwarded (ctx : PCtx) (resp : EnforceResponse) : bool :=
  bool_decide (Decision_ resp = DecisionAllow) ||
  isObserveDeny (Denial resp) (SkipQuota (engine_ctx ctx)) (AuditOnly resp).

Section safety.
Context {C F : Type} `{CallCounterBackend C} `{FlowStoreBackend F} `{Leaf}.

Abbreviation World := (World C F).
Abbreviation PDP := (@ManifestPDP C F).

(** A refusal no route forwards. *)
Definition hard (resp : EnforceResponse) : Prop :=
  Decision_ resp <> DecisionAllow /\ Downgradable (Denial resp) = false.

Lemma hard_blocks ctx resp : hard resp -> forwarded ctx resp = false.
Proof. intros (Hd & Hg). unfold forwarded, isObserveDeny. by rewrite bool_decide_false, Hg by done. Qed.

Lemma hardDeny_hard rid t code msg : hard (hardDenyResponse rid t code msg).
Proof. by split. Qed.

Lemma obligDeny_hard (c : Constraint) rid t obs d :
  CollectObligations (Some c) rid t = (obs, Some d) -> hard d.
Proof.
  intros E. pose proof (obligDeny_denies c rid t d) as Hd. rewrite E in Hd.
  destruct (Hd eq_refl) as (Hdec & _ & Hg). split; [by rewrite Hdec | done].
Qed.

Lemma obligDeny_audit (c : Constraint) rid t d :
  (CollectObligations (Some c) rid t).2 = Some d -> AuditOnly d = false.
Proof.
  cbn [CollectObligations]. generalize (@nil Obligation). induction (Directives c) as [|[| |x] dirs IH]; intros obs; cbn [collectFrom];
    [done | apply IH | apply IH |]. repeat case_match; try apply IH. intros [= <-]. done.
Qed.

Lemma obligDeny_refuses (c : Constraint) rid t obs d :
  CollectObligations (Some c) rid t = (obs, Some d) -> hard d /\ AuditOnly d = false.
Proof. intros E. split; [by eapply obligDeny_hard|]. apply (obligDeny_audit c rid t). by rewrite E. Qed.

Lemma killCheck_hard ctx (k : option Checker) sid rid t resp : killCheck ctx k sid rid t = Some resp -> hard resp.
Proof. unfold killCheck. intros E. repeat case_match; simplify_eq; by split. Qed.

(** ** Running the pieces *)

Lemma override_inv k (m : M C F (result EnforceResponse EnforceResponse)) (w : World) resp w' :
  override_or k m w = (resp, w') ->
  m w = (Err resp, w') \/ exists r, m w = (Ok r, w') /\ resp = k r.
Proof.
  unfold override_or. intros E. apply bind_inv in E as (res & w1 & Em & E). apply ret_inv in E as [-> ->].
  destruct res as [r|d]; [right; by exists r | by left].
Qed.

(** The parts of a response the record of an observed call leaves alone. *)
Definition same_verdict (r1 r2 : EnforceResponse) : Prop :=
  Decision_ r1 = Decision_ r2 /\ Denial r1 = Denial r2 /\ AuditOnly r1 = AuditOnly r2 /\
  Obligations r1 = Obligations r2 /\ RequestID r1 = RequestID r2 /\ DecidedAt r1 = DecidedAt r2.

Lemma same_verdict_refl r : same_verdict r r.
Proof. done. Qed.

(** Whether this refusal is recorded as a call that runs. *)
Definition observed (ctx : PCtx) (matched : option Constraint) (resp : EnforceResponse) : bool :=
  willForwardDeny ctx matched && downgraded resp.

Definition flow_relevant (matched : option Constraint) : bool :=
  match matched with Some c => ConstraintHasFlow c | None => false end.

(** An observed refusal is overridden by a hard one, or its state is committed. *)
Lemma recordAudit_cases (p : PDP) ctx r matched ante resp rid t (w w' : World) res :
  recordAuditModeAntecedent p ctx r matched ante resp rid t w = (res, w') ->
  match res with
  | Err d => observed ctx matched resp = true /\ hard d
  | Ok r' => same_verdict r' resp /\
      (observed ctx matched resp = false -> r' = resp /\ w' = w) /\
      (observed ctx matched resp = true -> exists w1 carried out,
         (w1 = w \/ exists incoming, peekSessionLabels (engine p) r w = (Ok incoming, w1)) /\
         recordSourceCall (engine p) r matched (mkScope (flow_relevant matched) ante) carried w1 = (Ok out, w'))
  end.
Proof.
  unfold recordAuditModeAntecedent. fold (observed ctx matched resp) (flow_relevant matched). intros E.
  destruct (observed ctx matched resp); cbn [negb] in E; [|apply ret_inv in E as [-> ->]; by split_and!].
  apply bind_inv in E as (peeked & w1 & Ep & E).
  assert (w1 = w \/ exists res, peekSessionLabels (engine p) r w = (res, w1) /\ peeked = res) as Hw1.
  { destruct (flow_relevant matched && _); [right; by eexists | left; by apply ret_inv in Ep as [_ ->]]. }
  destruct peeked as [incoming|err]; [|apply ret_inv in E as [-> ->]; split; [done | apply hardDeny_hard]].
  cbv zeta in E. apply bind_inv in E as (recorded & w2 & Er & E). cbn [RecordSourceCall] in Er.
  destruct recorded as [labels|cerr]; apply ret_inv in E as [-> ->]; [|split; [done | apply hardDeny_hard]].
  split_and!; [| done |].
  - destruct (flow_relevant matched); [|done]. destruct (0 <? List.length labels)%nat; cbn; by destruct (CarriedLabels resp).
  - intros _. eexists w1, _, labels. split; [|exact Er]. destruct Hw1 as [|(res & Hres & <-)]; [by left | right; by eexists].
Qed.

Lemma same_forwarded ctx r1 r2 : same_verdict r1 r2 -> forwarded ctx r1 = forwarded ctx r2.
Proof. intros (E1 & E2 & E3 & _). unfold forwarded. by rewrite E1, E2, E3. Qed.

(** ** Masking *)

Lemma fill_cases ctx r (c : Constraint) :
  let r' := withForwardObligationsFor ctx r c in
  r' = r \/ (hard r' /\ AuditOnly r' = false) \/
  exists obs, willForwardDeny ctx (Some c) = true /\ Decision_ r <> DecisionAllow /\ Obligations r = [] /\
    CollectObligations (Some c) (RequestID r) (DecidedAt r) = (obs, None) /\ r' = set_Obligations r obs.
Proof.
  cbv zeta. unfold withForwardObligationsFor. destruct (bool_decide_reflect (Decision_ r = DecisionAllow)); [by left|].
  cbn [orb]. destruct (Nat.ltb_spec 0 (List.length (Obligations r))); [by left|].
  destruct (willForwardDeny ctx (Some c)); cbn [negb]; [|by left].
  destruct (CollectObligations (Some c) _ _) as [obs [d|]] eqn:Ec; [right; left; by eapply obligDeny_refuses|].
  right. right. exists obs. split_and!; try done. destruct (Obligations r); [done | cbn in *; lia].
Qed.

Lemma fill_naming_cases ctx r target dirs :
  let r' := withForwardObligations ctx r target dirs in
  r' = r \/ (hard r' /\ AuditOnly r' = false) \/ exists obs, r' = set_Obligations r obs.
Proof.
  cbv zeta. unfold withForwardObligations. destruct (_ || _ || _); [by left|].
  destruct (CollectObligations _ _ _) as [obs [d|]] eqn:Ec; [right; left; by eapply obligDeny_refuses|].
  destruct (List.length obs =? 0)%nat; [by left | right; right; by exists obs].
Qed.

(** A stamped response is forwarded only when the entry's posture allows it. *)
Lemma stamp_cases ctx (c : Constraint) r :
  let r' := stamp ctx c r in
  hard r' \/
  (Decision_ r' = Decision_ r /\ Denial r' = Denial r /\ LabelsOut r' = LabelsOut r /\
   (Downgradable (Denial r') = true -> AuditOnly r' = AuditOnly r || IsAuditOnly c) /\
   (Decision_ r = DecisionAllow -> Obligations r' = Obligations r)).
Proof.
  cbv zeta. unfold stamp. destruct (bool_decide (is_Some (Denial r)) && negb (Downgradable (Denial r))) eqn:Eg.
  { right. split_and!; try done. intros Hg. bools. congruence. }
  set (r0 := if IsAuditOnly c then with_auditOnly r true else r).
  assert (Decision_ r0 = Decision_ r /\ Denial r0 = Denial r /\ LabelsOut r0 = LabelsOut r /\
          AuditOnly r0 = AuditOnly r || IsAuditOnly c /\ Obligations r0 = Obligations r) as (E1 & E2 & E3 & E4 & E5).
  { unfold r0. destruct (IsAuditOnly c); cbn; by rewrite ?orb_true_r, ?orb_false_r. }
  destruct (fill_cases ctx r0 c) as [->|[[Hh _]|(obs & _ & Hd & _ & _ & ->)]]; [right | by left | right]; split_and!; try done.
  intros Ha. congruence.
Qed.

(** ** Selection *)

(** The tables the constructor computes; nothing changes them afterwards. *)
Record wired (p : PDP) : Prop := mkWired {
  w_parsed : parsedTargets p = map parseOne (caps p);
  w_pinned : pinnedTools p = fold_left pinStep (caps p) ∅;
  w_antecedents : sequenceAntecedents p = collectSequenceAntecedents (caps p);
  w_labels : anyLabelOutput p = existsb (fun c => existsb IsLabelOutputDirective (Directives c)) (caps p);
}.

Lemma wired_new cs e k : wired (NewManifestPDP cs e k).
Proof. done. Qed.

(** An entry names a target by its namespace and pattern. *)
Definition entry_names (target : EnforceTarget) (c : Constraint) : bool :=
  let pt := parseOne c in
  negb (pt_parseErr pt || negb (String.eqb (pt_typ pt) (et_Type target))
        || negb (matchBare (pt_bare pt) (et_Name target))).

Lemma parsedTargetAt_wired (p : PDP) i c : wired p -> caps p !! i = Some c -> parsedTargetAt p i c = parseOne c.
Proof.
  intros Hw Hi. unfold parsedTargetAt. rewrite (w_parsed _ Hw), length_map, Nat.eqb_refl, list_lookup_fmap, Hi. done.
Qed.

Lemma names_wired (p : PDP) target i c :
  wired p -> caps p !! i = Some c -> names p target i c = entry_names target c.
Proof. intros Hw Hi. unfold names, entry_names. by rewrite (parsedTargetAt_wired p i c Hw Hi). Qed.

Lemma specificity_above_floor pat name : (NoMatchScore < ResourceSpecificity pat name)%Z.
Proof.
  destruct (decide (pat = name)) as [->|Hne].
  - unfold ResourceSpecificity. rewrite String.eqb_refl. by vm_compute.
  - pose proof (specificity_glob _ _ Hne) as Hs. pose proof (counts_bounds pat). unfold NoMatchScore. lia.
Qed.

(** What a scorer holds after the first [n] entries of which [P] holds were offered to it. *)
Definition tracks (cs : list Constraint) (P : Constraint -> bool) (n : nat) (sc : ConstraintScorer) : Prop :=
  (sc = NewConstraintScorer /\ forall j c, (j < n)%nat -> cs !! j = Some c -> P c = false) \/
  exists i c, best sc = Z.of_nat i /\ cs !! i = Some c /\ P c = true.

Lemma tracks_skip cs P n sc c : tracks cs P n sc -> cs !! n = Some c -> P c = false -> tracks cs P (S n) sc.
Proof.
  intros [[-> Hno]|Hs] Hc HP; [left; split; [done|] | by right]. intros j c' Hj Hc'.
  destruct (decide (j = n)) as [->|]; [congruence | apply (Hno j); [lia | done]].
Qed.

Lemma tracks_offer cs P n sc c s b :
  tracks cs P n sc -> cs !! n = Some c -> P c = true -> (NoMatchScore < s)%Z ->
  tracks cs P (S n) (Offer sc (Z.of_nat n) s b).
Proof.
  intros Ht Hc HP Hs. right. unfold Offer. destruct Ht as [[-> _]|(i & ci & Hb & Hci & HPi)].
  - cbn [NewConstraintScorer bestScore]. apply Z.ltb_lt in Hs. rewrite Hs. cbn. by exists n, c.
  - destruct (_ || _); [by exists n, c | by exists i, ci].
Qed.

Definition candidate (target : EnforceTarget) (claims : gmap string value) (c : Constraint) : bool :=
  entry_names target c && PrincipalMatches c claims.

Definition permits (target : EnforceTarget) (c : Constraint) : bool :=
  containsAction (Actions c) (requiredActionFor (et_Type target)).

Lemma findFrom_tracks (p : PDP) target claims : wired p -> forall rest n primary fallback,
  drop n (caps p) = rest ->
  tracks (caps p) (fun c => candidate target claims c && permits target c) n primary ->
  tracks (caps p) (candidate target claims) n fallback ->
  let '(primary', fallback') := findFrom p target claims n rest primary fallback in
  tracks (caps p) (fun c => candidate target claims c && permits target c) (List.length (caps p)) primary' /\
  tracks (caps p) (candidate target claims) (List.length (caps p)) fallback'.
Proof.
  intros Hw. induction rest as [|c rest IH]; intros n primary fallback Hd Hp Hf; cbn [findFrom].
  - assert (List.length (caps p) <= n)%nat as Hle.
    { apply (f_equal List.length) in Hd. rewrite length_drop in Hd. cbn in Hd. lia. }
    split; [destruct Hp as [[-> Hno]|?] | destruct Hf as [[-> Hno]|?]]; [left | by right | left | by right];
      (split; [done|]; intros j c Hj; apply Hno; lia).
  - assert (caps p !! n = Some c) as Hc by (by rewrite <- (Nat.add_0_r n), <- lookup_drop, Hd).
    assert (drop (S n) (caps p) = rest) as Hd'.
    { replace (S n) with (n + 1)%nat by lia. rewrite <- drop_drop, Hd. done. }
    rewrite (names_wired p target n c Hw Hc). fold (candidate target claims c).
    destruct (candidate target claims c) eqn:Ecand; [|by apply IH; [| eapply tracks_skip; [| |rewrite Ecand]..]].
    apply IH; [done | | eapply tracks_offer; try done; apply specificity_above_floor].
    fold (permits target c). destruct (permits target c) eqn:Eperm.
    + eapply tracks_offer; try done; [by rewrite Ecand, Eperm | apply specificity_above_floor].
    + eapply tracks_skip; try done. by rewrite Ecand, Eperm.
Qed.

(** The entry found names the target for this caller, and permits the action if any does. *)
Lemma findConstraint_spec (p : PDP) target claims :
  wired p ->
  match findConstraint p target claims with
  | None => forall c, c ∈ caps p -> candidate target claims c = false
  | Some c => c ∈ caps p /\ candidate target claims c = true /\
      (permits target c = false -> forall c', c' ∈ caps p -> candidate target claims c' && permits target c' = false)
  end.
Proof.
  intros Hw. unfold findConstraint.
  pose proof (findFrom_tracks p target claims Hw (caps p) 0 NewConstraintScorer NewConstraintScorer) as Ht.
  destruct (findFrom p target claims 0 (caps p) _ _) as [primary fallback].
  destruct Ht as [Hp Hf]; [done | left; split; [done | intros; lia] | left; split; [done | intros; lia] |].
  assert (forall P, (forall j c, (j < List.length (caps p))%nat -> caps p !! j = Some c -> P c = false) ->
    forall c, c ∈ caps p -> P c = false) as Hall.
  { intros P HP c [j Hj]%list_elem_of_lookup. apply (HP j); [by eapply lookup_lt_Some | done]. }
  destruct Hp as [[-> Hno]|(i & c & Hb & Hi & HP)].
  - cbn [NewConstraintScorer best]. cbn [Z.leb Z.compare]. destruct Hf as [[-> Hnf]|(i & c & Hb & Hi & HP)].
    + cbn. by apply Hall.
    + rewrite Hb. destruct (Z.leb_spec 0 (Z.of_nat i)); [|lia]. rewrite Nat2Z.id, Hi.
      split_and!; [by eapply list_elem_of_lookup_2 | done |]. intros _. by apply Hall.
  - rewrite Hb. destruct (Z.leb_spec 0 (Z.of_nat i)); [|lia]. rewrite Nat2Z.id, Hi. bools.
    split_and!; [by eapply list_elem_of_lookup_2 | done | congruence].
Qed.

(** *** Against the engine's own selection *)

Lemma parseOne_ok c typ bare :
  ParseTarget (Target c) = Ok (typ, bare) ->
  parseOne c = mkParsed typ bare false /\ splitEnginePrefix (Target c) = (typ, bare) /\ IsTargetType typ = true.
Proof.
  intros Hp. unfold parseOne. rewrite Hp. split; [done|]. unfold ParseTarget in Hp. unfold splitEnginePrefix.
  destruct (cut_char ":" (Target c)) as [[pre rest]|]; [|done].
  destruct (IsTargetType pre) eqn:Ht; cbn [negb] in Hp; [|done]. destruct (String.eqb rest ""); [done|].
  injection Hp as <- <-. done.
Qed.

Lemma actionPermitted_contains typ actions :
  IsTargetType typ = true -> actionPermitted actions typ = containsAction actions (requiredActionFor typ).
Proof.
  intros Ht. apply one_of_spec in Ht. unfold actionPermitted, containsAction.
  assert (forall a, ValidateActionForTargetType typ a = String.eqb a (requiredActionFor typ) || String.eqb a "*") as Hv.
  { intros a. repeat (apply elem_of_cons in Ht as [->|Ht]; [cbn; by rewrite orb_false_r|]). by apply elem_of_nil in Ht. }
  induction actions as [|a actions IH]; [done|]. cbn [existsb]. by rewrite IH, Hv.
Qed.

(** A request as the decision point builds it, with a name that is not padded. *)
Definition plain_target (target : EnforceTarget) : Prop :=
  et_Type target <> "" /\ et_Name target <> "" /\ TrimSpace (et_Name target) = et_Name target.

Lemma plain_resolves ctx sid target args ip :
  plain_target target ->
  resolveRequestTarget (targetRequest ctx sid target args ip) = (et_Type target, et_Name target).
Proof.
  intros (Ht & Hn & Htrim). unfold resolveRequestTarget. cbn [targetRequest TargetName ReqTarget tgt_Type tgt_Name].
  destruct (splitEnginePrefix _). by rewrite Htrim, (proj2 (String.eqb_neq _ _) Ht), (proj2 (String.eqb_neq _ _) Hn).
Qed.

Lemma governs_candidate ctx sid target args ip c typ bare :
  plain_target target -> ParseTarget (Target c) = Ok (typ, bare) ->
  governs (targetRequest ctx sid target args ip) c =
    candidate target (jwtClaimsAsMap ctx) c && permits target c /\
  score_of (targetRequest ctx sid target args ip) c =
    (bareSpecificity (pt_bare (parseOne c)) (et_Name target) * resourceScoreWeight)%Z.
Proof.
  intros Hpl Hp. destruct (parseOne_ok _ _ _ Hp) as (Hone & Hsp & Hty).
  unfold governs, score_of, candidate, permits, entry_names, StripEnginePrefix.
  rewrite (plain_resolves ctx sid target args ip Hpl), Hsp, Hone. cbn [pt_parseErr pt_typ pt_bare fst snd orb].
  split; [|done]. destruct (String.eqb_spec typ (et_Type target)) as [<-|]; cbn [negb orb andb]; [|done].
  rewrite negb_involutive, (actionPermitted_contains typ _ Hty). unfold matchBare.
  destruct (MatchesResource bare (et_Name target)); cbn [andb]; [|done]. apply andb_comm.
Qed.

(** Two scorers that agree on the winner, one with scaled scores. *)
Definition scaled (sp se : ConstraintScorer) : Prop :=
  sp = se /\ sp = NewConstraintScorer \/
  best sp = best se /\ bestPrin sp = bestPrin se /\ bestScore se = (bestScore sp * resourceScoreWeight)%Z.

Lemma scaled_offer sp se i s b :
  scaled sp se -> (NoMatchScore < s)%Z -> (NoMatchScore < s * resourceScoreWeight)%Z ->
  scaled (Offer sp i s b) (Offer se i (s * resourceScoreWeight)%Z b).
Proof.
  intros [[<- ->]|(Hb & Hpr & Hs)] Hs1 Hs2; unfold Offer; right.
  - cbn [NewConstraintScorer bestScore]. apply Z.ltb_lt in Hs1, Hs2. by rewrite Hs1, Hs2.
  - rewrite Hpr, Hs. unfold resourceScoreWeight in *.
    assert ((bestScore sp * 10 <? s * 10)%Z = (bestScore sp <? s)%Z) as ->.
    { destruct (Z.ltb_spec (bestScore sp) s); [apply Z.ltb_lt | apply Z.ltb_ge]; lia. }
    assert ((s * 10 =? bestScore sp * 10)%Z = (s =? bestScore sp)%Z) as ->.
    { destruct (Z.eqb_spec s (bestScore sp)); [apply Z.eqb_eq | apply Z.eqb_neq]; lia. }
    by destruct (_ || _).
Qed.

Lemma findFrom_scan (p : PDP) ctx sid target args ip :
  wired p -> plain_target target -> (forall c, c ∈ caps p -> is_ok (ParseTarget (Target c)) = true) ->
  forall rest n primary fallback se, drop n (caps p) = rest -> scaled primary se ->
  scaled (fst (findFrom p target (jwtClaimsAsMap ctx) n rest primary fallback))
         (scan (targetRequest ctx sid target args ip) (Z.of_nat n) rest se).
Proof.
  intros Hw Hpl Hok. induction rest as [|c rest IH]; intros n primary fallback se Hd Hs; cbn [findFrom scan]; [done|].
  assert (caps p !! n = Some c) as Hc by (by rewrite <- (Nat.add_0_r n), <- lookup_drop, Hd).
  assert (drop (S n) (caps p) = rest) as Hd'.
  { replace (S n) with (n + 1)%nat by lia. rewrite <- drop_drop, Hd. done. }
  pose proof (Hok c (list_elem_of_lookup_2 _ _ _ Hc)) as Hp.
  destruct (ParseTarget (Target c)) as [[typ bare]|] eqn:Ep; [|done].
  destruct (governs_candidate ctx sid target args ip c typ bare Hpl Ep) as [Hg Hsc].
  rewrite (names_wired p target n c Hw Hc), (parsedTargetAt_wired p n c Hw Hc), Hg, Hsc.
  fold (candidate target (jwtClaimsAsMap ctx) c) (permits target c).
  replace (Z.of_nat n + 1)%Z with (Z.of_nat (S n)) by lia.
  destruct (candidate target (jwtClaimsAsMap ctx) c); cbn [andb]; [|by apply IH].
  apply IH; [done|]. destruct (permits target c); [|done].
  apply scaled_offer; [done | apply specificity_above_floor |]. rewrite <- Hsc. apply score_above_floor.
Qed.

(** The proxy and the engine govern a request by the same entry.  Over a manifest whose
    targets all parse, and for a target whose name is not padded with blanks, the decision
    point selects exactly the entry the engine's own selection selects; and when the engine
    finds none, an entry the decision point still returns, to refuse with the precise reason,
    does not permit the action. *)
Theorem proxy_and_engine_select_alike (p : PDP) ctx sid target args ip :
  wired p -> plain_target target -> (forall c, c ∈ caps p -> is_ok (ParseTarget (Target c)) = true) ->
  match FindMatchingCapability (Some (targetRequest ctx sid target args ip)) (caps p) with
  | Some c => findConstraint p target (jwtClaimsAsMap ctx) = Some c /\ permits target c = true
  | None => forall c, findConstraint p target (jwtClaimsAsMap ctx) = Some c -> permits target c = false
  end.
Proof.
  intros Hw Hpl Hok. set (req := targetRequest ctx sid target args ip).
  pose proof (findFrom_scan p ctx sid target args ip Hw Hpl Hok (caps p) 0 NewConstraintScorer NewConstraintScorer
    NewConstraintScorer eq_refl ltac:(by left)) as Hs.
  pose proof (findConstraint_spec p target (jwtClaimsAsMap ctx) Hw) as Hf. pose proof (select_scored req (caps p)) as He.
  assert (forall c, c ∈ caps p -> governs req c = candidate target (jwtClaimsAsMap ctx) c && permits target c) as Hgov.
  { intros c Hc. specialize (Hok c Hc). destruct (ParseTarget (Target c)) as [[typ bare]|] eqn:Ep; [|done].
    by apply (governs_candidate ctx sid target args ip c typ bare). }
  unfold FindMatchingCapability in *. cbv zeta in *. fold req in Hs. change (Z.of_nat 0) with 0%Z in Hs.
  destruct (Z.ltb_spec (best (scan req 0 (caps p) NewConstraintScorer)) 0) as [Hneg|Hpos].
  - intros c Hc. rewrite Hc in Hf. destruct Hf as (Hin & Hcand & _). apply list_elem_of_lookup in Hin as Hl. destruct Hl as [j Hj].
    specialize (He j c Hj). rewrite (Hgov c Hin), Hcand in He. done.
  - destruct (caps p !! Z.to_nat (best (scan req 0 (caps p) NewConstraintScorer))) as [c|] eqn:Ec.
    2: { intros c Hc. rewrite Hc in Hf. destruct Hf as (Hin & Hcand & _). apply list_elem_of_lookup in Hin as Hl.
         destruct Hl as [j Hj]. specialize (He j c Hj). rewrite (Hgov c Hin), Hcand in He. done. }
    destruct He as (i & Hi & Hg & _).
    assert (permits target c = true) as Hperm.
    { rewrite (Hgov c (list_elem_of_lookup_2 _ _ _ Hi)) in Hg. by bools. }
    split; [|done]. unfold findConstraint. revert Hs.
    destruct (findFrom p target (jwtClaimsAsMap ctx) 0 (caps p) _ _) as [primary fallback]. cbn [fst].
    intros [[Heq Hnew]|(Hb & _)]; [rewrite <- Heq, Hnew in Hpos; cbn in Hpos; lia|]. rewrite Hb. destruct (Z.leb_spec 0 (best (scan req 0 (caps p) NewConstraintScorer))); [done|lia].
Qed.

(** ** Revocation and the interface pins *)

(** The kill switch blocks the caller, or cannot say. *)
Definition killed (p : PDP) (ctx : PCtx) (sid : string) : Prop :=
  exists shouldBlock, ks p = Some shouldBlock /\ shouldBlock (killSubjectFromContext ctx sid) <> Ok false.

Lemma killCheck_killed (p : PDP) ctx sid rid t :
  match killCheck ctx (ks p) sid rid t with
  | Some resp => killed p ctx sid /\ hard resp
  | None => ~ killed p ctx sid
  end.
Proof.
  destruct (killCheck ctx (ks p) sid rid t) as [resp|] eqn:Ek.
  - split; [|by eapply killCheck_hard]. unfold killCheck in Ek. destruct (ks p) as [f|] eqn:Ef; [|done].
    exists f. split; [done|]. by destruct (f _) as [[]|].
  - intros (f & Ef & Hf). unfold killCheck in Ek. rewrite Ef in Ek. by destruct (f _) as [[]|].
Qed.

(** C20: A revoked caller does nothing.  While the kill switch blocks the caller's agent, session
    or token, or cannot be asked, no tool call, read, prompt, cancellation or sampling request
    is allowed, no route forwards the refusal, and the refused call leaves no trace in the
    engine's state. *)
Theorem revoked_caller_blocked (p : PDP) ctx sid rid t (w : World) :
  killed p ctx sid ->
  (forall target args ip v, exists resp,
     decideTarget p ctx sid target args ip v rid t w = (resp, w) /\ hard resp) /\
  (forall ip, exists resp, DecideSampling p ctx sid ip rid t w = (resp, w) /\ hard resp) /\
  (forall uri, hard (DecideResourceCancel p ctx sid uri rid t)).
Proof.
  intros Hk. pose proof (killCheck_killed p ctx sid rid t) as Hc.
  unfold decideTarget, DecideSampling, DecideResourceCancel, CheckKill.
  destruct (killCheck ctx (ks p) sid rid t) as [resp|]; [|done]. destruct Hc as [_ Hh]. split_and!; intros; by eauto.
Qed.

(** An interface the upstream changed, by either pin. *)
Definition interface_broken (p : PDP) (sid name : string) : bool :=
  pinBroken p name || surfaceBroken p sid name.

Lemma broken_harden (p : PDP) sid r target :
  et_Type target = TargetTypeTool -> interface_broken p sid (et_Name target) = true -> hardenable r = true ->
  exists d, Denial r = Some d /\
  let '(r', broke) := hardenOnBrokenInterface p sid r target in
  broke = true /\ hard r' /\ Code <$> Denial r' = Some (Code d) /\ Obligations r' = [].
Proof.
  intros Ht Hb Hh. unfold hardenOnBrokenInterface. rewrite Hh, Ht, String.eqb_refl. cbn [negb orb].
  apply orb_true_iff in Hb. unfold hardenable in Hh. bools. destruct (Denial r) as [d|] eqn:Ed; [|done].
  exists d. split; [done|]. destruct (pinBroken p (et_Name target)); cbn [negb andb].
  - by split_and!.
  - destruct Hb as [?|Hb]; [done|]. rewrite Hb. cbn. by split_and!.
Qed.

(** C21: A tool whose interface changed is refused outright.  Once the upstream has shown a tool
    with a surface other than the one the manifest pins, or than the one the session began
    with, every call of it is refused with a refusal no route forwards, whatever entry governs
    it and whatever the token grants; and a refusal another layer makes for such a call
    becomes one no route forwards, keeping its code.  None of these touches the engine's
    state. *)
Theorem broken_interface_blocked (p : PDP) ctx sid target rid t (w : World) :
  et_Type target = TargetTypeTool -> interface_broken p sid (et_Name target) = true ->
  (forall args ip, exists resp, Decide p ctx sid target args ip rid t w = (resp, w) /\ hard resp) /\
  (forall r args d, Decision_ r <> DecisionAllow -> Denial r = Some d -> exists resp,
     HardenRefusal p ctx sid r target args rid t w = (resp, w) /\ hard resp /\ Code <$> Denial resp = Some (Code d)).
Proof.
  intros Ht Hb. split.
  - intros args ip. unfold Decide, decideTarget. pose proof (killCheck_killed p ctx sid rid t) as Hc.
    destruct (killCheck ctx (ks p) sid rid t) as [resp|]; [destruct Hc; by eauto|]. cbn [andb].
    apply orb_true_iff in Hb as [Hb|Hb].
    + rewrite Hb. eexists. split; [done | apply hardDeny_hard].
    + destruct (pinBroken p (et_Name target)); [|rewrite Hb]; (eexists; split; [done | apply hardDeny_hard]).
  - intros r args d Hd Hden. unfold HardenRefusal. rewrite bool_decide_false by done. rewrite Hden.
    rewrite bool_decide_true by done. cbn [andb]. destruct (Downgradable (Some d)) eqn:Hg; cbn [negb].
    + destruct (broken_harden p sid r target Ht Hb) as (d' & Hd' & Hh).
      { unfold hardenable. by rewrite bool_decide_true, Hden, Hg by done. }
      rewrite Hden in Hd'. injection Hd' as <-. destruct (hardenOnBrokenInterface p sid r target) as [r' broke].
      destruct Hh as (-> & Hhard & Hcode & _). by eauto.
    + exists r. split; [done|]. rewrite Hden. split; [split; [done | by rewrite Hden] | done].
Qed.

(** ** Allowed calls *)

Lemma decideTarget_inv (p : PDP) ctx sid target args ip v rid t (w : World) resp w' :
  decideTarget p ctx sid target args ip v rid t w = (resp, w') ->
  hard resp \/
  (~ killed p ctx sid /\ v && interface_broken p sid (et_Name target) = false /\
   let r := targetRequest ctx sid target args ip in
   match findConstraint p target (jwtClaimsAsMap ctx) with
   | None =>
       override_or (fun resp => resp)
         (recordUnmatchedForwardedState p ctx r target
            (withForwardObligations ctx
               (pdpDeny rid t ErrCodeAuthorizationFailed ""
                  (Msgf "%s %q is not listed in the capability manifest" [et_Type target; et_Name target]))
               target (directivesNamingTarget p target)) rid t) w = (resp, w')
   | Some matched => decideMatched p ctx target args v r matched rid t w = (resp, w')
   end).
Proof.
  unfold decideTarget. pose proof (killCheck_killed p ctx sid rid t) as Hk.
  destruct (killCheck ctx (ks p) sid rid t) as [d|]; intros E; [left; apply ret_inv in E as [-> _]; by destruct Hk|].
  unfold interface_broken. destruct (v && pinBroken p (et_Name target)) eqn:Ep.
  { left. apply ret_inv in E as [-> _]. apply hardDeny_hard. }
  destruct (v && surfaceBroken p sid (et_Name target)) eqn:Es.
  { left. apply ret_inv in E as [-> _]. apply hardDeny_hard. }
  right. split_and!; [done | by rewrite andb_orb_distrib_r, Ep, Es |]. cbv zeta.
  by destruct (findConstraint p target (jwtClaimsAsMap ctx)).
Qed.

(** A selected entry refuses hard, refuses and records, or its conditions decide. *)
Lemma decideMatched_inv (p : PDP) ctx target args v r c rid t (w : World) resp w' :
  decideMatched p ctx target args v r c rid t w = (resp, w') ->
  let c' := constraintWithUnionLabelOutput p c target in
  hard resp \/
  (exists code condType msg, ClassifyDenialCode code = DenialClassPolicy /\
     override_or (stamp ctx c') (recordAuditModeAntecedent p ctx r (Some c') true (pdpDeny rid t code condType msg) rid t) w
     = (resp, w')) \/
  ((v = false -> ArgumentSchema_ c' = None) /\
   (et_Type target <> TargetTypeTool -> ConstraintHasResponseDirective c' = false) /\
   permits target c' = true /\ (forall s, ArgumentSchema_ c' = Some s -> ValidateArgumentSchema args s = None) /\
   exists resp0 w0, EvaluateConditions (engine p) (engine_ctx ctx) (Some r) (Some c') rid t w = (resp0, w0) /\
     exists resp1, override_or (fun resp => resp) (recordAuditModeAntecedent p ctx r (Some c') true resp0 rid t) w0 = (resp1, w') /\
       resp = stamp ctx c' resp1).
Proof.
  unfold decideMatched. cbv zeta. set (c' := constraintWithUnionLabelOutput p c target). intros E.
  destruct (bool_decide (is_Some (ArgumentSchema_ c')) && negb v) eqn:Es.
  { left. apply ret_inv in E as [-> _]. apply hardDeny_hard. }
  destruct (negb (String.eqb (et_Type target) TargetTypeTool) && ConstraintHasResponseDirective c') eqn:Er.
  { left. apply ret_inv in E as [-> _]. apply hardDeny_hard. }
  fold (permits target c') in E. destruct (permits target c') eqn:Eperm; cbn [negb] in E.
  2: { right. left. by eexists ErrCodeCapabilityDenied, "", _. }
  destruct (s ← ArgumentSchema_ c'; ValidateArgumentSchema args s) as [err|] eqn:Ev.
  { right. left. by eexists ErrCodeInvalidParams, "argumentSchema", _. }
  right. right. split_and!; [| | done | |].
  - intros ->. destruct (ArgumentSchema_ c') as [sc|]; [|done]. by rewrite bool_decide_true in Es.
  - intros Ht. apply String.eqb_neq in Ht. rewrite Ht in Er. done.
  - intros sc Hsc. by rewrite Hsc in Ev.
  - apply bind_inv in E as (resp1 & w1 & Ee & E). apply ret_inv in E as [-> ->].
    unfold evaluateAndRecord in Ee. apply bind_inv in Ee as (resp0 & w0 & E0 & E1). by exists resp0, w0; eauto.
Qed.

Lemma union_target (p : PDP) c target :
  let c' := constraintWithUnionLabelOutput p c target in
  ArgumentSchema_ c' = ArgumentSchema_ c /\ Actions c' = Actions c /\ IsAuditOnly c' = IsAuditOnly c /\
  Target c' = Target c /\ Conditions c' = Conditions c /\ Effect c' = Effect c.
Proof. cbv zeta. unfold constraintWithUnionLabelOutput. by repeat case_match. Qed.

(** The refusals the decision point makes itself are never allows. *)
Lemma recordedDeny_denies (p : PDP) ctx r c' ante d rid t (w : World) resp w' k :
  Decision_ d <> DecisionAllow -> (forall r', Decision_ r' <> DecisionAllow -> Decision_ (k r') <> DecisionAllow) ->
  override_or k (recordAuditModeAntecedent p ctx r c' ante d rid t) w = (resp, w') -> Decision_ resp <> DecisionAllow.
Proof.
  intros Hd Hk E. apply override_inv in E as [E|(r' & E & ->)]; apply recordAudit_cases in E.
  - by destruct E as [_ [? _]].
  - destruct E as [(Hdec & _) _]. apply Hk. by rewrite Hdec.
Qed.

Lemma stamp_denies ctx c r : Decision_ r <> DecisionAllow -> Decision_ (stamp ctx c r) <> DecisionAllow.
Proof. intros Hd. destruct (stamp_cases ctx c r) as [[? _]|(-> & _)]; done. Qed.

(** An allow of the engine is passed on as it is, with the entry's posture. *)
Lemma stamped_allow (p : PDP) ctx r c' resp0 rid t (w0 w' : World) resp1 :
  override_or (fun resp => resp) (recordAuditModeAntecedent p ctx r (Some c') true resp0 rid t) w0 = (resp1, w') ->
  Decision_ (stamp ctx c' resp1) = DecisionAllow ->
  Decision_ resp0 = DecisionAllow /\ resp1 = resp0 /\ w' = w0.
Proof.
  intros E Ha. destruct (decide (Decision_ resp1 = DecisionAllow)) as [Ha1|Hn]; [|by destruct (stamp_denies ctx c' resp1 Hn)].
  apply override_inv in E as [E|(r' & E & ->)]; apply recordAudit_cases in E; [by destruct E as [_ [? _]]|].
  destruct E as ((Hdec & _) & Hno & _). rewrite Hdec in Ha1. split; [done|]. apply Hno.
  unfold observed, downgraded. rewrite bool_decide_false by (by intros []). by rewrite andb_false_r.
Qed.

(** C8: Complete mediation at the proxy.  When a tool call, read or prompt is allowed, the caller is
    not revoked, a tool's interface is the one that was pinned, the manifest has an entry that
    names the target for this caller and permits the action, the arguments conform to its
    schema, no property the leg cannot enforce is declared, and the engine allowed the call
    under that entry (carrying the labels every entry naming the target declares), in the very
    state the decision leaves. *)
Theorem proxy_allow_means_all_checks (p : PDP) ctx sid target args ip v rid t (w : World) resp w' :
  wired p -> decideTarget p ctx sid target args ip v rid t w = (resp, w') -> Decision_ resp = DecisionAllow ->
  ~ killed p ctx sid /\ (v = true -> interface_broken p sid (et_Name target) = false) /\
  exists c resp0, findConstraint p target (jwtClaimsAsMap ctx) = Some c /\ c ∈ caps p /\
    candidate target (jwtClaimsAsMap ctx) c = true /\ permits target c = true /\
    (v = false -> ArgumentSchema_ c = None) /\
    (forall s, ArgumentSchema_ c = Some s -> ValidateArgumentSchema args s = None) /\
    let c' := constraintWithUnionLabelOutput p c target in
    (et_Type target <> TargetTypeTool -> ConstraintHasResponseDirective c' = false) /\
    EvaluateConditions (engine p) (engine_ctx ctx) (Some (targetRequest ctx sid target args ip)) (Some c') rid t w
      = (resp0, w') /\
    Decision_ resp0 = DecisionAllow /\ Obligations resp = Obligations resp0 /\ LabelsOut resp = LabelsOut resp0.
Proof.
  intros Hw E Ha. apply decideTarget_inv in E as [[? _]|(Hk & Hb & E)]; [done|].
  split; [done|]. split; [intros ->; done|]. cbv zeta in E.
  pose proof (findConstraint_spec p target (jwtClaimsAsMap ctx) Hw) as Hf.
  destruct (findConstraint p target (jwtClaimsAsMap ctx)) as [c|].
  2: { exfalso. revert Ha. unfold recordUnmatchedForwardedState in E. set (d := withForwardObligations _ _ _ _) in E.
       assert (Decision_ d <> DecisionAllow) as Hd.
       { unfold d. destruct (fill_naming_cases ctx (pdpDeny rid t ErrCodeAuthorizationFailed ""
           (Msgf "%s %q is not listed in the capability manifest" [et_Type target; et_Name target])) target
           (directivesNamingTarget p target)) as [->|[[[? _] _]|(obs & ->)]]; done. }
       destruct (negb _ && _); [|eapply recordedDeny_denies; [exact Hd | | exact E]; done].
       apply override_inv in E as [E|(r' & E & ->)]; apply ret_inv in E as [[= ->] _]; done. }
  destruct Hf as (Hin & Hcand & _). destruct (union_target p c target) as (Hsch & Hact & _).
  apply decideMatched_inv in E as [[? _]|[(code & ct & msg & _ & E)|E]]; [done | |].
  { exfalso. revert Ha. eapply recordedDeny_denies; [| |exact E]; [done | apply stamp_denies]. }
  destruct E as (Hv & Hred & Hperm & Hval & resp0 & w0 & E0 & resp1 & E1 & ->).
  apply stamped_allow in E1 as (Ha0 & -> & ->); [|done].
  exists c, resp0. rewrite Hsch in Hv, Hval. unfold permits in *. rewrite Hact in Hperm.
  destruct (stamp_cases ctx (constraintWithUnionLabelOutput p c target) resp0) as [[? _]|(_ & _ & Hlo & _ & Hob)]; [done|].
  split_and!; try done. by apply Hob.
Qed.

End safety.
End PDPSafety.
