(* ===== verification/PDPForwarding.v ===== *)
(** * What reaches the host

    The calls the transport lets through, allowed or refused by a posture that only observes,
    leave the labels the manifest declares and carry its redactions; and a layer wrapped
    around the decision point cannot take either away. *)
From stdpp Require Import base tactics list gmap strings fin_sets.
From Stdlib Require Import ZArith Lia Ascii String.
From S2P Require Import Prelude GoStrings GoPath CallCounter Capability Selection.
From S2P Require Import Anchor Backends Engine EngineSafety FlowControl KillSwitch SurfacePin ManifestPDP PDPSafety.
#[local] Open Scope string_scope.
#[local] Open Scope go_scope.
Import Capability Selection Anchor Backends Engine EngineSafety FlowControl ManifestPDP PDPSafety.

Module PDPForwarding.

Section forwarding.
Context {C F : Type} `{CallCounterBackend C} `{FlowStoreBackend F} `{Leaf}.
Context `{!FlowStoreLaws F}.

Abbreviation World := (World C F).
Abbreviation PDP := (@ManifestPDP C F).

(** ** Labels *)

Lemma recordSourceCall_keeps_store (e : @Engine.EngineState C F) r c scope carried :
  preserves store_fine (recordSourceCall e r (Some c) scope carried).
Proof.
  intros w Hok. unfold recordSourceCall. destruct (anchorUnresolved _ _); [done|].
  destruct ((if Flow scope then recordLabels e r (Some c) else ret (Ok [])) w) as [res w1] eqn:Er.
  destruct (scopedLabels_spec e r c (Flow scope) w w1 res Hok Er) as (Hok1 & _). unfold bind at 1. rewrite Er.
  destruct res as [out|err]; [|done]. unfold bind at 1.
  pose proof (recordAntecedentIn_flow e scope r w1) as Hf. destruct (recordAntecedentIn e scope r w1) as [aerr w2].
  assert (store_fine w2) as Hok2 by (unfold store_fine in *; cbn [snd] in Hf; by rewrite Hf).
  destruct aerr as [aerr|]; [|done]. unfold bind. set (added := if Flow scope then _ else _). clearbody added.
  enough (store_fine (rollbackLabels e r added w2).2) as Hr by (by destruct (rollbackLabels e r added w2)).
  unfold rollbackLabels. destruct (negb _ || _ || _); [done|]. destruct (anchoredOnTask _ _); [done|].
  unfold bind, flow_Remove, on_flow. pose proof (remove_ok (w_flow w2) (flowKey (anchors e) r) added Hok2) as Hrm.
  by destruct (store_Remove _ _ _).
Qed.

Lemma evaluateMatched_keeps_store (e : @Engine.EngineState C F) ctx ec :
  handlers_preserve store_fine e -> preserves store_fine (evaluateMatched e ctx ec).
Proof.
  intros Hh. unfold evaluateMatched. destruct (CollectObligations _ _ _) as [obs od]. apply preserves_bind; [|intros; apply preserves_ret].
  assert (forall ctx flow carried, preserves store_fine
    (decideConditions e ctx ec flow obs od (ResolveEffect (Effect (matched ec)) (Arguments (req ec))) carried)) as Hdec.
  { intros ctx' flow carried w Hw. unfold decideConditions. unfold bind at 1.
    pose proof (runFrom_preserves store_fine e Hh ctx' ec (Conditions (matched ec)) [] w Hw) as Hr.
    fold (runPureConditions e ctx' ec) in Hr. pose proof (runPure_passes e ctx' ec w) as HP.
    destruct (runPureConditions e ctx' ec w) as [[deferred|resp] w1]; [|done]. cbn [snd] in Hr.
    destruct od; [done|]. destruct (checkEffectCeiling _ _ _ _); [done|].
    revert w1 HP Hr. intros w1 HP Hr. specialize (HP deferred w1 eq_refl).
    refine (preserves_bind _ _ _ _ _ w1 Hr).
    - eapply commit_keeps_store, Passes_deferred; done.
    - intros [faults denied]. apply preserves_bind; [|intros; apply preserves_ret]. destruct denied; [apply preserves_ret|].
      unfold commitSource. apply preserves_bind; [apply recordSourceCall_keeps_store|].
      intros [?|cerr]; [apply preserves_ret | destruct (sce_Flow cerr); apply preserves_ret]. }
  unfold decideAnchored. destruct (anchorUnresolved _ _); [apply preserves_ret|].
  destruct (negb (skipFlow e) && _); [|apply Hdec]. apply preserves_bind; [apply peek_keeps_store|].
  intros [carried|err]; [|apply preserves_ret]. apply preserves_bind; [apply Hdec | intros; apply preserves_ret].
Qed.

(** *** The posture the engine stamps *)

Definition returns {A} (Q : A -> Prop) (m : M C F A) : Prop := forall w, Q (m w).1.

Lemma returns_ret {A} (Q : A -> Prop) (a : A) : Q a -> returns Q (ret a).
Proof. by intros Ha w. Qed.

Lemma returns_bind {A B} (Q : A -> Prop) (R : B -> Prop) (m : M C F A) k :
  returns Q m -> (forall a, Q a -> returns R (k a)) -> returns R (bind m k).
Proof. intros Hm Hk w. unfold bind. specialize (Hm w). destruct (m w) as [a w1]. by apply Hk. Qed.

Lemma returns_any {A} (m : M C F A) : returns (fun _ => True) m.
Proof. by intros w. Qed.

(** A response is marked observe-only only for an entry in audit mode. *)
Definition postured (ec : evalCtx) (resp : EnforceResponse) : Prop := AuditOnly resp = true -> auditOnly ec = true.

Local Ltac posture :=
  apply returns_ret; first [exact I | done | (let Hx := fresh in intros Hx; exact Hx)].

Lemma runFrom_posture (e : @Engine.EngineState C F) ctx ec conds : forall acc,
  returns (fun x => match x with inl _ => True | inr resp => postured ec resp end) (runFrom e ctx ec conds acc).
Proof.
  induction conds as [|[| |cond] conds IH]; intros acc; cbn [runFrom]; try posture.
  destruct (handlers e !! _) as [h|]; [|posture]. destruct (committing h); [apply IH|].
  apply (returns_bind (fun x => match x with Some resp => postured ec resp | None => True end)).
  - unfold evalCondition. destruct (pure h); [|posture].
    eapply returns_bind; [apply returns_any|]. intros [err|] _; posture.
  - intros [resp|] Hr; [posture | apply IH].
Qed.

Lemma prepareFrom_posture ctx ec b deferred : forall faults p,
  returns (fun x => match x.2 with inl _ => True | inr resp => postured ec resp end)
    (prepareFrom (C := C) (F := F) ctx ec b deferred faults p).
Proof.
  induction deferred as [|d deferred IH]; intros faults p; cbn [prepareFrom]; [posture|].
  eapply returns_bind; [apply returns_any|]. intros [[commit skip] [err|]] _; [posture|].
  repeat case_match; first [apply IH | posture].
Qed.

Lemma commit_posture (e : @Engine.EngineState C F) ctx ec deferred :
  returns (fun x => match x.2 with Some resp => postured ec resp | None => True end)
    (commitDeferredConditions e ctx ec deferred).
Proof.
  unfold commitDeferredConditions. eapply returns_bind; [apply prepareFrom_posture|].
  intros [faults [p|resp]] Hr; [|posture].
  apply (returns_bind (fun x => match x with Some resp => postured ec resp | None => True end)).
  - unfold admitPrepared. destruct (buckets p); [posture|]. destruct (negb (counter e)); [posture|].
    eapply returns_bind; [apply returns_any|]. intros [r|err] _; [|posture].
    destruct (CallCounter.admitted r); posture.
  - intros d Hd. posture.
Qed.

Lemma evaluateMatched_posture (e : @Engine.EngineState C F) ctx ec :
  returns (postured ec) (evaluateMatched e ctx ec).
Proof.
  unfold evaluateMatched. pose proof (obligDeny_audit (matched ec) (requestID ec) (now ec)) as Hod.
  destruct (CollectObligations _ _ _) as [obs od]. cbn [snd] in Hod.
  assert (forall ctx flow carried, returns (postured ec)
    (decideConditions e ctx ec flow obs od (ResolveEffect (Effect (matched ec)) (Arguments (req ec))) carried)) as Hdec.
  { intros ctx' flow carried. unfold decideConditions. eapply returns_bind; [apply runFrom_posture|].
    intros [deferred|resp] Hr; [|posture]. destruct od as [d|]; [apply returns_ret; intros Hx; by rewrite (Hod d eq_refl) in Hx|].
    destruct (checkEffectCeiling _ _ _ _) as [resp|] eqn:Ec.
    { apply returns_ret. unfold checkEffectCeiling in Ec. repeat case_match; simplify_eq; by intros ?. }
    eapply returns_bind; [apply commit_posture|]. intros [faults denied] Hd. cbn [snd] in Hd.
    apply (returns_bind (postured ec)).
    - destruct denied as [resp|]; [posture|]. unfold commitSource. eapply returns_bind; [apply returns_any|].
      intros [out|cerr] _; [posture|]. destruct (sce_Flow cerr); posture.
    - intros resp Hp. apply returns_ret. unfold stampFaults. by destruct (0 <? _)%nat. }
  apply (returns_bind (postured ec)).
  - unfold decideAnchored. destruct (anchorUnresolved _ _); [posture|].
    destruct (negb (skipFlow e) && _); [|apply Hdec]. eapply returns_bind; [apply returns_any|].
    intros [carried|err] _; [|posture]. eapply returns_bind; [apply Hdec|]. intros resp Hp. apply returns_ret.
    unfold stampCarried. by destruct (_ && _).
  - intros resp Hp. apply returns_ret. destruct (WillForwardDeny _ _); [|done].
    unfold stampObligations. by repeat case_match.
Qed.

(** *** Labels every entry naming the target declares *)

Lemma elem_of_dedup ls : forall seen l, l ∈ dedup seen ls <-> l ∈ ls /\ l ∉ seen.
Proof.
  induction ls as [|x ls IH]; intros seen l; cbn [dedup]; [set_solver|].
  destruct (one_of x seen) eqn:Ex.
  - apply one_of_spec in Ex. rewrite IH, elem_of_cons. split; [naive_solver|]. intros [[->|?] ?]; done.
  - assert (x ∉ seen) by (rewrite <- one_of_spec; by rewrite Ex). rewrite !elem_of_cons, IH, not_elem_of_cons.
    destruct (decide (l = x)) as [->|]; naive_solver.
Qed.

Lemma elem_of_naming (p : PDP) target c :
  wired p -> c ∈ naming p target <-> c ∈ caps p /\ entry_names target c = true.
Proof.
  intros Hw. unfold naming. rewrite list_elem_of_In, in_concat. split.
  - intros (x & Hx & Hc). apply list_elem_of_In, elem_of_lookup_imap in Hx as (i & c' & -> & Hi).
    rewrite (names_wired p target i c' Hw Hi) in Hc. destruct (entry_names target c') eqn:En; [|done].
    destruct Hc as [->|[]]. split; [by eapply list_elem_of_lookup_2 | done].
  - intros [[i Hi]%list_elem_of_lookup Hn]. exists [c]. split; [|by left].
    apply list_elem_of_In, elem_of_lookup_imap. exists i, c. by rewrite (names_wired p target i c Hw Hi), Hn.
Qed.

(** A label some entry naming the target declares for its output. *)
Definition declared_label (p : PDP) (target : EnforceTarget) (l : string) : Prop :=
  exists c ls, c ∈ caps p /\ entry_names target c = true /\ Dir (LabelOutput ls) ∈ Directives c /\ l ∈ ls.

Lemma elem_of_labelOutputLabels c l :
  l ∈ labelOutputLabels c <-> exists ls, Dir (LabelOutput ls) ∈ Directives c /\ l ∈ ls.
Proof.
  unfold labelOutputLabels. rewrite list_elem_of_In, in_flat_map. setoid_rewrite <- list_elem_of_In. split.
  - intros (d & Hd & Hl). destruct d as [| |[fs|ls|n o]]; try (by apply elem_of_nil in Hl). by exists ls.
  - intros (ls & Hd & Hl). by eexists.
Qed.

Lemma declared_union (p : PDP) target l :
  wired p -> declared_label p target l -> l ∈ labelOutputNamingTarget p target /\ anyLabelOutput p = true.
Proof.
  intros Hw (c & ls & Hc & Hn & Hd & Hl). split.
  - unfold labelOutputNamingTarget. rewrite elem_of_dedup, list_elem_of_In, in_flat_map. split; [|set_solver].
    exists c. rewrite <- !list_elem_of_In. split; [by apply elem_of_naming|]. apply elem_of_labelOutputLabels. by exists ls.
  - rewrite (w_labels _ Hw). apply existsb_elem_of. exists c. split; [done|]. apply existsb_elem_of. by eexists.
Qed.

(** The selected entry carries them all. *)
Lemma union_carries (p : PDP) target c l :
  wired p -> declared_label p target l ->
  exists ls, Dir (LabelOutput ls) ∈ Directives (constraintWithUnionLabelOutput p c target) /\ l ∈ ls.
Proof.
  intros Hw Hdecl. destruct (declared_union p target l Hw Hdecl) as [Hu Ha].
  unfold constraintWithUnionLabelOutput. rewrite Ha. cbn [negb]. set (U := labelOutputNamingTarget p target) in *.
  destruct (Nat.eqb_spec (List.length U) 0) as [E|_]; [destruct U; [by apply elem_of_nil in Hu | done]|]. cbn [orb].
  destruct (labelSetContainsAll (labelOutputLabels c) U) eqn:Eall.
  - unfold labelSetContainsAll in Eall. rewrite forallb_elem_of in Eall. specialize (Eall l Hu).
    apply one_of_spec in Eall. by apply elem_of_labelOutputLabels.
  - exists U. split; [|done]. cbn. unfold replaceLabelOutputDirective. set_solver.
Qed.

Lemma label_flows c ls : Dir (LabelOutput ls) ∈ Directives c -> ConstraintHasFlow c = true.
Proof. intros Hd. unfold ConstraintHasFlow. apply orb_true_iff. right. apply existsb_elem_of. by eexists. Qed.

(** A recorded refusal that runs leaves the labels of its entry. *)
Lemma recordAudit_taints (p : PDP) ctx r c ante resp rid t (w w' : World) r' ls l :
  store_fine w -> skipFlow (engine p) = false -> Dir (LabelOutput ls) ∈ Directives c -> l ∈ ls ->
  recordAuditModeAntecedent p ctx r (Some c) ante resp rid t w = (Ok r', w') -> observed ctx (Some c) resp = true ->
  l ∈ taint (w_flow w') (flowKey (anchors (engine p)) r).
Proof.
  intros Hok Hskip Hd Hl E Hobs. apply recordAudit_cases in E as (_ & _ & Hrec).
  destruct (Hrec Hobs) as (w1 & carried & out & Hw1 & Hr). cbn [flow_relevant] in Hr. rewrite (label_flows c ls Hd) in Hr.
  eapply recordSourceCall_taints; [| done | exact Hd | done | exact Hr].
  destruct Hw1 as [->|(inc & Hp)]; [done|]. by eapply preserves_run; [apply peek_keeps_store | exact Hp |].
Qed.

(** A forwarded refusal was recorded as one. *)
Lemma forwarded_observed ctx c r0 r1 :
  same_verdict r1 r0 -> Decision_ r0 <> DecisionAllow -> (AuditOnly r0 = true -> IsAuditOnly c = true) ->
  forwarded ctx (stamp ctx c r1) = true -> observed ctx (Some c) r0 = true.
Proof.
  intros (E1 & E2 & E3 & _) Hd Hao Hf.
  destruct (stamp_cases ctx c r1) as [Hh|(Ed & En & _ & Ea & _)]; [by rewrite (hard_blocks ctx _ Hh) in Hf|].
  unfold forwarded, isObserveDeny in Hf. rewrite Ed, E1, bool_decide_false in Hf by done. cbn [orb] in Hf.
  apply andb_true_iff in Hf as [Hg Hpost]. rewrite (Ea Hg), E3 in Hpost. rewrite En, E2 in Hg.
  unfold observed, downgraded, willForwardDeny, WillForwardDeny. rewrite bool_decide_true by done. cbn [andb].
  assert (IsAuditOnly c = true \/ SkipQuota (engine_ctx ctx) = true) as Hor.
  { destruct (SkipQuota (engine_ctx ctx)); [by right|]. cbn [orb] in Hpost. apply orb_true_iff in Hpost as [?|?]; auto. }
  destruct (Denial r0) as [d|]; [|done]. rewrite Hg, andb_true_r. destruct Hor as [->| ->]; [done | by destruct (IsAuditOnly c)].
Qed.

(** A refusal no entry was selected for is forwarded by an observing route only. *)
Definition plain_refusal (resp : EnforceResponse) : Prop :=
  Decision_ resp <> DecisionAllow /\ AuditOnly resp = false.

Lemma forwarded_plain ctx r : plain_refusal r -> forwarded ctx r = true ->
  SkipQuota (engine_ctx ctx) = true /\ downgraded r = true /\ Downgradable (Denial r) = true.
Proof.
  intros [Hd Ha] Hf. unfold forwarded, isObserveDeny in Hf. rewrite bool_decide_false, Ha, orb_false_r in Hf by done.
  cbn [orb] in Hf. bools. split_and!; try done. unfold downgraded. rewrite bool_decide_true by done. by destruct (Denial r).
Qed.

Lemma unmatched_cases (p : PDP) ctx r target d rid t (w : World) resp w' :
  plain_refusal d ->
  override_or (fun resp => resp) (recordUnmatchedForwardedState p ctx r target d rid t) w = (resp, w') ->
  forwarded ctx resp = true ->
  same_verdict resp d /\ SkipQuota (engine_ctx ctx) = true /\ downgraded d = true /\ Downgradable (Denial d) = true /\
  (forall c, namingSourceConstraint target
     (if anyLabelOutput p then labelOutputNamingTarget p target else []) = Some c ->
     exists r' ante, recordAuditModeAntecedent p ctx r (Some c) ante d rid t w = (Ok r', w')).
Proof.
  intros Hp E Hf. unfold recordUnmatchedForwardedState in E. cbv zeta in E.
  assert (forall r', same_verdict r' d -> forwarded ctx r' = true ->
    SkipQuota (engine_ctx ctx) = true /\ downgraded d = true /\ Downgradable (Denial d) = true) as Hplain.
  { intros r' Hs Hfr. apply forwarded_plain; [done|]. by rewrite <- (same_forwarded ctx r' d Hs). }
  destruct (negb _ && (List.length _ =? 0)%nat) eqn:Eg.
  - apply override_inv in E as [E|(r' & E & ->)]; apply ret_inv in E as [[= ->] ->].
    destruct (Hplain d (same_verdict_refl d) Hf) as (Hs & Hd & Hg). split_and!; try done. intros c Hc. exfalso. bools.
    unfold willForwardDeny, WillForwardDeny in *. rewrite Hs, andb_true_r in *.
    destruct (anyLabelOutput p); [|done]. by destruct (labelOutputNamingTarget p target).
  - apply override_inv in E as [E|(r' & E & ->)].
    { apply recordAudit_cases in E as [_ Hh]. by rewrite (hard_blocks ctx _ Hh) in Hf. }
    pose proof (recordAudit_cases _ _ _ _ _ _ _ _ _ _ _ E) as (Hs & _). destruct (Hplain r' Hs Hf) as (Hsk & Hd & Hg).
    split_and!; try done. intros c Hc. unfold willForwardDeny, WillForwardDeny in E. rewrite Hsk, andb_true_r, Hc in E. by eauto.
Qed.

Lemma no_match_plain ctx rid t msg target dirs :
  let d := withForwardObligations ctx (pdpDeny rid t ErrCodeAuthorizationFailed "" msg) target dirs in
  plain_refusal d \/ hard d.
Proof.
  cbv zeta. destruct (fill_naming_cases ctx (pdpDeny rid t ErrCodeAuthorizationFailed "" msg) target dirs)
    as [->|[[Hh _]|(obs & ->)]]; [left; by split | by right | left; by split].
Qed.

Lemma hard_unmatched (p : PDP) ctx r target d rid t (w : World) resp w' :
  hard d -> override_or (fun resp => resp) (recordUnmatchedForwardedState p ctx r target d rid t) w = (resp, w') ->
  forwarded ctx resp = false.
Proof.
  intros Hh E. unfold recordUnmatchedForwardedState in E. cbv zeta in E.
  destruct (negb _ && _); apply override_inv in E as [E|(r' & E & ->)].
  - by apply ret_inv in E as [? _].
  - apply ret_inv in E as [[= ->] _]. by apply hard_blocks.
  - apply recordAudit_cases in E as [_ Hd]. by apply hard_blocks.
  - apply recordAudit_cases in E as (Hs & _). rewrite (same_forwarded ctx _ _ Hs). by apply hard_blocks.
Qed.

Lemma allow_unobserved ctx c resp : Decision_ resp = DecisionAllow -> observed ctx c resp = false.
Proof. intros Ha. unfold observed, downgraded. rewrite bool_decide_false by (by intros Hx). by rewrite andb_false_r. Qed.

(** A recorded refusal of the decision point itself, or of the engine, that is forwarded. *)
Lemma recorded_taints (p : PDP) ctx r c' resp0 rid t (w0 : World) resp w' ls l :
  skipFlow (engine p) = false -> Dir (LabelOutput ls) ∈ Directives c' -> l ∈ ls -> store_fine w0 ->
  Decision_ resp0 <> DecisionAllow -> (AuditOnly resp0 = true -> IsAuditOnly c' = true) ->
  override_or (stamp ctx c') (recordAuditModeAntecedent p ctx r (Some c') true resp0 rid t) w0 = (resp, w') ->
  forwarded ctx resp = true -> l ∈ taint (w_flow w') (flowKey (anchors (engine p)) r).
Proof.
  intros Hskip Hd Hl Hok Hn Hpost E Hf. apply override_inv in E as [E|(r' & E & ->)].
  { apply recordAudit_cases in E as [_ Hhd]. by rewrite (hard_blocks ctx _ Hhd) in Hf. }
  eapply recordAudit_taints; try done. by eapply forwarded_observed; [apply recordAudit_cases in E as (? & _)|..].
Qed.

Lemma stamp_hard ctx c r : hard r -> hard (stamp ctx c r).
Proof.
  intros [Hd Hg]. destruct (stamp_cases ctx c r) as [?|(Ed & En & _)]; [done|]. split; [by rewrite Ed | by rewrite En].
Qed.

(** The override of a record is never forwarded, stamped or not. *)
Lemma stamp_override (p : PDP) ctx r c' resp0 rid t (w0 : World) resp1 w' :
  override_or (fun resp => resp) (recordAuditModeAntecedent p ctx r (Some c') true resp0 rid t) w0 = (resp1, w') ->
  forwarded ctx (stamp ctx c' resp1) = true ->
  override_or (stamp ctx c') (recordAuditModeAntecedent p ctx r (Some c') true resp0 rid t) w0 = (stamp ctx c' resp1, w').
Proof.
  intros E Hf. apply override_inv in E as [E|(r' & E & ->)].
  - apply recordAudit_cases in E as [_ Hh]. by rewrite (hard_blocks ctx _ (stamp_hard ctx c' _ Hh)) in Hf.
  - unfold override_or, bind. by rewrite E.
Qed.

Lemma evaluated_taints (p : PDP) ctx r c' resp0 rid t (w w0 : World) resp1 w' ls l :
  handlers_preserve store_fine (engine p) -> store_fine w -> skipFlow (engine p) = false ->
  Dir (LabelOutput ls) ∈ Directives c' -> l ∈ ls ->
  EvaluateConditions (engine p) (engine_ctx ctx) (Some r) (Some c') rid t w = (resp0, w0) ->
  override_or (fun resp => resp) (recordAuditModeAntecedent p ctx r (Some c') true resp0 rid t) w0 = (resp1, w') ->
  forwarded ctx (stamp ctx c' resp1) = true -> l ∈ taint (w_flow w') (flowKey (anchors (engine p)) r).
Proof.
  intros Hh Hok Hskip Hd Hl E0 E1 Hf. cbn [EvaluateConditions] in E0.
  destruct (decide (Decision_ resp0 = DecisionAllow)) as [Ha|Hn].
  - apply override_inv in E1 as [E1|(r' & E1 & ->)]; apply recordAudit_cases in E1.
    + destruct E1 as [Ho _]. by rewrite (allow_unobserved ctx _ _ Ha) in Ho.
    + destruct E1 as (_ & Hno & _). destruct (Hno (allow_unobserved ctx _ _ Ha)) as [_ ->].
      by apply (source_taints _ _ (mkEvalCtx r c' rid t) _ _ _ ls l Hh Hok Hskip Hd Hl) in E0 as [? _].
  - apply stamp_override in E1; [|done]. eapply recorded_taints; [done | exact Hd | done | | done | | exact E1 | done].
    + by eapply preserves_run; [apply evaluateMatched_keeps_store | exact E0 |].
    + pose proof (evaluateMatched_posture (engine p) (withRequest (engine_ctx ctx) rid t) (mkEvalCtx r c' rid t) w) as Hp.
      rewrite E0 in Hp. exact Hp.
Qed.

Lemma call_taints (p : PDP) ctx sid target args ip v rid t (w : World) resp w' l :
  wired p -> handlers_preserve store_fine (engine p) -> store_fine w -> skipFlow (engine p) = false ->
  declared_label p target l ->
  decideTarget p ctx sid target args ip v rid t w = (resp, w') -> forwarded ctx resp = true ->
  l ∈ taint (w_flow w') (flowKey (anchors (engine p)) (targetRequest ctx sid target args ip)).
Proof.
  intros Hw Hh Hok Hskip Hdecl E Hf. apply decideTarget_inv in E as [Hhd|(_ & _ & E)]; [by rewrite (hard_blocks ctx _ Hhd) in Hf|].
  cbv zeta in E. set (r := targetRequest ctx sid target args ip) in *.
  destruct (findConstraint p target (jwtClaimsAsMap ctx)) as [c|].
  - destruct (union_carries p target c l Hw Hdecl) as (ls & Hd & Hl).
    apply decideMatched_inv in E as [Hhd|[(code & ct & msg & _ & E)|(_ & _ & _ & _ & resp0 & w0 & E0 & resp1 & E1 & ->)]].
    + by rewrite (hard_blocks ctx _ Hhd) in Hf.
    + eapply recorded_taints; [done | exact Hd | done | done | | | exact E | done]; done.
    + eapply evaluated_taints; [done | done | done | exact Hd | done | exact E0 | exact E1 | done].
  - destruct (declared_union p target l Hw Hdecl) as [Hu Ha].
    destruct (no_match_plain ctx rid t (Msgf "%s %q is not listed in the capability manifest" [et_Type target; et_Name target])
      target (directivesNamingTarget p target)) as [Hp|Hhd]; [|by rewrite (hard_unmatched _ _ _ _ _ _ _ _ _ _ Hhd E) in Hf].
    destruct (unmatched_cases _ _ _ _ _ _ _ _ _ _ Hp E Hf) as (_ & Hs & Hdg & _ & Hrec). rewrite Ha in Hrec.
    set (U := labelOutputNamingTarget p target) in *. destruct U as [|u U'] eqn:EU; [by apply elem_of_nil in Hu|].
    destruct (Hrec _ eq_refl) as (r' & ante & Hr). eapply recordAudit_taints; [done | done | | exact Hu | exact Hr |]; [cbn; set_solver|].
    unfold observed. rewrite Hdg, andb_true_r. unfold willForwardDeny, WillForwardDeny. by rewrite Hs; destruct (IsAuditOnly _).
Qed.

(** C22: Data that reaches the host is labelled.  For every call the transport lets through, whether
    it was allowed, or refused by a route or an entry that only observes, every label that any
    entry naming the target declares for its output is in the caller's flow state when the
    decision ends: no more specific entry, no entry for another principal and no refusal that
    only observes can shed it. *)
Theorem forwarded_call_taints (p : PDP) ctx sid target args ip v rid t (w : World) resp w' l :
  wired p -> handlers_preserve store_fine (engine p) -> store_fine w -> skipFlow (engine p) = false ->
  declared_label p target l ->
  decideTarget p ctx sid target args ip v rid t w = (resp, w') -> forwarded ctx resp = true ->
  l ∈ taint (w_flow w') (flowKey (anchors (engine p)) (targetRequest ctx sid target args ip)).
Proof. apply call_taints. Qed.

(** ** Redactions *)

Lemma collect_ids (c : Constraint) rid t rid' t' :
  (CollectObligations (Some c) rid t).1 = (CollectObligations (Some c) rid' t').1.
Proof.
  cbn [CollectObligations]. generalize (@nil Obligation).
  induction (Directives c) as [|[| |d] dirs IH]; intros obs; cbn [collectFrom]; [done | apply IH | apply IH |].
  repeat case_match; first [apply IH | done].
Qed.

(** Directives that only label are not collected. *)
Lemma collect_skips_label target rid t d dirs obs :
  IsLabelOutputDirective d = true -> collectFrom target rid t (d :: dirs) obs = collectFrom target rid t dirs obs.
Proof. intros Hd. destruct d as [|k|[fs|ls|n o]]; try done; unfold IsLabelOutputDirective, dir_is in Hd; by bools. Qed.

Lemma collect_filter target rid t U dirs : forall obs,
  collectFrom target rid t (replaceLabelOutputDirective dirs U) obs = collectFrom target rid t dirs obs.
Proof.
  unfold replaceLabelOutputDirective. induction dirs as [|d dirs IH]; intros obs; [done|]. cbn [List.filter].
  destruct (IsLabelOutputDirective d) eqn:Ed; cbn [negb].
  - rewrite (collect_skips_label target rid t d dirs obs Ed). apply IH.
  - cbn [app]. destruct d as [|k|d]; cbn [collectFrom]; [apply IH | apply IH |]. repeat case_match; first [apply IH | done].
Qed.

(** The union of labels does not change what is redacted. *)
Lemma collect_union (p : PDP) c target rid t :
  CollectObligations (Some (constraintWithUnionLabelOutput p c target)) rid t = CollectObligations (Some c) rid t.
Proof. unfold constraintWithUnionLabelOutput. repeat case_match; try done. apply collect_filter. Qed.

Lemma tool_prefix target : et_Type target = TargetTypeTool -> fst (splitEnginePrefix (target_name target)) = TargetTypeTool.
Proof. intros Ht. unfold target_name. rewrite Ht. done. Qed.

Lemma candidate_tool target claims c :
  et_Type target = TargetTypeTool -> candidate target claims c = true -> fst (splitEnginePrefix (Target c)) = TargetTypeTool.
Proof.
  intros Ht Hc. unfold candidate, entry_names in Hc. apply andb_true_iff in Hc as [Hn _]. bools.
  unfold parseOne in *. destruct (ParseTarget (Target c)) as [[typ bare]|] eqn:Ep; [|done]. cbn [pt_typ] in *. bools. subst.
  destruct (parseOne_ok _ _ _ Ep) as (_ & -> & _). by rewrite <- Ht.
Qed.

(** What the stamp leaves on a forwarded refusal. *)
Lemma stamp_masked ctx c r :
  Decision_ r <> DecisionAllow -> willForwardDeny ctx (Some c) = true -> forwarded ctx (stamp ctx c r) = true ->
  Obligations r = [] \/ Obligations r = (CollectObligations (Some c) (RequestID r) (DecidedAt r)).1 ->
  Obligations (stamp ctx c r) = (CollectObligations (Some c) (RequestID r) (DecidedAt r)).1.
Proof.
  intros Hd Hwf Hf Hob. unfold stamp in *.
  destruct (bool_decide (is_Some (Denial r)) && negb (Downgradable (Denial r))) eqn:Eg.
  { bools. unfold forwarded, isObserveDeny in Hf. rewrite bool_decide_false in Hf by done. by match goal with Hx : Downgradable _ = false |- _ => rewrite Hx in Hf end. }
  set (r0 := if IsAuditOnly c then with_auditOnly r true else r) in *.
  assert (Decision_ r0 = Decision_ r /\ Obligations r0 = Obligations r /\ RequestID r0 = RequestID r /\ DecidedAt r0 = DecidedAt r)
    as (E1 & E2 & E3 & E4) by (unfold r0; by destruct (IsAuditOnly c)).
  unfold withForwardObligationsFor in *. rewrite E1, E2, E3, E4, Hwf, bool_decide_false in * by done. cbn [orb negb] in *.
  destruct Hob as [Hob|Hob]; rewrite Hob in *.
  - cbn [List.length Nat.ltb Nat.leb] in *. destruct (CollectObligations (Some c) _ _) as [obs [d|]] eqn:Ec; [|done].
    by rewrite (hard_blocks ctx _ (obligDeny_hard _ _ _ _ _ Ec)) in Hf.
  - destruct (CollectObligations (Some c) (RequestID r) (DecidedAt r)) as [obs od] eqn:Ec. cbn [fst] in *.
    destruct (Nat.ltb_spec 0 (List.length obs)) as [|Hlt]; [by rewrite E2|].
    destruct od as [d|]; [by rewrite (hard_blocks ctx _ (obligDeny_hard _ _ _ _ _ Ec)) in Hf | done].
Qed.

Lemma recorded_masked (p : PDP) ctx r c' resp0 rid t (w0 : World) resp w' :
  Decision_ resp0 <> DecisionAllow -> (AuditOnly resp0 = true -> IsAuditOnly c' = true) ->
  (Downgradable (Denial resp0) = true -> willForwardDeny ctx (Some c') = true ->
   Obligations resp0 = [] \/ Obligations resp0 = (CollectObligations (Some c') rid t).1) ->
  override_or (stamp ctx c') (recordAuditModeAntecedent p ctx r (Some c') true resp0 rid t) w0 = (resp, w') ->
  forwarded ctx resp = true -> Obligations resp = (CollectObligations (Some c') rid t).1.
Proof.
  intros Hn Hpost Hob E Hf. apply override_inv in E as [E|(r' & E & ->)].
  { apply recordAudit_cases in E as [_ Hhd]. by rewrite (hard_blocks ctx _ Hhd) in Hf. }
  apply recordAudit_cases in E as (Hs & _).
  pose proof (forwarded_observed ctx c' resp0 r' Hs Hn Hpost Hf) as Ho. unfold observed in Ho. apply andb_true_iff in Ho as [Hwf Hdg].
  destruct Hs as (E1 & E2 & _ & E4 & _). rewrite (collect_ids c' rid t (RequestID r') (DecidedAt r')).
  assert (Downgradable (Denial resp0) = true) as Hg.
  { destruct (stamp_cases ctx c' r') as [Hhd|(Ed & En & _)]; [by rewrite (hard_blocks ctx _ Hhd) in Hf|].
    unfold forwarded, isObserveDeny in Hf. rewrite Ed, E1, bool_decide_false in Hf by done. cbn in Hf. bools. by rewrite En, E2 in *. }
  apply stamp_masked; [by rewrite E1 | done | done |]. rewrite E4, (collect_ids c' (RequestID r') (DecidedAt r') rid t). by apply Hob.
Qed.

Lemma evaluated_masked (p : PDP) ctx r c' resp0 rid t (w w0 : World) resp1 w' :
  EvaluateConditions (engine p) (engine_ctx ctx) (Some r) (Some c') rid t w = (resp0, w0) ->
  override_or (fun resp => resp) (recordAuditModeAntecedent p ctx r (Some c') true resp0 rid t) w0 = (resp1, w') ->
  forwarded ctx (stamp ctx c' resp1) = true -> Obligations (stamp ctx c' resp1) = (CollectObligations (Some c') rid t).1.
Proof.
  intros E0 E1 Hf. cbn [EvaluateConditions] in E0. destruct (decide (Decision_ resp0 = DecisionAllow)) as [Ha|Hn].
  - apply override_inv in E1 as [E1|(r' & E1 & ->)]; apply recordAudit_cases in E1.
    { destruct E1 as [Ho _]. by rewrite (allow_unobserved ctx _ _ Ha) in Ho. }
    destruct E1 as (_ & Hno & _). destruct (Hno (allow_unobserved ctx _ _ Ha)) as [-> ->].
    destruct (stamp_cases ctx c' resp0) as [Hh|(_ & _ & _ & _ & Hob)]; [by rewrite (hard_blocks ctx _ Hh) in Hf|].
    rewrite (Hob Ha). apply evaluateMatched_allow in E0 as (_ & Hc & _); [|done]. cbn [matched requestID now] in Hc. by rewrite Hc.
  - apply stamp_override in E1; [|done]. eapply recorded_masked; [done | | | exact E1 | done].
    + pose proof (evaluateMatched_posture (engine p) (withRequest (engine_ctx ctx) rid t) (mkEvalCtx r c' rid t) w) as Hp.
      rewrite E0 in Hp. exact Hp.
    + intros Hg Hwf. right. by eapply (evaluateMatched_masked _ _ (mkEvalCtx r c' rid t)) in E0.
Qed.

(** A refusal no entry was selected for is filled from every entry naming the tool. *)
Lemma naming_masked (p : PDP) ctx d target c fields :
  wired p -> et_Type target = TargetTypeTool -> SkipQuota (engine_ctx ctx) = true ->
  Decision_ d <> DecisionAllow -> Obligations d = [] ->
  c ∈ caps p -> entry_names target c = true -> Dir (RedactFields fields) ∈ Directives c ->
  let d' := withForwardObligations ctx d target (directivesNamingTarget p target) in
  Downgradable (Denial d') = true -> mkObligation DirectiveTypeRedactFields fields ∈ Obligations d'.
Proof.
  intros Hw Ht Hs Hd Ho Hc Hn Hdir. cbv zeta. unfold withForwardObligations, willForwardDeny, WillForwardDeny.
  rewrite Hs, Ho, bool_decide_false by done. cbn [orb negb List.length Nat.ltb Nat.leb].
  assert (Dir (RedactFields fields) ∈ directivesNamingTarget p target) as Hin.
  { unfold directivesNamingTarget. rewrite list_elem_of_In, in_flat_map. exists c. rewrite <- !list_elem_of_In.
    split; [by apply elem_of_naming | done]. }
  pose proof (collectFrom_redacts (target_name target) (RequestID d) (DecidedAt d) fields _ [] (tool_prefix target Ht) Hin) as Hr.
  cbn [CollectObligations bareConstraint Target Directives].
  destruct (collectFrom _ _ _ (directivesNamingTarget p target) []) as [obs [dd|]] eqn:Ec.
  - intros Hg. assert (hard dd) as [_ Hx]; [|congruence].
    by apply (obligDeny_hard (bareConstraint (target_name target) (directivesNamingTarget p target)) (RequestID d) (DecidedAt d) obs).
  - intros _. specialize (Hr eq_refl). cbn [fst] in Hr. destruct obs as [|o obs']; [by apply elem_of_nil in Hr | done].
Qed.

Lemma response_masked (p : PDP) ctx sid target args ip v rid t (w : World) resp w' :
  wired p -> et_Type target = TargetTypeTool ->
  decideTarget p ctx sid target args ip v rid t w = (resp, w') -> forwarded ctx resp = true ->
  match findConstraint p target (jwtClaimsAsMap ctx) with
  | Some c => Obligations resp = (CollectObligations (Some c) rid t).1 /\
      ((CollectObligations (Some c) rid t).2 = None -> forall fields, Dir (RedactFields fields) ∈ Directives c ->
         mkObligation DirectiveTypeRedactFields fields ∈ Obligations resp)
  | None => forall c fields, c ∈ caps p -> entry_names target c = true -> Dir (RedactFields fields) ∈ Directives c ->
      mkObligation DirectiveTypeRedactFields fields ∈ Obligations resp
  end.
Proof.
  intros Hw Ht E Hf. apply decideTarget_inv in E as [Hhd|(_ & _ & E)]; [by rewrite (hard_blocks ctx _ Hhd) in Hf|].
  cbv zeta in E. pose proof (findConstraint_spec p target (jwtClaimsAsMap ctx) Hw) as Hsel.
  destruct (findConstraint p target (jwtClaimsAsMap ctx)) as [c|].
  - destruct Hsel as (_ & Hcand & _). pose proof (candidate_tool target _ c Ht Hcand) as Htool.
    assert (Obligations resp = (CollectObligations (Some c) rid t).1) as Hob; [|split; [done|]; intros Hn fields Hd; rewrite Hob; by apply collectFrom_redacts].
    rewrite <- (collect_union p c target rid t).
    apply decideMatched_inv in E as [Hhd|[(code & ct & msg & _ & E)|(_ & _ & _ & _ & resp0 & w0 & E0 & resp1 & E1 & ->)]].
    + by rewrite (hard_blocks ctx _ Hhd) in Hf.
    + eapply recorded_masked; [| | |exact E|done]; try done. intros _ _. by left.
    + by eapply evaluated_masked.
  - destruct (no_match_plain ctx rid t (Msgf "%s %q is not listed in the capability manifest" [et_Type target; et_Name target])
      target (directivesNamingTarget p target)) as [Hp|Hhd]; [|by rewrite (hard_unmatched _ _ _ _ _ _ _ _ _ _ Hhd E) in Hf].
    destruct (unmatched_cases _ _ _ _ _ _ _ _ _ _ Hp E Hf) as ((_ & _ & _ & -> & _) & Hs & _ & Hg & _).
    intros c fields Hc Hn Hd. by eapply naming_masked.
Qed.

(** C23: What reaches the host is masked.  For every tool call the transport lets through, allowed or
    refused by a route or an entry that only observes, the response carries the redactions of the
    entry that governs the call; and where no entry does, those of every entry naming the tool,
    whoever it is scoped to.  (For an entry with a directive nobody implements, the redactions
    before it.) *)
Theorem forwarded_response_masked (p : PDP) ctx sid target args ip v rid t (w : World) resp w' :
  wired p -> et_Type target = TargetTypeTool ->
  decideTarget p ctx sid target args ip v rid t w = (resp, w') -> forwarded ctx resp = true ->
  match findConstraint p target (jwtClaimsAsMap ctx) with
  | Some c => Obligations resp = (CollectObligations (Some c) rid t).1 /\
      ((CollectObligations (Some c) rid t).2 = None -> forall fields, Dir (RedactFields fields) ∈ Directives c ->
         mkObligation DirectiveTypeRedactFields fields ∈ Obligations resp)
  | None => forall c fields, c ∈ caps p -> entry_names target c = true -> Dir (RedactFields fields) ∈ Directives c ->
      mkObligation DirectiveTypeRedactFields fields ∈ Obligations resp
  end.
Proof. apply response_masked. Qed.

(** ** Refusals of a wrapping layer *)

Lemma ceilingVerdict_keeps_store (e : @Engine.EngineState C F) r c rid t :
  preserves store_fine (CeilingVerdictFor (Some e) (Some r) (Some c) rid t).
Proof.
  cbn [CeilingVerdictFor]. destruct (negb (IsSet _)); [apply preserves_ret|]. apply preserves_bind.
  - destruct (_ && _ && _); [|apply preserves_ret]. apply preserves_bind; [apply peek_keeps_store | intros; apply preserves_ret].
  - intros carried. destruct (checkEffectCeiling _ _ _ _); apply preserves_ret.
Qed.

Lemma compose_hard r verdict : hard verdict -> hard (composeHardened r verdict).
Proof.
  intros [Hd Hg]. split; [done|]. unfold composeHardened. cbn [Denial with_auditOnly with_denial].
  destruct (Denial verdict) as [dv|]; [|done]. destruct (Denial r) as [dr|]; [|done]. by destruct (String.eqb _ "").
Qed.

(** The action would exceed the ceiling under the entry that governs it. *)
Definition over_ceiling (p : PDP) (ctx : PCtx) (target : EnforceTarget) (args : list (string * value)) : Prop :=
  exists c, hs_matched (selectForHardening p ctx target) = Some c /\
    (Exceeds (effectCeiling (engine p)) (ResolveEffect (Effect c) (jwtConditionArgs target args))).1 = true.

Lemma hardenCeiling_cases (p : PDP) ctx sid r target args rid t (w : World) over w1 :
  hardenable r = true ->
  hardenOnEffectCeiling p ctx sid r target args (selectForHardening p ctx target) rid t w = (over, w1) ->
  (over.2 = true /\ hard over.1 /\ (AuditOnly over.1 = true -> AuditOnly r = true)) \/
  (over.2 = false /\ ~ over_ceiling p ctx target args /\ (store_fine w -> store_fine w1)).
Proof.
  intros Hh E. unfold hardenOnEffectCeiling in E. rewrite Hh in E. cbn [negb] in E. unfold over_ceiling.
  destruct (hs_matched (selectForHardening p ctx target)) as [c|].
  2: { apply ret_inv in E as [-> ->]. right. split_and!; [done | by intros (? & ? & _) | done]. }
  unfold hardenViaVerdict in E. apply bind_inv in E as (verdict & w2 & Ev & E).
  destruct (CeilingVerdictFor_spec _ _ _ _ _ _ _ _ Ev) as (Hiff & Hhard & _). cbn [Arguments hardenRequest] in Hiff.
  pose proof (ceilingVerdict_keeps_store (engine p) (hardenRequest ctx sid target args (hs_claims (selectForHardening p ctx target))) c rid t w) as Hk.
  rewrite Ev in Hk. destruct verdict as [v|].
  - left. assert (hard v) as Hv by (apply Hhard; done). pose proof (compose_hard r v Hv) as [Hcd Hcg].
    assert (AuditOnly (composeHardened r v) = true -> AuditOnly r = true) as Hao by (cbn; intros Hx; by bools).
    assert (bool_decide (is_Some (Denial (composeHardened r v))) = true \/ Denial (composeHardened r v) = None) as Hden.
    { destruct (Denial (composeHardened r v)); [left; by apply bool_decide_true | by right]. }
    rewrite Hcg in E. destruct Hden as [Hden|Hden].
    + rewrite Hden in E. cbn [andb negb] in E. apply ret_inv in E as [-> _]. by split_and!.
    + rewrite Hden in E. rewrite bool_decide_false in E by (by intros [? ?]). cbn [andb] in E. apply ret_inv in E as [-> _].
      cbn [fst snd]. destruct (fill_cases ctx (composeHardened r v) c) as [->|[[Hx Ha]|(obs & _ & _ & _ & _ & ->)]]; try (by split_and!).
      split_and!; [done | done |]. congruence.
  - right. apply ret_inv in E as [-> ->]. split_and!; [done | | done]. intros (c' & [= <-] & Hex). apply Hiff in Hex as [? ?]. done.
Qed.

Lemma recordAudit_plain (p : PDP) ctx r matched ante resp rid t :
  plain_refusal resp ->
  returns (fun res => match res with Ok r' => plain_refusal r' | Err d => plain_refusal d end)
    (recordAuditModeAntecedent p ctx r matched ante resp rid t).
Proof.
  intros Hp w. pose proof (recordAudit_cases p ctx r matched ante resp rid t w) as Hc.
  destruct (recordAuditModeAntecedent p ctx r matched ante resp rid t w) as [res w'] eqn:E.
  specialize (Hc _ _ eq_refl). cbn [fst]. destruct res as [r'|d].
  - destruct Hc as ((E1 & _ & E3 & _) & _). destruct Hp. split; congruence.
  - split; [apply Hc|]. unfold recordAuditModeAntecedent in E.
    destruct (negb _); [by apply ret_inv in E as [? _]|]. apply bind_inv in E as (peeked & w1 & _ & E).
    destruct peeked; [|by apply ret_inv in E as [[= ->] _]]. apply bind_inv in E as (recorded & w2 & _ & E).
    destruct recorded; apply ret_inv in E as [Hx _]; [done | by injection Hx as ->].
Qed.

Lemma unmatched_plain (p : PDP) ctx r target d rid t :
  plain_refusal d -> returns plain_refusal (override_or (fun resp => resp) (recordUnmatchedForwardedState p ctx r target d rid t)).
Proof.
  intros Hp. unfold override_or, recordUnmatchedForwardedState. eapply returns_bind.
  - instantiate (1 := fun res => match res with Ok r' => plain_refusal r' | Err d => plain_refusal d end).
    destruct (_ && _); [by apply returns_ret | by apply recordAudit_plain].
  - intros [r'|d'] Hr; by apply returns_ret.
Qed.

Lemma hardenInterface_cases (p : PDP) sid r target :
  let '(r', broke) := hardenOnBrokenInterface p sid r target in
  if broke then hardenable r = true /\ Decision_ r' = Decision_ r /\ AuditOnly r' = AuditOnly r /\ Downgradable (Denial r') = false
  else r' = r /\ (hardenable r = true -> et_Type target = TargetTypeTool -> interface_broken p sid (et_Name target) = false).
Proof.
  unfold hardenOnBrokenInterface, interface_broken. destruct (hardenable r) eqn:Hh; cbn [negb orb]; [|by split].
  destruct (String.eqb_spec (et_Type target) TargetTypeTool); cbn [negb]; [|by split].
  destruct (pinBroken p (et_Name target)); cbn [negb andb].
  - split_and!; try done. cbn. by destruct (Denial r).
  - destruct (surfaceBroken p sid (et_Name target)); cbn [negb]; [|by split]. split_and!; try done. cbn. by destruct (Denial r).
Qed.

(** The recorded tail of the hardening. *)
Lemma harden_tail (p : PDP) ctx r d q target rid t (w1 : World) resp w' :
  wired p -> store_fine w1 -> skipFlow (engine p) = false -> plain_refusal r -> Denial r = Some d -> Obligations r = [] ->
  override_or (fun resp => resp)
    (recordUnmatchedForwardedState p ctx q target (withForwardObligations ctx r target (directivesNamingTarget p target)) rid t) w1
    = (resp, w') ->
  plain_refusal resp /\
  (forwarded ctx resp = true ->
     SkipQuota (engine_ctx ctx) = true /\
     (et_Type target = TargetTypeTool -> forall c fields, c ∈ caps p -> entry_names target c = true ->
        Dir (RedactFields fields) ∈ Directives c -> mkObligation DirectiveTypeRedactFields fields ∈ Obligations resp) /\
     (forall l, declared_label p target l -> l ∈ taint (w_flow w') (flowKey (anchors (engine p)) q))).
Proof.
  intros Hw Hok Hskip Hp Hden Hob E. set (d0 := withForwardObligations _ _ _ _) in E.
  assert (plain_refusal d0) as Hp0.
  { unfold d0. destruct (fill_naming_cases ctx r target (directivesNamingTarget p target)) as [->|[[[? _] ?]|(obs & ->)]];
      [done | by split | by destruct Hp]. }
  pose proof (unmatched_plain p ctx q target d0 rid t Hp0 w1) as Hpl. rewrite E in Hpl. split; [exact Hpl|]. intros Hf.
  destruct (unmatched_cases _ _ _ _ _ _ _ _ _ _ Hp0 E Hf) as ((_ & _ & _ & -> & _) & Hs & Hdg & Hg & Hrec).
  split_and!; [done | |].
  - intros Ht c fields Hc Hn Hd. eapply naming_masked; try done. by destruct Hp.
  - intros l Hdecl. destruct (declared_union p target l Hw Hdecl) as [Hu Ha]. rewrite Ha in Hrec.
    set (U := labelOutputNamingTarget p target) in *. destruct U as [|u U'] eqn:EU; [by apply elem_of_nil in Hu|].
    destruct (Hrec _ eq_refl) as (r' & ante & Hr). eapply recordAudit_taints; [done | done | | exact Hu | exact Hr |]; [cbn; set_solver|].
    unfold observed. rewrite Hdg, andb_true_r. unfold willForwardDeny, WillForwardDeny. by rewrite Hs; destruct (IsAuditOnly _).
Qed.

Lemma hardened_refusal (p : PDP) ctx sid r d target args rid t (w : World) resp w' :
  wired p -> store_fine w -> skipFlow (engine p) = false ->
  plain_refusal r -> Denial r = Some d -> Obligations r = [] ->
  HardenRefusal p ctx sid r target args rid t w = (resp, w') ->
  plain_refusal resp /\ (hard r -> resp = r /\ w' = w) /\
  (forwarded ctx resp = true ->
     forwarded ctx r = true /\ SkipQuota (engine_ctx ctx) = true /\
     (et_Type target = TargetTypeTool -> interface_broken p sid (et_Name target) = false) /\
     ~ over_ceiling p ctx target args /\
     (et_Type target = TargetTypeTool -> forall c fields, c ∈ caps p -> entry_names target c = true ->
        Dir (RedactFields fields) ∈ Directives c -> mkObligation DirectiveTypeRedactFields fields ∈ Obligations resp) /\
     (forall l, declared_label p target l ->
        l ∈ taint (w_flow w') (flowKey (anchors (engine p)) (hardenRequest ctx sid target args (jwtClaimsAsMap ctx))))).
Proof.
  intros Hw Hok Hskip Hp Hden Hob E. unfold HardenRefusal in E. destruct Hp as [Hd Ha] eqn:Ep. clear Ep.
  rewrite bool_decide_false in E by done. rewrite Hden, bool_decide_true in E by done. cbn [andb] in E.
  destruct (Downgradable (Some d)) eqn:Hg; cbn [negb] in E.
  2: { apply ret_inv in E as [-> ->]. split_and!; [done | done|]. intros Hf. rewrite hard_blocks in Hf; [done|]. split; [done | by rewrite Hden]. }
  assert (hardenable r = true) as Hh by (unfold hardenable; by rewrite bool_decide_true, Hden, Hg by done).
  assert (forall resp' : EnforceResponse, hard r -> resp' = r /\ w' = w) as Hnot by (intros ? [_ Hx]; by rewrite Hden, Hg in Hx).
  pose proof (hardenInterface_cases p sid r target) as Hi. destruct (hardenOnBrokenInterface p sid r target) as [r1 broke]. destruct broke.
  { apply ret_inv in E as [-> ->]. destruct Hi as (_ & Hd1 & Ha1 & Hg1). split_and!; [split; congruence | by apply Hnot|].
    intros Hf. rewrite hard_blocks in Hf; [done|]. split; congruence. }
  destruct Hi as [-> Hint]. cbv zeta in E. apply bind_inv in E as (over & w1 & Eo & E).
  apply hardenCeiling_cases in Eo as [(Ho & Hhd & Hao)|(Ho & Hceil & Hst)]; [| |done]; rewrite Ho in E.
  { apply ret_inv in E as [-> ->]. split_and!; [split; [apply Hhd|] | by apply Hnot | intros Hf; by rewrite hard_blocks in Hf].
    destruct (AuditOnly over.1); [|done]. rewrite <- Ha. by rewrite Hao. }
  destruct (harden_tail _ _ _ _ _ _ _ _ _ _ _ Hw (Hst Hok) Hskip (conj Hd Ha) Hden Hob E) as [Hpl Hrest].
  split_and!; [done | by apply Hnot|]. intros Hf. destruct (Hrest Hf) as (Hs & Hred & Htaint). split_and!; try done; [|by apply Hint].
  unfold forwarded, isObserveDeny. by rewrite Hden, Hg, Hs, orb_true_r.
Qed.

(** C24: A layer wrapped around the proxy cannot weaken it.  A refusal of the wrapping layer stays a
    refusal; one that no route forwards is returned as it is; and the hardened refusal is
    forwarded only by an observing route, only if the refusal was one, the tool's interface is
    intact and the action is under the consequence ceiling, and then with the redactions of
    every entry naming the tool, and with every label they declare in the caller's flow
    state. *)
Theorem wrapping_layer_cannot_weaken (p : PDP) ctx sid r d target args rid t (w : World) resp w' :
  wired p -> store_fine w -> skipFlow (engine p) = false ->
  plain_refusal r -> Denial r = Some d -> Obligations r = [] ->
  HardenRefusal p ctx sid r target args rid t w = (resp, w') ->
  plain_refusal resp /\ (hard r -> resp = r /\ w' = w) /\
  (forwarded ctx resp = true ->
     forwarded ctx r = true /\ SkipQuota (engine_ctx ctx) = true /\
     (et_Type target = TargetTypeTool -> interface_broken p sid (et_Name target) = false) /\
     ~ over_ceiling p ctx target args /\
     (et_Type target = TargetTypeTool -> forall c fields, c ∈ caps p -> entry_names target c = true ->
        Dir (RedactFields fields) ∈ Directives c -> mkObligation DirectiveTypeRedactFields fields ∈ Obligations resp) /\
     (forall l, declared_label p target l ->
        l ∈ taint (w_flow w') (flowKey (anchors (engine p)) (hardenRequest ctx sid target args (jwtClaimsAsMap ctx))))).
Proof. apply hardened_refusal. Qed.

End forwarding.
End PDPForwarding.
