(* ===== verification/PDPScenarios.v ===== *)
(** * The proxy's theorems on a small manifest

    A source any reader may call through a more specific entry, a tool only one principal may
    call, and a tool with a pinned description, over the in-memory backends. *)
From stdpp Require Import base tactics list gmap strings fin_sets.
From Stdlib Require Import ZArith Lia Ascii String.
From S2P Require Import Prelude GoStrings GoPath CallCounter FlowLabelStore Capability Selection.
From S2P Require Import Anchor Backends Engine Fixtures EngineSafety FlowControl KillSwitch SurfacePin.
From S2P Require Import ManifestPDP PDPSafety PDPForwarding.
#[local] Open Scope string_scope.
Import Capability Selection Anchor Backends Engine Fixtures EngineSafety FlowControl.
Import ManifestPDP PDPSafety PDPForwarding.

Module PDPScenarios.

Definition demo_caps : list Constraint :=
  [fx_constraint "tool:read_*" [] [Dir (LabelOutput ["pii"])];
   fx_constraint "tool:read_secrets" [] [];
   mkConstraint "tool:export" ["call"] "" "" None {[ "sub" := ["alice"] ]} None []
     [Dir (RedactFields ["ssn"]); Dir (LabelOutput ["confidential"])];
   mkConstraint "tool:deploy" ["call"] "" "h1" None ∅ None [] []].

Abbreviation Checker_ := (option Checker).

Definition demo_pdp (k : Checker_) : @ManifestPDP FxC FxF := NewManifestPDP demo_caps demo_sinks k.

Definition demo_pctx (observe : bool) : PCtx := mkPCtx (fx_ctx observe) None [] "" false.

Definition tool (name : string) : EnforceTarget := mkEnforceTarget TargetTypeTool name.

(** The kill switch after an operator revoked session "s1". *)
Definition demo_killer : Checker_ :=
  Some (fun subj => Ok (KillSwitch.ShouldBlock
    (KillSwitch.mkInMemory false None (Some {[ "s1" ]}) None (KillSwitch.mkObservers [] 0)) subj)).

Lemma proxy_and_engine_select_alike_witness :
  findConstraint (demo_pdp None) (tool "read_secrets") ∅ = Some (fx_constraint "tool:read_secrets" [] []).
Proof.
  assert (plain_target (tool "read_secrets")) as Hpl by (split; [discriminate | split; [discriminate | reflexivity]]).
  assert (forall c, c ∈ caps (demo_pdp None) -> is_ok (ParseTarget (Target c)) = true) as Hok.
  { intros c Hc. repeat (apply elem_of_cons in Hc as [->|Hc]; [reflexivity|]). inversion Hc. }
  pose proof (proxy_and_engine_select_alike (demo_pdp None) (demo_pctx false) "s1" (tool "read_secrets") [] ""
    (wired_new _ _ _) Hpl Hok) as Hx.
  assert (FindMatchingCapability (Some (targetRequest (demo_pctx false) "s1" (tool "read_secrets") [] "")) (caps (demo_pdp None))
    = Some (fx_constraint "tool:read_secrets" [] [])) as He by (vm_compute; reflexivity).
  rewrite He in Hx. exact (proj1 Hx).
Defined.

Lemma revoked_caller_blocked_witness :
  exists resp, Decide (demo_pdp demo_killer) (demo_pctx true) "s1" (tool "read_secrets") [] "" "r1" "now" fx_world
    = (resp, fx_world) /\ hard resp.
Proof.
  apply (revoked_caller_blocked (demo_pdp demo_killer) (demo_pctx true) "s1" "r1" "now" fx_world).
  eexists. split; [reflexivity|]. vm_compute. discriminate.
Defined.

(** The pinned tool after a listing that shows another description. *)
Definition demo_poisoned : @ManifestPDP FxC FxF := recordPinnedToolHash "deploy" "h2" (demo_pdp None).

Lemma broken_interface_blocked_witness :
  exists resp, Decide demo_poisoned (demo_pctx true) "s1" (tool "deploy") [] "" "r1" "now" fx_world
    = (resp, fx_world) /\ hard resp.
Proof.
  apply (broken_interface_blocked demo_poisoned (demo_pctx true) "s1" (tool "deploy") "r1" "now" fx_world);
    [reflexivity | vm_compute; reflexivity].
Defined.

Lemma proxy_allow_means_all_checks_witness :
  candidate (tool "read_secrets") ∅ (fx_constraint "tool:read_secrets" [] []) = true.
Proof.
  destruct (proxy_allow_means_all_checks (demo_pdp None) (demo_pctx false) "s1" (tool "read_secrets") [] "" true "r1" "now"
    fx_world _ _ (wired_new _ _ _) (surjective_pairing _)) as (_ & _ & c & resp0 & Hf & _ & Hc & _).
  - vm_compute. reflexivity.
  - vm_compute in Hf. injection Hf as <-. exact Hc.
Defined.

(** The narrow entry grants the call; the broad one's label sticks. *)
Lemma forwarded_call_taints_witness :
  "pii" ∈ taint (w_flow (Decide (demo_pdp None) (demo_pctx false) "s1" (tool "read_secrets") [] "" "r1" "now" fx_world).2)
    (flowKey fx_anchors (targetRequest (demo_pctx false) "s1" (tool "read_secrets") [] "")).
Proof.
  apply (forwarded_call_taints (demo_pdp None) (demo_pctx false) "s1" (tool "read_secrets") [] "" true "r1" "now" fx_world
    (Decide (demo_pdp None) (demo_pctx false) "s1" (tool "read_secrets") [] "" "r1" "now" fx_world).1).
  - apply wired_new.
  - apply demo_sinks_preserve.
  - split; vm_compute; split; congruence.
  - reflexivity.
  - exists (fx_constraint "tool:read_*" [] [Dir (LabelOutput ["pii"])]), ["pii"].
    split; [apply list_elem_of_here|]. split; [vm_compute; reflexivity|]. split; apply list_elem_of_here.
  - apply surjective_pairing.
  - vm_compute. reflexivity.
Defined.

(** An observing route forwards the tool of another principal, masked. *)
Lemma forwarded_response_masked_witness :
  mkObligation DirectiveTypeRedactFields ["ssn"] ∈
    Obligations (Decide (demo_pdp None) (demo_pctx true) "s1" (tool "export") [] "" "r1" "now" fx_world).1.
Proof.
  pose proof (forwarded_response_masked (demo_pdp None) (demo_pctx true) "s1" (tool "export") [] "" true "r1" "now" fx_world
    (Decide (demo_pdp None) (demo_pctx true) "s1" (tool "export") [] "" "r1" "now" fx_world).1
    (Decide (demo_pdp None) (demo_pctx true) "s1" (tool "export") [] "" "r1" "now" fx_world).2
    (wired_new _ _ _) eq_refl (surjective_pairing _)) as Hx.
  assert (findConstraint (demo_pdp None) (tool "export") (jwtClaimsAsMap (demo_pctx true)) = None) as Hn by (vm_compute; reflexivity).
  rewrite Hn in Hx. eapply Hx.
  - vm_compute. reflexivity.
  - do 2 apply list_elem_of_further. apply list_elem_of_here.
  - vm_compute. reflexivity.
  - apply list_elem_of_here.
Defined.

(** A token layer refuses the same call; the observing route forwards it, masked and labelled. *)
Lemma wrapping_layer_cannot_weaken_witness :
  let r := pdpDeny "r0" "now" ErrCodeAuthorizationFailed "" (Msg "not in the token") in
  let out := HardenRefusal (demo_pdp None) (demo_pctx true) "s1" r (tool "export") [] "r1" "now" fx_world in
  forwarded (demo_pctx true) out.1 = true /\
  mkObligation DirectiveTypeRedactFields ["ssn"] ∈ Obligations out.1 /\
  "confidential" ∈ taint (w_flow out.2) (flowKey fx_anchors (hardenRequest (demo_pctx true) "s1" (tool "export") [] ∅)).
Proof.
  intros r out.
  destruct (wrapping_layer_cannot_weaken (demo_pdp None) (demo_pctx true) "s1" r
    (mkDenial ErrCodeAuthorizationFailed "" (Msg "not in the token") false []) (tool "export") [] "r1" "now" fx_world out.1 out.2)
    as (_ & _ & Hx).
  - apply wired_new.
  - split; vm_compute; split; congruence.
  - reflexivity.
  - split; [discriminate | reflexivity].
  - reflexivity.
  - reflexivity.
  - apply surjective_pairing.
  - assert (forwarded (demo_pctx true) out.1 = true) as Hf by (vm_compute; reflexivity).
    destruct (Hx Hf) as (_ & _ & _ & _ & Hred & Hl). split; [exact Hf|].
    assert (mkConstraint "tool:export" ["call"] "" "" None {[ "sub" := ["alice"] ]} None []
      [Dir (RedactFields ["ssn"]); Dir (LabelOutput ["confidential"])] ∈ demo_caps) as Hin
      by (do 2 apply list_elem_of_further; apply list_elem_of_here).
    split.
    + eapply Hred; [reflexivity | exact Hin | vm_compute; reflexivity | apply list_elem_of_here].
    + apply Hl. eexists _, ["confidential"]. split; [exact Hin|]. split; [vm_compute; reflexivity|].
      split; [apply list_elem_of_further; apply list_elem_of_here | apply list_elem_of_here].
Defined.

End PDPScenarios.
