(* ===== verification/JSON.v ===== *)
(** * JSON texts

    What the code uses of Go's encoding/json on bytes: the grammar of its scanner, the value
    of a string literal, the tree a decode with [UseNumber] builds, and the verbatim spans a
    [json.RawMessage] captures.  A position in the text is the text that is left.  The
    recursion is on the nesting that is left of the decoder's own limit (10000 containers);
    the loop over the members of one container carries the length of the text as fuel, which
    it never exhausts because a member consumes at least one byte ([membersFrom_fuel]). *)
From stdpp Require Import base tactics list gmap strings.
From Stdlib Require Import ZArith Lia Ascii String.
From S2P Require Import Prelude GoStrings GoPath Truncate Runes Capability.
#[local] Open Scope string_scope.
#[local] Arguments String.append : simpl nomatch.
Import GoPath Truncate Runes Capability.

Module JSON.

Definition dquote : ascii := ascii_of_nat 34.
Definition backslash : ascii := ascii_of_nat 92.

Definition isSpace (c : ascii) : bool :=
  existsb (Ascii.eqb c) [" "%char; ascii_of_nat 9; ascii_of_nat 13; ascii_of_nat 10].

Fixpoint skipSpace (s : string) : string :=
  match s with
  | EmptyString => EmptyString
  | String c r => if isSpace c then skipSpace r else s
  end.

(** ** String literals *)

Definition isHexDigit (c : ascii) : bool :=
  let b := byte_val c in in_range 48 57 b || in_range 97 102 b || in_range 65 70 b.

Definition hexVal (c : ascii) : Z :=
  let b := byte_val c in
  if in_range 48 57 b then (b - 48)%Z else if in_range 97 102 b then (b - 87)%Z else (b - 55)%Z.

Definition plainEscape (c : ascii) : bool :=
  existsb (Ascii.eqb c) [dquote; backslash; "/"; "b"; "f"; "n"; "r"; "t"]%char.

(** The body of the literal, without its quotes, and what follows the closing quote; the text
    starts after the opening quote. *)
Fixpoint stringBody (s : string) : option (string * string) :=
  match s with
  | EmptyString => None
  | String c r =>
      if Ascii.eqb c dquote then Some ("", r)
      else if Ascii.eqb c backslash then
        match r with
        | String e r1 =>
            if plainEscape e then
              '(b, t) ← stringBody r1; Some (String c (String e b), t)
            else if Ascii.eqb e "u" then
              match r1 with
              | String h1 (String h2 (String h3 (String h4 r2))) =>
                  if isHexDigit h1 && isHexDigit h2 && isHexDigit h3 && isHexDigit h4 then
                    '(b, t) ← stringBody r2;
                    Some (String c (String e (String h1 (String h2 (String h3 (String h4 b))))), t)
                  else None
              | _ => None
              end
            else None
        | EmptyString => None
        end
      else if (byte_val c <? 32)%Z then None
      else '(b, t) ← stringBody r; Some (String c b, t)
  end.

Definition escapeRune (e : ascii) : ascii :=
  if Ascii.eqb e "b" then ascii_of_nat 8
  else if Ascii.eqb e "f" then ascii_of_nat 12
  else if Ascii.eqb e "n" then ascii_of_nat 10
  else if Ascii.eqb e "r" then ascii_of_nat 13
  else if Ascii.eqb e "t" then ascii_of_nat 9
  else e.

(** [getu4]: the code unit of a [\uXXXX] escape at the start of the text. *)
Definition getu4 (s : string) : option (Z * string) :=
  match s with
  | String c (String u (String h1 (String h2 (String h3 (String h4 r))))) =>
      if Ascii.eqb c backslash && Ascii.eqb u "u" && isHexDigit h1 && isHexDigit h2 && isHexDigit h3 && isHexDigit h4
      then Some ((((hexVal h1 * 16 + hexVal h2) * 16 + hexVal h3) * 16 + hexVal h4)%Z, r)
      else None
  | _ => None
  end.

(** [utf16.DecodeRune]. *)
Definition decodeSurrogates (r1 r2 : Z) : Z :=
  if in_range 55296 56319 r1 && in_range 56320 57343 r2
  then ((r1 - 55296) * 1024 + (r2 - 56320) + 65536)%Z else RuneError.

(** [unquote]: the value of a literal's body. *)
Fixpoint unquoteFrom (fuel : nat) (s : string) : string :=
  match fuel, s with
  | S fuel, String c r =>
      if Ascii.eqb c backslash then
        match r with
        | EmptyString => ""
        | String e r1 =>
            if Ascii.eqb e "u" then
              match getu4 s with
              | None => ""
              | Some (rr, r2) =>
                  if in_range 55296 57343 rr then
                    match getu4 r2 with
                    | Some (rr1, r3) =>
                        let dec := decodeSurrogates rr rr1 in
                        if (dec =? RuneError)%Z then EncodeRune RuneError ++ unquoteFrom fuel r2
                        else EncodeRune dec ++ unquoteFrom fuel r3
                    | None => EncodeRune RuneError ++ unquoteFrom fuel r2
                    end
                  else EncodeRune rr ++ unquoteFrom fuel r2
              end
            else String (escapeRune e) (unquoteFrom fuel r1)
        end
      else if (byte_val c <? 128)%Z then String c (unquoteFrom fuel r)
      else
        let '(rr, size) := DecodeRuneInString s in
        EncodeRune rr ++ unquoteFrom fuel (drop_str size s)
  | _, _ => ""
  end.

Definition unquote (body : string) : string := unquoteFrom (String.length body) body.

Definition stringLit (s : string) : option (string * string) :=
  '(b, t) ← stringBody s; Some (unquote b, t).

(** ** Numbers and words *)

Definition isDigit (c : ascii) : bool := in_range 48 57 (byte_val c).

Fixpoint digitsSpan (s : string) : string * string :=
  match s with
  | String c r => if isDigit c then let '(d, t) := digitsSpan r in (String c d, t) else ("", s)
  | EmptyString => ("", "")
  end.

Definition digits1 (s : string) : option (string * string) :=
  let '(d, t) := digitsSpan s in if String.eqb d "" then None else Some (d, t).

Definition intSpan (s : string) : option (string * string) :=
  match s with
  | String c r => if Ascii.eqb c "0" then Some ("0", r) else digits1 s
  | EmptyString => None
  end.

Definition fracSpan (s : string) : option (string * string) :=
  match s with
  | String c r => if Ascii.eqb c "." then '(d, t) ← digits1 r; Some (String c d, t) else Some ("", s)
  | EmptyString => Some ("", "")
  end.

Definition signSpan (s : string) : string * string :=
  match s with
  | String c r => if Ascii.eqb c "+" || Ascii.eqb c "-" then (String c "", r) else ("", s)
  | EmptyString => ("", "")
  end.

Definition expSpan (s : string) : option (string * string) :=
  match s with
  | String c r =>
      if Ascii.eqb c "e" || Ascii.eqb c "E" then
        let '(sg, r1) := signSpan r in '(d, t) ← digits1 r1; Some (String c (sg ++ d), t)
      else Some ("", s)
  | EmptyString => Some ("", "")
  end.

Definition numberSpan (s : string) : option (string * string) :=
  let '(neg, r) := match s with
                   | String c r => if Ascii.eqb c "-" then ("-", r) else ("", s)
                   | EmptyString => ("", "")
                   end in
  '(i, r) ← intSpan r; '(f, r) ← fracSpan r; '(e, r) ← expSpan r; Some (neg ++ i ++ f ++ e, r).

(** [true], [false], [null] or a number. *)
Definition scalar (s : string) : option (value * string) :=
  if String.prefix "true" s then Some (VBool true, drop_str 4 s)
  else if String.prefix "false" s then Some (VBool false, drop_str 5 s)
  else if String.prefix "null" s then Some (VNull, drop_str 4 s)
  else '(n, r) ← numberSpan s; Some (VNumber n, r).

(** ** Containers *)

Section containers.
Context {A : Type} (rd : string -> option (A * string)).

(** The byte that follows a value, and what is left. *)
Definition delim (s : string) : option (ascii * string) :=
  match skipSpace s with String d r => Some (d, r) | EmptyString => None end.

(** A key, its value and the byte after it. *)
Definition member (s : string) : option (string * A * ascii * string) :=
  '(q, r) ← delim s;
  if negb (Ascii.eqb q dquote) then None
  else
    '(key, r) ← stringLit r;
    '(colon, r) ← delim r;
    if negb (Ascii.eqb colon ":") then None
    else '(v, r) ← rd (skipSpace r); '(d, r) ← delim r; Some (key, v, d, r).

(** The members of an object up to and with its brace, from a key on. *)
Fixpoint membersFrom (fuel : nat) (s : string) : option (list (string * A) * string) :=
  match fuel with
  | O => None
  | S fuel =>
      '(key, v, d, r) ← member s;
      if Ascii.eqb d "," then '(ms, t) ← membersFrom fuel r; Some ((key, v) :: ms, t)
      else if Ascii.eqb d "}" then Some ([(key, v)], r)
      else None
  end.

Definition objectBody (s : string) : option (list (string * A) * string) :=
  '(c, r) ← delim s;
  if Ascii.eqb c "}" then Some ([], r) else membersFrom (S (String.length s)) s.

Fixpoint itemsFrom (fuel : nat) (s : string) : option (list A * string) :=
  match fuel with
  | O => None
  | S fuel =>
      '(v, r) ← rd (skipSpace s);
      '(d, r) ← delim r;
      if Ascii.eqb d "," then '(vs, t) ← itemsFrom fuel r; Some (v :: vs, t)
      else if Ascii.eqb d "]" then Some ([v], r)
      else None
  end.

Definition arrayBody (s : string) : option (list A * string) :=
  '(c, r) ← delim s;
  if Ascii.eqb c "]" then Some ([], r) else itemsFrom (S (String.length s)) s.

End containers.

(** One value at the start of the text, with at most [depth] open containers. *)
Fixpoint parseValue (depth : nat) (s : string) : option (value * string) :=
  match s with
  | EmptyString => None
  | String c r =>
      if Ascii.eqb c dquote then '(v, t) ← stringLit r; Some (VString v, t)
      else if Ascii.eqb c "{" then
        match depth with
        | O => None
        | S depth => '(ms, t) ← objectBody (parseValue depth) r; Some (VObject ms, t)
        end
      else if Ascii.eqb c "[" then
        match depth with
        | O => None
        | S depth => '(vs, t) ← arrayBody (parseValue depth) r; Some (VArray vs, t)
        end
      else scalar s
  end.

Definition maxNestingDepth : nat := Z.to_nat 10000.

(** ** Documents *)

(** What [json.Unmarshal] reads of a whole document. *)
Definition document (doc : string) : option value :=
  '(v, r) ← parseValue maxNestingDepth (skipSpace doc);
  if String.eqb (skipSpace r) "" then Some v else None.

(** The span of the value at the start of the text. *)
Definition rawValue (depth : nat) (s : string) : option (string * string) :=
  '(_, r) ← parseValue depth s; Some (take_str (String.length s - String.length r) s, r).

(** [json.Unmarshal] into a [map[string]json.RawMessage]: the members in document order, of
    which the map keeps the last of each key.  A [null] is the nil map. *)
Definition rawObject (doc : string) : option (list (string * string)) :=
  match document doc with
  | Some (VObject _) =>
      match skipSpace doc with
      | String _ r => fst <$> objectBody (rawValue (pred maxNestingDepth)) r
      | EmptyString => None
      end
  | Some VNull => Some []
  | _ => None
  end.

(** [json.Unmarshal] into a [[]json.RawMessage]. *)
Definition rawArray (doc : string) : option (list string) :=
  match document doc with
  | Some (VArray _) =>
      match skipSpace doc with
      | String _ r => fst <$> arrayBody (rawValue (pred maxNestingDepth)) r
      | EmptyString => None
      end
  | Some VNull => Some []
  | _ => None
  end.

(** The value a map built in document order holds. *)
Definition lastOf {A} (k : string) (ms : list (string * A)) : option A :=
  snd <$> List.find (fun kv => String.eqb (fst kv) k) (rev ms).

(** A text with its double quotes written as single ones. *)
Definition text (s : string) : string := str_map (fun c => if Ascii.eqb c "'" then dquote else c) s.

Example document_reads :
  document (text "{'a' : [1.5e+3, true, 'x\u00e9\ud83d\ude00'], 'b':null} ") =
  Some (VObject [("a", VArray [VNumber "1.5e+3"; VBool true; VString ("x" ++ bytes [195; 169; 240; 159; 152; 128])]);
                 ("b", VNull)]).
Proof. vm_compute. reflexivity. Qed.

#[global] Arguments isSpace : simpl never.
#[global] Arguments plainEscape : simpl never.
#[global] Arguments isHexDigit : simpl never.
#[global] Arguments isDigit : simpl never.
#[local] Arguments byte_val : simpl never.

(** ** Reading consumes the text *)

Lemma skipSpace_le s : String.length (skipSpace s) <= String.length s.
Proof. induction s as [|c s IH]; cbn; [done|]. case_match; cbn; lia. Qed.

Lemma skipSpace_skip s : skipSpace (skipSpace s) = skipSpace s.
Proof.
  induction s as [|c s IH]; [done|]. cbn [skipSpace]. destruct (isSpace c) eqn:E; [done|]. cbn [skipSpace]. by rewrite E.
Qed.

(** What is left after the blanks. *)
Definition lead (s : string) : nat := String.length (skipSpace s).

Lemma skipSpace_cons s c r : skipSpace s = String c r -> String.length r < String.length s.
Proof. intros E. pose proof (skipSpace_le s) as Hl. rewrite E in Hl. cbn in Hl. lia. Qed.

Lemma stringBody_spec s : forall b t, stringBody s = Some (b, t) ->
  s = b ++ String dquote t /\ forall t', stringBody (b ++ String dquote t') = Some (b, t').
Proof.
  induction s as [s IH] using (induction_ltof1 _ String.length). unfold ltof in IH. intros b t.
  destruct s as [|c r]; [done|]. cbn [stringBody]. destruct (Ascii.eqb_spec c dquote) as [->|Hq].
  { intros [= <- <-]. done. }
  destruct (Ascii.eqb_spec c backslash) as [->|Hb].
  - destruct r as [|e r1]; [done|]. destruct (plainEscape e) eqn:Ee.
    + destruct (stringBody r1) as [[b1 t1]|] eqn:E1; [|done]. cbn [mbind option_bind]. intros [= <- <-].
      destruct (IH r1 ltac:(cbn; lia) _ _ E1) as [-> Hr]. split; [done|]. intros t'. cbn. rewrite Ee, Hr. done.
    + destruct (Ascii.eqb_spec e "u") as [->|]; [|done].
      destruct r1 as [|h1 [|h2 [|h3 [|h4 r2]]]]; try done.
      destruct (isHexDigit h1 && isHexDigit h2 && isHexDigit h3 && isHexDigit h4) eqn:Eh; [|done].
      destruct (stringBody r2) as [[b1 t1]|] eqn:E1; [|done]. cbn [mbind option_bind]. intros [= <- <-].
      destruct (IH r2 ltac:(cbn; lia) _ _ E1) as [-> Hr]. split; [done|]. intros t'. cbn. cbn in Ee. rewrite Eh, Hr. done.
  - destruct (byte_val c <? 32)%Z eqn:Ec; [done|].
    destruct (stringBody r) as [[b1 t1]|] eqn:E1; [|done]. cbn [mbind option_bind]. intros [= <- <-].
    destruct (IH r ltac:(cbn; lia) _ _ E1) as [-> Hr]. split; [done|]. intros t'. cbn.
    by rewrite (proj2 (Ascii.eqb_neq _ _) Hq), (proj2 (Ascii.eqb_neq _ _) Hb), Ec, Hr.
Qed.

Lemma stringBody_shrinks s b t : stringBody s = Some (b, t) -> String.length t < String.length s.
Proof. intros (-> & _)%stringBody_spec. rewrite str_length_app. cbn. lia. Qed.

Lemma stringLit_shrinks s v t : stringLit s = Some (v, t) -> String.length t < String.length s.
Proof. unfold stringLit. intros E. apply bind_Some in E as ([b t'] & E & [= <- <-]). by eapply stringBody_shrinks. Qed.

Lemma digitsSpan_le s : String.length (snd (digitsSpan s)) <= String.length s.
Proof. induction s as [|c s IH]; cbn; [done|]. destruct (isDigit c); [destruct (digitsSpan s); cbn in *; lia | done]. Qed.

Lemma digits1_shrinks s d t : digits1 s = Some (d, t) -> String.length t < String.length s.
Proof.
  unfold digits1. destruct s as [|c s]; [done|]. cbn. destruct (isDigit c); [|done].
  pose proof (digitsSpan_le s). destruct (digitsSpan s). cbn in *. intros [= <- <-]. lia.
Qed.

Lemma numberSpan_shrinks s n t : numberSpan s = Some (n, t) -> String.length t < String.length s.
Proof.
  assert (forall r i t', intSpan r = Some (i, t') -> String.length t' < String.length r) as Hi.
  { intros [|c r] i t'; [done|]. cbn [intSpan]. case_match; [intros [= <- <-]; cbn; lia | apply digits1_shrinks]. }
  assert (forall r i t', fracSpan r = Some (i, t') -> String.length t' <= String.length r) as Hf.
  { intros [|c r] i t'; cbn [fracSpan]; [by intros [= <- <-]|]. case_match; [|intros [= <- <-]; done].
    intros E. apply bind_Some in E as ([d t1] & E & [= <- <-]). apply digits1_shrinks in E. cbn. lia. }
  assert (forall r i t', expSpan r = Some (i, t') -> String.length t' <= String.length r) as He.
  { intros [|c r] i t'; cbn [expSpan]; [by intros [= <- <-]|]. case_match; [|intros [= <- <-]; done].
    destruct (signSpan r) as [sg r1] eqn:Es. intros E. apply bind_Some in E as ([d t1] & E & [= <- <-]).
    apply digits1_shrinks in E. enough (String.length r1 <= String.length r) by (cbn; lia).
    destruct r; cbn in Es; [|case_match]; injection Es as <- <-; cbn; lia. }
  unfold numberSpan. destruct (match s with "" => _ | _ => _ end) as [neg r] eqn:Es.
  assert (String.length r <= String.length s) as Hr
    by (destruct s; [|case_match]; injection Es as <- <-; cbn; lia).
  intros E. apply bind_Some in E as ([i r1] & Ei & E). apply bind_Some in E as ([f r2] & Ef & E).
  apply bind_Some in E as ([e r3] & Ee & [= <- <-]). apply Hi in Ei. apply Hf in Ef. apply He in Ee. lia.
Qed.

Lemma scalar_shrinks s v t : scalar s = Some (v, t) -> String.length t < String.length s.
Proof.
  assert (forall w, w <> "" -> String.prefix w s = true ->
    String.length (drop_str (String.length w) s) < String.length s) as Hw.
  { intros w Hne Hp. rewrite drop_str_le. apply prefix_drop in Hp. rewrite Hp at 2.
    destruct w; [done|]. rewrite Hp at 1. rewrite str_length_app. cbn. lia. }
  unfold scalar. repeat case_match; intros E.
  - injection E as <- <-. by apply (Hw "true").
  - injection E as <- <-. by apply (Hw "false").
  - injection E as <- <-. by apply (Hw "null").
  - apply bind_Some in E as ([n r] & E & [= <- <-]). by eapply numberSpan_shrinks.
Qed.

Definition shrinks {A} (rd : string -> option (A * string)) : Prop :=
  forall s v t, rd s = Some (v, t) -> String.length t < String.length s.

(** The reader [rd'] reads whatever [rd] reads. *)
Definition extends {A} (rd rd' : string -> option (A * string)) : Prop :=
  forall s x, rd s = Some x -> rd' s = Some x.

Lemma delim_spec s : delim s = match skipSpace s with String d r => Some (d, r) | "" => None end.
Proof. done. Qed.

Section readers.
Context {A : Type} (rd : string -> option (A * string)) (Hrd : shrinks rd).

Lemma delim_shrinks s c t : delim s = Some (c, t) -> String.length t < String.length s.
Proof. unfold delim. destruct (skipSpace s) eqn:E; [done|]. intros [= <- <-]. by eapply skipSpace_cons. Qed.

Lemma rd_skip s v t : rd (skipSpace s) = Some (v, t) -> String.length t < String.length s.
Proof. intros E. apply Hrd in E. pose proof (skipSpace_le s). lia. Qed.

Lemma member_inv s k v d t : member rd s = Some (k, v, d, t) ->
  exists r1 r2 r3 r4, delim s = Some (dquote, r1) /\ stringLit r1 = Some (k, r2) /\ delim r2 = Some (":"%char, r3) /\
    rd (skipSpace r3) = Some (v, r4) /\ delim r4 = Some (d, t).
Proof.
  unfold member. intros E. apply bind_Some in E as ([q r1] & E1 & E). destruct (Ascii.eqb_spec q dquote) as [->|]; [|done].
  cbn [negb] in E. apply bind_Some in E as ([k' r2] & E2 & E). apply bind_Some in E as ([cl r3] & E3 & E).
  destruct (Ascii.eqb_spec cl ":") as [->|]; [|done]. cbn [negb] in E. apply bind_Some in E as ([v' r4] & E4 & E).
  apply bind_Some in E as ([d' r5] & E5 & [= <- <- <- <-]). by exists r1, r2, r3, r4.
Qed.

Lemma member_intro s k v d t r1 r2 r3 r4 :
  delim s = Some (dquote, r1) -> stringLit r1 = Some (k, r2) -> delim r2 = Some (":"%char, r3) ->
  rd (skipSpace r3) = Some (v, r4) -> delim r4 = Some (d, t) -> member rd s = Some (k, v, d, t).
Proof.
  intros E1 E2 E3 E4 E5. unfold member. rewrite E1. cbn [mbind option_bind]. change (negb (Ascii.eqb dquote dquote)) with false.
  cbn iota. rewrite E2. cbn [mbind option_bind]. rewrite E3. cbn [mbind option_bind]. change (negb (Ascii.eqb ":" ":")) with false.
  cbn iota. rewrite E4. cbn [mbind option_bind]. by rewrite E5.
Qed.

Lemma member_shrinks s k v d t : member rd s = Some (k, v, d, t) -> String.length t < String.length s.
Proof.
  intros (r1 & r2 & r3 & r4 & E1%delim_shrinks & E2%stringLit_shrinks & E3%delim_shrinks & E4%rd_skip & E5%delim_shrinks)%member_inv.
  lia.
Qed.

Lemma membersFrom_shrinks fuel : forall s ms t, membersFrom rd fuel s = Some (ms, t) -> String.length t < String.length s.
Proof.
  induction fuel as [|fuel IH]; intros s ms t; [done|]. cbn [membersFrom]. intros E.
  apply bind_Some in E as ([[[k v] d] r] & Em%member_shrinks & E). case_match.
  - apply bind_Some in E as ([ms' t'] & E%IH & [= <- <-]). lia.
  - case_match; [|done]. injection E as <- <-. done.
Qed.

Lemma itemsFrom_shrinks fuel : forall s vs t, itemsFrom rd fuel s = Some (vs, t) -> String.length t < String.length s.
Proof.
  induction fuel as [|fuel IH]; intros s vs t; [done|]. cbn [itemsFrom]. intros E.
  apply bind_Some in E as ([v r] & Ev%rd_skip & E). apply bind_Some in E as ([d r'] & Ed%delim_shrinks & E). case_match.
  - apply bind_Some in E as ([vs' t'] & E%IH & [= <- <-]). lia.
  - case_match; [|done]. injection E as <- <-. lia.
Qed.

(** More fuel than there is text changes nothing. *)
Lemma membersFrom_fuel f : forall f' s, String.length s < f -> String.length s < f' ->
  membersFrom rd f s = membersFrom rd f' s.
Proof.
  induction f as [|f IH]; intros [|f'] s Hf Hf'; try lia. cbn [membersFrom].
  destruct (member rd s) as [[[[k v] d] r]|] eqn:Em; [|done]. apply member_shrinks in Em. cbn [mbind option_bind].
  by rewrite (IH f' r) by lia.
Qed.

Lemma itemsFrom_fuel f : forall f' s, String.length s < f -> String.length s < f' ->
  itemsFrom rd f s = itemsFrom rd f' s.
Proof.
  induction f as [|f IH]; intros [|f'] s Hf Hf'; try lia. cbn [itemsFrom].
  destruct (rd (skipSpace s)) as [[v r]|] eqn:Ev; [|done]. apply rd_skip in Ev. cbn [mbind option_bind].
  destruct (delim r) as [[d r']|] eqn:Ed; [|done]. apply delim_shrinks in Ed. cbn [mbind option_bind].
  by rewrite (IH f' r') by lia.
Qed.

Lemma objectBody_shrinks s ms t : objectBody rd s = Some (ms, t) -> String.length t < String.length s.
Proof.
  unfold objectBody. intros E. apply bind_Some in E as ([c r] & Ed%delim_shrinks & E).
  case_match; [by injection E as <- <- | by eapply membersFrom_shrinks].
Qed.

Lemma arrayBody_shrinks s vs t : arrayBody rd s = Some (vs, t) -> String.length t < String.length s.
Proof.
  unfold arrayBody. intros E. apply bind_Some in E as ([c r] & Ed%delim_shrinks & E).
  case_match; [by injection E as <- <- | by eapply itemsFrom_shrinks].
Qed.

End readers.

Lemma parseValue_shrinks d : shrinks (parseValue d).
Proof.
  induction d as [|d IH]; intros [|c r] v t; try done; cbn [parseValue];
    (destruct (Ascii.eqb c dquote); [intros E; apply bind_Some in E as ([w t'] & E%stringLit_shrinks & [= <- <-]); cbn; lia|]);
    destruct (Ascii.eqb c "{"); [done|destruct (Ascii.eqb c "["); [done | apply scalar_shrinks]| |destruct (Ascii.eqb c "["); [|apply scalar_shrinks]];
    intros E; apply bind_Some in E as ([w t'] & E & [= <- <-]).
  - apply (objectBody_shrinks _ IH) in E. cbn. lia.
  - apply (arrayBody_shrinks _ IH) in E. cbn. lia.
Qed.

(** ** A deeper limit reads no less *)

Section extension.
Context {A : Type} (rd rd' : string -> option (A * string)) (Hext : extends rd rd').

Lemma membersFrom_extends fuel : extends (membersFrom rd fuel) (membersFrom rd' fuel).
Proof.
  induction fuel as [|fuel IH]; intros s x; [done|]. cbn [membersFrom]. intros E.
  apply bind_Some in E as ([[[k v] d] r] & Em & E).
  apply member_inv in Em as (r1 & r2 & r3 & r4 & E1 & E2 & E3 & E4%Hext & E5).
  rewrite (member_intro rd' _ _ _ _ _ _ _ _ _ E1 E2 E3 E4 E5). cbn [mbind option_bind]. case_match; [|done].
  apply bind_Some in E as ([ms t] & E%IH & [= <-]). by rewrite E.
Qed.

Lemma itemsFrom_extends fuel : extends (itemsFrom rd fuel) (itemsFrom rd' fuel).
Proof.
  induction fuel as [|fuel IH]; intros s x; [done|]. cbn [itemsFrom]. intros E.
  apply bind_Some in E as ([v r] & Ev%Hext & E). rewrite Ev. cbn [mbind option_bind].
  destruct (delim r) as [[d r']|]; [|done]. cbn [mbind option_bind] in *. case_match; [|done].
  apply bind_Some in E as ([ms t] & E%IH & [= <-]). by rewrite E.
Qed.

Lemma objectBody_extends : extends (objectBody rd) (objectBody rd').
Proof.
  intros s x. unfold objectBody. destruct (delim s) as [[c r]|]; [|done]. cbn [mbind option_bind].
  case_match; [done | apply membersFrom_extends].
Qed.

Lemma arrayBody_extends : extends (arrayBody rd) (arrayBody rd').
Proof.
  intros s x. unfold arrayBody. destruct (delim s) as [[c r]|]; [|done]. cbn [mbind option_bind].
  case_match; [done | apply itemsFrom_extends].
Qed.

End extension.

Lemma parseValue_deeper d : forall d', (d <= d')%nat -> extends (parseValue d) (parseValue d').
Proof.
  induction d as [|d IH]; intros d' Hd [|c r] x; try done.
  - destruct d'; [done|]. cbn [parseValue]. repeat (case_match; try done).
  - destruct d' as [|d']; [lia|]. cbn [parseValue]. destruct (Ascii.eqb c dquote); [done|].
    destruct (Ascii.eqb c "{"); [|destruct (Ascii.eqb c "["); [|done]]; intros E; apply bind_Some in E as ([y t] & E & [= <-]).
    + by rewrite (objectBody_extends _ _ (IH d' ltac:(lia)) _ _ E).
    + by rewrite (arrayBody_extends _ _ (IH d' ltac:(lia)) _ _ E).
Qed.

(** ** Values with one member per key *)

Fixpoint unique (v : value) : Prop :=
  match v with
  | VObject ms =>
      NoDup (map fst ms) /\
      (fix each (l : list (string * value)) := match l with [] => True | (_, v) :: l => unique v /\ each l end) ms
  | VArray l => (fix each (l : list value) := match l with [] => True | v :: l => unique v /\ each l end) l
  | _ => True
  end.

Lemma unique_object ms : unique (VObject ms) <-> NoDup (map fst ms) /\ Forall (fun kv => unique (snd kv)) ms.
Proof. cbn [unique]. apply and_iff_compat_l. induction ms as [|[k v] ms IH]; [by split|]. by rewrite Forall_cons, IH. Qed.

Lemma unique_array l : unique (VArray l) <-> Forall unique l.
Proof. cbn [unique]. induction l as [|v l IH]; [by split|]. by rewrite Forall_cons, IH. Qed.

Lemma lastOf_elem {A} k (v : A) ms : lastOf k ms = Some v -> (k, v) ∈ ms.
Proof.
  unfold lastOf. intros E. apply fmap_Some in E as ([k' v'] & E & Hv). cbn in Hv. subst v'. apply find_some in E as [Hin Hk].
  cbn [fst] in Hk. apply String.eqb_eq in Hk as ->. apply in_rev in Hin. by apply list_elem_of_In.
Qed.

Lemma lastOf_unique {A} k (v : A) ms : NoDup (map fst ms) -> (k, v) ∈ ms -> lastOf k ms = Some v.
Proof.
  intros Hnd Hin. destruct (lastOf k ms) as [v'|] eqn:E.
  - apply lastOf_elem in E. f_equal. clear -Hnd Hin E. induction ms as [|[k0 v0] ms IH]; [by apply elem_of_nil in Hin|].
    cbn [map fst] in Hnd. apply NoDup_cons in Hnd as [Hn Hnd].
    assert (forall w, (k, w) ∈ ms -> k ∈ map fst ms) as Hk.
    { intros w Hw. apply list_elem_of_In, in_map_iff. exists (k, w). split; [done | by apply list_elem_of_In]. }
    apply elem_of_cons in Hin as [Hin|Hin], E as [E|E]; [congruence | | | by apply IH]; exfalso; apply Hn.
    + injection Hin as <- _. by eapply Hk.
    + injection E as <- _. by eapply Hk.
  - exfalso. unfold lastOf in E. apply fmap_None in E. apply list_elem_of_In, in_rev in Hin.
    pose proof (find_none _ _ E (k, v) Hin) as Hf. cbn in Hf. by rewrite String.eqb_refl in Hf.
Qed.

(** ** A reading depends only on the text it consumes *)

(** A number cannot go on. *)
Definition ends (t : string) : bool :=
  match t with
  | EmptyString => true
  | String c _ => negb (isDigit c || existsb (Ascii.eqb c) ["."; "e"; "E"; "+"; "-"]%char)
  end.

Definition local {A} (rd : string -> option (A * string)) : Prop :=
  forall s v t, rd s = Some (v, t) ->
    exists p, p <> "" /\ s = p ++ t /\ forall t', ends t' = true -> rd (p ++ t') = Some (v, t').

Lemma skipSpace_split s : exists w, s = w ++ skipSpace s /\ str_forall isSpace w = true.
Proof.
  induction s as [|c s (w & Hw & Hs)]; [by exists ""|]. cbn [skipSpace]. destruct (isSpace c) eqn:E; [|by exists ""].
  exists (String c w). cbn. rewrite E, Hs. split; [by f_equal | done].
Qed.

Lemma skipSpace_app w s : str_forall isSpace w = true -> skipSpace (w ++ s) = skipSpace s.
Proof. induction w as [|c w IH]; [done|]. cbn. intros [-> Hw]%andb_true_iff. by apply IH. Qed.

Lemma skipSpace_head s c r : skipSpace s = String c r -> isSpace c = false.
Proof. induction s as [|d s IH]; cbn [skipSpace]; [done|]. destruct (isSpace d) eqn:E; [done|]. by intros [= <- <-]. Qed.

Lemma delim_local s c t : delim s = Some (c, t) ->
  exists w, s = w ++ String c t /\ str_forall isSpace w = true /\ forall t', delim (w ++ String c t') = Some (c, t').
Proof.
  unfold delim. destruct (skipSpace s) as [|c' r] eqn:E; [done|]. intros [= -> ->].
  destruct (skipSpace_split s) as (w & Hw & Hs). rewrite E in Hw. exists w. split_and!; [done | done|]. intros t'.
  rewrite skipSpace_app by done. cbn [skipSpace]. by rewrite (skipSpace_head _ _ _ E).
Qed.

Lemma stringLit_local s v t : stringLit s = Some (v, t) ->
  exists p, s = p ++ t /\ forall t', stringLit (p ++ t') = Some (v, t').
Proof.
  unfold stringLit. intros E. apply bind_Some in E as ([b t0] & [-> Hb]%stringBody_spec & [= <- <-]).
  exists (b ++ String dquote ""). split; [by rewrite str_app_assoc|]. intros t'. rewrite str_app_assoc. cbn [String.append].
  by rewrite Hb.
Qed.

Lemma ends_space w t : str_forall isSpace w = true -> ends t = true -> ends (w ++ t) = true.
Proof.
  destruct w as [|c w]; [done|]. cbn [str_forall String.append]. intros [Hc _]%andb_true_iff _. unfold isSpace in Hc.
  apply existsb_exists in Hc as (d & Hd & ->%Ascii.eqb_eq). by destruct Hd as [<-|[<-|[<-|[<-|[]]]]].
Qed.

(** A value behind blanks. *)
Lemma rd_skip_local {A} (rd : string -> option (A * string)) s v t : local rd -> rd (skipSpace s) = Some (v, t) ->
  exists p, s = p ++ t /\ forall t', ends t' = true -> rd (skipSpace (p ++ t')) = Some (v, t').
Proof.
  intros Hl E. destruct (Hl _ _ _ E) as (p & Hne & Hp & Hl'). destruct (skipSpace_split s) as (w & Hw & Hs).
  destruct p as [|c p]; [done|]. pose proof (skipSpace_head _ _ _ Hp) as Hc.
  exists (w ++ String c p). split; [by rewrite str_app_assoc, <- Hp|]. intros t' Ht. rewrite str_app_assoc, skipSpace_app by done.
  cbn [String.append skipSpace]. rewrite Hc. by apply Hl'.
Qed.

Definition closes (d : ascii) : Prop := d = ","%char \/ d = "}"%char \/ d = "]"%char.

Lemma closes_ends w d t : str_forall isSpace w = true -> closes d -> ends (w ++ String d t) = true.
Proof. intros Hw Hd. apply ends_space; [done|]. by destruct Hd as [->|[->| ->]]. Qed.

Section locality.
Context {A : Type} (rd : string -> option (A * string)) (Hl : local rd).

Lemma member_local s k v d t : closes d -> member rd s = Some (k, v, d, t) ->
  exists p, p <> "" /\ s = p ++ t /\ forall t', member rd (p ++ t') = Some (k, v, d, t').
Proof.
  intros Hd (r1 & r2 & r3 & r4 & E1 & E2 & E3 & E4 & E5)%member_inv.
  apply delim_local in E1 as (w1 & -> & _ & H1). apply stringLit_local in E2 as (p2 & -> & H2).
  apply delim_local in E3 as (w3 & -> & _ & H3). apply (rd_skip_local rd _ _ _ Hl) in E4 as (p4 & -> & H4).
  apply delim_local in E5 as (w5 & -> & Hw5 & H5).
  exists (w1 ++ String dquote (p2 ++ w3 ++ String ":" (p4 ++ w5 ++ String d ""))).
  assert (forall x, (w1 ++ String dquote (p2 ++ w3 ++ String ":" (p4 ++ w5 ++ String d ""))) ++ x =
    w1 ++ String dquote (p2 ++ w3 ++ String ":" (p4 ++ w5 ++ String d x))) as Happ.
  { intros x. rewrite !str_app_assoc. cbn [String.append]. rewrite !str_app_assoc. cbn [String.append]. by rewrite !str_app_assoc. }
  split; [by destruct w1|]. split; [by rewrite Happ|]. intros t'. rewrite Happ.
  eapply member_intro; [apply H1 | apply H2 | apply H3 | apply H4; by apply closes_ends | apply H5].
Qed.

Lemma membersFrom_local fuel : forall s ms t, membersFrom rd fuel s = Some (ms, t) ->
  exists p, s = p ++ t /\ forall t' fuel', (String.length (p ++ t') < fuel')%nat -> membersFrom rd fuel' (p ++ t') = Some (ms, t').
Proof.
  induction fuel as [|fuel IH]; intros s ms t; [done|]. cbn [membersFrom]. intros E.
  apply bind_Some in E as ([[[k v] d] r] & Em & E). destruct (Ascii.eqb_spec d ",") as [->|Hc].
  - apply member_local in Em as (p & Hne & -> & Hm); [|by left]. apply bind_Some in E as ([ms' t0] & E & [= <- <-]).
    apply IH in E as (p' & -> & Hr). exists (p ++ p'). split; [by rewrite str_app_assoc|]. intros t' [|fuel'] Hf; [lia|].
    rewrite str_app_assoc in *. cbn [membersFrom]. rewrite Hm. cbn [mbind option_bind]. rewrite Hr; [done|].
    rewrite str_length_app in Hf. destruct p; [done|]. cbn in Hf. lia.
  - destruct (Ascii.eqb_spec d "}") as [->|]; [|done]. injection E as <- <-.
    apply member_local in Em as (p & _ & -> & Hm); [|by right; left]. exists p. split; [done|]. intros t' [|fuel'] Hf; [lia|].
    cbn [membersFrom]. by rewrite Hm.
Qed.

Lemma itemsFrom_local fuel : forall s vs t, itemsFrom rd fuel s = Some (vs, t) ->
  exists p, s = p ++ t /\ forall t' fuel', (String.length (p ++ t') < fuel')%nat -> itemsFrom rd fuel' (p ++ t') = Some (vs, t').
Proof.
  induction fuel as [|fuel IH]; intros s vs t; [done|]. cbn [itemsFrom]. intros E.
  apply bind_Some in E as ([v r] & Ev & E). apply (rd_skip_local rd _ _ _ Hl) in Ev as (p & -> & Hv).
  apply bind_Some in E as ([d r'] & Ed & E). apply delim_local in Ed as (w & -> & Hw & Hd).
  assert (forall x y, (p ++ w ++ String d x) ++ y = p ++ w ++ String d (x ++ y)) as Happ
    by (intros x y; rewrite !str_app_assoc; done).
  destruct (Ascii.eqb_spec d ",") as [->|Hc].
  - apply bind_Some in E as ([vs' t0] & E & [= <- <-]). apply IH in E as (p' & -> & Hr).
    exists (p ++ w ++ String "," p'). split; [by rewrite Happ|]. intros t' [|fuel'] Hf; [lia|]. rewrite Happ in *. cbn [itemsFrom].
    rewrite Hv by (apply closes_ends; [done | by left]). cbn [mbind option_bind]. rewrite Hd. cbn [mbind option_bind].
    change (Ascii.eqb "," ",") with true. cbn iota. rewrite Hr; [done|]. rewrite !str_length_app in Hf. cbn [String.length] in Hf.
    rewrite str_length_app in *. lia.
  - destruct (Ascii.eqb_spec d "]") as [->|]; [|done]. injection E as <- <-. exists (p ++ w ++ String "]" ""). split; [by rewrite Happ|].
    intros t' [|fuel'] Hf; [lia|]. rewrite Happ. cbn [itemsFrom]. rewrite Hv by (apply closes_ends; [done | by right; right]).
    cbn [mbind option_bind]. by rewrite Hd.
Qed.

Lemma membersFrom_head fuel s x : membersFrom rd fuel s = Some x -> exists r, delim s = Some (dquote, r).
Proof.
  destruct fuel; [done|]. cbn [membersFrom]. intros E. apply bind_Some in E as ([[[k v] d] r] & Em & _).
  apply member_inv in Em as (r1 & _ & _ & _ & E1 & _). eauto.
Qed.

Lemma objectBody_local s ms t : objectBody rd s = Some (ms, t) ->
  exists p, s = p ++ t /\ forall t', objectBody rd (p ++ t') = Some (ms, t').
Proof.
  unfold objectBody. intros E. apply bind_Some in E as ([c r] & Ed & E). destruct (Ascii.eqb_spec c "}") as [->|Hc].
  - injection E as <- <-. apply delim_local in Ed as (w & -> & _ & Hd). exists (w ++ String "}" ""). split; [by rewrite str_app_assoc|].
    intros t'. rewrite str_app_assoc. cbn [String.append]. by rewrite Hd.
  - apply membersFrom_local in E as (p & -> & Hm). exists p. split; [done|]. intros t'.
    pose proof (Hm t' (S (String.length (p ++ t'))) ltac:(lia)) as Ht. destruct (membersFrom_head _ _ _ Ht) as (r' & ->). exact Ht.
Qed.

Lemma arrayBody_local s vs t : (forall r, rd (String "]" r) = None) -> arrayBody rd s = Some (vs, t) ->
  exists p, s = p ++ t /\ forall t', arrayBody rd (p ++ t') = Some (vs, t').
Proof.
  intros Hbr. unfold arrayBody. intros E. apply bind_Some in E as ([c r] & Ed & E). destruct (Ascii.eqb_spec c "]") as [->|Hc].
  - injection E as <- <-. apply delim_local in Ed as (w & -> & _ & Hd). exists (w ++ String "]" ""). split; [by rewrite str_app_assoc|].
    intros t'. rewrite str_app_assoc. cbn [String.append]. by rewrite Hd.
  - apply itemsFrom_local in E as (p & -> & Hm). exists p. split; [done|]. intros t'.
    pose proof (Hm t' (S (String.length (p ++ t'))) ltac:(lia)) as Ht. rewrite Ht. cbn [itemsFrom] in Ht.
    apply bind_Some in Ht as ([v r'] & Hv & _). unfold delim. destruct (skipSpace (p ++ t')) as [|c' x].
    { destruct (Hl _ _ _ Hv) as (q & Hq & Hqe & _). by destruct q. }
    cbn [mbind option_bind]. destruct (Ascii.eqb_spec c' "]") as [->|]; [by rewrite Hbr in Hv | done].
Qed.

End locality.

Definition no_digit (t : string) : bool := match t with String c _ => negb (isDigit c) | EmptyString => true end.

Lemma digitsSpan_local s : let '(d, t) := digitsSpan s in
  s = d ++ t /\ no_digit t = true /\ forall t', no_digit t' = true -> digitsSpan (d ++ t') = (d, t').
Proof.
  induction s as [|c s IH]; cbn [digitsSpan].
  { split_and!; [done | done|]. intros [|c t']; [done|]. cbn. by intros ->%negb_true_iff. }
  destruct (isDigit c) eqn:Ec.
  - destruct (digitsSpan s) as [d t]. destruct IH as (-> & Hn & Hd). split_and!; [done | done|]. intros t' Ht. cbn [String.append digitsSpan].
    by rewrite Ec, Hd.
  - split_and!; [done | cbn; by rewrite Ec|]. intros [|c' t']; [done|]. cbn. by intros ->%negb_true_iff.
Qed.

Lemma digits1_local s d t : digits1 s = Some (d, t) ->
  d <> "" /\ s = d ++ t /\ forall t', no_digit t' = true -> digits1 (d ++ t') = Some (d, t').
Proof.
  unfold digits1. pose proof (digitsSpan_local s) as Hs. destruct (digitsSpan s) as [d0 t0]. destruct Hs as (-> & _ & Hs).
  destruct (String.eqb_spec d0 "") as [|Hd]; [done|]. intros [= <- <-]. split_and!; [done | done|]. intros t' Ht. rewrite Hs by done.
  by rewrite (proj2 (String.eqb_neq _ _) Hd).
Qed.

(** What may follow the integer part and the fraction. *)
Definition after_int (t : string) : bool :=
  match t with String c _ => negb (isDigit c || Ascii.eqb c ".") | EmptyString => true end.

Lemma ends_inv t : ends t = true -> after_int t = true /\
  match t with String c _ => Ascii.eqb c "e" = false /\ Ascii.eqb c "E" = false | "" => True end.
Proof.
  destruct t as [|c t]; [done|]. cbn [ends after_int existsb]. rewrite orb_false_r, !negb_true_iff, !orb_false_iff. naive_solver.
Qed.

Lemma after_int_digit t : after_int t = true -> no_digit t = true.
Proof. destruct t as [|c t]; [done|]. cbn. rewrite !negb_true_iff, orb_false_iff. naive_solver. Qed.

Lemma ends_digit t : ends t = true -> no_digit t = true.
Proof. intros [? _]%ends_inv. by apply after_int_digit. Qed.

Lemma expSpan_local s e t : expSpan s = Some (e, t) ->
  s = e ++ t /\ forall t', ends t' = true -> expSpan (e ++ t') = Some (e, t') /\ after_int (e ++ t') = true.
Proof.
  assert (forall t', ends t' = true -> expSpan t' = Some ("", t') /\ after_int t' = true) as Hnil.
  { intros t' [Ha Ht]%ends_inv. split; [|done]. destruct t' as [|c t']; [done|]. cbn [expSpan]. by destruct Ht as [-> ->]. }
  destruct s as [|c s]; cbn [expSpan]; [intros [= <- <-]; by split|].
  destruct (Ascii.eqb c "e" || Ascii.eqb c "E") eqn:Ec; [|intros [= <- <-]; by split].
  destruct (signSpan s) as [sg r] eqn:Es. intros E. apply bind_Some in E as ([d t0] & (Hd & -> & Hr)%digits1_local & [= <- <-]).
  assert (s = sg ++ d ++ t0 /\ forall x, signSpan (sg ++ d ++ x) = (sg, d ++ x)) as [-> Hsg].
  { destruct s as [|c' s]; cbn [signSpan] in Es; [injection Es as <- Er; by destruct d|].
    destruct (Ascii.eqb c' "+" || Ascii.eqb c' "-") eqn:Es'; injection Es as <- Er.
    - subst s. split; [done|]. intros x. cbn [signSpan String.append]. by rewrite Es'.
    - destruct d as [|d1 d]; [done|]. injection Er as -> ->. split; [done|]. intros x. cbn [signSpan String.append]. by rewrite Es'. }
  split; [cbn; by rewrite str_app_assoc|]. intros t' Ht. cbn [String.append expSpan after_int]. rewrite Ec, str_app_assoc, Hsg.
  rewrite Hr by by apply ends_digit. split; [done|]. apply orb_true_iff in Ec as [->%Ascii.eqb_eq| ->%Ascii.eqb_eq]; done.
Qed.

Lemma fracSpan_local s f t : fracSpan s = Some (f, t) ->
  s = f ++ t /\ forall t', after_int t' = true -> fracSpan (f ++ t') = Some (f, t') /\ no_digit (f ++ t') = true.
Proof.
  destruct s as [|c s]; cbn [fracSpan].
  { intros [= <- <-]. split; [done|]. intros [|c t'] Ht; [done|]. split; [|by apply after_int_digit]. cbn in *.
    apply negb_true_iff, orb_false_iff in Ht as [_ ->]. done. }
  destruct (Ascii.eqb_spec c ".") as [->|Hc].
  - intros E. apply bind_Some in E as ([d t0] & (Hd & -> & Hr)%digits1_local & [= <- <-]). split; [done|]. intros t' Ht.
    cbn [String.append fracSpan]. change (Ascii.eqb "." ".") with true. cbn iota. rewrite Hr by by apply after_int_digit. done.
  - intros [= <- <-]. split; [done|]. intros [|c' t'] Ht; [done|]. split; [|by apply after_int_digit]. cbn in *.
    apply negb_true_iff, orb_false_iff in Ht as [_ ->]. done.
Qed.

Lemma intSpan_local s i t : intSpan s = Some (i, t) ->
  (exists c i', i = String c i' /\ Ascii.eqb c "-" = false) /\ s = i ++ t /\
  forall t', no_digit t' = true -> intSpan (i ++ t') = Some (i, t').
Proof.
  destruct s as [|c s]; [done|]. cbn [intSpan]. destruct (Ascii.eqb_spec c "0") as [->|Hc].
  - intros [= <- <-]. split_and!; [by eexists _, _ | done | done].
  - intros (Hd & Hs & Hr)%digits1_local. destruct i as [|c' i]; [done|]. injection Hs as <- ->. split_and!; [|done|].
    + exists c, i. split; [done|]. destruct (Ascii.eqb_spec c "-") as [->|]; [|done]. by pose proof (Hr "" eq_refl).
    + intros t' Ht. specialize (Hr t' Ht). cbn [String.append intSpan] in *. by rewrite (proj2 (Ascii.eqb_neq _ _) Hc).
Qed.

Lemma numberSpan_local s n t : numberSpan s = Some (n, t) ->
  n <> "" /\ s = n ++ t /\ forall t', ends t' = true -> numberSpan (n ++ t') = Some (n, t').
Proof.
  unfold numberSpan. destruct (match s with "" => _ | _ => _ end) as [neg r] eqn:Es. intros E.
  apply bind_Some in E as ([i r1] & (Hi & -> & Ri)%intSpan_local & E). apply bind_Some in E as ([f r2] & (-> & Rf)%fracSpan_local & E).
  apply bind_Some in E as ([e r3] & (-> & Re)%expSpan_local & [= <- <-]). destruct Hi as (c & i' & -> & Hc).
  assert (neg = "" /\ s = String c i' ++ f ++ e ++ r3 \/ neg = "-" /\ s = String "-" (String c i' ++ f ++ e ++ r3)) as Hneg.
  { destruct s as [|c' s]; [by injection Es|]. destruct (Ascii.eqb_spec c' "-") as [->|]; [right | left]; split; congruence. }
  split; [by destruct Hneg as [[-> _]|[-> _]]|]. split.
  { destruct Hneg as [[-> ->]|[-> ->]]; cbn [String.append]; by rewrite !str_app_assoc. }
  intros t' Ht. destruct (Re t' Ht) as [He Ha]. destruct (Rf _ Ha) as [Hf Hd]. pose proof (Ri _ Hd) as Hi.
  assert ((neg ++ String c i' ++ f ++ e) ++ t' = neg ++ String c i' ++ f ++ e ++ t') as -> by by rewrite !str_app_assoc.
  destruct Hneg as [[-> _]|[-> _]]; cbn [String.append] in *; [rewrite Hc|change (Ascii.eqb "-" "-") with true; cbn iota];
    rewrite Hi; cbn [mbind option_bind]; rewrite Hf; cbn [mbind option_bind]; by rewrite He.
Qed.

Lemma numberSpan_word c w x : (c = "t" \/ c = "f" \/ c = "n")%char -> is_Some (numberSpan x) -> String.prefix (String c w) x = false.
Proof.
  intros Hc [r Hr]. destruct x as [|c' x]; [done|]. cbn [String.prefix]. destruct (ascii_dec c c') as [->|]; [|done].
  by destruct Hc as [->|[->| ->]].
Qed.

Lemma scalar_local : local scalar.
Proof.
  intros s v t E. assert (forall w u, w <> "" -> (forall x, scalar (w ++ x) = Some (u, x)) -> String.prefix w s = true ->
    v = u -> t = drop_str (String.length w) s ->
    exists p, p <> "" /\ s = p ++ t /\ forall t', ends t' = true -> scalar (p ++ t') = Some (v, t')) as Hw.
  { intros w u Hne Hx Hp -> ->. exists w. split_and!; [done | by apply prefix_drop|]. intros t' _. apply Hx. }
  unfold scalar in E. destruct (String.prefix "true" s) eqn:E1; [injection E as <- <-; apply (Hw "true" (VBool true)); [done | by intros [] | done ..]|].
  destruct (String.prefix "false" s) eqn:E2; [injection E as <- <-; apply (Hw "false" (VBool false)); [done | by intros [] | done ..]|].
  destruct (String.prefix "null" s) eqn:E3; [injection E as <- <-; apply (Hw "null" VNull); [done | by intros [] | done ..]|].
  apply bind_Some in E as ([n r] & En & [= <- <-]). apply numberSpan_local in En as (Hne & -> & Hn).
  exists n. split_and!; [done | done|]. intros t' Ht. unfold scalar. specialize (Hn t' Ht).
  rewrite !numberSpan_word by eauto. by rewrite Hn.
Qed.

(** The bytes that open a value of [parseValue]. *)
Lemma parseValue_cons d c r :
  parseValue d (String c r) =
  if Ascii.eqb c dquote then '(v, t) ← stringLit r; Some (VString v, t)
  else if Ascii.eqb c "{" || Ascii.eqb c "[" then
    match d with
    | O => None
    | S d => if Ascii.eqb c "{" then '(ms, t) ← objectBody (parseValue d) r; Some (VObject ms, t)
             else '(vs, t) ← arrayBody (parseValue d) r; Some (VArray vs, t)
    end
  else scalar (String c r).
Proof. destruct d; cbn [parseValue]; destruct (Ascii.eqb c dquote), (Ascii.eqb c "{"), (Ascii.eqb c "["); done. Qed.

Lemma parseValue_object d s ms t : parseValue d s = Some (VObject ms, t) ->
  exists r d', s = String "{" r /\ d = S d' /\ objectBody (parseValue d') r = Some (ms, t).
Proof.
  destruct s as [|c r]; [by destruct d|]. rewrite parseValue_cons. destruct (Ascii.eqb c dquote).
  { intros E. by apply bind_Some in E as ([v t'] & _ & [=]). }
  destruct (Ascii.eqb_spec c "{") as [->|]; cbn [orb].
  - destruct d as [|d]; [done|]. intros E. apply bind_Some in E as ([ms' t'] & E & [= <- <-]). by exists r, d.
  - destruct (Ascii.eqb c "[").
    + destruct d as [|d]; [done|]. intros E. by apply bind_Some in E as ([ms' t'] & E & [=]).
    + unfold scalar. repeat case_match; intros E; try done. by apply bind_Some in E as ([lit r'] & _ & [=]).
Qed.

Lemma parseValue_array d s vs t : parseValue d s = Some (VArray vs, t) ->
  exists r d', s = String "[" r /\ d = S d' /\ arrayBody (parseValue d') r = Some (vs, t).
Proof.
  destruct s as [|c r]; [by destruct d|]. rewrite parseValue_cons. destruct (Ascii.eqb c dquote).
  { intros E. by apply bind_Some in E as ([v t'] & _ & [=]). }
  destruct (Ascii.eqb_spec c "{") as [->|]; cbn [orb].
  - destruct d as [|d]; [done|]. intros E. by apply bind_Some in E as ([ms' t'] & E & [=]).
  - destruct (Ascii.eqb_spec c "[") as [->|].
    + destruct d as [|d]; [done|]. intros E. apply bind_Some in E as ([ms' t'] & E & [= <- <-]). by exists r, d.
    + unfold scalar. repeat case_match; intros E; try done. by apply bind_Some in E as ([lit r'] & _ & [=]).
Qed.

Lemma parseValue_local d : local (parseValue d).
Proof.
  assert (forall d r, parseValue d (String "]" r) = None) as Hbr by (intros [] r; done).
  induction d as [d IH] using lt_wf_ind. intros [|c r] v t E; [by destruct d|].
  rewrite parseValue_cons in E.
  destruct (Ascii.eqb c dquote) eqn:Eq.
  { apply bind_Some in E as ([x t0] & (p & -> & Hp)%stringLit_local & [= <- <-]). exists (String c p). split_and!; [done | done|].
    intros t' _. cbn [String.append]. by rewrite parseValue_cons, Eq, Hp. }
  destruct (Ascii.eqb c "{" || Ascii.eqb c "[") eqn:Eb.
  - destruct d as [|d]; [done|]. assert (local (parseValue d)) as Hd by (apply IH; lia). destruct (Ascii.eqb c "{") eqn:Ec;
      apply bind_Some in E as ([x t0] & E & [= <- <-]).
    + apply (objectBody_local _ Hd) in E as (p & -> & Hp). exists (String c p). split_and!; [done | done|]. intros t' _.
      cbn [String.append]. by rewrite parseValue_cons, Eq, Ec, Hp.
    + apply (arrayBody_local _ Hd) in E as (p & -> & Hp); [|apply Hbr]. exists (String c p). split_and!; [done | done|]. intros t' _.
      cbn [String.append]. by rewrite parseValue_cons, Eq, Ec, Eb, Hp.
  - destruct (scalar_local _ _ _ E) as (p & Hne & Hp & Hs). destruct p as [|c' p]; [done|]. injection Hp as <- ->.
    exists (String c p). split_and!; [done | done|]. intros t' Ht. cbn [String.append]. rewrite parseValue_cons, Eq, Eb. by apply Hs.
Qed.

Lemma parseValue_tight d s x : parseValue d s = Some x -> skipSpace s = s.
Proof.
  destruct s as [|c r]; [done|]. cbn [skipSpace]. destruct (isSpace c) eqn:E; [|done]. unfold isSpace in E.
  apply existsb_exists in E as (c' & Hc & ->%Ascii.eqb_eq). rewrite parseValue_cons.
  by destruct Hc as [<-|[<-|[<-|[<-|[]]]]].
Qed.

(** The span of a value is a text of the same value. *)
Lemma rawValue_spec d s raw t : rawValue d s = Some (raw, t) ->
  exists v, parseValue d s = Some (v, t) /\ s = raw ++ t /\ raw <> "" /\ parseValue d raw = Some (v, "").
Proof.
  unfold rawValue. intros E. apply bind_Some in E as ([v t0] & E & [= <- <-]). exists v.
  destruct (parseValue_local d _ _ _ E) as (p & Hne & -> & Hp). specialize (Hp "" eq_refl). rewrite str_app_nil in Hp.
  assert (take_str (String.length (p ++ t0) - String.length t0) (p ++ t0) = p) as ->; [|done].
  rewrite str_length_app, Nat.add_sub. apply take_str_app.
Qed.

Lemma rawValue_iff d s : fmap snd (rawValue d s) = fmap snd (parseValue d s).
Proof. unfold rawValue. by destruct (parseValue d s) as [[v t]|]. Qed.

Lemma rawValue_local d : local (rawValue d).
Proof.
  intros s raw t E. destruct (rawValue_spec _ _ _ _ E) as (v & E' & -> & Hne & _). exists raw. split_and!; [done | done|].
  intros t' Ht. destruct (parseValue_local d _ _ _ E') as (p & Hp & Hpe & Hr).
  assert (p = raw) as -> by (apply (f_equal String.length) in Hpe as Hlen; rewrite !str_length_app in Hlen; symmetry in Hpe; apply str_app_inj_len in Hpe as [? _]; [done | lia]).
  unfold rawValue. rewrite Hr by done. cbn [mbind option_bind]. rewrite str_length_app, Nat.add_sub, take_str_app. done.
Qed.

(** *** Two readers over the same text *)

(** The readers stop at the same places, with related values. *)
Definition agree {A B} (R : A -> B -> Prop) (rd : string -> option (A * string)) (rd' : string -> option (B * string)) : Prop :=
  forall s, match rd s, rd' s with
            | Some (v, t), Some (v', t') => R v v' /\ t = t'
            | None, None => True
            | _, _ => False
            end.

Section agreement.
Context {A B : Type} (R : A -> B -> Prop) (rd : string -> option (A * string)) (rd' : string -> option (B * string)).
Context (Hag : agree R rd rd').

Lemma member_agree s :
  match member rd s, member rd' s with
  | Some (k, v, d, t), Some (k', v', d', t') => k = k' /\ R v v' /\ d = d' /\ t = t'
  | None, None => True
  | _, _ => False
  end.
Proof.
  unfold member. destruct (delim s) as [[q r]|]; [|done]. cbn [mbind option_bind]. destruct (negb _); [done|].
  destruct (stringLit r) as [[k r1]|]; [|done]. cbn [mbind option_bind]. destruct (delim r1) as [[cl r2]|]; [|done]. cbn [mbind option_bind].
  destruct (negb _); [done|]. pose proof (Hag (skipSpace r2)) as Hv.
  destruct (rd (skipSpace r2)) as [[v r3]|], (rd' (skipSpace r2)) as [[v' r3']|]; try done. destruct Hv as [Hv <-].
  cbn [mbind option_bind]. by destruct (delim r3) as [[d r4]|].
Qed.

Lemma membersFrom_agree fuel : agree (Forall2 (fun kv kv' => fst kv = fst kv' /\ R (snd kv) (snd kv'))) (membersFrom rd fuel) (membersFrom rd' fuel).
Proof.
  induction fuel as [|fuel IH]; intros s; [done|]. cbn [membersFrom]. pose proof (member_agree s) as Hm.
  destruct (member rd s) as [[[[k v] d] r]|], (member rd' s) as [[[[k' v'] d'] r']|]; try done. destruct Hm as (<- & Hv & <- & <-).
  cbn [mbind option_bind]. destruct (Ascii.eqb d ",").
  - specialize (IH r). destruct (membersFrom rd fuel r) as [[ms t]|], (membersFrom rd' fuel r) as [[ms' t']|]; try done.
    destruct IH as [Hms <-]. cbn. split; [|done]. by constructor.
  - destruct (Ascii.eqb d "}"); [|done]. split; [|done]. by repeat constructor.
Qed.

Lemma itemsFrom_agree fuel : agree (Forall2 R) (itemsFrom rd fuel) (itemsFrom rd' fuel).
Proof.
  induction fuel as [|fuel IH]; intros s; [done|]. cbn [itemsFrom]. pose proof (Hag (skipSpace s)) as Hv.
  destruct (rd (skipSpace s)) as [[v r]|], (rd' (skipSpace s)) as [[v' r']|]; try done. destruct Hv as [Hv <-]. cbn [mbind option_bind].
  destruct (delim r) as [[d r1]|]; [|done]. cbn [mbind option_bind]. destruct (Ascii.eqb d ",").
  - specialize (IH r1). destruct (itemsFrom rd fuel r1) as [[ms t]|], (itemsFrom rd' fuel r1) as [[ms' t']|]; try done.
    destruct IH as [Hms <-]. cbn. split; [|done]. by constructor.
  - destruct (Ascii.eqb d "]"); [|done]. split; [|done]. by repeat constructor.
Qed.

Lemma objectBody_agree : agree (Forall2 (fun kv kv' => fst kv = fst kv' /\ R (snd kv) (snd kv'))) (objectBody rd) (objectBody rd').
Proof.
  intros s. unfold objectBody. destruct (delim s) as [[c r]|]; [|done]. cbn [mbind option_bind].
  destruct (Ascii.eqb c "}"); [by split | apply membersFrom_agree].
Qed.

Lemma arrayBody_agree : agree (Forall2 R) (arrayBody rd) (arrayBody rd').
Proof.
  intros s. unfold arrayBody. destruct (delim s) as [[c r]|]; [|done]. cbn [mbind option_bind].
  destruct (Ascii.eqb c "]"); [by split | apply itemsFrom_agree].
Qed.

End agreement.

(** [raw] is a text of [v]. *)
Definition text_of (raw : string) (v : value) : Prop := document raw = Some v.

Lemma raw_agree d : (d <= maxNestingDepth)%nat -> agree text_of (rawValue d) (parseValue d).
Proof.
  intros Hd s. destruct (rawValue d s) as [[raw t]|] eqn:E.
  - apply rawValue_spec in E as (v & -> & _ & _ & Hv). split; [|done]. unfold text_of, document.
    rewrite (parseValue_tight _ _ _ Hv), (parseValue_deeper _ _ Hd _ _ Hv). done.
  - unfold rawValue in E. by destruct (parseValue d s) as [[v t]|].
Qed.

Lemma document_inv doc v : document doc = Some v ->
  exists t, parseValue maxNestingDepth (skipSpace doc) = Some (v, t) /\ skipSpace t = "".
Proof.
  unfold document. intros E. apply bind_Some in E as ([v' t] & Ep & E). destruct (String.eqb_spec (skipSpace t) ""); [|done].
  injection E as <-. eauto.
Qed.

(** The verbatim members of a document are texts of its members. *)
Lemma rawObject_spec doc :
  match document doc with
  | Some (VObject ms) => exists raws, rawObject doc = Some raws /\
      Forall2 (fun kv kv' => fst kv = fst kv' /\ text_of (snd kv) (snd kv')) raws ms
  | Some VNull => rawObject doc = Some []
  | _ => rawObject doc = None
  end.
Proof.
  unfold rawObject. destruct (document doc) as [v|] eqn:E; [|done]. destruct v as [| | | | | | | | |ms]; try done.
  apply document_inv in E as (t & (r & d & -> & Hd & E)%parseValue_object & _).
  pose proof (objectBody_agree _ _ _ (raw_agree (pred maxNestingDepth) ltac:(lia)) r) as Hag. rewrite Hd in *. cbn [pred] in *. rewrite E in Hag.
  destruct (objectBody (rawValue d) r) as [[raws t']|]; [|done]. destruct Hag as [Hag _]. by exists raws.
Qed.

Lemma rawArray_spec doc :
  match document doc with
  | Some (VArray vs) => exists raws, rawArray doc = Some raws /\ Forall2 text_of raws vs
  | Some VNull => rawArray doc = Some []
  | _ => rawArray doc = None
  end.
Proof.
  unfold rawArray. destruct (document doc) as [v|] eqn:E; [|done]. destruct v as [| | | | | | | |vs|]; try done.
  apply document_inv in E as (t & (r & d & -> & Hd & E)%parseValue_array & _).
  pose proof (arrayBody_agree _ _ _ (raw_agree (pred maxNestingDepth) ltac:(lia)) r) as Hag. rewrite Hd in *. cbn [pred] in *. rewrite E in Hag.
  destruct (arrayBody (rawValue d) r) as [[raws t']|]; [|done]. destruct Hag as [Hag _]. by exists raws.
Qed.

End JSON.
