(* ===== verification/Encode.v ===== *)
(** * Writing JSON

    What the code uses of the encoder of Go's encoding/json: string literals, with or without
    the escapes for HTML, and the text of a decoded tree.  Reading what was written gives the
    tree back ([marshal_read]).

    A Go map is the list of its members in the order of their keys, which is the order the
    encoder writes them in. *)
From stdpp Require Import base tactics list gmap strings sorting.
From Stdlib Require Import ZArith Lia Ascii String.
From S2P Require Import Prelude GoStrings GoPath Truncate Runes Capability JSON.
#[local] Open Scope string_scope.
#[local] Arguments String.append : simpl nomatch.
Import GoPath Truncate Runes Capability JSON.

Module Encode.

Definition hexDigit (n : Z) : ascii := if (n <? 10)%Z then Runes.byte (48 + n) else Runes.byte (87 + n).

Definition escapeByte (c : ascii) : string :=
  let b := byte_val c in
  String backslash ("u00" ++ String (hexDigit (b / 16)) (String (hexDigit (b mod 16)) "")).

Definition isHTML (c : ascii) : bool := existsb (Ascii.eqb c) ["<"; ">"; "&"]%char.

(** U+2028 and U+2029 at the start of the text. *)
Definition lineSeparator (s : string) : option (string * string) :=
  match s with
  | String a (String b (String c r)) =>
      if (byte_val a =? 226)%Z && (byte_val b =? 128)%Z && ((byte_val c =? 168)%Z || (byte_val c =? 169)%Z)
      then Some (String backslash ("u202" ++ String (hexDigit (byte_val c - 160)) ""), r)
      else None
  | _ => None
  end.

(** ** Maps *)

(** The last member of each key. *)
Fixpoint keepLast {A} (ms : list (string * A)) : list (string * A) :=
  match ms with
  | [] => []
  | (k, v) :: ms => if one_of k (map fst ms) then keepLast ms else (k, v) :: keepLast ms
  end.

(** The map a decode builds from the members of an object. *)
Definition mapOf {A} (ms : list (string * A)) : list (string * A) :=
  merge_sort (fun a b => str_le (fst a) (fst b)) (keepLast ms).

Lemma keepLast_elem {A} (ms : list (string * A)) kv : kv ∈ keepLast ms -> kv ∈ ms.
Proof.
  induction ms as [|[k v] ms IH]; cbn [keepLast]; [done|]. destruct (one_of k (map fst ms)).
  - intros Hin. by apply list_elem_of_further, IH.
  - intros [->|Hin]%elem_of_cons; [apply list_elem_of_here | by apply list_elem_of_further, IH].
Qed.

Lemma keepLast_nodup {A} (ms : list (string * A)) : NoDup (map fst (keepLast ms)).
Proof.
  induction ms as [|[k v] ms IH]; cbn [keepLast map]; [constructor|]. destruct (one_of k (map fst ms)) eqn:E; [done|]. cbn [map fst].
  apply NoDup_cons. split; [|done]. intros (kv & -> & Hin%keepLast_elem)%list_elem_of_fmap.
  assert (one_of (fst kv) (map fst ms) = true) as Hone; [|by rewrite Hone in E].
  apply existsb_exists. exists (fst kv). split; [apply in_map; by apply list_elem_of_In | apply String.eqb_refl].
Qed.

Lemma keepLast_all {A} (ms : list (string * A)) : NoDup (map fst ms) -> keepLast ms = ms.
Proof.
  induction ms as [|[k v] ms IH]; cbn [keepLast map fst]; [done|]. intros [Hn Hd]%NoDup_cons.
  destruct (one_of k (map fst ms)) eqn:E; [|by rewrite IH].
  apply existsb_exists in E as (k' & Hin%list_elem_of_In & ->%String.eqb_eq). done.
Qed.

Lemma mapOf_elem {A} (ms : list (string * A)) kv : kv ∈ mapOf ms -> kv ∈ ms.
Proof. unfold mapOf. rewrite merge_sort_Permutation. apply keepLast_elem. Qed.

Lemma mapOf_nodup {A} (ms : list (string * A)) : NoDup (map fst (mapOf ms)).
Proof. unfold mapOf. rewrite merge_sort_Permutation. apply keepLast_nodup. Qed.

Lemma mapOf_all {A} (ms : list (string * A)) kv : NoDup (map fst ms) -> kv ∈ ms -> kv ∈ mapOf ms.
Proof. intros Hn Hin. unfold mapOf. by rewrite merge_sort_Permutation, keepLast_all. Qed.

Section escaping.
Context (escapeHTML : bool).

(** One byte below 128. *)
Definition quoteByte (c : ascii) : string :=
  let b := byte_val c in
  if Ascii.eqb c dquote || Ascii.eqb c backslash then String backslash (String c "")
  else if (b =? 8)%Z then String backslash "b"
  else if (b =? 12)%Z then String backslash "f"
  else if (b =? 10)%Z then String backslash "n"
  else if (b =? 13)%Z then String backslash "r"
  else if (b =? 9)%Z then String backslash "t"
  else if (b <? 32)%Z || escapeHTML && isHTML c then escapeByte c
  else String c "".

Fixpoint quoteFrom (fuel : nat) (s : string) : string :=
  match fuel, s with
  | S fuel, String c r =>
      if (byte_val c <? 128)%Z then quoteByte c ++ quoteFrom fuel r
      else
        match lineSeparator s with
        | Some (esc, r) => esc ++ quoteFrom fuel r
        | None =>
            let '(rr, size) := DecodeRuneInString s in
            (if (rr =? RuneError)%Z && (size =? 1)%nat then String backslash "ufffd" else take_str size s)
            ++ quoteFrom fuel (drop_str size s)
        end
  | _, _ => ""
  end.

(** The text of a string. *)
Definition quote (s : string) : string := String dquote (quoteFrom (String.length s) s ++ String dquote "").

Definition isNumber (n : string) : bool := bool_decide (numberSpan n = Some (n, "")).

(** The text of a tree that a decode with [UseNumber] can give; [None] is an error. *)
Fixpoint marshal (v : value) : option string :=
  match v with
  | VNull => Some "null"
  | VBool b => Some (if b then "true" else "false")
  | VNumber n => if isNumber n then Some n else None
  | VString s => Some (quote s)
  | VArray l =>
      ts ← (fix each (l : list value) : option (list string) :=
        match l with [] => Some [] | v :: l => t ← marshal v; ts ← each l; Some (t :: ts) end) l;
      Some ("[" ++ String.concat "," ts ++ "]")
  | VObject ms =>
      ts ← (fix each (l : list (string * value)) : option (list string) :=
        match l with [] => Some [] | (k, v) :: l => t ← marshal v; ts ← each l; Some ((quote k ++ ":" ++ t) :: ts) end) ms;
      Some ("{" ++ String.concat "," ts ++ "}")
  | _ => None
  end.

End escaping.

Example marshal_writes :
  marshal false (VObject [("a", VArray [VNumber "1e3"; VBool true]); ("b<", VString ("x" ++ String dquote (bytes [226; 128; 168])))]) =
  Some (text "{'a':[1e3,true],'b<':'x\" ++ text "'\u2028'}").
Proof. vm_compute. reflexivity. Qed.

#[local] Arguments byte_val : simpl never.

(** ** A literal reads back *)

Lemma getu4_shrinks s r t : getu4 s = Some (r, t) -> (String.length t + 6 = String.length s)%nat.
Proof.
  unfold getu4. destruct s as [|c [|u [|h1 [|h2 [|h3 [|h4 s]]]]]]; try done. destruct (_ && _); [|done]. intros [= _ <-]. cbn. lia.
Qed.

(** One step of [unquoteFrom], whatever it does with the rest. *)
Lemma unquoteFrom_fuel f : forall f' s, (String.length s <= f)%nat -> (String.length s <= f')%nat -> unquoteFrom f s = unquoteFrom f' s.
Proof.
  induction f as [|f IH]; intros f' s Hf Hf'.
  { destruct s; [by destruct f' | cbn in Hf; lia]. }
  destruct f' as [|f']; [destruct s; [done | cbn in Hf'; lia]|]. destruct s as [|c r]; [done|]. cbn [unquoteFrom].
  cbn [String.length] in Hf, Hf'. destruct (Ascii.eqb c backslash).
  - destruct r as [|e r1]; [done|]. cbn [String.length] in Hf, Hf'. destruct (Ascii.eqb e "u"); [|f_equal; apply IH; lia].
    destruct (getu4 (String c (String e r1))) as [[rr r2]|] eqn:E; [|done]. apply getu4_shrinks in E. cbn in E.
    destruct (in_range 55296 57343 rr); [|f_equal; apply IH; lia].
    destruct (getu4 r2) as [[rr1 r3]|] eqn:E2; [|f_equal; apply IH; lia]. apply getu4_shrinks in E2.
    destruct (_ =? _)%Z; f_equal; apply IH; lia.
  - destruct (byte_val c <? 128)%Z; [f_equal; apply IH; lia|]. pose proof (decode_positive c r) as Hp.
    destruct (DecodeRuneInString (String c r)) as [rr size]. cbn [snd] in Hp.
    assert (String.length (drop_str size (String c r)) <= String.length r)%nat as Hd.
    { destruct size; [lia|]. cbn [drop_str]. clear. revert r. induction size as [|n IH]; intros [|c r]; cbn; try lia. specialize (IH r). lia. }
    f_equal. apply IH; lia.
Qed.

Lemma unquote_from f s : (String.length s <= f)%nat -> unquoteFrom f s = unquote s.
Proof. intros Hf. unfold unquote. apply unquoteFrom_fuel; lia. Qed.

(** One step of the reader on a text that is not empty. *)
Ltac unquote_step f Hf :=
  unfold unquote at 1; match goal with |- unquoteFrom ?n (String ?c ?s) = _ =>
    remember (String.length s) as f eqn:Hf; change n with (S (String.length s)); rewrite <- Hf; apply eq_sym, Nat.eq_le_incl in Hf; cbn [unquoteFrom] end.

(** The reader, one step at a time. *)
Lemma unquote_escape e r : Ascii.eqb e "u" = false -> unquote (String backslash (String e r)) = String (escapeRune e) (unquote r).
Proof.
  intros E. unquote_step f Hf. rewrite Ascii.eqb_refl, E. f_equal. apply unquote_from. cbn in Hf. lia.
Qed.

Lemma unquote_u4 s rr r : getu4 s = Some (rr, r) -> in_range 55296 57343 rr = false -> unquote s = EncodeRune rr ++ unquote r.
Proof.
  intros E Hs. pose proof (getu4_shrinks _ _ _ E) as Hl. destruct s as [|c [|e s]]; [done..|]. unquote_step f Hf.
  assert (c = backslash /\ e = "u"%char) as [-> ->].
  { cbn in E. destruct s as [|h1 [|h2 [|h3 [|h4 s]]]]; try done. destruct (Ascii.eqb_spec c backslash); [|done].
    destruct (Ascii.eqb_spec e "u"); done. }
  rewrite !Ascii.eqb_refl, E, Hs. f_equal. apply unquote_from. cbn in Hl, Hf. lia.
Qed.

Lemma unquote_ascii c r : Ascii.eqb c backslash = false -> (byte_val c < 128)%Z -> unquote (String c r) = String c (unquote r).
Proof.
  intros E Hc. unquote_step f Hf. rewrite E, (proj2 (Z.ltb_lt _ _) Hc). f_equal. apply unquote_from. lia.
Qed.

Lemma rune_high c r : rune_bytes c r -> (byte_val c <? 128)%Z = false -> (forall t, DecodeRuneInString (String c (r ++ t)) =
    (fst (DecodeRuneInString (String c r)), S (String.length r))) /\ EncodeRune (fst (DecodeRuneInString (String c r))) = String c r.
Proof.
  intros Hb Hc. pose proof (encode_decode c r Hb) as [Hv He]. cbv zeta in *. split; [|done]. intros t.
  set (x := fst _) in *. change (String c (r ++ t)) with (String c r ++ t). rewrite <- He, decode_encode by done. by rewrite He.
Qed.

Lemma unquote_rune c r t : rune_bytes c r -> (byte_val c <? 128)%Z = false -> unquote (String c (r ++ t)) = String c r ++ unquote t.
Proof.
  intros Hb Hc. destruct (rune_high c r Hb Hc) as [Hd He]. unquote_step f Hf.
  assert (Ascii.eqb c backslash = false) as ->.
  { apply Ascii.eqb_neq. intros ->. vm_compute in Hc. done. }
  rewrite Hc, Hd, He. f_equal. cbn [drop_str]. rewrite drop_str_app. apply unquote_from. rewrite str_length_app in Hf. lia.
Qed.

(** One step of the reader takes [q] for [x]. *)
Definition chunk (q x : string) : Prop :=
  (forall t, stringBody (q ++ t) = '(b, r) ← stringBody t; Some (q ++ b, r)) /\
  (forall t, unquote (q ++ t) = x ++ unquote t).

Lemma chunk_nil : chunk "" "".
Proof. split; intros t; [|done]. cbn [String.append]. by destruct (stringBody t) as [[b r]|]. Qed.

Lemma chunk_app q x q' x' : chunk q x -> chunk q' x' -> chunk (q ++ q') (x ++ x').
Proof.
  intros [B V] [B' V']. split; intros t; rewrite !str_app_assoc.
  - rewrite B, B'. destruct (stringBody t) as [[b r]|]; [|done]. cbn [mbind option_bind]. by rewrite str_app_assoc.
  - by rewrite V, V'.
Qed.

Lemma chunk_plain c : Ascii.eqb c dquote = false -> Ascii.eqb c backslash = false -> (32 <= byte_val c < 128)%Z ->
  chunk (String c "") (String c "").
Proof.
  intros Hq Hb Hc. split; intros t; cbn [String.append stringBody].
  - rewrite Hq, Hb, (proj2 (Z.ltb_ge _ _)) by lia. by destruct (stringBody t) as [[b r]|].
  - apply unquote_ascii; [done | lia].
Qed.

Lemma chunk_escape e : plainEscape e = true -> chunk (String backslash (String e "")) (String (escapeRune e) "").
Proof.
  intros He. split; intros t; cbn [String.append stringBody].
  - change (Ascii.eqb backslash dquote) with false. rewrite Ascii.eqb_refl, He. done.
  - apply unquote_escape. destruct (Ascii.eqb_spec e "u") as [->|]; [done | done].
Qed.

Lemma chunk_u4 h1 h2 h3 h4 : isHexDigit h1 && isHexDigit h2 && isHexDigit h3 && isHexDigit h4 = true ->
  let rr := (((hexVal h1 * 16 + hexVal h2) * 16 + hexVal h3) * 16 + hexVal h4)%Z in
  in_range 55296 57343 rr = false ->
  chunk (String backslash (String "u" (String h1 (String h2 (String h3 (String h4 "")))))) (EncodeRune rr).
Proof.
  intros Hh rr Hr. split; intros t; cbn [String.append].
  - cbn [stringBody]. change (Ascii.eqb backslash dquote) with false. change (plainEscape "u") with false.
    by rewrite !Ascii.eqb_refl, Hh.
  - apply unquote_u4; [|done]. unfold getu4. rewrite !Ascii.eqb_refl. cbn [andb]. rewrite <- !andb_assoc in Hh |- *. by rewrite Hh.
Qed.

Lemma high_bytes r : continues r -> str_forall (fun c => (128 <=? byte_val c)%Z) r = true.
Proof.
  induction r as [|c r IH]; [done|]. intros Hc. cbn [str_forall]. rewrite IH by (intros i d; apply (Hc (S i) d)).
  specialize (Hc 0%nat c eq_refl). unfold RuneStart in Hc. apply negb_false_iff, in_range_true in Hc. rewrite (proj2 (Z.leb_le _ _)) by lia. done.
Qed.

Lemma high_body r : str_forall (fun c => (128 <=? byte_val c)%Z) r = true ->
  forall t, stringBody (r ++ t) = '(b, x) ← stringBody t; Some (r ++ b, x).
Proof.
  induction r as [|c r IH]; intros Hr t; [cbn [String.append]; by destruct (stringBody t) as [[b x]|]|].
  cbn [str_forall] in Hr. apply andb_true_iff in Hr as [Hc%Z.leb_le Hr]. cbn [String.append stringBody].
  assert (Ascii.eqb c dquote = false) as -> by (apply Ascii.eqb_neq; intros ->; vm_compute in Hc; by apply Hc).
  assert (Ascii.eqb c backslash = false) as -> by (apply Ascii.eqb_neq; intros ->; vm_compute in Hc; by apply Hc).
  rewrite (proj2 (Z.ltb_ge _ _)) by lia. rewrite IH by done. by destruct (stringBody t) as [[b x]|].
Qed.

Lemma chunk_rune c r : rune_bytes c r -> (byte_val c <? 128)%Z = false -> chunk (String c r) (String c r).
Proof.
  intros Hb Hc. split; intros t.
  - apply high_body. cbn [str_forall]. destruct Hb as (_ & Hr & _). rewrite (high_bytes _ Hr). apply Z.ltb_ge in Hc.
    by rewrite (proj2 (Z.leb_le _ _)).
  - by apply unquote_rune.
Qed.

Lemma hex_digit n : (0 <= n < 16)%Z -> isHexDigit (hexDigit n) = true /\ hexVal (hexDigit n) = n.
Proof.
  intros Hn. assert (forallb (fun n => isHexDigit (hexDigit n) && (hexVal (hexDigit n) =? n)%Z) (map Z.of_nat (seq 0 16)) = true) as Hall
    by (vm_compute; reflexivity).
  rewrite forallb_forall in Hall. specialize (Hall n). rewrite andb_true_iff, Z.eqb_eq in Hall. apply Hall.
  apply in_map_iff. exists (Z.to_nat n). split; [lia|]. apply in_seq. lia.
Qed.

Lemma chunk_byte html c : (byte_val c < 128)%Z -> chunk (quoteByte html c) (String c "").
Proof.
  intros Hc. pose proof (byte_val_range c) as Hr. unfold quoteByte.
  assert (forall z, (byte_val c =? z)%Z = true -> c = Runes.byte z) as Hz.
  { intros z E%Z.eqb_eq. by rewrite <- E, byte_byte_val. }
  destruct (Ascii.eqb_spec c dquote) as [->|Hq]; [by apply (chunk_escape dquote)|].
  destruct (Ascii.eqb_spec c backslash) as [->|Hb]; [by apply (chunk_escape backslash)|]. cbn [orb].
  do 5 match goal with |- context [(byte_val c =? ?z)%Z] =>
    destruct (byte_val c =? z)%Z eqn:E; [apply Hz in E as ->; by apply chunk_escape | clear E] end.
  destruct (_ || _) eqn:E.
  - unfold escapeByte. destruct (hex_digit (byte_val c / 16)) as [H1 V1]; [split; [apply Z.div_pos; lia | apply Z.div_lt_upper_bound; lia]|].
    destruct (hex_digit (byte_val c mod 16)) as [H2 V2]; [apply Z.mod_pos_bound; lia|].
    pose proof (chunk_u4 "0" "0" (hexDigit (byte_val c / 16)) (hexDigit (byte_val c mod 16))) as Hu. cbv zeta in Hu. rewrite H1, H2, V1, V2 in Hu.
    change (hexVal "0") with 0%Z in Hu. replace (((0 * 16 + 0) * 16 + byte_val c / 16) * 16 + byte_val c mod 16)%Z with (byte_val c) in Hu
      by (pose proof (Z.div_mod (byte_val c) 16); lia).
    assert (EncodeRune (byte_val c) = String c "") as He.
    { unfold EncodeRune. rewrite (proj2 (valid_rune_true _)) by lia. cbn [negb]. rewrite (proj2 (Z.ltb_lt _ _) Hc). by rewrite byte_byte_val. }
    rewrite He in Hu. apply Hu; [done|]. apply in_range_false. lia.
  - apply orb_false_iff in E as [E%Z.ltb_ge _]. apply chunk_plain; [by apply Ascii.eqb_neq | by apply Ascii.eqb_neq | lia].
Qed.

Lemma lineSeparator_spec c r t esc t' : rune_bytes c r -> lineSeparator (String c (r ++ t)) = Some (esc, t') -> t' = t /\ chunk esc (String c r).
Proof.
  intros (_ & _ & Hw) E. specialize (Hw ""). rewrite str_app_nil, rune_width_eq in Hw. unfold lineSeparator in E.
  destruct (r ++ t) as [|d [|e u]] eqn:Er; try done.
  destruct (Z.eqb_spec (byte_val c) 226) as [Hc|]; [|done]. destruct (Z.eqb_spec (byte_val d) 128) as [Hd|]; [|done]. cbn [andb] in E.
  destruct (_ || _) eqn:He; [|done]. injection E as <- <-. rewrite Hc in Hw.
  change (226 <? 128)%Z with false in Hw. change (Truncate.lead 226) with (Some (2%nat, 128, 191)%Z) in Hw. cbn iota in Hw.
  assert (String.length r = 2%nat) as Hl by (destruct (conts 2 128 191 r); [congruence | done]).
  destruct r as [|r1 [|r2 [|]]]; try done. injection Er as -> -> ->. split; [done|].
  symmetry in Hc, Hd. apply byte_eq in Hc as <-, Hd as <-.
  apply orb_true_iff in He as [He%Z.eqb_eq|He%Z.eqb_eq]; symmetry in He; apply byte_eq in He as <-;
    by apply (chunk_u4 "2" "0" "2").
Qed.

Lemma chunk_quote html s : Valid s -> forall fuel, (String.length s <= fuel)%nat -> chunk (quoteFrom html fuel s) s.
Proof.
  revert s. apply (Valid_runes (fun s => forall fuel, (String.length s <= fuel)%nat -> chunk (quoteFrom html fuel s) s)).
  { intros [|fuel] _; apply chunk_nil. }
  intros c r t Hb Hv IH [|fuel] Hf; [cbn in Hf; lia|]. cbn [quoteFrom]. cbn [String.length] in Hf. rewrite str_length_app in Hf.
  destruct (byte_val c <? 128)%Z eqn:Hc.
  - assert (r = "") as ->.
    { destruct Hb as (_ & _ & Hw). specialize (Hw ""). rewrite rune_width_eq, Hc in Hw. injection Hw as Hw. by destruct r. }
    apply (chunk_app _ (String c "")); [apply chunk_byte; by apply Z.ltb_lt | apply IH; cbn in Hf; lia].
  - destruct (lineSeparator (String c (r ++ t))) as [[esc t']|] eqn:El.
    + destruct (lineSeparator_spec _ _ _ _ _ Hb El) as [-> He]. change (String c (r ++ t)) with (String c r ++ t).
      apply chunk_app; [done | apply IH; lia].
    + destruct (rune_high c r Hb Hc) as [Hd _]. rewrite Hd. cbn [take_str drop_str]. rewrite take_str_app, drop_str_app.
      rewrite andb_comm. destruct (Nat.eqb_spec (S (String.length r)) 1) as [Hl|_].
      { exfalso. destruct r; [|done]. destruct Hb as (_ & _ & Hw). specialize (Hw ""). rewrite rune_width_eq, Hc in Hw.
        destruct (Truncate.lead (byte_val c)) as [[[n lo] hi]|] eqn:El'; [|done].
        assert (n <> 0%nat) as Hn by (unfold Truncate.lead in El'; repeat case_match; simplify_eq; lia). by destruct n. }
      cbn [andb]. change (String c (r ++ t)) with (String c r ++ t). apply chunk_app; [by apply chunk_rune | apply IH; lia].
Qed.

Lemma quote_read html s t : Valid s -> stringLit (quoteFrom html (String.length s) s ++ String dquote t) = Some (s, t).
Proof.
  intros Hs. destruct (chunk_quote html s Hs (String.length s) (le_n _)) as [B V]. unfold stringLit. rewrite B.
  cbn [stringBody]. rewrite Ascii.eqb_refl. cbn [mbind option_bind]. rewrite V. change (unquote "") with "". by rewrite str_app_nil.
Qed.

(** ** A tree reads back *)

(** The trees a decode with [UseNumber] gives. *)
Fixpoint decoded (v : value) : Prop :=
  match v with
  | VNull | VBool _ => True
  | VNumber n => numberSpan n = Some (n, "")
  | VString s => Valid s
  | VArray l => (fix each (l : list value) := match l with [] => True | v :: l => decoded v /\ each l end) l
  | VObject ms =>
      (fix each (l : list (string * value)) := match l with [] => True | (k, v) :: l => (Valid k /\ decoded v) /\ each l end) ms
  | _ => False
  end.

Lemma decoded_array l : decoded (VArray l) <-> Forall decoded l.
Proof. cbn [decoded]. induction l as [|v l IH]; [by split|]. by rewrite Forall_cons, IH. Qed.

Lemma decoded_object ms : decoded (VObject ms) <-> Forall (fun kv => Valid (fst kv) /\ decoded (snd kv)) ms.
Proof. cbn [decoded]. induction ms as [|[k v] ms IH]; [by split|]. by rewrite Forall_cons, IH. Qed.

(** The containers open at once. *)
Fixpoint height (v : value) : nat :=
  match v with
  | VArray l => S (fold_right (fun v n => Nat.max (height v) n) 0%nat l)
  | VObject ms => S (fold_right (fun kv n => Nat.max (height (snd kv)) n) 0%nat ms)
  | _ => 0%nat
  end.

Lemma height_array l d : (height (VArray l) <= S d <-> Forall (fun v => height v <= d) l)%nat.
Proof.
  cbn [height]. induction l as [|v l IH]; cbn [fold_right]; [split; [done | lia]|]. rewrite Forall_cons, <- IH. lia.
Qed.

Lemma height_object ms d : (height (VObject ms) <= S d <-> Forall (fun kv => height (snd kv) <= d) ms)%nat.
Proof.
  cbn [height]. induction ms as [|v l IH]; cbn [fold_right]; [split; [done | lia]|]. rewrite Forall_cons, <- IH. lia.
Qed.

Section reading.
Context (html : bool).

(** [s] is read as [v] wherever it stands. *)
Definition readable (d : nat) (s : string) (v : value) : Prop := forall t, ends t = true -> parseValue d (s ++ t) = Some (v, t).

Lemma readable_tight d s v t : readable d s v -> ends t = true -> skipSpace (s ++ t) = s ++ t.
Proof. intros Hr Ht. exact (parseValue_tight _ _ _ (Hr t Ht)). Qed.

Lemma skip_mark c t : isSpace c = false -> skipSpace (String c t) = String c t.
Proof. intros E. cbn [skipSpace]. by rewrite E. Qed.

Lemma items_read d ts : forall vs t fuel, Forall2 (readable d) ts vs -> ts <> [] ->
  (String.length (String.concat "," ts ++ String "]" t) < fuel)%nat ->
  itemsFrom (parseValue d) fuel (String.concat "," ts ++ String "]" t) = Some (vs, t).
Proof.
  induction ts as [|s ts IH]; [done|]. intros vs t fuel Hf _ Hl. inversion Hf as [|? v ? vs' Hv Hvs]; subst.
  destruct fuel as [|fuel]; [lia|]. cbn [itemsFrom]. destruct ts as [|s' ts].
  - inversion Hvs; subst. cbn [String.concat]. rewrite (readable_tight d s v) by done. rewrite Hv by done. cbn [mbind option_bind].
    rewrite delim_spec. done.
  - change (String.concat "," (s :: s' :: ts)) with (s ++ "," ++ String.concat "," (s' :: ts)) in *. rewrite !str_app_assoc in *.
    rewrite (readable_tight d s v) by done. rewrite Hv by done. cbn [mbind option_bind]. rewrite delim_spec.
    cbn [String.append] in *. rewrite skip_mark by done. cbn [mbind option_bind]. rewrite Ascii.eqb_refl.
    rewrite (IH vs' t fuel); [done | done | done|]. rewrite str_length_app in Hl. cbn [String.length] in Hl. lia.
Qed.

Lemma array_read d ts vs : Forall2 (readable d) ts vs -> readable (S d) ("[" ++ String.concat "," ts ++ "]") (VArray vs).
Proof.
  intros Hf t Ht. cbn [String.append]. rewrite str_app_assoc. cbn [String.append]. rewrite parseValue_cons.
  change (Ascii.eqb "[" dquote) with false. change (Ascii.eqb "[" "{") with false. cbn [orb]. rewrite Ascii.eqb_refl.
  unfold arrayBody. destruct ts as [|s ts].
  { inversion Hf; subst. cbn [String.concat String.append]. rewrite delim_spec. done. }
  assert (exists c r, skipSpace (String.concat "," (s :: ts) ++ String "]" t) = String c r /\ Ascii.eqb c "]" = false) as (c & r & Hs & Hc).
  { inversion Hf as [|? v ? vs' Hv _]; subst.
    assert (exists x, String.concat "," (s :: ts) ++ String "]" t = s ++ x /\ ends x = true) as (x & -> & Hx).
    { destruct ts as [|s' ts]; [by exists (String "]" t)|]. eexists ("," ++ _). split; [cbn [String.concat]; by rewrite !str_app_assoc | done]. }
    rewrite (readable_tight d s v) by done. specialize (Hv x Hx). destruct (s ++ x) as [|c r]; [by destruct d|]. exists c, r. split; [done|].
    destruct (Ascii.eqb_spec c "]") as [->|]; [by destruct d | done]. }
  rewrite delim_spec, Hs. cbn [mbind option_bind]. rewrite Hc. by rewrite (items_read d (s :: ts) vs t) by (done || lia).
Qed.

Definition member_text (kt : string * string) : string := quote html (fst kt) ++ ":" ++ snd kt.

Lemma member_read d k s v c t : Valid k -> readable d s v -> closes c ->
  member (parseValue d) (member_text (k, s) ++ String c t) = Some (k, v, c, t).
Proof.
  intros Hk Hs Hc. unfold member_text, quote. cbn [fst snd String.append]. rewrite !str_app_assoc. cbn [String.append].
  apply (member_intro (parseValue d) _ k v c t (quoteFrom html (String.length k) k ++ String dquote (String ":" (s ++ String c t)))
    (String ":" (s ++ String c t)) (s ++ String c t) (String c t)).
  - rewrite delim_spec. by rewrite skip_mark.
  - by apply quote_read.
  - rewrite delim_spec. by rewrite skip_mark.
  - assert (ends (String c t) = true) as He by (apply (closes_ends "" c t); done).
    rewrite (readable_tight d s v) by done. by apply Hs.
  - rewrite delim_spec. destruct Hc as [->|[->| ->]]; by rewrite skip_mark.
Qed.

Lemma members_read d kts : forall ms t fuel,
  Forall2 (fun kt kv => fst kt = fst kv /\ Valid (fst kv) /\ readable d (snd kt) (snd kv)) kts ms -> kts <> [] ->
  (String.length (String.concat "," (map member_text kts) ++ String "}" t) < fuel)%nat ->
  membersFrom (parseValue d) fuel (String.concat "," (map member_text kts) ++ String "}" t) = Some (ms, t).
Proof.
  induction kts as [|[k s] kts IH]; [done|]. intros ms t fuel Hf _ Hl. inversion Hf as [|? [k' v] ? ms' [Hk [Hvk Hv]] Hvs]; subst.
  cbn [fst snd] in *. subst k'. destruct fuel as [|fuel]; [lia|]. cbn [membersFrom map]. destruct kts as [|kt kts].
  - inversion Hvs; subst. cbn [String.concat map]. rewrite (member_read d k s v) by (done || by right; left). done.
  - change (String.concat "," (map member_text ((k, s) :: kt :: kts))) with
      (member_text (k, s) ++ "," ++ String.concat "," (map member_text (kt :: kts))) in *.
    change (String.concat "," (member_text (k, s) :: map member_text (kt :: kts))) with
      (member_text (k, s) ++ "," ++ String.concat "," (map member_text (kt :: kts))).
    rewrite !str_app_assoc in *. cbn [String.append] in *. rewrite (member_read d k s v) by (done || by left). cbn [mbind option_bind].
    rewrite Ascii.eqb_refl. rewrite (IH ms' t fuel); [done | done | done|].
    rewrite str_length_app in Hl. cbn [String.length] in Hl. lia.
Qed.

Lemma object_read d kts ms : Forall2 (fun kt kv => fst kt = fst kv /\ Valid (fst kv) /\ readable d (snd kt) (snd kv)) kts ms ->
  readable (S d) ("{" ++ String.concat "," (map member_text kts) ++ "}") (VObject ms).
Proof.
  intros Hf t Ht. cbn [String.append]. rewrite str_app_assoc. cbn [String.append]. rewrite parseValue_cons.
  change (Ascii.eqb "{" dquote) with false. rewrite Ascii.eqb_refl. cbn [orb]. unfold objectBody. destruct kts as [|[k s] kts].
  { inversion Hf; subst. cbn [String.concat String.append map]. rewrite delim_spec. done. }
  assert (exists r, String.concat "," (map member_text ((k, s) :: kts)) ++ String "}" t = String dquote r) as [r Hr].
  { destruct kts as [|kt kts]; cbn [map String.concat]; unfold member_text at 1, quote; cbn [String.append]; by eexists. }
  rewrite delim_spec, Hr. cbn [skipSpace]. change (isSpace dquote) with false. cbn [mbind option_bind].
  change (Ascii.eqb dquote "}") with false. cbn iota. rewrite <- Hr.
  by rewrite (members_read d ((k, s) :: kts) ms t) by (done || lia).
Qed.

Lemma marshal_texts d l : Forall (fun v => decoded v -> (height v <= d)%nat -> exists s, marshal html v = Some s /\ readable d s v) l ->
  Forall decoded l -> Forall (fun v => (height v <= d)%nat) l ->
  exists ts, (fix each (l : list value) : option (list string) :=
    match l with [] => Some [] | v :: l => t ← marshal html v; ts ← each l; Some (t :: ts) end) l = Some ts /\ Forall2 (readable d) ts l.
Proof.
  induction 1 as [|v l Hv _ IH]; intros Hd Hh; [by exists []|]. apply Forall_cons in Hd as [Hdv Hd], Hh as [Hhv Hh].
  destruct (Hv Hdv Hhv) as (s & -> & Hs), (IH Hd Hh) as (ts & -> & Hts). exists (s :: ts). split; [done | by constructor].
Qed.

Lemma marshal_members d ms :
  Forall (fun kv => decoded (snd kv) -> (height (snd kv) <= d)%nat -> exists s, marshal html (snd kv) = Some s /\ readable d s (snd kv)) ms ->
  Forall (fun kv => Valid (fst kv) /\ decoded (snd kv)) ms -> Forall (fun kv => (height (snd kv) <= d)%nat) ms ->
  exists kts, (fix each (l : list (string * value)) : option (list string) :=
    match l with [] => Some [] | (k, v) :: l => t ← marshal html v; ts ← each l; Some ((quote html k ++ ":" ++ t) :: ts) end) ms
      = Some (map member_text kts) /\
    Forall2 (fun kt kv => fst kt = fst kv /\ Valid (fst kv) /\ readable d (snd kt) (snd kv)) kts ms.
Proof.
  induction 1 as [|[k v] l Hv _ IH]; intros Hd Hh; [by exists []|]. apply Forall_cons in Hd as [[Hk Hdv] Hd], Hh as [Hhv Hh]. cbn [fst snd] in *.
  destruct (Hv Hdv Hhv) as (s & -> & Hs), (IH Hd Hh) as (ts & -> & Hts). exists ((k, s) :: ts). split; [done | by constructor].
Qed.

(** What the encoder writes, the decoder reads. *)
Lemma marshal_readable v : decoded v -> forall d, (height v <= d)%nat -> exists s, marshal html v = Some s /\ readable d s v.
Proof.
  induction v as [|b|n| | |s| | |l IH|ms IH] using value_tree_ind; intros Hd d Hh; try done.
  - exists "null". split; [done|]. intros t _. by (destruct t; cbn [String.append]; rewrite parseValue_cons).
  - exists (if b then "true" else "false"). split; [done|]. intros t _. by (destruct b, t; cbn [String.append]; rewrite parseValue_cons).
  - exists n. cbn [decoded] in Hd. split; [cbn [marshal]; unfold isNumber; by rewrite bool_decide_true|]. intros t Ht.
    apply numberSpan_local in Hd as (Hne & _ & Hn). specialize (Hn t Ht).
    assert (exists c r, n ++ t = String c r /\ (isDigit c || Ascii.eqb c "-") = true) as (c & r & Er & Hc).
    { destruct n as [|c n]; [done|]. exists c, (n ++ t). split; [done|]. cbn [String.append] in Hn. unfold numberSpan in Hn.
      destruct (Ascii.eqb_spec c "-"); [by rewrite orb_true_r|]. rewrite orb_false_r. unfold intSpan in Hn.
      destruct (Ascii.eqb_spec c "0") as [->|]; [done|]. unfold digits1 in Hn. cbn [digitsSpan] in Hn. by destruct (isDigit c). }
    assert (scalar (n ++ t) = Some (VNumber n, t)) as Hs.
    { unfold scalar. by rewrite !numberSpan_word, Hn by eauto. }
    rewrite Er in *. rewrite parseValue_cons.
    destruct (Ascii.eqb_spec c dquote) as [->|]; [done|]. destruct (Ascii.eqb_spec c "{") as [->|]; [done|].
    destruct (Ascii.eqb_spec c "[") as [->|]; [done|]. exact Hs.
  - exists (quote html s). split; [done|]. intros t _. unfold quote. cbn [String.append]. rewrite str_app_assoc, parseValue_cons.
    rewrite Ascii.eqb_refl. cbn [String.append]. by rewrite quote_read.
  - destruct d as [|d]; [cbn in Hh; lia|]. apply decoded_array in Hd. apply height_array in Hh.
    destruct (marshal_texts d l) as (ts & Hts & Hr); [eapply Forall_impl; [exact IH|]; cbn; intros v Hv Hdv Hhv; by apply Hv | done | done|].
    eexists. cbn [marshal]. rewrite Hts. split; [done|]. by apply array_read.
  - destruct d as [|d]; [cbn in Hh; lia|]. apply decoded_object in Hd. apply height_object in Hh.
    destruct (marshal_members d ms) as (kts & Hts & Hr); [eapply Forall_impl; [exact IH|]; cbn; intros v Hv Hdv Hhv; by apply Hv | done | done|].
    eexists. cbn [marshal]. rewrite Hts. split; [done|]. by apply object_read.
Qed.

End reading.

(** ** What is read can be written *)

Definition closed (b : string) : Prop := stringBody (b ++ String dquote "") = Some (b, "").

Lemma plain_escape_low e : plainEscape e = true -> (byte_val (escapeRune e) < 128)%Z.
Proof.
  unfold plainEscape. intros (c & Hc & ->%Ascii.eqb_eq)%existsb_exists. repeat (destruct Hc as [<-|Hc]; [by vm_compute|]). done.
Qed.

Lemma closed_escape e r : closed (String backslash (String e r)) -> Ascii.eqb e "u" = false -> plainEscape e = true /\ closed r.
Proof.
  unfold closed. cbn [String.append stringBody]. change (Ascii.eqb backslash dquote) with false. rewrite Ascii.eqb_refl. intros E Hu.
  destruct (plainEscape e); [|by rewrite Hu in E]. split; [done|]. apply bind_Some in E as ([b t] & -> & [= -> ->]). done.
Qed.

Lemma closed_plain c r : closed (String c r) -> Ascii.eqb c backslash = false -> closed r.
Proof.
  unfold closed. cbn [String.append stringBody]. destruct (Ascii.eqb c dquote); [done|]. intros E Hb. rewrite Hb in E.
  destruct (_ <? _)%Z; [done|]. apply bind_Some in E as ([b t] & -> & [= -> ->]). done.
Qed.

Lemma closed_u4 s rr r : closed s -> getu4 s = Some (rr, r) -> closed r.
Proof.
  unfold closed, getu4. destruct s as [|c [|u [|h1 [|h2 [|h3 [|h4 s]]]]]]; try done.
  destruct (Ascii.eqb_spec c backslash) as [->|]; [|done]. destruct (Ascii.eqb_spec u "u") as [->|]; [|done]. cbn [andb].
  destruct (isHexDigit h1 && isHexDigit h2 && isHexDigit h3 && isHexDigit h4) eqn:Eh; [|done]. intros E [= _ <-].
  cbn [String.append stringBody] in E. change (Ascii.eqb backslash dquote) with false in E. change (plainEscape "u") with false in E.
  rewrite !Ascii.eqb_refl, Eh in E. apply bind_Some in E as ([b t] & -> & [= -> ->]). done.
Qed.

Lemma closed_drop r t : str_forall (fun c => (128 <=? byte_val c)%Z) r = true -> closed (r ++ t) -> closed t.
Proof.
  induction r as [|c r IH]; [done|]. cbn [str_forall String.append]. intros [Hc%Z.leb_le Hr]%andb_true_iff Hcl. apply IH; [done|].
  apply (closed_plain c); [done|]. apply Ascii.eqb_neq. intros ->. by apply Hc.
Qed.

Lemma closed_rune c r : (byte_val c <? 128)%Z = false -> closed (String c r) -> closed (drop_str (snd (DecodeRuneInString (String c r))) (String c r)).
Proof.
  intros Hc Hcl. destruct (rune_width (String c r)) as [w|] eqn:Ew.
  - assert (snd (DecodeRuneInString (String c r)) = w) as ->.
    { unfold rune_width in Ew. destruct (bad_start (String c r)); [done|]. by injection Ew. }
    apply rune_split in Ew as (c' & x & t & [= -> ->] & -> & (_ & Hx & _)). cbn [drop_str]. rewrite drop_str_app.
    apply (closed_drop (String c' x)); [|done]. cbn [str_forall]. rewrite (high_bytes _ Hx). apply Z.ltb_ge in Hc. by rewrite (proj2 (Z.leb_le _ _)).
  - unfold rune_width, bad_start in Ew. destruct (DecodeRuneInString (String c r)) as [rr w]. cbn [snd].
    destruct (128 <=? byte_val c)%Z; [|done]. destruct (Nat.eqb_spec w 1) as [Hw|]; [|done]; rewrite Hw. cbn [drop_str].
    apply (closed_plain c); [by destruct r|]. apply Ascii.eqb_neq. intros ->. by vm_compute in Hc.
Qed.

Lemma EncodeRune_valid r : Valid (EncodeRune r).
Proof. pose proof (encode_valid [r]) as Hv. by rewrite encode_cons in Hv; cbn in Hv; rewrite str_app_nil in Hv. Qed.

Lemma unquoteFrom_valid fuel : forall b, closed b -> Valid (unquoteFrom fuel b).
Proof.
  induction fuel as [|fuel IH]; intros b Hb; [constructor|]. destruct b as [|c r]; cbn [unquoteFrom]; [constructor|].
  destruct (Ascii.eqb_spec c backslash) as [->|Hne].
  - destruct r as [|e r1]; [constructor|]. destruct (Ascii.eqb e "u") eqn:Eu.
    + destruct (getu4 _) as [[rr r2]|] eqn:E; [|constructor]. pose proof (closed_u4 _ _ _ Hb E) as H2.
      destruct (in_range _ _ rr); [|apply Valid_app; [apply EncodeRune_valid | by apply IH]].
      destruct (getu4 r2) as [[rr1 r3]|] eqn:E2; [|apply Valid_app; [apply EncodeRune_valid | by apply IH]].
      pose proof (closed_u4 _ _ _ H2 E2). destruct (_ =? _)%Z; (apply Valid_app; [apply EncodeRune_valid | by apply IH]).
    + destruct (closed_escape _ _ Hb Eu) as [He Hr]. apply Valid_cons; [by apply plain_escape_low | by apply IH].
  - destruct (byte_val c <? 128)%Z eqn:Ec.
    + apply Valid_cons; [by apply Z.ltb_lt|]. apply IH, (closed_plain c); [done | by apply Ascii.eqb_neq].
    + pose proof (closed_rune _ _ Ec Hb) as Hd. destruct (DecodeRuneInString (String c r)) as [rr size].
      apply Valid_app; [apply EncodeRune_valid | by apply IH].
Qed.

Lemma stringLit_valid s v t : stringLit s = Some (v, t) -> Valid v.
Proof.
  unfold stringLit. intros E. apply bind_Some in E as ([b r] & E & [= <- <-]). apply stringBody_spec in E as [_ Hb].
  apply unquoteFrom_valid, Hb.
Qed.

Section values.
Context {A : Type} (rd : string -> option (A * string)) (P : A -> Prop) (HP : forall s v t, rd s = Some (v, t) -> P v).

Lemma members_hold fuel : forall s ms t, membersFrom rd fuel s = Some (ms, t) -> Forall (fun kv => Valid (fst kv) /\ P (snd kv)) ms.
Proof.
  induction fuel as [|fuel IH]; intros s ms t; [done|]. cbn [membersFrom]. intros E. apply bind_Some in E as ([[[k v] d] r] & Em & E).
  apply member_inv in Em as (r1 & r2 & r3 & r4 & _ & Ek & _ & Ev & _). apply stringLit_valid in Ek. apply HP in Ev.
  destruct (Ascii.eqb d ","); [|destruct (Ascii.eqb d "}"); [|done]].
  - apply bind_Some in E as ([ms' t'] & E & [= <- <-]). constructor; [done | by eapply IH].
  - injection E as <- <-. by repeat constructor.
Qed.

Lemma items_hold fuel : forall s vs t, itemsFrom rd fuel s = Some (vs, t) -> Forall P vs.
Proof.
  induction fuel as [|fuel IH]; intros s vs t; [done|]. cbn [itemsFrom]. intros E. apply bind_Some in E as ([v r] & Ev & E).
  apply HP in Ev. apply bind_Some in E as ([d r1] & _ & E). destruct (Ascii.eqb d ","); [|destruct (Ascii.eqb d "]"); [|done]].
  - apply bind_Some in E as ([vs' t'] & E & [= <- <-]). constructor; [done | by eapply IH].
  - injection E as <- <-. by repeat constructor.
Qed.

Lemma objectBody_hold s ms t : objectBody rd s = Some (ms, t) -> Forall (fun kv => Valid (fst kv) /\ P (snd kv)) ms.
Proof.
  unfold objectBody. intros E. apply bind_Some in E as ([c r] & _ & E). destruct (Ascii.eqb c "}"); [injection E as <- <-; constructor | by eapply members_hold].
Qed.

Lemma arrayBody_hold s vs t : arrayBody rd s = Some (vs, t) -> Forall P vs.
Proof.
  unfold arrayBody. intros E. apply bind_Some in E as ([c r] & _ & E). destruct (Ascii.eqb c "]"); [injection E as <- <-; constructor | by eapply items_hold].
Qed.

End values.

Lemma scalar_decoded s v t : scalar s = Some (v, t) -> decoded v /\ height v = 0%nat.
Proof.
  unfold scalar. repeat case_match; [by intros [= <- _].. |]. intros E. apply bind_Some in E as ([n r] & En & [= <- _]).
  apply numberSpan_local in En as (_ & _ & Hn). specialize (Hn "" eq_refl). rewrite str_app_nil in Hn. done.
Qed.

Lemma parse_decoded d : forall s v t, parseValue d s = Some (v, t) -> decoded v /\ (height v <= d)%nat.
Proof.
  induction d as [d IH] using lt_wf_ind. intros [|c r] v t E; [by destruct d|]. rewrite parseValue_cons in E.
  destruct (Ascii.eqb c dquote).
  { apply bind_Some in E as ([x t0] & E & [= <- _]). split; [by eapply stringLit_valid | cbn; lia]. }
  destruct (Ascii.eqb c "{" || Ascii.eqb c "["); [|apply scalar_decoded in E as [? ->]; split; [done | lia]].
  destruct d as [|d]; [done|]. destruct (Ascii.eqb c "{"); apply bind_Some in E as ([x t0] & E & [= <- _]).
  - apply (objectBody_hold _ (fun v => decoded v /\ (height v <= d)%nat)) in E; [|intros; eapply IH; [lia | done]].
    split; [apply decoded_object | apply height_object]; eapply Forall_impl; try exact E; cbn; tauto.
  - apply (arrayBody_hold _ (fun v => decoded v /\ (height v <= d)%nat)) in E; [|intros; eapply IH; [lia | done]].
    split; [apply decoded_array | apply height_array]; eapply Forall_impl; try exact E; cbn; tauto.
Qed.

(** ** What is written is UTF-8 *)

Lemma digits_ascii s d t : digits1 s = Some (d, t) -> ascii_text d = true.
Proof.
  unfold digits1. destruct (digitsSpan s) as [d' t'] eqn:Ed. destruct (String.eqb d' ""); [done|]. intros [= <- <-].
  revert d' t' Ed. induction s as [|c s IH]; cbn [digitsSpan]; intros d' t'; [by intros [= <- _]|].
  destruct (isDigit c) eqn:Ec; [|by intros [= <- _]]. destruct (digitsSpan s) as [d1 t1]. intros [= <- _].
  unfold ascii_text. cbn [str_forall]. apply in_range_true in Ec. rewrite (proj2 (Z.ltb_lt _ _)) by lia. by eapply IH.
Qed.

Lemma numberSpan_ascii s n t : numberSpan s = Some (n, t) -> ascii_text n = true.
Proof.
  unfold numberSpan. destruct (match s with "" => _ | _ => _ end) as [neg r] eqn:Es. intros E.
  apply bind_Some in E as ([i r1] & Ei & E). apply bind_Some in E as ([f r2] & Ef & E).
  apply bind_Some in E as ([e r3] & Ee & [= <- <-]). rewrite !ascii_text_app, !andb_true_iff. split_and!.
  - destruct s; [by injection Es as <- _|]. by case_match; injection Es as <- _.
  - destruct r as [|c r]; [done|]. cbn [intSpan] in Ei. case_match; [by injection Ei as <- _ | by eapply digits_ascii].
  - destruct r1 as [|c r1]; cbn [fracSpan] in Ef; [by injection Ef as <- _|].
    destruct (Ascii.eqb_spec c ".") as [->|]; [|by injection Ef as <- _].
    apply bind_Some in Ef as ([d t'] & Ed%digits_ascii & [= <- _]). exact Ed.
  - destruct r2 as [|c r2]; cbn [expSpan] in Ee; [by injection Ee as <- _|].
    destruct (Ascii.eqb c "e" || Ascii.eqb c "E") eqn:Ec; [|by injection Ee as <- _].
    destruct (signSpan r2) as [sg r4] eqn:Eg. apply bind_Some in Ee as ([d t'] & Ed%digits_ascii & [= <- _]).
    assert (ascii_text sg = true) as Hsg.
    { destruct r2 as [|c2 r2]; cbn [signSpan] in Eg; [by injection Eg as <- _|].
      destruct (Ascii.eqb c2 "+" || Ascii.eqb c2 "-") eqn:Eo; [|by injection Eg as <- _]. injection Eg as <- _.
      apply orb_true_iff in Eo. destruct Eo as [->%Ascii.eqb_eq| ->%Ascii.eqb_eq]; done. }
    assert (ascii_text (sg ++ d) = true) as Hd by by rewrite ascii_text_app, Hsg.
    apply orb_true_iff in Ec. destruct Ec as [->%Ascii.eqb_eq| ->%Ascii.eqb_eq]; exact Hd.
Qed.

Lemma quoteByte_ascii html c : (byte_val c < 128)%Z -> ascii_text (quoteByte html c) = true.
Proof.
  intros Hc%Z.ltb_lt. revert Hc. destruct html, c as [[] [] [] [] [] [] [] []]; vm_compute; done.
Qed.

Lemma lineSeparator_ascii s esc t : lineSeparator s = Some (esc, t) -> ascii_text esc = true.
Proof.
  unfold lineSeparator. destruct s as [|a [|b [|c r]]]; try done. destruct (_ && _) eqn:E; [|done]. intros [= <- _].
  apply andb_true_iff in E as [_ E]. apply orb_true_iff in E. destruct E as [E%Z.eqb_eq|E%Z.eqb_eq]; rewrite E; done.
Qed.

Lemma quoteFrom_valid html s : Valid s -> forall fuel, (String.length s <= fuel)%nat -> Valid (quoteFrom html fuel s).
Proof.
  revert s. apply (Valid_runes (fun s => forall fuel, (String.length s <= fuel)%nat -> Valid (quoteFrom html fuel s))).
  { intros [|fuel] _; constructor. }
  intros c r t Hb Hv IH [|fuel] Hf; [cbn in Hf; lia|]. cbn [quoteFrom]. cbn [String.length] in Hf. rewrite str_length_app in Hf.
  destruct (byte_val c <? 128)%Z eqn:Hc.
  - assert (r = "") as ->.
    { destruct Hb as (_ & _ & Hw). specialize (Hw ""). rewrite rune_width_eq, Hc in Hw. injection Hw as Hw. by destruct r. }
    apply Valid_app; [by apply Valid_ascii, quoteByte_ascii, Z.ltb_lt | apply IH; cbn in Hf; lia].
  - destruct (lineSeparator (String c (r ++ t))) as [[esc t']|] eqn:El.
    + destruct (lineSeparator_spec _ _ _ _ _ Hb El) as [-> _].
      apply Valid_app; [by eapply Valid_ascii, lineSeparator_ascii | apply IH; lia].
    + destruct (rune_high c r Hb Hc) as [Hd _]. rewrite Hd. cbn [drop_str]. rewrite drop_str_app.
      apply Valid_app; [|apply IH; lia]. destruct (_ && _); [by apply Valid_ascii|]. cbn [take_str]. rewrite take_str_app.
      rewrite <- (str_app_nil r). apply Valid_app_rune; [done | constructor].
Qed.

Lemma quote_valid html s : Valid s -> Valid (quote html s).
Proof.
  intros Hs. unfold quote. apply (Valid_app (String dquote "")); [by apply Valid_ascii|].
  apply Valid_app; [by apply quoteFrom_valid | by apply Valid_ascii].
Qed.

Lemma concat_valid ts : Forall Valid ts -> Valid (String.concat "," ts).
Proof.
  induction 1 as [|t ts Ht Hts IH]; [constructor|]. cbn [String.concat]. destruct ts; [done|].
  apply Valid_app; [done|]. apply Valid_app; [by apply Valid_ascii | done].
Qed.

Lemma marshal_valid html v : decoded v -> forall s, marshal html v = Some s -> Valid s.
Proof.
  assert (forall a ts b, Valid a -> Forall Valid ts -> Valid b -> Valid (a ++ String.concat "," ts ++ b)) as Hw.
  { intros a ts b Ha Hts Hb. apply Valid_app; [done|]. apply Valid_app; [by apply concat_valid | done]. }
  induction v as [|b|n| | |x| | |l IH|ms IH] using value_tree_ind; cbn [marshal]; intros Hd out E; try done.
  - injection E as <-. by apply Valid_ascii.
  - injection E as <-. destruct b; by apply Valid_ascii.
  - destruct (isNumber n); [|done]. injection E as <-. by eapply Valid_ascii, numberSpan_ascii.
  - injection E as <-. by apply quote_valid.
  - apply bind_Some in E as (ts & E & [= <-]). apply decoded_array in Hd. apply (Hw "["); [by apply Valid_ascii | | by apply Valid_ascii].
    revert ts E. induction IH as [|v l Hv _ IHl]; intros ts E; [by injection E as <-|]. apply Forall_cons in Hd as [Hdv Hd].
    apply bind_Some in E as (t & Et & E). apply bind_Some in E as (ts' & Ets & [= <-]). constructor; [by apply Hv | by apply IHl].
  - apply bind_Some in E as (ts & E & [= <-]). apply decoded_object in Hd. apply (Hw "{"); [by apply Valid_ascii | | by apply Valid_ascii].
    revert ts E. induction IH as [|[k v] l Hv _ IHl]; intros ts E; [by injection E as <-|]. apply Forall_cons in Hd as [[Hk Hdv] Hd].
    apply bind_Some in E as (t & Et & E). apply bind_Some in E as (ts' & Ets & [= <-]). constructor; [|by apply IHl].
    apply (Valid_app (quote html k)); [by apply quote_valid|]. apply (Valid_app ":"); [by apply Valid_ascii | exact (Hv Hdv _ Et)].
Qed.

End Encode.
