(* ===== verification/KeyScan.v ===== *)
(** * The duplicate-key scan

    The byte walk of internal/pdp/pdp.go ([scanJSONKeys], [keyScanner]) that decides whether an
    entry of a list, or a response to be redacted, can be read in two ways: one pass over the
    text with an explicit stack of open containers, which converts no value.  [scan_decides]
    shows that it answers exactly the question it is meant to answer of the tree that
    encoding/json reads (JSON.v).

    The walk's position is the text that is left; the stack is given innermost first.  Every
    step consumes a byte, so the length of the text is fuel enough ([run_fuel]). *)
From stdpp Require Import base tactics list gmap strings fin_sets.
From Stdlib Require Import ZArith Lia Ascii String.
From S2P Require Import Prelude GoStrings GoPath Truncate Runes Capability CaseFold JSON.
#[local] Open Scope string_scope.
#[local] Arguments String.append : simpl nomatch.
Import GoPath Truncate Runes Capability CaseFold JSON.

Module KeyScan.

Definition maxDuplicateKeyScanDepth : nat := 512.

Record toolEntryScan := mkScan { untrustworthy : bool; names : list string; namesComplete : bool }.

Record jsonKeyScanOpts := mkOpts { allowArrayRoot : bool; foldKeys : option (gset string) }.

Inductive scanState := scanStateValue | scanStateKey | scanStateNext.

Record keyScanFrame := mkFrame { object : bool; seen : gset string; empty : bool }.

Record keyScanner := mkScanner {
  rest : string;
  stack : list keyScanFrame;
  st : scanState;
  pendingName : bool;
  done_ : bool;
  out : toolEntryScan;
}.

Definition jsonKeyName : string := "name".

Section scan.
Context `{Unicode}.

Definition jsonKeyNameFolded : string := FoldJSONKey jsonKeyName.

(** ** Spans *)

Definition skipJSONSpace (raw : string) : string := skipSpace raw.

(** The body of the literal, whether it is its own value, and what follows it. *)
Fixpoint scanJSONStringSpan (raw : string) : option (string * bool * string) :=
  match raw with
  | EmptyString => None
  | String c r =>
      if Ascii.eqb c dquote then Some ("", true, r)
      else if Ascii.eqb c backslash then
        match r with
        | String e r1 =>
            if plainEscape e then
              '(b, _, t) ← scanJSONStringSpan r1; Some (String c (String e b), false, t)
            else if Ascii.eqb e "u" then
              match r1 with
              | String h1 (String h2 (String h3 (String h4 r2))) =>
                  if isHexDigit h1 && isHexDigit h2 && isHexDigit h3 && isHexDigit h4 then
                    '(b, _, t) ← scanJSONStringSpan r2;
                    Some (String c (String e (String h1 (String h2 (String h3 (String h4 b))))), false, t)
                  else None
              | _ => None
              end
            else None
        | EmptyString => None
        end
      else if (byte_val c <? 32)%Z then None
      else '(b, simple, t) ← scanJSONStringSpan r; Some (String c b, simple && (byte_val c <? RuneSelf)%Z, t)
  end.

(** A literal that is not its own value goes through [json.Unmarshal]. *)
Definition decodeJSONStringSpan (body : string) (simple : bool) : option string :=
  if simple then Some body
  else match document (String dquote (body ++ String dquote "")) with Some (VString s) => Some s | _ => None end.

Definition matchJSONLiteral (raw lit : string) : option string :=
  if String.prefix lit raw then Some (drop_str (String.length lit) raw) else None.

Fixpoint dropDigits (raw : string) : string :=
  match raw with
  | String c r => if isDigit c then dropDigits r else raw
  | EmptyString => ""
  end.

(** Past at least one digit. *)
Definition someDigits (raw : string) : option string :=
  let r := dropDigits raw in if (String.length r =? String.length raw)%nat then None else Some r.

Definition scanJSONScalarSpan (raw : string) : option string :=
  match raw with
  | EmptyString => None
  | String c0 r0 =>
      if Ascii.eqb c0 "t" then matchJSONLiteral raw "true"
      else if Ascii.eqb c0 "f" then matchJSONLiteral raw "false"
      else if Ascii.eqb c0 "n" then matchJSONLiteral raw "null"
      else
        let i := if Ascii.eqb c0 "-" then r0 else raw in
        i ← match i with
            | String c r =>
                if Ascii.eqb c "0" then Some r else if in_range 49 57 (byte_val c) then Some (dropDigits i) else None
            | EmptyString => None
            end;
        i ← match i with
            | String c r => if Ascii.eqb c "." then someDigits r else Some i
            | EmptyString => Some i
            end;
        match i with
        | String c r =>
            if Ascii.eqb c "e" || Ascii.eqb c "E" then
              someDigits (match r with
                          | String d r1 => if Ascii.eqb d "+" || Ascii.eqb d "-" then r1 else r
                          | EmptyString => r
                          end)
            else Some i
        | EmptyString => Some i
        end
  end.

(** ** The walk *)

Definition set_untrustworthy (o : toolEntryScan) (b : bool) : toolEntryScan :=
  mkScan (untrustworthy o || b) (names o) (namesComplete o).
Definition add_name (o : toolEntryScan) (n : string) : toolEntryScan :=
  mkScan (untrustworthy o) (if String.eqb n "" then names o else (names o ++ [n])%list) (namesComplete o).
Definition set_complete (o : toolEntryScan) : toolEntryScan := mkScan (untrustworthy o) (names o) true.

(** A member was completed in the innermost container. *)
Definition nonempty (fs : list keyScanFrame) : list keyScanFrame :=
  match fs with f :: fs => mkFrame (object f) (seen f) false :: fs | [] => [] end.

Definition entry_state (object : bool) : scanState := if object then scanStateKey else scanStateValue.

(** [r] is the text after the bracket. *)
Definition push (obj : bool) (r : string) (s : keyScanner) : option keyScanner :=
  if (maxDuplicateKeyScanDepth <=? List.length (stack s))%nat then None
  else Some (mkScanner r (mkFrame obj ∅ true :: nonempty (stack s)) (entry_state obj) false (done_ s) (out s)).

Definition pop (r : string) (s : keyScanner) : keyScanner :=
  match tl (stack s) with
  | [] => mkScanner r [] (st s) (pendingName s) true (out s)
  | fs => mkScanner r fs scanStateNext (pendingName s) (done_ s) (out s)
  end.

Variable opts : jsonKeyScanOpts.

Definition canonicalize (key : string) (depth : nat) : string :=
  match foldKeys opts with
  | Some scope =>
      let folded := FoldJSONKey key in
      if negb (String.eqb folded key) && bool_decide (folded ∈ scope) then folded else key
  | None => if (depth =? 1)%nat then FoldJSONKey key else key
  end.

Definition names_member (depth : nat) (canon : string) : bool :=
  bool_decide (foldKeys opts = None) && (depth =? 1)%nat && String.eqb canon jsonKeyNameFolded.

Definition stepKey (c : ascii) (r : string) (top : keyScanFrame) (s : keyScanner) : option keyScanner :=
  if Ascii.eqb c "}" && empty top then Some (pop r s)
  else if negb (Ascii.eqb c dquote) then None
  else
    '(body, simple, r) ← scanJSONStringSpan r;
    key ← decodeJSONStringSpan body simple;
    match skipJSONSpace r with
    | String colon r =>
        if negb (Ascii.eqb colon ":") then None
        else
          let depth := List.length (stack s) in
          let canon := canonicalize key depth in
          Some (mkScanner r (mkFrame (object top) ({[canon]} ∪ seen top) false :: tl (stack s)) scanStateValue
                  (names_member depth canon) (done_ s) (set_untrustworthy (out s) (bool_decide (canon ∈ seen top))))
    | EmptyString => None
    end.

Definition stepValue (c : ascii) (r : string) (top : keyScanFrame) (s : keyScanner) : option keyScanner :=
  if Ascii.eqb c "]" && negb (object top) && empty top then Some (pop r s)
  else if Ascii.eqb c "{" || Ascii.eqb c "[" then push (Ascii.eqb c "{") r s
  else if Ascii.eqb c dquote then
    '(body, simple, r) ← scanJSONStringSpan r;
    if pendingName s then
      name ← decodeJSONStringSpan body simple;
      Some (mkScanner r (nonempty (stack s)) scanStateNext false (done_ s) (add_name (out s) name))
    else Some (mkScanner r (nonempty (stack s)) scanStateNext false (done_ s) (out s))
  else
    r ← scanJSONScalarSpan (String c r);
    Some (mkScanner r (nonempty (stack s)) scanStateNext false (done_ s) (out s)).

Definition stepNext (c : ascii) (r : string) (top : keyScanFrame) (s : keyScanner) : option keyScanner :=
  if Ascii.eqb c "," then
    Some (mkScanner r (stack s) (entry_state (object top)) (pendingName s) (done_ s) (out s))
  else if Ascii.eqb c "}" then if object top then Some (pop r s) else None
  else if Ascii.eqb c "]" then if object top then None else Some (pop r s)
  else None.

(** One turn of the loop; [None] is an abort. *)
Definition turn (s : keyScanner) : option keyScanner :=
  match skipJSONSpace (rest s), stack s with
  | String c r, top :: _ =>
      match st s with
      | scanStateKey => stepKey c r top s
      | scanStateValue => stepValue c r top s
      | scanStateNext => stepNext c r top s
      end
  | _, _ => None
  end.

Fixpoint run (fuel : nat) (s : keyScanner) : toolEntryScan :=
  if done_ s then set_complete (out s)
  else
    match fuel with
    | O => set_untrustworthy (out s) true
    | S fuel =>
        match turn s with
        | Some s' => run fuel s'
        | None => set_untrustworthy (out s) true
        end
    end.

Definition scanContainerKeys (obj : bool) (r : string) : toolEntryScan :=
  run (S (String.length r)) (mkScanner r [mkFrame obj ∅ true] (entry_state obj) false false (mkScan false [] false)).

(** The decoder's first token decides between a value that is not an object and no JSON. *)
Definition classifyNonContainerRoot (raw : string) : toolEntryScan :=
  match skipSpace raw with
  | String c r =>
      mkScan true [] (Ascii.eqb c "{" || Ascii.eqb c "[" || bool_decide (is_Some (parseValue 0 (String c r))))
  | EmptyString => mkScan true [] false
  end.

Definition scanJSONKeys (raw : string) : toolEntryScan :=
  match skipJSONSpace raw with
  | String c r =>
      if Ascii.eqb c "{" || (allowArrayRoot opts && Ascii.eqb c "[")
      then scanContainerKeys (Ascii.eqb c "{") r
      else classifyNonContainerRoot raw
  | EmptyString => classifyNonContainerRoot raw
  end.

End scan.

Section entry.
Context `{Unicode}.

Definition scanToolEntry (raw : string) : toolEntryScan := scanJSONKeys (mkOpts false None) raw.
Definition entryKeysAmbiguous (raw : string) : bool := untrustworthy (scanToolEntry raw).
Definition EntryKeysAmbiguous (raw : string) : bool := entryKeysAmbiguous raw.

End entry.

(** ** The spans are those of the decoder *)

#[local] Arguments byte_val : simpl never.

Lemma span_is_body raw :
  match scanJSONStringSpan raw with
  | Some (b, simple, t) => stringBody raw = Some (b, t) /\ (simple = true -> unquote b = b)
  | None => stringBody raw = None
  end.
Proof.
  assert (forall c b, Ascii.eqb c backslash = false -> (byte_val c <? RuneSelf)%Z = true ->
    unquote (String c b) = String c (unquote b)) as Hu.
  { intros c b Hb Hc. unfold unquote. cbn [String.length unquoteFrom]. rewrite Hb. unfold RuneSelf in Hc. by rewrite Hc. }
  induction raw as [raw IH] using (induction_ltof1 _ String.length). unfold ltof in IH.
  destruct raw as [|c r]; [done|]. cbn [scanJSONStringSpan stringBody]. destruct (Ascii.eqb c dquote); [done|].
  destruct (Ascii.eqb c backslash) eqn:Eb.
  - destruct r as [|e r1]; [done|]. destruct (plainEscape e).
    + specialize (IH r1 ltac:(cbn; lia)). destruct (scanJSONStringSpan r1) as [[[b si] t]|]; [destruct IH as [-> _]|rewrite IH]; done.
    + destruct (Ascii.eqb e "u"); [|done]. destruct r1 as [|h1 [|h2 [|h3 [|h4 r2]]]]; try done.
      destruct (_ && _); [|done]. specialize (IH r2 ltac:(cbn; lia)).
      destruct (scanJSONStringSpan r2) as [[[b si] t]|]; [destruct IH as [-> _]|rewrite IH]; done.
  - destruct (byte_val c <? 32)%Z; [done|]. specialize (IH r ltac:(cbn; lia)).
    destruct (scanJSONStringSpan r) as [[[b si] t]|]; [destruct IH as [-> Hs]|by rewrite IH]. cbn [mbind option_bind]. split; [done|].
    intros [Hsi Hc]%andb_true_iff. by rewrite Hu, Hs.
Qed.

(** Every literal of the grammar has a value. *)
Lemma literal_document b t s : stringBody s = Some (b, t) ->
  document (String dquote (b ++ String dquote "")) = Some (VString (unquote b)).
Proof.
  intros [_ Hb]%stringBody_spec. unfold document. change (skipSpace (String dquote ?x)) with (String dquote x).
  unfold maxNestingDepth. set (d := Z.to_nat 10000). destruct d; cbn [parseValue];
    change (Ascii.eqb dquote dquote) with true; cbn [mbind option_bind]; unfold stringLit; by rewrite Hb.
Qed.

(** The key or the name read from a span is the decoder's. *)
Lemma span_literal raw :
  match scanJSONStringSpan raw with
  | Some (b, simple, t) => exists v, decodeJSONStringSpan b simple = Some v /\ stringLit raw = Some (v, t)
  | None => stringLit raw = None
  end.
Proof.
  pose proof (span_is_body raw) as Hs. destruct (scanJSONStringSpan raw) as [[[b si] t]|].
  - destruct Hs as [Hb Hu]. exists (unquote b). unfold stringLit. rewrite Hb. split; [|done].
    unfold decodeJSONStringSpan. destruct si; [by rewrite Hu|]. by rewrite (literal_document b t raw Hb).
  - unfold stringLit. by rewrite Hs.
Qed.

Lemma digits_drop s : digitsSpan s = (fst (digitsSpan s), dropDigits s).
Proof. induction s as [|c s IH]; [done|]. cbn. destruct (isDigit c); [|done]. rewrite IH. done. Qed.

Lemma some_digits s : someDigits s = snd <$> digits1 s.
Proof.
  unfold someDigits, digits1. rewrite digits_drop. assert (String.length s = String.length (fst (digitsSpan s)) + String.length (dropDigits s)) as Hl.
  { induction s as [|c s IH]; [done|]. cbn. destruct (isDigit c); [|done]. rewrite digits_drop. cbn. lia. }
  destruct (fst (digitsSpan s)) as [|c d]; cbn in *.
  - by rewrite (proj2 (Nat.eqb_eq _ _)) by lia.
  - by rewrite (proj2 (Nat.eqb_neq _ _)) by lia.
Qed.

Lemma digits1_drop c s : snd <$> digits1 (String c s) = if isDigit c then Some (dropDigits (String c s)) else None.
Proof. unfold digits1. rewrite digits_drop. cbn [digitsSpan dropDigits]. destruct (isDigit c); [|done]. by destruct (digitsSpan s). Qed.

Lemma scan_scalar raw : scanJSONScalarSpan raw = snd <$> scalar raw.
Proof.
  unfold scalar, scanJSONScalarSpan, matchJSONLiteral. destruct raw as [|c0 r0]; [done|].
  assert (forall w c, Ascii.eqb c0 c = false -> String.prefix (String c w) (String c0 r0) = false) as Hp.
  { intros w c Hc. cbn. apply Ascii.eqb_neq in Hc. by destruct (ascii_dec c c0). }
  destruct (Ascii.eqb_spec c0 "t") as [->|Ht]; [repeat case_match; done|].
  rewrite (Hp "rue" "t"%char) by by apply Ascii.eqb_neq.
  destruct (Ascii.eqb_spec c0 "f") as [->|Hf]; [repeat case_match; done|].
  rewrite (Hp "alse" "f"%char) by by apply Ascii.eqb_neq.
  destruct (Ascii.eqb_spec c0 "n") as [->|Hn]; [repeat case_match; done|].
  rewrite (Hp "ull" "n"%char) by by apply Ascii.eqb_neq.
  unfold numberSpan. set (i := if Ascii.eqb c0 "-" then r0 else String c0 r0).
  replace (if Ascii.eqb c0 "-" then ("-", r0) else ("", String c0 r0)) with ((if Ascii.eqb c0 "-" then "-" else ""), i)
    by (unfold i; by destruct (Ascii.eqb c0 "-")). clearbody i. clear.
  assert ((match i with
      | "" => None
      | String c r => if Ascii.eqb c "0" then Some r else if in_range 49 57 (byte_val c) then Some (dropDigits i) else None
      end) = snd <$> intSpan i) as ->.
  { destruct i as [|c r]; [done|]. cbn [intSpan]. destruct (Ascii.eqb_spec c "0") as [->|H0]; [done|].
    assert (in_range 49 57 (byte_val c) = isDigit c) as ->.
    { unfold isDigit. assert (byte_val c <> 48)%Z; [|unfold in_range; lia].
      intros Hb. apply H0. rewrite <- (byte_byte_val c), Hb. done. }
    rewrite digits1_drop. cbn [dropDigits]. by destruct (isDigit c). }
  destruct (intSpan i) as [[d r]|]; [|done]. cbn [fmap option_fmap option_map mbind option_bind snd].
  assert ((match r with
      | "" => Some r | String c r' => if Ascii.eqb c "." then someDigits r' else Some r end) = snd <$> fracSpan r) as ->.
  { destruct r as [|c r]; [done|]. cbn [fracSpan]. case_match; [|done]. rewrite some_digits. by destruct (digits1 r) as [[]|]. }
  destruct (fracSpan r) as [[d1 r1]|]; [|done]. cbn [fmap option_fmap option_map mbind option_bind snd].
  destruct r1 as [|c r1]; [done|]. cbn [expSpan]. case_match; [|done].
  assert ((match r1 with
      | "" => r1 | String d r2 => if Ascii.eqb d "+" || Ascii.eqb d "-" then r2 else r1 end) = snd (signSpan r1)) as ->
    by (destruct r1; [done|]; cbn [signSpan]; by case_match).
  destruct (signSpan r1) as [sg r2]. cbn [snd]. rewrite some_digits. by destruct (digits1 r2) as [[]|].
Qed.

(** ** The walk, without its fuel *)

Lemma scan_scalar_shrinks raw t : scanJSONScalarSpan raw = Some t -> String.length t < String.length raw.
Proof. rewrite scan_scalar. destruct (scalar raw) as [[v r]|] eqn:E; [|done]. intros [= <-]. by eapply scalar_shrinks. Qed.

Lemma span_shrinks raw b si t : scanJSONStringSpan raw = Some (b, si, t) -> String.length t < String.length raw.
Proof. intros E. pose proof (span_is_body raw) as Hs. rewrite E in Hs. destruct Hs as [Hs _]. by eapply stringBody_shrinks. Qed.

Section walk.
Context `{Unicode} (opts : jsonKeyScanOpts).

Lemma pop_rest r s : rest (pop r s) = r.
Proof. unfold pop. by case_match. Qed.

Lemma turn_shrinks s s' : turn opts s = Some s' -> String.length (rest s') < String.length (rest s).
Proof.
  unfold turn, skipJSONSpace. destruct (skipSpace (rest s)) as [|c r] eqn:E; [done|]. apply skipSpace_cons in E.
  destruct (stack s) as [|top K]; [done|]. enough (forall s', (match st s with
      | scanStateValue => stepValue c r top s | scanStateKey => stepKey opts c r top s
      | scanStateNext => stepNext c r top s end) = Some s' -> String.length (rest s') <= String.length r) as Hle
    by (intros E'%Hle; lia). clear s'. intros s'. destruct (st s).
  - unfold stepValue, push. repeat (case_match; try done); intros E'; simplify_eq; rewrite ?pop_rest; cbn; try lia.
    + apply bind_Some in E' as ([[b si] t] & Es%span_shrinks & E'). apply bind_Some in E' as (n & _ & [= <-]). cbn. lia.
    + apply bind_Some in E' as ([[b si] t] & Es%span_shrinks & [= <-]). cbn. lia.
    + apply bind_Some in E' as (t & Es%scan_scalar_shrinks & [= <-]). cbn in *. lia.
  - unfold stepKey. destruct (_ && _); [intros [= <-]; by rewrite pop_rest|]. destruct (negb _); [done|]. intros E'.
    apply bind_Some in E' as ([[b si] t] & Es%span_shrinks & E'). apply bind_Some in E' as (k & _ & E').
    unfold skipJSONSpace in E'. destruct (skipSpace t) as [|cl r'] eqn:Ec; [done|]. apply skipSpace_cons in Ec.
    destruct (negb _); [done|]. injection E' as <-. cbn. lia.
  - unfold stepNext. repeat (case_match; try done); intros E'; simplify_eq; rewrite ?pop_rest; done.
Qed.

Definition Run (s : keyScanner) : toolEntryScan := run opts (S (String.length (rest s))) s.

Lemma run_fuel n : forall m s, String.length (rest s) < n -> String.length (rest s) < m -> run opts n s = run opts m s.
Proof.
  induction n as [|n IH]; intros [|m] s Hn Hm; try lia. cbn [run]. destruct (done_ s); [done|].
  destruct (turn opts s) as [s'|] eqn:E; [|done]. apply turn_shrinks in E. apply IH; lia.
Qed.

Lemma Run_turn s s' : done_ s = false -> turn opts s = Some s' -> Run s = Run s'.
Proof.
  intros Hd E. unfold Run at 1. cbn [run]. rewrite Hd, E. apply turn_shrinks in E. apply run_fuel; lia.
Qed.

(** The walk gives up. *)
Definition aborted (o : toolEntryScan) : Prop := untrustworthy o = true /\ namesComplete o = false.

(** A walk that is not over. *)
Definition at_ (r : string) (fs : list keyScanFrame) (x : scanState) (pn u : bool) (ns : list string) : keyScanner :=
  mkScanner r fs x pn false (mkScan u ns false).

Lemma Run_stuck r fs x pn u ns : turn opts (at_ r fs x pn u ns) = None -> aborted (Run (at_ r fs x pn u ns)).
Proof. intros E. unfold Run. cbn [run done_ at_]. rewrite E. split; cbn; [by rewrite orb_true_r | done]. Qed.

(** What the walk answers once the innermost container is closed. *)
Definition after (r : string) (fs : list keyScanFrame) (u : bool) (ns : list string) : toolEntryScan :=
  match fs with [] => mkScan u ns true | _ => Run (at_ r fs scanStateNext false u ns) end.

(** [Run s] continues as [k] says on what a reader read, and gives up where the reader fails. *)
Definition follows {A} (s : keyScanner) (o : option (A * string)) (k : A -> string -> toolEntryScan) : Prop :=
  match o with Some (v, t) => Run s = k v t | None => aborted (Run s) end.

(** ** What is looked for *)

Fixpoint repeats (sn : gset string) (ks : list string) : bool :=
  match ks with
  | [] => false
  | k :: ks => bool_decide (k ∈ sn) || repeats ({[k]} ∪ sn) ks
  end.

Definition canons (depth : nat) {A} (ms : list (string * A)) : list string :=
  map (fun kv => canonicalize opts (fst kv) depth) ms.

(** Some object of the value, itself at [depth], has two members under one name. *)
Fixpoint ambiguous (depth : nat) (v : value) : bool :=
  match v with
  | VArray l => existsb (ambiguous (S depth)) l
  | VObject ms => repeats ∅ (canons depth ms) || existsb (fun kv => ambiguous (S depth) (snd kv)) ms
  | _ => false
  end.

Definition name_of (v : value) : list string :=
  match v with VString n => if String.eqb n "" then [] else [n] | _ => [] end.

Definition names_of (depth : nat) (ms : list (string * value)) : list string :=
  flat_map (fun kv => if names_member opts depth (canonicalize opts (fst kv) depth) then name_of (snd kv) else []) ms.

(** ** The walk follows the decoder *)

Definition first_is (c : ascii) (s : string) : Prop := exists r, skipSpace s = String c r.

Definition value_follows (d : nat) : Prop := forall s top K pn u ns,
  List.length K + 1 + d = maxDuplicateKeyScanDepth ->
  (object top = false -> empty top = true -> ~ first_is "]" s) ->
  follows (at_ s (top :: K) scanStateValue pn u ns) (parseValue d (skipSpace s))
    (fun v t => Run (at_ t (nonempty (top :: K)) scanStateNext false (u || ambiguous (S (S (List.length K))) v)
                       (ns ++ if pn then name_of v else [])%list)).

Lemma turn_at s c r top K x pn u ns : skipSpace s = String c r ->
  turn opts (at_ s (top :: K) x pn u ns) =
  match x with
  | scanStateKey => stepKey opts c r top (at_ s (top :: K) x pn u ns)
  | scanStateValue => stepValue c r top (at_ s (top :: K) x pn u ns)
  | scanStateNext => stepNext c r top (at_ s (top :: K) x pn u ns)
  end.
Proof. intros E. unfold turn, skipJSONSpace. cbn [rest stack st at_]. by rewrite E. Qed.

Lemma turn_end s fs x pn u ns : skipSpace s = "" -> turn opts (at_ s fs x pn u ns) = None.
Proof. intros E. unfold turn, skipJSONSpace. cbn [rest at_]. by rewrite E. Qed.

(** The byte after a member or an item. *)
Lemma next_follows s top K u ns :
  match delim s with
  | None => aborted (Run (at_ s (top :: K) scanStateNext false u ns))
  | Some (c, r) =>
      if Ascii.eqb c "," then
        Run (at_ s (top :: K) scanStateNext false u ns) = Run (at_ r (top :: K) (entry_state (object top)) false u ns)
      else if Ascii.eqb c (if object top then "}" else "]")%char then
        Run (at_ s (top :: K) scanStateNext false u ns) = after r K u ns
      else aborted (Run (at_ s (top :: K) scanStateNext false u ns))
  end.
Proof.
  assert (forall r, turn opts (at_ s (top :: K) scanStateNext false u ns) = Some (pop r (at_ s (top :: K) scanStateNext false u ns)) ->
    Run (at_ s (top :: K) scanStateNext false u ns) = after r K u ns) as Hpop.
  { intros r E. rewrite (Run_turn (at_ s (top :: K) scanStateNext false u ns) _ eq_refl E). unfold after, pop. by destruct K. }
  unfold delim. destruct (skipSpace s) as [|c r] eqn:E; [by apply Run_stuck, turn_end|].
  pose proof (turn_at s c r top K scanStateNext false u ns E) as Ht. unfold stepNext in Ht.
  destruct (Ascii.eqb_spec c ",") as [->|Hc]; [by apply Run_turn|].
  destruct (object top), (Ascii.eqb c "}") eqn:E1, (Ascii.eqb c "]") eqn:E2; try (by apply Hpop); try (by apply Run_stuck).
  apply Ascii.eqb_eq in E1 as ->. done.
Qed.

(** One member, up to the byte after it. *)
Lemma member_follows d : value_follows d -> forall s sn e K pn u ns,
  List.length K + 1 + d = maxDuplicateKeyScanDepth -> (e = true -> ~ first_is "}" s) ->
  let k := S (List.length K) in let start := at_ s (mkFrame true sn e :: K) scanStateKey pn u ns in
  match member (parseValue d) s with
  | None => aborted (Run start)
  | Some (key, v, c, r) => let canon := canonicalize opts key k in exists r4, delim r4 = Some (c, r) /\
      Run start = Run (at_ r4 (mkFrame true ({[canon]} ∪ sn) false :: K) scanStateNext false
        ((u || bool_decide (canon ∈ sn)) || ambiguous (S k) v) (ns ++ if names_member opts k canon then name_of v else [])%list)
  end.
Proof.
  intros HV s sn e K pn u ns HK Hfirst k start. unfold member. rewrite delim_spec.
  destruct (skipSpace s) as [|c r] eqn:E; [by apply Run_stuck, turn_end|]. cbn [mbind option_bind].
  pose proof (turn_at s c r (mkFrame true sn e) K scanStateKey pn u ns E) as Ht. unfold stepKey in Ht.
  assert (Ascii.eqb c "}" && e = false) as Hcl.
  { destruct (Ascii.eqb_spec c "}") as [->|]; [|done]. destruct e; [|done]. destruct (Hfirst eq_refl). by exists r. }
  cbn [empty] in Ht. rewrite Hcl in Ht. destruct (negb (Ascii.eqb c dquote)); [by apply Run_stuck|].
  pose proof (span_literal r) as Hs. destruct (scanJSONStringSpan r) as [[[b si] r2]|]; [|rewrite Hs; by apply Run_stuck].
  destruct Hs as (key & Hkey & ->). cbn [mbind option_bind] in Ht |- *. rewrite Hkey in Ht. cbn [mbind option_bind] in Ht.
  unfold skipJSONSpace in Ht. rewrite delim_spec. destruct (skipSpace r2) as [|cl r3] eqn:E2; [by apply Run_stuck|].
  cbn [mbind option_bind]. destruct (negb (Ascii.eqb cl ":")); [by apply Run_stuck|].
  apply (Run_turn start) in Ht; [|done].
  cbn [object seen stack tl at_ done_ out] in Ht. change (List.length (mkFrame true sn e :: K)) with k in Ht.
  set (canon := canonicalize opts key k) in Ht.
  change (Run start = Run (at_ r3 (mkFrame true ({[canon]} ∪ sn) false :: K) scanStateValue (names_member opts k canon)
      (u || bool_decide (canon ∈ sn)) ns)) in Ht.
  pose proof (HV r3 (mkFrame true ({[canon]} ∪ sn) false) K (names_member opts k canon) (u || bool_decide (canon ∈ sn)) ns
    HK ltac:(done)) as Hval. unfold follows in Hval. rewrite Ht. clear Ht.
  destruct (parseValue d (skipSpace r3)) as [[v r4]|]; [|exact Hval]. rewrite Hval. clear Hval.
  change (S (S (List.length K))) with (S k). cbn [mbind option_bind nonempty object seen].
  destruct (delim r4) as [[c1 r5]|] eqn:Ed; [by exists r4|].
  pose proof (next_follows r4 (mkFrame true ({[canon]} ∪ sn) false) K ((u || bool_decide (canon ∈ sn)) || ambiguous (S k) v)
    (ns ++ if names_member opts k canon then name_of v else [])%list) as Hn. by rewrite Ed in Hn.
Qed.

Lemma members_follow d : value_follows d -> forall fuel s sn e K pn u ns, String.length s < fuel ->
  List.length K + 1 + d = maxDuplicateKeyScanDepth -> (e = true -> ~ first_is "}" s) ->
  let k := S (List.length K) in
  follows (at_ s (mkFrame true sn e :: K) scanStateKey pn u ns) (membersFrom (parseValue d) fuel s)
    (fun ms t => after t K (u || (repeats sn (canons k ms) || existsb (fun kv => ambiguous (S k) (snd kv)) ms))
                   (ns ++ names_of k ms)%list).
Proof.
  intros HV. induction fuel as [|fuel IH]; intros s sn e K pn u ns Hfuel HK Hfirst k; [lia|].
  pose proof (member_follows d HV s sn e K pn u ns HK Hfirst) as Hm. cbv zeta in Hm. fold k in Hm. cbn [membersFrom].
  destruct (member (parseValue d) s) as [[[[key v] c] r]|] eqn:Em; [|exact Hm]. destruct Hm as (r4 & Ed & Hm).
  set (canon := canonicalize opts key k) in *. cbn [mbind option_bind]. unfold follows. rewrite Hm. clear Hm.
  set (u1 := (u || _) || _). set (ns1 := (ns ++ _)%list).
  pose proof (next_follows r4 (mkFrame true ({[canon]} ∪ sn) false) K u1 ns1) as Hn. rewrite Ed in Hn. cbn [object] in Hn.
  destruct (Ascii.eqb c ","); [|destruct (Ascii.eqb c "}"); [|exact Hn]].
  - apply (member_shrinks _ (parseValue_shrinks d)) in Em.
    pose proof (IH r ({[canon]} ∪ sn) false K false u1 ns1 ltac:(lia) HK ltac:(done)) as Hr. cbn [entry_state] in Hn.
    unfold follows in Hr. rewrite Hn.
    destruct (membersFrom (parseValue d) fuel r) as [[ms t]|]; [|exact Hr]. cbn [mbind option_bind]. rewrite Hr.
    unfold u1, ns1. cbn [canons map fst repeats existsb snd names_of flat_map]. fold canon. f_equal; [|by rewrite app_assoc].
    destruct u, (bool_decide (canon ∈ sn)), (ambiguous (S k) v), (repeats _ _); done.
  - rewrite Hn. unfold u1, ns1. cbn [canons map fst repeats existsb snd names_of flat_map]. fold canon. rewrite app_nil_r. f_equal.
    destruct u, (bool_decide (canon ∈ sn)), (ambiguous (S k) v); done.
Qed.

Lemma items_follow d : value_follows d -> forall fuel s e K u ns, String.length s < fuel ->
  List.length K + 1 + d = maxDuplicateKeyScanDepth -> (e = true -> ~ first_is "]" s) ->
  follows (at_ s (mkFrame false ∅ e :: K) scanStateValue false u ns) (itemsFrom (parseValue d) fuel s)
    (fun vs t => after t K (u || existsb (ambiguous (S (S (List.length K)))) vs) ns).
Proof.
  intros HV. induction fuel as [|fuel IH]; intros s e K u ns Hfuel HK Hfirst; [lia|]. cbn [itemsFrom].
  pose proof (HV s (mkFrame false ∅ e) K false u ns HK ltac:(done)) as Hval. unfold follows in Hval |- *.
  destruct (parseValue d (skipSpace s)) as [[v r]|] eqn:Ev; [|exact Hval]. rewrite Hval. clear Hval.
  cbn [mbind option_bind nonempty object seen]. rewrite app_nil_r. set (u1 := u || _).
  pose proof (next_follows r (mkFrame false ∅ false) K u1 ns) as Hn. cbn [object] in Hn.
  destruct (delim r) as [[c r']|] eqn:Ed; [|exact Hn]. cbn [mbind option_bind].
  destruct (Ascii.eqb c ","); [|destruct (Ascii.eqb c "]"); [|exact Hn]].
  - apply delim_shrinks in Ed. apply (rd_skip _ (parseValue_shrinks d)) in Ev.
    pose proof (IH r' false K u1 ns ltac:(lia) HK ltac:(done)) as Hr. cbn [entry_state] in Hn. unfold follows in Hr. rewrite Hn.
    destruct (itemsFrom (parseValue d) fuel r') as [[vs t]|]; [|exact Hr]. cbn [mbind option_bind existsb]. rewrite Hr.
    unfold u1. by rewrite orb_assoc.
  - rewrite Hn. unfold u1. cbn [existsb]. by rewrite orb_false_r.
Qed.

(** A container, from the byte after its bracket. *)
Lemma container_follows d obj r K u ns : value_follows d -> List.length K + 1 + d = maxDuplicateKeyScanDepth ->
  follows (at_ r (mkFrame obj ∅ true :: K) (entry_state obj) false u ns)
    (if obj then '(ms, t) ← objectBody (parseValue d) r; Some (VObject ms, t)
     else '(vs, t) ← arrayBody (parseValue d) r; Some (VArray vs, t))
    (fun v t => let k := S (List.length K) in
       after t K (u || ambiguous k v) (ns ++ match v with VObject ms => names_of k ms | _ => [] end)%list).
Proof.
  intros HV HK. assert (forall c r', skipSpace r = String c r' -> Ascii.eqb c (if obj then "}" else "]")%char = true ->
    Run (at_ r (mkFrame obj ∅ true :: K) (entry_state obj) false u ns) = after r' K u ns) as Hclose.
  { intros c r' E Hc. pose proof (turn_at r c r' (mkFrame obj ∅ true) K (entry_state obj) false u ns E) as Ht.
    set (a := at_ r _ _ _ _ _) in *. unfold after. rewrite (Run_turn a (pop r' a)); [| done |].
    2: { rewrite Ht. destruct obj; cbn [entry_state]; unfold stepKey, stepValue; rewrite Hc; done. }
    unfold pop. by destruct K. }
  assert (forall c r', skipSpace r = String c r' -> Ascii.eqb c (if obj then "}" else "]")%char = false ->
    ~ first_is (if obj then "}" else "]")%char r) as Hopen.
  { intros c r' E Hc (r'' & E'). rewrite E in E'. injection E' as -> ->. by rewrite Ascii.eqb_refl in Hc. }
  destruct obj; unfold objectBody, arrayBody; rewrite delim_spec;
    (destruct (skipSpace r) as [|c r'] eqn:E; [by apply Run_stuck, turn_end|]); cbn [mbind option_bind].
  - destruct (Ascii.eqb c "}") eqn:Ec.
    + cbn. rewrite orb_false_r, app_nil_r. by eapply Hclose.
    + pose proof (members_follow d HV (S (String.length r)) r ∅ true K false u ns ltac:(lia) HK ltac:(intros _; by eapply Hopen)) as Hm.
      unfold follows in *. by destruct (membersFrom _ _ _) as [[ms t]|].
  - destruct (Ascii.eqb c "]") eqn:Ec.
    + cbn. rewrite orb_false_r, app_nil_r. by eapply Hclose.
    + pose proof (items_follow d HV (S (String.length r)) r true K u ns ltac:(lia) HK ltac:(intros _; by eapply Hopen)) as Hm.
      unfold follows in *. destruct (itemsFrom _ _ _) as [[vs t]|]; [|done]. cbn. by rewrite app_nil_r.
Qed.

Lemma names_of_nested k ms : k <> 1 -> names_of k ms = [].
Proof.
  intros Hk. unfold names_of, names_member. rewrite (proj2 (Nat.eqb_neq k 1) Hk), andb_false_r.
  by induction ms as [|kv ms IH].
Qed.

Lemma scalar_flat s v t : scalar s = Some (v, t) -> (forall k, ambiguous k v = false) /\ name_of v = [].
Proof.
  unfold scalar. repeat case_match; intros E; [by injection E as <- <- ..|].
  apply bind_Some in E as ([n r] & _ & [= <- <-]). done.
Qed.

Lemma values_follow d : value_follows d.
Proof.
  induction d as [d IH] using lt_wf_ind. intros s top K pn u ns HK Hfirst.
  destruct (skipSpace s) as [|c r] eqn:E; [unfold follows; destruct d; by apply Run_stuck, turn_end|].
  pose proof (turn_at s c r top K scanStateValue pn u ns E) as Ht. unfold stepValue in Ht.
  assert (Ascii.eqb c "]" && negb (object top) && empty top = false) as Hcl.
  { destruct (Ascii.eqb_spec c "]") as [->|]; [|done]. destruct (object top) eqn:Eo; [done|]. destruct (empty top) eqn:Ee; [|done].
    destruct (Hfirst eq_refl eq_refl). by exists r. }
  rewrite Hcl in Ht. rewrite parseValue_cons. set (start := at_ s (top :: K) scanStateValue pn u ns) in *.
  destruct (Ascii.eqb_spec c dquote) as [->|Hq].
  { change (Ascii.eqb dquote "{" || Ascii.eqb dquote "[") with false in Ht. cbn match in Ht.
    pose proof (span_literal r) as Hs. destruct (scanJSONStringSpan r) as [[[b si] r2]|]; [|rewrite Hs; by apply Run_stuck].
    destruct Hs as (v & Hv & ->). cbn [mbind option_bind] in Ht |- *. rewrite Hv in Ht. unfold follows.
    cbn [pendingName start at_ mbind option_bind] in Ht. cbn [ambiguous]. rewrite orb_false_r.
    destruct pn; rewrite (Run_turn start _ eq_refl Ht); [|by rewrite app_nil_r].
    unfold add_name, name_of, at_. cbn [out start at_ untrustworthy names namesComplete stack done_].
    by destruct (String.eqb v ""); rewrite ?app_nil_r. }
  destruct (Ascii.eqb c "{" || Ascii.eqb c "[") eqn:Ebr.
  - unfold push in Ht. cbn [stack start at_ List.length] in Ht. destruct d as [|d].
    { rewrite (proj2 (Nat.leb_le _ _)) in Ht by lia. by apply Run_stuck. }
    rewrite (proj2 (Nat.leb_gt _ _)) in Ht by lia. apply (Run_turn start) in Ht; [|done].
    pose proof (container_follows d (Ascii.eqb c "{") r (nonempty (top :: K)) u ns (IH d ltac:(lia)) ltac:(cbn; lia)) as Hc.
    unfold follows in Hc |- *. rewrite Ht. destruct (Ascii.eqb c "{").
    + destruct (objectBody (parseValue d) r) as [[ms t]|]; [|exact Hc]. cbn [mbind option_bind] in Hc |- *.
      etransitivity; [exact Hc|]. cbn [nonempty List.length after]. rewrite names_of_nested by lia. by destruct pn.
    + destruct (arrayBody (parseValue d) r) as [[vs t]|]; [|exact Hc]. cbn [mbind option_bind] in Hc |- *.
      etransitivity; [exact Hc|]. cbn [nonempty List.length after]. by destruct pn.
  - apply orb_false_iff in Ebr as [E1 E2]. rewrite scan_scalar in Ht. unfold follows.
    destruct (scalar (String c r)) as [[v t]|] eqn:Es; [|by apply Run_stuck]. cbn [fmap option_fmap option_map mbind option_bind snd] in Ht.
    rewrite (Run_turn start _ eq_refl Ht). destruct (scalar_flat _ _ _ Es) as [Hv Hn]. rewrite Hv, Hn, orb_false_r.
    by destruct pn; rewrite app_nil_r.
Qed.

Lemma scan_container c r : Ascii.eqb c "{" || (allowArrayRoot opts && Ascii.eqb c "[") = true ->
  match parseValue maxDuplicateKeyScanDepth (String c r) with
  | Some (v, _) =>
      scanContainerKeys opts (Ascii.eqb c "{") r =
      mkScan (ambiguous 1 v) (match v with VObject ms => names_of 1 ms | _ => [] end) true
  | None => aborted (scanContainerKeys opts (Ascii.eqb c "{") r)
  end.
Proof.
  intros Hc. pose proof (container_follows (pred maxDuplicateKeyScanDepth) (Ascii.eqb c "{") r [] false [] (values_follow _) eq_refl) as Hf.
  rewrite parseValue_cons. destruct (Ascii.eqb_spec c dquote) as [->|]; [by destruct (allowArrayRoot opts)|].
  assert (Ascii.eqb c "{" || Ascii.eqb c "[" = true) as -> by (destruct (Ascii.eqb c "{"), (Ascii.eqb c "["), (allowArrayRoot opts); done).
  unfold follows in Hf. change (pred maxDuplicateKeyScanDepth) with 511 in *. change maxDuplicateKeyScanDepth with (S 511). cbn iota.
  destruct (if Ascii.eqb c "{" then _ else _) as [[v t]|]; exact Hf.
Qed.

(** ** Readings *)

Lemma repeats_false ks : forall sn, repeats sn ks = false <-> NoDup ks /\ forall k, k ∈ ks -> k ∉ sn.
Proof.
  induction ks as [|k ks IH]; intros sn; cbn [repeats].
  { split; [|done]. split; [constructor | by intros k ?%elem_of_nil]. }
  rewrite orb_false_iff, bool_decide_eq_false, IH, NoDup_cons. split.
  - intros (Hk & Hnd & Hin). split_and!; [|done|].
    + intros Hks. apply (Hin k Hks). set_solver.
    + intros k' [->|Hk']%elem_of_cons; [done|]. specialize (Hin k' Hk'). set_solver.
  - intros ((Hk & Hnd) & Hin). split_and!; [apply Hin; set_solver | done|].
    intros k' Hk' [->%elem_of_singleton|Hs]%elem_of_union; [done|]. apply (Hin k'); set_solver.
Qed.

(** No object has two members under one name. *)
Fixpoint distinct (depth : nat) (v : value) : Prop :=
  match v with
  | VObject ms =>
      NoDup (canons depth ms) /\
      (fix each (l : list (string * value)) := match l with [] => True | (_, v) :: l => distinct (S depth) v /\ each l end) ms
  | VArray l => (fix each (l : list value) := match l with [] => True | v :: l => distinct (S depth) v /\ each l end) l
  | _ => True
  end.

Lemma distinct_object depth ms :
  distinct depth (VObject ms) <-> NoDup (canons depth ms) /\ Forall (fun kv => distinct (S depth) (snd kv)) ms.
Proof.
  cbn [distinct]. apply and_iff_compat_l. induction ms as [|[k v] ms IH]; [by split|]. by rewrite Forall_cons, IH.
Qed.

Lemma distinct_array depth l : distinct depth (VArray l) <-> Forall (distinct (S depth)) l.
Proof. cbn [distinct]. induction l as [|v l IH]; [by split|]. by rewrite Forall_cons, IH. Qed.

Lemma ambiguous_false v : forall depth, ambiguous depth v = false <-> distinct depth v.
Proof.
  induction v as [| | | | | | | |l IH|ms IH] using value_tree_ind; intros depth; try done.
  - rewrite distinct_array. cbn [ambiguous]. induction IH as [|v l Hv _ IHl]; [done|].
    cbn [existsb]. by rewrite orb_false_iff, Hv, Forall_cons, IHl.
  - rewrite distinct_object. cbn [ambiguous]. rewrite orb_false_iff, repeats_false. f_equiv.
    + split; [by intros [? _]|]. intros Hnd. split; [done|]. intros k _. apply not_elem_of_empty.
    + induction IH as [|[k v] l Hv _ IHl]; [done|]. cbn [existsb snd]. by rewrite orb_false_iff, Hv, Forall_cons, IHl.
Qed.

Lemma elem_of_names_of k ms n :
  n ∈ names_of k ms <-> n <> "" /\ exists key, (key, VString n) ∈ ms /\ names_member opts k (canonicalize opts key k) = true.
Proof.
  unfold names_of. rewrite list_elem_of_In, in_flat_map. split.
  - intros ([key v] & Hin%list_elem_of_In & Hn). cbn [fst snd] in Hn. destruct (names_member _ _ _) eqn:E; [|done].
    destruct v; cbn in Hn; try done. destruct (String.eqb_spec s ""); [done|]. destruct Hn as [->|[]]. eauto.
  - intros (Hne & key & Hin & Hm). exists (key, VString n). split; [by apply list_elem_of_In|]. cbn [fst snd]. rewrite Hm. cbn.
    destruct (String.eqb_spec n ""); [done|]. by left.
Qed.

End walk.

Section entries.
Context `{Unicode}.

(** Keys below the root of an entry are compared as they are. *)
Definition entryOpts : jsonKeyScanOpts := mkOpts false None.

(** A parser that looks for the field [f], exactly or ignoring case, and takes the first or the
    last member that fits, can read [v]. *)
Definition can_read (f : string) (ms : list (string * value)) (v : value) : Prop :=
  exists k, (k, v) ∈ ms /\ FoldJSONKey k = FoldJSONKey f.

Lemma NoDup_fold {A B} (f : A -> B) l : NoDup (map f l) -> forall x y, x ∈ l -> y ∈ l -> f x = f y -> x = y.
Proof.
  induction l as [|a l IH]; cbn [map]; intros Hnd x y Hx Hy Hf; [by apply elem_of_nil in Hx|].
  apply NoDup_cons in Hnd as [Hn Hnd]. apply elem_of_cons in Hx as [->|Hx], Hy as [->|Hy]; [done | | | by apply IH];
    destruct Hn; apply list_elem_of_In, in_map_iff; eexists; (split; [|by apply list_elem_of_In]); done.
Qed.

(** What the scan of an entry answers, from the tree the decoder reads within its bound. *)
Lemma entry_scan_spec raw :
  match parseValue maxDuplicateKeyScanDepth (skipSpace raw) with
  | Some (VObject ms, _) =>
      scanToolEntry raw = mkScan (ambiguous entryOpts 1 (VObject ms)) (names_of entryOpts 1 ms) true
  | Some _ => untrustworthy (scanToolEntry raw) = true /\ names (scanToolEntry raw) = []
  | None => untrustworthy (scanToolEntry raw) = true /\
      (namesComplete (scanToolEntry raw) = true -> names (scanToolEntry raw) = [] /\ ~ first_is "{" raw)
  end.
Proof.
  unfold scanToolEntry, scanJSONKeys, skipJSONSpace, classifyNonContainerRoot. fold entryOpts.
  destruct (skipSpace raw) as [|c r] eqn:E; [done|]. cbn [allowArrayRoot entryOpts andb]. rewrite orb_false_r.
  destruct (Ascii.eqb_spec c "{") as [->|Hc].
  - pose proof (scan_container entryOpts "{" r eq_refl) as Hs. change (Ascii.eqb "{" "{") with true in *.
    destruct (parseValue _ _) as [[v t]|] eqn:Ep; [|by destruct Hs as [-> ->]].
    rewrite parseValue_cons in Ep. change maxDuplicateKeyScanDepth with (S 511) in Ep.
    change (Ascii.eqb "{" dquote) with false in Ep. change (Ascii.eqb "{" "{" || Ascii.eqb "{" "[") with true in Ep. cbn iota in Ep.
    apply bind_Some in Ep as ([ms t'] & _ & [= <- <-]). done.
  - destruct (parseValue maxDuplicateKeyScanDepth (String c r)) as [[[] t]|] eqn:Ep; try done.
    + apply parseValue_object in Ep as (r' & d' & [= -> _] & _). done.
    + split; [done|]. intros _. split; [done|]. intros (r' & E'). rewrite E in E'. by injection E' as ->.
Qed.

Lemma shallow_deep raw v t d : parseValue maxDuplicateKeyScanDepth (skipSpace raw) = Some (v, t) ->
  maxDuplicateKeyScanDepth <= d -> parseValue d (skipSpace raw) = Some (v, t).
Proof. intros E Hd. by apply (parseValue_deeper _ _ Hd). Qed.

(** The members of an object that every parser reads alike. *)
Definition clear (ms : list (string * value)) : Prop :=
  NoDup (map (fun kv => FoldJSONKey (fst kv)) ms) /\ Forall (fun kv => distinct entryOpts 2 (snd kv)) ms.

Lemma shallow_in_limit : maxDuplicateKeyScanDepth <= maxNestingDepth.
Proof. unfold maxDuplicateKeyScanDepth, maxNestingDepth. lia. Qed.

Lemma scan_clears raw : untrustworthy (scanToolEntry raw) = false <->
  exists ms t, parseValue maxDuplicateKeyScanDepth (skipSpace raw) = Some (VObject ms, t) /\ clear ms.
Proof.
  pose proof (entry_scan_spec raw) as Hs. destruct (parseValue maxDuplicateKeyScanDepth (skipSpace raw)) as [[v t]|].
  2: { destruct Hs as [-> _]. split; [done | by intros (? & ? & [=] & _)]. }
  destruct v as [| | | | | | | | |ms0]; try (destruct Hs as [-> _]; split; [done | by intros (? & ? & [=] & _)]).
  rewrite Hs. cbn [untrustworthy]. rewrite ambiguous_false, distinct_object.
  change (canons entryOpts 1 ms0) with (map (fun kv => FoldJSONKey (fst kv)) ms0).
  split; [intros Hd; by exists ms0, t | by intros (ms & t' & [= <- <-] & Hd)].
Qed.

Lemma scan_names raw ms t n : parseValue maxNestingDepth (skipSpace raw) = Some (VObject ms, t) ->
  namesComplete (scanToolEntry raw) = true ->
  n ∈ names (scanToolEntry raw) <-> n <> "" /\ can_read jsonKeyName ms (VString n).
Proof.
  intros Ep Hc. pose proof (entry_scan_spec raw) as Hs.
  destruct (parseValue maxDuplicateKeyScanDepth (skipSpace raw)) as [[v t']|] eqn:E.
  - apply (shallow_deep _ _ _ maxNestingDepth) in E; [|apply shallow_in_limit]. rewrite Ep in E. injection E as <- <-.
    rewrite Hs. cbn [names]. rewrite elem_of_names_of. unfold can_read, names_member. cbn [foldKeys entryOpts].
    rewrite bool_decide_true by done. cbn [andb Nat.eqb canonicalize foldKeys entryOpts]. by setoid_rewrite String.eqb_eq.
  - destruct Hs as [_ Hs]. destruct (Hs Hc) as [_ []]. apply parseValue_object in Ep as (r & _ & Er & _). by exists r.
Qed.

Lemma clear_one_reading ms f v v' : clear ms -> can_read f ms v -> can_read f ms v' -> v = v'.
Proof.
  intros [Hnd _] (k & Hk & Hf) (k' & Hk' & Hf').
  assert ((k, v) = (k', v')) as [= _ ->]; [|done]. apply (NoDup_fold _ _ Hnd); [done | done|]. cbn [fst]. by rewrite Hf, Hf'.
Qed.

(** The tree of a cleared entry. *)
Lemma scan_clear_tree raw ms t : parseValue maxNestingDepth (skipSpace raw) = Some (VObject ms, t) ->
  untrustworthy (scanToolEntry raw) = false -> clear ms.
Proof.
  intros Ep (ms' & t' & E & Hc)%scan_clears. apply (shallow_deep _ _ _ maxNestingDepth) in E; [|apply shallow_in_limit].
  rewrite Ep in E. by injection E as <- <-.
Qed.

(** C28: The scan of an entry of a list is exact.  It clears the entry exactly when encoding/json reads
    an object from it, at most 512 containers deep, in which no two root keys fold together and no
    nested object repeats a key.  Whenever it says that it saw every name, the names it reports are
    those that any parser, minding case or not and taking the first or the last of several, could
    take for the entry's name.  And of a cleared entry all such parsers read the same: for every
    field there is at most one value to read. *)
Theorem entry_scan_exact raw :
  let o := scanToolEntry raw in
  (untrustworthy o = false <->
     exists ms t, parseValue maxDuplicateKeyScanDepth (skipSpace raw) = Some (VObject ms, t) /\
       clear ms) /\
  forall ms t, parseValue maxNestingDepth (skipSpace raw) = Some (VObject ms, t) ->
    (namesComplete o = true -> forall n, n ∈ names o <-> n <> "" /\ can_read jsonKeyName ms (VString n)) /\
    (untrustworthy o = false -> forall f v v', can_read f ms v -> can_read f ms v' -> v = v').
Proof.
  cbv zeta. split; [apply scan_clears|]. intros ms t Ep. split; [intros Hc n; by eapply scan_names|].
  intros Hu f v v'. apply clear_one_reading. by eapply scan_clear_tree.
Qed.

End entries.
End KeyScan.
