(* ===== verification/ToolSurface.v ===== *)
(** * The surface of a tool and its hash

    pkg/capability/description_hash.go and [SurfaceHash] of internal/pdp/surface_pin.go: the
    strings of a tool that a host shows to its model, collected under canonical keys and hashed.
    SHA-256 (with its hexadecimal rendering) and [json.Marshal] of the annotations are
    parameters.

    A schema is a decoded object: its members, one per key.  The recursion over a schema is on
    the depth that is left of the bound. *)
From stdpp Require Import base tactics list gmap strings sorting.
From Stdlib Require Import ZArith Lia Ascii String.
From S2P Require Import Prelude GoStrings GoPath Truncate Runes Capability CaseFold Numeric JSON.
#[local] Open Scope string_scope.
#[local] Arguments String.append : simpl nomatch.
Import GoPath Truncate Runes Capability CaseFold Numeric JSON.

Module ToolSurface.

(** ** Framing *)

(** [binary.BigEndian.PutUint64]. *)
Fixpoint be_bytes (n : nat) (z : Z) : string :=
  match n with
  | O => ""
  | S n => be_bytes n (z / 256) ++ String (byte (z mod 256)) ""
  end.

Definition lenPrefix (s : string) : string := be_bytes 8 (len s).

Definition writeLenPrefixed (s : string) : string := lenPrefix s ++ s.

Definition segKeyword : ascii := "K".
Definition segName : ascii := "N".
Definition segIndex : ascii := "i".

Definition frameSeg (prefix : string) (tag : ascii) (seg : string) : string :=
  prefix ++ String tag (lenPrefix seg ++ seg).

Definition nul (s : string) : string := String (ascii_of_nat 0) s.

Definition paramDescriptionOverflowKey : string := nul "depth-exceeded".
Definition paramRootDescriptionKey : string := nul "root-description".
Definition toolTitleKey : string := nul "tool-title".
Definition toolAnnotationsKey : string := nul "tool-annotations".
Definition outputSchemaKeyPrefix : string := nul "output-schema:".

Definition maxParamDescriptionDepth : nat := 64.

Definition schemaMapKeywords : list string :=
  ["properties"; "patternProperties"; "$defs"; "definitions"; "dependentSchemas"; "dependencies"].
Definition schemaArrayKeywords : list string := ["allOf"; "anyOf"; "oneOf"; "prefixItems"].
Definition schemaSingleKeywords : list string :=
  ["additionalProperties"; "unevaluatedProperties"; "additionalItems"; "unevaluatedItems";
   "propertyNames"; "contains"; "not"; "if"; "then"; "else"; "contentSchema"].

(** ** Collecting the descriptions *)

Abbreviation node := (list (string * value)).

Definition lookupKey (k : string) (n : node) : option value := lastOf k n.

(** Where a subschema hangs: under a keyword, under a name or at an index of it. *)
Inductive step := SKeyword (kw : string) | SName (kw name : string) | SIndex (kw : string) (i : nat).

Definition frameStep (prefix : string) (s : step) : string :=
  match s with
  | SKeyword kw => frameSeg prefix segKeyword kw
  | SName kw name => frameSeg (frameSeg prefix segKeyword kw) segName name
  | SIndex kw i => frameSeg (frameSeg prefix segKeyword kw) segIndex (itoa (Z.of_nat i))
  end.

Definition asObject (v : value) : option node := match v with VObject m => Some m | _ => None end.

Definition namedSchemas (kw : string) (m : node) : list (step * node) :=
  omap (fun kv => n ← asObject (snd kv); Some (SName kw (fst kv), n)) m.

Definition indexedSchemas (kw : string) (l : list value) : list (step * node) :=
  List.concat (imap (fun i v => match asObject v with Some n => [(SIndex kw i, n)] | None => [] end) l).

Definition mapSchemas (n : node) (kw : string) : list (step * node) :=
  match lookupKey kw n with Some (VObject m) => namedSchemas kw m | _ => [] end.
Definition arraySchemas (n : node) (kw : string) : list (step * node) :=
  match lookupKey kw n with Some (VArray l) => indexedSchemas kw l | _ => [] end.
Definition singleSchema (n : node) (kw : string) : list (step * node) :=
  match lookupKey kw n with Some (VObject m) => [(SKeyword kw, m)] | _ => [] end.
Definition itemSchemas (n : node) : list (step * node) := (singleSchema n "items" ++ arraySchemas n "items")%list.

(** The subschemas of a schema, in the order the code visits them. *)
Definition subschemas (n : node) : list (step * node) :=
  (flat_map (mapSchemas n) schemaMapKeywords ++ flat_map (arraySchemas n) schemaArrayKeywords ++
   flat_map (singleSchema n) schemaSingleKeywords ++ itemSchemas n)%list.

Definition description (n : node) : option string :=
  match lookupKey "description" n with Some (VString d) => if String.eqb d "" then None else Some d | _ => None end.

Definition insert_opt (k : string) (d : option string) (out : gmap string string) : gmap string string :=
  match d with Some d => <[k := d]> out | None => out end.

(** [room] is what is left of the depth. *)
Fixpoint collectParamDescriptions (room : nat) (n : node) (prefix : string) (out : gmap string string)
    : gmap string string :=
  fold_left (fun out '(s, sub) =>
    let path := frameStep prefix s in
    match room with
    | O => <[paramDescriptionOverflowKey := "depth-exceeded"]> out
    | S room => collectParamDescriptions room sub path (insert_opt path (description sub) out)
    end) (subschemas n) out.

Definition ParamDescriptions (schema : node) : gmap string string :=
  collectParamDescriptions maxParamDescriptionDepth schema "" (insert_opt paramRootDescriptionKey (description schema) ∅).

Section hash.
Context (sha256 : string -> string) (Marshal : node -> option string).

Definition annotationText (annotations : node) : string :=
  default (nul "unserializable-annotations") (Marshal annotations).

Definition ToolHashParams (title : string) (annotations inputSchema outputSchema : node) : gmap string string :=
  let out := ParamDescriptions inputSchema in
  let out := if String.eqb title "" then out else <[toolTitleKey := title]> out in
  let out := match annotations with [] => out | _ => <[toolAnnotationsKey := annotationText annotations]> out end in
  kmap (fun k => outputSchemaKeyPrefix ++ k) (ParamDescriptions outputSchema) ∪ out.

(** The bytes that are hashed. *)
Definition toolHashInput (description : string) (params : gmap string string) : string :=
  writeLenPrefixed description ++
  String.concat "" (map (fun name => writeLenPrefixed name ++ writeLenPrefixed (default "" (params !! name)))
    (sort_strings (elements (dom params)))).

Definition ComputeToolHash (description : string) (params : gmap string string) : string :=
  "sha256:" ++ sha256 (toolHashInput description params).

Definition SurfaceHash (description title : string) (annotations inputSchema outputSchema : node) : string :=
  ComputeToolHash description (ToolHashParams title annotations inputSchema outputSchema).

End hash.

(** ** The framing is injective *)

(** Short enough for its length to be written in eight bytes. *)
Definition fits (s : string) : Prop := (len s < 2 ^ 64)%Z.

Lemma be_bytes_length n : forall z, String.length (be_bytes n z) = n.
Proof. induction n as [|n IH]; intros z; cbn [be_bytes]; [done|]. rewrite str_length_app, IH. cbn. lia. Qed.

Lemma be_bytes_inj n : forall a b, (0 <= a < 256 ^ Z.of_nat n)%Z -> (0 <= b < 256 ^ Z.of_nat n)%Z ->
  be_bytes n a = be_bytes n b -> a = b.
Proof.
  induction n as [|n IH]; intros a b Ha Hb; cbn [be_bytes]; [cbn in *; lia|]. intros E.
  apply str_app_inj_len in E as [E1 E2]; [|by rewrite !be_bytes_length]. injection E2 as E2.
  pose proof (Z.mod_pos_bound a 256 ltac:(lia)). pose proof (Z.mod_pos_bound b 256 ltac:(lia)).
  apply (f_equal byte_val) in E2. rewrite !byte_val_byte in E2 by lia.
  assert (256 ^ Z.of_nat (S n) = 256 * 256 ^ Z.of_nat n)%Z as Hp by (rewrite Nat2Z.inj_succ, Z.pow_succ_r; lia).
  rewrite (Z.div_mod a 256), (Z.div_mod b 256), E2 by lia. do 2 f_equal. apply IH; [| |done].
  - split; [apply Z.div_pos; lia | apply Z.div_lt_upper_bound; lia].
  - split; [apply Z.div_pos; lia | apply Z.div_lt_upper_bound; lia].
Qed.

Lemma writeLenPrefixed_inj a b x y : fits a -> fits b ->
  writeLenPrefixed a ++ x = writeLenPrefixed b ++ y -> a = b /\ x = y.
Proof.
  unfold fits, writeLenPrefixed, lenPrefix. intros Ha Hb. rewrite !str_app_assoc. intros E.
  apply str_app_inj_len in E as [E1 E2]; [|by rewrite !be_bytes_length].
  apply be_bytes_inj in E1; [|change (256 ^ Z.of_nat 8)%Z with (2 ^ 64)%Z; pose proof (len_nonneg a); pose proof (len_nonneg b); lia ..].
  apply str_app_inj_len in E2; [done|]. unfold len in E1. lia.
Qed.

(** *** Paths *)

Definition frames (prefix : string) (p : list step) : string := fold_left frameStep p prefix.

(** The segments a step writes. *)
Definition segs (s : step) : list (ascii * string) :=
  match s with
  | SKeyword kw => [(segKeyword, kw)]
  | SName kw name => [(segKeyword, kw); (segName, name)]
  | SIndex kw i => [(segKeyword, kw); (segIndex, itoa (Z.of_nat i))]
  end.

Definition seg_text (sg : ascii * string) : string := String (fst sg) (writeLenPrefixed (snd sg)).
Definition segs_text (l : list (ascii * string)) : string := String.concat "" (map seg_text l).

Lemma segs_text_cons sg l : segs_text (sg :: l) = seg_text sg ++ segs_text l.
Proof. unfold segs_text. cbn [map]. apply concat_cons. Qed.

Lemma segs_text_app l l' : segs_text (l ++ l')%list = segs_text l ++ segs_text l'.
Proof. induction l as [|sg l IH]; [done|]. cbn [app]. by rewrite !segs_text_cons, IH, str_app_assoc. Qed.

Lemma frameStep_text prefix s : frameStep prefix s = prefix ++ segs_text (segs s).
Proof.
  destruct s; cbn [frameStep segs]; unfold frameSeg; rewrite ?segs_text_cons; unfold seg_text, writeLenPrefixed; cbn [fst snd];
    change (segs_text []) with ""; rewrite ?str_app_nil, ?str_app_assoc; done.
Qed.

Lemma frames_text p : forall prefix, frames prefix p = prefix ++ segs_text (flat_map segs p).
Proof.
  induction p as [|s p IH]; intros prefix; cbn [frames fold_left flat_map].
  - change (segs_text []) with "". by rewrite str_app_nil.
  - fold (frames (frameStep prefix s) p). by rewrite IH, frameStep_text, segs_text_app, str_app_assoc.
Qed.

Lemma str_cons_inj c d x y : String c x = String d y -> c = d /\ x = y.
Proof. by intros [= -> ->]. Qed.

Lemma segs_text_inj l : forall l', fits (segs_text l) -> segs_text l = segs_text l' -> l = l'.
Proof.
  assert (forall sg l, fits (segs_text (sg :: l)) -> fits (snd sg) /\ fits (segs_text l)) as Hfit.
  { intros [t x] l0. unfold fits. rewrite segs_text_cons. unfold seg_text, writeLenPrefixed. cbn [fst snd].
    change (String t ?y ++ ?z) with (String t (y ++ z)). unfold len. cbn [String.length]. rewrite !str_length_app. lia. }
  induction l as [|[t x] l IH]; intros [|[t' x'] l'] Hf E; [done | | |]; rewrite ?segs_text_cons in E; try done.
  pose proof (Hfit _ _ Hf) as [Hx Hl]. assert (fits (segs_text ((t', x') :: l'))) as Hf' by by rewrite segs_text_cons, <- E, <- segs_text_cons.
  apply Hfit in Hf' as [Hx' _]. unfold seg_text in E. cbn [fst snd] in *.
  change (String t ?y ++ ?z) with (String t (y ++ z)) in E. change (String t' ?y ++ ?z) with (String t' (y ++ z)) in E.
  apply str_cons_inj in E as [-> E]. apply writeLenPrefixed_inj in E as [-> E]; [|done|done]. f_equal. by apply IH.
Qed.

(** Each step begins with the one keyword segment it has. *)
Lemma segs_inj p : forall p', flat_map segs p = flat_map segs p' -> p = p'.
Proof.
  assert (forall p t x l, flat_map segs p = (t, x) :: l -> t = segKeyword) as Hhd.
  { intros [|[] q] t x l; cbn; [done | by intros [= <- _ _] ..]. }
  induction p as [|s p IH]; intros [|s' p'] E; cbn [flat_map] in E; [done | by destruct s' | by destruct s|].
  destruct s as [kw|kw nm|kw i], s' as [kw'|kw' nm'|kw' i']; cbn [segs app] in E; try (injection E as -> E);
    try (by apply Hhd in E); try (symmetry in E; by apply Hhd in E); try (discriminate E); [f_equal; by apply IH | |].
  - subst nm'. f_equal. by apply IH.
  - apply itoa_inj in E. assert (i = i') as -> by lia. f_equal. by apply IH.
Qed.

Lemma frames_inj p p' : fits (frames "" p) -> frames "" p = frames "" p' -> p = p'.
Proof.
  rewrite !frames_text. cbn [String.append]. intros Hf E. apply segs_inj. by apply segs_text_inj.
Qed.

(** ** What is collected *)

Definition asArray (v : value) : option (list value) := match v with VArray l => Some l | _ => None end.

(** The subschema that hangs at a step. *)
Definition child (n : node) (s : step) : option node :=
  match s with
  | SKeyword kw => if one_of kw ("items" :: schemaSingleKeywords) then lookupKey kw n ≫= asObject else None
  | SName kw name =>
      if one_of kw schemaMapKeywords then (v ← lookupKey kw n; m ← asObject v; w ← lookupKey name m; asObject w) else None
  | SIndex kw i =>
      if one_of kw ("items" :: schemaArrayKeywords) then (v ← lookupKey kw n; l ← asArray v; w ← l !! i; asObject w) else None
  end.

Fixpoint node_at (n : node) (p : list step) : option node :=
  match p with
  | [] => Some n
  | s :: p => child n s ≫= (fun sub => node_at sub p)
  end.

(** The description at a path, within the depth that is hashed. *)
Definition description_at (n : node) (p : list step) : option string :=
  if (List.length p <=? maxParamDescriptionDepth)%nat then node_at n p ≫= description else None.

Definition too_deep (n : node) : Prop := exists p, List.length p = S maxParamDescriptionDepth /\ is_Some (node_at n p).

(** The same, as the code enumerates subschemas. *)
Fixpoint reach (n : node) (p : list step) (m : node) : Prop :=
  match p with
  | [] => m = n
  | s :: p => exists sub, (s, sub) ∈ subschemas n /\ reach sub p m
  end.

Lemma elem_of_named kw m s sub :
  (s, sub) ∈ namedSchemas kw m <-> exists name, s = SName kw name /\ (name, VObject sub) ∈ m.
Proof.
  unfold namedSchemas. rewrite list_elem_of_omap. split.
  - intros ([name v] & Hin & E). cbn in E. destruct v; cbn in E; try done. injection E as <- <-. eauto.
  - intros (name & -> & Hin). by exists (name, VObject sub).
Qed.

Lemma elem_of_indexed kw l s sub :
  (s, sub) ∈ indexedSchemas kw l <-> exists i, s = SIndex kw i /\ l !! i = Some (VObject sub).
Proof.
  unfold indexedSchemas. rewrite list_elem_of_In, in_concat. setoid_rewrite <- list_elem_of_In.
  split.
  - intros (x & Hx & Hin). apply elem_of_lookup_imap in Hx as (i & v & -> & Hi).
    destruct v; cbn in Hin; try (by apply elem_of_nil in Hin). apply list_elem_of_singleton in Hin as [= -> ->]. eauto.
  - intros (i & -> & Hi). exists [(SIndex kw i, sub)]. split; [|by apply list_elem_of_singleton].
    apply elem_of_lookup_imap. by exists i, (VObject sub).
Qed.

Lemma elem_of_map_schemas n kw s sub : unique (VObject n) ->
  (s, sub) ∈ mapSchemas n kw <->
  exists name, s = SName kw name /\ (v ← lookupKey kw n; m ← asObject v; w ← lookupKey name m; asObject w) = Some sub.
Proof.
  intros Hu. unfold mapSchemas. destruct (lookupKey kw n) as [v|] eqn:E; [|split; [by intros ?%elem_of_nil | by intros (? & _ & ?)]].
  destruct v as [| | | | | | | | |m]; try (split; [by intros ?%elem_of_nil | by intros (? & _ & ?)]).
  rewrite elem_of_named. cbn [mbind option_bind asObject]. f_equiv. intros name. f_equiv.
  apply lastOf_elem in E. apply unique_object in Hu as [_ Hu]. rewrite Forall_forall in Hu. specialize (Hu _ E).
  cbn [snd] in Hu. apply unique_object in Hu as [Hnd _]. split.
  - intros Hin. unfold lookupKey. by rewrite (lastOf_unique _ _ _ Hnd Hin).
  - intros Hc. apply bind_Some in Hc as (v & Hv & Ho). destruct v; try done. injection Ho as ->. by apply lastOf_elem.
Qed.

Lemma elem_of_array_schemas n kw s sub :
  (s, sub) ∈ arraySchemas n kw <->
  exists i, s = SIndex kw i /\ (v ← lookupKey kw n; l ← asArray v; w ← l !! i; asObject w) = Some sub.
Proof.
  unfold arraySchemas. destruct (lookupKey kw n) as [v|]; [|split; [by intros ?%elem_of_nil | by intros (? & _ & ?)]].
  destruct v as [| | | | | | | |l|]; try (split; [by intros ?%elem_of_nil | by intros (? & _ & ?)]).
  rewrite elem_of_indexed. cbn [mbind option_bind asArray]. f_equiv. intros i. f_equiv.
  destruct (l !! i) as [v|]; [|done]. destruct v; cbn; split; congruence.
Qed.

Lemma elem_of_single n kw s sub :
  (s, sub) ∈ singleSchema n kw <-> s = SKeyword kw /\ lookupKey kw n ≫= asObject = Some sub.
Proof.
  unfold singleSchema. destruct (lookupKey kw n) as [v|]; [|split; [by intros ?%elem_of_nil | by intros (_ & ?)]].
  destruct v as [| | | | | | | | |m]; try (split; [by intros ?%elem_of_nil | by intros (_ & ?)]).
  rewrite list_elem_of_singleton. cbn. split; [by intros [= -> ->] | by intros [-> [= ->]]].
Qed.

Lemma elem_of_flat_map {A B} (f : A -> list B) l x : x ∈ flat_map f l <-> exists y, y ∈ l /\ x ∈ f y.
Proof. rewrite list_elem_of_In, in_flat_map. by setoid_rewrite <- list_elem_of_In. Qed.

Lemma child_spec n s sub : unique (VObject n) -> (s, sub) ∈ subschemas n <-> child n s = Some sub.
Proof.
  intros Hu. unfold subschemas, itemSchemas. rewrite !elem_of_app, !elem_of_flat_map.
  setoid_rewrite (fun kw => elem_of_map_schemas n kw s sub Hu). setoid_rewrite elem_of_array_schemas. setoid_rewrite elem_of_single.
  assert (forall kw l (o : option node), (if one_of kw l then o else None) = Some sub <-> kw ∈ l /\ o = Some sub) as Hone.
  { intros kw l o. rewrite <- one_of_spec. destruct (one_of kw l); naive_solver. }
  destruct s as [kw|kw name|kw i]; cbn [child]; rewrite Hone, ?elem_of_cons; naive_solver.
Qed.

Lemma child_unique n s sub : unique (VObject n) -> child n s = Some sub -> unique (VObject sub).
Proof.
  assert (forall k m v, unique (VObject m) -> lookupKey k m = Some v -> unique v) as Hlook.
  { intros k m v Hm E. apply lastOf_elem in E. apply unique_object in Hm as [_ Hm]. rewrite Forall_forall in Hm. by apply (Hm (k, v)). }
  intros Hu. destruct s as [kw|kw name|kw i]; cbn [child]; (destruct (one_of _ _); [|done]); intros E.
  - apply bind_Some in E as (v & Ev & Eo). destruct v; try done. injection Eo as ->. by eapply Hlook.
  - apply bind_Some in E as (v & Ev & E). apply bind_Some in E as (m & Em & E). apply bind_Some in E as (w & Ew & Eo).
    destruct v; try done. injection Em as ->. destruct w; try done. injection Eo as ->. eapply Hlook; [|exact Ew]. by eapply Hlook.
  - apply bind_Some in E as (v & Ev & E). apply bind_Some in E as (l & El & E). apply bind_Some in E as (w & Ew & Eo).
    destruct v; try done. injection El as ->. destruct w; try done. injection Eo as ->.
    apply Hlook in Ev; [|done]. apply unique_array in Ev. rewrite Forall_forall in Ev. apply Ev. by eapply list_elem_of_lookup_2.
Qed.

Lemma reach_node_at p : forall n m, unique (VObject n) -> reach n p m <-> node_at n p = Some m.
Proof.
  induction p as [|s p IH]; intros n m Hu; cbn [reach node_at]; [naive_solver|]. rewrite bind_Some. f_equiv. intros sub.
  rewrite child_spec by done. split; intros [Hc Hr]; (split; [done|]); (apply IH in Hr; [done|]); by eapply child_unique.
Qed.

(** *** The walk *)

Definition deep (room : nat) (n : node) : Prop := exists p m, List.length p = S room /\ reach n p m.

Definition described (room : nat) (n : node) (prefix key v : string) : Prop :=
  exists p m, p <> [] /\ (List.length p <= room)%nat /\ reach n p m /\ description m = Some v /\ key = frames prefix p.

Section folds.
Context {A : Type} (f : gmap string string -> A -> gmap string string) (key : string).

Lemma fold_only (v : string) (Q : Prop) l : forall out,
  (forall out x, x ∈ l -> f out x !! key = Some v -> out !! key = Some v \/ Q) ->
  fold_left f l out !! key = Some v -> out !! key = Some v \/ Q.
Proof.
  induction l as [|x l IH]; intros out Hf; cbn [fold_left]; [by left|]. intros E.
  apply IH in E as [E|E]; [|by right | by intros out' y Hy; apply Hf; right]. apply Hf in E; [done | by left].
Qed.

Lemma fold_keeps l : forall out, (forall out x, is_Some (out !! key) -> is_Some (f out x !! key)) ->
  is_Some (out !! key) -> is_Some (fold_left f l out !! key).
Proof. induction l as [|x l IH]; intros out Hf Ho; [done|]. cbn [fold_left]. apply IH; [done|]. by apply Hf. Qed.

Lemma fold_adds x l : forall out, (forall out x, is_Some (out !! key) -> is_Some (f out x !! key)) ->
  x ∈ l -> (forall out, is_Some (f out x !! key)) -> is_Some (fold_left f l out !! key).
Proof.
  induction l as [|y l IH]; intros out Hf Hx Hadd; [by apply elem_of_nil in Hx|]. cbn [fold_left].
  apply elem_of_cons in Hx as [->|Hx]; [by apply fold_keeps | by apply IH].
Qed.

End folds.

(** Every entry of the result was there, is a description at its path, or marks excess depth. *)
Lemma collect_only room : forall n prefix out key v, collectParamDescriptions room n prefix out !! key = Some v ->
  out !! key = Some v \/ (key = paramDescriptionOverflowKey /\ deep room n) \/ described room n prefix key v.
Proof.
  induction room as [|room IH]; intros n prefix out key v; cbn [collectParamDescriptions]; apply fold_only;
    clear out; intros out [s sub] Hs E.
  - destruct (decide (key = paramDescriptionOverflowKey)) as [->|Hk]; [|rewrite lookup_insert_ne in E by done; by left].
    right. left. split; [done|]. exists [s], sub. split; [done|]. by exists sub.
  - apply IH in E as [E|[[Hk (p & m & Hp & Hr)]|(p & m & Hne & Hp & Hr & Hd & Hk)]].
    + unfold insert_opt in E. destruct (description sub) as [d|] eqn:Ed; [|by left].
      destruct (decide (key = frameStep prefix s)) as [->|Hk]; [|rewrite lookup_insert_ne in E by done; by left].
      rewrite lookup_insert_eq in E. injection E as ->. right. right. exists [s], sub. split_and!; [done | cbn; lia | | done | done].
      by exists sub.
    + right. left. split; [done|]. exists (s :: p), m. split; [cbn; lia|]. by exists sub.
    + right. right. exists (s :: p), m. split_and!; [done | cbn; lia | by exists sub | done | done].
Qed.

Lemma collect_keeps room : forall n prefix out key,
  is_Some (out !! key) -> is_Some (collectParamDescriptions room n prefix out !! key).
Proof.
  assert (forall k (d : option string) (out : gmap string string) key, is_Some (out !! key) -> is_Some (insert_opt k d out !! key)) as Hi.
  { intros k [d|] out key Ho; [|done]. cbn. destruct (decide (key = k)) as [->|]; [by rewrite lookup_insert_eq | by rewrite lookup_insert_ne]. }
  induction room as [|room IH]; intros n prefix out key; cbn [collectParamDescriptions]; apply fold_keeps;
    clear out; intros out [s sub] Ho.
  - by apply (Hi _ (Some "depth-exceeded")).
  - by apply IH, Hi.
Qed.

(** Nothing within the depth is left out, and excess depth is marked. *)
Lemma collect_all room : forall n prefix out key,
  (key = paramDescriptionOverflowKey /\ deep room n \/ exists v, described room n prefix key v) ->
  is_Some (collectParamDescriptions room n prefix out !! key).
Proof.
  induction room as [|room IH]; intros n prefix out key.
  - intros [(-> & [|s p] & m & Hp & Hr)|(v & [|s p] & m & Hne & Hp & _)]; try done; [|cbn in Hp; lia].
    destruct Hr as (sub & Hs & _). cbn [collectParamDescriptions].
    apply (fold_adds _ _ (s, sub)); [| done | intros out'; by rewrite lookup_insert_eq].
    intros out' [s' sub'] Ho. destruct (decide (paramDescriptionOverflowKey = paramDescriptionOverflowKey)); [by rewrite lookup_insert_eq | done].
  - intros Hd. assert (exists s sub, (s, sub) ∈ subschemas n /\
      (key = paramDescriptionOverflowKey /\ deep room sub \/ (exists v, described room sub (frameStep prefix s) key v) \/
       key = frameStep prefix s /\ is_Some (description sub))) as (s & sub & Hs & Hsub).
    { destruct Hd as [(-> & [|s p] & m & Hp & Hr)|(v & [|s p] & m & Hne & Hp & Hr & Hv & ->)]; try done; destruct Hr as (sub & Hs & Hr);
        exists s, sub; (split; [done|]).
      - left. split; [done|]. exists p, m. split; [cbn in Hp; lia | done].
      - right. destruct p as [|s' p]; [right; cbn in Hr; subst m; by rewrite Hv|]. left. exists v, (s' :: p), m.
        split_and!; [done | cbn in *; lia | done | done | done]. }
    cbn [collectParamDescriptions]. apply (fold_adds _ _ (s, sub)); [| done |].
    + intros out' [s' sub'] Ho. apply collect_keeps. unfold insert_opt. destruct (description sub'); [|done].
      destruct (decide (key = frameStep prefix s')) as [->|]; [by rewrite lookup_insert_eq | by rewrite lookup_insert_ne].
    + intros out'. destruct Hsub as [Hsub|[Hsub|[-> [d Hd']]]]; [apply IH; by left | apply IH; by right|].
      rewrite Hd'. apply collect_keeps. cbn. by rewrite lookup_insert_eq.
Qed.

(** ** One schema *)

(** The key of a path; the schema itself has a key of its own. *)
Definition path_key (p : list step) : string :=
  match p with [] => paramRootDescriptionKey | _ => frames "" p end.

(** The keys a schema's descriptions have. *)
Definition param_key (key : string) : Prop :=
  key = paramRootDescriptionKey \/ key = paramDescriptionOverflowKey \/ exists x, key = String segKeyword x.

Lemma frames_head p : p <> [] -> exists x, frames "" p = String segKeyword x.
Proof.
  destruct p as [|s p]; [done|]. intros _. rewrite frames_text. cbn [flat_map String.append].
  destruct s; cbn [segs app]; rewrite segs_text_cons; by eexists.
Qed.

Lemma params_only schema key v : ParamDescriptions schema !! key = Some v ->
  param_key key /\ ((key = paramDescriptionOverflowKey /\ deep maxParamDescriptionDepth schema) \/
    exists p m, (List.length p <= maxParamDescriptionDepth)%nat /\ reach schema p m /\ description m = Some v /\ key = path_key p).
Proof.
  unfold ParamDescriptions. intros [E|[[-> Hd]|(p & m & Hne & Hp & Hr & Hv & ->)]]%collect_only.
  - unfold insert_opt in E. destruct (description schema) as [d|] eqn:Ed; [|by rewrite lookup_empty in E].
    apply lookup_insert_Some in E as [[<- <-]|[_ E]]; [|by rewrite lookup_empty in E].
    split; [by left|]. right. exists [], schema. split_and!; [cbn; lia | done | done | done].
  - split; [right; by left | by left].
  - split; [right; right; by apply frames_head|]. right. exists p, m. split_and!; [done | done | done | by destruct p].
Qed.

Lemma path_key_inj p p' : fits (path_key p) -> path_key p = path_key p' -> p = p'.
Proof.
  destruct p as [|s p], p' as [|s' p']; intros Hf E; [done | | | by apply frames_inj in E];
    exfalso; unfold path_key in E; destruct (frames_head (s :: p) ltac:(done)) as (x & Hx) || destruct (frames_head (s' :: p') ltac:(done)) as (x & Hx);
    rewrite Hx in E; done.
Qed.

Lemma overflow_no_path p : path_key p <> paramDescriptionOverflowKey.
Proof. destruct p as [|s p]; [done|]. cbn [path_key]. destruct (frames_head (s :: p) ltac:(done)) as (x & ->). done. Qed.

(** A description within the depth is in the map under the key of its path, where nothing else is. *)
Lemma params_at schema p : unique (VObject schema) ->
  (is_Some (description_at schema p) -> is_Some (ParamDescriptions schema !! path_key p)) /\
  (fits (path_key p) -> forall v, ParamDescriptions schema !! path_key p = Some v -> description_at schema p = Some v).
Proof.
  intros Hu. unfold description_at. split.
  - destruct (_ <=? _)%nat eqn:Hp; [|by intros [? ?]]. apply Nat.leb_le in Hp. intros [v Hv].
    apply bind_Some in Hv as (m & Hm%(reach_node_at _ _ _ Hu) & Hv). unfold ParamDescriptions. destruct p as [|s p].
    + apply collect_keeps. cbn in Hm. subst m. unfold insert_opt. rewrite Hv. cbn [path_key]. by rewrite lookup_insert_eq.
    + apply collect_all. right. exists v, (s :: p), m. done.
  - intros Hf v Hv. apply params_only in Hv as [_ [[Hk _]|(p' & m & Hp & Hr & Hd & Hk)]]; [by apply overflow_no_path in Hk|].
    apply path_key_inj in Hk; [|done]. subst p'. rewrite (proj2 (Nat.leb_le _ _) Hp).
    apply (reach_node_at _ _ _ Hu) in Hr. by rewrite Hr.
Qed.

Lemma params_overflow schema : unique (VObject schema) ->
  is_Some (ParamDescriptions schema !! paramDescriptionOverflowKey) <-> too_deep schema.
Proof.
  intros Hu. assert (deep maxParamDescriptionDepth schema <-> too_deep schema) as <-.
  { unfold deep, too_deep. f_equiv. intros p. unfold is_Some. setoid_rewrite <- (reach_node_at p schema _ Hu). naive_solver. }
  split.
  - intros [v Hv]. apply params_only in Hv as [_ [[_ Hd]|(p & m & _ & _ & _ & Hk)]]; [done|].
    symmetry in Hk. by apply overflow_no_path in Hk.
  - intros Hd. unfold ParamDescriptions. apply collect_all. by left.
Qed.

Definition keys_fit (m : gmap string string) : Prop := map_Forall (fun k _ => fits k) m.

(** Schemas with the same collected descriptions describe the same locations alike. *)
Lemma params_determine s1 s2 : unique (VObject s1) -> unique (VObject s2) -> keys_fit (ParamDescriptions s1) ->
  ParamDescriptions s1 = ParamDescriptions s2 ->
  (forall p, description_at s1 p = description_at s2 p) /\ (too_deep s1 <-> too_deep s2).
Proof.
  intros Hu1 Hu2 Hf E. split; [|by rewrite <- !params_overflow, E].
  assert (forall s s' p d, unique (VObject s) -> unique (VObject s') -> keys_fit (ParamDescriptions s) ->
    ParamDescriptions s = ParamDescriptions s' -> description_at s p = Some d -> description_at s' p = Some d) as Hdir.
  { intros s s' p d Hu Hu' Hfit Heq Hd. destruct (params_at s p Hu) as [Hin Hout].
    destruct (Hin ltac:(by eexists)) as [v Hv]. specialize (Hfit _ _ Hv). rewrite (Hout Hfit v Hv) in Hd. injection Hd as ->.
    rewrite Heq in Hv. by apply (proj2 (params_at s' p Hu')). }
  intros p. destruct (description_at s1 p) as [d|] eqn:E1; [symmetry; by apply (Hdir s1 s2)|].
  destruct (description_at s2 p) as [d|] eqn:E2; [|done]. rewrite E in Hf. rewrite <- E1. by apply (Hdir s2 s1).
Qed.

(** ** The hashed bytes *)

Definition pair_text (kv : string * string) : string := writeLenPrefixed (fst kv) ++ writeLenPrefixed (snd kv).
Definition pairs_text (l : list (string * string)) : string := String.concat "" (map pair_text l).

Definition sorted_pairs (m : gmap string string) : list (string * string) :=
  map (fun name => (name, default "" (m !! name))) (sort_strings (elements (dom m))).

Lemma toolHashInput_pairs d m : toolHashInput d m = writeLenPrefixed d ++ pairs_text (sorted_pairs m).
Proof. unfold toolHashInput, pairs_text, sorted_pairs. by rewrite map_map. Qed.

Lemma fits_app a b : fits (a ++ b) -> fits a /\ fits b.
Proof. unfold fits. rewrite len_app. pose proof (len_nonneg a). pose proof (len_nonneg b). lia. Qed.

Lemma fits_prefixed s : fits (writeLenPrefixed s) -> fits s.
Proof. by intros [_ ?]%fits_app. Qed.

Lemma pairs_text_cons kv l : pairs_text (kv :: l) = writeLenPrefixed (fst kv) ++ writeLenPrefixed (snd kv) ++ pairs_text l.
Proof. unfold pairs_text. cbn [map]. rewrite concat_cons. unfold pair_text. by rewrite str_app_assoc. Qed.

Lemma pairs_text_fits kv l : fits (pairs_text l) -> kv ∈ l -> fits (fst kv) /\ fits (snd kv).
Proof.
  induction l as [|kv' l IH]; intros Hf Hin; [by apply elem_of_nil in Hin|]. rewrite pairs_text_cons in Hf.
  apply fits_app in Hf as [H1 Hf]. apply fits_app in Hf as [H2 Hf]. apply elem_of_cons in Hin as [->|Hin]; [|by apply IH].
  split; by apply fits_prefixed.
Qed.

Lemma pairs_text_inj l : forall l', fits (pairs_text l) -> pairs_text l = pairs_text l' -> l = l'.
Proof.
  assert (forall kv l, pairs_text (kv :: l) <> "") as Hne by (intros kv l0; rewrite pairs_text_cons; by unfold writeLenPrefixed, lenPrefix; destruct (be_bytes 8 _) eqn:E; [apply (f_equal String.length) in E; rewrite be_bytes_length in E|]).
  induction l as [|[k v] l IH]; intros [|[k' v'] l'] Hf E; [done | by destruct (Hne (k', v') l') | by destruct (Hne (k, v) l)|].
  assert (fits (pairs_text ((k', v') :: l'))) as Hf' by by rewrite <- E.
  destruct (pairs_text_fits (k, v) _ Hf ltac:(by left)) as [Hk Hv].
  destruct (pairs_text_fits (k', v') _ Hf' ltac:(by left)) as [Hk' Hv'].
  rewrite !pairs_text_cons in E. apply writeLenPrefixed_inj in E as [E1 E]; [|done|done].
  apply writeLenPrefixed_inj in E as [E2 E]; [|done|done]. cbn [fst snd] in *. subst k' v'. f_equal. apply IH; [|done].
  rewrite pairs_text_cons in Hf. by do 2 apply fits_app in Hf as [_ Hf].
Qed.

Lemma elem_of_sorted_pairs m k v : (k, v) ∈ sorted_pairs m <-> m !! k = Some v.
Proof.
  unfold sorted_pairs. rewrite list_elem_of_In, in_map_iff. setoid_rewrite <- list_elem_of_In.
  setoid_rewrite elem_of_sort_strings. setoid_rewrite elem_of_elements. setoid_rewrite elem_of_dom. split.
  - intros (x & [= -> <-] & [w Hw]). by rewrite Hw.
  - intros E. exists k. rewrite E. by split; [|eexists].
Qed.

Lemma toolHashInput_inj d d' m m' : fits (toolHashInput d m) -> toolHashInput d m = toolHashInput d' m' -> d = d' /\ m = m'.
Proof.
  intros Hf E. assert (fits (toolHashInput d' m')) as Hf' by by rewrite <- E.
  rewrite !toolHashInput_pairs in *. apply fits_app in Hf as [Hd Hm], Hf' as [Hd' _].
  apply writeLenPrefixed_inj in E as [-> E]; [|by apply fits_prefixed ..]. apply pairs_text_inj in E; [|done]. split; [done|].
  apply map_eq. intros k. apply option_eq. intros v. by rewrite <- !elem_of_sorted_pairs, E.
Qed.

Lemma hashed_fit d m k v : fits (toolHashInput d m) -> m !! k = Some v -> fits k.
Proof.
  rewrite toolHashInput_pairs. intros [_ Hf]%fits_app Hk. apply elem_of_sorted_pairs in Hk. by apply (pairs_text_fits (k, v) _ Hf).
Qed.

(** ** The whole surface *)

#[local] Instance output_key_inj : Inj (=) (=) (fun k => outputSchemaKeyPrefix ++ k).
Proof. intros x y. apply str_app_inv_head. Qed.

Section surface.
Context (sha256 : string -> string) (Marshal : node -> option string).
Abbreviation Params := (ToolHashParams Marshal).

Lemma param_key_other schema key : ~ param_key key -> ParamDescriptions schema !! key = None.
Proof.
  intros Hk. destruct (ParamDescriptions schema !! key) as [v|] eqn:E; [|done]. apply params_only in E as [? _]. done.
Qed.

Lemma reserved_keys : ~ param_key toolTitleKey /\ ~ param_key toolAnnotationsKey /\
  forall k, ~ param_key (outputSchemaKeyPrefix ++ k).
Proof. split_and!; [by intros [[=]|[[=]|[x [=]]]] .. |]. intros k [[=]|[[=]|[x [=]]]]. Qed.

Lemma params_out t a i o k : Params t a i o !! (outputSchemaKeyPrefix ++ k) = ParamDescriptions o !! k.
Proof.
  unfold ToolHashParams. cbv zeta. rewrite lookup_union, (lookup_kmap (fun k => outputSchemaKeyPrefix ++ k)).
  assert ((let out := ParamDescriptions i in
           let out := if String.eqb t "" then out else <[toolTitleKey := t]> out in
           match a with [] => out | _ => <[toolAnnotationsKey := annotationText Marshal a]> out end)
          !! (outputSchemaKeyPrefix ++ k) = None) as Hn.
  { cbv zeta. assert (ParamDescriptions i !! (outputSchemaKeyPrefix ++ k) = None) as Hi by apply param_key_other, reserved_keys.
    destruct a; [|rewrite lookup_insert_ne by discriminate]; (destruct (String.eqb t ""); [done | by rewrite lookup_insert_ne by discriminate]). }
  cbv zeta in Hn. rewrite Hn. by destruct (ParamDescriptions o !! k).
Qed.

Lemma params_base t a i o key : (forall k, key <> outputSchemaKeyPrefix ++ k) ->
  Params t a i o !! key =
  (if bool_decide (key = toolAnnotationsKey) && negb (bool_decide (a = [])) then Some (annotationText Marshal a)
   else if bool_decide (key = toolTitleKey) && negb (String.eqb t "") then Some t
   else ParamDescriptions i !! key).
Proof.
  intros Hk. unfold ToolHashParams. cbv zeta. rewrite lookup_union.
  assert (kmap (fun k => outputSchemaKeyPrefix ++ k) (ParamDescriptions o) !! key = None) as ->.
  { apply lookup_kmap_None; [apply _|]. intros k ->. by destruct (Hk k). }
  rewrite (left_id None _). destruct a as [|x a]; cbn [bool_decide].
  - rewrite (bool_decide_true (@nil (string * value) = [])) by done. rewrite andb_false_r.
    destruct (String.eqb t ""); [by rewrite andb_false_r|]. rewrite andb_true_r.
    case_bool_decide as H1; [subst; by rewrite lookup_insert_eq | by rewrite lookup_insert_ne].
  - rewrite (bool_decide_false (x :: a = [])) by done. rewrite andb_true_r.
    case_bool_decide as H1; [subst; by rewrite lookup_insert_eq|]. rewrite lookup_insert_ne by done.
    destruct (String.eqb t ""); [by rewrite andb_false_r|]. rewrite andb_true_r.
    case_bool_decide as H2; [subst; by rewrite lookup_insert_eq | by rewrite lookup_insert_ne].
Qed.

Lemma params_in t a i o key : param_key key -> Params t a i o !! key = ParamDescriptions i !! key.
Proof.
  intros Hk. rewrite params_base by (intros k ->; by apply reserved_keys in Hk).
  by rewrite (bool_decide_false (key = toolAnnotationsKey)), (bool_decide_false (key = toolTitleKey))
    by (intros ->; by apply reserved_keys in Hk).
Qed.

(** The parts can be read back from the collected map. *)
Lemma params_parts t a i o t' a' i' o' : Params t a i o = Params t' a' i' o' ->
  t = t' /\ (a = [] <-> a' = []) /\ (a <> [] -> annotationText Marshal a = annotationText Marshal a') /\
  ParamDescriptions i = ParamDescriptions i' /\ ParamDescriptions o = ParamDescriptions o'.
Proof.
  intros E. assert (forall key, Params t a i o !! key = Params t' a' i' o' !! key) as Hk by by rewrite E.
  pose proof (Hk toolTitleKey) as Ht. pose proof (Hk toolAnnotationsKey) as Ha.
  rewrite !params_base, !(param_key_other _ _ (proj1 reserved_keys)) in Ht by done.
  rewrite !params_base, !(param_key_other _ _ (proj1 (proj2 reserved_keys))) in Ha by done.
  rewrite (bool_decide_false (toolTitleKey = toolAnnotationsKey)), (bool_decide_true (toolTitleKey = toolTitleKey)) in Ht by done.
  rewrite (bool_decide_true (toolAnnotationsKey = toolAnnotationsKey)), (bool_decide_false (toolAnnotationsKey = toolTitleKey)) in Ha by done.
  cbn [andb] in Ht, Ha. split_and!.
  - destruct (String.eqb_spec t ""), (String.eqb_spec t' ""); cbn in Ht; congruence.
  - destruct a, a'; cbn in Ha; naive_solver.
  - destruct a, a'; cbn in Ha; naive_solver.
  - apply map_eq. intros key. apply option_eq. intros v. split; intros Hv; pose proof (proj1 (params_only _ _ _ Hv)) as Hp.
    + by rewrite <- (params_in t' a' i' o' key Hp), <- E, params_in.
    + by rewrite <- (params_in t a i o key Hp), E, params_in.
  - apply map_eq. intros k. by rewrite <- (params_out t a i), E, params_out.
Qed.

(** A hash pins everything a host shows to its model.  If two tools have the same surface hash,
    and SHA-256 does not collide on the two byte strings hashed, then they have the same
    description, the same title, annotations of the same JSON text or none, and, at every
    location of the input schema and of the output schema down to 64 levels of subschemas, the
    same description or none; and a schema with deeper levels shares its hash only with such
    schemas.  So no upstream can rewrite any of these strings, move one to another location, or
    add or drop one, without the hash changing. *)
Theorem surface_hash_pins d t a i o d' t' a' i' o' :
  Forall (fun n => unique (VObject n)) [i; o; i'; o'] ->
  let hashed := toolHashInput d (Params t a i o) in let hashed' := toolHashInput d' (Params t' a' i' o') in
  fits hashed -> (sha256 hashed = sha256 hashed' -> hashed = hashed') ->
  SurfaceHash sha256 Marshal d t a i o = SurfaceHash sha256 Marshal d' t' a' i' o' ->
  d = d' /\ t = t' /\ (a = [] <-> a' = []) /\ (a <> [] -> annotationText Marshal a = annotationText Marshal a') /\
  (forall p, description_at i p = description_at i' p /\ description_at o p = description_at o' p) /\
  (too_deep i <-> too_deep i') /\ (too_deep o <-> too_deep o').
Proof.
  intros Hu hashed hashed' Hf Hsha E. rewrite !Forall_cons in Hu. destruct Hu as (Hi & Ho & Hi' & Ho' & _).
  unfold SurfaceHash, ComputeToolHash in E. apply str_app_inv_head, Hsha in E.
  apply toolHashInput_inj in E as [-> E]; [|done]. pose proof (params_parts _ _ _ _ _ _ _ _ E) as (-> & Ha & Htext & Ei & Eo).
  assert (keys_fit (ParamDescriptions i) /\ keys_fit (ParamDescriptions o)) as [Hki Hko].
  { split; intros k v Hk.
    - apply (hashed_fit _ _ k v Hf). rewrite params_in; [done|]. by apply params_only in Hk as [? _].
    - enough (fits (outputSchemaKeyPrefix ++ k)) as [_ ?]%fits_app by done. apply (hashed_fit _ _ _ v Hf). by rewrite params_out. }
  destruct (params_determine i i' Hi Hi' Hki Ei) as [Hpi Hdi]. destruct (params_determine o o' Ho Ho' Hko Eo) as [Hpo Hdo].
  by split_and!.
Qed.

End surface.

(** ** An instance *)

Definition fx_schema : node :=
  [("type", VString "object");
   ("properties", VObject [("path", VObject [("description", VString "the file to read")]);
                           ("mode", VObject [("anyOf", VArray [VObject [("description", VString "text")]])])])].

(** The same schema with its members in another order. *)
Definition fx_reordered : node :=
  [("properties", VObject [("mode", VObject [("anyOf", VArray [VObject [("description", VString "text")]])]);
                           ("path", VObject [("description", VString "the file to read")])]);
   ("type", VString "object")].

Lemma surface_hash_pins_witness :
  (forall p, description_at fx_schema p = description_at fx_reordered p) /\
  description_at fx_schema [SName "properties" "mode"; SIndex "anyOf" 0] = Some "text".
Proof.
  split; [|reflexivity].
  refine (fun p => proj1 (proj1 (proj2 (proj2 (proj2 (proj2 (surface_hash_pins (fun s => s) (fun _ => Some "{}")
    "reads a file" "Read" [("readOnlyHint", VBool true)] fx_schema []
    "reads a file" "Read" [("readOnlyHint", VBool true)] fx_reordered [] _ _ (fun E => E) _))))) p)).
  - repeat constructor; cbn; rewrite ?elem_of_nil; repeat (rewrite elem_of_cons || rewrite elem_of_nil); intuition discriminate.
  - vm_compute. reflexivity.
  - vm_compute. reflexivity.
Defined.

End ToolSurface.
