(* ===== verification/ListFilter.v ===== *)
(** * Lists: pinning and filtering

    internal/pdp/pdp.go, from the bytes of a [tools/list], [resources/list] or [prompts/list]
    result: arming the two interface pins from every entry ([armPinsFromToolsList]), and the
    list that is passed on to the host ([filterToolsListResult] and its two siblings).

    encoding/json is JSON.v and Encode.v, the ambiguity scan KeyScan.v, the surface hash ToolSurface.v.  A
    decode into a struct is reached only for an entry the scan cleared, so each field has at
    most one member to bind.  The findings of the baseline, which the code writes to stderr,
    are returned. *)
From stdpp Require Import base tactics list gmap strings fin_sets.
From Stdlib Require Import ZArith Lia Ascii String.
From S2P Require Import Prelude GoStrings GoPath Truncate Runes CallCounter Capability CaseFold Numeric.
From S2P Require Import Selection Anchor Backends Engine KillSwitch SurfacePin ManifestPDP JSON Encode KeyScan ToolSurface.
#[local] Open Scope string_scope.
Import Capability CaseFold Numeric Backends Engine ManifestPDP JSON Encode KeyScan ToolSurface.

Module ListFilter.

Definition listKeyTools : string := "tools".
Definition listKeyResources : string := "resources".
Definition listKeyPrompts : string := "prompts".

(** ** Envelopes *)

Inductive listDecodeOutcome :=
| listDecodeOK | listDecodeEmptyResult | listDecodeBadEnvelope | listDecodeKeyAbsent | listDecodeBadArray.

Definition decodeListEntries (result fieldName : string) : list string * listDecodeOutcome :=
  if String.eqb result "" then ([], listDecodeEmptyResult)
  else
    match rawObject result with
    | None => ([], listDecodeBadEnvelope)
    | Some envelope =>
        match lastOf fieldName envelope with
        | None => ([], listDecodeKeyAbsent)
        | Some raw =>
            match rawArray raw with
            | None => ([], listDecodeBadArray)
            | Some entries => (entries, listDecodeOK)
            end
        end
    end.

Definition countListEntries (result fieldName : string) : nat := List.length (fst (decodeListEntries result fieldName)).

(** The members a [json.Decoder] yields until [More] is false, with what is left there; [None] is
    an error of the decoder.  [started] is set after the first member. *)
Fixpoint tokenMembers (fuel : nat) (started : bool) (s : string) : option (list (string * string) * string) :=
  match fuel with
  | O => None
  | S fuel =>
      match skipSpace s with
      | EmptyString => Some ([], "")
      | String c r =>
          if Ascii.eqb c "]" || Ascii.eqb c "}" then Some ([], String c r)
          else
            r ← (if started then if Ascii.eqb c "," then Some r else None else Some (String c r));
            '(q, r) ← delim r;
            if negb (Ascii.eqb q dquote) then None
            else
              '(key, r) ← stringLit r;
              '(colon, r) ← delim r;
              if negb (Ascii.eqb colon ":") then None
              else
                '(raw, r) ← rawValue maxNestingDepth (skipSpace r);
                '(ms, t) ← tokenMembers fuel true r;
                Some ((key, raw) :: ms, t)
      end
  end.

(** The same from the start of a document. *)
Definition objectTokens (doc : string) : option (list (string * string) * string) :=
  '(c, r) ← delim doc;
  if Ascii.eqb c "{" then tokenMembers (S (String.length r)) false r else None.

Section lists.
Context `{U : Unicode}.

Definition listKeyToolsFolded : string := FoldJSONKey listKeyTools.

Definition count {A} (f : A -> bool) (l : list A) : nat := List.length (List.filter f l).

Definition toolsKeyAmbiguous (raw : string) : bool :=
  match objectTokens raw with
  | None => true
  | Some (ms, _) =>
      let exact := count (fun kv => String.eqb (fst kv) listKeyTools) ms in
      let folded := count (fun kv => String.eqb (FoldJSONKey (fst kv)) listKeyToolsFolded) ms in
      if (folded =? 0)%nat then false else (1 <? folded)%nat || (exact =? 0)%nat
  end.

Definition ToolsKeyAmbiguous (raw : string) : bool := toolsKeyAmbiguous raw.

(** An envelope in document order; an error when two keys fold together. *)
Definition decodeOrderedObject (b : string) : option (list (string * string)) :=
  '(ms, t) ← objectTokens b;
  if repeats ∅ (map (fun kv => FoldJSONKey (fst kv)) ms) then None
  else
    match t with
    | String c r => if Ascii.eqb c "}" && String.eqb (skipSpace r) "" then Some ms else None
    | EmptyString => None
    end.

(** ** Encoding *)

(** [json.Marshal] of a [json.RawMessage]: no blanks outside literals, HTML escaped. *)
Fixpoint compact (fuel : nat) (inside : bool) (s : string) : string :=
  match fuel, s with
  | S fuel, String c r =>
      if negb inside then
        if isSpace c then compact fuel false r else String c (compact fuel (Ascii.eqb c dquote) r)
      else if Ascii.eqb c backslash then
        match r with
        | String e r => String c (String e (compact fuel true r))
        | EmptyString => String c ""
        end
      else if Ascii.eqb c dquote then String c (compact fuel false r)
      else if isHTML c then escapeByte c ++ compact fuel true r
      else
        match lineSeparator s with
        | Some (esc, r) => esc ++ compact fuel true r
        | None => String c (compact fuel true r)
        end
  | _, _ => ""
  end.

Definition marshalRaw (raw : string) : string := compact (String.length raw) false raw.

Definition marshalEntries (entries : list string) : string :=
  "[" ++ String.concat "," (map marshalRaw entries) ++ "]".

Definition isSafeJSONKey (s : string) : bool :=
  str_forall (fun c =>
    let b := GoPath.byte_val c in
    negb ((b <? 32)%Z || (126 <? b)%Z || Ascii.eqb c dquote || Ascii.eqb c backslash || isHTML c)) s.

Definition writeKey (k : string) : string :=
  if isSafeJSONKey k then String dquote (k ++ String dquote "") else quote true k.

Definition resultKeyCacheScope : string := "cacheScope".
Definition cacheScopeKeyFolded : string := FoldJSONKey resultKeyCacheScope.
Definition privateCacheScope : string := String dquote ("private" ++ String dquote "").

Definition clampCacheScope (key raw : string) : string :=
  if negb (String.eqb (FoldJSONKey key) cacheScopeKeyFolded) then raw
  else if String.eqb raw privateCacheScope then raw else privateCacheScope.

Definition refuseListKeyVariant (keys : list string) (fieldName : string) : bool :=
  existsb (fun k => negb (String.eqb k fieldName) && String.eqb (FoldJSONKey k) (FoldJSONKey fieldName)) keys.

(** One member of the envelope as it is emitted. *)
Definition emitMember (fieldName filtered : string) (kv : string * string) : string :=
  writeKey (fst kv) ++ ":" ++ (if String.eqb (fst kv) fieldName then filtered else clampCacheScope (fst kv) (snd kv)).

Definition encodeOrderedObjectWithList (env : list (string * string)) (fieldName : string) (entries : list string)
    : option string :=
  if refuseListKeyVariant (map fst env) fieldName then None
  else
    let filtered := marshalEntries entries in
    let env := if one_of fieldName (map fst env) then env else (env ++ [(fieldName, "")])%list in
    Some ("{" ++ String.concat "," (map (emitMember fieldName filtered) env) ++ "}").

Definition replaceOrderedListField (envelope fieldName : string) (entries : list string) : option string :=
  env ← decodeOrderedObject envelope; encodeOrderedObjectWithList env fieldName entries.

(** ** Filtering one list *)

Record ListFilterResult := mkFiltered {
  Result : string;
  Entries : list string;
  Upstream : nat;
  envelope : list (string * string);
  entryIDs : list string;
}.

Definition Kept (r : ListFilterResult) : nat := List.length (Entries r).

Definition emptyListEnvelope (fieldName : string) : string :=
  "{" ++ writeKey fieldName ++ ":[]}".

Definition failClosed (fieldName : string) : ListFilterResult := mkFiltered (emptyListEnvelope fieldName) [] 0 [] [].

(** The entries [keep] lets through, with their identifiers; [keep] is given the index. *)
Definition keptEntries (keep : nat -> string -> bool * string) (raws : list string) : list (string * string) :=
  List.concat (imap (fun i raw => let '(pass, id) := keep i raw in if pass : bool then [(raw, id)] else []) raws).

Definition filterListResult (resultBytes fieldName : string) (keep : nat -> string -> bool * string) : ListFilterResult :=
  if String.eqb resultBytes "" then failClosed fieldName
  else
    match decodeOrderedObject resultBytes with
    | None => failClosed fieldName
    | Some env =>
        match lastOf fieldName env ≫= rawArray with
        | None => failClosed fieldName
        | Some rawEntries =>
            let kept := keptEntries keep rawEntries in
            match encodeOrderedObjectWithList env fieldName (map fst kept) with
            | None => failClosed fieldName
            | Some out => mkFiltered out (map fst kept) (List.length rawEntries) env (map snd kept)
            end
        end
    end.

Definition passThroughList (result fieldName : string) : ListFilterResult :=
  match decodeOrderedObject result with
  | None => mkFiltered result [] 0 [] []
  | Some env =>
      let entries := default [] (lastOf fieldName env ≫= rawArray) in
      mkFiltered result entries (List.length entries) env []
  end.

(** ** Decoding an entry *)

Definition fieldOf (f : string) (ms : list (string * value)) : option value :=
  snd <$> List.find (fun kv => String.eqb (FoldJSONKey (fst kv)) (FoldJSONKey f)) (rev ms).

Definition stringField (f : string) (ms : list (string * value)) : option string :=
  match fieldOf f ms with
  | None | Some VNull => Some ""
  | Some (VString s) => Some s
  | Some _ => None
  end.

(** A decode into an [interface{}]: numbers become float64 or fail, a map keeps the last. *)
Fixpoint decodeInterface (v : value) : option value :=
  match v with
  | VNumber n => VFloat <$> ParseFloat64 n
  | VArray l =>
      VArray <$> (fix each (l : list value) :=
        match l with [] => Some [] | v :: l => v ← decodeInterface v; l ← each l; Some (v :: l) end) l
  | VObject ms =>
      (fun ms => VObject (keepLast ms)) <$> (fix each (ms : list (string * value)) :=
        match ms with [] => Some [] | (k, v) :: ms => v ← decodeInterface v; ms ← each ms; Some ((k, v) :: ms) end) ms
  | v => Some v
  end.

Definition objectField (f : string) (ms : list (string * value)) : option node :=
  match fieldOf f ms with
  | None | Some VNull => Some []
  | Some (VObject m) => decodeInterface (VObject m) ≫= asObject
  | Some _ => None
  end.

Record toolListEntry := mkEntry {
  te_Name : string; te_Description : string; te_InputSchema : node;
  te_Title : string; te_Annotations : node; te_OutputSchema : node;
}.

(** The entry a tree binds to. *)
Definition entryOf (v : value) : option toolListEntry :=
  match v with
  | VObject ms =>
      name ← stringField "name" ms;
      description ← stringField "description" ms;
      inputSchema ← objectField "inputSchema" ms;
      title ← stringField "title" ms;
      annotations ← objectField "annotations" ms;
      outputSchema ← objectField "outputSchema" ms;
      Some (mkEntry name description inputSchema title annotations outputSchema)
  | VNull => Some (mkEntry "" "" [] "" [] [])
  | _ => None
  end.

(** [json.Unmarshal] into a [toolListEntry]. *)
Definition decodeToolEntry (raw : string) : option toolListEntry := document raw ≫= entryOf.

(** A struct with one string field. *)
Definition decodeID (f : string) (raw : string) : option string :=
  match document raw with
  | Some (VObject ms) => stringField f ms
  | Some VNull => Some ""
  | _ => None
  end.

Record toolEntryVerdict := mkVerdict { known : bool; vdrop : bool; vname : string }.

Definition unknownVerdict : toolEntryVerdict := mkVerdict false false "".
Definition dropVerdict : toolEntryVerdict := mkVerdict true true "".

Definition verdictAt (verdicts : list toolEntryVerdict) (i : nat) : toolEntryVerdict :=
  default unknownVerdict (verdicts !! i).

Definition evaluateToolEntry (raw : string) : toolEntryVerdict :=
  if entryKeysAmbiguous raw then dropVerdict
  else match decodeToolEntry raw with None => dropVerdict | Some e => mkVerdict true false (te_Name e) end.

(** ** The decision point's lists *)

Section pdp.
Context {C F : Type} `{CallCounterBackend C} `{FlowStoreBackend F} `{Leaf}.
Context (sha256 : string -> string) (Marshal : node -> option string).

Abbreviation PDP := (@ManifestPDP C F).

Definition entrySurface (e : toolListEntry) : string :=
  SurfaceHash sha256 Marshal (te_Description e) (te_Title e) (te_Annotations e) (te_InputSchema e) (te_OutputSchema e).

Definition poisonCandidates (ns : list string) (p : PDP) : PDP :=
  fold_left (fun p n => if bool_decide (is_Some (pinnedTools p !! n)) then markToolPoisoned n p else p) ns p.

Definition breakAll (sessionID : string) (p : PDP) : PDP := set_surface p (SurfacePin.BreakAll (surface p) sessionID).
Definition markNames (sessionID : string) (ns : list string) (p : PDP) : PDP :=
  set_surface p (SurfacePin.MarkBroken (surface p) sessionID ns).

(** No entry of the response can be believed. *)
Definition distrustAll (sessionID : string) (p : PDP) : PDP := breakAll sessionID (poisonAllPinned p).
Definition distrust (sessionID : string) (ns : list string) (p : PDP) : PDP :=
  markNames sessionID ns (poisonCandidates ns p).

Record armState := mkArm { a_pdp : PDP; a_surfaces : list SurfacePin.ToolSurface; a_verdicts : list toolEntryVerdict }.

(** One entry of an unambiguous array. *)
Definition armEntry (sessionID : string) (a : armState) (raw : string) : armState :=
  let '(mkArm p surfaces verdicts) := a in
  let tier2 := bool_decide (is_Some (surface p)) in
  let scan := scanToolEntry raw in
  if untrustworthy scan then
    mkArm (if namesComplete scan then distrust sessionID (KeyScan.names scan) p else distrustAll sessionID p) surfaces
      (verdicts ++ [dropVerdict])
  else if negb tier2 && negb (anyNamePinned p (KeyScan.names scan)) then mkArm p surfaces (verdicts ++ [unknownVerdict])
  else
    match decodeToolEntry raw with
    | None => mkArm (distrust sessionID (KeyScan.names scan) p) surfaces (verdicts ++ [dropVerdict])
    | Some e =>
        let h := entrySurface e in
        mkArm (recordPinnedToolHash (te_Name e) h p)
          (if tier2 then surfaces ++ [SurfacePin.mkTool (te_Name e) h] else surfaces)
          (verdicts ++ [mkVerdict true false (te_Name e)])
    end%list.

Definition observe (sessionID : string) (surfaces : list SurfacePin.ToolSurface) (complete : bool) (p : PDP)
    : list SurfacePin.SurfaceChange * PDP :=
  let '(changes, b) := SurfacePin.Observe (surface p) sessionID surfaces complete in (changes, set_surface p b).

(** The count, the verdicts, the findings and the armed decision point. *)
Definition armPinsFromToolsList (p : PDP) (sessionID result : string) (completeListing : bool)
    : nat * list toolEntryVerdict * list SurfacePin.SurfaceChange * PDP :=
  let pinned := hasPinnedTools p in
  let tier2 := bool_decide (is_Some (surface p)) in
  let '(entries, outcome) := decodeListEntries result listKeyTools in
  match outcome with
  | listDecodeEmptyResult => (0, [], [], p)
  | listDecodeBadEnvelope | listDecodeBadArray => (0, [], [], distrustAll sessionID p)
  | listDecodeKeyAbsent => (0, [], [], if toolsKeyAmbiguous result then distrustAll sessionID p else p)
  | listDecodeOK =>
      if negb pinned && negb tier2 then (List.length entries, [], [], p)
      else if toolsKeyAmbiguous result then (List.length entries, [], [], distrustAll sessionID p)
      else
        let '(mkArm p' surfaces verdicts) := fold_left (armEntry sessionID) entries (mkArm p [] []) in
        let '(changes, p') := if tier2 then observe sessionID surfaces completeListing p' else ([], p') in
        (List.length entries, verdicts, changes, p')
  end%nat.

Definition RecordObservedToolHashes (p : PDP) (ctx : PCtx) (result : string) : nat * list SurfacePin.SurfaceChange * PDP :=
  let '(n, _, changes, p') := armPinsFromToolsList p (ctx_sessionID ctx) result (ctx_completeListing ctx) in (n, changes, p').

(** Whether an entry of a tool list is shown. *)
Definition keepTool (p : PDP) (claims : gmap string value) (sessionID : string) (verdicts : list toolEntryVerdict)
    (i : nat) (raw : string) : bool * string :=
  let v := verdictAt verdicts i in
  let v := if known v then v else evaluateToolEntry raw in
  if vdrop v then (false, "")
  else
    match findConstraint p (mkEnforceTarget TargetTypeTool (vname v)) claims with
    | None => (false, "")
    | Some c =>
        if negb (containsAction (Actions c) "call") then (false, "")
        else if bool_decide (is_Some (pinnedTools p !! vname v)) && isToolPoisoned p (vname v) then (false, "")
        else if SurfacePin.Broken (surface p) sessionID (vname v) then (false, "")
        else (true, vname v)
    end.

Definition filterToolsListResult (p : PDP) (claims : gmap string value) (sessionID : string) (completeListing : bool)
    (resultBytes : string) : ListFilterResult * list SurfacePin.SurfaceChange * PDP :=
  let '(verdicts, changes, p) :=
    if hasPinnedTools p || bool_decide (is_Some (surface p)) then
      let '(_, verdicts, changes, p') := armPinsFromToolsList p sessionID resultBytes completeListing in
      (verdicts, changes, p')
    else ([], [], p) in
  (filterListResult resultBytes listKeyTools (keepTool p claims sessionID verdicts), changes, p).

Definition keepByManifestEntry (p : PDP) (claims : gmap string value) (targetType requiredAction : string)
    (entryID : string -> option string) (_ : nat) (raw : string) : bool * string :=
  if entryKeysAmbiguous raw then (false, "")
  else
    match entryID raw with
    | None => (false, "")
    | Some id =>
        match findConstraint p (mkEnforceTarget targetType id) claims with
        | Some c => if containsAction (Actions c) requiredAction then (true, id) else (false, "")
        | None => (false, "")
        end
    end.

Definition filterResourcesListResult (resultBytes : string) (p : PDP) (claims : gmap string value) : ListFilterResult :=
  filterListResult resultBytes listKeyResources (keepByManifestEntry p claims TargetTypeResource "read" (decodeID "uri")).

Definition filterPromptsListResult (resultBytes : string) (p : PDP) (claims : gmap string value) : ListFilterResult :=
  filterListResult resultBytes listKeyPrompts (keepByManifestEntry p claims TargetTypePrompt "get" (decodeID "name")).

Definition FilterToolsList (p : PDP) (ctx : PCtx) (result : string) : ListFilterResult * list SurfacePin.SurfaceChange * PDP :=
  filterToolsListResult p (jwtClaimsAsMap ctx) (ctx_sessionID ctx) (ctx_completeListing ctx) result.
Definition FilterResourcesList (p : PDP) (ctx : PCtx) (result : string) : ListFilterResult :=
  filterResourcesListResult result p (jwtClaimsAsMap ctx).
Definition FilterPromptsList (p : PDP) (ctx : PCtx) (result : string) : ListFilterResult :=
  filterPromptsListResult result p (jwtClaimsAsMap ctx).

End pdp.
End lists.
End ListFilter.
