(* ===== verification/ListSafety.v ===== *)
(** * What lists guarantee

    The pins of ListFilter.v over whole histories of listings and sessions: a tool that is still
    callable was shown with one and the same surface, to any parser, in every listing of its
    session, and with the surface the manifest pins in every listing at all
    ([callable_tool_unchanged]); and what a list shows can be called ([listed_entries_usable]). *)
From stdpp Require Import base tactics list gmap strings fin_sets.
From Stdlib Require Import ZArith Lia Ascii String.
From S2P Require Import Prelude GoStrings GoPath Truncate Runes CallCounter Capability CaseFold Numeric.
From S2P Require Import Selection Anchor Backends Engine KillSwitch SurfacePin ManifestPDP JSON KeyScan ToolSurface ListFilter PDPSafety.
#[local] Open Scope string_scope.
Import Capability CaseFold Numeric Backends Engine ManifestPDP JSON KeyScan ToolSurface ListFilter PDPSafety.

Module ListSafety.

(** ** The two decodes of an envelope *)

Section envelopes.

(** [rawValue] at a deeper limit gives the same span. *)
Lemma rawValue_deeper d d' : (d <= d')%nat -> extends (rawValue d) (rawValue d').
Proof.
  intros Hd s [raw t]. unfold rawValue. intros E. apply bind_Some in E as ([v t0] & E & [= <- <-]).
  by rewrite (parseValue_deeper _ _ Hd _ _ E).
Qed.

#[local] Opaque maxNestingDepth rawValue.

(** One member, with the comma before it when it is not the first. *)
Lemma tokenMembers_member f (started : bool) s0 s r1 k r2 r3 raw r4 ms t :
  (if started then delim s0 = Some (","%char, s) else s0 = s) ->
  delim s = Some (dquote, r1) -> stringLit r1 = Some (k, r2) -> delim r2 = Some (":"%char, r3) ->
  rawValue maxNestingDepth (skipSpace r3) = Some (raw, r4) -> tokenMembers f true r4 = Some (ms, t) ->
  tokenMembers (S f) started s0 = Some ((k, raw) :: ms, t).
Proof.
  intros H0 E1 E2 E3 E4 E5. cbn [tokenMembers].
  assert (exists r0, delim r0 = Some (dquote, r1) /\ exists c r, skipSpace s0 = String c r /\ Ascii.eqb c "]" || Ascii.eqb c "}" = false /\
    (if started then if Ascii.eqb c "," then Some r else None else Some (String c r)) = Some r0) as (r0 & Hd & c & r & -> & -> & ->).
  { destruct started.
    - exists s. split; [done|]. exists ","%char, s. rewrite delim_spec in H0. destruct (skipSpace s0); [done|]. by injection H0 as -> ->.
    - subst s0. exists (String dquote r1). split; [done|]. exists dquote, r1. rewrite delim_spec in E1.
      destruct (skipSpace s); [done|]. by injection E1 as -> ->. }
  cbn [mbind option_bind]. rewrite Hd. cbn [mbind option_bind]. rewrite Ascii.eqb_refl. cbn [negb]. rewrite E2. cbn [mbind option_bind].
  rewrite E3. cbn [mbind option_bind]. rewrite Ascii.eqb_refl. cbn [negb]. rewrite E4. cbn [mbind option_bind]. by rewrite E5.
Qed.

Lemma tokenMembers_end f started s t : delim s = Some ("}"%char, t) -> tokenMembers (S f) started s = Some ([], String "}" t).
Proof. rewrite delim_spec. cbn [tokenMembers]. destruct (skipSpace s) as [|c r]; [done|]. by intros [= -> ->]. Qed.

Lemma tokens_of_members d fuel : (d <= maxNestingDepth)%nat -> forall s ms t,
  membersFrom (rawValue d) fuel s = Some (ms, t) -> forall f (started : bool) s0,
  (if started then delim s0 = Some (","%char, s) else s0 = s) -> (String.length s0 < f)%nat ->
  tokenMembers f started s0 = Some (ms, String "}" t).
Proof.
  intros Hd. induction fuel as [|fuel IH]; intros s ms t; [done|]. cbn [membersFrom]. intros E.
  apply bind_Some in E as ([[[k raw] c] r] & Em & E).
  apply member_inv in Em as (r1 & r2 & r3 & r4 & E1 & E2 & E3 & E4 & E5).
  apply (rawValue_deeper _ _ Hd) in E4. intros f started s0 H0 Hf.
  assert (String.length s <= String.length s0)%nat as Hs0.
  { destruct started; [by apply Nat.lt_le_incl, (delim_shrinks _ _ _ H0) | by subst]. }
  assert (String.length r4 < String.length s)%nat as H4.
  { apply (rd_skip (rawValue maxNestingDepth)) in E4.
    - apply delim_shrinks in E1, E3. apply stringLit_shrinks in E2. lia.
    - intros s1 v1 t1 Ev. apply rawValue_spec in Ev as (v & Ev & _). by apply parseValue_shrinks in Ev. }
  destruct f as [|f]; [lia|].
  destruct (Ascii.eqb_spec c ",") as [->|Hc].
  - apply bind_Some in E as ([ms' t'] & E & [= <- <-]). eapply tokenMembers_member; [done..|].
    eapply (IH _ _ _ E f true r4); [done | lia].
  - destruct (Ascii.eqb_spec c "}") as [->|]; [|done]. injection E as <- <-. eapply tokenMembers_member; [done..|].
    destruct f; [lia|]. by apply tokenMembers_end.
Qed.

(** The decoder's tokens are the members of the document. *)
Lemma objectTokens_document doc ms : document doc = Some (VObject ms) ->
  exists raws t, rawObject doc = Some raws /\ objectTokens doc = Some (raws, String "}" t) /\
    Forall2 (fun kv kv' => fst kv = fst kv' /\ text_of (snd kv) (snd kv')) raws ms.
Proof.
  intros E. pose proof (rawObject_spec doc) as Hr. rewrite E in Hr. destruct Hr as (raws & Hr & Hf).
  exists raws. assert (exists r t, skipSpace doc = String "{" r /\ objectBody (rawValue (pred maxNestingDepth)) r = Some (raws, t))
    as (r & t & Hs & Hb).
  { unfold rawObject in Hr. rewrite E in Hr. apply document_inv in E as (t0 & (r & d & Hs & Hd & _)%parseValue_object & _).
    rewrite Hs in Hr. apply fmap_Some in Hr as ([ms' t] & Hb & ->). by exists r, t. }
  exists t. split; [done|]. split; [|done]. unfold objectTokens. rewrite delim_spec, Hs. cbn [mbind option_bind].
  rewrite Ascii.eqb_refl. unfold objectBody in Hb. apply bind_Some in Hb as ([c r'] & Ed & Hb).
  destruct (Ascii.eqb_spec c "}") as [->|].
  - injection Hb as <- <-. by apply tokenMembers_end.
  - eapply tokens_of_members; [| exact Hb | done | lia]. lia.
Qed.

Context `{U : Unicode}.

Lemma count_one {A} (f : A -> bool) l x y :
  (count f l <= 1)%nat -> x ∈ l -> f x = true -> y ∈ l -> f y = true -> x = y.
Proof.
  unfold count. intros Hl Hx Hfx Hy Hfy.
  assert (forall z, z ∈ l -> f z = true -> In z (List.filter f l)) as Hin.
  { intros z Hz Hf. apply filter_In. split; [by apply list_elem_of_In | done]. }
  apply Hin in Hx, Hy; [|done..]. destruct (List.filter f l) as [|a [|b r]]; cbn in *; [done | | lia].
  destruct Hx as [<-|[]], Hy as [<-|[]]. done.
Qed.

Lemma count_some {A} (f : A -> bool) l x : x ∈ l -> f x = true -> (0 < count f l)%nat.
Proof.
  intros Hx Hf. unfold count. assert (In x (List.filter f l)) as Hin by (apply filter_In; split; [by apply list_elem_of_In | done]).
  destruct (List.filter f l); [done | cbn; lia].
Qed.

Lemma count_none {A} (f : A -> bool) l : (0 < count f l)%nat -> exists x, x ∈ l /\ f x = true.
Proof.
  unfold count. destruct (List.filter f l) as [|x r] eqn:E; cbn; [lia|]. intros _. exists x.
  assert (In x (List.filter f l)) as [Hin Hf]%filter_In by (rewrite E; by left). split; [by apply list_elem_of_In | done].
Qed.

Lemma lastOf_some {A} k (v : A) ms : (k, v) ∈ ms -> is_Some (lastOf k ms).
Proof.
  intros Hin. unfold lastOf. destruct (List.find _ (rev ms)) eqn:E; [by eexists|].
  apply list_elem_of_In, in_rev, (find_none _ _ E (k, v)) in Hin. cbn in Hin. by rewrite String.eqb_refl in Hin.
Qed.

(** A tool a parser can find in a response: it looks for the key [tools], exactly or ignoring
    case, and takes any one of the arrays it finds there. *)
Definition shows (bytes : string) (v : value) : Prop :=
  exists ms k l, document bytes = Some (VObject ms) /\ (k, VArray l) ∈ ms /\ FoldJSONKey k = listKeyToolsFolded /\ v ∈ l.

(** The array every parser finds. *)
Lemma tools_found bytes ms raws k l :
  document bytes = Some (VObject ms) -> rawObject bytes = Some raws -> toolsKeyAmbiguous bytes = false ->
  (k, VArray l) ∈ ms -> FoldJSONKey k = listKeyToolsFolded ->
  exists raw, lastOf listKeyTools raws = Some raw /\ text_of raw (VArray l).
Proof.
  intros Ed Er Ha Hin Hk. destruct (objectTokens_document _ _ Ed) as (raws' & t & Er' & Et & Hf).
  rewrite Er in Er'. injection Er' as <-. unfold toolsKeyAmbiguous in Ha. rewrite Et in Ha.
  apply list_elem_of_lookup in Hin as (i & Hi). destruct (Forall2_lookup_r _ _ _ _ _ Hf Hi) as ([k' raw] & Hr & Hkk & Ht).
  cbn [fst snd] in Hkk, Ht. subst k'. apply list_elem_of_lookup_2 in Hr.
  set (fld := fun kv : string * string => String.eqb (FoldJSONKey (fst kv)) listKeyToolsFolded) in Ha.
  assert (fld (k, raw) = true) as Hfk by (by apply String.eqb_eq).
  pose proof (count_some fld raws _ Hr Hfk) as Hpos. rewrite (proj2 (Nat.eqb_neq _ _)) in Ha by lia.
  apply orb_false_iff in Ha as [Hle%Nat.ltb_ge Hex%Nat.eqb_neq].
  destruct (count_none _ _ (proj1 (Nat.neq_0_lt_0 _) Hex)) as ([k0 raw0] & H0 & Hk0%String.eqb_eq). cbn [fst] in Hk0. subst k0.
  destruct (lastOf_some _ _ _ H0) as (raw1 & H1). exists raw1. split; [done|]. apply lastOf_elem in H1.
  assert ((listKeyTools, raw1) = (k, raw)) as [= _ ->]; [|done].
  apply (count_one fld raws); [done | done | by apply String.eqb_eq | done | done].
Qed.

Lemma empty_shows_nothing bytes v : snd (decodeListEntries bytes listKeyTools) = listDecodeEmptyResult -> ~ shows bytes v.
Proof.
  unfold decodeListEntries. destruct (String.eqb_spec bytes "") as [->|_]; [|by repeat case_match].
  intros _ (ms & k & l & Ed & _). vm_compute in Ed. done.
Qed.

(** The entries the filter decodes are all the tools any parser can find. *)
Lemma entries_all bytes : let '(entries, outcome) := decodeListEntries bytes listKeyTools in
  toolsKeyAmbiguous bytes = false -> outcome = listDecodeOK \/ outcome = listDecodeKeyAbsent ->
  forall v, shows bytes v -> outcome = listDecodeOK /\ exists raw, raw ∈ entries /\ text_of raw v.
Proof.
  unfold decodeListEntries. destruct (String.eqb bytes ""); [by intros _ [?|?]|].
  destruct (rawObject bytes) as [raws|] eqn:Er; [|by intros _ [?|?]].
  destruct (lastOf listKeyTools raws) as [raw|] eqn:El.
  - pose proof (rawArray_spec raw) as Hra. destruct (rawArray raw) as [entries|]; [|by intros _ [?|?]].
    intros Ha _ v (ms & k & l & Ed & Hin & Hk & Hv). split; [done|].
    destruct (tools_found _ _ _ _ _ Ed Er Ha Hin Hk) as (raw' & El' & Ht). rewrite El in El'. injection El' as <-.
    unfold text_of in Ht. rewrite Ht in Hra. destruct Hra as (raws' & [= <-] & Hf).
    apply list_elem_of_lookup in Hv as (i & Hi). destruct (Forall2_lookup_r _ _ _ _ _ Hf Hi) as (r & Hr & Hrv).
    exists r. split; [by apply list_elem_of_lookup_2 in Hr | done].
  - intros Ha _ v (ms & k & l & Ed & Hin & Hk & Hv).
    destruct (tools_found _ _ _ _ _ Ed Er Ha Hin Hk) as (raw' & El' & _). congruence.
Qed.

End envelopes.
#[local] Opaque maxNestingDepth maxDuplicateKeyScanDepth rawValue document scanToolEntry.

(** ** What arming does *)

Section arming.
Context `{U : Unicode}.
Context {C F : Type} `{CallCounterBackend C} `{FlowStoreBackend F} `{Leaf}.
Context (sha256 : string -> string) (Marshal : node -> option string).

Abbreviation PDP := (@ManifestPDP C F).
Abbreviation World := (World C F).
Abbreviation surface_of := (entrySurface sha256 Marshal).

(** Every surface on record that differs from its pin has poisoned the tool. *)
Definition recorded (p : PDP) : Prop := forall n pin h,
  pinnedTools p !! n = Some pin -> observedToolHash p !! n = Some h -> h = pin \/ n ∈ poisonedTools p.

(** The manifest pins nothing to the empty hash. *)
Definition pins_named (p : PDP) : Prop := forall n pin, pinnedTools p !! n = Some pin -> pin <> "".

(** From [p] to [p'] by operations of session [sid] on the baseline, which leave the evidence [L],
    and by recording and poisoning. *)
Record arms (sid : string) (p p' : PDP) (L : list SurfacePin.evidence) : Prop := mkArms {
  a_ops : exists ops, surface p' = fold_left SurfacePin.apply ops (surface p) /\
    Forall (fun op => SurfacePin.op_session op = sid /\ SurfacePin.is_release op = false) ops /\
    L = flat_map SurfacePin.shown ops;
  a_frame : exists o q b, p' = set_surface (set_pins p o q) b;
  a_poison : poisonedTools p ⊆ poisonedTools p';
  a_recorded : pins_named p -> recorded p -> recorded p';
}.

Lemma arms_refl sid p : arms sid p p [].
Proof. constructor; [by exists [] | | done | done]. exists (observedToolHash p), (poisonedTools p), (surface p). by destruct p. Qed.

Lemma frame_pinned (p p' : PDP) : (exists o q b, p' = set_surface (set_pins p o q) b) ->
  pinnedTools p' = pinnedTools p /\ caps p' = caps p /\ parsedTargets p' = parsedTargets p.
Proof. by intros (o & q & b & ->). Qed.

Lemma arms_pinned sid p p' L : arms sid p p' L -> pinnedTools p' = pinnedTools p.
Proof. intros Ha. by destruct (frame_pinned _ _ (a_frame _ _ _ _ Ha)). Qed.

Lemma arms_named sid p p' L : arms sid p p' L -> pins_named p -> pins_named p'.
Proof. unfold pins_named. intros Ha. by rewrite (arms_pinned _ _ _ _ Ha). Qed.

Lemma arms_trans sid p1 p2 p3 L L' : arms sid p1 p2 L -> arms sid p2 p3 L' -> arms sid p1 p3 (L ++ L').
Proof.
  intros H1' H2'. pose proof (arms_named _ _ _ _ H1'). destruct H1' as [(ops & E1 & F1 & ->) (o & q & b & ->) Hp1 Hr1], H2' as [(ops' & E2 & F2 & ->) (o' & q' & b' & ->) Hp2 Hr2].
  constructor.
  - exists (ops ++ ops')%list. split_and!; [by rewrite fold_left_app, <- E1 | by apply Forall_app | by rewrite flat_map_app].
  - by exists o', q', b'.
  - set_solver.
  - eauto.
Qed.

Lemma arms_some sid p p' L : arms sid p p' L -> is_Some (surface p) -> is_Some (surface p').
Proof.
  intros [(ops & -> & _) _ _ _]. generalize (surface p). clear.
  induction ops as [|op ops IH]; intros b Hb; [done|]. apply IH. destruct Hb as [m ->].
  destruct op as [sid tools c|sid [|]|sid|sid]; cbn; try by eexists. destruct (SurfacePin.observeSession _ _ _). by eexists.
Qed.

Lemma arms_surface sid p op : SurfacePin.op_session op = sid -> SurfacePin.is_release op = false ->
  arms sid p (set_surface p (SurfacePin.apply (surface p) op)) (SurfacePin.shown op).
Proof.
  intros Hs Hr. constructor; [| | done | done].
  - exists [op]. cbn. rewrite app_nil_r. split_and!; [done | by repeat constructor | done].
  - exists (observedToolHash p), (poisonedTools p), (SurfacePin.apply (surface p) op). done.
Qed.

Lemma arms_pins sid p o q : poisonedTools p ⊆ q -> (recorded p -> pins_named p -> recorded (set_pins p o q)) ->
  arms sid p (set_pins p o q) [].
Proof. intros Hq Hr. constructor; [by exists [] | | done | eauto]. by exists o, q, (surface p). Qed.

Lemma arms_poison sid p q : poisonedTools p ⊆ q -> arms sid p (set_pins p (observedToolHash p) q) [].
Proof. intros Hq. apply arms_pins; [done|]. intros Hr _ n pin h Hn Ho. destruct (Hr n pin h Hn Ho); [by left | right; set_solver]. Qed.

Lemma arms_poisonAll sid p : arms sid p (poisonAllPinned p) [] /\
  forall n, is_Some (pinnedTools p !! n) -> n ∈ poisonedTools (poisonAllPinned p).
Proof.
  unfold poisonAllPinned, hasPinnedTools. case_bool_decide as Hp; cbn [negb].
  - split; [apply arms_refl|]. intros n [pin Hn]. rewrite Hp in Hn. done.
  - split; [apply arms_poison; set_solver|]. intros n Hn. apply elem_of_union. left. by apply elem_of_dom.
Qed.

Lemma arms_candidates sid ns : forall p, arms sid p (poisonCandidates ns p) [] /\
  forall n, n ∈ ns -> is_Some (pinnedTools p !! n) -> n ∈ poisonedTools (poisonCandidates ns p).
Proof.
  induction ns as [|m ns IH]; intros p; [split; [apply arms_refl | by intros n ?%elem_of_nil]|].
  unfold poisonCandidates. cbn [fold_left]. set (p1 := if bool_decide (is_Some (pinnedTools p !! m)) then markToolPoisoned m p else p).
  assert (arms sid p p1 []) as H1' by (unfold p1; destruct (bool_decide _); [apply arms_poison; set_solver | apply arms_refl]).
  destruct (IH p1) as [Ha Hn]. split; [by eapply (arms_trans _ _ _ _ [] [])|].
  intros n [->|Hin]%elem_of_cons Hs; [|apply Hn; [done | by rewrite (arms_pinned _ _ _ _ H1')]].
  apply (a_poison _ _ _ _ Ha). unfold p1. rewrite bool_decide_true by done. cbn. set_solver.
Qed.

Lemma arms_distrustAll sid p : arms sid p (distrustAll sid p) [SurfacePin.DistrustedAll] /\
  forall n, is_Some (pinnedTools p !! n) -> n ∈ poisonedTools (distrustAll sid p).
Proof.
  destruct (arms_poisonAll sid p) as [Ha Hn]. split; [|done].
  eapply (arms_trans _ _ _ _ []); [exact Ha|]. by apply (arms_surface sid _ (SurfacePin.OpBreakAll sid)).
Qed.

Lemma arms_distrust sid ns p : arms sid p (distrust sid ns p) (SurfacePin.Distrusted <$> ns) /\
  forall n, n ∈ ns -> is_Some (pinnedTools p !! n) -> n ∈ poisonedTools (distrust sid ns p).
Proof.
  destruct (arms_candidates sid ns p) as [Ha Hn]. split; [|done].
  eapply (arms_trans _ _ _ _ []); [exact Ha|]. by apply (arms_surface sid _ (SurfacePin.OpMark sid ns)).
Qed.

Lemma arms_recorded sid n h p : arms sid p (recordPinnedToolHash n h p) [] /\
  forall pin, pinnedTools p !! n = Some pin -> pin <> "" -> h = pin \/ n ∈ poisonedTools (recordPinnedToolHash n h p).
Proof.
  unfold recordPinnedToolHash. destruct (pinnedTools p !! n) as [pin|] eqn:Hn; [|by split; [apply arms_refl|]].
  unfold recordObservedHash. set (np := negb _ && _).
  assert (pin <> "" -> np = false -> h = pin) as Hnp.
  { intros Hp. unfold np. rewrite (proj2 (String.eqb_neq _ _) Hp). cbn. intros E%negb_false_iff. by apply String.eqb_eq. }
  destruct (bool_decide (_ = Some h) && _) eqn:E.
  - split; [apply arms_refl|]. intros pin' [= <-] Hp. apply andb_true_iff in E as [_ [E%negb_true_iff|E%bool_decide_eq_true]%orb_true_iff]; auto.
  - split.
    + apply arms_pins; [destruct np; set_solver|]. intros Hr Hne m pin' h' Hm Ho. cbn in Hm, Ho |- *.
      destruct (decide (m = n)) as [->|Hmn].
      * rewrite lookup_insert_eq in Ho. injection Ho as <-. rewrite Hn in Hm. injection Hm as <-.
        destruct np; [right; set_solver | left; apply Hnp; [by eapply Hne | done]].
      * rewrite lookup_insert_ne in Ho by done. destruct (Hr _ _ _ Hm Ho); [by left | right; destruct np; set_solver].
    + intros pin' [= <-] Hp. cbn. destruct np; [right; set_solver | left; auto].
Qed.

(** *** One entry *)

(** A parser, minding case or not, can take [n] for the name of the tool. *)
Definition reads_name (v : value) (n : string) : Prop :=
  n <> "" /\ exists ms, v = VObject ms /\ can_read jsonKeyName ms (VString n).

(** The tool [v] is one tool to every parser: its name is [n], its surface [h]. *)
Definition plainly (v : value) (n h : string) : Prop :=
  exists ms e, v = VObject ms /\ clear ms /\ entryOf v = Some e /\ te_Name e = n /\ surface_of e = h.

Definition pin_ok (p : PDP) (v : value) (n : string) : Prop :=
  forall pin, pinnedTools p !! n = Some pin -> pin <> "" -> n ∈ poisonedTools p \/ plainly v n pin.

Definition accounted (L : list SurfacePin.evidence) (v : value) (n : string) : Prop :=
  SurfacePin.DistrustedAll ∈ L \/ SurfacePin.Distrusted n ∈ L \/ exists h, plainly v n h /\ SurfacePin.Advertised n h ∈ L.

Lemma accounted_mono L L' v n : L ⊆ L' -> accounted L v n -> accounted L' v n.
Proof. intros HL [?|[?|(h & ? & ?)]]; [left; by apply HL | right; left; by apply HL | right; right; exists h; split; [done | by apply HL]]. Qed.

Lemma pin_ok_mono sid p p' L v n : arms sid p p' L -> pin_ok p v n -> pin_ok p' v n.
Proof.
  intros Ha Hp pin. rewrite (arms_pinned _ _ _ _ Ha). intros Hn Hne.
  destruct (Hp pin Hn Hne); [left; by apply (a_poison _ _ _ _ Ha) | by right].
Qed.

Lemma poisoned_ok p v n : (is_Some (pinnedTools p !! n) -> n ∈ poisonedTools p) -> pin_ok p v n.
Proof. intros Hn pin Hp _. left. apply Hn. by eexists. Qed.

(** A cleared entry binds the one name it shows. *)
Lemma clear_name ms e n : clear ms -> entryOf (VObject ms) = Some e -> can_read jsonKeyName ms (VString n) -> te_Name e = n.
Proof.
  intros Hc He Hr. cbn [entryOf] in He. apply bind_Some in He as (name & En & He).
  assert (te_Name e = name) as ->. { repeat (apply bind_Some in He as (? & _ & He)). by injection He as <-. }
  unfold stringField, fieldOf in En. destruct (List.find _ (rev ms)) as [[k v]|] eqn:Ef; cbn [fmap option_fmap option_map snd] in En.
  - apply find_some in Ef as [Hin Hk]. cbn [fst] in Hk. apply String.eqb_eq in Hk. apply in_rev in Hin.
    assert (v = VString n) as ->; [|by injection En].
    apply (clear_one_reading ms jsonKeyName); [done | | done]. exists k. split; [by apply list_elem_of_In | done].
  - destruct Hr as (k & Hin & Hk). apply list_elem_of_In, in_rev, (find_none _ _ Ef) in Hin. cbn [fst] in Hin.
    apply String.eqb_neq in Hin. done.
Qed.

Lemma clear_scan_complete raw : untrustworthy (scanToolEntry raw) = false -> namesComplete (scanToolEntry raw) = true.
Proof.
  pose proof (entry_scan_spec raw) as Hs. destruct (parseValue maxDuplicateKeyScanDepth (skipSpace raw)) as [[[] t]|];
    try (by destruct Hs as [Hs _]; rewrite Hs). by rewrite Hs.
Qed.

Definition adv (t : SurfacePin.ToolSurface) : SurfacePin.evidence := SurfacePin.Advertised (SurfacePin.ts_Name t) (SurfacePin.ts_Hash t).

(** A verdict that keeps an entry keeps a clear one. *)
Definition verdict_ok (raw : string) (vd : toolEntryVerdict) : Prop :=
  known vd = true -> vdrop vd = false ->
  untrustworthy (scanToolEntry raw) = false /\ exists e, decodeToolEntry raw = Some e /\ te_Name e = vname vd.

Lemma armEntry_spec sid p ts vs raw : is_Some (surface p) ->
  exists p' ts' vd L, armEntry sha256 Marshal sid (mkArm p ts vs) raw = mkArm p' (ts ++ ts')%list (vs ++ [vd])%list /\
    arms sid p p' L /\ verdict_ok raw vd /\
    forall v n, text_of raw v -> reads_name v n -> pin_ok p' v n /\ accounted (L ++ map adv ts') v n.
Proof.
  intros Hsome. unfold armEntry. destruct (untrustworthy (scanToolEntry raw)) eqn:Eu.
  { destruct (namesComplete (scanToolEntry raw)) eqn:Ec.
    - destruct (arms_distrust sid (KeyScan.names (scanToolEntry raw)) p) as [Ha Hn]. eexists _, [], _, _. rewrite app_nil_r.
      split_and!; [done | exact Ha | done |]. intros v n (t & Ep & _)%document_inv (Hne & ms & -> & Hr).
      assert (n ∈ KeyScan.names (scanToolEntry raw)) as Hin by (by apply (scan_names _ _ _ _ Ep Ec)).
      split; [apply poisoned_ok; rewrite (arms_pinned _ _ _ _ Ha); by apply Hn|].
      right. left. rewrite app_nil_r. by apply list_elem_of_fmap_2.
    - destruct (arms_distrustAll sid p) as [Ha Hn]. eexists _, [], _, _. rewrite app_nil_r.
      split_and!; [done | exact Ha | done |]. intros v n _ _.
      split; [apply poisoned_ok; rewrite (arms_pinned _ _ _ _ Ha); by apply Hn|]. left. set_solver. }
  rewrite bool_decide_true by done. cbn [negb andb].
  pose proof (clear_scan_complete _ Eu) as Ec. destruct (decodeToolEntry raw) as [e|] eqn:Ed.
  - destruct (arms_recorded sid (te_Name e) (surface_of e) p) as [Ha Hn]. eexists _, [SurfacePin.mkTool (te_Name e) (surface_of e)], _, _.
    split_and!; [done | exact Ha | intros _ _; by eauto |]. intros v n Ht (Hne & ms & -> & Hr). unfold decodeToolEntry in Ed.
    unfold text_of in Ht. rewrite Ht in Ed. cbn [mbind option_bind] in Ed. apply document_inv in Ht as (t & Ep & _).
    pose proof (scan_clear_tree _ _ _ Ep Eu) as Hc. pose proof (clear_name _ _ _ Hc Ed Hr) as Hname. subst n.
    assert (plainly (VObject ms) (te_Name e) (surface_of e)) as Hpl by (by exists ms, e).
    split; [|right; right; exists (surface_of e); split; [exact Hpl | apply elem_of_app; right; apply list_elem_of_here]].
    intros pin Hp Hpe. rewrite (arms_pinned _ _ _ _ Ha) in Hp. destruct (Hn pin Hp Hpe) as [<-|]; [by right | by left].
  - destruct (arms_distrust sid (KeyScan.names (scanToolEntry raw)) p) as [Ha Hn]. eexists _, [], _, _. rewrite app_nil_r.
    split_and!; [done | exact Ha | done |]. intros v n (t & Ep & _)%document_inv (Hne & ms & -> & Hr).
    assert (n ∈ KeyScan.names (scanToolEntry raw)) as Hin by (by apply (scan_names _ _ _ _ Ep Ec)).
    split; [apply poisoned_ok; rewrite (arms_pinned _ _ _ _ Ha); by apply Hn|].
    right. left. rewrite app_nil_r. by apply list_elem_of_fmap_2.
Qed.

Lemma armEntries_spec sid raws : forall p ts vs, is_Some (surface p) ->
  exists p' ts' vs' L, fold_left (armEntry sha256 Marshal sid) raws (mkArm p ts vs) = mkArm p' (ts ++ ts')%list (vs ++ vs')%list /\
    arms sid p p' L /\ Forall2 verdict_ok raws vs' /\
    forall raw v n, raw ∈ raws -> text_of raw v -> reads_name v n -> pin_ok p' v n /\ accounted (L ++ map adv ts') v n.
Proof.
  induction raws as [|raw raws IH]; intros p ts vs Hsome; cbn [fold_left].
  { exists p, [], [], []. rewrite !app_nil_r. split_and!; [done | apply arms_refl | done | by intros ??? ?%elem_of_nil]. }
  destruct (armEntry_spec sid p ts vs raw Hsome) as (p1 & ts1 & vd & L1 & -> & Ha1 & Hv1 & H1').
  destruct (IH p1 (ts ++ ts1)%list (vs ++ [vd])%list (arms_some _ _ _ _ Ha1 Hsome)) as (p2 & ts2 & vs2 & L2 & -> & Ha2 & Hv2 & H2').
  exists p2, (ts1 ++ ts2)%list, (vd :: vs2), (L1 ++ L2)%list. rewrite <- !app_assoc. cbn [app].
  split_and!; [done | by eapply arms_trans | by constructor |].
  intros raw' v n [->|Hin]%elem_of_cons Ht Hr.
  - destruct (H1' v n Ht Hr) as [Hp Hacc]. split; [by eapply pin_ok_mono|]. eapply accounted_mono; [|exact Hacc].
    rewrite map_app. set_solver.
  - destruct (H2' raw' v n Hin Ht Hr) as [Hp Hacc]. split; [done|]. eapply accounted_mono; [|exact Hacc].
    rewrite map_app. set_solver.
Qed.

(** *** One response *)

Lemma distrustAll_ok sid p (P : value -> string -> Prop) : exists L, arms sid p (distrustAll sid p) L /\
  forall v n, P v n -> pin_ok (distrustAll sid p) v n /\ accounted L v n.
Proof.
  destruct (arms_distrustAll sid p) as [Ha Hn]. exists [SurfacePin.DistrustedAll]. split; [done|]. intros v n _.
  split; [apply poisoned_ok; rewrite (arms_pinned _ _ _ _ Ha); by apply Hn | left; apply list_elem_of_here].
Qed.

Lemma armPins_spec (p : PDP) sid bytes complete : is_Some (surface p) ->
  let '(_, vs, _, p') := armPinsFromToolsList sha256 Marshal p sid bytes complete in
  (exists L, arms sid p p' L /\
    forall v n, shows bytes v /\ reads_name v n -> pin_ok p' v n /\ accounted L v n) /\
  (vs = [] \/ exists entries, decodeListEntries bytes listKeyTools = (entries, listDecodeOK) /\ Forall2 verdict_ok entries vs).
Proof.
  intros Hsome. unfold armPinsFromToolsList. pose proof (entries_all bytes) as Hall. pose proof (empty_shows_nothing bytes) as Hempty.
  rewrite bool_decide_true by done. rewrite andb_false_r.
  destruct (decodeListEntries bytes listKeyTools) as [entries outcome]. destruct outcome.
  - destruct (toolsKeyAmbiguous bytes) eqn:Ea; [split; [apply distrustAll_ok | by left]|].
    destruct (armEntries_spec sid entries p [] [] Hsome) as (p1 & ts & vs & L & -> & Ha & Hv & He). cbn [app].
    unfold observe. destruct (SurfacePin.Observe (surface p1) sid ts complete) as [changes b] eqn:Eo.
    assert (arms sid p1 (set_surface p1 b) (map adv ts)) as Ha'.
    { replace b with (SurfacePin.apply (surface p1) (SurfacePin.OpObserve sid ts complete)) by (cbn [SurfacePin.apply]; by rewrite Eo).
      by apply (arms_surface sid p1 (SurfacePin.OpObserve sid ts complete)). }
    split; [|right; by exists entries]. exists (L ++ map adv ts)%list. split; [by eapply arms_trans|].
    intros v n [Hsh Hr]. destruct (Hall eq_refl (or_introl eq_refl) v Hsh) as (_ & raw & Hin & Ht).
    destruct (He raw v n Hin Ht Hr) as [Hp Hacc]. split; [by eapply pin_ok_mono | done].
  - split; [|by left]. exists []. split; [apply arms_refl|]. intros v n [Hsh _]. by destruct (Hempty v eq_refl).
  - split; [apply distrustAll_ok | by left].
  - split; [|by left]. destruct (toolsKeyAmbiguous bytes) eqn:Ea; [apply distrustAll_ok|].
    exists []. split; [apply arms_refl|]. intros v n [Hsh _]. by destruct (Hall eq_refl (or_intror eq_refl) v Hsh).
  - split; [apply distrustAll_ok | by left].
Qed.

(** ** Histories *)

(** What reaches the decision point: a list that is filtered, one that is only recorded, and the
    end of a session. *)
Inductive event :=
| Filtered (ctx : PCtx) (bytes : string)
| Observed (ctx : PCtx) (bytes : string)
| Released (sid : string).

Definition step (s : PDP * World) (e : event) : PDP * World :=
  let '(p, w) := s in
  match e with
  | Filtered ctx bytes => ((FilterToolsList sha256 Marshal p ctx bytes).2, w)
  | Observed ctx bytes => ((RecordObservedToolHashes sha256 Marshal p ctx bytes).2, w)
  | Released sid => ReleaseSession p sid w
  end.

Definition runs (s : PDP * World) (evs : list event) : PDP * World := fold_left step evs s.

Definition listing (e : event) : option (string * string) :=
  match e with Filtered ctx bytes | Observed ctx bytes => Some (ctx_sessionID ctx, bytes) | Released _ => None end.

(** The responses session [sid] was answered with since it began. *)
Definition since_step (sid : string) (seen : list string) (e : event) : list string :=
  match e with
  | Filtered ctx bytes | Observed ctx bytes =>
      if String.eqb (ctx_sessionID ctx) sid then (seen ++ [bytes])%list else seen
  | Released sid' => if String.eqb sid' sid then [] else seen
  end.

Definition since (sid : string) (evs : list event) : list string := fold_left (since_step sid) evs [].

(** The responses of all sessions. *)
Definition ever (evs : list event) : list string := snd <$> omap listing evs.

Record tracked (cs : list Constraint) (p : PDP) (evs : list event) (lives : string -> list SurfacePin.evidence) : Prop := mkTracked {
  t_caps : caps p = cs;
  t_wired : wired p;
  t_recorded : recorded p;
  t_faithful : SurfacePin.faithful (surface p) lives;
  t_session : forall sid bytes v n, bytes ∈ since sid evs -> shows bytes v -> reads_name v n -> accounted (lives sid) v n;
  t_pinned : forall bytes v n, bytes ∈ ever evs -> shows bytes v -> reads_name v n -> pin_ok p v n;
}.

Lemma pinned_named_from cs : forall m, (forall n pin, m !! n = Some pin -> pin <> "") ->
  forall n pin, fold_left pinStep cs m !! n = Some pin -> pin <> "".
Proof.
  induction cs as [|c cs IH]; intros m Hm; [done|]. apply IH. intros n pin. unfold pinStep.
  destruct (ParseTarget (Target c)) as [[ty bare]|]; [|by apply Hm]. destruct (IsPinnedExactTool c) eqn:E; [|by apply Hm].
  destruct (m !! bare); [by apply Hm|]. rewrite lookup_insert_Some. intros [[_ <-]|[_ ?]]; [|by eapply Hm].
  unfold IsPinnedExactTool in E. apply andb_true_iff in E as [E%negb_true_iff _]. by apply String.eqb_neq.
Qed.

Lemma wired_named p : wired p -> pins_named p.
Proof. intros Hw n pin. rewrite (w_pinned _ Hw). by apply pinned_named_from. Qed.

Lemma arms_wired sid p p' L : arms sid p p' L -> wired p -> wired p'.
Proof. intros [_ (o & q & b & ->) _ _] []. by constructor. Qed.

Lemma faithful_ops ops : forall b lives, SurfacePin.faithful b lives ->
  SurfacePin.faithful (fold_left SurfacePin.apply ops b) (fun sid => fold_left (SurfacePin.life_step sid) ops (lives sid)).
Proof.
  induction ops as [|op ops IH]; intros b lives Hf; [done|]. cbn [fold_left].
  exact (IH _ (fun sid => SurfacePin.life_step sid (lives sid) op) (SurfacePin.apply_faithful _ op _ Hf)).
Qed.

Lemma life_ops sid sid' ops : Forall (fun op => SurfacePin.op_session op = sid /\ SurfacePin.is_release op = false) ops ->
  forall L, fold_left (SurfacePin.life_step sid') ops L =
    if String.eqb sid sid' then (L ++ flat_map SurfacePin.shown ops)%list else L.
Proof.
  induction 1 as [|op ops [Hs Hr] _ IH]; intros L; cbn [fold_left flat_map]; [rewrite app_nil_r; by case_match|].
  rewrite IH. unfold SurfacePin.life_step. rewrite Hs, Hr. destruct (String.eqb sid sid'); cbn [negb]; [by rewrite app_assoc | done].
Qed.

Lemma listed_tracked cs p p' sid bytes evs e lives :
  listing e = Some (sid, bytes) -> tracked cs p evs lives ->
  (exists L, arms sid p p' L /\ forall v n, shows bytes v /\ reads_name v n -> pin_ok p' v n /\ accounted L v n) ->
  exists lives', tracked cs p' (evs ++ [e]) lives'.
Proof.
  intros He [Hcs Hw Hr Hf Hs Hp] (L & Ha & Hacc). destruct (a_ops _ _ _ _ Ha) as (ops & Eo & Hops & ->).
  eexists. constructor.
  - rewrite <- Hcs. by destruct (frame_pinned _ _ (a_frame _ _ _ _ Ha)) as (_ & ? & _).
  - by eapply arms_wired.
  - by apply (a_recorded _ _ _ _ Ha); [apply wired_named|].
  - rewrite Eo. by apply faithful_ops.
  - intros sid' b v n Hin Hsh Hn. cbv beta. rewrite (life_ops sid) by done.
    assert (since sid' (evs ++ [e]) = if String.eqb sid sid' then (since sid' evs ++ [bytes])%list else since sid' evs) as Hsin.
    { unfold since. rewrite fold_left_app. destruct e; [| |done]; injection He as <- <-; done. }
    rewrite Hsin in Hin. destruct (String.eqb sid sid'); [|by eapply Hs].
    apply elem_of_app in Hin as [Hin| ->%list_elem_of_singleton].
    + eapply accounted_mono; [|by eapply Hs]. set_solver.
    + eapply accounted_mono; [|by apply Hacc]. set_solver.
  - intros b v n Hin Hsh Hn. unfold ever in Hin. rewrite omap_app, fmap_app in Hin. cbn in Hin. rewrite He in Hin.
    apply elem_of_app in Hin as [Hin| ->%list_elem_of_singleton]; [|by apply Hacc].
    eapply pin_ok_mono; [exact Ha|]. by eapply Hp.
Qed.

Lemma faithful_some b lives : SurfacePin.faithful b lives -> is_Some b.
Proof. intros (m & -> & _). by eexists. Qed.

Lemma step_tracked cs s e evs lives : tracked cs s.1 evs lives -> exists lives', tracked cs (step s e).1 (evs ++ [e]) lives'.
Proof.
  destruct s as [p w]. cbn [fst]. intros Ht. pose proof (faithful_some _ _ (t_faithful _ _ _ _ Ht)) as Hsome.
  destruct e as [ctx bytes|ctx bytes|sid]; cbn [step fst].
  - eapply listed_tracked; [done | exact Ht|]. unfold FilterToolsList, filterToolsListResult.
    rewrite (bool_decide_true (is_Some (surface p))), orb_true_r by done.
    pose proof (armPins_spec p (ctx_sessionID ctx) bytes (ctx_completeListing ctx) Hsome) as Hx.
    destruct (armPinsFromToolsList _ _ _ _ _ _) as [[[? ?] ?] p']. by destruct Hx.
  - eapply listed_tracked; [done | exact Ht|]. unfold RecordObservedToolHashes.
    pose proof (armPins_spec p (ctx_sessionID ctx) bytes (ctx_completeListing ctx) Hsome) as Hx.
    destruct (armPinsFromToolsList _ _ _ _ _ _) as [[[? ?] ?] p']. by destruct Hx.
  - unfold ReleaseSession, Backends.bind, ret. destruct (ClearSessionLabels (engine p) sid w) as [r w']. cbn [fst].
    destruct Ht as [Hcs Hw Hr Hf Hs Hp]. eexists. constructor.
    + exact Hcs.
    + destruct Hw. by constructor.
    + exact Hr.
    + exact (SurfacePin.apply_faithful _ (SurfacePin.OpRelease sid) _ Hf).
    + intros sid' b v n Hin Hsh Hn. unfold since in Hin. rewrite fold_left_app in Hin. cbn [fold_left since_step] in Hin.
      cbv beta. unfold SurfacePin.life_step. cbn [SurfacePin.op_session SurfacePin.is_release].
      destruct (String.eqb sid sid'); cbn [negb]; [by apply elem_of_nil in Hin | by eapply Hs].
    + intros b v n Hin Hsh Hn. unfold ever in Hin. rewrite omap_app, fmap_app in Hin. cbn in Hin. rewrite app_nil_r in Hin. by eapply Hp.
Qed.

Lemma runs_tracked cs e k (w : World) evs : exists lives, tracked cs (runs (NewManifestPDP cs e k, w) evs).1 evs lives.
Proof.
  induction evs as [|ev evs [lives IH]] using rev_ind.
  - exists (fun _ => []). constructor; [|apply wired_new | intros n pin h _ Ho; cbn [runs fold_left fst NewManifestPDP observedToolHash] in Ho; by rewrite lookup_empty in Ho | | |].
    + reflexivity.
    + exists ∅. split; [done|]. intros sid. apply SurfacePin.pinned_new.
    + by intros sid b v n ?%elem_of_nil.
    + by intros b v n ?%elem_of_nil.
  - unfold runs. rewrite fold_left_app. by apply (step_tracked cs (runs (NewManifestPDP cs e k, w) evs) ev evs lives).
Qed.

(** C27: No rug pull goes unnoticed.  After any history of lists and ended sessions, take a tool that is
    still callable in a session.  In every list the session was answered with since it began,
    whatever any parser (minding case or not, taking the first or the last of several members)
    can take for that tool is one and the same interface: an entry all parsers read alike, with
    this name and with one and the same surface hash.  If the manifest pins the tool, that hash is
    the manifest's, in every list any session was ever answered with. *)
Theorem callable_tool_unchanged cs e k (w : World) evs sid n :
  let p := (runs (NewManifestPDP cs e k, w) evs).1 in
  interface_broken p sid n = false ->
  (exists h, forall bytes v, bytes ∈ since sid evs -> shows bytes v -> reads_name v n -> plainly v n h) /\
  (forall pin, pinnedTools (NewManifestPDP cs e k) !! n = Some pin ->
    forall bytes v, bytes ∈ ever evs -> shows bytes v -> reads_name v n -> plainly v n pin).
Proof.
  cbv zeta. destruct (runs_tracked cs e k w evs) as (lives & [Hcs Hw Hr Hf Hs Hp]).
  set (p := (runs _ evs).1) in *. intros [Hpin Hsur]%orb_false_iff. split.
  - destruct Hf as (m & Em & Hm). destruct (Hm sid) as [Hc _].
    assert (SurfacePin.brokenIn (SurfacePin.session m sid) n = false) as Hb.
    { unfold surfaceBroken in Hsur. rewrite Em in Hsur. cbn in Hsur. unfold SurfacePin.session. by destruct (m !! sid). }
    exists (default "" (SurfacePin.hashes (SurfacePin.session m sid) !! n)). intros bytes v Hin Hsh Hn.
    destruct (Hs sid bytes v n Hin Hsh Hn) as [Ha|[Hd|(h & Hpl & Ha)]].
    + apply (SurfacePin.c_all _ _ Hc) in Ha. unfold SurfacePin.brokenIn in Hb. by rewrite Ha in Hb.
    + apply (SurfacePin.c_marked _ _ Hc) in Hd. congruence.
    + destruct (SurfacePin.c_adv _ _ Hc _ _ Ha) as [->|?]; [done | congruence].
  - intros pin Hpn bytes v Hin Hsh Hn. assert (pinnedTools p !! n = Some pin) as Hpn' by (by rewrite (w_pinned _ Hw), Hcs).
    destruct (Hp bytes v n Hin Hsh Hn pin Hpn') as [Hpo|]; [by eapply (wired_named p Hw) | exfalso | done].
    unfold pinBroken, pinViolated in Hpin. rewrite Hpn', bool_decide_true in Hpin by done. done.
Qed.

(** ** What a list shows *)

(** An entry kept under the identifier [id]. *)
Definition entry_of_id (f raw id : string) : Prop :=
  exists ms, document raw = Some (VObject ms) /\ clear ms /\ stringField f ms = Some id.

Definition callable (p : PDP) (claims : gmap string value) (target : EnforceTarget) : Prop :=
  exists c, findConstraint p target claims = Some c /\ permits target c = true.

Lemma evaluate_ok raw : verdict_ok raw (evaluateToolEntry raw).
Proof.
  intros _. unfold evaluateToolEntry, entryKeysAmbiguous. destruct (untrustworthy (scanToolEntry raw)) eqn:E; [done|].
  destruct (decodeToolEntry raw) as [e|]; [|done]. by eauto.
Qed.

Lemma scan_clear_document raw v : untrustworthy (scanToolEntry raw) = false -> document raw = Some v -> exists ms, v = VObject ms /\ clear ms.
Proof.
  intros (ms & t & E & Hc)%scan_clears (t' & E' & _)%document_inv. apply (shallow_deep _ _ _ maxNestingDepth) in E; [|apply shallow_in_limit].
  rewrite E in E'. injection E' as <- <-. by exists ms.
Qed.

Lemma verdict_entry raw vd : known vd = true -> vdrop vd = false -> verdict_ok raw vd -> entry_of_id "name" raw (vname vd).
Proof.
  intros Hk Hd Hv. destruct (Hv Hk Hd) as (Hu & e & He & Hn). unfold decodeToolEntry in He. apply bind_Some in He as (v & Ev & He).
  destruct (scan_clear_document _ _ Hu Ev) as (ms & -> & Hc). exists ms. split_and!; [done..|].
  cbn [entryOf] in He. apply bind_Some in He as (name & En & He). rewrite En. f_equal. rewrite <- Hn.
  repeat (apply bind_Some in He as (? & _ & He)). by injection He as <-.
Qed.

Lemma keepTool_ok (p : PDP) claims sid vs i raw id : recorded p -> verdict_ok raw (verdictAt vs i) ->
  keepTool p claims sid vs i raw = (true, id) ->
  entry_of_id "name" raw id /\ callable p claims (mkEnforceTarget TargetTypeTool id) /\ interface_broken p sid id = false.
Proof.
  intros Hr Hv. unfold keepTool. set (vd := if known _ then _ else _).
  assert (verdict_ok raw vd /\ known vd = true) as [Hvd Hk].
  { unfold vd. destruct (known (verdictAt vs i)) eqn:Ek; [done|]. split; [apply evaluate_ok|].
    unfold evaluateToolEntry. by repeat case_match. }
  destruct (vdrop vd) eqn:Ed; [done|]. destruct (findConstraint p _ claims) as [c|] eqn:Ef; [|done].
  destruct (containsAction (Actions c) "call") eqn:Ec; [|done]. cbn [negb].
  destruct (_ && isToolPoisoned p (vname vd)) eqn:Ep; [done|]. destruct (SurfacePin.Broken _ sid (vname vd)) eqn:Eb; [done|].
  intros [= <-]. split; [by apply verdict_entry|]. split; [by exists c|]. unfold interface_broken. apply orb_false_iff. split; [|done].
  unfold pinBroken. destruct (pinnedTools p !! vname vd) as [pin|] eqn:Hn; [|done]. rewrite bool_decide_true in Ep by done.
  cbn [andb] in Ep. unfold isToolPoisoned in Ep. unfold pinViolated. rewrite Ep. apply bool_decide_eq_false in Ep.
  destruct (observedToolHash p !! vname vd) as [h|] eqn:Ho; [|done]. destruct (Hr _ _ _ Hn Ho) as [->|]; [|done].
  by rewrite String.eqb_refl.
Qed.

Lemma keptEntries_spec (keep : nat -> string -> bool * string) (P : string -> string -> Prop) raws :
  (forall i raw id, raws !! i = Some raw -> keep i raw = (true, id) -> P raw id) ->
  Forall (fun kv => P (fst kv) (snd kv)) (keptEntries keep raws).
Proof.
  unfold keptEntries. intros Hk. apply Forall_forall. intros [raw id] Hin.
  apply list_elem_of_In, in_concat in Hin as (l & Hl & Hin). apply list_elem_of_In, elem_of_lookup_imap in Hl as (i & raw' & -> & Hi).
  destruct (keep i raw') as [[] id'] eqn:E; [|done]. destruct Hin as [[= <- <-]|[]]. by eapply Hk.
Qed.

Lemma filtered_spec bytes fieldName keep (P : string -> string -> Prop) :
  (forall env raws i raw id, decodeOrderedObject bytes = Some env -> (lastOf fieldName env ≫= rawArray) = Some raws ->
    raws !! i = Some raw -> keep i raw = (true, id) -> P raw id) ->
  Forall2 P (Entries (filterListResult bytes fieldName keep)) (entryIDs (filterListResult bytes fieldName keep)).
Proof.
  intros Hk. unfold filterListResult. destruct (String.eqb bytes ""); [constructor|].
  destruct (decodeOrderedObject bytes) as [env|] eqn:Ee; [|constructor].
  destruct (lastOf fieldName env ≫= rawArray) as [raws|] eqn:Er; [|constructor].
  destruct (encodeOrderedObjectWithList _ _ _); [|constructor]. cbn [Entries entryIDs].
  apply Forall2_fmap, Forall_Forall2_diag. apply (keptEntries_spec keep P). intros i raw id Hi Hkeep. by eapply Hk.
Qed.

(** The two decodes of a list agree on its entries. *)
Lemma ordered_entries bytes entries env raws : decodeListEntries bytes listKeyTools = (entries, listDecodeOK) ->
  decodeOrderedObject bytes = Some env -> (lastOf listKeyTools env ≫= rawArray) = Some raws -> raws = entries.
Proof.
  unfold decodeListEntries, decodeOrderedObject. destruct (String.eqb bytes ""); [done|].
  destruct (rawObject bytes) as [ms|] eqn:Er; [|done]. destruct (lastOf listKeyTools ms) as [raw|] eqn:El; [|done].
  destruct (rawArray raw) as [es|] eqn:Ea; [|done]. intros [= <-].
  pose proof (rawObject_spec bytes) as Hd. destruct (document bytes) as [[| | | | | | | | |ms0]|] eqn:Ed; try congruence.
  - rewrite Er in Hd. by injection Hd as ->.
  - destruct (objectTokens_document _ _ Ed) as (raws' & t & Er' & -> & _). rewrite Er in Er'. injection Er' as <-. cbn [mbind option_bind].
    destruct (repeats _ _); [done|]. destruct (_ && _); [|done]. intros [= <-]. rewrite El. cbn [mbind option_bind]. congruence.
Qed.

Lemma keepByManifest_ok (p : PDP) claims ty action f i raw id :
  action = requiredActionFor ty ->
  keepByManifestEntry p claims ty action (decodeID f) i raw = (true, id) ->
  entry_of_id f raw id /\ callable p claims (mkEnforceTarget ty id).
Proof.
  intros ->. unfold keepByManifestEntry, entryKeysAmbiguous. destruct (untrustworthy (scanToolEntry raw)) eqn:Eu; [done|].
  destruct (decodeID f raw) as [id'|] eqn:Ei; [|done]. destruct (findConstraint _ _ _) as [c|] eqn:Ef; [|done].
  destruct (containsAction _ _) eqn:Ec; [|done]. intros [= <-]. split; [|by exists c].
  unfold decodeID in Ei. destruct (document raw) as [v|] eqn:Ed; [|done].
  destruct (scan_clear_document _ _ Eu Ed) as (ms & -> & Hc). by exists ms.
Qed.

Lemma listed_usable cs e k (w : World) evs ctx bytes :
  let p := (runs (NewManifestPDP cs e k, w) evs).1 in
  let claims := jwtClaimsAsMap ctx in
  let '(r, _, p') := FilterToolsList sha256 Marshal p ctx bytes in
  Forall2 (fun raw id => entry_of_id "name" raw id /\ callable p' claims (mkEnforceTarget TargetTypeTool id) /\
    interface_broken p' (ctx_sessionID ctx) id = false) (Entries r) (entryIDs r) /\
  (let r := FilterResourcesList p ctx bytes in
   Forall2 (fun raw id => entry_of_id "uri" raw id /\ callable p claims (mkEnforceTarget TargetTypeResource id)) (Entries r) (entryIDs r)) /\
  (let r := FilterPromptsList p ctx bytes in
   Forall2 (fun raw id => entry_of_id "name" raw id /\ callable p claims (mkEnforceTarget TargetTypePrompt id)) (Entries r) (entryIDs r)).
Proof.
  cbv zeta. destruct (runs_tracked cs e k w evs) as (lives & Ht). set (p := (runs _ evs).1) in *.
  pose proof (step_tracked cs (p, w) (Filtered ctx bytes) evs lives Ht) as (lives' & Ht'). cbn [step fst] in Ht'.
  pose proof (faithful_some _ _ (t_faithful _ _ _ _ Ht)) as Hsome.
  pose proof (armPins_spec p (ctx_sessionID ctx) bytes (ctx_completeListing ctx) Hsome) as Hv.
  unfold FilterToolsList, filterToolsListResult in *. rewrite (bool_decide_true (is_Some (surface p))), orb_true_r in * by done.
  destruct (armPinsFromToolsList _ _ _ _ _ _) as [[[? vs] ?] p']. destruct Hv as [_ Hv]. cbn [snd] in Ht'. split; [|split].
  - apply filtered_spec. intros env raws i raw id He Hr Hi Hk. eapply keepTool_ok; [apply Ht' | | exact Hk].
    destruct Hv as [->|(entries & Hd & Hv)]; [done|]. rewrite (ordered_entries _ _ _ _ Hd He Hr) in Hi.
    destruct (Forall2_lookup_l _ _ _ _ _ Hv Hi) as (vd & Hvd & Hok). unfold verdictAt. by rewrite Hvd.
  - apply filtered_spec. intros env raws i raw id _ _ _ Hk. by eapply keepByManifest_ok.
  - apply filtered_spec. intros env raws i raw id _ _ _ Hk. by eapply keepByManifest_ok.
Qed.

(** Lists show what can be used.  After any history, every tool a filtered list keeps is an entry all
    parsers read alike, under its one name; the manifest lets this caller call that name, and
    neither pin refuses it in this session once the list itself has been taken into account.
    Every resource and prompt kept is such an entry that the manifest lets this caller read or
    get. *)
Theorem listed_entries_usable cs e k (w : World) evs ctx bytes :
  let p := (runs (NewManifestPDP cs e k, w) evs).1 in
  let claims := jwtClaimsAsMap ctx in
  let '(r, _, p') := FilterToolsList sha256 Marshal p ctx bytes in
  Forall2 (fun raw id => entry_of_id "name" raw id /\ callable p' claims (mkEnforceTarget TargetTypeTool id) /\
    interface_broken p' (ctx_sessionID ctx) id = false) (Entries r) (entryIDs r) /\
  (let r := FilterResourcesList p ctx bytes in
   Forall2 (fun raw id => entry_of_id "uri" raw id /\ callable p claims (mkEnforceTarget TargetTypeResource id)) (Entries r) (entryIDs r)) /\
  (let r := FilterPromptsList p ctx bytes in
   Forall2 (fun raw id => entry_of_id "name" raw id /\ callable p claims (mkEnforceTarget TargetTypePrompt id)) (Entries r) (entryIDs r)).
Proof. apply listed_usable. Qed.

End arming.
End ListSafety.
