(* ===== verification/ListScenarios.v ===== *)
(** * Lists on a small manifest

    The lists of ListFilter.v answered to one session: a tool whose interface stays, and one
    whose description changes between two lists. *)
From stdpp Require Import base tactics list gmap strings fin_sets.
From Stdlib Require Import ZArith Lia Ascii String.
From S2P Require Import Prelude GoStrings GoPath CallCounter FlowLabelStore Capability CaseFold Selection.
From S2P Require Import Anchor Backends Engine Fixtures EngineSafety FlowControl KillSwitch SurfacePin.
From S2P Require Import ManifestPDP PDPSafety PDPForwarding PDPScenarios JSON KeyScan ToolSurface ListFilter ListSafety.
#[local] Open Scope string_scope.
Import Capability CaseFold Backends Engine Fixtures ManifestPDP PDPSafety PDPScenarios JSON ToolSurface ListFilter ListSafety.

Module ListScenarios.

Definition hash (s : string) : string := s.
Definition marshal (_ : node) : option string := Some "{}".

Definition list_ctx : PCtx := mkPCtx (fx_ctx false) None [] "s1" true.

Definition first_list : string :=
  text "{'tools':[{'name':'read_secrets','description':'reads'},{'name':'read_me','description':'safe'}],'cacheScope':'public'}".
(** The second tool's description is another one, and an entry repeats a key. *)
Definition second_list : string :=
  text "{'tools':[{'description':'reads','name':'read_secrets'},{'name':'read_me','description':'evil'},{'name':'read_x','Name':'read_y'}]}".

Definition history : list event := [Filtered list_ctx first_list; Observed list_ctx second_list].

Definition session_pdp : @ManifestPDP FxC FxF := (runs hash marshal (demo_pdp None, fx_world) history).1.

Example changed_tool_broken :
  interface_broken session_pdp "s1" "read_secrets" = false /\ interface_broken session_pdp "s1" "read_me" = true /\
  interface_broken session_pdp "s1" "read_y" = true.
Proof. vm_compute. done. Qed.

(** The list that is passed on keeps the tool that stayed, and is private. *)
Example filtered_list :
  let r := (FilterToolsList hash marshal session_pdp list_ctx
    (text "{'cacheScope':'public', 'tools':[ {'name' : 'read_secrets','description':'reads'}, {'name':'read_me'}, {'name':'drop_db'}]}")).1.1 in
  (Result r, entryIDs r, Upstream r) =
  (text "{'cacheScope':'private','tools':[{'name':'read_secrets','description':'reads'}]}", ["read_secrets"], 3%nat).
Proof. vm_compute. reflexivity. Qed.

Lemma callable_tool_unchanged_witness :
  exists h, plainly hash marshal (VObject [("name", VString "read_secrets"); ("description", VString "reads")]) "read_secrets" h /\
    plainly hash marshal (VObject [("description", VString "reads"); ("name", VString "read_secrets")]) "read_secrets" h.
Proof.
  destruct (callable_tool_unchanged hash marshal demo_caps FlowControl.demo_sinks None fx_world history "s1" "read_secrets") as [[h Hh] _].
  - vm_compute. reflexivity.
  - exists h. split.
    + apply (Hh first_list); [apply list_elem_of_here | |].
      * eexists _, "tools", _. split; [vm_compute; reflexivity|]. split; [apply list_elem_of_here|].
        split; [vm_compute; reflexivity | apply list_elem_of_here].
      * split; [discriminate|]. eexists. split; [reflexivity|]. exists "name". split; [apply list_elem_of_here | reflexivity].
    + apply (Hh second_list); [apply list_elem_of_further, list_elem_of_here | |].
      * eexists _, "tools", _. split; [vm_compute; reflexivity|]. split; [apply list_elem_of_here|].
        split; [vm_compute; reflexivity | apply list_elem_of_here].
      * split; [discriminate|]. eexists. split; [reflexivity|]. exists "name". split; [apply list_elem_of_further, list_elem_of_here | reflexivity].
Defined.

End ListScenarios.
