(* ===== verification/Redact.v ===== *)
(** * Redaction of responses

    internal/pdp/redact.go: masking the fields a [redactFields] obligation names in the bytes
    of a tool result, and the loader's check of such paths ([validateRedactFields] of
    internal/config/manifest.go).

    A decoded object is a Go map: the list of its members, one per key, in the order of the
    keys (Encode.v).  The code updates it in place; here every pass returns the tree it leaves
    and whether it changed.  The decoder never shares a subtree, so nothing else sees an update.
    A range over a map visits its members in some order; each pass treats them one by one, so
    the order can only decide which of several errors is returned. *)
From stdpp Require Import base tactics list gmap strings fin_sets.
From Stdlib Require Import ZArith Lia Ascii String.
From S2P Require Import Prelude GoStrings GoPath Truncate Runes Capability CaseFold JSON Encode KeyScan.
#[local] Open Scope string_scope.
Import GoPath Capability CaseFold JSON Encode KeyScan.

Module Redact.

Abbreviation node := (list (string * value)).

Inductive redactError :=
| ParseFailed | NullEnvelope | TrailingData | AmbiguousEnvelope | ReservedVariant (key : string)
| ContentNotArray | ItemNotObject | ItemWithoutType | EmbeddedResource (type : string) | UnrecognizedType (type : string)
| TextMissing | TextNotString | TooDeep | AmbiguousLeaf | MarshalFailed.

(** ** Maps *)

(** A decode into an [interface{}]. *)
Fixpoint decodeMaps (v : value) : value :=
  match v with
  | VArray l => VArray (map decodeMaps l)
  | VObject ms => VObject (mapOf (map (fun kv => (fst kv, decodeMaps (snd kv))) ms))
  | v => v
  end.

Definition get (k : string) (ms : node) : option value := snd <$> List.find (fun kv => String.eqb (fst kv) k) ms.

(** Assignment to a key that is present. *)
Definition assign (k : string) (v : value) (ms : node) : node :=
  map (fun kv => if String.eqb (fst kv) k then (fst kv, v) else kv) ms.

(** A pass over the elements, one by one. *)
Fixpoint traverse {A B} (f : A -> result (B * bool) redactError) (l : list A) : result (list B * bool) redactError :=
  match l with
  | [] => Ok ([], false)
  | x :: l => (let* '(y, c) := f x in let* '(ys, cs) := traverse f l in Ok (y :: ys, c || cs))%go
  end.

Definition onMember (f : string -> value -> result (value * bool) redactError) (kv : string * value)
    : result ((string * value) * bool) redactError :=
  (let* '(v, c) := f (fst kv) (snd kv) in Ok ((fst kv, v), c))%go.

(** ** Masking by paths *)

Definition redactedSentinel : string := "[redacted]".

Definition normalizeDotPathRoot (dotPath : string) : string :=
  if has_prefix dotPath "$." then drop_str 2 dotPath else if String.eqb dotPath "$" then "" else dotPath.

(** The value at the rest of a path: an object, or objects in arrays. *)
Definition redactValuePath (rec : node -> node * bool) : value -> value * bool :=
  fix go (v : value) : value * bool :=
    match v with
    | VObject ms => let '(ms, c) := rec ms in (VObject ms, c)
    | VArray l => (VArray (map (fun v => fst (go v)) l), existsb (fun v => snd (go v)) l)
    | v => (v, false)
    end.

(** The segments of the path, one per level. *)
Fixpoint redactSegments (segs : list string) (obj : node) : node * bool :=
  match segs with
  | [] => (obj, false)
  | [key] => if bool_decide (is_Some (get key obj)) then (assign key (VString redactedSentinel) obj, true) else (obj, false)
  | key :: rest =>
      match get key obj with
      | Some v => let '(v, c) := redactValuePath (redactSegments rest) v in (assign key v obj, c)
      | None => (obj, false)
      end
  end.

Definition redactDotPathRec (obj : node) (dotPath : string) : node * bool := redactSegments (split_char "." dotPath) obj.

(** Every path, in order. *)
Definition redactPaths (paths : list string) (obj : node) : node * bool :=
  fold_left (fun '(obj, changed) p => let '(obj, c) := redactDotPathRec obj p in (obj, changed || c)) paths (obj, false).

Fixpoint redactJSONValue (val : value) (paths : list string) : value * bool :=
  match val with
  | VObject ms => let '(ms, c) := redactPaths paths ms in (VObject ms, c)
  | VArray l => (VArray (map (fun v => fst (redactJSONValue v paths)) l), existsb (fun v => snd (redactJSONValue v paths)) l)
  | v => (v, false)
  end.

Definition bare (p : string) : bool := negb (contains_char "." p).

Definition rebaseLeafPaths (paths : list string) (prefix : string) : list string :=
  if String.eqb prefix "" then paths
  else
    let dotPrefix := prefix ++ "." in
    omap (fun p => if bare p then Some p
                   else if has_prefix p dotPrefix then Some (drop_str (String.length dotPrefix) p)
                   else None) paths.

(** ** Leaves *)

Definition utf8BOM : string := bytes [239; 187; 191].

Fixpoint trimFrom (fuel : nat) (s : string) : string :=
  let s := skipSpace s in
  match fuel with
  | S fuel => if has_prefix s utf8BOM then trimFrom fuel (drop_str 3 s) else s
  | O => s
  end.

Definition trimLeadingSpaceAndBOM (s : string) : string := trimFrom (String.length s) s.

(** [More] of a decoder after a value. *)
Definition more (t : string) : bool :=
  match skipSpace t with
  | String c _ => negb (Ascii.eqb c "]" || Ascii.eqb c "}")
  | EmptyString => false
  end.

(** The first value of the text. *)
Definition decodeFirst (s : string) : option (value * string) := parseValue maxNestingDepth (skipSpace s).

(** The value of a text that holds nothing more. *)
Definition decodeOnly (s : string) : option value :=
  '(v, t) ← decodeFirst s; if more t then None else Some v.

Definition maxRedactionDepth : nat := 256.

Inductive leafRedaction := leafKindOther | leafKindContainer (v : value) | leafKindString (s : string) | leafKindAmbiguous.

Definition marshalNoHTMLEscape (v : value) : result string redactError :=
  match marshal false v with Some out => Ok out | None => Err MarshalFailed end.

Record redactSpec := mkSpec { paths : list string; fold : gset string }.

Section redact.
Context `{Unicode}.

Definition redactionKeysAmbiguous (raw : string) (fold : gset string) : bool :=
  untrustworthy (scanJSONKeys (mkOpts true (Some fold)) raw).

Definition looksLikeJSON (trimmed : string) : bool :=
  contains_char "{" trimmed || has_prefix trimmed (String dquote "") || has_prefix trimmed "[".

Definition classifyRedactableLeaf (s : string) (fold : gset string) : leafRedaction :=
  let trimmed := trimLeadingSpaceAndBOM s in
  if negb (looksLikeJSON trimmed) then leafKindOther
  else
    match decodeOnly trimmed with
    | Some (VObject _ as v) | Some (VArray _ as v) =>
        if redactionKeysAmbiguous trimmed fold then leafKindAmbiguous else leafKindContainer (decodeMaps v)
    | Some (VString inner) => leafKindString inner
    | _ => leafKindOther
    end.

Definition finalizeRedactedLeaf (v : value) : result (string * bool) redactError :=
  (let* out := marshalNoHTMLEscape v in Ok (out, true))%go.

Definition childPrefix (prefix k : string) : string := if String.eqb prefix "" then k else prefix ++ "." ++ k.

Section spec.
Context (spec : redactSpec).

(** The walk over a value that is not beyond the bound: [sub] walks what is one level down and
    [str] redacts a string. *)
Definition walkValue (sub : string -> value -> result (value * bool) redactError)
    (str : string -> string -> result (string * bool) redactError) (prefix : string) (v : value)
    : result (value * bool) redactError :=
  (match v with
   | VObject ms => let* '(ms, c) := traverse (onMember (fun k v => sub (childPrefix prefix k) v)) ms in Ok (VObject ms, c)
   | VArray l => let* '(l, c) := traverse (sub prefix) l in Ok (VArray l, c)
   | VString s => let* '(s, c) := str prefix s in Ok (VString s, c)
   | v => Ok (v, false)
   end)%go.

(** One layer of [redactContainerString], given the walks of what it decodes to. *)
Definition redactStringLayer (nested : string -> value -> result (value * bool) redactError)
    (container : string -> string -> result (string * bool) redactError) (prefix : string) (s : string) : result (string * bool) redactError :=
  match classifyRedactableLeaf s (fold spec) with
  | leafKindOther => Ok (s, false)
  | leafKindAmbiguous => Err AmbiguousLeaf
  | leafKindString inner =>
      (let* '(inner, changed) := container prefix inner in
       if changed : bool then finalizeRedactedLeaf (VString inner) else Ok (s, false))%go
  | leafKindContainer v =>
      let '(v, keysChanged) := redactJSONValue v (rebaseLeafPaths (paths spec) prefix) in
      (let* '(v, stringsChanged) := walkValue nested container prefix v in
       if keysChanged || stringsChanged then finalizeRedactedLeaf v else Ok (s, false))%go
  end.

(** [room] is what is left of the bound, 257 at depth 0. *)
Fixpoint redactNestedJSONStrings (room : nat) (prefix : string) (v : value) : result (value * bool) redactError :=
  match room with
  | O => Err TooDeep
  | S room => walkValue (redactNestedJSONStrings room) (redactContainerString room) prefix v
  end
with redactContainerString (room : nat) (prefix : string) (s : string) : result (string * bool) redactError :=
  match room with
  | O => Err TooDeep
  | S room => redactStringLayer (redactNestedJSONStrings room) (redactContainerString room) prefix s
  end.

(** At [room] levels below the bound. *)
Definition redactStructuredContentValue (room : nat) (prefix : string) (v : value) : result (value * bool) redactError :=
  let '(v, keysChanged) := redactJSONValue v (rebaseLeafPaths (paths spec) prefix) in
  (let* '(v, stringsChanged) := redactNestedJSONStrings room prefix v in Ok (v, keysChanged || stringsChanged))%go.

Definition fullRoom : nat := S maxRedactionDepth.

Definition redactJSONText (text : string) : result string redactError :=
  (let* '(out, _) := redactContainerString fullRoom "" text in Ok out)%go.

(** One anchoring of a key's value. *)
Definition redactAnchored (prefix : string) (val : value) : result (value * bool) redactError :=
  match val with
  | VObject _ | VArray _ => redactStructuredContentValue fullRoom prefix val
  | VString s => (let* '(s, c) := redactContainerString fullRoom prefix s in Ok (VString s, c))%go
  | v => Ok (v, false)
  end.

Definition redactSiblingValue (key : string) (val : value) : result (value * bool) redactError :=
  (let* '(val, c) := redactAnchored key val in let* '(val, c') := redactAnchored "" val in Ok (val, c || c'))%go.

(** ** Content items *)

Definition contentItemReservedKeys (t : string) : list string :=
  if String.eqb t "image" || String.eqb t "audio" then ["type"; "data"; "mimeType"; "annotations"; "_meta"]
  else ["type"; "text"; "annotations"; "_meta"].

Definition contentItemRootExempt (path : string) (reserved : list string) : bool := bare path && one_of path reserved.

Definition redactContentItemKeys (obj : node) (itemType : string) (bodyHandled : bool) : result (node * bool) redactError :=
  let '(obj, c) := redactPaths (List.filter (fun p => negb (contentItemRootExempt p (contentItemReservedKeys itemType))) (paths spec)) obj in
  (let* '(obj, c') := traverse (onMember (fun key val =>
      if String.eqb key "type" || String.eqb key "text" && bodyHandled then Ok (val, false) else redactSiblingValue key val)) obj in
   Ok (obj, c || c'))%go.

Definition recognizedContentTypes : list string := ["text"; "image"; "audio"; "resource"; "resource_link"].
Definition isRecognizedContentType (t : string) : bool := one_of t recognizedContentTypes.

Definition redactContentItem (obj : node) : result (node * bool) redactError :=
  match get "type" obj with
  | Some (VString t) =>
      if String.eqb t "" then Err ItemWithoutType
      else if negb (String.eqb t "text") then
        if one_of t ["resource"; "resource_link"] then Err (EmbeddedResource t)
        else if negb (isRecognizedContentType t) then Err (UnrecognizedType t)
        else redactContentItemKeys obj t false
      else
        match get "text" obj with
        | None => Err TextMissing
        | Some (VString text) =>
            (let* redacted := redactJSONText text in
             let* '(obj, c) := redactContentItemKeys (assign "text" (VString redacted) obj) t true in
             Ok (obj, negb (String.eqb redacted text) || c))%go
        | Some _ => Err TextNotString
        end
  | _ => Err ItemWithoutType
  end.

Definition redactItem (item : value) : result (value * bool) redactError :=
  match item with
  | VObject obj => (let* '(obj, c) := redactContentItem obj in Ok (VObject obj, c))%go
  | _ => Err ItemNotObject
  end.

(** ** The envelope *)

Definition mcpReservedRootKeys : list string := ["content"; "structuredContent"; "isError"; "contents"; "messages"; "_meta"].
Definition mcpContentItemKeys : list string := ["type"; "text"].

(** The reserved key that folds like [k]. *)
Definition mcpReservedRootKeysFolded (k : string) : option string :=
  List.find (fun r => String.eqb (FoldJSONKey r) (FoldJSONKey k)) mcpReservedRootKeys.

Definition isVariant (k : string) : bool :=
  match mcpReservedRootKeysFolded k with Some canon => negb (String.eqb k canon) | None => false end.

Definition refuseReservedRootKeyVariants (result : node) : option redactError :=
  match sort_strings (List.filter isVariant (map fst result)) with
  | [] => None
  | k :: _ => Some (ReservedVariant k)
  end.

Definition refuseUntrustworthyEnvelopeKeys (raw : string) (result : node) (fold : gset string) : option redactError :=
  if redactionKeysAmbiguous raw fold then Some AmbiguousEnvelope else refuseReservedRootKeyVariants result.

Definition envelopeRootExempt (path : string) : bool := bare path && one_of path mcpReservedRootKeys.

Definition redactContent (result : node) : Prelude.result (node * bool) redactError :=
  match get "content" result with
  | None => Ok (result, false)
  | Some (VArray content) => (let* '(content, c) := traverse redactItem content in Ok (assign "content" (VArray content) result, c))%go
  | Some _ => Err ContentNotArray
  end.

Definition redactStructuredContentField (result : node) : Prelude.result (node * bool) redactError :=
  match get "structuredContent" result with
  | None => Ok (result, false)
  | Some sc => (let* '(sc, c) := redactSiblingValue "structuredContent" sc in Ok (assign "structuredContent" sc result, c))%go
  end.

Definition redactSiblingTopLevelKeys (result : node) : Prelude.result (node * bool) redactError :=
  let '(result, c) := redactPaths (List.filter (fun p => negb (envelopeRootExempt p)) (paths spec)) result in
  (let* '(result, c') := traverse (onMember (fun key val =>
      if String.eqb key "content" || String.eqb key "structuredContent" then Ok (val, false) else redactSiblingValue key val)) result in
   Ok (result, c || c'))%go.

(** The three passes over a decoded envelope. *)
Definition redactEnvelope (result : node) : Prelude.result (node * bool) redactError :=
  (let* '(result, c1) := redactContent result in
   let* '(result, c2) := redactStructuredContentField result in
   let* '(result, c3) := redactSiblingTopLevelKeys result in
   Ok (result, c1 || c2 || c3))%go.

End spec.

Definition redactionFoldKeys (paths : list string) : gset string :=
  list_to_set (map FoldJSONKey (mcpReservedRootKeys ++ mcpContentItemKeys ++ flat_map (split_char ".") paths)).

(** The declared paths, with their root marker stripped. *)
Definition redactPathsOf (obligs : list Obligation) : list string :=
  map normalizeDotPathRoot (flat_map (fun ob => if String.eqb (ob_Type ob) DirectiveTypeRedactFields then Paths ob else []) obligs).

Definition ApplyRedactObligs (resultBytes : string) (obligs : list Obligation) : result string redactError :=
  match redactPathsOf obligs with
  | [] => Ok resultBytes
  | ps =>
      let spec := mkSpec ps (redactionFoldKeys ps) in
      let trimmed := trimLeadingSpaceAndBOM resultBytes in
      match decodeFirst trimmed with
      | Some (VNull, _) => Err NullEnvelope
      | Some (VObject ms, t) =>
          match decodeMaps (VObject ms) with
          | VObject result =>
              if more t then Err TrailingData
              else
                match refuseUntrustworthyEnvelopeKeys trimmed result (fold spec) with
                | Some e => Err e
                | None =>
                    (let* '(result, changed) := redactEnvelope spec result in
                     if changed : bool then marshalNoHTMLEscape (VObject result) else Ok resultBytes)%go
                end
          | _ => Err ParseFailed
          end
      | _ => Err ParseFailed
      end
  end.

End redact.

(** ** The loader's check of a directive's paths *)

Inductive pathFault :=
| NoFields | IndexNotation (field : string) | StrayDollar (field : string) | EmptyPath (field : string)
| EmptySegment (field : string) | BlankSegment (field : string) | PaddedSegment (field seg : string).

Definition segmentFault (field seg : string) : option pathFault :=
  if String.eqb seg "" then Some (EmptySegment field)
  else if String.eqb (TrimSpace seg) "" then Some (BlankSegment field)
  else if negb (String.eqb seg (TrimSpace seg)) then Some (PaddedSegment field seg)
  else None.

Definition fieldFault (field : string) : option pathFault :=
  if contains_char "[" field || contains_char "]" field then Some (IndexNotation field)
  else
    let stray := negb (has_prefix field "$.") && negb (String.eqb field "$") && has_prefix field "$" in
    if stray then Some (StrayDollar field)
    else
      let path := normalizeDotPathRoot field in
      if String.eqb (TrimSpace path) "" then Some (EmptyPath field)
      else head (omap (segmentFault field) (split_char "." path)).

Definition validateRedactFields (fields : list string) : option pathFault :=
  match fields with [] => Some NoFields | _ => head (omap fieldFault fields) end.

End Redact.
