(* ===== verification/RedactMask.v ===== *)
(** * What masking does to a tree

    The tree that a response or a text in it holds, the values a path leads to in it
    ([sees]), the one change redaction makes ([masks]), and the passes of redact.go that mask
    by paths.  A tree that is masked further keeps what was masked in it ([masks_masked]). *)
From stdpp Require Import base tactics list gmap strings sorting.
From Stdlib Require Import ZArith Lia Ascii String.
From S2P Require Import Prelude GoStrings GoPath Truncate Runes Capability CaseFold ArgumentPath JSON Encode KeyScan Redact.
#[local] Open Scope string_scope.
#[local] Arguments String.append : simpl nomatch.
Import GoPath Truncate Runes Capability CaseFold ArgumentPath JSON Encode KeyScan Redact.

Module RedactMask.

#[local] Opaque maxNestingDepth.

(** ** What is there *)

(** The value a text holds, with the members of its objects as they are written. *)
Definition reads (s : string) (v : value) : Prop := decodeOnly (trimLeadingSpaceAndBOM s) = Some v.

(** [x] stands at a path of a value: in the objects of an array as in an object and, [through]
    the texts of values, in what they hold. *)
Inductive sees (through : bool) : list string -> value -> value -> Prop :=
| sees_here v : sees through [] v v
| sees_member k segs ms v x : (k, v) ∈ ms -> sees through segs v x -> sees through (k :: segs) (VObject ms) x
| sees_item k segs l v x : v ∈ l -> sees through (k :: segs) v x -> sees through (k :: segs) (VArray l) x
| sees_text k segs s v x : through = true -> reads s v -> sees through (k :: segs) v x -> sees through (k :: segs) (VString s) x.

(** Nothing but the sentinel stands there. *)
Definition masked (through : bool) (segs : list string) (v : value) : Prop :=
  forall x, sees through segs v x -> x = VString redactedSentinel.

Lemma masked_nil through v : masked through [] v <-> v = VString redactedSentinel.
Proof. split; [intros Hm; apply Hm; constructor | intros -> x Hs; by inversion Hs]. Qed.

Lemma masked_object through k segs ms : masked through (k :: segs) (VObject ms) <-> forall v, (k, v) ∈ ms -> masked through segs v.
Proof.
  split; [intros Hm v Hin x Hs; apply Hm; by econstructor|]. intros Hm x Hs. inversion Hs; subst. by eapply Hm.
Qed.

Lemma masked_array through k segs l : masked through (k :: segs) (VArray l) <-> forall v, v ∈ l -> masked through (k :: segs) v.
Proof.
  split; [intros Hm v Hin x Hs; apply Hm; by econstructor|]. intros Hm x Hs. inversion Hs; subst. by eapply Hm.
Qed.

Lemma masked_string k segs s : masked true (k :: segs) (VString s) <-> forall v, reads s v -> masked true (k :: segs) v.
Proof.
  split; [intros Hm v Hr x Hs; apply Hm; by econstructor|]. intros Hm x Hs. inversion Hs; subst. by eapply Hm.
Qed.

(** No member is below such a value. *)
Definition leaf (v : value) : bool := match v with VObject _ | VArray _ => false | _ => true end.

Lemma masked_leaf k segs v : leaf v = true -> masked false (k :: segs) v.
Proof. intros Hl x Hs. inversion Hs; by subst. Qed.

Lemma masked_scalar through k segs v : leaf v = true -> (forall s, v <> VString s) -> masked through (k :: segs) v.
Proof. intros Hl Hn x Hs. inversion Hs; subst; try done. by edestruct Hn. Qed.

Lemma sentinel_unread v : ~ reads redactedSentinel v.
Proof. unfold reads. assert (decodeOnly (trimLeadingSpaceAndBOM redactedSentinel) = None) as -> by (vm_compute; reflexivity). done. Qed.

Lemma reads_inj s v w : reads s v -> reads s w -> v = w.
Proof. unfold reads. congruence. Qed.

(** ** What may change *)

Section masks.
Context (named : string -> Prop).

(** A member of a name in [named] is replaced by the sentinel, in the tree or in a text. *)
Inductive masks : value -> value -> Prop :=
| masks_refl v : masks v v
| masks_trans u v w : masks u v -> masks v w -> masks u w
| masks_field pre k x post : named k ->
    masks (VObject (pre ++ (k, x) :: post)) (VObject (pre ++ (k, VString redactedSentinel) :: post))
| masks_member pre k x y post : masks x y -> masks (VObject (pre ++ (k, x) :: post)) (VObject (pre ++ (k, y) :: post))
| masks_item pre x y post : masks x y -> masks (VArray (pre ++ x :: post)) (VArray (pre ++ y :: post))
| masks_order ms ms' : ms ≡ₚ ms' -> masks (VObject ms) (VObject ms')
| masks_text s t v w : reads s v -> reads t w -> Valid t -> masks v w -> masks (VString s) (VString t).

Lemma masks_masked through v w : masks v w -> forall segs, masked through segs v -> masked through segs w.
Proof.
  induction 1 as [v|u v w _ IH1 _ IH2|pre k x post _|pre k x y post _ IH|pre x y post _ IH|ms ms' Hp|s t v w Hs Ht _ _ IH]; intros segs Hm.
  - done.
  - by apply IH2, IH1.
  - destruct segs as [|k0 segs]; [by apply masked_nil in Hm|]. rewrite masked_object in Hm |- *. intros v Hin.
    apply elem_of_app in Hin as [Hin|[[= -> ->]|Hin]%elem_of_cons].
    + apply Hm, elem_of_app. by left.
    + destruct segs as [|k0 segs]; [by apply masked_nil|]. destruct through; [|by apply masked_leaf].
      apply masked_string. by intros v ?%sentinel_unread.
    + apply Hm, elem_of_app. right. by apply list_elem_of_further.
  - destruct segs as [|k0 segs]; [by apply masked_nil in Hm|]. rewrite masked_object in Hm |- *. intros v Hin.
    apply elem_of_app in Hin as [Hin|[[= -> ->]|Hin]%elem_of_cons].
    + apply Hm, elem_of_app. by left.
    + apply IH, Hm, elem_of_app. right. apply list_elem_of_here.
    + apply Hm, elem_of_app. right. by apply list_elem_of_further.
  - destruct segs as [|k0 segs]; [by apply masked_nil in Hm|]. rewrite masked_array in Hm |- *. intros v Hin.
    apply elem_of_app in Hin as [Hin|[->|Hin]%elem_of_cons].
    + apply Hm, elem_of_app. by left.
    + apply IH, Hm, elem_of_app. right. apply list_elem_of_here.
    + apply Hm, elem_of_app. right. by apply list_elem_of_further.
  - destruct segs as [|k0 segs]; [by apply masked_nil in Hm|]. rewrite masked_object in Hm |- *. intros v Hin. apply Hm. by rewrite Hp.
  - destruct segs as [|k0 segs].
    + apply masked_nil in Hm. injection Hm as ->. by apply sentinel_unread in Hs.
    + destruct through; [|by apply masked_leaf]. apply masked_string. intros w' Hw. rewrite (reads_inj _ _ _ Hw Ht).
      apply IH. by eapply masked_string.
Qed.

(** The trees of the decoder, one member per key, within its nesting limit. *)
Definition sound (v : value) : Prop := decoded v /\ unique v /\ height v <= maxNestingDepth.

Lemma decoded_masks v w : masks v w -> decoded v -> decoded w.
Proof.
  induction 1 as [v|u v w _ IH1 _ IH2|pre k x post _|pre k x y post _ IH|pre x y post _ IH|ms ms' Hp|s t v w Hs Ht Hv _ IH]; intros Hd;
    rewrite ?decoded_object, ?decoded_array, ?Forall_app, ?Forall_cons in *; cbn [fst snd] in *; try tauto.
  - destruct Hd as (? & [? ?] & ?). split_and!; try done. by apply Valid_ascii.
  - by rewrite <- Hp.
Qed.

Lemma unique_masks v w : masks v w -> unique v -> unique w.
Proof.
  induction 1 as [v|u v w _ IH1 _ IH2|pre k x post _|pre k x y post _ IH|pre x y post _ IH|ms ms' Hp|s t v w Hs Ht Hv _ IH]; intros Hd;
    rewrite ?unique_object, ?unique_array, ?map_app, ?Forall_app, ?Forall_cons in *; cbn [fst snd map] in *; try tauto.
  - destruct Hd as (? & ? & ? & ?). split_and!; done.
  - by rewrite <- Hp.
Qed.

Lemma height_masks v w : masks v w -> height w <= height v.
Proof.
  enough (masks v w -> forall d, height v <= d -> height w <= d) by auto. intros Hm.
  induction Hm as [v|u v w _ IH1 _ IH2|pre k x post _|pre k x y post _ IH|pre x y post _ IH|ms ms' Hp|s t v w Hs Ht Hv _ IH]; intros d Hd;
    try (destruct d as [|d]; [cbn in Hd; lia|]); rewrite ?height_object, ?height_array, ?Forall_app, ?Forall_cons in *; cbn [fst snd] in *.
  - done.
  - auto.
  - destruct Hd as (? & ? & ?). split_and!; try done. cbn. lia.
  - destruct Hd as (? & ? & ?). split_and!; auto.
  - destruct Hd as (? & ? & ?). split_and!; auto.
  - by rewrite <- Hp.
  - cbn in *. lia.
Qed.

Lemma masks_sound v w : masks v w -> sound v -> sound w.
Proof.
  intros Hm (Hd & Hu & Hh). split_and!; [by eapply decoded_masks | by eapply unique_masks|]. apply height_masks in Hm. lia.
Qed.

Lemma masks_members ms ms' : Forall2 (fun a b => fst a = fst b /\ masks (snd a) (snd b)) ms ms' -> masks (VObject ms) (VObject ms').
Proof.
  enough (forall pre, Forall2 (fun a b => fst a = fst b /\ masks (snd a) (snd b)) ms ms' -> masks (VObject (pre ++ ms)) (VObject (pre ++ ms')))
    as He by apply (He []).
  intros pre Hf. revert pre. induction Hf as [|[k x] [k' y] ms ms' [Hk Hm] _ IH]; intros pre; [apply masks_refl|]. cbn [fst snd] in *. subst k'.
  apply (masks_trans _ (VObject (pre ++ (k, y) :: ms))); [by apply masks_member|].
  specialize (IH (pre ++ [(k, y)])%list). by rewrite <- !app_assoc in IH.
Qed.

Lemma masks_items l l' : Forall2 masks l l' -> masks (VArray l) (VArray l').
Proof.
  enough (forall pre, Forall2 masks l l' -> masks (VArray (pre ++ l)) (VArray (pre ++ l'))) as He by apply (He []).
  intros pre Hf. revert pre. induction Hf as [|x y l l' Hm _ IH]; intros pre; [apply masks_refl|].
  apply (masks_trans _ (VArray (pre ++ y :: l))); [by apply masks_item|].
  specialize (IH (pre ++ [y])%list). by rewrite <- !app_assoc in IH.
Qed.

(** ** Updating a map *)

Lemma get_split k x ms : get k ms = Some x -> NoDup (map fst ms) ->
  exists pre post, ms = (pre ++ (k, x) :: post)%list /\ (k ∉ map fst pre) /\ (k ∉ map fst post) /\
    forall y, assign k y ms = (pre ++ (k, y) :: post)%list.
Proof.
  assert (forall y l, k ∉ map fst l -> assign k y l = l) as Hid.
  { intros y l. induction l as [|[k' x'] l IH]; [done|]. cbn [assign map fst]. intros [Hne Hl]%not_elem_of_cons.
    destruct (String.eqb_spec k' k) as [->|]; [done|]. f_equal. by apply IH. }
  induction ms as [|[k' x'] ms IH]; [done|]. unfold get. cbn [List.find fst map]. intros E [Hn Hd]%NoDup_cons.
  destruct (String.eqb_spec k' k) as [->|Hne].
  - injection E as ->. exists [], ms. split_and!; [done | apply not_elem_of_nil | done|]. intros y. cbn [assign map fst].
    rewrite String.eqb_refl. cbn [app]. f_equal. by apply Hid.
  - destruct (IH E Hd) as (pre & post & -> & Hpre & Hpost & Ha). exists ((k', x') :: pre), post. split_and!; [done | | done|].
    + cbn [map fst]. apply not_elem_of_cons. by split.
    + intros y. specialize (Ha y). cbn [assign map fst]. rewrite (proj2 (String.eqb_neq _ _) Hne). cbn [app]. f_equal. exact Ha.
Qed.

Lemma get_none k ms v : get k ms = None -> (k, v) ∉ ms.
Proof.
  unfold get. intros E%fmap_None Hin. apply list_elem_of_In in Hin. pose proof (find_none _ _ E _ Hin) as Hf. cbn in Hf.
  by rewrite String.eqb_refl in Hf.
Qed.

Lemma get_elem k ms v : get k ms = Some v -> (k, v) ∈ ms.
Proof.
  unfold get. intros ([k' v'] & E & ->)%fmap_Some. apply find_some in E as [Hin Hk%String.eqb_eq]. cbn [fst snd] in *. subst k'.
  by apply list_elem_of_In.
Qed.

(** The only member under a key. *)
Lemma split_elem {A} k (y v : A) (pre post : list (string * A)) : k ∉ map fst pre -> k ∉ map fst post -> (k, v) ∈ (pre ++ (k, y) :: post)%list -> v = y.
Proof.
  intros Hpre Hpost Hin. assert (forall l : list (string * A), (k, v) ∈ l -> k ∈ map fst l) as Hk.
  { intros l Hl. apply list_elem_of_fmap. by exists (k, v). }
  apply elem_of_app in Hin as [Hin%Hk|[[= ->]|Hin%Hk]%elem_of_cons]; done.
Qed.

(** ** A pass *)

(** What a pass over [v] makes: it masks, it says so if it does, and afterwards the paths are
    masked. *)
Definition good (paths : list (list string)) (v : value) (r : value * bool) : Prop :=
  masks v (fst r) /\ (snd r = false -> fst r = v) /\ forall segs, segs ∈ paths -> masked false segs (fst r).

Lemma good_refl v : good [] v (v, false).
Proof. split_and!; [apply masks_refl | done | by intros ? ?%elem_of_nil]. Qed.

Lemma good_leaf paths v : leaf v = true -> [] ∉ paths -> good paths v (v, false).
Proof.
  intros Hl Hne. split_and!; [apply masks_refl | done|]. intros [|k segs] Hin; [done|]. by apply masked_leaf.
Qed.

Lemma good_then P1 P2 v v1 c1 v2 c2 : good P1 v (v1, c1) -> good P2 v1 (v2, c2) -> good (P1 ++ P2) v (v2, c1 || c2).
Proof.
  intros (M1 & U1 & K1) (M2 & U2 & K2). cbn [fst snd] in *. split_and!; cbn [fst snd].
  - by eapply masks_trans.
  - intros [-> ->]%orb_false_iff. by rewrite U2, U1.
  - intros segs [Hin|Hin]%elem_of_app; [|by apply K2]. eapply masks_masked; [exact M2 | by apply K1].
Qed.

Lemma good_items paths (f : value -> value * bool) l : [] ∉ paths -> Forall (fun v => good paths v (f v)) l ->
  good paths (VArray l) (VArray (map (fun v => fst (f v)) l), existsb (fun v => snd (f v)) l).
Proof.
  intros Hne Hl. split_and!; cbn [fst snd].
  - apply masks_items. induction Hl as [|v l Hv _ IH]; cbn [map]; constructor; [apply Hv | done].
  - intros Hc. f_equal. induction Hl as [|v l Hv _ IH]; [done|]. cbn [existsb map] in *. apply orb_false_iff in Hc as [Hc1 Hc2].
    rewrite IH by done. f_equal. by apply Hv.
  - intros [|k segs] Hin; [done|]. apply masked_array. intros v (x & -> & Hx)%list_elem_of_fmap.
    rewrite Forall_forall in Hl. by apply (Hl x Hx).
Qed.

Lemma redactValuePath_array rec l :
  redactValuePath rec (VArray l) = (VArray (map (fun v => fst (redactValuePath rec v)) l), existsb (fun v => snd (redactValuePath rec v)) l).
Proof. done. Qed.

Lemma redactValuePath_good paths rec : [] ∉ paths ->
  (forall ms, unique (VObject ms) -> good paths (VObject ms) (let '(ms', c) := rec ms in (VObject ms', c))) ->
  forall v, unique v -> good paths v (redactValuePath rec v).
Proof.
  intros Hne Hrec. induction v as [|b|n| | |s| | |l IH|ms _] using value_tree_ind; intros Hu; try (by apply good_leaf).
  - rewrite redactValuePath_array. apply good_items; [done|]. apply unique_array in Hu. rewrite Forall_forall in *. auto.
  - by apply Hrec.
Qed.

Lemma redactSegments_good segs : (forall k, last segs = Some k -> named k) -> segs <> [] ->
  forall ms, unique (VObject ms) -> good [segs] (VObject ms) (let '(ms', c) := redactSegments segs ms in (VObject ms', c)).
Proof.
  induction segs as [|key rest IH]; [done|]. intros Hlast _ ms Hu. pose proof Hu as [Hd Hall]%unique_object.
  assert (forall segs v, masked false segs v <-> forall x, x ∈ [segs] -> masked false x v) as Hone.
  { intros segs' v'. split; [by intros ? ? ->%list_elem_of_singleton | intros Hx; apply Hx, list_elem_of_here]. }
  destruct rest as [|k' rest].
  - cbn [redactSegments]. destruct (get key ms) as [x|] eqn:E.
    + rewrite bool_decide_true by done. destruct (get_split _ _ _ E Hd) as (pre & post & -> & Hpre & Hpost & ->).
      split_and!; cbn [fst snd]; [by apply masks_field, Hlast | done|]. apply Hone, masked_object. intros v Hin.
      apply split_elem in Hin as ->; [by apply masked_nil | done..].
    + rewrite bool_decide_false by by intros [? ?]. split_and!; [apply masks_refl | done|]. apply Hone, masked_object.
      intros v Hin. by apply (get_none _ _ v) in E.
  - change (redactSegments (key :: k' :: rest) ms) with (match get key ms with
      | Some v => let '(v, c) := redactValuePath (redactSegments (k' :: rest)) v in (assign key v ms, c) | None => (ms, false) end).
    destruct (get key ms) as [x|] eqn:E.
    + pose proof (get_split _ _ _ E Hd) as (pre & post & Hms & Hpre & Hpost & Ha).
      assert (unique x) as Hx by (subst ms; apply Forall_app in Hall as [_ Hall]; by apply Forall_cons in Hall as [? _]).
      pose proof (redactValuePath_good [k' :: rest] (redactSegments (k' :: rest)) ltac:(by intros ?%list_elem_of_singleton)
        (IH Hlast ltac:(done)) x Hx) as Hg.
      destruct (redactValuePath _ x) as [y c]. destruct Hg as (M & U & K). cbn [fst snd] in *. rewrite Ha. split_and!; cbn [fst snd].
      * rewrite Hms. by apply masks_member.
      * intros Hc. by rewrite (U Hc), <- Hms.
      * apply Hone, masked_object. intros v Hin. apply split_elem in Hin as ->; [by apply Hone | done..].
    + split_and!; [apply masks_refl | done|]. apply Hone, masked_object. intros v Hin. by apply (get_none _ _ v) in E.
Qed.

Definition segsOf (p : string) : list string := split_char "." p.

Lemma segsOf_paths ps : [] ∉ map segsOf ps.
Proof. intros (p & Hp & _)%list_elem_of_fmap. by destruct (split_nonempty "." p). Qed.

(** Every path ends in a name that may be masked. *)
Definition ends_named (ps : list string) : Prop := forall p k, p ∈ ps -> last (segsOf p) = Some k -> named k.

Lemma redactPaths_cons p ps obj : redactPaths (p :: ps) obj =
  let '(o1, c1) := redactDotPathRec obj p in let '(o2, c2) := redactPaths ps o1 in (o2, c1 || c2).
Proof.
  assert (forall ps obj c, fold_left (fun '(obj, changed) p => let '(obj, c) := redactDotPathRec obj p in (obj, changed || c)) ps (obj, c)
    = let '(o, c') := redactPaths ps obj in (o, c || c')) as Hf.
  { clear. induction ps as [|p ps IH]; intros obj c; [cbn; by rewrite orb_false_r|]. unfold redactPaths. cbn [fold_left].
    destruct (redactDotPathRec obj p) as [o1 c1]. rewrite !IH. destruct (redactPaths ps o1) as [o2 c2]. by rewrite orb_assoc. }
  unfold redactPaths at 1. cbn [fold_left]. destruct (redactDotPathRec obj p) as [o1 c1]. apply Hf.
Qed.

Lemma redactPaths_good ps : ends_named ps -> forall ms, unique (VObject ms) ->
  good (map segsOf ps) (VObject ms) (let '(ms', c) := redactPaths ps ms in (VObject ms', c)).
Proof.
  induction ps as [|p ps IH]; intros Hn ms Hu; [apply good_refl|]. rewrite redactPaths_cons.
  pose proof (redactSegments_good (segsOf p) (fun k => Hn p k (list_elem_of_here _ _)) (split_nonempty _ _) ms Hu) as H1.
  unfold redactDotPathRec. change (split_char "." p) with (segsOf p). destruct (redactSegments (segsOf p) ms) as [o1 c1].
  assert (unique (VObject o1)) as Hu1 by (destruct H1 as (M & _); by eapply unique_masks).
  specialize (IH ltac:(intros q k Hq; apply Hn; by apply list_elem_of_further) o1 Hu1).
  destruct (redactPaths ps o1) as [o2 c2]. by apply (good_then [segsOf p] (map segsOf ps) _ _ c1 _ c2 H1).
Qed.

Lemma redactJSONValue_good ps : ends_named ps -> forall v, unique v -> good (map segsOf ps) v (redactJSONValue v ps).
Proof.
  intros Hn. induction v as [|b|n| | |s| | |l IH|ms _] using value_tree_ind; intros Hu; try (by apply good_leaf; [|apply segsOf_paths]).
  - apply good_items; [apply segsOf_paths|]. apply unique_array in Hu. rewrite Forall_forall in *. auto.
  - cbn [redactJSONValue]. by apply redactPaths_good.
Qed.

End masks.

End RedactMask.
