(* ===== verification/RedactSafety.v ===== *)
(** * The passes of redaction

    The lemmas behind the contract of [ApplyRedactObligs] (RedactRelease.v): the walk through
    texts within texts, the content items and the envelope each give a masked tree, look into
    everything they release and release nothing they cannot read. *)
From stdpp Require Import base tactics list gmap strings sorting fin_sets.
From Stdlib Require Import ZArith Lia Ascii String.
From S2P Require Import Prelude GoStrings GoPath Truncate Runes Capability CaseFold ArgumentPath JSON Encode KeyScan Redact RedactMask.
#[local] Open Scope string_scope.
#[local] Arguments String.append : simpl nomatch.
Import GoPath Truncate Runes Capability CaseFold ArgumentPath JSON Encode KeyScan Redact RedactMask.

Module RedactSafety.

#[local] Opaque maxNestingDepth maxDuplicateKeyScanDepth fullRoom redactNestedJSONStrings redactContainerString.

(** ** Texts *)

Lemma trim_lead s : skipSpace (trimLeadingSpaceAndBOM s) = trimLeadingSpaceAndBOM s.
Proof.
  unfold trimLeadingSpaceAndBOM. generalize (String.length s). intros n. revert s.
  induction n as [|n IH]; intros s; cbn [trimFrom]; [apply skipSpace_skip|]. case_match; [apply IH | apply skipSpace_skip].
Qed.

Lemma reads_parse s v : reads s v <->
  exists t, parseValue maxNestingDepth (trimLeadingSpaceAndBOM s) = Some (v, t) /\ more t = false.
Proof.
  unfold reads, decodeOnly, decodeFirst. rewrite trim_lead. destruct (parseValue _ _) as [[w t]|]; cbn [mbind option_bind].
  - destruct (more t) eqn:E; split; [done | intros (? & [= <- <-] & ?); congruence | intros [= ->]; eauto | by intros (? & [= <- <-] & ?)].
  - split; [done | by intros (? & ? & _)].
Qed.

(** A value stands at the very start of its text. *)
Lemma trim_value d s x : parseValue d s = Some x -> trimLeadingSpaceAndBOM s = s.
Proof.
  intros E. pose proof (parseValue_tight d s x E) as Hs. unfold trimLeadingSpaceAndBOM.
  destruct (String.length s); cbn [trimFrom]; rewrite Hs; [done|]. destruct (has_prefix s utf8BOM) eqn:Hb; [|done].
  exfalso. apply prefix_drop in Hb. rewrite Hb in E. cbn in E. by rewrite parseValue_cons in E.
Qed.

Lemma marshal_reads v s : sound v -> marshal false v = Some s -> reads s v /\ Valid s.
Proof.
  intros (Hd & _ & Hh) E. split; [|by eapply marshal_valid]. destruct (marshal_readable false v Hd _ Hh) as (s' & E' & Hr).
  rewrite E in E'. injection E' as <-. specialize (Hr "" eq_refl). rewrite str_app_nil in Hr. apply reads_parse. exists "".
  by rewrite (trim_value _ _ _ Hr).
Qed.

Lemma reads_decoded s v : reads s v -> decoded v /\ height v <= maxNestingDepth.
Proof. intros (t & E & _)%reads_parse. by apply parse_decoded in E. Qed.

(** ** Maps *)

Lemma decodeMaps_spec v : unique v ->
  masks (fun _ => False) v (decodeMaps v) /\ masks (fun _ => False) (decodeMaps v) v.
Proof.
  induction v as [|b|n| | |s| | |l IH|ms IH] using value_tree_ind; intros Hu; try (split; apply masks_refl).
  - apply unique_array in Hu. cbn [decodeMaps]. split; apply masks_items.
    + induction IH as [|v l Hv _ IHl]; cbn [map]; [constructor|]. apply Forall_cons in Hu as [? ?]. constructor; [by apply Hv | by apply IHl].
    + induction IH as [|v l Hv _ IHl]; cbn [map]; [constructor|]. apply Forall_cons in Hu as [? ?]. constructor; [by apply Hv | by apply IHl].
  - apply unique_object in Hu as [Hn Hu]. cbn [decodeMaps]. set (ms' := map _ ms).
    assert (mapOf ms' ≡ₚ ms') as Hp.
    { unfold mapOf. rewrite merge_sort_Permutation. rewrite keepLast_all; [done|]. unfold ms'. rewrite map_map. done. }
    split.
    + apply (masks_trans _ _ (VObject ms')); [|by apply masks_order]. apply masks_members. unfold ms'. clear Hn Hp ms'.
      induction IH as [|[k v] l Hv _ IHl]; cbn [map]; [constructor|]. apply Forall_cons in Hu as [? ?]. constructor; [|by apply IHl].
      split; [done | by apply Hv].
    + apply (masks_trans _ _ (VObject ms')); [by apply masks_order|]. apply masks_members. unfold ms'. clear Hn Hp ms'.
      induction IH as [|[k v] l Hv _ IHl]; cbn [map]; [constructor|]. apply Forall_cons in Hu as [? ?]. constructor; [|by apply IHl].
      split; [done | by apply Hv].
Qed.

Lemma masks_weaken (P Q : string -> Prop) v w : (forall k, P k -> Q k) -> masks P v w -> masks Q v w.
Proof. intros Hw. induction 1; eauto using masks. Qed.

Section scan.
Context `{Unicode}.

Lemma distinct_unique opts v : forall depth, distinct opts depth v -> unique v.
Proof.
  induction v as [| | | | | | | |l IH|ms IH] using value_tree_ind; intros depth; try done.
  - rewrite distinct_array, unique_array. rewrite !Forall_forall in *. eauto.
  - rewrite distinct_object, unique_object. intros [Hn Hd]. split.
    + unfold canons in Hn. rewrite <- (map_map fst (fun k => canonicalize opts k depth)) in Hn. by eapply NoDup_fmap_1.
    + rewrite !Forall_forall in *. eauto.
Qed.

(** The scan lets no object with two members of one name pass. *)
Lemma scan_unique raw fold v t : skipSpace raw = raw -> leaf v = false -> parseValue maxNestingDepth raw = Some (v, t) ->
  redactionKeysAmbiguous raw fold = false -> unique v.
Proof.
  intros Hr Hl Hp Ha. unfold redactionKeysAmbiguous, scanJSONKeys, skipJSONSpace in Ha. rewrite Hr in Ha.
  destruct raw as [|c r]; [by rewrite parseValue_cons in Hp || destruct maxNestingDepth|].
  assert (Ascii.eqb c "{" || Ascii.eqb c "[" = true) as Hc.
  { destruct v; try done; [apply parseValue_array in Hp as (r' & d' & [= -> _] & _) | apply parseValue_object in Hp as (r' & d' & [= -> _] & _)]; done. }
  cbn [allowArrayRoot andb] in Ha. rewrite Hc in Ha.
  pose proof (scan_container (mkOpts true (Some fold)) c r Hc) as Hs.
  destruct (parseValue maxDuplicateKeyScanDepth (String c r)) as [[v' t']|] eqn:E.
  - apply (parseValue_deeper _ _ shallow_in_limit) in E. rewrite Hp in E. injection E as <- <-.
    rewrite Hs in Ha. cbn [untrustworthy] in Ha. apply ambiguous_false in Ha. by eapply distinct_unique.
  - destruct Hs as [Hs _]. by rewrite Ha in Hs.
Qed.

End scan.

(** ** Paths within texts *)

Lemma bare_segs p : bare p = true -> segsOf p = [p].
Proof.
  unfold bare, segsOf. intros Hb%negb_true_iff. rewrite <- (split_join "." [p]) at 1; [done | done | by repeat constructor].
Qed.

Lemma bare_one p k : segsOf p = [k] -> bare p = true.
Proof.
  intros E. pose proof (join_split "." p) as Hj. unfold segsOf in E. rewrite E in Hj. cbn in Hj. subst k.
  pose proof (split_clean "." p) as Hc. rewrite E in Hc. apply Forall_cons in Hc as [Hc _]. unfold bare. by rewrite Hc.
Qed.

(** The rest of a path, after its first segment. *)
Lemma segs_rest p k rest : segsOf p = k :: rest -> rest <> [] ->
  exists q, p = k ++ "." ++ q /\ segsOf q = rest.
Proof.
  intros E Hne. exists (String.concat "." rest). pose proof (split_clean "." p) as Hc. pose proof (join_split "." p) as Hj.
  unfold segsOf in *. rewrite E in *. apply Forall_cons in Hc as [_ Hc]. rewrite split_join by done. split; [|done].
  rewrite <- Hj. by destruct rest.
Qed.

Section walk.
Context `{Unicode} (spec : redactSpec).

Definition named (k : string) : Prop := exists p, p ∈ paths spec /\ last (segsOf p) = Some k.

Lemma rebase_elem prefix q : q ∈ rebaseLeafPaths (paths spec) prefix <->
  (prefix = "" /\ q ∈ paths spec) \/
  (prefix <> "" /\ ((bare q = true /\ q ∈ paths spec) \/ (exists p, p ∈ paths spec /\ bare p = false /\ p = prefix ++ "." ++ q))).
Proof.
  unfold rebaseLeafPaths. destruct (String.eqb_spec prefix "") as [->|Hne]; [by split; [left | intros [[_ ?]|[? _]]]|].
  rewrite list_elem_of_omap. split.
  - intros (p & Hp & E). right. split; [done|]. destruct (bare p) eqn:Eb; [injection E as ->; by left|].
    destruct (has_prefix p (prefix ++ ".")) eqn:Ep; [|done]. injection E as <-. right. exists p. split_and!; [done..|].
    apply prefix_drop in Ep. by rewrite Ep at 1; rewrite str_app_assoc.
  - intros [[? _]|[_ [[Hb Hq]|(p & Hp & Hb & ->)]]]; [done | exists q; by rewrite Hb|]. exists (prefix ++ "." ++ q). split; [done|].
    rewrite Hb. rewrite <- str_app_assoc. by rewrite has_prefix_app, drop_str_app.
Qed.

Lemma rebase_named prefix : ends_named named (rebaseLeafPaths (paths spec) prefix).
Proof.
  intros q k Hq Hl. apply rebase_elem in Hq as [[_ Hq]|[_ [[_ Hq]|(p & Hp & _ & ->)]]]; [by exists q | by exists q|].
  eexists. split; [done|]. unfold segsOf in *. change (prefix ++ "." ++ q) with (prefix ++ String "." q). rewrite split_sep, last_app, Hl. done.
Qed.

(** A path that goes on through the key [k] is a path of what is under it. *)
Lemma rebase_child prefix q k rest : q ∈ rebaseLeafPaths (paths spec) prefix -> segsOf q = k :: rest -> rest <> [] -> k <> "" ->
  exists q', q' ∈ rebaseLeafPaths (paths spec) (childPrefix prefix k) /\ segsOf q' = rest.
Proof.
  intros Hq Hs Hr Hk. destruct (segs_rest _ _ _ Hs Hr) as (q' & -> & Hq'). exists q'. split; [|done].
  assert (bare (k ++ "." ++ q') = false) as Hb.
  { destruct (bare _) eqn:Hb; [|done]. apply bare_segs in Hb. rewrite Hs in Hb. by injection Hb as _ ->. }
  unfold childPrefix. apply rebase_elem in Hq as [[-> Hq]|[Hne [[Hb' _]|(p & Hp & Hb' & ->)]]].
  - cbn. apply rebase_elem. right. split; [done|]. right. by eexists.
  - congruence.
  - rewrite (proj2 (String.eqb_neq _ _) Hne). apply rebase_elem. right. split; [by destruct prefix|]. right.
    exists (prefix ++ "." ++ k ++ "." ++ q'). split_and!; [done..|]. by rewrite !str_app_assoc.
Qed.

(** ** Clean values *)

(** What the paths name at and below the position [prefix] is masked, in texts too. *)
Definition clean (prefix : string) (v : value) : Prop :=
  forall q, q ∈ rebaseLeafPaths (paths spec) prefix -> "" ∉ segsOf q -> masked true (segsOf q) v.

(** The string [s] is part of the value, and its position is [p]. *)
Inductive inside : string -> value -> string -> string -> Prop :=
| inside_here prefix s : inside prefix (VString s) prefix s
| inside_member prefix k v ms p s : (k, v) ∈ ms -> inside (childPrefix prefix k) v p s -> inside prefix (VObject ms) p s
| inside_item prefix v l p s : v ∈ l -> inside prefix v p s -> inside prefix (VArray l) p s.

Definition texts (prefix : string) (v : value) : Prop := forall p s, inside prefix v p s -> clean p (VString s).

(** A value is clean if its own members are masked and its texts are clean. *)
Lemma clean_texts prefix v : (forall q, q ∈ rebaseLeafPaths (paths spec) prefix -> masked false (segsOf q) v) ->
  texts prefix v -> clean prefix v.
Proof.
  intros Hm Ht q Hq Hne x Hs. assert (segsOf q <> [] -> exists q', q' ∈ rebaseLeafPaths (paths spec) prefix /\ segsOf q' = segsOf q) as Hex by eauto.
  specialize (Hm q Hq). clear Hq. revert prefix Hm Ht Hex Hne. generalize dependent (segsOf q). clear q. intros segs Hs.
  induction Hs as [v|k segs ms v x Hin Hs IH|k segs l v x Hin Hs IH|k segs s v x _ Hr Hs _]; intros prefix Hm Ht Hex Hne.
  - by apply (masked_nil false).
  - rewrite masked_object in Hm. apply not_elem_of_cons in Hne as [Hk Hne]. apply (IH (childPrefix prefix k)); [by apply Hm | | | done].
    + intros p s Hi. apply Ht. by econstructor.
    + intros Hse. destruct (Hex ltac:(done)) as (q & Hq & Hsq). eapply rebase_child; [done | done | done | congruence].
  - rewrite masked_array in Hm. apply (IH prefix); [by apply Hm | | done | done]. intros p s Hi. apply Ht. by econstructor.
  - destruct (Hex ltac:(done)) as (q & Hq & Hsq). apply (Ht prefix s (inside_here _ _) q Hq); [by rewrite Hsq|]. rewrite Hsq. by econstructor.
Qed.

Lemma clean_masks P prefix v w : masks P v w -> clean prefix v -> clean prefix w.
Proof. intros Hm Hc q Hq Hne. eapply masks_masked; [done | by apply Hc]. Qed.

Lemma clean_scalar prefix v : leaf v = true -> (forall s, v <> VString s) -> clean prefix v.
Proof.
  intros Hl Hs q _ _. pose proof (split_nonempty "." q) as Hn. unfold segsOf. destruct (split_char "." q); [done|].
  by apply masked_scalar.
Qed.

Lemma clean_string prefix s : clean prefix (VString s) <-> forall v, reads s v -> clean prefix v.
Proof.
  assert (forall q, exists k segs, segsOf q = k :: segs) as Hc.
  { intros q. pose proof (split_nonempty "." q). unfold segsOf. destruct (split_char "." q); [done | eauto]. }
  split.
  - intros Hs v Hr q Hq Hne. specialize (Hs q Hq Hne). destruct (Hc q) as (k & segs & E). rewrite E in *.
    by eapply masked_string.
  - intros Hs q Hq Hne. specialize (fun v Hr => Hs v Hr q Hq Hne). destruct (Hc q) as (k & segs & E). rewrite E in *.
    by apply masked_string.
Qed.

(** ** Passes over members and items *)

(** What a pass makes of a value: it masks, and says so if it changes anything. *)
Definition kept (v : value) (r : value * bool) : Prop := masks named v (fst r) /\ (snd r = false -> fst r = v).

Definition cleaned (prefix : string) (v : value) (r : value * bool) : Prop := kept v r /\ clean prefix (fst r).

Lemma kept_refl v : kept v (v, false).
Proof. by split; [apply masks_refl|]. Qed.

Lemma kept_then u v c w c' : kept u (v, c) -> kept v (w, c') -> kept u (w, c || c').
Proof.
  intros [M1 U1] [M2 U2]. cbn [fst snd] in *. split; cbn [fst snd]; [by eapply masks_trans|]. intros [-> ->]%orb_false_iff. by rewrite U2, U1.
Qed.

Lemma good_kept ps v r : good named ps v r -> kept v r.
Proof. by intros (M & U & _). Qed.

Lemma traverse_ok {A B} (f : A -> result (B * bool) redactError) l : forall l' c, traverse f l = Ok (l', c) ->
  Forall2 (fun x y => exists c', f x = Ok (y, c') /\ (c = false -> c' = false)) l l'.
Proof.
  induction l as [|x l IH]; cbn [traverse]; intros l' c; [intros [= <- <-]; constructor|].
  intros ([y c1] & Ey & ([ys c2] & Eys & [= <- <-])%rbind_ok)%rbind_ok. constructor.
  - exists c1. split; [done|]. by intros [-> _]%orb_false_iff.
  - eapply Forall2_impl; [by apply IH|]. cbn. intros a b (c' & ? & Hc). exists c'. split; [done|]. intros [_ ->]%orb_false_iff. auto.
Qed.

Lemma members_pass g ms ms' c (Q : string -> value -> Prop) :
  (forall k x y c', (k, x) ∈ ms -> g k x = Ok (y, c') -> kept x (y, c') /\ Q k y) -> traverse (onMember g) ms = Ok (ms', c) ->
  kept (VObject ms) (VObject ms', c) /\ forall k y, (k, y) ∈ ms' -> Q k y.
Proof.
  intros Hg Ht%traverse_ok. assert (Forall2 (fun a b => fst a = fst b /\ exists c', kept (snd a) (snd b, c') /\
      (c = false -> c' = false) /\ Q (fst b) (snd b)) ms ms') as Hf.
  { apply Forall2_same_length_lookup_2; [by eapply Forall2_length|]. intros i [k x] [k' y] Hi Hi'.
    destruct (Forall2_lookup_lr _ _ _ _ _ _ Ht Hi Hi') as (c' & E & Hc). unfold onMember in E. cbn [fst snd] in *.
    apply rbind_ok in E as ([y' c''] & E & [= <- <- <-]). split; [done|]. exists c''.
    destruct (Hg k x y' c'' (list_elem_of_lookup_2 _ _ _ Hi) E) as [? ?]. done. }
  split; [split; cbn [fst snd]|].
  - apply masks_members. eapply Forall2_impl; [exact Hf|]. cbn. intros a b (? & c' & [? _] & _). done.
  - intros ->. f_equal. clear -Hf. induction Hf as [|[k x] [k' y] ms ms' (Hk & c' & [_ U] & Hc & _) _ IH]; [done|]. cbn [fst snd] in *.
    by rewrite IH, Hk, U by auto.
  - intros k y (i & Hi)%list_elem_of_lookup. destruct (Forall2_lookup_r _ _ _ _ _ Hf Hi) as (a & _ & _ & c' & _ & _ & HQ). exact HQ.
Qed.

Lemma items_pass f l l' c (Q : value -> Prop) :
  (forall x y c', x ∈ l -> f x = Ok (y, c') -> kept x (y, c') /\ Q y) -> traverse f l = Ok (l', c) ->
  kept (VArray l) (VArray l', c) /\ forall y, y ∈ l' -> Q y.
Proof.
  intros Hg Ht%traverse_ok.
  assert (Forall2 (fun x y => exists c', kept x (y, c') /\ (c = false -> c' = false) /\ Q y) l l') as Hf.
  { apply Forall2_same_length_lookup_2; [by eapply Forall2_length|]. intros i x y Hi Hi'.
    destruct (Forall2_lookup_lr _ _ _ _ _ _ Ht Hi Hi') as (c' & E & Hc). exists c'.
    destruct (Hg x y c' (list_elem_of_lookup_2 _ _ _ Hi) E) as [? ?]. done. }
  split; [split; cbn [fst snd]|].
  - apply masks_items. eapply Forall2_impl; [exact Hf|]. cbn. intros a b (c' & [? _] & _). done.
  - intros ->. f_equal. clear -Hf. induction Hf as [|x y l l' (c' & [_ U] & Hc & _) _ IH]; [done|]. cbn [fst snd] in *.
    by rewrite IH, U by auto.
  - intros y (i & Hi)%list_elem_of_lookup. destruct (Forall2_lookup_r _ _ _ _ _ Hf Hi) as (a & _ & c' & _ & _ & HQ). exact HQ.
Qed.

Lemma sound_member k v ms : sound (VObject ms) -> (k, v) ∈ ms -> sound v.
Proof.
  intros (Hd & Hu & Hh) Hin. apply decoded_object in Hd. apply unique_object in Hu as [_ Hu]. rewrite Forall_forall in *.
  split_and!; [by apply (Hd (k, v)) | by apply (Hu (k, v))|]. destruct maxNestingDepth as [|d]; [cbn in Hh; lia|].
  apply height_object in Hh. rewrite Forall_forall in Hh. specialize (Hh _ Hin). cbn in Hh. lia.
Qed.

Lemma sound_item v l : sound (VArray l) -> v ∈ l -> sound v.
Proof.
  intros (Hd & Hu & Hh) Hin. apply decoded_array in Hd. apply unique_array in Hu. rewrite Forall_forall in *.
  split_and!; [by apply Hd | by apply Hu|]. destruct maxNestingDepth as [|d]; [cbn in Hh; lia|].
  apply height_array in Hh. rewrite Forall_forall in Hh. specialize (Hh _ Hin). lia.
Qed.

Lemma sound_string s : sound (VString s) <-> Valid s.
Proof. split; [by intros [? _]|]. intros Hs. split_and!; [done | done | cbn; lia]. Qed.

(** ** The walk *)

Lemma walkValue_texts sub str :
  (forall prefix v r, sound v -> sub prefix v = Ok r -> kept v r /\ texts prefix (fst r)) ->
  (forall prefix s t c, Valid s -> str prefix s = Ok (t, c) -> cleaned prefix (VString s) (VString t, c)) ->
  forall prefix v r, sound v -> walkValue sub str prefix v = Ok r -> kept v r /\ texts prefix (fst r).
Proof.
  intros Hsub Hstr prefix v r Hv. unfold walkValue.
  assert (leaf v = true -> (forall s, v <> VString s) -> r = (v, false) -> kept v r /\ texts prefix (fst r)) as Hleaf.
  { intros Hl Hs ->. split; [apply kept_refl|]. cbn [fst]. intros p s Hi. destruct Hi as [? s| |]; [by destruct (Hs s) | done | done]. }
  destruct v as [|b|n| | |s| | |l|ms]; try (intros [= <-]; by apply Hleaf).
  - intros ([t c] & E & [= <-])%rbind_ok. destruct (Hstr prefix s t c) as [Hk Hc]; [exact (proj1 (sound_string s) Hv) | done|]. split; [done|].
    cbn [fst]. intros p s' Hi. inversion Hi; subst. exact Hc.
  - intros ([l' c] & E & [= <-])%rbind_ok. eapply (items_pass _ _ _ _ (texts prefix)) in E as [Hk Ht].
    + split; [done|]. cbn [fst]. intros p s Hi. inversion Hi; subst. by eapply Ht.
    + intros x y c' Hin Ex. apply (Hsub prefix x (y, c')); [by eapply sound_item | done].
  - intros ([ms' c] & E & [= <-])%rbind_ok. eapply (members_pass _ _ _ _ (fun k => texts (childPrefix prefix k))) in E as [Hk Ht].
    + split; [done|]. cbn [fst]. intros p s Hi. inversion Hi; subst. by eapply Ht.
    + intros k x y c' Hin Ex. apply (Hsub (childPrefix prefix k) x (y, c')); [by eapply sound_member | done].
Qed.

Lemma parse_string d x v t : parseValue d x = Some (VString v, t) -> exists r, x = String dquote r.
Proof.
  destruct x as [|c r]; [by destruct d|]. rewrite parseValue_cons. destruct (Ascii.eqb_spec c dquote) as [->|]; [eauto|].
  destruct (_ || _).
  - destruct d as [|d]; [done|]. destruct (Ascii.eqb c "{"); intros E; by apply bind_Some in E as ([? ?] & _ & [=]).
  - unfold scalar. repeat case_match; try done. intros E. by apply bind_Some in E as ([? ?] & _ & [=]).
Qed.

(** What the code makes of a string, in terms of the value of the text. *)
Lemma classify_spec s :
  match classifyRedactableLeaf s (fold spec) with
  | leafKindOther => forall v, reads s v -> leaf v = true /\ forall x, v <> VString x
  | leafKindContainer v' => exists v, reads s v /\ unique v /\ v' = decodeMaps v
  | leafKindString inner => reads s (VString inner)
  | leafKindAmbiguous => True
  end.
Proof.
  unfold classifyRedactableLeaf. pose proof (trim_lead s) as Hl. destruct (looksLikeJSON _) eqn:El; cbn [negb].
  - change (decodeOnly (trimLeadingSpaceAndBOM s)) with (decodeOnly (trimLeadingSpaceAndBOM s)) at 1.
    assert (forall v, decodeOnly (trimLeadingSpaceAndBOM s) = Some v -> reads s v) as Hr by done.
    assert (forall v, reads s v -> leaf v = false -> redactionKeysAmbiguous (trimLeadingSpaceAndBOM s) (fold spec) = false -> unique v) as Hu.
    { intros v (t & E & _)%reads_parse Hv. by apply (scan_unique _ (fold spec) v t). }
    destruct (decodeOnly (trimLeadingSpaceAndBOM s)) as [v|] eqn:E.
    2: { intros v Hv. unfold reads in Hv. congruence. }
    assert (leaf v = true -> (forall x, v <> VString x) -> forall w, reads s w -> leaf w = true /\ forall x, w <> VString x) as Ho.
    { intros Hlv Hs w Hw. by rewrite (reads_inj _ _ _ Hw (Hr _ eq_refl)). }
    destruct v; try (by apply Ho); [by apply Hr | |].
    + destruct (redactionKeysAmbiguous _ _) eqn:Ha; [done|]. eexists. split_and!; [by apply Hr | apply Hu; [by apply Hr | done | done] | done].
    + destruct (redactionKeysAmbiguous _ _) eqn:Ha; [done|]. eexists. split_and!; [by apply Hr | apply Hu; [by apply Hr | done | done] | done].
  - intros v (t & E & _)%reads_parse. unfold looksLikeJSON in El. apply orb_false_iff in El as [El E3].
    apply orb_false_iff in El as [E1 E2]. destruct v; split; try done.
    + apply parse_string in E as (r & Er). by rewrite Er in E2; destruct r.
    + apply parseValue_array in E as (r & ? & Er & _). by rewrite Er in E3; destruct r.
    + apply parseValue_object in E as (r & ? & Er & _). by rewrite Er in E1.
Qed.

(** The members of a value and then its texts. *)
Lemma structured prefix v v1 c1 v2 c2 : sound v -> redactJSONValue v (rebaseLeafPaths (paths spec) prefix) = (v1, c1) ->
  (sound v1 -> kept v1 (v2, c2) /\ texts prefix v2) -> cleaned prefix v (v2, c1 || c2).
Proof.
  intros Hs E Hw. pose proof (redactJSONValue_good named _ (rebase_named prefix) v (proj1 (proj2 Hs))) as Hg. rewrite E in Hg.
  destruct Hg as (M & U & K). cbn [fst snd] in *. destruct Hw as [[M2 U2] Ht]; [by eapply masks_sound|]. cbn [fst snd] in *. split.
  - by apply (kept_then _ v1).
  - cbn [fst]. apply clean_texts; [|done]. intros q Hq. eapply masks_masked; [exact M2|]. apply K, list_elem_of_fmap. by exists q.
Qed.

(** A string whose text is replaced by that of another value. *)
Lemma rewritten prefix s w v t : reads s w -> masks named w v -> sound v -> clean prefix v -> marshal false v = Some t ->
  cleaned prefix (VString s) (VString t, true).
Proof.
  intros Hr M Hv Hc E. destruct (marshal_reads _ _ Hv E) as [Ht Hvt]. split; [split; [|done]|]; cbn [fst snd].
  - by apply (masks_text _ _ _ w v).
  - apply clean_string. intros x Hx. by rewrite (reads_inj _ _ _ Hx Ht).
Qed.

#[local] Transparent redactNestedJSONStrings redactContainerString.

Lemma walk_spec room :
  (forall prefix v r, sound v -> redactNestedJSONStrings spec room prefix v = Ok r -> kept v r /\ texts prefix (fst r)) /\
  (forall prefix s t c, Valid s -> redactContainerString spec room prefix s = Ok (t, c) -> cleaned prefix (VString s) (VString t, c)).
Proof.
  induction room as [|room [IHv IHs]]; [done|]. split.
  - intros prefix v r Hv E. by apply (walkValue_texts _ _ IHv IHs prefix v r Hv).
  - intros prefix s t c Hs E. cbn [redactContainerString] in E. unfold redactStringLayer in E. pose proof (classify_spec s) as Hk.
    destruct (classifyRedactableLeaf s (fold spec)) as [|v|inner|]; [| | |done].
    + injection E as <- <-. split; [apply kept_refl|]. apply clean_string. intros v Hr. destruct (Hk v Hr). by apply clean_scalar.
    + destruct Hk as (w & Hr & Hu & ->). destruct (decodeMaps_spec w Hu) as [M1 M2].
      apply (masks_weaken _ named) in M1, M2; [|done..]. destruct (reads_decoded _ _ Hr) as [Hd Hh].
      assert (sound (decodeMaps w)) as Hv by (by apply (masks_sound named w)).
      destruct (redactJSONValue _ _) as [v1 c1] eqn:E1. apply rbind_ok in E as ([v2 c2] & E2 & E).
      pose proof (structured prefix _ v1 c1 v2 c2 Hv E1 (fun H1 => walkValue_texts _ _ IHv IHs prefix v1 _ H1 E2)) as [[M U] Hc].
      cbn [fst snd] in *. destruct (c1 || c2).
      * unfold finalizeRedactedLeaf, marshalNoHTMLEscape in E. destruct (marshal false v2) as [out|] eqn:Em; [|done]. injection E as <- <-.
        apply (rewritten _ _ w v2); [done | by eapply masks_trans | by apply (masks_sound named (decodeMaps w)) | done | done].
      * injection E as <- <-. split; [apply kept_refl|]. apply clean_string. intros x Hx. rewrite (reads_inj _ _ _ Hx Hr).
        eapply clean_masks; [exact M2|]. by rewrite <- (U eq_refl).
    + destruct (reads_decoded _ _ Hk) as [Hd _]. apply rbind_ok in E as ([t' c1] & E1 & E).
      destruct (IHs prefix inner t' c1 Hd E1) as [[M U] Hc]. cbn [fst snd] in *. destruct c1.
      * unfold finalizeRedactedLeaf, marshalNoHTMLEscape in E. destruct (marshal false (VString t')) as [out|] eqn:Em; [|done]. injection E as <- <-.
        apply (rewritten _ _ (VString inner) (VString t')); [done | done | | done | done].
        apply (masks_sound named (VString inner)); [done | by apply sound_string].
      * injection E as <- <-. split; [apply kept_refl|]. apply clean_string. intros x Hx. rewrite (reads_inj _ _ _ Hx Hk).
        by rewrite <- (U eq_refl).
Qed.

#[local] Opaque redactNestedJSONStrings redactContainerString.

(** ** A key's value *)

Lemma anchored_clean prefix v r : sound v -> redactAnchored spec prefix v = Ok r -> cleaned prefix v r.
Proof.
  intros Hv. unfold redactAnchored. assert (leaf v = true -> (forall s, v <> VString s) -> cleaned prefix v (v, false)) as Hl.
  { intros ? ?. split; [apply kept_refl | by apply clean_scalar]. }
  assert (redactStructuredContentValue spec fullRoom prefix v = Ok r -> cleaned prefix v r) as Hc.
  { unfold redactStructuredContentValue. destruct (redactJSONValue _ _) as [v1 c1] eqn:E1. intros ([v2 c2] & E2 & [= <-])%rbind_ok.
    apply (structured prefix v v1 c1 v2 c2 Hv E1). intros H1. by apply (proj1 (walk_spec fullRoom) prefix v1 (v2, c2)). }
  destruct v; try (intros [= <-]; by apply Hl); [|exact Hc | exact Hc].
  intros ([t c] & E & [= <-])%rbind_ok. apply (proj2 (walk_spec fullRoom) prefix s t c); [apply Hv | done].
Qed.

Lemma sibling_clean key v r : sound v -> redactSiblingValue spec key v = Ok r -> cleaned key v r /\ clean "" (fst r).
Proof.
  intros Hv. unfold redactSiblingValue. intros ([v1 c1] & E1 & ([v2 c2] & E2 & [= <-])%rbind_ok)%rbind_ok.
  destruct (anchored_clean _ _ _ Hv E1) as [K1 C1]. cbn [fst] in C1.
  assert (sound v1) as Hv1 by (destruct K1 as [M _]; by eapply masks_sound).
  destruct (anchored_clean _ _ _ Hv1 E2) as [K2 C2]. cbn [fst] in C2. split; [|done]. split; [by apply (kept_then _ v1)|].
  destruct K2 as [M _]. by eapply clean_masks.
Qed.

(** ** Content items *)

(** The keys that carry the structure of an item of some type. *)
Definition itemReserved : list string := ["type"; "text"; "data"; "mimeType"; "annotations"; "_meta"].
Definition itemExempt (p : string) : bool := bare p && one_of p itemReserved.

Definition item_clean (v : value) : Prop := forall p, p ∈ paths spec -> "" ∉ segsOf p ->
  (itemExempt p = false -> masked false (segsOf p) v) /\
  (forall k, k <> "type" -> masked true (k :: segsOf p) v) /\
  (forall k rest, segsOf p = k :: rest -> rest <> [] -> k <> "type" -> k <> "text" -> masked true (segsOf p) v).

Lemma clean_root v p : clean "" v -> p ∈ paths spec -> "" ∉ segsOf p -> masked true (segsOf p) v.
Proof. intros Hc Hp Hne. apply Hc; [|done]. apply rebase_elem. by left. Qed.

(** What is clean at the position of its key is masked at the paths through the key. *)
Lemma clean_key k rest v p : clean k v -> p ∈ paths spec -> segsOf p = k :: rest -> rest <> [] -> "" ∉ segsOf p -> masked true rest v.
Proof.
  intros Hc Hp E Hr Hne. rewrite E in Hne. apply not_elem_of_cons in Hne as [Hk Hne].
  destruct (rebase_child "" p k rest) as (q & Hq & Hs); [apply rebase_elem; by left | done | done | congruence|].
  rewrite <- Hs. apply Hc; [exact Hq | by rewrite Hs].
Qed.

Lemma filter_named f : ends_named named (List.filter f (paths spec)).
Proof. intros p k [Hp _]%elem_of_lfilter Hl. by exists p. Qed.

Lemma kept_sound v r : kept v r -> sound v -> sound (fst r).
Proof. intros [M _]. by apply (masks_sound named). Qed.

(** Paths at the root of an object, and then the values of its keys but for some. *)
Lemma keyed_pass ms ms' c (exempt : string -> bool) (skip : string -> bool) : sound (VObject ms) ->
  (let '(obj, c) := redactPaths (List.filter (fun p => negb (exempt p)) (paths spec)) ms in
   let* '(obj, c') := traverse (onMember (fun key val => if skip key : bool then Ok (val, false) else redactSiblingValue spec key val)) obj in
   Ok (obj, c || c'))%go = Ok (ms', c) ->
  kept (VObject ms) (VObject ms', c) /\
  (forall p, p ∈ paths spec -> exempt p = false -> masked false (segsOf p) (VObject ms')) /\
  (forall k v, (k, v) ∈ ms' -> skip k = false -> clean k v /\ clean "" v).
Proof.
  intros Hs E. pose proof (redactPaths_good named _ (filter_named (fun p => negb (exempt p))) ms (proj1 (proj2 Hs))) as Hg.
  destruct (redactPaths _ _) as [o c1]. apply rbind_ok in E as ([o' c2] & E & [= <- <-]). pose proof (good_kept _ _ _ Hg) as Hk.
  destruct Hg as (_ & _ & K). pose proof (kept_sound _ _ Hk Hs) as Ho. cbn [fst] in Ho.
  apply (members_pass _ _ _ _ (fun k v => skip k = false -> clean k v /\ clean "" v)) in E as [Hk2 Hq].
  2: { intros k x y c' Hin Ey. destruct (skip k); [injection Ey as <- <-; by split; [apply kept_refl|]|].
       apply sibling_clean in Ey as [[? ?] ?]; [by split | by eapply sound_member]. }
  split_and!; [by apply (kept_then _ (VObject o)) | | intros k v Hin Hsk; by apply Hq].
  intros p Hp He. destruct Hk2 as [M _]. eapply masks_masked; [exact M|]. apply K, list_elem_of_fmap. exists p. split; [done|].
  apply elem_of_lfilter. by rewrite He.
Qed.

Lemma itemExempt_root p t : itemExempt p = false -> contentItemRootExempt p (contentItemReservedKeys t) = false.
Proof.
  unfold itemExempt, contentItemRootExempt. destruct (bare p); [|done]. cbn [andb]. intros Hn.
  destruct (one_of p (contentItemReservedKeys t)) eqn:E; [|done]. apply one_of_spec in E.
  assert (one_of p itemReserved = true); [|congruence]. apply one_of_spec. unfold contentItemReservedKeys in E.
  destruct (_ || _); unfold itemReserved; set_solver.
Qed.

Lemma item_keys obj t handled obj' c : sound (VObject obj) -> redactContentItemKeys spec obj t handled = Ok (obj', c) ->
  kept (VObject obj) (VObject obj', c) /\
  (forall p, p ∈ paths spec -> itemExempt p = false -> masked false (segsOf p) (VObject obj')) /\
  (forall k v, (k, v) ∈ obj' -> k <> "type" -> handled = false \/ k <> "text" -> clean k v /\ clean "" v).
Proof.
  intros Hs E. destruct (keyed_pass obj obj' c (fun p => contentItemRootExempt p (contentItemReservedKeys t))
    (fun k => String.eqb k "type" || String.eqb k "text" && handled) Hs E) as (Hk & Hm & Hc).
  split_and!; [done | intros p Hp He; by apply Hm, itemExempt_root|]. intros k v Hin Ht Hh. apply Hc; [done|].
  destruct (String.eqb_spec k "type"); [done|]. destruct (String.eqb_spec k "text"); [|done]. by destruct Hh as [->|].
Qed.

Lemma keys_clean (obj : node) (P : string -> Prop) p : (forall k v, (k, v) ∈ obj -> P k -> clean k v) ->
  p ∈ paths spec -> "" ∉ segsOf p -> forall k rest, segsOf p = k :: rest -> rest <> [] -> P k -> masked true (segsOf p) (VObject obj).
Proof.
  intros Hc Hp Hne k rest E Hr Hk. rewrite E. apply masked_object. intros v Hin. eapply clean_key; [by apply Hc | done..].
Qed.

Lemma item_spec obj obj' c : sound (VObject obj) -> redactContentItem spec obj = Ok (obj', c) ->
  kept (VObject obj) (VObject obj', c) /\ item_clean (VObject obj').
Proof.
  intros Hs. unfold redactContentItem. destruct (get "type" obj) as [[| | | | |t| | | |]|] eqn:Et; try done.
  destruct (String.eqb t ""); [done|]. destruct (negb (String.eqb t "text")).
  - destruct (one_of _ _); [done|]. destruct (negb _); [done|]. intros E. destruct (item_keys _ _ _ _ _ Hs E) as (Hk & Hm & Hc).
    split; [done|]. intros p Hp Hne. split_and!; [by apply Hm | |].
    + intros k Hkt. apply masked_object. intros v Hin. destruct (Hc k v Hin Hkt) as [_ ?]; [by left | by apply clean_root].
    + intros k rest Er Hr Hkt _. apply (keys_clean _ (fun k => k <> "type") p) with k rest; [|done..].
      intros k' v Hin Hk'. apply Hc; [done | done | by left].
  - destruct (get "text" obj) as [[| | | | |s| | | |]|] eqn:Etx; try done.
    unfold redactJSONText. intros (out & ([out' c1] & Ew & [= <-])%rbind_ok & ([o c2] & E & [= <- <-])%rbind_ok)%rbind_ok.
    pose proof Hs as (Hd & Hu & _). apply unique_object in Hu as [Hn _]. destruct (get_split _ _ _ Etx Hn) as (pre & post & Eo & Hpre & Hpost & Ha).
    assert (Valid s) as Hvs by (apply get_elem in Etx; by apply (sound_member _ _ _ Hs) in Etx as [? _]).
    destruct (proj2 (walk_spec fullRoom) "" s out' c1 Hvs Ew) as [[M _] Hcl]. cbn [fst snd] in *. rewrite Ha in E.
    assert (kept (VObject obj) (VObject (pre ++ ("text", VString out') :: post), negb (String.eqb out' s))) as Hk1.
    { rewrite Eo. split; cbn [fst snd]; [by apply masks_member|]. intros ->%negb_false_iff%String.eqb_eq. done. }
    destruct (item_keys _ _ _ _ _ (kept_sound _ _ Hk1 Hs) E) as (Hk2 & Hm & Hc). split; [by eapply kept_then|].
    intros p Hp Hne. split_and!; [by apply Hm | |].
    + intros k Hkt. destruct (decide (k = "text")) as [->|Hktx].
      * destruct Hk2 as [M2 _]. eapply masks_masked; [exact M2|]. apply masked_object. intros v Hin.
        apply split_elem in Hin as ->; [by apply clean_root | done..].
      * apply masked_object. intros v Hin. destruct (Hc k v Hin Hkt) as [_ ?]; [by right | by apply clean_root].
    + intros k rest Er Hr Hkt Hktx. apply (keys_clean _ (fun k => k <> "type" /\ k <> "text") p) with k rest; [|done..].
      intros k' v Hin [? ?]. apply Hc; [done | done | by right].
Qed.

(** ** The envelope *)

Definition content_clean (v : value) : Prop := forall p, p ∈ paths spec -> "" ∉ segsOf p ->
  (itemExempt p = false -> masked false ("content" :: segsOf p) v) /\
  (forall k, k <> "type" -> masked true ("content" :: k :: segsOf p) v) /\
  (forall k rest, segsOf p = k :: rest -> rest <> [] -> k <> "type" -> k <> "text" -> masked true ("content" :: segsOf p) v).

Definition key_clean (k : string) (v : value) : Prop := forall p, p ∈ paths spec -> "" ∉ segsOf p ->
  masked true (k :: segsOf p) v /\ (forall rest, segsOf p = k :: rest -> rest <> [] -> masked true (segsOf p) v).

Lemma content_clean_masks v w : masks named v w -> content_clean v -> content_clean w.
Proof.
  intros M Hc p Hp Hne. destruct (Hc p Hp Hne) as (H1 & H2 & H3). split_and!.
  - intros He. eapply masks_masked; [exact M | by apply H1].
  - intros k Hk. eapply masks_masked; [exact M | by apply H2].
  - intros k rest E Hr Ht Hx. eapply masks_masked; [exact M | by eapply H3].
Qed.

Lemma key_clean_masks k v w : masks named v w -> key_clean k v -> key_clean k w.
Proof.
  intros M Hc p Hp Hne. destruct (Hc p Hp Hne) as (H1 & H2). split.
  - eapply masks_masked; [exact M | by apply H1].
  - intros rest E Hr. eapply masks_masked; [exact M | by eapply H2].
Qed.

Lemma key_clean_intro k (ms : node) : (forall v, (k, v) ∈ ms -> clean k v /\ clean "" v) -> key_clean k (VObject ms).
Proof.
  intros Hc p Hp Hne. split.
  - apply masked_object. intros v Hin. apply clean_root; [by apply Hc | done..].
  - intros rest E Hr. rewrite E. apply masked_object. intros v Hin. apply (clean_key k rest v p); [by apply Hc | done..].
Qed.

Lemma content_spec ms ms' c : sound (VObject ms) -> redactContent spec ms = Ok (ms', c) ->
  kept (VObject ms) (VObject ms', c) /\ content_clean (VObject ms').
Proof.
  intros Hs. unfold redactContent. destruct (get "content" ms) as [x|] eqn:Eg.
  2: { intros [= <- <-]. split; [apply kept_refl|]. intros p Hp Hne. split_and!; intros; apply masked_object; intros v Hin;
       by apply (get_none _ _ v) in Eg. }
  destruct x as [| | | | | | | |l|]; try done. intros ([l' c'] & E & [= <- <-])%rbind_ok.
  pose proof Hs as (_ & Hu & _). apply unique_object in Hu as [Hn _]. destruct (get_split _ _ _ Eg Hn) as (pre & post & Eo & Hpre & Hpost & Ha).
  assert (sound (VArray l)) as Hl by by eapply sound_member, get_elem.
  apply (items_pass _ _ _ _ item_clean) in E as [[M U] Hq].
  2: { intros y z c1 Hin Ey. assert (sound y) as Hy by by eapply sound_item. unfold redactItem in Ey.
       destruct y as [| | | | | | | | |obj]; try done. apply rbind_ok in Ey as ([o c2] & Eo' & [= <- <-]). by apply item_spec. }
  rewrite Ha. cbn [fst snd] in *. split.
  - rewrite Eo. split; cbn [fst snd]; [by apply masks_member|]. intros Hc. specialize (U Hc). by injection U as ->.
  - assert (forall through segs, (forall y, y ∈ l' -> masked through segs y) -> segs <> [] ->
      masked through ("content" :: segs) (VObject (pre ++ ("content", VArray l') :: post))) as Hm.
    { intros th segs Hy Hse. apply masked_object. intros v Hin. apply split_elem in Hin as ->; [|done..].
      destruct segs as [|k segs]; [done|]. by apply masked_array. }
    intros p Hp Hne. split_and!.
    + intros He. apply Hm; [|apply split_nonempty]. intros y Hy. by apply (Hq y Hy p).
    + intros k Hk. apply Hm; [|done]. intros y Hy. by apply (Hq y Hy p).
    + intros k rest Er Hr Ht Hx. apply Hm; [|apply split_nonempty]. intros y Hy. by eapply (Hq y Hy p).
Qed.

Lemma structured_spec ms ms' c : sound (VObject ms) -> redactStructuredContentField spec ms = Ok (ms', c) ->
  kept (VObject ms) (VObject ms', c) /\ key_clean "structuredContent" (VObject ms').
Proof.
  intros Hs. unfold redactStructuredContentField. destruct (get "structuredContent" ms) as [x|] eqn:Eg.
  2: { intros [= <- <-]. split; [apply kept_refl|]. apply key_clean_intro. intros v Hin. by apply (get_none _ _ v) in Eg. }
  intros ([y c'] & E & [= <- <-])%rbind_ok. pose proof Hs as (_ & Hu & _). apply unique_object in Hu as [Hn _].
  destruct (get_split _ _ _ Eg Hn) as (pre & post & Eo & Hpre & Hpost & Ha).
  destruct (sibling_clean "structuredContent" x (y, c')) as [[[M U] Hc] Hc']; [by eapply sound_member, get_elem | done|].
  rewrite Ha. cbn [fst snd] in *. split.
  - rewrite Eo. split; cbn [fst snd]; [by apply masks_member|]. intros Hf. by rewrite (U Hf).
  - apply key_clean_intro. intros v Hin. by apply split_elem in Hin as ->.
Qed.

Lemma siblings_spec ms ms' c : sound (VObject ms) -> redactSiblingTopLevelKeys spec ms = Ok (ms', c) ->
  kept (VObject ms) (VObject ms', c) /\
  (forall p, p ∈ paths spec -> envelopeRootExempt p = false -> masked false (segsOf p) (VObject ms')) /\
  (forall k, k <> "content" -> k <> "structuredContent" -> key_clean k (VObject ms')).
Proof.
  intros Hs E. destruct (keyed_pass ms ms' c envelopeRootExempt
    (fun k => String.eqb k "content" || String.eqb k "structuredContent") Hs E) as (Hk & Hm & Hc).
  split_and!; [done | done|]. intros k H1 H2. apply key_clean_intro. intros v Hin. apply Hc; [done|].
  by rewrite (proj2 (String.eqb_neq _ _) H1), (proj2 (String.eqb_neq _ _) H2).
Qed.

Lemma envelope_spec ms ms' c : sound (VObject ms) -> redactEnvelope spec ms = Ok (ms', c) ->
  kept (VObject ms) (VObject ms', c) /\ content_clean (VObject ms') /\
  (forall p, p ∈ paths spec -> envelopeRootExempt p = false -> masked false (segsOf p) (VObject ms')) /\
  (forall k, k <> "content" -> key_clean k (VObject ms')).
Proof.
  intros Hs. unfold redactEnvelope. intros ([m1 c1] & E1 & ([m2 c2] & E2 & ([m3 c3] & E3 & [= <- <-])%rbind_ok)%rbind_ok)%rbind_ok.
  destruct (content_spec _ _ _ Hs E1) as [K1 H1]. pose proof (kept_sound _ _ K1 Hs) as S1.
  destruct (structured_spec _ _ _ S1 E2) as [K2 H2]. pose proof (kept_sound _ _ K2 S1) as S2.
  destruct (siblings_spec _ _ _ S2 E3) as (K3 & H3 & H3'). pose proof K3 as [M3 _]. pose proof K2 as [M2 _]. cbn [fst] in M2, M3.
  split_and!.
  - apply (kept_then _ (VObject m2)); [by apply (kept_then _ (VObject m1))|done].
  - eapply content_clean_masks; [exact M3|]. by eapply content_clean_masks.
  - done.
  - intros k Hk. destruct (decide (k = "structuredContent")) as [->|]; [|by apply H3'].
    eapply key_clean_masks; [exact M3 | done].
Qed.

End walk.

End RedactSafety.
