(* ===== verification/RedactRelease.v ===== *)
(** * What redaction releases

    The contract of [ApplyRedactObligs] (internal/pdp/redact.go) together with the loader's
    check of the paths ([validateRedactFields] of internal/config/manifest.go): what is masked
    in a released response ([declared_fields_masked]), that nothing else is changed
    ([redaction_only_masks]), and that nothing is released which the redactor does not look
    into ([released_is_inspected]). *)
From stdpp Require Import base tactics list gmap strings sorting fin_sets.
From Stdlib Require Import ZArith Lia Ascii String.
From S2P Require Import Prelude GoStrings GoPath Truncate Runes Capability CaseFold ArgumentPath JSON Encode KeyScan Redact RedactMask RedactSafety.
#[local] Open Scope string_scope.
Import GoPath Truncate Runes Capability CaseFold ArgumentPath JSON Encode KeyScan Redact RedactMask RedactSafety.

Module RedactRelease.

#[local] Opaque maxNestingDepth maxDuplicateKeyScanDepth fullRoom redactNestedJSONStrings redactContainerString.

(** ** Checked paths *)

Lemma head_none {A} (l : list A) : head l = None -> l = [].
Proof. by destruct l. Qed.

Lemma checked_segments fields f : validateRedactFields fields = None -> f ∈ fields -> "" ∉ segsOf (normalizeDotPathRoot f).
Proof.
  intros Hv Hf. assert (fieldFault f = None) as E.
  { destruct fields as [|f0 fields]; [done|]. unfold validateRedactFields in Hv. apply head_none in Hv.
    destruct (fieldFault f) as [e|] eqn:E; [|done]. assert (e ∈ omap fieldFault (f0 :: fields)) as Hin by (apply list_elem_of_omap; eauto).
    rewrite Hv in Hin. by apply elem_of_nil in Hin. }
  unfold fieldFault in E. destruct (_ || _); [done|]. destruct (_ && _ && _); [done|]. destruct (String.eqb _ _); [done|].
  apply head_none in E. intros Hin. assert (EmptySegment f ∈ omap (segmentFault f) (split_char "." (normalizeDotPathRoot f))) as Hs.
  { apply list_elem_of_omap. by exists "". }
  rewrite E in Hs. by apply elem_of_nil in Hs.
Qed.

Lemma path_declared obligs p : p ∈ redactPathsOf obligs ->
  exists ob f, ob ∈ obligs /\ ob_Type ob = DirectiveTypeRedactFields /\ f ∈ Paths ob /\ p = normalizeDotPathRoot f.
Proof.
  unfold redactPathsOf. intros (f & -> & Hf)%list_elem_of_fmap. apply list_elem_of_In, in_flat_map in Hf as (ob & Hob & Hf).
  destruct (String.eqb_spec (ob_Type ob) DirectiveTypeRedactFields); [|done]. exists ob, f. split_and!; [by apply list_elem_of_In | done | by apply list_elem_of_In | done].
Qed.

Section release.
Context `{Unicode}.

(** What was done to a response that is released. *)
Lemma released resultBytes obligs out : redactPathsOf obligs <> [] -> ApplyRedactObligs resultBytes obligs = Ok out ->
  let ps := redactPathsOf obligs in let spec := mkSpec ps (redactionFoldKeys ps) in
  exists raw result result' c ms,
    reads resultBytes (VObject raw) /\ unique (VObject raw) /\ decodeMaps (VObject raw) = VObject result /\
    refuseReservedRootKeyVariants result = None /\
    sound (VObject result) /\ redactEnvelope spec result = Ok (result', c) /\
    reads out (VObject ms) /\ masks (named spec) (VObject result') (VObject ms) /\ masks (named spec) (VObject raw) (VObject ms).
Proof.
  intros Hne E ps spec. unfold ApplyRedactObligs in E. change (redactPathsOf obligs) with ps in E, Hne. clearbody ps.
  destruct ps as [|p0 ps]; [done|]. change (mkSpec (p0 :: ps) (redactionFoldKeys (p0 :: ps))) with spec in E. cbv zeta in E.
  set (trimmed := trimLeadingSpaceAndBOM resultBytes) in E.
  destruct (decodeFirst trimmed) as [[v t]|] eqn:Ed; [|done]. destruct v as [| | | | | | | | |raw]; try done.
  cbn [decodeMaps] in E. set (result := mapOf _) in E. destruct (more t) eqn:Em; [done|].
  unfold refuseUntrustworthyEnvelopeKeys in E. destruct (redactionKeysAmbiguous trimmed (fold spec)) eqn:Ea; [done|].
  destruct (refuseReservedRootKeyVariants result) eqn:Ev; [done|]. apply rbind_ok in E as ([result' c] & Ee & E).
  assert (reads resultBytes (VObject raw)) as Hr.
  { unfold reads, decodeOnly. fold trimmed. rewrite Ed. cbn. by rewrite Em. }
  assert (unique (VObject raw)) as Hu.
  { apply (scan_unique trimmed (fold spec) _ t); [apply trim_lead | done | | done]. unfold decodeFirst in Ed.
    unfold trimmed in *. by rewrite trim_lead in Ed. }
  destruct (decodeMaps_spec _ Hu) as [M1 M2]. apply (masks_weaken _ (named spec)) in M1, M2; [|done..].
  change (decodeMaps (VObject raw)) with (VObject result) in M1, M2. destruct (reads_decoded _ _ Hr) as [Hd Hh].
  assert (sound (VObject result)) as Hs by (by apply (masks_sound (named spec) (VObject raw))).
  destruct (envelope_spec _ _ _ _ Hs Ee) as ([M U] & _). cbn [fst snd] in *. destruct c.
  - unfold marshalNoHTMLEscape in E. destruct (marshal false (VObject result')) as [o|] eqn:Eo; [|done]. injection E as ->.
    destruct (marshal_reads (VObject result') out) as [Hro _]; [by apply (masks_sound (named spec) (VObject result)) | done|].
    exists raw, result, result', true, result'. split_and!; [done..| |]; [apply masks_refl | by eapply masks_trans].
  - injection E as <-. specialize (U eq_refl). injection U as ->. exists raw, result, result, false, raw. split_and!; [done..|]. apply masks_refl.
Qed.

(** ** The declared fields *)

(** What a path of a redaction protects in the tree of a released result. *)
Definition protected (p : string) (v : value) : Prop :=
  (** a member of the result, unless it is part of the protocol's envelope; a field further down *)
  (p ∉ mcpReservedRootKeys -> masked false (segsOf p) v) /\
  (** under any key but content, the field relative to the key's value, in texts too *)
  (forall k, k <> "content" -> masked true (k :: segsOf p) v) /\
  (** under such a key, the field relative to the result, in texts too *)
  (forall k rest, segsOf p = k :: rest -> rest <> [] -> k <> "content" -> masked true (segsOf p) v) /\
  (** in a content item, a member that is not part of its protocol; a field further down *)
  (p ∉ itemReserved -> masked false ("content" :: segsOf p) v) /\
  (** the field relative to the value of any key of an item but its type: its text, for one *)
  (forall k, k <> "type" -> masked true ("content" :: k :: segsOf p) v) /\
  (** the field relative to an item, in texts too *)
  (forall k rest, segsOf p = k :: rest -> rest <> [] -> k <> "type" -> k <> "text" -> masked true ("content" :: segsOf p) v).

Lemma not_one_of p l : p ∉ l -> one_of p l = false.
Proof. intros Hn. destruct (one_of p l) eqn:E; [|done]. by apply one_of_spec in E. Qed.

(** C25: A released response holds no field that a checked directive
    declares: a reader of the released bytes, who takes the members of all objects whatever their
    order and who reads every string that is the text of a value, sees nothing but the sentinel
    at the declared paths: at the root of the result, below its keys, in structured content, in
    the content items and in what their texts hold, at any depth of encoding. *)
Theorem declared_fields_masked resultBytes obligs out p :
  (forall ob, ob ∈ obligs -> ob_Type ob = DirectiveTypeRedactFields -> validateRedactFields (Paths ob) = None) ->
  p ∈ redactPathsOf obligs -> ApplyRedactObligs resultBytes obligs = Ok out ->
  exists ms, reads out (VObject ms) /\ protected p (VObject ms).
Proof.
  intros Hval Hp E. set (ps := redactPathsOf obligs). set (spec := mkSpec ps (redactionFoldKeys ps)).
  destruct (released resultBytes obligs out) as (raw & result & result' & c & ms & _ & _ & _ & _ & Hs & Ee & Hr & M & _);
    [by intros E0; rewrite E0 in Hp; apply elem_of_nil in Hp | done|]. exists ms. split; [done|].
  assert ("" ∉ segsOf p) as Hne.
  { destruct (path_declared _ _ Hp) as (ob & f & Hob & Ht & Hf & ->). by apply (checked_segments (Paths ob)); [apply Hval|]. }
  fold ps in Ee, M. fold spec in Ee, M. destruct (envelope_spec spec _ _ _ Hs Ee) as (_ & Hc & Hm & Hk).
  apply (content_clean_masks spec _ _ M) in Hc. destruct (Hc p Hp Hne) as (C1 & C2 & C3).
  assert (forall k, k <> "content" -> key_clean spec k (VObject ms)) as Hk' by (intros k Hn; by eapply key_clean_masks, Hk).
  split_and!.
  - intros Hn. eapply masks_masked; [exact M|]. apply Hm; [done|]. unfold envelopeRootExempt. by rewrite not_one_of, andb_false_r.
  - intros k Hn. by apply (Hk' k Hn p Hp Hne).
  - intros k rest Es Hrest Hn. by apply (proj2 (Hk' k Hn p Hp Hne) rest).
  - intros Hn. apply C1. unfold itemExempt. by rewrite not_one_of, andb_false_r.
  - done.
  - done.
Qed.

(** C26: Redaction changes a response only by masking: the released bytes hold the
    upstream's tree in which the values of some members were replaced by the sentinel, in the tree
    itself or in the text of a string, and each of those members bears the name that a declared
    path ends in.  No member, item or text is added, dropped or altered otherwise. *)
Theorem redaction_only_masks resultBytes obligs out :
  redactPathsOf obligs <> [] -> ApplyRedactObligs resultBytes obligs = Ok out ->
  exists v w, reads resultBytes v /\ reads out w /\
    masks (fun k => exists p, p ∈ redactPathsOf obligs /\ last (segsOf p) = Some k) v w.
Proof.
  intros Hne E. destruct (released _ _ _ Hne E) as (raw & result & result' & c & ms & Hr & _ & _ & _ & _ & _ & Ho & _ & M). eauto.
Qed.

(** ** What is refused *)

Lemma decodeMaps_object v ms : decodeMaps v = VObject ms -> exists raw, v = VObject raw /\ ms = mapOf (map (fun kv => (fst kv, decodeMaps (snd kv))) raw).
Proof. destruct v; try done. cbn [decodeMaps]. intros [= <-]. eauto. Qed.

Lemma mapOf_member (raw : node) k x : (k, x) ∈ mapOf (map (fun kv => (fst kv, decodeMaps (snd kv))) raw) -> exists v, (k, v) ∈ raw /\ x = decodeMaps v.
Proof. intros Hin%mapOf_elem. apply list_elem_of_fmap in Hin as ([k' v] & [= -> ->] & Hin). eauto. Qed.

Lemma decodeMaps_string v s : decodeMaps v = VString s -> v = VString s.
Proof. by destruct v. Qed.

Lemma get_present (ms : node) k v : NoDup (map fst ms) -> (k, v) ∈ ms -> get k ms = Some v.
Proof.
  intros Hn Hin. destruct (get k ms) as [w|] eqn:E; [|by apply (get_none _ _ v) in E].
  pose proof (get_split _ _ _ E Hn) as (pre & post & -> & Hpre & Hpost & _). by rewrite (split_elem _ _ _ _ _ Hpre Hpost Hin).
Qed.

(** Content that is looked into: its type is known, and it embeds nothing. *)
Definition inspected (item : value) : Prop :=
  exists obj t, item = VObject obj /\ ("type", VString t) ∈ obj /\
    ((t = "text" /\ exists s, ("text", VString s) ∈ obj) \/ t = "image" \/ t = "audio").

Lemma item_inspected spec item r : redactItem spec (decodeMaps item) = Ok r -> inspected item.
Proof.
  unfold redactItem. destruct (decodeMaps item) as [| | | | | | | | |obj] eqn:Ed; try done. intros ([o c] & E & _)%rbind_ok.
  apply decodeMaps_object in Ed as (raw & -> & Hobj). unfold redactContentItem in E.
  assert (forall k s, get k obj = Some (VString s) -> (k, VString s) ∈ raw) as Hin.
  { intros k s Hg%get_elem. rewrite Hobj in Hg. apply mapOf_member in Hg as (v & Hv & Hs). symmetry in Hs. by apply decodeMaps_string in Hs as ->. }
  destruct (get "type" obj) as [[| | | | |t| | | |]|] eqn:Et; try done. apply Hin in Et. exists raw, t. split_and!; [done..|].
  destruct (String.eqb t ""); [done|]. destruct (String.eqb_spec t "text") as [->|Ht]; cbn [negb] in E.
  - left. split; [done|]. destruct (get "text" obj) as [[| | | | |s| | | |]|] eqn:Ex; try done. eauto.
  - right. destruct (one_of t ["resource"; "resource_link"]) eqn:E1; [done|].
    destruct (isRecognizedContentType t) eqn:E2; [|done]. apply one_of_spec in E2.
    assert (t ∉ ["resource"; "resource_link"]) as Hnot by (intros Hi%one_of_spec; congruence). unfold recognizedContentTypes in E2. set_solver.
Qed.

(** C29: Nothing is released that the redactor does not look into: no object of the
    upstream's result has two members of one name, no key of it is another spelling of a key of the
    envelope, its content is an array, and every item of it is a text with a string for its text,
    an image or an audio; an item that embeds a resource is refused, as is one of an unknown type. *)
Theorem released_is_inspected resultBytes obligs out :
  redactPathsOf obligs <> [] -> ApplyRedactObligs resultBytes obligs = Ok out ->
  exists ms, reads resultBytes (VObject ms) /\ unique (VObject ms) /\
    (forall k v r, (k, v) ∈ ms -> r ∈ mcpReservedRootKeys -> FoldJSONKey k = FoldJSONKey r -> k ∈ mcpReservedRootKeys) /\
    (forall content, ("content", content) ∈ ms -> exists items, content = VArray items /\ forall item, item ∈ items -> inspected item).
Proof.
  intros Hne E. destruct (released _ _ _ Hne E) as (raw & result & result' & c & ms & Hr & Hu & Hd & Hv & Hs & Ee & _).
  exists raw. split_and!; [done | done | |].
  - intros k v r Hin Hres Hf. cbn [decodeMaps] in Hd. injection Hd as Hd.
    assert ((k, decodeMaps v) ∈ result) as Hk.
    { rewrite <- Hd. apply mapOf_all; [rewrite map_map; by apply unique_object in Hu as [? _]|]. apply list_elem_of_fmap. by exists (k, v). }
    unfold refuseReservedRootKeyVariants in Hv. destruct (sort_strings _) as [|k0 l] eqn:El; [|done].
    destruct (isVariant k) eqn:Ei.
    + exfalso. assert (k ∈ sort_strings (List.filter isVariant (map fst result))) as Hin'; [|rewrite El in Hin'; by apply elem_of_nil in Hin'].
      unfold sort_strings. rewrite merge_sort_Permutation. apply elem_of_lfilter. split; [|done]. apply list_elem_of_fmap. by exists (k, decodeMaps v).
    + unfold isVariant, mcpReservedRootKeysFolded in Ei.
      destruct (List.find (fun r => String.eqb (FoldJSONKey r) (FoldJSONKey k)) mcpReservedRootKeys) as [r'|] eqn:Ef.
      * apply find_some in Ef as [Hr' _]. apply negb_false_iff, String.eqb_eq in Ei as ->. by apply list_elem_of_In.
      * apply list_elem_of_In in Hres. pose proof (find_none _ _ Ef r Hres) as Hn. cbn in Hn. by rewrite Hf, String.eqb_refl in Hn.
  - intros content Hin. cbn [decodeMaps] in Hd. injection Hd as Hd.
    assert (("content", decodeMaps content) ∈ result) as Hk.
    { rewrite <- Hd. apply mapOf_all; [rewrite map_map; by apply unique_object in Hu as [? _]|]. apply list_elem_of_fmap. by exists ("content", content). }
    apply get_present in Hk; [|rewrite <- Hd; apply mapOf_nodup]. unfold redactEnvelope in Ee.
    apply rbind_ok in Ee as ([m1 c1] & E1 & _). unfold redactContent in E1. rewrite Hk in E1.
    destruct content as [| | | | | | | |items|]; try done. cbn [decodeMaps] in E1. exists items. split; [done|]. intros item Hitem.
    apply rbind_ok in E1 as ([l' c'] & E1%traverse_ok & _).
    assert (decodeMaps item ∈ map decodeMaps items) as (i & Hi)%list_elem_of_lookup by (apply list_elem_of_fmap; eauto).
    destruct (Forall2_lookup_l _ _ _ _ _ E1 Hi) as (y & _ & c2 & Ey & _). by eapply item_inspected.
Qed.

End release.

End RedactRelease.
