(* ===== verification/RedactScenarios.v ===== *)
(** * A response to redact

    A result whose declared fields stand in structured content, in the text of a content item,
    in a text within that text and under a key of the upstream's own, released with those
    fields masked. *)
From stdpp Require Import base tactics list gmap strings fin_sets.
From Stdlib Require Import ZArith Lia Ascii String.
From S2P Require Import Prelude GoStrings GoPath Capability CaseFold ArgumentPath JSON Encode KeyScan Redact RedactMask RedactSafety RedactRelease.
#[local] Open Scope string_scope.
Import Capability CaseFold JSON Redact RedactMask RedactSafety RedactRelease.

Module RedactScenarios.

Definition demo_obligs : list Obligation :=
  [mkObligation DirectiveTypeRedactFields ["ssn"; "$.data.card"]; mkObligation "labelOutput" []].

Definition demo_response : string := text
  "{'isError':false, 'content':[{'type':'text','text':'{\'ssn\':1,\'log\':\'{\\\'ssn\\\':2}\'}','note':{'ssn':3}},{'type':'image','data':'R0lG'}],
    'structuredContent':{'data':[{'card':4,'name':'x'}]}, 'blob':{'data':'{\'card\':5}'}, 'url':'a<b'}".

Definition demo_released : string := text
  "{'blob':{'data':'{\'card\':\'[redacted]\'}'},'content':[{'note':{'ssn':'[redacted]'},'text':'{\'log\':\'{\\\'ssn\\\':\\\'[redacted]\\\'}\',\'ssn\':\'[redacted]\'}','type':'text'},{'data':'R0lG','type':'image'}],'isError':false,'structuredContent':{'data':[{'card':'[redacted]','name':'x'}]},'url':'a<b'}".

Example demo_release : ApplyRedactObligs demo_response demo_obligs = Ok demo_released.
Proof. vm_compute. reflexivity. Qed.

(** The loader refuses a path that could name nothing. *)
Example refused_paths :
  map (fun f => validateRedactFields [f]) ["a[0].b"; "$x"; "$."; "a..b"; "a. b"; "$.a.b"] =
  [Some (IndexNotation "a[0].b"); Some (StrayDollar "$x"); Some (EmptyPath "$."); Some (EmptySegment "a..b"); Some (PaddedSegment "a. b" " b"); None].
Proof. vm_compute. reflexivity. Qed.

(** Responses that are refused. *)
Example refused_responses :
  map (fun s => ApplyRedactObligs (text s) demo_obligs)
    ["{'content':[{'type':'resource','resource':{}}]}"; "{'Content':[]}"; "{'a':1,'a':2}"; "{'content':[{'type':'text','text':'{\'ssn\':1,\'SSN\':2}'}]}"; "null"; "{} x"] =
  [Err (EmbeddedResource "resource"); Err (ReservedVariant "Content"); Err AmbiguousEnvelope; Err AmbiguousLeaf; Err NullEnvelope; Err TrailingData].
Proof. vm_compute. reflexivity. Qed.

Lemma declared_fields_masked_witness : exists ms, reads demo_released (VObject ms) /\ protected "data.card" (VObject ms).
Proof.
  apply (declared_fields_masked demo_response demo_obligs).
  - intros ob [->|[->|[]%elem_of_nil]%elem_of_cons]%elem_of_cons Ht; [vm_compute; reflexivity | by vm_compute in Ht].
  - vm_compute. right. left.
  - vm_compute. reflexivity.
Defined.

Lemma redaction_only_masks_witness : exists v w, reads demo_response v /\ reads demo_released w /\
  masks (fun k => exists p, p ∈ redactPathsOf demo_obligs /\ last (segsOf p) = Some k) v w.
Proof. apply redaction_only_masks; [vm_compute; discriminate | vm_compute; reflexivity]. Defined.

Lemma released_is_inspected_witness : exists ms, reads demo_response (VObject ms) /\ unique (VObject ms) /\
  (forall k v r, (k, v) ∈ ms -> r ∈ mcpReservedRootKeys -> FoldJSONKey k = FoldJSONKey r -> k ∈ mcpReservedRootKeys) /\
  (forall content, ("content", content) ∈ ms -> exists items, content = VArray items /\ forall item, item ∈ items -> inspected item).
Proof. apply (released_is_inspected demo_response demo_obligs demo_released); [vm_compute; discriminate | vm_compute; reflexivity]. Defined.

End RedactScenarios.
