(* ===== verification/TokenClaims.v ===== *)
(** * Capability claims of a token

    internal/pdp/jwt.go: the grammar of the entries of [mcp.capabilities]
    (["namespace:name?key=value&..."]), the check an entry passes when the token is validated
    ([parseV2Claim]), the cheaper parse a decision uses ([parseCapHeads] and
    [buildConstraintsFromParsed]), and which targets an entry covers.

    The texts of the errors are not rendered; what a failed parse logs is left out. *)
From stdpp Require Import base tactics list gmap strings.
From Stdlib Require Import ZArith Lia Ascii String.
From S2P Require Import Prelude GoStrings GoPath CallCounter Glob Capability CaseFold Selection.
From S2P Require Import Anchor Backends Engine KillSwitch SurfacePin ManifestPDP ArgumentPath ArgumentHandlers JSON.
#[local] Open Scope string_scope.
#[local] Open Scope go_scope.
#[local] Arguments String.append : simpl nomatch.
Import GoPath Capability Selection ManifestPDP.

Module TokenClaims.

(** [url.QueryUnescape]. *)
Fixpoint QueryUnescape (s : string) : option string :=
  match s with
  | EmptyString => Some ""
  | String "%" s1 =>
      match s1 with
      | String h (String l s2) =>
          match unhex h, unhex l, QueryUnescape s2 with
          | Some h, Some l, Some r => Some (String (byte_of_Z (h * 16 + l)) r)
          | _, _, _ => None
          end
      | _ => None
      end
  | String "+" s1 => match QueryUnescape s1 with Some r => Some (String " " r) | None => None end
  | String c s1 => match QueryUnescape s1 with Some r => Some (String c r) | None => None end
  end.

Record jwtCondPair := mkPair { cp_key : string; cp_value : string }.

Definition jwtCondKeyOp : string := "op".

Inductive cond_error :=
| MissingSeparator (pair : string)
| EmptyKey (pair : string)
| EncodedKey (key : string)
| DuplicateKey (key : string)
| BadEncoding (val : string).

Inductive claim_error :=
| TrailingQuestion
| BadTarget (e : target_error)
| SystemClaim
| BadPattern
| BadCondition (e : cond_error)
| InertKey (key : string)
| InertOp
| NothingToJudge (key : string)
| NotSQLVerb (value : string)
| BadGlob (key value : string) (e : Glob.glob_error).

Section claims.
Context `{U : Unicode}.

(** ** SQL verbs *)

Definition sqlVerbs : list string :=
  ["SELECT"; "INSERT"; "UPDATE"; "DELETE"; "MERGE"; "UPSERT"; "REPLACE";
   "CREATE"; "ALTER"; "DROP"; "TRUNCATE"; "RENAME"; "COMMENT"; "GRANT"; "REVOKE";
   "CALL"; "DO"; "EXECUTE"; "EXEC"; "PREPARE"; "DEALLOCATE";
   "COPY"; "VACUUM"; "ANALYZE"; "REINDEX"; "CLUSTER"; "REFRESH"; "LOCK"; "SET"; "RESET";
   "LOAD"; "INSTALL"; "ATTACH"; "DETACH"; "IMPORT"; "BACKUP"; "RESTORE"; "SHUTDOWN";
   "KILL"; "USE"; "HANDLER"].

Definition isSQLVerb (s : string) : bool := one_of (ToUpper s) sqlVerbs.

(** ** Splitting a claim *)

Definition isHTTPResourceValue (bareName : string) : bool :=
  let v := ToLower bareName in has_prefix v "http://" || has_prefix v "https://".

Definition isHTTPResourceClaim (head : string) : bool :=
  has_prefix head "resource:" && isHTTPResourceValue (drop_str 9 head).

Definition splitV2Claim (claim : string) : string * string * bool :=
  match cut_char "?" claim with
  | Some (head, rest) => if isHTTPResourceClaim head then (claim, "", false) else (head, rest, true)
  | None => (claim, "", false)
  end.

(** ** Conditions *)

Fixpoint parsePairs (seen : list string) (pairs : list string) : result (list jwtCondPair) cond_error :=
  match pairs with
  | [] => Ok []
  | item :: rest =>
      match cut_char "=" item with
      | None => Err (MissingSeparator item)
      | Some (key, val) =>
          if String.eqb key "" then Err (EmptyKey item)
          else if contains_char "%" key || contains_char "+" key then Err (EncodedKey key)
          else if one_of key seen then Err (DuplicateKey key)
          else
            match QueryUnescape val with
            | None => Err (BadEncoding val)
            | Some decoded => let* conds := parsePairs (key :: seen) rest in Ok (mkPair key decoded :: conds)
            end
      end
  end.

Definition parseCondSuffix (condpart : string) : result (list jwtCondPair) cond_error :=
  parsePairs [] (split_char "&" condpart).

Fixpoint inertKey (want : string) (synthesized known : bool) (conds : list jwtCondPair) : option claim_error :=
  match conds with
  | [] => None
  | cp :: conds =>
      if synthesized && String.eqb (cp_key cp) want then inertKey want synthesized known conds
      else if negb known then Some (NothingToJudge (cp_key cp))
      else if String.eqb (cp_key cp) jwtCondKeyOp then Some InertOp
      else Some (InertKey (cp_key cp))
  end.

Definition rejectInertConditionKeys (prefix : string) (conds : list jwtCondPair) : option claim_error :=
  let '(want, synthesized, known) := conditionArgumentFor prefix in
  if known && negb synthesized then None else inertKey want synthesized known conds.

(** The values of the pairs: a SQL verb for [op], a well-formed glob for any other key. *)
Fixpoint checkPairs (conds : list jwtCondPair) : option claim_error :=
  match conds with
  | [] => None
  | cp :: conds =>
      if String.eqb (cp_key cp) jwtCondKeyOp then
        if isSQLVerb (cp_value cp) then checkPairs conds else Some (NotSQLVerb (cp_value cp))
      else
        match Glob.ValidateValueGlob (cp_value cp) with
        | Some e => Some (BadGlob (cp_key cp) (cp_value cp) e)
        | None => checkPairs conds
        end
  end.

(** ** Targets of a claim *)

(** The glob of a bare name and, of an http resource, the query that is compared literally. *)
Definition claimGlobParts (prefix bareName : string) : string * option string :=
  if String.eqb prefix TargetTypeResource && isHTTPResourceValue bareName then
    match cut_char "?" bareName with
    | Some (path, query) => (path, Some query)
    | None => (bareName, None)
    end
  else (bareName, None).

Definition matchClaimBare (prefix bareName targetName : string) : bool :=
  match claimGlobParts prefix bareName with
  | (globPart, Some claimQuery) =>
      match cut_char "?" targetName with
      | Some (tPath, tQuery) => String.eqb claimQuery tQuery && matchBare globPart tPath
      | None => false
      end
  | (globPart, None) => matchBare globPart targetName
  end.

(** ** Validation of a claim *)

Definition parseV2Claim (claim : string) : result (string * string * list jwtCondPair) claim_error :=
  let '(namepart, condpart, hadSep) := splitV2Claim claim in
  if (hadSep : bool) && String.eqb condpart "" then Err TrailingQuestion
  else
    match ParseTarget namepart with
    | Err e => Err (BadTarget e)
    | Ok (p, bare) =>
        if String.eqb p TargetTypeSystem then Err SystemClaim
        else if negb (ValidateResourcePattern (fst (claimGlobParts p bare))) then Err BadPattern
        else if String.eqb condpart "" then Ok (p, bare, [])
        else
          match parseCondSuffix condpart with
          | Err e => Err (BadCondition e)
          | Ok conds =>
              match rejectInertConditionKeys p conds with
              | Some e => Err e
              | None =>
                  match checkPairs conds with
                  | Some e => Err e
                  | None => Ok (p, bare, conds)
                  end
              end
          end
    end.

(** ** The constraint a claim stands for *)

Definition jwtShorthandValues (raw : string) : list value :=
  match JSON.document raw with
  | Some (VBool b) => [VBool b]
  | Some VNull => [VNull]
  | Some (VNumber tok) => [VNumber tok]
  | _ => [VString raw]
  end.

Definition pairCondition (cp : jwtCondPair) : cond_iface :=
  if String.eqb (cp_key cp) jwtCondKeyOp then Cond (AllowedOperations "" [cp_value cp])
  else Cond (AllowedValues (cp_key cp) (jwtShorthandValues (cp_value cp))).

Definition buildV2Constraint (prefix bareName : string) (conds : list jwtCondPair) : Constraint :=
  mkConstraint (prefix ++ ":" ++ bareName) [requiredActionFor prefix] "" "" None ∅ None
    (map pairCondition conds) [].

(** ** What a decision parses *)

Record capHead := mkHead { h_prefix : string; h_bareName : string; h_condpart : string }.

Definition parseCapHead (claim : string) : option capHead :=
  let '(namepart, condpart, hadSep) := splitV2Claim claim in
  if (hadSep : bool) && String.eqb condpart "" then None
  else match ParseTarget namepart with Err _ => None | Ok (p, bare) => Some (mkHead p bare condpart) end.

Definition parseCapHeads (caps : list string) : list capHead := omap parseCapHead caps.

(** The heads cached in the claims are the ones this computes. *)
Definition parsedCapHeads (c : JWTClaims) : list capHead := parseCapHeads (jc_Capabilities c).

Definition covers (target : EnforceTarget) (h : capHead) : bool :=
  String.eqb (h_prefix h) (et_Type target) && matchClaimBare (h_prefix h) (h_bareName h) (et_Name target).

Definition claimNamesTargetButFailedToParse (c : JWTClaims) (target : EnforceTarget) : bool :=
  existsb (fun h => covers target h && negb (String.eqb (h_condpart h) "") && negb (is_ok (parseCondSuffix (h_condpart h))))
    (parsedCapHeads c).

Definition headConstraint (target : EnforceTarget) (h : capHead) : option Constraint :=
  if negb (covers target h) then None
  else if String.eqb (h_condpart h) "" then Some (buildV2Constraint (h_prefix h) (h_bareName h) [])
  else
    match parseCondSuffix (h_condpart h) with
    | Err _ => None
    | Ok conds => Some (buildV2Constraint (h_prefix h) (h_bareName h) conds)
    end.

Definition buildConstraintsFromParsed (heads : list capHead) (target : EnforceTarget) : list Constraint :=
  omap (headConstraint target) heads.

Definition anyCapCovers (parsed : list capHead) (target : EnforceTarget) : bool := existsb (covers target) parsed.

Definition anyCapCoversName (name targetType : string) (parsed : list capHead) : bool :=
  anyCapCovers parsed (mkEnforceTarget targetType name).

(** ** The validator and the parser of decisions agree *)

(** What is left to parse of a head. *)
Definition headConditions (h : capHead) : result (list jwtCondPair) cond_error :=
  if String.eqb (h_condpart h) "" then Ok [] else parseCondSuffix (h_condpart h).

Lemma headConstraint_conditions target h :
  headConstraint target h =
    if covers target h then
      match headConditions h with Ok conds => Some (buildV2Constraint (h_prefix h) (h_bareName h) conds) | Err _ => None end
    else None.
Proof. unfold headConstraint, headConditions. destruct (covers target h); cbn [negb]; [|done]. by destruct (String.eqb _ _). Qed.

(** What a validated claim is known to be. *)
Record sound_head (h : capHead) (conds : list jwtCondPair) : Prop := mkSound {
  s_conds : headConditions h = Ok conds;
  s_prefix : h_prefix h <> TargetTypeSystem;
  s_pattern : ValidateResourcePattern (fst (claimGlobParts (h_prefix h) (h_bareName h))) = true;
  s_keys : rejectInertConditionKeys (h_prefix h) conds = None;
  s_values : checkPairs conds = None;
}.

Lemma validated_head claim p bare conds :
  parseV2Claim claim = Ok (p, bare, conds) ->
  exists h, parseCapHead claim = Some h /\ h_prefix h = p /\ h_bareName h = bare /\ sound_head h conds.
Proof.
  unfold parseV2Claim, parseCapHead. destruct (splitV2Claim claim) as [[namepart condpart] hadSep].
  destruct (hadSep && String.eqb condpart ""); [done|]. destruct (ParseTarget namepart) as [[p' bare']|e]; [|done].
  destruct (String.eqb_spec p' TargetTypeSystem) as [|Hs]; [done|].
  destruct (ValidateResourcePattern _) eqn:Hv; cbn [negb]; [|done].
  assert (forall cs, rejectInertConditionKeys p' cs = None -> checkPairs cs = None ->
    headConditions (mkHead p' bare' condpart) = Ok cs -> sound_head (mkHead p' bare' condpart) cs) as Hmk by (by constructor).
  unfold headConditions in Hmk. cbn [h_condpart] in Hmk.
  destruct (String.eqb_spec condpart "") as [->|Hc].
  - intros [= <- <- <-]. eexists. split_and!; [done..|]. apply Hmk; [|done..]. unfold rejectInertConditionKeys. by repeat case_match.
  - destruct (parseCondSuffix condpart) as [cs|]; [|done].
    destruct (rejectInertConditionKeys p' cs) eqn:Ei; [done|]. destruct (checkPairs cs) eqn:Ec; [done|].
    intros [= <- <- <-]. eexists. split_and!; [done..|]. by apply Hmk.
Qed.

(** The grant a claim was validated as. *)
Definition grantOf (target : EnforceTarget) (claim : string) : option Constraint :=
  match parseV2Claim claim with
  | Ok (p, bare, conds) => if covers target (mkHead p bare "") then Some (buildV2Constraint p bare conds) else None
  | Err _ => None
  end.

(** C14: A claim that passed validation is never lost afterwards.  When every entry of a token's
    [mcp.capabilities] is one the validator accepts, a decision parses every entry, no deny
    blames a suffix that does not parse, the constraints it enforces for a target are exactly
    the grants that were validated, in the order of the token, and a list shows the entries
    those grants cover. *)
Theorem validated_claims_enforced (c : JWTClaims) target :
  Forall (fun claim => is_ok (parseV2Claim claim) = true) (jc_Capabilities c) ->
  List.length (parsedCapHeads c) = List.length (jc_Capabilities c) /\
  claimNamesTargetButFailedToParse c target = false /\
  buildConstraintsFromParsed (parsedCapHeads c) target = omap (grantOf target) (jc_Capabilities c) /\
  (anyCapCovers (parsedCapHeads c) target = true <-> omap (grantOf target) (jc_Capabilities c) <> []).
Proof.
  unfold claimNamesTargetButFailedToParse, buildConstraintsFromParsed, parsedCapHeads, parseCapHeads.
  induction 1 as [|claim caps Hc _ (IHl & IHf & IHb & IHa)]; [done|].
  destruct (parseV2Claim claim) as [[[p bare] conds]|] eqn:Ev; [|done]. clear Hc.
  destruct (validated_head claim p bare conds Ev) as (h & Hh & <- & <- & Hs). pose proof (s_conds _ _ Hs) as Hcs.
  assert (grantOf target claim = headConstraint target h) as Hg.
  { unfold grantOf. rewrite Ev, headConstraint_conditions, Hcs. done. }
  assert (headConstraint target h = if covers target h then Some (buildV2Constraint (h_prefix h) (h_bareName h) conds) else None)
    as Hb by (by rewrite headConstraint_conditions, Hcs).
  cbn [omap list_omap]. rewrite Hh, Hg. cbn [List.length existsb omap list_omap anyCapCovers]. rewrite Hb.
  split_and!.
  - by rewrite IHl.
  - rewrite IHf, orb_false_r. unfold headConditions in Hcs.
    destruct (String.eqb (h_condpart h) "") eqn:Ec; cbn [negb]; [by rewrite andb_false_r|]. rewrite Hcs. cbn. by rewrite andb_false_r.
  - rewrite IHb. by destruct (covers target h).
  - destruct (covers target h); cbn [orb]; [by split|]. exact IHa.
Qed.

(** Reading ["op"] is only ever meant for the arguments of a tool call. *)
Lemma inertKey_keys want synthesized known conds :
  inertKey want synthesized known conds = None -> forall cp, cp ∈ conds -> synthesized = true /\ cp_key cp = want.
Proof.
  induction conds as [|c conds IH]; intros E cp Hin; [by apply elem_of_nil in Hin|]. cbn [inertKey] in E.
  destruct (synthesized && String.eqb (cp_key c) want) eqn:Ek; [|by destruct (negb known), (String.eqb (cp_key c) jwtCondKeyOp)].
  apply elem_of_cons in Hin as [->|Hin]; [|by apply IH]. bools. done.
Qed.

Lemma sound_head_keys h conds cp :
  sound_head h conds -> cp ∈ conds ->
  h_prefix h = TargetTypeTool \/
  (h_prefix h = TargetTypeResource /\ cp_key cp = "uri") \/ (h_prefix h = TargetTypePrompt /\ cp_key cp = "name").
Proof.
  intros Hs Hin. pose proof (s_keys _ _ Hs) as Hk. unfold rejectInertConditionKeys, conditionArgumentFor in Hk.
  destruct (String.eqb_spec (h_prefix h) TargetTypeResource); [right; left; split; [done|]; exact (proj2 (inertKey_keys _ _ _ _ Hk cp Hin))|].
  destruct (String.eqb_spec (h_prefix h) TargetTypePrompt); [right; right; split; [done|]; exact (proj2 (inertKey_keys _ _ _ _ Hk cp Hin))|].
  destruct (String.eqb_spec (h_prefix h) TargetTypeTool); [by left|].
  by destruct (inertKey_keys _ _ _ _ Hk cp Hin).
Qed.

End claims.

Section examples.
#[local] Existing Instance CaseFold.asciiTables.

Example claim_plain : parseV2Claim "tool:read_file?path=/reports/*" =
  Ok ("tool", "read_file", [mkPair "path" "/reports/*"]).
Proof. vm_compute. reflexivity. Qed.
Example claim_op : parseV2Claim "tool:query_db?op=select&table=sales+eu%20x" =
  Ok ("tool", "query_db", [mkPair "op" "select"; mkPair "table" "sales eu x"]).
Proof. vm_compute. reflexivity. Qed.
Example claim_query : parseV2Claim "resource:HTTPS://x/search?q=*" = Ok ("resource", "HTTPS://x/search?q=*", []).
Proof. vm_compute. reflexivity. Qed.
Example claim_inert : parseV2Claim "resource:doc://guide?lang=en" = Err (InertKey "lang").
Proof. vm_compute. reflexivity. Qed.
Example claim_twice : parseV2Claim "tool:x?a=1&a=2" = Err (BadCondition (DuplicateKey "a")).
Proof. vm_compute. reflexivity. Qed.
Example claim_number : jwtShorthandValues " 9007199254740993" = [VNumber "9007199254740993"].
Proof. vm_compute. reflexivity. Qed.
Example claim_trailing : jwtShorthandValues "100abc" = [VString "100abc"].
Proof. vm_compute. reflexivity. Qed.

Definition demo_claims (caps : list string) : JWTClaims := mkClaims caps true "" "" "alice" "" "" [] ∅.

Lemma validated_claims_enforced_witness :
  let c := demo_claims ["tool:query_*?op=SELECT&table=sales"; "resource:https://x/q?a=1"; "tool:query_db"] in
  map Target (buildConstraintsFromParsed (parsedCapHeads c) (mkEnforceTarget "tool" "query_db")) = ["tool:query_*"; "tool:query_db"].
Proof.
  intros c. assert (Forall (fun claim => is_ok (parseV2Claim claim) = true) (jc_Capabilities c)) as Hv
    by (repeat constructor; vm_compute; reflexivity).
  rewrite (proj1 (proj2 (proj2 (validated_claims_enforced c (mkEnforceTarget "tool" "query_db") Hv)))). vm_compute. reflexivity.
Defined.

End examples.
End TokenClaims.
