(* ===== verification/TokenPDP.v ===== *)
(** * The token decision point

    The contract every decision point of a route keeps ([PolicyDecisionPoint] of
    internal/pdp/pdp.go) as a type class, the two decision points without a policy
    ([AlwaysAllowPDP] and [DenyAllPDP]), and the one that enforces the claims of a verified
    token and intersects them with the decision point it wraps ([JWTPDP] of
    internal/pdp/jwt.go, which also keeps the contract, so that layers stack).

    A decision is stamped with the request id and the instant it is given.  The engine that
    answers for a route without one is [builtins]; a manifest's decision point comes with the
    registry its engine was built from (Construction.v). *)
From stdpp Require Import base tactics list gmap strings fin_sets sorting.
From Stdlib Require Import ZArith Lia Ascii String.
From S2P Require Import Prelude GoStrings GoPath CallCounter Capability CaseFold Numeric Selection.
From S2P Require Import Anchor Backends Engine Construction KillSwitch SurfacePin ManifestPDP.
From S2P Require Import ArgumentPath ArgumentHandlers JSON Encode KeyScan ToolSurface ListFilter TokenClaims.
#[local] Open Scope string_scope.
#[local] Open Scope go_scope.
#[local] Arguments String.append : simpl nomatch.
Import Capability ArgumentPath ArgumentHandlers Selection Backends Engine ManifestPDP ToolSurface ListFilter TokenClaims.

(** The operations of a decision point.  [dp_alwaysAllow] is whether its dynamic type is
    [AlwaysAllowPDP]; the list operations return the findings of the interface pins too. *)
Class PolicyDecisionPoint (C F P : Type) := {
  dp_Decide : P -> PCtx -> string -> EnforceTarget -> list (string * value) -> string -> string -> string -> M C F EnforceResponse;
  dp_DecideResourceRead : P -> PCtx -> string -> string -> string -> string -> string -> M C F EnforceResponse;
  dp_DecidePromptGet : P -> PCtx -> string -> string -> string -> string -> string -> M C F EnforceResponse;
  dp_DecideResourceCancel : P -> PCtx -> string -> string -> string -> string -> string -> M C F EnforceResponse;
  dp_DecideSampling : P -> PCtx -> string -> string -> string -> string -> M C F EnforceResponse;
  dp_CheckKill : P -> PCtx -> string -> string -> string -> option EnforceResponse;
  dp_CheckAudience : P -> PCtx -> string -> string -> option EnforceResponse;
  dp_HardenRefusal : P -> PCtx -> string -> EnforceResponse -> EnforceTarget -> list (string * value) -> string -> string -> M C F EnforceResponse;
  dp_EvaluateClaimCondition : P -> PCtx -> cond_iface -> option EnforceRequest -> M C F (option ConditionError * bool);
  dp_ConditionHandlerOverridden : P -> string -> bool;
  dp_FilterToolsList : P -> PCtx -> string -> ListFilterResult * list SurfacePin.SurfaceChange * P;
  dp_FilterResourcesList : P -> PCtx -> string -> ListFilterResult * list SurfacePin.SurfaceChange * P;
  dp_FilterPromptsList : P -> PCtx -> string -> ListFilterResult * list SurfacePin.SurfaceChange * P;
  dp_RecordObservedToolHashes : P -> PCtx -> string -> nat * list SurfacePin.SurfaceChange * P;
  dp_ReleaseSession : P -> string -> M C F P;
  dp_alwaysAllow : P -> bool;
}.

Module TokenPDP.

Section pdps.
Context {C F : Type} `{CallCounterBackend C} `{FlowStoreBackend F} `{Leaf} `{U : Unicode}.
Context (sha256 : string -> string) (Marshal : node -> option string).
Context (builtins : @EngineState C F).

Abbreviation act A := (M C F A).
Abbreviation PDP := (@ManifestPDP C F).

(** ** Without a policy *)

(** What every method of [AlwaysAllowPDP] and [DenyAllPDP] answers for a claim condition. *)
Definition builtinVerdict (ctx : PCtx) (cond : cond_iface) (r : option EnforceRequest) : act (option ConditionError * bool) :=
  NonCommittingConditionVerdict builtins None (engine_ctx ctx) cond r.

Record AlwaysAllowPDP := mkAlwaysAllow { aa_ks : option Checker }.

Definition allowUnlessKilled (p : AlwaysAllowPDP) (ctx : PCtx) (sessionID rid t : string) : EnforceResponse :=
  match killCheck ctx (aa_ks p) sessionID rid t with
  | Some deny => deny
  | None => newAllowResponse rid t
  end.

#[local] Instance alwaysAllow_pdp : PolicyDecisionPoint C F AlwaysAllowPDP := {|
  dp_Decide p ctx sid _ _ _ rid t := ret (allowUnlessKilled p ctx sid rid t);
  dp_DecideResourceRead p ctx sid _ _ rid t := ret (allowUnlessKilled p ctx sid rid t);
  dp_DecidePromptGet p ctx sid _ _ rid t := ret (allowUnlessKilled p ctx sid rid t);
  dp_DecideResourceCancel p ctx sid _ _ rid t := ret (allowUnlessKilled p ctx sid rid t);
  dp_DecideSampling p ctx sid _ rid t := ret (allowUnlessKilled p ctx sid rid t);
  dp_CheckKill p ctx sid rid t := killCheck ctx (aa_ks p) sid rid t;
  dp_CheckAudience _ _ _ _ := None;
  dp_HardenRefusal _ _ _ r _ _ _ _ := ret r;
  dp_EvaluateClaimCondition _ := builtinVerdict;
  dp_ConditionHandlerOverridden _ _ := false;
  dp_FilterToolsList p _ result := (passThroughList result listKeyTools, [], p);
  dp_FilterResourcesList p _ result := (passThroughList result listKeyResources, [], p);
  dp_FilterPromptsList p _ result := (passThroughList result listKeyPrompts, [], p);
  dp_RecordObservedToolHashes p _ result := (countListEntries result listKeyTools, [], p);
  dp_ReleaseSession p _ := ret p;
  dp_alwaysAllow _ := true;
|}.

(** Every entry of a list dropped. *)
Definition emptyListing (resultBytes listKey : string) : ListFilterResult :=
  filterListResult resultBytes listKey (fun _ _ => (false, "")).

Inductive DenyAllPDP := DenyAll.

Definition denyAll (rid t : string) : EnforceResponse :=
  pdpDeny rid t ErrCodeAuthorizationFailed "" (Msg "no policy configured: denying by default").

#[local] Instance denyAll_pdp : PolicyDecisionPoint C F DenyAllPDP := {|
  dp_Decide _ _ _ _ _ _ rid t := ret (denyAll rid t);
  dp_DecideResourceRead _ _ _ _ _ rid t := ret (denyAll rid t);
  dp_DecidePromptGet _ _ _ _ _ rid t := ret (denyAll rid t);
  dp_DecideResourceCancel _ _ _ _ _ rid t := ret (denyAll rid t);
  dp_DecideSampling _ _ _ _ rid t := ret (denyAll rid t);
  dp_CheckKill _ _ _ rid t := Some (denyAll rid t);
  dp_CheckAudience _ _ _ _ := None;
  dp_HardenRefusal _ _ _ r _ _ _ _ := ret r;
  dp_EvaluateClaimCondition _ := builtinVerdict;
  dp_ConditionHandlerOverridden _ _ := false;
  dp_FilterToolsList p _ result := (emptyListing result listKeyTools, [], p);
  dp_FilterResourcesList p _ result := (emptyListing result listKeyResources, [], p);
  dp_FilterPromptsList p _ result := (emptyListing result listKeyPrompts, [], p);
  dp_RecordObservedToolHashes p _ result := (countListEntries result listKeyTools, [], p);
  dp_ReleaseSession p _ := ret p;
  dp_alwaysAllow _ := false;
|}.

(** ** With a manifest *)

(** The decision point of ManifestPDP.v, and the registry of its engine. *)
Record ManifestRoute := mkRoute {
  mr_pdp : PDP;
  mr_registry : option (@Construction.draft C F);
}.

Definition on_route {A} (r : ManifestRoute) (x : A * list SurfacePin.SurfaceChange * PDP)
    : A * list SurfacePin.SurfaceChange * ManifestRoute :=
  let '(a, changes, p) := x in (a, changes, mkRoute p (mr_registry r)).

#[local] Instance manifest_pdp : PolicyDecisionPoint C F ManifestRoute := {|
  dp_Decide r := Decide (mr_pdp r);
  dp_DecideResourceRead r := DecideResourceRead (mr_pdp r);
  dp_DecidePromptGet r := DecidePromptGet (mr_pdp r);
  dp_DecideResourceCancel r ctx sid uri _ rid t := ret (DecideResourceCancel (mr_pdp r) ctx sid uri rid t);
  dp_DecideSampling r := DecideSampling (mr_pdp r);
  dp_CheckKill r := CheckKill (mr_pdp r);
  dp_CheckAudience _ _ _ _ := None;
  dp_HardenRefusal r := HardenRefusal (mr_pdp r);
  dp_EvaluateClaimCondition r := EvaluateClaimCondition builtins (mr_pdp r);
  dp_ConditionHandlerOverridden r := Construction.ConditionHandlerOverridden (mr_registry r);
  dp_FilterToolsList r ctx result := on_route r (FilterToolsList sha256 Marshal (mr_pdp r) ctx result);
  dp_FilterResourcesList r ctx result := (FilterResourcesList (mr_pdp r) ctx result, [], r);
  dp_FilterPromptsList r ctx result := (FilterPromptsList (mr_pdp r) ctx result, [], r);
  dp_RecordObservedToolHashes r ctx result := on_route r (RecordObservedToolHashes sha256 Marshal (mr_pdp r) ctx result);
  dp_ReleaseSession r sid := let! p := ReleaseSession (mr_pdp r) sid in ret (mkRoute p (mr_registry r));
  dp_alwaysAllow _ := false;
|}.

(** ** With a token *)

Section token.
Context {P : Type} `{!PolicyDecisionPoint C F P}.

(** A value of the interface: nil, a nil pointer, or a decision point. *)
Inductive inner_iface := InnerNil | InnerTypedNil | InnerValue (q : P).

(** The options a decision reads. *)
Record JWTPDPOptions := mkOptions {
  o_AllowAnyAudience : bool;
  o_RouteAudience : string;
  o_Inner : inner_iface;
  o_KillSwitch : option Checker;
}.

Record JWTPDP := mkJWT {
  allowAnyAudience : bool;
  routeAudience : string;
  inner : option P;
  jwt_ks : option Checker;
}.

Definition normalizedInner (i : inner_iface) : option P :=
  match i with InnerNil | InnerTypedNil => None | InnerValue q => Some q end.

Definition newJWTPDP (opts : JWTPDPOptions) : JWTPDP :=
  mkJWT (o_AllowAnyAudience opts) (o_RouteAudience opts) (normalizedInner (o_Inner opts)) (o_KillSwitch opts).

Definition innerEnforces (p : JWTPDP) : bool :=
  match inner p with None => false | Some q => negb (dp_alwaysAllow q) end.

(** The inner decision point, where it is a policy of its own. *)
Definition backstop (p : JWTPDP) : option P := if innerEnforces p then inner p else None.

(** *** Refusals *)

Definition noClaimsDeny (rid t : string) : EnforceResponse :=
  hardDenyResponse rid t ErrCodeNoJWTClaims (Msg "no JWT claims in context — token was not validated").

Definition audienceDeny (rid t : string) (msg : message) : EnforceResponse :=
  let resp := pdpDeny rid t ErrCodeAuthorizationFailed "jwtAudience" msg in with_denial resp (overridden <$> Denial resp).

Definition routeAudienceSatisfied (p : JWTPDP) (claims : JWTClaims) : bool :=
  allowAnyAudience p || String.eqb (routeAudience p) "" || one_of (routeAudience p) (jc_Audiences claims).

Definition audienceDenial (p : JWTPDP) (claims : JWTClaims) (rid t : string) : option EnforceResponse :=
  if routeAudienceSatisfied p claims then None
  else Some (audienceDeny rid t (Msgf "token audience %v does not satisfy the route's required audience %q"
              (jc_Audiences claims ++ [routeAudience p]))).

Definition JWTCheckKill (p : JWTPDP) (ctx : PCtx) (sessionID rid t : string) : option EnforceResponse :=
  match killCheck ctx (jwt_ks p) sessionID rid t with
  | Some deny => Some deny
  | None => match inner p with Some q => dp_CheckKill q ctx sessionID rid t | None => None end
  end.

Definition JWTCheckAudience (p : JWTPDP) (ctx : PCtx) (rid t : string) : option EnforceResponse :=
  if String.eqb (routeAudience p) "" || allowAnyAudience p then None
  else
    match ctx_claims ctx with
    | None => Some (noClaimsDeny rid t)
    | Some claims => audienceDenial p claims rid t
    end.

Definition withInnerVerdicts (p : JWTPDP) (ctx : PCtx) (sessionID : string) (r : EnforceResponse) (target : EnforceTarget)
    (args : list (string * value)) (rid t : string) : act EnforceResponse :=
  match inner p with
  | None => ret r
  | Some q =>
      if bool_decide (Decision_ r = DecisionAllow) || (0 <? List.length (Obligations r))%nat then ret r
      else if bool_decide (is_Some (Denial r)) && negb (Downgradable (Denial r)) then ret r
      else
        match dp_CheckKill q ctx sessionID rid t with
        | Some deny => ret deny
        | None => dp_HardenRefusal q ctx sessionID r target args rid t
        end
  end.

Definition JWTHardenRefusal (p : JWTPDP) (ctx : PCtx) (sessionID : string) (r : EnforceResponse) (target : EnforceTarget)
    (args : list (string * value)) (rid t : string) : act EnforceResponse :=
  match inner p with None => ret r | Some q => dp_HardenRefusal q ctx sessionID r target args rid t end.

(** *** Conditions of a claim *)

Definition maxArgStringDepth : Z := 64.

(** The strings of the elements in order, or that one of them nests too deep. *)
Fixpoint joinAll (l : list (option (list string))) : option (list string) :=
  match l with
  | [] => Some []
  | o :: l => ss ← o; rest ← joinAll l; Some (ss ++ rest)%list
  end.

(** The members of a map are walked before the sort that puts them in order. *)
Fixpoint collectArgStringsDepth (v : value) (depth : Z) : option (list string) :=
  if (maxArgStringDepth <? depth)%Z then None
  else
    match v with
    | VString s => Some [s]
    | VObject ms =>
        joinAll (map snd (merge_sort (fun a b => str_le (fst a) (fst b))
          (map (fun kv => (fst kv, collectArgStringsDepth (snd kv) (depth + 1))) ms)))
    | VArray l => joinAll (map (fun e => collectArgStringsDepth e (depth + 1)) l)
    | _ => Some []
    end.

Definition collectArgStrings (v : value) : option (list string) := collectArgStringsDepth v 0.

(** The verb that matched last, or the SQL verb that is not granted. *)
Fixpoint scanVerbs (operations : list string) (matchedOp : string) (ss : list string) : result string string :=
  match ss with
  | [] => Ok matchedOp
  | s :: ss =>
      let word := OperationVerb s in
      if String.eqb word "" then scanVerbs operations matchedOp ss
      else if MatchOperation operations word then scanVerbs operations word ss
      else if isSQLVerb word then Err word
      else scanVerbs operations matchedOp ss
  end.

Definition conditionTypeAllowedOperations : string := kind_type KAllowedOperations.

Definition denyFromCondition (rid t name : string) (cerr : ConditionError) : EnforceResponse :=
  let resp := denyResponseWithDetails rid t (ce_Code cerr) (ce_ConditionType cerr)
    (Msgf ("%q: " ++ template (ce_Message cerr)) (name :: args (ce_Message cerr))) (ce_Details cerr) in
  with_denial resp ((fun d => mkDenial (Code d) (ConditionType_ d) (Message d) (ce_BlockOverride cerr) (Details d)) <$> Denial resp).

Definition claimConditionVerdict (eval : option P) (ctx : PCtx) (cond : cond_iface) (r : option EnforceRequest)
    : act (option ConditionError * bool) :=
  match eval with None => builtinVerdict ctx cond r | Some q => dp_EvaluateClaimCondition q ctx cond r end.

Definition claimConditionOverridden (eval : option P) (condType : string) : bool :=
  match eval with None => false | Some q => dp_ConditionHandlerOverridden q condType end.

(** The [op] arm: a refusal, or none. *)
Definition judgeOperations (eval : option P) (argument : string) (operations : list string) (r : EnforceRequest) (rid t : string)
    : option EnforceResponse :=
  let deny code msg dets := Some (denyResponseWithDetails rid t code conditionTypeAllowedOperations msg dets) in
  let name := TargetName r in
  if claimConditionOverridden eval conditionTypeAllowedOperations then
    deny ErrCodeEnforcementError
      (Msgf "%q: the deciding policy redefines %s, and this capability claim's argument-less op= form cannot be judged by that handler; deny (fail closed) — grant the operation through a manifest constraint that names the operation argument instead"
         [name; conditionTypeAllowedOperations])
      [("conditionType", VString conditionTypeAllowedOperations); ("reason", VString "handler_override_unsupported")]
  else
    let targetType := match ReqTarget r with Some tg => tgt_Type tg | None => "" end in
    let '(_, synthesized, known) := conditionArgumentFor targetType in
    if synthesized || negb known then
      deny ErrCodeEnforcementError
        (Msgf "%q: a %s decision carries no caller-supplied arguments, so this capability claim's argument-less op= form has nothing to judge but the target's own name; deny (fail closed) — restrict the operation on a tool: claim, or through a manifest constraint naming the operation argument"
           [name; targetType])
        [("targetType", VString targetType); ("reason", VString "op_scan_without_arguments")]
    else if negb (String.eqb argument "") then
      deny ErrCodeEnforcementError
        (Msgf "%q: allowedOperations with a named argument is not supported from a capability claim" [name])
        [("argument", VString argument); ("allowedOperations", VStrings operations)]
    else
      match List.find (fun op => negb (isSQLVerb op)) operations with
      | Some op =>
          deny ErrCodeEnforcementError
            (Msgf "%q: non-SQL operation %q cannot be safely enforced without an explicit argument naming the operation parameter; use the manifest form that names the argument"
               [name; op])
            [("operation", VString op); ("allowedOperations", VStrings operations)]
      | None =>
          match collectArgStrings (VObject (Arguments r)) with
          | None =>
              deny ErrCodeEnforcementError (Msgf "%q: arguments nested too deeply to scan for operations" [name])
                [("maxDepth", VInt maxArgStringDepth); ("allowedOperations", VStrings operations)]
          | Some argStrings =>
              match scanVerbs operations "" argStrings with
              | Err word =>
                  deny ErrCodeOperationNotPermitted
                    (Msgf "%q: operation %q is not in the permitted set %v" (name :: word :: operations))
                    [("operation", VString word); ("allowedOperations", VStrings operations)]
              | Ok matchedOp =>
                  if String.eqb matchedOp "" then
                    deny ErrCodeMissingContext (Msgf "%q: no matching operation found in arguments" [name])
                      [("allowedOperations", VStrings operations)]
                  else None
              end
          end
      end.

(** One condition.  The claims are built with condition values only; a nil interface, on which
    the code would panic, is refused as a type without an evaluator. *)
Definition judgeCondition (eval : option P) (ctx : PCtx) (cond : cond_iface) (r : EnforceRequest) (rid t : string)
    : act (option EnforceResponse) :=
  let name := TargetName r in
  let unevaluated condType :=
    Some (denyResponseWithDetails rid t ErrCodeEnforcementError condType
      (Msgf "%q: JWT condition type %q has no evaluator; deny (fail closed)" [name; condType])
      [("conditionType", VString condType)]) in
  match cond with
  | Cond (AllowedOperations argument operations) => ret (judgeOperations eval argument operations r rid t)
  | Cond (AllowedValues argument values) =>
      let condType := kind_type KAllowedValues in
      let! verdict := claimConditionVerdict eval ctx cond (Some r) in
      ret (match verdict with
           | (_, false) =>
               Some (denyResponseWithDetails rid t ErrCodeEnforcementError condType
                 (Msgf "%q: the deciding policy's %s handler cannot be evaluated ahead of its own decision (it commits state, or is not registered); deny (fail closed)"
                    [name; condType])
                 [("conditionType", VString condType)])
           | (Some cerr, true) => Some (denyFromCondition rid t name cerr)
           | (None, true) => None
           end)
  | Cond c => ret (unevaluated (ConditionType c))
  | CondNil => ret (unevaluated "")
  | CondTypedNil k => ret (unevaluated (kind_type k))
  end.

Fixpoint judgeConditions (eval : option P) (ctx : PCtx) (conditions : list cond_iface) (r : EnforceRequest) (rid t : string)
    : act (option EnforceResponse) :=
  match conditions with
  | [] => ret None
  | cond :: conditions =>
      let! refusal := judgeCondition eval ctx cond r rid t in
      match refusal with
      | Some deny => ret (Some deny)
      | None => judgeConditions eval ctx conditions r rid t
      end
  end.

Definition evaluateJWTConditions (eval : option P) (ctx : PCtx) (conditions : list cond_iface) (r : option EnforceRequest)
    (rid t : string) : act (option EnforceResponse) :=
  match r with
  | None =>
      ret (Some (pdpDeny rid t ErrCodeEnforcementError ""
        (Msg "JWT capability-claim conditions were evaluated with no request to check against; deny (fail closed)")))
  | Some r => judgeConditions eval ctx conditions r rid t
  end.

Definition JWTEvaluateClaimCondition (p : JWTPDP) : PCtx -> cond_iface -> option EnforceRequest -> act (option ConditionError * bool) :=
  claimConditionVerdict (inner p).

Definition JWTConditionHandlerOverridden (p : JWTPDP) (condType : string) : bool := claimConditionOverridden (inner p) condType.

(** *** Decisions *)

Definition jwtClaimEnforceRequest (sessionID : string) (target : EnforceTarget) (args : list (string * value))
    (claims : gmap string value) : EnforceRequest :=
  mkRequest sessionID (et_Name target) args "" "" (Some (mkTarget (et_Type target) (et_Name target))) claims [] [].

Definition decideInner (q : P) (ctx : PCtx) (sessionID : string) (target : EnforceTarget) (args : list (string * value))
    (sourceIP rid t : string) : act EnforceResponse :=
  if String.eqb (et_Type target) TargetTypeResource then dp_DecideResourceRead q ctx sessionID (et_Name target) sourceIP rid t
  else if String.eqb (et_Type target) TargetTypePrompt then dp_DecidePromptGet q ctx sessionID (et_Name target) sourceIP rid t
  else if String.eqb (et_Type target) TargetTypeTool then dp_Decide q ctx sessionID target args sourceIP rid t
  else ret (hardDenyResponse rid t ErrCodeEnforcementError
         (Msgf "decideInner: unhandled target type %q — update decideInner" [et_Type target])).

(** Whether a later refusal replaces this one. *)
Definition replaceable (lastDeny : option EnforceResponse) : bool :=
  match lastDeny with
  | None => true
  | Some d => match Denial d with None => true | Some di => Downgradable (Some di) end
  end.

(** The grants for the target in order, until one permits the call. *)
Fixpoint judgeGrants (eval : option P) (ctx : PCtx) (r : EnforceRequest) (rid t : string) (lastDeny : option EnforceResponse)
    (constraints : list Constraint) : act (option EnforceResponse) :=
  match constraints with
  | [] => ret lastDeny
  | matched :: constraints =>
      match Conditions matched with
      | [] => ret None
      | conditions =>
          let! resp := evaluateJWTConditions eval ctx conditions (Some r) rid t in
          match resp with
          | None => ret None
          | Some deny =>
              judgeGrants eval ctx r rid t (if replaceable lastDeny then Some deny else lastDeny) constraints
          end
      end
  end.

Definition JWTDecide (p : JWTPDP) (ctx : PCtx) (sessionID : string) (target : EnforceTarget) (args : list (string * value))
    (sourceIP rid t : string) : act EnforceResponse :=
  match killCheck ctx (jwt_ks p) sessionID rid t with
  | Some deny => ret deny
  | None =>
      match ctx_claims ctx with
      | None => ret (noClaimsDeny rid t)
      | Some claims =>
          match audienceDenial p claims rid t with
          | Some deny => ret deny
          | None =>
              let refuse msg := withInnerVerdicts p ctx sessionID (pdpDeny rid t ErrCodeAuthorizationFailed "jwtCapability" msg)
                  target args rid t in
              if negb (jc_HasCapabilities claims) then
                match backstop p with
                | Some q => decideInner q ctx sessionID target args sourceIP rid t
                | None =>
                    refuse (Msg "token carries no mcp.capabilities claim and the route has no manifest policy to fall back on; JWT mode denies by default — issue a token with capability claims or add a manifest policy to the route")
                end
              else
                let constraints := buildConstraintsFromParsed (parsedCapHeads claims) target in
                if (List.length constraints =? 0)%nat then
                  refuse (if claimNamesTargetButFailedToParse claims target
                    then Msgf "a JWT capability claim names %s %q, but its condition suffix could not be parsed, so it grants nothing (see the eunox log for the parse error)"
                           [et_Type target; et_Name target]
                    else Msgf "%s %q is not in the JWT capability claims" [et_Type target; et_Name target])
                else
                  let condReq := jwtClaimEnforceRequest sessionID target (jwtConditionArgs target args) (buildFlatClaims claims) in
                  let! lastDeny := judgeGrants (inner p) ctx condReq rid t None constraints in
                  match lastDeny with
                  | Some deny => withInnerVerdicts p ctx sessionID deny target args rid t
                  | None =>
                      match inner p with
                      | Some q => decideInner q ctx sessionID target args sourceIP rid t
                      | None => ret (newAllowResponse rid t)
                      end
                  end
          end
      end
  end.

Definition JWTDecideResourceRead (p : JWTPDP) (ctx : PCtx) (sessionID uri sourceIP rid t : string) : act EnforceResponse :=
  JWTDecide p ctx sessionID (mkEnforceTarget TargetTypeResource uri) [] sourceIP rid t.

Definition JWTDecidePromptGet (p : JWTPDP) (ctx : PCtx) (sessionID promptName sourceIP rid t : string) : act EnforceResponse :=
  JWTDecide p ctx sessionID (mkEnforceTarget TargetTypePrompt promptName) [] sourceIP rid t.

Definition JWTDecideResourceCancel (p : JWTPDP) (ctx : PCtx) (sessionID uri sourceIP rid t : string) : act EnforceResponse :=
  match killCheck ctx (jwt_ks p) sessionID rid t with
  | Some deny => ret deny
  | None =>
      match ctx_claims ctx with
      | None => ret (noClaimsDeny rid t)
      | Some claims =>
          match audienceDenial p claims rid t with
          | Some deny => ret deny
          | None =>
              if jc_HasCapabilities claims then
                if negb (anyCapCovers (parsedCapHeads claims) (mkEnforceTarget TargetTypeResource uri)) then
                  ret (pdpDeny rid t ErrCodeAuthorizationFailed "jwtCapability"
                    (Msgf "resource %q is not in the JWT capability claims, so this token holds no subscription to it to cancel" [uri]))
                else
                  match inner p with
                  | Some q => dp_DecideResourceCancel q ctx sessionID uri sourceIP rid t
                  | None => ret (newAllowResponse rid t)
                  end
              else
                match backstop p with
                | Some q => dp_DecideResourceCancel q ctx sessionID uri sourceIP rid t
                | None =>
                    ret (pdpDeny rid t ErrCodeAuthorizationFailed ""
                      (Msg "no capability policy is configured for this route, so no subscription was authorized to cancel"))
                end
          end
      end
  end.

Definition JWTDecideSampling (p : JWTPDP) (ctx : PCtx) (sessionID sourceIP rid t : string) : act EnforceResponse :=
  match killCheck ctx (jwt_ks p) sessionID rid t with
  | Some deny => ret deny
  | None =>
      match ctx_claims ctx with
      | None => ret (noClaimsDeny rid t)
      | Some claims =>
          match audienceDenial p claims rid t with
          | Some deny => ret deny
          | None =>
              if jc_HasCapabilities claims then
                ret (pdpDeny rid t ErrCodeSamplingDenied ""
                  (Msg "the token carries an mcp.capabilities claim, which is an exhaustive allowlist, and sampling cannot be listed in it (system: targets are not expressible as capability claims); server-initiated sampling is therefore denied for this token"))
              else
                match backstop p with
                | Some q => dp_DecideSampling q ctx sessionID sourceIP rid t
                | None =>
                    ret (pdpDeny rid t ErrCodeSamplingDenied ""
                      (Msg "server-initiated sampling requires a manifest with an explicit system:sampling/createMessage opt-in"))
                end
          end
      end
  end.

(** *** Lists *)

Record listTypeDesc := mkDesc {
  d_key : string;
  d_idField : string;
  d_targetType : string;
  d_filter : P -> PCtx -> string -> ListFilterResult * list SurfacePin.SurfaceChange * P;
}.

Definition toolsDesc : listTypeDesc := mkDesc listKeyTools "name" TargetTypeTool dp_FilterToolsList.
Definition resourcesDesc : listTypeDesc := mkDesc listKeyResources "uri" TargetTypeResource dp_FilterResourcesList.
Definition promptsDesc : listTypeDesc := mkDesc listKeyPrompts "name" TargetTypePrompt dp_FilterPromptsList.

Definition with_inner (p : JWTPDP) (q : P) : JWTPDP := mkJWT (allowAnyAudience p) (routeAudience p) (Some q) (jwt_ks p).

Definition on_inner {A} (p : JWTPDP) (x : A * list SurfacePin.SurfaceChange * P) : A * list SurfacePin.SurfaceChange * JWTPDP :=
  let '(a, changes, q) := x in (a, changes, with_inner p q).

Definition innerFilter (p : JWTPDP) (ctx : PCtx) (result : string) (desc : listTypeDesc)
    : ListFilterResult * list SurfacePin.SurfaceChange * JWTPDP :=
  match inner p with
  | None => (passThroughList result (d_key desc), [], p)
  | Some q => on_inner p (d_filter desc q ctx result)
  end.

Definition JWTRecordObservedToolHashes (p : JWTPDP) (ctx : PCtx) (result : string) : nat * list SurfacePin.SurfaceChange * JWTPDP :=
  match inner p with
  | Some q => on_inner p (dp_RecordObservedToolHashes q ctx result)
  | None => (countListEntries result listKeyTools, [], p)
  end.

Definition emptyListingArmingPins (p : JWTPDP) (ctx : PCtx) (result : string) (desc : listTypeDesc)
    : ListFilterResult * list SurfacePin.SurfaceChange * JWTPDP :=
  let '(changes, p') :=
    if String.eqb (d_key desc) listKeyTools then
      match backstop p with
      | Some q => let '(_, changes, q') := dp_RecordObservedToolHashes q ctx result in (changes, with_inner p q')
      | None => ([], p)
      end
    else ([], p) in
  (emptyListing result (d_key desc), changes, p').

(** A struct with a name and a URI, of which one is the identifier. *)
Definition entryCoveredByClaims (raw : string) (parsed : list capHead) (idField targetType : string) : string * bool :=
  if KeyScan.entryKeysAmbiguous raw then ("", false)
  else
    let entry :=
      match JSON.document raw with
      | Some (VObject ms) => name ← stringField "name" ms; uri ← stringField "uri" ms; Some (name, uri)
      | Some VNull => Some ("", "")
      | _ => None
      end in
    match entry with
    | None => ("", false)
    | Some (name, uri) =>
        let id := if String.eqb idField "uri" then uri else name in
        (id, anyCapCovers parsed (mkEnforceTarget targetType id))
    end.

(** Whether a claim covers the entry at an index of the inner result. *)
Definition coveredEntry (parsed : list capHead) (desc : listTypeDesc) (ids : list string) (i : nat) (raw : string) : bool :=
  match ids !! i with
  | Some id =>
      if String.eqb id "" then snd (entryCoveredByClaims raw parsed (d_idField desc) (d_targetType desc))
      else anyCapCoversName id (d_targetType desc) parsed
  | None => snd (entryCoveredByClaims raw parsed (d_idField desc) (d_targetType desc))
  end.

Definition coveredEntries (parsed : list capHead) (desc : listTypeDesc) (r : ListFilterResult) : list string :=
  List.concat (imap (fun i raw => if coveredEntry parsed desc (entryIDs r) i raw then [raw] else []) (Entries r)).

(** An envelope without members is one the inner result did not decode, or an empty object, and
    both splices then give the same. *)
Definition filterList (p : JWTPDP) (ctx : PCtx) (result : string) (desc : listTypeDesc)
    : ListFilterResult * list SurfacePin.SurfaceChange * JWTPDP :=
  match ctx_claims ctx with
  | None => emptyListingArmingPins p ctx result desc
  | Some claims =>
      if negb (routeAudienceSatisfied p claims) then emptyListingArmingPins p ctx result desc
      else if negb (jc_HasCapabilities claims) then
        if innerEnforces p then innerFilter p ctx result desc else (emptyListing result (d_key desc), [], p)
      else
        let '(innerRes, changes, p') := innerFilter p ctx result desc in
        let kept := coveredEntries (parsedCapHeads claims) desc innerRes in
        let out :=
          match envelope innerRes with
          | [] => replaceOrderedListField (Result innerRes) (d_key desc) kept
          | env => encodeOrderedObjectWithList env (d_key desc) kept
          end in
        (match out with
         | None => emptyListing result (d_key desc)
         | Some out => mkFiltered out kept (Upstream innerRes) [] []
         end, changes, p')
  end.

Definition JWTReleaseSession (p : JWTPDP) (sessionID : string) : act JWTPDP :=
  match inner p with
  | None => ret p
  | Some q => let! q' := dp_ReleaseSession q sessionID in ret (with_inner p q')
  end.

#[local] Instance jwt_pdp : PolicyDecisionPoint C F JWTPDP := {|
  dp_Decide := JWTDecide;
  dp_DecideResourceRead := JWTDecideResourceRead;
  dp_DecidePromptGet := JWTDecidePromptGet;
  dp_DecideResourceCancel := JWTDecideResourceCancel;
  dp_DecideSampling := JWTDecideSampling;
  dp_CheckKill := JWTCheckKill;
  dp_CheckAudience := JWTCheckAudience;
  dp_HardenRefusal := JWTHardenRefusal;
  dp_EvaluateClaimCondition := JWTEvaluateClaimCondition;
  dp_ConditionHandlerOverridden := JWTConditionHandlerOverridden;
  dp_FilterToolsList p ctx result := filterList p ctx result toolsDesc;
  dp_FilterResourcesList p ctx result := filterList p ctx result resourcesDesc;
  dp_FilterPromptsList p ctx result := filterList p ctx result promptsDesc;
  dp_RecordObservedToolHashes := JWTRecordObservedToolHashes;
  dp_ReleaseSession := JWTReleaseSession;
  dp_alwaysAllow _ := false;
|}.

End token.
End pdps.

Arguments JWTPDP P : clear implicits.
Arguments inner_iface P : clear implicits.
Arguments JWTPDPOptions P : clear implicits.
Arguments InnerNil {P}.
Arguments InnerTypedNil {P}.
Arguments InnerValue {P} q.
End TokenPDP.
