(* ===== verification/TokenSafety.v ===== *)
(** * What the token decision point guarantees

    The laws a decision point promises to a layer wrapped around it ([DecisionPointLaws]), that
    the four decision points of TokenPDP.v keep them, and the contract of [JWTPDP] proved
    against them: a token only ever restricts what the wrapped decision point allows. *)
From stdpp Require Import base tactics list gmap strings fin_sets sorting.
From Stdlib Require Import ZArith Lia Ascii String.
From S2P Require Import Prelude GoStrings GoPath CallCounter Capability CaseFold Numeric Selection.
From S2P Require Import Anchor Backends Engine EngineSafety Construction KillSwitch SurfacePin ManifestPDP PDPSafety PDPForwarding.
From S2P Require Import ArgumentPath ArgumentHandlers JSON Encode KeyScan ToolSurface ListFilter TokenClaims TokenPDP.
#[local] Open Scope string_scope.
#[local] Open Scope go_scope.
#[local] Arguments String.append : simpl nomatch.
Import Capability ArgumentPath ArgumentHandlers Selection Backends Engine EngineSafety ManifestPDP PDPSafety PDPForwarding.
Import JSON ToolSurface ListFilter TokenClaims TokenPDP.

Module TokenSafety.

(** ** The scan of an [op] grant *)

(** A string anywhere inside a value. *)
Inductive reaches : value -> string -> Prop :=
| reaches_string s : reaches (VString s) s
| reaches_element l v s : v ∈ l -> reaches v s -> reaches (VArray l) s
| reaches_member ms k v s : (k, v) ∈ ms -> reaches v s -> reaches (VObject ms) s.

(** How many containers the deepest part of a value stands in. *)
Fixpoint nesting (v : value) : Z :=
  match v with
  | VArray l => foldr Z.max 0%Z (map (fun e => 1 + nesting e)%Z l)
  | VObject ms => foldr Z.max 0%Z (map (fun kv => 1 + nesting (snd kv))%Z ms)
  | _ => 0%Z
  end.

Lemma foldr_max_le (l : list Z) b : (0 <= b)%Z -> ((foldr Z.max 0 l <= b)%Z <-> Forall (fun x => x <= b)%Z l).
Proof. intros Hb. induction l as [|x l IH]; cbn; [done|]. rewrite Forall_cons, <- IH. lia. Qed.

Lemma joinAll_spec l :
  match joinAll l with
  | Some ss => Forall is_Some l /\ forall s, s ∈ ss <-> exists ss', Some ss' ∈ l /\ s ∈ ss'
  | None => None ∈ l
  end.
Proof.
  induction l as [|[ss|] l IH]; cbn [joinAll mbind option_bind].
  - split; [done|]. intros s. split; [by intros ?%elem_of_nil | by intros (? & ?%elem_of_nil & _)].
  - destruct (joinAll l) as [rest|]; cbn [mbind option_bind]; [|by right].
    destruct IH as [Hf Hs]. split; [by constructor|]. intros s. rewrite elem_of_app, Hs. split.
    + intros [?|(ss' & ? & ?)]; [exists ss | exists ss']; split; try done; [left | by right].
    + intros (ss' & [[= ->]|?]%elem_of_cons & ?); [by left | right; by exists ss'].
  - left.
Qed.

Lemma joinAll_perm l1 l2 : l1 ≡ₚ l2 ->
  match joinAll l1, joinAll l2 with
  | Some s1, Some s2 => forall s, s ∈ s1 <-> s ∈ s2
  | None, None => True
  | _, _ => False
  end.
Proof.
  intros Hp. pose proof (joinAll_spec l1) as H1. pose proof (joinAll_spec l2) as H2.
  destruct (joinAll l1) as [s1|], (joinAll l2) as [s2|]; try done.
  - intros s. rewrite (proj2 H1), (proj2 H2). by setoid_rewrite Hp.
  - destruct H1 as [H1 _]. rewrite Hp in H1. rewrite Forall_forall in H1. by destruct (H1 _ H2).
  - destruct H2 as [H2 _]. rewrite <- Hp in H2. rewrite Forall_forall in H2. by destruct (H2 _ H1).
Qed.

(** What a collection of children says of their parent at depth [d]. *)
Definition collected (f : value -> option (list string)) (d : Z) (v : value) : Prop :=
  match f v with
  | Some ss => (d + nesting v <= maxArgStringDepth)%Z /\ forall s, s ∈ ss <-> reaches v s
  | None => (maxArgStringDepth < d + nesting v)%Z
  end.

Lemma collected_children (f : value -> option (list string)) d (l : list value) :
  (d <= maxArgStringDepth)%Z -> Forall (collected f (d + 1)) l ->
  match joinAll (map f l) with
  | Some ss => (d + foldr Z.max 0 (map (fun e => 1 + nesting e) l) <= maxArgStringDepth)%Z /\
      forall s, s ∈ ss <-> exists v, v ∈ l /\ reaches v s
  | None => (maxArgStringDepth < d + foldr Z.max 0 (map (fun e => 1 + nesting e) l))%Z
  end.
Proof.
  intros Hd Hl. pose proof (joinAll_spec (map f l)) as Hj. pose proof (foldr_max_le (map (fun e => 1 + nesting e)%Z l) (maxArgStringDepth - d)) as Hm.
  rewrite Forall_forall in Hl. destruct (joinAll (map f l)) as [ss|].
  - destruct Hj as [Hsome Hs]. split.
    + cut (foldr Z.max 0 (map (fun e => 1 + nesting e) l) <= maxArgStringDepth - d)%Z; [lia|]. apply Hm; [lia|].
      apply Forall_forall. intros x (v & -> & Hv)%list_elem_of_fmap. specialize (Hl v Hv). unfold collected in Hl.
      rewrite Forall_forall in Hsome. destruct (Hsome (f v)) as [? E]; [by apply list_elem_of_fmap_2|]. rewrite E in Hl. lia.
    + intros s. rewrite Hs. split.
      * intros (ss' & (v & E & Hv)%list_elem_of_fmap & Hin). specialize (Hl v Hv). unfold collected in Hl. rewrite <- E in Hl.
        exists v. split; [done|]. by apply Hl.
      * intros (v & Hv & Hr). specialize (Hl v Hv) as Hc. unfold collected in Hc. rewrite Forall_forall in Hsome.
        destruct (Hsome (f v)) as [ss' E]; [by apply list_elem_of_fmap_2|]. rewrite E in Hc. exists ss'. split; [|by apply Hc].
        rewrite <- E. by apply list_elem_of_fmap_2.
  - apply list_elem_of_fmap in Hj as (v & E & Hv). specialize (Hl v Hv). unfold collected in Hl. rewrite <- E in Hl.
    cut (~ (foldr Z.max 0 (map (fun e => 1 + nesting e) l) <= maxArgStringDepth - d)%Z); [lia|]. rewrite Hm by lia. rewrite Forall_forall.
    intros Hx. specialize (Hx (1 + nesting v)%Z (list_elem_of_fmap_2 (fun e => 1 + nesting e)%Z _ _ Hv)). cbv beta in Hx. lia.
Qed.

Lemma collect_spec v : forall d, collected (fun v => collectArgStringsDepth v d) d v.
Proof.
  induction v as [|?|?|?|?|s0|?|?|l IH|ms IH] using value_tree_ind; intros d; unfold collected; cbn [collectArgStringsDepth nesting];
    destruct (Z.ltb_spec maxArgStringDepth d) as [Hd|Hd].
  all: try lia.
  all: try (split; [lia|]; intros x; split; [by intros ?%elem_of_nil | by inversion 1]).
  - split; [lia|]. intros s. rewrite list_elem_of_singleton. split; [intros ->; constructor | by inversion 1].
  - pose proof (foldr_max_le (map (fun e => 1 + nesting e)%Z l) (maxArgStringDepth - d)) as Hm.
    enough (0 <= foldr Z.max 0 (map (fun e => 1 + nesting e) l))%Z by lia. clear. induction l; cbn; lia.
  - assert (Forall (collected (fun v => collectArgStringsDepth v (d + 1)) (d + 1)) l) as Hl
      by (eapply Forall_impl; [exact IH|]; intros v Hv; apply Hv).
    pose proof (collected_children _ d l Hd Hl) as Hc.
    destruct (joinAll _) as [ss|]; [|exact Hc]. destruct Hc as [Hn Hs]. split; [exact Hn|]. intros s. rewrite Hs. split.
    + intros (v & ? & ?). by econstructor.
    + inversion 1; eauto.
  - enough (0 <= foldr Z.max 0 (map (fun kv => 1 + nesting (snd kv)) ms))%Z by lia. clear. induction ms; cbn; lia.
  - assert (Forall (collected (fun v => collectArgStringsDepth v (d + 1)) (d + 1)) (map snd ms)) as Hl
      by (apply Forall_fmap; eapply Forall_impl; [exact IH|]; intros kv Hv; apply Hv).
    pose proof (collected_children _ d (map snd ms) Hd Hl) as Hc. rewrite !map_map in Hc.
    assert (map snd (merge_sort (fun a b => str_le (fst a) (fst b))
        (map (fun kv => (fst kv, collectArgStringsDepth (snd kv) (d + 1))) ms)) ≡ₚ
      map (fun kv => collectArgStringsDepth (snd kv) (d + 1)) ms) as Hp.
    { rewrite merge_sort_Permutation, map_map. done. }
    apply joinAll_perm in Hp. destruct (joinAll (map snd _)) as [ss|], (joinAll (map _ ms)) as [ss'|]; try done.
    destruct Hc as [Hn Hs]. split; [exact Hn|]. intros s. rewrite Hp, Hs. split.
    + intros (v & (kv & -> & Hkv)%list_elem_of_fmap & Hr). destruct kv as [k v]. by eapply reaches_member.
    + inversion 1 as [| |? k v ? Hin Hr]; subst. exists v. split; [|done]. apply (list_elem_of_fmap_2 snd _ (k, v)). done.
Qed.

Lemma collectArgStrings_spec v :
  match collectArgStrings v with
  | Some ss => (nesting v <= maxArgStringDepth)%Z /\ forall s, s ∈ ss <-> reaches v s
  | None => (maxArgStringDepth < nesting v)%Z
  end.
Proof. exact (collect_spec v 0). Qed.

Section ops.
Context {C F P : Type} `{CallCounterBackend C} `{FlowStoreBackend F} `{Leaf} `{U : Unicode}.
Context `{!PolicyDecisionPoint C F P}.

(** The leading word of a string is blank, a granted verb, or no SQL verb at all. *)
Definition verb_fits (operations : list string) (s : string) : Prop :=
  OperationVerb s = "" \/ MatchOperation operations (OperationVerb s) = true \/ isSQLVerb (OperationVerb s) = false.

Definition verb_granted (operations : list string) (s : string) : Prop :=
  OperationVerb s <> "" /\ MatchOperation operations (OperationVerb s) = true.

Lemma scanVerbs_spec operations ss : forall m,
  match scanVerbs operations m ss with
  | Ok m' => (forall s, s ∈ ss -> verb_fits operations s) /\ (m' <> "" <-> m <> "" \/ exists s, s ∈ ss /\ verb_granted operations s)
  | Err _ => exists s, s ∈ ss /\ ~ verb_fits operations s
  end.
Proof.
  assert (forall s ss m, (verb_granted operations s -> m <> "") -> verb_fits operations s ->
    (forall m', (m' <> "" <-> m <> "" \/ exists s, s ∈ ss /\ verb_granted operations s) ->
     m' <> "" <-> m <> "" \/ exists s', s' ∈ s :: ss /\ verb_granted operations s')) as Hskip.
  { intros s ss' m Hg _ m' ->. split; intros [?|(s' & Hs' & Hv)]; [by left | right; exists s'; split; [by right | done] | by left|].
    apply elem_of_cons in Hs' as [->|?]; [left; by apply Hg | right; by exists s']. }
  induction ss as [|s ss IH]; intros m; cbn [scanVerbs].
  { split; [by intros ? ?%elem_of_nil|]. split; [by left|]. by intros [?|(? & ?%elem_of_nil & _)]. }
  assert (forall m0, verb_fits operations s -> (verb_granted operations s -> m0 <> "") ->
    match scanVerbs operations m0 ss with
    | Ok m' => (forall s0, s0 ∈ s :: ss -> verb_fits operations s0) /\
        (m' <> "" <-> m0 <> "" \/ exists s0, s0 ∈ s :: ss /\ verb_granted operations s0)
    | Err _ => exists s0, s0 ∈ s :: ss /\ ~ verb_fits operations s0
    end) as Hstep.
  { intros m0 Hf Hg. specialize (IH m0). destruct (scanVerbs operations m0 ss) as [m'|w].
    - destruct IH as [Hall Hm]. split; [|by apply Hskip]. intros s0 [->|?]%elem_of_cons; [done | by apply Hall].
    - destruct IH as (s0 & ? & ?). exists s0. by split; [right|]. }
  destruct (String.eqb_spec (OperationVerb s) "") as [Hw|Hw]; [apply Hstep; [by left | by intros [? _]]|].
  destruct (MatchOperation operations (OperationVerb s)) eqn:Hm.
  - specialize (Hstep (OperationVerb s) ltac:(right; by left) (fun _ => Hw)).
    destruct (scanVerbs operations (OperationVerb s) ss) as [m'|]; [|done]. destruct Hstep as [Hall Hm']. split; [done|].
    rewrite Hm'. split; [|by left]. intros _. right. exists s. split; [by left | done].
  - destruct (isSQLVerb (OperationVerb s)) eqn:Hs.
    + exists s. split; [by left|]. unfold verb_fits. rewrite Hm, Hs. by intros [?|[?|?]].
    + apply Hstep; [by right; right|]. intros [_ Hg]. congruence.
Qed.

(** What must hold for an [op] grant to be judged at all. *)
Definition checkable (eval : option P) (operations : list string) (r : EnforceRequest) : Prop :=
  claimConditionOverridden eval conditionTypeAllowedOperations = false /\
  (exists tg, ReqTarget r = Some tg /\ tgt_Type tg = TargetTypeTool) /\
  Forall (fun op => isSQLVerb op = true) operations /\
  (nesting (VObject (Arguments r)) <= maxArgStringDepth)%Z.

Lemma policy_deny rid t code ct msg dets :
  Downgradable (Denial (denyResponseWithDetails rid t code ct msg dets)) = bool_decide (ClassifyDenialCode code = DenialClassPolicy).
Proof. done. Qed.

Lemma tool_argument (r : EnforceRequest) :
  let t := match ReqTarget r with Some tg => tgt_Type tg | None => "" end in
  let '(_, synthesized, known) := conditionArgumentFor t in
  (synthesized || negb known = false) <-> exists tg, ReqTarget r = Some tg /\ tgt_Type tg = TargetTypeTool.
Proof.
  unfold conditionArgumentFor. destruct (ReqTarget r) as [tg|]; cbn zeta; [|by split; [|intros (? & ? & _)]].
  destruct (String.eqb_spec (tgt_Type tg) TargetTypeResource) as [E|?]; cbn; [split; [done|]; intros (? & [= <-] & E'); by rewrite E in E'|].
  destruct (String.eqb_spec (tgt_Type tg) TargetTypePrompt) as [E|?]; cbn; [split; [done|]; intros (? & [= <-] & E'); by rewrite E in E'|].
  destruct (String.eqb_spec (tgt_Type tg) TargetTypeTool) as [E|?]; cbn; [by split; eauto|]. split; [done|]. by intros (? & [= <-] & ?).
Qed.

(** The call leads with a granted verb somewhere, and with no other SQL verb anywhere. *)
Definition op_passes (eval : option P) (operations : list string) (r : EnforceRequest) : Prop :=
  checkable eval operations r /\ (forall s, reaches (VObject (Arguments r)) s -> verb_fits operations s) /\
  exists s, reaches (VObject (Arguments r)) s /\ verb_granted operations s.

Lemma judgeOperations_spec (eval : option P) operations r rid t :
  (judgeOperations eval "" operations r rid t = None <-> op_passes eval operations r) /\
  (forall d, judgeOperations eval "" operations r rid t = Some d ->
     Decision_ d = DecisionDeny /\ (Downgradable (Denial d) = true <-> checkable eval operations r)).
Proof.
  unfold judgeOperations, op_passes, checkable. pose proof (tool_argument r) as Ht. cbv zeta in Ht.
  assert (forall (X Q : Prop) d, ~ X -> Decision_ d = DecisionDeny -> Downgradable (Denial d) = false ->
    (Some d = None <-> X /\ Q) /\ (forall d', Some d = Some d' -> Decision_ d' = DecisionDeny /\ (Downgradable (Denial d') = true <-> X))) as Hfault.
  { intros X Q d Hx Hd Hg. split; [by split; [|intros [? _]]|]. intros ? [= <-]. split; [done|]. rewrite Hg. by split. }
  destruct (claimConditionOverridden eval conditionTypeAllowedOperations); [apply Hfault; [by intros (? & _) | done..]|].
  revert Ht. destruct (conditionArgumentFor _) as [[want synthesized] known].
  destruct (synthesized || negb known); intros Ht; [apply Hfault; [intros (_ & Hx & _); by apply Ht in Hx | done..]|].
  pose proof (proj1 Ht eq_refl) as Htool. cbn [negb].
  destruct (List.find _ operations) as [op|] eqn:Ef.
  { apply find_some in Ef as [Hin Hop]. apply Hfault; [|done..]. intros (_ & _ & Hx & _). rewrite Forall_forall in Hx.
    apply list_elem_of_In in Hin. specialize (Hx op Hin). by rewrite Hx in Hop. }
  assert (Forall (fun op => isSQLVerb op = true) operations) as Hsql.
  { apply Forall_forall. intros op Hin%list_elem_of_In. exact (proj1 (negb_false_iff _) (find_none _ _ Ef op Hin)). }
  pose proof (collectArgStrings_spec (VObject (Arguments r))) as Hc. destruct (collectArgStrings _) as [ss|].
  2: { apply Hfault; [intros (_ & _ & _ & ?); lia | done..]. }
  destruct Hc as [Hn Hss]. pose proof (scanVerbs_spec operations ss "") as Hs.
  assert (forall (Q : Prop) code ct msg dets, bool_decide (ClassifyDenialCode code = DenialClassPolicy) = true -> ~ Q ->
    let d := denyResponseWithDetails rid t code ct msg dets in
    (Some d = None <-> (false = false /\ (exists tg, ReqTarget r = Some tg /\ tgt_Type tg = TargetTypeTool) /\
       Forall (fun op => isSQLVerb op = true) operations /\ (nesting (VObject (Arguments r)) <= maxArgStringDepth)%Z) /\ Q) /\
    (forall d', Some d = Some d' -> Decision_ d' = DecisionDeny /\ (Downgradable (Denial d') = true <->
       false = false /\ (exists tg, ReqTarget r = Some tg /\ tgt_Type tg = TargetTypeTool) /\
       Forall (fun op => isSQLVerb op = true) operations /\ (nesting (VObject (Arguments r)) <= maxArgStringDepth)%Z))) as Hpol.
  { intros Q code ct msg dets Hcl HQ. cbv zeta. split; [by split; [|intros [_ ?]]|]. intros ? [= <-]. split; [done|].
    rewrite policy_deny, Hcl. by split_and!. }
  destruct (scanVerbs operations "" ss) as [m|w].
  - destruct Hs as [Hall Hm]. destruct (String.eqb_spec m "") as [->|Hne].
    + apply Hpol; [done|]. intros [_ (s & Hr & Hg)]. destruct (proj2 Hm) as []; [|done]. right. exists s. split; [by apply Hss | done].
    + split; [|done]. split; [|done]. intros _. split_and!; try done; [intros s Hr; by apply Hall, Hss|].
      destruct (proj1 Hm Hne) as [|(s & Hin & Hg)]; [done|]. exists s. split; [by apply Hss | done].
  - apply Hpol; [done|]. intros [Hall _]. destruct Hs as (s & Hin & Hv). by apply Hv, Hall, Hss.
Qed.

(** An [op] grant admits a call exactly when no argument leads with another SQL verb.  The
    scan passes if and only if this build's handler judges the condition, the call is a tool
    call, every granted operation is a SQL verb, the arguments nest at most 64 deep, the
    leading word of every string anywhere inside them is blank, granted, or no SQL verb, and
    some string leads with a granted one.  A refusal may be forwarded by an observing route
    only when the grant could be judged; one that was never checked is hard. *)
Theorem op_grant_exact (eval : option P) operations r rid t :
  (judgeOperations eval "" operations r rid t = None <-> op_passes eval operations r) /\
  (forall d, judgeOperations eval "" operations r rid t = Some d ->
     Decision_ d = DecisionDeny /\ (Downgradable (Denial d) = true <-> checkable eval operations r)).
Proof. apply judgeOperations_spec. Qed.

End ops.

(** ** What a decision point promises to a layer around it *)

Section laws.
Context {C F : Type} `{CallCounterBackend C} `{FlowStoreBackend F} `{Leaf}.

(** The decision of one of the operations that a token layer delegates to. *)
Inductive delegate (P : Type) `{!PolicyDecisionPoint C F P} (q : P) (ctx : PCtx) (sid rid t : string) : M C F EnforceResponse -> Prop :=
| delegate_call target args ip : delegate P q ctx sid rid t (dp_Decide q ctx sid target args ip rid t)
| delegate_read uri ip : delegate P q ctx sid rid t (dp_DecideResourceRead q ctx sid uri ip rid t)
| delegate_prompt name ip : delegate P q ctx sid rid t (dp_DecidePromptGet q ctx sid name ip rid t).

(** The two that no refusal of the layer itself is hardened for. *)
Inductive delegate' (P : Type) `{!PolicyDecisionPoint C F P} (q : P) (ctx : PCtx) (sid rid t : string) : M C F EnforceResponse -> Prop :=
| delegate_cancel uri ip : delegate' P q ctx sid rid t (dp_DecideResourceCancel q ctx sid uri ip rid t)
| delegate_sampling ip : delegate' P q ctx sid rid t (dp_DecideSampling q ctx sid ip rid t).

(** A revoked caller is refused, and where the revocation cannot be downgraded neither can the
    refusals; hardening a refusal never allows, and leaves a hard refusal as it is. *)
Class DecisionPointLaws (P : Type) `{!PolicyDecisionPoint C F P} : Prop := {
  kill_denies p ctx sid rid t d : dp_CheckKill p ctx sid rid t = Some d -> Decision_ d <> DecisionAllow;
  kill_refuses p ctx sid rid t d m : dp_CheckKill p ctx sid rid t = Some d ->
    delegate P p ctx sid rid t m \/ delegate' P p ctx sid rid t m -> forall w, Decision_ (m w).1 <> DecisionAllow;
  kill_hard p ctx sid rid t d m : dp_CheckKill p ctx sid rid t = Some d -> hard d ->
    delegate P p ctx sid rid t m -> forall w, hard (m w).1;
  harden_refuses p ctx sid r target args rid t w : Decision_ r <> DecisionAllow ->
    Decision_ (dp_HardenRefusal p ctx sid r target args rid t w).1 <> DecisionAllow;
  harden_hard p ctx sid r target args rid t w : hard r -> is_Some (Denial r) ->
    dp_HardenRefusal p ctx sid r target args rid t w = (r, w);
}.

End laws.

Section instances.
Context {C F : Type} `{CallCounterBackend C} `{FlowStoreBackend F} `{Leaf} `{U : Unicode}.
Context (sha256 : string -> string) (Marshal : node -> option string) (builtins : @EngineState C F).

#[local] Instance aa_dp : PolicyDecisionPoint C F AlwaysAllowPDP := alwaysAllow_pdp builtins.
#[local] Instance da_dp : PolicyDecisionPoint C F DenyAllPDP := denyAll_pdp builtins.
#[local] Instance m_dp : PolicyDecisionPoint C F ManifestRoute := manifest_pdp sha256 Marshal builtins.

Lemma alwaysAllow_laws : DecisionPointLaws AlwaysAllowPDP.
Proof.
  split.
  - intros p ctx sid rid t d Hk. by destruct (killCheck_hard _ _ _ _ _ _ Hk).
  - intros p ctx sid rid t d m Hk Hm w. cbn in Hk.
    destruct Hm as [[]|[]]; cbn; unfold allowUnlessKilled; rewrite Hk; by destruct (killCheck_hard _ _ _ _ _ _ Hk).
  - intros p ctx sid rid t d m Hk _ [] w; cbn in *; unfold allowUnlessKilled; rewrite Hk; by eapply killCheck_hard.
  - done.
  - done.
Qed.

Lemma denyAll_laws : DecisionPointLaws DenyAllPDP.
Proof.
  split.
  - by intros ? ? ? ? ? d [= <-].
  - intros p ctx sid rid t d m _ [[]|[]] w; done.
  - intros ? ? ? ? ? d m [= <-] [_ Hx]. done.
  - done.
  - done.
Qed.

(** The tail of the hardening never allows. *)
Lemma unmatched_denies (p : @ManifestPDP C F) ctx r target d rid t w :
  Decision_ d <> DecisionAllow ->
  Decision_ (override_or (fun resp => resp) (recordUnmatchedForwardedState p ctx r target d rid t) w).1 <> DecisionAllow.
Proof.
  intros Hd. destruct (override_or _ _ w) as [resp w'] eqn:E. cbn [fst]. unfold recordUnmatchedForwardedState in E.
  destruct (negb _ && _); [|by eapply recordedDeny_denies; [exact Hd | | exact E]].
  apply override_inv in E as [E|(r' & E & ->)]; by apply ret_inv in E as [[= ->] _].
Qed.

Lemma hardenCeiling_refuses (p : @ManifestPDP C F) ctx sid r target args sel rid t w over w1 :
  Decision_ r <> DecisionAllow -> hardenOnEffectCeiling p ctx sid r target args sel rid t w = (over, w1) ->
  Decision_ (fst over) <> DecisionAllow.
Proof.
  intros Hd E. unfold hardenOnEffectCeiling in E. destruct (negb (hardenable r)); [by apply ret_inv in E as [-> _]|].
  destruct (hs_matched sel) as [c|]; [|by apply ret_inv in E as [-> _]].
  unfold hardenViaVerdict in E. apply bind_inv in E as (verdict & w2 & Ev & E).
  destruct (CeilingVerdictFor_spec _ _ _ _ _ _ _ _ Ev) as (_ & Hhard & _).
  destruct verdict as [v|]; [|by apply ret_inv in E as [-> _]]. destruct (Hhard v eq_refl) as [Hv _].
  destruct (_ && _); apply ret_inv in E as [-> _]; cbn [fst]; [done|].
  by destruct (fill_cases ctx (composeHardened r v) c) as [->|[[[? _] _]|(obs & _ & _ & _ & _ & ->)]].
Qed.

Lemma manifest_harden_refuses (p : @ManifestPDP C F) ctx sid r target args rid t w :
  Decision_ r <> DecisionAllow -> Decision_ (HardenRefusal p ctx sid r target args rid t w).1 <> DecisionAllow.
Proof.
  intros Hd. unfold HardenRefusal. rewrite bool_decide_false by done. destruct (_ && _); [done|].
  pose proof (hardenInterface_cases p sid r target) as Hi. destruct (hardenOnBrokenInterface p sid r target) as [r1 broke].
  destruct broke; [destruct Hi as (_ & Hx & _); cbn; congruence|]. destruct Hi as [-> _]. cbv zeta.
  destruct (bind _ _ w) as [resp w'] eqn:E. cbn [fst]. apply bind_inv in E as (over & w1 & Eo & E).
  pose proof (hardenCeiling_refuses _ _ _ _ _ _ _ _ _ _ _ _ Hd Eo) as Ho.
  destruct (snd over); [by apply ret_inv in E as [-> _]|]. apply (f_equal fst) in E. cbn [fst] in E. rewrite <- E.
  apply unmatched_denies. by destruct (fill_naming_cases ctx r target (directivesNamingTarget p target)) as [->|[[[? _] _]|(obs & ->)]].
Qed.

Lemma manifest_killed (p : @ManifestPDP C F) ctx sid rid t d target args ip v w :
  killCheck ctx (ks p) sid rid t = Some d -> decideTarget p ctx sid target args ip v rid t w = (d, w).
Proof. intros Hk. unfold decideTarget. by rewrite Hk. Qed.

Lemma manifest_laws : DecisionPointLaws ManifestRoute.
Proof.
  split.
  - intros p ctx sid rid t d Hk. by destruct (killCheck_hard _ _ _ _ _ _ Hk).
  - intros p ctx sid rid t d m Hk Hm w. cbn in Hk. unfold CheckKill in Hk. destruct (killCheck_hard _ _ _ _ _ _ Hk) as [Hd _].
    destruct Hm as [[]|[]]; cbn.
    1-3: unfold Decide, DecideResourceRead, DecidePromptGet; by erewrite manifest_killed.
    + unfold DecideResourceCancel, CheckKill. by rewrite Hk.
    + unfold DecideSampling. by rewrite Hk.
  - intros p ctx sid rid t d m Hk Hh Hm w. cbn in Hk. unfold CheckKill in Hk.
    destruct Hm; cbn; unfold Decide, DecideResourceRead, DecidePromptGet; by erewrite manifest_killed.
  - intros. by apply manifest_harden_refuses.
  - intros p ctx sid r target args rid t w [Hd Hg] Hs. cbn. unfold HardenRefusal.
    rewrite bool_decide_false by done. rewrite bool_decide_true by done. by rewrite Hg.
Qed.

End instances.

(** ** Decisions of the token layer *)

Section token.
Context {C F P : Type} `{CallCounterBackend C} `{FlowStoreBackend F} `{Leaf} `{U : Unicode}.
Context `{!PolicyDecisionPoint C F P} (builtins : @EngineState C F).

#[local] Instance j_dp : PolicyDecisionPoint C F (JWTPDP P) := jwt_pdp builtins.

Abbreviation World := (World C F).

(** A refusal the layer makes itself. *)
Record own_refusal (r : EnforceResponse) : Prop := mkOwn {
  own_plain : plain_refusal r;
  own_denial : is_Some (Denial r);
  own_obligations : Obligations r = [];
}.

Lemma own_deny rid t code ct msg dets : own_refusal (denyResponseWithDetails rid t code ct msg dets).
Proof. by constructor. Qed.

Lemma own_from rid t name cerr : own_refusal (denyFromCondition rid t name cerr).
Proof. by constructor. Qed.

(** The pairs of a claim, each satisfied in the world the one before leaves. *)
Inductive pairs_pass (eval : option P) (ctx : PCtx) (r : EnforceRequest) : list jwtCondPair -> World -> World -> Prop :=
| pass_nil w : pairs_pass eval ctx r [] w w
| pass_op v rest w w' : op_passes eval [v] r -> pairs_pass eval ctx r rest w w' ->
    pairs_pass eval ctx r (mkPair jwtCondKeyOp v :: rest) w w'
| pass_value k v rest w w1 w' : k <> jwtCondKeyOp ->
    claimConditionVerdict builtins eval ctx (Cond (AllowedValues k (jwtShorthandValues v))) (Some r) w = ((None, true), w1) ->
    pairs_pass eval ctx r rest w1 w' -> pairs_pass eval ctx r (mkPair k v :: rest) w w'.

Lemma judgeCondition_pair eval ctx cp r rid t (w w' : World) o :
  judgeCondition builtins eval ctx (pairCondition cp) r rid t w = (o, w') ->
  match o with
  | Some d => own_refusal d
  | None => forall rest w2, pairs_pass eval ctx r rest w' w2 -> pairs_pass eval ctx r (cp :: rest) w w2
  end.
Proof.
  destruct cp as [k v]. unfold pairCondition. cbn [cp_key cp_value]. destruct (String.eqb_spec k jwtCondKeyOp) as [->|Hk]; cbn [judgeCondition].
  - intros E. apply ret_inv in E as [-> ->]. destruct (judgeOperations_spec eval [v] r rid t) as [Hn Hs].
    destruct (judgeOperations eval "" [v] r rid t) as [d|] eqn:Ej.
    + unfold judgeOperations in Ej. repeat case_match; simplify_eq; apply own_deny.
    + intros rest w2 Hp. constructor; [by apply Hn | done].
  - cbv zeta. intros E. apply bind_inv in E as ([verdict [|]] & w1 & Ev & E); apply ret_inv in E as [-> ->].
    + destruct verdict as [cerr|]; [apply own_from|]. intros rest w2 Hp. by econstructor.
    + destruct verdict; apply own_deny.
Qed.

Lemma judgeConditions_pairs eval ctx r rid t conds : forall (w w' : World) o,
  judgeConditions builtins eval ctx (map pairCondition conds) r rid t w = (o, w') ->
  match o with Some d => own_refusal d | None => pairs_pass eval ctx r conds w w' end.
Proof.
  induction conds as [|cp conds IH]; intros w w' o E; cbn [map judgeConditions] in E.
  - apply ret_inv in E as [-> ->]. constructor.
  - apply bind_inv in E as (o1 & w1 & E1 & E). apply judgeCondition_pair in E1. destruct o1 as [d|].
    + apply ret_inv in E as [-> _]. exact E1.
    + apply IH in E. destruct o as [d|]; [exact E | by apply E1].
Qed.

(** A claim of the token that grants the call, judged from some world. *)
Definition claim_grants (eval : option P) (ctx : PCtx) (r : EnforceRequest) (target : EnforceTarget) (claim : string)
    (w' : World) : Prop :=
  exists h conds w1, parseCapHead claim = Some h /\ covers target h = true /\ headConditions h = Ok conds /\
    pairs_pass eval ctx r conds w1 w'.

Lemma judgeGrants_spec eval ctx r rid t target (claims : JWTClaims) cs : forall last (w w' : World) o,
  (forall c, c ∈ cs -> c ∈ buildConstraintsFromParsed (parsedCapHeads claims) target) ->
  match last with Some d => own_refusal d | None => cs <> [] end ->
  judgeGrants builtins eval ctx r rid t last cs w = (o, w') ->
  match o with
  | Some d => own_refusal d
  | None => exists claim, claim ∈ jc_Capabilities claims /\ claim_grants eval ctx r target claim w'
  end.
Proof.
  assert (forall c, c ∈ buildConstraintsFromParsed (parsedCapHeads claims) target -> exists claim h conds,
    claim ∈ jc_Capabilities claims /\ parseCapHead claim = Some h /\ covers target h = true /\ headConditions h = Ok conds /\
    Conditions c = map pairCondition conds) as Hsrc.
  { intros c (h & (claim & Hc & Hh)%list_elem_of_omap & Hb)%list_elem_of_omap. rewrite headConstraint_conditions in Hb.
    destruct (covers target h) eqn:Hcov; [|done]. destruct (headConditions h) as [conds|] eqn:Hcs; [|done].
    injection Hb as <-. by exists claim, h, conds. }
  induction cs as [|c cs IH]; intros last w w' o Hin Hlast E; cbn [judgeGrants] in E.
  - apply ret_inv in E as [-> ->]. by destruct last.
  - destruct (Hsrc c (Hin c (list_elem_of_here _ _))) as (claim & h & conds & Hc & Hh & Hcov & Hcs & Hcond).
    assert (forall w1 w2, pairs_pass eval ctx r conds w1 w2 -> exists claim, claim ∈ jc_Capabilities claims /\ claim_grants eval ctx r target claim w2)
      as Hgrant by (intros w1 w2 Hp; exists claim; split; [done|]; by exists h, conds, w1).
    rewrite Hcond in E. destruct conds as [|cp conds]; cbn [map] in E.
    { apply ret_inv in E as [-> ->]. eapply Hgrant. constructor. }
    change (pairCondition cp :: map pairCondition conds) with (map pairCondition (cp :: conds)) in E.
    apply bind_inv in E as (o1 & w1 & E1 & E). cbn [evaluateJWTConditions] in E1. apply judgeConditions_pairs in E1.
    destruct o1 as [d|]; [|apply ret_inv in E as [-> ->]; by eapply Hgrant].
    eapply IH; [| |exact E]; [intros c' ?; apply Hin; by right|]. destruct last as [d0|]; cbn [replaceable]; [|done].
    by destruct (Denial d0) as [di|]; [destruct (Downgradable (Some di))|].
Qed.

(** *** The gates in front of every decision *)

Lemma audienceDenial_spec (p : JWTPDP P) claims rid t :
  match audienceDenial p claims rid t with
  | Some d => routeAudienceSatisfied p claims = false /\ hard d
  | None => routeAudienceSatisfied p claims = true
  end.
Proof. unfold audienceDenial. by destruct (routeAudienceSatisfied p claims). Qed.

(** The caller carries a token this route accepts, and the layer's own kill switch is silent. *)
Record admitted (p : JWTPDP P) (ctx : PCtx) (sid rid t : string) (claims : JWTClaims) : Prop := mkAdmitted {
  ad_kill : killCheck ctx (jwt_ks p) sid rid t = None;
  ad_claims : ctx_claims ctx = Some claims;
  ad_audience : routeAudienceSatisfied p claims = true;
}.

(** Every decision runs the same three gates, in this order. *)
Definition gated {A} (p : JWTPDP P) (ctx : PCtx) (sid rid t : string) (deny : EnforceResponse -> A) (body : JWTClaims -> A) : A :=
  match killCheck ctx (jwt_ks p) sid rid t with
  | Some d => deny d
  | None =>
      match ctx_claims ctx with
      | None => deny (noClaimsDeny rid t)
      | Some claims => match audienceDenial p claims rid t with Some d => deny d | None => body claims end
      end
  end.

Lemma gated_spec {A} (p : JWTPDP P) ctx sid rid t (deny : EnforceResponse -> A) body :
  (exists d, hard d /\ gated p ctx sid rid t deny body = deny d /\ forall claims, ~ admitted p ctx sid rid t claims) \/
  exists claims, admitted p ctx sid rid t claims /\ gated p ctx sid rid t deny body = body claims.
Proof.
  unfold gated. destruct (killCheck ctx (jwt_ks p) sid rid t) as [d|] eqn:Ek.
  { left. exists d. split_and!; [by eapply killCheck_hard | done|]. by intros claims [? _ _]; congruence. }
  destruct (ctx_claims ctx) as [claims|] eqn:Ec.
  2: { left. eexists. split_and!; [apply hardDeny_hard | done|]. by intros claims [_ ? _]; congruence. }
  pose proof (audienceDenial_spec p claims rid t) as Ha. destruct (audienceDenial p claims rid t) as [d|].
  - left. exists d. split_and!; [apply Ha | done|]. intros claims' [_ Hc Hx]. destruct Ha. congruence.
  - right. by exists claims.
Qed.

(** What a decision is, once the caller is admitted. *)
Definition callBody (p : JWTPDP P) (ctx : PCtx) (sid : string) (target : EnforceTarget) (args : list (string * value))
    (ip rid t : string) (claims : JWTClaims) : M C F EnforceResponse :=
  let refuse msg := withInnerVerdicts p ctx sid (pdpDeny rid t ErrCodeAuthorizationFailed "jwtCapability" msg) target args rid t in
  if negb (jc_HasCapabilities claims) then
    match backstop p with
    | Some q => decideInner q ctx sid target args ip rid t
    | None =>
        refuse (Msg "token carries no mcp.capabilities claim and the route has no manifest policy to fall back on; JWT mode denies by default — issue a token with capability claims or add a manifest policy to the route")
    end
  else
    let constraints := buildConstraintsFromParsed (parsedCapHeads claims) target in
    if (List.length constraints =? 0)%nat then
      refuse (if claimNamesTargetButFailedToParse claims target
        then Msgf "a JWT capability claim names %s %q, but its condition suffix could not be parsed, so it grants nothing (see the eunox log for the parse error)"
               [et_Type target; et_Name target]
        else Msgf "%s %q is not in the JWT capability claims" [et_Type target; et_Name target])
    else
      let! lastDeny := judgeGrants builtins (inner p) ctx
        (jwtClaimEnforceRequest sid target (jwtConditionArgs target args) (buildFlatClaims claims)) rid t None constraints in
      match lastDeny with
      | Some deny => withInnerVerdicts p ctx sid deny target args rid t
      | None => match inner p with Some q => decideInner q ctx sid target args ip rid t | None => ret (newAllowResponse rid t) end
      end.

Lemma JWTDecide_gated (p : JWTPDP P) ctx sid target args ip rid t :
  JWTDecide builtins p ctx sid target args ip rid t = gated p ctx sid rid t ret (callBody p ctx sid target args ip rid t).
Proof. done. Qed.

(** The call the token grants: by one of its claims, or by carrying no capabilities over a policy. *)
Definition token_grants (p : JWTPDP P) (ctx : PCtx) (sid : string) (target : EnforceTarget) (args : list (string * value))
    (claims : JWTClaims) (w1 : World) : Prop :=
  if jc_HasCapabilities claims then
    exists claim, claim ∈ jc_Capabilities claims /\
      claim_grants (inner p) ctx (jwtClaimEnforceRequest sid target (jwtConditionArgs target args) (buildFlatClaims claims)) target claim w1
  else innerEnforces p = true.

Lemma callBody_cases (p : JWTPDP P) ctx sid target args ip rid t claims (w w' : World) resp :
  callBody p ctx sid target args ip rid t claims w = (resp, w') ->
  (exists r w1, own_refusal r /\ withInnerVerdicts p ctx sid r target args rid t w1 = (resp, w')) \/
  exists w1, token_grants p ctx sid target args claims w1 /\
    (jc_HasCapabilities claims = false -> w1 = w) /\
    match inner p with
    | Some q => decideInner q ctx sid target args ip rid t w1 = (resp, w')
    | None => jc_HasCapabilities claims = true /\ resp = newAllowResponse rid t
    end.
Proof.
  unfold callBody, token_grants. cbv zeta. destruct (jc_HasCapabilities claims); cbn [negb].
  2: { unfold backstop. destruct (innerEnforces p) eqn:Ei; [|intros E; left; eexists _, w; split; [apply own_deny | exact E]].
       destruct (inner p) as [q|] eqn:Eq; [|by unfold innerEnforces in Ei; rewrite Eq in Ei].
       intros E. right. by exists w. }
  destruct (Nat.eqb_spec (List.length (buildConstraintsFromParsed (parsedCapHeads claims) target)) 0) as [|Hn].
  { intros E. left. eexists _, w. split; [apply own_deny | exact E]. }
  intros E. apply bind_inv in E as (o & w1 & Eg & E). eapply judgeGrants_spec in Eg; [| by intros |].
  2: { by destruct (buildConstraintsFromParsed _ _). }
  destruct o as [d|]; [left; by exists d, w1|]. right. exists w1. split_and!; [done | done|].
  destruct (inner p); [done|]. by apply ret_inv in E as [-> _].
Qed.

(** *** Refusals of the layer, hardened by the decision point it wraps *)

Lemma withInnerVerdicts_cases (p : JWTPDP P) ctx sid r target args rid t (w w' : World) resp :
  own_refusal r -> withInnerVerdicts p ctx sid r target args rid t w = (resp, w') ->
  (resp = r /\ w' = w /\ (hard r \/ inner p = None)) \/
  exists q, inner p = Some q /\ ~ hard r /\
    ((dp_CheckKill q ctx sid rid t = Some resp /\ w' = w) \/
     (dp_CheckKill q ctx sid rid t = None /\ dp_HardenRefusal q ctx sid r target args rid t w = (resp, w'))).
Proof.
  intros [[Hd _] Hden Ho] E. unfold withInnerVerdicts in E. destruct (inner p) as [q|]; [|left; apply ret_inv in E as [-> ->]; eauto].
  rewrite bool_decide_false, Ho in E by done. cbn [List.length orb Nat.ltb Nat.leb] in E. rewrite bool_decide_true in E by done.
  cbn [andb] in E. destruct (Downgradable (Denial r)) eqn:Hg; cbn [negb] in E.
  2: { left. apply ret_inv in E as [-> ->]. split_and!; [done..|]. by left. }
  right. exists q. split_and!; [done | intros [_ ?]; congruence|].
  destruct (dp_CheckKill q ctx sid rid t) as [d|]; [left; by apply ret_inv in E as [-> ->] | by right].
Qed.

Lemma decideInner_delegate q ctx sid target args ip rid t :
  delegate P q ctx sid rid t (decideInner q ctx sid target args ip rid t) \/
  exists d, hard d /\ decideInner q ctx sid target args ip rid t = ret d.
Proof.
  unfold decideInner. destruct (String.eqb _ _); [left; constructor|]. destruct (String.eqb _ _); [left; constructor|].
  destruct (String.eqb _ _); [left; constructor|]. right. eexists. split; [apply hardDeny_hard | done].
Qed.

(** *** Claim conditions that commit nothing *)

(** The wrapped decision point answers for a claim condition without committing anything. *)
Definition commits_nothing (eval : option P) (ctx : PCtx) (r : EnforceRequest) : Prop :=
  forall argument values (w : World),
    (claimConditionVerdict builtins eval ctx (Cond (AllowedValues argument values)) (Some r) w).2 = w.

Lemma judgeConditions_keeps eval ctx r rid t conds : commits_nothing eval ctx r -> forall (w : World),
  (judgeConditions builtins eval ctx conds r rid t w).2 = w.
Proof.
  intros Hq. induction conds as [|cond conds IH]; intros w; [done|]. cbn [judgeConditions].
  assert ((judgeCondition builtins eval ctx cond r rid t w).2 = w) as Hc.
  { destruct cond as [| |[]]; try done. unfold judgeCondition, bind. specialize (Hq Argument Values w).
    by destruct (claimConditionVerdict _ _ _ _ _ w). }
  unfold bind. destruct (judgeCondition builtins eval ctx cond r rid t w) as [[d|] w1]; cbn [snd] in Hc; subst w1; [done | apply IH].
Qed.

Lemma judgeGrants_keeps eval ctx r rid t cs : commits_nothing eval ctx r -> forall last (w : World),
  (judgeGrants builtins eval ctx r rid t last cs w).2 = w.
Proof.
  intros Hq. induction cs as [|c cs IH]; intros last w; [done|]. cbn [judgeGrants]. destruct (Conditions c) as [|cond conds]; [done|].
  unfold bind, evaluateJWTConditions. pose proof (judgeConditions_keeps eval ctx r rid t (cond :: conds) Hq w) as Hc.
  destruct (judgeConditions _ _ _ _ _ _ _ w) as [[d|] w1]; cbn [snd] in Hc; subst w1; [apply IH | done].
Qed.

(** The world in which the wrapped decision point takes over. *)
Lemma callBody_keeps (p : JWTPDP P) ctx sid target args ip rid t claims (w w' : World) resp q :
  inner p = Some q ->
  commits_nothing (Some q) ctx (jwtClaimEnforceRequest sid target (jwtConditionArgs target args) (buildFlatClaims claims)) ->
  callBody p ctx sid target args ip rid t claims w = (resp, w') ->
  (exists r, own_refusal r /\ withInnerVerdicts p ctx sid r target args rid t w = (resp, w')) \/
  (token_grants p ctx sid target args claims w /\ decideInner q ctx sid target args ip rid t w = (resp, w')).
Proof.
  intros Eq Hq. unfold callBody, token_grants. cbv zeta. destruct (jc_HasCapabilities claims); cbn [negb].
  2: { unfold backstop. destruct (innerEnforces p) eqn:Ei; [rewrite Eq; by right|].
       intros E. left. eexists. split; [apply own_deny | exact E]. }
  destruct (Nat.eqb_spec (List.length (buildConstraintsFromParsed (parsedCapHeads claims) target)) 0) as [|Hn].
  { intros E. left. eexists. split; [apply own_deny | exact E]. }
  intros E. apply bind_inv in E as (o & w1 & Eg & E). rewrite Eq in *.
  pose proof (judgeGrants_keeps _ _ _ rid t (buildConstraintsFromParsed (parsedCapHeads claims) target) Hq None w) as Hw.
  rewrite Eg in Hw. cbn [snd] in Hw. subst w1. eapply judgeGrants_spec in Eg; [| by intros |].
  2: { by destruct (buildConstraintsFromParsed _ _). }
  destruct o as [d|]; [left; by exists d | by right].
Qed.

(** ** The theorems *)

Context `{!DecisionPointLaws P}.

Lemma withInner_refuses (p : JWTPDP P) ctx sid r target args rid t (w w' : World) resp :
  own_refusal r -> withInnerVerdicts p ctx sid r target args rid t w = (resp, w') -> Decision_ resp <> DecisionAllow.
Proof.
  intros Ho E. apply withInnerVerdicts_cases in E; [|done]. destruct Ho as [[Hd _] _ _].
  destruct E as [(-> & _)|(q & _ & _ & [(Hk & _)|(_ & Eh)])]; [done | by eapply kill_denies|].
  apply (f_equal (fun x => Decision_ (fst x))) in Eh. cbn [fst] in Eh. rewrite <- Eh. by apply harden_refuses.
Qed.

(** What both managers say: the layer's own first, then that of the decision point it wraps. *)
Lemma inner_kill_refuses (q : P) ctx sid target args ip rid t d (w w' : World) resp :
  dp_CheckKill q ctx sid rid t = Some d -> decideInner q ctx sid target args ip rid t w = (resp, w') ->
  Decision_ resp <> DecisionAllow /\ (hard d -> hard resp).
Proof.
  intros Hk E. destruct (decideInner_delegate q ctx sid target args ip rid t) as [Hm|(d' & Hd & Em)].
  - apply (f_equal fst) in E. cbn [fst] in E. subst resp. split; [by eapply (kill_refuses q); [exact Hk | by left]|].
    intros Hh. by eapply (kill_hard q).
  - rewrite Em in E. apply ret_inv in E as [-> _]. by split; [apply Hd|].
Qed.

Lemma killed_call (p : JWTPDP P) ctx sid target args ip rid t d (w w' : World) resp :
  JWTCheckKill p ctx sid rid t = Some d -> JWTDecide builtins p ctx sid target args ip rid t w = (resp, w') ->
  Decision_ resp <> DecisionAllow /\ (hard d -> hard resp).
Proof.
  unfold JWTCheckKill. rewrite JWTDecide_gated. intros Hk E.
  destruct (gated_spec p ctx sid rid t ret (callBody p ctx sid target args ip rid t)) as [(d' & Hd & Hg & _)|(claims & [Hn _ _] & Hg)];
    rewrite Hg in E; [apply ret_inv in E as [-> _]; by split; [apply Hd|]|].
  rewrite Hn in Hk. destruct (inner p) as [q|] eqn:Eq; [|done].
  destruct (callBody_cases _ _ _ _ _ _ _ _ _ _ _ _ E) as [(r & w1 & Ho & Ew)|(w1 & _ & _ & Hi)].
  - split; [by eapply withInner_refuses|]. intros Hh. apply withInnerVerdicts_cases in Ew; [|done].
    destruct Ew as [(-> & _ & [?|?])|(q' & Eq' & _ & [(Hkd & _)|(Hkn & _)])]; [done | congruence | congruence | congruence].
  - rewrite Eq in Hi. by eapply inner_kill_refuses.
Qed.

Lemma killed_cancel (p : JWTPDP P) ctx sid uri ip rid t d (w : World) :
  JWTCheckKill p ctx sid rid t = Some d -> Decision_ (JWTDecideResourceCancel p ctx sid uri ip rid t w).1 <> DecisionAllow.
Proof.
  unfold JWTCheckKill, JWTDecideResourceCancel, backstop. destruct (killCheck ctx (jwt_ks p) sid rid t) as [d'|] eqn:Ek.
  { intros _. by destruct (killCheck_hard _ _ _ _ _ _ Ek). }
  intros Hk. destruct (inner p) as [q|]; [|done].
  assert (Decision_ (dp_DecideResourceCancel q ctx sid uri ip rid t w).1 <> DecisionAllow) as Hq
    by (eapply (kill_refuses q); [exact Hk | right; constructor]).
  destruct (ctx_claims ctx) as [claims|]; [|done]. pose proof (audienceDenial_spec p claims rid t) as Ha.
  destruct (audienceDenial p claims rid t) as [d'|]; [apply Ha|].
  destruct (jc_HasCapabilities claims); [by destruct (negb _)|]. by destruct (innerEnforces p).
Qed.

Lemma killed_sampling (p : JWTPDP P) ctx sid ip rid t d (w : World) :
  JWTCheckKill p ctx sid rid t = Some d -> Decision_ (JWTDecideSampling p ctx sid ip rid t w).1 <> DecisionAllow.
Proof.
  unfold JWTCheckKill, JWTDecideSampling, backstop. destruct (killCheck ctx (jwt_ks p) sid rid t) as [d'|] eqn:Ek.
  { intros _. by destruct (killCheck_hard _ _ _ _ _ _ Ek). }
  intros Hk. destruct (inner p) as [q|]; [|done].
  assert (Decision_ (dp_DecideSampling q ctx sid ip rid t w).1 <> DecisionAllow) as Hq
    by (eapply (kill_refuses q); [exact Hk | right; constructor]).
  destruct (ctx_claims ctx) as [claims|]; [|done]. pose proof (audienceDenial_spec p claims rid t) as Ha.
  destruct (audienceDenial p claims rid t) as [d'|]; [apply Ha|].
  destruct (jc_HasCapabilities claims); [done|]. by destruct (innerEnforces p).
Qed.

(** The token layer keeps the contract it relies on, so layers stack. *)
Lemma jwt_laws : DecisionPointLaws (JWTPDP P).
Proof.
  split.
  - intros p ctx sid rid t d Hk. cbn in Hk. unfold JWTCheckKill in Hk.
    destruct (killCheck _ _ _ _ _) as [d'|] eqn:Ek; [injection Hk as <-; by destruct (killCheck_hard _ _ _ _ _ _ Ek)|].
    destruct (inner p) as [q|]; [by eapply kill_denies | done].
  - intros p ctx sid rid t d m Hk Hm w. cbn in Hk.
    assert (forall target args ip, Decision_ (JWTDecide builtins p ctx sid target args ip rid t w).1 <> DecisionAllow) as Hc.
    { intros target args ip. destruct (JWTDecide _ _ _ _ _ _ _ _ _ w) as [resp w'] eqn:E. exact (proj1 (killed_call _ _ _ _ _ _ _ _ _ _ _ _ Hk E)). }
    destruct Hm as [[]|[]]; cbn; unfold JWTDecideResourceRead, JWTDecidePromptGet; try apply Hc;
      [by eapply killed_cancel | by eapply killed_sampling].
  - intros p ctx sid rid t d m Hk Hh Hm w. cbn in Hk.
    assert (forall target args ip, hard (JWTDecide builtins p ctx sid target args ip rid t w).1) as Hc.
    { intros target args ip. destruct (JWTDecide _ _ _ _ _ _ _ _ _ w) as [resp w'] eqn:E. exact (proj2 (killed_call _ _ _ _ _ _ _ _ _ _ _ _ Hk E) Hh). }
    destruct Hm; cbn; unfold JWTDecideResourceRead, JWTDecidePromptGet; apply Hc.
  - intros p ctx sid r target args rid t w Hd. cbn. unfold JWTHardenRefusal. destruct (inner p) as [q|]; [by apply harden_refuses | done].
  - intros p ctx sid r target args rid t w Hh Hs. cbn. unfold JWTHardenRefusal. destruct (inner p) as [q|]; [by apply harden_hard | done].
Qed.

(** One of the two managers of the stack blocks the caller. *)
Definition stack_kills (p : JWTPDP P) (ctx : PCtx) (sid rid t : string) : Prop :=
  (exists shouldBlock, jwt_ks p = Some shouldBlock /\ shouldBlock (killSubjectFromContext ctx sid) <> Ok false) \/
  exists q d, inner p = Some q /\ dp_CheckKill q ctx sid rid t = Some d /\ hard d.

Lemma stack_kills_check (p : JWTPDP P) ctx sid rid t :
  stack_kills p ctx sid rid t -> exists d, JWTCheckKill p ctx sid rid t = Some d /\ hard d.
Proof.
  unfold stack_kills, JWTCheckKill. destruct (killCheck ctx (jwt_ks p) sid rid t) as [d|] eqn:Ek.
  { intros _. exists d. split; [done | by eapply killCheck_hard]. }
  intros [(f & Hf & Hb)|(q & d & -> & Hd & Hh)]; [|by exists d]. unfold killCheck in Ek. rewrite Hf in Ek.
  by destruct (f _) as [[]|].
Qed.

(** C12: Revocation reaches through the layers.  When either the token layer's own kill switch or
    the decision point it wraps blocks the caller, even if the two hold different managers, the
    gate in front of lists, new sessions and notifications refuses hard, every tool call, read
    and prompt is refused in a way no route forwards, whatever the token grants and whichever
    of the layer's own refusals comes first, and no cancellation or sampling request is
    allowed. *)
Theorem revoked_through_layers (p : JWTPDP P) ctx sid rid t (w : World) :
  stack_kills p ctx sid rid t ->
  (exists d, JWTCheckKill p ctx sid rid t = Some d /\ hard d) /\
  (forall target args ip, hard (JWTDecide builtins p ctx sid target args ip rid t w).1) /\
  (forall uri ip, hard (JWTDecideResourceRead builtins p ctx sid uri ip rid t w).1) /\
  (forall name ip, hard (JWTDecidePromptGet builtins p ctx sid name ip rid t w).1) /\
  (forall uri ip, Decision_ (JWTDecideResourceCancel p ctx sid uri ip rid t w).1 <> DecisionAllow) /\
  (forall ip, Decision_ (JWTDecideSampling p ctx sid ip rid t w).1 <> DecisionAllow).
Proof.
  intros Hs. destruct (stack_kills_check p ctx sid rid t Hs) as (d & Hk & Hh).
  assert (forall target args ip, hard (JWTDecide builtins p ctx sid target args ip rid t w).1) as Hc.
  { intros target args ip. destruct (JWTDecide _ _ _ _ _ _ _ _ _ w) as [resp w'] eqn:E. exact (proj2 (killed_call _ _ _ _ _ _ _ _ _ _ _ _ Hk E) Hh). }
  split_and!; [by exists d | exact Hc | intros; apply Hc | intros; apply Hc | intros; by eapply killed_cancel | intros; by eapply killed_sampling].
Qed.

(** C10: A token only ever restricts.  When the token layer allows a call, no kill switch of the
    stack blocks the caller, the caller carries a validated token with the audience of the
    route, and the token grants the call: one of its capability claims covers the target and
    every condition of that claim was found satisfied, or it carries no capabilities claim and
    the route has a policy of its own.  And where the layer wraps a decision point, the
    response is that decision point's own allow, taken in the very state the call arrived in
    when judging claims commits nothing. *)
Theorem token_intersects (p : JWTPDP P) ctx sid target args ip rid t (w w' : World) resp :
  JWTDecide builtins p ctx sid target args ip rid t w = (resp, w') -> Decision_ resp = DecisionAllow ->
  JWTCheckKill p ctx sid rid t = None /\
  exists claims w1, ctx_claims ctx = Some claims /\ routeAudienceSatisfied p claims = true /\
    token_grants p ctx sid target args claims w1 /\
    match inner p with
    | Some q => decideInner q ctx sid target args ip rid t w1 = (resp, w') /\
        (commits_nothing (Some q) ctx (jwtClaimEnforceRequest sid target (jwtConditionArgs target args) (buildFlatClaims claims)) ->
         decideInner q ctx sid target args ip rid t w = (resp, w'))
    | None => jc_HasCapabilities claims = true
    end.
Proof.
  rewrite JWTDecide_gated. intros E Ha.
  destruct (gated_spec p ctx sid rid t ret (callBody p ctx sid target args ip rid t)) as [(d & [Hd _] & Hg & _)|(claims & [Hk Hc Haud] & Hg)];
    rewrite Hg in E; [apply ret_inv in E as [-> _]; done|].
  destruct (callBody_cases _ _ _ _ _ _ _ _ _ _ _ _ E) as [(r & w1 & Ho & Ew)|(w1 & Hgr & _ & Hi)].
  { by destruct (withInner_refuses _ _ _ _ _ _ _ _ _ _ _ Ho Ew). }
  split.
  - unfold JWTCheckKill. rewrite Hk. destruct (inner p) as [q|]; [|done].
    destruct (dp_CheckKill q ctx sid rid t) as [d|] eqn:Ek; [|done].
    by destruct (inner_kill_refuses _ _ _ _ _ _ _ _ _ _ _ _ Ek Hi).
  - exists claims, w1. split_and!; [done..|]. destruct (inner p) as [q|] eqn:Eq; [|by destruct Hi]. split; [done|].
    intros Hq. destruct (callBody_keeps _ _ _ _ _ _ _ _ _ _ _ _ _ Eq Hq E) as [(r & Ho & Ew)|[_ ?]]; [|done].
    by destruct (withInner_refuses _ _ _ _ _ _ _ _ _ _ _ Ho Ew).
Qed.

(** C11: A refusal of the token layer is no softer than the policy underneath.  What reaches the
    upstream through a token layer over a decision point either is that decision point's own
    response to a call the token grants, or is a refusal of the layer that the decision point
    itself hardened, having been asked for revocations first.  In particular, over a decision
    point that never turns a refusal softer, no route forwards a call that the wrapped policy
    alone would have blocked. *)
Theorem token_refusals_hardened (p : JWTPDP P) (q : P) ctx sid target args ip rid t (w w' : World) resp :
  inner p = Some q -> (forall d, dp_CheckKill q ctx sid rid t = Some d -> hard d) ->
  JWTDecide builtins p ctx sid target args ip rid t w = (resp, w') -> forwarded ctx resp = true ->
  JWTCheckKill p ctx sid rid t = None /\
  exists claims w1, ctx_claims ctx = Some claims /\ routeAudienceSatisfied p claims = true /\
    ((token_grants p ctx sid target args claims w1 /\ decideInner q ctx sid target args ip rid t w1 = (resp, w')) \/
     exists r, own_refusal r /\ Downgradable (Denial r) = true /\ Decision_ resp <> DecisionAllow /\
       dp_HardenRefusal q ctx sid r target args rid t w1 = (resp, w')).
Proof.
  intros Eq Hkh. rewrite JWTDecide_gated. intros E Hf.
  destruct (gated_spec p ctx sid rid t ret (callBody p ctx sid target args ip rid t)) as [(d & Hd & Hg & _)|(claims & [Hk Hc Haud] & Hg)];
    rewrite Hg in E; [apply ret_inv in E as [-> _]; by rewrite hard_blocks in Hf|].
  destruct (callBody_cases _ _ _ _ _ _ _ _ _ _ _ _ E) as [(r & w1 & Ho & Ew)|(w1 & Hgr & _ & Hi)].
  - pose proof (withInner_refuses _ _ _ _ _ _ _ _ _ _ _ Ho Ew) as Hden. apply withInnerVerdicts_cases in Ew; [|done].
    destruct Ew as [(-> & _ & [Hh|?])|(q' & Eq' & Hnh & [(Hkd & _)|(Hkn & Eh)])];
      [by rewrite hard_blocks in Hf | congruence | |]; assert (q' = q) as -> by congruence.
    + rewrite hard_blocks in Hf by (by apply Hkh). done.
    + split; [unfold JWTCheckKill; by rewrite Hk, Eq, Hkn|]. exists claims, w1. split_and!; [done..|]. right. exists r. split_and!; try done.
      destruct Ho as [[Hd _] _ _]. destruct (Downgradable (Denial r)) eqn:Hg'; [done|]. by destruct Hnh.
  - rewrite Eq in Hi. split; [|exists claims, w1; split_and!; [done..|]; by left].
    unfold JWTCheckKill. rewrite Hk, Eq. destruct (dp_CheckKill q ctx sid rid t) as [d|] eqn:Ek; [|done].
    destruct (inner_kill_refuses _ _ _ _ _ _ _ _ _ _ _ _ Ek Hi) as [_ Hx]. rewrite hard_blocks in Hf; [done|]. by apply Hx, Hkh.
Qed.

(** *** Callers without a token for this route *)

Lemma emptyListing_entries bytes key : Entries (emptyListing bytes key) = [].
Proof.
  unfold emptyListing, filterListResult. destruct (String.eqb bytes ""); [done|].
  destruct (decodeOrderedObject bytes) as [env|]; [|done]. destruct (lastOf key env ≫= rawArray) as [raws|]; [|done].
  assert (keptEntries (fun _ _ => (false, "")) raws = []) as ->.
  { unfold keptEntries. generalize 0%nat as n. enough (forall (f : nat -> nat) l, List.concat (imap (fun _ _ => @nil (string * string)) (l : list string)) = []) as Hx
      by (intros _; apply (Hx id)). intros _ l. induction l as [|x l IH]; [done|]. cbn [imap List.concat app]. exact IH. }
  cbn [map]. by destruct (encodeOrderedObjectWithList env key []).
Qed.

(** No validated token, or one for other routes only. *)
Definition foreign (p : JWTPDP P) (ctx : PCtx) : Prop :=
  forall claims, ctx_claims ctx = Some claims -> routeAudienceSatisfied p claims = false.

Lemma foreign_gated {A} (p : JWTPDP P) ctx sid rid t (deny : EnforceResponse -> A) body :
  foreign p ctx -> exists d, hard d /\ gated p ctx sid rid t deny body = deny d.
Proof.
  intros Hf. destruct (gated_spec p ctx sid rid t deny body) as [(d & Hd & Hg & _)|(claims & [_ Hc Ha] & _)]; [by exists d|].
  specialize (Hf _ Hc). congruence.
Qed.

(** A decision that begins with the three gates. *)
Ltac by_gates Hf :=
  match goal with
  | |- exists d, _ /\ (match killCheck ?ctx (jwt_ks ?p) ?sid ?rid ?t with
                      | Some _ => _
                      | None => match _ with Some c => match _ with Some _ => _ | None => @?body c end | None => _ end
                      end) _ = _ =>
      let d := fresh "d" in let Hd := fresh "Hd" in let Hg := fresh "Hg" in
      destruct (foreign_gated p ctx sid rid t ret body Hf) as (d & Hd & Hg);
      unfold gated in Hg; rewrite Hg; by exists d
  end.

(** C13: A caller without a validated token for this route gets nothing from it, and leaves the
    pins armed.  Every call, read, prompt, cancellation and sampling request is refused in a
    way no route forwards and without touching any state; a route that pins an audience
    refuses to open a session; every list is empty, and a tools list still arms the interface
    pins of the wrapped policy with what the upstream showed. *)
Theorem foreign_token_blocked (p : JWTPDP P) ctx sid rid t (w : World) :
  foreign p ctx ->
  (forall target args ip, exists d, hard d /\ JWTDecide builtins p ctx sid target args ip rid t w = (d, w)) /\
  (forall uri ip, exists d, hard d /\ JWTDecideResourceRead builtins p ctx sid uri ip rid t w = (d, w)) /\
  (forall name ip, exists d, hard d /\ JWTDecidePromptGet builtins p ctx sid name ip rid t w = (d, w)) /\
  (forall uri ip, exists d, hard d /\ JWTDecideResourceCancel p ctx sid uri ip rid t w = (d, w)) /\
  (forall ip, exists d, hard d /\ JWTDecideSampling p ctx sid ip rid t w = (d, w)) /\
  (routeAudience p <> "" -> allowAnyAudience p = false -> exists d, hard d /\ JWTCheckAudience p ctx rid t = Some d) /\
  (forall desc bytes, let '(r, changes, p') := filterList p ctx bytes desc in
     Entries r = [] /\
     forall q, backstop p = Some q -> d_key desc = listKeyTools ->
       let '(_, changes', q') := dp_RecordObservedToolHashes q ctx bytes in changes = changes' /\ inner p' = Some q').
Proof.
  intros Hf.
  assert (forall target args ip, exists d, hard d /\ JWTDecide builtins p ctx sid target args ip rid t w = (d, w)) as Hc.
  { intros target args ip. rewrite JWTDecide_gated.
    destruct (foreign_gated p ctx sid rid t ret (callBody p ctx sid target args ip rid t) Hf) as (d & Hd & ->). by exists d. }
  split_and!; [exact Hc | intros; apply Hc | intros; apply Hc | | | |].
  - intros uri ip. unfold JWTDecideResourceCancel. by_gates Hf.
  - intros ip. unfold JWTDecideSampling. by_gates Hf.
  - intros Hr Ha. unfold JWTCheckAudience. rewrite Ha, orb_false_r, (proj2 (String.eqb_neq _ _) Hr).
    destruct (ctx_claims ctx) as [claims|] eqn:Ec; [|eexists; split; [apply hardDeny_hard | done]].
    pose proof (audienceDenial_spec p claims rid t) as Hs. rewrite (Hf _ Ec) in Hs.
    destruct (audienceDenial p claims rid t) as [d|]; [|done]. exists d. by split; [apply Hs|].
  - intros desc bytes.
    assert (filterList p ctx bytes desc = emptyListingArmingPins p ctx bytes desc) as ->.
    { unfold filterList. destruct (ctx_claims ctx) as [claims|] eqn:Ec; [|done]. by rewrite (Hf _ Ec). }
    unfold emptyListingArmingPins. destruct (String.eqb_spec (d_key desc) listKeyTools) as [Hk|Hk].
    + destruct (backstop p) as [q|]; [|by split; [apply emptyListing_entries|]].
      destruct (dp_RecordObservedToolHashes q ctx bytes) as [[n changes] q'] eqn:Er. split; [apply emptyListing_entries|].
      intros q0 [= <-] _. by rewrite Er.
    + by split; [apply emptyListing_entries|].
Qed.

End token.

End TokenSafety.
