(* ===== verification/TokenRoute.v ===== *)
(** * A token in front of a manifest

    The wiring that ships when both a key set and a policy are configured: the token layer of
    TokenPDP.v over the manifest's decision point.  What the manifest guarantees of forwarded
    calls and of lists holds of the composition, and the token narrows both. *)
From stdpp Require Import base tactics list gmap strings fin_sets sorting.
From Stdlib Require Import ZArith Lia Ascii String.
From S2P Require Import Prelude GoStrings GoPath CallCounter Capability CaseFold Numeric Selection.
From S2P Require Import Anchor Backends Engine EngineSafety FlowControl Construction KillSwitch SurfacePin ManifestPDP PDPSafety PDPForwarding.
From S2P Require Import ArgumentPath ArgumentHandlers JSON Encode KeyScan ToolSurface ListFilter ListSafety TokenClaims TokenPDP TokenSafety.
#[local] Open Scope string_scope.
#[local] Open Scope go_scope.
Import Capability Selection Anchor Backends Engine EngineSafety FlowControl ManifestPDP PDPSafety PDPForwarding.
Import JSON KeyScan ToolSurface ListFilter ListSafety TokenClaims TokenPDP TokenSafety.

Module TokenRoute.

(** ** Lists under any decision point *)

Section lists.
Context {C F P : Type} `{CallCounterBackend C} `{FlowStoreBackend F} `{Leaf} `{U : Unicode}.
Context `{!PolicyDecisionPoint C F P}.

(** The entry has one identifier, to every parser, and a claim of the token covers it. *)
Definition shown_by_claims (claims : JWTClaims) (desc : @listTypeDesc P) (raw : string) : Prop :=
  exists id, entry_of_id (d_idField desc) raw id /\
    anyCapCovers (parsedCapHeads claims) (mkEnforceTarget (d_targetType desc) id) = true.

(** The identifiers a filter hands on are the ones its entries decode to. *)
Definition ids_decoded (desc : @listTypeDesc P) (r : ListFilterResult) : Prop :=
  forall i raw id, Entries r !! i = Some raw -> entryIDs r !! i = Some id -> id <> "" -> entry_of_id (d_idField desc) raw id.

Definition known_field (f : string) : Prop := f = "name" \/ f = "uri".

Lemma entryCovered_spec raw parsed f ty : known_field f ->
  snd (entryCoveredByClaims raw parsed f ty) = true ->
  exists id, entry_of_id f raw id /\ anyCapCovers parsed (mkEnforceTarget ty id) = true.
Proof.
  intros Hf. unfold entryCoveredByClaims, entryKeysAmbiguous. destruct (untrustworthy (scanToolEntry raw)) eqn:Eu; [done|].
  destruct (document raw) as [v|] eqn:Ed; [|done]. destruct (scan_clear_document _ _ Eu Ed) as (ms & -> & Hc).
  destruct (stringField "name" ms) as [name|] eqn:En; [|done]. destruct (stringField "uri" ms) as [uri|] eqn:Er; [|done].
  cbn [mbind option_bind snd]. intros Hcov. eexists. split; [|exact Hcov]. exists ms. split_and!; [done..|].
  destruct Hf as [->| ->]; done.
Qed.

Lemma coveredEntry_spec claims desc r i raw : known_field (d_idField desc) -> ids_decoded desc r -> Entries r !! i = Some raw ->
  coveredEntry (parsedCapHeads claims) desc (entryIDs r) i raw = true -> shown_by_claims claims desc raw.
Proof.
  intros Hf Hid Hi. unfold coveredEntry. destruct (entryIDs r !! i) as [id|] eqn:Eid; [|by apply entryCovered_spec].
  destruct (String.eqb_spec id "") as [|Hne]; [by apply entryCovered_spec|]. intros Hc. exists id. split; [by eapply Hid | exact Hc].
Qed.

Lemma coveredEntries_sublist (f : nat -> string -> bool) (l : list string) :
  sublist (List.concat (imap (fun i raw => if f i raw then [raw] else []) l)) l.
Proof.
  revert f. induction l as [|x l IH]; intros f; [constructor|]. cbn [imap List.concat].
  destruct (f 0%nat x); cbn [app]; constructor; apply (IH (fun i => f (S i))).
Qed.

Lemma elem_of_covered (f : nat -> string -> bool) (l : list string) raw :
  raw ∈ List.concat (imap (fun i raw => if f i raw then [raw] else []) l) -> exists i, l !! i = Some raw /\ f i raw = true.
Proof.
  intros Hin. apply list_elem_of_In, in_concat in Hin as (x & Hx & Hin).
  apply list_elem_of_In, elem_of_lookup_imap in Hx as (i & raw' & -> & Hi). exists i.
  destruct (f i raw') eqn:E; [|done]. by destruct Hin as [<-|[]].
Qed.

(** What a list of the layer keeps, by the claims and by the filter underneath. *)
Lemma filterList_entries (p : JWTPDP P) ctx bytes desc :
  known_field (d_idField desc) ->
  let '(r, changes, p') := filterList p ctx bytes desc in
  let '(ri, changesi, pi) := innerFilter p ctx bytes desc in
  (forall raw, raw ∈ Entries r -> exists claims, ctx_claims ctx = Some claims /\ routeAudienceSatisfied p claims = true /\
     raw ∈ Entries ri /\ p' = pi /\ changes = changesi /\
     (jc_HasCapabilities claims = false -> innerEnforces p = true) /\
     (jc_HasCapabilities claims = true -> ids_decoded desc ri -> shown_by_claims claims desc raw)) /\
  sublist (Entries r) (Entries ri).
Proof.
  intros Hf. unfold filterList.
  assert (forall r changes p', Entries r = [] ->
    let '(ri, changesi, pi) := innerFilter p ctx bytes desc in
    (forall raw, raw ∈ Entries r -> exists claims, ctx_claims ctx = Some claims /\ routeAudienceSatisfied p claims = true /\
       raw ∈ Entries ri /\ p' = pi /\ changes = changesi /\
       (jc_HasCapabilities claims = false -> innerEnforces p = true) /\
       (jc_HasCapabilities claims = true -> ids_decoded desc ri -> shown_by_claims claims desc raw)) /\
    sublist (Entries r) (Entries ri)) as Hempty.
  { intros r changes p' Hr. destruct (innerFilter p ctx bytes desc) as [[ri changesi] pi]. rewrite Hr.
    split; [by intros raw ?%elem_of_nil | apply sublist_nil_l]. }
  assert (Entries (fst (fst (emptyListingArmingPins p ctx bytes desc))) = []) as Harm.
  { unfold emptyListingArmingPins. destruct (if String.eqb _ _ then _ else _) as [changes p']. apply emptyListing_entries. }
  destruct (ctx_claims ctx) as [claims|] eqn:Ec.
  2: { destruct (emptyListingArmingPins p ctx bytes desc) as [[r changes] p']. by apply Hempty. }
  destruct (routeAudienceSatisfied p claims) eqn:Ea; cbn [negb].
  2: { destruct (emptyListingArmingPins p ctx bytes desc) as [[r changes] p']. by apply Hempty. }
  destruct (jc_HasCapabilities claims) eqn:Eh; cbn [negb].
  - destruct (innerFilter p ctx bytes desc) as [[ri changesi] pi].
    assert (forall out, let r := match out with None => emptyListing bytes (d_key desc)
        | Some out => mkFiltered out (coveredEntries (parsedCapHeads claims) desc ri) (Upstream ri) [] [] end in
      (forall raw, raw ∈ Entries r -> exists claims0, Some claims = Some claims0 /\ routeAudienceSatisfied p claims0 = true /\
         raw ∈ Entries ri /\ pi = pi /\ changesi = changesi /\
         (jc_HasCapabilities claims0 = false -> innerEnforces p = true) /\
         (jc_HasCapabilities claims0 = true -> ids_decoded desc ri -> shown_by_claims claims0 desc raw)) /\
      sublist (Entries r) (Entries ri)) as Hk.
    { intros [out|]; cbn [Entries]; [|rewrite emptyListing_entries; split; [by intros raw ?%elem_of_nil | apply sublist_nil_l]].
      split; [|apply coveredEntries_sublist]. intros raw (i & Hi & Hc)%elem_of_covered. exists claims.
      split_and!; try done; [by eapply list_elem_of_lookup_2 | by rewrite Eh|]. intros _ Hid. by eapply coveredEntry_spec. }
    apply Hk.
  - destruct (innerEnforces p) eqn:Ei; [|apply (Hempty (emptyListing bytes (d_key desc)) [] p), emptyListing_entries].
    destruct (innerFilter p ctx bytes desc) as [[ri changesi] pi]. split; [|done]. intros raw Hin. exists claims. rewrite Eh.
    by split_and!.
Qed.

End lists.
Section route.
Context {C F : Type} `{CallCounterBackend C} `{FlowStoreBackend F} `{Leaf} `{U : Unicode}.
Context (sha256 : string -> string) (Marshal : node -> option string) (builtins : @EngineState C F).

#[local] Instance m_dp : PolicyDecisionPoint C F ManifestRoute := manifest_pdp sha256 Marshal builtins.

Abbreviation World := (World C F).
Abbreviation Route := (@ManifestRoute C F).
Abbreviation PDP := (@ManifestPDP C F).

(** The token layer over a manifest. *)
Definition over (any : bool) (aud : string) (m : PDP) (reg : option (@Construction.draft C F)) (k : option Checker)
    : JWTPDP Route :=
  newJWTPDP (mkOptions any aud (InnerValue (mkRoute m reg)) k).

(** ** Lists *)

Lemma entry_of_id_unique f raw id id' : entry_of_id f raw id -> entry_of_id f raw id' -> id = id'.
Proof. intros (ms & Ed & _ & Ef) (ms' & Ed' & _ & Ef'). rewrite Ed in Ed'. injection Ed' as <-. congruence. Qed.

(** A list whose entries all have their identifiers beside them. *)
Lemma kept_ids (desc : @listTypeDesc Route) (r : ListFilterResult) (Q : string -> string -> Prop) :
  Forall2 (fun raw id => entry_of_id (d_idField desc) raw id /\ Q raw id) (Entries r) (entryIDs r) ->
  ids_decoded desc r /\ forall raw, raw ∈ Entries r -> exists id, entry_of_id (d_idField desc) raw id /\ Q raw id.
Proof.
  intros Hf. split.
  - intros i raw id Hi Hid _. by destruct (Forall2_lookup_lr _ _ _ _ _ _ Hf Hi Hid).
  - intros raw [i Hi]%list_elem_of_lookup. destruct (Forall2_lookup_l _ _ _ _ _ Hf Hi) as (id & _ & Hq). by exists id.
Qed.

Lemma over_filter any aud m reg k ctx bytes desc :
  innerFilter (over any aud m reg k) ctx bytes desc = on_inner (over any aud m reg k) (d_filter desc (mkRoute m reg) ctx bytes).
Proof. done. Qed.

(** The entries of one list of the composition. *)
Lemma over_entries any aud m reg k ctx bytes (desc : @listTypeDesc Route) ri changes m' (Q : string -> string -> Prop) :
  known_field (d_idField desc) ->
  d_filter desc (mkRoute m reg) ctx bytes = (ri, changes, mkRoute m' reg) ->
  Forall2 (fun raw id => entry_of_id (d_idField desc) raw id /\ Q raw id) (Entries ri) (entryIDs ri) ->
  let '(r, _, p') := filterList (over any aud m reg k) ctx bytes desc in
  sublist (Entries r) (Entries ri) /\
  forall raw, raw ∈ Entries r -> exists claims id, ctx_claims ctx = Some claims /\
    routeAudienceSatisfied (over any aud m reg k) claims = true /\ inner p' = Some (mkRoute m' reg) /\
    entry_of_id (d_idField desc) raw id /\ Q raw id /\
    (jc_HasCapabilities claims = true -> anyCapCovers (parsedCapHeads claims) (mkEnforceTarget (d_targetType desc) id) = true).
Proof.
  intros Hf Ei Hq. apply kept_ids in Hq as [Hids Hq].
  pose proof (filterList_entries (over any aud m reg k) ctx bytes desc Hf) as Hl. rewrite over_filter, Ei in Hl. cbn [on_inner] in Hl.
  destruct (filterList _ ctx bytes desc) as [[r changes'] p']. destruct Hl as [Hl Hs]. split; [exact Hs|]. intros raw Hin.
  destruct (Hl raw Hin) as (claims & Hc & Ha & Hri & -> & _ & _ & Hcov). destruct (Hq raw Hri) as (id & He & HQ).
  exists claims, id. split_and!; [done..|]. intros Hh. destruct (Hcov Hh Hids) as (id' & He' & Hcv).
  by rewrite (entry_of_id_unique _ _ _ _ He He').
Qed.

(** A list behind a token shows what the token covers and the manifest permits.  After any
    history of lists and sessions, every entry that a tools, resources or prompts list keeps
    for a caller was kept for one with a validated token for this route, is an entry all
    parsers read alike under one identifier, is covered by a claim of the token where the
    token carries any, and can be used under the manifest; for a tool, with an interface no
    pin has seen change.  No list keeps an entry the manifest alone would hide. *)
Theorem token_list_intersects cs e k (w : World) evs any aud kt reg ctx bytes :
  let m := (runs sha256 Marshal (NewManifestPDP cs e k, w) evs).1 in
  let p := over any aud m reg kt in
  let kept desc Q := let '(r, _, p') := filterList p ctx bytes desc in
    sublist (Entries r) (Entries (fst (fst (d_filter desc (mkRoute m reg) ctx bytes)))) /\
    forall raw, raw ∈ Entries r -> exists claims id m', ctx_claims ctx = Some claims /\ routeAudienceSatisfied p claims = true /\
      inner p' = Some (mkRoute m' reg) /\ entry_of_id (d_idField desc) raw id /\
      (jc_HasCapabilities claims = true -> anyCapCovers (parsedCapHeads claims) (mkEnforceTarget (d_targetType desc) id) = true) /\
      callable m' (jwtClaimsAsMap ctx) (mkEnforceTarget (d_targetType desc) id) /\ Q m' id in
  kept toolsDesc (fun m' id => interface_broken m' (ctx_sessionID ctx) id = false) /\
  kept resourcesDesc (fun _ _ => True) /\ kept promptsDesc (fun _ _ => True).
Proof.
  cbv zeta. pose proof (listed_usable sha256 Marshal cs e k w evs ctx bytes) as Hu. cbv zeta in Hu.
  set (m := (runs sha256 Marshal _ evs).1) in *.
  destruct (FilterToolsList sha256 Marshal m ctx bytes) as [[ri changes] m'] eqn:Et. destruct Hu as (Htools & Hres & Hprompts).
  split_and!.
  - pose proof (over_entries any aud m reg kt ctx bytes toolsDesc ri changes m'
      (fun _ id => callable m' (jwtClaimsAsMap ctx) (mkEnforceTarget TargetTypeTool id) /\ interface_broken m' (ctx_sessionID ctx) id = false)
      ltac:(by left)) as Hx.
    cbn [d_filter toolsDesc dp_FilterToolsList m_dp manifest_pdp mr_pdp] in Hx |- *. rewrite Et in Hx |- *. specialize (Hx eq_refl Htools).
    destruct (filterList _ ctx bytes _) as [[r ?] p']. destruct Hx as [Hs Hx]. split; [exact Hs|]. intros raw Hin.
    destruct (Hx raw Hin) as (claims & id & ? & ? & ? & ? & (? & ?) & ?). by exists claims, id, m'.
  - pose proof (over_entries any aud m reg kt ctx bytes resourcesDesc _ [] m
      (fun _ id => callable m (jwtClaimsAsMap ctx) (mkEnforceTarget TargetTypeResource id)) ltac:(by right) eq_refl Hres) as Hx.
    destruct (filterList _ ctx bytes _) as [[r ?] p']. destruct Hx as [Hs Hx]. split; [exact Hs|]. intros raw Hin.
    destruct (Hx raw Hin) as (claims & id & ? & ? & ? & ? & ? & ?). by exists claims, id, m.
  - pose proof (over_entries any aud m reg kt ctx bytes promptsDesc _ [] m
      (fun _ id => callable m (jwtClaimsAsMap ctx) (mkEnforceTarget TargetTypePrompt id)) ltac:(by left) eq_refl Hprompts) as Hx.
    destruct (filterList _ ctx bytes _) as [[r ?] p']. destruct Hx as [Hs Hx]. split; [exact Hs|]. intros raw Hin.
    destruct (Hx raw Hin) as (claims & id & ? & ? & ? & ? & ? & ?). by exists claims, id, m.
Qed.

(** ** Forwarded calls *)

Context `{!FlowStoreLaws F}.

(** The manifest's guarantees survive a token in front of it.  Over a manifest, whenever the
    route lets a tool call through to the upstream, whether both layers allowed it or one
    refused it and the route or the entry only observes, the caller is not revoked in either
    manager, the tool's interface is intact, every label that any entry naming the tool
    declares is in the caller's flow state, and the response carries the redactions of the
    entry that governs the call, or of every entry naming the tool where none does. *)
Theorem token_route_forwards any aud (m : PDP) reg k ctx sid target args ip rid t (w : World) resp w' :
  let p := over any aud m reg k in
  wired m -> handlers_preserve store_fine (engine m) -> store_fine w -> skipFlow (engine m) = false ->
  et_Type target = TargetTypeTool ->
  (forall claims, commits_nothing builtins (Some (mkRoute m reg)) ctx
     (jwtClaimEnforceRequest sid target (jwtConditionArgs target args) (buildFlatClaims claims))) ->
  JWTDecide builtins p ctx sid target args ip rid t w = (resp, w') -> forwarded ctx resp = true ->
  JWTCheckKill p ctx sid rid t = None /\ interface_broken m sid (et_Name target) = false /\
  (forall l, declared_label m target l -> l ∈ taint (w_flow w') (flowKey (anchors (engine m)) (targetRequest ctx sid target args ip))) /\
  (forall c fields, match findConstraint m target (jwtClaimsAsMap ctx) with
                    | Some c' => c = c' /\ (CollectObligations (Some c') rid t).2 = None
                    | None => c ∈ caps m /\ entry_names target c = true
                    end ->
     Dir (RedactFields fields) ∈ Directives c -> mkObligation DirectiveTypeRedactFields fields ∈ Obligations resp).
Proof.
  cbv zeta. set (p := over any aud m reg k). intros Hw Hh Hok Hskip Ht Hq E Hf.
  pose proof (manifest_laws sha256 Marshal builtins) as Hlaws.
  assert (JWTCheckKill p ctx sid rid t = None) as Hnk.
  { destruct (JWTCheckKill p ctx sid rid t) as [d|] eqn:Ek; [|done].
    destruct (killed_call _ _ _ _ _ _ _ _ _ _ _ _ _ Ek E) as [_ Hx]. rewrite hard_blocks in Hf; [done|]. apply Hx.
    unfold JWTCheckKill in Ek. destruct (killCheck ctx (jwt_ks p) sid rid t) as [d'|] eqn:Ek1.
    - injection Ek as <-. by eapply killCheck_hard.
    - cbn in Ek. by eapply killCheck_hard. }
  split; [exact Hnk|]. rewrite JWTDecide_gated in E.
  destruct (gated_spec p ctx sid rid t ret (callBody builtins p ctx sid target args ip rid t)) as [(d & Hd & Hg & _)|(claims & [Hk Hc Haud] & Hg)];
    rewrite Hg in E; [apply ret_inv in E as [-> _]; by rewrite hard_blocks in Hf|].
  destruct (callBody_keeps builtins p ctx sid target args ip rid t claims w w' resp (mkRoute m reg) eq_refl (Hq claims) E) as [(r & Ho & Ew)|[_ Ei]].
  - apply withInnerVerdicts_cases in Ew; [|done].
    destruct Ew as [(-> & _ & [Hhd|?])|(q & [= <-] & _ & [(Hkd & _)|(_ & Eh)])]; [by rewrite hard_blocks in Hf | done | |].
    { rewrite hard_blocks in Hf; [done|]. exact (killCheck_hard _ _ _ _ _ _ Hkd). }
    destruct Ho as [Hpl [d Hden] Hob]. cbn in Eh.
    destruct (hardened_refusal _ _ _ _ _ _ _ _ _ _ _ _ Hw Hok Hskip Hpl Hden Hob Eh) as (_ & _ & Hx).
    destruct (Hx Hf) as (_ & _ & Hint & _ & Hred & Htaint). split_and!; [by apply Hint | exact Htaint|].
    intros c fields Hsel Hd. eapply (Hred Ht c); [| |exact Hd].
    all: pose proof (findConstraint_spec m target (jwtClaimsAsMap ctx) Hw) as Hfc;
      destruct (findConstraint m target (jwtClaimsAsMap ctx)) as [c'|]; [destruct Hsel as [-> _]; destruct Hfc as (? & Hcand & _)|by destruct Hsel].
    all: unfold candidate in Hcand; by bools.
  - unfold decideInner in Ei. rewrite Ht in Ei. cbn in Ei. unfold Decide in Ei.
    assert (interface_broken m sid (et_Name target) = false) as Hint.
    { apply decideTarget_inv in Ei as [Hhd|(_ & Hb & _)]; [by rewrite hard_blocks in Hf | exact Hb]. }
    split_and!; [exact Hint | |].
    + intros l Hl. by eapply call_taints.
    + intros c fields Hsel Hd. pose proof (response_masked _ _ _ _ _ _ _ _ _ _ _ _ Hw Ht Ei Hf) as Hm.
      destruct (findConstraint m target (jwtClaimsAsMap ctx)) as [c'|]; [|by destruct Hsel; eapply Hm].
      destruct Hsel as [-> Hn]. by apply Hm.
Qed.

End route.
End TokenRoute.
