(* ===== verification/TokenScenarios.v ===== *)
(** * The token layer on a small manifest

    The theorems of TokenSafety.v and TokenRoute.v at concrete inputs: the manifest of
    PDPScenarios.v behind a token, and the layer over a decision point without a policy.
    [cancel_skips_inner_kill] shows the refusals that are not hardened. *)
From stdpp Require Import base tactics list gmap strings fin_sets sorting.
From Stdlib Require Import ZArith Lia Ascii String.
From S2P Require Import Prelude GoStrings GoPath CallCounter FlowLabelStore Capability CaseFold Numeric Selection.
From S2P Require Import Anchor Backends Engine Fixtures EngineSafety FlowControl Construction KillSwitch SurfacePin ManifestPDP PDPSafety PDPForwarding PDPScenarios.
From S2P Require Import ArgumentPath ArgumentHandlers JSON Encode KeyScan ToolSurface ListFilter ListSafety ListScenarios TokenClaims TokenPDP TokenSafety TokenRoute.
#[local] Open Scope string_scope.
#[local] Open Scope go_scope.
Import Capability Selection Anchor Backends Engine Fixtures EngineSafety FlowControl ManifestPDP PDPSafety PDPForwarding PDPScenarios.
Import ToolSurface ListFilter ListSafety ListScenarios TokenClaims TokenPDP TokenSafety TokenRoute.

Module TokenScenarios.

(** An engine of built-ins that judges [allowedValues]. *)
Definition tk_builtins : @EngineState FxC FxF :=
  fx_engine {[ "allowedValues" := mkHandler (Some (fun _ cond r => ret (ArgumentHandlers.EvaluateAllowedValues cond (Some r)))) None ]} None.

Definition tk_claims (caps : list string) : JWTClaims := mkClaims caps true "" "" "alice" "" "" ["route-a"] ∅.

Definition tk_ctx (observe : bool) (c : option JWTClaims) : PCtx := mkPCtx (fx_ctx observe) c [] "s1" false.

(** Over a decision point that forwards everything. *)
#[local] Instance tk_aa : PolicyDecisionPoint FxC FxF AlwaysAllowPDP := alwaysAllow_pdp tk_builtins.

Definition tk_open (inner_ks ks : option Checker) : JWTPDP AlwaysAllowPDP :=
  newJWTPDP (mkOptions false "route-a" (InnerValue (mkAlwaysAllow inner_ks)) ks).

Definition tk_query (sql table : string) : list (string * value) := [("q", VObject [("sql", VString sql)]); ("table", VString table)].

Definition tk_grant : list string := ["tool:query_db?op=SELECT&table=sales_*"; "resource:file:///a/*"].

Definition tk_call (p : JWTPDP AlwaysAllowPDP) (observe : bool) (caps : list string) (sql table : string) : EnforceResponse * World FxC FxF :=
  JWTDecide tk_builtins p (tk_ctx observe (Some (tk_claims caps))) "s1" (tool "query_db") (tk_query sql table) "" "r1" "now" fx_world.

Example tk_granted : Decision_ (tk_call (tk_open None None) false tk_grant "select 1" "sales_eu").1 = DecisionAllow.
Proof. vm_compute. reflexivity. Qed.
Example tk_smuggled :
  Code <$> Denial (tk_call (tk_open None None) false tk_grant "select 1; copy t to program" "DROP TABLE x").1 = Some ErrCodeOperationNotPermitted.
Proof. vm_compute. reflexivity. Qed.
Example tk_table : Code <$> Denial (tk_call (tk_open None None) false tk_grant "select 1" "hr").1 = Some ErrCodeValueNotPermitted.
Proof. vm_compute. reflexivity. Qed.

Lemma token_intersects_witness :
  let out := tk_call (tk_open None None) false tk_grant "select 1" "sales_eu" in
  Decision_ out.1 = DecisionAllow /\
  exists claims w1, token_grants tk_builtins (tk_open None None) (tk_ctx false (Some (tk_claims tk_grant))) "s1" (tool "query_db")
    (tk_query "select 1" "sales_eu") claims w1.
Proof.
  intros out. split; [vm_compute; reflexivity|].
  destruct (token_intersects (DecisionPointLaws0 := alwaysAllow_laws tk_builtins) tk_builtins (tk_open None None) (tk_ctx false (Some (tk_claims tk_grant))) "s1" (tool "query_db")
    (tk_query "select 1" "sales_eu") "" "r1" "now" fx_world out.2 out.1) as (_ & claims & w1 & _ & _ & Hg & _).
  - apply surjective_pairing.
  - vm_compute. reflexivity.
  - by exists claims, w1.
Defined.

(** An observing route forwards what the token refuses, once the wrapped decision point had its say. *)
Lemma token_refusals_hardened_witness :
  let out := tk_call (tk_open None None) true tk_grant "select 1" "hr" in
  forwarded (tk_ctx true (Some (tk_claims tk_grant))) out.1 = true /\
  JWTCheckKill (tk_open None None) (tk_ctx true (Some (tk_claims tk_grant))) "s1" "r1" "now" = None.
Proof.
  intros out. split; [vm_compute; reflexivity|].
  destruct (token_refusals_hardened (DecisionPointLaws0 := alwaysAllow_laws tk_builtins) tk_builtins (tk_open None None)
    (mkAlwaysAllow None) (tk_ctx true (Some (tk_claims tk_grant))) "s1" (tool "query_db") (tk_query "select 1" "hr") "" "r1" "now"
    fx_world out.2 out.1) as [Hk _].
  - reflexivity.
  - intros d Hd. vm_compute in Hd. discriminate.
  - apply surjective_pairing.
  - vm_compute. reflexivity.
  - exact Hk.
Defined.

(** Revoked in the manager of the wrapped decision point only. *)
Lemma revoked_through_layers_witness :
  hard (tk_call (tk_open demo_killer None) true tk_grant "select 1" "hr").1.
Proof.
  destruct (revoked_through_layers (DecisionPointLaws0 := alwaysAllow_laws tk_builtins) tk_builtins (tk_open demo_killer None)
    (tk_ctx true (Some (tk_claims tk_grant))) "s1" "r1" "now" fx_world) as (_ & Hc & _).
  - right. eexists _, _. split; [reflexivity|]. split; [reflexivity|]. by split.
  - unfold tk_call. apply Hc.
Defined.

(** The refusals of a cancellation that are the layer's own are not asked of the wrapped decision
    point: the caller is revoked there, and the refusal may still be forwarded. *)
Lemma cancel_skips_inner_kill :
  let p := tk_open demo_killer None in
  let ctx := tk_ctx true (Some (tk_claims tk_grant)) in
  (exists d, JWTCheckKill p ctx "s1" "r1" "now" = Some d /\ hard d) /\
  forwarded ctx (JWTDecideResourceCancel p ctx "s1" "file:///b/c" "" "r1" "now" fx_world).1 = true /\
  forwarded ctx (JWTDecideSampling p ctx "s1" "" "r1" "now" fx_world).1 = true.
Proof.
  cbv zeta. split; [eexists; split; [reflexivity|]; by split|]. split; vm_compute; reflexivity.
Qed.

(** A token for another route. *)
Lemma foreign_token_blocked_witness :
  let ctx := tk_ctx true (Some (mkClaims tk_grant true "" "" "alice" "" "" ["route-b"] ∅)) in
  exists d, hard d /\ JWTDecide tk_builtins (tk_open None None) ctx "s1" (tool "query_db") (tk_query "select 1" "sales_eu") "" "r1" "now"
    fx_world = (d, fx_world).
Proof.
  intros ctx. destruct (foreign_token_blocked tk_builtins (tk_open None None) ctx "s1" "r1" "now" fx_world) as (Hc & _).
  - intros claims [= <-]. vm_compute. reflexivity.
  - apply Hc.
Defined.

(** ** Over the manifest *)

Definition tk_sha (s : string) : string := s.
Definition tk_marshal (n : node) : option string := Some "".

Definition tk_bob : JWTClaims := mkClaims ["tool:read_*"] true "" "" "bob" "" "" ["route-a"] ∅.

Definition tk_route : JWTPDP (@ManifestRoute FxC FxF) := over false "route-a" (demo_pdp None) None None.

Definition tk_listing : string :=
  JSON.text "{'tools':[{'name':'read_secrets','description':'a'},{'name':'deploy'},{'name':'read_more'},{'name':'sql'}]}".

#[local] Instance tk_mdp : PolicyDecisionPoint FxC FxF (@ManifestRoute FxC FxF) := manifest_pdp tk_sha tk_marshal tk_builtins.

Example tk_lists :
  Result (filterList tk_route (tk_ctx false (Some tk_bob)) tk_listing toolsDesc).1.1 =
  JSON.text "{'tools':[{'name':'read_secrets','description':'a'},{'name':'read_more'}]}".
Proof. vm_compute. reflexivity. Qed.

(** Refused by the token on an observing route: forwarded, masked and labelled. *)
Lemma token_route_forwards_witness :
  let ctx := tk_ctx true (Some tk_bob) in
  let out := JWTDecide tk_builtins tk_route ctx "s1" (tool "export") [] "" "r1" "now" fx_world in
  forwarded ctx out.1 = true /\
  mkObligation DirectiveTypeRedactFields ["ssn"] ∈ Obligations out.1 /\
  "confidential" ∈ taint (w_flow out.2) (flowKey fx_anchors (targetRequest ctx "s1" (tool "export") [] "")).
Proof.
  intros ctx out. split; [vm_compute; reflexivity|].
  destruct (token_route_forwards tk_sha tk_marshal tk_builtins false "route-a" (demo_pdp None) None None ctx "s1" (tool "export") [] ""
    "r1" "now" fx_world out.1 out.2) as (_ & _ & Hl & Hr).
  - apply wired_new.
  - apply demo_sinks_preserve.
  - split; vm_compute; split; congruence.
  - reflexivity.
  - reflexivity.
  - intros claims argument values w.
    assert (handlers demo_sinks !! "allowedValues" = None) as Hn by (vm_compute; reflexivity).
    change (snd ((match handlers demo_sinks !! "allowedValues" with
                  | None => ret (None, false)
                  | Some handler => match pure handler with
                      | None => ret (None, false)
                      | Some handle => let! res := handle (engine_ctx ctx) (AllowedValues argument values)
                          (jwtClaimEnforceRequest "s1" (tool "export") [] (buildFlatClaims claims)) in ret (res, true)
                      end
                  end : M FxC FxF (option ConditionError * bool)) w) = w).
    by rewrite Hn.
  - apply surjective_pairing.
  - vm_compute. reflexivity.
  - split.
    + eapply (Hr (mkConstraint "tool:export" ["call"] "" "" None {[ "sub" := ["alice"] ]} None []
        [Dir (RedactFields ["ssn"]); Dir (LabelOutput ["confidential"])])).
      * assert (findConstraint (demo_pdp None) (tool "export") (jwtClaimsAsMap ctx) = None) as -> by (vm_compute; reflexivity).
        split; [do 2 apply list_elem_of_further; apply list_elem_of_here | vm_compute; reflexivity].
      * apply list_elem_of_here.
    + apply Hl. eexists (mkConstraint "tool:export" ["call"] "" "" None {[ "sub" := ["alice"] ]} None []
        [Dir (RedactFields ["ssn"]); Dir (LabelOutput ["confidential"])]), ["confidential"].
      split; [do 2 apply list_elem_of_further; apply list_elem_of_here|]. split; [vm_compute; reflexivity|].
      split; [apply list_elem_of_further; apply list_elem_of_here | apply list_elem_of_here].
Defined.

End TokenScenarios.
