(* ===== verification/PayloadCache.v ===== *)
(** * The cache of verified payloads

    pkg/capability/payload_cache.go: a cache keyed by the hash of a token, bounded in size and
    in the time it trusts an entry, which the validator of tokens uses twice.  A method that
    holds the lock for its whole body is one step, and takes the instant its clock reads under
    the lock.  The linked list of keys is the list of its values: a key has one element. *)
From stdpp Require Import base tactics list gmap strings sorting.
From Stdlib Require Import ZArith Lia String.
From S2P Require Import Prelude.
#[local] Open Scope Z_scope.

Module PayloadCache.

(** [time.Unix(sec, 0)]: seconds are counted from year 1 in an int64, which wraps. *)
Definition unixToInternal : Z := 62135596800.

Definition unix_time (sec : Z) : time := (wrap_int64 (sec + unixToInternal) - unixToInternal) * second.

Definition defaultMaxEntryTTL : duration := 30 * second.
Definition defaultMaxSize : Z := 4096.

Section cache.
Context {T : Type}.

(** A function that copies a payload, or fails; [None] is the nil function. *)
Record PayloadCacheConfig := mkConfig {
  MaxEntryTTL : duration;
  MaxSize : Z;
  Clone : option (T -> option T);
}.

Record payloadCacheEntry := mkEntry {
  payload : T;
  expiresAt : time;
}.

(** Keys in insertion order, the oldest first. *)
Record PayloadCache := mkCache {
  cfg : PayloadCacheConfig;
  entries : gmap string payloadCacheEntry;
  insertOrder : list string;
}.

Definition clone (c : PayloadCacheConfig) (v : T) : option T :=
  match Clone c with Some f => f v | None => None end.

Definition NewPayloadCache (c : PayloadCacheConfig) : PayloadCache :=
  mkCache
    (mkConfig (if MaxEntryTTL c <=? 0 then defaultMaxEntryTTL else MaxEntryTTL c)
       (if MaxSize c <=? 0 then defaultMaxSize else MaxSize c)
       (Some (clone c)))
    ∅ [].

Definition fresh (now : time) (e : payloadCacheEntry) : bool := time_before now (expiresAt e).

(** A nil cache misses. *)
Definition Get (oc : option PayloadCache) (key : string) (now : time) : option T :=
  c ← oc;
  entry ← entries c !! key;
  if negb (fresh now entry) then None else clone (cfg c) (payload entry).

(** *** Making room *)

(** The expired run at the front. *)
Fixpoint reclaimFront (now : time) (es : gmap string payloadCacheEntry) (order : list string)
    : gmap string payloadCacheEntry * list string :=
  match order with
  | [] => (es, [])
  | oldest :: rest =>
      match es !! oldest with
      | Some e => if fresh now e then (es, order) else reclaimFront now (delete oldest es) rest
      | None => (es, order)
      end
  end.

(** Every expired entry. *)
Fixpoint sweep (now : time) (es : gmap string payloadCacheEntry) (order : list string)
    : gmap string payloadCacheEntry * list string :=
  match order with
  | [] => (es, [])
  | ek :: rest =>
      match es !! ek with
      | Some e =>
          if fresh now e then let '(es, rest) := sweep now es rest in (es, ek :: rest)
          else sweep now (delete ek es) rest
      | None => sweep now (delete ek es) rest
      end
  end.

(** The oldest entries, while the cache is full. *)
Fixpoint evict (maxSize : Z) (es : gmap string payloadCacheEntry) (order : list string)
    : gmap string payloadCacheEntry * list string :=
  if Z.of_nat (List.length order) <? maxSize then (es, order)
  else match order with [] => (es, []) | oldest :: rest => evict maxSize (delete oldest es) rest end.

Definition makeRoom (maxSize : Z) (now : time) (es : gmap string payloadCacheEntry) (order : list string)
    : gmap string payloadCacheEntry * list string :=
  let '(es, order) := reclaimFront now es order in
  let '(es, order) := if maxSize <=? Z.of_nat (List.length order) then sweep now es order else (es, order) in
  evict maxSize es order.

Definition removeElem (key : string) (order : list string) : list string :=
  List.filter (fun k => negb (String.eqb k key)) order.

Definition MoveToBack (key : string) (order : list string) : list string := (removeElem key order ++ [key])%list.

(** The entry a Put makes, or that it is refused. *)
Definition newEntry (c : PayloadCacheConfig) (v : T) (expUnix : Z) (now : time) : option payloadCacheEntry :=
  if expUnix <=? 0 then None
  else
    let payloadRemaining := time_sub (unix_time expUnix) now in
    if payloadRemaining <=? 0 then None
    else
      let entryTTL := if payloadRemaining <? MaxEntryTTL c then payloadRemaining else MaxEntryTTL c in
      stored ← clone c v;
      Some (mkEntry stored (time_add now entryTTL)).

Definition Put (oc : option PayloadCache) (key : string) (v : T) (expUnix : Z) (now : time) : option PayloadCache :=
  c ← oc;
  match newEntry (cfg c) v expUnix now with
  | None => Some c
  | Some entry =>
      match entries c !! key with
      | Some _ => Some (mkCache (cfg c) (<[key := entry]> (entries c)) (MoveToBack key (insertOrder c)))
      | None =>
          let '(es, order) := makeRoom (MaxSize (cfg c)) now (entries c) (insertOrder c) in
          Some (mkCache (cfg c) (<[key := entry]> es) (order ++ [key]))
      end
  end.

Definition Invalidate (oc : option PayloadCache) (key : string) : option PayloadCache :=
  c ← oc;
  match entries c !! key with
  | Some _ => Some (mkCache (cfg c) (delete key (entries c)) (removeElem key (insertOrder c)))
  | None => Some c
  end.

Definition Len (oc : option PayloadCache) : Z :=
  match oc with Some c => Z.of_nat (size (entries c)) | None => 0 end.

(** ** The order holds the keys *)

Record paired (es : gmap string payloadCacheEntry) (order : list string) : Prop := mkPaired {
  pr_nodup : NoDup order;
  pr_keys : forall k, k ∈ order <-> is_Some (es !! k);
}.

(** Some keys were dropped, and nothing else. *)
Record trimmed (p q : gmap string payloadCacheEntry * list string) : Prop := mkTrimmed {
  tr_paired : paired p.1 p.2 -> paired q.1 q.2;
  tr_entries : q.1 ⊆ p.1;
  tr_order : sublist q.2 p.2;
}.

#[export] Instance trimmed_preorder : PreOrder trimmed.
Proof.
  split.
  - intros p. by split.
  - intros p q r [? ? ?] [? ? ?]. split; [tauto | by etrans | by etrans].
Qed.

Lemma paired_tail es k rest : paired es (k :: rest) -> paired (delete k es) rest.
Proof.
  intros [Hn Hk]. apply NoDup_cons in Hn as [Hnk Hn]. split; [done|]. intros k'.
  rewrite lookup_delete_is_Some, <- Hk, elem_of_cons. split; [intros ?; split; [congruence|tauto] | intros [? [?|?]]; congruence].
Qed.

Lemma trimmed_tail es k rest : trimmed (es, k :: rest) (delete k es, rest).
Proof. split; cbn; [apply paired_tail | apply delete_subseteq | by constructor]. Qed.

Lemma reclaimFront_trims now order : forall es, trimmed (es, order) (reclaimFront now es order).
Proof.
  induction order as [|k rest IH]; intros es; cbn; [done|]. destruct (es !! k) as [e|]; [|done].
  destruct (fresh now e); [done|]. etrans; [apply trimmed_tail | apply IH].
Qed.

Lemma evict_trims maxSize order : forall es, trimmed (es, order) (evict maxSize es order).
Proof.
  induction order as [|k rest IH]; intros es; cbn [evict]; case_match; try done.
  etrans; [apply trimmed_tail | apply IH].
Qed.

(** Sweeping keeps exactly the live entries. *)
Lemma sweep_spec now order : forall es, let '(es', order') := sweep now es order in
  es' ⊆ es /\ sublist order' order /\
  (forall k, k ∉ order -> es' !! k = es !! k) /\
  (NoDup order -> forall k, k ∈ order -> es' !! k = (e ← es !! k; if fresh now e then Some e else None)) /\
  (NoDup order -> forall k, k ∈ order' <-> k ∈ order /\ is_Some (es' !! k)).
Proof.
  induction order as [|ek rest IH]; intros es; cbn [sweep].
  { split_and!; [done | done | done | set_solver | set_solver]. }
  assert (forall m, m = delete ek es -> (e ← es !! ek; if fresh now e then Some e else None) = None ->
    let '(es', order') := sweep now m rest in
    es' ⊆ es /\ sublist order' (ek :: rest) /\ (forall k, k ∉ ek :: rest -> es' !! k = es !! k) /\
    (NoDup (ek :: rest) -> forall k, k ∈ ek :: rest -> es' !! k = (e ← es !! k; if fresh now e then Some e else None)) /\
    (NoDup (ek :: rest) -> forall k, k ∈ order' <-> k ∈ ek :: rest /\ is_Some (es' !! k))) as Hdrop.
  { intros m -> Hnone. specialize (IH (delete ek es)). destruct (sweep now (delete ek es) rest) as [es' order'].
    destruct IH as (Hs & Ho & Hout & Hin & Hk). split_and!.
    - etrans; [exact Hs | apply delete_subseteq].
    - by constructor.
    - intros k Hn. rewrite Hout by set_solver. apply lookup_delete_ne. set_solver.
    - intros Hn k Hk'. apply NoDup_cons in Hn as [Hne Hn]. destruct (decide (k = ek)) as [->|Hkk].
      + rewrite Hout by done. by rewrite lookup_delete_eq, Hnone.
      + rewrite Hin by (done || set_solver). by rewrite lookup_delete_ne.
    - intros Hn k. apply NoDup_cons in Hn as [Hne Hn]. rewrite Hk by done. rewrite elem_of_cons. split; [tauto|].
      intros [[->|?] Hsome]; [|done]. rewrite Hout in Hsome by done. rewrite lookup_delete_eq in Hsome. by destruct Hsome. }
  destruct (es !! ek) as [e|] eqn:Ee; [|by apply Hdrop].
  destruct (fresh now e) eqn:Ef; [|apply Hdrop; [done|cbn; by rewrite Ef]]. clear Hdrop.
  specialize (IH es). destruct (sweep now es rest) as [es' order'].
  destruct IH as (Hs & Ho & Hout & Hin & Hk). split_and!.
  - done.
  - by apply sublist_skip.
  - intros k Hn. apply Hout. set_solver.
  - intros Hn k Hk'. apply NoDup_cons in Hn as [Hne Hn]. destruct (decide (k = ek)) as [->|Hkk].
    + rewrite Hout, Ee by done. cbn. by rewrite Ef.
    + apply Hin; [done|set_solver].
  - intros Hn k. apply NoDup_cons in Hn as [Hne Hn]. rewrite !elem_of_cons, Hk by done. split; [|tauto].
    intros [->|?]; [|tauto]. split; [by left|]. by rewrite Hout, Ee.
Qed.

Lemma sweep_trims now es order : trimmed (es, order) (sweep now es order).
Proof.
  pose proof (sweep_spec now order es) as Hs. destruct (sweep now es order) as [es' order'].
  destruct Hs as (Hs & Ho & Hout & Hin & Hk). split; cbn; [|done..]. intros [Hn Hp].
  split; [by eapply sublist_NoDup|]. intros k. rewrite Hk by done. split; [tauto|].
  intros Hsome. split; [|done]. apply Hp. destruct Hsome as [e He]. exists e. by eapply lookup_weaken.
Qed.

Lemma makeRoom_trims maxSize now es order : trimmed (es, order) (makeRoom maxSize now es order).
Proof.
  unfold makeRoom. pose proof (reclaimFront_trims now order es) as H1. destruct (reclaimFront now es order) as [es1 o1].
  assert (trimmed (es1, o1) (if maxSize <=? Z.of_nat (List.length o1) then sweep now es1 o1 else (es1, o1))) as H2
    by (case_match; [apply sweep_trims | done]).
  destruct (if maxSize <=? _ then _ else _) as [es2 o2].
  etrans; [exact H1|]. etrans; [exact H2|]. apply evict_trims.
Qed.

Lemma evict_room maxSize order : forall es, 0 < maxSize -> Z.of_nat (List.length (evict maxSize es order).2) < maxSize.
Proof.
  induction order as [|k rest IH]; intros es Hm; cbn [evict]; case_match; bools; cbn in *; [lia | lia | lia | by apply IH].
Qed.

Lemma makeRoom_room maxSize now es order : 0 < maxSize -> Z.of_nat (List.length (makeRoom maxSize now es order).2) < maxSize.
Proof.
  intros Hm. unfold makeRoom. destruct (reclaimFront now es order) as [es1 o1].
  destruct (maxSize <=? Z.of_nat (List.length o1)); [destruct (sweep now es1 o1) as [? ?]|]; by apply evict_room.
Qed.

(** ** The invariant *)

Record well_formed (c : PayloadCache) : Prop := mkWf {
  wf_paired : paired (entries c) (insertOrder c);
  wf_size : Z.of_nat (List.length (insertOrder c)) <= MaxSize (cfg c);
  wf_max : 0 < MaxSize (cfg c);
  wf_ttl : 0 < MaxEntryTTL (cfg c);
}.

Lemma elem_of_removeElem key order k : k ∈ removeElem key order <-> k ∈ order /\ k <> key.
Proof. unfold removeElem. rewrite elem_of_lfilter. by rewrite negb_true_iff, String.eqb_neq. Qed.

Lemma removeElem_NoDup key order : NoDup order -> NoDup (removeElem key order).
Proof. apply NoDup_lfilter. Qed.

Lemma removeElem_length key order : NoDup order -> key ∈ order -> S (List.length (removeElem key order)) = List.length order.
Proof.
  induction 1 as [|k order Hk Hn IH]; [by intros ?%elem_of_nil|]. cbn. intros Hin. destruct (String.eqb_spec k key) as [->|Hne]; cbn.
  - f_equal. clear IH Hin Hn. induction order as [|k' order IH]; [done|]. cbn. apply not_elem_of_cons in Hk as [Hk' Hk].
    destruct (String.eqb_spec k' key); [congruence|]. cbn. by rewrite IH.
  - f_equal. apply IH. by apply elem_of_cons in Hin as [?|?].
Qed.

Lemma removeElem_shorter key order : (List.length (removeElem key order) <= List.length order)%nat.
Proof. apply List.filter_length_le. Qed.

Lemma paired_snoc es order key e : paired es order -> key ∉ order -> paired (<[key := e]> es) (order ++ [key]).
Proof.
  intros [Hn Hk] Hnew. split.
  - apply NoDup_app. split_and!; [done | set_solver | apply NoDup_singleton].
  - intros k. rewrite elem_of_app, list_elem_of_singleton, lookup_insert_is_Some, Hk.
    destruct (decide (key = k)) as [->|]; naive_solver.
Qed.

Lemma paired_remove es order key : paired es order -> paired (delete key es) (removeElem key order).
Proof.
  intros [Hn Hk]. split; [by apply removeElem_NoDup|]. intros k. rewrite elem_of_removeElem, lookup_delete_is_Some, Hk. naive_solver.
Qed.

Lemma Put_inv c key v expUnix now c' : Put (Some c) key v expUnix now = Some c' ->
  match newEntry (cfg c) v expUnix now with
  | None => c' = c
  | Some entry =>
      cfg c' = cfg c /\ exists es order, trimmed (entries c, insertOrder c) (es, order) /\
        entries c' = <[key := entry]> es /\
        match entries c !! key with
        | Some _ => es = entries c /\ insertOrder c' = MoveToBack key order
        | None => (es, order) = makeRoom (MaxSize (cfg c)) now (entries c) (insertOrder c) /\ insertOrder c' = (order ++ [key])%list
        end
  end.
Proof.
  unfold Put. cbn. destruct (newEntry _ _ _ _) as [entry|]; [|congruence]. destruct (entries c !! key) as [e|].
  - intros [= <-]. split; [done|]. by exists (entries c), (insertOrder c).
  - pose proof (makeRoom_trims (MaxSize (cfg c)) now (entries c) (insertOrder c)) as Ht. destruct (makeRoom _ _ _ _) as [es order].
    intros [= <-]. split; [done|]. by exists es, order.
Qed.

Lemma Put_wf c key v expUnix now c' : well_formed c -> Put (Some c) key v expUnix now = Some c' -> well_formed c'.
Proof.
  intros [Hp Hs Hm Ht] E. apply Put_inv in E. destruct (newEntry _ _ _ _) as [entry|]; [|by subst].
  destruct E as (Hc & es & order & Htr & He & Hcase). destruct c' as [cfg' es' order']. cbn in *. subst cfg' es'.
  destruct (entries c !! key) as [e|] eqn:Ek.
  - destruct Hcase as [-> ->]. pose proof (tr_paired _ _ Htr Hp) as Hp'. cbn in Hp'.
    assert (key ∈ order) as Hin by (apply (pr_keys _ _ Hp'); by rewrite Ek). split; cbn; [|unfold MoveToBack|done..].
    + rewrite <- insert_delete_eq. apply paired_snoc; [by apply paired_remove|]. rewrite elem_of_removeElem. tauto.
    + pose proof (sublist_length _ _ (tr_order _ _ Htr)) as Hl. cbn in Hl.
      rewrite length_app, Nat.add_comm. cbn. rewrite removeElem_length by (by destruct Hp' || done). lia.
  - destruct Hcase as [Hroom ->]. pose proof (tr_paired _ _ Htr Hp) as Hp'.
    pose proof (makeRoom_room (MaxSize (cfg c)) now (entries c) (insertOrder c) Hm) as Hlt. rewrite <- Hroom in Hlt. cbn in Hlt.
    split; cbn; [|rewrite length_app; cbn; lia|done..].
    apply paired_snoc; [done|]. intros Hin. apply (pr_keys _ _ Hp') in Hin as [x Hx].
    pose proof (lookup_weaken _ _ _ _ Hx (tr_entries _ _ Htr)) as Hy. cbn in Hy. congruence.
Qed.

Lemma Invalidate_wf c key c' : well_formed c -> Invalidate (Some c) key = Some c' -> well_formed c'.
Proof.
  intros [Hp Hs Hm Ht]. unfold Invalidate. cbn. destruct (entries c !! key); intros [= <-]; [|done].
  split; cbn; [by apply paired_remove | | done..]. pose proof (removeElem_shorter key (insertOrder c)). lia.
Qed.

Lemma NewPayloadCache_wf c : well_formed (NewPayloadCache c).
Proof.
  split; cbn; [| | case_match; bools; unfold defaultMaxSize; lia | case_match; bools; unfold defaultMaxEntryTTL, second; lia].
  - split; cbn; [constructor|]. intros k. rewrite lookup_empty. split; [by intros ?%elem_of_nil | by intros [? ?]].
  - case_match; bools; unfold defaultMaxSize; lia.
Qed.

(** ** Runs *)

Inductive op :=
| OpPut (key : string) (v : T) (expUnix : Z) (now : time)
| OpInvalidate (key : string).

Definition step (oc : option PayloadCache) (o : op) : option PayloadCache :=
  match o with
  | OpPut key v expUnix now => Put oc key v expUnix now
  | OpInvalidate key => Invalidate oc key
  end.

Definition run (oc : option PayloadCache) (ops : list op) : option PayloadCache := fold_left step ops oc.

Lemma step_some c o : exists c', step (Some c) o = Some c' /\ cfg c' = cfg c /\ (well_formed c -> well_formed c').
Proof.
  destruct o as [key v expUnix now|key]; cbn [step].
  - destruct (Put (Some c) key v expUnix now) as [c'|] eqn:E.
    + exists c'. split_and!; [done| |intros; by eapply Put_wf]. apply Put_inv in E.
      destruct (newEntry _ _ _ _); [apply E | by subst].
    + exfalso. unfold Put in E. cbn in E. repeat case_match; done.
  - destruct (Invalidate (Some c) key) as [c'|] eqn:E.
    + exists c'. split_and!; [done| |intros; by eapply Invalidate_wf]. unfold Invalidate in E. cbn in E. by destruct (entries c !! key); simplify_eq.
    + exfalso. unfold Invalidate in E. cbn in E. by destruct (entries c !! key).
Qed.

Lemma run_some c ops : well_formed c -> exists c', run (Some c) ops = Some c' /\ cfg c' = cfg c /\ well_formed c'.
Proof.
  revert c. induction ops as [|o ops IH]; intros c Hc; [by exists c|].
  destruct (step_some c o) as (c1 & E & Hcfg & Hwf). cbn. unfold run in IH. rewrite E.
  destruct (IH c1 (Hwf Hc)) as (c' & ? & ? & ?). exists c'. by rewrite <- Hcfg.
Qed.

(** ** A log that never evicts *)

Definition logStep (c : PayloadCacheConfig) (m : gmap string payloadCacheEntry) (o : op) : gmap string payloadCacheEntry :=
  match o with
  | OpPut key v expUnix now => match newEntry c v expUnix now with Some e => <[key := e]> m | None => m end
  | OpInvalidate key => delete key m
  end.

Definition logOf (c : PayloadCacheConfig) (ops : list op) : gmap string payloadCacheEntry := fold_left (logStep c) ops ∅.

Definition logGet (c : PayloadCacheConfig) (ops : list op) (key : string) (now : time) : option T :=
  e ← logOf c ops !! key; if fresh now e then clone c (payload e) else None.

(** Whether an operation decides what is held for a key. *)
Definition settles (c : PayloadCacheConfig) (key : string) (o : op) : bool :=
  match o with
  | OpPut k v expUnix now => String.eqb k key && bool_decide (is_Some (newEntry c v expUnix now))
  | OpInvalidate k => String.eqb k key
  end.

Lemma logOf_snoc c ops o : logOf c (ops ++ [o]) = logStep c (logOf c ops) o.
Proof. unfold logOf. by rewrite fold_left_app. Qed.

Lemma log_last_put c ops key e : logOf c ops !! key = Some e ->
  exists pre v expUnix now post, ops = (pre ++ OpPut key v expUnix now :: post)%list /\
    newEntry c v expUnix now = Some e /\ Forall (fun o => settles c key o = false) post.
Proof.
  induction ops as [|o ops IH] using rev_ind; [done|]. rewrite logOf_snoc. intros E.
  assert (settles c key o = false -> logOf c ops !! key = Some e ->
    exists pre v expUnix now post, (ops ++ [o])%list = (pre ++ OpPut key v expUnix now :: post)%list /\
      newEntry c v expUnix now = Some e /\ Forall (fun o => settles c key o = false) post) as Hold.
  { intros Ho He. destruct (IH He) as (pre & v & x & t & post & -> & Hn & Hf).
    exists pre, v, x, t, (post ++ [o])%list. rewrite <- (assoc_L app). split_and!; [done..|]. apply Forall_app. by split; [|constructor]. }
  destruct o as [k v x t|k]; cbn [logStep settles] in *.
  - destruct (newEntry c v x t) as [e'|] eqn:En.
    + destruct (decide (k = key)) as [->|Hne].
      * rewrite lookup_insert_eq in E. injection E as ->. exists ops, v, x, t, []. by rewrite En.
      * rewrite lookup_insert_ne in E by done. apply Hold; [|done]. by rewrite (proj2 (String.eqb_neq k key) Hne).
    + apply Hold; [|done]. rewrite bool_decide_false by (by intros [? ?]). apply andb_false_r.
  - apply lookup_delete_Some in E as [Hne E]. apply Hold; [|done]. by apply String.eqb_neq.
Qed.

(** The lifetime of an entry. *)
Lemma newEntry_spec c v expUnix now e : newEntry c v expUnix now = Some e ->
  0 < expUnix /\ clone c v = Some (payload e) /\ expiresAt e <= time_add now (MaxEntryTTL c) /\ expiresAt e <= unix_time expUnix.
Proof.
  unfold newEntry. intros E. repeat case_match; try done; bools; apply bind_Some in E as (st & Est & [= <-]); cbn;
    unfold time_add, time_sub, min_int64, max_int64, two63 in *; split_and!; try done; lia.
Qed.

(** Every entry of the cache is the log's. *)
Definition sound_for (c : PayloadCache) (m : gmap string payloadCacheEntry) : Prop := entries c ⊆ m.

Lemma step_sound c o c' m : step (Some c) o = Some c' -> sound_for c m -> sound_for c' (logStep (cfg c) m o).
Proof.
  unfold sound_for. destruct o as [key v x now|key]; cbn [step logStep]; intros E Hm.
  - apply Put_inv in E. destruct (newEntry _ _ _ _) as [e|]; [|by subst].
    destruct E as (_ & es & order & Ht & -> & _). apply insert_mono. etrans; [exact (tr_entries _ _ Ht) | done].
  - unfold Invalidate in E. cbn in E. destruct (entries c !! key) as [e|] eqn:Ek; injection E as <-.
    + by apply delete_mono.
    + rewrite <- (delete_id (entries c) key) by done. by apply delete_mono.
Qed.

Lemma run_sound ops : forall c c' m, run (Some c) ops = Some c' -> sound_for c m ->
  sound_for c' (fold_left (logStep (cfg c)) ops m).
Proof.
  induction ops as [|o ops IH]; intros c c' m; [by intros [= <-]|]. unfold run. cbn [fold_left].
  destruct (step_some c o) as (c1 & E & Hcfg & _). rewrite E. intros Hr Hm. rewrite <- Hcfg. apply (IH c1); [done|].
  rewrite Hcfg. by eapply step_sound.
Qed.

(** *** What eviction spares *)

Lemma sublist_full {A} (l1 l2 : list A) : sublist l1 l2 -> (List.length l2 <= List.length l1)%nat -> l1 = l2.
Proof.
  induction 1 as [|x l1 l2 Hs IH|x l1 l2 Hs IH]; cbn; intros Hl; [done | by rewrite IH by lia|].
  pose proof (sublist_length _ _ Hs). lia.
Qed.

Lemma reclaimFront_spares now order : forall es k e, es !! k = Some e -> fresh now e = true ->
  (reclaimFront now es order).1 !! k = Some e.
Proof.
  induction order as [|k0 rest IH]; intros es k e Hk Hf; cbn; [done|]. destruct (es !! k0) as [e0|] eqn:E0; [|done].
  destruct (fresh now e0) eqn:Ef; [done|]. apply IH; [|done]. apply lookup_delete_Some. split; [congruence|done].
Qed.

Lemma reclaimFront_same now order es : List.length (reclaimFront now es order).2 = List.length order -> reclaimFront now es order = (es, order).
Proof.
  destruct order as [|k rest]; cbn; [done|]. destruct (es !! k) as [e|]; [|done]. destruct (fresh now e); [done|].
  pose proof (sublist_length _ _ (tr_order _ _ (reclaimFront_trims now rest (delete k es)))) as Hl. cbn in Hl. lia.
Qed.

Lemma evict_small maxSize es order : Z.of_nat (List.length order) < maxSize -> evict maxSize es order = (es, order).
Proof. intros Hl%Z.ltb_lt. destruct order; cbn [evict]; by rewrite Hl. Qed.

Lemma makeRoom_small maxSize now es order : Z.of_nat (List.length order) < maxSize -> makeRoom maxSize now es order = reclaimFront now es order.
Proof.
  intros Hl. unfold makeRoom. pose proof (sublist_length _ _ (tr_order _ _ (reclaimFront_trims now order es))) as Hs. cbn in Hs.
  destruct (reclaimFront now es order) as [es1 o1]. cbn in Hs. rewrite (proj2 (Z.leb_gt _ _)) by lia. apply evict_small. lia.
Qed.

(** When making room costs a live entry, every entry is live, the cache is full, and the one
    that goes is the oldest. *)
Lemma makeRoom_spares maxSize now es order k e : paired es order -> Z.of_nat (List.length order) <= maxSize ->
  es !! k = Some e -> fresh now e = true -> (makeRoom maxSize now es order).1 !! k = None ->
  Z.of_nat (List.length order) = maxSize /\ head order = Some k /\ forall k' e', es !! k' = Some e' -> fresh now e' = true.
Proof.
  intros [Hn Hp] Hl Hk Hf. unfold makeRoom.
  pose proof (reclaimFront_spares now order es k e Hk Hf) as Hr. pose proof (reclaimFront_same now order es) as Hsame.
  pose proof (sublist_length _ _ (tr_order _ _ (reclaimFront_trims now order es))) as Hs. cbn in Hs.
  destruct (reclaimFront now es order) as [es1 o1]. cbn in Hr, Hsame, Hs.
  destruct (Z.leb_spec maxSize (Z.of_nat (List.length o1))) as [Hfull|Hroom];
    [|rewrite evict_small by lia; cbn; congruence].
  assert (List.length o1 = List.length order) as Hlen by lia. injection (Hsame Hlen) as -> ->. clear Hsame Hs Hlen Hr.
  pose proof (sweep_spec now order es) as Hsw. destruct (sweep now es order) as [es2 o2]. destruct Hsw as (Hsub & Ho & _ & Hin & Hk2).
  specialize (Hin Hn). specialize (Hk2 Hn).
  assert (es2 !! k = Some e) as Hke by (rewrite Hin by (apply Hp; by rewrite Hk); rewrite Hk; cbn; by rewrite Hf).
  destruct (decide (Z.of_nat (List.length o2) < maxSize)) as [?|Hfull2]; [rewrite evict_small by done; cbn; congruence|].
  assert (o2 = order) as ->. by (apply sublist_full; [done|lia]).
  intros Hlost. split; [lia|]. split.
  - destruct order as [|h rest]; cbn [evict] in Hlost; rewrite (proj2 (Z.ltb_ge _ _)) in Hlost by lia; [cbn in Hlost; congruence|].
    rewrite evict_small in Hlost by (cbn in *; lia). cbn in *. apply lookup_delete_None in Hlost as [->|?]; [done|congruence].
  - intros k' e' Hk'. assert (k' ∈ order) as Hin' by (apply Hp; by rewrite Hk'). destruct (proj1 (Hk2 k') Hin') as [_ [x Hx]].
    rewrite Hin, Hk' in Hx by done. cbn in Hx. by destruct (fresh now e').
Qed.

(** ** The theorems *)

(** A cached payload is only ever served inside its lifetime.  After any sequence of insertions
    and removals, a hit returns a copy of what the last accepted insertion under that key
    stored, nothing since then replaced or removed it, less than the trust window of the cache
    has passed, and the payload's own expiry lies ahead; eviction can turn a hit into a miss
    and nothing else. *)
Theorem hit_is_live (c : PayloadCacheConfig) ops key now v :
  let cache := NewPayloadCache c in
  Get (run (Some cache) ops) key now = Some v ->
  logGet (cfg cache) ops key now = Some v /\
  exists pre v0 expUnix t post stored,
    ops = (pre ++ OpPut key v0 expUnix t :: post)%list /\ Forall (fun o => settles (cfg cache) key o = false) post /\
    clone c v0 = Some stored /\ clone c stored = Some v /\
    0 < expUnix /\ now < time_add t (MaxEntryTTL (cfg cache)) /\ now < unix_time expUnix.
Proof.
  cbv zeta. intros E. destruct (run_some _ ops (NewPayloadCache_wf c)) as (c' & Hr & Hcfg & _). rewrite Hr in E.
  pose proof (run_sound ops _ _ ∅ Hr) as Hs. unfold sound_for in Hs. cbn [NewPayloadCache entries] in Hs. specialize (Hs (reflexivity _)).
  unfold Get in E. cbn in E. apply bind_Some in E as (e & He & E). destruct (fresh now e) eqn:Hf; [|done]. cbn in E.
  pose proof (lookup_weaken _ _ _ _ He Hs) as Hlog. change (logOf (cfg (NewPayloadCache c)) ops !! key = Some e) in Hlog.
  rewrite Hcfg in E. split; [unfold logGet; rewrite Hlog; cbn; by rewrite Hf|].
  destruct (log_last_put _ _ _ _ Hlog) as (pre & v0 & x & t & post & Ho & Hn & Hp).
  apply newEntry_spec in Hn as (Hx & Hc & Hw & Hu). exists pre, v0, x, t, post, (payload e).
  unfold fresh, time_before in Hf. apply Z.ltb_lt in Hf. split_and!; [done..| |]; lia.
Qed.

(** The cache stays within its bound, and is only short of room for the living.  After any
    sequence of operations it holds at most MaxSize entries, one per key of its order, and an
    insertion that costs another key its entry either found that entry expired, or found the
    cache full of live entries and dropped the oldest. *)
Theorem cache_bounded (c : PayloadCacheConfig) ops key v expUnix now k e c1 c2 :
  run (Some (NewPayloadCache c)) ops = Some c1 -> Put (Some c1) key v expUnix now = Some c2 ->
  Len (Some c1) <= MaxSize (cfg (NewPayloadCache c)) /\
  (entries c1 !! k = Some e -> k <> key -> entries c2 !! k = None ->
   fresh now e = false \/
   (Len (Some c1) = MaxSize (cfg (NewPayloadCache c)) /\ head (insertOrder c1) = Some k /\
    forall k' e', entries c1 !! k' = Some e' -> fresh now e' = true)).
Proof.
  intros E1 E2. destruct (run_some _ ops (NewPayloadCache_wf c)) as (c' & Hr & Hcfg & Hwf).
  rewrite Hr in E1. injection E1 as ->. pose proof Hwf as [Hp Hs _ _].
  assert (size (entries c1) = List.length (insertOrder c1)) as Hsize.
  { destruct Hp as [Hn Hk]. rewrite <- size_dom. rewrite <- (size_list_to_set (C := gset string) (insertOrder c1)) by done.
    f_equal. apply set_eq. intros x. by rewrite elem_of_dom, elem_of_list_to_set, Hk. }
  unfold Len. rewrite Hsize, <- Hcfg. split; [done|]. intros He Hne Hlost. apply Put_inv in E2.
  destruct (newEntry _ _ _ _) as [entry|]; [|subst; congruence]. destruct E2 as (_ & es & order & _ & Hes & Hcase).
  rewrite Hes, lookup_insert_ne in Hlost by done. destruct (fresh now e) eqn:Hf; [right|by left].
  destruct (entries c1 !! key); [destruct Hcase as [-> _]; congruence|]. destruct Hcase as [Hroom _].
  pose proof (makeRoom_spares _ now _ _ _ _ Hp Hs He Hf) as Hx. rewrite <- Hroom in Hx. by apply Hx.
Qed.
End cache.
End PayloadCache.
