(* ===== verification/ClaimScan.v ===== *)
(** * The claim names of a token

    pkg/capability/claim_json.go: the scan that refuses a claim object in which a watched name
    is repeated or spelled another way, and the confirmation claim of token.go.

    The members of an object are read by the token stream of ListFilter.v.  A package that
    panics while it starts is [None]; the texts of the errors are their findings. *)
From stdpp Require Import base tactics list gmap strings.
From Stdlib Require Import ZArith Lia Ascii String.
From S2P Require Import Prelude GoStrings GoPath CallCounter Glob Capability CaseFold Selection.
From S2P Require Import Anchor Backends Engine KillSwitch SurfacePin ManifestPDP JSON KeyScan ToolSurface ListFilter.
#[local] Open Scope string_scope.
#[local] Open Scope go_scope.
Import Capability CaseFold JSON ListFilter.

Module ClaimScan.

Section scan.
Context `{U : Unicode}.

(** ** The watched names *)

Record ClaimWatch := mkWatch { byFold : gmap string string }.

Fixpoint watchNames (m : gmap string string) (names : list string) : option (gmap string string) :=
  match names with
  | [] => Some m
  | name :: names =>
      let folded := FoldJSONKey name in
      match m !! folded with
      | Some _ => None
      | None => watchNames (<[folded := name]> m) names
      end
  end.

Definition NewClaimWatch (names : list string) : option ClaimWatch :=
  match names with [] => None | _ => mkWatch <$> watchNames ∅ names end.

(** ** The scan *)

Inductive claim_scan_error :=
| MalformedObject
| ErrClaimNameCollision (collisions : list (string * string * string)) (variants : list (string * string))
| ErrClaimNameVariant (variants : list (string * string)).

(** A claim object in source order, with its duplicates. *)
Definition claimObjectMembers (data : string) : result (list (string * string)) claim_scan_error :=
  match objectTokens data with
  | Some (ms, String c r) => if Ascii.eqb c "}" && String.eqb (skipSpace r) "" then Ok ms else Err MalformedObject
  | _ => Err MalformedObject
  end.

(** What the loop over the members builds. *)
Record scanState := mkScan {
  kept : gmap string (string * string);
  collided : gset string;
  collisions : list (string * string * string);
  variants : list (string * string);
}.

Definition claimStep (watch : ClaimWatch) (st : scanState) (m : string * string) : scanState :=
  match byFold watch !! FoldJSONKey m.1 with
  | None => st
  | Some canonical =>
      match kept st !! canonical with
      | Some prior =>
          if bool_decide (canonical ∈ collided st) then st
          else mkScan (kept st) ({[canonical]} ∪ collided st) (collisions st ++ [(prior.1, m.1, canonical)]) (variants st)
      | None =>
          mkScan (<[canonical := m]> (kept st)) (collided st) (collisions st)
            (if String.eqb m.1 canonical then variants st else (variants st ++ [(m.1, canonical)])%list)
      end
  end.

Definition scanMembers (watch : ClaimWatch) (ms : list (string * string)) : scanState :=
  fold_left (claimStep watch) ms (mkScan ∅ ∅ [] []).

Definition claimNameError (colls : list (string * string * string)) (vars : list (string * string)) : claim_scan_error :=
  match colls with [] => ErrClaimNameVariant vars | _ => ErrClaimNameCollision colls vars end.

(** The raw value of each watched name that is present.  A watch that was never built panics, and
    is left out. *)
Definition ClaimMembers (data : string) (watch : ClaimWatch) : result (gmap string string) claim_scan_error :=
  let* members := claimObjectMembers data in
  let st := scanMembers watch members in
  match collisions st, variants st with
  | [], [] => Ok (snd <$> kept st)
  | colls, vars => Err (claimNameError colls vars)
  end.

(** ** The confirmation claim *)

(** [CnfIsSenderConstrained], on a decoded value: whether it binds the token to a key, and
    whether it is not a confirmation at all.  Encoding the value and decoding it again gives
    its members back. *)
Definition textOrNull (v : option value) : bool :=
  match v with None | Some VNull | Some (VString _) => true | _ => false end.

Definition CnfIsSenderConstrained (v : option value) : bool * bool :=
  match v with
  | None | Some VNull => (false, false)
  | Some (VObject ms) =>
      if textOrNull (lastOf "jkt" ms) && textOrNull (lastOf "kid" ms) then (negb (List.length ms =? 0)%nat, false)
      else (false, true)
  | Some _ => (false, true)
  end.

(** ** What the scan accepts *)

(** The members a case-folding reader takes for a name. *)
Definition candidates (name : string) (ms : list (string * string)) : list (string * string) :=
  List.filter (fun m => String.eqb (FoldJSONKey m.1) (FoldJSONKey name)) ms.

(** A name is present at most once, and under its own spelling. *)
Definition readable (name : string) (ms : list (string * string)) : Prop :=
  candidates name ms = [] \/ exists raw, candidates name ms = [(name, raw)].

Definition watches (watch : ClaimWatch) (name : string) : Prop := byFold watch !! FoldJSONKey name = Some name.

(** Every name of the watch is stored under its own fold. *)
Definition watch_ok (watch : ClaimWatch) : Prop := forall f n, byFold watch !! f = Some n -> f = FoldJSONKey n.

Lemma watchNames_spec names : forall m m', (forall f n, m !! f = Some n -> f = FoldJSONKey n) ->
  watchNames m names = Some m' ->
  m ⊆ m' /\ (forall f n, m' !! f = Some n -> f = FoldJSONKey n) /\ forall n, n ∈ names -> m' !! FoldJSONKey n = Some n.
Proof.
  induction names as [|n names IH]; intros m m' Hm; cbn.
  - intros [= <-]. split_and!; [done|exact Hm|]. intros n Hn. by apply elem_of_nil in Hn.
  - destruct (m !! FoldJSONKey n) as [?|] eqn:En; [done|]. intros E.
    assert (forall f n0, <[FoldJSONKey n := n]> m !! f = Some n0 -> f = FoldJSONKey n0) as Hm'.
    { intros f n0 [[<- <-]|[_ ?]]%lookup_insert_Some; [done|by apply Hm]. }
    destruct (IH _ _ Hm' E) as (Hs & Hok & Hn). split_and!; [|done|].
    + etrans; [by apply insert_subseteq|exact Hs].
    + intros n' [->|?]%elem_of_cons; [|by apply Hn]. eapply lookup_weaken; [|exact Hs]. by rewrite lookup_insert_eq.
Qed.

Lemma NewClaimWatch_spec names watch : NewClaimWatch names = Some watch ->
  watch_ok watch /\ forall n, n ∈ names -> watches watch n.
Proof.
  unfold NewClaimWatch. intros E. assert (mkWatch <$> watchNames ∅ names = Some watch) as E' by (by destruct names).
  apply fmap_Some in E' as (m & Em & ->). apply watchNames_spec in Em as (_ & Hok & Hn); [done|done].
Qed.

Lemma candidates_snoc name ms m :
  candidates name (ms ++ [m]) =
  (candidates name ms ++ (if String.eqb (FoldJSONKey m.1) (FoldJSONKey name) then [m] else []))%list.
Proof. unfold candidates. rewrite List.filter_app. cbn. by case_match. Qed.

(** What the scan knows after a prefix of the members. *)
Record scanned (watch : ClaimWatch) (ms : list (string * string)) (st : scanState) : Prop := mkScanned {
  sc_kept : forall n, watches watch n -> kept st !! n = head (candidates n ms);
  sc_names : forall n, is_Some (kept st !! n) -> watches watch n;
  sc_collided : forall n, n ∈ collided st -> collisions st <> [];
  sc_collisions : collisions st = [] <-> forall n, watches watch n -> (List.length (candidates n ms) <= 1)%nat;
  sc_variants : variants st = [] <-> forall n m, watches watch n -> head (candidates n ms) = Some m -> m.1 = n;
}.

Lemma watches_fold watch n n' : watches watch n -> watches watch n' -> FoldJSONKey n = FoldJSONKey n' -> n = n'.
Proof. unfold watches. intros H1 H2 E. rewrite E in H1. congruence. Qed.

Lemma scanMembers_spec watch ms : watch_ok watch -> scanned watch ms (scanMembers watch ms).
Proof.
  intros Hok. induction ms as [|m ms IH] using rev_ind.
  { split; cbn; try done.
    - by intros n [x Hx].
    - split; [|done]. intros _ n _. lia. }
  unfold scanMembers. rewrite fold_left_app. cbn [fold_left]. fold (scanMembers watch ms).
  set (st := scanMembers watch ms) in *. destruct IH as [Hk Hn Hcd Hc Hv]. unfold claimStep.
  destruct (byFold watch !! FoldJSONKey m.1) as [c|] eqn:Ec.
  2:{ assert (forall n, watches watch n -> candidates n (ms ++ [m]) = candidates n ms) as Hsame.
      { intros n Hw. rewrite candidates_snoc. destruct (String.eqb_spec (FoldJSONKey m.1) (FoldJSONKey n)) as [E|_]; [|by rewrite app_nil_r].
        unfold watches in Hw. congruence. }
      split; [|exact Hn|exact Hcd|rewrite Hc|rewrite Hv].
      - intros n Hw. by rewrite Hsame, Hk.
      - split; intros Hx n Hw; [rewrite Hsame|rewrite <- Hsame]; auto.
      - split; intros Hx n m' Hw Hh; apply Hx; auto; [by rewrite <- Hsame|by rewrite Hsame]. }
  pose proof (Hok _ _ Ec) as Ef. assert (watches watch c) as Hwc by (unfold watches; by rewrite <- Ef).
  assert (candidates c (ms ++ [m]) = (candidates c ms ++ [m])%list) as Hsnoc.
  { rewrite candidates_snoc. by rewrite (proj2 (String.eqb_eq _ _) Ef). }
  assert (forall n, watches watch n -> n <> c -> candidates n (ms ++ [m]) = candidates n ms) as Hsame.
  { intros n Hw Hne. rewrite candidates_snoc. destruct (String.eqb_spec (FoldJSONKey m.1) (FoldJSONKey n)) as [E|_]; [|by rewrite app_nil_r].
    exfalso. apply Hne. eapply watches_fold; [done..|congruence]. }
  pose proof (Hk c Hwc) as Hkc. destruct (kept st !! c) as [prior|] eqn:Ek.
  - destruct (candidates c ms) as [|x l] eqn:Ecand; [done|]. cbn in Hkc. injection Hkc as ->.
    assert (forall n, watches watch n -> kept st !! n = head (candidates n (ms ++ [m]))) as Hk'.
    { intros n Hw. destruct (decide (n = c)) as [->|Hne]; [by rewrite Hsnoc, Ek|]. by rewrite Hsame, Hk. }
    assert (exists n, watches watch n /\ (1 < List.length (candidates n (ms ++ [m])))%nat) as Hmany.
    { exists c. split; [done|]. rewrite Hsnoc. cbn. rewrite length_app. cbn. lia. }
    assert (variants st = [] <-> forall n m', watches watch n -> head (candidates n (ms ++ [m])) = Some m' -> m'.1 = n) as Hv'.
    { rewrite Hv. split; intros Hx n m' Hw Hh; apply Hx; auto; [rewrite <- Hk' in Hh by done; by rewrite <- Hk|by rewrite <- Hk', Hk]. }
    case_bool_decide as Hin; split; cbn [kept collided collisions variants]; try done.
    + pose proof (Hcd c Hin) as Hne. split; [done|]. intros Hx. destruct Hmany as (n & Hw & Hl). specialize (Hx n Hw). lia.
    + intros n Hx Hy. by apply app_nil in Hy as [_ ?].
    + split; [intros Hy; by apply app_nil in Hy as [_ ?]|]. intros Hx. destruct Hmany as (n & Hw & Hl). specialize (Hx n Hw). lia.
  - destruct (candidates c ms) as [|x l] eqn:Ecand; [|done].
    assert (forall n, watches watch n -> head (candidates n (ms ++ [m])) = if decide (n = c) then Some m else head (candidates n ms)) as Hh.
    { intros n Hw. destruct (decide (n = c)) as [->|Hne]; [by rewrite Hsnoc|by rewrite Hsame]. }
    split; cbn [kept collided collisions variants].
    + intros n Hw. rewrite Hh by done. destruct (decide (n = c)) as [->|Hne]; [by rewrite lookup_insert_eq|].
      by rewrite lookup_insert_ne, Hk.
    + intros n [->|?%Hn]%lookup_insert_is_Some'; done.
    + exact Hcd.
    + rewrite Hc. split; intros Hx n Hw; (destruct (decide (n = c)) as [->|Hne]; [|rewrite ?Hsame in * by done]).
      * rewrite Hsnoc. done.
      * by apply Hx.
      * rewrite Ecand. cbn. lia.
      * specialize (Hx n Hw). by rewrite Hsame in Hx.
    + assert (variants st = [] <-> forall n m', watches watch n -> n <> c -> head (candidates n ms) = Some m' -> m'.1 = n) as Hv'.
      { rewrite Hv. split; intros Hx n m' Hw; [intros _; by apply Hx|]. intros Hm. apply Hx; [done| |done]. intros ->. by rewrite Ecand in Hm. }
      destruct (String.eqb_spec m.1 c) as [Em|Em].
      * rewrite Hv'. split; intros Hx n m' Hw.
        -- rewrite Hh by done. destruct (decide (n = c)) as [->|Hne]; [by intros [= <-]|by apply Hx].
        -- intros Hne Hm. apply Hx; [done|]. rewrite Hh by done. by rewrite decide_False.
      * split; [intros Hy; by apply app_nil in Hy as [_ ?]|]. intros Hx. destruct Em. apply (Hx c m Hwc). rewrite Hh by done. by rewrite decide_True.
Qed.

(** What the findings of the scan name. *)
Lemma scan_findings watch ms : watch_ok watch ->
  (forall x, x ∈ collisions (scanMembers watch ms) -> watches watch x.2 /\ (1 < List.length (candidates x.2 ms))%nat) /\
  (forall v, v ∈ variants (scanMembers watch ms) ->
     watches watch v.2 /\ v.1 <> v.2 /\ exists raw, head (candidates v.2 ms) = Some (v.1, raw)).
Proof.
  intros Hok. induction ms as [|m ms [IHc IHv]] using rev_ind; [by split; intros ? ?%elem_of_nil|].
  pose proof (scanMembers_spec watch ms Hok) as [Hk _ _ _ _].
  assert (forall n, exists l, candidates n (ms ++ [m]) = (candidates n ms ++ l)%list) as Hgrow by (intros n; rewrite candidates_snoc; by eexists).
  assert (forall x, x ∈ collisions (scanMembers watch ms) -> watches watch x.2 /\ (1 < List.length (candidates x.2 (ms ++ [m])))%nat) as Hc'.
  { intros x [? ?]%IHc. split; [done|]. destruct (Hgrow x.2) as [l ->]. rewrite length_app. lia. }
  assert (forall v, v ∈ variants (scanMembers watch ms) ->
     watches watch v.2 /\ v.1 <> v.2 /\ exists raw, head (candidates v.2 (ms ++ [m])) = Some (v.1, raw)) as Hv'.
  { intros v (? & ? & raw & Hh)%IHv. split_and!; [done..|]. exists raw. destruct (Hgrow v.2) as [l ->].
    by destruct (candidates v.2 ms). }
  unfold scanMembers. rewrite fold_left_app. cbn [fold_left]. fold (scanMembers watch ms).
  set (st := scanMembers watch ms) in *. unfold claimStep.
  destruct (byFold watch !! FoldJSONKey m.1) as [c|] eqn:Ec; [|by split].
  pose proof (Hok _ _ Ec) as Ef. assert (watches watch c) as Hwc by (unfold watches; by rewrite <- Ef).
  assert (candidates c (ms ++ [m]) = (candidates c ms ++ [m])%list) as Hsnoc.
  { rewrite candidates_snoc. by rewrite (proj2 (String.eqb_eq _ _) Ef). }
  pose proof (Hk c Hwc) as Hkc. destruct (kept st !! c) as [prior|] eqn:Ek.
  - case_bool_decide; [by split|]. split; cbn [collisions variants]; [|exact Hv'].
    intros x [?|Hx]%elem_of_app; [by apply Hc'|]. apply list_elem_of_singleton in Hx as ->. cbn. split; [done|].
    rewrite Hsnoc. destruct (candidates c ms); [done|]. rewrite length_app. cbn. lia.
  - split; cbn [collisions variants]; [exact Hc'|]. destruct (String.eqb_spec m.1 c) as [?|Hne]; [exact Hv'|].
    intros v [?|Hx]%elem_of_app; [by apply Hv'|]. apply list_elem_of_singleton in Hx as ->. cbn. split_and!; [done..|].
    exists m.2. rewrite Hsnoc. destruct (candidates c ms); [|done]. cbn. by destruct m.
Qed.

(** ** Readers *)

(** Two readers of an object: one matches names byte for byte, one folds their case; each keeps
    the first or the last of the members it takes for the name. *)
Definition readFirst (hit : string -> bool) (ms : list (string * string)) : option string :=
  snd <$> List.find (fun kv => hit kv.1) ms.

Definition readLast (hit : string -> bool) (ms : list (string * string)) : option string := readFirst hit (rev ms).

Definition exactly (name : string) : string -> bool := fun k => String.eqb k name.
Definition folding (name : string) : string -> bool := fun k => EqualFold k name.

(** Every reader finds this. *)
Definition all_read (name : string) (ms : list (string * string)) (r : option string) : Prop :=
  forall hit, hit = exactly name \/ hit = folding name -> readFirst hit ms = r /\ readLast hit ms = r.

Lemma find_filter {A} (f : A -> bool) l : List.find f l = head (List.filter f l).
Proof. induction l as [|x l IH]; cbn; [done|]. by destruct (f x). Qed.

Lemma filter_rev {A} (f : A -> bool) (l : list A) : List.filter f (rev l) = rev (List.filter f l).
Proof.
  induction l as [|x l IH]; [done|]. cbn. rewrite List.filter_app, IH. cbn. destruct (f x); cbn; [done|by rewrite app_nil_r].
Qed.

Lemma filter_filter_le {A} (f g : A -> bool) (l : list A) : (forall x, f x = true -> g x = true) ->
  List.filter f l = List.filter f (List.filter g l).
Proof.
  intros H. induction l as [|x l IH]; [done|]. cbn. destruct (f x) eqn:Ef; [rewrite (H _ Ef); cbn; by rewrite Ef, IH|].
  destruct (g x); cbn; [by rewrite Ef|done].
Qed.

Context {UL : UnicodeLaws U}.

Lemma folding_iff name k : folding name k = String.eqb (FoldJSONKey k) (FoldJSONKey name).
Proof. apply eq_true_iff_eq. unfold folding. rewrite String.eqb_eq. symmetry. apply fold_iff. Qed.

Lemma candidates_folding name ms : candidates name ms = List.filter (fun kv => folding name kv.1) ms.
Proof. unfold candidates. apply List.filter_ext. intros m. symmetry. apply folding_iff. Qed.

Lemma readers_find name ms :
  readFirst (folding name) ms = snd <$> head (candidates name ms) /\
  readLast (folding name) ms = snd <$> head (rev (candidates name ms)) /\
  readFirst (exactly name) ms = snd <$> head (List.filter (fun kv => exactly name kv.1) (candidates name ms)) /\
  readLast (exactly name) ms = snd <$> head (rev (List.filter (fun kv => exactly name kv.1) (candidates name ms))).
Proof.
  unfold readLast, readFirst. rewrite !find_filter, !filter_rev, candidates_folding.
  rewrite <- (filter_filter_le (fun kv => exactly name kv.1) (fun kv => folding name kv.1)); [done|].
  intros [k v] E. unfold exactly in E. cbn in E. apply String.eqb_eq in E as ->.
  change (folding name name = true). rewrite folding_iff. apply String.eqb_refl.
Qed.

Lemma readable_alike name ms : readable name ms -> all_read name ms (snd <$> head (candidates name ms)).
Proof.
  destruct (readers_find name ms) as (H1 & H2 & H3 & H4). intros Hr hit [-> | ->].
  - rewrite H3, H4. destruct Hr as [->|[raw ->]]; [done|]. cbn. unfold exactly. by rewrite String.eqb_refl.
  - rewrite H1, H2. by destruct Hr as [->|[raw ->]].
Qed.

(** Only a member that is alone and under its own name is read alike by all. *)
Lemma alike_variant name ms : (List.length (candidates name ms) <= 1)%nat -> ~ readable name ms ->
  exists k raw, candidates name ms = [(k, raw)] /\ k <> name /\
    readFirst (exactly name) ms = None /\ readFirst (folding name) ms = Some raw.
Proof.
  intros Hl Hn. destruct (readers_find name ms) as (H1 & _ & H3 & _).
  destruct (candidates name ms) as [|[k raw] [|? ?]] eqn:Ec; [by destruct Hn; left| |cbn in Hl; lia].
  assert (k <> name) as Hne by (intros ->; destruct Hn; right; by exists raw).
  exists k, raw. split_and!; [done|done| |by rewrite H1]. rewrite H3. cbn. unfold exactly. by rewrite (proj2 (String.eqb_neq _ _) Hne).
Qed.

(** What is let through is read alike. *)
Lemma ClaimMembers_ok data watch out : watch_ok watch -> ClaimMembers data watch = Ok out ->
  exists ms, claimObjectMembers data = Ok ms /\ forall n, watches watch n -> readable n ms /\ all_read n ms (out !! n).
Proof.
  intros Hok. unfold ClaimMembers. destruct (claimObjectMembers data) as [ms|e]; cbn [rbind]; [|done].
  destruct (scanMembers_spec watch ms Hok) as [Hk _ _ Hc Hv]. destruct (scanMembers watch ms) as [kp cd [|? ?] [|? ?]]; cbn in *; try done.
  intros [= <-]. exists ms. split; [done|]. intros n Hwn. rewrite lookup_fmap, Hk by done.
  assert (readable n ms) as Hr; [|split; [done|by apply readable_alike]].
  pose proof (proj1 Hc eq_refl n Hwn) as Hl. pose proof (proj1 Hv eq_refl n) as Hspell.
  destruct (candidates n ms) as [|[k raw] [|? ?]] eqn:Ec; [by left| |cbn in Hl; lia].
  right. exists raw. rewrite Ec. f_equal. f_equal. exact (Hspell (k, raw) Hwn eq_refl).
Qed.

(** What the scan lets through is read alike by every decoder.  A claim object is accepted
    exactly when every watched name occurs at most once among its members, whatever the case,
    and under its own spelling; then a reader that matches names exactly and one that folds
    their case, each keeping the first or the last member, all find the value that the scan
    returns.  What is refused is no object, or holds two members for one name, or holds a name
    that one kind of reader finds and the other does not. *)
Theorem claims_read_alike names watch data : NewClaimWatch names = Some watch ->
  match ClaimMembers data watch with
  | Ok out => exists ms, claimObjectMembers data = Ok ms /\ forall n, n ∈ names -> readable n ms /\ all_read n ms (out !! n)
  | Err MalformedObject => claimObjectMembers data = Err MalformedObject
  | Err (ErrClaimNameCollision _ _) => exists ms n, claimObjectMembers data = Ok ms /\ watches watch n /\ (1 < List.length (candidates n ms))%nat
  | Err (ErrClaimNameVariant _) => exists ms n raw, claimObjectMembers data = Ok ms /\ watches watch n /\
      readFirst (exactly n) ms = None /\ readFirst (folding n) ms = Some raw
  end.
Proof.
  intros Hw. apply NewClaimWatch_spec in Hw as [Hok Hn]. destruct (ClaimMembers data watch) as [out|err] eqn:Er.
  { destruct (ClaimMembers_ok _ _ _ Hok Er) as (ms & Hms & Hall). exists ms. split; [done|]. intros n Hin. by apply Hall, Hn. }
  revert Er. unfold ClaimMembers. destruct (claimObjectMembers data) as [ms|e] eqn:Em; cbn [rbind].
  2:{ intros [= <-]. unfold claimObjectMembers in Em. destruct e; [done|..]; repeat case_match; done. }
  destruct (scanMembers_spec watch ms Hok) as [_ _ _ Hc _]. destruct (scanMembers watch ms) as [kp cd colls vars] eqn:Es. cbn in *.
  destruct colls as [|c colls].
  - destruct vars as [|v vars]; [done|]. intros [= <-]. cbn [claimNameError]. pose proof (proj1 Hc eq_refl) as Hone.
    destruct (proj2 (scan_findings watch ms Hok) v) as (Hwn & Hne & raw & Hh); [rewrite Es; by left|].
    destruct (alike_variant v.2 ms (Hone _ Hwn)) as (k1 & raw1 & _ & _ & ? & ?); [|by exists ms, v.2, raw1].
    intros [Hr|[r Hr]]; rewrite Hr in Hh; [done|]. cbn in Hh. congruence.
  - intros E. assert (err = ErrClaimNameCollision (c :: colls) vars) as -> by (destruct vars; by injection E as <-).
    destruct (proj1 (scan_findings watch ms Hok) c) as (Hwn & Hl); [rewrite Es; by left|]. by exists ms, c.2.
Qed.
End scan.
End ClaimScan.
