(* ===== verification/KeyCache.v ===== *)
(** * The cache of verification keys

    pkg/capability/jwkscache.go: the key set of the issuer, fetched over HTTP and cached for a
    time, with the budget that bounds forced refreshes, and the search for a key.

    A fetch is the response it gets ([fetchKeys] decides what of it is taken) or a refusal of
    the circuit breaker; the responses to come and the readings of the clock are part of the
    state ([KeyWorld]), in the order in which the code consumes them.  [refresh] is given as
    its critical sections, for several fetches that overlap, and as the operation of a caller
    that fetches alone.  The texts of errors are left out; the keys, their thumbprints, the
    digest of a key id and the parsing of URLs and addresses are parameters. *)
From stdpp Require Import base tactics list gmap strings sorting.
From Stdlib Require Import ZArith Lia Ascii String.
From S2P Require Import Prelude GoStrings GoPath Truncate CallCounter Capability CaseFold.
#[local] Open Scope Z_scope.
Import Truncate Capability CaseFold.

(** A key of go-jose: its RFC 7638 thumbprint, and the keys of a set under an id. *)
Class JWK (K : Type) := {
  Thumbprint : K -> option string;
  keysNamed : list K -> string -> list K;
}.

Class JWKLaws (K : Type) `{!JWK K} : Prop := {
  keysNamed_in ks kid k : k ∈ keysNamed ks kid -> k ∈ ks;
}.

Module KeyCache.

Definition MaxKIDBytes : Z := 256.
Definition negativeKIDTTL : duration := 30 * second.
Definition negativeKIDMaxLen : Z := 1024.
Definition maxJWKSKeys : Z := 100.
Definition sharedRefreshSentinel : string := "".

(** [CheckKIDLength]: the length of an id that is too long. *)
Definition CheckKIDLength (kid : string) : option Z :=
  let n := Z.of_nat (String.length kid) in if MaxKIDBytes <? n then Some n else None.

Section cache.
Context {K : Type} `{!JWK K}.

Definition FindKeys (jwks : option (list K)) (kid : string) : list K :=
  match jwks with
  | None => []
  | Some keys => if negb (String.eqb kid "") then keysNamed keys kid else keys
  end.

(** *** Comparing key sets *)

Fixpoint countUp (counts : gmap string Z) (keys : list K) : option (gmap string Z) :=
  match keys with
  | [] => Some counts
  | k :: keys => tp ← Thumbprint k; countUp (<[tp := default 0 (counts !! tp) + 1]> counts) keys
  end.

Fixpoint countDown (counts : gmap string Z) (keys : list K) : bool :=
  match keys with
  | [] => true
  | k :: keys =>
      match Thumbprint k with
      | None => false
      | Some tp =>
          let n := default 0 (counts !! tp) - 1 in
          if n <? 0 then false else countDown (<[tp := n]> counts) keys
      end
  end.

Definition sameKeyMultiset (before after : list K) : bool :=
  if negb (List.length before =? List.length after)%nat then false
  else match countUp ∅ before with None => false | Some counts => countDown counts after end.

Definition jwksKeysUnchanged (before after : option (list K)) : bool :=
  match before, after with
  | Some b, Some a => sameKeyMultiset b a
  | None, None => true
  | _, _ => false
  end.

(** *** Fetching *)

Section fetch.
Context `{U : Unicode} (ParseIPLoopback : string -> bool) (parseJWKS : string -> option (list K)).

Definition trimDot (host : string) : string :=
  match rev (list_ascii_of_string host) with
  | "."%char :: r => string_of_list_ascii (rev r)
  | _ => host
  end.

Definition IsLoopbackHost (host : string) : bool := EqualFold (trimDot host) "localhost" || ParseIPLoopback host.

(** The host and scheme of a URL. *)
Record location := mkLocation { Hostname : string; Scheme : string }.

(** The URL of the last request, the status, and the body unless reading it failed. *)
Record response := mkResponse { rsp_Request : option location; rsp_Status : Z; rsp_Body : option string }.

Definition refuseCrossOriginResponse (jwksURI : option location) (resp : response) : bool :=
  match rsp_Request resp, jwksURI with
  | Some got, Some want =>
      let sameHost := EqualFold (Hostname got) (Hostname want) || (IsLoopbackHost (Hostname got) && IsLoopbackHost (Hostname want)) in
      negb sameHost ||
      (String.eqb (Scheme want) "https" && negb (String.eqb (Scheme got) "https") &&
       (negb (IsLoopbackHost (Hostname got)) || negb (IsLoopbackHost (Hostname want))))
  | _, _ => true
  end.

(** The keys of a response, or that it is no usable key set; no response is a failed request. *)
Definition fetchKeys (jwksURI : option location) (resp : option response) : option (list K) :=
  resp ← resp;
  if refuseCrossOriginResponse jwksURI resp then None
  else if negb (rsp_Status resp =? 200) then None
  else
    body ← rsp_Body resp;
    keys ← parseJWKS (take_str (Z.to_nat (Z.shiftl 1 20)) body);
    if (List.length keys =? 0)%nat then None
    else if maxJWKSKeys <? Z.of_nat (List.length keys) then None
    else Some keys.
End fetch.

(** *** State *)

Record JWKSCache := mkJWKSCache {
  cacheTTL : duration;
  jwks : option (list K);
  fetchedAt : time;
  fetchTicket : Z;
  installedFetchGen : Z;
  negKIDs : gmap string time;
}.

Definition NewJWKSCache (ttl : duration) : JWKSCache :=
  mkJWKSCache (if ttl <=? 0 then 300 * second else ttl) None zero_time 0 0 ∅.

Definition set_neg (c : JWKSCache) (neg : gmap string time) : JWKSCache :=
  mkJWKSCache (cacheTTL c) (jwks c) (fetchedAt c) (fetchTicket c) (installedFetchGen c) neg.

Definition freshAt (c : JWKSCache) (now : time) : bool :=
  bool_decide (is_Some (jwks c)) && (time_sub now (fetchedAt c) <? cacheTTL c).

(** What a fetch meets: the breaker, or the keys it obtains. *)
Inductive attempt := Blocked | Fetched (keys : option (list K)).

Inductive key_error := KIDTooLong (n : Z) | ErrJWKSUnavailable (blocked : bool).

(** The critical sections of a fetch: taking a generation, and installing its result. *)
Definition beginFetch (c : JWKSCache) : Z * JWKSCache :=
  let gen := wrap_uint64 (fetchTicket c + 1) in
  (gen, mkJWKSCache (cacheTTL c) (jwks c) (fetchedAt c) gen (installedFetchGen c) (negKIDs c)).

Definition installs (c : JWKSCache) (myGen : Z) : bool := installedFetchGen c <? myGen.

(** The keys reported to the callers, and whether they differ from the replaced ones. *)
Definition finishFetch (c : JWKSCache) (myGen : Z) (fetched : list K) (now : time) : (list K * bool) * JWKSCache :=
  let before := jwks c in
  let '(resultKeys, c') :=
    if installs c myGen then
      (fetched, mkJWKSCache (cacheTTL c) (Some fetched) now (fetchTicket c) myGen (negKIDs c))
    else (default fetched (jwks c), c) in
  ((resultKeys, negb (jwksKeysUnchanged before (Some resultKeys))), c').

(** ** The operations *)

Record KeyWorld := mkWorld {
  kw_cache : JWKSCache;
  kw_clock : list time;
  kw_last : time;
  kw_attempts : list attempt;
}.

Definition with_cache (w : KeyWorld) (c : JWKSCache) : KeyWorld := mkWorld c (kw_clock w) (kw_last w) (kw_attempts w).

(** A reading of the clock, which stands still at the end of its script. *)
Definition sample (w : KeyWorld) : time * KeyWorld :=
  match kw_clock w with
  | [] => (kw_last w, w)
  | now :: clock => (now, mkWorld (kw_cache w) clock now (kw_attempts w))
  end.

Definition nextAttempt (w : KeyWorld) : attempt * KeyWorld :=
  match kw_attempts w with
  | [] => (Fetched None, w)
  | a :: attempts => (a, mkWorld (kw_cache w) (kw_clock w) (kw_last w) attempts)
  end.

Context (hashKey : string -> string).

Definition negKIDKey (kid : string) : string := hashKey kid.

Definition kidRecentlyAbsent (kid : string) (w : KeyWorld) : bool * KeyWorld :=
  let k := negKIDKey kid in
  match negKIDs (kw_cache w) !! k with
  | None => (false, w)
  | Some at1 =>
      let '(now, w) := sample w in
      if time_sub now at1 <? negativeKIDTTL then (true, w)
      else
        let '(now, w) := sample w in
        if time_sub now at1 <? negativeKIDTTL then (true, w)
        else (false, with_cache w (set_neg (kw_cache w) (delete k (negKIDs (kw_cache w)))))
  end.

Definition markKIDAbsent (kid : string) (w : KeyWorld) : KeyWorld :=
  let k := negKIDKey kid in
  let '(now, w) := sample w in
  let neg := filter (fun kv => time_sub now kv.2 < negativeKIDTTL) (negKIDs (kw_cache w)) in
  with_cache w (set_neg (kw_cache w)
    (match neg !! k with
     | Some _ => neg
     | None =>
         if negb (String.eqb kid sharedRefreshSentinel) && (negativeKIDMaxLen <=? Z.of_nat (size neg)) then neg
         else <[k := now]> neg
     end)).

(** The closure of a refresh that fetches; the clock is read when the set is installed. *)
Definition fetchInstall (w : KeyWorld) : result (list K * bool) key_error * KeyWorld :=
  let '(myGen, c) := beginFetch (kw_cache w) in
  let '(a, w) := nextAttempt (with_cache w c) in
  match a with
  | Blocked => (Err (ErrJWKSUnavailable true), w)
  | Fetched None => (Err (ErrJWKSUnavailable false), w)
  | Fetched (Some keys) =>
      let '(now, w) := if installs (kw_cache w) myGen then sample w else (kw_last w, w) in
      let '(res, c) := finishFetch (kw_cache w) myGen keys now in
      (Ok res, with_cache w c)
  end.

Definition cachedIfFresh (w : KeyWorld) : option (list K) * KeyWorld :=
  let '(now, w) := sample w in
  ((if freshAt (kw_cache w) now then jwks (kw_cache w) else None), w).

Definition refresh (force : bool) (w : KeyWorld) : result (list K * bool) key_error * KeyWorld :=
  if force then fetchInstall w
  else
    let '(cached, w) := cachedIfFresh w in
    match cached with
    | Some keys => (Ok (keys, false), w)
    | None =>
        let '(cached, w) := cachedIfFresh w in
        match cached with
        | Some keys => (Ok (keys, false), w)
        | None => fetchInstall w
        end
    end.

Definition getKeysLive (w : KeyWorld) : result (list K) key_error * KeyWorld :=
  let '(cached, w) := cachedIfFresh w in
  match cached with
  | Some keys => (Ok keys, w)
  | None =>
      let '(r, w) := refresh false w in
      (let* res := r in Ok (fst res), w)%go
  end.

Definition forceRefreshForVerifyLive (w : KeyWorld) : result (list K) key_error * KeyWorld :=
  let '(absent, w) := kidRecentlyAbsent sharedRefreshSentinel w in
  match (if absent then jwks (kw_cache w) else None) with
  | Some cached => (Ok cached, w)
  | None =>
      let '(r, w) := refresh true w in
      match r with
      | Err e => (Err e, w)
      | Ok (keys, changed) => (Ok keys, if changed then w else markKIDAbsent sharedRefreshSentinel w)
      end
  end.

Definition forceRefreshForKIDLive (kid : string) (w : KeyWorld) : result (list K) key_error * KeyWorld :=
  match CheckKIDLength kid with
  | Some n => (Err (KIDTooLong n), w)
  | None =>
      if String.eqb kid "" then forceRefreshForVerifyLive w
      else
        let '(absent, w) := kidRecentlyAbsent kid w in
        let '(absent, w) := if absent then (true, w) else kidRecentlyAbsent sharedRefreshSentinel w in
        match (if absent : bool then jwks (kw_cache w) else None) with
        | Some cached => (Ok cached, w)
        | None =>
            let '(r, w) := refresh true w in
            match r with
            | Err e => (Err e, w)
            | Ok (keys, changed) =>
                if (List.length (FindKeys (Some keys) kid) =? 0)%nat then
                  let w := markKIDAbsent kid w in
                  (Ok keys, if changed then w else markKIDAbsent sharedRefreshSentinel w)
                else (Ok keys, w)
            end
        end
  end.

(** ** Key sets as multisets of thumbprints *)

Definition occ (t : string) (ts : list string) : Z := Z.of_nat (count_occ string_dec ts t).

Lemma occ_cons t x ts : occ t (x :: ts) = ((if decide (x = t) then 1 else 0) + occ t ts)%Z.
Proof. unfold occ. cbn. destruct (string_dec x t), (decide (x = t)); congruence || lia. Qed.

Lemma countUp_spec keys : forall counts, match mapM Thumbprint keys with
  | None => countUp counts keys = None
  | Some ts => exists c, countUp counts keys = Some c /\ forall t, default 0 (c !! t) = default 0 (counts !! t) + occ t ts
  end.
Proof.
  induction keys as [|k keys IH]; intros counts; cbn.
  - exists counts. split; [done|]. intros t. unfold occ. cbn. lia.
  - destruct (Thumbprint k) as [tp|]; cbn; [|done]. specialize (IH (<[tp := default 0 (counts !! tp) + 1]> counts)).
    destruct (mapM Thumbprint keys) as [ts|]; cbn; [|done]. destruct IH as (c & -> & Hc). exists c. split; [done|]. intros t.
    rewrite Hc, occ_cons. destruct (decide (tp = t)) as [->|Hne]; [rewrite lookup_insert_eq; cbn; lia|by rewrite lookup_insert_ne].
Qed.

Lemma countDown_spec keys : forall counts, (forall t, 0 <= default 0 (counts !! t)) ->
  countDown counts keys = true <->
  exists ts, mapM Thumbprint keys = Some ts /\ forall t, occ t ts <= default 0 (counts !! t).
Proof.
  induction keys as [|k keys IH]; intros counts Hc; cbn.
  - split; [|done]. intros _. exists []. split; [done|]. intros t. unfold occ. cbn. apply Hc.
  - destruct (Thumbprint k) as [tp|]; cbn; [|split; [done|by intros (? & ? & ?)]].
    destruct (default 0 (counts !! tp) - 1 <? 0) eqn:Hn; bools.
    + split; [done|]. intros (ts & E & Ht). apply bind_Some in E as (ts' & _ & [= <-]).
      specialize (Ht tp). rewrite occ_cons, decide_True in Ht by done. unfold occ in Ht. lia.
    + rewrite IH; [|intros t; destruct (decide (tp = t)) as [->|?]; [rewrite lookup_insert_eq; cbn; lia|by rewrite lookup_insert_ne]].
      assert (forall ts, (forall t, occ t ts <= default 0 (<[tp := default 0 (counts !! tp) - 1]> counts !! t)) <->
                         (forall t, occ t (tp :: ts) <= default 0 (counts !! t))) as Hiff.
      { intros ts. split; intros Ht t; specialize (Ht t); rewrite ?occ_cons in *;
          (destruct (decide (tp = t)) as [->|?]; [rewrite lookup_insert_eq in *; cbn in *; lia|rewrite lookup_insert_ne in * by done; lia]). }
      split.
      * intros (ts & -> & Ht). exists (tp :: ts). split; [done|]. by apply Hiff.
      * intros (ts & E & Ht). apply bind_Some in E as (ts' & -> & [= <-]). exists ts'. split; [done|]. by apply Hiff.
Qed.

Lemma occ_permutation l1 : forall l2, (forall t, occ t l1 <= occ t l2) -> List.length l2 = List.length l1 -> l2 ≡ₚ l1.
Proof.
  induction l1 as [|x l1 IH]; intros l2 Ho Hl; [by apply nil_length_inv in Hl as ->|].
  assert (x ∈ l2) as Hx.
  { pose proof (Ho x) as Hx. rewrite occ_cons, decide_True in Hx by done. unfold occ in Hx.
    apply list_elem_of_In, (count_occ_In string_dec). lia. }
  apply elem_of_Permutation in Hx as [l2' Hp]. rewrite Hp. f_equiv. apply IH.
  - intros t. specialize (Ho t). unfold occ in *. rewrite (proj1 (Permutation_count_occ string_dec _ _) Hp) in Ho. cbn in Ho.
    destruct (string_dec x t); lia.
  - apply Permutation_length in Hp. cbn in *. lia.
Qed.

(** Two sets are the same exactly when every key has a thumbprint and the thumbprints agree
    with their multiplicities. *)
Lemma sameKeyMultiset_spec before after : sameKeyMultiset before after = true <->
  exists tb ta, mapM Thumbprint before = Some tb /\ mapM Thumbprint after = Some ta /\ tb ≡ₚ ta.
Proof.
  unfold sameKeyMultiset. pose proof (countUp_spec before ∅) as Hu.
  assert (forall l ts, mapM Thumbprint l = Some ts -> List.length ts = List.length l) as Hlen.
  { intros l ts E%length_mapM. done. }
  destruct (Nat.eqb_spec (List.length before) (List.length after)) as [Hl|Hl]; cbn [negb].
  - destruct (mapM Thumbprint before) as [tb|] eqn:Eb.
    2:{ rewrite Hu. split; [done|by intros (? & ? & ? & ?)]. }
    destruct Hu as (c & -> & Hc). setoid_rewrite lookup_empty in Hc. cbn in Hc.
    rewrite countDown_spec by (intros t; rewrite Hc; unfold occ; lia). setoid_rewrite Hc. split.
    + intros (ta & Ea & Ho). exists tb, ta. split_and!; [done..|]. apply occ_permutation; [done|].
      rewrite (Hlen _ _ Eb), (Hlen _ _ Ea). done.
    + intros (tb' & ta & [= <-] & Ea & Hp). exists ta. split; [done|]. intros t. unfold occ.
      rewrite (proj1 (Permutation_count_occ string_dec _ _) Hp). lia.
  - split; [done|]. intros (tb & ta & Eb & Ea & Hp%Permutation_length). rewrite (Hlen _ _ Eb), (Hlen _ _ Ea) in Hp. done.
Qed.

(** ** Where keys come from *)

(** The sets that the cache holds or a fetch to come obtains. *)
Definition held (w : KeyWorld) (keys : list K) : Prop :=
  jwks (kw_cache w) = Some keys \/ Fetched (Some keys) ∈ kw_attempts w.

(** A step of the cache: sets are never made up, the clock only goes on, and while the shared
    budget is charged at [t] it stays so until a reading shows that the window has passed. *)
Definition steady (w : KeyWorld) : Prop := Sorted Z.le (kw_last w :: kw_clock w).

Definition charged (t : time) (w : KeyWorld) : Prop :=
  negKIDs (kw_cache w) !! negKIDKey sharedRefreshSentinel = Some t /\ is_Some (jwks (kw_cache w)).

Definition lapsed (t : time) (w : KeyWorld) : Prop := t + negativeKIDTTL <= kw_last w.

Definition within (c : JWKSCache) : Prop :=
  Z.of_nat (size (delete (negKIDKey sharedRefreshSentinel) (negKIDs c))) <= negativeKIDMaxLen.

Record advances (w w' : KeyWorld) : Prop := mkAdvances {
  ad_held : forall keys, held w' keys -> held w keys;
  ad_clock : steady w -> steady w' /\ kw_last w <= kw_last w';
  ad_charged : forall t, steady w -> charged t w \/ lapsed t w -> charged t w' \/ lapsed t w';
  ad_within : within (kw_cache w) -> within (kw_cache w');
  ad_fetched : steady w -> fetchedAt (kw_cache w) <= kw_last w -> fetchedAt (kw_cache w') <= kw_last w';
}.

#[export] Instance advances_preorder : PreOrder advances.
Proof.
  split.
  - intros w. split; auto. intros. split; [done|lia].
  - intros a b c [H1 H2 H3 H4 H5] [G1 G2 G3 G4 G5]. split; auto.
    + intros Hs. destruct (H2 Hs) as [Hs' ?]. destruct (G2 Hs'). split; [done|lia].
    + intros t Hs Hc. apply G3; [by apply H2|]. by apply H3.
    + intros Hs Hf. apply G5; [by apply H2|]. by apply H5.
Qed.

Lemma lapsed_later t w w' : kw_last w <= kw_last w' -> lapsed t w -> lapsed t w'.
Proof. unfold lapsed. lia. Qed.

Lemma sample_spec w now w' : sample w = (now, w') ->
  advances w w' /\ kw_cache w' = kw_cache w /\ kw_attempts w' = kw_attempts w /\ kw_last w' = now.
Proof.
  unfold sample. destruct w as [c [|t clock] last atts]; cbn; intros [= <- <-]; cbn; (split; [|done]).
  - done.
  - split; cbn; [done| |intros u Hs|done|intros Hs].
    + intros [Hs Hh]%Sorted_inv. cbn in *. split; [done|]. by inversion Hh.
    + apply Sorted_inv in Hs as [_ Hh]. cbn in Hh. inversion Hh; subst. intros [?|?]; [by left|right]. unfold lapsed in *. cbn in *. lia.
    + apply Sorted_inv in Hs as [_ Hh]. cbn in Hh. inversion Hh; subst. lia.
Qed.

(** The same, for a step that only changes the cache. *)
Lemma advances_cache w c : (forall keys, jwks c = Some keys -> held w keys) ->
  (forall t, charged t w -> negKIDs c !! negKIDKey sharedRefreshSentinel = Some t /\ is_Some (jwks c) \/ lapsed t w) ->
  (within (kw_cache w) -> within c) -> fetchedAt c = fetchedAt (kw_cache w) -> advances w (with_cache w c).
Proof.
  intros Hh Hc Hw Hf. split; cbn; [|intros; split; [done|cbn; lia]| |done|by rewrite Hf].
  - intros keys [Hk|Hk]; cbn in Hk; [by apply Hh|by right].
  - intros t _ [?|?]; [|by right]. by apply Hc.
Qed.

Lemma ttl_lapsed now at1 : (time_sub now at1 <? negativeKIDTTL) = false -> at1 + negativeKIDTTL <= now.
Proof. intros H. bools. apply time_sub_ge in H; unfold negativeKIDTTL, second, max_int64, two63 in *; lia. Qed.

Lemma delete_within c k : within c -> within (set_neg c (delete k (negKIDs c))).
Proof.
  unfold within. cbn. rewrite delete_delete. intros H. etrans; [|exact H].
  apply Nat2Z.inj_le, map_subseteq_size, delete_subseteq.
Qed.

Lemma kidRecentlyAbsent_spec kid w b w' : kidRecentlyAbsent kid w = (b, w') ->
  advances w w' /\ kw_attempts w' = kw_attempts w /\ jwks (kw_cache w') = jwks (kw_cache w) /\
  fetchTicket (kw_cache w') = fetchTicket (kw_cache w) /\
  (b = false -> negKIDs (kw_cache w') !! negKIDKey kid = None) /\
  (b = false -> forall t, negKIDs (kw_cache w) !! negKIDKey kid = Some t -> lapsed t w').
Proof.
  unfold kidRecentlyAbsent. destruct (negKIDs (kw_cache w) !! negKIDKey kid) as [at1|] eqn:En; [|by intros [= <- <-]].
  destruct (sample w) as [now w1] eqn:E1. apply sample_spec in E1 as (Ha1 & Hc1 & Ht1 & <-).
  destruct (time_sub (kw_last w1) at1 <? negativeKIDTTL) eqn:Ef; [intros [= <- <-]; split_and!; congruence|].
  destruct (sample w1) as [now w2] eqn:E2. apply sample_spec in E2 as (Ha2 & Hc2 & Ht2 & <-).
  destruct (time_sub (kw_last w2) at1 <? negativeKIDTTL) eqn:Ef2;
    [intros [= <- <-]; rewrite Hc2, Ht2; split_and!; try congruence; by etrans|].
  intros [= <- <-]. apply ttl_lapsed in Ef2. assert (kw_cache w2 = kw_cache w) as Hc by congruence.
  assert (advances w2 (with_cache w2 (set_neg (kw_cache w2) (delete (negKIDKey kid) (negKIDs (kw_cache w2)))))) as Ha3.
  { apply advances_cache; cbn; [intros keys Hk; by left | |apply delete_within|done].
    intros t [Ht Hs]. destruct (decide (negKIDKey kid = negKIDKey sharedRefreshSentinel)) as [Ek|Hne].
    - right. rewrite <- Ek, Hc, En in Ht. injection Ht as ->. done.
    - left. by rewrite lookup_delete_ne. }
  cbn. split_and!; [etrans; [exact Ha1|]; by etrans | congruence | congruence | congruence | intros _; apply lookup_delete_eq |].
  intros _ t [= <-]. exact Ef2.
Qed.

Lemma markKIDAbsent_spec kid w w' : markKIDAbsent kid w = w' ->
  advances w w' /\ kw_attempts w' = kw_attempts w /\ jwks (kw_cache w') = jwks (kw_cache w) /\
  fetchTicket (kw_cache w') = fetchTicket (kw_cache w) /\
  (kid = sharedRefreshSentinel -> negKIDs (kw_cache w) !! negKIDKey sharedRefreshSentinel = None ->
   negKIDs (kw_cache w') !! negKIDKey sharedRefreshSentinel = Some (kw_last w')) /\
  (negKIDKey kid <> negKIDKey sharedRefreshSentinel -> negKIDs (kw_cache w) !! negKIDKey sharedRefreshSentinel = None ->
   negKIDs (kw_cache w') !! negKIDKey sharedRefreshSentinel = None).
Proof.
  unfold markKIDAbsent. destruct (sample w) as [now w1] eqn:E1. apply sample_spec in E1 as (Ha1 & Hc1 & Ht1 & <-). intros <-.
  set (neg := filter _ _). set (sk := negKIDKey sharedRefreshSentinel) in *.
  assert (neg ⊆ negKIDs (kw_cache w1)) as Hsub by apply map_filter_subseteq.
  assert (forall t, negKIDs (kw_cache w1) !! sk = Some t -> neg !! sk = Some t \/ lapsed t w1) as Hsk.
  { intros t Ht. destruct (time_sub (kw_last w1) t <? negativeKIDTTL) eqn:Ef; [left|right; by apply ttl_lapsed].
    apply map_lookup_filter_Some. split; [done|]. cbn. by bools. }
  assert (within (kw_cache w1) -> Z.of_nat (size (delete sk neg)) <= negativeKIDMaxLen) as Hwn.
  { unfold within. intros H. etrans; [|exact H]. apply Nat2Z.inj_le, map_subseteq_size. by apply delete_mono. }
  cbn. split_and!; [|done|congruence|congruence| |].
  - etrans; [exact Ha1|]. apply advances_cache; cbn; [intros keys Hk; by left| | |done].
    + intros t [Ht Hs]. destruct (Hsk t Ht) as [Hx|?]; [left|by right]. split; [|done].
      destruct (neg !! negKIDKey kid) as [?|] eqn:En; [done|]. case_match; [done|].
      destruct (decide (negKIDKey kid = sk)) as [Ek|?]; [rewrite Ek in En; congruence|by rewrite lookup_insert_ne].
    + intros Hw. specialize (Hwn Hw). unfold within. cbn. fold sk. destruct (neg !! negKIDKey kid) as [?|] eqn:En; [done|].
      destruct (negb (String.eqb kid sharedRefreshSentinel) && (negativeKIDMaxLen <=? Z.of_nat (size neg))) eqn:Ec; [done|].
      destruct (decide (negKIDKey kid = sk)) as [Ek|Hne]; [by rewrite Ek, delete_insert_eq|].
      apply andb_false_iff in Ec as [Ec|Ec]; bools; [subst kid; done|].
      rewrite delete_insert_ne by done. rewrite map_size_insert.
      pose proof (map_subseteq_size (delete sk neg) neg (delete_subseteq _ _)).
      destruct (delete sk neg !! negKIDKey kid); unfold id; lia.
  - intros -> Hn. change (negKIDKey sharedRefreshSentinel) with sk.
    assert (neg !! sk = None) as -> by (apply map_lookup_filter_None; left; congruence). cbn. by rewrite lookup_insert_eq.
  - intros Hne Hn. assert (neg !! sk = None) as Hx by (apply map_lookup_filter_None; left; congruence).
    destruct (neg !! negKIDKey kid) as [?|]; [done|]. case_match; [done|]. by rewrite lookup_insert_ne.
Qed.

Lemma fetchInstall_spec w r w' : fetchInstall w = (r, w') ->
  advances w w' /\ negKIDs (kw_cache w') = negKIDs (kw_cache w) /\
  match r with
  | Ok (keys, changed) => held w keys /\ changed = negb (jwksKeysUnchanged (jwks (kw_cache w)) (Some keys)) /\
      (is_Some (jwks (kw_cache w)) -> is_Some (jwks (kw_cache w')))
  | Err e => exists b, e = ErrJWKSUnavailable b
  end.
Proof.
  unfold fetchInstall, beginFetch, nextAttempt. set (c := mkJWKSCache _ _ _ _ _ _). cbn [with_cache kw_attempts kw_cache kw_clock kw_last].
  assert (advances w (with_cache w c)) as Hc by (apply advances_cache; cbn; [intros keys ?; by left | intros t Ht; by left | done | done]).
  destruct (kw_attempts w) as [|a atts] eqn:Ea.
  { intros E. injection E as <- <-. split_and!; [done|done|by eexists]. }
  set (w1 := mkWorld c (kw_clock w) (kw_last w) atts).
  assert (advances w w1) as H1.
  { etrans; [exact Hc|]. split; cbn; [|intros; split; [done|lia]|done|done|done].
    intros keys [?|?]; [by left|right]. cbn. rewrite Ea. by right. }
  destruct a as [|[keys|]].
  { intros E. injection E as <- <-. split_and!; [done|done|by eexists]. }
  2:{ intros E. injection E as <- <-. split_and!; [done|done|by eexists]. }
  assert (forall now w2, (if installs (kw_cache w1) (fetchTicket c) then sample w1 else (kw_last w1, w1)) = (now, w2) ->
    advances w1 w2 /\ kw_cache w2 = kw_cache w1 /\ kw_last w2 = now) as Hread.
  { intros now w2. destruct (installs _ _); [by intros (? & ? & _ & ?)%sample_spec|by intros [= <- <-]]. }
  match goal with |- context [let '(_, _) := if ?b then _ else _ in _] => destruct (if b then sample w1 else (kw_last w1, w1)) as [now w2] eqn:E2 end.
  apply Hread in E2 as (H2 & Hc2 & <-). clear Hread. cbn in Hc2. rewrite Hc2.
  assert (advances w w2) as H12 by (etrans; [exact H1|exact H2]). clear H1 H2.
  unfold finishFetch. cbn [jwks c]. assert (held w keys) as Hnew by (right; rewrite Ea; by left).
  destruct (installs _ _); intros E; injection E as <- <-; cbn.
  - split_and!; [|done|done|done|by eexists]. destruct H12 as [A1 A2 A3 A4 _]. split; cbn; [| |intros t Hs|by rewrite Hc2 in A4|done].
    + intros ks [Hk|Hk]; cbn in Hk; [by injection Hk as <-|]. apply A1. by right.
    + intros Hs. by apply A2.
    + intros Hch. destruct (A3 t Hs Hch) as [[Ht Hj]|?]; [left|by right]. rewrite Hc2 in Ht. by split; cbn.
  - split_and!; [|done| |done|done].
    + assert (with_cache w2 c = w2) as -> by (rewrite <- Hc2; by destruct w2). done.
    + destruct (jwks (kw_cache w)) eqn:Ej; [by left|done].
Qed.

Lemma cachedIfFresh_spec w o w' : cachedIfFresh w = (o, w') ->
  advances w w' /\ kw_cache w' = kw_cache w /\ (forall keys, o = Some keys -> jwks (kw_cache w) = Some keys).
Proof.
  unfold cachedIfFresh. destruct (sample w) as [now w1] eqn:E. apply sample_spec in E as (? & Hc & _). intros [= <- <-].
  split_and!; [done|done|]. intros keys. rewrite Hc. by destruct (freshAt _ _).
Qed.

Lemma refresh_spec force w r w' : refresh force w = (r, w') ->
  advances w w' /\ (forall keys ch, r = Ok (keys, ch) -> held w keys) /\ (forall e, r = Err e -> exists b, e = ErrJWKSUnavailable b).
Proof.
  assert (forall w r w', fetchInstall w = (r, w') -> advances w w' /\ (forall keys ch, r = Ok (keys, ch) -> held w keys) /\
    (forall e, r = Err e -> exists b, e = ErrJWKSUnavailable b)) as Hf.
  { intros ? ? ? (? & _ & Hr)%fetchInstall_spec. split_and!; [done|intros keys ch ->; by destruct Hr as [? _]|intros e ->; exact Hr]. }
  unfold refresh. destruct force; [by apply Hf|].
  destruct (cachedIfFresh w) as [o1 w1] eqn:E1. apply cachedIfFresh_spec in E1 as (H1 & _ & Hk1).
  destruct o1 as [k1|]; [intros [= <- <-]; split_and!; [done|intros ? ? [= <- <-]; left; by apply Hk1|done]|].
  destruct (cachedIfFresh w1) as [o2 w2] eqn:E2. apply cachedIfFresh_spec in E2 as (H2 & _ & Hk2).
  destruct o2 as [k2|].
  - intros [= <- <-]. split_and!; [by etrans|intros ? ? [= <- <-]|done]. apply (ad_held _ _ H1). left. by apply Hk2.
  - intros (H3 & Hk & He)%Hf. split_and!; [etrans; [exact H1|]; by etrans| |done]. intros keys ch Hr.
    apply (ad_held _ _ H1), (ad_held _ _ H2). by eapply Hk.
Qed.

Lemma getKeysLive_spec w r w' : getKeysLive w = (r, w') ->
  advances w w' /\ (forall keys, r = Ok keys -> held w keys) /\ (forall e, r = Err e -> exists b, e = ErrJWKSUnavailable b).
Proof.
  unfold getKeysLive. destruct (cachedIfFresh w) as [o1 w1] eqn:E1. apply cachedIfFresh_spec in E1 as (H1 & _ & Hk1).
  destruct o1 as [k1|]; [intros [= <- <-]; split_and!; [done|intros ? [= <-]; left; by apply Hk1|done]|].
  destruct (refresh false w1) as [res w2] eqn:E2. apply refresh_spec in E2 as (H2 & Hk2 & He). intros [= <- <-].
  split_and!; [by etrans|..]; destruct res as [[k ch]|e]; cbn; try done; [intros ? [= <-]|intros ? [= <-]; by apply He].
  apply (ad_held _ _ H1). by eapply Hk2.
Qed.

(** What a forced refresh did: whether it began a fetch, and whether it charged the budget. *)
Record forced (kid : string) (w w' : KeyWorld) (r : result (list K) key_error) : Prop := mkForced {
  fo_advances : advances w w';
  fo_held : forall keys, r = Ok keys -> held w keys;
  fo_errors : forall e, r = Err e -> (exists b, e = ErrJWKSUnavailable b) \/ exists n, e = KIDTooLong n;
  fo_budget : forall t, steady w -> charged t w \/ lapsed t w -> fetchTicket (kw_cache w') <> fetchTicket (kw_cache w) -> lapsed t w';
  fo_charges : forall keys, fetchTicket (kw_cache w') <> fetchTicket (kw_cache w) -> r = Ok keys ->
    jwksKeysUnchanged (jwks (kw_cache w)) (Some keys) = true ->
    kid = "" \/ (FindKeys (Some keys) kid = [] /\ negKIDKey kid <> negKIDKey sharedRefreshSentinel) ->
    charged (kw_last w') w';
}.

Lemma lapsed_advances t w w' : advances w w' -> steady w -> lapsed t w -> lapsed t w'.
Proof. intros [_ Hc _ _ _] Hs. apply lapsed_later. by apply Hc. Qed.

Lemma unchanged_some before keys : jwksKeysUnchanged before (Some keys) = true -> is_Some before.
Proof. by destruct before. Qed.

Lemma forVerify_spec w r w' : forceRefreshForVerifyLive w = (r, w') -> forced "" w w' r.
Proof.
  unfold forceRefreshForVerifyLive. destruct (kidRecentlyAbsent sharedRefreshSentinel w) as [absent w1] eqn:E1.
  apply kidRecentlyAbsent_spec in E1 as (H1 & Ha1 & Hj1 & Ht1 & Hn1 & Hl1).
  destruct (if absent then jwks (kw_cache w1) else None) as [cached|] eqn:Ec.
  { intros [= <- <-]. destruct absent; [|done]. split; try done.
    - intros keys [= <-]. left. congruence. }
  unfold refresh. destruct (fetchInstall w1) as [res w2] eqn:E2. apply fetchInstall_spec in E2 as (H2 & Hn2 & Hres).
  assert (forall t, steady w -> charged t w \/ lapsed t w -> lapsed t w2) as Hb.
  { intros t Hs [[Ht Hj]|?]; [|by eapply lapsed_advances; [|done|]; [by etrans|]].
    destruct absent; [destruct Hj as [? Hj]; congruence|]. eapply lapsed_advances; [exact H2|by apply H1|]. by apply Hl1. }
  destruct res as [[keys changed]|e].
  2:{ intros [= <- <-]. destruct Hres as [b ->]. split; try done; [by etrans|intros ? [= <-]; left; by eexists|by intros t ? ? _; apply Hb]. }
  destruct Hres as (Hk & Hch & Hs2). intros E. injection E as <- Ew. destruct changed.
  - subst w'. split; try done; [by etrans|intros ? [= <-]; by apply (ad_held _ _ H1)|by intros t ? ? _; apply Hb|].
    intros ? _ [= <-] Hun. rewrite Hj1, Hun in Hch. done.
  - destruct (markKIDAbsent_spec _ _ _ Ew) as (H3 & _ & Hj3 & _ & Hm & _).
    split; [etrans; [exact H1|]; by etrans|intros ? [= <-]; by apply (ad_held _ _ H1)|done| |].
    + intros t Hs Hc _. eapply lapsed_advances; [exact H3| |by apply Hb]. apply H2. by apply H1.
    + intros ? _ [= <-] Hun _. apply unchanged_some in Hun. split; [|rewrite Hj3; apply Hs2; by rewrite Hj1].
      apply Hm; [done|]. rewrite Hn2. apply Hn1. destruct absent; [|done]. rewrite Hj1 in Ec. rewrite Ec in Hun. by destruct Hun.
Qed.

(** The two-stage check of an unknown id. *)
Lemma budget_spec kid w w1 w2 a b : kidRecentlyAbsent kid w = (a, w1) ->
  (if a then (true, w1) else kidRecentlyAbsent sharedRefreshSentinel w1) = (b, w2) ->
  advances w w2 /\ jwks (kw_cache w2) = jwks (kw_cache w) /\ fetchTicket (kw_cache w2) = fetchTicket (kw_cache w) /\
  (b = false -> negKIDs (kw_cache w2) !! negKIDKey sharedRefreshSentinel = None) /\
  (b = false -> forall t, steady w -> charged t w \/ lapsed t w -> lapsed t w2).
Proof.
  intros E1 E2. apply kidRecentlyAbsent_spec in E1 as (H1 & _ & Hj1 & Ht1 & _ & _). destruct a; [by injection E2 as <- <-; split_and!|].
  apply kidRecentlyAbsent_spec in E2 as (H2 & _ & Hj2 & Ht2 & Hn2 & Hl2). split_and!; [by etrans|congruence|congruence|done|].
  intros Hb t Hs Hc. destruct (ad_charged _ _ H1 t Hs Hc) as [[Ht _]|Hl]; [by apply Hl2|].
  eapply lapsed_advances; [exact H2|by apply H1|done].
Qed.

Lemma forKID_spec kid w r w' : forceRefreshForKIDLive kid w = (r, w') -> forced kid w w' r.
Proof.
  unfold forceRefreshForKIDLive. destruct (CheckKIDLength kid) as [n|].
  { intros [= <- <-]. split; try done. intros ? [= <-]. right. by eexists. }
  destruct (String.eqb_spec kid "") as [->|Hne]; [apply forVerify_spec|].
  destruct (kidRecentlyAbsent kid w) as [a w0] eqn:E0. destruct (if a then _ else _) as [absent w1] eqn:E1.
  destruct (budget_spec _ _ _ _ _ _ E0 E1) as (H1 & Hj1 & Ht1 & Hn1 & Hl1). clear E0 E1.
  destruct (if absent then jwks (kw_cache w1) else None) as [cached|] eqn:Ec.
  { intros [= <- <-]. destruct absent; [|done]. split; try done. intros keys [= <-]. left. congruence. }
  unfold refresh. destruct (fetchInstall w1) as [res w2] eqn:E2. apply fetchInstall_spec in E2 as (H2 & Hn2 & Hres).
  assert (forall t w', advances w2 w' -> steady w -> charged t w \/ lapsed t w -> lapsed t w') as Hb.
  { intros t w3 H3 Hs Hc. eapply lapsed_advances; [exact H3|by apply H2, H1|]. destruct absent.
    - destruct (ad_charged _ _ H1 t Hs Hc) as [[_ [? Hj]]|Hl]; [congruence|]. eapply lapsed_advances; [exact H2|by apply H1|done].
    - eapply lapsed_advances; [exact H2|by apply H1|]. by apply Hl1. }
  destruct res as [[keys changed]|e].
  2:{ intros [= <- <-]. destruct Hres as [b ->]. split; try done; [by etrans|intros ? [= <-]; left; by eexists|by intros t ? ? _; eapply Hb]. }
  destruct Hres as (Hk & Hch & Hs2). set (w3 := markKIDAbsent kid w2). destruct (markKIDAbsent_spec kid w2 w3 eq_refl) as (H3 & _ & Hj3 & _ & _ & Hm3).
  destruct (Nat.eqb_spec (List.length (FindKeys (Some keys) kid)) 0) as [Hnone|Hfound].
  2:{ intros [= <- <-]. split; try done; [by etrans|intros ? [= <-]; by apply (ad_held _ _ H1)|by intros t ? ? _; eapply Hb|].
      intros ? _ [= <-] _ [?|[Hx _]]; [done|]. rewrite Hx in Hfound. done. }
  destruct changed; intros E; injection E as <- <-.
  - split; try done; [etrans; [exact H1|]; by etrans|intros ? [= <-]; by apply (ad_held _ _ H1)|by intros t ? ? _; eapply Hb|].
    intros ? _ [= <-] Hun. rewrite Hj1, Hun in Hch. done.
  - set (w4 := markKIDAbsent sharedRefreshSentinel w3). destruct (markKIDAbsent_spec _ w3 w4 eq_refl) as (H4 & _ & Hj4 & _ & Hm4 & _).
    assert (advances w2 w4) as H24 by by etrans.
    split; [etrans; [exact H1|]; by etrans|intros ? [= <-]; by apply (ad_held _ _ H1)|done|by intros t ? ? _; eapply Hb|].
    intros ? _ [= <-] Hun [?|[_ Hhash]]; [done|]. apply unchanged_some in Hun. split; [|rewrite Hj4, Hj3; apply Hs2; by rewrite Hj1].
    apply Hm4; [done|]. apply Hm3; [done|]. rewrite Hn2. apply Hn1. destruct absent; [|done].
    rewrite Hj1 in Ec. rewrite Ec in Hun. by destruct Hun.
Qed.

(** ** Runs *)

(** What a verification asks of the cache: its keys, or a refresh for an id (empty for a token
    without one). *)
Inductive key_op := OpKeys | OpForce (kid : string).

Definition key_step (w : KeyWorld) (o : key_op) : result (list K) key_error * KeyWorld :=
  match o with OpKeys => getKeysLive w | OpForce kid => forceRefreshForKIDLive kid w end.

Definition key_run (w : KeyWorld) (ops : list key_op) : KeyWorld := fold_left (fun w o => snd (key_step w o)) ops w.

Lemma key_step_spec w o r w' : key_step w o = (r, w') -> advances w w' /\ forall keys, r = Ok keys -> held w keys.
Proof. destruct o; cbn; [intros (? & ? & _)%getKeysLive_spec | intros []%forKID_spec]; done. Qed.

Lemma key_run_advances ops : forall w, advances w (key_run w ops).
Proof.
  induction ops as [|o ops IH]; intros w; [done|]. cbn. destruct (key_step w o) as [r w1] eqn:E. apply key_step_spec in E as [H _].
  cbn. etrans; [exact H|apply IH].
Qed.

(** C19: A flood of tokens cannot drive a flood of fetches.  Once a forced refresh has fetched the
    set that was already there, for a token without an id or with one that set lacks, then,
    whatever is asked of the cache in between, no forced refresh for any id fetches again
    until thirty seconds of the clock have passed; and the memory of absent ids never holds
    more than 1025 of them. *)
Theorem forced_fetches_spaced kid w keys w1 ops kid' r' w' :
  steady w -> within (kw_cache w) ->
  forceRefreshForKIDLive kid w = (Ok keys, w1) -> fetchTicket (kw_cache w1) <> fetchTicket (kw_cache w) ->
  jwksKeysUnchanged (jwks (kw_cache w)) (Some keys) = true ->
  kid = "" \/ (FindKeys (Some keys) kid = [] /\ negKIDKey kid <> negKIDKey sharedRefreshSentinel) ->
  let w2 := key_run w1 ops in
  forceRefreshForKIDLive kid' w2 = (r', w') ->
  (fetchTicket (kw_cache w') <> fetchTicket (kw_cache w2) -> kw_last w1 + negativeKIDTTL <= kw_last w') /\
  Z.of_nat (size (negKIDs (kw_cache w'))) <= negativeKIDMaxLen + 1.
Proof.
  cbv zeta. intros Hs Hw E1 Hf Hu Hk E2. apply forKID_spec in E1 as [H1 _ _ _ Hc]. specialize (Hc keys Hf eq_refl Hu Hk).
  pose proof (key_run_advances ops w1) as H2. apply forKID_spec in E2 as [H3 _ _ Hb _]. split.
  - intros Hfetch. apply (Hb (kw_last w1)); [by apply H2, H1| |done]. apply (ad_charged _ _ H2); [by apply H1|by left].
  - assert (within (kw_cache w')) as Hin by (by apply H3, H2, H1). unfold within in Hin.
    pose proof (map_size_delete (negKIDKey sharedRefreshSentinel) (negKIDs (kw_cache w'))) as Hsz. rewrite Hsz in Hin.
    destruct (negKIDs (kw_cache w') !! _); unfold id in Hin; lia.
Qed.

(** ** Fetches that overlap *)

(** A cache with the fetches in flight, and those that have finished, newest first. *)
Inductive overlap (ttl : duration) : JWKSCache -> list Z -> list (Z * list K) -> Prop :=
| overlap_new : overlap ttl (NewJWKSCache ttl) [] []
| overlap_begin c flying done : overlap ttl c flying done -> fetchTicket c + 1 < two64 ->
    overlap ttl (snd (beginFetch c)) (fst (beginFetch c) :: flying) done
| overlap_fail c flying done gen flying' : overlap ttl c flying done -> flying ≡ₚ gen :: flying' -> overlap ttl c flying' done
| overlap_finish c flying done gen flying' keys now : overlap ttl c flying done -> flying ≡ₚ gen :: flying' ->
    overlap ttl (snd (finishFetch c gen keys now)) flying' ((gen, keys) :: done)
| overlap_neg c flying done neg : overlap ttl c flying done -> overlap ttl (set_neg c neg) flying done.

Record ordered (c : JWKSCache) (flying : list Z) (done : list (Z * list K)) : Prop := mkOrdered {
  or_ticket : 0 <= fetchTicket c < two64;
  or_gens : NoDup (flying ++ map fst done);
  or_bound : forall g, g ∈ flying ++ map fst done -> 0 < g <= fetchTicket c;
  or_installed : match jwks c with
    | None => done = [] /\ installedFetchGen c = 0
    | Some keys => (installedFetchGen c, keys) ∈ done /\ forall g keys', (g, keys') ∈ done -> g <= installedFetchGen c
    end;
}.

Lemma overlap_ordered ttl c flying done : overlap ttl c flying done -> ordered c flying done.
Proof.
  induction 1 as [|c fl dn _ [Ht Hn Hb Hi] Hlt|c fl dn gen fl' _ [Ht Hn Hb Hi] Hp|c fl dn gen fl' keys now _ [Ht Hn Hb Hi] Hp|c fl dn neg _ []].
  - split; cbn; [unfold two64; lia|constructor|by intros ? ?%elem_of_nil|done].
  - assert (wrap_uint64 (fetchTicket c + 1) = fetchTicket c + 1) as Hw by (apply wrap_uint64_id; lia).
    split; cbn; rewrite ?Hw; [lia| | |done].
    + constructor; [|done]. intros Hin%Hb. lia.
    + intros g [->|Hg%Hb]%elem_of_cons; lia.
  - split; [done| | |done].
    + rewrite Hp in Hn. by apply NoDup_cons in Hn as [_ ?].
    + intros g Hg. apply Hb. apply elem_of_app in Hg. apply elem_of_app. rewrite Hp. destruct Hg; [left; by right|by right].
  - rewrite Hp in Hn. assert (forall g, g ∈ (gen :: fl') ++ map fst dn -> 0 < g <= fetchTicket c) as Hb2.
    { intros g Hg. apply Hb. by rewrite Hp. }
    clear Hb. rename Hb2 into Hb. assert (0 < gen <= fetchTicket c) as Hgen by (apply Hb; by left).
    assert (NoDup (fl' ++ map fst ((gen, keys) :: dn))) as Hn'.
    { cbn. rewrite <- Permutation_middle. done. }
    assert (forall g, g ∈ fl' ++ map fst ((gen, keys) :: dn) -> 0 < g <= fetchTicket c) as Hb'.
    { intros g. cbn. rewrite <- Permutation_middle. apply Hb. }
    assert (forall g keys', (g, keys') ∈ dn -> g <> gen) as Hfresh.
    { intros g keys' Hin ->. apply NoDup_cons in Hn as [Hn _]. apply Hn, elem_of_app. right. apply (list_elem_of_fmap_2 fst dn _ Hin). }
    unfold finishFetch, installs. destruct (installedFetchGen c <? gen) eqn:Eg; bools; cbn [snd]; (split; [done|done|done|]); cbn [jwks installedFetchGen].
    + split; [by left|]. intros g keys' [[= -> ->]|Hin]%elem_of_cons; [lia|]. destruct (jwks c); [|destruct Hi as [-> _]; by apply elem_of_nil in Hin].
      destruct Hi as [_ Hi]. specialize (Hi _ _ Hin). lia.
    + destruct (jwks c) as [ks|].
      * destruct Hi as [Hin Hmax]. split; [by right|]. intros g keys' [[= -> ->]|Hin']%elem_of_cons; [lia|by eapply Hmax].
      * destruct Hi as [_ Hi]. lia.
  - done.
Qed.

(** C18: A slow fetch cannot bring a withdrawn key back.  However fetches overlap, fail and finish
    out of order, the set in the cache is that of the finished fetch that began last: a fetch
    that began before it and finishes after it is dropped, and its callers are given the
    installed set. *)
Theorem newest_fetch_installed ttl c flying done : overlap ttl c flying done ->
  match jwks c with
  | None => done = []
  | Some keys =>
      exists gen, (gen, keys) ∈ done /\ (forall g keys', (g, keys') ∈ done -> g <= gen) /\
        forall g late now, g ∈ flying -> g < gen ->
          finishFetch c g late now = ((keys, negb (jwksKeysUnchanged (Some keys) (Some keys))), c)
  end.
Proof.
  intros [_ _ _ Hi]%overlap_ordered. destruct (jwks c) as [keys|] eqn:Ej; [|by destruct Hi].
  destruct Hi as [Hin Hmax]. exists (installedFetchGen c). split_and!; [done|done|]. intros g late now _ Hlt.
  unfold finishFetch, installs. rewrite (proj2 (Z.ltb_ge _ _)) by lia. by rewrite Ej.
Qed.
End cache.
End KeyCache.
