(* ===== verification/KeyRotation.v ===== *)
(** * Verification under rotating keys

    pkg/capability/jwks.go: which keys of the issuer a token is tried against, and when a
    failure forces a refresh of the key set ([VerifyWithKeyRotation]).

    The source of the keys is an interface ([KeySource]), which the cache of KeyCache.v
    implements; the verifier of one key is an argument that may change the state. *)
From stdpp Require Import base tactics list gmap strings.
From Stdlib Require Import ZArith Lia Ascii String.
From S2P Require Import Prelude GoStrings KillSwitch KeyCache.
#[local] Open Scope Z_scope.
Import KeyCache.

(** What a verification asks of the world: keys, as they are cached or after a forced refresh,
    and the time. *)
Class KeySource (W K : Type) := {
  ks_getKeys : W -> result (list K) key_error * W;
  ks_forKID : string -> W -> result (list K) key_error * W;
  ks_forVerify : W -> result (list K) key_error * W;
  ks_now : W -> time * W;
}.

Module KeyRotation.

Definition DefaultTokenLeeway : duration := 10 * second.
Definition EffectiveLeeway (configured : duration) : duration := KillSwitch.Resolve configured DefaultTokenLeeway.

(** [CandidateKIDs] of the ids of a token's headers: the distinct ones, or the length of one
    that is too long. *)
Inductive kids_error := LongKID (n : Z) | NoHeaders.

Fixpoint candidatesFrom (seen : list string) (headers : list string) : result (list string) kids_error :=
  match headers with
  | [] => Ok []
  | kid :: headers =>
      if bool_decide (kid ∈ seen) then candidatesFrom seen headers
      else
        match CheckKIDLength kid with
        | Some n => Err (LongKID n)
        | None => (let* kids := candidatesFrom (kid :: seen) headers in Ok (kid :: kids))%go
        end
  end.

Definition CandidateKIDs (headers : list string) : result (list string) kids_error :=
  match candidatesFrom [] headers with
  | Ok [] => Err NoHeaders
  | r => r
  end.

Section rotation.
Context {K : Type} `{!JWK K} {W : Type} `{!KeySource W K}.

(** A result, and an error of the verifier. *)
Context {R V : Type}.

(** What a verifier says about one key: neither a result nor an error is its own fault. *)
Inductive verdict := Verified (r : R) | TerminalFault (e : V) | SignatureFault (e : V) | NoVerdict.

Inductive rotation_error :=
| TokenFault (e : V)
| TooLong (n : Z)
| BrokenVerifier
| FetchJWKS (e : key_error)
| RefreshJWKS (e : key_error)
| NoMatchingKey (kid : string)
| VerifySignature (refresh : option key_error) (lastErr : option V)
| NoKIDs.

(** The errors marked [Terminal]. *)
Definition is_terminal (e : rotation_error) : bool :=
  match e with TokenFault _ | TooLong _ | BrokenVerifier => true | _ => false end.

Context (verify : K -> bool -> W -> verdict * W).

Inductive tried := TriedResult (r : R) | TriedTerminal (e : rotation_error) | TriedAll (lastSig : option V).

(** The keys of one set in turn; only the first is told that the set is fresh. *)
Fixpoint tryKeys (candidateKeys : list K) (freshKeySet : bool) (lastSig : option V) (w : W) : tried * W :=
  match candidateKeys with
  | [] => (TriedAll lastSig, w)
  | key :: keys =>
      let '(v, w) := verify key freshKeySet w in
      match v with
      | Verified r => (TriedResult r, w)
      | TerminalFault e => (TriedTerminal (TokenFault e), w)
      | SignatureFault e => tryKeys keys false (Some e) w
      | NoVerdict => (TriedTerminal BrokenVerifier, w)
      end
  end.

(** The keys of the cached set, or of a refreshed one if it has none for the id, and whether
    that refresh was forced. *)
Definition selectKeys (kid : string) (w : W) : result (list K * bool) rotation_error * W :=
  let '(r, w) := ks_getKeys w in
  match r with
  | Err e => (Err (FetchJWKS e), w)
  | Ok keys =>
      match FindKeys (Some keys) kid with
      | [] =>
          let '(r, w) := ks_forKID kid w in
          match r with
          | Err e => (Err (RefreshJWKS e), w)
          | Ok keys =>
              match FindKeys (Some keys) kid with
              | [] => (Err (NoMatchingKey kid), w)
              | matchingKeys => (Ok (matchingKeys, true), w)
              end
          end
      | matchingKeys => (Ok (matchingKeys, false), w)
      end
  end.

(** One more forced refresh after every key failed, and a retry if the set differs. *)
Definition retry (kid : string) (matchingKeys : list K) (lastErr : option V) (w : W) : result R rotation_error * W :=
  let '(r, w) := ks_forVerify w in
  match r with
  | Err e => (Err (VerifySignature (Some e) lastErr), w)
  | Ok refreshed =>
      let retryKeys := FindKeys (Some refreshed) kid in
      if sameKeyMultiset matchingKeys retryKeys then (Err (VerifySignature None lastErr), w)
      else
        let '(t, w) := tryKeys retryKeys true None w in
        match t with
        | TriedTerminal e => (Err e, w)
        | TriedResult r => (Ok r, w)
        | TriedAll lastSig => (Err (VerifySignature None (match lastSig with Some e => Some e | None => lastErr end)), w)
        end
  end.

Definition VerifyWithKeyRotation (kid : string) (w : W) : result R rotation_error * W :=
  match CheckKIDLength kid with
  | Some n => (Err (TooLong n), w)
  | None =>
      let '(sel, w) := selectKeys kid w in
      match sel with
      | Err e => (Err e, w)
      | Ok (matchingKeys, refreshedForKid) =>
          let '(t, w) := tryKeys matchingKeys refreshedForKid None w in
          match t with
          | TriedTerminal e => (Err e, w)
          | TriedResult r => (Ok r, w)
          | TriedAll lastErr =>
              if String.eqb kid "" || negb refreshedForKid then retry kid matchingKeys lastErr w
              else (Err (VerifySignature None lastErr), w)
          end
      end
  end.

Fixpoint verifyKIDs (kids : list string) (lastErr : rotation_error) (w : W) : result R rotation_error * W :=
  match kids with
  | [] => (Err lastErr, w)
  | kid :: kids =>
      let '(r, w) := VerifyWithKeyRotation kid w in
      match r with
      | Ok res => (Ok res, w)
      | Err e => if is_terminal e then (Err e, w) else verifyKIDs kids e w
      end
  end.

Definition VerifyWithKeyRotationMultiKID (kids : list string) (w : W) : result R rotation_error * W :=
  verifyKIDs kids NoKIDs w.

(** ** What a verification ends in

    [start] holds before the keys are asked for, [synced] when they may be tried, and [stale]
    after a forced refresh, when the next key must be tried as one of a fresh set. *)
Context (start synced stale : W -> Prop) (served : K -> Prop) (accepts : R -> W -> Prop) (rejects : V -> W -> Prop).

Definition keys_served (r : result (list K) key_error) : Prop := forall keys, r = Ok keys -> forall k, k ∈ keys -> served k.

Record tame : Prop := mkTame {
  tm_getKeys w r w' : start w -> ks_getKeys w = (r, w') -> synced w' /\ keys_served r;
  tm_forKID kid w r w' : synced w -> ks_forKID kid w = (r, w') -> stale w' /\ keys_served r;
  tm_forVerify w r w' : synced w -> ks_forVerify w = (r, w') -> stale w' /\ keys_served r;
  tm_stale w : synced w -> stale w;
  tm_verify key fresh w v w' : served key -> (if fresh : bool then stale w else synced w) -> verify key fresh w = (v, w') ->
    match v with
    | Verified r => accepts r w'
    | TerminalFault e => rejects e w'
    | SignatureFault _ | NoVerdict => synced w'
    end;
}.

Context (Htame : tame) {Hjwk : JWKLaws K}.

Lemma FindKeys_in keys kid k : k ∈ FindKeys (Some keys) kid -> k ∈ keys.
Proof. cbn. case_match; [apply keysNamed_in|done]. Qed.

Definition tried_ok (t : tried) (w : W) : Prop :=
  match t with
  | TriedResult r => accepts r w
  | TriedTerminal (TokenFault e) => rejects e w
  | TriedTerminal _ | TriedAll _ => stale w
  end.

Lemma tryKeys_spec keys : forall fresh last w t w', (forall k, k ∈ keys -> served k) ->
  (if fresh : bool then stale w else synced w) -> tryKeys keys fresh last w = (t, w') ->
  tried_ok t w' /\ (keys <> [] \/ fresh = false -> (exists l, t = TriedAll l) -> synced w').
Proof.
  induction keys as [|k keys IH]; intros fresh last w t w' Hk Hw; cbn.
  - intros [= <- <-]. split; [|by intros [?| ->]]. cbn. destruct fresh; [done|by apply (tm_stale Htame)].
  - destruct (verify k fresh w) as [v w1] eqn:Ev. apply (tm_verify Htame) in Ev; [|apply Hk; by left|done].
    destruct v as [r|e|e|]; try (intros [= <- <-]; split; [|by intros _ []]; cbn; [exact Ev || by apply (tm_stale Htame)]).
    intros Ht. apply (IH false) in Ht as [? Hs]; [|intros ? ?; apply Hk; by right|done]. split; [done|]. intros _. apply Hs. by right.
Qed.

Definition ends (r : result R rotation_error) (w : W) : Prop :=
  match r with
  | Ok res => accepts res w
  | Err (TokenFault e) => rejects e w
  | Err _ => stale w
  end.

Lemma tried_ends t w : tried_ok t w -> match t with
  | TriedResult r => ends (Ok r) w
  | TriedTerminal e => ends (Err e) w
  | TriedAll _ => stale w
  end.
Proof. by destruct t as [|[]|]. Qed.

Lemma selectKeys_spec kid w sel w' : start w -> selectKeys kid w = (sel, w') ->
  match sel with
  | Err e => is_terminal e = false /\ stale w'
  | Ok (keys, refreshed) => keys <> [] /\ (forall k, k ∈ keys -> served k) /\ if refreshed : bool then stale w' else synced w'
  end.
Proof.
  intros Hw. unfold selectKeys. destruct (ks_getKeys w) as [r w1] eqn:E1. apply (tm_getKeys Htame) in E1 as [H1 Hs1]; [|done].
  destruct r as [keys|e]; [|intros [= <- <-]; split; [done|by apply (tm_stale Htame)]].
  destruct (FindKeys (Some keys) kid) as [|k l] eqn:Ek.
  2:{ intros [= <- <-]. split_and!; [done| |done]. intros k' Hin. apply (Hs1 keys eq_refl), (FindKeys_in keys kid). by rewrite Ek. }
  destruct (ks_forKID kid w1) as [r2 w2] eqn:E2. apply (tm_forKID Htame) in E2 as [H2 Hs2]; [|done].
  destruct r2 as [keys2|e]; [|by intros [= <- <-]]. destruct (FindKeys (Some keys2) kid) as [|k l] eqn:Ek2; [by intros [= <- <-]|].
  intros [= <- <-]. split_and!; [done| |done]. intros k' Hin. apply (Hs2 keys2 eq_refl), (FindKeys_in keys2 kid). by rewrite Ek2.
Qed.

(** A verification under one id ends in a verdict of the verifier about a key that the source
    served, or refuses. *)
Lemma rotation_spec kid w r w' : start w -> VerifyWithKeyRotation kid w = (r, w') ->
  (start w' /\ exists n, r = Err (TooLong n)) \/ ends r w'.
Proof.
  intros Hw. unfold VerifyWithKeyRotation. destruct (CheckKIDLength kid) as [n|]; [intros [= <- <-]; left; split; [done|by exists n]|]. intros E. right. revert E.
  destruct (selectKeys kid w) as [sel w1] eqn:E1. apply selectKeys_spec in E1; [|done].
  destruct sel as [[keys refreshed]|e]; [|destruct E1 as [Ht ?]; intros [= <- <-]; by destruct e].
  destruct E1 as (Hne & Hk & Hs). destruct (tryKeys keys refreshed None w1) as [t w2] eqn:E2.
  apply tryKeys_spec in E2 as [Ht Hsync]; [|done..]. pose proof (tried_ends _ _ Ht) as He.
  destruct t as [res|e|lastErr]; [by intros [= <- <-]..|].
  destruct (String.eqb kid "" || negb refreshed); [|by intros [= <- <-]]. specialize (Hsync (or_introl Hne) (ex_intro _ _ eq_refl)).
  unfold retry. destruct (ks_forVerify w2) as [r3 w3] eqn:E3. apply (tm_forVerify Htame) in E3 as [H3 Hs3]; [|done].
  destruct r3 as [refreshedKeys|e]; [|by intros [= <- <-]]. destruct (sameKeyMultiset _ _); [by intros [= <- <-]|].
  destruct (tryKeys _ true None w3) as [t4 w4] eqn:E4. apply tryKeys_spec in E4 as [Ht4 _];
    [|intros k ?%FindKeys_in; by eapply Hs3|done]. apply tried_ends in Ht4. destruct t4; by intros [= <- <-].
Qed.
End rotation.

(** The cache of KeyCache.v as the source. *)
Definition keyworld_source {K} `{!JWK K} (hashKey : string -> string) : KeySource KeyWorld K := {|
  ks_getKeys := getKeysLive;
  ks_forKID := forceRefreshForKIDLive hashKey;
  ks_forVerify := forceRefreshForVerifyLive hashKey;
  ks_now := sample;
|}.

Arguments verdict : clear implicits.
Arguments rotation_error : clear implicits.
End KeyRotation.
