(* ===== verification/TokenValidation.v ===== *)
(** * Validation of bearer tokens

    ValidateToken of internal/pdp/jwt.go with the two caches of jwt_cache.go: from an
    Authorization header to the claims that decisions read.

    The library of tokens (go-jose) is an interface: the ids in the header of a token, the
    verification of its signature under a key, its byte-exact decode of the payload into the
    registered claims and the [mcp] block, and the checks of the registered claims.  Base64 and
    encoding/json are those of the standard library.  An error is its category and what it
    wraps; the texts are left out.  The keys and the clock are those of KeyRotation.v. *)
From stdpp Require Import base tactics list gmap strings.
From Stdlib Require Import ZArith Lia Ascii String.
From S2P Require Import Prelude GoStrings GoPath Truncate CallCounter Glob Capability CaseFold Selection.
From S2P Require Import Anchor Backends Engine KillSwitch SurfacePin ManifestPDP ArgumentPath ArgumentHandlers JSON KeyScan ToolSurface ListFilter.
From S2P Require Import TokenClaims PayloadCache ClaimScan KeyCache KeyRotation.
#[local] Open Scope string_scope.
#[local] Open Scope go_scope.
#[local] Open Scope Z_scope.
Import GoPath Truncate Capability CaseFold ManifestPDP JSON TokenClaims ClaimScan KeyCache KeyRotation.

(** The registered claims; the instants are in seconds. *)
Record stdClaims := mkStd {
  std_Issuer : string;
  std_Subject : string;
  std_ID : string;
  std_Audience : list string;
  std_Expiry : option Z;
  std_NotBefore : option Z;
  std_IssuedAt : option Z;
}.

Record mcpClaimSet := mkMCP {
  mcp_Version : string;
  mcp_Capabilities : option (list string);
  mcp_TaskID : string;
  mcp_AgentID : string;
}.

Inductive std_error := ErrExpired | ErrNotValidYet | ErrIssuedInTheFuture | ErrInvalidAudience | ErrInvalidClaims.

(** go-jose, on the text of a token.  A failing signature may be a failure of the cryptography
    or another one; an empty list of audiences asks for none. *)
Class Jose (K : Type) := {
  ParseSigned : string -> option (list string);
  SignatureFailure : string -> K -> option bool;
  UnsafeClaims : string -> option (stdClaims * mcpClaimSet);
  ValidateWithLeeway : stdClaims -> time -> list string -> duration -> option std_error;
}.

Module TokenValidation.

(** ** Base64 *)

Definition base64_digit (c : ascii) : option Z :=
  let b := byte_val c in
  if in_range 65 90 b then Some (b - 65)
  else if in_range 97 122 b then Some (b - 71)
  else if in_range 48 57 b then Some (b + 4)
  else if Ascii.eqb c "-" then Some 62
  else if Ascii.eqb c "_" then Some 63
  else None.

Definition byte_of (z : Z) : ascii := ascii_of_nat (Z.to_nat (z mod 256)).

(** Four digits are three bytes; two or three at the end are one or two bytes. *)
Fixpoint base64_groups (ds : list Z) : option string :=
  match ds with
  | [] => Some ""
  | a :: b :: c :: d :: rest =>
      r ← base64_groups rest;
      Some (String (byte_of (a * 4 + b / 16)) (String (byte_of (b * 16 + c / 4)) (String (byte_of (c * 64 + d)) r)))
  | [a; b; c] => Some (String (byte_of (a * 4 + b / 16)) (String (byte_of (b * 16 + c / 4)) ""))
  | [a; b] => Some (String (byte_of (a * 4 + b / 16)) "")
  | [_] => None
  end.

Definition is_newline (c : ascii) : bool := (byte_val c =? 10) || (byte_val c =? 13).

(** [base64.RawURLEncoding.DecodeString], which skips line ends. *)
Definition RawURLDecode (s : string) : option string :=
  ds ← mapM base64_digit (List.filter (fun c => negb (is_newline c)) (list_ascii_of_string s));
  base64_groups ds.

(** ** Categories of failures *)

Definition jwtErrMalformedHeader := "malformed_authorization_header".
Definition jwtErrMalformedToken := "malformed_token".
Definition jwtErrSignature := "invalid_signature".
Definition jwtErrExpired := "expired".
Definition jwtErrNotYetValid := "not_yet_valid".
Definition jwtErrIssuedInFuture := "issued_in_future".
Definition jwtErrInvalidAudience := "invalid_audience".
Definition jwtErrInvalidIssuer := "invalid_issuer".
Definition jwtErrMissingClaims := "missing_claims".
Definition jwtErrUnsupportedVersion := "unsupported_version".
Definition jwtErrCapabilitiesDisabled := "capabilities_disabled".
Definition jwtErrInvalidCapabilities := "invalid_capabilities".
Definition jwtErrAmbiguousClaims := "ambiguous_claims".
Definition jwtErrNonCanonicalClaim := "non_canonical_claim".
Definition jwtErrSenderConstrained := "sender_constrained".
Definition jwtErrJWKSUnavailable := "jwks_unavailable".
Definition jwtErrUnknown := "invalid".

(** A fault of one verification: tagged with its category, one of the library's checks, or the
    signature. *)
Inductive claim_fault := Tagged (code : string) | StdInvalid (e : std_error) | BadSignature (crypto : bool).

Inductive token_error := Untokened (code : string) | Rotation (e : rotation_error claim_fault).

Definition classifyFault (f : claim_fault) : string :=
  match f with
  | Tagged code => code
  | StdInvalid ErrExpired => jwtErrExpired
  | StdInvalid ErrNotValidYet => jwtErrNotYetValid
  | StdInvalid ErrIssuedInTheFuture => jwtErrIssuedInFuture
  | StdInvalid ErrInvalidAudience => jwtErrInvalidAudience
  | StdInvalid ErrInvalidClaims => jwtErrUnknown
  | BadSignature true => jwtErrSignature
  | BadSignature false => jwtErrUnknown
  end.

Definition classifyKeys (e : key_error) : string :=
  match e with ErrJWKSUnavailable _ => jwtErrJWKSUnavailable | KIDTooLong _ => jwtErrUnknown end.

Definition ClassifyJWTError (err : option token_error) : string :=
  match err with
  | None => ""
  | Some (Untokened code) => code
  | Some (Rotation e) =>
      match e with
      | TokenFault f => classifyFault f
      | FetchJWKS e | RefreshJWKS e => classifyKeys e
      | VerifySignature _ (Some f) => classifyFault f
      | _ => jwtErrUnknown
      end
  end.

Definition memoizableJWTRefusals : list string :=
  [jwtErrMalformedToken; jwtErrAmbiguousClaims; jwtErrNonCanonicalClaim; jwtErrMissingClaims; jwtErrUnsupportedVersion;
   jwtErrCapabilitiesDisabled; jwtErrInvalidCapabilities; jwtErrSenderConstrained; jwtErrInvalidAudience; jwtErrInvalidIssuer].

Definition memoizableRefusal (err : token_error) (signatureVerified : bool) : bool :=
  signatureVerified && one_of (ClassifyJWTError (Some err)) memoizableJWTRefusals.

(** ** Decoded claims *)

(** A value as maps and slices hold it: of a repeated name the last member is kept. *)
Fixpoint lastWins {A} (ms : list (string * A)) : list (string * A) :=
  match ms with
  | [] => []
  | (k, v) :: ms => if existsb (fun kv => String.eqb (fst kv) k) ms then lastWins ms else (k, v) :: lastWins ms
  end.

Fixpoint goValue (v : value) : value :=
  match v with
  | VObject ms => VObject (lastWins (map (fun kv => (fst kv, goValue (snd kv))) ms))
  | VArray l => VArray (map goValue l)
  | v => v
  end.

Definition goMap (ms : list (string * value)) : gmap string value :=
  list_to_map (lastWins (map (fun kv => (fst kv, goValue (snd kv))) ms)).

Definition jwtPayloadSegment (tokenStr : string) : option string :=
  match split_char "." tokenStr with
  | [_; payload; _] => RawURLDecode payload
  | _ => None
  end.

Definition decodeJWTClaimsPreservingNumbers (payloadBytes : string) : option (gmap string value) :=
  match document payloadBytes with
  | Some (VObject ms) => Some (goMap ms)
  | _ => None
  end.

Definition mcpClaimVersion : string := "0.2".
Definition topLevelClaimMCP : string := "mcp".
Definition topLevelClaimCnf : string := "cnf".
Definition mcpMemberCapabilities : string := "capabilities".

Definition watchedTopLevelClaims : list string :=
  [topLevelClaimMCP; "sub"; "iss"; "aud"; "jti"; "exp"; "nbf"; "iat"; topLevelClaimCnf].
Definition watchedMCPMembers : list string := ["v"; mcpMemberCapabilities; "task_id"; "agent_id"].

Definition claimScanErrCode (e : claim_scan_error) : string :=
  match e with
  | ErrClaimNameVariant _ => jwtErrNonCanonicalClaim
  | ErrClaimNameCollision _ _ => jwtErrAmbiguousClaims
  | MalformedObject => jwtErrMalformedToken
  end.

Definition jsonNullMember (raw : string) : bool := String.eqb raw "null".

(** ** The validator *)

Record validated := mkValidated { v_claims : JWTClaims; v_ExpiresAt : time }.

Definition jwtTokenCacheTTL : duration := 30 * second.
Definition jwtTokenCacheMaxSize : Z := 4096.
Definition jwtRefusalCacheTTL : duration := 30 * second.
Definition jwtRefusalCacheMaxSize : Z := jwtTokenCacheMaxSize.

(** The copy is the value itself. *)
Definition newJWTPayloadCache (T : Type) (ttl : duration) (maxSize : Z) : PayloadCache.PayloadCache (T := T) :=
  PayloadCache.NewPayloadCache (PayloadCache.mkConfig ttl maxSize (Some (fun v => Some v))).

Definition newJWTTokenCache : PayloadCache.PayloadCache (T := validated) :=
  newJWTPayloadCache validated jwtTokenCacheTTL jwtTokenCacheMaxSize.
Definition newJWTRefusalCache : PayloadCache.PayloadCache (T := token_error) :=
  newJWTPayloadCache token_error jwtRefusalCacheTTL jwtRefusalCacheMaxSize.

(** The options that validation reads. *)
Record ValidatorOptions := mkOptions {
  o_Issuer : string;
  o_Audience : string;
  o_AllowAnyAudience : bool;
  o_AcceptedAudiences : list string;
  o_AllowAnyIssuer : bool;
  o_Leeway : duration;
  o_ExperimentalCapabilities : bool;
}.

Record Validator := mkValidator {
  issuer : string;
  audience : string;
  allowAnyAudience : bool;
  acceptedAudiences : list string;
  allowAnyIssuer : bool;
  leeway : duration;
  experimentalCapabilities : bool;
  tokenCache : option (PayloadCache.PayloadCache (T := validated));
  refusalCache : option (PayloadCache.PayloadCache (T := token_error));
}.

Definition normalizeAudience (aud : string) : string := if String.eqb (TrimSpace aud) "" then "" else aud.

Definition sanitizeAudiences (auds : list string) : list string :=
  List.filter (fun a => negb (String.eqb (TrimSpace a) "")) auds.

(** [NewJWTPDP], and [NewJWTPDPWithCache], which leaves both caches out. *)
Definition newValidator (opts : ValidatorOptions) (shared : bool) : Validator :=
  mkValidator (o_Issuer opts) (normalizeAudience (o_Audience opts)) (o_AllowAnyAudience opts)
    (sanitizeAudiences (o_AcceptedAudiences opts)) (o_AllowAnyIssuer opts) (EffectiveLeeway (o_Leeway opts))
    (o_ExperimentalCapabilities opts)
    (if shared then Some newJWTTokenCache else None) (if shared then Some newJWTRefusalCache else None).

Definition with_caches (p : Validator) (tc : option (PayloadCache.PayloadCache (T := validated)))
    (rc : option (PayloadCache.PayloadCache (T := token_error))) : Validator :=
  mkValidator (issuer p) (audience p) (allowAnyAudience p) (acceptedAudiences p) (allowAnyIssuer p) (leeway p)
    (experimentalCapabilities p) tc rc.

Section validation.
Context `{U : Unicode} {K : Type} `{!Jose K}.

(** The two watch lists, which the program builds when it starts. *)
Context (topLevelClaimWatch mcpMemberWatch : ClaimWatch).

(** The members of the [mcp] block, unless the payload has none; or the category of a refusal. *)
Definition rejectUnreadableClaimNames (payloadBytes : string) : result (option (gmap string string)) string :=
  match ClaimMembers payloadBytes topLevelClaimWatch with
  | Err e => Err (claimScanErrCode e)
  | Ok top =>
      match top !! topLevelClaimMCP with
      | None => Ok None
      | Some mcpBytes =>
          match ClaimMembers mcpBytes mcpMemberWatch with
          | Err e => Err (claimScanErrCode e)
          | Ok members => Ok (Some members)
          end
      end
  end.

Definition readTokenPayload (tokenStr : string) : result (gmap string value * option (gmap string string)) string :=
  match jwtPayloadSegment tokenStr with
  | None => Err jwtErrMalformedToken
  | Some payloadBytes =>
      match decodeJWTClaimsPreservingNumbers payloadBytes with
      | None => Err jwtErrMalformedToken
      | Some rawClaims => let* mcpMembers := rejectUnreadableClaimNames payloadBytes in Ok (rawClaims, mcpMembers)
      end
  end.

(** The expiry that caps a cached outcome, 0 if there is none, and the fault. *)
Definition validateStandardClaims (p : Validator) (std : stdClaims) (now : time) : Z * option claim_fault :=
  match std_IssuedAt std with
  | None => (0, Some (Tagged jwtErrMissingClaims))
  | Some _ =>
      match std_Expiry std with
      | None => (0, Some (Tagged jwtErrMissingClaims))
      | Some exp =>
          if negb (allowAnyAudience p) && (List.length (acceptedAudiences p) =? 0)%nat && String.eqb (audience p) "" then
            (exp, Some (Tagged jwtErrInvalidAudience))
          else
            let anyAudience :=
              if allowAnyAudience p then []
              else if (0 <? List.length (acceptedAudiences p))%nat then acceptedAudiences p else [audience p] in
            match ValidateWithLeeway std now anyAudience (leeway p) with
            | Some e => (exp, Some (StdInvalid e))
            | None =>
                if negb (allowAnyIssuer p) && (String.eqb (issuer p) "" || negb (String.eqb (std_Issuer std) (issuer p)))
                then (exp, Some (Tagged jwtErrInvalidIssuer))
                else (exp, None)
            end
      end
  end.

Definition newValidatedClaims (capsList : list string) (capsPresent : bool) (payload : mcpClaimSet) (std : stdClaims)
    (rawClaims : gmap string value) : validated :=
  mkValidated
    (mkClaims capsList capsPresent (mcp_TaskID payload) (mcp_AgentID payload) (std_Subject std) (std_ID std)
       (std_Issuer std) (std_Audience std) rawClaims)
    (match std_Expiry std with Some exp => PayloadCache.unix_time exp | None => zero_time end).

(** The claims of the [mcp] block, the subject and the confirmation. *)
Definition judgePayload (p : Validator) (std : stdClaims) (payload : mcpClaimSet) (rawClaims : gmap string value)
    (mcpMembers : option (gmap string string)) : result validated claim_fault :=
  if String.eqb (mcp_Version payload) "" then Err (Tagged jwtErrMissingClaims)
  else if negb (String.eqb (mcp_Version payload) mcpClaimVersion) then Err (Tagged jwtErrUnsupportedVersion)
  else if match mcpMembers ≫= lookup mcpMemberCapabilities with Some raw => jsonNullMember raw | None => false end
  then Err (Tagged jwtErrInvalidCapabilities)
  else
    let capabilitiesPresent := bool_decide (is_Some (mcp_Capabilities payload)) in
    if capabilitiesPresent && negb (experimentalCapabilities p) then Err (Tagged jwtErrCapabilitiesDisabled)
    else
      let capsList := default [] (mcp_Capabilities payload) in
      if negb (forallb (fun claim => is_ok (parseV2Claim claim)) capsList) then Err (Tagged jwtErrInvalidCapabilities)
      else if String.eqb (std_Subject std) "" then Err (Tagged jwtErrMissingClaims)
      else
        let '(constrained, malformed) := CnfIsSenderConstrained (rawClaims !! topLevelClaimCnf) in
        if malformed : bool then Err (Tagged jwtErrMalformedToken)
        else if constrained : bool then Err (Tagged jwtErrSenderConstrained)
        else Ok (newValidatedClaims capsList capabilitiesPresent payload std rawClaims).

(** What is decided once the signature has verified, and the expiry it read. *)
Definition judgeToken (p : Validator) (tokenStr : string) (now : time) : Z * result validated claim_fault :=
  match UnsafeClaims tokenStr with
  | None => (0, Err (Tagged jwtErrMalformedToken))
  | Some (std, payload) =>
      match readTokenPayload tokenStr with
      | Err code => (0, Err (Tagged code))
      | Ok (rawClaims, mcpMembers) =>
          let '(exp, stdErr) := validateStandardClaims p std now in
          match stdErr with
          | Some fault => (exp, Err fault)
          | None => (exp, judgePayload p std payload rawClaims mcpMembers)
          end
      end
  end.

(** ** ValidateToken *)

Section token.
Context {W : Type} `{!JWK K} `{!KeySource W K} (hashKey : string -> string).

(** The variables of one validation: the world, the instant it is judged at once it was read,
    the expiry that caps a cached outcome, and whether a key verified the signature. *)
Record call := mkCall {
  c_world : W;
  c_now : option time;
  c_tokenExpUnix : Z;
  c_signatureVerified : bool;
}.

Definition lift {A} (f : W -> A * W) (c : call) : A * call :=
  let '(a, w) := f (c_world c) in (a, mkCall w (c_now c) (c_tokenExpUnix c) (c_signatureVerified c)).

#[local] Instance call_source : KeySource call K := {|
  ks_getKeys := lift ks_getKeys;
  ks_forKID kid := lift (ks_forKID kid);
  ks_forVerify := lift ks_forVerify;
  ks_now := lift ks_now;
|}.

(** The clock is read for the first key, and again for the first key of a refreshed set. *)
Definition sampledNow (freshKeySet : bool) (c : call) : time * call :=
  match c_now c with
  | Some now =>
      if freshKeySet then
        let '(now, c) := ks_now c in (now, mkCall (c_world c) (Some now) (c_tokenExpUnix c) (c_signatureVerified c))
      else (now, c)
  | None => let '(now, c) := ks_now c in (now, mkCall (c_world c) (Some now) (c_tokenExpUnix c) (c_signatureVerified c))
  end.

Definition verifyKey (p : Validator) (tokenStr : string) (key : K) (freshKeySet : bool) (c : call)
    : verdict validated claim_fault * call :=
  let '(now, c) := sampledNow freshKeySet c in
  match SignatureFailure tokenStr key with
  | Some crypto => (SignatureFault (BadSignature crypto), c)
  | None =>
      let '(exp, r) := judgeToken p tokenStr now in
      (match r with Ok v => Verified v | Err f => TerminalFault f end, mkCall (c_world c) (c_now c) exp true)
  end.

(** A lookup reads the clock only when there is an entry, an insertion only when it is not
    refused before. *)
Definition cacheGet {T} (oc : option (PayloadCache.PayloadCache (T := T))) (key : string) (w : W) : option T * W :=
  match (c ← oc; PayloadCache.entries c !! key) with
  | None => (None, w)
  | Some _ => let '(now, w) := ks_now w in (PayloadCache.Get oc key now, w)
  end.

Definition cachePut {T} (oc : option (PayloadCache.PayloadCache (T := T))) (key : string) (v : T) (expUnix : Z) (w : W)
    : option (PayloadCache.PayloadCache (T := T)) * W :=
  if bool_decide (oc = None) || (expUnix <=? 0) then (oc, w)
  else let '(now, w) := ks_now w in (PayloadCache.Put oc key v expUnix now, w).

Definition memoizeRefusal (p : Validator) (cacheKey : string) (err : token_error) (c : call) : Validator * W :=
  if negb (memoizableRefusal err (c_signatureVerified c)) then (p, c_world c)
  else
    let '(exp, w) :=
      if c_tokenExpUnix c <=? 0 then
        let '(now, w) := ks_now (c_world c) in (time_add now jwtRefusalCacheTTL / second, w)
      else (c_tokenExpUnix c, c_world c) in
    let '(rc, w) := cachePut (refusalCache p) cacheKey err exp w in
    (with_caches p (tokenCache p) rc, w).

Definition bearerPrefix : string := "Bearer ".

(** The token of an Authorization header. *)
Definition bearerToken (authHeader : string) : option string :=
  let n := String.length bearerPrefix in
  if (String.length authHeader <? n)%nat || negb (EqualFold (take_str n authHeader) bearerPrefix) then None
  else Some (drop_str n authHeader).

Definition ValidateToken (p : Validator) (authHeader : string) (w : W) : result validated token_error * (Validator * W) :=
  match bearerToken authHeader with
  | None => (Err (Untokened jwtErrMalformedHeader), (p, w))
  | Some tokenStr =>
      let cacheKey := hashKey tokenStr in
      let '(cached, w) := cacheGet (tokenCache p) cacheKey w in
      match cached with
      | Some v => (Ok v, (p, w))
      | None =>
          let '(refusal, w) := cacheGet (refusalCache p) cacheKey w in
          match refusal with
          | Some e => (Err e, (p, w))
          | None =>
              match ParseSigned tokenStr with
              | None => (Err (Untokened jwtErrMalformedToken), (p, w))
              | Some headers =>
                  match CandidateKIDs headers with
                  | Err _ => (Err (Untokened jwtErrMalformedToken), (p, w))
                  | Ok kids =>
                      let '(r, c) := VerifyWithKeyRotationMultiKID (verifyKey p tokenStr) kids (mkCall w None 0 false) in
                      match r with
                      | Err e => (Err (Rotation e), memoizeRefusal p cacheKey (Rotation e) c)
                      | Ok v =>
                          let '(tc, w) := cachePut (tokenCache p) cacheKey v (c_tokenExpUnix c) (c_world c) in
                          (Ok v, (with_caches p tc (refusalCache p), w))
                      end
                  end
              end
          end
      end
  end.

(** The validations of one validator, one after the other. *)
Fixpoint validateAll (p : Validator) (w : W) (headers : list string) : Validator * W :=
  match headers with
  | [] => (p, w)
  | h :: headers => let '(_, (p, w)) := ValidateToken p h w in validateAll p w headers
  end.
End token.
End validation.
End TokenValidation.
