(* ===== verification/TokenTrust.v ===== *)
(** * What a validated token guarantees

    The theorems about TokenValidation.v: what an accepted token was checked for, whether the
    answer came from a cache or not, and that a cached refusal stays right. *)
From stdpp Require Import base tactics list gmap strings sorting.
From Stdlib Require Import ZArith Lia Ascii String.
From S2P Require Import Prelude GoStrings GoPath Truncate CallCounter Glob Capability CaseFold Selection.
From S2P Require Import Anchor Backends Engine KillSwitch SurfacePin ManifestPDP ArgumentPath ArgumentHandlers JSON KeyScan ToolSurface ListFilter.
From S2P Require Import TokenClaims PayloadCache ClaimScan KeyCache KeyRotation TokenValidation.
#[local] Open Scope string_scope.
#[local] Open Scope Z_scope.
Import GoPath Truncate Capability CaseFold ManifestPDP JSON TokenClaims ClaimScan KeyCache KeyRotation TokenValidation.

Module TokenTrust.

(** ** What go-jose documents *)

Definition audience_meets (auds : list string) (std : stdClaims) : Prop :=
  auds = [] \/ exists a, a ∈ auds /\ a ∈ std_Audience std.

(** The token is live at an instant, with a grace for skewed clocks. *)
Definition live (std : stdClaims) (now : time) (grace : duration) : Prop :=
  (forall n, std_NotBefore std = Some n -> PayloadCache.unix_time n <= now + grace) /\
  (forall e, std_Expiry std = Some e -> now - grace <= PayloadCache.unix_time e) /\
  (forall i, std_IssuedAt std = Some i -> PayloadCache.unix_time i <= now + grace).

(** The audience is checked before the times, which are checked as [live] says; a compact token
    has one header; and a claim set without capabilities was decoded from a block in which
    that very member is absent or null. *)
Class JoseLaws (K : Type) `{!Jose K} : Prop := {
  jose_audience std now auds grace : zero_time < now ->
    ValidateWithLeeway std now auds grace = Some ErrInvalidAudience <-> ~ audience_meets auds std;
  jose_valid std now auds grace : zero_time < now ->
    ValidateWithLeeway std now auds grace = None <-> audience_meets auds std /\ live std now grace;
  jose_compact tokenStr headers : ParseSigned tokenStr = Some headers -> exists kid, headers = [kid];
  jose_capabilities tokenStr std mcp payload ms raw ms' : UnsafeClaims tokenStr = Some (std, mcp) -> mcp_Capabilities mcp = None ->
    jwtPayloadSegment tokenStr = Some payload -> claimObjectMembers payload = Ok ms ->
    readLast (exactly topLevelClaimMCP) ms = Some raw -> claimObjectMembers raw = Ok ms' ->
    readLast (exactly mcpMemberCapabilities) ms' = None \/ readLast (exactly mcpMemberCapabilities) ms' = Some "null";
}.

Section trust.
Context `{U : Unicode} {K : Type} `{!Jose K} {JL : JoseLaws K}.
Context (topLevelClaimWatch mcpMemberWatch : ClaimWatch).

#[local] Abbreviation judge := (judgeToken topLevelClaimWatch mcpMemberWatch).

(** ** What the judgment of a verified token checks *)

(** Everything that is demanded of the claims of an accepted token, and where the claims that
    decisions read come from. *)
Record good_claims (p : Validator) (tokenStr : string) (now : time) (exp : Z) (v : validated) (std : stdClaims)
    (mcp : mcpClaimSet) (rawClaims : gmap string value) (members : option (gmap string string)) : Prop := mkGood {
  gc_decoded : UnsafeClaims tokenStr = Some (std, mcp);
  gc_payload : readTokenPayload topLevelClaimWatch mcpMemberWatch tokenStr = Ok (rawClaims, members);
  gc_issued : is_Some (std_IssuedAt std);
  gc_expiry : std_Expiry std = Some exp;
  gc_live : live std now (leeway p);
  gc_audience : allowAnyAudience p = true \/
    exists a, (a ∈ acceptedAudiences p \/ (acceptedAudiences p = [] /\ a = audience p /\ a <> "")) /\ a ∈ std_Audience std;
  gc_issuer : allowAnyIssuer p = true \/ (issuer p <> "" /\ std_Issuer std = issuer p);
  gc_version : mcp_Version mcp = mcpClaimVersion;
  gc_null : members ≫= lookup mcpMemberCapabilities <> Some "null";
  gc_experimental : is_Some (mcp_Capabilities mcp) -> experimentalCapabilities p = true;
  gc_grammar : Forall (fun claim => is_ok (parseV2Claim claim) = true) (default [] (mcp_Capabilities mcp));
  gc_subject : std_Subject std <> "";
  gc_bearer : CnfIsSenderConstrained (rawClaims !! topLevelClaimCnf) = (false, false);
  gc_claims : v = newValidatedClaims (default [] (mcp_Capabilities mcp)) (bool_decide (is_Some (mcp_Capabilities mcp))) mcp std rawClaims;
}.

(** The faults of the registered claims: those of the bytes and the configuration, and those of
    the library. *)
Lemma validateStandardClaims_spec p std now exp r : zero_time < now -> validateStandardClaims p std now = (exp, r) ->
  match r with
  | None => is_Some (std_IssuedAt std) /\ std_Expiry std = Some exp /\ live std now (leeway p) /\
      (allowAnyAudience p = true \/
       exists a, (a ∈ acceptedAudiences p \/ (acceptedAudiences p = [] /\ a = audience p /\ a <> "")) /\ a ∈ std_Audience std) /\
      (allowAnyIssuer p = true \/ (issuer p <> "" /\ std_Issuer std = issuer p))
  | Some _ => True
  end.
Proof.
  intros Hz. unfold validateStandardClaims. destruct (std_IssuedAt std) as [iat|]; [|by intros [= <- <-]].
  destruct (std_Expiry std) as [e|] eqn:Ee; [|by intros [= <- <-]].
  destruct (negb (allowAnyAudience p) && _ && _) eqn:Ea; [by intros [= <- <-]|].
  destruct (ValidateWithLeeway std now _ (leeway p)) as [|] eqn:Ev; [by intros [= <- <-]|].
  apply jose_valid in Ev as [Hm Hl]; [|done]. destruct (negb (allowAnyIssuer p) && _) eqn:Ei; intros [= <- <-]; [done|].
  split_and!; [by eexists|done|done| |].
  - destruct (allowAnyAudience p); [by left|right]. cbn in Ea. destruct Hm as [Hm|(a & Hin & Ha)].
    + destruct (acceptedAudiences p); done.
    + exists a. split; [|done]. destruct (acceptedAudiences p) as [|b l]; [|by left]. cbn in Hin, Ea.
      apply list_elem_of_singleton in Hin as ->. right. bools. done.
  - destruct (allowAnyIssuer p); [by left|right]. cbn in Ei. bools. done.
Qed.

Lemma judgePayload_spec p std mcp rawClaims members v : judgePayload p std mcp rawClaims members = Ok v ->
  mcp_Version mcp = mcpClaimVersion /\ members ≫= lookup mcpMemberCapabilities <> Some "null" /\
  (is_Some (mcp_Capabilities mcp) -> experimentalCapabilities p = true) /\
  Forall (fun claim => is_ok (parseV2Claim claim) = true) (default [] (mcp_Capabilities mcp)) /\
  std_Subject std <> "" /\ CnfIsSenderConstrained (rawClaims !! topLevelClaimCnf) = (false, false) /\
  v = newValidatedClaims (default [] (mcp_Capabilities mcp)) (bool_decide (is_Some (mcp_Capabilities mcp))) mcp std rawClaims.
Proof.
  unfold judgePayload. destruct (String.eqb (mcp_Version mcp) ""); [done|].
  destruct (String.eqb_spec (mcp_Version mcp) mcpClaimVersion) as [Hv|]; [|done]. cbn [negb].
  destruct (match members ≫= lookup mcpMemberCapabilities with Some raw => jsonNullMember raw | None => false end) eqn:En; [done|].
  destruct (bool_decide _ && _) eqn:Ex; [done|]. destruct (forallb _ _) eqn:Ef; [|done]. cbn [negb].
  destruct (String.eqb_spec (std_Subject std) "") as [|Hs]; [done|].
  destruct (CnfIsSenderConstrained _) as [[] []] eqn:Ec; try done. intros [= <-]. split_and!; try done.
  - intros E. by rewrite E in En.
  - intros Hp. rewrite bool_decide_true in Ex by done. by destruct (experimentalCapabilities p).
  - apply Forall_forall. intros c Hc. by apply (proj1 (forallb_elem_of _ _) Ef).
Qed.

Lemma judge_accepts p tokenStr now exp v : zero_time < now -> judge p tokenStr now = (exp, Ok v) ->
  exists std mcp rawClaims members, good_claims p tokenStr now exp v std mcp rawClaims members.
Proof.
  intros Hz. unfold judgeToken. destruct (UnsafeClaims tokenStr) as [[std mcp]|] eqn:Eu; [|done].
  destruct (readTokenPayload _ _ _) as [[rawClaims members]|] eqn:Er; [|done].
  destruct (validateStandardClaims p std now) as [e r] eqn:Es. apply validateStandardClaims_spec in Es; [|done].
  destruct r as [f|]; intros [= <- Hj]. destruct Es as (? & ? & ? & ? & ?). apply judgePayload_spec in Hj as (? & ? & ? & ? & ? & ? & ->).
  by exists std, mcp, rawClaims, members.
Qed.

(** ** Refusals that no time can overturn *)

Definition memoizable (f : claim_fault) : bool := one_of (classifyFault f) memoizableJWTRefusals.

(** The token has not expired at an instant. *)
Definition unexpired (std : stdClaims) (t : time) : Prop := forall e, std_Expiry std = Some e -> t < PayloadCache.unix_time e.

Lemma live_later std t0 t grace : 0 <= grace -> live std t0 grace -> t0 <= t -> unexpired std t -> live std t grace.
Proof.
  intros Hg (Hn & He & Hi) Ht Hu. split_and!.
  - intros n En. specialize (Hn n En). lia.
  - intros e Ee. specialize (Hu e Ee). lia.
  - intros n En. specialize (Hi n En). lia.
Qed.

Lemma std_refusal_final p std t0 exp f t : zero_time < t0 -> zero_time < t -> 0 <= leeway p ->
  validateStandardClaims p std t0 = (exp, Some f) -> memoizable f = true ->
  exists f', validateStandardClaims p std t = (exp, Some f') /\ (t0 <= t -> unexpired std t -> f' = f).
Proof.
  intros Hz0 Hz Hg. unfold validateStandardClaims. destruct (std_IssuedAt std) as [iat|]; [|intros [= <- <-] _; by eexists].
  destruct (std_Expiry std) as [e|] eqn:Ee; [|intros [= <- <-] _; by eexists].
  destruct (negb (allowAnyAudience p) && _ && _) eqn:Ea; [intros [= <- <-] _; by eexists|].
  set (auds := if allowAnyAudience p then _ else _).
  destruct (ValidateWithLeeway std t0 auds (leeway p)) as [e0|] eqn:Ev0.
  - intros [= <- <-] Hm. destruct e0; try done. apply jose_audience in Ev0; [|done].
    apply (jose_audience std t auds (leeway p) Hz) in Ev0. rewrite Ev0. by eexists.
  - destruct (negb (allowAnyIssuer p) && _) eqn:Ei; [|done]. intros [= <- <-] _.
    destruct (ValidateWithLeeway std t auds (leeway p)) as [e1|] eqn:Ev1; [|by eexists].
    eexists. split; [done|]. intros Ht Hu. exfalso. apply jose_valid in Ev0 as [Ha Hl]; [|done].
    assert (ValidateWithLeeway std t auds (leeway p) = None) as Hx; [|congruence].
    apply jose_valid; [done|]. split; [done|]. by eapply live_later.
Qed.

Lemma std_accepts_later p std t0 exp t : zero_time < t0 -> zero_time < t -> 0 <= leeway p ->
  validateStandardClaims p std t0 = (exp, None) -> t0 <= t -> unexpired std t -> validateStandardClaims p std t = (exp, None).
Proof.
  intros Hz0 Hz Hg. unfold validateStandardClaims. destruct (std_IssuedAt std) as [iat|]; [|done].
  destruct (std_Expiry std) as [e|] eqn:Ee; [|done]. destruct (negb (allowAnyAudience p) && _ && _); [done|].
  set (auds := if allowAnyAudience p then _ else _).
  destruct (ValidateWithLeeway std t0 auds (leeway p)) as [e0|] eqn:Ev0; [done|].
  apply jose_valid in Ev0 as [Ha Hl]; [|done]. intros Hr Ht Hu.
  rewrite (proj2 (jose_valid std t auds (leeway p) Hz)); [done|]. split; [done|]. by eapply live_later.
Qed.

(** A refusal that is kept stands whenever the token is judged again, and with the same fault
    for as long as it has not expired. *)
Lemma judge_refusal_final p tokenStr t0 exp f t : zero_time < t0 -> zero_time < t -> 0 <= leeway p ->
  judge p tokenStr t0 = (exp, Err f) -> memoizable f = true ->
  exists f', judge p tokenStr t = ((judge p tokenStr t).1, Err f') /\
    (t0 <= t -> (forall std mcp, UnsafeClaims tokenStr = Some (std, mcp) -> unexpired std t) -> f' = f).
Proof.
  intros Hz0 Hz Hg. unfold judgeToken. destruct (UnsafeClaims tokenStr) as [[std mcp]|]; [|intros [= <- <-] _; by eexists].
  destruct (readTokenPayload _ _ _) as [[rawClaims members]|]; [|intros [= <- <-] _; by eexists].
  destruct (validateStandardClaims p std t0) as [e0 r0] eqn:Es. destruct r0 as [f0|].
  - intros [= -> ->] Hm. destruct (std_refusal_final p std t0 exp f t Hz0 Hz Hg Es Hm) as (f' & -> & Hf).
    exists f'. split; [done|]. intros Ht Hu. apply Hf; [done|]. by eapply Hu.
  - intros [= -> Hj] _. destruct (validateStandardClaims p std t) as [e1 r1] eqn:Es1. destruct r1 as [f1|].
    + exists f1. split; [done|]. intros Ht Hu. pose proof (std_accepts_later p std t0 exp t Hz0 Hz Hg Es Ht (Hu _ _ eq_refl)). congruence.
    + exists f. by rewrite Hj.
Qed.

(** ** Caches *)

(** A cache of the validator, all of whose entries have a property. *)
Definition vetted {T} (ttl : duration) (P : string -> PayloadCache.payloadCacheEntry (T := T) -> Prop)
    (oc : option (PayloadCache.PayloadCache (T := T))) : Prop :=
  forall c, oc = Some c ->
    PayloadCache.MaxEntryTTL (PayloadCache.cfg c) = ttl /\ (forall v, PayloadCache.clone (PayloadCache.cfg c) v = Some v) /\
    forall key e, PayloadCache.entries c !! key = Some e -> P key e.

Lemma new_vetted {T} ttl maxSize P : 0 < ttl -> vetted ttl P (Some (newJWTPayloadCache T ttl maxSize)).
Proof.
  intros Ht c [= <-]. cbn. rewrite (proj2 (Z.leb_gt _ _)) by done. split_and!; [done|done|]. intros key e He. by rewrite lookup_empty in He.
Qed.

Lemma vetted_mono {T} ttl (P Q : string -> PayloadCache.payloadCacheEntry (T := T) -> Prop) oc :
  (forall key e, P key e -> Q key e) -> vetted ttl P oc -> vetted ttl Q oc.
Proof. intros H Hv c Hc. destruct (Hv c Hc) as (? & ? & He). split_and!; [done..|]. intros key e Hk. by apply H, He. Qed.

Lemma Put_vetted {T} ttl P (oc : option (PayloadCache.PayloadCache (T := T))) key v exp now :
  vetted ttl P oc ->
  (forall e, PayloadCache.payload e = v -> 0 < exp -> PayloadCache.expiresAt e <= time_add now ttl ->
             PayloadCache.expiresAt e <= PayloadCache.unix_time exp -> P key e) ->
  vetted ttl P (PayloadCache.Put oc key v exp now).
Proof.
  intros Hv Hp c' E. destruct oc as [c|]; [|done]. destruct (Hv c eq_refl) as (Ht & Hc & He). apply PayloadCache.Put_inv in E.
  destruct (PayloadCache.newEntry _ v exp now) as [entry|] eqn:En; [|subst; by apply Hv].
  destruct E as (Hcfg & es & order & Htr & Hes & _). rewrite Hcfg. split_and!; [done..|]. intros key' e. rewrite Hes.
  intros [[<- <-]|[_ Hin]]%lookup_insert_Some.
  - apply PayloadCache.newEntry_spec in En as (Hx & Hcl & Hw & Hu). rewrite Ht in Hw. rewrite Hc in Hcl. apply Hp; congruence || done.
  - apply He. by apply (lookup_weaken _ _ _ _ Hin (PayloadCache.tr_entries _ _ Htr)).
Qed.

Lemma Get_vetted {T} ttl P (oc : option (PayloadCache.PayloadCache (T := T))) key now v :
  vetted ttl P oc -> PayloadCache.Get oc key now = Some v ->
  exists e, P key e /\ PayloadCache.payload e = v /\ now < PayloadCache.expiresAt e.
Proof.
  intros Hv. destruct oc as [c|]; [|done]. destruct (Hv c eq_refl) as (_ & Hc & He). unfold PayloadCache.Get. cbn.
  intros (e & Hk & E)%bind_Some. destruct (PayloadCache.fresh now e) eqn:Hf; [|done]. cbn in E. rewrite Hc in E. injection E as <-.
  exists e. split_and!; [by apply He|done|]. unfold PayloadCache.fresh, time_before in Hf. by bools.
Qed.

(** ** Validations in a row *)

Context `{!JWK K} {JWL : JWKLaws K} (hashKey : string -> string).
#[local] Abbreviation World := (KeyWorld (K := K)).
#[local] Instance world_source : KeySource World K := keyworld_source hashKey.
#[local] Existing Instance call_source.

#[local] Abbreviation validate := (ValidateToken topLevelClaimWatch mcpMemberWatch hashKey).
#[local] Abbreviation validate_all := (validateAll topLevelClaimWatch mcpMemberWatch hashKey).

(** A world to start from: the clock runs forward from an instant that is not the zero one, and
    the key set, if there is one, was fetched before. *)
Record booted (w : World) : Prop := mkBooted {
  bo_steady : steady w;
  bo_zero : zero_time < kw_last w;
  bo_fetched : fetchedAt (kw_cache w) <= kw_last w;
}.

Lemma booted_advances w w' : advances hashKey w w' -> booted w -> booted w'.
Proof.
  intros [_ Hc _ _ Hf] [Hs Hz Hfe]. destruct (Hc Hs) as [? ?]. split; [done|lia|by apply Hf].
Qed.

Context (w0 : World).

(** A key of a set that the issuer served. *)
Definition served (k : K) : Prop := exists keys, held w0 keys /\ k ∈ keys.

(** The token was verified under a served key and judged at an instant. *)
Definition judged (p : Validator) (tokenStr : string) (now : time) (exp : Z) (r : result validated claim_fault) : Prop :=
  zero_time < now /\ (exists k, served k /\ SignatureFailure tokenStr k = None) /\ judge p tokenStr now = (exp, r).

Section one_call.
Context (p : Validator) (tokenStr : string) (w1 : World) (Hb : booted w1) (Hw : advances hashKey w0 w1).

(** The instant a token is judged at was read in this call, and not before the keys in use were
    installed. *)
Definition read_in_call (now : time) (c : call (W := World)) : Prop :=
  kw_last w1 <= now <= kw_last (c_world c).

Definition c_start (c : call (W := World)) : Prop := advances hashKey w1 (c_world c) /\ c_now c = None /\ c_signatureVerified c = false.
Definition c_stale (c : call (W := World)) : Prop :=
  advances hashKey w1 (c_world c) /\ c_signatureVerified c = false /\ forall now, c_now c = Some now -> read_in_call now c.
Definition c_synced (c : call (W := World)) : Prop :=
  c_stale c /\ forall now, c_now c = Some now -> fetchedAt (kw_cache (c_world c)) <= now.
Definition c_ends (r : result validated claim_fault) (c : call (W := World)) : Prop :=
  advances hashKey w1 (c_world c) /\ c_signatureVerified c = true /\
  exists now, read_in_call now c /\ fetchedAt (kw_cache (c_world c)) <= now /\ judged p tokenStr now (c_tokenExpUnix c) r.

Lemma lift_inv {A} (f : World -> A * World) (c : call (W := World)) a c' : lift f c = (a, c') ->
  exists w, f (c_world c) = (a, w) /\ c' = mkCall w (c_now c) (c_tokenExpUnix c) (c_signatureVerified c).
Proof. unfold lift. destruct (f (c_world c)) as [a' w]. intros [= -> <-]. by exists w. Qed.

Lemma stale_advances c w : c_stale c -> advances hashKey (c_world c) w ->
  c_stale (mkCall w (c_now c) (c_tokenExpUnix c) (c_signatureVerified c)).
Proof.
  intros (Ha & Hs & Hr) Hx. split_and!; cbn; [by etrans|done|]. intros now Hn. destruct (Hr now Hn) as [? ?]. split; [done|]. cbn.
  pose proof (booted_advances _ _ Ha Hb) as [Hst _ _]. destruct (ad_clock _ _ _ Hx Hst). lia.
Qed.

Lemma held_served r w : advances hashKey w1 w -> (forall keys, r = Ok keys -> held w keys) -> keys_served served r.
Proof.
  intros Ha Hk keys -> k Hin. exists keys. split; [|done]. apply (ad_held _ _ _ Hw), (ad_held _ _ _ Ha). by apply Hk.
Qed.

Lemma sampledNow_spec fresh c now c' : (if fresh : bool then c_stale c else c_synced c) -> sampledNow fresh c = (now, c') ->
  c_synced c' /\ c_now c' = Some now /\ zero_time < now.
Proof.
  assert (forall c now c', c_stale c ->
    (let '(now, c) := ks_now c in (now, mkCall (c_world c) (Some now) (c_tokenExpUnix c) (c_signatureVerified c))) = (now, c') ->
    c_synced c' /\ c_now c' = Some now /\ zero_time < now) as Hread.
  { clear fresh c now c'. intros c now c' (Ha & Hs & Hr). destruct (ks_now c) as [n c1] eqn:E. apply lift_inv in E as (w & E & ->).
    cbn in E. intros [= <- <-]. cbn [c_world c_now c_tokenExpUnix c_signatureVerified].
    pose proof (booted_advances _ _ Ha Hb) as Hb1. apply (sample_spec hashKey) in E as (Ha2 & Hc & _ & <-).
    pose proof (booted_advances _ _ Ha2 Hb1) as [? ? ?]. destruct (ad_clock _ _ _ Ha2 (bo_steady _ Hb1)).
    destruct (ad_clock _ _ _ Ha (bo_steady _ Hb)).
    split_and!; [|done|done]. split; [split_and!; cbn; [by etrans|done|]|].
    - intros ? [= <-]. unfold read_in_call. cbn. lia.
    - cbn. intros ? [= <-]. lia. }
  intros Hst. unfold sampledNow. destruct fresh.
  - destruct (c_now c) as [n|]; by apply Hread.
  - destruct Hst as [Hst Hf]. destruct (c_now c) as [n|] eqn:En; [|by apply Hread]. intros [= <- <-].
    destruct Hst as (Ha & Hs & Hr). specialize (Hr n En) as [? ?]. split_and!; [|done|].
    { split; [split_and!; [done|done|]|]; rewrite En; intros ? [= <-]; [by split|by apply Hf]. }
    destruct Hb. lia.
Qed.

Lemma call_tame : tame (verifyKey topLevelClaimWatch mcpMemberWatch p tokenStr) c_start c_synced c_stale served
  (fun v => c_ends (Ok v)) (fun f => c_ends (Err f)).
Proof.
  split.
  - intros c r c' (Ha & Hn & Hs) E. apply lift_inv in E as (w & E & ->). cbn in E. apply (getKeysLive_spec hashKey) in E as (Hx & Hk & _).
    split; [|by eapply held_served; [exact Ha|]]. split; [split_and!; cbn; [by etrans|done|by rewrite Hn]|cbn; by rewrite Hn].
  - intros kid c r c' [Hst _] E. apply lift_inv in E as (w & E & ->). cbn in E. apply (forKID_spec hashKey) in E as [Hx Hk _ _ _].
    split; [by apply stale_advances|]. eapply held_served; [|exact Hk]. apply Hst.
  - intros c r c' [Hst _] E. apply lift_inv in E as (w & E & ->). cbn in E. apply (forVerify_spec hashKey) in E as [Hx Hk _ _ _].
    split; [by apply stale_advances|]. eapply held_served; [|exact Hk]. apply Hst.
  - by intros c [? _].
  - intros key fresh c v c' Hserved Hst. unfold verifyKey. destruct (sampledNow fresh c) as [now c1] eqn:E1.
    apply sampledNow_spec in E1 as ([(Ha & Hs & Hr) Hf] & Hn & Hz); [|done].
    destruct (SignatureFailure tokenStr key) as [crypto|] eqn:Ek; [intros [= <- <-]; by split|].
    destruct (judgeToken _ _ p tokenStr now) as [exp r] eqn:Ej.
    assert (c_ends r (mkCall (c_world c1) (c_now c1) exp true)) as He.
    { split; [done|]. split; [done|]. exists now. split; [by apply Hr|]. split; [by apply Hf|]. split; [done|]. split; [by exists key|done]. }
    destruct r as [v0|f]; by intros [= <- <-].
Qed.

(** One verification ends in a judgment at an instant read in it, or refuses without one. *)
Lemma call_spec kid r c' :
  VerifyWithKeyRotationMultiKID (verifyKey topLevelClaimWatch mcpMemberWatch p tokenStr) [kid] (mkCall w1 None 0 false) = (r, c') ->
  advances hashKey w1 (c_world c') /\
  match r with
  | Ok v => c_ends (Ok v) c'
  | Err e => (exists f, e = TokenFault f /\ c_ends (Err f) c') \/ c_signatureVerified c' = false
  end.
Proof.
  unfold VerifyWithKeyRotationMultiKID. cbn [verifyKIDs].
  destruct (VerifyWithKeyRotation _ kid (mkCall w1 None 0 false)) as [r1 c1] eqn:E.
  assert (c_start (mkCall w1 None 0 false)) as Hs by done.
  apply (rotation_spec _ _ _ _ _ _ _ call_tame) in E; [|done].
  assert (advances hashKey w1 (c_world c1) /\ match r1 with Ok v => c_ends (Ok v) c1
    | Err e => (exists f, e = TokenFault f /\ c_ends (Err f) c1) \/ c_signatureVerified c1 = false end) as H.
  { destruct E as [[(Ha & _ & Hsig) [n ->]]|E]; [by split; [|right]|].
    destruct r1 as [v|e]; cbn in E; [split; [apply E|done]|]. destruct e; cbn in E; try (split; [apply E|right; apply E]).
    split; [apply E|left]. by eexists. }
  destruct r1 as [v|e]; [by intros [= <- <-]|]. destruct (is_terminal e); by intros [= <- <-].
Qed.
End one_call.

(** *** The state of the validator *)

Context (p0 : Validator) (Hb0 : booted w0).

(** The entry of a cache stems from a token of that hash, judged at an instant, and is kept for
    thirty seconds at most and not past the expiry that was read. *)
Definition stems (r : result validated claim_fault) (key : string) (t expires : time) (ttl : duration) : Prop :=
  exists tokenStr now exp t1, hashKey tokenStr = key /\ judged p0 tokenStr now exp r /\ kw_last w0 <= now <= t1 /\ t1 <= t /\
    expires <= time_add t1 ttl /\ (0 < exp -> expires <= PayloadCache.unix_time exp) /\ (is_ok r = true -> 0 < exp).

Definition token_entry (t : time) (key : string) (e : PayloadCache.payloadCacheEntry (T := validated)) : Prop :=
  stems (Ok (PayloadCache.payload e)) key t (PayloadCache.expiresAt e) jwtTokenCacheTTL.

Definition refusal_entry (t : time) (key : string) (e : PayloadCache.payloadCacheEntry (T := token_error)) : Prop :=
  exists f, PayloadCache.payload e = Rotation (TokenFault f) /\ memoizable f = true /\
    stems (Err f) key t (PayloadCache.expiresAt e) jwtRefusalCacheTTL.

Lemma stems_later r key t t' expires ttl : t <= t' -> stems r key t expires ttl -> stems r key t' expires ttl.
Proof. intros Ht (tok & now & exp & t1 & ? & ? & ? & ? & ? & ? & ?). exists tok, now, exp, t1. split_and!; (done || lia). Qed.

(** The configuration never changes, the clock runs on, and the caches hold what they may. *)
Record valid (p : Validator) (w : World) : Prop := mkValid {
  va_config : p = with_caches p0 (tokenCache p) (refusalCache p);
  va_world : advances hashKey w0 w;
  va_booted : booted w;
  va_tokens : vetted jwtTokenCacheTTL (token_entry (kw_last w)) (tokenCache p);
  va_refusals : vetted jwtRefusalCacheTTL (refusal_entry (kw_last w)) (refusalCache p);
}.

Lemma judge_config p t tok : p = with_caches p0 (tokenCache p) (refusalCache p) -> judge p tok t = judge p0 tok t.
Proof. intros ->. reflexivity. Qed.

Lemma valid_later p w w' : valid p w -> advances hashKey w w' -> valid p w'.
Proof.
  intros [Hc Hw Hb Ht Hr] Ha. pose proof (booted_advances _ _ Ha Hb) as Hb'. destruct (ad_clock _ _ _ Ha (bo_steady _ Hb)) as [_ Hl].
  split; [done|by etrans|done|..]; (eapply vetted_mono; [|eassumption]).
  - intros key e. by apply stems_later.
  - intros key e (f & ? & ? & ?). exists f. split_and!; [done..|]. by eapply stems_later.
Qed.

Lemma now_spec w now w' : ks_now w = (now, w') -> advances hashKey w w' /\ kw_last w' = now.
Proof. intros E. cbn in E. by apply (sample_spec hashKey) in E as (? & _ & _ & ?). Qed.

Lemma cacheGet_spec {T} (oc : option (PayloadCache.PayloadCache (T := T))) key w o w' :
  cacheGet oc key w = (o, w') -> advances hashKey w w' /\ forall v, o = Some v -> PayloadCache.Get oc key (kw_last w') = Some v.
Proof.
  unfold cacheGet. destruct (c ← oc; _) as [e|]; [|by intros [= <- <-]].
  destruct (ks_now w) as [now w1] eqn:E. apply now_spec in E as [? <-]. by intros [= <- <-].
Qed.

Lemma cachePut_advances {T} (oc : option (PayloadCache.PayloadCache (T := T))) key v exp w oc' w' :
  cachePut oc key v exp w = (oc', w') -> advances hashKey w w'.
Proof.
  unfold cachePut. destruct (bool_decide _ || _); [by intros [= _ <-]|].
  destruct (ks_now w) as [now w1] eqn:E. apply now_spec in E as [? _]. by intros [= _ <-].
Qed.

Lemma cachePut_spec {T} ttl P (oc : option (PayloadCache.PayloadCache (T := T))) key v exp w oc' w' :
  vetted ttl P oc -> cachePut oc key v exp w = (oc', w') ->
  (forall e, advances hashKey w w' -> PayloadCache.payload e = v -> 0 < exp -> PayloadCache.expiresAt e <= time_add (kw_last w') ttl ->
             PayloadCache.expiresAt e <= PayloadCache.unix_time exp -> P key e) ->
  advances hashKey w w' /\ vetted ttl P oc'.
Proof.
  intros Hv. unfold cachePut. destruct (bool_decide (oc = None) || (exp <=? 0)); [by intros [= <- <-]|].
  destruct (ks_now w) as [now w1] eqn:E. apply now_spec in E as [Ha <-]. intros [= <- <-] Hp. split; [done|].
  apply Put_vetted; [done|]. intros e. by apply Hp.
Qed.

(** A verified judgment may be kept in the cache. *)
Lemma ends_judged p w1 tokenStr r (c : call (W := World)) : valid p w1 -> c_ends p tokenStr w1 r c ->
  advances hashKey w1 (c_world c) /\
  exists now, kw_last w0 <= now <= kw_last (c_world c) /\ kw_last w1 <= now /\ judged p0 tokenStr now (c_tokenExpUnix c) r.
Proof.
  intros [Hc Hw Hb _ _] (Ha & _ & now & [H1 H2] & _ & Hz & Hk & Hj). split; [done|]. exists now.
  destruct (ad_clock _ _ _ Hw (bo_steady _ Hb0)) as [_ Hcl]. rewrite (judge_config p _ _ Hc) in Hj. split_and!; [lia|done|done|by split; [|split]].
Qed.

Lemma accepted_exp p tokenStr now exp v : judged p tokenStr now exp (Ok v) ->
  exists std, std_Expiry std = Some exp /\ v_ExpiresAt v = PayloadCache.unix_time exp.
Proof.
  intros (Hz & _ & Hj). apply judge_accepts in Hj as (std & mcp & raw & members & []); [|done]. exists std. split; [done|].
  subst v. cbn. by rewrite gc_expiry0.
Qed.

Lemma memoizeRefusal_spec p w1 tokenStr e c p' w' : valid p w1 ->
  advances hashKey w1 (c_world c) ->
  (exists f, e = TokenFault f /\ c_ends p tokenStr w1 (Err f) c) \/ c_signatureVerified c = false ->
  memoizeRefusal p (hashKey tokenStr) (Rotation e) c = (p', w') -> advances hashKey w1 w' /\ valid p' w'.
Proof.
  intros Hv Ha He. pose proof (valid_later _ _ _ Hv Ha) as Hv1. unfold memoizeRefusal.
  destruct (memoizableRefusal (Rotation e) (c_signatureVerified c)) eqn:Em; [cbn [negb]|by intros [= <- <-]].
  destruct He as [(f & -> & Hends)|Hs]; [|by rewrite Hs in Em]. unfold memoizableRefusal in Em. apply andb_true_iff in Em as [_ Em].
  destruct (ends_judged _ _ _ _ _ Hv Hends) as (_ & now & Hnow & _ & Hj).
  destruct (if c_tokenExpUnix c <=? 0 then _ else _) as [exp w2] eqn:Ex.
  assert (advances hashKey (c_world c) w2 /\ (0 < c_tokenExpUnix c -> exp = c_tokenExpUnix c)) as [Ha2 Hexp].
  { destruct (c_tokenExpUnix c <=? 0) eqn:Ec; bools.
    - destruct (ks_now (c_world c)) as [n w3] eqn:En. apply now_spec in En as [? _]. injection Ex as _ <-. split; [done|lia].
    - by injection Ex as <- <-. }
  pose proof (valid_later _ _ _ Hv1 Ha2) as Hv2.
  destruct (cachePut _ _ _ _ _) as [rc w3] eqn:Ep. intros [= <- <-].
  destruct (ad_clock _ _ _ Ha2 (bo_steady _ (va_booted _ _ Hv1))) as [Hs2 Hl2].
  pose proof (va_refusals _ _ (valid_later _ _ _ Hv2 (cachePut_advances _ _ _ _ _ _ _ Ep))) as Hold.
  apply (cachePut_spec jwtRefusalCacheTTL _ _ _ _ _ _ _ _ Hold) in Ep as [Ha3 Hrc].
  - split; [etrans; [exact Ha|]; by etrans|]. destruct (valid_later _ _ _ Hv2 Ha3) as [Hc Hw Hb Ht _]. split; cbn; try done.
    rewrite Hc at 1. done.
  - intros ent Ha3 Hp Hx Hw Hu. destruct (ad_clock _ _ _ Ha3 Hs2) as [_ Hl3]. exists f. split_and!; [done|done|].
    exists tokenStr, now, (c_tokenExpUnix c), (kw_last w3). split_and!; [done|done|lia|lia|lia|done| |done].
    intros Hc. by rewrite <- (Hexp Hc).
Qed.

Lemma memoizeToken_spec p w1 tokenStr v c tc w' : valid p w1 -> c_ends p tokenStr w1 (Ok v) c ->
  cachePut (tokenCache p) (hashKey tokenStr) v (c_tokenExpUnix c) (c_world c) = (tc, w') ->
  advances hashKey w1 w' /\ valid (with_caches p tc (refusalCache p)) w'.
Proof.
  intros Hv Hends Ep. destruct (ends_judged _ _ _ _ _ Hv Hends) as (Ha & now & Hnow & _ & Hj).
  pose proof (valid_later _ _ _ Hv Ha) as Hv1. pose proof (cachePut_advances _ _ _ _ _ _ _ Ep) as Ha3.
  pose proof (valid_later _ _ _ Hv1 Ha3) as [Hc Hw Hb Ht Hr].
  destruct (ad_clock _ _ _ Ha3 (bo_steady _ (va_booted _ _ Hv1))) as [_ Hl3].
  apply (cachePut_spec jwtTokenCacheTTL _ _ _ _ _ _ _ _ Ht) in Ep as [_ Htc].
  - split; [by etrans|]. split; cbn; try done. by rewrite Hc at 1.
  - intros ent _ Hp Hx Hex Hu. exists tokenStr, now, (c_tokenExpUnix c), (kw_last w'). rewrite Hp. split_and!; (done || lia).
Qed.

(** What an answer of the validator rests on: a judgment in this call of this token, or one
    whose outcome a cache keeps. *)
Definition rests (tokenStr : string) (r : result validated claim_fault) (w w' : World) : Prop :=
  exists tokenStr' now exp, hashKey tokenStr' = hashKey tokenStr /\ judged p0 tokenStr' now exp r /\ kw_last w0 <= now <= kw_last w' /\
    (tokenStr' = tokenStr /\ kw_last w <= now \/
     exists t1, now <= t1 <= kw_last w' /\ kw_last w' < time_add t1 (30 * second) /\ (0 < exp -> kw_last w' < PayloadCache.unix_time exp) /\
       (is_ok r = true -> 0 < exp)).

Lemma stems_rests tokenStr r w w' expires : stems r (hashKey tokenStr) (kw_last w') expires (30 * second) -> kw_last w' < expires ->
  rests tokenStr r w w'.
Proof.
  intros (tok & now & exp & t1 & Hh & Hj & Hn & Ht & Hw & Hu & Ho) Hx. exists tok, now, exp. split_and!; [done|done|lia|lia|].
  right. exists t1. split_and!; [lia|lia|lia| |done]. intros He. specialize (Hu He). lia.
Qed.

Lemma ends_rests p w1 w w' tokenStr r (c : call (W := World)) : valid p w1 -> kw_last w <= kw_last w1 -> c_ends p tokenStr w1 r c ->
  kw_last (c_world c) <= kw_last w' -> rests tokenStr r w w'.
Proof.
  intros Hv Hl Hends Hl'. destruct (ends_judged _ _ _ _ _ Hv Hends) as (_ & now & Hn & Hn1 & Hj).
  exists tokenStr, now, (c_tokenExpUnix c). split_and!; [done|done|lia|lia|left; split; [done|lia]].
Qed.

Lemma ValidateToken_spec p w authHeader r p' w' : valid p w -> validate p authHeader w = (r, (p', w')) ->
  advances hashKey w w' /\ valid p' w' /\
  forall v, r = Ok v -> exists tokenStr, bearerToken authHeader = Some tokenStr /\ rests tokenStr (Ok v) w w'.
Proof.
  intros Hv. unfold ValidateToken. destruct (bearerToken authHeader) as [tok|]; [|by intros [= <- <- <-]].
  destruct (cacheGet (tokenCache p) (hashKey tok) w) as [cached w1] eqn:E1. apply cacheGet_spec in E1 as [H1 Hc1].
  pose proof (valid_later _ _ _ Hv H1) as Hv1. destruct (ad_clock _ _ _ H1 (bo_steady _ (va_booted _ _ Hv))) as [_ Hl1].
  destruct cached as [v|].
  { intros [= <- <- <-]. split_and!; [done|done|]. intros ? [= <-]. exists tok. split; [done|].
    destruct (Get_vetted _ _ _ _ _ _ (va_tokens _ _ Hv1) (Hc1 v eq_refl)) as (e & Hst & <- & Hx). by eapply stems_rests. }
  destruct (cacheGet (refusalCache p) (hashKey tok) w1) as [refusal w2] eqn:E2. apply cacheGet_spec in E2 as [H2 _].
  pose proof (valid_later _ _ _ Hv1 H2) as Hv2. destruct (ad_clock _ _ _ H2 (bo_steady _ (va_booted _ _ Hv1))) as [_ Hl2].
  assert (advances hashKey w w2) as H12 by by etrans.
  destruct refusal as [e|]; [by intros [= <- <- <-]|]. destruct (ParseSigned tok) as [headers|] eqn:Eh; [|by intros [= <- <- <-]].
  destruct (jose_compact _ _ Eh) as [kid ->]. destruct (CandidateKIDs [kid]) as [kids|] eqn:Ek; [|by intros [= <- <- <-]].
  assert (kids = [kid]) as ->.
  { unfold CandidateKIDs, candidatesFrom in Ek. rewrite bool_decide_false in Ek by apply not_elem_of_nil.
    destruct (CheckKIDLength kid); [done|]. cbn in Ek. by injection Ek as <-. }
  destruct (VerifyWithKeyRotationMultiKID _ [kid] (mkCall w2 None 0 false)) as [res c] eqn:Ec.
  apply (call_spec p tok w2 (va_booted _ _ Hv2) (va_world _ _ Hv2)) in Ec as [Ha Hends]. destruct res as [v|e].
  - destruct (cachePut _ _ _ _ _) as [tc w3] eqn:Ep. intros [= <- <- <-].
    pose proof (cachePut_advances _ _ _ _ _ _ _ Ep) as H3. destruct (memoizeToken_spec _ _ _ _ _ _ _ Hv2 Hends Ep) as [H4 Hv3].
    split_and!; [by etrans|done|]. intros ? [= <-]. exists tok. split; [done|]. eapply ends_rests; [exact Hv2|lia|exact Hends|].
    apply (ad_clock _ _ _ H3). apply (ad_clock _ _ _ Ha). apply (va_booted _ _ Hv2).
  - intros [= <- Em]. destruct (memoizeRefusal_spec _ _ _ _ _ _ _ Hv2 Ha Hends Em) as [H3 Hv3]. split_and!; [by etrans|done|done].
Qed.

Lemma validateAll_valid headers : forall p w p' w', valid p w -> validate_all p w headers = (p', w') ->
  advances hashKey w w' /\ valid p' w'.
Proof.
  induction headers as [|h headers IH]; intros p w p' w' Hv; cbn; [by intros [= <- <-]|].
  destruct (validate p h w) as [r [p1 w1]] eqn:E. apply ValidateToken_spec in E as (Ha & Hv1 & _); [|done].
  intros [? ?]%IH; [|done]. split; [by etrans|done].
Qed.

(** ** The guarantees *)

Lemma EffectiveLeeway_nonneg d : 0 <= EffectiveLeeway d.
Proof. unfold EffectiveLeeway, KillSwitch.Resolve, DefaultTokenLeeway, second. repeat case_match; bools; lia. Qed.

Lemma newValidator_valid opts shared : p0 = newValidator opts shared -> valid p0 w0.
Proof.
  intros Hp. split; [by destruct p0|reflexivity|exact Hb0| |].
  - assert (tokenCache p0 = if shared then Some newJWTTokenCache else None) as -> by (by rewrite Hp).
    destruct shared; [apply new_vetted; unfold jwtTokenCacheTTL, second; lia|by intros ?].
  - assert (refusalCache p0 = if shared then Some newJWTRefusalCache else None) as -> by (by rewrite Hp).
    destruct shared; [apply new_vetted; unfold jwtRefusalCacheTTL, second; lia|by intros ?].
Qed.

Lemma validate_run opts shared headers p w h r p' w' : p0 = newValidator opts shared ->
  validate_all p0 w0 headers = (p, w) -> validate p h w = (r, (p', w')) ->
  valid p w /\ forall v, r = Ok v -> exists tokenStr, bearerToken h = Some tokenStr /\ rests tokenStr (Ok v) w w'.
Proof.
  intros Hp E1 E2. apply validateAll_valid in E1 as [_ Hv]; [|by eapply newValidator_valid]. split; [done|].
  by apply ValidateToken_spec in E2 as (_ & _ & ?).
Qed.
End trust.

Section guarantees.
Context `{U : Unicode} {UL : UnicodeLaws U} {K : Type} `{!Jose K} {JL : JoseLaws K} `{!JWK K} {JWL : JWKLaws K}.
Context (topLevelClaimWatch mcpMemberWatch : ClaimWatch) (hashKey : string -> string).
#[local] Abbreviation World := (KeyWorld (K := K)).
#[local] Instance the_source : KeySource World K := world_source hashKey.
#[local] Existing Instance call_source.

#[local] Abbreviation judge := (judgeToken topLevelClaimWatch mcpMemberWatch).
#[local] Abbreviation validate := (ValidateToken topLevelClaimWatch mcpMemberWatch hashKey).
#[local] Abbreviation validate_all := (validateAll topLevelClaimWatch mcpMemberWatch hashKey).
#[local] Abbreviation good := (good_claims topLevelClaimWatch mcpMemberWatch).

(** What the readers of a payload whose claims were accepted find. *)
Lemma readers_agree p tokenStr now exp v std mcp raw members :
  NewClaimWatch watchedTopLevelClaims = Some topLevelClaimWatch -> NewClaimWatch watchedMCPMembers = Some mcpMemberWatch ->
  good p tokenStr now exp v std mcp raw members ->
  exists payload ms, jwtPayloadSegment tokenStr = Some payload /\ claimObjectMembers payload = Ok ms /\
    (forall n, n ∈ watchedTopLevelClaims -> exists r, all_read n ms r) /\
    forall mcpBytes, all_read topLevelClaimMCP ms (Some mcpBytes) ->
      exists ms', claimObjectMembers mcpBytes = Ok ms' /\ (forall n, n ∈ watchedMCPMembers -> exists r, all_read n ms' r) /\
        (jc_HasCapabilities (v_claims v) = false -> all_read mcpMemberCapabilities ms' None).
Proof.
  intros [Hokt Hnt]%NewClaimWatch_spec [Hokm Hnm]%NewClaimWatch_spec [Hdec Hpay _ _ _ _ _ _ Hnull _ _ _ _ Hv].
  unfold readTokenPayload in Hpay. destruct (jwtPayloadSegment tokenStr) as [payload|] eqn:Es; [|done].
  destruct (decodeJWTClaimsPreservingNumbers payload) as [rawClaims|]; [|done]. unfold rejectUnreadableClaimNames in Hpay.
  destruct (ClaimMembers payload topLevelClaimWatch) as [top|] eqn:Et; [|done].
  destruct (ClaimMembers_ok _ _ _ Hokt Et) as (ms & Hms & Hall). exists payload, ms. split_and!; [done|done| |].
  { intros n Hn. eexists. by apply Hall, Hnt. }
  intros mcpBytes Hr. assert (top !! topLevelClaimMCP = Some mcpBytes) as Hm.
  { assert (watches topLevelClaimWatch topLevelClaimMCP) as Hw by (apply Hnt; by left).
    destruct (proj2 (Hall _ Hw) _ (or_introl eq_refl)) as [<- _]. by apply (Hr _ (or_introl eq_refl)). }
  rewrite Hm in Hpay. destruct (ClaimMembers mcpBytes mcpMemberWatch) as [mem|] eqn:Em; [|done]. cbn in Hpay. injection Hpay as <- <-.
  destruct (ClaimMembers_ok _ _ _ Hokm Em) as (ms' & Hms' & Hall'). exists ms'. split_and!; [done| |].
  { intros n Hn. eexists. by apply Hall', Hnm. }
  intros Hno. assert (watches mcpMemberWatch mcpMemberCapabilities) as Hw by (apply Hnm; right; by left).
  pose proof (proj2 (Hall' _ Hw)) as Hc. assert (mcp_Capabilities mcp = None) as Hnone.
  { subst v. cbn in Hno. apply bool_decide_eq_false in Hno. by destruct (mcp_Capabilities mcp); [destruct Hno|]. }
  cbn in Hnull. destruct (mem !! mcpMemberCapabilities) as [x|] eqn:Ex; [|exact Hc].
  destruct (Hc _ (or_introl eq_refl)) as [_ Hlast].
  destruct (jose_capabilities _ _ _ _ _ _ _ Hdec Hnone Es Hms (proj2 (Hr _ (or_introl eq_refl))) Hms'); congruence.
Qed.

Lemma unconstrained cnf : CnfIsSenderConstrained cnf = (false, false) -> cnf = None \/ cnf = Some VNull \/ cnf = Some (VObject []).
Proof.
  destruct cnf as [[| | | | | | | | |ms]|]; cbn; try done; [by right; left| |by left]. destruct (_ && _); [|done]. destruct ms; [by right; right|done].
Qed.

(** C9: A token is only accepted on the word of a key that the issuer served.  Whatever was
    validated before and whatever the caches hold, the claims that are returned were checked
    ([good_claims]: times, audience, issuer, version, capabilities, subject, confirmation) on a
    token of the same hash whose signature one of the issuer's keys verified, at an instant
    since the start; either that was this token in this call, or the answer is less than thirty
    seconds old and the token has not expired. *)
Theorem accepted_token_trusted opts shared (w0 : World) headers p w h v p' w' : booted w0 ->
  validate_all (newValidator opts shared) w0 headers = (p, w) -> validate p h w = (Ok v, (p', w')) ->
  exists tokenStr tokenStr' now exp,
    bearerToken h = Some tokenStr /\ hashKey tokenStr' = hashKey tokenStr /\
    (exists k : K, served w0 k /\ SignatureFailure tokenStr' k = None) /\
    (exists std mcp raw members, good (newValidator opts shared) tokenStr' now exp v std mcp raw members) /\
    kw_last w0 <= now <= kw_last w' /\
    (tokenStr' = tokenStr /\ kw_last w <= now \/
     exists kept, now <= kept <= kw_last w' /\ kw_last w' < time_add kept (30 * second) /\ kw_last w' < PayloadCache.unix_time exp).
Proof.
  intros Hb E1 E2. destruct (validate_run _ _ hashKey w0 _ Hb opts shared headers p w h _ p' w' eq_refl E1 E2) as [_ Hr].
  destruct (Hr v eq_refl) as (tok & Ht & tok' & now & exp & Hh & (Hz & Hk & Hj) & Hn & Hc).
  exists tok, tok', now, exp. split_and!; try done; [by apply judge_accepts in Hj| | |]; try lia.
  destruct Hc as [?|(t1 & ? & ? & He & Ho)]; [by left|right]. exists t1. split_and!; [lia..|]. apply He. by apply Ho.
Qed.

(** C16: A refusal that is kept cannot outlast its reason.  After any validations, an entry of the
    refusal cache stems from a token of that hash whose signature one of the issuer's keys
    verified and whose claims were refused; and whenever that token is judged again it is
    refused again, with the same fault for as long as it has not expired. *)
Theorem kept_refusal_stands opts shared (w0 : World) headers p w c key e : booted w0 ->
  validate_all (newValidator opts shared) w0 headers = (p, w) ->
  refusalCache p = Some c -> PayloadCache.entries c !! key = Some e ->
  exists tokenStr f now, hashKey tokenStr = key /\ PayloadCache.payload e = Rotation (TokenFault f) /\ memoizable f = true /\
    (exists k : K, served w0 k /\ SignatureFailure tokenStr k = None) /\ kw_last w0 <= now <= kw_last w /\
    PayloadCache.expiresAt e <= time_add (kw_last w) jwtRefusalCacheTTL /\
    (judge (newValidator opts shared) tokenStr now).2 = Err f /\
    forall t, zero_time < t -> exists f', (judge (newValidator opts shared) tokenStr t).2 = Err f' /\
      (now <= t -> (forall std mcp, UnsafeClaims tokenStr = Some (std, mcp) -> unexpired std t) -> f' = f).
Proof.
  intros Hb E1 Hc He. pose proof (newValidator_valid topLevelClaimWatch mcpMemberWatch hashKey w0 _ Hb opts shared eq_refl) as H0.
  destruct (validateAll_valid _ _ hashKey w0 _ Hb headers _ w0 p w H0 E1) as [_ [_ _ _ _ Hv]]. destruct (Hv c Hc) as (_ & _ & Hall).
  apply Hall in He as (f & Hp & Hm & tok & now & exp & t1 & Hh & (Hz & Hk & Hj) & Hn & Ht & Hx & _).
  exists tok, f, now. split_and!; try done; try lia.
  - unfold time_add in *. lia.
  - by rewrite Hj.
  - intros t Hzt. pose proof (EffectiveLeeway_nonneg (o_Leeway opts) : 0 <= leeway (newValidator opts shared)) as Hg.
    destruct (judge_refusal_final _ _ _ _ _ _ f t Hz Hzt Hg Hj Hm) as (f' & E & Hf). exists f'. by rewrite E.
Qed.

(** C15: Nothing in an accepted token is hidden from another reader of it.  The token whose claims
    were checked has a payload in which every registered claim is read alike by readers that
    match names exactly or fold their case and that keep the first or the last of repeated
    members, and likewise for the members of its [mcp] block; the confirmation that binds a
    token to a key is absent, null or empty; and a token that is taken to carry no
    capabilities has no such member for any reader, whatever its spelling. *)
Theorem nothing_hidden opts shared (w0 : World) headers p w h v p' w' : booted w0 ->
  NewClaimWatch watchedTopLevelClaims = Some topLevelClaimWatch -> NewClaimWatch watchedMCPMembers = Some mcpMemberWatch ->
  validate_all (newValidator opts shared) w0 headers = (p, w) -> validate p h w = (Ok v, (p', w')) ->
  exists tokenStr tokenStr' payload ms, bearerToken h = Some tokenStr /\ hashKey tokenStr' = hashKey tokenStr /\
    jwtPayloadSegment tokenStr' = Some payload /\ claimObjectMembers payload = Ok ms /\
    (forall n, n ∈ watchedTopLevelClaims -> exists r, all_read n ms r) /\
    (let cnf := jc_Extra (v_claims v) !! topLevelClaimCnf in cnf = None \/ cnf = Some VNull \/ cnf = Some (VObject [])) /\
    forall mcpBytes, all_read topLevelClaimMCP ms (Some mcpBytes) ->
      exists ms', claimObjectMembers mcpBytes = Ok ms' /\ (forall n, n ∈ watchedMCPMembers -> exists r, all_read n ms' r) /\
        (jc_HasCapabilities (v_claims v) = false -> all_read mcpMemberCapabilities ms' None).
Proof.
  intros Hb Ht Hm E1 E2. destruct (validate_run _ _ hashKey w0 _ Hb opts shared headers p w h _ p' w' eq_refl E1 E2) as [_ Hr].
  destruct (Hr v eq_refl) as (tok & Hbt & tok' & now & exp & Hh & (Hz & Hk & Hj) & _).
  apply judge_accepts in Hj as (std & mcp & raw & members & Hg); [|done].
  destruct (readers_agree _ _ _ _ _ _ _ _ _ Ht Hm Hg) as (payload & ms & ? & ? & ? & ?). exists tok, tok', payload, ms.
  split_and!; try done. cbv zeta. replace (jc_Extra (v_claims v)) with raw by (by rewrite (gc_claims _ _ _ _ _ _ _ _ _ _ _ Hg)).
  apply unconstrained, Hg.
Qed.
(** ** What is accepted *)

(** The keys are tried in turn until one verifies the signature, on the one instant that was
    read. *)
Lemma tryKeys_reaches p tokenStr now exp v keys : forall fresh last (c : call (W := World)) w2,
  judge p tokenStr now = (exp, Ok v) -> (exists k : K, k ∈ keys /\ SignatureFailure tokenStr k = None) ->
  (c_now c = Some now /\ fresh = false \/ c_now c = None /\ sample (c_world c) = (now, w2)) ->
  exists c', tryKeys (W := call (W := World)) (verifyKey topLevelClaimWatch mcpMemberWatch p tokenStr) keys fresh last c = (TriedResult v, c').
Proof.
  intros fresh last c w2 Hj. revert fresh last c. induction keys as [|k0 keys IH]; intros fresh last c (k & Hin & Hk) Hc; [by apply elem_of_nil in Hin|].
  cbn [tryKeys]. unfold verifyKey at 1.
  assert (exists c1, sampledNow fresh c = (now, c1) /\ c_now c1 = Some now) as (c1 & -> & Hn).
  { unfold sampledNow. destruct Hc as [[Hn ->]|[Hn Hs]]; rewrite Hn; [by exists c|]. cbn. unfold lift. rewrite Hs. by eexists. }
  destruct (SignatureFailure tokenStr k0) as [crypto|] eqn:E0; [|rewrite Hj; by eexists]. apply (IH false); [|by left].
  exists k. apply elem_of_cons in Hin as [->|?]; [congruence|done].
Qed.

(** C17: A good token is accepted.  If no cache speaks for the token, it has one header with an id
    of admissible length, one of the keys that the cached or fetched set holds for the id
    verifies its signature, in whatever place among keys that do not, and its claims are good
    at the instant that is read, then it is accepted, with those claims. *)
Theorem good_token_accepted p w h tokenStr kid keys w1 now w2 exp v :
  bearerToken h = Some tokenStr ->
  (tokenCache p ≫= fun c => PayloadCache.entries c !! hashKey tokenStr) = None ->
  (refusalCache p ≫= fun c => PayloadCache.entries c !! hashKey tokenStr) = None ->
  ParseSigned tokenStr = Some [kid] -> Z.of_nat (String.length kid) <= MaxKIDBytes ->
  getKeysLive (w : World) = (Ok keys, w1) -> (exists k : K, k ∈ FindKeys (Some keys) kid /\ SignatureFailure tokenStr k = None) ->
  sample w1 = (now, w2) -> judge p tokenStr now = (exp, Ok v) ->
  exists p' w', validate p h w = (Ok v, (p', w')).
Proof.
  intros Hb Ht Hr Hp Hl Hg Hk Hs Hj. unfold ValidateToken, cacheGet. rewrite Hb, Ht, Hr, Hp.
  assert (CheckKIDLength kid = None) as Hc by (unfold CheckKIDLength; by rewrite (proj2 (Z.ltb_ge _ _))).
  unfold CandidateKIDs, candidatesFrom. rewrite bool_decide_false by apply not_elem_of_nil. rewrite Hc. cbn [rbind].
  unfold VerifyWithKeyRotationMultiKID. cbn [verifyKIDs]. unfold VerifyWithKeyRotation. rewrite Hc. unfold selectKeys.
  cbn [ks_getKeys call_source the_source world_source keyworld_source]. unfold lift at 1. cbn [c_world]. rewrite Hg.
  destruct (tryKeys_reaches p tokenStr now exp v _ false None (mkCall w1 None 0 false) w2 Hj Hk) as [c' Hc']; [by right|].
  destruct (FindKeys (Some keys) kid) as [|k0 l]; [by destruct Hk as (? & ?%elem_of_nil & _)|].
  cbn [c_now c_tokenExpUnix c_signatureVerified]. rewrite Hc'. destruct (cachePut _ _ _ _ _) as [tc w']. by eexists _, _.
Qed.
End guarantees.
End TokenTrust.
