(* ===== verification/TokenTrustScenarios.v ===== *)
(** * Token verification on concrete runs

    A small signing scheme and key set that satisfy what TokenTrust.v asks of the library, and
    the theorems of the caches, the claim scan, the key set and the validator applied to
    concrete tokens. *)
From stdpp Require Import base tactics list gmap strings sorting.
From Stdlib Require Import ZArith Lia Ascii String.
From S2P Require Import Prelude GoStrings GoPath Truncate CallCounter Glob Capability CaseFold Selection.
From S2P Require Import Anchor Backends Engine KillSwitch SurfacePin ManifestPDP ArgumentPath ArgumentHandlers JSON KeyScan ToolSurface ListFilter.
From S2P Require Import TokenClaims PayloadCache ClaimScan KeyCache KeyRotation TokenValidation TokenTrust.
#[local] Open Scope string_scope.
#[local] Open Scope Z_scope.
Import GoPath Truncate Capability CaseFold ManifestPDP JSON TokenClaims ClaimScan KeyCache KeyRotation TokenValidation TokenTrust.

Module TokenTrustScenarios.

(** ** A library of tokens *)

(** A key is an id and a secret; the signature of a token is the secret of its key, and its
    header is the id. *)
Definition Key : Type := string * string.

#[local] Instance key_jwk : JWK Key := {|
  Thumbprint k := Some (k.1 ++ "/" ++ k.2);
  keysNamed ks kid := List.filter (fun k => String.eqb k.1 kid) ks;
|}.

#[local] Instance key_laws : JWKLaws Key.
Proof. split. intros ks kid k. cbn. rewrite elem_of_lfilter. tauto. Qed.

Definition decoded (name : string) (ms : list (string * string)) : option value := readLast (exactly name) ms ≫= document.
Definition text_at (name : string) (ms : list (string * string)) : string :=
  match decoded name ms with Some (VString s) => s | _ => "" end.
Definition number_at (name : string) (ms : list (string * string)) : option Z :=
  match decoded name ms with
  | Some (VNumber l) => Some (fold_left (fun n c => 10 * n + (byte_val c - 48)) (list_ascii_of_string l) 0)
  | _ => None
  end.
Definition texts (v : option value) : list string :=
  match v with Some (VArray l) => omap (fun v => match v with VString s => Some s | _ => None end) l | _ => [] end.

Definition capabilities_of (ms : list (string * string)) : option (list string) :=
  match readLast (exactly mcpMemberCapabilities) ms with
  | None => None
  | Some raw => if String.eqb raw "null" then None else Some (texts (document raw))
  end.

Definition demo_std (ms : list (string * string)) : stdClaims :=
  mkStd (text_at "iss" ms) (text_at "sub" ms) (text_at "jti" ms) (texts (decoded "aud" ms)) (number_at "exp" ms)
    (number_at "nbf" ms) (number_at "iat" ms).

Definition demo_mcp (ms : list (string * string)) : option mcpClaimSet :=
  match readLast (exactly topLevelClaimMCP) ms with
  | None => Some (mkMCP "" None "" "")
  | Some raw =>
      match claimObjectMembers raw with
      | Err _ => None
      | Ok ms' => Some (mkMCP (text_at "v" ms') (capabilities_of ms') (text_at "task_id" ms') (text_at "agent_id" ms'))
      end
  end.

Definition meets (auds : list string) (std : stdClaims) : bool :=
  (List.length auds =? 0)%nat || existsb (fun a => bool_decide (a ∈ std_Audience std)) auds.

Definition at_most (o : option Z) (P : Z -> bool) : bool := match o with None => true | Some n => P n end.

#[local] Instance demo_jose : Jose Key := {|
  ParseSigned tok := match split_char "." tok with [kid; _; _] => Some [kid] | _ => None end;
  SignatureFailure tok k :=
    match split_char "." tok with [_; _; s] => if String.eqb s k.2 then None else Some true | _ => Some false end;
  UnsafeClaims tok :=
    payload ← jwtPayloadSegment tok;
    match claimObjectMembers payload with
    | Err _ => None
    | Ok ms => mcp ← demo_mcp ms; Some (demo_std ms, mcp)
    end;
  ValidateWithLeeway std now auds grace :=
    if negb (meets auds std) then Some ErrInvalidAudience
    else if negb (at_most (std_NotBefore std) (fun n => PayloadCache.unix_time n <=? now + grace)) then Some ErrNotValidYet
    else if negb (at_most (std_Expiry std) (fun e => now - grace <=? PayloadCache.unix_time e)) then Some ErrExpired
    else if negb (at_most (std_IssuedAt std) (fun i => PayloadCache.unix_time i <=? now + grace)) then Some ErrIssuedInTheFuture
    else None;
|}.

Lemma meets_audience auds std : meets auds std = true <-> audience_meets auds std.
Proof.
  unfold meets, audience_meets. rewrite orb_true_iff, Nat.eqb_eq, length_zero_iff_nil, existsb_exists.
  setoid_rewrite bool_decide_eq_true. setoid_rewrite list_elem_of_In. tauto.
Qed.

Lemma at_most_iff o (P : Z -> bool) : at_most o P = true <-> forall n, o = Some n -> P n = true.
Proof. destruct o as [n|]; cbn; split; [by intros ? ? [= <-]|auto|done|done]. Qed.

#[local] Instance demo_laws : JoseLaws Key.
Proof.
  split.
  - intros std now auds grace _. cbn. rewrite <- meets_audience. destruct (meets auds std); cbn; [|done]. repeat case_match; done.
  - intros std now auds grace _. cbn. rewrite <- meets_audience. unfold live.
    setoid_rewrite <- Z.leb_le. rewrite <- !at_most_iff.
    destruct (meets auds std); [cbn|by split; [|intros []]]. do 3 (case (at_most _ _); cbn; [|by split; [|intros (? & ? & ? & ?)]]). done.
  - intros tok headers. cbn. repeat case_match; try done. intros [= <-]. by eexists.
  - intros tok std mcp payload ms raw ms' Hd Hc Hp Hm Hr Hm'. cbn in Hd. rewrite Hp in Hd. cbn in Hd. rewrite Hm in Hd.
    unfold demo_mcp in Hd. rewrite Hr, Hm' in Hd. cbn in Hd. injection Hd as <- <-. cbn in Hc. unfold capabilities_of in Hc.
    destruct (readLast (exactly mcpMemberCapabilities) ms') as [c|]; [|by left].
    destruct (String.eqb_spec c "null") as [E|]; [right; by rewrite E|done].
Qed.

(** ** A run of the validator *)

Definition idp_keys : list Key := [("k1", "s1"); ("k2", "s2")].

(** {"iss":"idp","sub":"alice","aud":["gw"],"iat":1000,"exp":2000,"mcp":{"v":"0.2"}} *)
Definition good_token : string :=
  "k1.eyJpc3MiOiJpZHAiLCJzdWIiOiJhbGljZSIsImF1ZCI6WyJndyJdLCJpYXQiOjEwMDAsImV4cCI6MjAwMCwibWNwIjp7InYiOiIwLjIifX0.s1".

(** The same with the version 0.3. *)
Definition newer_token : string :=
  "k1.eyJpc3MiOiJpZHAiLCJzdWIiOiJhbGljZSIsImF1ZCI6WyJndyJdLCJpYXQiOjEwMDAsImV4cCI6MjAwMCwibWNwIjp7InYiOiIwLjMifX0.s1".

Definition demo_options : ValidatorOptions := mkOptions "idp" "gw" false [] false 0 false.

Definition demo_top : ClaimWatch := default (mkWatch ∅) (NewClaimWatch watchedTopLevelClaims).
Definition demo_members : ClaimWatch := default (mkWatch ∅) (NewClaimWatch watchedMCPMembers).

(** Eleven hundred seconds after the epoch; the clock ticks seconds. *)
Definition demo_world : KeyWorld (K := Key) :=
  mkWorld (NewJWKSCache 0) (map (fun n => (1100 + Z.of_nat n) * second) (seq 0 20)) (1100 * second) [Fetched (Some idp_keys)].

#[local] Instance demo_source : KeySource (KeyWorld (K := Key)) Key := keyworld_source (fun s => s).

Definition demo_validate := ValidateToken demo_top demo_members (K := Key) (W := KeyWorld (K := Key)) (fun s => s).
Definition demo_run := validateAll demo_top demo_members (K := Key) (W := KeyWorld (K := Key)) (fun s => s).

Lemma demo_booted : booted demo_world.
Proof.
  split; [|reflexivity|cbn; unfold second, zero_time; lia]. apply (bool_decide_unpack (Sorted Z.le _)). vm_compute. exact I.
Qed.

(** The first time the key set is fetched and the token verified, the second time the answer is
    the cached one. *)
Definition accepted_once := demo_run (newValidator demo_options true) demo_world ["Bearer " ++ good_token].
Definition accepted_again := demo_validate accepted_once.1 ("bearer " ++ good_token) accepted_once.2.

Example accepted_claims :
  match accepted_again.1 with Ok v => Some (jc_Subject (v_claims v), jc_HasCapabilities (v_claims v), v_ExpiresAt v) | Err _ => None end =
    Some ("alice", false, 2000 * second).
Proof. vm_compute. reflexivity. Qed.

Lemma ok_inv {A E} (r : result A E) : is_ok r = true -> exists a, r = Ok a.
Proof. destruct r as [a|]; [by exists a|done]. Qed.

Lemma accepted_run : exists v,
  demo_run (newValidator demo_options true) demo_world ["Bearer " ++ good_token] = (accepted_once.1, accepted_once.2) /\
  demo_validate accepted_once.1 ("bearer " ++ good_token) accepted_once.2 = (Ok v, (accepted_again.2.1, accepted_again.2.2)).
Proof.
  destruct (ok_inv accepted_again.1) as [v Hv]; [vm_compute; reflexivity|]. exists v. split; [apply surjective_pairing|].
  rewrite <- Hv. change (demo_validate accepted_once.1 ("bearer " ++ good_token) accepted_once.2) with accepted_again.
  rewrite <- !surjective_pairing. reflexivity.
Qed.

Lemma bearer_good : bearerToken ("bearer " ++ good_token) = Some good_token.
Proof. vm_compute. reflexivity. Qed.

Lemma accepted_token_trusted_witness :
  is_ok accepted_again.1 = true /\ exists k : Key, served demo_world k /\ SignatureFailure good_token k = None.
Proof.
  split; [vm_compute; reflexivity|]. destruct accepted_run as (v & E1 & E2).
  destruct (accepted_token_trusted demo_top demo_members (fun s => s) demo_options true demo_world _ _ _ _ _ _ _ demo_booted E1 E2)
    as (tok & tok' & now & exp & Hb & Hh & Hk & _).
  rewrite bearer_good in Hb. injection Hb as <-. rewrite Hh in Hk. exact Hk.
Defined.

Lemma nothing_hidden_witness :
  is_ok accepted_again.1 = true /\ exists payload ms, jwtPayloadSegment good_token = Some payload /\
    claimObjectMembers payload = Ok ms /\ exists r, all_read "sub" ms r.
Proof.
  split; [vm_compute; reflexivity|]. destruct accepted_run as (v & E1 & E2).
  destruct (nothing_hidden (UL := asciiLaws) demo_top demo_members (fun s => s) demo_options true demo_world _ _ _ _ _ _ _ demo_booted
    ltac:(vm_compute; reflexivity) ltac:(vm_compute; reflexivity) E1 E2)
    as (tok & tok' & payload & ms & Hb & Hh & Hp & Hm & Hall & _).
  rewrite bearer_good in Hb. injection Hb as <-. rewrite Hh in Hp. exists payload, ms. split_and!; [exact Hp|exact Hm|].
  apply Hall. apply list_elem_of_further, list_elem_of_here.
Defined.

(** The first key of the set does not verify the signature, the second does. *)
Definition two_keys : list Key := [("k1", "old"); ("k1", "s1")].
Definition two_keys_world : KeyWorld (K := Key) :=
  mkWorld (NewJWKSCache 0) (map (fun n => (1100 + Z.of_nat n) * second) (seq 0 20)) (1100 * second) [Fetched (Some two_keys)].

Lemma good_token_accepted_witness :
  exists v p' w', demo_validate (newValidator demo_options true) ("Bearer " ++ good_token) two_keys_world = (Ok v, (p', w')).
Proof.
  set (w1 := (getKeysLive two_keys_world).2). set (now := (sample w1).1).
  destruct (ok_inv (judgeToken demo_top demo_members (newValidator demo_options true) good_token now).2) as [v Hv]; [vm_compute; reflexivity|].
  exists v. apply (good_token_accepted demo_top demo_members (fun s => s) (newValidator demo_options true) two_keys_world
    ("Bearer " ++ good_token) good_token "k1" two_keys w1 now (sample w1).2
    (judgeToken demo_top demo_members (newValidator demo_options true) good_token now).1 v).
  - vm_compute. reflexivity.
  - vm_compute. reflexivity.
  - vm_compute. reflexivity.
  - vm_compute. reflexivity.
  - vm_compute. discriminate.
  - assert ((getKeysLive two_keys_world).1 = Ok two_keys) as <- by (vm_compute; reflexivity). apply surjective_pairing.
  - exists ("k1", "s1"). split; [vm_compute; apply list_elem_of_further, list_elem_of_here|vm_compute; reflexivity].
  - apply surjective_pairing.
  - rewrite <- Hv. apply surjective_pairing.
Defined.

(** ** A refusal that is kept *)

Definition refused_once := demo_run (newValidator demo_options true) demo_world ["Bearer " ++ newer_token].
Definition refused_again := demo_validate refused_once.1 ("Bearer " ++ newer_token) refused_once.2.

Example refusal_kept :
  match refused_again.1 with Ok _ => "" | Err e => ClassifyJWTError (Some e) end = jwtErrUnsupportedVersion /\
  kw_attempts refused_again.2.2 = [].
Proof. vm_compute. split; reflexivity. Qed.

Lemma kept_refusal_stands_witness :
  exists f, (judgeToken demo_top demo_members (newValidator demo_options true) newer_token (3000 * second)).2 = Err f.
Proof.
  destruct (refusalCache refused_once.1) as [c|] eqn:Ec; [|exfalso; vm_compute in Ec; discriminate].
  destruct (PayloadCache.entries c !! newer_token) as [e|] eqn:Ee.
  2:{ exfalso. assert (is_ok match refusalCache refused_once.1 with
        | Some c => match PayloadCache.entries c !! newer_token with Some _ => Ok () | None => Err () end
        | None => Err ()
        end = true) as Hn by (vm_compute; reflexivity).
      rewrite Ec, Ee in Hn. discriminate Hn. }
  destruct (kept_refusal_stands demo_top demo_members (fun s => s) demo_options true demo_world
    ["Bearer " ++ newer_token] refused_once.1 refused_once.2 c newer_token e demo_booted (surjective_pairing _) Ec Ee)
    as (tok & f & now & -> & _ & _ & _ & _ & _ & _ & Ht).
  destruct (Ht (3000 * second)) as (f' & E & _); [reflexivity|]. exists f'. exact E.
Defined.

(** ** The cache of payloads *)

Definition text_cache (maxSize : Z) : PayloadCache.PayloadCacheConfig (T := string) :=
  PayloadCache.mkConfig 0 maxSize (Some (fun v => Some v)).

Definition put (key v : string) (sec : Z) : PayloadCache.op (T := string) := PayloadCache.OpPut key v 2000 (sec * second).

Lemma hit_is_live_witness :
  let ops := [put "a" "x" 1100; put "b" "y" 1101; put "a" "z" 1102] in
  PayloadCache.Get (PayloadCache.run (Some (PayloadCache.NewPayloadCache (text_cache 2))) ops) "a" (1131 * second) = Some "z" /\
  PayloadCache.logGet (PayloadCache.cfg (PayloadCache.NewPayloadCache (text_cache 2))) ops "a" (1131 * second) = Some "z".
Proof.
  intros ops. split; [vm_compute; reflexivity|].
  destruct (PayloadCache.hit_is_live (text_cache 2) ops "a" (1131 * second) "z") as [H _]; [vm_compute; reflexivity|exact H].
Defined.

Lemma cache_bounded_witness :
  let ops := [put "a" "x" 1100; put "b" "y" 1101] in
  match PayloadCache.run (Some (PayloadCache.NewPayloadCache (text_cache 2))) ops with
  | None => False
  | Some c1 =>
      match PayloadCache.Put (Some c1) "c" "z" 2000 (1102 * second) with
      | None => False
      | Some c2 => PayloadCache.entries c2 !! "a" = None /\ head (PayloadCache.insertOrder c1) = Some "a"
      end
  end.
Proof.
  intros ops. destruct (PayloadCache.run _ ops) as [c1|] eqn:E1; [|vm_compute in E1; discriminate].
  destruct (PayloadCache.Put (Some c1) "c" "z" 2000 (1102 * second)) as [c2|] eqn:E2;
    [|vm_compute in E1; injection E1 as <-; vm_compute in E2; discriminate].
  assert (PayloadCache.entries c2 !! "a" = None) as Hlost.
  { vm_compute in E1. injection E1 as <-. vm_compute in E2. injection E2 as <-. vm_compute. reflexivity. }
  split; [exact Hlost|].
  destruct (PayloadCache.cache_bounded (text_cache 2) ops "c" "z" 2000 (1102 * second) "a"
    (PayloadCache.mkEntry "x" (1130 * second)) c1 c2 E1 E2) as [_ H].
  destruct H as [Hf|(_ & H & _)]; [ | discriminate | exact Hlost | | exact H].
  - vm_compute in E1. injection E1 as <-. vm_compute. reflexivity.
  - vm_compute in Hf. discriminate.
Defined.

(** ** The claim scan *)

Lemma claims_read_alike_witness :
  ClaimMembers (text "{'iss':'idp','ISS':'other'}") demo_top = Err (ErrClaimNameCollision [("iss", "ISS", "iss")] []) /\
  exists ms n, claimObjectMembers (text "{'iss':'idp','ISS':'other'}") = Ok ms /\ watches demo_top n /\
    (1 < List.length (candidates n ms))%nat.
Proof.
  assert (ClaimMembers (text "{'iss':'idp','ISS':'other'}") demo_top = Err (ErrClaimNameCollision [("iss", "ISS", "iss")] [])) as E
    by (vm_compute; reflexivity).
  split; [exact E|].
  pose proof (claims_read_alike (UL := asciiLaws) watchedTopLevelClaims demo_top (text "{'iss':'idp','ISS':'other'}")
    ltac:(vm_compute; reflexivity)) as H.
  rewrite E in H. exact H.
Defined.

(** ** The key set *)

(** The set is cached and served again to every fetch. *)
Definition key_world : KeyWorld (K := Key) :=
  (getKeysLive (mkWorld (NewJWKSCache 0) (map (fun n => (1100 + Z.of_nat n) * second) (seq 0 40)) (1100 * second)
    (repeat (Fetched (Some idp_keys)) 5))).2.

Definition forced_once := forceRefreshForKIDLive (fun s => s) "k7" key_world.

Lemma forced_fetches_spaced_witness :
  let w2 := key_run (fun s => s) forced_once.2 [OpForce "k8"; OpKeys; OpForce ""] in
  let last := forceRefreshForKIDLive (fun s => s) "k9" w2 in
  fetchTicket (kw_cache last.2) = fetchTicket (kw_cache w2) /\
  Z.of_nat (size (negKIDs (kw_cache last.2))) <= negativeKIDMaxLen + 1.
Proof.
  intros w2 last. split; [vm_compute; reflexivity|].
  destruct (forced_fetches_spaced (fun s => s) "k7" key_world idp_keys forced_once.2 [OpForce "k8"; OpKeys; OpForce ""] "k9" last.1 last.2)
    as [_ H].
  - apply (bool_decide_unpack (Sorted Z.le _)). vm_compute. exact I.
  - vm_compute. discriminate.
  - assert (forced_once.1 = Ok idp_keys) as <- by (vm_compute; reflexivity). apply surjective_pairing.
  - vm_compute. discriminate.
  - vm_compute. reflexivity.
  - right. split; [vm_compute; reflexivity|vm_compute; discriminate].
  - apply surjective_pairing.
  - exact H.
Defined.

(** Two fetches overlap; the second finishes first. *)
Definition two_flying : JWKSCache (K := Key) := (beginFetch (beginFetch (NewJWKSCache 0)).2).2.
Definition second_done : JWKSCache (K := Key) := (finishFetch two_flying 2 [("k2", "s2")] (1105 * second)).2.

Lemma newest_fetch_installed_witness :
  (finishFetch second_done 1 [("k1", "withdrawn")] (1106 * second)).2 = second_done.
Proof.
  assert (overlap 0 second_done [1] [(2, [("k2", "s2")])]) as Ho.
  { apply (overlap_finish 0 two_flying [2; 1] [] 2 [1]); [|reflexivity]. apply overlap_begin; [|reflexivity].
    apply (overlap_begin 0 (NewJWKSCache 0) [] []); [apply overlap_new|reflexivity]. }
  pose proof (newest_fetch_installed 0 second_done [1] [(2, [("k2", "s2")])] Ho) as H.
  destruct H as (gen & Hin & _ & H). apply list_elem_of_singleton in Hin. injection Hin as ->.
  rewrite (H 1); [reflexivity|apply list_elem_of_here|reflexivity].
Defined.
End TokenTrustScenarios.
